(* ===== verification/_CoqProject ===== *)
-Q . S2P
Prelude.v
Ids.v
Stl.v
Values.v
Tuples.v
Aggs.v
Keys.v
CommonTable.v
TableInv.v
RefTable.v
TableLookup.v
TableAggs.v
Table2.v
Fdbuf.v
Xdr.v
Casts.v
Oper.v
Names.v
Exprs.v
Pel.v
PelLexer.v
PelSafe.v
PelText.v
PelGen.v
Terms.v
Catalog.v
Program.v
EcaStage.v
Stages.v
PelCorrect.v
Frag.v
Delivery.v
Ordered.v
Congest.v
Congested.v
LossRate.v
Elements.v
Specs.v
Graph.v
Plumbing.v
Loop.v
Flow.v
Route.v
Sched.v
Joins.v
Commit.v
AggWrap.v
Transforms.v
Overlog.v
Rules.v
Localize.v
Eca.v
RulePel.v
RulePlanner.v
Strands.v
