(* ===== verification/Prelude.v ===== *)
(** * P2: a verification development of the P2 declarative-networking runtime

    P2 compiles Overlog rules into a dataflow of elements that exchange tuples,
    keep them in soft-state tables and ship them over the network.  This
    library models the values and tuples that flow, the tables that store them,
    the expression language and its virtual machine, the elements that move
    tuples, the path of a packet to the wire and back, and the rewritings that
    turn Overlog rules into rules for one node and one event.

    ** Parts of the program and where they are modelled

    Data:
    - Ids.v: [class ID] of src/p2core/ID.C, the 160-bit identifiers of the
      overlay ring, word by word.
    - Stl.v: the ordered containers of the C++ library the program uses
      ([lower_bound], [find], [insert], [erase] of sets, multisets, maps).
    - Values.v, Tuples.v: src/p2core/value.C, val_*.C, list.C, set.C, tuple.C: the
      value classes as one inductive type, type codes, [compareTo], [List],
      [Set], tuples.
    - Casts.v: the [cast] and [toString] functions of the value classes.
    - Oper.v: src/p2core/oper.C, the operators on values.

    Tables:
    - Aggs.v: src/aggregates and aggFactory.C, the aggregate function objects.
    - Keys.v, CommonTable.v: src/p2core/commonTable.C, commonTable.h: keys and
      comparators; the table object with its heap of entries, primary index,
      secondary indices, aggregates and listeners; insertion and removal steps,
      iterators, lookups, scans.
    - TableInv.v: the table invariant and its preservation by those steps.
    - RefTable.v (Module [RefTable]): src/p2core/refTable.C.
    - Table2.v (Module [Table2]): src/p2core/table2.C, tables with a size limit
      and a lifetime.
    - TableLookup.v, TableAggs.v: what lookups deliver and aggregates announce.

    Expressions:
    - Pel.v: the stack machine of src/p2core/pel/pel_vm.C, every opcode.
    - PelLexer.v, PelText.v: pel_lexer.lex, [compile] and [decompile].
    - PelSafe.v: what the opcodes do to the stack, errors and exceptions.
    - Names.v: the schema operations of src/p2core/compileUtil.C.
    - Exprs.v: the expression classes of src/lang/parse/parseContext.
    - PelGen.v, PelCorrect.v: the expression compiler of compileUtil.C and its
      correctness against a direct evaluator.

    The wire:
    - Fdbuf.v: src/p2core/fdbuf.C, byte buffers.
    - Xdr.v: src/p2core/xdrbuf.C and the marshalling code of all value classes
      and of tuples, written against the class [XdrStream], which [Fdbuf]
      implements.
    - Frag.v: src/net/frag.C and defrag.C.
    - Delivery.v: src/net/tupleseq.C, cumulativeAck.C, dupRemove.C.
    - Ordered.v: src/net/odelivery.C, rdelivery.C.

    The dataflow:
    - Elements.v: src/p2core/element.C (ports, default push and pull), the
      filters, [Queue], [Slot] and the table listeners of src/elements.
    - Flow.v: [RoundRobin], [DRoundRobin], [Duplicate] and its variants.
    - Route.v: [Mux], [Demux] and their variants.
    - Sched.v: runnables, [PullPush], [TimedPullPush], [Switch], the loop of
      src/p2core/scheduler.C, and a pipeline composed of them.

    The planner:
    - Overlog.v: src/overlog/parser_util and ol_context: expressions, predicates,
      statements; src/planner/tableStore.C, planContext.C: the catalog of tables
      and the tracker of field names.
    - Rules.v: what a rule derives from a database; the canonical form of heads.
    - Localize.v: src/planner/localize_context.C.
    - Eca.v: src/planner/eca_context.C.
    - RulePel.v: src/planner/rulePel.C, the PEL text of selections, assignments
      and expressions of a rule.
    - RulePlanner.v: src/planner/rulePlanner.C, ruleStrand.C, planContext.C,
      planner.C: the chain of elements made for a rule.
    - Strands.v: that chain, run element by element, against what the rule
      derives.

    Between tables and dataflow:
    - Joins.v: [Lookup2], [RangeLookup], [Insert], [Delete], [Aggregate] of
      src/elements, over the class [TableOps] that [RefTable] and [Table2]
      implement.
    - Commit.v: src/p2core/commitManager.C, [phase2] of scheduler.C, [Insert2],
      [Delete2], [CommitBuf].
    - AggWrap.v: src/elements/aggwrap2.C, aggwrap2Callback.C.
    - Transforms.v: [PelTransform], [Marshal], [MarshalField], [UnboxField],
      [Hexdump] and the like.


    The program around the dataflow:
    - Specs.v: src/p2core/elementSpec.C: the push/pull personalities of ports, the
      groups of ports a flow code ties together, their unification.
    - Graph.v: src/p2core/dataflow.C, dataflowEdit.C, plumber.C: the checks of a
      graph of elements, its installation, the pruning of an edit.
    - Plumbing.v: what those checks and edits guarantee.
    - Loop.v: src/p2core/loop.C: timers, file descriptors, rounds.
    - Catalog.v: src/p2core/tableManager.C, systemTable.h: the tables that
      describe the tables, and the catalog at start-up.
    - Terms.v, Program.v: src/lang/parse/parseContext.C: predicates, terms and
      rules with their canonical form; statements and the rows they leave in the
      catalog; src/lang/compileContext.C, the base of the compiler's stages.
    - EcaStage.v: src/lang/eca/ecaContext.C, the stage that picks the event of a
      rule and numbers its terms.
    - Stages.v: src/elements/stage.C with a processor as a class, and
      src/stages/tokenizer.C, which implements it.
    - Congest.v, Congested.v: src/net/roundTripTimer.C, basicAck.C, cct.C, rcct.C:
      round trip times, acknowledgements, windows and rates of senders;
    - LossRate.v: src/net/rccr.C: the history of arrivals and the loss rate.

    Tables call aggregates and listeners from within insertion and removal;
    [Table2] and [RefTable] are built on [CommonTable]; [Frag] marshals with
    Xdr.v onto an [Fdbuf] and hands its fragments to whatever network carries
    them to [Defrag], which unmarshals.  The expression compiler prints PEL text
    that the lexer reads and the machine runs.  [OL_Context] registers rules,
    [Localize_Context] cuts them, [ECA_Context] splits them by events, over the
    tables of the [TableStore].

    ** How the code is translated

    C++ objects are records and operations are functions from the state to the
    new state; an operation that can fail answers in the type [res]: a failed
    [assert], an exception, the end of the process, or undefined behaviour
    ([failure] below; [OutOfFuel] and [Unmodelled] are the model's own).  What an
    operation had done before it failed is not recorded.  Pointers to table
    entries are locations in an explicit heap, so that sharing between indices,
    the expiry queue and the primary index, double frees and leaks can be
    stated; a freed location is not used again.  Lists and sets that the PEL
    machine shares carry a flag that tells who else holds them; a change of a
    shared object is [Unmodelled].  Containers are the lists of their elements in
    iteration order.  Machine integers are [Z] with explicit wrap-around where
    the code can wrap ([u32], [u64]); doubles are IEEE 754 values as in Stdlib's
    SpecFloat.  Calls to listeners and callbacks are recorded, not run: they do
    not re-enter the object that calls them, and a composition ([pipe] of
    Sched.v) applies them after the call.  Time, random numbers, the answers of
    neighbours and the outcome of system calls are arguments.  A timer is an
    action of the operation that arms or cancels it; its firing is an operation.
    Tuple identities come from the counter of [Tuple], passed along.

    Code outside the repository is a parameter: boost's printing and parsing of
    times ([Platform] of Casts.v), regular expressions, SHA-1, exp, log and the
    security library ([Externals] of Pel.v), boost's [duration_from_string]
    (the [Table2] constructor that uses it); so is what an iterator that
    [vector::insert] has invalidated compares equal to ([stale_end] of
    Ordered.v).

    Loops that are not structural carry fuel: [flush_expired] and [flush_size]
    (the queue length is enough, [Table2_flush_correct]), [free_primary] (the
    length of the index, [tables_free_entries]), [xdr_unmarshal] (the number of
    bytes in the buffer, [tuple_unmarshal_terminates], for arbitrary input),
    [blocks] (the length of the payload, [frag_defrag_roundtrip]), the string
    replacement of the PEL machine ([strreplace_terminates]), the lexer (the
    length of the text, [decompile_roundtrip] and [expression_compiled]), the
    loops of [PullPush] and the scheduler ([pipeline_is_channel],
    [scheduler_quiesces]), localisation (the number of predicates,
    [localize_terminates]).  Each of these theorems shows that the bound is not
    reached; for localisation there are rules on which the source does not stop
    ([localize_may_diverge]).

    ** What the theorems show

    - Values and identifiers: ring arithmetic, arcs and shifts are those of
      numbers modulo 2^160 ([ring_arithmetic], [between_correct],
      [shifts_correct]); [compareTo] is a total preorder on values without
      collections, with collections it is not ([compareTo_total_order],
      [collections_break_symmetry]); sets obey set algebra ([set_algebra]).
      The operators of the machine compute in that ring on identifiers
      ([ring_operators]) and keep results in range and in their class
      ([results_in_range], [result_types]).
    - Tables: every reachable [Table2] keeps sorted, complete indices, sound
      aggregates, exact reference counts and its size limit
      ([Table2_reachable_inv]); insertion, removal, refresh and expiry on every
      branch ([Table2_insert_correct], [Table2_remove_correct],
      [Table2_flush_correct]); [RefTable] implements a counted set
      ([RefTable_runs_refine]); lookups, scans and range lookups deliver exactly
      the matching tuples ([lookup_correct], [projecting_lookup_correct],
      [scan_correct], [range_lookup_correct]); aggregates announce exactly the
      changes, MKSET only its first result ([aggregate_update_correct]);
      destruction frees each entry once ([tables_free_entries]).
    - Expressions: generated programs, read by the lexer and run by the machine,
      agree with a direct evaluation ([expression_compiled],
      [selection_compiled], [assignment_compiled]) and compiling what [decompile]
      prints gives the program back ([decompile_roundtrip]), both for constants
      the lexer reads back and texts it does not mistake for vectors; operations
      take no
      more than their arity ([arity_suffices]) and exceptions stay inside
      ([execute_catches]); joins of schemas ([joinKeys_correct],
      [merge_correct]).
    - The wire: a buffer is a byte queue, but for a push that has to move bytes
      onto a place that overlaps them ([fdbuf_is_queue]); values and batches
      of tuples survive marshalling ([value_xdr_roundtrip],
      [tuples_xdr_roundtrip]); unmarshalling ends on any input; the fragments of
      a packet reassemble to it in every order, when nothing comes in between
      ([frag_defrag_roundtrip]);
      cumulative acknowledgement and duplicate removal are exact
      ([cumulative_ack_exact], [dup_remove_exact]); ordered delivery is in order
      and without repetition for senders that do not start anew, and without loss
      up to the first gap as long as no timer gives a packet up
      ([odelivery_in_order]).
    - The dataflow: a queue, a [PullPush] and a slot in a row are a channel
      ([pipeline_is_channel]); fairness, routing, back-pressure and quiescence
      ([round_robin_fair], [mux_never_stuck], [demux_push_correct],
      [queue_backpressure], [scheduler_quiesces], [timed_pull_push_quota]).
    - The planner: canonical heads ([rule_canonical_correct]) and localisation
      ([localize_meaning]) keep the meaning of a rule; localised rules are local
      ([localized_rules_local]) and localisation ends ([localize_terminates]);
      delta rules bring about exactly what an insertion adds, with the action
      and the target it takes, also by way of another node
      ([view_delta_correct]), and what a removal takes away
      ([view_delete_undoes_insert]); event rules act for exactly what the rule
      derives ([event_rule_correct]).
    - The elements a rule becomes: a strand turns an event into exactly the head
      tuples the rule derives ([strand_correct]), given that every probe finds
      something - what happens otherwise is [unmatched_probe]; [Lookup2] joins
      ([lookup_element_joins]); an event sees the tables as the previous event's
      commit left them ([phase2_atomic]) and its updates do not depend on their
      order ([commit_order_free]); the aggregation wrapper answers with the
      aggregate of what its strand returned ([aggwrap_correct]); marshalled
      fields come back ([marshal_field_roundtrip]).
    - The graph of elements: the push-and-pull check ends and accepts exactly the
      graphs whose ports can be given personalities ([push_pull_decides]); a
      validated graph uses every port once ([validate_sound]), an installed one
      is connected both ways ([install_connects]); an edit keeps the largest part
      of the old elements that is still fed, and all new ones ([edit_prunes]).
    - The event loop runs timers in order and never early ([timers_in_order]),
      a catch-up ends when callbacks ask for later times and leaves no expired
      timer ([catchup_ends]), a
      round waits no longer than the next timer ([wait_meets_deadline]), and the
      descriptors it watches are those with callbacks ([descriptors_served]).
    - Congestion control: timeouts stay within their bounds and the arithmetic
      does not overflow ([rtt_estimate_bounded]), every packet in flight has one
      timer ([rtt_timer_sound]), a sender below its window is never left asleep
      and its callback is called once ([cct_never_stalls],
      [rate_control_sound]), the history of arrivals is ordered and bounded
      ([loss_history_sound]).
    - The catalog and the staged compiler: the tables that describe tables
      describe themselves ([catalog_boots]); the parser's canonical heads keep
      the values of the head ([canonical_head]); the event stage numbers the
      terms of a rule without clashes ([eca_numbering]); a stage gives out all
      its processor makes, in order ([stage_gives_all]).
    - Where the code departs from its intent the departure is a theorem too:
      [Table2_refresh_hides_expired], [string_lifetime_never_flushes],
      [mkset_never_reannounced], [empty_group_by_sees_one],
      [range1DLookup_unusable], [fdbuf_io_failure], [defrag_interleaving_loses],
      [dup_remove_repeats], [max_is_min], [comparisons_read_as_vector],
      [mux_repeats], [round_robin_remove_loses], [switch_wakeups_inert],
      [odelivery_reset_loses], [odelivery_never_forgets],
      [rdelivery_never_retries], [localize_drops_delete],
      [localize_may_diverge], [localize_captures], [localize_conflates],
      [eca_conflates], [view_ignores_delete], [self_join_counts_twice] and
      others.

    The theorems about tables speak of tuples of plain values (no lists, sets,
    vectors or matrices among the compared fields), because the comparators are
    orderings only there.  Those about rules compare values by equality and take
    the meaning of selections and assignments as given ([ExprSem] of Rules.v).

    ** What is not modelled

    The other stages of the compiler of src/lang (rewrite0, rewrite1, rewrite2,
    compound, secure, planner, p2dl), the grammar and lexer of Overlog,
    src/planner/netPlanner.C, the debugger, the CSV stage and the Python
    bindings.  Sockets, logging, printing and
    plug-in loading are I/O; src/p2core/secureUtil wraps OpenSSL. *)

From stdpp Require Export prelude gmap strings list sorting.
From Stdlib Require Export ZArith Lia.

#[global] Open Scope Z_scope.

(** ** Notations, hints and tactics of the development *)

Declare Scope p2_scope.
Delimit Scope p2_scope with p2.

Create HintDb p2.

(** [simp_if] splits the boolean tests of a goal and turns them into
    arithmetic facts. *)
Ltac simp_if :=
  repeat match goal with
  | |- context [if ?b then _ else _] => let E := fresh "E" in destruct b eqn:E
  | H : context [if ?b then _ else _] |- _ => let E := fresh "E" in destruct b eqn:E
  end.

(** [bools] turns boolean comparisons in the context into propositions. *)
Ltac bools :=
  repeat match goal with
  | H : (_ <? _) = true |- _ => apply Z.ltb_lt in H
  | H : (_ <? _) = false |- _ => apply Z.ltb_ge in H
  | H : (_ <=? _) = true |- _ => apply Z.leb_le in H
  | H : (_ <=? _) = false |- _ => apply Z.leb_gt in H
  | H : (_ =? _) = true |- _ => apply Z.eqb_eq in H
  | H : (_ =? _) = false |- _ => apply Z.eqb_neq in H
  | H : _ && _ = true |- _ => apply andb_true_iff in H; destruct H
  | H : negb _ = true |- _ => apply negb_true_iff in H
  | H : negb _ = false |- _ => apply negb_false_iff in H
  end.

(** [vm_decide] proves a closed decidable goal by evaluating its decision
    procedure. *)
Ltac vm_decide := apply (bool_decide_unpack _); vm_compute; exact I.

(** ** Machine integers *)

(** A [uint32_t] (resp. [uint64_t]) is a [Z] kept in range by wrap-around. *)
Definition u32 (z : Z) : Z := z mod 2 ^ 32.
Definition u64 (z : Z) : Z := z mod 2 ^ 64.

Definition is_u32 (z : Z) : Prop := 0 <= z < 2 ^ 32.
Definition is_i64 (z : Z) : Prop := - 2 ^ 63 <= z < 2 ^ 63.

#[export] Instance is_u32_dec z : Decision (is_u32 z).
Proof. unfold is_u32. apply _. Defined.

#[export] Instance is_i64_dec z : Decision (is_i64 z).
Proof. unfold is_i64. apply _. Defined.

(** ** Three-way comparison

    The source's [compareTo] methods return a negative, zero or positive
    [int].  [cmpZ] is that result for two integers. *)
Definition cmpZ (a b : Z) : Z :=
  if a <? b then -1 else if b <? a then 1 else 0.

(** [of_comparison] reads a [comparison] as such an [int]. *)
Definition of_comparison (c : comparison) : Z :=
  match c with Lt => -1 | Eq => 0 | Gt => 1 end.

(** Lexicographic comparison of two sequences, a proper prefix being less;
    [cmp] compares the elements. *)
Definition lexc {A} (cmp : A -> A -> Z) : list A -> list A -> Z :=
  fix go l1 l2 :=
    match l1, l2 with
    | [], [] => 0
    | [], _ :: _ => -1
    | _ :: _, [] => 1
    | a :: l1', b :: l2' =>
        if cmp a b =? 0 then go l1' l2' else cmp a b
    end.

(** The laws a three-way comparison must satisfy on a domain [P] to be a total
    preorder: swapping the arguments swaps the sign, and "not greater" is
    transitive. *)
Class CompareOrder {A} (P : A -> Prop) (cmp : A -> A -> Z) : Prop := {
  cmp_antisym : forall a b, P a -> P b -> cmp b a = - cmp a b;
  cmp_trans : forall a b c, P a -> P b -> P c ->
    cmp a b <= 0 -> cmp b c <= 0 -> cmp a c <= 0
}.

(** The laws of a boolean "less than" that C++ calls a strict weak ordering,
    on a domain [P]. *)
Class StrictWeakOrder {K} (P : K -> Prop) (lt : K -> K -> bool) : Prop := {
  swo_irrefl : forall x, P x -> lt x x = false;
  swo_trans : forall x y z, P x -> P y -> P z ->
    lt x y = true -> lt y z = true -> lt x z = true;
  swo_cotrans : forall x y z, P x -> P y -> P z ->
    lt x z = true -> lt x y = true \/ lt y z = true
}.

(** ** Results of operations that may fail *)

(** What an operation of the source does besides returning: an [assert] that
    fails, an exception (a cast that is not defined, an operator the operands
    do not support, a division by zero, an out-of-range access of a standard
    container, an error of the compiler, an exception of an external library, or
    one of the exceptions an element or the planner throws itself), the end of
    the process ([exit]), or undefined behaviour of C++.  The last two are the
    model's own: [OutOfFuel] is a loop that used up its bound, [Unmodelled] a
    point where the source goes on in a way the data of the model cannot express
    (each use says which). *)
Inductive failure :=
  | AssertFailed
  | TypeError
  | OperException
  | DivisionByZero
  | OutOfRange
  | CompileException
  | ExternalException
  | Thrown
  | Exited
  | UndefinedBehaviour
  | OutOfFuel
  | Unmodelled.

Inductive res (A : Type) :=
  | Ok (a : A)
  | Fail (f : failure).
Arguments Ok {A} a.
Arguments Fail {A} f.

Definition rbind {A B} (m : res A) (k : A -> res B) : res B :=
  match m with Ok a => k a | Fail f => Fail f end.

Notation "'let?' x ':=' m 'in' k" := (rbind m (fun x => k))
  (at level 10, x pattern, m at level 100, k at level 200) : p2_scope.

Definition of_option {A} (f : failure) (o : option A) : res A :=
  match o with Some a => Ok a | None => Fail f end.

(** [check b f] is the source's [assert(b)] (or a throwing test). *)
Definition check (b : bool) (f : failure) : res unit :=
  if b then Ok tt else Fail f.

(** ** Generic lemmas *)

Lemma u32_range z : is_u32 (u32 z).
Proof. unfold is_u32, u32. apply Z.mod_pos_bound. lia. Qed.

Lemma u32_small z : is_u32 z -> u32 z = z.
Proof. apply Z.mod_small. Qed.

Lemma cmpZ_antisym a b : cmpZ b a = - cmpZ a b.
Proof. unfold cmpZ. simp_if; bools; lia. Qed.

Lemma cmpZ_zero a b : cmpZ a b = 0 <-> a = b.
Proof. unfold cmpZ. simp_if; bools; lia. Qed.

Lemma cmpZ_neg a b : cmpZ a b < 0 <-> a < b.
Proof. unfold cmpZ. simp_if; bools; lia. Qed.

Lemma cmpZ_pos a b : 0 < cmpZ a b <-> b < a.
Proof. unfold cmpZ. simp_if; bools; lia. Qed.

Lemma cmpZ_le a b : cmpZ a b <= 0 <-> a <= b.
Proof. unfold cmpZ. simp_if; bools; lia. Qed.

#[export] Instance cmpZ_order : CompareOrder (fun _ => True) cmpZ.
Proof.
  split; intros; [apply cmpZ_antisym|]. rewrite !cmpZ_le in *. lia.
Qed.

#[export] Hint Resolve u32_range : p2.

Section compare_order.
Context {A} (P : A -> Prop) (cmp : A -> A -> Z) `{HC : !CompareOrder P cmp}.

Lemma cmp_refl a : P a -> cmp a a = 0.
Proof. intros Ha. pose proof (cmp_antisym a a Ha Ha). lia. Qed.

(** Strictness on either side of a chain makes the whole strict. *)
Lemma cmp_lt_le_trans a b c : P a -> P b -> P c ->
  cmp a b < 0 -> cmp b c <= 0 -> cmp a c < 0.
Proof.
  intros Pa Pb Pc H1 H2.
  assert (cmp a c <= 0) by (apply (cmp_trans a b c); auto; lia).
  destruct (Z.eq_dec (cmp a c) 0) as [E|]; [|lia].
  pose proof (cmp_antisym a c Pa Pc). pose proof (cmp_antisym a b Pa Pb).
  pose proof (cmp_trans b c a Pb Pc Pa). lia.
Qed.

Lemma cmp_le_lt_trans a b c : P a -> P b -> P c ->
  cmp a b <= 0 -> cmp b c < 0 -> cmp a c < 0.
Proof.
  intros Pa Pb Pc H1 H2.
  assert (cmp a c <= 0) by (apply (cmp_trans a b c); auto; lia).
  destruct (Z.eq_dec (cmp a c) 0) as [E|]; [|lia].
  pose proof (cmp_antisym a c Pa Pc). pose proof (cmp_antisym b c Pb Pc).
  pose proof (cmp_trans c a b Pc Pa Pb). lia.
Qed.

(** A lawful comparison gives a strict weak ordering. *)
Lemma compare_swo : StrictWeakOrder P (fun a b => cmp a b <? 0).
Proof.
  split.
  - intros x Px. rewrite cmp_refl by done. done.
  - intros x y z Px Py Pz H1 H2. bools. apply Z.ltb_lt.
    apply (cmp_lt_le_trans x y z); auto; lia.
  - intros x y z Px Py Pz H. bools.
    destruct (Z.ltb_spec (cmp x y) 0) as [|Hxy]; [by left|].
    right. apply Z.ltb_lt. pose proof (cmp_antisym x y Px Py).
    apply (cmp_le_lt_trans y x z); auto; lia.
Qed.
End compare_order.

(** Lexicographic comparison of lists over a lawful comparison is lawful. *)
Lemma lexc_order {A} (P : A -> Prop) cmp : CompareOrder P cmp ->
  CompareOrder (Forall P) (lexc cmp).
Proof.
  intros HC. split.
  - intros l1 l2 H1. revert l2. induction H1 as [|a l1 Ha H1 IH]; intros [|b l2] H2;
      simpl; try lia.
    apply Forall_cons in H2 as [Hb H2]. rewrite (cmp_antisym a b Ha Hb).
    simp_if; bools; try lia. by apply IH.
  - intros l1 l2 l3 H1. revert l2 l3. induction H1 as [|a l1 Ha H1 IH];
      intros [|b l2] [|c l3] H2 H3; simpl; try lia.
    apply Forall_cons in H2 as [Hb H2]. apply Forall_cons in H3 as [Hc H3].
    intros L1 L2.
    assert (Lab : cmp a b <= 0) by (destruct (cmp a b =? 0) eqn:?; bools; lia).
    assert (Lbc : cmp b c <= 0) by (destruct (cmp b c =? 0) eqn:?; bools; lia).
    destruct (Z.eqb_spec (cmp a c) 0) as [E|E];
      [|by apply (cmp_trans a b c)].
    assert (cmp a b = 0).
    { destruct (Z.eq_dec (cmp a b) 0); [done|].
      pose proof (cmp_lt_le_trans P cmp a b c Ha Hb Hc). lia. }
    assert (cmp b c = 0).
    { destruct (Z.eq_dec (cmp b c) 0); [done|].
      pose proof (cmp_le_lt_trans P cmp a b c Ha Hb Hc). lia. }
    rewrite H, H0 in *. by apply (IH l2 l3).
Qed.

(** Comparing by a rank first, and with [c] among equals of the same rank. *)
Definition by_rank {A} (rank : A -> Z) (c : A -> A -> Z) (a b : A) : Z :=
  if rank a =? rank b then c a b else cmpZ (rank a) (rank b).

Lemma by_rank_order {A} (P : A -> Prop) rank c :
  (forall a b, P a -> P b -> rank a = rank b -> c b a = - c a b) ->
  (forall x y z, P x -> P y -> P z -> rank x = rank y -> rank y = rank z ->
    c x y <= 0 -> c y z <= 0 -> c x z <= 0) ->
  CompareOrder P (by_rank rank c).
Proof.
  intros Ha Ht. unfold by_rank. split.
  - intros a b Pa Pb. rewrite (Z.eqb_sym (rank b)).
    destruct (Z.eqb_spec (rank a) (rank b)); [auto|apply cmpZ_antisym].
  - intros x y z Px Py Pz.
    destruct (Z.eqb_spec (rank x) (rank y)), (Z.eqb_spec (rank y) (rank z)),
      (Z.eqb_spec (rank x) (rank z)); rewrite ?cmpZ_le; try lia. eauto.
Qed.

Lemma order_impl {A} (P Q : A -> Prop) cmp : (forall a, Q a -> P a) ->
  CompareOrder P cmp -> CompareOrder Q cmp.
Proof. intros HQ [H1 H2]. split; eauto. Qed.

(** Comparing through a projection. *)
Lemma order_image {A B} (f : A -> B) (P : B -> Prop) cmp : CompareOrder P cmp ->
  CompareOrder (fun a => P (f a)) (fun a b => cmp (f a) (f b)).
Proof. intros [H1 H2]. split; eauto. Qed.

(** ** Lists *)

Section filters.
Context {A} (Q : A -> Prop) `{!forall x, Decision (Q x)}.

Lemma filter_none l : Forall (fun x => ~ Q x) l -> filter Q l = [].
Proof.
  induction 1 as [|x l Hx _ IH]; [done|]. by rewrite filter_cons_False.
Qed.

Lemma filter_all l : Forall Q l -> filter Q l = l.
Proof.
  induction 1 as [|x l Hx _ IH]; [done|]. rewrite filter_cons_True by done.
  by rewrite IH.
Qed.
End filters.

Lemma filter_ext {A} (P Q : A -> Prop) `{!forall x, Decision (P x)}
    `{!forall x, Decision (Q x)} l :
  Forall (fun x => P x <-> Q x) l -> filter P l = filter Q l.
Proof.
  induction 1 as [|x l Hx _ IH]; [done|]. rewrite !filter_cons, IH.
  repeat case_decide; tauto.
Qed.

Lemma Forall_filter {A} (P Q : A -> Prop) `{!forall x, Decision (Q x)} l :
  Forall P l -> Forall P (filter Q l).
Proof.
  intros HP. rewrite Forall_forall in HP |- *. intros x [_ Hx]%list_elem_of_filter.
  by apply HP.
Qed.

(** Removing the only occurrence of an element. *)
Lemma NoDup_delete_filter {A} `{!EqDecision A} (l : list A) i x :
  NoDup l -> l !! i = Some x -> delete i l = filter (fun y => y <> x) l.
Proof.
  intros Hn. revert i. induction Hn as [|a l Ha Hn IH]; [done|].
  intros [|i] Hi; simpl in *; simplify_eq.
  - rewrite filter_cons_False by tauto. symmetry. apply filter_all, Forall_forall.
    intros y Hy ->. done.
  - assert (a <> x) by (intros ->; eapply Ha, list_elem_of_lookup_2; eauto).
    rewrite filter_cons_True by done. f_equal. by apply IH.
Qed.

Lemma filter_delete_other {A} (P : A -> Prop) `{!forall x, Decision (P x)} (l : list A) i x :
  l !! i = Some x -> ~ P x -> filter P (delete i l) = filter P l.
Proof.
  revert i. induction l as [|a l IH]; [done|]. intros [|i] Hi Hx; simpl in *; simplify_eq.
  - by rewrite filter_cons_False.
  - rewrite !filter_cons, (IH i) by done. done.
Qed.

Lemma filter_fmap {A B} (P : B -> Prop) `{!forall x, Decision (P x)} (f : A -> B) (l : list A) :
  filter P (f <$> l) = f <$> filter (fun x => P (f x)) l.
Proof.
  induction l as [|a l IH]; [done|]. rewrite fmap_cons, !filter_cons, IH.
  by case_decide.
Qed.

(** A duplicate-free list holds one copy of each element. *)
Lemma NoDup_filter_eq {A} `{!EqDecision A} (x : A) l : NoDup l -> x ∈ l ->
  filter (fun y => y = x) l = [x].
Proof.
  intros Hnd Hx. induction Hnd as [|a l Ha Hnd IH]; [by apply not_elem_of_nil in Hx|].
  rewrite filter_cons. case_decide as Hd; subst.
  - f_equal. apply filter_none, Forall_forall. by intros y Hy ->.
  - apply elem_of_cons in Hx as [->|Hx]; [done|auto].
Qed.
