(* ===== verification/Ids.v ===== *)
(** * 160-bit identifiers (src/p2core/ID.C, ID.h)

    An [ID] is an array of [WORDS] 32-bit words, most significant first.  The
    definitions follow the word loops of ID.C; the theorems show that they
    compute arithmetic modulo 2^160, comparison of numbers and membership in
    the arcs of the identifier ring. *)

From S2P Require Import Prelude.

(** ** Representation *)

(** [static const unsigned WORDS = 5], the [words] array. *)
Definition WORDS : nat := 5.

Record ID := mkID { words : list Z }.

(** The constructors' result: exactly [WORDS] 32-bit words. *)
Definition wf_words (n : nat) (ws : list Z) : Prop :=
  length ws = n /\ Forall is_u32 ws.

Definition wf_id (i : ID) : Prop := wf_words WORDS (words i).

#[export] Instance wf_id_dec i : Decision (wf_id i).
Proof. unfold wf_id, wf_words. apply _. Defined.

(** [ID::ID()]: all words zero. *)
Definition ID_zero : ID := mkID (replicate WORDS 0).

(** [ID::ID(uint32_t newWords[WORDS])]: a copy of the array. *)
Definition ID_of_words (newWords : list Z) : ID := mkID newWords.

(** [ID::ID(uint32_t word)]: the word becomes the least significant one. *)
Definition ID_of_u32 (word : Z) : ID :=
  mkID (<[(WORDS - 1)%nat := word]> (replicate WORDS 0)).

(** [ID::ZERO] and [ID::ONE]. *)
Definition ID_ZERO : ID := ID_of_u32 0.
Definition ID_ONE : ID := ID_of_u32 1.

(** The number a word array stands for (the reading the theorems use). *)
Fixpoint val (ws : list Z) : Z :=
  match ws with
  | [] => 0
  | w :: ws' => w * 2 ^ (32 * Z.of_nat (length ws')) + val ws'
  end.

Definition idZ (i : ID) : Z := val (words i).

Definition RING : Z := 2 ^ 160.

(** ** Operations *)

(** [ID::compareTo]: the first differing word, from the most significant. *)
Fixpoint compare_words (ws os : list Z) : Z :=
  match ws, os with
  | w :: ws', o :: os' =>
      if w <? o then -1 else if o <? w then 1 else compare_words ws' os'
  | _, _ => 0
  end.

Definition ID_compareTo (self other : ID) : Z :=
  compare_words (words self) (words other).

(** [ID::equals] *)
Definition ID_equals (self other : ID) : bool := ID_compareTo self other =? 0.

(** [ID::betweenOO], [betweenOC], [betweenCO], [betweenCC]: am I in the arc
    from [from] to [to], open or closed at either end? *)
Definition betweenOO (self from to : ID) : bool :=
  ((0 <? ID_compareTo self from) && (ID_compareTo self to <? 0))
  || ((ID_compareTo to from <=? 0) && (0 <? ID_compareTo self from))
  || ((ID_compareTo self to <? 0) && (ID_compareTo to from <=? 0)).

Definition betweenOC (self from to : ID) : bool :=
  ((0 <? ID_compareTo self from) && (ID_compareTo self to <=? 0))
  || ((ID_compareTo to from <=? 0) && (0 <? ID_compareTo self from))
  || ((ID_compareTo self to <=? 0) && (ID_compareTo to from <=? 0)).

Definition betweenCO (self from to : ID) : bool :=
  ((0 <=? ID_compareTo self from) && (ID_compareTo self to <? 0))
  || ((ID_compareTo to from <=? 0) && (0 <=? ID_compareTo self from))
  || ((ID_compareTo self to <? 0) && (ID_compareTo to from <=? 0)).

Definition betweenCC (self from to : ID) : bool :=
  ((0 <=? ID_compareTo self from) && (ID_compareTo self to <=? 0))
  || ((ID_compareTo to from <=? 0) && (0 <=? ID_compareTo self from))
  || ((ID_compareTo self to <=? 0) && (ID_compareTo to from <=? 0)).

(** [ID::distance]: the loop runs from the least significant word; it returns
    the words written and the borrow ("carry") left after the first word. *)
Fixpoint distance_words (ws ts : list Z) : list Z * Z :=
  match ws, ts with
  | w :: ws', t :: ts' =>
      let '(r, carry) := distance_words ws' ts' in
      if u32 (w + carry) <=? t then
        (u32 (t - w - carry) :: r,
         if carry =? 1 then (if u32 (w + carry) =? 0 then 1 else 0) else carry)
      else (u32 (t - w - carry) :: r, 1)
  | _, _ => ([], 0)
  end.

Definition distance (self to : ID) : ID :=
  mkID (fst (distance_words (words self) (words to))).

(** [ID::add]: 64-bit sums, the overflow carried to the next word. *)
Fixpoint add_words (ws os : list Z) : list Z * Z :=
  match ws, os with
  | w :: ws', o :: os' =>
      let '(r, carry) := add_words ws' os' in
      let temp := u64 (u64 (w + o) + carry) in
      if 2 ^ 32 - 1 <? temp then (Z.land temp (2 ^ 32 - 1) :: r, 1)
      else (u32 temp :: r, 0)
  | _, _ => ([], 0)
  end.

Definition add (self other : ID) : ID :=
  mkID (fst (add_words (words self) (words other))).

(** The short-shift loop of [ID::lshift] (from the least significant word). *)
Fixpoint lshift_words (shift : Z) (ws : list Z) : list Z * Z :=
  match ws with
  | [] => ([], 0)
  | w :: ws' =>
      let '(r, carry) := lshift_words shift ws' in
      let temp := Z.lor (u64 (Z.shiftl w shift)) carry in
      (Z.land temp (2 ^ 32 - 1) :: r, u32 (Z.shiftr temp 32))
  end.

(** The long-shift part: whole words move towards the front, zeros (from
    [ID::mk()]) fill the end. *)
Definition lshift_long (longShift : nat) (ws : list Z) : list Z :=
  drop longShift ws ++ replicate longShift 0.

Definition lshift (self : ID) (shift : Z) : ID :=
  if shift =? 0 then ID_of_words (words self)
  else if Z.of_nat WORDS * 32 <=? shift then ID_ZERO
  else
    let '(ws, shift') :=
      if 32 <? shift
      then (lshift_long (Z.to_nat (Z.shiftr shift 5)) (words self),
            Z.land shift 31)
      else (words self, shift) in
    mkID (fst (lshift_words shift' ws)).

(** The short-shift loop of [ID::rshift] (from the most significant word). *)
Fixpoint rshift_words (shift carry : Z) (ws : list Z) : list Z :=
  match ws with
  | [] => []
  | w :: ws' =>
      let temp := Z.shiftr (u64 (Z.shiftl w 32)) shift in
      let newWord := Z.land (Z.shiftr temp 32) (2 ^ 32 - 1) in
      Z.lor newWord carry
        :: rshift_words shift (Z.land temp (2 ^ 32 - 1)) ws'
  end.

Definition rshift_long (longShift : nat) (ws : list Z) : list Z :=
  replicate longShift 0 ++ take (length ws - longShift) ws.

Definition rshift (self : ID) (shift : Z) : ID :=
  if shift =? 0 then ID_of_words (words self)
  else if Z.of_nat WORDS * 32 <=? shift then ID_ZERO
  else
    let '(ws, shift') :=
      if 32 <? shift
      then (rshift_long (Z.to_nat (Z.shiftr shift 5)) (words self),
            Z.land shift 31)
      else (words self, shift) in
    mkID (rshift_words shift' 0 ws).

(** [ID::bitwiseAND], [bitwiseOR], [bitwiseXOR], [bitwiseNOT] *)
Definition bitwiseAND (self other : ID) : ID :=
  mkID (zip_with Z.land (words self) (words other)).
Definition bitwiseOR (self other : ID) : ID :=
  mkID (zip_with Z.lor (words self) (words other)).
Definition bitwiseXOR (self other : ID) : ID :=
  mkID (zip_with Z.lxor (words self) (words other)).
Definition bitwiseNOT (self : ID) : ID :=
  mkID (map (fun w => u32 (Z.lnot w)) (words self)).

(** ** Lemmas on word arrays *)

Lemma val_bound n ws : wf_words n ws -> 0 <= val ws < 2 ^ (32 * Z.of_nat n).
Proof.
  revert n. induction ws as [|w ws IH]; intros n [Hl Hf]; simpl in *.
  - subst n. simpl. lia.
  - destruct n as [|n]; [lia|]. apply Forall_cons in Hf as [Hw Hf].
    specialize (IH n ltac:(split; [lia|done])).
    replace (length ws) with n by lia. unfold is_u32 in Hw.
    replace (32 * Z.of_nat (S n)) with (32 + 32 * Z.of_nat n) by lia.
    rewrite Z.pow_add_r by lia. nia.
Qed.

Lemma wf_words_cons n w ws :
  wf_words (S n) (w :: ws) <-> is_u32 w /\ wf_words n ws.
Proof.
  unfold wf_words. rewrite Forall_cons. simpl. split; intros; destruct_and?; auto.
Qed.

Lemma wf_words_S n ws : wf_words (S n) ws ->
  exists w ws', ws = w :: ws' /\ is_u32 w /\ wf_words n ws'.
Proof.
  destruct ws as [|w ws']; [by intros []|]. rewrite wf_words_cons. eauto 6.
Qed.

Lemma wf_words_0 ws : wf_words 0 ws -> ws = [].
Proof. intros [Hl _]. by destruct ws. Qed.

Lemma val_cons n w ws : wf_words n ws ->
  val (w :: ws) = w * 2 ^ (32 * Z.of_nat n) + val ws.
Proof. intros [<- _]. reflexivity. Qed.

Lemma pow32_S n : 2 ^ (32 * Z.of_nat (S n)) = 2 ^ 32 * 2 ^ (32 * Z.of_nat n).
Proof. rewrite <- Z.pow_add_r by lia. f_equal. lia. Qed.

Lemma wf_id_bound i : wf_id i -> 0 <= idZ i < RING.
Proof. intros H. apply (val_bound WORDS) in H. exact H. Qed.

Lemma compare_words_val n ws os :
  wf_words n ws -> wf_words n os -> compare_words ws os = cmpZ (val ws) (val os).
Proof.
  revert ws os. induction n as [|n IH]; intros ws os Hw Ho.
  - apply wf_words_0 in Hw as ->. apply wf_words_0 in Ho as ->. reflexivity.
  - apply wf_words_S in Hw as (w & ws' & -> & Rw & Hw).
    apply wf_words_S in Ho as (o & os' & -> & Ro & Ho).
    rewrite !(val_cons n) by done. simpl. rewrite IH by done.
    pose proof (val_bound n ws' Hw). pose proof (val_bound n os' Ho).
    unfold cmpZ. simp_if; bools; nia.
Qed.

(** The borrow of the least significant words is exactly the borrow of the
    numbers they stand for. *)
Lemma distance_words_val n ws ts : wf_words n ws -> wf_words n ts ->
  let '(r, c) := distance_words ws ts in
  wf_words n r /\ (c = 0 \/ c = 1) /\
  val r = val ts - val ws + c * 2 ^ (32 * Z.of_nat n).
Proof.
  revert ws ts. induction n as [|n IH]; intros ws ts Hw Ht.
  - apply wf_words_0 in Hw as ->. apply wf_words_0 in Ht as ->. simpl.
    repeat split; auto.
  - apply wf_words_S in Hw as (w & ws' & -> & Rw & Hw).
    apply wf_words_S in Ht as (t & ts' & -> & Rt & Ht).
    cbn [distance_words]. specialize (IH ws' ts' Hw Ht).
    destruct (distance_words ws' ts') as [r c]. destruct IH as (Hr & Hc & Hv).
    rewrite !(val_cons n) by done. rewrite pow32_S.
    set (B := 2 ^ (32 * Z.of_nat n)) in *.
    pose proof (u32_range (t - w - c)) as Rn.
    unfold is_u32 in *. unfold u32 in *.
    assert (Hd : (t - w - c) mod 2 ^ 32 = t - w - c \/
                 (t - w - c) mod 2 ^ 32 = t - w - c + 2 ^ 32).
    { destruct (Z.le_gt_cases 0 (t - w - c)).
      - left. apply Z.mod_small. lia.
      - right. rewrite <- (Z.mod_small (t - w - c + 2 ^ 32) (2 ^ 32)) by lia.
        rewrite <- Zplus_mod_idemp_r, Z_mod_same_full. f_equal. lia. }
    assert (Hs : (w + c) mod 2 ^ 32 = w + c \/
                 (w = 2 ^ 32 - 1 /\ c = 1 /\ (w + c) mod 2 ^ 32 = 0)).
    { destruct (Z.le_gt_cases (2 ^ 32) (w + c)) as [|].
      - right. repeat split; try lia. replace (w + c) with (2 ^ 32) by lia. reflexivity.
      - left. apply Z.mod_small. lia. }
    set (d := (t - w - c) mod 2 ^ 32) in *. set (s := (w + c) mod 2 ^ 32) in *.
    assert (Hg : forall c' : Z, c' = 0 \/ c' = 1 -> d = t - w - c + c' * 2 ^ 32 ->
      wf_words (S n) (d :: r) /\ (c' = 0 \/ c' = 1) /\
      val (d :: r) = t * B + val ts' - (w * B + val ws') + c' * (2 ^ 32 * B)).
    { intros c' Hc' Ed. split; [by apply wf_words_cons|]. split; [done|].
      rewrite (val_cons n) by done. fold B. rewrite Hv, Ed. ring. }
    destruct (Z.leb_spec s t); [destruct (Z.eqb_spec c 1);
      [destruct (Z.eqb_spec s 0)|]|]; apply Hg; lia.
Qed.

Lemma add_words_val n ws os : wf_words n ws -> wf_words n os ->
  let '(r, c) := add_words ws os in
  wf_words n r /\ (c = 0 \/ c = 1) /\
  val r = val ws + val os - c * 2 ^ (32 * Z.of_nat n).
Proof.
  revert ws os. induction n as [|n IH]; intros ws os Hw Ho.
  - apply wf_words_0 in Hw as ->. apply wf_words_0 in Ho as ->. simpl.
    repeat split; auto.
  - apply wf_words_S in Hw as (w & ws' & -> & Rw & Hw).
    apply wf_words_S in Ho as (o & os' & -> & Ro & Ho).
    cbn [add_words]. specialize (IH ws' os' Hw Ho).
    destruct (add_words ws' os') as [r c]. destruct IH as (Hr & Hc & Hv).
    rewrite !(val_cons n) by done. rewrite pow32_S.
    set (B := 2 ^ (32 * Z.of_nat n)) in *.
    unfold is_u32, u32, u64 in *.
    rewrite (Z.mod_small (w + o)) by lia. rewrite (Z.mod_small (w + o + c)) by lia.
    change (2 ^ 32 - 1) with (Z.ones 32). rewrite Z.land_ones by lia.
    assert (Hg : forall d c' : Z, c' = 0 \/ c' = 1 -> d = w + o + c - c' * 2 ^ 32 ->
      0 <= d < 2 ^ 32 ->
      wf_words (S n) (d :: r) /\ (c' = 0 \/ c' = 1) /\
      val (d :: r) = w * B + val ws' + (o * B + val os') - c' * (2 ^ 32 * B)).
    { intros d c' Hc' Ed Rd. split; [by apply wf_words_cons|]. split; [done|].
      rewrite (val_cons n) by done. fold B. rewrite Hv, Ed. ring. }
    change (Z.ones 32) with (2 ^ 32 - 1).
    destruct (Z.ltb_spec (2 ^ 32 - 1) (w + o + c)).
    + assert (E : (w + o + c) mod 2 ^ 32 = w + o + c - 2 ^ 32).
      { rewrite <- (Z.mod_small (w + o + c - 2 ^ 32) (2 ^ 32)) by lia.
        rewrite <- Zminus_mod_idemp_r, Z_mod_same_full. f_equal. lia. }
      apply Hg; lia.
    + rewrite Z.mod_small by lia. apply Hg; lia.
Qed.

(** *** Shifts *)

(** Adding and or-ing agree when the low bits are free. *)
Lemma lor_low w s c : 0 <= s -> 0 <= c < 2 ^ s ->
  Z.lor (Z.shiftl w s) c = w * 2 ^ s + c.
Proof.
  intros Hs Hc. rewrite <- Z.shiftl_mul_pow2 by done.
  assert (H0 : Z.land (Z.shiftl w s) c = 0).
  { apply Z.bits_inj'. intros i Hi. rewrite Z.bits_0, Z.land_spec.
    destruct (Z.lt_ge_cases i s).
    - rewrite Z.shiftl_spec_low by done. done.
    - rewrite <- (Z.mod_small c (2 ^ s)) by done.
      rewrite Z.mod_pow2_bits_high by lia. apply andb_false_r. }
  rewrite Z.add_nocarry_lxor by done. symmetry. by apply Z.lxor_lor.
Qed.

Lemma lshift_words_val n s ws : 0 <= s <= 32 -> wf_words n ws ->
  let '(r, c) := lshift_words s ws in
  wf_words n r /\ 0 <= c < 2 ^ s /\
  val r = val ws * 2 ^ s - c * 2 ^ (32 * Z.of_nat n).
Proof.
  intros Hs. assert (Hp : 0 < 2 ^ s <= 2 ^ 32).
  { split; [lia|]. apply Z.pow_le_mono_r; lia. }
  revert ws. induction n as [|n IH]; intros ws Hw.
  - apply wf_words_0 in Hw as ->. simpl. repeat split; auto; lia.
  - apply wf_words_S in Hw as (w & ws' & -> & Rw & Hw).
    cbn [lshift_words]. specialize (IH ws' Hw).
    destruct (lshift_words s ws') as [r c]. destruct IH as (Hr & Hc & Hv).
    rewrite (val_cons n) by done. rewrite pow32_S.
    set (B := 2 ^ (32 * Z.of_nat n)) in *. unfold is_u32, u32, u64 in *.
    rewrite (Z.mod_small (Z.shiftl w s)) by (rewrite Z.shiftl_mul_pow2 by lia; nia).
    rewrite lor_low by lia.
    set (temp := w * 2 ^ s + c).
    assert (Ht : 0 <= temp < 2 ^ 32 * 2 ^ s) by (unfold temp; nia).
    change (2 ^ 32 - 1) with (Z.ones 32). rewrite Z.land_ones by lia.
    rewrite Z.shiftr_div_pow2 by lia.
    assert (Hq : 0 <= temp / 2 ^ 32 < 2 ^ s).
    { split; [apply Z.div_pos; lia|]. apply Z.div_lt_upper_bound; lia. }
    rewrite (Z.mod_small (temp / 2 ^ 32)) by lia.
    pose proof (Z.mod_pos_bound temp (2 ^ 32)).
    split; [apply wf_words_cons; split; [unfold is_u32; lia|done]|].
    split; [done|]. rewrite (val_cons n) by done. fold B. rewrite Hv.
    pose proof (Z.div_mod temp (2 ^ 32)) as E.
    replace (temp mod 2 ^ 32) with (temp - 2 ^ 32 * (temp / 2 ^ 32)) by lia.
    unfold temp at 1. ring.
Qed.

Lemma val_app ws1 ws2 :
  val (ws1 ++ ws2) = val ws1 * 2 ^ (32 * Z.of_nat (length ws2)) + val ws2.
Proof.
  induction ws1 as [|w ws1 IH]; simpl; [lia|]. rewrite IH, length_app.
  rewrite Nat2Z.inj_add, Z.mul_add_distr_l, Z.pow_add_r by lia. ring.
Qed.

Lemma val_zeros k : val (replicate k 0) = 0.
Proof. induction k as [|k IH]; simpl; [done|]. rewrite IH. lia. Qed.

Lemma zeros_u32 k : Forall is_u32 (replicate k 0).
Proof. apply Forall_replicate. unfold is_u32. lia. Qed.

Lemma lshift_long_val n k ws : (k <= n)%nat -> wf_words n ws ->
  wf_words n (lshift_long k ws) /\
  val (lshift_long k ws)
  = (val ws * 2 ^ (32 * Z.of_nat k)) mod 2 ^ (32 * Z.of_nat n).
Proof.
  intros Hk [Hl Hf]. unfold lshift_long.
  assert (Hd : wf_words (n - k) (drop k ws)).
  { split; [rewrite length_drop; lia|]. by apply Forall_drop. }
  pose proof (val_bound _ _ Hd) as Hb. split.
  - split; [rewrite length_app, length_drop, length_replicate; lia|].
    apply Forall_app. split; [by apply Forall_drop|apply zeros_u32].
  - rewrite val_app, val_zeros, length_replicate, Z.add_0_r.
    rewrite <- (take_drop k ws) at 2. rewrite val_app, length_drop, Hl.
    rewrite Z.mul_add_distr_r, <- Z.mul_assoc, <- Z.pow_add_r by lia.
    replace (32 * Z.of_nat (n - k) + 32 * Z.of_nat k) with (32 * Z.of_nat n) by lia.
    rewrite Z.add_comm, Z_mod_plus_full, Z.mod_small; [done|].
    replace (32 * Z.of_nat n) with (32 * Z.of_nat (n - k) + 32 * Z.of_nat k) by lia.
    rewrite Z.pow_add_r by lia. nia.
Qed.

Lemma rshift_long_val n k ws : (k <= n)%nat -> wf_words n ws ->
  wf_words n (rshift_long k ws) /\
  val (rshift_long k ws) = val ws / 2 ^ (32 * Z.of_nat k).
Proof.
  intros Hk [Hl Hf]. unfold rshift_long. rewrite Hl.
  assert (Hd : wf_words k (drop (n - k) ws)).
  { split; [rewrite length_drop; lia|]. by apply Forall_drop. }
  pose proof (val_bound _ _ Hd) as Hb. split.
  - split; [rewrite length_app, length_take, length_replicate; lia|].
    apply Forall_app. split; [apply zeros_u32|by apply Forall_take].
  - rewrite val_app, val_zeros, Z.add_0_l.
    rewrite <- (take_drop (n - k) ws) at 2.
    rewrite val_app, length_drop, Hl.
    replace (n - (n - k))%nat with k by lia.
    rewrite Z.div_add_l by lia. rewrite Z.div_small by done. lia.
Qed.

(** The carry of a right shift holds the bits dropped so far, [p], moved to
    the top of the next word. *)
Lemma rshift_words_val n s p ws : 0 <= s <= 32 -> 0 <= p < 2 ^ s ->
  wf_words n ws ->
  wf_words n (rshift_words s (p * 2 ^ (32 - s)) ws) /\
  val (rshift_words s (p * 2 ^ (32 - s)) ws)
  = (p * 2 ^ (32 * Z.of_nat n) + val ws) / 2 ^ s.
Proof.
  intros Hs. assert (Hp2 : 2 ^ 32 = 2 ^ s * 2 ^ (32 - s)).
  { rewrite <- Z.pow_add_r by lia. f_equal. lia. }
  assert (Hpos : 0 < 2 ^ s /\ 0 < 2 ^ (32 - s)) by lia.
  revert p ws. induction n as [|n IH]; intros p ws Hp Hw.
  - apply wf_words_0 in Hw as ->. simpl. split; [done|].
    rewrite Z.div_small; lia.
  - apply wf_words_S in Hw as (w & ws' & -> & Rw & Hw). cbn [rshift_words].
    unfold is_u32, u64 in *.
    rewrite (Z.mod_small (Z.shiftl w 32)) by (rewrite Z.shiftl_mul_pow2 by lia; lia).
    assert (Et : Z.shiftr (Z.shiftl w 32) s = w * 2 ^ (32 - s)).
    { rewrite Z.shiftr_div_pow2, Z.shiftl_mul_pow2 by lia.
      rewrite Hp2, (Z.mul_comm (2 ^ s)), Z.mul_assoc, Z.div_mul by lia. done. }
    rewrite Et. change (2 ^ 32 - 1) with (Z.ones 32). rewrite !Z.land_ones by lia.
    rewrite Z.shiftr_div_pow2 by lia.
    assert (Ew : w * 2 ^ (32 - s) / 2 ^ 32 = w / 2 ^ s).
    { rewrite Hp2. rewrite Z.div_mul_cancel_r by lia. done. }
    assert (Ec : w * 2 ^ (32 - s) mod 2 ^ 32 = (w mod 2 ^ s) * 2 ^ (32 - s)).
    { rewrite Hp2. rewrite Z.mul_mod_distr_r by lia. done. }
    rewrite Ew, Ec.
    assert (Hq : 0 <= w / 2 ^ s < 2 ^ (32 - s)).
    { split; [apply Z.div_pos; lia|]. apply Z.div_lt_upper_bound; lia. }
    rewrite (Z.mod_small (w / 2 ^ s)) by nia.
    rewrite Z.lor_comm, <- Z.shiftl_mul_pow2 by lia. rewrite lor_low by lia.
    destruct (IH (w mod 2 ^ s) ws') as [Hr Hv];
      [apply Z.mod_pos_bound; lia|done|].
    split; [apply wf_words_cons; split; [unfold is_u32; nia|done]|].
    rewrite !(val_cons n) by done. rewrite Hv, pow32_S.
    set (B := 2 ^ (32 * Z.of_nat n)). pose proof (Z.div_mod w (2 ^ s)) as E.
    rewrite <- Z.div_add_l by lia. f_equal.
    rewrite Hp2. replace w with (2 ^ s * (w / 2 ^ s) + w mod 2 ^ s) at 3 by lia.
    ring.
Qed.

(** *** Bitwise operations *)

Lemma val_testbit n w ws i : wf_words n ws -> is_u32 w -> 0 <= i ->
  Z.testbit (val (w :: ws)) i
  = if i <? 32 * Z.of_nat n then Z.testbit (val ws) i
    else Z.testbit w (i - 32 * Z.of_nat n).
Proof.
  intros Hw Rw Hi. pose proof (val_bound n ws Hw) as Hb.
  rewrite (val_cons n) by done.
  rewrite <- lor_low by lia. rewrite Z.lor_spec.
  destruct (Z.ltb_spec i (32 * Z.of_nat n)).
  - rewrite Z.shiftl_spec_low by done. done.
  - rewrite Z.shiftl_spec by done.
    rewrite <- (Z.mod_small (val ws) (2 ^ (32 * Z.of_nat n))) by done.
    rewrite (Z.mod_pow2_bits_high (val ws)) by lia. apply orb_false_r.
Qed.

Lemma u32_high_bits z i : is_u32 z -> 32 <= i -> Z.testbit z i = false.
Proof.
  intros Rz Hi. rewrite <- (u32_small z Rz). unfold u32.
  apply Z.mod_pow2_bits_high. lia.
Qed.

Lemma u32_of_bits z : (forall i, 32 <= i -> Z.testbit z i = false) -> is_u32 z.
Proof.
  intros H. assert (u32 z = z) as <-; [|apply u32_range].
  apply Z.bits_inj'. intros i Hi. unfold u32.
  destruct (Z.lt_ge_cases i 32).
  - by rewrite Z.mod_pow2_bits_low.
  - rewrite Z.mod_pow2_bits_high by lia. symmetry. by apply H.
Qed.

Section zip_bits.
Context (op : Z -> Z -> Z) (opb : bool -> bool -> bool).
Context (op_spec : forall a b i, Z.testbit (op a b) i = opb (Z.testbit a i) (Z.testbit b i)).
Context (opb_false : opb false false = false).

Lemma op_u32 a b : is_u32 a -> is_u32 b -> is_u32 (op a b).
Proof using op_spec opb_false.
  intros Ra Rb. apply u32_of_bits. intros i Hi.
  by rewrite op_spec, !u32_high_bits.
Qed.

(** A wordwise bit operation is that operation on the numbers. *)
Lemma zip_val n ws os : wf_words n ws -> wf_words n os ->
  wf_words n (zip_with op ws os) /\ val (zip_with op ws os) = op (val ws) (val os).
Proof using op_spec opb_false.
  revert ws os. induction n as [|n IH]; intros ws os Hw Ho.
  - apply wf_words_0 in Hw as ->. apply wf_words_0 in Ho as ->. simpl.
    split; [done|]. apply Z.bits_inj'. intros i Hi.
    by rewrite op_spec, Z.bits_0, opb_false.
  - apply wf_words_S in Hw as (w & ws' & -> & Rw & Hw).
    apply wf_words_S in Ho as (o & os' & -> & Ro & Ho).
    cbn [zip_with]. destruct (IH ws' os' Hw Ho) as [Hz Hv].
    split; [apply wf_words_cons; auto using op_u32|].
    apply Z.bits_inj'. intros i Hi.
    rewrite op_spec, !(val_testbit n) by auto using op_u32.
    rewrite Hv, !op_spec. by destruct (i <? 32 * Z.of_nat n).
Qed.
End zip_bits.

Lemma not_val n ws : wf_words n ws ->
  wf_words n (map (fun w => u32 (Z.lnot w)) ws) /\
  val (map (fun w => u32 (Z.lnot w)) ws) = 2 ^ (32 * Z.of_nat n) - 1 - val ws.
Proof.
  revert ws. induction n as [|n IH]; intros ws Hw.
  - by apply wf_words_0 in Hw as ->.
  - apply wf_words_S in Hw as (w & ws' & -> & Rw & Hw). cbn [map].
    destruct (IH ws' Hw) as [Hz Hv].
    assert (E : u32 (Z.lnot w) = 2 ^ 32 - 1 - w).
    { unfold u32, Z.lnot, is_u32 in *.
      rewrite <- (Z.mod_small (2 ^ 32 - 1 - w) (2 ^ 32)) by lia.
      replace (2 ^ 32 - 1 - w) with (Z.pred (- w) + 1 * 2 ^ 32) by lia.
      by rewrite Z_mod_plus_full. }
    split; [apply wf_words_cons; auto using u32_range|].
    rewrite !(val_cons n) by done. rewrite Hv, E, pow32_S. ring.
Qed.

(** *** The ring *)

Lemma ring_sub a b : 0 <= a < RING -> 0 <= b < RING ->
  (a - b) mod RING = if b <=? a then a - b else a - b + RING.
Proof.
  intros Ha Hb. destruct (Z.leb_spec b a); [apply Z.mod_small; lia|].
  rewrite <- (Z.mod_small (a - b + RING) RING) by lia.
  rewrite <- Zplus_mod_idemp_r, Z_mod_same_full. f_equal. lia.
Qed.

Lemma wf_ID_ZERO : wf_id ID_ZERO.
Proof. split; [done|]. repeat constructor; done. Qed.

Lemma wf_ID_ONE : wf_id ID_ONE.
Proof. split; [done|]. repeat constructor; done. Qed.

Lemma lshift_wf_val self shift : wf_id self -> 0 <= shift ->
  wf_id (lshift self shift) /\
  idZ (lshift self shift) = (idZ self * 2 ^ shift) mod RING.
Proof.
  intros Hw Hs. pose proof (wf_id_bound _ Hw) as Hb. unfold lshift.
  change (Z.of_nat WORDS * 32) with 160.
  destruct (Z.eqb_spec shift 0) as [->|].
  { split; [done|]. unfold idZ at 1, ID_of_words. simpl.
    rewrite Z.mul_1_r, Z.mod_small; done. }
  destruct (Z.leb_spec 160 shift).
  { split; [apply wf_ID_ZERO|]. unfold RING.
    replace shift with (160 + (shift - 160)) by lia. rewrite Z.pow_add_r by lia.
    rewrite (Z.mul_comm (2 ^ 160)), Z.mul_assoc, Z_mod_mult. done. }
  assert (Hfin : forall x s ws, 0 <= s <= 32 -> wf_words WORDS ws ->
    val ws = x mod RING ->
    wf_id (mkID (fst (lshift_words s ws))) /\
    idZ (mkID (fst (lshift_words s ws))) = (x * 2 ^ s) mod RING).
  { intros x s ws Rs Hws Hx. pose proof (lshift_words_val WORDS s ws Rs Hws) as L.
    destruct (lshift_words s ws) as [r c]. destruct L as (Hr & Hc & Hv).
    split; [done|]. unfold idZ; simpl in *. pose proof (val_bound _ _ Hr) as B.
    rewrite <- Zmult_mod_idemp_l, <- Hx.
    rewrite <- (Z.mod_small (val r) RING) by done. rewrite Hv.
    change (2 ^ (32 * Z.of_nat WORDS)) with RING.
    replace (val ws * 2 ^ s - c * RING) with (val ws * 2 ^ s + (- c) * RING) by lia.
    apply Z_mod_plus_full. }
  destruct (Z.ltb_spec 32 shift).
  - rewrite Z.shiftr_div_pow2 by lia. change 31 with (Z.ones 5).
    rewrite Z.land_ones by lia. set (k := Z.to_nat (shift / 2 ^ 5)).
    assert (Hk : Z.of_nat k = shift / 2 ^ 5)
      by (unfold k; rewrite Z2Nat.id; [done|apply Z.div_pos; lia]).
    pose proof (Z.div_mod shift (2 ^ 5)). pose proof (Z.mod_pos_bound shift (2 ^ 5)).
    assert (k <= WORDS)%nat by (unfold WORDS; lia).
    destruct (lshift_long_val WORDS k (words self)) as [Hl1 Hl2]; [done|done|].
    destruct (Hfin (idZ self * 2 ^ (32 * Z.of_nat k)) (shift mod 2 ^ 5)
                (lshift_long k (words self))) as [F1 F2]; [lia|done|done|].
    split; [done|]. rewrite F2. rewrite <- Z.mul_assoc, <- Z.pow_add_r by lia.
    do 3 f_equal. lia.
  - apply Hfin; [lia|done|]. rewrite Z.mod_small; done.
Qed.

Lemma rshift_wf_val self shift : wf_id self -> 0 <= shift ->
  wf_id (rshift self shift) /\ idZ (rshift self shift) = idZ self / 2 ^ shift.
Proof.
  intros Hw Hs. pose proof (wf_id_bound _ Hw) as Hb. unfold rshift.
  change (Z.of_nat WORDS * 32) with 160.
  destruct (Z.eqb_spec shift 0) as [->|].
  { split; [done|]. rewrite Z.div_1_r. done. }
  destruct (Z.leb_spec 160 shift).
  { split; [apply wf_ID_ZERO|]. rewrite Z.div_small; [done|].
    split; [lia|]. unfold RING in Hb.
    apply Z.lt_le_trans with (2 ^ 160); [lia|]. apply Z.pow_le_mono_r; lia. }
  assert (Hfin : forall s ws, 0 <= s <= 32 -> wf_words WORDS ws ->
    wf_id (mkID (rshift_words s 0 ws)) /\
    idZ (mkID (rshift_words s 0 ws)) = val ws / 2 ^ s).
  { intros s ws Rs Hws.
    destruct (rshift_words_val WORDS s 0 ws) as [L1 L2]; [done|lia|done|].
    rewrite !Z.mul_0_l in *.
    split; [exact L1|]. unfold idZ; simpl. rewrite L2. f_equal. }
  destruct (Z.ltb_spec 32 shift).
  - rewrite Z.shiftr_div_pow2 by lia. change 31 with (Z.ones 5).
    rewrite Z.land_ones by lia. set (k := Z.to_nat (shift / 2 ^ 5)).
    assert (Hk : Z.of_nat k = shift / 2 ^ 5)
      by (unfold k; rewrite Z2Nat.id; [done|apply Z.div_pos; lia]).
    pose proof (Z.div_mod shift (2 ^ 5)). pose proof (Z.mod_pos_bound shift (2 ^ 5)).
    assert (k <= WORDS)%nat by (unfold WORDS; lia).
    destruct (rshift_long_val WORDS k (words self)) as [Hl1 Hl2]; [done|done|].
    destruct (Hfin (shift mod 2 ^ 5) (rshift_long k (words self))) as [F1 F2];
      [lia|done|]. split; [done|]. rewrite F2, Hl2.
    rewrite Z.div_div by lia. rewrite <- Z.pow_add_r by lia.
    do 2 f_equal. lia.
  - by apply Hfin.
Qed.

Lemma ID_compareTo_val a b : wf_id a -> wf_id b ->
  ID_compareTo a b = cmpZ (idZ a) (idZ b).
Proof. apply compare_words_val. Qed.

#[export] Instance ID_compare_order : CompareOrder wf_id ID_compareTo.
Proof.
  split; intros; rewrite !ID_compareTo_val in * by done.
  - apply cmpZ_antisym.
  - rewrite !cmpZ_le in *. lia.
Qed.

Lemma distance_wf_val x y : wf_id x -> wf_id y ->
  wf_id (distance x y) /\ idZ (distance x y) = (idZ y - idZ x) mod RING.
Proof.
  intros Hx Hy. unfold distance, idZ.
  pose proof (distance_words_val WORDS _ _ Hx Hy) as L.
  destruct (distance_words (words x) (words y)) as [r c]. simpl.
  destruct L as (Hr & _ & Hv). split; [done|].
  rewrite <- (Z.mod_small (val r) RING) by (by apply (val_bound WORDS)).
  rewrite Hv. apply Z_mod_plus_full.
Qed.

Lemma add_wf_val x y : wf_id x -> wf_id y ->
  wf_id (add x y) /\ idZ (add x y) = (idZ x + idZ y) mod RING.
Proof.
  intros Hx Hy. unfold add, idZ.
  pose proof (add_words_val WORDS _ _ Hx Hy) as L.
  destruct (add_words (words x) (words y)) as [r c]. simpl.
  destruct L as (Hr & _ & Hv). split; [done|].
  rewrite <- (Z.mod_small (val r) RING) by (by apply (val_bound WORDS)).
  rewrite Hv. replace (val (words x) + val (words y) - _)
    with (val (words x) + val (words y) + (- c) * RING) by (unfold RING, WORDS; lia).
  apply Z_mod_plus_full.
Qed.

(** The bitwise operations keep identifiers well formed. *)
Lemma bitwise_wf a b : wf_id a -> wf_id b ->
  wf_id (bitwiseAND a b) /\ wf_id (bitwiseOR a b) /\ wf_id (bitwiseXOR a b) /\
  wf_id (bitwiseNOT a).
Proof.
  intros Ha Hb. repeat split.
  all: try apply (zip_val Z.land andb Z.land_spec eq_refl WORDS); try done.
  all: try apply (zip_val Z.lor orb Z.lor_spec eq_refl WORDS); try done.
  all: try apply (zip_val Z.lxor xorb Z.lxor_spec eq_refl WORDS); try done.
  all: apply (not_val WORDS); done.
Qed.

(** ** Properties *)

(** [ID::distance] is subtraction and [ID::add] addition on the ring of
    160-bit identifiers (word loops with borrow and carry included), both keep
    identifiers well formed, and walking the distance from an identifier to
    another ends at the other. *)
Theorem ring_arithmetic a b : wf_id a -> wf_id b ->
  (wf_id (distance a b) /\ idZ (distance a b) = (idZ b - idZ a) mod RING) /\
  (wf_id (add a b) /\ idZ (add a b) = (idZ a + idZ b) mod RING) /\
  idZ (add a (distance a b)) = idZ b.
Proof.
  intros Ha Hb. destruct (distance_wf_val a b Ha Hb) as [D1 D2].
  split; [done|]. split; [by apply add_wf_val|].
  destruct (add_wf_val a (distance a b) Ha D1) as [_ ->]. rewrite D2.
  rewrite Zplus_mod_idemp_r. replace (idZ a + (idZ b - idZ a)) with (idZ b) by lia.
  apply Z.mod_small. by apply wf_id_bound.
Qed.

Lemma ring_arithmetic_witness :
  idZ (add (mkID [0;0;0;7;0]) (distance (mkID [0;0;0;7;0]) ID_ONE)) = 1.
Proof.
  apply (ring_arithmetic (mkID [0;0;0;7;0]) ID_ONE);
    vm_decide.
Defined.

(** [ID::lshift] multiplies by a power of two modulo 2^160 and
    [ID::rshift] divides by it, for every shift amount: the zero, long (more
    than 32 bits), exactly-32 and overlong (at least 160 bits) paths included. *)
Theorem shifts_correct a shift : wf_id a -> 0 <= shift ->
  (wf_id (lshift a shift) /\ idZ (lshift a shift) = (idZ a * 2 ^ shift) mod RING) /\
  (wf_id (rshift a shift) /\ idZ (rshift a shift) = idZ a / 2 ^ shift).
Proof.
  intros Ha Hs. split; [by apply lshift_wf_val|by apply rshift_wf_val].
Qed.

Lemma shifts_correct_witness :
  idZ (lshift (mkID [1;2;3;4;5]) 32) = (idZ (mkID [1;2;3;4;5]) * 2 ^ 32) mod RING.
Proof.
  apply (shifts_correct (mkID [1;2;3;4;5]) 32);
    [vm_decide|lia].
Defined.

(** The wordwise [bitwiseAND], [bitwiseOR], [bitwiseXOR] and [bitwiseNOT]
    are the bit operations on the 160-bit numbers, and complementing twice or
    xor-ing twice with the same identifier gives the number back. *)
Theorem bitwise_correct a b : wf_id a -> wf_id b ->
  idZ (bitwiseAND a b) = Z.land (idZ a) (idZ b) /\
  idZ (bitwiseOR a b) = Z.lor (idZ a) (idZ b) /\
  idZ (bitwiseXOR a b) = Z.lxor (idZ a) (idZ b) /\
  idZ (bitwiseNOT a) = RING - 1 - idZ a /\
  idZ (bitwiseNOT (bitwiseNOT a)) = idZ a /\
  idZ (bitwiseXOR (bitwiseXOR a b) b) = idZ a.
Proof.
  intros Ha Hb.
  destruct (zip_val Z.lxor xorb Z.lxor_spec eq_refl WORDS _ _ Ha Hb) as [X1 X2].
  destruct (not_val WORDS _ Ha) as [N1 N2].
  split; [apply (zip_val Z.land andb Z.land_spec eq_refl WORDS); done|].
  split; [apply (zip_val Z.lor orb Z.lor_spec eq_refl WORDS); done|].
  split; [exact X2|]. split; [exact N2|]. split.
  - destruct (not_val WORDS _ N1) as [_ N3]. unfold idZ, bitwiseNOT; cbn [words].
    rewrite N3, N2. lia.
  - destruct (zip_val Z.lxor xorb Z.lxor_spec eq_refl WORDS _ _ X1 Hb) as [_ X3].
    unfold idZ, bitwiseXOR; cbn [words]. rewrite X3, X2.
    by rewrite Z.lxor_assoc, Z.lxor_nilpotent, Z.lxor_0_r.
Qed.

Lemma bitwise_correct_witness :
  idZ (bitwiseXOR (bitwiseXOR (mkID [1;2;3;4;5]) ID_ONE) ID_ONE)
  = idZ (mkID [1;2;3;4;5]).
Proof.
  apply (bitwise_correct (mkID [1;2;3;4;5]) ID_ONE);
    vm_decide.
Defined.

(** The clockwise length of the arc from [from] to [to]; a full turn when the
    two ends coincide. *)
Definition arc (from to : ID) : Z :=
  if (idZ to - idZ from) mod RING =? 0 then RING
  else (idZ to - idZ from) mod RING.

(** The [between] predicates decide membership in the arcs of the ring:
    with [d] the clockwise distance from [from] to the identifier, it is in
    the open arc iff 0 < d < arc, in [[from,to)] iff d < arc, in [(from,to]]
    iff the distance, a coincidence with [from] counting as a full turn, is at
    most the arc, and in [[from,to]] iff d <= arc.  Wrap-around arcs and equal
    ends (the whole ring) are included. *)
Theorem between_correct x from to : wf_id x -> wf_id from -> wf_id to ->
  let d := (idZ x - idZ from) mod RING in
  (betweenOO x from to = true <-> 0 < d < arc from to) /\
  (betweenCO x from to = true <-> d < arc from to) /\
  (betweenOC x from to = true <-> arc from x <= arc from to) /\
  (betweenCC x from to = true <-> d <= arc from to).
Proof.
  intros Hx Hf Ht d. unfold d, arc, betweenOO, betweenCO, betweenOC, betweenCC.
  rewrite !ID_compareTo_val by done.
  pose proof (wf_id_bound _ Hx). pose proof (wf_id_bound _ Hf).
  pose proof (wf_id_bound _ Ht).
  rewrite !ring_sub by done.
  generalize dependent (idZ x). generalize dependent (idZ from).
  generalize dependent (idZ to). intros t Rt f Rf v Rv.
  unfold cmpZ. destruct (Z.leb_spec f v), (Z.leb_spec f t);
    simp_if; bools; simpl; repeat split; intros; try done; try lia.
Qed.

Lemma between_correct_witness :
  betweenOC ID_ONE (bitwiseNOT ID_ZERO) ID_ONE = true <->
  arc (bitwiseNOT ID_ZERO) ID_ONE <= arc (bitwiseNOT ID_ZERO) ID_ONE.
Proof.
  apply (between_correct ID_ONE (bitwiseNOT ID_ZERO) ID_ONE);
    vm_decide.
Defined.
