(* ===== verification/Stl.v ===== *)
(** * Ordered containers of the C++ library

    P2 keeps its indices in [std::set], [std::multiset] and [std::map] with
    user-supplied comparators.  A container is modelled by the list of its
    elements in iteration order; an iterator is a position in it, [length l]
    being [end()].  [key] extracts what the comparator [lt] looks at, so that
    a container of pointers is ordered through the heap the pointers lead
    into.  Under a strict weak ordering the library determines every result
    below; the lemmas of this file are proved under exactly that hypothesis,
    on the domain [P] where the comparator satisfies it. *)

From S2P Require Import Prelude.

Section containers.
Context {A K : Type} (lt : K -> K -> bool) (key : A -> K).

(** [c.lower_bound(x)]: the first element not less than [x]. *)
Fixpoint lower_bound (x : K) (l : list A) : nat :=
  match l with
  | [] => 0
  | e :: l' => if lt (key e) x then S (lower_bound x l') else 0
  end.

(** [c.upper_bound(x)]: the first element greater than [x]. *)
Fixpoint upper_bound (x : K) (l : list A) : nat :=
  match l with
  | [] => 0
  | e :: l' => if lt x (key e) then 0 else S (upper_bound x l')
  end.

(** The elements an iterator meets from position [i] up to position [j]. *)
Definition range (i j : nat) (l : list A) : list A := take (j - i) (drop i l).

(** [s.find(x)] on a [std::set] or [std::map]: a position, or [end()]. *)
Definition set_find (x : K) (l : list A) : option nat :=
  match l !! lower_bound x l with
  | Some e => if lt x (key e) then None else Some (lower_bound x l)
  | None => None
  end.

Definition insert_at (i : nat) (e : A) (l : list A) : list A :=
  take i l ++ e :: drop i l.

(** [s.insert(e)] on a [std::set] (also with a position hint): no effect when
    an equivalent element is present. *)
Definition set_insert (e : A) (l : list A) : list A :=
  match set_find (key e) l with
  | Some _ => l
  | None => insert_at (lower_bound (key e) l) e l
  end.

(** [m.insert(e)] on a [std::multiset]: after the equivalent elements. *)
Definition multiset_insert (e : A) (l : list A) : list A :=
  insert_at (upper_bound (key e) l) e l.

(** [s.erase(x)] by key: all the elements equivalent to [x]. *)
Definition erase_key (x : K) (l : list A) : list A :=
  take (lower_bound x l) l ++ drop (upper_bound x l) l.

(** Neither is less: the comparator's equivalence. *)
Definition equivb (x y : K) : bool := negb (lt x y) && negb (lt y x).

(** ** Order invariants *)

(** A multiset lists its elements in non-descending order, a set in strictly
    ascending order. *)
Definition mset_sorted (l : list A) : Prop :=
  StronglySorted (fun a b => lt (key b) (key a) = false) l.
Definition set_sorted (l : list A) : Prop :=
  StronglySorted (fun a b => lt (key a) (key b) = true) l.

Context (P : K -> Prop) `{HO : !StrictWeakOrder P lt}.

Abbreviation inP := (fun e => P (key e)).

Lemma swo_asym x y : P x -> P y -> lt x y = true -> lt y x = false.
Proof.
  intros Px Py H. destruct (lt y x) eqn:E; [|done].
  pose proof (swo_trans x y x Px Py Px H E) as T.
  by rewrite (swo_irrefl x Px) in T.
Qed.

(** Transitivity across an incomparable element. *)
Lemma swo_lt_ge x y z : P x -> P y -> P z ->
  lt x y = true -> lt z y = false -> lt x z = true.
Proof.
  intros Px Py Pz H1 H2. destruct (swo_cotrans x z y Px Pz Py H1) as [|H]; [done|].
  congruence.
Qed.

Lemma swo_ge_lt x y z : P x -> P y -> P z ->
  lt y x = false -> lt y z = true -> lt x z = true.
Proof.
  intros Px Py Pz H1 H2. destruct (swo_cotrans y x z Py Px Pz H2) as [H|]; [|done].
  congruence.
Qed.

Lemma swo_ge_trans x y z : P x -> P y -> P z ->
  lt y x = false -> lt z y = false -> lt z x = false.
Proof.
  intros Px Py Pz H1 H2. destruct (lt z x) eqn:E; [|done].
  destruct (swo_cotrans z y x Pz Py Px E); congruence.
Qed.

Lemma set_sorted_mset l : Forall inP l -> set_sorted l -> mset_sorted l.
Proof.
  intros HP. induction 1 as [|a l Hs IH Ha]; [constructor|].
  apply Forall_cons in HP as [Pa HP]. constructor; [by apply IH|].
  rewrite Forall_forall in Ha, HP |- *. intros b Hb. by apply swo_asym; auto.
Qed.

Lemma equivb_sym x y : equivb x y = equivb y x.
Proof. unfold equivb. apply andb_comm. Qed.

Lemma equivb_refl x : P x -> equivb x x = true.
Proof. intros Px. unfold equivb. by rewrite (swo_irrefl (lt:=lt) x Px). Qed.

Lemma equivb_true x y : equivb x y = true <-> lt x y = false /\ lt y x = false.
Proof. unfold equivb. by rewrite andb_true_iff, !negb_true_iff. Qed.

(** Equivalent keys are interchangeable for the comparator. *)
Lemma equivb_lt_l x y z : P x -> P y -> P z -> equivb x y = true -> lt x z = lt y z.
Proof.
  rewrite equivb_true. intros Px Py Pz [H1 H2].
  destruct (lt x z) eqn:E1, (lt y z) eqn:E2; try done.
  - destruct (swo_cotrans x y z) as [|]; auto; congruence.
  - destruct (swo_cotrans y x z) as [|]; auto; congruence.
Qed.

Lemma equivb_lt_r x y z : P x -> P y -> P z -> equivb x y = true -> lt z x = lt z y.
Proof.
  rewrite equivb_true. intros Px Py Pz [H1 H2].
  destruct (lt z x) eqn:E1, (lt z y) eqn:E2; try done.
  - destruct (swo_cotrans z y x) as [|]; auto; congruence.
  - destruct (swo_cotrans z x y) as [|]; auto; congruence.
Qed.

Lemma equivb_trans x y z : P x -> P y -> P z ->
  equivb x y = true -> equivb y z = true -> equivb x z = true.
Proof.
  intros Px Py Pz H1 H2. unfold equivb.
  rewrite (equivb_lt_l x y z), (equivb_lt_r x y z) by done. exact H2.
Qed.

(** ** Bounds *)

Lemma lower_bound_le x l : (lower_bound x l <= length l)%nat.
Proof. induction l as [|e l IH]; simpl; [lia|]. destruct (lt (key e) x); lia. Qed.

Lemma upper_bound_le x l : (upper_bound x l <= length l)%nat.
Proof. induction l as [|e l IH]; simpl; [lia|]. destruct (lt x (key e)); lia. Qed.

Lemma lower_bound_take x l : Forall (fun e => lt (key e) x = true) (take (lower_bound x l) l).
Proof.
  induction l as [|e l IH]; simpl; [constructor|].
  destruct (lt (key e) x) eqn:E; constructor; auto.
Qed.

Lemma upper_bound_take x l : Forall (fun e => lt x (key e) = false) (take (upper_bound x l) l).
Proof.
  induction l as [|e l IH]; simpl; [constructor|].
  destruct (lt x (key e)) eqn:E; constructor; auto.
Qed.

Lemma lower_bound_drop x l : P x -> Forall inP l -> mset_sorted l ->
  Forall (fun e => lt (key e) x = false) (drop (lower_bound x l) l).
Proof.
  intros Px HP Hs. induction Hs as [|a l Hs IH Ha]; simpl; [constructor|].
  apply Forall_cons in HP as [Pa HP].
  destruct (lt (key a) x) eqn:E; [by apply IH|]. constructor; [done|].
  rewrite Forall_forall in Ha, HP |- *. intros b Hb.
  apply (swo_ge_trans x (key a) (key b)); auto.
Qed.

Lemma upper_bound_drop x l : P x -> Forall inP l -> mset_sorted l ->
  Forall (fun e => lt x (key e) = true) (drop (upper_bound x l) l).
Proof.
  intros Px HP Hs. induction Hs as [|a l Hs IH Ha]; simpl; [constructor|].
  apply Forall_cons in HP as [Pa HP].
  destruct (lt x (key a)) eqn:E; [|by apply IH]. constructor; [done|].
  rewrite Forall_forall in Ha, HP |- *. intros b Hb.
  apply (swo_lt_ge x (key a) (key b)); auto.
Qed.

Lemma lower_le_upper x l : P x -> Forall inP l -> mset_sorted l ->
  (lower_bound x l <= upper_bound x l)%nat.
Proof.
  intros Px HP Hs. induction Hs as [|a l Hs IH Ha]; simpl; [lia|].
  apply Forall_cons in HP as [Pa HP].
  destruct (lt (key a) x) eqn:E1, (lt x (key a)) eqn:E2; try lia.
  - by rewrite (swo_asym (key a) x) in E2.
  - specialize (IH HP). lia.
Qed.

(** Iterating from [lower_bound] to [upper_bound] meets exactly the elements
    equivalent to [x], in order. *)
Lemma equal_range_filter x l : P x -> Forall inP l -> mset_sorted l ->
  range (lower_bound x l) (upper_bound x l) l
  = filter (fun e => equivb x (key e) = true) l.
Proof.
  intros Px HP Hs. unfold range.
  induction Hs as [|a l Hs IH Ha]; [done|].
  apply Forall_cons in HP as [Pa HP]. simpl.
  destruct (lt (key a) x) eqn:E1.
  - rewrite (swo_asym (key a) x) by done.
    rewrite filter_cons_False by (rewrite equivb_true; intros []; congruence).
    simpl. by apply IH.
  - destruct (lt x (key a)) eqn:E2.
    + rewrite filter_cons_False by (rewrite equivb_true; intros []; congruence).
      simpl. symmetry. apply filter_none, Forall_forall. intros b Hb.
      rewrite Forall_forall in Ha, HP. unfold equivb.
      rewrite (swo_lt_ge x (key a) (key b)) by auto. done.
    + rewrite filter_cons_True by (rewrite equivb_true; done).
      simpl. f_equal. rewrite <- IH by done.
      assert (lower_bound x l = 0%nat) as ->; [|by rewrite Nat.sub_0_r].
      destruct l as [|b l]; [done|]. simpl.
      apply Forall_cons in HP as [Pb HP]. apply Forall_cons in Ha as [Hab Ha].
      by rewrite (swo_ge_trans x (key a) (key b)).
Qed.

(** ** Sets: find, insert, erase *)

Lemma set_find_Some x l i : set_find x l = Some i ->
  exists e, l !! i = Some e /\ lt x (key e) = false /\ i = lower_bound x l.
Proof.
  unfold set_find. destruct (l !! lower_bound x l) as [e|] eqn:E; [|done].
  destruct (lt x (key e)) eqn:E2; [done|]. intros [= <-]. eauto.
Qed.

Lemma set_find_equiv x l i e : P x -> Forall inP l -> mset_sorted l ->
  set_find x l = Some i -> l !! i = Some e -> equivb x (key e) = true.
Proof.
  intros Px HP Hs Hf Hi. apply set_find_Some in Hf as (e' & He & Hlt & ->).
  simplify_eq. apply equivb_true. split; [done|].
  pose proof (lower_bound_drop x l Px HP Hs) as Hd.
  rewrite Forall_lookup in Hd. apply (Hd 0%nat).
  by rewrite lookup_drop, Nat.add_0_r.
Qed.

Lemma set_find_None x l : P x -> Forall inP l -> mset_sorted l ->
  set_find x l = None <-> Forall (fun e => equivb x (key e) = false) l.
Proof.
  intros Px HP Hs. split.
  - intros Hf. apply Forall_forall. intros e He.
    destruct (equivb x (key e)) eqn:E; [|done]. exfalso.
    assert (Hin : e ∈ range (lower_bound x l) (upper_bound x l) l).
    { rewrite equal_range_filter by done. by apply list_elem_of_filter. }
    unfold range, set_find in *.
    destruct (drop (lower_bound x l) l) as [|a d] eqn:Ed.
    { rewrite take_nil in Hin. by apply not_elem_of_nil in Hin. }
    assert (Ha : l !! lower_bound x l = Some a).
    { rewrite <- (Nat.add_0_r (lower_bound x l)), <- lookup_drop, Ed. done. }
    rewrite Ha in Hf. destruct (lt x (key a)) eqn:Ea; [|done].
    destruct (upper_bound x l - lower_bound x l)%nat as [|m] eqn:Em.
    { by apply not_elem_of_nil in Hin. }
    pose proof (upper_bound_take x l) as Hu. rewrite Forall_lookup in Hu.
    specialize (Hu (lower_bound x l) a). rewrite lookup_take in Hu by lia.
    rewrite Hu in Ea; [done|]. case_decide; [done|lia].
  - intros HF. destruct (set_find x l) as [i|] eqn:Hf; [|done].
    destruct (set_find_Some _ _ _ Hf) as (e & He & _ & _).
    pose proof (set_find_equiv x l i e Px HP Hs Hf He).
    rewrite Forall_lookup in HF. rewrite (HF i e) in *; done.
Qed.

Lemma insert_at_perm i e l : insert_at i e l ≡ₚ e :: l.
Proof.
  unfold insert_at. rewrite <- Permutation_middle. by rewrite take_drop.
Qed.

(** In a sorted set at most one element is equivalent to a given key. *)
Lemma set_unique l a b i j : Forall inP l -> set_sorted l ->
  l !! i = Some a -> l !! j = Some b -> equivb (key a) (key b) = true -> i = j.
Proof.
  intros HP Hs. revert i j. induction Hs as [|c l Hs IH Hc]; [done|].
  apply Forall_cons in HP as [Pc HP]. intros [|i] [|j] Hi Hj He; simpl in *;
    simplify_eq.
  - done.
  - rewrite Forall_lookup in Hc. apply equivb_true in He as [He _].
    by rewrite (Hc j b) in He.
  - rewrite Forall_lookup in Hc. apply equivb_true in He as [_ He].
    by rewrite (Hc i a) in He.
  - f_equal. by eapply IH.
Qed.

Lemma StronglySorted_delete (R : A -> A -> Prop) i l :
  StronglySorted R l -> StronglySorted R (delete i l).
Proof.
  intros Hs. revert i. induction Hs as [|a l Hs IH Ha]; intros [|i]; simpl;
    try done; try constructor; auto. by apply Forall_delete.
Qed.

Lemma StronglySorted_split (R : A -> A -> Prop) i l :
  StronglySorted R l -> StronglySorted R (take i l) /\ StronglySorted R (drop i l).
Proof.
  intros Hs. rewrite <- (take_drop i l) in Hs. apply StronglySorted_app in Hs. tauto.
Qed.

Lemma multiset_insert_sorted e l : inP e -> Forall inP l ->
  mset_sorted l -> mset_sorted (multiset_insert e l).
Proof.
  intros Pe HP Hs. unfold multiset_insert, insert_at, mset_sorted.
  pose proof (upper_bound_take (key e) l) as Ht.
  pose proof (upper_bound_drop (key e) l Pe HP Hs) as Hd.
  set (i := upper_bound (key e) l) in *.
  pose proof (Forall_take _ i _ HP) as Pt. pose proof (Forall_drop _ i _ HP) as Pd.
  destruct (StronglySorted_split _ i l Hs) as [S1 S2].
  rewrite Forall_forall in Pt, Pd, Ht, Hd.
  apply StronglySorted_app_2; [|done|].
  - intros a b Ha Hb. apply elem_of_cons in Hb as [->|Hb]; [by apply Ht|].
    apply swo_asym; auto. apply (swo_ge_lt (key a) (key e) (key b)); auto.
  - constructor; [done|]. apply Forall_forall. intros b Hb. apply swo_asym; auto.
Qed.

Lemma set_insert_at_sorted e l : inP e -> Forall inP l -> set_sorted l ->
  Forall (fun b => equivb (key e) (key b) = false) l ->
  set_sorted (insert_at (lower_bound (key e) l) e l).
Proof.
  intros Pe HP Hs Hf. unfold insert_at, set_sorted.
  pose proof (lower_bound_take (key e) l) as Ht.
  pose proof (lower_bound_drop (key e) l Pe HP (set_sorted_mset l HP Hs)) as Hd.
  set (i := lower_bound (key e) l) in *.
  pose proof (Forall_take _ i _ HP) as Pt. pose proof (Forall_drop _ i _ HP) as Pd.
  pose proof (Forall_drop _ i _ Hf) as Fd.
  destruct (StronglySorted_split _ i l Hs) as [S1 S2].
  rewrite Forall_forall in Pt, Pd, Ht, Hd, Fd.
  assert (Hgt : forall b, b ∈ drop i l -> lt (key e) (key b) = true).
  { intros b Hb. specialize (Fd b Hb). specialize (Hd b Hb). unfold equivb in Fd.
    rewrite Hd, andb_true_r in Fd. by apply negb_false_iff in Fd. }
  apply StronglySorted_app_2; [|done|].
  - intros a b Ha Hb. apply elem_of_cons in Hb as [->|Hb]; [by apply Ht|].
    apply (swo_trans (key a) (key e) (key b)); auto.
  - constructor; [done|]. apply Forall_forall. auto.
Qed.

(** Removing the element found for a key keeps exactly the others. *)
Lemma set_delete_filter x l i e : P x -> Forall inP l -> set_sorted l ->
  l !! i = Some e -> equivb x (key e) = true ->
  delete i l = filter (fun b => equivb x (key b) = false) l.
Proof.
  intros Px HP Hs. revert i. induction Hs as [|a l Hs IH Ha]; [done|].
  apply Forall_cons in HP as [Pa HP]. intros [|i] Hi He; simpl in *; simplify_eq.
  - rewrite filter_cons_False by congruence. symmetry.
    apply filter_all.
    rewrite Forall_forall in Ha, HP |- *. intros b Hb.
    destruct (equivb x (key b)) eqn:E; [|done]. exfalso.
    apply equivb_true in E as [E1 E2].
    rewrite (equivb_lt_l x (key e) (key b)) in E1 by auto.
    by rewrite (Ha b Hb) in E1.
  - rewrite filter_cons_True; [f_equal; by eapply IH|].
    destruct (equivb x (key a)) eqn:E; [|done]. exfalso.
    assert (Hae : equivb (key a) (key e) = true).
    { assert (inP e) by (rewrite Forall_lookup in HP; by eapply HP).
      apply (equivb_trans (key a) x (key e)); auto. by rewrite equivb_sym. }
    rewrite Forall_lookup in Ha. apply equivb_true in Hae as [Hae _].
    by rewrite (Ha i e) in Hae.
Qed.

Lemma erase_key_filter x l : P x -> Forall inP l -> mset_sorted l ->
  erase_key x l = filter (fun b => equivb x (key b) = false) l.
Proof.
  intros Px HP Hs. unfold erase_key.
  assert (Hcut : l = take (lower_bound x l) l
    ++ range (lower_bound x l) (upper_bound x l) l ++ drop (upper_bound x l) l).
  { unfold range. pose proof (lower_le_upper x l Px HP Hs).
    rewrite <- (take_drop (lower_bound x l) l) at 1. f_equal.
    rewrite <- (take_drop (upper_bound x l - lower_bound x l)
      (drop (lower_bound x l) l)) at 1.
    rewrite drop_drop. do 2 f_equal. lia. }
  rewrite Hcut at 5. rewrite !filter_app.
  rewrite equal_range_filter by done.
  pose proof (lower_bound_take x l) as Ht.
  pose proof (upper_bound_drop x l Px HP Hs) as Hd.
  rewrite (filter_all _ (take _ _)), (filter_all _ (drop _ _)), filter_none.
  - done.
  - apply Forall_forall. intros b Hb%list_elem_of_filter. destruct Hb. congruence.
  - eapply Forall_impl; [exact Hd|]. intros b Hb. simpl in Hb. unfold equivb.
    by rewrite Hb.
  - eapply Forall_impl; [exact Ht|]. intros b Hb. simpl in Hb. unfold equivb.
    by rewrite Hb, andb_false_r.
Qed.

Lemma filter_sorted (Q : A -> Prop) `{!forall a, Decision (Q a)} (R : A -> A -> Prop) l :
  StronglySorted R l -> StronglySorted R (filter Q l).
Proof.
  induction 1 as [|a l Hs IH Ha]; [constructor|]. rewrite filter_cons.
  case_decide; [|done]. constructor; [done|].
  rewrite Forall_forall in Ha |- *. intros b Hb%list_elem_of_filter. by apply Ha, Hb.
Qed.
End containers.

(** The order of a container only depends on the keys its elements lead to, so
    it survives any change of the heap that keeps them. *)
Section key_change.
Context {A K : Type} (lt : K -> K -> bool) (key key' : A -> K).

Lemma mset_sorted_ext l : Forall (fun a => key' a = key a) l ->
  mset_sorted lt key l -> mset_sorted lt key' l.
Proof.
  intros He Hs. induction Hs as [|a l Hs IH Ha]; [constructor|].
  apply Forall_cons in He as [Ea He]. constructor; [by apply IH|].
  rewrite Forall_forall in Ha, He |- *. intros b Hb. rewrite Ea, He by done. auto.
Qed.

Lemma set_sorted_ext l : Forall (fun a => key' a = key a) l ->
  set_sorted lt key l -> set_sorted lt key' l.
Proof.
  intros He Hs. induction Hs as [|a l Hs IH Ha]; [constructor|].
  apply Forall_cons in He as [Ea He]. constructor; [by apply IH|].
  rewrite Forall_forall in Ha, He |- *. intros b Hb. rewrite Ea, He by done. auto.
Qed.
End key_change.

(** Cutting a list at two positions: the part in between is selected by a
    predicate that fails before the first and after the second. *)
Lemma range_filter {A} (Q : A -> Prop) `{!forall x, Decision (Q x)} i j (l : list A) :
  (i <= j)%nat ->
  Forall (fun x => ~ Q x) (take i l) -> Forall (fun x => ~ Q x) (drop j l) ->
  Forall Q (range i j l) -> range i j l = filter Q l.
Proof.
  intros Hij H1 H2 H3.
  assert (Hcut : l = take i l ++ range i j l ++ drop j l).
  { unfold range. rewrite <- (take_drop i l) at 1. f_equal.
    rewrite <- (take_drop (j - i) (drop i l)) at 1. rewrite drop_drop. do 2 f_equal. lia. }
  rewrite Hcut at 2. rewrite !filter_app, (filter_none _ (take i l)), (filter_none _ (drop j l)),
    (filter_all _ (range i j l)) by done.
  simpl. by rewrite app_nil_r.
Qed.

Lemma range_Forall {A} (Q R : A -> Prop) i j (l : list A) : (i <= j)%nat ->
  Forall Q (drop i l) -> Forall R (take j l) -> Forall (fun x => Q x /\ R x) (range i j l).
Proof.
  intros Hij HQ HR. unfold range. apply Forall_and. split.
  - by apply Forall_take.
  - rewrite take_drop_commute. replace (i + (j - i))%nat with j by lia. by apply Forall_drop.
Qed.
