(* ===== verification/Values.v ===== *)
(** * Values: types, comparison, lists and sets

    The concrete value classes of src/p2core (val_*.C), the order [compareTo]
    imposes on them, [List] (list.C), [Set] (set.C) and the field-by-field
    comparison of [Tuple] (tuple.C).

    Data.  A [double] is a [spec_float] (IEEE-754 value with signed zeros,
    infinities and NaN); a boost [ptime] or [time_duration] is its tick count
    (the special not-a-date-time and infinite values are left out); the
    containers of [Val_List], [Val_Set], [Val_Vector] and [Val_Matrix] are the
    lists of their elements in iteration order; a [Val_Tuple] holds a tuple
    (not the null pointer), given by its fields.  [std::string] is a [string]
    of 8-bit characters. *)

From Stdlib Require Import SpecFloat Ascii String.
From S2P Require Import Prelude Ids Stl.

(** ** Data *)

(** [Value::TypeCode], in declaration order. *)
Inductive TypeCode :=
  | NULLV | STR | INT64 | DOUBLE | OPAQUE | TUPLE | TIME | IDT
  | TIME_DURATION | SET | LIST | VECTOR | MATRIX.

Definition tcode (t : TypeCode) : Z :=
  match t with
  | NULLV => 0 | STR => 1 | INT64 => 2 | DOUBLE => 3 | OPAQUE => 4
  | TUPLE => 5 | TIME => 6 | IDT => 7 | TIME_DURATION => 8 | SET => 9
  | LIST => 10 | VECTOR => 11 | MATRIX => 12
  end.

#[warnings="-register-all"]
Inductive value :=
  | VNull
  | VStr (s : string)
  | VInt64 (i : Z)
  | VDouble (d : spec_float)
  | VOpaque (b : list Z)
  | VTuple (t : list value)
  | VTime (t : Z)
  | VID (i : ID)
  | VTimeDuration (td : Z)
  | VSet (l : list value)
  | VList (l : list value)
  | VVector (v : list value)
  | VMatrix (size1 size2 : nat) (m : list value).

#[export] Instance spec_float_eq_dec : EqDecision spec_float.
Proof. solve_decision. Defined.

#[export] Instance ID_eq_dec : EqDecision ID.
Proof. solve_decision. Defined.

#[export] Instance value_eq_dec : EqDecision value.
Proof.
  unfold EqDecision, Decision. fix go 1. intros a b.
  destruct a, b; try (right; congruence); try (left; reflexivity).
  all: try (match goal with |- {?c ?x = ?c ?y} + {_} =>
    first [destruct (decide (x = y)) as [->|]; [left; reflexivity|right; congruence]
          |destruct (@list_eq_dec value go x y) as [->|]; [left; reflexivity|right; congruence]]
    end).
  destruct (decide (size1 = size0)) as [->|]; [|right; congruence].
  destruct (decide (size2 = size3)) as [->|]; [|right; congruence].
  destruct (@list_eq_dec value go m m0) as [->|]; [left; reflexivity|right; congruence].
Defined.

(** [typeCode()] of each class. *)
Definition typeCode (v : value) : TypeCode :=
  match v with
  | VNull => NULLV | VStr _ => STR | VInt64 _ => INT64 | VDouble _ => DOUBLE
  | VOpaque _ => OPAQUE | VTuple _ => TUPLE | VTime _ => TIME | VID _ => IDT
  | VTimeDuration _ => TIME_DURATION | VSet _ => SET | VList _ => LIST
  | VVector _ => VECTOR | VMatrix _ _ _ => MATRIX
  end.

(** ** Comparison

    Every class compares type codes first and its own payload when the codes
    agree.  [std::string::compare] and [memcmp] are only used for their sign,
    which is what the definitions return. *)

Definition string_bytes (s : string) : list Z :=
  map (fun c => Z.of_N (N_of_ascii c)) (list_ascii_of_string s).

Definition Val_Null_compareTo (other : value) : Z :=
  match typeCode other with NULLV => 0 | _ => -1 end.

Definition Val_Str_compareTo (s : string) (other : value) : Z :=
  if tcode STR <? tcode (typeCode other) then -1
  else if tcode (typeCode other) <? tcode STR then 1
  else match other with
       | VStr s' => lexc cmpZ (string_bytes s) (string_bytes s')
       | _ => 0
       end.

Definition Val_Int64_compareTo (i : Z) (other : value) : Z :=
  if tcode INT64 <? tcode (typeCode other) then -1
  else if tcode (typeCode other) <? tcode INT64 then 1
  else match other with
       | VInt64 i' => if i <? i' then -1 else if i' <? i then 1 else 0
       | _ => 0
       end.

Definition Val_Double_compareTo (d : spec_float) (other : value) : Z :=
  if tcode DOUBLE <? tcode (typeCode other) then -1
  else if tcode (typeCode other) <? tcode DOUBLE then 1
  else match other with
       | VDouble d' => if SFltb d d' then -1 else if SFltb d' d then 1 else 0
       | _ => 0
       end.

(** [Fdbuf::compareTo]: lengths first, then [memcmp]. *)
Definition Fdbuf_compareTo (b b' : list Z) : Z :=
  if (length b <? length b')%nat then -1
  else if (length b' <? length b)%nat then 1
  else lexc cmpZ b b'.

Definition Val_Opaque_compareTo (b : list Z) (other : value) : Z :=
  if tcode OPAQUE <? tcode (typeCode other) then -1
  else if tcode (typeCode other) <? tcode OPAQUE then 1
  else match other with VOpaque b' => Fdbuf_compareTo b b' | _ => 0 end.

Definition Val_Time_compareTo (t : Z) (other : value) : Z :=
  if tcode TIME <? tcode (typeCode other) then -1
  else if tcode (typeCode other) <? tcode TIME then 1
  else match other with
       | VTime t' => if t <? t' then -1 else if t' <? t then 1 else 0
       | _ => 0
       end.

Definition Val_ID_compareTo (i : ID) (other : value) : Z :=
  if tcode IDT <? tcode (typeCode other) then -1
  else if tcode (typeCode other) <? tcode IDT then 1
  else match other with VID i' => ID_compareTo i i' | _ => 0 end.

Definition Val_Time_Duration_compareTo (td : Z) (other : value) : Z :=
  if tcode TIME_DURATION <? tcode (typeCode other) then -1
  else if tcode (typeCode other) <? tcode TIME_DURATION then 1
  else match other with
       | VTimeDuration td' => if td <? td' then -1 else if td' <? td then 1 else 0
       | _ => 0
       end.

(** The classes below compare their elements with [cmp], the virtual
    [compareTo]. *)
Section collections.
Context (cmp : value -> value -> Z).

(** The loop shared by [Tuple], [Val_Vector] and [Val_Matrix]: the first
    differing field of two sequences of the same size. *)
Definition compare_fields : list value -> list value -> Z :=
  fix go l1 l2 :=
    match l1, l2 with
    | a :: l1', b :: l2' =>
        let result := cmp a b in if result =? 0 then go l1' l2' else result
    | _, _ => 0
    end.

Definition Tuple_compareTo (t other : list value) : Z :=
  if (length t =? length other)%nat then compare_fields t other
  else if (length t <? length other)%nat then -1 else 1.

Definition Val_Tuple_compareTo (t : list value) (other : value) : Z :=
  if tcode TUPLE <? tcode (typeCode other) then -1
  else if tcode (typeCode other) <? tcode TUPLE then 1
  else match other with VTuple t' => Tuple_compareTo t t' | _ => 0 end.

(** [List::compareTo] and [Set::compareTo]: lexicographic, a proper prefix is
    less. *)
Definition List_compareTo : list value -> list value -> Z :=
  fix go l1 l2 :=
    match l1, l2 with
    | a :: l1', b :: l2' =>
        if negb (cmp a b =? 0) then cmp a b else go l1' l2'
    | [], _ :: _ => -1
    | _ :: _, [] => 1
    | [], [] => 0
    end.

Definition Set_compareTo : list value -> list value -> Z :=
  fix go l1 l2 :=
    match l1, l2 with
    | a :: l1', b :: l2' =>
        if negb (cmp a b =? 0) then cmp a b else go l1' l2'
    | [], _ :: _ => -1
    | _ :: _, [] => 1
    | [], [] => 0
    end.

(** These four classes answer -1 when the *other* type code is smaller. *)
Definition Val_Set_compareTo (l : list value) (other : value) : Z :=
  if tcode (typeCode other) <? tcode SET then -1
  else if tcode SET <? tcode (typeCode other) then 1
  else match other with VSet l' => Set_compareTo l l' | _ => 0 end.

Definition Val_List_compareTo (l : list value) (other : value) : Z :=
  if tcode (typeCode other) <? tcode LIST then -1
  else if tcode LIST <? tcode (typeCode other) then 1
  else match other with VList l' => List_compareTo l l' | _ => 0 end.

Definition Val_Vector_compareTo (v : list value) (other : value) : Z :=
  if tcode (typeCode other) <? tcode VECTOR then -1
  else if tcode VECTOR <? tcode (typeCode other) then 1
  else match other with
       | VVector v' =>
           if (length v =? length v')%nat then compare_fields v v'
           else if (length v <? length v')%nat then -1 else 1
       | _ => 0
       end.

Definition Val_Matrix_compareTo (s1 s2 : nat) (m : list value) (other : value) : Z :=
  if tcode (typeCode other) <? tcode MATRIX then -1
  else if tcode MATRIX <? tcode (typeCode other) then 1
  else match other with
       | VMatrix s1' s2' m' =>
           if ((s1 =? s1') && (s2 =? s2'))%nat then compare_fields m m'
           else if (s1 =? s1')%nat then (if (s2 <? s2')%nat then -1 else 1)
           else if (s1 <? s1')%nat then -1 else 1
       | _ => 0
       end.
End collections.

(** The virtual method [Value::compareTo]. *)
Fixpoint compareTo (v other : value) : Z :=
  match v with
  | VNull => Val_Null_compareTo other
  | VStr s => Val_Str_compareTo s other
  | VInt64 i => Val_Int64_compareTo i other
  | VDouble d => Val_Double_compareTo d other
  | VOpaque b => Val_Opaque_compareTo b other
  | VTuple t => Val_Tuple_compareTo compareTo t other
  | VTime t => Val_Time_compareTo t other
  | VID i => Val_ID_compareTo i other
  | VTimeDuration td => Val_Time_Duration_compareTo td other
  | VSet l => Val_Set_compareTo compareTo l other
  | VList l => Val_List_compareTo compareTo l other
  | VVector l => Val_Vector_compareTo compareTo l other
  | VMatrix s1 s2 m => Val_Matrix_compareTo compareTo s1 s2 m other
  end.

(** [Value::equals] (no cast is involved when the type codes agree, so no
    [TypeError] can arise) and [Value::Comparator] / [ltSet] /
    [valueSortCriterion]. *)
Definition equals (v other : value) : bool := compareTo v other =? 0.
Definition value_lt (v other : value) : bool := compareTo v other <? 0.

(** ** [List] (list.C)

    A [List] object is the list of its values; the mutating methods return the
    new contents. *)

(** [List::at]: the assertion guards the position. *)
Definition List_at (vpl : list value) (pos : nat) : res value :=
  if (pos <? length vpl)%nat then of_option AssertFailed (vpl !! pos)
  else Fail AssertFailed.

(** [List::member]: 1 when an element compares equal. *)
Fixpoint List_member (vpl : list value) (val : value) : Z :=
  match vpl with
  | [] => 0
  | v :: vpl' => if compareTo v val =? 0 then 1 else List_member vpl' val
  end.

(** [List::append(ValuePtr)], [List::append(ListPtr)], [List::prepend],
    [List::clone], [List::concat]. *)
Definition List_append (vpl : list value) (val : value) : list value := vpl ++ [val].
Definition List_append_list (vpl l : list value) : list value :=
  fold_left List_append l vpl.
Definition List_prepend (vpl : list value) (val : value) : list value := val :: vpl.
Definition List_clone (vpl : list value) : list value := fold_left List_append vpl [].
Definition List_concat (vpl L : list value) : list value :=
  fold_left List_append L (fold_left List_append vpl []).

(** [std::list::sort] with the comparator of the values is a stable sort:
    each element goes before the later ones it is equivalent to. *)
Fixpoint List_sort (vpl : list value) : list value :=
  match vpl with
  | [] => []
  | v :: vpl' =>
      let s := List_sort vpl' in insert_at (lower_bound value_lt id v s) v s
  end.

(** The merge loop of [List::intersect] over the two sorted copies. *)
Definition intersect_loop : list value -> list value -> list value :=
  fix go1 l1 :=
    fix go2 l2 :=
      match l1, l2 with
      | i1 :: l1', i2 :: l2' =>
          let compareResult := compareTo i1 i2 in
          if compareResult =? 0 then i1 :: go1 l1' l2'
          else if compareResult <? 0 then go1 l1' l2
          else go2 l2'
      | _, _ => []
      end.

Definition List_intersect (vpl l : list value) : list value :=
  intersect_loop (List_sort vpl) (List_sort l).

(** ** [Set] (set.C)

    A [Set] wraps a [std::set] ordered by [ltSet]. *)

Definition Set_insert (vpl : list value) (val : value) : list value :=
  set_insert value_lt id val vpl.

Definition Set_member (vpl : list value) (val : value) : bool :=
  match set_find value_lt id val vpl with Some _ => true | None => false end.

(** [Set::clone] and the [inserter]s of the set algebra fill a fresh set. *)
Definition Set_of_list (l : list value) : list value := fold_left Set_insert l [].
Definition Set_clone (vpl : list value) : list value := Set_of_list vpl.

(** The algorithms of the C++ library on two sorted ranges. *)
Definition std_set_union : list value -> list value -> list value :=
  fix go1 l1 :=
    fix go2 l2 :=
      match l1, l2 with
      | [], _ => l2
      | _, [] => l1
      | a :: l1', b :: l2' =>
          if value_lt a b then a :: go1 l1' l2
          else if value_lt b a then b :: go2 l2'
          else a :: go1 l1' l2'
      end.

Definition std_set_intersection : list value -> list value -> list value :=
  fix go1 l1 :=
    fix go2 l2 :=
      match l1, l2 with
      | a :: l1', b :: l2' =>
          if value_lt a b then go1 l1' l2
          else if value_lt b a then go2 l2'
          else a :: go1 l1' l2'
      | _, _ => []
      end.

Definition std_set_difference : list value -> list value -> list value :=
  fix go1 l1 :=
    fix go2 l2 :=
      match l1, l2 with
      | [], _ => []
      | _, [] => l1
      | a :: l1', b :: l2' =>
          if value_lt a b then a :: go1 l1' l2
          else if value_lt b a then go2 l2'
          else go1 l1' l2'
      end.

Definition std_set_symmetric_difference : list value -> list value -> list value :=
  fix go1 l1 :=
    fix go2 l2 :=
      match l1, l2 with
      | [], _ => l2
      | _, [] => l1
      | a :: l1', b :: l2' =>
          if value_lt a b then a :: go1 l1' l2
          else if value_lt b a then b :: go2 l2'
          else go1 l1' l2'
      end.

Definition std_includes : list value -> list value -> bool :=
  fix go1 l1 :=
    match l1 with
    | [] => fun l2 => match l2 with [] => true | _ :: _ => false end
    | a :: l1' => fun l2 =>
        match l2 with
        | [] => true
        | b :: l2' =>
            if value_lt b a then false
            else if value_lt a b then go1 l1' l2 else go1 l1' l2'
        end
    end.

Definition Set_intersect (vpl l : list value) : list value :=
  Set_of_list (std_set_intersection vpl l).
Definition Set_difference (vpl l : list value) : list value :=
  Set_of_list (std_set_difference vpl l).
Definition Set_symmetricDiff (vpl l : list value) : list value :=
  Set_of_list (std_set_symmetric_difference vpl l).
Definition Set_setunion (vpl l : list value) : list value :=
  Set_of_list (std_set_union vpl l).

(** [Set::subset] tests that [l] is included in [this]; [Set::propersubset]
    that it is also smaller. *)
Definition Set_subset (vpl l : list value) : bool := std_includes vpl l.
Definition Set_propersubset (vpl l : list value) : bool :=
  Set_subset vpl l && (length l <? length vpl)%nat.

(** ** Domains of the theorems *)

Definition is_nan (d : spec_float) : bool :=
  match d with S754_nan => true | _ => false end.

(** The values on which [compareTo] is a total order: no list, set, vector or
    matrix in them, no NaN, and well-formed identifiers. *)
Fixpoint plain (v : value) : bool :=
  match v with
  | VDouble d => negb (is_nan d)
  | VTuple t => forallb plain t
  | VID i => bool_decide (wf_id i)
  | VSet _ | VList _ | VVector _ | VMatrix _ _ _ => false
  | _ => true
  end.

Definition plainP (v : value) : Prop := plain v = true.

Fixpoint depth (v : value) : nat :=
  match v with
  | VTuple t => S (list_max (map depth t))
  | _ => 0
  end.

(** ** Lemmas: [compareTo] is a total preorder on plain values *)

Definition vrank (v : value) : Z := tcode (typeCode v).

(** Distinct type codes decide the comparison of a plain value. *)
Lemma compareTo_rank a b : plainP a ->
  compareTo a b = by_rank vrank compareTo a b.
Proof. unfold plainP. destruct a; try discriminate; intros _; by destruct b. Qed.

Lemma compare_fields_lexc cmp l1 l2 : length l1 = length l2 ->
  compare_fields cmp l1 l2 = lexc cmp l1 l2.
Proof.
  revert l2. induction l1 as [|a l1 IH]; intros [|b l2] Hl; try done.
  simpl in *. by rewrite IH by lia.
Qed.

Lemma Tuple_compareTo_rank cmp t t' :
  Tuple_compareTo cmp t t' = by_rank (fun l => Z.of_nat (length l)) (lexc cmp) t t'.
Proof.
  unfold Tuple_compareTo, by_rank, cmpZ.
  destruct (Nat.eqb_spec (length t) (length t')) as [E|E].
  - rewrite E, Z.eqb_refl. by apply compare_fields_lexc.
  - destruct (Z.eqb_spec (Z.of_nat (length t)) (Z.of_nat (length t'))); [lia|].
    destruct (Nat.ltb_spec (length t) (length t')); simp_if; bools; lia.
Qed.

Lemma Fdbuf_compareTo_rank b b' :
  Fdbuf_compareTo b b' = by_rank (fun l => Z.of_nat (length l)) (lexc cmpZ) b b'.
Proof.
  unfold Fdbuf_compareTo, by_rank.
  destruct (Nat.ltb_spec (length b) (length b')), (Nat.ltb_spec (length b') (length b)),
    (Z.eqb_spec (Z.of_nat (length b)) (Z.of_nat (length b'))); try lia; try done;
    unfold cmpZ; simp_if; bools; lia.
Qed.

(** The order of the doubles other than NaN, as a lexicographic order. *)
Definition double_key (d : spec_float) : list Z :=
  match d with
  | S754_zero _ => [0; 0; 0]
  | S754_infinity s => [if s then -2 else 2; 0; 0]
  | S754_finite s m e =>
      if s then [-1; - e; - Z.pos m] else [1; e; Z.pos m]
  | S754_nan => []
  end.

Lemma double_compare_key d d' : is_nan d = false -> is_nan d' = false ->
  (if SFltb d d' then -1 else if SFltb d' d then 1 else 0)
  = lexc cmpZ (double_key d) (double_key d').
Proof.
  unfold SFltb. destruct d as [s|s| |s m e], d' as [s'|s'| |s' m' e']; try done;
    intros _ _; try (by destruct s, s'); try (by destruct s); try (by destruct s').
  unfold SFcompare. change (PosDef.Pos.compare_cont Eq) with Pos.compare.
  destruct s, s'; try reflexivity; unfold double_key, lexc, cmpZ;
    rewrite (Z.compare_antisym e e'), (Pos.compare_antisym m m');
    destruct (Z.compare_spec e e'); simpl; try destruct (Pos.compare_spec m m');
    subst; simpl; simp_if; bools; try done; try lia.
Qed.

Lemma lenlex_order {A} (P : A -> Prop) cmp : CompareOrder P cmp ->
  CompareOrder (Forall P) (by_rank (fun l => Z.of_nat (length l)) (lexc cmp)).
Proof.
  intros HC. pose proof (lexc_order P cmp HC) as HL.
  apply by_rank_order; intros; [by apply cmp_antisym|].
  eapply (cmp_trans x y z); eauto.
Qed.

Lemma lexcZ_order : CompareOrder (Forall (fun _ : Z => True)) (lexc cmpZ).
Proof. apply lexc_order, _. Qed.

Lemma Forall_I {A} (l : list A) : Forall (fun _ => True) l.
Proof. by apply Forall_forall. Qed.

Definition below (n : nat) (v : value) : Prop := plainP v /\ (depth v < n)%nat.

Lemma below_tuple n t : below (S n) (VTuple t) -> Forall (below n) t.
Proof.
  intros [Hp Hd]. unfold plainP in Hp. simpl in *.
  rewrite forallb_forall in Hp. apply Nat.succ_lt_mono in Hd.
  assert (Hm : (list_max (map depth t) <= pred n)%nat) by lia.
  apply list_max_le in Hm. rewrite List.Forall_forall in Hm.
  apply Forall_forall. intros v Hv%list_elem_of_In. split; [by apply Hp|].
  pose proof (Hm (depth v) (in_map _ _ _ Hv)). lia.
Qed.

(** One level of the induction: the comparison of two values of the same type
    is lawful when that of the fields of tuples is. *)
Lemma compareTo_order_step n : CompareOrder (below n) compareTo ->
  CompareOrder (below (S n)) compareTo.
Proof.
  intros IH.
  pose proof (lenlex_order _ _ IH) as HT. pose proof lexcZ_order as HS.
  pose proof (lenlex_order _ _ cmpZ_order) as HO.
  assert (HB : CompareOrder (below (S n)) (by_rank vrank compareTo)).
  { apply by_rank_order.
    - intros a b Ha Hb Hr. destruct a, b; try discriminate Hr;
        try (by destruct Ha); cbn.
      + apply (cmp_antisym (CompareOrder := HS)); apply Forall_I.
      + apply cmpZ_antisym.
      + destruct Ha as [Ha _], Hb as [Hb _]. unfold plainP in *; simpl in *. bools.
        rewrite !double_compare_key by done.
        apply (cmp_antisym (CompareOrder := HS)); apply Forall_I.
      + rewrite !Fdbuf_compareTo_rank.
        apply (cmp_antisym (CompareOrder := HO)); apply Forall_I.
      + rewrite !Tuple_compareTo_rank.
        apply (cmp_antisym (CompareOrder := HT)); by apply below_tuple.
      + apply cmpZ_antisym.
      + destruct Ha as [Ha _], Hb as [Hb _]. unfold plainP in *; simpl in *.
        apply bool_decide_eq_true in Ha, Hb.
        by apply (cmp_antisym (CompareOrder := ID_compare_order)).
      + apply cmpZ_antisym.
    - intros a b c Ha Hb Hc Hr1 Hr2.
      destruct a, b; try discriminate Hr1; destruct c; try discriminate Hr2;
        try (by destruct Ha); cbn; intros H1 H2.
      + eapply (cmp_trans (CompareOrder := HS)); [apply Forall_I..|exact H1|exact H2].
      + fold (cmpZ i i0) (cmpZ i0 i1) (cmpZ i i1) in *. rewrite !cmpZ_le in *. lia.
      + destruct Ha as [Ha _], Hb as [Hb _], Hc as [Hc _].
        unfold plainP in *; simpl in *. bools.
        rewrite !double_compare_key in * by done.
        eapply (cmp_trans (CompareOrder := HS)); [apply Forall_I..|exact H1|exact H2].
      + rewrite !Fdbuf_compareTo_rank in *.
        eapply (cmp_trans (CompareOrder := HO)); [apply Forall_I..|exact H1|exact H2].
      + rewrite !Tuple_compareTo_rank in *.
        apply (cmp_trans (CompareOrder := HT) t t0 t1); auto using below_tuple.
      + fold (cmpZ t t0) (cmpZ t0 t1) (cmpZ t t1) in *. rewrite !cmpZ_le in *. lia.
      + destruct Ha as [Ha _], Hb as [Hb _], Hc as [Hc _].
        unfold plainP in *; simpl in *. apply bool_decide_eq_true in Ha, Hb, Hc.
        by apply (cmp_trans (CompareOrder := ID_compare_order) i i0 i1).
      + fold (cmpZ td td0) (cmpZ td0 td1) (cmpZ td td1) in *.
        rewrite !cmpZ_le in *. lia. }
  split.
  - intros a b Ha Hb. rewrite (compareTo_rank a b), (compareTo_rank b a)
      by (by destruct Ha, Hb). by apply (cmp_antisym (CompareOrder := HB)).
  - intros a b c Ha Hb Hc. rewrite (compareTo_rank a b), (compareTo_rank b c),
      (compareTo_rank a c) by (by destruct Ha, Hb).
    by apply (cmp_trans (CompareOrder := HB)).
Qed.

Lemma compareTo_order_below n : CompareOrder (below n) compareTo.
Proof.
  induction n as [|n IH]; [|by apply compareTo_order_step].
  split; intros a b; unfold below; intros; lia.
Qed.

#[export] Instance compareTo_order : CompareOrder plainP compareTo.
Proof.
  split.
  - intros a b Ha Hb.
    apply (cmp_antisym (CompareOrder := compareTo_order_below (S (depth a + depth b))));
      (split; [done|lia]).
  - intros a b c Ha Hb Hc.
    apply (cmp_trans
      (CompareOrder := compareTo_order_below (S (depth a + depth b + depth c))));
      (split; [done|lia]).
Qed.

#[export] Instance value_lt_swo : StrictWeakOrder plainP value_lt.
Proof. apply compare_swo. apply _. Qed.

(** ** Lemmas: the set algebra *)

(** "Some element of [l] compares equal to [x]". *)
Abbreviation eqv := (equivb value_lt).
Definition memb (x : value) (l : list value) : bool := existsb (eqv x) l.

Definition wf_set (l : list value) : Prop :=
  Forall plainP l /\ set_sorted value_lt id l.

#[export] Instance wf_set_dec l : Decision (wf_set l).
Proof. unfold wf_set, plainP, set_sorted. apply _. Defined.

(** The four algorithms differ in what they keep: elements of the left range
    only, of the right range only, of both. *)
Definition merge_gen (bl br bb : bool) : list value -> list value -> list value :=
  fix go1 l1 :=
    fix go2 l2 :=
      match l1, l2 with
      | [], _ => if br then l2 else []
      | _, [] => if bl then l1 else []
      | a :: l1', b :: l2' =>
          if value_lt a b then
            if bl then a :: go1 l1' l2 else go1 l1' l2
          else if value_lt b a then
            if br then b :: go2 l2' else go2 l2'
          else if bb then a :: go1 l1' l2' else go1 l1' l2'
      end.

Lemma merge_gen_union : std_set_union = merge_gen true true true.
Proof. reflexivity. Qed.
Lemma merge_gen_intersection : std_set_intersection = merge_gen false false true.
Proof. reflexivity. Qed.
Lemma merge_gen_difference : std_set_difference = merge_gen true false false.
Proof. reflexivity. Qed.
Lemma merge_gen_symmetric :
  std_set_symmetric_difference = merge_gen true true false.
Proof. reflexivity. Qed.

Lemma merge_gen_cons bl br bb a l1 b l2 :
  merge_gen bl br bb (a :: l1) (b :: l2)
  = if value_lt a b then
      if bl then a :: merge_gen bl br bb l1 (b :: l2)
      else merge_gen bl br bb l1 (b :: l2)
    else if value_lt b a then
      if br then b :: merge_gen bl br bb (a :: l1) l2
      else merge_gen bl br bb (a :: l1) l2
    else if bb then a :: merge_gen bl br bb l1 l2 else merge_gen bl br bb l1 l2.
Proof. reflexivity. Qed.

Lemma merge_gen_nil_l bl br bb l2 :
  merge_gen bl br bb [] l2 = if br then l2 else [].
Proof. by destruct l2. Qed.

Lemma merge_gen_nil_r bl br bb l1 :
  merge_gen bl br bb l1 [] = if bl then l1 else [].
Proof. destruct l1; [by destruct bl, br|done]. Qed.

Lemma merge_gen_Forall (Q : value -> Prop) bl br bb l1 l2 :
  Forall Q l1 -> Forall Q l2 -> Forall Q (merge_gen bl br bb l1 l2).
Proof.
  revert l2. induction l1 as [|a l1 IH1]; intros l2 H1.
  { rewrite merge_gen_nil_l. by destruct br. }
  induction l2 as [|b l2 IH2]; intros H2.
  { rewrite merge_gen_nil_r. by destruct bl. }
  rewrite merge_gen_cons. inversion H1; inversion H2; subst.
  destruct (value_lt a b), (value_lt b a), bl, br, bb;
    try constructor; auto.
Qed.

Lemma memb_cons x a l : memb x (a :: l) = eqv x a || memb x l.
Proof. reflexivity. Qed.

Lemma memb_above x a l : plainP x -> plainP a -> Forall plainP l ->
  eqv x a = true -> Forall (fun b => value_lt a b = true) l -> memb x l = false.
Proof.
  intros Px Pa Pl He. induction 1 as [|b l Hb _ IH]; [done|].
  apply Forall_cons in Pl as [Pb Pl]. unfold memb; simpl. fold (memb x l).
  rewrite IH, orb_false_r by done. unfold equivb.
  by rewrite (equivb_lt_l _ plainP x a b Px Pa Pb He), Hb.
Qed.

Lemma above_trans a b l : plainP a -> plainP b -> Forall plainP l ->
  value_lt a b = true -> Forall (fun c => value_lt b c = true) l ->
  Forall (fun c => value_lt a c = true) l.
Proof.
  intros Pa Pb Pl Hab H. rewrite Forall_forall in Pl, H |- *. intros c Hc.
  apply (swo_trans a b c); auto.
Qed.

Lemma above_equiv a b l : plainP a -> plainP b -> Forall plainP l ->
  eqv a b = true -> Forall (fun c => value_lt b c = true) l ->
  Forall (fun c => value_lt a c = true) l.
Proof.
  intros Pa Pb Pl Hab H. rewrite Forall_forall in Pl, H |- *. intros c Hc.
  rewrite (equivb_lt_l _ plainP a b c); auto.
Qed.

Lemma merge_gen_sorted bl br bb l1 l2 : wf_set l1 -> wf_set l2 ->
  wf_set (merge_gen bl br bb l1 l2).
Proof.
  intros [P1 S1] [P2 S2]. split; [by apply merge_gen_Forall|].
  revert l2 P2 S2. induction l1 as [|a l1 IH1]; intros l2 P2 S2.
  { rewrite merge_gen_nil_l. destruct br; [done|constructor]. }
  induction l2 as [|b l2 IH2].
  { rewrite merge_gen_nil_r. destruct bl; [done|constructor]. }
  rewrite merge_gen_cons.
  pose proof P1 as P1'. apply Forall_cons in P1' as [Pa Pl1].
  pose proof P2 as P2'. apply Forall_cons in P2' as [Pb Pl2].
  pose proof S1 as S1'. apply StronglySorted_inv in S1' as [Sl1 Ha].
  pose proof S2 as S2'. apply StronglySorted_inv in S2' as [Sl2 Hb].
  specialize (IH1 Pl1 Sl1). specialize (IH2 Pl2 Sl2).
  destruct (value_lt a b) eqn:Eab.
  - destruct bl; [|by apply IH1]. constructor; [by apply IH1|].
    apply merge_gen_Forall; [done|]. constructor; [done|].
    by apply (above_trans a b).
  - destruct (value_lt b a) eqn:Eba.
    + destruct br; [|done]. constructor; [done|].
      apply merge_gen_Forall; [|done]. constructor; [done|].
      by apply (above_trans b a).
    + destruct bb; [|by apply IH1]. constructor; [by apply IH1|].
      apply merge_gen_Forall; [done|]. apply (above_equiv a b); auto.
      by apply equivb_true.
Qed.

Lemma merge_gen_memb bl br bb l1 l2 x : wf_set l1 -> wf_set l2 -> plainP x ->
  memb x (merge_gen bl br bb l1 l2)
  = if memb x l1 then (if memb x l2 then bb else bl)
    else (if memb x l2 then br else false).
Proof.
  intros [P1 S1] [P2 S2] Px. revert l2 P2 S2.
  induction l1 as [|a l1 IH1]; intros l2 P2 S2.
  { rewrite merge_gen_nil_l. change (memb x []) with false.
    destruct br; [by destruct (memb x l2)|]. by destruct (memb x l2). }
  induction l2 as [|b l2 IH2].
  { rewrite merge_gen_nil_r. change (memb x []) with false.
    destruct bl; by destruct (memb x (a :: l1)). }
  rewrite merge_gen_cons.
  pose proof P1 as P1'. apply Forall_cons in P1' as [Pa Pl1].
  pose proof P2 as P2'. apply Forall_cons in P2' as [Pb Pl2].
  pose proof S1 as S1'. apply StronglySorted_inv in S1' as [Sl1 Ha].
  pose proof S2 as S2'. apply StronglySorted_inv in S2' as [Sl2 Hb].
  specialize (IH1 Pl1 Sl1). specialize (IH2 Pl2 Sl2).
  assert (Ma : eqv x a = true -> memb x l1 = false)
    by (intros; by apply (memb_above x a)).
  assert (Mb : eqv x b = true -> memb x l2 = false)
    by (intros; by apply (memb_above x b)).
  destruct (value_lt a b) eqn:Eab.
  - specialize (IH1 (b :: l2) P2 S2).
    assert (Mab : eqv x a = true -> memb x (b :: l2) = false).
    { intros E. apply (memb_above x a); auto. constructor; [done|].
      by apply (above_trans a b). }
    generalize dependent (memb x (b :: l2)). intros m2 IH1 Mab.
    destruct bl; rewrite !memb_cons, IH1;
      destruct (eqv x a); simpl; rewrite ?Ma, ?Mab by done; done.
  - destruct (value_lt b a) eqn:Eba.
    + assert (Mba : eqv x b = true -> memb x (a :: l1) = false).
      { intros E. apply (memb_above x b); auto. constructor; [done|].
        by apply (above_trans b a). }
      generalize dependent (memb x (a :: l1)). intros m1 IH2 Mba.
      destruct br; rewrite !memb_cons, IH2;
        destruct (eqv x b); simpl; rewrite ?Mb, ?Mba by done; done.
    + assert (Eeq : eqv x a = eqv x b).
      { assert (Hab : eqv a b = true) by (by apply equivb_true).
        unfold equivb. rewrite (equivb_lt_l _ plainP a b x Pa Pb Px Hab),
          (equivb_lt_r _ plainP a b x Pa Pb Px Hab). done. }
      specialize (IH1 l2 Pl2 Sl2).
      destruct bb; rewrite !memb_cons, IH1, <- Eeq; destruct (eqv x a); simpl;
        rewrite ?Ma, ?Mb by congruence; done.
Qed.

Lemma memb_In x l : memb x l = true <-> exists e, e ∈ l /\ eqv x e = true.
Proof.
  unfold memb. rewrite existsb_exists. by setoid_rewrite list_elem_of_In.
Qed.

Lemma Set_member_memb l x : wf_set l -> plainP x -> Set_member l x = memb x l.
Proof.
  intros [Pl Sl] Px. unfold Set_member.
  pose proof (set_sorted_mset value_lt id plainP l Pl Sl) as Ml.
  destruct (set_find value_lt id x l) as [i|] eqn:E.
  - symmetry. destruct (set_find_Some _ _ _ _ _ E) as (e & He & _).
    apply memb_In. exists e. split; [by eapply list_elem_of_lookup_2|].
    by eapply (set_find_equiv value_lt id plainP x l i e).
  - apply (set_find_None value_lt id plainP x l) in E; auto.
    destruct (memb x l) eqn:M; [|done]. apply memb_In in M as (e & He & Hx).
    rewrite Forall_forall in E. specialize (E e He). unfold id in E. congruence.
Qed.

Lemma Set_insert_wf l v : wf_set l -> plainP v -> wf_set (Set_insert l v).
Proof.
  intros [Pl Sl] Pv. unfold Set_insert, set_insert.
  pose proof (set_sorted_mset value_lt id plainP l Pl Sl) as Ml.
  destruct (set_find value_lt id (id v) l) eqn:E; [done|].
  apply (set_find_None value_lt id plainP) in E; auto. split.
  - rewrite insert_at_perm. by constructor.
  - by apply (set_insert_at_sorted value_lt id plainP).
Qed.

Lemma Set_insert_memb l v x : wf_set l -> plainP v -> plainP x ->
  memb x (Set_insert l v) = eqv x v || memb x l.
Proof.
  intros [Pl Sl] Pv Px. unfold Set_insert, set_insert.
  pose proof (set_sorted_mset value_lt id plainP l Pl Sl) as Ml.
  destruct (set_find value_lt id (id v) l) as [i|] eqn:E.
  - destruct (eqv x v) eqn:Exv; [|done]. simpl.
    destruct (set_find_Some _ _ _ _ _ E) as (e & He & _).
    apply memb_In. exists e. split; [by eapply list_elem_of_lookup_2|].
    assert (Pe : plainP e) by (rewrite Forall_lookup in Pl; by eapply Pl).
    apply (equivb_trans value_lt plainP x v e); auto.
    by eapply (set_find_equiv value_lt id plainP v l i e).
  - change (eqv x v || memb x l) with (memb x (v :: l)).
    apply eq_bool_prop_intro. rewrite !Is_true_true, !memb_In.
    by setoid_rewrite (insert_at_perm (lower_bound value_lt id (id v) l) v l).
Qed.

(** Filling a fresh set with an already sorted range copies it. *)
Lemma Set_of_list_sorted l : wf_set l -> Set_of_list l = l.
Proof.
  intros [Pl Sl]. unfold Set_of_list.
  assert (H : forall p q, Forall plainP (p ++ q) -> set_sorted value_lt id (p ++ q) ->
    fold_left Set_insert q p = p ++ q); [|by apply (H [] l)].
  intros p q. revert p. induction q as [|v q IH]; intros p Pp Sp; simpl.
  { by rewrite app_nil_r. }
  replace (p ++ v :: q) with ((p ++ [v]) ++ q) in * by (by rewrite <- app_assoc).
  rewrite <- IH by done. f_equal.
  apply Forall_app in Pp as [[Pp Pv]%Forall_app _]. apply Forall_singleton in Pv.
  apply StronglySorted_app in Sp as (_ & Sp & _).
  apply StronglySorted_app in Sp as (Hlt & Sp & _).
  assert (Hall : Forall (fun e => value_lt e v = true) p)
    by (apply Forall_forall; intros e He; apply Hlt; [done|by left]).
  assert (Hlb : lower_bound value_lt id v p = length p).
  { clear -Hall. induction Hall as [|e p He _ IH]; [done|]. simpl. unfold id.
    rewrite He. f_equal. exact IH. }
  unfold Set_insert, set_insert, set_find, insert_at.
  change (id v) with v. rewrite Hlb.
  rewrite lookup_ge_None_2 by done. by rewrite firstn_all, drop_ge.
Qed.

Lemma Set_op_spec bl br bb a b : wf_set a -> wf_set b ->
  wf_set (Set_of_list (merge_gen bl br bb a b)) /\
  forall x, plainP x -> Set_member (Set_of_list (merge_gen bl br bb a b)) x
    = if Set_member a x then (if Set_member b x then bb else bl)
      else (if Set_member b x then br else false).
Proof.
  intros Ha Hb. pose proof (merge_gen_sorted bl br bb a b Ha Hb) as Hm.
  rewrite Set_of_list_sorted by done. split; [done|]. intros x Px.
  rewrite !Set_member_memb by done. by apply merge_gen_memb.
Qed.

(** ** Lemmas: sorting and intersecting lists *)

(** How many elements of [l] compare equal to [x]. *)
Definition occurrences (x : value) (l : list value) : nat :=
  length (filter (fun e => eqv x e = true) l).

Lemma occurrences_cons x a l :
  occurrences x (a :: l) = ((if eqv x a then 1 else 0) + occurrences x l)%nat.
Proof.
  unfold occurrences. rewrite filter_cons.
  destruct (eqv x a) eqn:E; case_decide; simpl; congruence.
Qed.

Lemma occurrences_perm x l1 l2 : l1 ≡ₚ l2 -> occurrences x l1 = occurrences x l2.
Proof. intros H. unfold occurrences. by rewrite H. Qed.

Lemma occurrences_above x a l : plainP x -> plainP a -> Forall plainP l ->
  eqv x a = true -> Forall (fun b => value_lt a b = true) l -> occurrences x l = 0%nat.
Proof.
  intros Px Pa Pl E H. unfold occurrences.
  rewrite filter_none; [done|]. rewrite Forall_forall in H, Pl |- *. intros b Hb Eb.
  assert (Hab : eqv a b = true).
  { apply (equivb_trans value_lt plainP a x b); auto. by rewrite equivb_sym. }
  apply equivb_true in Hab as [Hab _]. rewrite (H b Hb) in Hab. done.
Qed.

Lemma List_sort_perm l : List_sort l ≡ₚ l.
Proof.
  induction l as [|v l IH]; simpl; [done|]. rewrite insert_at_perm. by rewrite IH.
Qed.

Lemma lower_insert_sorted v l : plainP v -> Forall plainP l ->
  mset_sorted value_lt id l ->
  mset_sorted value_lt id (insert_at (lower_bound value_lt id v l) v l).
Proof.
  intros Pv Pl Sl. unfold insert_at, mset_sorted.
  pose proof (lower_bound_take value_lt id v l) as Ht.
  pose proof (lower_bound_drop value_lt id plainP v l Pv Pl Sl) as Hd.
  set (i := lower_bound value_lt id v l) in *.
  pose proof (Forall_take _ i _ Pl) as Pt. pose proof (Forall_drop _ i _ Pl) as Pd.
  destruct (StronglySorted_split _ i l Sl) as [S1 S2].
  rewrite Forall_forall in Pt, Pd, Ht, Hd. unfold id in *.
  apply StronglySorted_app_2; [|done|].
  - intros a b Ha Hb. apply (swo_asym value_lt plainP); auto.
    { apply elem_of_cons in Hb as [->|Hb]; auto. }
    apply elem_of_cons in Hb as [->|Hb]; [by apply Ht|].
    apply (swo_lt_ge value_lt plainP a v b); auto.
  - constructor; [done|]. apply Forall_forall. auto.
Qed.

Lemma List_sort_sorted l : Forall plainP l -> mset_sorted value_lt id (List_sort l).
Proof.
  induction 1 as [|v l Pv Pl IH]; simpl; [constructor|].
  apply lower_insert_sorted; auto. by rewrite List_sort_perm.
Qed.

Lemma intersect_loop_cons a l1 b l2 :
  intersect_loop (a :: l1) (b :: l2)
  = if compareTo a b =? 0 then a :: intersect_loop l1 l2
    else if compareTo a b <? 0 then intersect_loop l1 (b :: l2)
    else intersect_loop (a :: l1) l2.
Proof. reflexivity. Qed.

Lemma intersect_loop_nil_r l1 : intersect_loop l1 [] = [].
Proof. by destruct l1. Qed.

Lemma above_ge a b l : plainP a -> plainP b -> Forall plainP l ->
  value_lt a b = true -> Forall (fun c => value_lt c b = false) l ->
  Forall (fun c => value_lt a c = true) l.
Proof.
  intros Pa Pb Pl Hab H. rewrite Forall_forall in Pl, H |- *. intros c Hc.
  apply (swo_lt_ge value_lt plainP a b c); auto.
Qed.

Lemma value_lt_opp a b : plainP a -> plainP b ->
  value_lt b a = (0 <? compareTo a b).
Proof.
  intros Pa Pb. unfold value_lt. rewrite (cmp_antisym a b) by done.
  destruct (Z.ltb_spec (- compareTo a b) 0), (Z.ltb_spec 0 (compareTo a b));
    first [done|lia].
Qed.

Lemma eqv_compare a b : plainP a -> plainP b -> eqv a b = (compareTo a b =? 0).
Proof.
  intros Pa Pb. unfold equivb. rewrite (value_lt_opp a b) by done. unfold value_lt.
  destruct (Z.ltb_spec (compareTo a b) 0), (Z.ltb_spec 0 (compareTo a b)),
    (Z.eqb_spec (compareTo a b) 0); simpl; first [done|lia].
Qed.

Lemma intersect_loop_occurrences l1 l2 x :
  Forall plainP l1 -> Forall plainP l2 ->
  mset_sorted value_lt id l1 -> mset_sorted value_lt id l2 -> plainP x ->
  occurrences x (intersect_loop l1 l2)
  = Nat.min (occurrences x l1) (occurrences x l2).
Proof.
  intros P1 P2 S1 S2 Px. revert l2 P2 S2.
  induction l1 as [|a l1 IH1]; intros l2 P2 S2; [by destruct l2|].
  induction l2 as [|b l2 IH2].
  { rewrite intersect_loop_nil_r. change (occurrences x []) with 0%nat. lia. }
  rewrite intersect_loop_cons.
  pose proof P1 as P1'. apply Forall_cons in P1' as [Pa Pl1].
  pose proof P2 as P2'. apply Forall_cons in P2' as [Pb Pl2].
  pose proof S1 as S1'. apply StronglySorted_inv in S1' as [Sl1 Ha].
  pose proof S2 as S2'. apply StronglySorted_inv in S2' as [Sl2 Hb].
  specialize (IH1 Pl1 Sl1). specialize (IH2 Pl2 Sl2).
  destruct (compareTo a b =? 0) eqn:E0.
  - rewrite !occurrences_cons, IH1 by done.
    assert (eqv x a = eqv x b) as ->; [|destruct (eqv x b); lia].
    assert (Hab : eqv a b = true) by (by rewrite eqv_compare).
    unfold equivb. rewrite (equivb_lt_l _ plainP a b x Pa Pb Px Hab),
      (equivb_lt_r _ plainP a b x Pa Pb Px Hab). done.
  - fold (value_lt a b). destruct (value_lt a b) eqn:Eab.
    + rewrite IH1, (occurrences_cons x a) by done.
      destruct (eqv x a) eqn:Exa; [|done].
      assert (occurrences x (b :: l2) = 0%nat) as ->; [|lia].
      apply (occurrences_above x a); auto. constructor; [done|].
      by apply (above_ge a b).
    + assert (Eba : value_lt b a = true).
      { rewrite (value_lt_opp a b) by done. unfold value_lt in Eab. bools.
        apply Z.ltb_lt. lia. }
      rewrite IH2, (occurrences_cons x b) by done.
      destruct (eqv x b) eqn:Exb; [|done].
      assert (occurrences x (a :: l1) = 0%nat) as ->; [|lia].
      apply (occurrences_above x b); auto. constructor; [done|].
      by apply (above_ge b a).
Qed.

(** ** Properties *)

(** C7: On plain values (no collection inside, no NaN) [Value::compareTo] is
    the total order value.h announces: swapping the arguments flips the sign,
    "not greater" is transitive, and two values that compare equal are
    interchangeable in every further comparison.  Values of different types,
    nested tuples of different sizes and signed zeros are included. *)
Theorem compareTo_total_order a b c : plainP a -> plainP b -> plainP c ->
  compareTo b a = - compareTo a b /\
  (compareTo a b <= 0 -> compareTo b c <= 0 -> compareTo a c <= 0) /\
  (compareTo a b = 0 -> value_lt a c = value_lt b c /\ value_lt c a = value_lt c b).
Proof.
  intros Pa Pb Pc. split; [by apply cmp_antisym|]. split.
  { by apply (cmp_trans a b c). }
  intros E. assert (Hab : eqv a b = true) by (rewrite eqv_compare by done; lia).
  split; [by apply (equivb_lt_l _ plainP)|by apply (equivb_lt_r _ plainP)].
Qed.

Lemma compareTo_total_order_witness :
  compareTo (VTuple [VInt64 1; VStr "b"]) (VTuple [VInt64 1; VStr "a"])
  = - compareTo (VTuple [VInt64 1; VStr "a"]) (VTuple [VInt64 1; VStr "b"]).
Proof.
  apply (compareTo_total_order (VTuple [VInt64 1; VStr "a"])
    (VTuple [VInt64 1; VStr "b"]) VNull); reflexivity.
Defined.

(** The total order stops at the collection classes: [Val_List], [Val_Set],
    [Val_Vector] and [Val_Matrix] test the other operand's type code the wrong
    way round, so each of them and any plain value are both "less" than the
    other: the comparator handed to [std::set] and [std::sort] is not the
    strict weak ordering they require, and value.h's promise of a symmetric
    comparison over all subclasses fails. *)
Theorem collections_break_symmetry v l s1 s2 m : plainP v ->
  (compareTo v (VList l) < 0 /\ compareTo (VList l) v < 0) /\
  (compareTo v (VSet l) < 0 /\ compareTo (VSet l) v < 0) /\
  (compareTo v (VVector l) < 0 /\ compareTo (VVector l) v < 0) /\
  (compareTo v (VMatrix s1 s2 m) < 0 /\ compareTo (VMatrix s1 s2 m) v < 0) /\
  (value_lt v (VList l) = true /\ value_lt (VList l) v = true).
Proof. unfold plainP. destruct v; try discriminate; intros _; repeat split. Qed.

Lemma collections_break_symmetry_witness :
  compareTo (VInt64 7) (VList [VInt64 7]) < 0 /\
  compareTo (VList [VInt64 7]) (VInt64 7) < 0.
Proof.
  apply (collections_break_symmetry (VInt64 7) [VInt64 7] 0 0 []). reflexivity.
Defined.

(** The set algebra of set.C (union, intersection, difference, symmetric
    difference, insertion) keeps sets sorted without duplicates and computes
    membership as its name says, for every plain value asked about. *)
Theorem set_algebra a b v x : wf_set a -> wf_set b -> plainP v -> plainP x ->
  (wf_set (Set_setunion a b) /\ wf_set (Set_intersect a b) /\
   wf_set (Set_difference a b) /\ wf_set (Set_symmetricDiff a b) /\
   wf_set (Set_insert a v)) /\
  Set_member (Set_setunion a b) x = Set_member a x || Set_member b x /\
  Set_member (Set_intersect a b) x = Set_member a x && Set_member b x /\
  Set_member (Set_difference a b) x = Set_member a x && negb (Set_member b x) /\
  Set_member (Set_symmetricDiff a b) x = xorb (Set_member a x) (Set_member b x) /\
  Set_member (Set_insert a v) x = equals x v || Set_member a x.
Proof.
  intros Ha Hb Pv Px.
  unfold Set_setunion, Set_intersect, Set_difference, Set_symmetricDiff.
  rewrite merge_gen_union, merge_gen_intersection, merge_gen_difference,
    merge_gen_symmetric.
  pose proof (Set_insert_wf a v Ha Pv) as Hi.
  repeat split; try apply Set_op_spec; auto; try apply Hi;
    try (rewrite (proj2 (Set_op_spec _ _ _ a b Ha Hb)) by done;
         by destruct (Set_member a x), (Set_member b x)).
  rewrite !Set_member_memb by done. rewrite Set_insert_memb by done.
  unfold equals. by rewrite eqv_compare.
Qed.

Lemma set_algebra_witness :
  Set_member (Set_difference [VInt64 1; VInt64 2; VInt64 3] [VInt64 2]) (VInt64 3)
  = Set_member [VInt64 1; VInt64 2; VInt64 3] (VInt64 3)
    && negb (Set_member [VInt64 2] (VInt64 3)).
Proof.
  apply (set_algebra [VInt64 1; VInt64 2; VInt64 3] [VInt64 2] VNull (VInt64 3));
    vm_decide.
Defined.

(** [List::sort] orders a list of plain values and only permutes it;
    [List::intersect] is the multiset intersection: a value occurs in the
    result as many times as in the list where it occurs less. *)
Theorem list_intersect_correct l1 l2 x :
  Forall plainP l1 -> Forall plainP l2 -> plainP x ->
  (List_sort l1 ≡ₚ l1 /\ mset_sorted value_lt id (List_sort l1)) /\
  occurrences x (List_intersect l1 l2)
  = Nat.min (occurrences x l1) (occurrences x l2).
Proof.
  intros P1 P2 Px. split; [split; [apply List_sort_perm|by apply List_sort_sorted]|].
  unfold List_intersect. rewrite intersect_loop_occurrences;
    rewrite ?List_sort_perm; auto using List_sort_sorted.
  by rewrite !(occurrences_perm x _ _ (List_sort_perm _)).
Qed.

Lemma list_intersect_correct_witness :
  occurrences (VInt64 2)
    (List_intersect [VInt64 2; VInt64 1; VInt64 2] [VInt64 3; VInt64 2; VInt64 2])
  = 2%nat.
Proof.
  apply (list_intersect_correct [VInt64 2; VInt64 1; VInt64 2]
    [VInt64 3; VInt64 2; VInt64 2] (VInt64 2)); repeat constructor.
Defined.
