(* ===== verification/Tuples.v ===== *)
(** * Tuples (src/p2core/tuple.C, tuple.h)

    A tuple object: a vector of fields, the frozen flag and the identity drawn
    from the process-wide counter.  A null [ValuePtr] or [TuplePtr] is [None].
    Operations guarded by [assert] return [Fail AssertFailed] (the project is
    built in debug mode, where assertions are active). *)

From S2P Require Import Prelude Ids Values.

Record tuple := mkTuple {
  fields : list value;
  frozen : bool;
  tupleID : Z
}.

#[export] Instance tuple_eq_dec : EqDecision tuple.
Proof. solve_decision. Defined.

(** [Tuple::_tupleIDCounter], a [uint32_t]; [Tuple::Tuple()] and [Tuple::mk()]
    take the next identity. *)
Definition Tuple_mk (counter : Z) : tuple * Z :=
  (mkTuple [] false counter, u32 (counter + 1)).

Definition Tuple_size (t : tuple) : nat := length (fields t).

(** [Tuple::append], [Tuple::prepend]: neither a null value nor a frozen
    tuple. *)
Definition Tuple_append (t : tuple) (tf : option value) : res tuple :=
  match tf with
  | None => Fail AssertFailed
  | Some v =>
      if frozen t then Fail AssertFailed
      else Ok (mkTuple (fields t ++ [v]) (frozen t) (tupleID t))
  end.

Definition Tuple_prepend (t : tuple) (tf : option value) : res tuple :=
  match tf with
  | None => Fail AssertFailed
  | Some v =>
      if frozen t then Fail AssertFailed
      else Ok (mkTuple (v :: fields t) (frozen t) (tupleID t))
  end.

(** [Tuple::concat]: append every field of the other tuple, in order. *)
Fixpoint append_all (t : tuple) (vs : list value) : res tuple :=
  match vs with
  | [] => Ok t
  | v :: vs' => rbind (Tuple_append t (Some v)) (fun t' => append_all t' vs')
  end.

Definition Tuple_concat (t tf : tuple) : res tuple :=
  rbind (check (negb (frozen t)) AssertFailed) (fun _ => append_all t (fields tf)).

(** [Tuple::freeze] *)
Definition Tuple_freeze (t : tuple) : tuple :=
  mkTuple (fields t) true (tupleID t).

(** [Tuple::operator[]]: [fields.at(i)], whose exception is rethrown. *)
Definition Tuple_at (t : tuple) (i : nat) : res value :=
  of_option OutOfRange (fields t !! i).

(** [Tuple::set] *)
Definition Tuple_set (t : tuple) (i : nat) (val : value) : res tuple :=
  if frozen t then Fail AssertFailed
  else if (i <? Tuple_size t)%nat
  then Ok (mkTuple (<[i := val]> (fields t)) (frozen t) (tupleID t))
  else Fail AssertFailed.

(** [Tuple::compareTo] on objects, and [Tuple::Comparator]. *)
Definition tuple_compareTo (t other : tuple) : Z :=
  Tuple_compareTo compareTo (fields t) (fields other).
Definition tuple_lt (t other : tuple) : bool := tuple_compareTo t other <? 0.

(** ** Domain of the theorems *)

Definition plain_tuple (t : tuple) : Prop := Forall plainP (fields t).

#[export] Instance plain_tuple_dec t : Decision (plain_tuple t).
Proof. unfold plain_tuple, plainP. apply _. Defined.

#[export] Instance tuple_compare_order : CompareOrder plain_tuple tuple_compareTo.
Proof.
  pose proof (lenlex_order _ _ compareTo_order) as H.
  split; unfold plain_tuple, tuple_compareTo; intros;
    rewrite !Tuple_compareTo_rank in *.
  - by apply (cmp_antisym (CompareOrder := H)).
  - by apply (cmp_trans (CompareOrder := H) (fields a) (fields b) (fields c)).
Qed.
