(* ===== verification/Aggs.v ===== *)
(** * Aggregate functions (src/aggregates, src/p2core/aggFactory.C)

    The function objects behind [CommonTable::AggFunc]: MIN, MAX, COUNT,
    COUNTDISTINCT, MKSET and MKLIST.  The virtual methods [reset], [first],
    [process] and [result] dispatch on the object. *)

From S2P Require Import Prelude Ids Stl Values.

Inductive AggFunc :=
  | AggMin (currentMin : option value)
  | AggMax (currentMax : option value)
  | AggCount (current : Z)
  | AggCountDistinct (valueSet : list value)
  | AggMkSet (set : list value)
  | AggMkList (list : list value).

(** What [result()] hands out.  [AggMkSet::result] wraps the function object's
    own [_set] pointer in a fresh [Val_Set], so the value keeps changing with
    the object; the others hand out an independent value ([AggMkList::reset]
    allocates a new list). *)
Inductive aggres :=
  | Direct (v : value)
  | SharedSet.

(** The value a result denotes while the function object is [f]. *)
Definition deref (f : AggFunc) (r : aggres) : value :=
  match r with
  | Direct v => v
  | SharedSet => match f with AggMkSet s => VSet s | _ => VNull end
  end.

Definition AggMin_reset : AggFunc := AggMin None.
Definition AggMin_first (v : value) : AggFunc := AggMin (Some v).
Definition AggMin_process (cur : option value) (v : value) : res AggFunc :=
  match cur with
  | None => Fail AssertFailed
  | Some m => Ok (AggMin (Some (if compareTo v m <? 0 then v else m)))
  end.
Definition AggMin_result (cur : option value) : aggres :=
  Direct (match cur with Some m => m | None => VNull end).

Definition AggMax_reset : AggFunc := AggMax None.
Definition AggMax_first (v : value) : AggFunc := AggMax (Some v).
Definition AggMax_process (cur : option value) (v : value) : res AggFunc :=
  match cur with
  | None => Fail AssertFailed
  | Some m => Ok (AggMax (Some (if 0 <? compareTo v m then v else m)))
  end.
Definition AggMax_result (cur : option value) : aggres :=
  Direct (match cur with Some m => m | None => VNull end).

(** [_current] is a [uint64_t], handed out as an [int64_t]. *)
Definition to_i64 (z : Z) : Z := (z + 2 ^ 63) mod 2 ^ 64 - 2 ^ 63.
Definition AggCount_reset : AggFunc := AggCount 0.
Definition AggCount_first : AggFunc := AggCount 1.
Definition AggCount_process (cur : Z) : AggFunc := AggCount (u64 (cur + 1)).
Definition AggCount_result (cur : Z) : aggres := Direct (VInt64 (to_i64 cur)).

Definition AggCountDistinct_reset : AggFunc := AggCountDistinct [].
Definition AggCountDistinct_process (vs : list value) (v : value) : AggFunc :=
  AggCountDistinct (set_insert value_lt id v vs).
Definition AggCountDistinct_result (vs : list value) : aggres :=
  Direct (VInt64 (to_i64 (Z.of_nat (length vs)))).

Definition AggMkSet_reset : AggFunc := AggMkSet [].
Definition AggMkSet_process (s : list value) (v : value) : AggFunc :=
  AggMkSet (Set_insert s v).
Definition AggMkSet_result : aggres := SharedSet.

Definition AggMkList_reset : AggFunc := AggMkList [].
Definition AggMkList_process (l : list value) (v : value) : AggFunc :=
  AggMkList (List_append l v).
Definition AggMkList_result (l : list value) : aggres := Direct (VList l).

(** The virtual methods. *)
Definition reset (f : AggFunc) : AggFunc :=
  match f with
  | AggMin _ => AggMin_reset
  | AggMax _ => AggMax_reset
  | AggCount _ => AggCount_reset
  | AggCountDistinct _ => AggCountDistinct_reset
  | AggMkSet _ => AggMkSet_reset
  | AggMkList _ => AggMkList_reset
  end.

Definition first (f : AggFunc) (v : value) : AggFunc :=
  match f with
  | AggMin _ => AggMin_first v
  | AggMax _ => AggMax_first v
  | AggCount _ => AggCount_first
  | AggCountDistinct vs => AggCountDistinct_process vs v
  | AggMkSet s => AggMkSet_process s v
  | AggMkList l => AggMkList_process l v
  end.

Definition process (f : AggFunc) (v : value) : res AggFunc :=
  match f with
  | AggMin cur => AggMin_process cur v
  | AggMax cur => AggMax_process cur v
  | AggCount cur => Ok (AggCount_process cur)
  | AggCountDistinct vs => Ok (AggCountDistinct_process vs v)
  | AggMkSet s => Ok (AggMkSet_process s v)
  | AggMkList l => Ok (AggMkList_process l v)
  end.

Definition result (f : AggFunc) : aggres :=
  match f with
  | AggMin cur => AggMin_result cur
  | AggMax cur => AggMax_result cur
  | AggCount cur => AggCount_result cur
  | AggCountDistinct vs => AggCountDistinct_result vs
  | AggMkSet _ => AggMkSet_result
  | AggMkList l => AggMkList_result l
  end.

(** [AggFactory::mk]: the registered names; an unknown one throws
    [AggregateNotFound].  SCHEMA, which merges schemas with the planner's
    [namestracker::merge], is left out of the model. *)
Definition AggFactory_mk (aggName : string) : option AggFunc :=
  if decide (aggName = "MIN"%string) then Some (AggMin None)
  else if decide (aggName = "MAX"%string) then Some (AggMax None)
  else if decide (aggName = "COUNT"%string) then Some (AggCount 0)
  else if decide (aggName = "COUNTDISTINCT"%string) then Some (AggCountDistinct [])
  else if decide (aggName = "MKSET"%string) then Some (AggMkSet [])
  else if decide (aggName = "MKLIST"%string) then Some (AggMkList [])
  else None.

(** ** The contract between tables and aggregate functions

    A table drives a function object by [reset], [first] on the first value of
    a group and [process] on the others.  [run] is that protocol. *)
Fixpoint process_all (f : AggFunc) (vs : list value) : res AggFunc :=
  match vs with
  | [] => Ok f
  | v :: vs' => rbind (process f v) (fun f' => process_all f' vs')
  end.

Definition run (f : AggFunc) (vs : list value) : res AggFunc :=
  match vs with
  | [] => Ok (reset f)
  | v :: vs' => process_all (first (reset f) v) vs'
  end.

(** ** What the functions compute *)

(** The state a function object ends in after a group [vs], by class. *)
Definition agg_spec (f : AggFunc) (vs : list value) (f' : AggFunc) : Prop :=
  match f with
  | AggMin _ =>
      match vs with
      | [] => f' = AggMin None
      | _ => exists m, f' = AggMin (Some m) /\ m ∈ vs /\ Forall (fun v => compareTo m v <= 0) vs
      end
  | AggMax _ =>
      match vs with
      | [] => f' = AggMax None
      | _ => exists m, f' = AggMax (Some m) /\ m ∈ vs /\ Forall (fun v => 0 <= compareTo m v) vs
      end
  | AggCount _ => f' = AggCount (u64 (Z.of_nat (length vs)))
  | AggCountDistinct _ =>
      exists s, f' = AggCountDistinct s /\ wf_set s /\
        forall x, plainP x -> memb x s = memb x vs
  | AggMkSet _ =>
      exists s, f' = AggMkSet s /\ wf_set s /\ forall x, plainP x -> memb x s = memb x vs
  | AggMkList _ => f' = AggMkList vs
  end.

Lemma process_all_min m vs : plainP m -> Forall plainP vs ->
  exists m', process_all (AggMin (Some m)) vs = Ok (AggMin (Some m'))
    /\ m' ∈ m :: vs /\ Forall (fun v => compareTo m' v <= 0) (m :: vs).
Proof.
  intros Pm HP. revert m Pm. induction HP as [|v vs Pv HP IH]; intros m Pm; simpl.
  - exists m. split; [done|]. split; [by left|]. constructor; [|done].
    rewrite (cmp_refl plainP compareTo m Pm). lia.
  - destruct (Z.ltb_spec (compareTo v m) 0) as [Hlt|Hge].
    + destruct (IH v Pv) as (m' & E & Hin & HF). exists m'. split; [done|].
      apply Forall_cons in HF as [Hv HF].
      assert (Pm' : plainP m').
      { assert (HA : Forall plainP (v :: vs)) by (by constructor).
        rewrite Forall_forall in HA. by apply HA. }
      split; [by right|]. apply Forall_cons; split; [|by constructor].
      apply (cmp_trans m' v m); auto. lia.
    + destruct (IH m Pm) as (m' & E & Hin & HF). exists m'. split; [done|].
      apply Forall_cons in HF as [Hv HF].
      assert (Pm' : plainP m').
      { assert (HA : Forall plainP (m :: vs)) by (by constructor).
        rewrite Forall_forall in HA. by apply HA. }
      pose proof (cmp_antisym v m Pv Pm).
      split; [apply elem_of_cons in Hin as [->|?]; repeat constructor; done|].
      apply Forall_cons; split; [done|]; constructor; [|done].
      apply (cmp_trans m' m v); auto. lia.
Qed.

Lemma process_all_max m vs : plainP m -> Forall plainP vs ->
  exists m', process_all (AggMax (Some m)) vs = Ok (AggMax (Some m'))
    /\ m' ∈ m :: vs /\ Forall (fun v => 0 <= compareTo m' v) (m :: vs).
Proof.
  intros Pm HP. revert m Pm. induction HP as [|v vs Pv HP IH]; intros m Pm; simpl.
  - exists m. split; [done|]. split; [by left|]. constructor; [|done].
    rewrite (cmp_refl plainP compareTo m Pm). lia.
  - set (w := if 0 <? compareTo v m then v else m).
    assert (Pw : plainP w) by (unfold w; by case_match).
    assert (Hw : compareTo m w <= 0 /\ compareTo v w <= 0).
    { pose proof (cmp_antisym v m Pv Pm). unfold w.
      destruct (Z.ltb_spec 0 (compareTo v m));
        [rewrite (cmp_refl plainP compareTo v Pv)|rewrite (cmp_refl plainP compareTo m Pm)]; lia. }
    destruct (IH w Pw) as (m' & E & Hin & HF). exists m'. split; [done|].
    apply Forall_cons in HF as [Hv HF].
    assert (Pm' : plainP m').
    { assert (HA : Forall plainP (w :: vs)) by (by constructor).
      rewrite Forall_forall in HA. by apply HA. }
    assert (Hin' : m' ∈ m :: v :: vs).
    { apply elem_of_cons in Hin as [->|Hin]; [|by do 2 right].
      unfold w. case_match; repeat constructor. }
    assert (Hge : forall x, plainP x -> compareTo x w <= 0 -> 0 <= compareTo m' x).
    { intros x Px Hx. pose proof (cmp_antisym m' x Pm' Px).
      pose proof (cmp_antisym m' w Pm' Pw).
      assert (compareTo x m' <= 0) by (apply (cmp_trans x w m'); auto; lia). lia. }
    split; [done|]. constructor; [by apply Hge; [|lia]|]. constructor; [by apply Hge; [|lia]|done].
Qed.

Lemma process_all_count n vs :
  process_all (AggCount (u64 n)) vs = Ok (AggCount (u64 (n + Z.of_nat (length vs)))).
Proof.
  revert n. induction vs as [|v vs IH]; intros n; simpl.
  - by rewrite Z.add_0_r.
  - unfold AggCount_process.
    replace (u64 (u64 n + 1)) with (u64 (n + 1))
      by (unfold u64; by rewrite Zplus_mod_idemp_l).
    rewrite IH. do 3 f_equal. lia.
Qed.

Lemma process_all_list l vs : process_all (AggMkList l) vs = Ok (AggMkList (l ++ vs)).
Proof.
  revert l. induction vs as [|v vs IH]; intros l; simpl; [by rewrite app_nil_r|].
  unfold AggMkList_process. rewrite IH. unfold List_append. by rewrite <- app_assoc.
Qed.

(** Both set-valued functions insert into an ordered set. *)
Lemma Set_inserts_spec vs s : wf_set s -> Forall plainP vs ->
  wf_set (foldl Set_insert s vs) /\
  forall x, plainP x -> memb x (foldl Set_insert s vs) = memb x s || memb x vs.
Proof.
  intros Hs HP. revert s Hs. induction HP as [|v vs Pv HP IH]; intros s Hs; simpl.
  - split; [done|]. intros x Px. by rewrite orb_false_r.
  - destruct (IH (Set_insert s v)) as [H1 H2]; [by apply Set_insert_wf|].
    split; [done|]. intros x Px. rewrite H2, Set_insert_memb by done.
    destruct (eqv x v), (memb x s), (memb x vs); done.
Qed.

Lemma process_all_mkset s vs : process_all (AggMkSet s) vs = Ok (AggMkSet (foldl Set_insert s vs)).
Proof. revert s. by induction vs as [|v vs IH]; intros s; simpl; [|rewrite <- IH]. Qed.

Lemma process_all_distinct s vs :
  process_all (AggCountDistinct s) vs = Ok (AggCountDistinct (foldl Set_insert s vs)).
Proof. revert s. by induction vs as [|v vs IH]; intros s; simpl; [|rewrite <- IH]. Qed.

Lemma wf_set_nil : wf_set [].
Proof. split; constructor. Qed.

Lemma run_correct f vs : Forall plainP vs ->
  exists f', run f vs = Ok f' /\ agg_spec f vs f'.
Proof.
  intros HP.
  destruct f; destruct vs as [|v vs]; simpl in *;
    try (apply Forall_cons in HP as [Pv HP]).
  - eauto.
  - destruct (process_all_min v vs Pv HP) as (m & E & H). eauto.
  - eauto.
  - destruct (process_all_max v vs Pv HP) as (m & E & H). eauto.
  - eauto.
  - change (AggCount_first) with (AggCount (u64 1)). rewrite process_all_count.
    eexists; split; [done|]. do 2 f_equal. lia.
  - eexists; split; [done|]. exists []. split; [done|]. split; [apply wf_set_nil|done].
  - unfold AggCountDistinct_process. rewrite process_all_distinct.
    eexists; split; [done|]. eexists; split; [done|].
    apply (Set_inserts_spec (v :: vs) []); [apply wf_set_nil|by constructor].
  - eexists; split; [done|]. exists []. split; [done|]. split; [apply wf_set_nil|done].
  - unfold AggMkSet_process. rewrite process_all_mkset.
    eexists; split; [done|]. eexists; split; [done|].
    apply (Set_inserts_spec (v :: vs) []); [apply wf_set_nil|by constructor].
  - eauto.
  - unfold AggMkList_process. rewrite process_all_list. eauto.
Qed.

(** A function object keeps its class, so restarting it later gives the same
    computation. *)
Lemma process_reset f v f' : process f v = Ok f' -> reset f' = reset f.
Proof. destruct f as [[]|[]| | | |]; simpl; by intros [= <-]. Qed.

Lemma process_all_reset vs f f' : process_all f vs = Ok f' -> reset f' = reset f.
Proof.
  revert f. induction vs as [|v vs IH]; intros f; simpl; [by intros [= <-]|].
  destruct (process f v) as [g|] eqn:E; [|done]. simpl. intros H.
  rewrite (IH g H). by eapply process_reset.
Qed.

Lemma run_reset f vs f' : run f vs = Ok f' -> reset f' = reset f.
Proof.
  destruct vs as [|v vs]; simpl.
  - intros [= <-]. by destruct f.
  - intros H. rewrite (process_all_reset _ _ _ H). by destruct f.
Qed.

Lemma run_ext f g vs : reset f = reset g -> run f vs = run g vs.
Proof. destruct vs; simpl; congruence. Qed.

Definition is_mkset (f : AggFunc) : bool :=
  match f with AggMkSet _ => true | _ => false end.

Lemma is_mkset_reset f g : reset f = reset g -> is_mkset f = is_mkset g.
Proof. by destruct f, g. Qed.

Lemma List_compareTo_refl l : Forall plainP l -> List_compareTo compareTo l l = 0.
Proof.
  induction 1 as [|v l Pv _ IH]; simpl; [done|].
  by rewrite (cmp_refl plainP compareTo v Pv).
Qed.

(** Every function but MKSET hands out an independent value, equal to
    itself. *)
Lemma run_result f vs f' : is_mkset f = false -> Forall plainP vs -> run f vs = Ok f' ->
  exists w, result f' = Direct w /\ compareTo w w = 0.
Proof.
  intros Hm HP Hr. destruct (run_correct f vs HP) as (g & Hg & Hs).
  rewrite Hr in Hg. injection Hg as <-.
  assert (Hin : forall m, m ∈ vs -> compareTo m m = 0).
  { intros m Hm'. apply (cmp_refl plainP compareTo). rewrite Forall_forall in HP. auto. }
  destruct f; try done; simpl in Hs.
  - destruct vs; [by subst; eexists|]. destruct Hs as (m & -> & Hi & _). eauto.
  - destruct vs; [by subst; eexists|]. destruct Hs as (m & -> & Hi & _). eauto.
  - subst. eexists; split; [done|]. by apply (cmp_refl plainP compareTo).
  - destruct Hs as (s & -> & _). eexists; split; [done|].
    by apply (cmp_refl plainP compareTo).
  - subst. eexists; split; [done|]. by apply List_compareTo_refl.
Qed.

(** driven over a group of plain values as the tables drive it ([reset],
    [first], [process]), every aggregate function returns, and computes what
    its name says: a least / greatest member (null on the empty group), the
    64-bit count, the ordered set of the distinct values, the list in order. *)
Theorem aggregate_functions_correct (f : AggFunc) (vs : list value) (HP : Forall plainP vs) :
  exists f', run f vs = Ok f' /\ agg_spec f vs f'.
Proof. by apply run_correct. Qed.

Lemma aggregate_functions_correct_witness :
  exists m, run (AggMin None) [VInt64 3; VInt64 1; VInt64 2] = Ok (AggMin (Some m))
    /\ m = VInt64 1.
Proof.
  destruct (aggregate_functions_correct (AggMin None) [VInt64 3; VInt64 1; VInt64 2])
    as (f' & E & m & Hf & _ & _); [vm_decide|].
  exists m. rewrite E, Hf. split; [done|].
  vm_compute in E. congruence.
Defined.
