(* ===== verification/Keys.v ===== *)
(** * Keys and their comparators (src/p2core/commonTable.C, commonTable.h)

    A key is a vector of field numbers.  [KeyComparator] orders the secondary
    indices of a table by key; [KeyedEntryComparator] and
    [KeyedTupleComparator] order entries and tuples by the fields a key
    names. *)

From S2P Require Import Prelude Ids Stl Values Tuples.

Definition Key := list nat.

(** [CommonTable::KeyComparator::operator()]: shorter keys first, then the
    first differing field number decides. *)
Fixpoint key_fields_lt (first second : Key) : bool :=
  match first, second with
  | f :: first', s :: second' =>
      if (f <? s)%nat then true else if (s <? f)%nat then false
      else key_fields_lt first' second'
  | _, _ => false
  end.

Definition KeyComparator (first second : Key) : bool :=
  if (length first <? length second)%nat then true
  else if (length second <? length first)%nat then false
  else key_fields_lt first second.

(** The loop of the keyed comparators: an absent field is less than a present
    one, and two absent fields end the comparison. *)
Fixpoint keyed_fields_lt (key : Key) (first second : list value) : bool :=
  match key with
  | [] => false
  | fieldNo :: key' =>
      match first !! fieldNo, second !! fieldNo with
      | Some f, Some s =>
          if compareTo f s <? 0 then true
          else if 0 <? compareTo f s then false
          else keyed_fields_lt key' first second
      | Some _, None => false
      | None, Some _ => true
      | None, None => false
      end
  end.

(** [CommonTable::KeyedTupleComparator::operator()]; an empty key compares the
    tuples' identities. *)
Definition KeyedTupleComparator (key : Key) (first second : tuple) : bool :=
  match key with
  | [] => tupleID first <? tupleID second
  | _ => keyed_fields_lt key (fields first) (fields second)
  end.

(** [CommonTable::KeyName] and [CommonTable::theKey]. *)
Inductive KeyName :=
  | KEYID | KEY0 | KEY1 | KEY2 | KEY3 | KEY4 | KEY5 | KEY6 | KEY9
  | KEY01 | KEY12 | KEY23 | KEY25 | KEY13 | KEY34 | KEY35 | KEY36 | KEY38
  | KEY39 | KEY45 | KEY012 | KEY123 | KEY345 | KEY01234.

Definition theKey (keyID : KeyName) : Key :=
  match keyID with
  | KEYID => []
  | KEY0 => [0] | KEY1 => [1] | KEY2 => [2] | KEY3 => [3] | KEY4 => [4]
  | KEY5 => [5] | KEY6 => [6] | KEY9 => [9]
  | KEY01 => [0; 1] | KEY12 => [1; 2] | KEY23 => [2; 3] | KEY25 => [2; 5]
  | KEY13 => [1; 3] | KEY34 => [3; 4] | KEY35 => [3; 5] | KEY36 => [3; 6]
  | KEY38 => [3; 8] | KEY39 => [3; 9] | KEY45 => [4; 5]
  | KEY012 => [0; 1; 2] | KEY123 => [1; 2; 3] | KEY345 => [3; 4; 5]
  | KEY01234 => [0; 1; 2; 3; 4]
  end%nat.

(** ** What a key sees of a tuple *)

(** The fields a key names, up to the first one the tuple lacks. *)
Fixpoint key_proj (key : Key) (vs : list value) : list value :=
  match key with
  | [] => []
  | n :: key' =>
      match vs !! n with
      | Some v => v :: key_proj key' vs
      | None => []
      end
  end.

(** Two tuples have the same key when neither precedes the other. *)
Abbreviation same_key key := (equivb (KeyedTupleComparator key)).

(** Equal as far as [compareTo] can tell. *)
Definition key_matches (key : Key) (t u : tuple) : Prop :=
  match key with
  | [] => tupleID t = tupleID u
  | _ => Forall2 (fun a b => compareTo a b = 0)
           (key_proj key (fields t)) (key_proj key (fields u))
  end.

Lemma keyed_fields_lt_lexc key f s :
  keyed_fields_lt key f s = (lexc compareTo (key_proj key f) (key_proj key s) <? 0).
Proof.
  induction key as [|n key IH]; [done|]. simpl.
  destruct (f !! n) as [a|], (s !! n) as [b|]; try done. simpl.
  rewrite IH. simp_if; bools; try done; lia.
Qed.

Lemma key_proj_plain key vs : Forall plainP vs -> Forall plainP (key_proj key vs).
Proof.
  intros H. induction key as [|n key IH]; simpl; [done|].
  destruct (vs !! n) as [v|] eqn:E; constructor; [|done].
  rewrite Forall_lookup in H. by eapply H.
Qed.

(** The keyed comparators are strict weak orderings on tuples of plain values,
    as the ordered containers demand. *)
#[export] Instance keyed_swo key : StrictWeakOrder plain_tuple (KeyedTupleComparator key).
Proof.
  destruct key as [|n key].
  - split; unfold KeyedTupleComparator; intros; bools; rewrite ?Z.ltb_lt; lia.
  - pose proof (compare_swo _ _ (HC := order_image
      (fun t => key_proj (n :: key) (fields t)) _ _
      (lexc_order _ _ compareTo_order))) as [H1 H2 H3].
    assert (HP : forall t, plain_tuple t -> Forall plainP (key_proj (n :: key) (fields t)))
      by (intros; by apply key_proj_plain).
    split; unfold KeyedTupleComparator; intros; rewrite !keyed_fields_lt_lexc in *.
    + by apply H1, HP.
    + eapply (H2 x y z); eauto.
    + eapply (H3 x y z); eauto.
Qed.

Lemma lexc_zero {A} (cmp : A -> A -> Z) l1 l2 :
  lexc cmp l1 l2 = 0 <-> Forall2 (fun a b => cmp a b = 0) l1 l2.
Proof.
  split.
  - revert l2. induction l1 as [|a l1 IH]; intros [|b l2]; simpl; try done.
    destruct (Z.eqb_spec (cmp a b) 0); [|done]. constructor; auto.
  - induction 1 as [|a b l1 l2 H1 _ IH]; simpl; [done|]. by rewrite H1.
Qed.

(** Equivalence under a keyed comparator is agreement on the key. *)
Lemma same_key_matches key t u : plain_tuple t -> plain_tuple u ->
  same_key key t u = true <-> key_matches key t u.
Proof.
  intros Ht Hu. rewrite equivb_true. destruct key as [|n key].
  - unfold KeyedTupleComparator, key_matches. rewrite !Z.ltb_ge. lia.
  - unfold KeyedTupleComparator, key_matches. rewrite <- lexc_zero.
    rewrite !keyed_fields_lt_lexc, !Z.ltb_ge.
    pose proof (cmp_antisym (CompareOrder := lexc_order _ _ compareTo_order)
      _ _ (key_proj_plain (n :: key) _ Ht) (key_proj_plain (n :: key) _ Hu)). lia.
Qed.

(** The key comparator is a strict total order: only equal keys are equivalent,
    so a map ordered by it is a map on keys. *)
Lemma key_fields_total k1 k2 : length k1 = length k2 ->
  key_fields_lt k1 k2 = false -> key_fields_lt k2 k1 = false -> k1 = k2.
Proof.
  revert k2. induction k1 as [|a k1 IH]; intros [|b k2]; try done. simpl.
  intros [= Hl]. destruct (Nat.ltb_spec a b), (Nat.ltb_spec b a); try done.
  intros H1 H2. f_equal; [lia|auto].
Qed.

Lemma key_fields_irrefl k : key_fields_lt k k = false.
Proof. induction k as [|a k IH]; simpl; [done|]. by rewrite Nat.ltb_irrefl. Qed.

Lemma key_fields_trans k1 k2 k3 : length k1 = length k2 -> length k2 = length k3 ->
  key_fields_lt k1 k2 = true -> key_fields_lt k2 k3 = true -> key_fields_lt k1 k3 = true.
Proof.
  revert k2 k3. induction k1 as [|a k1 IH]; intros [|b k2] [|c k3]; try done. simpl.
  intros [= H1] [= H2].
  destruct (Nat.ltb_spec a b), (Nat.ltb_spec b a), (Nat.ltb_spec b c), (Nat.ltb_spec c b),
    (Nat.ltb_spec a c), (Nat.ltb_spec c a); try done; try lia. by apply IH.
Qed.

(** The order of the secondary indices ([KeyComparator]) is a strict total
    order on keys: irreflexive, transitive, and two keys neither of which
    precedes the other are equal, so the index map holds one index per key. *)
Theorem KeyComparator_total_order :
  (forall k, KeyComparator k k = false) /\
  (forall k1 k2 k3, KeyComparator k1 k2 = true -> KeyComparator k2 k3 = true ->
    KeyComparator k1 k3 = true) /\
  (forall k1 k2, equivb KeyComparator k1 k2 = true <-> k1 = k2).
Proof.
  assert (Hi : forall k, KeyComparator k k = false).
  { intros k. unfold KeyComparator. by rewrite Nat.ltb_irrefl, key_fields_irrefl. }
  split; [done|]. split.
  - intros k1 k2 k3. unfold KeyComparator.
    destruct (Nat.ltb_spec (length k1) (length k2)), (Nat.ltb_spec (length k2) (length k1)),
      (Nat.ltb_spec (length k2) (length k3)), (Nat.ltb_spec (length k3) (length k2)),
      (Nat.ltb_spec (length k1) (length k3)), (Nat.ltb_spec (length k3) (length k1));
      try done; try lia. apply key_fields_trans; lia.
  - intros k1 k2. rewrite equivb_true. split; [|by intros ->].
    unfold KeyComparator.
    destruct (Nat.ltb_spec (length k1) (length k2)), (Nat.ltb_spec (length k2) (length k1));
      try (intros []; done); try lia.
    intros []. apply key_fields_total; auto; lia.
Qed.

(** on plain tuples the keyed comparator is a strict weak ordering, and
    its equivalence is agreement on the fields the key names (on the tuple
    identity when the key is empty). *)
Theorem keyed_comparator_correct (key : Key) (t u v : tuple)
  (Ht : plain_tuple t) (Hu : plain_tuple u) (Hv : plain_tuple v) :
  KeyedTupleComparator key t t = false /\
  (KeyedTupleComparator key t u = true -> KeyedTupleComparator key u v = true ->
    KeyedTupleComparator key t v = true) /\
  (same_key key t u = true <-> key_matches key t u) /\
  (same_key key t u = true -> same_key key u v = true -> same_key key t v = true).
Proof.
  split; [by apply (swo_irrefl (P := plain_tuple))|].
  split; [by apply (swo_trans (P := plain_tuple))|].
  split; [by apply same_key_matches|]. by apply (equivb_trans _ plain_tuple).
Qed.

Lemma keyed_comparator_correct_witness :
  let t := mkTuple [VStr "link"; VInt64 1; VInt64 7] true 0 in
  let u := mkTuple [VStr "link"; VInt64 2; VInt64 7] true 1 in
  KeyedTupleComparator [1%nat] t u = true /\ same_key [2%nat] t u = true
  /\ key_matches [2%nat] t u.
Proof.
  intros t u.
  pose proof (keyed_comparator_correct [2%nat] t u u) as H.
  assert (Ht : plain_tuple t) by vm_decide.
  assert (Hu : plain_tuple u) by vm_decide.
  destruct (H Ht Hu Hu) as (_ & _ & Hs & _).
  split; [reflexivity|]. split; [reflexivity|]. by apply Hs.
Defined.
