(* ===== verification/CommonTable.v ===== *)
(** * The table machinery shared by all tables (src/p2core/commonTable.C)

    A table keeps heap-allocated entries, a primary index (a [std::set] of
    entry pointers), secondary indices (a map from keys to [std::multiset]s of
    entry pointers), aggregates computed over secondary indices, and listeners.

    Entry pointers are locations in a heap [gmap loc Entry]; a dangling or
    cleared entry reads as the empty tuple, which [table_inv] excludes for every
    pointer an index holds.  Listeners are the caller's code: calling one
    appends its number and the tuple's fields to the trace [t_trace].  The
    position passed to [_primaryIndex.insert] is only a hint in C++ and is not
    modelled.  The "CARD" statistics update of [commonInsertTuple] and
    [removeTupleOfEntry] sets a field of a cloned tuple that is then dropped, so
    it leaves no trace in any table. *)

From S2P Require Import Prelude Ids Stl Values Tuples Aggs Keys.

Abbreviation loc := nat (only parsing).

(** [CommonTable::Entry]: a null [TuplePtr] is [None]; [refCount] is a
    [uint32_t]. *)
Record Entry := mkEntry {
  e_tuple : option tuple;
  e_time : Z;
  e_refCount : Z
}.

(** [Entry::Entry(tp)] at the time [getTime] reports. *)
Definition Entry_new (tp : tuple) (now : Z) : Entry := mkEntry (Some tp) now 0.

(** [CommonTable::AggregateObj].  Its [_index] is the table's secondary index
    on [a_key]; indices are never replaced while the table lives. *)
Record AggregateObj := mkAgg {
  a_key : Key;
  a_aggField : nat;
  a_fn : AggFunc;
  a_listeners : list nat;
  a_current : list (tuple * aggres)
}.

Definition event : Type := nat * list value.

Record table := mkTable {
  t_name : string;
  t_key : Key;
  t_primary : list loc;
  t_indices : gmap Key (list loc);
  t_aggregates : list AggregateObj;
  t_updateListeners : list nat;
  t_removalListeners : list nat;
  t_refreshListeners : list nat;
  t_lookupSearch : tuple;
  t_heap : gmap loc Entry;
  t_next : loc;
  t_trace : list event
}.

Definition empty_tuple : tuple := mkTuple [] true 0.

(** The tuple behind an entry pointer. *)
Definition tup (h : gmap loc Entry) (p : loc) : tuple :=
  match h !! p with
  | Some e => match e_tuple e with Some t => t | None => empty_tuple end
  | None => empty_tuple
  end.

(** ** Field updates *)

Definition with_primary (f : list loc -> list loc) (T : table) : table :=
  mkTable (t_name T) (t_key T) (f (t_primary T)) (t_indices T) (t_aggregates T)
    (t_updateListeners T) (t_removalListeners T) (t_refreshListeners T)
    (t_lookupSearch T) (t_heap T) (t_next T) (t_trace T).
Definition with_indices (ixs : gmap Key (list loc)) (T : table) : table :=
  mkTable (t_name T) (t_key T) (t_primary T) ixs (t_aggregates T)
    (t_updateListeners T) (t_removalListeners T) (t_refreshListeners T)
    (t_lookupSearch T) (t_heap T) (t_next T) (t_trace T).
Definition with_aggregates (aggs : list AggregateObj) (T : table) : table :=
  mkTable (t_name T) (t_key T) (t_primary T) (t_indices T) aggs
    (t_updateListeners T) (t_removalListeners T) (t_refreshListeners T)
    (t_lookupSearch T) (t_heap T) (t_next T) (t_trace T).
Definition with_lookupSearch (s : tuple) (T : table) : table :=
  mkTable (t_name T) (t_key T) (t_primary T) (t_indices T) (t_aggregates T)
    (t_updateListeners T) (t_removalListeners T) (t_refreshListeners T)
    s (t_heap T) (t_next T) (t_trace T).
Definition with_heap (h : gmap loc Entry) (T : table) : table :=
  mkTable (t_name T) (t_key T) (t_primary T) (t_indices T) (t_aggregates T)
    (t_updateListeners T) (t_removalListeners T) (t_refreshListeners T)
    (t_lookupSearch T) h (t_next T) (t_trace T).

(** Calling every listener of a vector, in order, with a tuple. *)
Definition call_listeners (ls : list nat) (vs : list value) : list event :=
  (fun l => (l, vs)) <$> ls.

Definition emit (evs : list event) (T : table) : table :=
  mkTable (t_name T) (t_key T) (t_primary T) (t_indices T) (t_aggregates T)
    (t_updateListeners T) (t_removalListeners T) (t_refreshListeners T)
    (t_lookupSearch T) (t_heap T) (t_next T) (t_trace T ++ evs).

(** [new Entry(t)]: a location not used before. *)
Definition new_entry (e : Entry) (T : table) : loc * table :=
  (t_next T,
   mkTable (t_name T) (t_key T) (t_primary T) (t_indices T) (t_aggregates T)
    (t_updateListeners T) (t_removalListeners T) (t_refreshListeners T)
    (t_lookupSearch T) (<[t_next T := e]> (t_heap T)) (S (t_next T)) (t_trace T)).

Definition delete_entry (p : loc) (T : table) : table :=
  with_heap (delete p (t_heap T)) T.

(** ** Construction and secondary indices *)

(** [CommonTable::lookupSearchEntry]: enlarge the search tuple with nulls so
    that it has every field the key names. *)
Definition lookupSearchEntry (key : Key) (s : tuple) : tuple :=
  foldl (fun s fieldNo =>
    mkTuple (fields s ++ replicate (S fieldNo - length (fields s)) VNull)
      (frozen s) (tupleID s)) s key.

(** [CommonTable::CommonTable(tableName, key)]; [sid] is the identity
    [Tuple::mk()] gives the search tuple. *)
Definition CommonTable_new (tableName : string) (key : Key) (sid : Z) : table :=
  mkTable tableName key [] ∅ [] [] [] []
    (lookupSearchEntry key (mkTuple [] false sid)) ∅ 0 [].

(** [CommonTable::theRegistry()->insert], [CommonTable::lookupTable]: a map
    from names to tables in which the first registration of a name stays. *)
Definition register (r : gmap string nat) (tableName : string) (T : nat) : gmap string nat :=
  match r !! tableName with Some _ => r | None => <[tableName := T]> r end.
Definition lookupTable (r : gmap string nat) (tableName : string) : option nat :=
  r !! tableName.

Definition findSecondaryIndex (key : Key) (T : table) : option (list loc) :=
  t_indices T !! key.

(** [CommonTable::createSecondaryIndex]: [std::map::insert] keeps an index that
    is already there. *)
Definition createSecondaryIndex (key : Key) (T : table) : table :=
  let index := foldl (fun ix p => multiset_insert (KeyedTupleComparator key) (tup (t_heap T)) p ix)
                 [] (t_primary T) in
  let ixs := match t_indices T !! key with
             | Some _ => t_indices T
             | None => <[key := index]> (t_indices T)
             end in
  with_lookupSearch (lookupSearchEntry key (t_lookupSearch T)) (with_indices ixs T).

Definition secondaryIndex (key : Key) (T : table) : bool * table :=
  match findSecondaryIndex key T with
  | None => (true, createSecondaryIndex key T)
  | Some _ => (false, T)
  end.

(** ** Aggregates *)

(** The result tuple of [AggregateObj::update]: the group-by fields of the
    changed tuple, then the result. *)
Fixpoint group_fields (key : Key) (t : tuple) : res (list value) :=
  match key with
  | [] => Ok []
  | fieldNo :: key' =>
      rbind (Tuple_at t fieldNo) (fun v =>
      rbind (group_fields key' t) (fun vs => Ok (v :: vs)))
  end.

(** The scan of the group: [first] on the first tuple, [process] on the rest. *)
Fixpoint agg_scan (aggField : nat) (fn : AggFunc) (seenTuples : bool) (ts : list tuple)
    : res AggFunc :=
  match ts with
  | [] => Ok fn
  | t :: ts' =>
      rbind (Tuple_at t aggField) (fun v =>
      rbind (if seenTuples then process fn v else Ok (first fn v)) (fun fn' =>
      agg_scan aggField fn' true ts'))
  end.

Abbreviation agg_lt a := (KeyedTupleComparator (a_key a)).

(** [AggregateObj::update(changedTuple)]: the new object and the calls to its
    listeners. *)
Definition AggregateObj_update (h : gmap loc Entry) (index : list loc)
    (changedTuple : tuple) (a : AggregateObj) : res (AggregateObj * list event) :=
  let group := range (lower_bound (agg_lt a) (tup h) changedTuple index)
                     (upper_bound (agg_lt a) (tup h) changedTuple index) index in
  rbind (agg_scan (a_aggField a) (reset (a_fn a)) false (tup h <$> group)) (fun fn =>
  let r := result fn in
  let a' cur := mkAgg (a_key a) (a_aggField a) fn (a_listeners a) cur in
  match set_find (agg_lt a) fst changedTuple (a_current a) with
  | None =>
      rbind (group_fields (a_key a) changedTuple) (fun gs =>
      Ok (a' (set_insert (agg_lt a) fst (changedTuple, r) (a_current a)),
          call_listeners (a_listeners a) (gs ++ [deref fn r])))
  | Some i =>
      match a_current a !! i with
      | None => Fail UndefinedBehaviour
      | Some (_, old) =>
          if compareTo (deref fn old) (deref fn r) =? 0 then Ok (a' (a_current a), [])
          else
            let cur := erase_key (agg_lt a) fst changedTuple (a_current a) in
            rbind (group_fields (a_key a) changedTuple) (fun gs =>
            Ok (a' (set_insert (agg_lt a) fst (changedTuple, r) cur),
                call_listeners (a_listeners a) (gs ++ [deref fn r])))
      end
  end).

(** "For all aggregates, update." *)
Fixpoint update_aggregates (h : gmap loc Entry) (ixs : gmap Key (list loc)) (t : tuple)
    (aggs : list AggregateObj) : res (list AggregateObj * list event) :=
  match aggs with
  | [] => Ok ([], [])
  | a :: aggs' =>
      match ixs !! a_key a with
      | None => Fail UndefinedBehaviour
      | Some index =>
          rbind (AggregateObj_update h index t a) (fun '(a', ev) =>
          rbind (update_aggregates h ixs t aggs') (fun '(aggs'', evs) =>
          Ok (a' :: aggs'', ev ++ evs)))
      end
  end.

(** [AggregateObj::evaluateEmpties] *)
Definition AggregateObj_evaluateEmpties (index : list loc) (a : AggregateObj)
    : AggregateObj * list event :=
  match index, a_key a with
  | [], [] =>
      let fn := reset (a_fn a) in
      (mkAgg (a_key a) (a_aggField a) fn (a_listeners a) (a_current a),
       call_listeners (a_listeners a) [deref fn (result fn)])
  | _, _ => (a, [])
  end.

Fixpoint evaluate_empties (ixs : gmap Key (list loc)) (aggs : list AggregateObj)
    : res (list AggregateObj * list event) :=
  match aggs with
  | [] => Ok ([], [])
  | a :: aggs' =>
      match ixs !! a_key a with
      | None => Fail UndefinedBehaviour
      | Some index =>
          let '(a', ev) := AggregateObj_evaluateEmpties index a in
          rbind (evaluate_empties ixs aggs') (fun '(aggs'', evs) =>
          Ok (a' :: aggs'', ev ++ evs))
      end
  end.

Definition evaluateEmptyAggregates (T : table) : res table :=
  rbind (evaluate_empties (t_indices T) (t_aggregates T)) (fun '(aggs, evs) =>
  Ok (emit evs (with_aggregates aggs T))).

(** [CommonTable::aggregate]: the handle is the aggregate's position; [None]
    when [AggFactory::mk] throws. *)
Definition aggregate (groupBy : Key) (aggFieldNo : nat) (functionName : string) (T : table)
    : option (nat * table) :=
  match AggFactory_mk functionName with
  | None => None
  | Some fn =>
      let T' := snd (secondaryIndex groupBy T) in
      let a := mkAgg groupBy aggFieldNo fn [] [] in
      Some (length (t_aggregates T'), with_aggregates (t_aggregates T' ++ [a]) T')
  end.

(** [AggregateObj::listener] on the aggregate with a handle. *)
Definition aggregate_listener (handle : nat) (l : nat) (T : table) : table :=
  with_aggregates (alter (fun a =>
    mkAgg (a_key a) (a_aggField a) (a_fn a) (a_listeners a ++ [l]) (a_current a))
    handle (t_aggregates T)) T.

(** ** Listeners *)

Definition updateListener (l : nat) (T : table) : table :=
  mkTable (t_name T) (t_key T) (t_primary T) (t_indices T) (t_aggregates T)
    (t_updateListeners T ++ [l]) (t_removalListeners T) (t_refreshListeners T)
    (t_lookupSearch T) (t_heap T) (t_next T) (t_trace T).
Definition removalListener (l : nat) (T : table) : table :=
  mkTable (t_name T) (t_key T) (t_primary T) (t_indices T) (t_aggregates T)
    (t_updateListeners T) (t_removalListeners T ++ [l]) (t_refreshListeners T)
    (t_lookupSearch T) (t_heap T) (t_next T) (t_trace T).
Definition refreshListener (l : nat) (T : table) : table :=
  mkTable (t_name T) (t_key T) (t_primary T) (t_indices T) (t_aggregates T)
    (t_updateListeners T) (t_removalListeners T) (t_refreshListeners T ++ [l])
    (t_lookupSearch T) (t_heap T) (t_next T) (t_trace T).

(** ** Insertion and removal *)

(** Positions in the primary index are found by key. *)
Definition find_primary (t : tuple) (T : table) : option nat :=
  set_find (KeyedTupleComparator (t_key T)) (tup (t_heap T)) t (t_primary T).

(** [CommonTable::commonInsertTuple] *)
Definition commonInsertTuple (newEntry : loc) (t : tuple) (T : table) : res table :=
  let T1 := with_primary (set_insert (KeyedTupleComparator (t_key T)) (tup (t_heap T)) newEntry) T in
  let T2 := with_indices (map_imap (fun key index =>
              Some (multiset_insert (KeyedTupleComparator key) (tup (t_heap T)) newEntry index))
              (t_indices T1)) T1 in
  rbind (update_aggregates (t_heap T2) (t_indices T2) t (t_aggregates T2)) (fun '(aggs, evs) =>
  Ok (emit (call_listeners (t_updateListeners T2) (fields t))
        (emit evs (with_aggregates aggs T2)))).

(** The inner loop of [removeDerivatives]: from [lower_bound] to [upper_bound],
    erase the first entry whose tuple has the identity of [t]. *)
Definition erase_by_id (h : gmap loc Entry) (key : Key) (t : tuple) (index : list loc)
    : list loc :=
  let i := lower_bound (KeyedTupleComparator key) (tup h) t index in
  let j := upper_bound (KeyedTupleComparator key) (tup h) t index in
  match list_find (fun p => tupleID (tup h p) = tupleID t) (range i j index) with
  | Some (d, _) => delete (i + d)%nat index
  | None => index
  end.

(** [CommonTable::removeDerivatives] *)
Definition removeDerivatives (t : tuple) (T : table) : res table :=
  let T1 := with_indices (map_imap (fun key index =>
              Some (erase_by_id (t_heap T) key t index)) (t_indices T)) T in
  rbind (update_aggregates (t_heap T1) (t_indices T1) t (t_aggregates T1)) (fun '(aggs, evs) =>
  Ok (emit (call_listeners (t_removalListeners T1) (fields t))
        (emit evs (with_aggregates aggs T1)))).

(** [CommonTable::removeTupleOfEntry] *)
Definition removeTupleOfEntry (theEntry : loc) (T : table) : res table :=
  removeDerivatives (tup (t_heap T) theEntry) T.

(** ** Destruction *)

(** The loop over the primary index: [erase] by key, then [delete].  Both use the
    entry, so it must not have been freed. *)
Fixpoint free_primary (fuel : nat) (key : Key) (prim : list loc) (h : gmap loc Entry)
    : res (list loc * gmap loc Entry) :=
  match prim with
  | [] => Ok (prim, h)
  | toKill :: _ =>
      match fuel with
      | O => Fail OutOfFuel
      | S fuel' =>
          rbind (of_option UndefinedBehaviour (h !! toKill)) (fun _ =>
          free_primary fuel' key
            (erase_key (KeyedTupleComparator key) (tup h) (tup h toKill) prim) (delete toKill h))
      end
  end.

(** ** Iterators *)

(** [CommonTable::IteratorObj]: the spool lists the deque from [front()] to
    [back()]; [it_pos] counts the steps the reverse iterator has taken. *)
Record IteratorObj := mkIter {
  it_spool : list tuple;
  it_pos : nat
}.

Definition IteratorObj_mk (spool : list tuple) : IteratorObj := mkIter spool 0.

Definition done (it : IteratorObj) : bool :=
  match it_spool it with
  | [] => true
  | _ => (it_pos it =? length (it_spool it))%nat
  end.

Definition next (it : IteratorObj) : option tuple * IteratorObj :=
  if done it then (None, it)
  else (it_spool it !! (length (it_spool it) - 1 - it_pos it)%nat,
        mkIter (it_spool it) (S (it_pos it))).

Definition rewind (it : IteratorObj) : IteratorObj := mkIter (it_spool it) 0.

(** The loops that fill a spool: [push_front] of each entry's tuple. *)
Definition spool (h : gmap loc Entry) (ps : list loc) : list tuple :=
  foldl (fun sp p => tup h p :: sp) [] ps.

(** ** Size, lookups and scans *)

Definition size (T : table) : Z := u32 (Z.of_nat (length (t_primary T))).
Definition name (T : table) : string := t_name T.
Definition primaryKey (T : table) : Key := t_key T.

(** [CommonTable::lookupSecondary]; the index comes with its key. *)
Definition lookupSecondary (search : tuple) (key : Key) (index : list loc) (T : table)
    : IteratorObj :=
  let lt := KeyedTupleComparator key in
  IteratorObj_mk (spool (t_heap T)
    (range (lower_bound lt (tup (t_heap T)) search index)
           (upper_bound lt (tup (t_heap T)) search index) index)).

(** [CommonTable::lookupPrimary] *)
Definition lookupPrimary (search : tuple) (T : table) : IteratorObj :=
  let lt := KeyedTupleComparator (t_key T) in
  IteratorObj_mk (spool (t_heap T)
    match set_find lt (tup (t_heap T)) search (t_primary T) with
    | Some i => range i (upper_bound lt (tup (t_heap T)) search (t_primary T)) (t_primary T)
    | None => []
    end).

(** [CommonTable::project]; running past the end of the destination key is
    undefined. *)
Fixpoint project (source : tuple) (sourceKey : Key) (destination : tuple)
    (destinationKey : Key) : res tuple :=
  match sourceKey, destinationKey with
  | [], _ => Ok destination
  | _ :: _, [] => Fail UndefinedBehaviour
  | s :: sourceKey', d :: destinationKey' =>
      rbind (Tuple_at source s) (fun v =>
      rbind (Tuple_set destination d v) (fun destination' =>
      project source sourceKey' destination' destinationKey'))
  end.

(** [CommonTable::lookup(lookupKey, indexKey, t)]; a null iterator is [None]. *)
Definition lookup3 (lookupKey indexKey : Key) (t : tuple) (T : table)
    : res (option IteratorObj * table) :=
  rbind (check (length lookupKey =? length indexKey)%nat AssertFailed) (fun _ =>
  if decide (indexKey = t_key T) then
    rbind (project t lookupKey (t_lookupSearch T) (t_key T)) (fun s =>
    let T' := with_lookupSearch s T in Ok (Some (lookupPrimary s T'), T'))
  else
    match t_indices T !! indexKey with
    | None => Ok (None, T)
    | Some index =>
        rbind (project t lookupKey (t_lookupSearch T) indexKey) (fun s =>
        let T' := with_lookupSearch s T in
        Ok (Some (lookupSecondary s indexKey index T'), T'))
    end).

(** [CommonTable::lookup(indexKey, t)]; without the index, [assert(0)]. *)
Definition lookup2 (indexKey : Key) (t : tuple) (T : table) : res IteratorObj :=
  if decide (indexKey = t_key T) then Ok (lookupPrimary t T)
  else
    match t_indices T !! indexKey with
    | None => Fail AssertFailed
    | Some index => Ok (lookupSecondary t indexKey index T)
    end.

(** [initTupleEntry]: appending a null [ValuePtr] trips [Tuple::append]'s
    assertion as soon as one field is missing. *)
Definition initTupleEntry (t : tuple) (key : Key) : res tuple :=
  foldl (fun r fieldNo => rbind r (fun s =>
    if (length (fields s) <? S fieldNo)%nat then Tuple_append s None else Ok s)) (Ok t) key.

(** [CommonTable::range1DLookupSecondary]: a left end past the right end makes
    the loop run off the index. *)
Definition range1DLookupSecondary (openL : bool) (lb : tuple) (openR : bool) (rb : tuple)
    (key : Key) (index : list loc) (T : table) : res IteratorObj :=
  let lt := KeyedTupleComparator key in
  let k := tup (t_heap T) in
  let itL := match fields lb with
             | [] => 0%nat
             | _ => if openL then upper_bound lt k lb index else lower_bound lt k lb index
             end in
  let itR := match fields rb with
             | [] => length index
             | _ => if openR then lower_bound lt k rb index else upper_bound lt k rb index
             end in
  if (itL <=? itR)%nat then Ok (IteratorObj_mk (spool (t_heap T) (range itL itR index)))
  else Fail UndefinedBehaviour.

(** The bounds [CommonTable::range1DLookup] prepares; [idL] and [idU] are the
    identities [Tuple::mk()] gives them. *)
Definition range1DBounds (lKey rKey indexKey : Key) (t : tuple) (idL idU : Z)
    : res (tuple * tuple) :=
  rbind (check ((length indexKey =? length rKey)%nat || (length indexKey =? length lKey)%nat)
          AssertFailed) (fun _ =>
  let bound key id :=
    match key with
    | [] => Ok (mkTuple [] false id)
    | _ => rbind (initTupleEntry (mkTuple [] false id) indexKey) (fun e =>
           project t key e indexKey)
    end in
  rbind (bound lKey idL) (fun eL =>
  rbind (bound rKey idU) (fun eU => Ok (eL, eU)))).

(** [CommonTable::range1DLookup] *)
Definition range1DLookup (lKey rKey indexKey : Key) (openL openR : bool) (t : tuple)
    (idL idU : Z) (T : table) : res IteratorObj :=
  rbind (range1DBounds lKey rKey indexKey t idL idU) (fun '(eL, eU) =>
  match t_indices T !! indexKey with
  | None => Fail AssertFailed
  | Some index => range1DLookupSecondary openL eL openR eU indexKey index T
  end).

(** [CommonTable::scanPrimary], [scan()], [scan(key)] *)
Definition scanPrimary (T : table) : IteratorObj :=
  IteratorObj_mk (spool (t_heap T) (t_primary T)).

Definition scan (T : table) : IteratorObj := scanPrimary T.

Definition scan_key (key : Key) (T : table) : option IteratorObj :=
  if decide (key = t_key T) then Some (scanPrimary T)
  else
    match t_indices T !! key with
    | None => None
    | Some index => Some (IteratorObj_mk (spool (t_heap T) index))
    end.

(** ** Range lookups *)

(** [CommonTable::range1DLookup] can never be used: for every non-empty
    index key the preparation of a bound appends a null value to its tuple,
    whose assertion fails. *)
Theorem range1DLookup_unusable (lKey rKey indexKey : Key) (openL openR : bool) (t : tuple)
  (idL idU : Z) (T : table) (Hne : indexKey <> []) :
  range1DLookup lKey rKey indexKey openL openR t idL idU T = Fail AssertFailed.
Proof.
  assert (Hinit : forall id, initTupleEntry (mkTuple [] false id) indexKey = Fail AssertFailed).
  { intros id. unfold initTupleEntry. destruct indexKey as [|n k]; [done|]. simpl.
    induction k as [|m k IH]; [done|]. simpl. apply IH. done. }
  unfold range1DLookup, range1DBounds. rewrite !Hinit.
  destruct indexKey as [|n k]; [done|].
  destruct lKey as [|l lKey], rKey as [|r rKey]; simpl; try done;
    unfold check; by case_match.
Qed.

Lemma range1DLookup_unusable_witness :
  range1DLookup [1%nat] [2%nat] [2%nat] true true (mkTuple [VInt64 6; VInt64 7; VInt64 8] true 9)
    20 21 (createSecondaryIndex [2%nat] (CommonTable_new "link" [1%nat] 0))
  = Fail AssertFailed.
Proof. apply range1DLookup_unusable. discriminate. Defined.
