(* ===== verification/TableInv.v ===== *)
(** * The table invariant and the lemmas that maintain it

    [index_inv] relates the heap, the primary index and the secondary indices;
    [agg_inv] says that what an aggregate remembers is the value of its
    function on the current contents; [table_inv] puts them together.  The
    lemmas of this file carry the invariants through the steps of
    commonTable.C; the table classes built on it use them. *)

From S2P Require Import Prelude Ids Stl Values Tuples Aggs Keys CommonTable.

(** ** Invariants *)

(** The entry behind [p] exists and still holds a tuple. *)
Definition live (h : gmap loc Entry) (p : loc) : Prop :=
  exists e t, h !! p = Some e /\ e_tuple e = Some t.

Record index_inv (h : gmap loc Entry) (key : Key) (prim : list loc)
    (ixs : gmap Key (list loc)) : Prop := mkIndexInv {
  ii_live : Forall (live h) prim;
  ii_plain : Forall (fun p => plain_tuple (tup h p)) prim;
  ii_sorted : set_sorted (KeyedTupleComparator key) (tup h) prim;
  ii_second : forall k ix, ixs !! k = Some ix ->
    ix ≡ₚ prim /\ mset_sorted (KeyedTupleComparator k) (tup h) ix;
  ii_ids : forall p q, p ∈ prim -> q ∈ prim ->
    tupleID (tup h p) = tupleID (tup h q) -> p = q
}.

(** The tuples of an index that share the key of [t], in index order. *)
Definition group (h : gmap loc Entry) (key : Key) (index : list loc) (t : tuple)
    : list tuple :=
  tup h <$> filter (fun p => same_key key t (tup h p) = true) index.

(** The values an aggregate sees. *)
Definition agg_vals (n : nat) (ts : list tuple) : list value :=
  omap (fun t => fields t !! n) ts.

(** A tuple has every field an aggregate looks at. *)
Definition wide (a : AggregateObj) (t : tuple) : Prop :=
  (a_aggField a < Tuple_size t)%nat /\ Forall (fun n => n < Tuple_size t)%nat (a_key a).

(** The remembered result [r] of the group of [t'] is the function's value on
    the group, as far as [compareTo] tells. *)
Definition remembered_ok (h : gmap loc Entry) (index : list loc) (a : AggregateObj)
    (tr : tuple * aggres) : Prop :=
  is_mkset (a_fn a) = false ->
  exists v fn w, tr.2 = Direct v
    /\ run (a_fn a) (agg_vals (a_aggField a) (group h (a_key a) index tr.1)) = Ok fn
    /\ result fn = Direct w /\ compareTo v w = 0.

Definition agg_shape (ixs : gmap Key (list loc)) (a : AggregateObj) : Prop :=
  is_Some (ixs !! a_key a)
  /\ set_sorted (KeyedTupleComparator (a_key a)) fst (a_current a)
  /\ Forall (fun tr => plain_tuple tr.1) (a_current a)
  /\ (is_mkset (a_fn a) = false -> Forall (fun tr => exists v, tr.2 = Direct v) (a_current a)).

Definition agg_inv (h : gmap loc Entry) (ixs : gmap Key (list loc)) (a : AggregateObj) : Prop :=
  agg_shape ixs a /\
  forall index, ixs !! a_key a = Some index -> Forall (remembered_ok h index a) (a_current a).

(** As [agg_inv], but nothing is known of the group of [t]. *)
Definition agg_inv_but (t : tuple) (h : gmap loc Entry) (ixs : gmap Key (list loc))
    (a : AggregateObj) : Prop :=
  agg_shape ixs a /\
  forall index, ixs !! a_key a = Some index ->
    Forall (fun tr => same_key (a_key a) t tr.1 = false -> remembered_ok h index a tr)
      (a_current a).

Definition same_agg (a a' : AggregateObj) : Prop :=
  a_key a' = a_key a /\ a_aggField a' = a_aggField a /\ a_listeners a' = a_listeners a
  /\ reset (a_fn a') = reset (a_fn a).

(** The aggregate remembers a result for the group of [t]. *)
Definition remembers (t : tuple) (a : AggregateObj) : Prop :=
  Exists (fun tr => same_key (a_key a) t tr.1 = true) (a_current a).

(** What an index must offer the aggregates. *)
Definition scannable (h : gmap loc Entry) (aggs : list AggregateObj) (k : Key)
    (ix : list loc) : Prop :=
  mset_sorted (KeyedTupleComparator k) (tup h) ix
  /\ Forall (fun p => plain_tuple (tup h p)) ix
  /\ Forall (fun p => Forall (fun a => wide a (tup h p)) aggs) ix.

(** ** The scan of a group *)

Lemma agg_scan_process n ts fn : Forall (fun t => n < Tuple_size t)%nat ts ->
  agg_scan n fn true ts = process_all fn (agg_vals n ts).
Proof.
  intros HF. revert fn. induction HF as [|t ts Ht HF IH]; intros fn; simpl; [done|].
  apply lookup_lt_is_Some in Ht as [v Hv]. unfold Tuple_at. rewrite Hv. simpl.
  destruct (process fn v); simpl; [apply IH|done].
Qed.

Lemma agg_scan_run n ts fn : Forall (fun t => n < Tuple_size t)%nat ts ->
  agg_scan n (reset fn) false ts = run fn (agg_vals n ts).
Proof.
  intros HF. destruct HF as [|t ts Ht HF]; simpl; [done|].
  apply lookup_lt_is_Some in Ht as [v Hv]. unfold Tuple_at. rewrite Hv. simpl.
  by apply agg_scan_process.
Qed.

Lemma agg_vals_plain n ts : Forall plain_tuple ts -> Forall plainP (agg_vals n ts).
Proof.
  induction 1 as [|t ts Ht _ IH]; simpl; [done|].
  destruct (fields t !! n) as [v|] eqn:E; [|done]. simpl. constructor; [|done].
  unfold plain_tuple in Ht. rewrite Forall_lookup in Ht. by eapply Ht.
Qed.

Lemma group_Forall (Q : tuple -> Prop) h key ix t : Forall (fun p => Q (tup h p)) ix ->
  Forall Q (group h key ix t).
Proof.
  intros H. unfold group. rewrite Forall_fmap. by apply Forall_filter.
Qed.

(** The range an index is scanned over is the group. *)
Lemma group_range h key ix t : plain_tuple t ->
  Forall (fun p => plain_tuple (tup h p)) ix ->
  mset_sorted (KeyedTupleComparator key) (tup h) ix ->
  tup h <$> range (lower_bound (KeyedTupleComparator key) (tup h) t ix)
                  (upper_bound (KeyedTupleComparator key) (tup h) t ix) ix
  = group h key ix t.
Proof.
  intros Pt HP Hs. unfold group. by rewrite (equal_range_filter _ _ plain_tuple).
Qed.

(** Tuples with the same key have the same group. *)
Lemma group_equiv h key ix t t' : plain_tuple t -> plain_tuple t' ->
  Forall (fun p => plain_tuple (tup h p)) ix -> same_key key t t' = true ->
  group h key ix t = group h key ix t'.
Proof.
  intros Pt Pt' HP He. unfold group. f_equal. rewrite Forall_forall in HP.
  apply filter_ext, Forall_forall. intros p Hp.
  split; intros H.
  - apply (equivb_trans _ plain_tuple t' t); auto. by rewrite equivb_sym.
  - by apply (equivb_trans _ plain_tuple t t'); auto.
Qed.

Lemma group_fields_ok key t : Forall (fun n => n < Tuple_size t)%nat key ->
  exists gs, group_fields key t = Ok gs /\ Forall2 (fun n v => fields t !! n = Some v) key gs.
Proof.
  induction 1 as [|n key Hn _ (gs & E & HF)]; simpl; [by exists []|].
  apply lookup_lt_is_Some in Hn as [v Hv]. unfold Tuple_at. rewrite Hv. simpl.
  rewrite E. simpl. exists (v :: gs). by split; [|constructor].
Qed.

(** ** One aggregate *)

Section one_aggregate.
Context (h : gmap loc Entry) (index : list loc) (t : tuple) (a : AggregateObj).
Context (Hsorted : mset_sorted (KeyedTupleComparator (a_key a)) (tup h) index).
Context (Hplain : Forall (fun p => plain_tuple (tup h p)) index).
Context (Hwide : Forall (fun p => wide a (tup h p)) index).
Context (Pt : plain_tuple t) (Wt : wide a t).
Context (Hcur : set_sorted (KeyedTupleComparator (a_key a)) fst (a_current a)).
Context (Pcur : Forall (fun tr => plain_tuple tr.1) (a_current a)).
Context (Dcur : is_mkset (a_fn a) = false ->
  Forall (fun tr => exists v, tr.2 = Direct v) (a_current a)).

Let lt := KeyedTupleComparator (a_key a).

Lemma agg_run : exists fn,
  run (a_fn a) (agg_vals (a_aggField a) (group h (a_key a) index t)) = Ok fn /\
  agg_scan (a_aggField a) (reset (a_fn a)) false
    (tup h <$> range (lower_bound lt (tup h) t index) (upper_bound lt (tup h) t index) index)
  = Ok fn.
Proof.
  destruct (run_correct (a_fn a) (agg_vals (a_aggField a) (group h (a_key a) index t)))
    as (fn & E & _).
  { by apply agg_vals_plain, group_Forall. }
  exists fn. split; [done|]. unfold lt. rewrite group_range by done.
  rewrite agg_scan_run; [done|]. apply (group_Forall (fun t => _ < Tuple_size t)%nat).
  eapply Forall_impl; [exact Hwide|]. by intros p [].
Qed.

(** Remembering a result for the group of [t]: the others stay. *)
Lemma remember_sorted (r : aggres) cur :
  set_sorted lt fst cur -> Forall (fun tr => plain_tuple tr.1) cur ->
  Forall (fun tr : tuple * aggres => equivb lt t tr.1 = false) cur ->
  set_sorted lt fst (set_insert lt fst (t, r) cur)
  /\ set_insert lt fst (t, r) cur ≡ₚ (t, r) :: cur.
Proof.
  intros Hs HP HF. unfold set_insert. simpl.
  rewrite (proj2 (set_find_None lt fst plain_tuple t cur Pt HP
    (set_sorted_mset lt fst plain_tuple cur HP Hs)) HF).
  split; [|apply insert_at_perm]. by apply (set_insert_at_sorted lt fst plain_tuple (t, r) cur).
Qed.

(** The object after a scan that left the function in [fn]. *)
Let scanned (fn : AggFunc) (cur : list (tuple * aggres)) : AggregateObj :=
  mkAgg (a_key a) (a_aggField a) fn (a_listeners a) cur.

(** The remembered results, all sound. *)
Definition current_ok (a' : AggregateObj) : Prop :=
  set_sorted lt fst (a_current a') /\ Forall (fun tr => plain_tuple tr.1) (a_current a')
  /\ (is_mkset (a_fn a') = false ->
      Forall (fun tr => exists v, tr.2 = Direct v) (a_current a'))
  /\ Forall (remembered_ok h index a') (a_current a') /\ remembers t a'.

(** The listeners hear of the group of [t] unless a remembered result compares
    equal to the new one. *)
Definition announced (fn : AggFunc) (evs : list event) : Prop :=
  (evs = [] /\ exists tr, tr ∈ a_current a /\ equivb lt t tr.1 = true
    /\ compareTo (deref fn tr.2) (deref fn (result fn)) = 0)
  \/ (exists gs, Forall2 (fun n v => fields t !! n = Some v) (a_key a) gs
    /\ evs = call_listeners (a_listeners a) (gs ++ [deref fn (result fn)])
    /\ Forall (fun tr => equivb lt t tr.1 = true ->
         compareTo (deref fn tr.2) (deref fn (result fn)) <> 0) (a_current a)).

Context (fn : AggFunc)
  (Hrun : run (a_fn a) (agg_vals (a_aggField a) (group h (a_key a) index t)) = Ok fn).
Context (Hothers : Forall (fun tr => equivb lt t tr.1 = false -> remembered_ok h index a tr)
  (a_current a)).

Lemma scanned_result : is_mkset fn = false ->
  exists w, result fn = Direct w /\ compareTo w w = 0.
Proof.
  intros Hm. rewrite (is_mkset_reset _ _ (run_reset _ _ _ Hrun)) in Hm.
  eapply run_result; [exact Hm| |exact Hrun]. by apply agg_vals_plain, group_Forall.
Qed.

Lemma remembered_scanned cur tr :
  remembered_ok h index a tr -> remembered_ok h index (scanned fn cur) tr.
Proof.
  pose proof (run_reset _ _ _ Hrun) as Hreset. unfold remembered_ok. simpl.
  by rewrite (run_ext _ _ _ Hreset), (is_mkset_reset _ _ Hreset).
Qed.

(** The group of [t] is replaced (or new). *)
Lemma current_replace cur : cur ⊆ a_current a ->
  set_sorted lt fst cur -> Forall (fun tr : tuple * aggres => equivb lt t tr.1 = false) cur ->
  current_ok (scanned fn (set_insert lt fst (t, result fn) cur)).
Proof.
  intros Hsub Hs HF. pose proof (run_reset _ _ _ Hrun) as Hreset.
  assert (HP : Forall (fun tr => plain_tuple tr.1) cur).
  { rewrite Forall_forall in Pcur |- *. auto. }
  destruct (remember_sorted (result fn) cur Hs HP HF) as [Hs' Hp].
  assert (Hel : forall Q : tuple * aggres -> Prop, Q (t, result fn) -> Forall Q cur ->
    Forall Q (set_insert lt fst (t, result fn) cur)).
  { intros Q H1 H2. rewrite Hp. by constructor. }
  split; [done|]. split; [by apply Hel|]. split; [|split]; simpl.
  - intros Hm. apply Hel.
    + destruct (scanned_result Hm) as (w & Hw & _). eauto.
    + rewrite (is_mkset_reset _ _ Hreset) in Hm. specialize (Dcur Hm).
      rewrite Forall_forall in Dcur |- *. auto.
  - apply Hel.
    + intros Hm. simpl in *. destruct (scanned_result Hm) as (w & Hw & Hr).
      exists w, fn, w. split; [done|]. split; [|done]. by rewrite (run_ext _ _ _ Hreset).
    + rewrite Forall_forall in HF, Hothers |- *. intros tr Htr.
      apply remembered_scanned, Hothers; auto.
  - unfold remembers. simpl. apply Exists_exists. exists (t, result fn). split.
    + rewrite Hp. by left.
    + by apply (equivb_refl _ plain_tuple).
Qed.

(** At most one result is remembered for the group of [t]. *)
Lemma only_remembered (Q : tuple * aggres -> Prop) i t0 old :
  a_current a !! i = Some (t0, old) -> equivb lt t t0 = true -> Q (t0, old) ->
  Forall (fun tr => equivb lt t tr.1 = true -> Q tr) (a_current a).
Proof.
  intros Hi Heq HQ. pose proof (proj1 (Forall_lookup _ _) Pcur) as P0.
  apply Forall_lookup. intros j tr Hj Et.
  assert (i = j) as ->; [|by rewrite Hi in Hj; injection Hj as <-].
  eapply (set_unique lt fst plain_tuple); [exact Pcur|done|exact Hi|exact Hj|].
  apply (equivb_trans lt plain_tuple t0 t tr.1); eauto.
  - by apply (P0 i (t0, old)).
  - by rewrite equivb_sym.
Qed.

(** The result did not change. *)
Lemma current_keep i t0 old : a_current a !! i = Some (t0, old) ->
  equivb lt t t0 = true -> compareTo (deref fn old) (deref fn (result fn)) = 0 ->
  current_ok (scanned fn (a_current a)).
Proof.
  intros Hi Heq Ec. pose proof (run_reset _ _ _ Hrun) as Hreset.
  pose proof (proj1 (Forall_lookup _ _) Pcur) as P0.
  split; [done|]. split; [done|]. split; [|split]; simpl.
  - by rewrite (is_mkset_reset _ _ Hreset).
  - assert (Hold : remembered_ok h index (scanned fn (a_current a)) (t0, old)).
    { intros Hm. simpl in *. destruct (scanned_result Hm) as (w & Hw & _).
      rewrite (is_mkset_reset _ _ Hreset) in Hm. specialize (Dcur Hm).
      rewrite Forall_lookup in Dcur. destruct (Dcur i _ Hi) as [v Hv]. simpl in *. subst old.
      exists v, fn, w. rewrite Hw in Ec. split; [done|]. split; [|done].
      rewrite (run_ext _ _ _ Hreset), <- Hrun. do 2 f_equal.
      symmetry. apply group_equiv; auto. by apply (P0 i (t0, Direct v)). }
    pose proof (only_remembered _ i t0 old Hi Heq Hold) as Hmine.
    rewrite Forall_forall in Hothers, Hmine |- *. intros tr Htr.
    destruct (equivb lt t tr.1) eqn:Et; [by apply Hmine|].
    apply remembered_scanned. by apply Hothers.
  - apply Exists_exists. exists (t0, old). split; [by eapply list_elem_of_lookup_2|done].
Qed.

(** The specification of [AggregateObj::update]: it returns, and every
    remembered result is sound again. *)
Lemma AggregateObj_update_ok :
  exists a' evs, AggregateObj_update h index t a = Ok (a', evs)
    /\ same_agg a a' /\ current_ok a' /\ announced fn evs.
Proof.
  assert (Hscan : agg_scan (a_aggField a) (reset (a_fn a)) false
    (tup h <$> range (lower_bound lt (tup h) t index) (upper_bound lt (tup h) t index) index)
    = Ok fn).
  { destruct agg_run as (fn' & E1 & E2). congruence. }
  pose proof (set_sorted_mset lt fst plain_tuple _ Pcur Hcur) as Mcur.
  pose proof (run_reset _ _ _ Hrun) as Hreset.
  destruct (group_fields_ok (a_key a) t) as (gs & Hgs & Hgf); [apply Wt|].
  unfold AggregateObj_update. fold lt. rewrite Hscan. simpl.
  destruct (set_find lt fst t (a_current a)) as [i|] eqn:Ef.
  - destruct (set_find_Some _ _ _ _ _ Ef) as ([t0 old] & Hi & _ & _).
    pose proof (set_find_equiv lt fst plain_tuple t _ i (t0, old) Pt Pcur Mcur Ef Hi) as Heq.
    rewrite Hi. case_match eqn:Ec; bools.
    + eexists _, _. split; [reflexivity|]. split; [done|]. split; [by eapply current_keep|].
      left. split; [done|]. exists (t0, old). by apply list_elem_of_lookup_2 in Hi.
    + rewrite Hgs. simpl. eexists _, _. split; [reflexivity|]. split; [done|].
      rewrite (erase_key_filter lt fst plain_tuple) by done. split.
      { apply current_replace.
        - intros tr Htr%list_elem_of_filter. apply Htr.
        - by apply filter_sorted.
        - apply Forall_forall. by intros tr [? _]%list_elem_of_filter. }
      right. exists gs. split; [done|]. split; [done|].
      by eapply only_remembered.
  - rewrite Hgs. simpl. eexists _, _. split; [reflexivity|]. split; [done|].
    apply (set_find_None lt fst plain_tuple) in Ef; auto. split.
    { by apply current_replace. }
    right. exists gs. split; [done|]. split; [done|].
    eapply Forall_impl; [exact Ef|]. simpl. intros tr E1 E2. congruence.
Qed.
End one_aggregate.

(** ** All aggregates of a table *)

Lemma update_aggregates_ok h ixs t aggs :
  (forall a ix, a ∈ aggs -> ixs !! a_key a = Some ix -> scannable h aggs (a_key a) ix) ->
  plain_tuple t -> Forall (fun a => wide a t) aggs -> Forall (agg_inv_but t h ixs) aggs ->
  exists aggs' evs, update_aggregates h ixs t aggs = Ok (aggs', evs)
    /\ Forall2 same_agg aggs aggs' /\ Forall (agg_inv h ixs) aggs' /\ Forall (remembers t) aggs'.
Proof.
  intros Hsc Pt Hw Hinv.
  assert (Hsc' : forall a ix, a ∈ aggs -> ixs !! a_key a = Some ix ->
    mset_sorted (KeyedTupleComparator (a_key a)) (tup h) ix
    /\ Forall (fun p => plain_tuple (tup h p)) ix /\ Forall (fun p => wide a (tup h p)) ix).
  { intros a ix Ha Hix. destruct (Hsc a ix Ha Hix) as (H1 & H2 & H3).
    do 2 (split; [done|]). eapply Forall_impl; [exact H3|]. intros p Hp.
    rewrite Forall_forall in Hp. auto. }
  clear Hsc. induction Hinv as [|a aggs Ha Hinv IH]; simpl.
  { eexists [], []. repeat split; constructor. }
  apply Forall_cons in Hw as [Wa Hw].
  destruct Ha as [([index Hix] & Hs & HP & HD) Hrem]. rewrite Hix.
  destruct (Hsc' a index) as (S1 & S2 & S3); [by left|done|].
  destruct (agg_run h index t a) as (fn & Hrun & _); auto.
  destruct (AggregateObj_update_ok h index t a) with (fn := fn)
    as (a' & ev & Hu & Hsame & (C1 & C2 & C3 & C4 & C5) & _); auto.
  destruct IH as (aggs' & evs & Hus & H1 & H2 & H3); [done| |].
  { intros b ix Hb. apply Hsc'. by right. }
  rewrite Hu. simpl. rewrite Hus. simpl. eexists _, _. split; [reflexivity|].
  repeat split; constructor; auto.
  destruct Hsame as (E1 & _). unfold agg_inv, agg_shape. rewrite E1.
  split; [by split_and!|]. intros ix Hix'. congruence.
Qed.

(** ** Indices *)

Section indices.
Context (h : gmap loc Entry) (key : Key) (prim : list loc) (ixs : gmap Key (list loc)).
Context (HI : index_inv h key prim ixs).

Lemma index_nodup : NoDup prim.
Proof.
  pose proof (ii_plain _ _ _ _ HI) as HP. pose proof (ii_sorted _ _ _ _ HI) as Hs.
  clear HI. induction Hs as [|p l Hs IH Hp]; [constructor|].
  apply Forall_cons in HP as [Pp HP]. constructor; [|by apply IH].
  intros Hin. rewrite Forall_forall in Hp. specialize (Hp p Hin).
  by rewrite (swo_irrefl (P := plain_tuple)) in Hp.
Qed.

Lemma index_second_plain k ix : ixs !! k = Some ix ->
  Forall (fun p => plain_tuple (tup h p)) ix.
Proof.
  intros Hix. destruct (ii_second _ _ _ _ HI k ix Hix) as [Hp _]. rewrite Hp. apply HI.
Qed.

(** The loop of [removeDerivatives] erases exactly the entry it is after. *)
Lemma erase_by_id_filter k ix p : p ∈ prim -> ixs !! k = Some ix ->
  erase_by_id h k (tup h p) ix = filter (fun q => q <> p) ix.
Proof.
  intros Hp Hix. pose proof (index_second_plain k ix Hix) as HP.
  destruct (ii_second _ _ _ _ HI k ix Hix) as [Hperm Hs].
  assert (Hpx : p ∈ ix) by (by rewrite Hperm).
  assert (Pp : plain_tuple (tup h p)) by (rewrite Forall_forall in HP; auto).
  unfold erase_by_id. set (lt := KeyedTupleComparator k).
  set (i := lower_bound lt (tup h) (tup h p) ix). set (j := upper_bound lt (tup h) (tup h p) ix).
  assert (Hr : range i j ix = filter (fun q => equivb lt (tup h p) (tup h q) = true) ix).
  { unfold i, j. by rewrite (equal_range_filter _ _ plain_tuple). }
  destruct (list_find _ (range i j ix)) as [[d q]|] eqn:Ef.
  - apply list_find_Some in Ef as (Hd & Hq & _).
    assert (Hq' : q ∈ range i j ix) by (by eapply list_elem_of_lookup_2).
    rewrite Hr in Hq'. apply list_elem_of_filter in Hq' as [_ Hqx].
    assert (q = p) as -> by (apply (ii_ids _ _ _ _ HI); [by rewrite <- Hperm|done|done]).
    apply NoDup_delete_filter; [rewrite Hperm; apply index_nodup|].
    unfold range in Hd. rewrite lookup_take_Some, lookup_drop in Hd. apply Hd.
  - exfalso. apply list_find_None in Ef. rewrite Hr, Forall_forall in Ef.
    apply (Ef p); [|done]. apply list_elem_of_filter. split; [|done].
    by apply (equivb_refl _ plain_tuple).
Qed.

(** Erasing the primary entry by position or by key. *)
Lemma erase_position_filter i p : prim !! i = Some p ->
  delete i prim = filter (fun q => q <> p) prim.
Proof. apply NoDup_delete_filter, index_nodup. Qed.

Lemma erase_primary_filter p : p ∈ prim ->
  erase_key (KeyedTupleComparator key) (tup h) (tup h p) prim
  = filter (fun q => q <> p) prim.
Proof.
  intros Hp. pose proof (ii_plain _ _ _ _ HI) as HP.
  pose proof (ii_sorted _ _ _ _ HI) as Hs.
  apply list_elem_of_lookup in Hp as [i Hi].
  assert (Pp : plain_tuple (tup h p)) by (rewrite Forall_lookup in HP; eauto).
  rewrite (erase_key_filter _ _ plain_tuple); [|done..|by apply (set_sorted_mset _ _ plain_tuple)].
  rewrite <- (set_delete_filter _ _ plain_tuple (tup h p) prim i p); auto.
  - by apply erase_position_filter.
  - by apply (equivb_refl _ plain_tuple).
Qed.

(** Removing an entry from every index. *)
Lemma index_inv_remove p :
  index_inv h key (filter (fun q => q <> p) prim) (filter (fun q => q <> p) <$> ixs).
Proof.
  destruct HI as [H1 H2 H3 H4 H5]. split.
  - by apply Forall_filter.
  - by apply Forall_filter.
  - by apply filter_sorted.
  - intros k ix Hk. rewrite lookup_fmap in Hk.
    destruct (ixs !! k) as [ix0|] eqn:E; [|done]. simpl in Hk. injection Hk as <-.
    destruct (H4 k ix0 E) as [Hp Hs]. split; [by rewrite Hp|by apply filter_sorted].
  - intros q r [_ Hq]%list_elem_of_filter [_ Hr]%list_elem_of_filter. auto.
Qed.

(** Adding a fresh entry to every index. *)
Lemma index_inv_insert p :
  live h p -> plain_tuple (tup h p) ->
  Forall (fun q => same_key key (tup h p) (tup h q) = false) prim ->
  Forall (fun q => tupleID (tup h q) <> tupleID (tup h p)) prim ->
  index_inv h key (set_insert (KeyedTupleComparator key) (tup h) p prim)
    (map_imap (fun k ix => Some (multiset_insert (KeyedTupleComparator k) (tup h) p ix)) ixs)
  /\ set_insert (KeyedTupleComparator key) (tup h) p prim ≡ₚ p :: prim.
Proof.
  intros Lp Pp Hk Hid.
  assert (Hset : set_insert (KeyedTupleComparator key) (tup h) p prim
    = insert_at (lower_bound (KeyedTupleComparator key) (tup h) (tup h p) prim) p prim).
  { unfold set_insert. pose proof (ii_plain _ _ _ _ HI) as HP.
    rewrite (proj2 (set_find_None _ _ plain_tuple _ _ Pp HP
      (set_sorted_mset _ _ plain_tuple _ HP (ii_sorted _ _ _ _ HI))) Hk). done. }
  rewrite Hset. pose proof (insert_at_perm
    (lower_bound (KeyedTupleComparator key) (tup h) (tup h p) prim) p prim) as Hperm.
  split; [|done]. destruct HI as [H1 H2 H3 H4 H5]. split.
  - rewrite Hperm. by constructor.
  - rewrite Hperm. by constructor.
  - by apply (set_insert_at_sorted _ _ plain_tuple).
  - intros k ix Hk'. rewrite map_lookup_imap in Hk'.
    destruct (ixs !! k) as [ix0|] eqn:E; [|done]. simpl in Hk'. injection Hk' as <-.
    destruct (H4 k ix0 E) as [Hp Hs]. split.
    + unfold multiset_insert. by rewrite !insert_at_perm, Hp.
    + apply (multiset_insert_sorted _ _ plain_tuple); [done| |done]. by rewrite Hp.
  - rewrite Forall_forall in Hid. intros q r. rewrite Hperm, !elem_of_cons.
    intros [->|Hq] [->|Hr] E; auto; exfalso.
    + by apply (Hid r).
    + by apply (Hid q).
Qed.

(** The indices only depend on the tuples the heap holds for their entries. *)
Lemma index_inv_heap h' :
  Forall (fun p => live h' p /\ tup h' p = tup h p) prim -> index_inv h' key prim ixs.
Proof.
  intros Hh. destruct HI as [H1 H2 H3 H4 H5].
  assert (Hl : Forall (live h') prim) by (eapply Forall_impl; [exact Hh|]; by intros p []).
  assert (Ht : Forall (fun p => tup h' p = tup h p) prim)
    by (eapply Forall_impl; [exact Hh|]; by intros p []).
  split.
  - done.
  - rewrite Forall_forall in H2, Ht |- *. intros p Hp. rewrite Ht by done. auto.
  - by apply (set_sorted_ext _ (tup h)).
  - intros k ix Hk. destruct (H4 k ix Hk) as [Hp Hs]. split; [done|].
    apply (mset_sorted_ext _ (tup h)); [|done]. by rewrite Hp.
  - rewrite Forall_forall in Ht. intros p q Hp Hq. rewrite !Ht by done. auto.
Qed.
End indices.

(** ** Aggregates and changing indices *)

Lemma group_ext h h' k ix ix' t :
  Forall (fun p => tup h' p = tup h p) ix ->
  filter (fun p => same_key k t (tup h p) = true) ix'
    = filter (fun p => same_key k t (tup h p) = true) ix ->
  Forall (fun p => tup h' p = tup h p) ix' ->
  group h' k ix' t = group h k ix t.
Proof.
  intros Ht Hf Ht'. unfold group.
  assert (filter (fun p => same_key k t (tup h' p) = true) ix'
    = filter (fun p => same_key k t (tup h p) = true) ix') as ->.
  { apply filter_ext. eapply Forall_impl; [exact Ht'|]. simpl. by intros p ->. }
  rewrite Hf. apply list_fmap_ext. intros i p Hp.
  apply list_elem_of_lookup_2, list_elem_of_filter in Hp as [_ Hp].
  rewrite Forall_forall in Ht. auto.
Qed.

(** The indices changed at the group of [t] only. *)
Lemma agg_inv_change t h ixs ixs' a :
  (forall k ix, ixs !! k = Some ix -> exists ix', ixs' !! k = Some ix' /\
    forall t', plain_tuple t' -> same_key k t t' = false -> group h k ix' t' = group h k ix t') ->
  agg_inv h ixs a -> agg_inv_but t h ixs' a.
Proof.
  intros Hg [([ix Hix] & Hs & HP & HD) Hrem].
  destruct (Hg _ _ Hix) as (ix' & Hix' & Hgr). split; [by split_and!; eauto|].
  intros index Hi. rewrite Hix' in Hi. injection Hi as <-.
  specialize (Hrem _ Hix). rewrite Forall_forall in HP, Hrem |- *.
  intros tr Htr Hne Hm. rewrite Hgr; auto. by apply Hrem.
Qed.

Lemma agg_inv_heap h h' ixs a :
  (forall k ix, ixs !! k = Some ix -> Forall (fun p => tup h' p = tup h p) ix) ->
  agg_inv h ixs a -> agg_inv h' ixs a.
Proof.
  intros Hh [Hs Hrem]. split; [done|]. intros ix Hix. specialize (Hrem _ Hix).
  eapply Forall_impl; [exact Hrem|]. intros tr Htr Hm.
  rewrite (group_ext h h' _ ix ix) by eauto. by apply Htr.
Qed.

Lemma same_agg_wide aggs aggs' t : Forall2 same_agg aggs aggs' ->
  Forall (fun a => wide a t) aggs -> Forall (fun a => wide a t) aggs'.
Proof.
  induction 1 as [|a a' l l' (E1 & E2 & _) _ IH]; [done|].
  intros [Ha Hl]%Forall_cons. constructor; [|by apply IH]. unfold wide in *.
  by rewrite E1, E2.
Qed.

(** ** The invariant of a table *)

Record table_inv (T : table) : Prop := mkTableInv {
  ti_index : index_inv (t_heap T) (t_key T) (t_primary T) (t_indices T);
  ti_aggs : Forall (agg_inv (t_heap T) (t_indices T)) (t_aggregates T);
  ti_wide : Forall (fun p => Forall (fun a => wide a (tup (t_heap T) p)) (t_aggregates T))
    (t_primary T);
  ti_fresh : forall p, is_Some (t_heap T !! p) -> (p < t_next T)%nat
}.

(** What no insertion or removal changes. *)
Definition same_config (T T' : table) : Prop :=
  t_name T' = t_name T /\ t_key T' = t_key T /\ t_updateListeners T' = t_updateListeners T
  /\ t_removalListeners T' = t_removalListeners T
  /\ t_refreshListeners T' = t_refreshListeners T
  /\ t_lookupSearch T' = t_lookupSearch T
  /\ Forall2 same_agg (t_aggregates T) (t_aggregates T')
  /\ dom (t_indices T') = dom (t_indices T).

(** The tuples in the table, in primary order. *)
Definition contents (T : table) : list tuple := tup (t_heap T) <$> t_primary T.

(** A tuple that may be inserted: plain values, wide enough for the
    aggregates, and not sharing the identity of a different tuple of the
    table. *)
Definition insertable (T : table) (t : tuple) : Prop :=
  plain_tuple t /\ Forall (fun a => wide a t) (t_aggregates T)
  /\ Forall (fun u => tupleID u = tupleID t -> fields u = fields t) (contents T).

#[export] Instance same_agg_preorder : PreOrder same_agg.
Proof. split; [done|]. unfold same_agg. intros a b c. intuition congruence. Qed.

#[export] Instance same_config_preorder : PreOrder same_config.
Proof.
  split.
  - intros T. by split_and!.
  - intros T1 T2 T3 (A1 & A2 & A3 & A4 & A5 & A6 & A7 & A8) (B1 & B2 & B3 & B4 & B5 & B6 & B7 & B8).
    split_and!; try congruence. by etrans.
Qed.

Lemma tup_Some h p e t : h !! p = Some e -> e_tuple e = Some t -> tup h p = t.
Proof. unfold tup. by intros -> ->. Qed.

Lemma table_inv_scannable T a ix : table_inv T -> t_indices T !! a_key a = Some ix ->
  scannable (t_heap T) (t_aggregates T) (a_key a) ix.
Proof.
  intros [HI HA HW HF] Hix. destruct (ii_second _ _ _ _ HI _ _ Hix) as [Hp Hs].
  split; [done|]. rewrite Hp. split; [apply HI|done].
Qed.

(** The heap may change as long as it keeps the tuples of the table. *)
Lemma table_inv_heap T h' : table_inv T ->
  Forall (fun p => live h' p /\ tup h' p = tup (t_heap T) p) (t_primary T) ->
  (forall p, is_Some (h' !! p) -> (p < t_next T)%nat) ->
  table_inv (with_heap h' T).
Proof.
  intros [HI HA HW HF] Hh Hfr.
  assert (Ht : Forall (fun p => tup h' p = tup (t_heap T) p) (t_primary T))
    by (eapply Forall_impl; [exact Hh|]; by intros p []).
  split; simpl; [| | |done].
  - by eapply index_inv_heap.
  - eapply Forall_impl; [exact HA|]. intros a. apply agg_inv_heap.
    intros k ix Hk. destruct (ii_second _ _ _ _ HI _ _ Hk) as [Hp _]. by rewrite Hp.
  - rewrite Forall_forall in HW, Ht |- *. intros p Hp. rewrite Ht by done. auto.
Qed.

(** Allocating an entry disturbs nothing. *)
Lemma tup_insert_ne h p q e : q <> p -> tup (<[p := e]> h) q = tup h q.
Proof. intros Hne. unfold tup. by rewrite lookup_insert_ne. Qed.

Lemma primary_old T p : table_inv T -> p ∈ t_primary T -> p <> t_next T.
Proof.
  intros HT Hp. pose proof (ii_live _ _ _ _ (ti_index _ HT)) as HL.
  rewrite Forall_forall in HL. destruct (HL p Hp) as (e & t & He & _).
  pose proof (ti_fresh _ HT p). rewrite He in *. assert (p < t_next T)%nat by eauto. lia.
Qed.

Lemma table_inv_new T e : table_inv T -> table_inv (new_entry e T).2.
Proof.
  intros HT. pose proof (ii_live _ _ _ _ (ti_index _ HT)) as HL. rewrite Forall_forall in HL.
  assert (Hh : Forall (fun p => live (<[t_next T := e]> (t_heap T)) p
    /\ tup (<[t_next T := e]> (t_heap T)) p = tup (t_heap T) p) (t_primary T)).
  { apply Forall_forall. intros p Hp. pose proof (primary_old T p HT Hp). split.
    - destruct (HL p Hp) as (e' & t & He & Ht). exists e', t. by rewrite lookup_insert_ne.
    - by apply tup_insert_ne. }
  assert (HT' : table_inv (mkTable (t_name T) (t_key T) (t_primary T) (t_indices T)
    (t_aggregates T) (t_updateListeners T) (t_removalListeners T) (t_refreshListeners T)
    (t_lookupSearch T) (t_heap T) (S (t_next T)) (t_trace T))).
  { destruct HT as [HI HA HW HF]. split; try done. intros p Hp. specialize (HF p Hp). simpl. lia. }
  apply (table_inv_heap _ _ HT' Hh). simpl. intros p Hp.
  destruct (decide (p = t_next T)) as [->|]; [lia|].
  rewrite lookup_insert_ne in Hp by done. pose proof (ti_fresh _ HT p Hp). lia.
Qed.

(** Erasing an entry no index holds. *)
Lemma tup_delete_ne h p q : q <> p -> tup (delete p h) q = tup h q.
Proof. intros Hne. unfold tup. by rewrite lookup_delete_ne. Qed.

Lemma table_inv_delete T p : table_inv T -> p ∉ t_primary T -> table_inv (delete_entry p T).
Proof.
  intros HT Hp. apply table_inv_heap; [done| |].
  - pose proof (ii_live _ _ _ _ (ti_index _ HT)) as HL. rewrite Forall_forall in HL |- *.
    intros q Hq. assert (q <> p) by (by intros ->). split; [|by apply tup_delete_ne].
    destruct (HL q Hq) as (e & t & He & Ht). exists e, t. by rewrite lookup_delete_ne.
  - intros q [e He]. apply lookup_delete_Some in He as [_ He].
    apply (ti_fresh _ HT). eauto.
Qed.

(** ** The two steps every table is built from *)

Lemma filter_insert_at_other {A} (P : A -> Prop) `{!forall x, Decision (P x)} i e (l : list A) :
  ~ P e -> filter P (insert_at i e l) = filter P l.
Proof.
  intros He. unfold insert_at. rewrite filter_app, filter_cons_False by done.
  by rewrite <- filter_app, take_drop.
Qed.

(** [commonInsertTuple] of a live entry with a key and an identity of its own. *)
Lemma commonInsertTuple_ok T p e t : table_inv T ->
  t_heap T !! p = Some e -> e_tuple e = Some t ->
  plain_tuple t -> Forall (fun a => wide a t) (t_aggregates T) ->
  Forall (fun u => same_key (t_key T) t u = false) (contents T) ->
  Forall (fun u => tupleID u <> tupleID t) (contents T) ->
  exists T' evs, commonInsertTuple p t T = Ok T' /\ table_inv T' /\ same_config T T'
    /\ t_heap T' = t_heap T /\ t_next T' = t_next T
    /\ t_primary T' ≡ₚ p :: t_primary T
    /\ t_trace T' = t_trace T ++ evs ++ call_listeners (t_updateListeners T) (fields t)
    /\ Forall (remembers t) (t_aggregates T').
Proof.
  intros [HI HA HW HF] Hp He Pt Wt Hk Hid. unfold contents in Hk, Hid.
  rewrite Forall_fmap in Hk, Hid. pose proof (tup_Some _ _ _ _ Hp He) as Etup.
  destruct (index_inv_insert _ _ _ _ HI p) as [HI' Hperm]; try (by rewrite Etup).
  { by exists e, t. }
  unfold commonInsertTuple. simpl.
  set (ixs' := map_imap _ (t_indices T)) in *.
  assert (Hbut : Forall (agg_inv_but t (t_heap T) ixs') (t_aggregates T)).
  { eapply Forall_impl; [exact HA|]. intros a. apply agg_inv_change.
    intros k ix Hix. eexists. split; [unfold ixs'; by rewrite map_lookup_imap, Hix|].
    intros t' Pt' Hne. unfold group. f_equal. apply filter_insert_at_other.
    rewrite Etup, equivb_sym. congruence. }
  destruct (update_aggregates_ok (t_heap T) ixs' t (t_aggregates T))
    as (aggs' & evs & Hu & Hsame & Hinv & Hrem); auto.
  { intros a ix _ Hix. destruct (ii_second _ _ _ _ HI' _ _ Hix) as [Hpx Hs].
    split; [done|]. rewrite Hpx, Hperm. split; constructor; rewrite ?Etup; auto. apply HI. }
  rewrite Hu. simpl. eexists _, evs. split; [reflexivity|]. split.
  { split; simpl; [done|done| |done]. rewrite Hperm. constructor.
    - rewrite Etup. by eapply same_agg_wide.
    - eapply Forall_impl; [exact HW|]. intros q. simpl. by apply same_agg_wide. }
  split; [split_and!; try done; simpl|].
  { apply set_eq. intros k. unfold ixs'. rewrite !elem_of_dom, map_lookup_imap.
    by destruct (t_indices T !! k); simpl; rewrite <- !not_eq_None_Some. }
  do 3 (split; [done|]). simpl. split; [by rewrite <- app_assoc|done].
Qed.

(** Taking the entry [p] out of the primary index of [T]. *)
Abbreviation without p := (filter (fun q => q <> p)).

(** [removeTupleOfEntry] of an entry of the table, followed by its erasure from
    the primary index. *)
Lemma removeTupleOfEntry_ok T p : table_inv T -> p ∈ t_primary T ->
  exists T' evs, removeTupleOfEntry p T = Ok T' /\ same_config T T'
    /\ table_inv (with_primary (without p) T')
    /\ t_heap T' = t_heap T /\ t_next T' = t_next T /\ t_primary T' = t_primary T
    /\ t_trace T' = t_trace T ++ evs
         ++ call_listeners (t_removalListeners T) (fields (tup (t_heap T) p)).
Proof.
  intros [HI HA HW HF] Hp. set (t := tup (t_heap T) p).
  assert (Pt : plain_tuple t).
  { pose proof (ii_plain _ _ _ _ HI) as H. rewrite Forall_forall in H. by apply H. }
  assert (Wt : Forall (fun a => wide a t) (t_aggregates T)).
  { rewrite Forall_forall in HW. by apply HW. }
  unfold removeTupleOfEntry, removeDerivatives. fold t. simpl.
  pose proof (index_inv_remove _ _ _ _ HI p) as HI'.
  assert (Eixs : map_imap (fun k ix => Some (erase_by_id (t_heap T) k t ix)) (t_indices T)
    = without p <$> t_indices T).
  { apply map_eq. intros k. rewrite map_lookup_imap, lookup_fmap.
    destruct (t_indices T !! k) as [ix|] eqn:E; [|done]. simpl. f_equal.
    by apply (erase_by_id_filter _ _ _ _ HI). }
  rewrite Eixs. set (ixs' := without p <$> t_indices T) in *.
  assert (Hbut : Forall (agg_inv_but t (t_heap T) ixs') (t_aggregates T)).
  { eapply Forall_impl; [exact HA|]. intros a. apply agg_inv_change.
    intros k ix Hix. eexists. split; [unfold ixs'; by rewrite lookup_fmap, Hix|].
    intros t' Pt' Hne. unfold group. f_equal. rewrite list_filter_filter.
    apply filter_ext, Forall_forall. intros q _. split; [by intros []|].
    intros Hq. split; [done|]. intros ->. fold t in Hq.
    rewrite equivb_sym in Hq. congruence. }
  destruct (update_aggregates_ok (t_heap T) ixs' t (t_aggregates T))
    as (aggs' & evs & Hu & Hsame & Hinv & Hrem); auto.
  { intros a ix _ Hix. destruct (ii_second _ _ _ _ HI' _ _ Hix) as [Hpx Hs].
    split; [done|]. rewrite Hpx. split; [apply HI'|by apply Forall_filter]. }
  rewrite Hu. simpl. eexists _, evs. split; [reflexivity|].
  split; [split_and!; try done; simpl; unfold ixs'; by rewrite dom_fmap_L|]. split.
  { split; simpl; [done|done| |done]. apply Forall_filter.
    eapply Forall_impl; [exact HW|]. intros q. simpl. by apply same_agg_wide. }
  do 3 (split; [done|]). simpl. by rewrite <- app_assoc.
Qed.

(** The tuple found for a key. *)
Lemma find_primary_Some T t i : table_inv T -> plain_tuple t -> find_primary t T = Some i ->
  exists p, t_primary T !! i = Some p /\ same_key (t_key T) t (tup (t_heap T) p) = true.
Proof.
  intros [HI _ _ _] Pt Hf. unfold find_primary in Hf.
  destruct (set_find_Some _ _ _ _ _ Hf) as (p & Hp & _). exists p. split; [done|].
  eapply (set_find_equiv _ _ plain_tuple); [done|apply HI| |exact Hf|exact Hp].
  apply (set_sorted_mset _ _ plain_tuple); apply HI.
Qed.

Lemma find_primary_None T t : table_inv T -> plain_tuple t ->
  find_primary t T = None <-> Forall (fun u => same_key (t_key T) t u = false) (contents T).
Proof.
  intros [HI _ _ _] Pt. unfold find_primary, contents. rewrite Forall_fmap.
  apply (set_find_None _ _ plain_tuple); [done|apply HI|].
  apply (set_sorted_mset _ _ plain_tuple); apply HI.
Qed.

(** Everything else in the table has another key. *)
Lemma others_differ T t i p : table_inv T -> plain_tuple t ->
  t_primary T !! i = Some p -> same_key (t_key T) t (tup (t_heap T) p) = true ->
  without p (t_primary T)
  = filter (fun q => same_key (t_key T) t (tup (t_heap T) q) = false) (t_primary T).
Proof.
  intros HT Pt Hi He. pose proof (ti_index _ HT) as HI.
  rewrite <- (set_delete_filter _ _ plain_tuple t (t_primary T) i p Pt); [|apply HI..|done|done].
  symmetry. by apply (erase_position_filter _ _ _ _ HI).
Qed.

(** ** New indices and aggregates *)

(** Building an index by inserting the entries one after the other. *)
Lemma build_index k h ps : Forall (fun p => plain_tuple (tup h p)) ps ->
  let ix := foldl (fun ix p => multiset_insert (KeyedTupleComparator k) (tup h) p ix) [] ps in
  ix ≡ₚ ps /\ mset_sorted (KeyedTupleComparator k) (tup h) ix.
Proof.
  intros HP. simpl.
  assert (H : forall acc, Forall (fun p => plain_tuple (tup h p)) acc ->
    mset_sorted (KeyedTupleComparator k) (tup h) acc ->
    let ix := foldl (fun ix p => multiset_insert (KeyedTupleComparator k) (tup h) p ix) acc ps in
    ix ≡ₚ acc ++ ps /\ mset_sorted (KeyedTupleComparator k) (tup h) ix);
    [|apply (H []); constructor].
  induction HP as [|p ps Pp HP IH]; intros acc Pa Hs; simpl; [by rewrite app_nil_r|].
  pose proof (insert_at_perm (upper_bound (KeyedTupleComparator k) (tup h) (tup h p) acc) p acc)
    as Hperm.
  destruct (IH (multiset_insert (KeyedTupleComparator k) (tup h) p acc)) as [H1 H2].
  - unfold multiset_insert. rewrite Hperm. by constructor.
  - by apply (multiset_insert_sorted _ _ plain_tuple).
  - split; [|done]. rewrite H1. unfold multiset_insert. rewrite Hperm. simpl.
    apply Permutation_middle.
Qed.

Lemma createSecondaryIndex_inv k T : table_inv T -> table_inv (createSecondaryIndex k T).
Proof.
  intros [HI HA HW HF]. unfold createSecondaryIndex.
  destruct (t_indices T !! k) as [ix|] eqn:E; [by split|].
  destruct (build_index k (t_heap T) (t_primary T)) as [Hp Hs]; [apply HI|].
  split; simpl; [|..|done|done].
  - destruct HI as [H1 H2 H3 H4 H5]. split; auto. intros k' ix'.
    destruct (decide (k' = k)) as [->|].
    + rewrite lookup_insert_eq. intros [= <-]. done.
    + rewrite lookup_insert_ne by done. apply H4.
  - eapply Forall_impl; [exact HA|]. intros a [(Hix & Hr) Hrem].
    assert (a_key a <> k) by (intros Ek; rewrite Ek, E in Hix; by destruct Hix).
    unfold agg_inv, agg_shape. by rewrite lookup_insert_ne.
Qed.

Lemma createSecondaryIndex_Some k T : is_Some (t_indices (createSecondaryIndex k T) !! k).
Proof.
  unfold createSecondaryIndex. simpl. destruct (t_indices T !! k) eqn:E; [by rewrite E|].
  by rewrite lookup_insert_eq.
Qed.

Lemma secondaryIndex_inv k T : table_inv T ->
  table_inv (secondaryIndex k T).2 /\ is_Some (t_indices (secondaryIndex k T).2 !! k).
Proof.
  intros HT. unfold secondaryIndex, findSecondaryIndex.
  destruct (t_indices T !! k) eqn:E; simpl; [by rewrite E|].
  split; [by apply createSecondaryIndex_inv|apply createSecondaryIndex_Some].
Qed.

Lemma secondaryIndex_same k T :
  t_heap (secondaryIndex k T).2 = t_heap T /\ t_primary (secondaryIndex k T).2 = t_primary T
  /\ t_aggregates (secondaryIndex k T).2 = t_aggregates T
  /\ t_key (secondaryIndex k T).2 = t_key T.
Proof. unfold secondaryIndex. by destruct (findSecondaryIndex k T). Qed.

(** A new aggregate needs tuples that have the fields it looks at. *)
Lemma aggregate_inv groupBy n f T : table_inv T -> is_Some (AggFactory_mk f) ->
  Forall (fun t => (n < Tuple_size t)%nat /\ Forall (fun m => m < Tuple_size t)%nat groupBy)
    (contents T) ->
  exists T', aggregate groupBy n f T = Some (length (t_aggregates T), T') /\ table_inv T'
    /\ t_heap T' = t_heap T /\ t_primary T' = t_primary T /\ t_key T' = t_key T.
Proof.
  intros HT [fn Hf] Hw. unfold aggregate. rewrite Hf.
  destruct (secondaryIndex_inv groupBy T HT) as [[HI HA HW HF] Hix].
  destruct (secondaryIndex_same groupBy T) as (E1 & E2 & E3 & E4).
  rewrite E3. eexists. split; [reflexivity|]. split; [|done].
  split; simpl; [done| |..|done]; rewrite E3 in *.
  - apply Forall_app. split; [done|]. constructor; [|done].
    split; [split; [done|by repeat constructor]|]. intros ix _. constructor.
  - unfold contents in Hw. rewrite Forall_fmap, Forall_forall in Hw.
    rewrite E1, E2 in *. rewrite Forall_forall in HW |- *. intros p Hp.
    apply Forall_app. split; [by apply HW|]. constructor; [|done]. by apply Hw.
Qed.

(** ** Destruction *)

(** Emptying the primary index frees every entry. *)
Lemma free_primary_ok fuel key prim h : index_inv h key prim ∅ ->
  (forall p, is_Some (h !! p) -> p ∈ prim) -> (length prim <= fuel)%nat ->
  free_primary fuel key prim h = Ok ([], ∅).
Proof.
  revert prim h. induction fuel as [|fuel IH]; intros prim h HI Hdom Hlen; simpl;
    destruct prim as [|p l] eqn:Ep; simpl in *; try lia.
  1, 2: do 2 f_equal; apply map_empty; intros p;
    destruct (h !! p) eqn:E; [|done]; exfalso;
    apply (not_elem_of_nil p), Hdom; by eexists.
  pose proof (index_nodup _ _ _ _ HI) as Hnd. apply NoDup_cons in Hnd as [Hnin Hnd].
  assert (Ew : without p (p :: l) = l).
  { rewrite filter_cons_False by tauto. apply filter_all, Forall_forall. by intros q Hq ->. }
  assert (is_Some (h !! p)) as [e0 E0].
  { pose proof (ii_live _ _ _ _ HI) as HL. apply Forall_cons in HL as [(e & t & He & _) _]. by exists e. }
  rewrite E0. simpl. clear e0 E0.
  rewrite (erase_primary_filter _ _ _ _ HI p) by (by left). rewrite Ew. apply IH; [| |lia].
  - pose proof (index_inv_remove _ _ _ _ HI p) as HI'. rewrite Ew, fmap_empty in HI'.
    apply (index_inv_heap _ _ _ _ HI'). apply Forall_forall. intros q Hq.
    assert (q <> p) by (by intros ->). split; [|by apply tup_delete_ne].
    pose proof (ii_live _ _ _ _ HI') as HL. rewrite Forall_forall in HL.
    destruct (HL q Hq) as (e & t & He & Ht). exists e, t. by rewrite lookup_delete_ne.
  - intros q [e He]. apply lookup_delete_Some in He as [Hne He].
    assert (Hq : q ∈ p :: l) by (apply Hdom; by eexists).
    apply elem_of_cons in Hq as [->|]; [done|done].
Qed.

Lemma index_inv_no_second h key prim ixs : index_inv h key prim ixs -> index_inv h key prim ∅.
Proof.
  intros [H1 H2 H3 H4 H5]. split; auto. intros k ix Hk. by rewrite lookup_empty in Hk.
Qed.
