(* ===== verification/RefTable.v ===== *)
(** * Reference-counted tables (src/p2core/refTable.C)

    A [RefTable] counts how often a tuple was inserted and drops it when it was
    removed as often.  [spec_insert] and [spec_remove] are the abstract
    counted set that the operations refine. *)

From S2P Require Import Prelude Ids Stl Values Tuples Aggs Keys CommonTable TableInv.

Module RefTable.

(** [found->refCount++] and [found->refCount--], on a [uint32_t]. *)
Definition bump (d : Z) (e : Entry) : Entry :=
  mkEntry (e_tuple e) (e_time e) (u32 (e_refCount e + d)).
Definition add_ref (d : Z) (p : loc) (T : table) : table :=
  with_heap (alter (bump d) p (t_heap T)) T.
Definition refCount (h : gmap loc Entry) (p : loc) : Z :=
  match h !! p with Some e => e_refCount e | None => 0 end.

(** [RefTable::RefTable] *)
Definition mk (tableName : string) (key : Key) (sid : Z) : table :=
  CommonTable_new tableName key sid.

(** [RefTable::insertTuple]; [now] is the time the new entry is stamped with. *)
Definition insertTuple (t : tuple) (now : Z) (T : table) : res table :=
  let '(newEntry, T1) := new_entry (Entry_new t now) T in
  commonInsertTuple newEntry t (add_ref 1 newEntry T1).

(** [RefTable::removeTuple] *)
Definition removeTuple (position : nat) (T : table) : res table :=
  rbind (of_option UndefinedBehaviour (t_primary T !! position)) (fun toKill =>
  rbind (removeTupleOfEntry toKill T) (fun T1 =>
  Ok (delete_entry toKill (with_primary (delete position) T1)))).

(** [RefTable::insert] *)
Definition insert (t : tuple) (now : Z) (T : table) : res (bool * table) :=
  match find_primary t T with
  | None => rbind (insertTuple t now T) (fun T' => Ok (true, T'))
  | Some found =>
      rbind (of_option UndefinedBehaviour (t_primary T !! found)) (fun p =>
      if tuple_compareTo (tup (t_heap T) p) t =? 0 then Ok (false, add_ref 1 p T)
      else
        rbind (removeTuple found T) (fun T1 =>
        rbind (insertTuple t now T1) (fun T2 => Ok (true, T2))))
  end.

(** [RefTable::remove] *)
Definition remove (t : tuple) (T : table) : res (bool * table) :=
  match find_primary t T with
  | None => Ok (false, T)
  | Some found =>
      rbind (of_option UndefinedBehaviour (t_primary T !! found)) (fun p =>
      let T1 := add_ref (-1) p T in
      if refCount (t_heap T1) p =? 0
      then rbind (removeTuple found T1) (fun T2 => Ok (true, T2))
      else Ok (false, T1))
  end.

(** [RefTable::~RefTable]: the heap that is left of the table's entries. *)
Definition destroy (T : table) : res (gmap loc Entry) :=
  rbind (free_primary (length (t_primary T)) (t_key T) (t_primary T) (t_heap T))
    (fun '(_, h) => Ok h).

(** ** Invariant and abstract view *)

Definition inv (T : table) : Prop :=
  table_inv T /\ Forall (fun p => 1 <= refCount (t_heap T) p < 2 ^ 32) (t_primary T)
  /\ (forall p, is_Some (t_heap T !! p) -> p ∈ t_primary T).

(** The abstract state: the tuples with their counts. *)
Abbreviation counted := (list (tuple * Z)) (only parsing).

Definition view (T : table) : counted :=
  (fun p => (tup (t_heap T) p, refCount (t_heap T) p)) <$> t_primary T.

Abbreviation with_key key t := (fun tc : tuple * Z => same_key key t tc.1 = true).
Abbreviation without_key key t := (fun tc : tuple * Z => same_key key t tc.1 = false).

(** The abstract operations: add one to the count of an equal tuple, otherwise
    replace whatever has the same key; take one from the count of the tuple
    with the key. *)
Definition spec_insert (key : Key) (t : tuple) (s : counted) : bool * counted :=
  match filter (with_key key t) s with
  | (u, c) :: _ =>
      if tuple_compareTo u t =? 0
      then (false, (u, c + 1) :: filter (without_key key t) s)
      else (true, (t, 1) :: filter (without_key key t) s)
  | [] => (true, (t, 1) :: s)
  end.

Definition spec_remove (key : Key) (t : tuple) (s : counted) : bool * counted :=
  match filter (with_key key t) s with
  | (u, c) :: _ =>
      if c =? 1 then (true, filter (without_key key t) s)
      else (false, (u, c - 1) :: filter (without_key key t) s)
  | [] => (false, s)
  end.

(** ** Lemmas *)

Lemma tup_alter h p d q : tup (alter (bump d) p h) q = tup h q.
Proof.
  unfold tup. destruct (decide (p = q)) as [->|].
  - rewrite lookup_alter_eq. by destruct (h !! q).
  - by rewrite lookup_alter_ne.
Qed.

Lemma live_alter h p d q : live h q -> live (alter (bump d) p h) q.
Proof.
  intros (e & t & He & Ht). destruct (decide (p = q)) as [->|].
  - exists (bump d e), t. by rewrite lookup_alter_eq, He.
  - exists e, t. by rewrite lookup_alter_ne.
Qed.

Lemma refCount_alter h p d : is_Some (h !! p) ->
  refCount (alter (bump d) p h) p = u32 (refCount h p + d).
Proof. intros [e He]. unfold refCount. by rewrite lookup_alter_eq, He. Qed.

Lemma refCount_alter_ne h p d q : q <> p -> refCount (alter (bump d) p h) q = refCount h q.
Proof. intros Hne. unfold refCount. by rewrite lookup_alter_ne. Qed.

Lemma live_is_Some h p : live h p -> is_Some (h !! p).
Proof. intros (e & t & He & _). eauto. Qed.

Lemma table_inv_add_ref d p T : table_inv T -> table_inv (add_ref d p T).
Proof.
  intros HT. apply table_inv_heap; [done| |].
  - pose proof (ii_live _ _ _ _ (ti_index _ HT)) as HL.
    eapply Forall_impl; [exact HL|]. intros q Hq.
    split; [by apply live_alter|apply tup_alter].
  - intros q [e He]. apply (ti_fresh _ HT). destruct (decide (p = q)) as [->|].
    + rewrite lookup_alter_eq in He. by destruct (t_heap T !! q).
    + rewrite lookup_alter_ne in He by done. eauto.
Qed.

(** The view after the entry [p] has been set apart. *)
Lemma view_split T i p t : table_inv T -> plain_tuple t ->
  t_primary T !! i = Some p -> same_key (t_key T) t (tup (t_heap T) p) = true ->
  filter (with_key (t_key T) t) (view T) = [(tup (t_heap T) p, refCount (t_heap T) p)]
  /\ filter (without_key (t_key T) t) (view T)
     = (fun q => (tup (t_heap T) q, refCount (t_heap T) q)) <$> without p (t_primary T).
Proof.
  intros HT Pt Hi He. unfold view. rewrite !filter_fmap. split.
  - pose proof (index_nodup _ _ _ _ (ti_index _ HT)) as Hnd.
    transitivity ((fun q => (tup (t_heap T) q, refCount (t_heap T) q)) <$> [p]); [|done].
    rewrite <- (NoDup_filter_eq p (t_primary T)) by (try done; by eapply list_elem_of_lookup_2).
    f_equal. apply filter_ext, Forall_forall. intros q Hq. simpl. split; [|by intros ->].
    intros Hs. destruct (decide (q = p)) as [|Hne]; [done|exfalso].
    assert (Hq' : q ∈ without p (t_primary T)) by (by apply list_elem_of_filter).
    rewrite (others_differ T t i p) in Hq' by done.
    apply list_elem_of_filter in Hq' as [? _]. congruence.
  - f_equal. symmetry. by eapply others_differ.
Qed.

Lemma view_none T t : table_inv T -> plain_tuple t -> find_primary t T = None ->
  filter (with_key (t_key T) t) (view T) = [].
Proof.
  intros HT Pt Hf. apply find_primary_None in Hf; [|done..].
  unfold view, contents in *. rewrite Forall_fmap in Hf. apply filter_none.
  rewrite Forall_fmap. eapply Forall_impl; [exact Hf|]. simpl. intros q ->. done.
Qed.

(** What [insertTuple] and [removeTuple] do to the view. *)
Lemma ref_insertTuple_ok t now T : inv T -> plain_tuple t ->
  Forall (fun a => wide a t) (t_aggregates T) ->
  Forall (fun u => same_key (t_key T) t u = false) (contents T) ->
  Forall (fun u => tupleID u <> tupleID t) (contents T) ->
  exists T', insertTuple t now T = Ok T' /\ inv T' /\ same_config T T'
    /\ view T' ≡ₚ (t, 1) :: view T.
Proof.
  intros (HT & HR & HL) Pt Wt Hk Hid. unfold insertTuple. simpl.
  set (n := t_next T). set (T1 := add_ref 1 n (new_entry (Entry_new t now) T).2).
  assert (HT1 : table_inv T1) by (by apply table_inv_add_ref, table_inv_new).
  assert (Hn : t_heap T1 !! n = Some (mkEntry (Some t) now 1)).
  { simpl. by rewrite lookup_alter_eq, lookup_insert_eq. }
  assert (Hold : forall q, q ∈ t_primary T -> tup (t_heap T1) q = tup (t_heap T) q
    /\ refCount (t_heap T1) q = refCount (t_heap T) q).
  { intros q Hq. pose proof (primary_old T q HT Hq). simpl. rewrite tup_alter.
    rewrite tup_insert_ne, refCount_alter_ne by done. split; [done|].
    unfold refCount. by rewrite lookup_insert_ne. }
  assert (Hcont : contents T1 = contents T).
  { apply list_fmap_ext. intros i q Hq. apply Hold. by eapply list_elem_of_lookup_2. }
  destruct (commonInsertTuple_ok T1 n _ t HT1 Hn) as
    (T' & evs & E & HT' & Hc & Hh & _ & Hp & _); auto; [by rewrite Hcont..|].
  exists T'. unfold T1 in E. simpl in E. split; [exact E|]. split; [split; [done|split]|].
  - rewrite Hh, Hp. constructor; [unfold refCount; rewrite Hn; simpl; lia|].
    rewrite Forall_forall in HR |- *. intros q Hq. rewrite (proj2 (Hold q Hq)). auto.
  - intros q Hq. rewrite Hh in Hq. rewrite Hp. apply elem_of_cons.
    destruct (decide (q = n)) as [|Hne]; [by left|]. right. apply HL. simpl in Hq.
    by rewrite lookup_alter_ne, lookup_insert_ne in Hq by done.
  - split; [exact Hc|]. unfold view. rewrite Hh, Hp, fmap_cons. f_equiv.
    + f_equal; [by apply (tup_Some _ _ _ _ Hn)|unfold refCount; by rewrite Hn].
    + change (t_primary T1) with (t_primary T). erewrite list_fmap_ext; [done|]. intros i q Hq%list_elem_of_lookup_2.
      destruct (Hold q Hq) as [-> ->]. done.
Qed.

Lemma ref_removeTuple_ok i p T : table_inv T -> t_primary T !! i = Some p ->
  (forall q, is_Some (t_heap T !! q) -> q ∈ t_primary T) ->
  Forall (fun q => 1 <= refCount (t_heap T) q < 2 ^ 32) (without p (t_primary T)) ->
  exists T', removeTuple i T = Ok T' /\ inv T' /\ same_config T T'
    /\ view T' = (fun q => (tup (t_heap T) q, refCount (t_heap T) q)) <$> without p (t_primary T).
Proof.
  intros HT Hi HL HR. unfold removeTuple. rewrite Hi. simpl.
  assert (Hp : p ∈ t_primary T) by (by eapply list_elem_of_lookup_2).
  destruct (removeTupleOfEntry_ok T p HT Hp) as (T1 & evs & E & Hc & HT1 & Hh & _ & Hpr & _).
  rewrite E. simpl. eexists. split; [reflexivity|].
  assert (Edel : delete i (t_primary T1) = without p (t_primary T1)).
  { rewrite Hpr. by apply (erase_position_filter _ _ _ _ (ti_index _ HT)). }
  assert (ET : with_primary (delete i) T1 = with_primary (without p) T1).
  { unfold with_primary. by rewrite Edel. }
  rewrite ET.
  assert (Hno : p ∉ without p (t_primary T1)).
  { rewrite list_elem_of_filter. by intros []. }
  assert (Hrest : forall q, q ∈ without p (t_primary T) ->
    refCount (delete p (t_heap T)) q = refCount (t_heap T) q
    /\ tup (delete p (t_heap T)) q = tup (t_heap T) q).
  { intros q [Hne _]%list_elem_of_filter. split; [|by apply tup_delete_ne].
    unfold refCount. by rewrite lookup_delete_ne. }
  split; [split; [by apply table_inv_delete|split]|split].
  - simpl. rewrite Hh, Hpr. rewrite Forall_forall in HR |- *. intros q Hq.
    rewrite (proj1 (Hrest q Hq)). auto.
  - simpl. rewrite Hh, Hpr. intros q [e He]. apply lookup_delete_Some in He as [Hne He].
    apply list_elem_of_filter. split; [done|]. apply HL. eauto.
  - exact Hc.
  - unfold view. simpl. rewrite Hh, Hpr. apply list_fmap_ext.
    intros j q Hq%list_elem_of_lookup_2. destruct (Hrest q Hq) as [-> ->]. done.
Qed.

(** A count step keeps the tuples and changes one count. *)
Lemma view_add_ref d i p t T : table_inv T -> plain_tuple t ->
  t_primary T !! i = Some p -> same_key (t_key T) t (tup (t_heap T) p) = true ->
  view (add_ref d p T) ≡ₚ (tup (t_heap T) p, u32 (refCount (t_heap T) p + d))
    :: filter (without_key (t_key T) t) (view T).
Proof.
  intros HT Pt Hi He. destruct (view_split T i p t HT Pt Hi He) as [_ ->].
  assert (Hp : p ∈ t_primary T) by (by eapply list_elem_of_lookup_2).
  pose proof (index_nodup _ _ _ _ (ti_index _ HT)) as Hnd.
  pose proof (ii_live _ _ _ _ (ti_index _ HT)) as HL. rewrite Forall_forall in HL.
  assert (Hperm : t_primary T ≡ₚ p :: without p (t_primary T)).
  { rewrite <- (erase_position_filter _ _ _ _ (ti_index _ HT) i p Hi).
    by apply delete_Permutation. }
  unfold view. simpl. rewrite Hperm at 1. rewrite fmap_cons.
  rewrite tup_alter, refCount_alter by (by apply live_is_Some, HL). f_equiv.
  erewrite list_fmap_ext; [done|]. intros j q Hq%list_elem_of_lookup_2.
  apply list_elem_of_filter in Hq as [Hne _]. by rewrite tup_alter, refCount_alter_ne.
Qed.

Lemma inv_add_ref d p T : inv T -> 1 <= refCount (t_heap T) p + d < 2 ^ 32 ->
  p ∈ t_primary T -> inv (add_ref d p T).
Proof.
  intros (HT & HR & HL) Hb Hp. split; [by apply table_inv_add_ref|].
  pose proof (ii_live _ _ _ _ (ti_index _ HT)) as Hlive. rewrite Forall_forall in Hlive.
  split; simpl.
  - rewrite Forall_forall in HR |- *. intros q Hq. destruct (decide (q = p)) as [->|].
    + rewrite refCount_alter by (by apply live_is_Some, Hlive).
      rewrite u32_small; unfold is_u32; lia.
    + rewrite refCount_alter_ne by done. auto.
  - intros q Hq. destruct (decide (q = p)) as [->|]; [done|].
    rewrite lookup_alter_ne in Hq by done. auto.
Qed.

(** A tuple with another key cannot share the identity of an insertable
    one. *)
Lemma tuple_compare_fields t u : plain_tuple t -> fields u = fields t -> tuple_compareTo u t = 0.
Proof.
  intros Pt E. unfold tuple_compareTo. rewrite E.
  exact (cmp_refl plain_tuple tuple_compareTo t Pt).
Qed.

Lemma equal_fields_same_key key t u : plain_tuple t -> fields u = fields t ->
  tupleID u = tupleID t -> same_key key t u = true.
Proof.
  intros Pt E1 E2. assert (Pu : plain_tuple u) by (unfold plain_tuple in *; congruence).
  apply same_key_matches; [done..|]. destruct key as [|n key]; [done|].
  simpl. rewrite E1. apply lexc_zero.
  apply (cmp_refl (Forall plainP) (lexc compareTo)
    (HC := lexc_order _ _ compareTo_order)).
  by apply (key_proj_plain (n :: key)).
Qed.

(** What the counted set must satisfy for the next insertion of [t]: the count
    of an equal tuple has room. *)
Definition room (key : Key) (t : tuple) (s : counted) : Prop :=
  Forall (fun tc => same_key key t tc.1 = true -> tc.2 + 1 < 2 ^ 32) s.

Lemma contents_view T : contents T = fst <$> view T.
Proof. unfold contents, view. rewrite <- list_fmap_compose. done. Qed.

(** The entry [find] leads to, in the abstract state. *)
Lemma find_view T t s i : inv T -> plain_tuple t -> view T ≡ₚ s -> find_primary t T = Some i ->
  exists p, t_primary T !! i = Some p /\ p ∈ t_primary T /\ is_Some (t_heap T !! p)
    /\ same_key (t_key T) t (tup (t_heap T) p) = true
    /\ filter (with_key (t_key T) t) s = [(tup (t_heap T) p, refCount (t_heap T) p)]
    /\ filter (without_key (t_key T) t) (view T)
       = (fun q => (tup (t_heap T) q, refCount (t_heap T) q)) <$> without p (t_primary T)
    /\ 1 <= refCount (t_heap T) p < 2 ^ 32.
Proof.
  intros (HT & HR & HL) Pt Hv Ef.
  destruct (find_primary_Some T t i HT Pt Ef) as (p & Hi & He).
  destruct (view_split T i p t HT Pt Hi He) as [Hin Hout].
  assert (Hp : p ∈ t_primary T) by (by eapply list_elem_of_lookup_2).
  pose proof (proj1 (Forall_forall _ _) HR p Hp) as Hc.
  pose proof (proj1 (Forall_forall _ _) (ii_live _ _ _ _ (ti_index _ HT)) p Hp) as Hlive.
  exists p. split_and!; try done; try (by apply live_is_Some); try apply Hc.
  apply Permutation_singleton_r. by rewrite <- Hv, Hin.
Qed.

Lemma find_view_none T t s : inv T -> plain_tuple t -> view T ≡ₚ s ->
  find_primary t T = None -> filter (with_key (t_key T) t) s = [].
Proof.
  intros (HT & _) Pt Hv Ef. apply Permutation_nil_r. by rewrite <- Hv, view_none.
Qed.

Lemma insert_sim t now T s : inv T -> insertable T t -> room (t_key T) t s -> view T ≡ₚ s ->
  exists T', insert t now T = Ok ((spec_insert (t_key T) t s).1, T') /\ inv T'
    /\ same_config T T' /\ view T' ≡ₚ (spec_insert (t_key T) t s).2.
Proof.
  intros HI (Pt & Wt & Hid) Hroom Hv. pose proof HI as (HT & HR & HL).
  unfold insert, spec_insert.
  assert (Hids : Forall (fun u => same_key (t_key T) t u = false -> tupleID u <> tupleID t)
    (contents T)).
  { eapply Forall_impl; [exact Hid|]. simpl. intros u Hu Hne E.
    by rewrite equal_fields_same_key in Hne; auto. }
  destruct (find_primary t T) as [i|] eqn:Ef.
  - destruct (find_view T t s i HI Pt Hv Ef) as (p & Hi & Hp & Hsome & He & Hs & Hout & Hc).
    rewrite Hi. simpl.
    rewrite Hs. destruct (Z.eqb_spec (tuple_compareTo (tup (t_heap T) p) t) 0) as [Ec|Ec]; simpl.
    + eexists. split; [reflexivity|].
      assert (Hb : 1 <= refCount (t_heap T) p + 1 < 2 ^ 32).
      { split; [lia|].
        unfold room in Hroom. rewrite <- Hv in Hroom. unfold view in Hroom.
        rewrite Forall_fmap, Forall_forall in Hroom. by apply (Hroom p Hp). }
      split; [by apply inv_add_ref|]. split; [done|].
      rewrite (view_add_ref 1 i p t) by done. rewrite Hv, u32_small; [done|unfold is_u32; lia].
    + destruct (ref_removeTuple_ok i p T HT Hi HL) as (T1 & E1 & HI1 & Hc1 & Hv1).
      { by apply Forall_filter. }
      rewrite <- Hout in Hv1.
      assert (Hk : t_key T1 = t_key T) by apply Hc1.
      assert (Hcont : contents T1 = filter (fun u => same_key (t_key T) t u = false) (contents T)).
      { rewrite !contents_view, Hv1, filter_fmap. done. }
      destruct (ref_insertTuple_ok t now T1 HI1 Pt) as (T2 & E2 & HI2 & Hc2 & Hv2).
      * eapply same_agg_wide; [apply Hc1|done].
      * rewrite Hcont, Hk. apply Forall_forall. by intros u [? _]%list_elem_of_filter.
      * rewrite Hcont. rewrite Forall_forall in Hids |- *.
        intros u [? ?]%list_elem_of_filter. by apply Hids.
      * rewrite E1. simpl. rewrite E2. simpl. eexists. split; [reflexivity|].
        split; [done|]. split; [by etrans|]. by rewrite Hv2, Hv1, Hv.
  - rewrite (find_view_none T t s HI Pt Hv Ef). simpl. apply find_primary_None in Ef; [|done..].
    destruct (ref_insertTuple_ok t now T HI Pt Wt Ef) as (T2 & E2 & HI2 & Hc2 & Hv2).
    { rewrite Forall_forall in Hids, Ef |- *. intros u Hu. apply Hids; auto. }
    rewrite E2. simpl. eexists. split; [reflexivity|]. split; [done|]. split; [done|].
    by rewrite Hv2, Hv.
Qed.

Lemma remove_sim t T s : inv T -> plain_tuple t -> view T ≡ₚ s ->
  exists T', remove t T = Ok ((spec_remove (t_key T) t s).1, T') /\ inv T'
    /\ same_config T T' /\ view T' ≡ₚ (spec_remove (t_key T) t s).2.
Proof.
  intros HI Pt Hv. pose proof HI as (HT & HR & HL). unfold remove, spec_remove.
  destruct (find_primary t T) as [i|] eqn:Ef.
  - destruct (find_view T t s i HI Pt Hv Ef) as (p & Hi & Hp & Hsome & He & Hs & Hout & Hc).
    rewrite Hi. simpl. rewrite Hs.
    rewrite refCount_alter by done. rewrite u32_small by (unfold is_u32; lia).
    destruct (Z.eqb_spec (refCount (t_heap T) p) 1) as [E1|E1].
    + rewrite E1. simpl.
      destruct (ref_removeTuple_ok i p (add_ref (-1) p T)) as (T1 & E2 & HI1 & Hc1 & Hv1).
      * by apply table_inv_add_ref.
      * done.
      * intros q [e Hq]. apply HL. simpl in Hq. destruct (decide (q = p)) as [->|].
        { done. }
        rewrite lookup_alter_ne in Hq by done. eauto.
      * simpl. rewrite Forall_forall in HR |- *.
        intros q [Hne Hq]%list_elem_of_filter. rewrite refCount_alter_ne by done. auto.
      * rewrite E2. simpl. eexists. split; [reflexivity|]. split; [done|]. split; [done|].
        rewrite Hv1, <- Hv, Hout. simpl. erewrite list_fmap_ext; [done|].
        intros j q Hq%list_elem_of_lookup_2. apply list_elem_of_filter in Hq as [Hne _].
        by rewrite tup_alter, refCount_alter_ne.
    + destruct (Z.eqb_spec (refCount (t_heap T) p + -1) 0); [lia|]. simpl.
      eexists. split; [reflexivity|]. split; [apply inv_add_ref; auto; lia|]. split; [done|].
      rewrite (view_add_ref (-1) i p t) by done.
      by rewrite Hv, u32_small by (unfold is_u32; lia).
  - rewrite (find_view_none T t s HI Pt Hv Ef). simpl. exists T. split; [done|]. split; [done|]. by split.
Qed.

(** ** Sequences of operations *)

Inductive op :=
  | Insert (t : tuple) (now : Z)
  | Remove (t : tuple).

Definition exec (o : op) (T : table) : res (bool * table) :=
  match o with Insert t now => insert t now T | Remove t => remove t T end.

Fixpoint exec_all (os : list op) (T : table) : res (list bool * table) :=
  match os with
  | [] => Ok ([], T)
  | o :: os' =>
      rbind (exec o T) (fun '(b, T1) =>
      rbind (exec_all os' T1) (fun '(bs, T2) => Ok (b :: bs, T2)))
  end.

Definition spec_exec (key : Key) (o : op) (s : counted) : bool * counted :=
  match o with Insert t _ => spec_insert key t s | Remove t => spec_remove key t s end.

Fixpoint spec_exec_all (key : Key) (os : list op) (s : counted) : list bool * counted :=
  match os with
  | [] => ([], s)
  | o :: os' =>
      let '(b, s1) := spec_exec key o s in
      let '(bs, s2) := spec_exec_all key os' s1 in (b :: bs, s2)
  end.

Definition op_tuple (o : op) : tuple := match o with Insert t _ => t | Remove t => t end.

(** Tuples of one process: plain, wide enough for the aggregates, and equal
    identities mean equal fields. *)
Definition ops_ok (aggs : list AggregateObj) (ts : list tuple) : Prop :=
  Forall (fun t => plain_tuple t /\ Forall (fun a => wide a t) aggs
    /\ Forall (fun u => tupleID u = tupleID t -> fields u = fields t) ts) ts.

(** The tuples of the abstract state come from the insertions, and no count
    exceeds their number. *)
Definition from_ops (n : Z) (ts : list tuple) (s : counted) : Prop :=
  Forall (fun tc => tc.1 ∈ ts /\ tc.2 <= n) s.

Lemma spec_exec_from n ts key o s : op_tuple o ∈ ts -> 0 <= n -> from_ops n ts s ->
  from_ops (n + 1) ts (spec_exec key o s).2.
Proof.
  intros Ho Hn Hs. unfold from_ops in *.
  assert (Hs' : Forall (fun tc : tuple * Z => tc.1 ∈ ts /\ tc.2 <= n + 1) s).
  { eapply Forall_impl; [exact Hs|]. simpl. intros tc []. split; [done|lia]. }
  assert (Hu : forall u c l, filter (with_key key (op_tuple o)) s = (u, c) :: l ->
    u ∈ ts /\ c <= n).
  { intros u c l E. rewrite Forall_forall in Hs. apply (Hs (u, c)).
    assert (H : (u, c) ∈ filter (with_key key (op_tuple o)) s) by (rewrite E; by left).
    by apply list_elem_of_filter in H as [_ ?]. }
  destruct o as [t now|t]; simpl in *; unfold spec_insert, spec_remove;
    destruct (filter _ s) as [|[u c] l] eqn:E; try (destruct (Hu u c l eq_refl));
    repeat case_match; simpl; repeat constructor; simpl; auto using Forall_filter; lia.
Qed.

Lemma exec_sim n ts o T s : inv T -> ops_ok (t_aggregates T) ts -> op_tuple o ∈ ts ->
  from_ops n ts s -> n + 1 < 2 ^ 32 -> view T ≡ₚ s ->
  exists T', exec o T = Ok ((spec_exec (t_key T) o s).1, T') /\ inv T' /\ same_config T T'
    /\ view T' ≡ₚ (spec_exec (t_key T) o s).2.
Proof.
  intros HI Hok Ho Hfrom Hn Hv. unfold ops_ok in Hok. rewrite Forall_forall in Hok.
  destruct (Hok _ Ho) as (Pt & Wt & Hid).
  destruct o as [t now|t]; simpl in *; [|by apply remove_sim].
  apply insert_sim; auto.
  - split_and!; auto. rewrite contents_view, Forall_fmap, Hv.
    rewrite Forall_forall in Hid. eapply Forall_impl; [exact Hfrom|]. simpl.
    intros tc [Hin _]. by apply Hid.
  - eapply Forall_impl; [exact Hfrom|]. simpl. intros tc [_ Hc] _. lia.
Qed.

Lemma exec_all_sim os n ts T s : inv T -> ops_ok (t_aggregates T) ts ->
  Forall (fun o => op_tuple o ∈ ts) os -> from_ops n ts s -> 0 <= n ->
  n + Z.of_nat (length os) < 2 ^ 32 -> view T ≡ₚ s ->
  exists T', exec_all os T = Ok ((spec_exec_all (t_key T) os s).1, T') /\ inv T'
    /\ same_config T T' /\ view T' ≡ₚ (spec_exec_all (t_key T) os s).2.
Proof.
  revert n T s. induction os as [|o os IH]; intros n T s HI Hok Hts Hfrom Hn Hlen Hv; simpl in *.
  { exists T. by split_and!. }
  apply Forall_cons in Hts as [Ho Hts].
  destruct (exec_sim n ts o T s) as (T1 & E1 & HI1 & Hc1 & Hv1); auto; [lia|].
  pose proof (spec_exec_from n ts (t_key T) o s Ho Hn Hfrom) as Hfrom1.
  destruct (spec_exec (t_key T) o s) as [b s1] eqn:Es. simpl in *.
  destruct (IH (n + 1) T1 s1) as (T2 & E2 & HI2 & Hc2 & Hv2); auto; [|lia..|].
  { eapply Forall_impl; [exact Hok|]. simpl. intros t (? & ? & ?). split_and!; auto.
    eapply same_agg_wide; [apply Hc1|done]. }
  assert (Hk : t_key T1 = t_key T) by apply Hc1. rewrite Hk in E2, Hv2.
  destruct (spec_exec_all (t_key T) os s1) as [bs s2]. simpl in *.
  rewrite E1. simpl. rewrite E2. simpl. exists T2. split_and!; auto. by etrans.
Qed.

(** A fresh table satisfies the invariant. *)
Lemma ref_mk_inv name key sid : inv (mk name key sid).
Proof.
  split; [split; [split|..]|]; simpl; try constructor; try done.
  - intros p q Hp. by apply not_elem_of_nil in Hp.
  - intros p [e He]. by rewrite lookup_empty in He.
  - intros p [e He]. by rewrite lookup_empty in He.
Qed.

(** ** A table to try things on *)

(** Links (name, address, cost), keyed by address, with a secondary index and
    a COUNT aggregate by cost. *)
Definition link (a b id : Z) : tuple := mkTuple [VStr "link"; VInt64 a; VInt64 b] true id.

Definition links0 : table :=
  match aggregate [2%nat] 1 "COUNT" (mk "link" [1%nat] 0) with
  | Some (_, T) => aggregate_listener 0 5 (updateListener 6 T)
  | None => mk "link" [1%nat] 0
  end.

Definition links_ops : list op :=
  [Insert (link 1 7 1) 10; Insert (link 2 7 2) 11; Insert (link 3 8 3) 12;
   Insert (link 2 7 4) 13; Remove (link 3 0 5)].

Definition links : table :=
  match exec_all links_ops links0 with Ok (_, T) => T | Fail _ => links0 end.

Lemma links0_inv : inv links0.
Proof.
  destruct (aggregate_inv [2%nat] 1 "COUNT" (mk "link" [1%nat] 0)) as (T & E & HT & Hh & Hp & Hk).
  - apply ref_mk_inv.
  - by eexists.
  - constructor.
  - unfold links0. vm_compute in E. injection E as <-. vm_compute.
    destruct HT as [HI HA HW HF]. split; [split; try done|split].
    + constructor; [|constructor]. split; [split; [by eexists|by repeat constructor]|].
      intros ix _. constructor.
    + constructor.
    + intros p [e He]. discriminate He.
Qed.

Lemma links_ops_ok : ops_ok (t_aggregates links0) (op_tuple <$> links_ops).
Proof.
  unfold ops_ok, wide. vm_decide.
Qed.

Lemma links_inv : inv links /\ view links ≡ₚ [(link 2 7 2, 2); (link 1 7 1, 1)].
Proof.
  destruct (exec_all_sim links_ops 0 (op_tuple <$> links_ops) links0 []) as
    (T & E & HI & _ & Hv); [apply links0_inv|apply links_ops_ok|vm_decide|by apply Forall_nil|lia|vm_decide|done|].
  unfold links. rewrite E. split; [done|]. rewrite Hv. vm_compute. reflexivity.
Qed.

(** ** Theorems *)

(** [RefTable::insert] refines the counted set: in every reachable state it
    returns (no failure, no undefined behaviour), keeps the invariant of the
    indices, counts and aggregates, reports whether the table changed, and
    either adds one to the count of an equal tuple or replaces the tuple with
    the same key. *)
Theorem RefTable_insert_refines (t : tuple) (now : Z) (T : table)
  (HI : inv T) (Ht : insertable T t) (Hroom : room (t_key T) t (view T)) :
  exists T', insert t now T = Ok ((spec_insert (t_key T) t (view T)).1, T') /\ inv T'
    /\ same_config T T' /\ view T' ≡ₚ (spec_insert (t_key T) t (view T)).2.
Proof. by apply insert_sim. Qed.

Lemma RefTable_insert_refines_witness :
  exists T', insert (link 1 9 10) 20 links = Ok (true, T') /\ inv T'
    /\ view T' ≡ₚ [(link 1 9 10, 1); (link 2 7 2, 2)].
Proof.
  destruct (RefTable_insert_refines (link 1 9 10) 20 links) as (T' & E & HI & _ & Hv).
  - apply links_inv.
  - unfold insertable, wide. vm_decide.
  - unfold room. vm_decide.
  - exists T'. split; [exact E|]. split; [exact HI|]. rewrite Hv. vm_compute. reflexivity.
Defined.

(** [RefTable::remove] refines the counted set: it returns, keeps the
    invariant, takes one from the count of the tuple with the same key (whether
    or not its other fields agree), and drops the tuple, answering [true], when
    the count reaches zero. *)
Theorem RefTable_remove_refines (t : tuple) (T : table) (HI : inv T) (Pt : plain_tuple t) :
  exists T', remove t T = Ok ((spec_remove (t_key T) t (view T)).1, T') /\ inv T'
    /\ same_config T T' /\ view T' ≡ₚ (spec_remove (t_key T) t (view T)).2.
Proof. by apply remove_sim. Qed.

Lemma RefTable_remove_refines_witness :
  exists T', remove (link 1 0 10) links = Ok (true, T') /\ inv T'
    /\ view T' ≡ₚ [(link 2 7 2, 2)].
Proof.
  destruct (RefTable_remove_refines (link 1 0 10) links) as (T' & E & HI & _ & Hv).
  - apply links_inv.
  - vm_decide.
  - exists T'. split; [exact E|]. split; [exact HI|]. rewrite Hv. vm_compute. reflexivity.
Defined.

(** C2: every sequence of insertions and removals on an initially empty
    reference-counted table, fewer than 2^32 of them and of tuples whose
    identities are not confused, runs to the end with the answers and the final
    contents of the abstract counted set, and keeps the invariant. *)
Theorem RefTable_runs_refine (os : list op) (T : table) (HI : inv T)
  (Hempty : t_primary T = []) (Hok : ops_ok (t_aggregates T) (op_tuple <$> os))
  (Hlen : Z.of_nat (length os) < 2 ^ 32) :
  exists T', exec_all os T = Ok ((spec_exec_all (t_key T) os []).1, T') /\ inv T'
    /\ same_config T T' /\ view T' ≡ₚ (spec_exec_all (t_key T) os []).2.
Proof.
  apply (exec_all_sim os 0 (op_tuple <$> os)); auto; [|by apply Forall_nil|lia|].
  - apply Forall_forall. intros o Ho. by apply list_elem_of_fmap_2.
  - unfold view. by rewrite Hempty.
Qed.

Lemma RefTable_runs_refine_witness :
  exists T', exec_all links_ops links0 = Ok ([true; true; true; false; true], T')
    /\ inv T' /\ view T' ≡ₚ [(link 2 7 2, 2); (link 1 7 1, 1)].
Proof.
  destruct (RefTable_runs_refine links_ops links0) as (T' & E & HI & _ & Hv).
  - apply links0_inv.
  - reflexivity.
  - apply links_ops_ok.
  - vm_compute. reflexivity.
  - exists T'. split; [exact E|]. split; [exact HI|]. rewrite Hv. vm_compute. reflexivity.
Defined.
End RefTable.
