(* ===== verification/TableLookup.v ===== *)
(** * Lookups and scans (src/p2core/commonTable.C)

    What the iterators of a table deliver: a scan delivers the contents in index
    order, a lookup the tuples that agree with the search tuple on the index
    key, a projecting lookup the tuples whose index fields equal the lookup
    fields. *)

From S2P Require Import Prelude Ids Stl Values Tuples Aggs Keys CommonTable TableInv RefTable.

(** The client's loop [while (!it->done()) it->next()]. *)
Fixpoint drain (fuel : nat) (it : IteratorObj) : list tuple :=
  match fuel with
  | O => []
  | S fuel' =>
      if done it then []
      else match next it with
           | (Some t, it') => t :: drain fuel' it'
           | (None, _) => []
           end
  end.

(** Enough fuel: one step per spooled tuple. *)
Definition delivers (it : IteratorObj) : list tuple := drain (S (length (it_spool it))) it.

(** The search tuple of projecting lookups: modifiable, plain, and long enough
    for every index. *)
Definition search_inv (T : table) : Prop :=
  let s := t_lookupSearch T in
  frozen s = false /\ plain_tuple s
  /\ Forall (fun n => n < length (fields s))%nat (t_key T)
  /\ map_Forall (fun k (_ : list loc) => Forall (fun n => n < length (fields s))%nat k)
       (t_indices T).

(** [u] answers a lookup of [t]: its index fields equal the lookup fields of
    [t], one by one. *)
Definition answers (lookupKey indexKey : Key) (t u : tuple) : Prop :=
  Forall2 (fun l i => exists v w, fields t !! l = Some v /\ fields u !! i = Some w
    /\ compareTo v w = 0) lookupKey indexKey.

(** ** Iterators *)

Lemma spool_rev h ps : spool h ps = rev (tup h <$> ps).
Proof.
  unfold spool.
  assert (H : forall acc, foldl (fun sp p => tup h p :: sp) acc ps = rev (tup h <$> ps) ++ acc).
  { induction ps as [|p ps IH]; intros acc; simpl; [done|]. rewrite IH, <- app_assoc. done. }
  rewrite H. by rewrite app_nil_r.
Qed.

Lemma drain_drop sp k fuel : (k <= length sp)%nat -> (length sp - k < fuel)%nat ->
  drain fuel (mkIter sp k) = drop k (rev sp).
Proof.
  revert k. induction fuel as [|fuel IH]; intros k Hk Hf; [lia|].
  assert (Hd : done (mkIter sp k) = (k =? length sp)%nat).
  { unfold done. simpl. destruct sp; simpl in *; [|done]. destruct k; [done|lia]. }
  simpl. unfold next. rewrite Hd. simpl.
  destruct (Nat.eqb_spec k (length sp)) as [->|Hne].
  { rewrite drop_ge; [done|]. rewrite length_rev. lia. }
  destruct (lookup_lt_is_Some_2 sp (length sp - 1 - k)) as [t Ht]; [lia|].
  rewrite Ht, IH by lia.
  assert (Hr : rev sp !! k = Some t).
  { rewrite rev_alt. change (rev_append sp []) with (reverse sp).
    rewrite reverse_lookup by lia.
    rewrite <- Ht. f_equal. lia. }
  by rewrite (drop_S _ _ _ Hr).
Qed.

Lemma delivers_spool h ps : delivers (IteratorObj_mk (spool h ps)) = tup h <$> ps.
Proof.
  unfold delivers, IteratorObj_mk. rewrite drain_drop by (simpl; lia). simpl.
  by rewrite spool_rev, rev_involutive.
Qed.

(** ** Lookups by the index key *)

Lemma lookupSecondary_delivers s k ix T : table_inv T -> plain_tuple s ->
  t_indices T !! k = Some ix ->
  delivers (lookupSecondary s k ix T) = group (t_heap T) k ix s.
Proof.
  intros HT Ps Hix. unfold lookupSecondary. rewrite delivers_spool.
  pose proof (index_second_plain _ _ _ _ (ti_index _ HT) k ix Hix).
  apply group_range; auto. by apply (ii_second _ _ _ _ (ti_index _ HT)).
Qed.

Lemma lookupPrimary_delivers s T : table_inv T -> plain_tuple s ->
  delivers (lookupPrimary s T) = group (t_heap T) (t_key T) (t_primary T) s.
Proof.
  intros HT Ps. unfold lookupPrimary. rewrite delivers_spool.
  pose proof (ti_index _ HT) as HI.
  pose proof (ii_plain _ _ _ _ HI) as HP.
  pose proof (set_sorted_mset _ _ plain_tuple _ HP (ii_sorted _ _ _ _ HI)) as Hs.
  destruct (set_find _ _ s (t_primary T)) as [i|] eqn:E.
  - destruct (set_find_Some _ _ _ _ _ E) as (_ & _ & _ & ->). by apply group_range.
  - apply (set_find_None _ _ plain_tuple) in E; auto. unfold group.
    rewrite filter_none; [done|]. eapply Forall_impl; [exact E|]. simpl. intros p ->. done.
Qed.

(** A group lists the matching part of the contents, in another order. *)
Lemma group_contents T k ix t : table_inv T -> t_indices T !! k = Some ix ->
  group (t_heap T) k ix t ≡ₚ filter (fun u => same_key k t u = true) (contents T).
Proof.
  intros HT Hix. destruct (ii_second _ _ _ _ (ti_index _ HT) k ix Hix) as [Hp _].
  unfold group, contents. rewrite filter_fmap. by rewrite Hp.
Qed.

Lemma group_primary T t :
  group (t_heap T) (t_key T) (t_primary T) t
  = filter (fun u => same_key (t_key T) t u = true) (contents T).
Proof. unfold group, contents. by rewrite filter_fmap. Qed.

(** ** Projection *)

(** After projecting, the destination holds the source's fields. *)
Lemma project_ok src sk dst dk : length sk = length dk ->
  frozen dst = false -> NoDup dk ->
  Forall (fun n => n < Tuple_size src)%nat sk -> Forall (fun n => n < length (fields dst))%nat dk ->
  exists dst', project src sk dst dk = Ok dst' /\ frozen dst' = false
    /\ length (fields dst') = length (fields dst)
    /\ Forall2 (fun s d => fields dst' !! d = fields src !! s) sk dk
    /\ (forall n, n ∉ dk -> fields dst' !! n = fields dst !! n)
    /\ (plain_tuple src -> plain_tuple dst -> plain_tuple dst').
Proof.
  revert dk dst. induction sk as [|s sk IH]; intros [|d dk] dst Hl Hf Hnd Hs Hd; try done; simpl.
  { exists dst. by split_and!. }
  apply NoDup_cons in Hnd as [Hnin Hnd]. apply Forall_cons in Hs as [Hs0 Hs].
  apply Forall_cons in Hd as [Hd0 Hd]. injection Hl as Hl.
  apply lookup_lt_is_Some_2 in Hs0 as [v Hv]. unfold Tuple_at. rewrite Hv. simpl.
  unfold Tuple_set, Tuple_size. rewrite Hf. rewrite (proj2 (Nat.ltb_lt _ _) Hd0). simpl.
  destruct (IH dk (mkTuple (<[d:=v]> (fields dst)) (frozen dst) (tupleID dst)))
    as (dst' & E & Hf' & Hlen & H2 & Hout & Hpl); simpl; auto; [by rewrite length_insert|].
  rewrite Hf in E. rewrite E. simpl in Hlen. rewrite length_insert in Hlen. exists dst'.
  split_and!; auto.
  - constructor; [|done]. rewrite Hout by done. simpl. by rewrite list_lookup_insert_eq, Hv.
  - intros n Hn. apply not_elem_of_cons in Hn as [Hne Hn]. rewrite Hout by done. simpl.
    by rewrite list_lookup_insert_ne.
  - intros Ps Pd. apply Hpl; [done|]. unfold plain_tuple in *. simpl.
    apply Forall_insert; [done|]. rewrite Forall_lookup in Ps. by eapply Ps.
Qed.

(** Matching the projected tuple is answering the lookup. *)
Lemma project_answers lk ik t s u : ik <> [] ->
  Forall (fun n => n < Tuple_size t)%nat lk ->
  Forall2 (fun l i => fields s !! i = fields t !! l) lk ik ->
  key_matches ik s u <-> answers lk ik t u.
Proof.
  intros Hne Hlk H2.
  assert (Forall2 (fun a b => compareTo a b = 0) (key_proj ik (fields s)) (key_proj ik (fields u))
    <-> answers lk ik t u) as <-; [|by destruct ik].
  unfold answers. clear Hne. induction H2 as [|l i lk ik Hli H2 IH]; simpl; [done|].
  apply Forall_cons in Hlk as [Hl Hlk]. apply lookup_lt_is_Some_2 in Hl as [v Hv].
  rewrite Hli, Hv. split.
  - destruct (fields u !! i) as [w|] eqn:Ew; [|by intros HF; inversion HF].
    intros [Hc HF]%Forall2_cons. constructor; [by exists v, w|]. by apply IH.
  - intros HF. apply Forall2_cons in HF as [(v' & w & Hv' & Hw & Hc) HF].
    rewrite Hw. simplify_eq. constructor; [done|]. by apply IH.
Qed.

(** ** Ranges *)

(** The two ends of a range lookup, an empty bound meaning infinity. *)
Definition above_left (k : Key) (openL : bool) (lb u : tuple) : bool :=
  match fields lb with
  | [] => true
  | _ => if openL then KeyedTupleComparator k lb u else negb (KeyedTupleComparator k u lb)
  end.
Definition below_right (k : Key) (openR : bool) (rb u : tuple) : bool :=
  match fields rb with
  | [] => true
  | _ => if openR then KeyedTupleComparator k u rb else negb (KeyedTupleComparator k rb u)
  end.

(** The bounds are not crossed: the right end is not before the left one, and
    strictly after it when both are open. *)
Definition bounds_ordered (k : Key) (openL openR : bool) (lb rb : tuple) : Prop :=
  fields lb = [] \/ fields rb = [] \/
  (KeyedTupleComparator k rb lb = false /\
   (openL = true -> openR = true -> KeyedTupleComparator k lb rb = true)).

Section ranges.
Context (h : gmap loc Entry) (k : Key) (ix : list loc).
Context (HP : Forall (fun p => plain_tuple (tup h p)) ix).
Context (Hs : mset_sorted (KeyedTupleComparator k) (tup h) ix).

Let lt := KeyedTupleComparator k.

Definition left_pos (openL : bool) (lb : tuple) : nat :=
  match fields lb with
  | [] => 0%nat
  | _ => if openL then upper_bound lt (tup h) lb ix else lower_bound lt (tup h) lb ix
  end.
Definition right_pos (openR : bool) (rb : tuple) : nat :=
  match fields rb with
  | [] => length ix
  | _ => if openR then lower_bound lt (tup h) rb ix else upper_bound lt (tup h) rb ix
  end.

Lemma left_pos_cut openL lb : plain_tuple lb ->
  Forall (fun p => above_left k openL lb (tup h p) = false) (take (left_pos openL lb) ix)
  /\ Forall (fun p => above_left k openL lb (tup h p) = true) (drop (left_pos openL lb) ix).
Proof.
  intros Pl. unfold left_pos, above_left. fold lt.
  destruct (fields lb); [simpl; split; [done|]; by apply Forall_forall|].
  destruct openL; split.
  - apply upper_bound_take.
  - by apply (upper_bound_drop _ _ plain_tuple).
  - eapply Forall_impl; [apply lower_bound_take|]. simpl. by intros p ->.
  - eapply Forall_impl; [by apply (lower_bound_drop _ _ plain_tuple)|]. simpl. by intros p ->.
Qed.

Lemma right_pos_cut openR rb : plain_tuple rb ->
  Forall (fun p => below_right k openR rb (tup h p) = true) (take (right_pos openR rb) ix)
  /\ Forall (fun p => below_right k openR rb (tup h p) = false) (drop (right_pos openR rb) ix).
Proof.
  intros Pr. unfold right_pos, below_right. fold lt.
  destruct (fields rb); [rewrite drop_ge by lia; split; [by apply Forall_forall|done]|].
  destruct openR; split.
  - apply lower_bound_take.
  - by apply (lower_bound_drop _ _ plain_tuple).
  - eapply Forall_impl; [apply upper_bound_take|]. simpl. by intros p ->.
  - eapply Forall_impl; [by apply (upper_bound_drop _ _ plain_tuple)|]. simpl. by intros p ->.
Qed.

(** A cut below another: no element is both excluded on the left and past the
    right end. *)
Lemma cut_le (Q R : loc -> bool) i j : (i <= length ix)%nat ->
  Forall (fun p => Q p = false) (take i ix) -> Forall (fun p => R p = false) (drop j ix) ->
  (forall p, p ∈ ix -> Q p = false -> R p = true) -> (i <= j)%nat.
Proof.
  intros Hi H1 H2 H3. destruct (Nat.le_gt_cases i j) as [|Hji]; [done|exfalso].
  destruct (lookup_lt_is_Some_2 ix j) as [p Hp]; [lia|].
  rewrite Forall_lookup in H1, H2.
  assert (E1 : Q p = false).
  { apply (H1 j p). rewrite lookup_take. case_decide; [done|lia]. }
  assert (E2 : R p = false).
  { apply (H2 0%nat p). rewrite lookup_drop. by rewrite Nat.add_0_r. }
  rewrite H3 in E2; [done| |done]. by eapply list_elem_of_lookup_2.
Qed.

Lemma left_right openL openR lb rb : plain_tuple lb -> plain_tuple rb ->
  bounds_ordered k openL openR lb rb -> (left_pos openL lb <= right_pos openR rb)%nat.
Proof.
  intros Pl Pr Hb. destruct (left_pos_cut openL lb Pl) as [L1 L2].
  destruct (right_pos_cut openR rb Pr) as [R1 R2].
  apply (cut_le (fun p => above_left k openL lb (tup h p))
    (fun p => below_right k openR rb (tup h p))); auto.
  { unfold left_pos. destruct (fields lb); [lia|].
    destruct openL; [apply upper_bound_le|apply lower_bound_le]. }
  rewrite Forall_forall in HP. intros p Hp. specialize (HP p Hp).
  unfold above_left, below_right. destruct Hb as [->|[->|[H1 H2]]]; [done|by intros|].
  destruct (fields lb); [done|]. destruct (fields rb); [done|].
  pose proof (swo_ge_trans lt plain_tuple) as Hge. unfold lt in Hge.
  destruct openL, openR; intros E; rewrite ?negb_true_iff, ?negb_false_iff in *.
  - apply (swo_ge_lt _ plain_tuple (tup h p) lb rb); auto.
  - by apply (Hge (tup h p) lb rb).
  - by apply (swo_lt_ge _ plain_tuple (tup h p) lb rb).
  - apply (swo_asym _ plain_tuple); auto. by apply (swo_lt_ge _ plain_tuple (tup h p) lb rb).
Qed.

Lemma range_bounds openL openR lb rb : plain_tuple lb -> plain_tuple rb ->
  bounds_ordered k openL openR lb rb ->
  range (left_pos openL lb) (right_pos openR rb) ix
  = filter (fun p => above_left k openL lb (tup h p) && below_right k openR rb (tup h p) = true) ix.
Proof.
  intros Pl Pr Hb. destruct (left_pos_cut openL lb Pl) as [L1 L2].
  destruct (right_pos_cut openR rb Pr) as [R1 R2].
  pose proof (left_right openL openR lb rb Pl Pr Hb) as Hle.
  apply range_filter; [done|..].
  - eapply Forall_impl; [exact L1|]. simpl. by intros p ->.
  - eapply Forall_impl; [exact R2|]. simpl. intros p ->. by rewrite andb_false_r.
  - eapply Forall_impl; [apply (range_Forall _ _ _ _ _ Hle L2 R1)|]. simpl. by intros p [-> ->].
Qed.
End ranges.

(** ** Theorems *)

(** a lookup without projection, on the primary key or on the key of a
    secondary index, delivers exactly the tuples of the table that have the
    search tuple's key, each once; on the primary key in index order.  Without
    such an index the assertion fails. *)
Theorem lookup_correct (indexKey : Key) (t : tuple) (T : table) (HT : table_inv T)
  (Pt : plain_tuple t) :
  match lookup2 indexKey t T with
  | Ok it =>
      delivers it ≡ₚ filter (fun u => same_key indexKey t u = true) (contents T)
      /\ (indexKey = t_key T -> delivers it
            = filter (fun u => same_key indexKey t u = true) (contents T))
  | Fail f => f = AssertFailed /\ indexKey <> t_key T /\ findSecondaryIndex indexKey T = None
  end.
Proof.
  unfold lookup2, findSecondaryIndex. case_decide as Hk.
  - subst. rewrite lookupPrimary_delivers, group_primary by done. done.
  - destruct (t_indices T !! indexKey) as [ix|] eqn:E; [|done].
    rewrite lookupSecondary_delivers by done. split; [by apply group_contents|done].
Qed.

Lemma lookup_correct_witness :
  exists it, lookup2 [2%nat] (RefTable.link 0 7 9) RefTable.links = Ok it
    /\ delivers it ≡ₚ [RefTable.link 2 7 2; RefTable.link 1 7 1].
Proof.
  assert (HT : table_inv RefTable.links) by apply RefTable.links_inv.
  assert (Pt : plain_tuple (RefTable.link 0 7 9)) by vm_decide.
  pose proof (lookup_correct [2%nat] (RefTable.link 0 7 9) RefTable.links HT Pt) as H.
  destruct (lookup2 [2%nat] (RefTable.link 0 7 9) RefTable.links) as [it|f] eqn:E.
  - exists it. split; [reflexivity|]. rewrite (proj1 H). vm_decide.
  - vm_compute in E. discriminate E.
Defined.

(** a projecting lookup delivers exactly the tuples [u] of the table with
    [u[i] = t[l]] for the paired fields [l], [i] of the lookup and index keys,
    each once, and leaves the table as it was (its scratch search tuple
    apart). *)
Theorem projecting_lookup_correct (lookupKey indexKey : Key) (t : tuple) (T : table)
  (HT : table_inv T) (HS : search_inv T) (Pt : plain_tuple t)
  (Hlen : length lookupKey = length indexKey) (Hne : indexKey <> []) (Hnd : NoDup indexKey)
  (Hw : Forall (fun n => n < Tuple_size t)%nat lookupKey)
  (Hix : indexKey = t_key T \/ is_Some (findSecondaryIndex indexKey T)) :
  exists it T' s, lookup3 lookupKey indexKey t T = Ok (Some it, T')
    /\ T' = with_lookupSearch s T /\ table_inv T' /\ search_inv T'
    /\ delivers it ≡ₚ filter (fun u => same_key indexKey s u = true) (contents T)
    /\ Forall (fun u => same_key indexKey s u = true <-> answers lookupKey indexKey t u) (contents T).
Proof.
  destruct HS as (Hf & Ps & Hpk & Hsk). unfold findSecondaryIndex in Hix.
  assert (Hcov : Forall (fun n => n < length (fields (t_lookupSearch T)))%nat indexKey).
  { destruct Hix as [->|[ix Hix]]; [done|]. by apply (Hsk _ _ Hix). }
  destruct (project_ok t lookupKey (t_lookupSearch T) indexKey) as
    (s & E & Hf' & Hl & H2 & _ & Hpl); auto.
  assert (Hs : search_inv (with_lookupSearch s T)).
  { unfold search_inv. simpl. rewrite Hl. split_and!; auto. }
  assert (HT' : table_inv (with_lookupSearch s T)) by (destruct HT; by split).
  assert (Ha : Forall (fun u => same_key indexKey s u = true
    <-> answers lookupKey indexKey t u) (contents T)).
  { apply Forall_fmap. eapply Forall_impl; [apply (ii_plain _ _ _ _ (ti_index _ HT))|].
    intros p Pp. simpl. rewrite same_key_matches by auto. by apply project_answers. }
  unfold lookup3. rewrite (proj2 (Nat.eqb_eq _ _) Hlen). simpl. case_decide as Hk.
  - subst. rewrite E. simpl. eexists _, _, s. split; [reflexivity|]. split_and!; auto.
    rewrite lookupPrimary_delivers by auto. by rewrite group_primary.
  - destruct Hix as [|[ix Hix]]; [done|]. rewrite Hix, E. simpl.
    eexists _, _, s. split; [reflexivity|]. split_and!; auto.
    rewrite lookupSecondary_delivers by auto. by apply (group_contents _ _ _ _ HT').
Qed.

Lemma projecting_lookup_correct_witness :
  exists it T', lookup3 [1%nat] [2%nat] (RefTable.link 7 0 9) RefTable.links = Ok (Some it, T')
    /\ length (delivers it) = 2%nat.
Proof.
  destruct (projecting_lookup_correct [1%nat] [2%nat] (RefTable.link 7 0 9) RefTable.links)
    as (it & T' & s & E & _ & _ & _ & Hd & _).
  - apply RefTable.links_inv.
  - unfold search_inv. vm_decide.
  - vm_decide.
  - reflexivity.
  - discriminate.
  - vm_decide.
  - vm_decide.
  - right. vm_compute. eexists. reflexivity.
  - exists it, T'. split; [exact E|].
    vm_compute in E. injection E as <- _. vm_compute. reflexivity.
Defined.

(** a scan delivers the whole table, each tuple once: along the primary key
    in strictly ascending key order, along a secondary index in non-descending
    order of its key. *)
Theorem scan_correct (key : Key) (T : table) (HT : table_inv T) :
  delivers (scan T) = contents T
  /\ StronglySorted (fun t u => KeyedTupleComparator (t_key T) t u = true) (contents T)
  /\ match scan_key key T with
     | Some it => delivers it ≡ₚ contents T
         /\ StronglySorted (fun t u => KeyedTupleComparator key u t = false) (delivers it)
     | None => key <> t_key T /\ findSecondaryIndex key T = None
     end.
Proof.
  assert (Hmap : forall (R : tuple -> tuple -> Prop) h l,
    StronglySorted (fun p q => R (tup h p) (tup h q)) l -> StronglySorted R (tup h <$> l)).
  { intros R h l. induction 1 as [|p l Hs IH Hp]; simpl; constructor; auto.
    by rewrite Forall_fmap. }
  pose proof (ti_index _ HT) as HI.
  assert (Hprim : StronglySorted (fun t u => KeyedTupleComparator (t_key T) t u = true) (contents T)).
  { apply Hmap. apply HI. }
  unfold scan, scanPrimary. rewrite delivers_spool. split; [done|]. split; [done|].
  unfold scan_key, findSecondaryIndex. case_decide as Hk.
  - subst. unfold scanPrimary. rewrite delivers_spool. split; [done|].
    apply Hmap. apply (set_sorted_mset _ _ plain_tuple); apply HI.
  - destruct (t_indices T !! key) as [ix|] eqn:E; [|done]. rewrite delivers_spool.
    destruct (ii_second _ _ _ _ HI _ _ E) as [Hp Hs]. split; [|by apply Hmap].
    unfold contents. by rewrite Hp.
Qed.

Lemma scan_correct_witness :
  delivers (scan RefTable.links) = [RefTable.link 1 7 1; RefTable.link 2 7 2].
Proof.
  destruct (scan_correct [2%nat] RefTable.links) as [E _]; [apply RefTable.links_inv|].
  rewrite E. vm_compute. reflexivity.
Defined.

(** a range lookup over a secondary index whose bounds are not crossed
    delivers, in index order, exactly the tuples within the bounds, each end
    open or closed as asked and an empty bound meaning infinity. *)
Theorem range_lookup_correct (openL openR : bool) (lb rb : tuple) (k : Key) (ix : list loc)
  (T : table) (HT : table_inv T) (Pl : plain_tuple lb) (Pr : plain_tuple rb)
  (Hix : findSecondaryIndex k T = Some ix) (Hb : bounds_ordered k openL openR lb rb) :
  exists it, range1DLookupSecondary openL lb openR rb k ix T = Ok it
    /\ delivers it = tup (t_heap T) <$> filter (fun p =>
         above_left k openL lb (tup (t_heap T) p) && below_right k openR rb (tup (t_heap T) p) = true) ix
    /\ delivers it ≡ₚ filter (fun u =>
         above_left k openL lb u && below_right k openR rb u = true) (contents T).
Proof.
  pose proof (index_second_plain _ _ _ _ (ti_index _ HT) k ix Hix) as HP.
  destruct (ii_second _ _ _ _ (ti_index _ HT) k ix Hix) as [Hp Hs].
  unfold range1DLookupSecondary.
  fold (left_pos (t_heap T) k ix openL lb). fold (right_pos (t_heap T) k ix openR rb).
  rewrite (proj2 (Nat.leb_le _ _)) by (by apply left_right).
  eexists. split; [reflexivity|]. rewrite delivers_spool, range_bounds by done.
  split; [done|]. unfold contents. rewrite filter_fmap. by rewrite Hp.
Qed.

Lemma range_lookup_correct_witness :
  exists it ix, findSecondaryIndex [2%nat] RefTable.links = Some ix
    /\ range1DLookupSecondary true (RefTable.link 0 6 0) false (RefTable.link 0 7 0)
         [2%nat] ix RefTable.links = Ok it /\ length (delivers it) = 2%nat.
Proof.
  destruct (findSecondaryIndex [2%nat] RefTable.links) as [ix|] eqn:Eix;
    [|vm_compute in Eix; discriminate Eix].
  destruct (range_lookup_correct true false (RefTable.link 0 6 0) (RefTable.link 0 7 0)
    [2%nat] ix RefTable.links) as (it & E & _).
  - apply RefTable.links_inv.
  - vm_decide.
  - vm_decide.
  - exact Eix.
  - right. right. split; [reflexivity|]. intros _ E. discriminate E.
  - exists it, ix. split; [reflexivity|]. split; [exact E|].
    vm_compute in Eix. injection Eix as <-. vm_compute in E. injection E as <-. reflexivity.
Defined.
