(* ===== verification/TableAggs.v ===== *)
(** * Aggregates over tables (src/p2core/commonTable.C, AggregateObj)

    What an aggregate remembers and announces, and two behaviours of the code
    that differ from its documentation: MKSET results are never re-announced,
    and an empty group-by groups by tuple identity. *)

From S2P Require Import Prelude Ids Stl Values Tuples Aggs Keys CommonTable TableInv RefTable.

(** The function run over the values of the group of [t]. *)
Definition group_result (h : gmap loc Entry) (index : list loc) (t : tuple) (a : AggregateObj)
    : res AggFunc :=
  run (a_fn a) (agg_vals (a_aggField a) (group h (a_key a) index t)).

(** Every remembered result is the function object's own set. *)
Definition all_shared (a : AggregateObj) : Prop :=
  Forall (fun tr => tr.2 = SharedSet) (a_current a).

(** How many tuples an aggregate with this key sees for [t]. *)
Definition group_size (h : gmap loc Entry) (key : Key) (index : list loc) (t : tuple) : nat :=
  length (group h key index t).

Lemma agg_inv_weaken t h ixs a : agg_inv h ixs a -> agg_inv_but t h ixs a.
Proof.
  intros [Hs Hr]. split; [done|]. intros ix Hix. eapply Forall_impl; [by apply Hr|]. auto.
Qed.

(** The first element of [links]'s aggregates, for the examples. *)
Definition link_count : AggregateObj :=
  nth 0 (t_aggregates RefTable.links) (mkAgg [] 0 (AggCount 0) [] []).

Lemma link_count_inv :
  agg_inv (t_heap RefTable.links) (t_indices RefTable.links) link_count
  /\ exists ix, t_indices RefTable.links !! a_key link_count = Some ix
     /\ scannable (t_heap RefTable.links) (t_aggregates RefTable.links) (a_key link_count) ix.
Proof.
  pose proof RefTable.links_inv as [(HT & _) _].
  assert (Hin : link_count ∈ t_aggregates RefTable.links) by (vm_compute; left).
  pose proof (ti_aggs _ HT) as HA. rewrite Forall_forall in HA. specialize (HA _ Hin).
  split; [done|]. destruct HA as [([ix Hix] & _) _]. exists ix. split; [done|].
  by apply table_inv_scannable.
Qed.

(** The set that a MKSET computes compares equal to itself. *)
Lemma mkset_self h index t a s fn : a_fn a = AggMkSet s -> Forall (fun p => plain_tuple (tup h p)) index ->
  group_result h index t a = Ok fn -> compareTo (deref fn SharedSet) (deref fn SharedSet) = 0.
Proof.
  unfold group_result. intros Hfn HP Hrun.
  destruct (run_correct (a_fn a) (agg_vals (a_aggField a) (group h (a_key a) index t)))
    as (g & Hg & Hspec); [by apply agg_vals_plain, group_Forall|].
  rewrite Hrun in Hg. injection Hg as <-. rewrite Hfn in Hspec.
  destruct Hspec as (s0 & -> & (Ps & _) & _). exact (List_compareTo_refl s0 Ps).
Qed.

(** The listeners hear the group-by fields of [t] and [w]. *)
Definition told (t : tuple) (a : AggregateObj) (w : value) (evs : list event) : Prop :=
  exists gs, Forall2 (fun n v => fields t !! n = Some v) (a_key a) gs
    /\ evs = call_listeners (a_listeners a) (gs ++ [w]).

(** The value that was remembered for the group of [t] before compares equal to [w]. *)
Definition unchanged (t : tuple) (a : AggregateObj) (w : value) : Prop :=
  exists u v, (u, Direct v) ∈ a_current a /\ same_key (a_key a) t u = true /\ compareTo v w = 0.

(** Who hears of an update: every function but MKSET announces a result that
    changed; MKSET announces the first result of a group and no other. *)
Definition heard (t : tuple) (a : AggregateObj) (fn : AggFunc) (evs : list event) : Prop :=
  if is_mkset (a_fn a)
  then (remembers t a /\ evs = []) \/ (~ remembers t a /\ exists s, fn = AggMkSet s /\ told t a (VSet s) evs)
  else exists w, result fn = Direct w /\ ((unchanged t a w /\ evs = []) \/ (~ unchanged t a w /\ told t a w evs)).

Lemma announced_heard h index t a fn evs :
  (is_mkset (a_fn a) = true -> all_shared a) ->
  (is_mkset (a_fn a) = false -> Forall (fun tr => exists v, tr.2 = Direct v) (a_current a)) ->
  Forall (fun p => plain_tuple (tup h p)) index -> group_result h index t a = Ok fn ->
  announced t a fn evs -> heard t a fn evs.
Proof.
  intros Hsh Hdir HP Hrun Hann. pose proof (run_reset _ _ _ Hrun) as Hreset. unfold heard.
  destruct (is_mkset (a_fn a)) eqn:Em.
  - specialize (Hsh eq_refl). unfold all_shared in Hsh. rewrite Forall_forall in Hsh.
    destruct (a_fn a) eqn:Ea; try done. destruct fn as [| | | |s'|]; try done.
    pose proof (mkset_self h index t a _ _ Ea HP Hrun) as Hself.
    destruct Hann as [(-> & tr & Htr & Hk & _)|(gs & Hgs & -> & Hne)].
    + left. split; [|done]. apply Exists_exists. by exists tr.
    + right. split; [|by eexists; split; [done|]; exists gs].
      intros (tr & Htr & Hk)%Exists_exists. rewrite Forall_forall in Hne. apply (Hne tr Htr Hk).
      by rewrite (Hsh tr Htr).
  - specialize (Hdir eq_refl). rewrite Forall_forall in Hdir.
    assert (exists w, result fn = Direct w) as (w & Ew)
      by (destruct (a_fn a); try done; destruct fn; try done; by eexists).
    exists w. split; [done|]. destruct Hann as [(-> & tr & Htr & Hk & Hc)|(gs & Hgs & -> & Hne)]; rewrite Ew in *.
    + left. split; [|done]. destruct (Hdir tr Htr) as (v & Ev), tr as [u r]. cbn in *. subst r. by exists u, v.
    + right. split; [|by exists gs]. intros (u & v & Hin & Hk & Hc). rewrite Forall_forall in Hne. by apply (Hne _ Hin Hk).
Qed.

(** C5: when a tuple entered or left the index of an aggregate,
    [AggregateObj::update] returns; the new result is the aggregate function
    run over the values of the tuple's group in index order.  For every function
    but MKSET the listeners receive the group-by fields and that result exactly
    when the value remembered for the group before, if any, does not compare equal
    to it; MKSET tells them its first result of a group and nothing afterwards.
    Afterwards every result remembered by a function other than MKSET equals the
    function's value on its group, and one is remembered for the group of [t]. *)
Theorem aggregate_update_correct (h : gmap loc Entry) (ixs : gmap Key (list loc))
  (index : list loc) (t : tuple) (a : AggregateObj)
  (Hix : ixs !! a_key a = Some index) (Hsc : scannable h [a] (a_key a) index)
  (Pt : plain_tuple t) (Wt : wide a t) (Ha : agg_inv_but t h ixs a)
  (Hshared : is_mkset (a_fn a) = true -> all_shared a) :
  exists a' evs fn, AggregateObj_update h index t a = Ok (a', evs)
    /\ group_result h index t a = Ok fn
    /\ heard t a fn evs /\ same_agg a a' /\ agg_inv h ixs a' /\ remembers t a'.
Proof.
  destruct Ha as [(_ & Hs & HP & HD) Hrem], Hsc as (S1 & S2 & S3).
  assert (S3' : Forall (fun p => wide a (tup h p)) index).
  { eapply Forall_impl; [exact S3|]. intros p Hp. by apply Forall_cons in Hp as [? _]. }
  destruct (agg_run h index t a) as (fn & Hrun & _); auto.
  destruct (AggregateObj_update_ok h index t a) with (fn := fn)
    as (a' & ev & Hu & Hsame & (C1 & C2 & C3 & C4 & C5) & Hann); auto.
  exists a', ev, fn. split_and!; auto; [by eapply announced_heard|]. destruct Hsame as (E1 & _).
  unfold agg_inv, agg_shape. rewrite E1. split; [by split_and!|]. intros ix Hix'. congruence.
Qed.

Lemma aggregate_update_correct_witness :
  exists ix a' evs, t_indices RefTable.links !! [2%nat] = Some ix /\
    AggregateObj_update (t_heap RefTable.links) ix (RefTable.link 1 7 1) link_count
    = Ok (a', evs) /\ remembers (RefTable.link 1 7 1) a'.
Proof.
  destruct link_count_inv as [HA (ix & Hix & Hsc)].
  destruct (aggregate_update_correct (t_heap RefTable.links) (t_indices RefTable.links) ix
    (RefTable.link 1 7 1) link_count) as (a' & evs & fn & E & _ & _ & _ & _ & Hr).
  - exact Hix.
  - destruct Hsc as (H1 & H2 & H3). split; [exact H1|]. split; [exact H2|].
    eapply Forall_impl; [exact H3|]. intros p Hp. simpl. constructor; [|constructor].
    rewrite Forall_forall in Hp. apply Hp. vm_compute. left.
  - vm_decide.
  - unfold wide. vm_decide.
  - apply agg_inv_weaken, HA.
  - vm_compute. discriminate.
  - exists ix, a', evs. split; [exact Hix|]. split; [exact E|exact Hr].
Defined.

(** a MKSET aggregate announces a group once only.  [AggMkSet::result]
    hands out the function's own set, so the remembered result is the set just
    computed and always compares equal to it: when a result is remembered for
    the group, no listener is called, whatever the group now holds. *)
Theorem mkset_never_reannounced (h : gmap loc Entry) (index : list loc) (t : tuple)
  (a : AggregateObj) (s : list value) (tr : tuple * aggres)
  (Hfn : a_fn a = AggMkSet s) (Hsc : scannable h [a] (a_key a) index)
  (Pt : plain_tuple t) (Wt : wide a t)
  (Hs : set_sorted (KeyedTupleComparator (a_key a)) fst (a_current a))
  (HP : Forall (fun tr => plain_tuple tr.1) (a_current a))
  (Hshared : all_shared a)
  (Htr : tr ∈ a_current a) (Hk : same_key (a_key a) t tr.1 = true) :
  exists a', AggregateObj_update h index t a = Ok (a', []) /\ a_current a' = a_current a.
Proof.
  destruct Hsc as (S1 & S2 & S3).
  assert (S3' : Forall (fun p => wide a (tup h p)) index).
  { eapply Forall_impl; [exact S3|]. intros p Hp. by apply Forall_cons in Hp as [? _]. }
  destruct (agg_run h index t a) as (fn & Hrun & Hscan); auto.
  pose proof (run_reset _ _ _ Hrun) as Hreset. rewrite Hfn in Hreset.
  destruct fn as [| | | |s'|]; try done.
  unfold AggregateObj_update. rewrite Hscan. simpl.
  pose proof (set_sorted_mset _ _ plain_tuple _ HP Hs) as Ms.
  destruct (set_find (agg_lt a) fst t (a_current a)) as [i|] eqn:Ef.
  - destruct (set_find_Some _ _ _ _ _ Ef) as ([t0 old] & Hi & _). rewrite Hi.
    unfold all_shared in Hshared. rewrite Forall_lookup in Hshared. pose proof (Hshared i _ Hi) as Hold. simpl in Hold.
    subst old. simpl.
    pose proof (mkset_self h index t a s _ Hfn S2 Hrun) as E. simpl in E. rewrite E. simpl. by eexists.
  - exfalso. apply (set_find_None _ _ plain_tuple) in Ef; auto.
    rewrite Forall_forall in Ef. specialize (Ef tr Htr). simpl in Ef. congruence.
Qed.

Lemma mkset_never_reannounced_witness :
  let a := mkAgg [2%nat] 1 (AggMkSet []) [4%nat] [(RefTable.link 1 7 1, SharedSet)] in
  exists ix a', t_indices RefTable.links !! [2%nat] = Some ix
    /\ AggregateObj_update (t_heap RefTable.links) ix (RefTable.link 2 7 2) a = Ok (a', [])
    /\ a_fn a' = AggMkSet [VInt64 1; VInt64 2].
Proof.
  intros a. destruct link_count_inv as [_ (ix & Hix & H1 & H2 & H3)].
  destruct (mkset_never_reannounced (t_heap RefTable.links) ix (RefTable.link 2 7 2) a []
    (RefTable.link 1 7 1, SharedSet)) as (a' & E & _).
  - reflexivity.
  - split; [exact H1|]. split; [exact H2|].
    eapply Forall_impl; [exact H3|]. intros p Hp. simpl. constructor; [|constructor].
    rewrite Forall_forall in Hp. apply (Hp link_count). vm_compute. left.
  - vm_decide.
  - unfold wide. vm_decide.
  - unfold set_sorted. repeat constructor.
  - vm_decide.
  - repeat constructor.
  - left.
  - reflexivity.
  - exists ix, a'. split; [exact Hix|]. split; [exact E|].
    vm_compute in Hix. injection Hix as <-. vm_compute in E. injection E as <-. reflexivity.
Defined.

(** with an empty group-by key an aggregate does not see the table: the
    comparators treat an empty key as the tuple identity, so the group of a
    tuple holds at most one tuple and a COUNT over it is at most one. *)
Theorem empty_group_by_sees_one (T : table) (ix : list loc) (t : tuple) (HT : table_inv T)
  (Pt : plain_tuple t) (Hix : t_indices T !! [] = Some ix) :
  (group_size (t_heap T) [] ix t <= 1)%nat.
Proof.
  unfold group_size.
  destruct (ii_second _ _ _ _ (ti_index _ HT) [] ix Hix) as [Hp _].
  pose proof (index_nodup _ _ _ _ (ti_index _ HT)) as Hnd. rewrite <- Hp in Hnd.
  unfold group. rewrite length_fmap. set (l := filter _ ix).
  assert (Hl : NoDup l) by (by apply NoDup_filter).
  assert (Hid : forall p, p ∈ l -> p ∈ t_primary T /\ tupleID (tup (t_heap T) p) = tupleID t).
  { intros p [E Hpx]%list_elem_of_filter. rewrite Hp in Hpx. split; [done|].
    pose proof (ii_plain _ _ _ _ (ti_index _ HT)) as HP. rewrite Forall_forall in HP.
    apply same_key_matches in E; auto. }
  destruct l as [|p [|q l']]; simpl; [lia..|exfalso].
  destruct (Hid p) as [Hp1 Hp2]; [by left|]. destruct (Hid q) as [Hq1 Hq2]; [by right; left|].
  assert (p = q) as -> by (apply (ii_ids _ _ _ _ (ti_index _ HT)); auto; congruence).
  apply NoDup_cons in Hl as [Hn _]. apply Hn. by left.
Qed.

Lemma empty_group_by_sees_one_witness :
  let T := (secondaryIndex [] RefTable.links).2 in
  exists ix, t_indices T !! [] = Some ix /\ length ix = 2%nat
    /\ (group_size (t_heap T) [] ix (RefTable.link 1 7 1) <= 1)%nat.
Proof.
  intros T. pose proof RefTable.links_inv as [(HT & _) _].
  destruct (secondaryIndex_inv [] RefTable.links HT) as [HT' [ix Hix]].
  exists ix. split; [exact Hix|]. split.
  - vm_compute in Hix. injection Hix as <-. reflexivity.
  - apply (empty_group_by_sees_one T ix); [exact HT'|vm_decide|exact Hix].
Defined.
