(* ===== verification/Table2.v ===== *)
(** * Soft-state tables (src/p2core/table2.C)

    A [Table2] bounds the number of its tuples and their lifetime.  When it
    does either it is "flushing": every insertion and refresh pushes the entry
    on a queue, and [flush] pops old queue positions.  An entry is freed with its
    last queue position; a removed tuple leaves its entry in the queue with a
    null tuple.

    [t2_queue] lists the deque from [back()] to [front()]: [push_front] appends,
    [back()] is the head, [pop_back] the tail.  Times are integers; each
    operation takes the readings of [getTime] it makes, in order. *)

From S2P Require Import Prelude Ids Stl Values Tuples Aggs Keys CommonTable TableInv RefTable TableLookup.

Module Table2.

(** [boost::posix_time::time_duration] with its infinities. *)
Inductive lifetime := NegInfin | Dur (d : Z) | PosInfin.

Definition is_pos_infinity (l : lifetime) : bool :=
  match l with PosInfin => true | _ => false end.

(** [last->time < now - _maxLifetime] *)
Definition expired (l : lifetime) (now time : Z) : bool :=
  match l with
  | NegInfin => true
  | Dur d => time <? now - d
  | PosInfin => false
  end.

Record table2 := mkTable2 {
  t2_base : table;
  t2_maxSize : Z;
  t2_maxLifetime : lifetime;
  t2_flushing : bool;
  t2_queue : list loc
}.

Definition on_base (f : table -> table) (T : table2) : table2 :=
  mkTable2 (f (t2_base T)) (t2_maxSize T) (t2_maxLifetime T) (t2_flushing T) (t2_queue T).
Definition with_base (b : table) (T : table2) : table2 := on_base (fun _ => b) T.
Definition with_queue (q : list loc) (T : table2) : table2 :=
  mkTable2 (t2_base T) (t2_maxSize T) (t2_maxLifetime T) (t2_flushing T) q.

(** ** Constructors *)

(** Constructor 1: name, key, size, lifetime. *)
Definition mk (tableName : string) (key : Key) (maxSize : Z) (l : lifetime) (sid : Z) : table2 :=
  mkTable2 (CommonTable_new tableName key sid) maxSize l
    ((0 <? maxSize) || negb (is_pos_infinity l)) [].

(** Constructors 2 and 3. *)
Definition mk_unbounded (tableName : string) (key : Key) (sid : Z) : table2 :=
  mk tableName key 0 PosInfin sid.
Definition mk_sized (tableName : string) (key : Key) (maxSize : Z) (sid : Z) : table2 :=
  mk tableName key maxSize PosInfin sid.

(** Constructor 4: [_flushing] is computed from the default (infinite) lifetime,
    before the string is read; [parse] stands for boost's
    [duration_from_string]. *)
Definition mk_from_string (parse : string -> Z) (tableName : string) (key : Key) (maxSize : Z)
    (l : string) (sid : Z) : table2 :=
  let T := mk tableName key maxSize PosInfin sid in
  let max := if decide (l = "+infinity"%string) then PosInfin
             else if decide (l = "-infinity"%string) then NegInfin
             else Dur (parse l) in
  mkTable2 (t2_base T) (t2_maxSize T) max (t2_flushing T) (t2_queue T).

(** ** Entries *)

Definition entry (T : table2) (p : loc) : option Entry := t_heap (t2_base T) !! p.

Definition update_entry (f : Entry -> Entry) (p : loc) (T : table2) : table2 :=
  on_base (fun b => with_heap (alter f p (t_heap b)) b) T.

(** [Table2::flushEntry] of the entry at the back of the queue. *)
Definition flushEntry (e : loc) (T : table2) : res table2 :=
  rbind (of_option UndefinedBehaviour (entry T e)) (fun ent =>
  if 0 <? e_refCount ent
  then Ok (with_queue (tail (t2_queue T)) (update_entry (RefTable.bump (-1)) e T))
  else
    rbind (match e_tuple ent with
           | None => Ok (t2_base T)
           | Some t =>
               rbind (removeTupleOfEntry e (t2_base T)) (fun b =>
               Ok (with_primary (erase_key (KeyedTupleComparator (t_key b)) (tup (t_heap b)) t) b))
           end) (fun b =>
    Ok (with_queue (tail (t2_queue T)) (with_base (delete_entry e b) T)))).

(** [Table2::removeTuple] *)
Definition clear_tuple (e : Entry) : Entry := mkEntry None (e_time e) (e_refCount e).

Definition removeTuple (position : nat) (T : table2) : res table2 :=
  rbind (of_option UndefinedBehaviour (t_primary (t2_base T) !! position)) (fun toKill =>
  rbind (removeTupleOfEntry toKill (t2_base T)) (fun b =>
  let b' := with_primary (delete position) b in
  if t2_flushing T
  then Ok (update_entry clear_tuple toKill (with_base b' T))
  else Ok (with_base (delete_entry toKill b') T))).

(** [Table2::insertTuple] *)
Definition insertTuple (t : tuple) (now : Z) (T : table2) : res table2 :=
  let '(newEntry, b) := new_entry (Entry_new t now) (t2_base T) in
  rbind (commonInsertTuple newEntry t b) (fun b' =>
  let T' := with_base b' T in
  Ok (if t2_flushing T then with_queue (t2_queue T ++ [newEntry]) T' else T')).

(** [Table2::updateTime] *)
Definition refresh (now : Z) (e : Entry) : Entry :=
  mkEntry (e_tuple e) now (u32 (e_refCount e + 1)).

Definition updateTime (e : loc) (now : Z) (T : table2) : table2 :=
  let T1 := with_queue (t2_queue T ++ [e]) (update_entry (refresh now) e T) in
  on_base (fun b => emit (call_listeners (t_refreshListeners b) (fields (tup (t_heap b) e))) b) T1.

(** ** [Table2::flush] *)

(** The first loop: pop while the entry at the back is expired. *)
Fixpoint flush_expired (fuel : nat) (now : Z) (T : table2) : res table2 :=
  match t2_queue T with
  | [] => Ok T
  | last :: _ =>
      match fuel with
      | O => Fail OutOfFuel
      | S fuel' =>
          rbind (of_option UndefinedBehaviour (entry T last)) (fun e =>
          if expired (t2_maxLifetime T) now (e_time e)
          then rbind (flushEntry last T) (flush_expired fuel' now)
          else Ok T)
      end
  end.

(** The second loop: pop while the table is too large. *)
Fixpoint flush_size (fuel : nat) (T : table2) : res table2 :=
  match t2_queue T with
  | [] => Ok T
  | last :: _ =>
      if t2_maxSize T <? Z.of_nat (length (t_primary (t2_base T))) then
        match fuel with
        | O => Fail OutOfFuel
        | S fuel' => rbind (flushEntry last T) (flush_size fuel')
        end
      else Ok T
  end.

Definition flush (now : Z) (T : table2) : res table2 :=
  if negb (t2_flushing T) then Ok T
  else
    rbind (if is_pos_infinity (t2_maxLifetime T) then Ok T
           else flush_expired (length (t2_queue T)) now T) (fun T1 =>
    if 0 <? t2_maxSize T1 then flush_size (length (t2_queue T1)) T1 else Ok T1).

(** ** Insertion and removal *)

(** [Table2::insert]: [now1] and [now3] are read by the two flushes, [now2] by
    the new entry or the refresh. *)
Definition insert (t : tuple) (now1 now2 now3 : Z) (T : table2) : res (bool * table2) :=
  rbind (flush now1 T) (fun T0 =>
  match find_primary t (t2_base T0) with
  | None =>
      rbind (insertTuple t now2 T0) (fun T1 =>
      rbind (flush now3 T1) (fun T2 => Ok (true, T2)))
  | Some found =>
      rbind (of_option UndefinedBehaviour (t_primary (t2_base T0) !! found)) (fun p =>
      if tuple_compareTo (tup (t_heap (t2_base T0)) p) t =? 0
      then Ok (false, if t2_flushing T0 then updateTime p now2 T0 else T0)
      else
        rbind (removeTuple found T0) (fun T1 =>
        rbind (insertTuple t now2 T1) (fun T2 =>
        rbind (flush now3 T2) (fun T3 => Ok (true, T3)))))
  end).

(** [Table2::remove] *)
Definition remove (t : tuple) (now : Z) (T : table2) : res (bool * table2) :=
  rbind (flush now T) (fun T0 =>
  match find_primary t (t2_base T0) with
  | None => Ok (false, T0)
  | Some found => rbind (removeTuple found T0) (fun T1 => Ok (true, T1))
  end).

(** ** Lookups and scans flush first *)

Definition lookup3 (lookupKey indexKey : Key) (t : tuple) (now : Z) (T : table2)
    : res (option IteratorObj * table2) :=
  rbind (flush now T) (fun T0 =>
  rbind (CommonTable.lookup3 lookupKey indexKey t (t2_base T0)) (fun '(it, b) =>
  Ok (it, with_base b T0))).

Definition lookup2 (indexKey : Key) (t : tuple) (now : Z) (T : table2)
    : res (IteratorObj * table2) :=
  rbind (flush now T) (fun T0 =>
  rbind (CommonTable.lookup2 indexKey t (t2_base T0)) (fun it => Ok (it, T0))).

(** The index is passed by reference: the second flush shows in it. *)
Definition range1DLookupSecondary (openL : bool) (lb : tuple) (openR : bool) (rb : tuple)
    (key : Key) (now : Z) (T : table2) : res (IteratorObj * table2) :=
  rbind (flush now T) (fun T0 =>
  rbind (of_option UndefinedBehaviour (t_indices (t2_base T0) !! key)) (fun index =>
  rbind (CommonTable.range1DLookupSecondary openL lb openR rb key index (t2_base T0)) (fun it =>
  Ok (it, T0)))).

Definition range1DLookup (lKey rKey indexKey : Key) (openL openR : bool) (t : tuple)
    (idL idU : Z) (now1 now2 : Z) (T : table2) : res (IteratorObj * table2) :=
  rbind (flush now1 T) (fun T0 =>
  rbind (range1DBounds lKey rKey indexKey t idL idU) (fun '(eL, eU) =>
  match t_indices (t2_base T0) !! indexKey with
  | None => Fail AssertFailed
  | Some _ => range1DLookupSecondary openL eL openR eU indexKey now2 T0
  end)).

Definition scan_key (key : Key) (now : Z) (T : table2) : res (option IteratorObj * table2) :=
  rbind (flush now T) (fun T0 => Ok (CommonTable.scan_key key (t2_base T0), T0)).

Definition scan (now : Z) (T : table2) : res (IteratorObj * table2) :=
  rbind (flush now T) (fun T0 => Ok (CommonTable.scan (t2_base T0), T0)).

(** ** Destruction *)

(** Popping the queue frees every entry with its last position. *)
Fixpoint free_queue (q : list loc) (h : gmap loc Entry) : res (gmap loc Entry) :=
  match q with
  | [] => Ok h
  | toKill :: q' =>
      rbind (of_option UndefinedBehaviour (h !! toKill)) (fun e =>
      if 0 <? e_refCount e then free_queue q' (alter (RefTable.bump (-1)) toKill h)
      else free_queue q' (delete toKill h))
  end.

(** [Table2::~Table2]: the heap that is left of the table's entries. *)
Definition destroy (T : table2) : res (gmap loc Entry) :=
  let b := t2_base T in
  if t2_flushing T then free_queue (t2_queue T) (t_heap b)
  else rbind (free_primary (length (t_primary b)) (t_key b) (t_primary b) (t_heap b))
         (fun '(_, h) => Ok h).

(** ** Invariant *)

(** How often an entry is in the queue. *)
Definition occ (p : loc) (q : list loc) : Z := Z.of_nat (length (filter (fun r => r = p) q)).

(** A flushing table: the reference count of an entry is the number of its other
    queue positions, the entries that still hold a tuple are those of the
    primary index, and the heap holds nothing else. *)
Record queue_inv (h : gmap loc Entry) (prim q : list loc) : Prop := mkQueueInv {
  q_count : forall p e, h !! p = Some e -> 0 <= e_refCount e /\ occ p q = e_refCount e + 1;
  q_tuple : forall p e, h !! p = Some e -> is_Some (e_tuple e) <-> p ∈ prim;
  q_heap : forall p, p ∈ q -> is_Some (h !! p);
  q_bound : Z.of_nat (length q) < 2 ^ 32
}.

Record inv (T : table2) : Prop := mkInv {
  i_table : table_inv (t2_base T);
  i_size : 0 <= t2_maxSize T;
  i_flush : 0 < t2_maxSize T -> t2_flushing T = true;
  i_queue : if t2_flushing T
            then queue_inv (t_heap (t2_base T)) (t_primary (t2_base T)) (t2_queue T)
            else t2_queue T = [] /\
                 forall p, is_Some (t_heap (t2_base T) !! p) -> p ∈ t_primary (t2_base T)
}.

Definition same_config2 (T T' : table2) : Prop :=
  same_config (t2_base T) (t2_base T') /\ t2_maxSize T' = t2_maxSize T
  /\ t2_maxLifetime T' = t2_maxLifetime T /\ t2_flushing T' = t2_flushing T.

(** Only old queue positions were popped: the table keeps exactly the entries
    that are still queued, with their tuples and times. *)
Definition pops (T T' : table2) : Prop :=
  same_config2 T T' /\ (exists pre, t2_queue T = pre ++ t2_queue T')
  /\ t_primary (t2_base T') = filter (fun p => p ∈ t2_queue T') (t_primary (t2_base T))
  /\ (forall p e', entry T' p = Some e' -> exists e, entry T p = Some e
        /\ e_tuple e = e_tuple e' /\ e_time e = e_time e').

(** ** Queue lemmas *)

Lemma occ_cons p r q : occ p (r :: q) = (if decide (r = p) then 1 else 0) + occ p q.
Proof. unfold occ. rewrite filter_cons. case_decide; simpl length; lia. Qed.

Lemma occ_app p q1 q2 : occ p (q1 ++ q2) = occ p q1 + occ p q2.
Proof. unfold occ. rewrite filter_app, length_app. lia. Qed.

Lemma occ_nonneg p q : 0 <= occ p q.
Proof. unfold occ. lia. Qed.

Lemma occ_pos p q : 0 < occ p q <-> p ∈ q.
Proof.
  induction q as [|r q IH]; [unfold occ; simpl; rewrite elem_of_nil; lia|].
  rewrite occ_cons, elem_of_cons.
  pose proof (occ_nonneg p q). case_decide as Hd; [subst; split; [by left|lia]|].
  rewrite Z.add_0_l, IH. intuition congruence.
Qed.

Lemma occ_le p q : occ p q <= Z.of_nat (length q).
Proof.
  induction q as [|r q IH]; [done|]. rewrite occ_cons. simpl length. case_decide; lia.
Qed.

(** The entries of a flushing table are queued. *)
Lemma primary_queued T p : inv T -> t2_flushing T = true -> p ∈ t_primary (t2_base T) ->
  p ∈ t2_queue T.
Proof.
  intros [HT _ _ HQ] Hf Hp. rewrite Hf in HQ.
  pose proof (ii_live _ _ _ _ (ti_index _ HT)) as HL. rewrite Forall_forall in HL.
  destruct (HL p Hp) as (e & t & He & _). destruct (q_count _ _ _ HQ p e He).
  apply occ_pos. lia.
Qed.

#[export] Instance same_config2_preorder : PreOrder same_config2.
Proof.
  split.
  - intros T. by split_and!.
  - intros T1 T2 T3 (A1 & A2 & A3 & A4) (B1 & B2 & B3 & B4). split_and!; try congruence. by etrans.
Qed.

Lemma config_trans3 T1 T2 T3 T4 : same_config2 T1 T2 -> same_config2 T2 T3 ->
  same_config2 T3 T4 -> same_config2 T1 T4.
Proof. intros H1 H2 H3. transitivity T2; [done|]. by transitivity T3. Qed.

Lemma pops_refl T : inv T -> t2_flushing T = true -> pops T T.
Proof.
  intros HI Hf. split_and!; try done.
  - by exists [].
  - symmetry. apply filter_all, Forall_forall. intros p Hp. by apply primary_queued.
  - eauto.
Qed.

Lemma pops_trans T1 T2 T3 : pops T1 T2 -> pops T2 T3 -> pops T1 T3.
Proof.
  intros (A1 & [pre1 A2] & A3 & A4) (B1 & [pre2 B2] & B3 & B4). split_and!.
  - by etrans.
  - exists (pre1 ++ pre2). by rewrite <- app_assoc, <- B2.
  - rewrite B3, A3, list_filter_filter. apply filter_ext, Forall_forall.
    intros p _. split; [by intros []|]. intros Hp. split; [done|].
    rewrite B2. apply elem_of_app. by right.
  - intros p e'' He. destruct (B4 p e'' He) as (e' & He' & E1 & E2).
    destruct (A4 p e' He') as (e & He0 & E3 & E4). exists e. split_and!; congruence.
Qed.

(** ** [flushEntry] *)

Lemma bump_inv T p q : inv T -> t2_flushing T = true -> t2_queue T = p :: q ->
  forall e, entry T p = Some e -> 0 < e_refCount e ->
  let T' := with_queue q (update_entry (RefTable.bump (-1)) p T) in inv T' /\ pops T T'.
Proof.
  intros HI Hf Hq e He Hc T'. pose proof HI as [HT Hm Hms HQ]. rewrite Hf in HQ.
  destruct (q_count _ _ _ HQ p e He) as [_ Ho]. rewrite Hq, occ_cons in Ho.
  case_decide; [|done].
  assert (Hpq : p ∈ q) by (apply occ_pos; lia).
  assert (Hlen : Z.of_nat (length q) < 2 ^ 32).
  { pose proof (q_bound _ _ _ HQ) as Hb. rewrite Hq in Hb. simpl length in Hb. lia. }
  pose proof (occ_le p q) as Hle.
  assert (Hent : forall r e', entry T' r = Some e' -> exists e0, entry T r = Some e0
    /\ e_tuple e0 = e_tuple e' /\ e_time e0 = e_time e'
    /\ e_refCount e' = e_refCount e0 - (if decide (r = p) then 1 else 0)).
  { intros r e' Hr. unfold entry in *. simpl in Hr. case_decide as Hrp; subst.
    - rewrite lookup_alter_eq in Hr. rewrite He in Hr. injection Hr as <-.
      exists e. simpl. rewrite u32_small by (unfold is_u32; lia). split_and!; auto.
    - rewrite lookup_alter_ne in Hr by done. exists e'. split_and!; auto. lia. }
  split.
  - split; simpl; auto; [by apply (RefTable.table_inv_add_ref (-1) p)|].
    rewrite Hf. split.
    + intros r e' Hr. destruct (Hent r e' Hr) as (e0 & He0 & _ & _ & E).
      destruct (q_count _ _ _ HQ r e0 He0) as [H1 H2]. rewrite Hq, occ_cons in H2.
      destruct (decide (r = p)), (decide (p = r)); try congruence; try lia. subst r.
      unfold entry in He, He0. rewrite He in He0. injection He0 as <-. lia.
    + intros r e' Hr. destruct (Hent r e' Hr) as (e0 & He0 & E & _ & _). rewrite <- E.
      by apply (q_tuple _ _ _ HQ).
    + intros r Hr. destruct (q_heap _ _ _ HQ r) as [e0 He0]; [rewrite Hq; by right|].
      destruct (decide (p = r)) as [->|].
      * rewrite lookup_alter_eq, He0. by eexists.
      * rewrite lookup_alter_ne by done. by eexists.
    + done.
  - split_and!; simpl; try done.
    + by exists [p].
    + symmetry. apply filter_all, Forall_forall. intros r Hr.
      pose proof (primary_queued T r HI Hf Hr) as Hrq. rewrite Hq in Hrq.
      by apply elem_of_cons in Hrq as [->|].
    + intros r e' Hr. destruct (Hent r e' Hr) as (e0 & He0 & E1 & E2 & _). eauto.
Qed.

Lemma free_entry_inv T p q e b : inv T -> t2_flushing T = true -> t2_queue T = p :: q ->
  entry T p = Some e -> e_refCount e = 0 ->
  table_inv b -> same_config (t2_base T) b -> t_heap b = t_heap (t2_base T) ->
  t_primary b = without p (t_primary (t2_base T)) ->
  let T' := with_queue q (with_base (delete_entry p b) T) in inv T' /\ pops T T'.
Proof.
  intros HI Hf Hq He Hc HTb Hsame Hh Hp T'. pose proof HI as [HT Hm Hms HQ]. rewrite Hf in HQ.
  destruct (q_count _ _ _ HQ p e He) as [_ Ho]. rewrite Hq, occ_cons in Ho.
  case_decide; [|done].
  assert (Hpq : p ∉ q) by (rewrite <- occ_pos; lia).
  assert (Hno : p ∉ t_primary b) by (rewrite Hp, list_elem_of_filter; by intros []).
  assert (Hent : forall r e', entry T' r = Some e' -> r <> p /\ entry T r = Some e').
  { intros r e' Hr. unfold entry in *. simpl in Hr. rewrite Hh in Hr.
    by apply lookup_delete_Some in Hr as [? ?]. }
  split.
  - split; simpl; auto; [by apply table_inv_delete|]. rewrite Hf. split.
    + intros r e' Hr. destruct (Hent r e' Hr) as [Hne Hr'].
      destruct (q_count _ _ _ HQ r e' Hr') as [H1 H2]. rewrite Hq, occ_cons in H2.
      case_decide; [congruence|]. lia.
    + intros r e' Hr. destruct (Hent r e' Hr) as [Hne Hr'].
      rewrite (q_tuple _ _ _ HQ r e' Hr'), Hp, list_elem_of_filter. tauto.
    + intros r Hr. destruct (q_heap _ _ _ HQ r) as [e0 He0]; [rewrite Hq; by right|].
      exists e0. rewrite Hh, lookup_delete_ne; [done|]. by intros ->.
    + pose proof (q_bound _ _ _ HQ) as Hb. rewrite Hq in Hb. simpl length in Hb. lia.
  - split_and!; simpl; try done.
    + by exists [p].
    + rewrite Hp. apply filter_ext, Forall_forall. intros r Hr.
      pose proof (primary_queued T r HI Hf Hr) as Hrq. rewrite Hq in Hrq.
      apply elem_of_cons in Hrq. split; [tauto|]. by intros Hr' ->.
    + intros r e' Hr. destruct (Hent r e' Hr) as [_ Hr']. eauto.
Qed.

Lemma flushEntry_ok T p q : inv T -> t2_flushing T = true -> t2_queue T = p :: q ->
  exists T', flushEntry p T = Ok T' /\ inv T' /\ pops T T' /\ t2_queue T' = q.
Proof.
  intros HI Hf Hq. pose proof HI as [HT Hm Hms HQ]. rewrite Hf in HQ.
  destruct (q_heap _ _ _ HQ p) as [e He]; [rewrite Hq; by left|].
  unfold flushEntry. unfold entry at 1. rewrite He, Hq. simpl.
  destruct (Z.ltb_spec 0 (e_refCount e)) as [Hc|Hc].
  { eexists. split; [reflexivity|].
    destruct (bump_inv T p q HI Hf Hq e He Hc) as [H1 H2]. done. }
  assert (Hc0 : e_refCount e = 0) by (destruct (q_count _ _ _ HQ p e He); lia).
  pose proof (q_tuple _ _ _ HQ p e He) as Htup.
  destruct (e_tuple e) as [t|] eqn:Et.
  - assert (Hp : p ∈ t_primary (t2_base T)) by (apply Htup; by eexists).
    destruct (removeTupleOfEntry_ok (t2_base T) p HT Hp)
      as (b & evs & E & Hcf & HTb & Hh & _ & Hpr & _).
    rewrite E. simpl.
    assert (Hk : t_key b = t_key (t2_base T)) by apply Hcf.
    assert (Herase : erase_key (KeyedTupleComparator (t_key b)) (tup (t_heap b)) t (t_primary b)
      = without p (t_primary b)).
    { rewrite Hk, Hh, Hpr. rewrite <- (tup_Some _ _ _ _ He Et).
      by apply (erase_primary_filter _ _ _ _ (ti_index _ HT)). }
    assert (Eb : with_primary (erase_key (KeyedTupleComparator (t_key b)) (tup (t_heap b)) t) b
      = with_primary (without p) b) by (unfold with_primary; by rewrite Herase).
    rewrite Eb. eexists. split; [reflexivity|].
    destruct (free_entry_inv T p q e (with_primary (without p) b)) as [H1 H2]; auto.
    simpl. by rewrite Hpr.
  - simpl. eexists. split; [reflexivity|].
    destruct (free_entry_inv T p q e (t2_base T)) as [H1 H2]; auto.
    + reflexivity.
    + symmetry. apply filter_all, Forall_forall. intros r Hr ->.
      apply Htup in Hr. by destruct Hr.
Qed.

(** ** [flush] *)

Fixpoint drop_while {A} (f : A -> bool) (l : list A) : list A :=
  match l with [] => [] | a :: l' => if f a then drop_while f l' else l end.

Definition time_of (T : table2) (p : loc) : Z :=
  match entry T p with Some e => e_time e | None => 0 end.

Lemma pops_time T T' p : pops T T' -> is_Some (entry T' p) -> time_of T' p = time_of T p.
Proof.
  intros (_ & _ & _ & H) [e' He']. destruct (H p e' He') as (e & He & _ & Ht).
  unfold time_of. by rewrite He, He'.
Qed.

Lemma queue_entry T p : inv T -> t2_flushing T = true -> p ∈ t2_queue T -> is_Some (entry T p).
Proof. intros [_ _ _ HQ] Hf Hp. rewrite Hf in HQ. by apply HQ. Qed.

Lemma pops_flushing T T' : pops T T' -> t2_flushing T' = t2_flushing T.
Proof. by intros ((_ & _ & _ & H) & _). Qed.

Lemma drop_while_ext {A} (f g : A -> bool) l : Forall (fun a => f a = g a) l ->
  drop_while f l = drop_while g l.
Proof. induction 1 as [|a l Ha _ IH]; simpl; [done|]. by rewrite Ha, IH. Qed.

(** The first loop pops exactly the leading expired positions. *)
Lemma flush_expired_ok fuel now T : inv T -> t2_flushing T = true ->
  (length (t2_queue T) <= fuel)%nat ->
  exists T', flush_expired fuel now T = Ok T' /\ inv T' /\ pops T T'
    /\ t2_queue T' = drop_while (fun p => expired (t2_maxLifetime T) now (time_of T p)) (t2_queue T).
Proof.
  revert T. induction fuel as [|fuel IH]; intros T HI Hf Hfuel; simpl;
    destruct (t2_queue T) as [|p q] eqn:Hq; simpl in *; try lia.
  - exists T. split_and!; auto. by apply pops_refl.
  - exists T. split_and!; auto. by apply pops_refl.
  - destruct (queue_entry T p HI Hf) as [e He]; [rewrite Hq; by left|].
    unfold time_of at 1. rewrite He. simpl.
    destruct (expired (t2_maxLifetime T) now (e_time e)).
    + destruct (flushEntry_ok T p q HI Hf Hq) as (T1 & E & HI1 & Hp1 & Hq1).
      rewrite E. simpl. pose proof (pops_flushing _ _ Hp1) as Hf1. rewrite Hf in Hf1.
      destruct (IH T1 HI1 Hf1) as (T2 & E2 & HI2 & Hp2 & Hq2); [rewrite Hq1; lia|].
      exists T2. split_and!; auto; [by eapply pops_trans|].
      rewrite Hq2, Hq1. assert (Hml : t2_maxLifetime T1 = t2_maxLifetime T) by apply Hp1.
      rewrite Hml. apply drop_while_ext, Forall_forall. intros r Hr.
      rewrite (pops_time T T1); [done|done|]. apply queue_entry; auto. by rewrite Hq1.
    + exists T. split_and!; auto. by apply pops_refl.
Qed.

(** The second loop stops as soon as the table is small enough. *)
Lemma flush_size_ok fuel T : inv T -> t2_flushing T = true ->
  (length (t2_queue T) <= fuel)%nat ->
  exists T', flush_size fuel T = Ok T' /\ inv T' /\ pops T T'
    /\ Z.of_nat (length (t_primary (t2_base T'))) <= t2_maxSize T
    /\ (t2_queue T' = t2_queue T \/ exists pre p, t2_queue T = pre ++ p :: t2_queue T'
         /\ t2_maxSize T < Z.of_nat (length (filter (fun r => r ∈ p :: t2_queue T')
              (t_primary (t2_base T))))).
Proof.
  assert (Hstop : forall T, inv T -> t2_flushing T = true ->
    (t2_queue T = [] \/ Z.of_nat (length (t_primary (t2_base T))) <= t2_maxSize T) ->
    Z.of_nat (length (t_primary (t2_base T))) <= t2_maxSize T).
  { intros U HI Hf [Hq|]; [|done]. destruct (t_primary (t2_base U)) as [|r l] eqn:E.
    - simpl. apply HI.
    - exfalso. assert (Hr : r ∈ t_primary (t2_base U)) by (rewrite E; by left).
      pose proof (primary_queued U r HI Hf Hr) as H. rewrite Hq in H.
      by apply not_elem_of_nil in H. }
  revert T. induction fuel as [|fuel IH]; intros T HI Hf Hfuel; simpl;
    destruct (t2_queue T) as [|p q] eqn:Hq; simpl in *; try lia.
  1, 2: exists T; split_and!; auto; by apply pops_refl.
  destruct (Z.ltb_spec (t2_maxSize T) (Z.of_nat (length (t_primary (t2_base T))))) as [Hbig|Hok].
  - destruct (flushEntry_ok T p q HI Hf Hq) as (T1 & E & HI1 & Hp1 & Hq1).
    rewrite E. simpl. pose proof (pops_flushing _ _ Hp1) as Hf1. rewrite Hf in Hf1.
    destruct (IH T1 HI1 Hf1) as (T2 & E2 & HI2 & Hp2 & Hsz & Hmin); [rewrite Hq1; lia|].
    assert (Hms : t2_maxSize T1 = t2_maxSize T) by apply Hp1. rewrite Hms in *.
    exists T2. split_and!; auto; [by eapply pops_trans|]. right.
    destruct Hmin as [Hq2|(pre & r & Hq2 & Hr)].
    + exists [], p. rewrite Hq2, Hq1. split; [done|].
      rewrite filter_all; [done|]. apply Forall_forall. intros r Hr.
      rewrite <- Hq. by apply primary_queued.
    + exists (p :: pre), r. rewrite <- Hq1, Hq2. split; [done|].
      assert (Hpr : t_primary (t2_base T1)
        = filter (fun x => x ∈ t2_queue T1) (t_primary (t2_base T))) by apply Hp1.
      rewrite Hpr, list_filter_filter in Hr.
      erewrite filter_ext; [exact Hr|]. apply Forall_forall. intros x _.
      split; [|by intros []]. intros Hx. split; [done|]. rewrite Hq2.
      apply elem_of_app. by right.
  - exists T. split_and!; auto. by apply pops_refl.
Qed.

(** What [flush] leaves: the queue without its leading expired positions, and
    no more tuples than allowed. *)
Definition flushed (now : Z) (T T' : table2) : Prop :=
  exists q, q = drop_while (fun p => expired (t2_maxLifetime T) now (time_of T p)) (t2_queue T)
  /\ (0 < t2_maxSize T -> Z.of_nat (length (t_primary (t2_base T'))) <= t2_maxSize T)
  /\ (t2_queue T' = q \/ 0 < t2_maxSize T /\ exists pre p, q = pre ++ p :: t2_queue T'
         /\ t2_maxSize T < Z.of_nat (length (filter (fun r => r ∈ p :: t2_queue T')
              (t_primary (t2_base T))))).

Lemma drop_while_none {A} (l : list A) : drop_while (fun _ => false) l = l.
Proof. by destruct l. Qed.

Lemma flush_ok now T : inv T ->
  exists T', flush now T = Ok T' /\ inv T' /\
    if t2_flushing T then pops T T' /\ flushed now T T' else T' = T.
Proof.
  intros HI. unfold flush. destruct (t2_flushing T) eqn:Hf; simpl; [|eauto].
  assert (H1 : exists T1, (if is_pos_infinity (t2_maxLifetime T) then Ok T
      else flush_expired (length (t2_queue T)) now T) = Ok T1 /\ inv T1 /\ pops T T1
    /\ t2_queue T1 = drop_while (fun p => expired (t2_maxLifetime T) now (time_of T p)) (t2_queue T)).
  { destruct (t2_maxLifetime T) eqn:El; simpl is_pos_infinity; cbn [negb].
    1, 2: rewrite <- El; apply flush_expired_ok; auto.
    exists T. split_and!; auto; [by apply pops_refl|]. simpl. by rewrite drop_while_none. }
  destruct H1 as (T1 & -> & HI1 & Hp1 & Hq1). simpl.
  pose proof (pops_flushing _ _ Hp1) as Hf1. rewrite Hf in Hf1.
  assert (Hms : t2_maxSize T1 = t2_maxSize T) by apply Hp1. rewrite Hms.
  destruct (Z.ltb_spec 0 (t2_maxSize T)) as [Hpos|Hzero].
  - destruct (flush_size_ok (length (t2_queue T1)) T1 HI1 Hf1) as (T2 & E2 & HI2 & Hp2 & Hsz & Hmin);
      [done|]. rewrite Hms in *.
    exists T2. split_and!; auto; [by eapply pops_trans|]. eexists. split; [reflexivity|].
    rewrite <- Hq1. split; [done|]. destruct Hmin as [|(pre & p & Hq2 & Hp)]; [by left|].
    right. split; [done|]. exists pre, p. split; [done|].
    assert (Hpr : t_primary (t2_base T1)
      = filter (fun x => x ∈ t2_queue T1) (t_primary (t2_base T))) by apply Hp1.
    rewrite Hpr, list_filter_filter in Hp. erewrite filter_ext; [exact Hp|].
    apply Forall_forall. intros x _. split; [|by intros []]. intros Hx. split; [done|].
    rewrite Hq2. apply elem_of_app. by right.
  - exists T1. split_and!; auto. eexists. split; [reflexivity|]. split; [lia|]. by left.
Qed.

(** ** The steps of [insert] and [remove] *)

(** The tuples of the table in primary order. *)
Abbreviation contents2 T := (contents (t2_base T)).

Lemma contents_filter T p :
  tup (t_heap (t2_base T)) <$> without p (t_primary (t2_base T)) ⊆ contents2 T.
Proof.
  intros u Hu. apply list_elem_of_fmap in Hu as (q & -> & [_ Hq]%list_elem_of_filter).
  by apply list_elem_of_fmap_2.
Qed.

Definition has_room (T : table2) : Prop := Z.of_nat (length (t2_queue T)) + 1 < 2 ^ 32.

Lemma table_inv_old b p e : table_inv b -> t_heap b !! p = Some e -> p <> t_next b.
Proof. intros HT He. assert (p < t_next b)%nat by (apply (ti_fresh _ HT); eauto). lia. Qed.

(** A new entry enters the queue once. *)
Lemma queue_inv_push h h' prim prim' q n t now : queue_inv h prim q ->
  Z.of_nat (length q) + 1 < 2 ^ 32 -> (forall e, h !! n = Some e -> False) ->
  h' !! n = Some (Entry_new t now) -> (forall p, p <> n -> h' !! p = h !! p) ->
  prim' ≡ₚ n :: prim -> queue_inv h' prim' (q ++ [n]).
Proof.
  intros HQ Hroom Hfresh Hn Hother Hp. split.
  - intros p e He. rewrite occ_app, occ_cons. unfold occ at 2. simpl.
    destruct (decide (p = n)) as [->|Hne].
    + rewrite Hn in He. injection He as <-. simpl. case_decide; [|done].
      assert (Hz : ~ 0 < occ n q).
      { rewrite occ_pos. intros Hin. destruct (q_heap _ _ _ HQ n Hin) as [e He]. eauto. }
      pose proof (occ_nonneg n q). lia.
    + rewrite Hother in He by done. case_decide; [congruence|].
      destruct (q_count _ _ _ HQ p e He). lia.
  - intros p e He. rewrite Hp, elem_of_cons. destruct (decide (p = n)) as [->|Hne].
    + rewrite Hn in He. injection He as <-. split; [by left|by eexists].
    + rewrite Hother in He by done. rewrite (q_tuple _ _ _ HQ p e He). tauto.
  - intros p Hin. apply elem_of_app in Hin as [Hin|Hin%list_elem_of_singleton]; [|subst; eauto].
    destruct (decide (p = n)) as [->|]; [eauto|]. rewrite Hother by done. by apply HQ.
  - rewrite length_app. simpl. lia.
Qed.

(** A removed tuple leaves a cleared entry in the queue. *)
Lemma queue_inv_clear h prim q p : queue_inv h prim q ->
  queue_inv (alter clear_tuple p h) (without p prim) q.
Proof.
  intros HQ.
  assert (Hc : forall r e, alter clear_tuple p h !! r = Some e -> exists e0, h !! r = Some e0
    /\ e_refCount e = e_refCount e0 /\ (r = p -> e_tuple e = None)
    /\ (r <> p -> e_tuple e = e_tuple e0)).
  { intros r e Hr. destruct (decide (r = p)) as [->|Hne].
    - rewrite lookup_alter_eq in Hr. destruct (h !! p) as [e0|]; [|done].
      injection Hr as <-. exists e0. by split_and!.
    - rewrite lookup_alter_ne in Hr by done. exists e. by split_and!. }
  split.
  - intros r e Hr. destruct (Hc r e Hr) as (e0 & He0 & -> & _). by apply (q_count _ _ _ HQ).
  - intros r e Hr. destruct (Hc r e Hr) as (e0 & He0 & _ & H1 & H2).
    rewrite list_elem_of_filter. destruct (decide (r = p)) as [->|Hne].
    + rewrite H1 by done. split; [by intros []|tauto].
    + rewrite H2 by done. rewrite (q_tuple _ _ _ HQ r e0 He0). tauto.
  - intros r Hr. destruct (q_heap _ _ _ HQ r Hr) as [e He]. destruct (decide (r = p)) as [->|].
    + rewrite lookup_alter_eq, He. by eexists.
    + rewrite lookup_alter_ne by done. eauto.
  - apply HQ.
Qed.

Lemma table_inv_clear b p : table_inv b -> p ∉ t_primary b ->
  table_inv (with_heap (alter clear_tuple p (t_heap b)) b).
Proof.
  intros HT Hno. apply table_inv_heap; [done| |].
  - apply Forall_forall. intros q Hq. assert (q <> p) by (by intros ->).
    pose proof (ii_live _ _ _ _ (ti_index _ HT)) as HL. rewrite Forall_forall in HL.
    destruct (HL q Hq) as (e & t & He & Ht). split.
    + exists e, t. split; [|done]. by rewrite lookup_alter_ne.
    + unfold tup. by rewrite lookup_alter_ne.
  - intros q [e He]. apply (ti_fresh _ HT).
    destruct (decide (q = p)) as [->|]; [|rewrite lookup_alter_ne in He by done; eauto].
    rewrite lookup_alter_eq in He. by destruct (t_heap b !! p).
Qed.

Lemma insertTuple_ok t now T : inv T -> has_room T -> plain_tuple t ->
  Forall (fun a => wide a t) (t_aggregates (t2_base T)) ->
  Forall (fun u => same_key (t_key (t2_base T)) t u = false) (contents2 T) ->
  Forall (fun u => tupleID u <> tupleID t) (contents2 T) ->
  let n := t_next (t2_base T) in
  exists T', insertTuple t now T = Ok T' /\ inv T' /\ same_config2 T T'
    /\ t_primary (t2_base T') ≡ₚ n :: t_primary (t2_base T)
    /\ contents2 T' ≡ₚ t :: contents2 T
    /\ t2_queue T' = (if t2_flushing T then t2_queue T ++ [n] else t2_queue T)
    /\ entry T' n = Some (Entry_new t now) /\ (forall p, p <> n -> entry T' p = entry T p).
Proof.
  intros HI Hroom Pt Wt Hk Hid n. pose proof HI as [HT Hm Hms HQ].
  set (b1 := (new_entry (Entry_new t now) (t2_base T)).2).
  assert (E0 : insertTuple t now T = rbind (commonInsertTuple n t b1) (fun b' =>
    Ok (if t2_flushing T then with_queue (t2_queue T ++ [n]) (with_base b' T)
        else with_base b' T))) by done.
  assert (HT1 : table_inv b1) by (by apply table_inv_new).
  assert (Hn : t_heap b1 !! n = Some (Entry_new t now)) by (simpl; by rewrite lookup_insert_eq).
  assert (Hold : forall q, q ∈ t_primary (t2_base T) -> tup (t_heap b1) q = tup (t_heap (t2_base T)) q).
  { intros q Hq. apply tup_insert_ne. by apply primary_old. }
  assert (Hcont : contents b1 = contents2 T).
  { apply list_fmap_ext. intros i q Hq. apply Hold. by eapply list_elem_of_lookup_2. }
  destruct (commonInsertTuple_ok b1 n _ t HT1 Hn) as
    (b' & evs & E & HT' & Hc & Hh & _ & Hp & _); auto; [by rewrite Hcont..|].
  rewrite E0, E. simpl.
  change (t_primary b1) with (t_primary (t2_base T)) in Hp.
  assert (Hother : forall p, p <> n -> t_heap b' !! p = t_heap (t2_base T) !! p).
  { intros p Hp'. rewrite Hh. simpl. by rewrite lookup_insert_ne. }
  assert (Hcont' : contents b' ≡ₚ t :: contents2 T).
  { unfold contents at 1. rewrite Hp, fmap_cons, Hh, (tup_Some _ _ _ _ Hn eq_refl).
    f_equiv. rewrite <- Hcont. done. }
  assert (Hn' : t_heap b' !! n = Some (Entry_new t now)) by (by rewrite Hh).
  eexists. split; [reflexivity|]. destruct (t2_flushing T) eqn:Hf; simpl.
  - split; [|by split_and!; auto]. split; simpl; auto. rewrite Hf.
    eapply queue_inv_push; eauto. by intros e He%(table_inv_old _ _ _ HT).
  - split; [|by split_and!; auto]. split; simpl; auto; rewrite Hf; [done|].
    destruct HQ as [HQ1 HQ2].
    split; [done|]. intros p [e He]. rewrite Hp, elem_of_cons.
    destruct (decide (p = n)); [by left|]. right. rewrite Hother in He by done. eauto.
Qed.

Lemma removeTuple_ok i p T : inv T -> t_primary (t2_base T) !! i = Some p ->
  exists T', removeTuple i T = Ok T' /\ inv T' /\ same_config2 T T'
    /\ t_primary (t2_base T') = without p (t_primary (t2_base T))
    /\ contents2 T' = tup (t_heap (t2_base T)) <$> without p (t_primary (t2_base T))
    /\ t2_queue T' = t2_queue T /\ t_next (t2_base T') = t_next (t2_base T)
    /\ (forall q, q <> p -> entry T' q = entry T q).
Proof.
  intros HI Hi. pose proof HI as [HT Hm Hms HQ]. unfold removeTuple. rewrite Hi. simpl.
  assert (Hp : p ∈ t_primary (t2_base T)) by (by eapply list_elem_of_lookup_2).
  destruct (removeTupleOfEntry_ok (t2_base T) p HT Hp)
    as (b & evs & E & Hc & HTb & Hh & Hn & Hpr & _).
  rewrite E. simpl.
  assert (Eb : with_primary (delete i) b = with_primary (without p) b).
  { unfold with_primary. f_equal. rewrite Hpr.
    by apply (erase_position_filter _ _ _ _ (ti_index _ HT)). }
  rewrite Eb. set (b' := with_primary (without p) b) in *.
  assert (Hno : p ∉ t_primary b') by (simpl; rewrite list_elem_of_filter; by intros []).
  assert (Hpb : t_primary b' = without p (t_primary (t2_base T))) by (simpl; by rewrite Hpr).
  assert (Hcont : forall h', (forall q, q <> p -> tup h' q = tup (t_heap (t2_base T)) q) ->
    tup h' <$> t_primary b' = tup (t_heap (t2_base T)) <$> without p (t_primary (t2_base T))).
  { intros h' Hh'. rewrite Hpb. apply list_fmap_ext. intros j q Hq%list_elem_of_lookup_2.
    apply list_elem_of_filter in Hq as [Hne _]. by apply Hh'. }
  destruct (t2_flushing T) eqn:Hf; (eexists; split; [reflexivity|]).
  - assert (Hother : forall q, q <> p ->
      alter clear_tuple p (t_heap b) !! q = t_heap (t2_base T) !! q).
    { intros q Hne. rewrite lookup_alter_ne by done. by rewrite Hh. }
    split; [split; simpl; auto|split_and!; simpl; auto].
    + by apply (table_inv_clear b').
    + rewrite Hf, Hpr, Hh. by apply queue_inv_clear.
    + split_and!; auto.
    + apply Hcont. intros q Hne. unfold tup. by rewrite Hother.
  - split; [split; simpl; auto|split_and!; simpl; auto].
    + by apply table_inv_delete.
    + by rewrite Hf.
    + rewrite Hf. destruct HQ as [HQ1 HQ2]. split; [done|].
      intros q [e He]. rewrite Hh in He. apply lookup_delete_Some in He as [Hne He].
      rewrite Hpr. apply list_elem_of_filter. split; [done|]. eauto.
    + split_and!; auto.
    + apply Hcont. intros q Hne. simpl. rewrite Hh. by apply tup_delete_ne.
    + intros q Hne. unfold entry. simpl. rewrite Hh. by rewrite lookup_delete_ne.
Qed.

(** A refresh adds a queue position. *)
Lemma queue_inv_refresh h prim q p now : queue_inv h prim q -> is_Some (h !! p) ->
  Z.of_nat (length q) + 1 < 2 ^ 32 -> queue_inv (alter (refresh now) p h) prim (q ++ [p]).
Proof.
  intros HQ [ep Hep] Hroom.
  assert (Hc : forall r e, alter (refresh now) p h !! r = Some e -> exists e0, h !! r = Some e0
    /\ e_tuple e = e_tuple e0
    /\ e_refCount e = if decide (p = r) then u32 (e_refCount e0 + 1) else e_refCount e0).
  { intros r e Hr. case_decide as Hd; [subst|].
    - rewrite lookup_alter_eq, Hep in Hr. injection Hr as <-. exists ep. by split_and!.
    - rewrite lookup_alter_ne in Hr by done. exists e. by split_and!. }
  split.
  - intros r e Hr. destruct (Hc r e Hr) as (e0 & He0 & _ & E).
    destruct (q_count _ _ _ HQ r e0 He0) as [H1 H2]. rewrite occ_app, occ_cons.
    unfold occ at 2. simpl. pose proof (occ_le r q). case_decide.
    + rewrite u32_small in E by (unfold is_u32; lia). lia.
    + lia.
  - intros r e Hr. destruct (Hc r e Hr) as (e0 & He0 & -> & _). by apply (q_tuple _ _ _ HQ).
  - intros r Hr. assert (is_Some (h !! r)) as [e0 He0].
    { apply elem_of_app in Hr as [Hr|Hr%list_elem_of_singleton]; [by apply HQ|subst; eauto]. }
    destruct (decide (p = r)) as [->|].
    + rewrite lookup_alter_eq, He0. by eexists.
    + rewrite lookup_alter_ne by done. eauto.
  - rewrite length_app. simpl. lia.
Qed.

Lemma tup_refresh h p now q : tup (alter (refresh now) p h) q = tup h q.
Proof.
  unfold tup. destruct (decide (p = q)) as [->|].
  - rewrite lookup_alter_eq. by destruct (h !! q).
  - by rewrite lookup_alter_ne.
Qed.

Lemma table_inv_emit evs b : table_inv b -> table_inv (emit evs b).
Proof. by intros [? ? ? ?]. Qed.

Lemma updateTime_ok p now T : inv T -> has_room T -> t2_flushing T = true ->
  p ∈ t_primary (t2_base T) ->
  inv (updateTime p now T) /\ same_config2 T (updateTime p now T)
  /\ contents2 (updateTime p now T) = contents2 T
  /\ t_primary (t2_base (updateTime p now T)) = t_primary (t2_base T)
  /\ t2_queue (updateTime p now T) = t2_queue T ++ [p]
  /\ time_of (updateTime p now T) p = now.
Proof.
  intros HI Hroom Hf Hp. pose proof HI as [HT Hm Hms HQ]. rewrite Hf in HQ.
  pose proof (ii_live _ _ _ _ (ti_index _ HT)) as HL. rewrite Forall_forall in HL.
  destruct (HL p Hp) as (e & t & He & Ht).
  split; [split; simpl; auto|split_and!; simpl; auto].
  - apply table_inv_emit, (table_inv_heap (t2_base T)); [done| |].
    + apply Forall_forall. intros q Hq. split; [|apply tup_refresh].
      destruct (HL q Hq) as (e0 & t0 & He0 & Ht0).
      destruct (decide (p = q)) as [->|].
      * exists (refresh now e0), t0. by rewrite lookup_alter_eq, He0.
      * exists e0, t0. by rewrite lookup_alter_ne.
    + intros q [e0 He0]. apply (ti_fresh _ HT).
      destruct (decide (p = q)) as [->|]; [|rewrite lookup_alter_ne in He0 by done; eauto].
      rewrite lookup_alter_eq in He0. by destruct (t_heap (t2_base T) !! q).
  - rewrite Hf. apply queue_inv_refresh; eauto.
  - by split_and!.
  - apply list_fmap_ext. intros i q _. apply tup_refresh.
  - unfold time_of, entry. simpl. by rewrite lookup_alter_eq, He.
Qed.

(** The youngest entry survives a flush while it is not expired. *)
Lemma drop_while_last {A} (f : A -> bool) l a : f a = false ->
  exists l', drop_while f (l ++ [a]) = l' ++ [a].
Proof.
  intros Hf. induction l as [|b l [l' IH]]; simpl; [rewrite Hf; by exists []|].
  destruct (f b); [by exists l'|]. by exists (b :: l).
Qed.

Lemma flush_keeps_youngest now T T' pre n : inv T -> t2_queue T = pre ++ [n] ->
  n ∈ t_primary (t2_base T) -> expired (t2_maxLifetime T) now (time_of T n) = false ->
  t2_flushing T = true -> flushed now T T' -> pops T T' ->
  n ∈ t_primary (t2_base T') /\ exists pre', t2_queue T' = pre' ++ [n].
Proof.
  intros HI Hq Hn He Hf (q & Hqq & _ & Hcase) Hp.
  destruct (drop_while_last (fun p => expired (t2_maxLifetime T) now (time_of T p)) pre n He)
    as [l' Hl']. rewrite Hq, Hl' in Hqq.
  assert (Hlast : exists pre', t2_queue T' = pre' ++ [n]).
  { destruct Hcase as [->|(Hpos & pr & p & Hq2 & Hbig)]; [by exists l'|].
    destruct (exists_last (l := p :: t2_queue T')) as (l2 & n' & E2); [done|].
    rewrite Hqq, E2, app_assoc in Hq2. apply app_inj_tail in Hq2 as [_ <-].
    destruct (t2_queue T') as [|r q'] eqn:Eq.
    - exfalso. destruct l2 as [|x [|]]; try done. injection E2 as ->.
      pose proof (index_nodup _ _ _ _ (ti_index _ (i_table _ HI))) as Hnd.
      assert (filter (fun r => r ∈ [n]) (t_primary (t2_base T)) = [n]) as E.
      { etrans; [|by apply (NoDup_filter_eq n)].
        apply filter_ext, Forall_forall. intros r _. apply list_elem_of_singleton. }
      rewrite E in Hbig. simpl in Hbig. lia.
    - destruct l2 as [|x l2]; [done|]. injection E2 as -> E2. by exists l2. }
  split; [|done]. destruct Hlast as [pre' Hl]. destruct Hp as (_ & _ & Hpr & _).
  rewrite Hpr. apply list_elem_of_filter. split; [|done]. rewrite Hl.
  apply elem_of_app. right. by left.
Qed.

(** ** [insert] and [remove] *)

(** What the flush at the start of an operation may do. *)
Definition after_flush (now : Z) (T T0 : table2) : Prop :=
  if t2_flushing T then pops T T0 /\ flushed now T T0 else T0 = T.

Lemma pops_contents T T' : inv T' -> pops T T' ->
  contents2 T' = tup (t_heap (t2_base T)) <$> filter (fun p => p ∈ t2_queue T') (t_primary (t2_base T)).
Proof.
  intros HI (_ & _ & Hp & He). unfold contents. rewrite <- Hp. apply list_fmap_ext.
  intros i p Hi%list_elem_of_lookup_2.
  pose proof (ii_live _ _ _ _ (ti_index _ (i_table _ HI))) as HL. rewrite Forall_forall in HL.
  destruct (HL p Hi) as (e & t & Hpe & Ht). destruct (He p e Hpe) as (e0 & He0 & Et & _).
  unfold entry in He0. unfold tup. by rewrite Hpe, He0, Et.
Qed.

Lemma after_flush_facts now T T0 : inv T0 -> after_flush now T T0 ->
  same_config2 T T0 /\ contents2 T0 ⊆ contents2 T
  /\ (length (t2_queue T0) <= length (t2_queue T))%nat.
Proof.
  intros HI H. unfold after_flush in H. destruct (t2_flushing T).
  - destruct H as [Hp _]. rewrite (pops_contents T T0) by done.
    destruct Hp as (Hc & [pre Hq] & _ & _). split; [done|]. split.
    + intros u Hu. apply list_elem_of_fmap in Hu as (q & -> & [_ Hq']%list_elem_of_filter).
      by apply list_elem_of_fmap_2.
    + rewrite Hq, length_app. lia.
  - subst. split_and!; done.
Qed.

Lemma after_flush_insertable now T T0 t : inv T0 -> after_flush now T T0 ->
  insertable (t2_base T) t -> has_room T -> insertable (t2_base T0) t /\ has_room T0.
Proof.
  intros HI Hf (Pt & Wt & Hid) Hroom.
  destruct (after_flush_facts now T T0 HI Hf) as (Hc & Hsub & Hlen). split.
  - split; [done|]. split; [eapply same_agg_wide; [apply Hc|done]|].
    rewrite Forall_forall in Hid |- *. auto.
  - unfold has_room in *. lia.
Qed.

Lemma insertable_ids T t : insertable T t ->
  Forall (fun u => same_key (t_key T) t u = false -> tupleID u <> tupleID t) (contents T).
Proof.
  intros (Pt & _ & Hid). eapply Forall_impl; [exact Hid|]. simpl. intros u Hu Hne E.
  by rewrite RefTable.equal_fields_same_key in Hne; auto.
Qed.

(** The contents when the tuple with the key of [t] is taken out. *)
Lemma contents_without T t i p : table_inv T -> plain_tuple t -> t_primary T !! i = Some p ->
  same_key (t_key T) t (tup (t_heap T) p) = true ->
  tup (t_heap T) <$> without p (t_primary T)
  = filter (fun u => same_key (t_key T) t u = false) (contents T).
Proof.
  intros HT Pt Hi He. rewrite (others_differ T t i p) by done.
  unfold contents. by rewrite filter_fmap.
Qed.

(** Placing a new tuple: [removeTuple] (when its key is taken), then
    [insertTuple]. *)
Definition placed (t : tuple) (now : Z) (T0 T1 : table2) : Prop :=
  inv T1 /\ same_config2 T0 T1
  /\ contents2 T1 ≡ₚ t :: filter (fun u => same_key (t_key (t2_base T0)) t u = false) (contents2 T0)
  /\ exists n, n ∈ t_primary (t2_base T1) /\ tup (t_heap (t2_base T1)) n = t
     /\ time_of T1 n = now
     /\ (t2_flushing T0 = true -> t2_queue T1 = t2_queue T0 ++ [n]).

Lemma place_new t now T0 : inv T0 -> has_room T0 -> insertable (t2_base T0) t ->
  find_primary t (t2_base T0) = None ->
  exists T1, insertTuple t now T0 = Ok T1 /\ placed t now T0 T1.
Proof.
  intros HI Hroom Hins Hf. pose proof (insertable_ids _ _ Hins) as Hids.
  destruct Hins as (Pt & Wt & _). apply find_primary_None in Hf; [|apply HI|done].
  destruct (insertTuple_ok t now T0 HI Hroom Pt Wt Hf) as
    (T1 & E & HI1 & Hc & Hp & Hcont & Hq & Hn & _).
  { rewrite Forall_forall in Hids, Hf |- *. auto. }
  exists T1. split; [done|]. split; [done|]. split; [done|]. split.
  { rewrite filter_all; [done|]. done. }
  exists (t_next (t2_base T0)). split; [rewrite Hp; by left|].
  split; [by apply (tup_Some _ _ _ _ Hn)|]. split; [unfold time_of; by rewrite Hn|].
  intros Hfl. by rewrite Hfl in Hq.
Qed.

Lemma place_over t now T0 i p : inv T0 -> has_room T0 -> insertable (t2_base T0) t ->
  t_primary (t2_base T0) !! i = Some p ->
  same_key (t_key (t2_base T0)) t (tup (t_heap (t2_base T0)) p) = true ->
  exists T1 T2, removeTuple i T0 = Ok T1 /\ insertTuple t now T1 = Ok T2 /\ placed t now T0 T2.
Proof.
  intros HI Hroom Hins Hi He. pose proof (insertable_ids _ _ Hins) as Hids.
  destruct Hins as (Pt & Wt & _).
  destruct (removeTuple_ok i p T0 HI Hi) as (T1 & E1 & HI1 & Hc1 & Hp1 & Hcont1 & Hq1 & Hn1 & _).
  rewrite (contents_without _ t i p) in Hcont1; [|apply HI|done..].
  assert (Hk1 : t_key (t2_base T1) = t_key (t2_base T0)) by apply Hc1.
  assert (Hf1 : t2_flushing T1 = t2_flushing T0) by apply Hc1.
  destruct (insertTuple_ok t now T1) as (T2 & E2 & HI2 & Hc2 & Hp2 & Hcont2 & Hq2 & Hn2 & _); auto.
  - unfold has_room in *. by rewrite Hq1.
  - eapply same_agg_wide; [apply Hc1|done].
  - rewrite Hcont1, Hk1. apply Forall_forall. by intros u [? _]%list_elem_of_filter.
  - rewrite Hcont1. rewrite Forall_forall in Hids |- *.
    intros u [? ?]%list_elem_of_filter. auto.
  - exists T1, T2. split; [done|]. split; [done|]. split; [done|]. split; [by etrans|].
    split; [by rewrite Hcont2, Hcont1|].
    exists (t_next (t2_base T1)). split; [rewrite Hp2; by left|].
    split; [by apply (tup_Some _ _ _ _ Hn2)|]. split; [unfold time_of; by rewrite Hn2|].
    intros Hfl. by rewrite Hf1, Hfl, Hq1 in Hq2.
Qed.

(** An equal tuple is in the table. *)
Definition has_equal (T : table) (t : tuple) : Prop :=
  Exists (fun u => same_key (t_key T) t u = true /\ tuple_compareTo u t = 0) (contents T).

(** The two outcomes of [insert]. *)
Definition insert_outcome (t : tuple) (now2 now3 : Z) (T0 : table2) (b : bool) (T' : table2) : Prop :=
  if b then ~ has_equal (t2_base T0) t /\
            exists T1, placed t now2 T0 T1 /\ flush now3 T1 = Ok T' /\ after_flush now3 T1 T'
  else has_equal (t2_base T0) t /\ contents2 T' = contents2 T0
       /\ (t2_flushing T0 = true -> exists n, n ∈ t_primary (t2_base T')
            /\ tuple_compareTo (tup (t_heap (t2_base T')) n) t = 0
            /\ same_key (t_key (t2_base T0)) t (tup (t_heap (t2_base T')) n) = true
            /\ time_of T' n = now2 /\ t2_queue T' = t2_queue T0 ++ [n]).

Lemma only_equal T t i p : table_inv T -> plain_tuple t -> t_primary T !! i = Some p ->
  same_key (t_key T) t (tup (t_heap T) p) = true -> has_equal T t ->
  tuple_compareTo (tup (t_heap T) p) t = 0.
Proof.
  intros HT Pt Hi He Heq. apply Exists_exists in Heq as (u & Hu & Hk & Hc).
  apply list_elem_of_fmap in Hu as (q & -> & Hq).
  destruct (decide (q = p)) as [->|Hne]; [done|exfalso].
  assert (Hq' : q ∈ without p (t_primary T)) by (by apply list_elem_of_filter).
  rewrite (others_differ T t i p) in Hq' by done.
  apply list_elem_of_filter in Hq' as [? _]. congruence.
Qed.

Lemma insert_ok t now1 now2 now3 T : inv T -> has_room T -> insertable (t2_base T) t ->
  exists b T' T0, insert t now1 now2 now3 T = Ok (b, T') /\ inv T' /\ same_config2 T T'
    /\ flush now1 T = Ok T0 /\ inv T0 /\ after_flush now1 T T0
    /\ insert_outcome t now2 now3 T0 b T'.
Proof.
  intros HI Hroom Hins. unfold insert.
  destruct (flush_ok now1 T HI) as (T0 & E0 & HI0 & Haf). fold (after_flush now1 T T0) in Haf.
  destruct (after_flush_facts _ _ _ HI0 Haf) as (Hc0 & _ & _).
  destruct (after_flush_insertable _ _ _ t HI0 Haf Hins Hroom) as [Hins0 Hroom0].
  rewrite E0. simpl. pose proof Hins0 as (Pt & _ & _).
  destruct (find_primary t (t2_base T0)) as [i|] eqn:Ef.
  - destruct (find_primary_Some _ t i (i_table _ HI0) Pt Ef) as (p & Hi & He). rewrite Hi. simpl.
    assert (Hp : p ∈ t_primary (t2_base T0)) by (by eapply list_elem_of_lookup_2).
    destruct (Z.eqb_spec (tuple_compareTo (tup (t_heap (t2_base T0)) p) t) 0) as [Ec|Ec].
    + assert (Heq : has_equal (t2_base T0) t).
      { apply Exists_exists. exists (tup (t_heap (t2_base T0)) p). split; [|done].
        by apply list_elem_of_fmap_2. }
      destruct (t2_flushing T0) eqn:Hf.
      * destruct (updateTime_ok p now2 T0 HI0 Hroom0 Hf Hp) as (H1 & H2 & H3 & H4 & H5 & H6).
        exists false, (updateTime p now2 T0), T0. split_and!; auto; try by etrans.
        split; [done|]. split; [done|]. intros _. exists p. rewrite H4. split; [done|].
        simpl. rewrite tup_refresh. by split_and!.
      * exists false, T0, T0. split_and!; auto. split; [done|]. split; [done|]. congruence.
    + destruct (place_over t now2 T0 i p HI0 Hroom0 Hins0 Hi He) as (T1 & T2 & E1 & E2 & Hpl).
      rewrite E1. simpl. rewrite E2. simpl. pose proof Hpl as (HI2 & Hc2 & _).
      destruct (flush_ok now3 T2 HI2) as (T3 & E3 & HI3 & Haf3).
      fold (after_flush now3 T2 T3) in Haf3. rewrite E3. simpl.
      exists true, T3, T0. split_and!; auto.
      * destruct (after_flush_facts _ _ _ HI3 Haf3) as (Hc3 & _). by apply (config_trans3 _ T0 T2).
      * split; [|eauto]. intros Heq. apply Ec. eapply only_equal; eauto. apply HI0.
  - destruct (place_new t now2 T0 HI0 Hroom0 Hins0 Ef) as (T2 & E2 & Hpl).
    rewrite E2. simpl. pose proof Hpl as (HI2 & Hc2 & _).
    destruct (flush_ok now3 T2 HI2) as (T3 & E3 & HI3 & Haf3).
    fold (after_flush now3 T2 T3) in Haf3. rewrite E3. simpl.
    exists true, T3, T0. split_and!; auto.
    + destruct (after_flush_facts _ _ _ HI3 Haf3) as (Hc3 & _). by apply (config_trans3 _ T0 T2).
    + split; [|eauto]. apply find_primary_None in Ef; [|apply HI0|done].
      intros Heq. apply Exists_exists in Heq as (u & Hu & Hk & _).
      rewrite Forall_forall in Ef. specialize (Ef u Hu). simpl in Ef. congruence.
Qed.

Lemma remove_ok t now T : inv T -> plain_tuple t ->
  exists b T' T0, remove t now T = Ok (b, T') /\ inv T' /\ same_config2 T T'
    /\ flush now T = Ok T0 /\ inv T0 /\ after_flush now T T0
    /\ contents2 T' = filter (fun u => same_key (t_key (t2_base T)) t u = false) (contents2 T0)
    /\ (b = true <-> Exists (fun u => same_key (t_key (t2_base T)) t u = true) (contents2 T0)).
Proof.
  intros HI Pt. unfold remove.
  destruct (flush_ok now T HI) as (T0 & E0 & HI0 & Haf). fold (after_flush now T T0) in Haf.
  destruct (after_flush_facts _ _ _ HI0 Haf) as (Hc0 & _ & _). rewrite E0. simpl.
  assert (Hk : t_key (t2_base T0) = t_key (t2_base T)) by apply Hc0. rewrite <- Hk.
  destruct (find_primary t (t2_base T0)) as [i|] eqn:Ef.
  - destruct (find_primary_Some _ t i (i_table _ HI0) Pt Ef) as (p & Hi & He).
    destruct (removeTuple_ok i p T0 HI0 Hi) as (T1 & E1 & HI1 & Hc1 & _ & Hcont & _).
    rewrite E1. simpl. exists true, T1, T0. split_and!; auto; [by etrans| |].
    + rewrite Hcont. eapply contents_without; eauto. apply HI0.
    + split; [|done]. intros _. apply Exists_exists.
      exists (tup (t_heap (t2_base T0)) p). split; [|done].
      apply list_elem_of_fmap_2. by eapply list_elem_of_lookup_2.
  - apply find_primary_None in Ef; [|apply HI0|done].
    exists false, T0, T0. split_and!; auto.
    + by rewrite filter_all.
    + split; [done|]. intros Hex. apply Exists_exists in Hex as (u & Hu & Hk').
      rewrite Forall_forall in Ef. specialize (Ef u Hu). simpl in Ef. congruence.
Qed.

(** ** Destruction *)

Lemma free_queue_ok q h :
  (forall p e, h !! p = Some e -> 0 <= e_refCount e < 2 ^ 32 /\ occ p q = e_refCount e + 1) ->
  (forall p, p ∈ q -> is_Some (h !! p)) -> free_queue q h = Ok ∅.
Proof.
  revert h. induction q as [|p q IH]; intros h Hc Hq; simpl.
  { f_equal. apply map_empty. intros p. destruct (h !! p) as [e|] eqn:E; [|done].
    destruct (Hc p e E) as [H1 H2]. unfold occ in H2. simpl in H2. lia. }
  destruct (Hq p) as [e He]; [by left|]. rewrite He. simpl.
  destruct (Hc p e He) as [H1 H2]. rewrite occ_cons in H2. case_decide; [|done].
  destruct (Z.ltb_spec 0 (e_refCount e)) as [Hpos|Hz]; apply IH.
  - intros r e' Hr. destruct (decide (p = r)) as [->|Hne].
    + rewrite lookup_alter_eq, He in Hr. injection Hr as <-. simpl.
      rewrite u32_small by (unfold is_u32; lia). lia.
    + rewrite lookup_alter_ne in Hr by done. destruct (Hc r e' Hr) as [H3 H4].
      rewrite occ_cons in H4. case_decide; [done|]. lia.
  - intros r Hr. destruct (Hq r) as [er Her]; [by right|]. destruct (decide (p = r)) as [->|].
    + rewrite lookup_alter_eq, He. by eexists.
    + rewrite lookup_alter_ne by done. eauto.
  - intros r e' Hr. apply lookup_delete_Some in Hr as [Hne Hr].
    destruct (Hc r e' Hr) as [H3 H4]. rewrite occ_cons in H4. case_decide; [done|]. lia.
  - intros r Hr. assert (r <> p).
    { intros ->. assert (0 < occ p q) by (by apply occ_pos). lia. }
    rewrite lookup_delete_ne by done. apply Hq. by right.
Qed.

Lemma destroy_ok T : inv T -> destroy T = Ok ∅.
Proof.
  intros [HT _ _ HQ]. unfold destroy. destruct (t2_flushing T).
  - apply free_queue_ok; [|apply HQ]. intros p e He.
    destruct (q_count _ _ _ HQ p e He). pose proof (occ_le p (t2_queue T)).
    pose proof (q_bound _ _ _ HQ). lia.
  - destruct HQ as [_ Hdom]. erewrite free_primary_ok; [done| |done|done].
    eapply index_inv_no_second. apply HT.
Qed.

(** ** Reachable tables *)

(** A table is used through its public operations; the side conditions say what
    callers must respect. *)
Inductive step : table2 -> table2 -> Prop :=
  | step_insert T t now1 now2 now3 b T' : has_room T -> insertable (t2_base T) t ->
      insert t now1 now2 now3 T = Ok (b, T') -> step T T'
  | step_remove T t now b T' : plain_tuple t -> remove t now T = Ok (b, T') -> step T T'
  | step_flush T now T' : flush now T = Ok T' -> step T T'
  | step_lookup3 T lk ik t now it T' : lookup3 lk ik t now T = Ok (it, T') -> step T T'
  | step_lookup2 T k t now it T' : lookup2 k t now T = Ok (it, T') -> step T T'
  | step_scan T now it T' : scan now T = Ok (it, T') -> step T T'
  | step_scan_key T k now it T' : scan_key k now T = Ok (it, T') -> step T T'
  | step_index T k : step T (on_base (fun b => (secondaryIndex k b).2) T)
  | step_aggregate T k n f h b :
      Forall (fun t => (n < Tuple_size t)%nat /\ Forall (fun m => m < Tuple_size t)%nat k)
        (contents2 T) ->
      aggregate k n f (t2_base T) = Some (h, b) -> step T (with_base b T)
  | step_updateListener T l : step T (on_base (updateListener l) T)
  | step_removalListener T l : step T (on_base (removalListener l) T)
  | step_refreshListener T l : step T (on_base (refreshListener l) T).

Definition bounded (T : table2) : Prop :=
  0 < t2_maxSize T -> Z.of_nat (length (t_primary (t2_base T))) <= t2_maxSize T.

Lemma mk_inv name key maxSize l sid : 0 <= maxSize -> inv (mk name key maxSize l sid).
Proof.
  intros Hm. destruct (RefTable.ref_mk_inv name key sid) as (HT & _).
  split; simpl; auto.
  - intros Hpos. apply Z.ltb_lt in Hpos. by rewrite Hpos.
  - destruct (_ || _).
    + split; simpl; try (intros p e He; by rewrite lookup_empty in He); try lia.
      intros p Hp. by apply not_elem_of_nil in Hp.
    + split; [done|]. intros p [e He]. by rewrite lookup_empty in He.
Qed.

(** Changing what the queue does not see. *)
Lemma inv_base T b : inv T -> table_inv b -> t_heap b = t_heap (t2_base T) ->
  t_primary b = t_primary (t2_base T) -> inv (with_base b T).
Proof. intros [HT Hm Hms HQ] Hb E1 E2. split; simpl; auto. by rewrite E1, E2. Qed.

Lemma after_flush_bounded now T T' : inv T -> inv T' -> after_flush now T T' -> bounded T'.
Proof.
  intros HI HI' H Hpos. unfold after_flush in H.
  destruct (t2_flushing T) eqn:Hf.
  - destruct H as [Hp (q & _ & Hb & _)].
    assert (E : t2_maxSize T' = t2_maxSize T) by apply Hp. rewrite E in *. auto.
  - subst. pose proof (i_flush _ HI' Hpos). congruence.
Qed.

Lemma insert_bounded t now1 now2 now3 T b T' : inv T -> has_room T ->
  insertable (t2_base T) t -> insert t now1 now2 now3 T = Ok (b, T') -> bounded T'.
Proof.
  intros HI Hroom Hins E.
  destruct (insert_ok t now1 now2 now3 T HI Hroom Hins)
    as (b0 & T0' & T0 & E' & HI' & Hc & _ & HI0 & Haf & Hout).
  rewrite E in E'. injection E' as <- <-. destruct b; simpl in Hout.
  - destruct Hout as (_ & T1 & (HI1 & _) & _ & Haf3). by apply (after_flush_bounded now3 T1).
  - destruct Hout as (_ & Hcont & _). pose proof (after_flush_bounded now1 T T0 HI HI0 Haf) as Hb.
    assert (Hlen : length (t_primary (t2_base T')) = length (t_primary (t2_base T0))).
    { rewrite <- (length_fmap (tup (t_heap (t2_base T')))),
        <- (length_fmap (tup (t_heap (t2_base T0))) (t_primary (t2_base T0))). by f_equal. }
    destruct (after_flush_facts _ _ _ HI0 Haf) as (Hc0 & _).
    assert (E1 : t2_maxSize T' = t2_maxSize T) by apply Hc.
    assert (E2 : t2_maxSize T0 = t2_maxSize T) by apply Hc0.
    unfold bounded in *. rewrite E1, Hlen, <- E2. done.
Qed.

Lemma flush_step now T T' : inv T -> flush now T = Ok T' -> inv T' /\ bounded T'.
Proof.
  intros HI E. destruct (flush_ok now T HI) as (T0 & E0 & HI0 & Haf).
  rewrite E in E0. injection E0 as <-. split; [done|]. by eapply (after_flush_bounded now T).
Qed.

(** Rule by rule, the public operations preserve the invariant and the size
    bound. *)
Lemma step_inv T T' : step T T' -> inv T -> bounded T -> inv T' /\ bounded T'.
Proof.
  intros Hstep HI Hb. destruct Hstep.
  - split; [|by eapply insert_bounded].
    destruct (insert_ok t now1 now2 now3 T) as (? & ? & ? & E & ? & _); auto. congruence.
  - destruct (remove_ok t now T HI) as (b0 & T1 & T0 & E & HI' & Hc & _ & HI0 & Haf & Hcont & _);
      [done|]. assert (T1 = T') as -> by congruence. split; [done|].
    pose proof (after_flush_bounded _ _ _ HI HI0 Haf) as Hb0. unfold bounded in *.
    destruct (after_flush_facts _ _ _ HI0 Haf) as (Hc0 & _).
    assert (E1 : t2_maxSize T' = t2_maxSize T0) by (destruct Hc as (_ & -> & _), Hc0 as (_ & -> & _); done).
    rewrite E1. intros Hpos. specialize (Hb0 Hpos).
    rewrite <- (length_fmap (tup (t_heap (t2_base T')))).
    fold (contents2 T'). rewrite Hcont.
    pose proof (length_filter (fun u => same_key (t_key (t2_base T)) t u = false) (contents2 T0)) as Hl.
    unfold contents at 2 in Hl. rewrite length_fmap in Hl. lia.
  - by eapply flush_step.
  - unfold lookup3 in H. destruct (flush now T) as [T0|] eqn:E; [|done]. simpl in H.
    destruct (flush_step now T T0 HI E) as [HI0 Hb0].
    destruct (CommonTable.lookup3 lk ik t (t2_base T0)) as [[it0 b]|] eqn:El; [|done].
    injection H as <- <-.
    assert (Hb' : b = t2_base T0 \/ exists s, b = with_lookupSearch s (t2_base T0)).
    { clear -El. unfold CommonTable.lookup3 in El.
      repeat (case_match || (unfold rbind, check in El)); simplify_eq; eauto. }
    destruct Hb' as [->|[s ->]]; (split; [apply inv_base; auto; destruct HI0 as [[] ? ? ?]; by split|done]).
  - unfold lookup2 in H. destruct (flush now T) as [T0|] eqn:E; [|done]. simpl in H.
    destruct (CommonTable.lookup2 k t (t2_base T0)); [|done]. injection H as <- <-.
    by eapply flush_step.
  - unfold scan in H. destruct (flush now T) as [T0|] eqn:E; [|done]. injection H as <- <-.
    by eapply flush_step.
  - unfold scan_key in H. destruct (flush now T) as [T0|] eqn:E; [|done]. injection H as <- <-.
    by eapply flush_step.
  - destruct (secondaryIndex_same k (t2_base T)) as (E1 & E2 & _).
    split; [|unfold bounded in *; simpl; by rewrite E2].
    apply inv_base; auto. by apply secondaryIndex_inv, HI.
  - assert (Hf : is_Some (AggFactory_mk f)).
    { unfold aggregate in H0. destruct (AggFactory_mk f); [by eexists|done]. }
    destruct (aggregate_inv k n f (t2_base T) (i_table _ HI) Hf H) as (b' & E & HT & Hh & Hp & _).
    assert (b' = b) as -> by congruence.
    split; [by apply inv_base|]. unfold bounded in *. simpl. by rewrite Hp.
  - split; [|done]. apply inv_base; auto. by destruct HI as [[] ? ? ?].
  - split; [|done]. apply inv_base; auto. by destruct HI as [[] ? ? ?].
  - split; [|done]. apply inv_base; auto. by destruct HI as [[] ? ? ?].
Qed.

(** ** Insert, then look up *)

(** Exactly one entry matches a key that is present. *)
Lemma only_match T t i p : table_inv T -> plain_tuple t -> t_primary T !! i = Some p ->
  same_key (t_key T) t (tup (t_heap T) p) = true ->
  filter (fun q => same_key (t_key T) t (tup (t_heap T) q) = true) (t_primary T) = [p].
Proof.
  intros HT Pt Hi He. pose proof (index_nodup _ _ _ _ (ti_index _ HT)) as Hnd.
  etrans; [|apply (NoDup_filter_eq p); [done|by eapply list_elem_of_lookup_2]].
  apply filter_ext, Forall_forall. intros q Hq. split; [|by intros ->].
  intros Hs. destruct (decide (q = p)) as [|Hne]; [done|exfalso].
  assert (Hq' : q ∈ without p (t_primary T)) by (by apply list_elem_of_filter).
  rewrite (others_differ T t i p) in Hq' by done.
  apply list_elem_of_filter in Hq' as [? _]. congruence.
Qed.

(** The youngest entry after a flush: where it is, and what it holds. *)
Definition youngest (n : loc) (now : Z) (u : tuple) (T : table2) : Prop :=
  n ∈ t_primary (t2_base T) /\ tup (t_heap (t2_base T)) n = u /\ time_of T n = now
  /\ (t2_flushing T = true -> exists pre, t2_queue T = pre ++ [n]).

Lemma flush_youngest now n at_ u T : inv T -> youngest n at_ u T ->
  expired (t2_maxLifetime T) now at_ = false ->
  exists T', flush now T = Ok T' /\ inv T' /\ same_config2 T T' /\ youngest n at_ u T'.
Proof.
  intros HI (Hn & Hu & Ht & Hq) He.
  destruct (flush_ok now T HI) as (T' & E & HI' & Haf). exists T'. split; [done|]. split; [done|].
  destruct (t2_flushing T) eqn:Hf; [|by subst T'; split; [|by split_and!; auto; rewrite Hf]].
  destruct Haf as [Hp Hfl]. destruct (Hq eq_refl) as [pre Hpre]. split; [apply Hp|].
  rewrite <- Ht in He.
  destruct (flush_keeps_youngest now T T' pre n HI Hpre Hn He Hf Hfl Hp) as [Hn' Hq'].
  assert (Hsome : is_Some (entry T' n)).
  { apply queue_entry; [done|by rewrite (pops_flushing _ _ Hp)|].
    destruct Hq' as [pre' ->]. apply elem_of_app. right. by left. }
  split; [done|]. split_and!; auto.
  - destruct Hsome as [e' He']. destruct Hp as (_ & _ & _ & Hkeep).
    destruct (Hkeep n e' He') as (e & He0 & Et & _). rewrite <- Hu. unfold tup, entry in *.
    by rewrite He0, He', Et.
  - by rewrite (pops_time T T').
Qed.

Lemma insert_survives t now1 now2 now3 now4 T b T' T0 : inv T -> plain_tuple t ->
  inv T' -> same_config2 T T' -> inv T0 -> same_config2 T T0 ->
  insert_outcome t now2 now3 T0 b T' ->
  expired (t2_maxLifetime T) now3 now2 = false -> expired (t2_maxLifetime T) now4 now2 = false ->
  flush now1 T = Ok T0 ->
  exists T'' n, flush now4 T' = Ok T'' /\ inv T'' /\ same_config2 T T''
    /\ n ∈ t_primary (t2_base T'')
    /\ tuple_compareTo (tup (t_heap (t2_base T'')) n) t = 0
    /\ same_key (t_key (t2_base T)) t (tup (t_heap (t2_base T'')) n) = true.
Proof.
  intros HI Pt HI' Hc HI0 Hc0 Hout H3 H4 E0.
  assert (El : t2_maxLifetime T' = t2_maxLifetime T) by apply Hc.
  assert (Ef : t2_flushing T' = t2_flushing T0).
  { transitivity (t2_flushing T); [apply Hc|symmetry; apply Hc0]. }
  assert (Ek : t_key (t2_base T0) = t_key (t2_base T)) by apply Hc0.
  assert (Hy : exists n at_ u, youngest n at_ u T' /\ (t2_flushing T' = true -> at_ = now2)
    /\ tuple_compareTo u t = 0 /\ same_key (t_key (t2_base T)) t u = true).
  { destruct b; simpl in Hout.
    - destruct Hout as (_ & T1 & (HI1 & Hc1 & _ & n & Hn & Hu & Ht & Hq) & E3 & _).
      assert (El1 : t2_maxLifetime T1 = t2_maxLifetime T).
      { transitivity (t2_maxLifetime T0); [apply Hc1|apply Hc0]. }
      assert (Ef1 : t2_flushing T1 = t2_flushing T0) by apply Hc1.
      destruct (flush_youngest now3 n now2 t T1) as (T3 & E3' & _ & _ & Hy3); auto.
      + split_and!; auto. intros Hf. eexists. apply Hq. congruence.
      + by rewrite El1.
      + assert (T3 = T') as -> by congruence. exists n, now2, t. split_and!; auto.
        * by apply RefTable.tuple_compare_fields.
        * by apply RefTable.equal_fields_same_key.
    - destruct Hout as (Heq & Hcont & Hn). destruct (t2_flushing T0) eqn:Hf0.
      + destruct (Hn eq_refl) as (n & Hn1 & Hcmp & Hk & Ht & Hq). rewrite Ek in Hk.
        exists n, now2, (tup (t_heap (t2_base T')) n). split_and!; auto.
        split_and!; eauto.
      + apply Exists_exists in Heq as (u & Hu & Hk & Hcmp). rewrite Ek in Hk.
        rewrite <- Hcont in Hu. apply list_elem_of_fmap in Hu as (n & -> & Hn').
        exists n, (time_of T' n), (tup (t_heap (t2_base T')) n). split_and!; auto; [|congruence].
        split_and!; auto. congruence. }
  destruct Hy as (n & at_ & u & Hy & Hat & Hcmp & Hk).
  destruct (flush_ok now4 T' HI') as (T'' & E4 & HI4 & Haf4).
  destruct (t2_flushing T') eqn:Hf'.
  - rewrite (Hat eq_refl) in Hy.
    destruct (flush_youngest now4 n now2 u T' HI' Hy) as (T4 & E4' & _ & Hc4 & (Y1 & Y2 & _)).
    { by rewrite El. }
    assert (T4 = T'') as -> by congruence. exists T'', n. subst u. do 2 (split; [done|]). split; [by transitivity T'|]. by split_and!.
  - subst T''. destruct Hy as (Y1 & Y2 & _). exists T', n. subst u. by split_and!.
Qed.

(** ** A table to try things on *)

Abbreviation link := RefTable.link.

Definition soft0 : table2 := mk "link" [1%nat] 2 (Dur 10) 0.

Definition run_insert (t : tuple) (now : Z) (T : table2) : table2 :=
  match insert t now now now T with Ok (_, T') => T' | Fail _ => T end.

(** Two links inserted at times 0 and 1. *)
Definition soft1 : table2 := run_insert (link 1 7 1) 0 soft0.
Definition soft2 : table2 := run_insert (link 2 7 2) 1 soft1.
(** The first one refreshed at time 9. *)
Definition soft3 : table2 := run_insert (link 1 7 3) 9 soft2.

Lemma run_insert_inv t now T : inv T -> has_room T -> insertable (t2_base T) t ->
  inv (run_insert t now T).
Proof.
  intros HI Hr Hi. unfold run_insert.
  destruct (insert_ok t now now now T HI Hr Hi) as (b & T' & T0 & E & HI' & _). by rewrite E.
Qed.

Lemma soft_inv : inv soft1 /\ inv soft2 /\ inv soft3.
Proof.
  assert (H0 : inv soft0) by (by apply mk_inv).
  assert (H1 : inv soft1) by (apply run_insert_inv; [done|done|unfold insertable, wide; vm_decide]).
  assert (H2 : inv soft2)
    by (apply run_insert_inv; [done|unfold has_room; vm_decide|unfold insertable, wide; vm_decide]).
  split_and!; auto.
  apply run_insert_inv; [done|unfold has_room; vm_decide|unfold insertable, wide; vm_decide].
Qed.

(** ** Theorems *)

(** C6: [Table2::flush] terminates within one step per queue position, keeps
    the invariant and removes nothing but queued entries: the expiry loop drops
    exactly the leading queue positions whose entries have expired, the size
    loop then drops positions only while the table is larger than its maximum,
    the table afterwards holds exactly the entries that are still queued, and
    it respects the maximum size. *)
Theorem Table2_flush_correct (now : Z) (T : table2) (HI : inv T) (Hf : t2_flushing T = true) :
  exists T', flush now T = Ok T' /\ inv T' /\ bounded T'
    /\ t_primary (t2_base T') = filter (fun p => p ∈ t2_queue T') (t_primary (t2_base T))
    /\ flushed now T T'.
Proof.
  destruct (flush_ok now T HI) as (T' & E & HI' & Haf). exists T'.
  split; [done|]. split; [done|]. split; [by apply (flush_step now T T')|].
  rewrite Hf in Haf. destruct Haf as [Hp Hfl]. split; [apply Hp|done].
Qed.

Lemma Table2_flush_correct_witness :
  exists T', flush 11 soft2 = Ok T' /\ inv T' /\ contents (t2_base T') = [link 2 7 2].
Proof.
  destruct (Table2_flush_correct 11 soft2) as (T' & E & HI & _).
  - apply soft_inv.
  - reflexivity.
  - exists T'. split; [exact E|]. split; [exact HI|].
    vm_compute in E. injection E as <-. vm_compute. reflexivity.
Defined.

(** a flush never drops a tuple early: in a table without a size limit,
    every tuple that [flush] takes out has expired. *)
Theorem Table2_flush_drops_expired_only (now : Z) (T T' : table2) (p : loc) (HI : inv T)
  (Hf : t2_flushing T = true) (Hnolimit : t2_maxSize T = 0) (E : flush now T = Ok T')
  (Hp : p ∈ t_primary (t2_base T)) (Hgone : p ∉ t_primary (t2_base T')) :
  expired (t2_maxLifetime T) now (time_of T p) = true.
Proof.
  destruct (flush_ok now T HI) as (T0 & E0 & HI' & Haf). rewrite Hf in Haf.
  assert (T0 = T') as -> by congruence. destruct Haf as [Hpops (q & Hq & _ & Hcase)].
  destruct Hcase as [Hq'|[? _]]; [|lia].
  assert (Hpr : t_primary (t2_base T')
    = filter (fun r => r ∈ t2_queue T') (t_primary (t2_base T))) by apply Hpops.
  assert (Hnq : p ∉ t2_queue T').
  { intros Hin. apply Hgone. rewrite Hpr. by apply list_elem_of_filter. }
  pose proof (primary_queued T p HI Hf Hp) as Hin. rewrite Hq', Hq in Hnq. clear -Hin Hnq.
  induction (t2_queue T) as [|r l IH]; [by apply not_elem_of_nil in Hin|]. simpl in Hnq.
  destruct (expired (t2_maxLifetime T) now (time_of T r)) eqn:Er; [|done].
  apply elem_of_cons in Hin as [->|Hin]; [done|auto].
Qed.

Lemma Table2_flush_drops_expired_only_witness :
  let T := run_insert (link 1 7 1) 0 (mk "link" [1%nat] 0 (Dur 10) 0) in
  exists T', flush 11 T = Ok T' /\ contents (t2_base T') = []
    /\ expired (t2_maxLifetime T) 11 (time_of T 0) = true.
Proof.
  intros T.
  assert (HI : inv T).
  { apply run_insert_inv; [by apply mk_inv|done|unfold insertable, wide; vm_decide]. }
  destruct (flush 11 T) as [T'|] eqn:E; [|vm_compute in E; discriminate E].
  exists T'. split; [reflexivity|].
  assert (ET : contents (t2_base T') = []).
  { vm_compute in E. injection E as <-. reflexivity. }
  split; [exact ET|]. apply (Table2_flush_drops_expired_only 11 T T' 0 HI).
  - reflexivity.
  - reflexivity.
  - exact E.
  - vm_compute. left.
  - unfold contents in ET. apply fmap_nil_inv in ET. rewrite ET. apply not_elem_of_nil.
Defined.

(** when the times of the queue positions do not decrease from the back to
    the front (no refreshed entry keeps an old position), nothing expired is
    left after a flush. *)
Theorem Table2_flush_leaves_fresh (now : Z) (T T' : table2) (p : loc) (HI : inv T)
  (Hf : t2_flushing T = true)
  (Hord : StronglySorted (fun a b => time_of T a <= time_of T b) (t2_queue T))
  (E : flush now T = Ok T') (Hp : p ∈ t_primary (t2_base T')) :
  expired (t2_maxLifetime T) now (time_of T p) = false.
Proof.
  destruct (flush_ok now T HI) as (T0 & E0 & HI' & Haf). rewrite Hf in Haf.
  assert (T0 = T') as -> by congruence. destruct Haf as [Hpops (q & Hq & _ & Hcase)].
  pose proof (pops_flushing _ _ Hpops) as Hf'. rewrite Hf in Hf'.
  pose proof (primary_queued T' p HI' Hf' Hp) as Hin.
  assert (Hin' : p ∈ q).
  { destruct Hcase as [<-|(_ & pre & r & -> & _)]; [done|].
    apply elem_of_app. right. by right. }
  rewrite Hq in Hin'. clear -Hord Hin'.
  induction Hord as [|a l Hs IH Ha]; simpl in Hin'; [by apply not_elem_of_nil in Hin'|].
  destruct (expired (t2_maxLifetime T) now (time_of T a)) eqn:Ea; [auto|].
  apply elem_of_cons in Hin' as [->|Hin]; [done|].
  rewrite Forall_forall in Ha. specialize (Ha p Hin). unfold expired in *.
  destruct (t2_maxLifetime T); try done. bools. apply Z.ltb_ge. lia.
Qed.

Lemma Table2_flush_leaves_fresh_witness :
  exists T', flush 11 soft2 = Ok T' /\ t_primary (t2_base T') = [1%nat]
    /\ expired (t2_maxLifetime soft2) 11 (time_of soft2 1) = false.
Proof.
  destruct (flush 11 soft2) as [T'|] eqn:E; [|vm_compute in E; discriminate E].
  exists T'. split; [reflexivity|].
  assert (EP : t_primary (t2_base T') = [1%nat]).
  { vm_compute in E. injection E as <-. reflexivity. }
  split; [exact EP|]. apply (Table2_flush_leaves_fresh 11 soft2 T').
  - apply soft_inv.
  - reflexivity.
  - vm_compute. repeat constructor; intros H; discriminate H.
  - exact E.
  - rewrite EP. left.
Defined.

(** a refresh can keep other tuples alive past their lifetime.  An entry has
    one time stamp for all its queue positions; when a refreshed entry's old
    position reaches the back of the queue it looks young and stops the expiry
    loop, although the positions behind it have expired. *)
Theorem Table2_refresh_hides_expired :
  exists T' it, inv soft3 /\ scan 15 soft3 = Ok (it, T')
    /\ delivers it = [link 1 7 1; link 2 7 2]
    /\ expired (t2_maxLifetime soft3) 15 (time_of soft3 1) = true
    /\ tup (t_heap (t2_base soft3)) 1 = link 2 7 2.
Proof.
  destruct (scan 15 soft3) as [[it T']|] eqn:E; [|vm_compute in E; discriminate E].
  exists T', it. split; [apply soft_inv|]. split; [done|].
  vm_compute in E. injection E as <- <-. vm_compute. by split_and!.
Qed.

(** C3: [Table2::insert] returns in every reachable state and keeps the
    invariant.  After its first flush either an equal tuple is present, and then
    the contents stay (the entry is refreshed in a flushing table), or the
    tuple replaces whatever has its key and a second flush follows; the size
    limit holds afterwards. *)
Theorem Table2_insert_correct (t : tuple) (now1 now2 now3 : Z) (T : table2) (HI : inv T)
  (Hroom : has_room T) (Hins : insertable (t2_base T) t) :
  exists b T' T0, insert t now1 now2 now3 T = Ok (b, T') /\ inv T' /\ bounded T'
    /\ same_config2 T T' /\ flush now1 T = Ok T0 /\ insert_outcome t now2 now3 T0 b T'.
Proof.
  destruct (insert_ok t now1 now2 now3 T HI Hroom Hins)
    as (b & T' & T0 & E & HI' & Hc & E0 & HI0 & Haf & Hout).
  exists b, T', T0. do 2 (split; [done|]). split; [|done].
  by apply (insert_bounded t now1 now2 now3 T b).
Qed.

Lemma Table2_insert_correct_witness :
  exists b T' T0, insert (link 2 8 9) 2 2 2 soft2 = Ok (b, T') /\ inv T' /\ bounded T'
    /\ flush 2 soft2 = Ok T0 /\ b = true.
Proof.
  destruct (Table2_insert_correct (link 2 8 9) 2 2 2 soft2)
    as (b & T' & T0 & E & HI & Hb & _ & E0 & _).
  - apply soft_inv.
  - unfold has_room. vm_decide.
  - unfold insertable, wide. vm_decide.
  - exists b, T', T0. split; [exact E|]. split; [exact HI|]. split; [exact Hb|].
    split; [exact E0|]. vm_compute in E. injection E as <- _. reflexivity.
Defined.

(** C4: insert/lookup round trip: a tuple that was just inserted is found by
    the next lookup on the primary key, as long as its lifetime has not run out
    in between; the lookup delivers that one tuple. *)
Theorem Table2_insert_lookup (t : tuple) (now1 now2 now3 now4 : Z) (T : table2) (HI : inv T)
  (Hroom : has_room T) (Hins : insertable (t2_base T) t)
  (H3 : expired (t2_maxLifetime T) now3 now2 = false)
  (H4 : expired (t2_maxLifetime T) now4 now2 = false) :
  exists b T' it T'' u, insert t now1 now2 now3 T = Ok (b, T')
    /\ lookup2 (t_key (t2_base T)) t now4 T' = Ok (it, T'')
    /\ delivers it = [u] /\ tuple_compareTo u t = 0.
Proof.
  destruct (insert_ok t now1 now2 now3 T HI Hroom Hins)
    as (b & T' & T0 & E & HI' & Hc & E0 & HI0 & Haf & Hout).
  destruct (after_flush_facts _ _ _ HI0 Haf) as (Hc0 & _).
  pose proof Hins as (Pt & _).
  assert (Hfind : exists T'' n, flush now4 T' = Ok T'' /\ inv T'' /\ same_config2 T T''
    /\ n ∈ t_primary (t2_base T'')
    /\ tuple_compareTo (tup (t_heap (t2_base T'')) n) t = 0
    /\ same_key (t_key (t2_base T)) t (tup (t_heap (t2_base T'')) n) = true).
  { by apply (insert_survives t now1 now2 now3 now4 T b T' T0). }
  destruct Hfind as (T'' & n & E4 & HI4 & Hc4 & Hn & Hcmp & Hk).
  exists b, T'. unfold lookup2. rewrite E4. simpl. unfold CommonTable.lookup2.
  assert (Ek : t_key (t2_base T'') = t_key (t2_base T)) by apply Hc4. rewrite Ek.
  case_decide; [|done]. simpl. eexists _, T'', _. split; [done|]. split; [reflexivity|].
  split; [|exact Hcmp]. rewrite lookupPrimary_delivers; [|apply HI4|done]. unfold group.
  apply list_elem_of_lookup in Hn as [i Hi]. rewrite <- Ek in Hk.
  rewrite (only_match _ t i n (i_table _ HI4) Pt Hi Hk). done.
Qed.

Lemma Table2_insert_lookup_witness :
  exists b T' it T'', insert (link 3 8 9) 2 2 2 soft2 = Ok (b, T')
    /\ lookup2 [1%nat] (link 3 8 9) 12 T' = Ok (it, T'') /\ delivers it = [link 3 8 9].
Proof.
  destruct (Table2_insert_lookup (link 3 8 9) 2 2 2 12 soft2)
    as (b & T' & it & T'' & u & E & El & _).
  - apply soft_inv.
  - unfold has_room. vm_decide.
  - unfold insertable, wide. vm_decide.
  - reflexivity.
  - reflexivity.
  - exists b, T', it, T''. split; [exact E|]. split; [exact El|].
    vm_compute in E. injection E as <- <-. vm_compute in El. injection El as <- _. reflexivity.
Defined.

(** [Table2::remove] returns, keeps the invariant, and takes out exactly the
    tuple with the given key, answering whether there was one after the flush
    that starts the operation. *)
Theorem Table2_remove_correct (t : tuple) (now : Z) (T : table2) (HI : inv T)
  (Pt : plain_tuple t) :
  exists b T' T0, remove t now T = Ok (b, T') /\ inv T' /\ same_config2 T T'
    /\ flush now T = Ok T0
    /\ contents2 T' = filter (fun u => same_key (t_key (t2_base T)) t u = false) (contents2 T0)
    /\ (b = true <-> Exists (fun u => same_key (t_key (t2_base T)) t u = true) (contents2 T0)).
Proof.
  destruct (remove_ok t now T HI Pt) as (b & T' & T0 & E & HI' & Hc & E0 & _ & _ & H1 & H2).
  by exists b, T', T0.
Qed.

Lemma Table2_remove_correct_witness :
  exists b T' T0, remove (link 1 0 9) 2 soft2 = Ok (b, T') /\ inv T' /\ flush 2 soft2 = Ok T0
    /\ contents2 T' = [link 2 7 2].
Proof.
  destruct (Table2_remove_correct (link 1 0 9) 2 soft2) as (b & T' & T0 & E & HI & _ & E0 & Hcont & _).
  - apply soft_inv.
  - vm_decide.
  - exists b, T', T0. split; [exact E|]. split; [exact HI|]. split; [exact E0|].
    rewrite Hcont. vm_compute in E0. injection E0 as <-. vm_compute. reflexivity.
Defined.

(** C1: every table reachable from a freshly constructed one by insertions,
    removals, flushes, lookups, scans, and by adding indices, aggregates and
    listeners satisfies the invariant (sorted, complete and duplicate-free
    indices, sound aggregates, exact reference counts) and never exceeds its
    maximum size. *)
Theorem Table2_reachable_inv (name : string) (key : Key) (maxSize : Z) (l : lifetime) (sid : Z)
  (T : table2) (Hm : 0 <= maxSize) (Hr : rtc step (mk name key maxSize l sid) T) :
  inv T /\ bounded T.
Proof.
  assert (H0 : inv (mk name key maxSize l sid) /\ bounded (mk name key maxSize l sid)).
  { split; [by apply mk_inv|]. intros Hpos. simpl in *. lia. }
  revert H0. generalize (mk name key maxSize l sid) Hr. clear.
  induction 1 as [T|T1 T2 T3 Hs _ IH]; [done|]. intros [HI Hb]. apply IH.
  by apply (step_inv T1).
Qed.

Lemma Table2_reachable_inv_witness : inv soft2 /\ bounded soft2.
Proof.
  apply (Table2_reachable_inv "link" [1%nat] 2 (Dur 10) 0); [discriminate|].
  apply (rtc_l _ _ soft1).
  - eapply (step_insert _ (link 1 7 1) 0 0 0 true); [done|unfold insertable, wide; vm_decide|].
    vm_compute. reflexivity.
  - apply rtc_once.
    eapply (step_insert _ (link 2 7 2) 1 1 1 true);
      [unfold has_room; vm_decide|unfold insertable, wide; vm_decide|].
    vm_compute. reflexivity.
Defined.

(** C40: destroying a soft-state or reference-counted table frees every entry it
    allocated, each exactly once, and touches no freed entry: the destructors end
    (freeing or reading an entry that is not allocated would be undefined) and
    nothing is left.  The queue's reference counts reach zero with the last queue
    position. *)
Theorem tables_free_entries (T : table2) (R : table) (HI : inv T) (HR : RefTable.inv R) :
  destroy T = Ok ∅ /\ RefTable.destroy R = Ok ∅.
Proof.
  split; [by apply destroy_ok|]. destruct HR as (HT & _ & Hdom). unfold RefTable.destroy.
  erewrite free_primary_ok; [done| |done|done]. eapply index_inv_no_second. apply HT.
Qed.

Lemma tables_free_entries_witness :
  destroy soft3 = Ok ∅ /\ RefTable.destroy RefTable.links = Ok ∅.
Proof. apply tables_free_entries; [apply soft_inv|apply RefTable.links_inv]. Defined.

(** a table built with a lifetime given as a string and no size limit never
    expires anything: the constructor decides whether to flush before it reads
    the string, so [flush] does nothing whatever finite lifetime was asked
    for. *)
Theorem string_lifetime_never_flushes (parse : string -> Z) (name : string) (key : Key)
  (l : string) (sid now : Z) (T : table2)
  (HT : same_config2 (mk_from_string parse name key 0 l sid) T) :
  flush now T = Ok T.
Proof.
  destruct HT as (_ & _ & _ & Hf). unfold flush. by rewrite Hf.
Qed.

Lemma string_lifetime_never_flushes_witness :
  let T := mk_from_string (fun _ => 10) "link" [1%nat] 0 "00:00:10" 0 in
  t2_maxLifetime T = Dur 10 /\ flush 100 (run_insert (link 1 7 1) 0 T)
    = Ok (run_insert (link 1 7 1) 0 T).
Proof.
  intros T. split; [reflexivity|].
  apply (string_lifetime_never_flushes (fun _ => 10) "link" [1%nat] "00:00:10" 0).
  vm_compute. repeat split; constructor.
Defined.
End Table2.
