(* ===== verification/Fdbuf.v ===== *)
(** * Byte buffers (src/p2core/fdbuf.C, fdbuf.h)

    An [Fdbuf] is a growing array with valid bytes [start .. start + len).
    Input operations append at the tail, output operations remove at the head.
    [view] is what a client sees ([Fdbuf::compareTo] is in Values.v).  Sizes are
    natural numbers: the [uint32_t] members cannot wrap below 4 GB.  Memory obtained from [new char[]] reads as
    zero; no theorem speaks of a byte that was not written.  Words are stored in
    the little-endian order of the host, so that [htonl] is a byte swap. *)

From S2P Require Import Prelude.

Record Fdbuf := mkFdbuf {
  fb_capacity : nat;
  fb_len : nat;
  fb_start : nat;
  fb_data : list Z;
  fb_reader : bool
}.

Definition view (fb : Fdbuf) : list Z := take (fb_len fb) (drop (fb_start fb) (fb_data fb)).

(** [Fdbuf::align]: [((x) + 3) & ~3] *)
Definition align (x : nat) : nat := ((x + 3) / 4 * 4)%nat.

Definition BUF_INCREMENT : nat := 128.
Definition BUF_DFLT_CAP : nat := 1500.

(** [Fdbuf::Fdbuf] *)
Definition Fdbuf_mk (init_capacity : nat) (reader : bool) : Fdbuf :=
  mkFdbuf (align init_capacity) 0 0 (replicate (align init_capacity) 0) reader.

Definition length_ (fb : Fdbuf) : nat := fb_len fb.
Definition removed (fb : Fdbuf) : nat := fb_start fb.
Definition clear (fb : Fdbuf) : Fdbuf :=
  mkFdbuf (fb_capacity fb) 0 0 (fb_data fb) (fb_reader fb).

(** [memcpy(data + pos, bs, length bs)] *)
Definition write_at (pos : nat) (bs : list Z) (data : list Z) : list Z :=
  take pos data ++ bs ++ drop (pos + length bs) data.

(** [Fdbuf::ensure].  The last [memcpy] moves the valid bytes to the front of
    the array but leaves [start] alone; when source and destination overlap
    the call is undefined (and clobbers the valid bytes), otherwise it only
    writes below [start]. *)
Definition ensure (new_capacity : nat) (fb : Fdbuf) : res Fdbuf :=
  let nc := align new_capacity in
  let fb1 :=
    if (fb_capacity fb <? nc)%nat then
      let new_size := ((nc + BUF_INCREMENT - 1) / BUF_INCREMENT * BUF_INCREMENT)%nat in
      mkFdbuf new_size (fb_len fb) 0 (view fb ++ replicate (new_size - fb_len fb) 0) (fb_reader fb)
    else fb in
  rbind (if (fb_capacity fb1 - fb_start fb1 <? nc)%nat then
           if (fb_start fb1 =? 0)%nat then Ok fb1
           else if (fb_start fb1 <? fb_len fb1)%nat then Fail UndefinedBehaviour
           else Ok (mkFdbuf (fb_capacity fb1) (fb_len fb1) (fb_start fb1)
                      (write_at 0 (view fb1) (fb_data fb1)) (fb_reader fb1))
         else Ok fb1) (fun fb2 =>
  rbind (check (fb_start fb2 + fb_len fb2 <=? fb_capacity fb2)%nat AssertFailed) (fun _ =>
  Ok fb2)).

Definition ensure_additional (extra : nat) (fb : Fdbuf) : res Fdbuf :=
  ensure (extra + fb_len fb + fb_start fb) fb.

(** [Fdbuf::push_bytes], [pushString], [pushFdbuf] *)
Definition push_bytes (buf : list Z) (fb : Fdbuf) : res Fdbuf :=
  rbind (check (negb (fb_reader fb)) AssertFailed) (fun _ =>
  rbind (ensure_additional (length buf) fb) (fun fb1 =>
  Ok (mkFdbuf (fb_capacity fb1) (fb_len fb1 + length buf) (fb_start fb1)
        (write_at (fb_start fb1 + fb_len fb1) buf (fb_data fb1)) (fb_reader fb1)))).

Definition pushFdbuf (other : Fdbuf) (max_size : nat) (fb : Fdbuf) : res Fdbuf :=
  push_bytes (take (fb_len other `min` max_size) (view other)) fb.

(** A word in memory. *)
Definition store32 (l : Z) : list Z :=
  [l mod 256; l / 2 ^ 8 mod 256; l / 2 ^ 16 mod 256; l / 2 ^ 24 mod 256].
Definition load32 (bs : list Z) : Z :=
  match bs with
  | b0 :: b1 :: b2 :: b3 :: _ => b0 + 2 ^ 8 * b1 + 2 ^ 16 * b2 + 2 ^ 24 * b3
  | _ => 0
  end.
Definition htonl (x : Z) : Z :=
  2 ^ 24 * (x mod 256) + 2 ^ 16 * (x / 2 ^ 8 mod 256) + 2 ^ 8 * (x / 2 ^ 16 mod 256)
  + x / 2 ^ 24 mod 256.
Definition ntohl (x : Z) : Z := htonl x.

Definition push_uint32 (l : Z) (fb : Fdbuf) : res Fdbuf := push_bytes (store32 l) fb.

(** [Fdbuf::pop_uint32] answers zero when fewer than four bytes are left. *)
Definition pop_uint32 (fb : Fdbuf) : Z * Fdbuf :=
  if (4 <=? fb_len fb)%nat
  then (load32 (drop (fb_start fb) (fb_data fb)),
        mkFdbuf (fb_capacity fb) (fb_len fb - 4) (fb_start fb + 4) (fb_data fb) (fb_reader fb))
  else (0, fb).

Definition pop_bytes (sz : nat) (fb : Fdbuf) : option (list Z * Fdbuf) :=
  if (sz <=? fb_len fb)%nat
  then Some (take sz (drop (fb_start fb) (fb_data fb)),
        mkFdbuf (fb_capacity fb) (fb_len fb - sz) (fb_start fb + sz) (fb_data fb) (fb_reader fb))
  else None.

(** [Fdbuf::pop_to_fdbuf] *)
Definition pop_to_fdbuf (fb dst : Fdbuf) (to_write : nat) : res (nat * Fdbuf * Fdbuf) :=
  let n := (to_write `min` fb_len fb)%nat in
  rbind (pushFdbuf fb n dst) (fun dst' =>
  Ok (n, mkFdbuf (fb_capacity fb) (fb_len fb - n) (fb_start fb + n) (fb_data fb) (fb_reader fb),
      dst')).

Definition align_read (fb : Fdbuf) : Fdbuf :=
  let new_start := align (fb_start fb) in
  mkFdbuf (fb_capacity fb) (fb_len fb - (new_start - fb_start fb)) new_start (fb_data fb) (fb_reader fb).
Definition align_write (fb : Fdbuf) : Fdbuf :=
  mkFdbuf (fb_capacity fb) (align (fb_len fb)) (fb_start fb) (fb_data fb) (fb_reader fb).

(** [Fdbuf::pop_uint64], [Fdbuf::push_uint64] *)
Definition store64 (l : Z) : list Z := store32 l ++ store32 (l / 2 ^ 32).
Definition load64 (bs : list Z) : Z := load32 bs + 2 ^ 32 * load32 (drop 4 bs).
Definition push_uint64 (l : Z) (fb : Fdbuf) : res Fdbuf := push_bytes (store64 l) fb.
Definition pop_uint64 (fb : Fdbuf) : Z * Fdbuf :=
  if (8 <=? fb_len fb)%nat
  then (load64 (drop (fb_start fb) (fb_data fb)),
        mkFdbuf (fb_capacity fb) (fb_len fb - 8) (fb_start fb + 8) (fb_data fb) (fb_reader fb))
  else (0, fb).

(** ** System calls

    [post_read] and [post_write] take the call's answer as a [uint32_t]: the
    -1 of a failed call arrives as 2^32 - 1. *)
Definition post_read (r : Z) (fb : Fdbuf) : Z * Fdbuf :=
  (u32 r, if 0 <? u32 r
          then mkFdbuf (fb_capacity fb) (Z.to_nat (u32 (Z.of_nat (fb_len fb) + u32 r)))
                 (fb_start fb) (fb_data fb) (fb_reader fb)
          else fb).
Definition post_write (w : Z) (fb : Fdbuf) : Z * Fdbuf :=
  (u32 w, if 0 <? u32 w
          then mkFdbuf (fb_capacity fb) (Z.to_nat (u32 (Z.of_nat (fb_len fb) - u32 w)))
                 (Z.to_nat (u32 (Z.of_nat (fb_start fb) + u32 w))) (fb_data fb) (fb_reader fb)
          else fb).

(** [read], [recv], [recvfrom]: the kernel fails or stores at most [max_read]
    bytes at the tail. *)
Definition Fdbuf_recv (max_read : nat) (received : option (list Z)) (fb : Fdbuf) : res (Z * Fdbuf) :=
  rbind (ensure_additional max_read fb) (fun fb1 =>
  match received with
  | None => Ok (post_read (-1) fb1)
  | Some bs =>
      Ok (post_read (Z.of_nat (length bs))
            (mkFdbuf (fb_capacity fb1) (fb_len fb1) (fb_start fb1)
               (write_at (fb_start fb1 + fb_len fb1) bs (fb_data fb1)) (fb_reader fb1)))
  end).

(** [write], [send], [sendto]: the bytes offered to the kernel, which fails or
    takes some number of them. *)
Definition offered (max_write : Z) (fb : Fdbuf) : list Z :=
  take (if max_write <? 0 then fb_len fb else fb_len fb `min` Z.to_nat (u32 max_write)) (view fb).
Definition Fdbuf_send (written : option nat) (fb : Fdbuf) : Z * Fdbuf :=
  post_write (match written with None => -1 | Some n => Z.of_nat n end) fb.

(** ** Invariant *)

(** The valid bytes lie within the array. *)
Definition fb_ok (fb : Fdbuf) : Prop :=
  length (fb_data fb) = fb_capacity fb /\ (fb_start fb + fb_len fb <= fb_capacity fb)%nat.

(** ** Lemmas *)

Lemma align_ge x : (x <= align x < x + 4)%nat.
Proof.
  unfold align. pose proof (Nat.div_mod (x + 3) 4). pose proof (Nat.mod_upper_bound (x + 3) 4). lia.
Qed.

Lemma align_id x : (x mod 4 = 0)%nat -> align x = x.
Proof.
  intros H. unfold align. pose proof (Nat.div_mod x 4).
  assert ((x + 3) / 4 = x / 4)%nat; [|lia].
  symmetry. apply (Nat.div_unique (x + 3) 4 (x / 4) 3); lia.
Qed.

Lemma view_length fb : fb_ok fb -> length (view fb) = fb_len fb.
Proof. intros [H1 H2]. unfold view. rewrite length_take, length_drop. lia. Qed.

Lemma write_at_length pos bs data : (pos + length bs <= length data)%nat ->
  length (write_at pos bs data) = length data.
Proof.
  intros H. unfold write_at. rewrite !length_app, length_take, length_drop. lia.
Qed.

(** Writing below or right after the valid bytes. *)
Lemma write_at_tail start len bs data : (start + len + length bs <= length data)%nat ->
  take (len + length bs) (drop start (write_at (start + len) bs data))
  = take len (drop start data) ++ bs.
Proof.
  intros H. unfold write_at. rewrite drop_app_le by (rewrite length_take; lia).
  rewrite take_app_ge by (rewrite length_drop, length_take; lia).
  rewrite length_drop, length_take.
  replace (len + length bs - ((start + len) `min` length data - start))%nat with (length bs) by lia.
  rewrite take_drop_commute, take_app_le by lia. f_equal. apply take_ge. lia.
Qed.

Lemma write_at_head len start bs data : (length bs <= start)%nat -> (start <= length data)%nat ->
  take len (drop start (write_at 0 bs data)) = take len (drop start data).
Proof.
  intros H1 H2. unfold write_at. simpl. rewrite drop_app_ge by lia. rewrite drop_drop.
  do 2 f_equal. lia.
Qed.

Ltac fbs := cbn [fb_capacity fb_len fb_start fb_data fb_reader rbind].

(** [ensure] keeps the contents and makes room, unless it is undefined. *)
Lemma ensure_ok n fb : fb_ok fb -> (fb_start fb + fb_len fb <= n)%nat ->
  match ensure n fb with
  | Ok fb' => fb_ok fb' /\ view fb' = view fb /\ fb_len fb' = fb_len fb
      /\ fb_reader fb' = fb_reader fb
      /\ (fb_start fb' = fb_start fb \/ fb_start fb' = 0%nat)
      /\ (fb_start fb' + (n - fb_start fb) <= fb_capacity fb')%nat
  | Fail f => f = UndefinedBehaviour /\ (0 < fb_start fb < fb_len fb)%nat
      /\ (fb_capacity fb - fb_start fb < align n <= fb_capacity fb)%nat
  end.
Proof.
  intros Hok Hn. pose proof Hok as [H1 H2]. pose proof (align_ge n) as Ha.
  pose proof (view_length fb Hok) as Hv. unfold ensure.
  destruct (Nat.ltb_spec (fb_capacity fb) (align n)) as [Hc|Hc]; fbs.
  - set (ns := ((align n + BUF_INCREMENT - 1) / BUF_INCREMENT * BUF_INCREMENT)%nat).
    assert (Hns : (align n <= ns)%nat).
    { unfold ns, BUF_INCREMENT.
      pose proof (Nat.div_mod (align n + 128 - 1) 128).
      pose proof (Nat.mod_upper_bound (align n + 128 - 1) 128). lia. }
    destruct (Nat.ltb_spec (ns - 0) (align n)); [lia|]. fbs.
    unfold check. rewrite (proj2 (Nat.leb_le _ _)) by lia. fbs. split_and!; try done; try lia.
    + split; simpl; [|lia]. rewrite length_app, length_replicate, Hv. lia.
    + unfold view at 1. fbs. rewrite drop_0, take_app_le by lia. apply take_ge. lia.
  - destruct (Nat.ltb_spec (fb_capacity fb - fb_start fb) (align n)) as [Hm|Hm].
    + destruct (Nat.eqb_spec (fb_start fb) 0) as [Hz|Hz]; fbs.
      { unfold check. rewrite (proj2 (Nat.leb_le _ _)) by lia. fbs. split_and!; auto. lia. }
      destruct (Nat.ltb_spec (fb_start fb) (fb_len fb)); fbs; [split_and!; auto; lia|].
      unfold check. rewrite (proj2 (Nat.leb_le _ _)) by lia. fbs. split_and!; try done; try lia.
      * split; simpl; [|lia]. rewrite write_at_length; simpl; lia.
      * unfold view at 1. simpl. apply write_at_head; lia.
    + fbs. unfold check. rewrite (proj2 (Nat.leb_le _ _)) by lia. fbs. split_and!; auto. lia.
Qed.

Lemma push_bytes_ok bs fb : fb_ok fb -> fb_reader fb = false ->
  match push_bytes bs fb with
  | Ok fb' => fb_ok fb' /\ view fb' = view fb ++ bs /\ fb_reader fb' = false
      /\ (fb_start fb = 0%nat -> fb_start fb' = 0%nat)
  | Fail f => f = UndefinedBehaviour /\ (0 < fb_start fb < fb_len fb)%nat
      /\ (fb_capacity fb - fb_start fb < align (length bs + fb_len fb + fb_start fb) <= fb_capacity fb)%nat
  end.
Proof.
  intros Hok Hr. unfold push_bytes, ensure_additional. rewrite Hr. cbn [negb check rbind].
  pose proof (ensure_ok (length bs + fb_len fb + fb_start fb) fb Hok) as H.
  destruct (ensure (length bs + fb_len fb + fb_start fb) fb) as [fb1|f]; cbn [rbind].
  - destruct H as ([H1 H2] & Hv & Hl & Hr1 & Hst & Hcap); [lia|]. split_and!.
    + split; fbs; [|lia]. rewrite write_at_length by lia. done.
    + unfold view at 1. fbs. rewrite write_at_tail by lia. by rewrite <- Hv.
    + fbs. congruence.
    + fbs. lia.
  - by apply H; lia.
Qed.

Lemma view_take sz fb : fb_ok fb -> (sz <= fb_len fb)%nat ->
  take sz (drop (fb_start fb) (fb_data fb)) = take sz (view fb).
Proof. intros Hok H. unfold view. rewrite take_take. f_equal. lia. Qed.

Lemma pop_bytes_ok sz fb : fb_ok fb ->
  match pop_bytes sz fb with
  | Some (bs, fb') => (sz <= length (view fb))%nat /\ bs = take sz (view fb) /\ fb_ok fb'
      /\ view fb' = drop sz (view fb) /\ fb_start fb' = (fb_start fb + sz)%nat
      /\ fb_reader fb' = fb_reader fb
  | None => (length (view fb) < sz)%nat
  end.
Proof.
  intros Hok. unfold pop_bytes. rewrite (view_length fb Hok).
  destruct (Nat.leb_spec sz (fb_len fb)); [|lia]. pose proof Hok as [H1 H2].
  split_and!; try done; fbs; try lia.
  - by apply view_take.
  - split; fbs; lia.
  - unfold view. fbs. rewrite <- drop_drop, take_drop_commute. do 2 f_equal. lia.
Qed.

(** ** Words *)

(** The four bytes of a word, most significant first. *)
Definition be32 (x : Z) : list Z :=
  [x / 2 ^ 24 mod 256; x / 2 ^ 16 mod 256; x / 2 ^ 8 mod 256; x mod 256].
Definition of_be32 (bs : list Z) : Z :=
  match bs with
  | b3 :: b2 :: b1 :: b0 :: _ => 2 ^ 24 * b3 + 2 ^ 16 * b2 + 2 ^ 8 * b1 + b0
  | _ => 0
  end.

Definition is_byte (b : Z) : Prop := 0 <= b < 256.

#[export] Instance is_byte_dec b : Decision (is_byte b).
Proof. unfold is_byte. apply _. Defined.

Lemma digits_unique a b c d : is_byte a -> is_byte b -> is_byte c -> is_byte d ->
  let x := a + 2 ^ 8 * b + 2 ^ 16 * c + 2 ^ 24 * d in
  x mod 256 = a /\ x / 2 ^ 8 mod 256 = b /\ x / 2 ^ 16 mod 256 = c /\ x / 2 ^ 24 mod 256 = d.
Proof.
  unfold is_byte. intros Ha Hb Hc Hd.
  change (2 ^ 8) with 256. change (2 ^ 16) with 65536. change (2 ^ 24) with 16777216.
  split_and!.
  - symmetry. apply (Z.mod_unique _ _ (b + 256 * c + 65536 * d)); lia.
  - replace ((a + 256 * b + 65536 * c + 16777216 * d) / 256) with (b + 256 * c + 65536 * d)
      by (apply (Z.div_unique _ _ _ a); lia).
    symmetry. apply (Z.mod_unique _ _ (c + 256 * d)); lia.
  - replace ((a + 256 * b + 65536 * c + 16777216 * d) / 65536) with (c + 256 * d)
      by (apply (Z.div_unique _ _ _ (a + 256 * b)); lia).
    symmetry. apply (Z.mod_unique _ _ d); lia.
  - replace ((a + 256 * b + 65536 * c + 16777216 * d) / 16777216) with d
      by (apply (Z.div_unique _ _ _ (a + 256 * b + 65536 * c)); lia).
    apply Z.mod_small. lia.
Qed.

Lemma mod_byte x : is_byte (x mod 256).
Proof. unfold is_byte. apply Z.mod_pos_bound. lia. Qed.

(** Storing a swapped word writes it most significant byte first, and loading
    and swapping reads it back. *)
Lemma store_htonl x : store32 (htonl x) = be32 x.
Proof.
  unfold store32, htonl, be32.
  destruct (digits_unique (x / 2 ^ 24 mod 256) (x / 2 ^ 16 mod 256) (x / 2 ^ 8 mod 256)
    (x mod 256)) as (E1 & E2 & E3 & E4); try apply mod_byte.
  replace (2 ^ 24 * (x mod 256) + 2 ^ 16 * (x / 2 ^ 8 mod 256) + 2 ^ 8 * (x / 2 ^ 16 mod 256)
    + x / 2 ^ 24 mod 256) with (x / 2 ^ 24 mod 256 + 2 ^ 8 * (x / 2 ^ 16 mod 256)
    + 2 ^ 16 * (x / 2 ^ 8 mod 256) + 2 ^ 24 * (x mod 256)) by lia.
  by rewrite E1, E2, E3, E4.
Qed.

Lemma ntohl_load b3 b2 b1 b0 l : is_byte b3 -> is_byte b2 -> is_byte b1 -> is_byte b0 ->
  ntohl (load32 (b3 :: b2 :: b1 :: b0 :: l)) = of_be32 [b3; b2; b1; b0].
Proof.
  intros H3 H2 H1 H0. unfold ntohl, htonl, load32, of_be32.
  destruct (digits_unique b3 b2 b1 b0 H3 H2 H1 H0) as (E1 & E2 & E3 & E4). simpl in *.
  rewrite E1, E2, E3, E4. lia.
Qed.

Lemma of_be32_be32 x : is_u32 x -> of_be32 (be32 x) = x.
Proof.
  unfold is_u32, of_be32, be32. intros Hx.
  change (2 ^ 8) with 256. change (2 ^ 16) with (256 * 256).
  change (2 ^ 24) with (256 * 256 * 256). rewrite <- !Z.div_div by lia.
  pose proof (Z.div_mod x 256). pose proof (Z.div_mod (x / 256) 256).
  pose proof (Z.div_mod (x / 256 / 256) 256).
  rewrite (Z.mod_small (x / 256 / 256 / 256)); [lia|].
  split; [repeat apply Z.div_pos; lia|]. rewrite !Z.div_div by lia.
  apply Z.div_lt_upper_bound; lia.
Qed.

(** ** A buffer is a queue of bytes *)

Inductive fb_op :=
  | PushBytes (buf : list Z)
  | PushUint32 (l : Z)
  | PushUint64 (l : Z)
  | PopBytes (sz : nat)
  | PopUint32
  | PopUint64.

(** The bytes an operation pushes. *)
Definition pushed (op : fb_op) : list Z :=
  match op with PushBytes buf => buf | PushUint32 l => store32 l | PushUint64 l => store64 l | _ => [] end.

(** One operation, with the bytes it hands to its caller: those of the word, for
    a word. *)
Definition exec (op : fb_op) (fb : Fdbuf) : res (list Z * Fdbuf) :=
  match op with
  | PushBytes buf => rbind (push_bytes buf fb) (fun fb' => Ok ([], fb'))
  | PushUint32 l => rbind (push_uint32 l fb) (fun fb' => Ok ([], fb'))
  | PushUint64 l => rbind (push_uint64 l fb) (fun fb' => Ok ([], fb'))
  | PopBytes sz => match pop_bytes sz fb with Some r => Ok r | None => Ok ([], fb) end
  | PopUint32 => let '(l, fb') := pop_uint32 fb in Ok (store32 l, fb')
  | PopUint64 => let '(l, fb') := pop_uint64 fb in Ok (store64 l, fb')
  end.

(** What the operation does to a queue: a pop that asks for more than there is
    takes nothing, and a word is then zero. *)
Definition queue_step (op : fb_op) (q : list Z) : list Z * list Z :=
  let pop n none := if (n <=? length q)%nat then (take n q, drop n q) else (none, q) in
  match op with
  | PushBytes _ | PushUint32 _ | PushUint64 _ => ([], q ++ pushed op)
  | PopBytes sz => pop sz []
  | PopUint32 => pop 4%nat (replicate 4 0)
  | PopUint64 => pop 8%nat (replicate 8 0)
  end.

Fixpoint exec_all (ops : list fb_op) (fb : Fdbuf) : res (list Z * Fdbuf) :=
  match ops with
  | [] => Ok ([], fb)
  | op :: ops' => rbind (exec op fb) (fun '(o, fb1) =>
                  rbind (exec_all ops' fb1) (fun '(os, fb2) => Ok (o ++ os, fb2)))
  end.
Fixpoint queue_run (ops : list fb_op) (q : list Z) : list Z * list Z :=
  match ops with
  | [] => ([], q)
  | op :: ops' => let '(o, q1) := queue_step op q in
                  let '(os, q2) := queue_run ops' q1 in (o ++ os, q2)
  end.

Definition is_push (op : fb_op) : Prop :=
  match op with PushBytes _ | PushUint32 _ | PushUint64 _ => True | _ => False end.

(** The push finds room only when it moves the valid bytes to the front, and they
    overlap the place they are moved to. *)
Definition overlapping_move (op : fb_op) (fb : Fdbuf) : Prop :=
  is_push op /\ (0 < fb_start fb < fb_len fb)%nat
  /\ (fb_capacity fb - fb_start fb < align (length (pushed op) + fb_len fb + fb_start fb) <= fb_capacity fb)%nat.

(** A writable buffer whose array holds bytes. *)
Definition writable (fb : Fdbuf) : Prop :=
  fb_ok fb /\ fb_reader fb = false /\ Forall is_byte (view fb).

Definition op_bytes (op : fb_op) : Prop :=
  match op with PushBytes buf => Forall is_byte buf | _ => True end.

Lemma store32_bytes l : Forall is_byte (store32 l).
Proof. repeat constructor; apply mod_byte. Qed.

(** A word read from four bytes stores as those bytes. *)
Lemma store_load l : (4 <= length l)%nat -> Forall is_byte (take 4 l) -> store32 (load32 l) = take 4 l.
Proof.
  destruct l as [|b0 [|b1 [|b2 [|b3 l]]]]; simpl; intros Hl Hb; try lia.
  do 4 (apply Forall_cons in Hb as [? Hb]). unfold store32.
  destruct (digits_unique b0 b1 b2 b3) as (E1 & E2 & E3 & E4); auto. simpl in *.
  by rewrite E1, E2, E3, E4.
Qed.

Lemma store64_bytes l : Forall is_byte (store64 l).
Proof. apply Forall_app. split; apply store32_bytes. Qed.
Lemma load32_range l : Forall is_byte (take 4 l) -> is_u32 (load32 l).
Proof.
  unfold is_u32, load32, is_byte. destruct l as [|b0 [|b1 [|b2 [|b3 l]]]]; cbn [take]; intros Hb; try lia.
  do 4 (apply Forall_cons in Hb as [? Hb]). lia.
Qed.
Lemma store32_low w h : store32 (w + 2 ^ 32 * h) = store32 w.
Proof.
  assert (Hd : forall k, 0 < k -> 0 < 2 ^ 32 / k -> 2 ^ 32 = 2 ^ 24 / k * k * 256 -> (w + 2 ^ 32 * h) / k mod 256 = w / k mod 256).
  { intros k Hk _ E. replace (w + 2 ^ 32 * h) with (w + (h * (2 ^ 24 / k) * 256) * k) by (rewrite E; ring).
    rewrite Z.div_add by lia. apply Z_mod_plus_full. }
  pose proof (Hd 1 ltac:(lia) ltac:(done) ltac:(done)) as H0. rewrite !Z.div_1_r in H0.
  unfold store32. by rewrite H0, (Hd (2 ^ 8)), (Hd (2 ^ 16)), (Hd (2 ^ 24)).
Qed.
Lemma store_load64 l : (8 <= length l)%nat -> Forall is_byte (take 8 l) -> store64 (load64 l) = take 8 l.
Proof.
  intros Hl Hb. assert (E8 : take 8 l = take 4 l ++ take 4 (drop 4 l)) by (by rewrite take_take_drop). rewrite E8 in *.
  apply Forall_app in Hb as [Hb1 Hb2]. pose proof (load32_range l Hb1) as R1. unfold is_u32 in R1.
  rewrite <- (store_load l), <- (store_load (drop 4 l)) by (rewrite ?length_drop; auto; lia). unfold store64, load64. f_equal.
  - apply store32_low.
  - f_equal. rewrite Z.add_comm, Z.mul_comm, Z.div_add_l, Z.div_small by lia. lia.
Qed.

(** One operation refines the queue's, or is the undefined move of [ensure]. *)
Section step.
Context (fb : Fdbuf) (Hw : writable fb).

Lemma fb_push_step buf : Forall is_byte buf ->
  match rbind (push_bytes buf fb) (fun fb' => Ok ([] : list Z, fb')) with
  | Ok (o, fb') => writable fb' /\ ([], view fb ++ buf) = (o, view fb') /\ (fb_start fb = 0%nat -> fb_start fb' = 0%nat)
  | Fail f => f = UndefinedBehaviour /\ (0 < fb_start fb < fb_len fb)%nat
      /\ (fb_capacity fb - fb_start fb < align (length buf + fb_len fb + fb_start fb) <= fb_capacity fb)%nat
  end.
Proof using Hw.
  destruct Hw as (Hok & Hr & Hb). intros Hbuf. pose proof (push_bytes_ok buf fb Hok Hr) as H.
  destruct (push_bytes buf fb) as [fb'|f]; cbn [rbind]; [|done].
  destruct H as (Hok' & Hv & Hr' & Hs). unfold writable. rewrite Hv. split_and!; auto. by apply Forall_app.
Qed.
Lemma fb_pop_step sz none :
  let '(o, fb') := match pop_bytes sz fb with Some r => r | None => (none, fb) end in
  writable fb' /\ (if (sz <=? length (view fb))%nat then (take sz (view fb), drop sz (view fb)) else (none, view fb)) = (o, view fb').
Proof using Hw.
  destruct Hw as (Hok & Hr & Hb). pose proof (pop_bytes_ok sz fb Hok) as H. destruct (pop_bytes sz fb) as [[o fb']|].
  - destruct H as (Hl & -> & Hok' & Hv & _ & Hr'). unfold writable.
    rewrite (proj2 (Nat.leb_le _ _)) by done. rewrite Hv, Hr'. split_and!; auto. by apply Forall_drop.
  - by rewrite (proj2 (Nat.leb_gt _ _)).
Qed.
(** A word taken is the bytes taken. *)
Lemma pop32_bytes : (let '(l, fb') := pop_uint32 fb in (store32 l, fb'))
  = match pop_bytes 4 fb with Some r => r | None => (replicate 4 0, fb) end.
Proof using Hw.
  destruct Hw as (Hok & Hr & Hb). unfold pop_uint32, pop_bytes. destruct (Nat.leb_spec 4 (fb_len fb)) as [Hl|Hl]; [|done].
  f_equal. pose proof Hok as [Hd Hc]. apply store_load; [rewrite length_drop; lia|]. rewrite view_take by done. by apply Forall_take.
Qed.
Lemma pop64_bytes : (let '(l, fb') := pop_uint64 fb in (store64 l, fb'))
  = match pop_bytes 8 fb with Some r => r | None => (replicate 8 0, fb) end.
Proof using Hw.
  destruct Hw as (Hok & Hr & Hb). unfold pop_uint64, pop_bytes. destruct (Nat.leb_spec 8 (fb_len fb)) as [Hl|Hl]; [|done].
  f_equal. pose proof Hok as [Hd Hc]. apply store_load64; [rewrite length_drop; lia|]. rewrite view_take by done. by apply Forall_take.
Qed.

Lemma exec_ok op : op_bytes op ->
  match exec op fb with
  | Ok (o, fb') => writable fb' /\ queue_step op (view fb) = (o, view fb')
      /\ (is_push op -> fb_start fb = 0%nat -> fb_start fb' = 0%nat)
  | Fail f => f = UndefinedBehaviour /\ overlapping_move op fb
  end.
Proof using Hw.
  intros Hop.
  assert (Hpush : forall buf, Forall is_byte buf -> pushed op = buf -> is_push op -> queue_step op (view fb) = ([], view fb ++ buf) ->
    match rbind (push_bytes buf fb) (fun fb' => Ok ([] : list Z, fb')) with
    | Ok (o, fb') => writable fb' /\ queue_step op (view fb) = (o, view fb') /\ (is_push op -> fb_start fb = 0%nat -> fb_start fb' = 0%nat)
    | Fail f => f = UndefinedBehaviour /\ overlapping_move op fb
    end).
  { intros buf Hbuf Hp Hi ->. pose proof (fb_push_step buf Hbuf) as H. destruct (push_bytes buf fb) as [fb'|f]; cbn [rbind] in *.
    - destruct H as (H1 & H2 & H3). by split_and!; try apply H1.
    - destruct H as (H1 & H2 & H3). unfold overlapping_move. rewrite Hp. by split_and!; try apply H2; try apply H3. }
  destruct op as [buf|l|l|sz| |]; cbn [exec].
  - by apply Hpush.
  - apply Hpush; [apply store32_bytes|done..].
  - apply Hpush; [apply store64_bytes|done..].
  - pose proof (fb_pop_step sz []) as H. cbn [queue_step]. destruct (pop_bytes sz fb) as [[o fb']|]; (split_and!; [apply H|apply H|done]).
  - pose proof pop32_bytes as E. pose proof (fb_pop_step 4 (replicate 4 0)) as H. cbn [queue_step]. rewrite <- E in H.
    destruct (pop_uint32 fb). split_and!; [apply H|apply H|done].
  - pose proof pop64_bytes as E. pose proof (fb_pop_step 8 (replicate 8 0)) as H. cbn [queue_step]. rewrite <- E in H.
    destruct (pop_uint64 fb). split_and!; [apply H|apply H|done].
Qed.
End step.

Lemma exec_all_ok ops : forall fb, writable fb -> Forall op_bytes ops ->
  match exec_all ops fb with
  | Ok (os, fb') => writable fb' /\ queue_run ops (view fb) = (os, view fb')
  | Fail f => f = UndefinedBehaviour /\ exists pre op post os1 fb1,
      ops = pre ++ op :: post /\ exec_all pre fb = Ok (os1, fb1) /\ overlapping_move op fb1
  end.
Proof.
  intros fb Hw Hb. revert fb Hw. induction Hb as [|op ops Hop _ IH]; intros fb Hw; cbn [exec_all queue_run].
  { done. }
  pose proof (exec_ok fb Hw op Hop) as H.
  destruct (exec op fb) as [[o fb1]|f] eqn:E; cbn [rbind].
  2: { destruct H as [-> H]. split; [done|]. by exists [], op, ops, [], fb. }
  destruct H as (Hw1 & -> & _). specialize (IH fb1 Hw1).
  destruct (exec_all ops fb1) as [[os fb2]|f]; cbn [rbind].
  - destruct IH as [Hw2 ->]. done.
  - destruct IH as (-> & pre & op' & post & os1 & fb2 & -> & E2 & Hm). split; [done|].
    exists (op :: pre), op', post, (o ++ os1), fb2. split_and!; [done| |done]. cbn [exec_all]. rewrite E. cbn [rbind]. by rewrite E2.
Qed.

(** Pushes onto a buffer nothing was taken from succeed, pops always do. *)
Lemma exec_total pre post fb : writable fb -> Forall op_bytes (pre ++ post) ->
  Forall is_push pre -> Forall (fun op => ~ is_push op) post -> fb_start fb = 0%nat ->
  exists r, exec_all (pre ++ post) fb = Ok r.
Proof.
  intros Hw Hb Hpre Hpost Hs. revert fb Hw Hs.
  induction Hpre as [|op pre Hop _ IH]; intros fb Hw Hs; cbn [app exec_all].
  - clear Hs. revert fb Hw. simpl in Hb.
    induction Hpost as [|op post Hop _ IH]; intros fb Hw; cbn [exec_all]; [eauto|].
    apply Forall_cons in Hb as [Hb1 Hb2]. pose proof (exec_ok fb Hw op Hb1) as H.
    destruct (exec op fb) as [[o fb1]|f]; [|by destruct H as (_ & H & _)]. destruct H as (Hw1 & _).
    destruct (IH Hb2 fb1 Hw1) as [[os fb2] E]. cbn [rbind]. rewrite E. simpl. eauto.
  - simpl in Hb. apply Forall_cons in Hb as [Hb1 Hb2]. pose proof (exec_ok fb Hw op Hb1) as H.
    destruct (exec op fb) as [[o fb1]|f]; [|destruct H as (_ & _ & H & _); lia]. destruct H as (Hw1 & _ & Hs1).
    destruct (IH Hb2 fb1 Hw1 (Hs1 Hop Hs)) as [[os fb2] E]. cbn [rbind]. rewrite E. simpl. eauto.
Qed.

(** C39: a buffer behaves as a queue of bytes.  Whatever the sequence of pushes
    and pops of bytes and words, the bytes handed out and the bytes left are those
    of the queue; a pop that asks for more than there is takes nothing.  The only
    exception is a push whose [ensure] has to move the valid bytes onto a place
    that overlaps them, which is undefined; a buffer that is filled and then
    drained never gets there. *)
Theorem fdbuf_is_queue (ops : list fb_op) (fb : Fdbuf) :
  writable fb -> Forall op_bytes ops ->
  match exec_all ops fb with
  | Ok (os, fb') => writable fb' /\ queue_run ops (view fb) = (os, view fb')
  | Fail f => f = UndefinedBehaviour /\ exists pre op post os1 fb1,
      ops = pre ++ op :: post /\ exec_all pre fb = Ok (os1, fb1) /\ overlapping_move op fb1
  end
  /\ forall pre post, ops = pre ++ post -> Forall is_push pre ->
     Forall (fun op => ~ is_push op) post -> fb_start fb = 0%nat ->
     exists r, exec_all ops fb = Ok r.
Proof.
  intros Hw Hb. split; [by apply exec_all_ok|]. intros pre post -> Hpre Hpost Hs.
  by apply exec_total.
Qed.

(** A push after a pop can hit the overlapping [memcpy] of [ensure]: fill
    a default buffer to four bytes below its capacity, take one word, and push
    a word again. *)
Theorem fdbuf_push_after_pop_undefined :
  exec_all [PushBytes (replicate 1496 1); PopUint32; PushUint32 7] (Fdbuf_mk BUF_DFLT_CAP false)
  = Fail UndefinedBehaviour.
Proof. vm_compute. reflexivity. Qed.

Definition sample_ops : list fb_op := [PushUint32 258; PushBytes [7; 8]; PopUint32; PopBytes 1; PopUint32].
Lemma fdbuf_is_queue_witness : exists os fb', exec_all sample_ops (Fdbuf_mk 4 false) = Ok (os, fb') /\ writable fb'
  /\ queue_run sample_ops [] = (os, view fb') /\ os = [2; 1; 0; 0; 7; 0; 0; 0; 0].
Proof.
  destruct (fdbuf_is_queue sample_ops (Fdbuf_mk 4 false)) as [H1 H2].
  - split_and!; [split; vm_compute; lia|reflexivity|constructor].
  - repeat constructor; simpl; try lia.
  - destruct (H2 [PushUint32 258; PushBytes [7; 8]] [PopUint32; PopBytes 1; PopUint32]) as [[os fb'] E];
      [reflexivity|repeat constructor|repeat constructor; intros []|reflexivity|].
    rewrite E in H1. destruct H1 as [Hw Hq]. exists os, fb'. split_and!; [exact E|exact Hw|exact Hq|].
    vm_compute in E. injection E as <- <-. reflexivity.
Defined.

(** ** Input and output *)

Lemma ensure_additional_ok extra fb : fb_ok fb ->
  match ensure_additional extra fb with
  | Ok fb' => fb_ok fb' /\ view fb' = view fb /\ fb_len fb' = fb_len fb
      /\ fb_reader fb' = fb_reader fb /\ (fb_start fb' + fb_len fb' + extra <= fb_capacity fb')%nat
  | Fail f => f = UndefinedBehaviour
  end.
Proof.
  intros Hok. pose proof (ensure_ok (extra + fb_len fb + fb_start fb) fb Hok) as H.
  unfold ensure_additional.
  destruct (ensure (extra + fb_len fb + fb_start fb) fb) as [fb'|f].
  - destruct H as (Hok' & Hv & Hl & Hr & _ & Hc); [lia|]. split_and!; auto. lia.
  - destruct H as [-> _]; [lia|done].
Qed.

(** a successful receive appends exactly the bytes that came and answers
    their number; a successful send removes exactly the bytes the kernel
    took from the head. *)
Theorem fdbuf_io_correct (fb : Fdbuf) (max_read : nat) (bs : list Z) (n : nat) :
  fb_ok fb -> (length bs <= max_read)%nat -> Z.of_nat (fb_capacity fb + max_read) < 2 ^ 32 ->
  (n <= fb_len fb)%nat ->
  match Fdbuf_recv max_read (Some bs) fb with
  | Ok (r, fb') => r = Z.of_nat (length bs) /\ fb_ok fb' /\ view fb' = view fb ++ bs
  | Fail f => f = UndefinedBehaviour
  end
  /\ (let '(w, fb') := Fdbuf_send (Some n) fb in
      w = Z.of_nat n /\ fb_ok fb' /\ view fb' = drop n (view fb)).
Proof.
  intros Hok Hbs Hbig Hn. pose proof Hok as [Hd Hc]. split.
  - unfold Fdbuf_recv. pose proof (ensure_additional_ok max_read fb Hok) as H.
    destruct (ensure_additional max_read fb) as [fb1|f]; cbn [rbind]; [|done].
    destruct H as ([Hd1 Hc1] & Hv & Hl & Hr & Hroom). unfold post_read. fbs.
    rewrite (u32_small (Z.of_nat (length bs))) by (unfold is_u32; lia). split; [done|].
    destruct (Z.ltb_spec 0 (Z.of_nat (length bs))) as [Hp|Hp].
    + rewrite u32_small by (unfold is_u32; lia).
      rewrite <- Nat2Z.inj_add, Nat2Z.id. split.
      * split; fbs; [|lia]. rewrite write_at_length by lia. done.
      * unfold view at 1. fbs. rewrite write_at_tail by lia. by rewrite <- Hv.
    + destruct bs as [|b bs]; [|simpl in Hp; lia]. rewrite app_nil_r. split.
      * split; fbs; [|lia]. rewrite write_at_length by (simpl; lia). done.
      * rewrite <- Hv. unfold view. fbs. unfold write_at. simpl.
        by rewrite Nat.add_0_r, take_drop.
  - unfold Fdbuf_send, post_write.
    rewrite (u32_small (Z.of_nat n)) by (unfold is_u32; lia). split; [done|].
    destruct (Z.ltb_spec 0 (Z.of_nat n)) as [Hp|Hp].
    + rewrite !u32_small by (unfold is_u32; lia).
      rewrite <- Nat2Z.inj_sub, <- Nat2Z.inj_add, !Nat2Z.id by lia.
      split; [split; fbs; lia|]. unfold view. fbs.
      rewrite <- drop_drop, take_drop_commute. do 2 f_equal. lia.
    + destruct n; [|lia]. done.
Qed.

(** a failed receive drops the last byte held by the buffer, and a failed
    send on a buffer nothing was removed from moves its start out of the
    array; both answer the word 2^32 - 1. *)
Theorem fdbuf_io_failure (fb fb1 : Fdbuf) (max_read : nat) :
  fb_ok fb -> (0 < fb_len fb)%nat -> Z.of_nat (fb_capacity fb) < 2 ^ 32 - 1 ->
  ensure_additional max_read fb = Ok fb1 ->
  (exists fb', Fdbuf_recv max_read None fb = Ok (2 ^ 32 - 1, fb')
    /\ view fb' = take (fb_len fb - 1) (view fb))
  /\ (fb_start fb = 0%nat ->
      exists fb', Fdbuf_send None fb = (2 ^ 32 - 1, fb') /\ ~ fb_ok fb').
Proof.
  intros Hok Hl Hcap He. pose proof Hok as [Hd Hc]. split.
  - unfold Fdbuf_recv. rewrite He. pose proof (ensure_additional_ok max_read fb Hok) as H.
    rewrite He in H. destruct H as (Hok1 & Hv & Hl1 & _ & _). cbn [rbind]. unfold post_read.
    change (u32 (-1)) with (2 ^ 32 - 1). eexists. split; [reflexivity|].
    change (0 <? 2 ^ 32 - 1) with true. cbv iota. unfold view at 1. fbs. rewrite <- Hv. unfold view. rewrite take_take. f_equal.
    unfold u32. replace (Z.of_nat (fb_len fb1) + (2 ^ 32 - 1))
      with (Z.of_nat (fb_len fb1 - 1) + 1 * 2 ^ 32) by lia.
    rewrite Z_mod_plus_full, Z.mod_small by lia. rewrite Nat2Z.id. lia.
  - intros Hs. unfold Fdbuf_send, post_write. change (u32 (-1)) with (2 ^ 32 - 1).
    eexists. split; [reflexivity|]. change (0 <? 2 ^ 32 - 1) with true. cbv iota. intros [_ Hc']. revert Hc'. fbs.
    rewrite Hs. change (u32 (Z.of_nat 0 + (2 ^ 32 - 1))) with (2 ^ 32 - 1). lia.
Qed.

Definition sample_buffer : Fdbuf := mkFdbuf 8 3 0 [1; 2; 3; 0; 0; 0; 0; 0] false.

Lemma fdbuf_io_correct_witness :
  match Fdbuf_recv 20 (Some [4; 5]) sample_buffer with
  | Ok (r, fb') => r = 2 /\ fb_ok fb' /\ view fb' = [1; 2; 3] ++ [4; 5]
  | Fail f => f = UndefinedBehaviour
  end
  /\ (let '(w, fb') := Fdbuf_send (Some 2%nat) sample_buffer in
      w = 2 /\ fb_ok fb' /\ view fb' = drop 2 [1; 2; 3]).
Proof.
  apply (fdbuf_io_correct sample_buffer 20 [4; 5] 2); [split; simpl; lia|simpl; lia..].
Defined.

Lemma fdbuf_io_failure_witness :
  (exists fb', Fdbuf_recv 4 None sample_buffer = Ok (2 ^ 32 - 1, fb') /\ view fb' = take 2 [1; 2; 3])
  /\ (fb_start sample_buffer = 0%nat ->
      exists fb', Fdbuf_send None sample_buffer = (2 ^ 32 - 1, fb') /\ ~ fb_ok fb').
Proof.
  apply (fdbuf_io_failure sample_buffer sample_buffer 4);
    [split; simpl; lia|simpl; lia|simpl; lia|reflexivity].
Defined.
