(* ===== verification/Xdr.v ===== *)
(** * Marshalling (src/p2core/xdrbuf.C, val_*.C, tuple.C, list.C, set.C, ID.C)

    Values are marshalled with Sun's XDR library onto a byte stream.  The
    marshalling code is written against [XdrStream], the interface an XDR
    handle offers; [Fdbuf] implements it with the operations of xdrbuf.C.  A read
    past the end leaves the C++ variable uninitialised, which is
    [UndefinedBehaviour] here.  Times use the nanosecond resolution the build
    configures ([PTIME_SECS_FACTOR] is one). *)

From Stdlib Require Import SpecFloat Ascii String.
From S2P Require Import Prelude Ids Stl Values Tuples Fdbuf.

(** ** The interface *)

(** A stream of bytes.  [xs_dst k] and [xs_src k] say that it can be written
    (read) and is [k] bytes past a word boundary. *)
Class XdrStream (B : Type) := {
  xs_putint32 : Z -> B -> res B;
  xs_putbytes : list Z -> B -> res B;
  xs_getint32 : B -> option (Z * B);
  xs_getbytes : nat -> B -> option (list Z * B);
  xs_view : B -> list Z;
  xs_dst : nat -> B -> Prop;
  xs_src : nat -> B -> Prop;
  xs_putint32_ok : forall z b, xs_dst 0 b -> exists b', xs_putint32 z b = Ok b'
    /\ xs_dst 0 b' /\ xs_view b' = xs_view b ++ be32 z;
  xs_putbytes_ok : forall k bs b, xs_dst k b -> exists b', xs_putbytes bs b = Ok b'
    /\ xs_dst ((k + length bs) mod 4) b' /\ xs_view b' = xs_view b ++ bs;
  xs_getint32_ok : forall k b, xs_src k b -> Forall is_byte (xs_view b) ->
    k = 0%nat \/ (length (xs_view b) < 4)%nat ->
    match xs_getint32 b with
    | Some (z, b') => (4 <= length (xs_view b))%nat /\ z = of_be32 (take 4 (xs_view b))
        /\ xs_src 0 b' /\ xs_view b' = drop 4 (xs_view b)
    | None => (length (xs_view b) < 4)%nat
    end;
  xs_getbytes_ok : forall k n b, xs_src k b ->
    match xs_getbytes n b with
    | Some (bs, b') => (n <= length (xs_view b))%nat /\ bs = take n (xs_view b)
        /\ xs_src ((k + n) mod 4) b' /\ xs_view b' = drop n (xs_view b)
    | None => (length (xs_view b) < n)%nat
    end;
  xs_dst_src : forall b, xs_dst 0 b -> xs_src 0 b
}.

(** ** Conversions *)

Definition to_i32 (z : Z) : Z := (z + 2 ^ 31) mod 2 ^ 32 - 2 ^ 31.
Definition to_s64 (z : Z) : Z := (z + 2 ^ 63) mod 2 ^ 64 - 2 ^ 63.

Definition string_of_bytes (bs : list Z) : string :=
  string_of_list_ascii (map (fun b => ascii_of_N (Z.to_N b)) bs).

(** [strlen]: up to the first null character. *)
Fixpoint c_string (bs : list Z) : list Z :=
  match bs with
  | [] => []
  | b :: bs' => if b =? 0 then [] else b :: c_string bs'
  end.

(** The 64 bits of a [double]; every NaN is sent as the quiet one. *)
Definition double_bits (d : spec_float) : Z :=
  let sgn (s : bool) : Z := if s then 2 ^ 63 else 0 in
  match d with
  | S754_zero s => sgn s
  | S754_infinity s => sgn s + 2047 * 2 ^ 52
  | S754_nan => 2047 * 2 ^ 52 + 2 ^ 51
  | S754_finite s m e =>
      sgn s + (if 2 ^ 52 <=? Z.pos m then (e + 1075) * 2 ^ 52 + (Z.pos m - 2 ^ 52) else Z.pos m)
  end.

Definition double_of_bits (w : Z) : spec_float :=
  let s := 2 ^ 63 <=? w in
  let ex := w / 2 ^ 52 mod 2048 in
  let fr := w mod 2 ^ 52 in
  if ex =? 0 then
    match fr with Zpos m => S754_finite s m (-1074) | _ => S754_zero s end
  else if ex =? 2047 then
    if fr =? 0 then S754_infinity s else S754_nan
  else
    match fr + 2 ^ 52 with Zpos m => S754_finite s m (ex - 1075) | _ => S754_nan end.

(** The representable [double]s. *)
Definition binary64 (d : spec_float) : bool :=
  match d with
  | S754_finite _ m e =>
      if 2 ^ 52 <=? Z.pos m
      then (Z.pos m <? 2 ^ 53) && (-1074 <=? e) && (e <=? 971)
      else e =? -1074
  | _ => true
  end.

(** Hours, minutes, seconds and nanoseconds of a duration, which boost divides
    with C's division; and the duration made of them ([time_duration(h, m, s, f)]),
    which is negative when one of them is. *)
Definition NS : Z := 10 ^ 9.
Definition hours (d : Z) : Z := d ÷ (3600 * NS).
Definition minutes (d : Z) : Z := Z.rem (d ÷ (60 * NS)) 60.
Definition seconds (d : Z) : Z := Z.rem (d ÷ NS) 60.
Definition fractional (d : Z) : Z := Z.rem d NS.
Definition time_duration (h m s f : Z) : Z :=
  let ticks := ((Z.abs h * 60 + Z.abs m) * 60 + Z.abs s) * NS + Z.abs f in
  if (h <? 0) || (m <? 0) || (s <? 0) || (f <? 0) then - ticks else ticks.

(** ** XDR primitives *)

Section stream.
Context {B : Type} `{XS : !XdrStream B}.

Local Open Scope p2_scope.

Definition get32 (b : B) : res (Z * B) := of_option UndefinedBehaviour (xs_getint32 b).
Definition getn (n : nat) (b : B) : res (list Z * B) :=
  of_option UndefinedBehaviour (xs_getbytes n b).

(** [xdr_uint32_t], [xdr_int32_t] *)
Definition put_uint32 (z : Z) (b : B) : res B := xs_putint32 z b.
Definition get_uint32 (b : B) : res (Z * B) := get32 b.
Definition get_int32 (b : B) : res (Z * B) := let? (z, b) := get32 b in Ok (to_i32 z, b).

(** [xdr_int64_t]: high word, then low word; [xdr_double] likewise. *)
Definition put_64 (z : Z) (b : B) : res B :=
  let? b := xs_putint32 (z / 2 ^ 32) b in xs_putint32 z b.
Definition get_64 (b : B) : res (Z * B) :=
  let? (hi, b) := get32 b in
  let? (lo, b) := get32 b in
  Ok (hi * 2 ^ 32 + lo, b).

(** [xdr_opaque]: the bytes, then zeros up to a word boundary. *)
Definition xdr_pad (n : nat) : nat := (align n - n)%nat.

Definition put_opaque (bs : list Z) (b : B) : res B :=
  let? b := xs_putbytes bs b in
  if (xdr_pad (length bs) =? 0)%nat then Ok b
  else xs_putbytes (replicate (xdr_pad (length bs)) 0) b.
Definition get_opaque (n : nat) (b : B) : res (list Z * B) :=
  let? (bs, b) := getn n b in
  if (xdr_pad n =? 0)%nat then Ok (bs, b)
  else let? (_, b) := getn (xdr_pad n) b in Ok (bs, b).

(** [xdr_string] with [maxsize] *)
Definition put_string (bs : list Z) (b : B) : res B :=
  let? b := xs_putint32 (Z.of_nat (length (c_string bs))) b in put_opaque (c_string bs) b.
Definition get_string (maxsize : Z) (b : B) : res (list Z * B) :=
  let? (n, b) := get32 b in
  if maxsize <? n then Fail UndefinedBehaviour
  else get_opaque (Z.to_nat n) b.

(** ** The value classes *)

(** [Val_Str::xdr_marshal_subtype]: the length, then an XDR string. *)
Definition Val_Str_marshal (s : string) (b : B) : res B :=
  let bs := string_bytes s in
  let? b := put_uint32 (Z.of_nat (length bs)) b in put_string bs b.

(** [Val_Str::xdr_unmarshal]: [sl] bytes of the buffer [xdr_string] filled; a
    negative [sl], or fewer characters than announced, reads outside what was
    received, and as many characters as the static buffer holds leave no room
    for the null that [xdr_string] appends. *)
Definition STATIC_STRING_BUFFER : Z := 10000.
Definition Val_Str_unmarshal (b : B) : res (value * B) :=
  let? (sl, b) := get_int32 b in
  if sl <? 0 then Fail UndefinedBehaviour
  else
    let? (bs, b) := get_string (if sl + 1 <=? STATIC_STRING_BUFFER then sl + 1 else sl) b in
    if Z.of_nat (length bs) <? sl then Fail UndefinedBehaviour
    else if (sl + 1 <=? STATIC_STRING_BUFFER) && (STATIC_STRING_BUFFER <=? Z.of_nat (length bs))
    then Fail UndefinedBehaviour
    else Ok (VStr (string_of_bytes (take (Z.to_nat sl) bs)), b).

Definition Val_Int64_marshal (i : Z) (b : B) : res B := put_64 i b.
Definition Val_Int64_unmarshal (b : B) : res (value * B) :=
  let? (z, b) := get_64 b in Ok (VInt64 (to_s64 z), b).

Definition Val_Double_marshal (d : spec_float) (b : B) : res B := put_64 (double_bits d) b.
Definition Val_Double_unmarshal (b : B) : res (value * B) :=
  let? (w, b) := get_64 b in Ok (VDouble (double_of_bits w), b).

Definition Val_Opaque_marshal (bs : list Z) (b : B) : res B :=
  let? b := put_uint32 (Z.of_nat (length bs)) b in put_opaque bs b.

(** [Val_Opaque::xdr_unmarshal] ignores the failure of [xdr_opaque]: a short
    opaque whose bytes are missing is all zeros (the static buffer was
    cleared), a long one is uninitialised memory, and missing padding goes
    unnoticed. *)
Definition STATIC_BYTE_BUFFER : Z := 10000.
Definition Val_Opaque_unmarshal (b : B) : res (value * B) :=
  let? (n, b) := get_uint32 b in
  match xs_getbytes (Z.to_nat n) b with
  | None =>
      if n <=? STATIC_BYTE_BUFFER then Ok (VOpaque (replicate (Z.to_nat n) 0), b)
      else Fail UndefinedBehaviour
  | Some (bs, b) =>
      if (xdr_pad (Z.to_nat n) =? 0)%nat then Ok (VOpaque bs, b)
      else match xs_getbytes (xdr_pad (Z.to_nat n)) b with
           | Some (_, b) => Ok (VOpaque bs, b)
           | None => Ok (VOpaque bs, b)
           end
  end.

(** [Val_Time] and [Val_Time_Duration]: four words. *)
Definition put_duration (d : Z) (b : B) : res B :=
  let? b := put_uint32 (hours d) b in
  let? b := put_uint32 (minutes d) b in
  let? b := put_uint32 (seconds d) b in
  put_uint32 (fractional d) b.
Definition get_duration (b : B) : res (Z * B) :=
  let? (h, b) := get_uint32 b in
  let? (m, b) := get_uint32 b in
  let? (s, b) := get_uint32 b in
  let? (f, b) := get_uint32 b in
  Ok (time_duration (to_i32 h) (to_i32 m) (to_i32 s) f, b).

(** [ID::xdr_marshal], [ID::xdr_unmarshal]: one word after the other; the words
    of a new [ID] are zero and stay so when the input ends. *)
Fixpoint put_words (ws : list Z) (b : B) : res B :=
  match ws with
  | [] => Ok b
  | w :: ws' => let? b := put_uint32 w b in put_words ws' b
  end.
Fixpoint get_words (n : nat) (b : B) : res (list Z * B) :=
  match n with
  | O => Ok ([], b)
  | S n' =>
      let '(w, b) := match xs_getint32 b with Some r => r | None => (0, b) end in
      let? (ws, b) := get_words n' b in Ok (w :: ws, b)
  end.

(** [Value::xdr_marshal]: the type code, then the subtype; collections are
    counted ([Tuple], [List], [Set], [Val_Vector], [Val_Matrix]). *)
Fixpoint xdr_marshal (v : value) (b : B) : res B :=
  let seq := fix seq (vs : list value) (b : B) : res B :=
    match vs with
    | [] => Ok b
    | v :: vs' => let? b := xdr_marshal v b in seq vs' b
    end in
  let counted vs b := let? b := put_uint32 (Z.of_nat (length vs)) b in seq vs b in
  let? b := put_uint32 (tcode (typeCode v)) b in
  match v with
  | VNull => Ok b
  | VStr s => Val_Str_marshal s b
  | VInt64 i => Val_Int64_marshal i b
  | VDouble d => Val_Double_marshal d b
  | VOpaque bs => Val_Opaque_marshal bs b
  | VTuple t => counted t b
  | VTime t => put_duration t b
  | VID i => put_words (words i) b
  | VTimeDuration td => put_duration td b
  | VSet l => counted l b
  | VList l => counted l b
  | VVector l => counted l b
  | VMatrix s1 s2 m =>
      let? b := put_uint32 (Z.of_nat s1) b in
      let? b := put_uint32 (Z.of_nat s2) b in seq m b
  end.

Fixpoint marshal_seq (vs : list value) (b : B) : res B :=
  match vs with
  | [] => Ok b
  | v :: vs' => let? b := xdr_marshal v b in marshal_seq vs' b
  end.

(** [Value::xdr_unmarshal], by the jump table; [unmarshal_seq] is the loop
    that reads [n] values.  Every value takes at least one word, so [fuel]
    past the number of bytes left is enough. *)
Fixpoint xdr_unmarshal (fuel : nat) (b : B) : res (value * B) :=
  match fuel with
  | O => Fail OutOfFuel
  | S fuel' =>
      let? (tc, b) := get_uint32 b in
      let counted (k : list value -> value) :=
        let? (n, b) := get_uint32 b in
        let? (vs, b) := unmarshal_seq fuel' n b in Ok (k vs, b) in
      if tc =? 1 then Val_Str_unmarshal b
      else if tc =? 2 then Val_Int64_unmarshal b
      else if tc =? 3 then Val_Double_unmarshal b
      else if tc =? 4 then Val_Opaque_unmarshal b
      else if tc =? 5 then counted VTuple
      else if tc =? 6 then let? (d, b) := get_duration b in Ok (VTime d, b)
      else if tc =? 7 then let? (ws, b) := get_words WORDS b in Ok (VID (mkID ws), b)
      else if tc =? 8 then let? (d, b) := get_duration b in Ok (VTimeDuration d, b)
      else if tc =? 9 then counted (fun vs => VSet (Set_of_list vs))
      else if tc =? 10 then counted VList
      else if tc =? 11 then counted VVector
      else if tc =? 12 then
        let? (n1, b) := get_uint32 b in
        let? (n2, b) := get_uint32 b in
        let? (vs, b) := unmarshal_seq fuel' (n1 * n2) b in
        Ok (VMatrix (Z.to_nat n1) (Z.to_nat n2) vs, b)
      else Ok (VNull, b)
  end
with unmarshal_seq (fuel : nat) (n : Z) (b : B) : res (list value * B) :=
  if n <=? 0 then Ok ([], b)
  else
    match fuel with
    | O => Fail OutOfFuel
    | S fuel' =>
        let? (v, b) := xdr_unmarshal fuel' b in
        let? (vs, b) := unmarshal_seq fuel' (n - 1) b in Ok (v :: vs, b)
    end.

(** [Tuple::xdr_marshal] asserts that the tuple is frozen;
    [Tuple::xdr_unmarshal] builds a fresh one, with identity [id]. *)
Definition Tuple_xdr_marshal (t : tuple) (b : B) : res B :=
  let? _ := check (frozen t) AssertFailed in
  let? b := put_uint32 (Z.of_nat (length (fields t))) b in marshal_seq (fields t) b.
Definition Tuple_xdr_unmarshal (fuel : nat) (id : Z) (b : B) : res (tuple * B) :=
  let? (n, b) := get_uint32 b in
  let? (vs, b) := unmarshal_seq fuel n b in Ok (mkTuple vs false id, b).
End stream.

(** ** The wire format *)

Definition enc_64 (z : Z) : list Z := be32 (z / 2 ^ 32) ++ be32 z.
Definition enc_opaque (bs : list Z) : list Z := bs ++ replicate (xdr_pad (length bs)) 0.
Definition enc_string (bs : list Z) : list Z :=
  be32 (Z.of_nat (length (c_string bs))) ++ enc_opaque (c_string bs).
Definition enc_duration (d : Z) : list Z :=
  be32 (hours d) ++ be32 (minutes d) ++ be32 (seconds d) ++ be32 (fractional d).

Fixpoint enc (v : value) : list Z :=
  be32 (tcode (typeCode v)) ++
  match v with
  | VNull => []
  | VStr s => be32 (Z.of_nat (length (string_bytes s))) ++ enc_string (string_bytes s)
  | VInt64 i => enc_64 i
  | VDouble d => enc_64 (double_bits d)
  | VOpaque bs => be32 (Z.of_nat (length bs)) ++ enc_opaque bs
  | VTuple t => be32 (Z.of_nat (length t)) ++ flat_map enc t
  | VTime t => enc_duration t
  | VID i => flat_map be32 (words i)
  | VTimeDuration td => enc_duration td
  | VSet l => be32 (Z.of_nat (length l)) ++ flat_map enc l
  | VList l => be32 (Z.of_nat (length l)) ++ flat_map enc l
  | VVector l => be32 (Z.of_nat (length l)) ++ flat_map enc l
  | VMatrix s1 s2 m => be32 (Z.of_nat s1) ++ be32 (Z.of_nat s2) ++ flat_map enc m
  end.

(** What can be sent: strings without null characters shorter than 2^31 - 1,
    64-bit integers and doubles, bytes, non-negative times below 2^31 hours,
    well-formed identifiers and sets, matrices with as many entries as their
    dimensions say, counts that fit a word. *)
Definition duration_ok (d : Z) : bool := (0 <=? d) && (d <? 2 ^ 31 * 3600 * NS).
Definition count_ok {A} (l : list A) : bool := Z.of_nat (length l) <? 2 ^ 32.

Fixpoint xdr_ok (v : value) : bool :=
  match v with
  | VNull => true
  | VStr s => forallb (fun b => negb (b =? 0)) (string_bytes s)
              && (Z.of_nat (length (string_bytes s)) <? 2 ^ 31 - 1)
  | VInt64 i => bool_decide (is_i64 i)
  | VDouble d => binary64 d
  | VOpaque bs => count_ok bs && bool_decide (Forall is_byte bs)
  | VTuple t => count_ok t && forallb xdr_ok t
  | VTime t => duration_ok t
  | VID i => bool_decide (wf_id i)
  | VTimeDuration td => duration_ok td
  | VSet l => count_ok l && bool_decide (wf_set l) && forallb xdr_ok l
  | VList l => count_ok l && forallb xdr_ok l
  | VVector l => count_ok l && forallb xdr_ok l
  | VMatrix s1 s2 m =>
      (Z.of_nat s1 <? 2 ^ 32) && (Z.of_nat s2 <? 2 ^ 32) && (length m =? s1 * s2)%nat
      && forallb xdr_ok m
  end.

(** ** Arithmetic of the conversions *)

Lemma be32_u32 x : be32 (u32 x) = be32 x.
Proof.
  unfold be32, u32.
  assert (Hm : forall k, 0 <= k <= 24 -> (x mod 2 ^ 32) / 2 ^ k mod 256 = x / 2 ^ k mod 256).
  { intros k Hk. change 256 with (2 ^ 8).
    apply Z.bits_inj'. intros n Hn. destruct (Z.lt_ge_cases n 8).
    - rewrite !Z.mod_pow2_bits_low, !Z.div_pow2_bits, Z.mod_pow2_bits_low by lia. done.
    - rewrite !Z.mod_pow2_bits_high by lia. done. }
  pose proof (Hm 0 ltac:(lia)) as H0. rewrite !Z.div_1_r in H0.
  rewrite !Hm by lia. by rewrite H0.
Qed.

Lemma u32_be32 x : of_be32 (be32 x) = u32 x.
Proof. rewrite <- be32_u32. apply of_be32_be32, u32_range. Qed.

Lemma be32_bytes x : Forall is_byte (be32 x).
Proof. repeat constructor; apply mod_byte. Qed.

Lemma be32_length x : length (be32 x) = 4%nat.
Proof. done. Qed.

Lemma words_64 z : 0 <= z < 2 ^ 64 -> u32 (z / 2 ^ 32) * 2 ^ 32 + u32 z = z.
Proof.
  intros Hz. unfold u32. rewrite (Z.mod_small (z / 2 ^ 32)).
  - pose proof (Z.div_mod z (2 ^ 32)). lia.
  - split; [apply Z.div_pos; lia|]. apply Z.div_lt_upper_bound; lia.
Qed.

Lemma words_s64 z : is_i64 z -> to_s64 (u32 (z / 2 ^ 32) * 2 ^ 32 + u32 z) = z.
Proof.
  unfold is_i64. intros Hz. unfold to_s64, u32. pose proof (Z.div_mod z (2 ^ 32)).
  assert (Hd : - 2 ^ 31 <= z / 2 ^ 32 < 2 ^ 31).
  { split; [apply Z.div_le_lower_bound; lia|apply Z.div_lt_upper_bound; lia]. }
  destruct (Z.lt_ge_cases (z / 2 ^ 32) 0) as [Hn|Hp].
  - rewrite <- (Z_mod_plus_full (z / 2 ^ 32) 1), (Z.mod_small (z / 2 ^ 32 + 1 * 2 ^ 32)) by lia.
    replace ((z / 2 ^ 32 + 1 * 2 ^ 32) * 2 ^ 32 + z mod 2 ^ 32 + 2 ^ 63) with (z + 2 ^ 63 + 1 * 2 ^ 64) by lia.
    rewrite Z_mod_plus_full, Z.mod_small; lia.
  - rewrite (Z.mod_small (z / 2 ^ 32)) by lia.
    replace (z / 2 ^ 32 * 2 ^ 32 + z mod 2 ^ 32 + 2 ^ 63) with (z + 2 ^ 63) by lia.
    rewrite Z.mod_small; lia.
Qed.

(** The parts of a duration that is not negative. *)
Lemma duration_parts_nonneg d : 0 <= d ->
  hours d = d / NS / 60 / 60 /\ minutes d = d / NS / 60 mod 60 /\ seconds d = d / NS mod 60 /\ fractional d = d mod NS.
Proof.
  intros Hd. assert (HN : 0 < NS) by done. pose proof (Z.div_pos d NS Hd HN). pose proof (Z.div_pos d (60 * NS) Hd ltac:(lia)).
  unfold hours, minutes, seconds, fractional. rewrite !Z.quot_div_nonneg, !Z.rem_mod_nonneg by lia.
  rewrite !Z.div_div by lia. replace (NS * 60 * 60) with (3600 * NS) by lia. by replace (NS * 60) with (60 * NS) by lia.
Qed.

Lemma duration_parts d : 0 <= d ->
  time_duration (hours d) (minutes d) (seconds d) (fractional d) = d.
Proof.
  intros Hd. destruct (duration_parts_nonneg d Hd) as (-> & -> & -> & ->). unfold time_duration.
  pose proof (Z.div_pos d NS Hd). assert (0 <= d / NS / 60 / 60) by (repeat apply Z.div_pos; unfold NS; lia).
  pose proof (Z.mod_pos_bound (d / NS / 60) 60). pose proof (Z.mod_pos_bound (d / NS) 60). pose proof (Z.mod_pos_bound d NS).
  pose proof (Z.div_mod d NS). pose proof (Z.div_mod (d / NS) 60). pose proof (Z.div_mod (d / NS / 60) 60).
  unfold NS in *. rewrite !(proj2 (Z.ltb_ge _ _)) by lia. cbn [orb]. rewrite !Z.abs_eq by lia. lia.
Qed.

Lemma duration_u32 d : duration_ok d = true ->
  u32 (hours d) = hours d /\ u32 (minutes d) = minutes d
  /\ u32 (seconds d) = seconds d /\ u32 (fractional d) = fractional d.
Proof.
  unfold duration_ok. intros H. bools. destruct (duration_parts_nonneg d) as (-> & -> & -> & ->); [lia|]. unfold NS in *.
  split_and!; apply u32_small; unfold is_u32.
  - split; [repeat apply Z.div_pos; lia|]. rewrite !Z.div_div by lia. apply Z.div_lt_upper_bound; lia.
  - pose proof (Z.mod_pos_bound (d / 10 ^ 9 / 60) 60). lia.
  - pose proof (Z.mod_pos_bound (d / 10 ^ 9) 60). lia.
  - pose proof (Z.mod_pos_bound d (10 ^ 9)). lia.
Qed.
(** The words of hours, minutes and seconds are read as signed. *)
Lemma duration_i32 d : duration_ok d = true ->
  to_i32 (hours d) = hours d /\ to_i32 (minutes d) = minutes d /\ to_i32 (seconds d) = seconds d.
Proof.
  unfold duration_ok. intros H. bools. destruct (duration_parts_nonneg d) as (-> & -> & -> & _); [lia|]. unfold NS in *.
  assert (Hi : forall z, 0 <= z < 2 ^ 31 -> to_i32 z = z) by (intros z Hz; unfold to_i32; rewrite Z.mod_small; lia).
  split_and!; apply Hi.
  - split; [repeat apply Z.div_pos; lia|]. rewrite !Z.div_div by lia. apply Z.div_lt_upper_bound; lia.
  - pose proof (Z.mod_pos_bound (d / 10 ^ 9 / 60) 60). lia.
  - pose proof (Z.mod_pos_bound (d / 10 ^ 9) 60). lia.
Qed.

Lemma double_bits_range d : binary64 d = true -> 0 <= double_bits d < 2 ^ 64.
Proof.
  destruct d as [s|s| |s m e]; simpl; intros H; try (destruct s; lia); try lia.
  destruct (Z.leb_spec (2 ^ 52) (Z.pos m)); bools; destruct s; nia.
Qed.

Lemma double_roundtrip d : binary64 d = true -> double_of_bits (double_bits d) = d.
Proof.
  assert (Hsplit : forall (s : bool) ex fr, 0 <= ex < 2048 -> 0 <= fr < 2 ^ 52 ->
    let w := (if s then 2 ^ 63 else 0) + (ex * 2 ^ 52 + fr) in
    (2 ^ 63 <=? w) = s /\ w / 2 ^ 52 mod 2048 = ex /\ w mod 2 ^ 52 = fr).
  { intros s ex fr He Hf w. unfold w. split_and!.
    - destruct s; [apply Z.leb_le|apply Z.leb_gt]; lia.
    - replace (((if s then 2 ^ 63 else 0) + (ex * 2 ^ 52 + fr)) / 2 ^ 52)
        with ((if s then 2048 else 0) + ex) by (apply (Z.div_unique _ _ _ fr); destruct s; lia).
      symmetry. apply (Z.mod_unique _ _ (if s then 1 else 0)); destruct s; lia.
    - symmetry. apply (Z.mod_unique _ _ ((if s then 2048 else 0) + ex)); destruct s; lia. }
  destruct d as [s|s| |s m e]; intros H; simpl in H.
  - by destruct s.
  - by destruct s.
  - done.
  - unfold double_of_bits, double_bits. destruct (Z.leb_spec (2 ^ 52) (Z.pos m)) as [Hm|Hm]; bools.
    + destruct (Hsplit s (e + 1075) (Z.pos m - 2 ^ 52)) as (E1 & E2 & E3); [lia..|].
      rewrite E1, E2, E3. destruct (Z.eqb_spec (e + 1075) 0); [lia|].
      destruct (Z.eqb_spec (e + 1075) 2047); [lia|].
      replace (Z.pos m - 2 ^ 52 + 2 ^ 52) with (Z.pos m) by lia. f_equal. lia.
    + destruct (Hsplit s 0 (Z.pos m)) as (E1 & E2 & E3); [lia..|].
      rewrite Z.mul_0_l, Z.add_0_l in E1, E2, E3. rewrite E1, E2, E3. simpl. by subst.
Qed.

Lemma c_string_id bs : forallb (fun b => negb (b =? 0)) bs = true -> c_string bs = bs.
Proof.
  induction bs as [|b bs IH]; simpl; [done|]. intros H. bools.
  rewrite (proj2 (Z.eqb_neq b 0)) by done. by rewrite IH.
Qed.

Lemma string_bytes_roundtrip s : string_of_bytes (string_bytes s) = s.
Proof.
  unfold string_of_bytes, string_bytes. rewrite map_map.
  rewrite (map_ext _ id), map_id; [apply string_of_list_ascii_of_string|].
  intros a. by rewrite N2Z.id, ascii_N_embedding.
Qed.

Lemma string_bytes_bytes s : Forall is_byte (string_bytes s).
Proof.
  apply Forall_forall. intros b Hb. unfold string_bytes in Hb.
  apply list_elem_of_In, in_map_iff in Hb as (a & <- & _).
  pose proof (N_ascii_bounded a). unfold is_byte. lia.
Qed.

(** ** Writing *)

Section writing.
Context {B : Type} `{XS : !XdrStream B}.

(** [f] appends the bytes [bs], word-aligned. *)
Definition puts (f : B -> res B) (bs : list Z) : Prop :=
  forall b, xs_dst 0 b -> exists b', f b = Ok b' /\ xs_dst 0 b' /\ xs_view b' = xs_view b ++ bs.

Lemma puts_ret : puts (fun b => Ok b) [].
Proof. intros b Hb. exists b. by rewrite app_nil_r. Qed.

Lemma puts_bind f g x y : puts f x -> puts g y -> puts (fun b => rbind (f b) g) (x ++ y).
Proof.
  intros Hf Hg b Hb. destruct (Hf b Hb) as (b1 & E1 & H1 & V1).
  destruct (Hg b1 H1) as (b2 & E2 & H2 & V2). exists b2. rewrite E1. simpl.
  split_and!; auto. by rewrite V2, V1, <- app_assoc.
Qed.

Lemma puts_u32 z : puts (put_uint32 z) (be32 z).
Proof. intros b Hb. by apply xs_putint32_ok. Qed.

Lemma puts_64 z : puts (put_64 z) (enc_64 z).
Proof. apply (puts_bind (put_uint32 _) (put_uint32 _)); apply puts_u32. Qed.

Lemma align_mod n : ((n + xdr_pad n) mod 4 = 0)%nat.
Proof.
  unfold xdr_pad. pose proof (align_ge n).
  replace (n + (align n - n))%nat with (align n) by lia. apply Nat.Div0.mod_mul.
Qed.

Lemma puts_opaque bs : puts (put_opaque bs) (enc_opaque bs).
Proof.
  intros b Hb. unfold put_opaque, enc_opaque. pose proof (align_mod (length bs)) as Hm.
  destruct (xs_putbytes_ok 0 bs b Hb) as (b1 & E1 & H1 & V1). rewrite E1. simpl rbind.
  destruct (Nat.eqb_spec (xdr_pad (length bs)) 0) as [Ez|Ez].
  - rewrite Ez, Nat.add_0_r in Hm. rewrite Nat.add_0_l, Hm in H1.
    exists b1. rewrite Ez. cbn [replicate]. by rewrite app_nil_r.
  - destruct (xs_putbytes_ok _ (replicate (xdr_pad (length bs)) 0) b1 H1) as (b2 & E2 & H2 & V2).
    rewrite length_replicate, Nat.Div0.add_mod_idemp_l, Nat.add_0_l, Hm in H2.
    exists b2. split_and!; auto. by rewrite V2, V1, <- app_assoc.
Qed.

Lemma puts_string bs : puts (put_string bs) (enc_string bs).
Proof. apply (puts_bind (put_uint32 _) (put_opaque _)); [apply puts_u32|apply puts_opaque]. Qed.

Lemma puts_duration d : puts (put_duration d) (enc_duration d).
Proof. repeat (apply puts_bind; [apply puts_u32|]). apply puts_u32. Qed.

Lemma puts_words ws : puts (put_words ws) (flat_map be32 ws).
Proof.
  induction ws as [|w ws IH]; [apply puts_ret|].
  cbn [put_words flat_map]. apply puts_bind; [apply puts_u32|exact IH].
Qed.

Lemma puts_seq vs : Forall (fun v => puts (xdr_marshal v) (enc v)) vs ->
  puts (marshal_seq vs) (flat_map enc vs).
Proof.
  induction 1 as [|v vs Hv _ IH]; [apply puts_ret|].
  cbn [marshal_seq flat_map]. by apply puts_bind.
Qed.

(** Induction over values and the values inside them. *)
Lemma value_nested_ind (P : value -> Prop) :
  (forall v, match v with
             | VTuple l | VSet l | VList l | VVector l | VMatrix _ _ l => Forall P l
             | _ => True
             end -> P v) -> forall v, P v.
Proof.
  intros H. fix go 1. intros v. apply H.
  assert (Hl : forall l : list value, (forall v, P v) -> Forall P l)
    by (intros l HP; induction l; constructor; auto).
  destruct v as [| | | | |t| | | |l|l|l|s1 s2 l]; try exact I;
    match goal with |- Forall P ?l => clear -go; induction l as [|w l IH]; constructor; auto end.
Qed.

Lemma marshal_seq_eq vs b :
  (fix seq (vs : list value) (b : B) : res B :=
    match vs with
    | [] => Ok b
    | v :: vs' => rbind (xdr_marshal v b) (fun b => seq vs' b)
    end) vs b = marshal_seq vs b.
Proof. revert b. induction vs as [|v vs IH]; intros b; simpl; [done|].
  destruct (xdr_marshal v b); simpl; auto. Qed.

Lemma rbind_ext {A C} (m : res A) (k1 k2 : A -> res C) :
  (forall a, k1 a = k2 a) -> rbind m k1 = rbind m k2.
Proof. intros H. destruct m; simpl; auto. Qed.

Lemma puts_ext f g bs : (forall b, f b = g b) -> puts g bs -> puts f bs.
Proof. intros E H b Hb. rewrite E. by apply H. Qed.

(** Marshalling writes the wire format. *)
Lemma xdr_marshal_ok v : puts (xdr_marshal v) (enc v).
Proof.
  induction v as [v IH] using value_nested_ind.
  assert (Hc : forall l, Forall (fun v => puts (xdr_marshal v) (enc v)) l ->
    puts (fun b => rbind (put_uint32 (Z.of_nat (length l)) b) (fun b => marshal_seq l b))
      (be32 (Z.of_nat (length l)) ++ flat_map enc l)).
  { intros l Hl. apply puts_bind; [apply puts_u32|by apply puts_seq]. }
  destruct v as [|s|i|d|bs|t|t|i|td|l|l|l|s1 s2 l]; cbn [xdr_marshal enc typeCode];
    apply puts_bind; try apply puts_u32; try apply puts_ret; try apply puts_64;
    try apply puts_duration; try apply puts_words.
  { apply puts_bind; [apply puts_u32|apply puts_string]. }
  { apply puts_bind; [apply puts_u32|apply puts_opaque]. }
  1-4: eapply puts_ext; [|apply (Hc _ IH)]; intros b; apply rbind_ext, marshal_seq_eq.
  apply puts_bind; [apply puts_u32|]. apply puts_bind; [apply puts_u32|].
  eapply puts_ext; [|apply (puts_seq l IH)]. intros b. apply marshal_seq_eq.
Qed.
End writing.

(** ** Reading *)

Section reading.
Context {B : Type} `{XS : !XdrStream B}.

(** [f] reads [a] off the bytes [bs]. *)
Definition gets {A} (f : B -> res (A * B)) (bs : list Z) (a : A) : Prop :=
  forall b rest, xs_src 0 b -> Forall is_byte (xs_view b) -> xs_view b = bs ++ rest ->
  exists b', f b = Ok (a, b') /\ xs_src 0 b' /\ xs_view b' = rest.

Lemma gets_ret {A} (a : A) : gets (fun b => Ok (a, b)) [] a.
Proof. intros b rest Hb _ E. by exists b. Qed.

Lemma gets_bind {A C} (f : B -> res (A * B)) (g : A -> B -> res (C * B)) x y a c :
  gets f x a -> gets (g a) y c ->
  gets (fun b => rbind (f b) (fun '(a, b) => g a b)) (x ++ y) c.
Proof.
  intros Hf Hg b rest Hb Hby E. rewrite <- app_assoc in E.
  destruct (Hf b _ Hb Hby E) as (b1 & E1 & H1 & V1). rewrite E1. cbn [rbind].
  apply Hg; auto. rewrite E in Hby. rewrite V1. by apply Forall_app in Hby as [_ ?].
Qed.

Lemma gets_u32 z : gets get_uint32 (be32 z) (u32 z).
Proof.
  intros b rest Hb Hby E. unfold get_uint32, get32. pose proof (xs_getint32_ok 0 b Hb Hby (or_introl eq_refl)) as H.
  rewrite E in H. destruct (xs_getint32 b) as [[z' b']|]; cbn [of_option].
  - destruct H as (_ & -> & Hs & Hv). exists b'. by rewrite <- u32_be32.
  - simpl in H. lia.
Qed.

Lemma gets_map {A C} (f : B -> res (A * B)) (k : A -> C) bs a :
  gets f bs a -> gets (fun b => rbind (f b) (fun '(a, b) => Ok (k a, b))) bs (k a).
Proof.
  intros H. rewrite <- (app_nil_r bs).
  apply (gets_bind f (fun a b => Ok (k a, b)) bs [] a); [done|apply gets_ret].
Qed.

Lemma gets_u32_small z : is_u32 z -> gets get_uint32 (be32 z) z.
Proof. intros H. rewrite <- (u32_small z H) at 2. apply gets_u32. Qed.

Lemma gets_len {A} (l : list A) : count_ok l = true ->
  gets get_uint32 (be32 (Z.of_nat (length l))) (Z.of_nat (length l)).
Proof. unfold count_ok. intros H. bools. apply gets_u32_small. unfold is_u32. lia. Qed.

Lemma gets_64 z : gets get_64 (enc_64 z) (u32 (z / 2 ^ 32) * 2 ^ 32 + u32 z).
Proof.
  unfold get_64, enc_64. eapply gets_bind; [apply gets_u32|].
  apply (gets_map get32), gets_u32.
Qed.

Lemma gets_opaque bs : gets (get_opaque (length bs)) (enc_opaque bs) bs.
Proof.
  intros b rest Hb Hby E. unfold get_opaque, enc_opaque, getn in *.
  rewrite <- app_assoc in E. pose proof (align_mod (length bs)) as Hm.
  pose proof (xs_getbytes_ok 0 (length bs) b Hb) as H. rewrite E in H.
  destruct (xs_getbytes (length bs) b) as [[bs' b1]|]; cbn [of_option rbind];
    [|rewrite length_app in H; lia].
  destruct H as (_ & -> & Hs & Hv). rewrite take_app_length. rewrite drop_app_length in Hv.
  destruct (Nat.eqb_spec (xdr_pad (length bs)) 0) as [Ez|Ez].
  - rewrite Ez, Nat.add_0_r in Hm. rewrite Nat.add_0_l, Hm in Hs. rewrite Ez in Hv. by exists b1.
  - pose proof (xs_getbytes_ok _ (xdr_pad (length bs)) b1 Hs) as H. rewrite Hv in H.
    destruct (xs_getbytes (xdr_pad (length bs)) b1) as [[z b2]|]; cbn [of_option rbind];
      [|rewrite length_app, length_replicate in H; lia].
    destruct H as (_ & _ & Hs2 & Hv2).
    rewrite Nat.Div0.add_mod_idemp_l, Nat.add_0_l, Hm in Hs2.
    exists b2. rewrite drop_app_length' in Hv2 by (by rewrite length_replicate). done.
Qed.

Lemma gets_string maxsize bs :
  Z.of_nat (length (c_string bs)) <= maxsize -> count_ok (c_string bs) = true ->
  gets (get_string maxsize) (enc_string bs) (c_string bs).
Proof.
  intros Hm Hc. unfold get_string, enc_string. eapply gets_bind; [by apply (gets_len _ Hc)|].
  cbv beta. rewrite (proj2 (Z.ltb_ge _ _)) by done. rewrite Nat2Z.id. apply gets_opaque.
Qed.

Lemma gets_duration d : duration_ok d = true -> gets get_duration (enc_duration d) d.
Proof.
  intros H. destruct (duration_u32 d H) as (E1 & E2 & E3 & E4).
  assert (Hd : 0 <= d) by (unfold duration_ok in H; bools; lia).
  destruct (duration_i32 d H) as (I1 & I2 & I3).
  unfold get_duration, enc_duration. rewrite <- (duration_parts d Hd) at 5. rewrite <- I1 at 2. rewrite <- I2 at 2. rewrite <- I3 at 2.
  rewrite <- E1 at 2. rewrite <- E2 at 2. rewrite <- E3 at 2. rewrite <- E4 at 2.
  repeat (eapply gets_bind; [apply gets_u32|]; cbv beta).
  apply (gets_map get_uint32 (fun f => time_duration _ _ _ f)), gets_u32.
Qed.

Lemma gets_words ws : Forall is_u32 ws -> gets (get_words (length ws)) (flat_map be32 ws) ws.
Proof.
  induction 1 as [|w ws Hw _ IH]; [apply gets_ret|].
  cbn [get_words flat_map length]. intros b rest Hb Hby E. rewrite <- app_assoc in E.
  destruct (gets_u32_small w Hw b _ Hb Hby E) as (b1 & E1 & H1 & V1). revert E1.
  unfold get_uint32, get32. destruct (xs_getint32 b) as [r|]; [|done]. intros [= ->].
  apply (gets_map (get_words _) (cons w) _ _ IH); auto.
  rewrite E in Hby. rewrite V1. by apply Forall_app in Hby as [_ ?].
Qed.

(** Every value takes at least a word. *)
Lemma enc_length v : (4 <= length (enc v))%nat.
Proof. destruct v; cbn [enc]; rewrite length_app, be32_length; lia. Qed.

(** [v] is read back by any call with enough fuel. *)
Definition reads_back (v : value) : Prop :=
  forall fuel, (length (enc v) + 2 <= fuel)%nat -> gets (xdr_unmarshal fuel) (enc v) v.

Lemma reads_seq vs : Forall reads_back vs ->
  forall fuel, (length (flat_map enc vs) + 3 <= fuel)%nat ->
  gets (unmarshal_seq fuel (Z.of_nat (length vs))) (flat_map enc vs) vs.
Proof.
  induction 1 as [|v vs Hv _ IH]; intros fuel Hf.
  - destruct fuel; apply gets_ret.
  - cbn [flat_map] in *. rewrite length_app in Hf. pose proof (enc_length v).
    destruct fuel as [|fuel]; [lia|]. cbn [unmarshal_seq].
    rewrite (proj2 (Z.leb_gt _ _)) by (simpl; lia).
    eapply gets_bind; [apply Hv; lia|].
    replace (Z.of_nat (length (v :: vs)) - 1) with (Z.of_nat (length vs)) by (simpl; lia).
    apply (gets_map (unmarshal_seq fuel _) (cons v)), IH. lia.
Qed.


Lemma reads_counted l (k : list value -> value) fuel :
  count_ok l = true -> Forall reads_back l -> (length (flat_map enc l) + 3 <= fuel)%nat ->
  gets (fun b => rbind (get_uint32 b) (fun '(n, b) =>
          rbind (unmarshal_seq fuel n b) (fun '(vs, b) => Ok (k vs, b))))
    (be32 (Z.of_nat (length l)) ++ flat_map enc l) (k l).
Proof.
  intros Hc Hl Hf. eapply gets_bind; [by apply (gets_len l)|].
  apply (gets_map (unmarshal_seq fuel _)). by apply reads_seq.
Qed.

Lemma gets_str s : xdr_ok (VStr s) = true ->
  gets Val_Str_unmarshal
    (be32 (Z.of_nat (length (string_bytes s))) ++ enc_string (string_bytes s)) (VStr s).
Proof.
  cbn [xdr_ok]. intros H. apply andb_true_iff in H as [Hn Hl]. bools.
  pose proof (c_string_id _ Hn) as Ec. set (bs := string_bytes s) in *.
  unfold Val_Str_unmarshal. eapply gets_bind.
  { apply (gets_map get32 to_i32), gets_u32_small. unfold is_u32. lia. }
  cbv beta. unfold to_i32. rewrite Z.mod_small by lia.
  replace (Z.of_nat (length bs) + 2 ^ 31 - 2 ^ 31) with (Z.of_nat (length bs)) by lia.
  rewrite (proj2 (Z.ltb_ge _ _)) by lia. rewrite <- (app_nil_r (enc_string bs)).
  eapply gets_bind.
  { apply gets_string; rewrite Ec; [simp_if; lia|]. unfold count_ok. apply Z.ltb_lt. lia. }
  cbv beta. rewrite Ec, Z.ltb_irrefl, Nat2Z.id, firstn_all.
  replace (_ && _) with false; [|symmetry; apply andb_false_iff; rewrite Z.leb_gt, Z.leb_gt; lia].
  unfold bs.
  rewrite string_bytes_roundtrip. apply gets_ret.
Qed.

Lemma gets_opaque_value bs : count_ok bs = true ->
  gets Val_Opaque_unmarshal (be32 (Z.of_nat (length bs)) ++ enc_opaque bs) (VOpaque bs).
Proof.
  intros Hc. unfold Val_Opaque_unmarshal. eapply gets_bind; [by apply (gets_len bs)|].
  cbv beta. rewrite Nat2Z.id. intros b rest Hb Hby E.
  destruct (gets_opaque bs b rest Hb Hby E) as (b' & E' & H'). revert E'.
  unfold get_opaque, getn. destruct (xs_getbytes (length bs) b) as [[x b1]|]; simpl; [|done].
  simp_if; [|destruct (xs_getbytes _ b1) as [[y b2]|]; simpl; [|done]];
    intros [= -> ->]; by exists b'.
Qed.

Lemma is_u32_of_nat n : Z.of_nat n < 2 ^ 32 -> is_u32 (Z.of_nat n).
Proof. unfold is_u32. lia. Qed.

Lemma tcode_u32 c : is_u32 (tcode c).
Proof. destruct c; unfold is_u32; simpl; lia. Qed.

Lemma Forall_forallb {A} (f : A -> bool) (P : A -> Prop) l :
  Forall (fun x => f x = true -> P x) l -> forallb f l = true -> Forall P l.
Proof.
  induction 1 as [|x l Hx _ IH]; cbn [forallb]; intros H; [constructor|].
  apply andb_true_iff in H as [H1 H2]. constructor; auto.
Qed.

(** What marshalling writes is read back. *)
Lemma xdr_unmarshal_ok v : xdr_ok v = true -> reads_back v.
Proof.
  induction v as [v IH] using value_nested_ind. intros Hok fuel Hf.
  assert (Hcount : forall l, Forall (fun v => xdr_ok v = true -> reads_back v) l ->
    count_ok l && forallb xdr_ok l = true -> count_ok l = true /\ Forall reads_back l).
  { intros l Hl H. apply andb_true_iff in H as [H1 H2]. split; [done|]. by eapply Forall_forallb. }
  destruct fuel as [|fuel]; [lia|]. cbn [xdr_unmarshal].
  destruct v as [|s|i|d|bs|t|t|i|td|l|l|l|s1 s2 l]; cbn [enc] in *;
    rewrite ?length_app, ?be32_length in Hf;
    (eapply gets_bind; [apply gets_u32_small, tcode_u32|]); cbn [tcode typeCode Z.eqb Pos.eqb].
  - apply gets_ret.
  - by apply gets_str.
  - apply bool_decide_eq_true in Hok. rewrite <- (words_s64 i Hok) at 2.
    apply (gets_map get_64 (fun z => VInt64 (to_s64 z))), gets_64.
  - rewrite <- (double_roundtrip d Hok) at 2.
    rewrite <- (words_64 _ (double_bits_range d Hok)) at 2.
    apply (gets_map get_64 (fun z => VDouble (double_of_bits z))), gets_64.
  - apply andb_true_iff in Hok as [Hc _]. by apply gets_opaque_value.
  - destruct (Hcount t IH Hok). apply reads_counted; auto. lia.
  - by apply (gets_map get_duration VTime), gets_duration.
  - apply bool_decide_eq_true in Hok as [Hw Hu]. destruct i as [ws].
    cbn [words] in *. rewrite <- Hw.
    by apply (gets_map (get_words _) (fun ws => VID (mkID ws))), gets_words.
  - by apply (gets_map get_duration VTimeDuration), gets_duration.
  - apply andb_true_iff in Hok as [Hok Hb]. apply andb_true_iff in Hok as [Hc Hs].
    apply bool_decide_eq_true in Hs. rewrite <- (Set_of_list_sorted l Hs) at 3.
    apply (reads_counted l (fun vs => VSet (Set_of_list vs))); auto; [|lia].
    by eapply Forall_forallb.
  - destruct (Hcount l IH Hok). apply reads_counted; auto. lia.
  - destruct (Hcount l IH Hok). apply reads_counted; auto. lia.
  - apply andb_true_iff in Hok as [Hok Hb]. apply andb_true_iff in Hok as [Hok Hm].
    apply Nat.eqb_eq in Hm. bools.
    eapply gets_bind; [apply gets_u32_small, is_u32_of_nat; lia|].
    eapply gets_bind; [apply gets_u32_small, is_u32_of_nat; lia|].
    cbv beta. rewrite !Nat2Z.id.
    replace (Z.of_nat s1 * Z.of_nat s2) with (Z.of_nat (length l)) by lia.
    apply (gets_map (unmarshal_seq _ _) (VMatrix s1 s2)), reads_seq; [|lia].
    by eapply Forall_forallb.
Qed.
End reading.

(** ** Arbitrary input *)

Section arbitrary.
Context {B : Type} `{XS : !XdrStream B}.

(** Aligned, or with less than a word left (padding may be missing). *)
Definition source_ok (b : B) : Prop :=
  (exists k, xs_src k b /\ (k = 0%nat \/ (length (xs_view b) < 4)%nat))
  /\ Forall is_byte (xs_view b).

(** [f] takes at least [k] bytes when it succeeds, stays aligned, and does not
    run out of fuel. *)
Definition eats {A} (k : nat) (f : B -> res (A * B)) (b : B) : Prop :=
  match f b with
  | Ok (_, b') => source_ok b' /\ (length (xs_view b') + k <= length (xs_view b))%nat
  | Fail e => e <> OutOfFuel
  end.

Lemma eats_ret {A} (a : A) b : source_ok b -> eats 0 (fun b => Ok (a, b)) b.
Proof. intros H. unfold eats. split; [done|lia]. Qed.

Lemma eats_bind {A C} (f : B -> res (A * B)) (g : A -> B -> res (C * B)) j k b :
  eats j f b ->
  (forall a b', source_ok b' -> (length (xs_view b') + j <= length (xs_view b))%nat -> eats k (g a) b') ->
  eats (j + k) (fun b => rbind (f b) (fun '(a, b) => g a b)) b.
Proof.
  unfold eats at 1 3. intros Hf Hg. destruct (f b) as [[a b1]|e]; cbn [rbind]; [|done].
  destruct Hf as (H1 & H2). specialize (Hg a b1 H1 H2). unfold eats in Hg.
  destruct (g a b1) as [[c b2]|e]; [|done]. destruct Hg. split; [done|lia].
Qed.

Lemma eats_le {A} j k (f : B -> res (A * B)) b : (k <= j)%nat -> eats j f b -> eats k f b.
Proof.
  unfold eats. intros Hk. destruct (f b) as [[a b']|]; [|done]. intros []. split; [done|lia].
Qed.

Lemma eats_map {A C} k (f : B -> res (A * B)) (h : A -> C) b :
  eats k f b -> eats k (fun b => rbind (f b) (fun '(a, b) => Ok (h a, b))) b.
Proof.
  intros H. rewrite <- (Nat.add_0_r k). apply (eats_bind f (fun a b => Ok (h a, b))); [done|].
  intros a b' Hb _. by apply eats_ret.
Qed.

Lemma eats_fail {A} k e b : e <> OutOfFuel -> eats (A := A) k (fun _ => Fail e) b.
Proof. done. Qed.

Lemma eats_u32 b : source_ok b -> eats 4 get_uint32 b.
Proof.
  intros [(k & H1 & Hk) H2]. unfold eats, get_uint32, get32.
  pose proof (xs_getint32_ok k b H1 H2 Hk) as H.
  destruct (xs_getint32 b) as [[z b']|]; cbn [of_option]; [|done].
  destruct H as (Hl & _ & Hs & Hv). unfold source_ok. rewrite Hv, length_drop. split; [|lia].
  split; [by exists 0%nat; auto|by apply Forall_drop].
Qed.

Lemma pad_lt n : (xdr_pad n < 4)%nat.
Proof. unfold xdr_pad. pose proof (align_ge n). lia. Qed.

(** Taking [n] bytes and the padding leaves the source aligned; when the
    padding is missing, less than a word is left. *)
Lemma take_padded n b bs b1 : source_ok b -> xs_getbytes n b = Some (bs, b1) ->
  (length (xs_view b1) <= length (xs_view b))%nat
  /\ match xs_getbytes (xdr_pad n) b1 with
     | Some (_, b2) => source_ok b2 /\ (length (xs_view b2) <= length (xs_view b))%nat
     | None => source_ok b1
     end
  /\ (xdr_pad n = 0%nat -> source_ok b1).
Proof.
  intros [(k & H1 & Hk) H2] E. pose proof (xs_getbytes_ok k n b H1) as H. rewrite E in H.
  destruct H as (_ & _ & Hs & Hv). pose proof (align_mod n) as Hm. pose proof (pad_lt n) as Hp.
  pose proof (xs_getbytes_ok _ (xdr_pad n) b1 Hs) as H. unfold source_ok.
  rewrite Hv in *. rewrite length_drop in *. split; [lia|]. split.
  - destruct (xs_getbytes (xdr_pad n) b1) as [[x b2]|].
    + destruct H as (_ & _ & Hs2 & Hv2). rewrite Hv2, !length_drop. split; [|lia].
      split; [|by apply Forall_drop, Forall_drop].
      eexists. split; [exact Hs2|]. destruct Hk as [->|Hk]; [left|right; lia].
      by rewrite Nat.Div0.add_mod_idemp_l, Nat.add_0_l.
    + split; [|by apply Forall_drop]. eexists. split; [exact Hs|]. right. lia.
  - intros Ez. split; [|by apply Forall_drop]. eexists. split; [exact Hs|].
    destruct Hk as [->|Hk]; [left|right; lia]. rewrite Ez, Nat.add_0_r in Hm. by rewrite Nat.add_0_l.
Qed.

Lemma eats_opaque n b : source_ok b -> eats 0 (get_opaque n) b.
Proof.
  intros H. unfold eats, get_opaque, getn.
  destruct (xs_getbytes n b) as [[bs b1]|] eqn:E; cbn [of_option rbind]; [|done].
  destruct (take_padded n b bs b1 H E) as (Hl & Hpad & Hz).
  destruct (Nat.eqb_spec (xdr_pad n) 0) as [Ez|Ez]; [split; [auto|lia]|].
  destruct (xs_getbytes (xdr_pad n) b1) as [[z b2]|]; cbn [of_option rbind]; [|done].
  destruct Hpad. split; [done|lia].
Qed.

Lemma eats_opaque_value b : source_ok b -> eats 0 Val_Opaque_unmarshal b.
Proof.
  intros H. unfold Val_Opaque_unmarshal. apply (eats_le (4 + 0)); [lia|].
  eapply eats_bind; [by apply eats_u32|]. intros n b0 H0 _. unfold eats.
  destruct (xs_getbytes (Z.to_nat n) b0) as [[bs b1]|] eqn:E.
  - destruct (take_padded _ b0 bs b1 H0 E) as (Hl & Hpad & Hz).
    destruct (Nat.eqb_spec (xdr_pad (Z.to_nat n)) 0) as [Ez|Ez]; [split; [auto|lia]|].
    destruct (xs_getbytes (xdr_pad _) b1) as [[z b2]|]; [destruct Hpad|]; split; done || lia.
  - destruct (n <=? STATIC_BYTE_BUFFER); [split; [done|lia]|done].
Qed.

Lemma eats_64 b : source_ok b -> eats 0 get_64 b.
Proof.
  intros H. unfold get_64. apply (eats_le (4 + 4)); [lia|]. eapply eats_bind; [by apply eats_u32|].
  intros hi b1 H1 _. by apply (eats_map 4 get32 (fun lo => hi * 2 ^ 32 + lo)), eats_u32.
Qed.

Lemma eats_duration b : source_ok b -> eats 0 get_duration b.
Proof.
  intros H. unfold get_duration. apply (eats_le (4 + (4 + (4 + 4)))); [lia|].
  eapply eats_bind; [by apply eats_u32|]. intros h b1 H1 _.
  eapply eats_bind; [by apply eats_u32|]. intros m b2 H2 _.
  eapply eats_bind; [by apply eats_u32|]. intros s b3 H3 _.
  by apply (eats_map 4 get_uint32 (fun f => time_duration (to_i32 h) (to_i32 m) (to_i32 s) f)), eats_u32.
Qed.

Lemma eats_words n b : source_ok b -> eats 0 (get_words n) b.
Proof.
  revert b. induction n as [|n IH]; intros b H; [by apply eats_ret|]. cbn [get_words].
  pose proof (eats_u32 b H) as Hu. unfold eats, get_uint32, get32 in Hu. unfold eats at 1.
  destruct (xs_getint32 b) as [[w b1]|]; cbn [of_option] in Hu.
  - destruct Hu as [H1 Hl]. pose proof (eats_map 0 (get_words n) (cons w) b1 (IH b1 H1)) as Hm.
    unfold eats in Hm. destruct (rbind (get_words n b1) _) as [[ws b2]|]; [|done].
    destruct Hm. split; [done|lia].
  - apply (eats_map 0 (get_words n) (cons 0) b (IH b H)).
Qed.

Lemma eats_string maxsize b : source_ok b -> eats 0 (get_string maxsize) b.
Proof.
  intros H. unfold get_string. apply (eats_le (4 + 0)); [lia|].
  eapply eats_bind; [by apply eats_u32|].
  intros n b2 H2 _. destruct (maxsize <? n); [by apply eats_fail|by apply eats_opaque].
Qed.

Lemma eats_str b : source_ok b -> eats 0 Val_Str_unmarshal b.
Proof.
  intros H. unfold Val_Str_unmarshal. apply (eats_le (4 + 0)); [lia|].
  eapply eats_bind; [by apply (eats_map 4 get32 to_i32), eats_u32|]. intros sl b1 H1 _.
  destruct (sl <? 0); [by apply eats_fail|]. apply (eats_le (0 + 0)); [lia|]. eapply eats_bind.
  - by apply eats_string.
  - intros bs b2 H2 _. destruct (_ <? sl); [by apply eats_fail|].
    destruct (_ && _); [by apply eats_fail|by apply eats_ret].
Qed.

Lemma eats_counted fuel (k : list value -> value) b : source_ok b ->
  (forall n b', source_ok b' -> (length (xs_view b') + 4 <= length (xs_view b))%nat ->
    eats 0 (unmarshal_seq fuel n) b') ->
  eats 0 (fun b => rbind (get_uint32 b) (fun '(n, b) =>
    rbind (unmarshal_seq fuel n b) (fun '(vs, b) => Ok (k vs, b)))) b.
Proof.
  intros H Hs. apply (eats_le (4 + 0)); [lia|]. eapply eats_bind; [by apply eats_u32|].
  intros n b1 H1 Hl. by apply (eats_map 0 (unmarshal_seq fuel n) k), Hs.
Qed.

(** Fuel past the number of bytes left is never exhausted. *)
Lemma unmarshal_fuel fuel :
  (forall b, source_ok b -> (length (xs_view b) + 2 <= fuel)%nat -> eats 4 (xdr_unmarshal fuel) b)
  /\ (forall n b, source_ok b -> (length (xs_view b) + 3 <= fuel)%nat ->
       eats 0 (unmarshal_seq fuel n) b).
Proof.
  induction fuel as [|fuel [IHv IHs]]; [split; intros; lia|]. split.
  - intros b H Hf. cbn [xdr_unmarshal]. rewrite <- (Nat.add_0_r 4).
    eapply eats_bind; [by apply eats_u32|]. intros tc b1 H1 Hl.
    assert (Hc : forall k : list value -> value, eats 0 (fun b => rbind (get_uint32 b) (fun '(n, b) =>
      rbind (unmarshal_seq fuel n b) (fun '(vs, b) => Ok (k vs, b)))) b1).
    { intros k. apply eats_counted; [done|]. intros n b2 H2 Hl2. apply IHs; [done|lia]. }
    destruct (tc =? 1); [by apply eats_str|].
    destruct (tc =? 2); [by apply (eats_map 0 get_64 (fun z => VInt64 (to_s64 z))), eats_64|].
    destruct (tc =? 3); [by apply (eats_map 0 get_64 (fun z => VDouble (double_of_bits z))), eats_64|].
    destruct (tc =? 4); [by apply eats_opaque_value|].
    destruct (tc =? 5); [apply Hc|].
    destruct (tc =? 6); [by apply (eats_map 0 get_duration VTime), eats_duration|].
    destruct (tc =? 7); [by apply (eats_map 0 (get_words _) (fun ws => VID (mkID ws))), eats_words|].
    destruct (tc =? 8); [by apply (eats_map 0 get_duration VTimeDuration), eats_duration|].
    destruct (tc =? 9); [apply (Hc (fun vs => VSet (Set_of_list vs)))|].
    destruct (tc =? 10); [apply Hc|]. destruct (tc =? 11); [apply Hc|].
    destruct (tc =? 12); [|by apply eats_ret].
    apply (eats_le (4 + (4 + 0))); [lia|]. eapply eats_bind; [by apply eats_u32|].
    intros n1 b2 H2 Hl2. eapply eats_bind; [by apply eats_u32|]. intros n2 b3 H3 Hl3.
    apply (eats_map 0 (unmarshal_seq fuel _) (VMatrix _ _)), IHs; [done|lia].
  - intros n b H Hf. cbn [unmarshal_seq]. destruct (n <=? 0); [by apply eats_ret|].
    apply (eats_le (4 + 0)); [lia|]. eapply eats_bind; [apply IHv; [done|lia]|].
    intros v b1 H1 Hl. apply (eats_map 0 (unmarshal_seq fuel _) (cons v)), IHs; [done|lia].
Qed.
End arbitrary.

(** ** [Fdbuf] as an XDR stream *)

Definition fd_putint32 (lp : Z) (fb : Fdbuf) : res Fdbuf :=
  push_uint32 (htonl (u32 lp)) (align_write fb).
Definition fd_putbytes (addr : list Z) (fb : Fdbuf) : res Fdbuf := push_bytes addr fb.
Definition fd_getint32 (fb : Fdbuf) : option (Z * Fdbuf) :=
  if (4 <=? length_ fb)%nat then
    let '(l, fb') := pop_uint32 (align_read fb) in Some (ntohl l, fb')
  else None.
Definition fd_getbytes (len : nat) (fb : Fdbuf) : option (list Z * Fdbuf) := pop_bytes len fb.

(** A buffer being filled (nothing removed yet), [k] bytes past a word
    boundary; a buffer being read, likewise. *)
Definition fd_dst (k : nat) (fb : Fdbuf) : Prop :=
  fb_ok fb /\ fb_start fb = 0%nat /\ fb_reader fb = false /\ (fb_len fb mod 4 = k)%nat.
Definition fd_src (k : nat) (fb : Fdbuf) : Prop := fb_ok fb /\ (fb_start fb mod 4 = k)%nat.

Lemma fd_putbytes_ok k bs fb : fd_dst k fb -> exists fb', fd_putbytes bs fb = Ok fb'
  /\ fd_dst ((k + length bs) mod 4) fb' /\ view fb' = view fb ++ bs.
Proof.
  intros (Hok & Hs & Hr & Hk). unfold fd_putbytes. pose proof (push_bytes_ok bs fb Hok Hr) as H.
  destruct (push_bytes bs fb) as [fb'|f]; [|lia].
  destruct H as (Hok' & Hv & Hr' & Hs'). exists fb'. split_and!; auto. split_and!; auto.
  apply (f_equal length) in Hv. rewrite length_app, !view_length in Hv by done.
  rewrite Hv, <- Hk. by rewrite Nat.Div0.add_mod_idemp_l.
Qed.

Lemma align_write_id fb : (fb_len fb mod 4 = 0)%nat -> align_write fb = fb.
Proof. intros H. destruct fb. unfold align_write. simpl in *. by rewrite align_id. Qed.

Lemma align_read_id fb : (fb_start fb mod 4 = 0)%nat -> align_read fb = fb.
Proof.
  intros H. destruct fb. unfold align_read. simpl in *. rewrite align_id by done.
  f_equal. lia.
Qed.

Lemma fd_putint32_ok z fb : fd_dst 0 fb -> exists fb', fd_putint32 z fb = Ok fb'
  /\ fd_dst 0 fb' /\ view fb' = view fb ++ be32 z.
Proof.
  intros H. unfold fd_putint32, push_uint32. rewrite store_htonl, be32_u32.
  rewrite align_write_id by apply H. apply (fd_putbytes_ok 0 (be32 z) fb H).
Qed.

Lemma fd_getbytes_ok k n fb : fd_src k fb ->
  match fd_getbytes n fb with
  | Some (bs, fb') => (n <= length (view fb))%nat /\ bs = take n (view fb)
      /\ fd_src ((k + n) mod 4) fb' /\ view fb' = drop n (view fb)
  | None => (length (view fb) < n)%nat
  end.
Proof.
  intros [Hok Hk]. unfold fd_getbytes. pose proof (pop_bytes_ok n fb Hok) as H.
  destruct (pop_bytes n fb) as [[bs fb']|]; [|done].
  destruct H as (H1 & H2 & H3 & H4 & H5 & _). split_and!; auto. split; [done|].
  rewrite H5, <- Hk. by rewrite Nat.Div0.add_mod_idemp_l.
Qed.

Lemma fd_getint32_ok k fb : fd_src k fb -> Forall is_byte (view fb) ->
  k = 0%nat \/ (length (view fb) < 4)%nat ->
  match fd_getint32 fb with
  | Some (z, fb') => (4 <= length (view fb))%nat /\ z = of_be32 (take 4 (view fb))
      /\ fd_src 0 fb' /\ view fb' = drop 4 (view fb)
  | None => (length (view fb) < 4)%nat
  end.
Proof.
  intros Hs Hb Hk. unfold fd_getint32, length_. rewrite (view_length fb) in * by apply Hs.
  destruct (Nat.leb_spec 4 (fb_len fb)) as [Hl|Hl]; [|done].
  destruct Hk as [->|Hk]; [|lia]. rewrite align_read_id by apply Hs.
  pose proof (fd_getbytes_ok 0 4 fb Hs) as H.
  unfold fd_getbytes, pop_bytes, pop_uint32 in *.
  rewrite (proj2 (Nat.leb_le _ _) Hl) in *. destruct H as (Hl' & Ht & Hs' & Hv).
  split_and!; auto. destruct (view fb) as [|b3 [|b2 [|b1 [|b0 l]]]] eqn:Ev; simpl in Hl'; try lia.
  do 4 (apply Forall_cons in Hb as [? Hb]). 
  change (take 4 (b3 :: b2 :: b1 :: b0 :: l)) with [b3; b2; b1; b0] in *.
  rewrite <- (ntohl_load b3 b2 b1 b0 []) by done.
  destruct (drop (fb_start fb) (fb_data fb)) as [|? [|? [|? [|? ?]]]]; simpl in Ht; by simplify_eq.
Qed.

Lemma fd_dst_src fb : fd_dst 0 fb -> fd_src 0 fb.
Proof. intros (H & Hs & _ & _). split; [done|]. by rewrite Hs. Qed.

#[export] Instance XdrStream_Fdbuf : XdrStream Fdbuf := {
  xs_putint32 := fd_putint32;
  xs_putbytes := fd_putbytes;
  xs_getint32 := fd_getint32;
  xs_getbytes := fd_getbytes;
  xs_view := view;
  xs_dst := fd_dst;
  xs_src := fd_src;
  xs_putint32_ok := fd_putint32_ok;
  xs_putbytes_ok := fd_putbytes_ok;
  xs_getint32_ok := fd_getint32_ok;
  xs_getbytes_ok := fd_getbytes_ok;
  xs_dst_src := fd_dst_src
}.

(** ** Theorems *)

(** The bytes of a tuple, and what can be sent. *)
Definition enc_tuple (t : tuple) : list Z :=
  be32 (Z.of_nat (length (fields t))) ++ flat_map enc (fields t).
Definition sendable (t : tuple) : bool :=
  frozen t && count_ok (fields t) && forallb xdr_ok (fields t).

(** A batch of tuples, one after the other. *)
Fixpoint marshal_all (ts : list tuple) (fb : Fdbuf) : res Fdbuf :=
  match ts with
  | [] => Ok fb
  | t :: ts' => rbind (Tuple_xdr_marshal t fb) (marshal_all ts')
  end.
Fixpoint unmarshal_all (fuel : nat) (ids : list Z) (fb : Fdbuf) : res (list tuple * Fdbuf) :=
  match ids with
  | [] => Ok ([], fb)
  | id :: ids' =>
      rbind (Tuple_xdr_unmarshal fuel id fb) (fun '(t, fb) =>
      rbind (unmarshal_all fuel ids' fb) (fun '(ts, fb) => Ok (t :: ts, fb)))
  end.

Section tuples.
Context {B : Type} `{XS : !XdrStream B}.

Lemma tuple_puts t : frozen t = true -> puts (Tuple_xdr_marshal t) (enc_tuple t).
Proof.
  intros Hf. unfold Tuple_xdr_marshal. rewrite Hf. cbn [check rbind]. unfold enc_tuple.
  apply puts_bind; [apply puts_u32|].
  apply puts_seq, Forall_forall. intros v _. apply xdr_marshal_ok.
Qed.

Lemma tuple_gets t id fuel : sendable t = true ->
  (length (enc_tuple t) <= fuel)%nat ->
  gets (Tuple_xdr_unmarshal fuel id) (enc_tuple t) (mkTuple (fields t) false id).
Proof.
  unfold sendable, enc_tuple, Tuple_xdr_unmarshal. rewrite length_app, be32_length. intros H Hf.
  apply andb_true_iff in H as [H Hx]. apply andb_true_iff in H as [_ Hc].
  eapply gets_bind; [by apply (gets_len (fields t))|].
  apply (gets_map (unmarshal_seq fuel _) (fun vs => mkTuple vs false id)), reads_seq; [|lia].
  eapply Forall_forallb; [|done]. apply Forall_forall. intros v _. apply xdr_unmarshal_ok.
Qed.

Lemma tuple_fuel id b : source_ok b ->
  eats 4 (Tuple_xdr_unmarshal (length (xs_view b)) id) b.
Proof.
  intros H. unfold Tuple_xdr_unmarshal. rewrite <- (Nat.add_0_r 4).
  eapply eats_bind; [by apply eats_u32|]. intros n b1 H1 Hl.
  apply (eats_map 0 (unmarshal_seq _ n) (fun vs => mkTuple vs false id)).
  apply unmarshal_fuel; [done|lia].
Qed.
End tuples.

Lemma marshal_all_ok ts : forallb sendable ts = true ->
  puts (marshal_all ts) (flat_map enc_tuple ts).
Proof.
  induction ts as [|t ts IH]; cbn [forallb marshal_all flat_map]; intros H; [apply puts_ret|].
  apply andb_true_iff in H as [Ht Hts]. apply puts_bind; [|auto]. apply tuple_puts.
  unfold sendable in Ht. by bools.
Qed.

Lemma unmarshal_all_ok fuel ts ids : forallb sendable ts = true -> length ids = length ts ->
  (length (flat_map enc_tuple ts) <= fuel)%nat ->
  gets (unmarshal_all fuel ids) (flat_map enc_tuple ts)
    (zip_with (fun t id => mkTuple (fields t) false id) ts ids).
Proof.
  revert ids. induction ts as [|t ts IH]; intros [|id ids] H Hl Hf; try discriminate Hl.
  - apply gets_ret.
  - cbn [forallb flat_map unmarshal_all zip_with] in *. rewrite length_app in Hf.
    apply andb_true_iff in H as [Ht Hts]. injection Hl as Hl.
    eapply gets_bind; [apply tuple_gets; [done|lia]|].
    apply (gets_map (unmarshal_all fuel ids) (cons _)), IH; auto. lia.
Qed.

(** The wire format consists of bytes. *)
Lemma flat_map_bytes {A} (f : A -> list Z) l :
  Forall (fun x => Forall is_byte (f x)) l -> Forall is_byte (flat_map f l).
Proof. induction 1; cbn [flat_map]; [constructor|by apply Forall_app]. Qed.

Lemma enc_opaque_bytes bs : Forall is_byte bs -> Forall is_byte (enc_opaque bs).
Proof.
  intros H. apply Forall_app. split; [done|]. apply Forall_replicate. unfold is_byte. lia.
Qed.

Lemma c_string_bytes bs : Forall is_byte bs -> Forall is_byte (c_string bs).
Proof. induction 1; simpl; [constructor|]. simp_if; by constructor. Qed.

Lemma enc_bytes v : xdr_ok v = true -> Forall is_byte (enc v).
Proof.
  induction v as [v IH] using value_nested_ind. intros Hok.
  assert (Hseq : forall l, Forall (fun v => xdr_ok v = true -> Forall is_byte (enc v)) l ->
    forallb xdr_ok l = true -> Forall is_byte (flat_map enc l)).
  { intros l Hl Hb. apply flat_map_bytes. by eapply Forall_forallb. }
  destruct v as [|s|i|d|bs|t|t|i|td|l|l|l|s1 s2 l]; cbn [enc xdr_ok] in *;
    unfold enc_64, enc_duration, enc_string; rewrite ?Forall_app; bools;
    split_and?; try apply be32_bytes; auto; try constructor.
  - apply enc_opaque_bytes, c_string_bytes, string_bytes_bytes.
  - apply enc_opaque_bytes. by eapply bool_decide_eq_true.
  - apply flat_map_bytes, Forall_forall. intros w _. apply be32_bytes.
Qed.

Lemma enc_tuple_bytes t : sendable t = true -> Forall is_byte (enc_tuple t).
Proof.
  unfold sendable. intros H. apply andb_true_iff in H as [_ Hx].
  apply Forall_app. split; [apply be32_bytes|]. apply flat_map_bytes.
  eapply Forall_forallb; [|done]. apply Forall_forall. intros v _. apply enc_bytes.
Qed.

Lemma enc_tuples_bytes ts : forallb sendable ts = true -> Forall is_byte (flat_map enc_tuple ts).
Proof.
  intros H. apply flat_map_bytes. eapply Forall_forallb; [|done].
  apply Forall_forall. intros t _. apply enc_tuple_bytes.
Qed.

Lemma mk_dst cap : fd_dst 0 (Fdbuf_mk cap false) /\ view (Fdbuf_mk cap false) = [].
Proof.
  split; [|done]. unfold fd_dst, fb_ok, Fdbuf_mk. cbn [fb_data fb_capacity fb_start fb_len fb_reader].
  rewrite length_replicate. split_and!; done || lia.
Qed.

(** a value marshalled onto an empty XDR stream and unmarshalled again is
    the same value, for any implementation of the stream: every string without
    null characters, 64-bit integer, double, opaque, time, identifier, and
    every tuple, list, set, vector and matrix of such values. *)
Theorem value_xdr_roundtrip {B} `{XdrStream B} (v : value) (b : B) (fuel : nat) :
  xs_dst 0 b -> xs_view b = [] -> xdr_ok v = true -> (length (enc v) + 2 <= fuel)%nat ->
  exists b1 b2, xdr_marshal v b = Ok b1 /\ xs_view b1 = enc v
    /\ xdr_unmarshal fuel b1 = Ok (v, b2) /\ xs_view b2 = [].
Proof.
  intros Hb Hv Hok Hf. destruct (xdr_marshal_ok v b Hb) as (b1 & E1 & H1 & V1).
  rewrite Hv in V1. simpl in V1. pose proof (enc_bytes v Hok) as Hby.
  destruct (xdr_unmarshal_ok v Hok fuel Hf b1 []) as (b2 & E2 & _ & V2).
  - by apply xs_dst_src.
  - by rewrite V1.
  - by rewrite V1, app_nil_r.
  - by exists b1, b2.
Qed.

(** C38: tuples marshalled one after the other into a fresh buffer are
    unmarshalled in the same order with the same fields (and the identities of
    the receiving process), and nothing is left in the buffer. *)
Theorem tuples_xdr_roundtrip (ts : list tuple) (ids : list Z) (cap : nat) :
  forallb sendable ts = true -> length ids = length ts ->
  exists fb1 fb2, marshal_all ts (Fdbuf_mk cap false) = Ok fb1
    /\ unmarshal_all (length (view fb1)) ids fb1
       = Ok (zip_with (fun t id => mkTuple (fields t) false id) ts ids, fb2)
    /\ view fb2 = [].
Proof.
  intros Hs Hl. destruct (mk_dst cap) as [Hd Hv].
  destruct (marshal_all_ok ts Hs _ Hd) as (fb1 & E1 & H1 & V1).
  change (view fb1 = view (Fdbuf_mk cap false) ++ flat_map enc_tuple ts) in V1.
  rewrite Hv in V1. simpl in V1.
  destruct (unmarshal_all_ok (length (view fb1)) ts ids Hs Hl) with (b := fb1) (rest := @nil Z)
    as (fb2 & E2 & _ & V2).
  - by rewrite V1.
  - by apply fd_dst_src.
  - simpl. rewrite V1. by apply enc_tuples_bytes.
  - simpl. by rewrite V1, app_nil_r.
  - exists fb1, fb2. done.
Qed.

(** on any sequence of bytes, however malformed, unmarshalling a tuple ends
    after at most one step per byte, and a tuple it answers has taken at least
    a word off the buffer. *)
Theorem tuple_unmarshal_terminates (id : Z) (fb : Fdbuf) :
  fd_src 0 fb -> Forall is_byte (view fb) ->
  match Tuple_xdr_unmarshal (length (view fb)) id fb with
  | Ok (_, fb') => fb_ok fb' /\ (length (view fb') + 4 <= length (view fb))%nat
  | Fail e => e <> OutOfFuel
  end.
Proof.
  intros Hs Hb.
  assert (H : source_ok fb) by (split; [by exists 0%nat; auto|done]).
  apply (tuple_fuel id) in H. unfold eats in H. simpl in H.
  destruct (Tuple_xdr_unmarshal (length (view fb)) id fb) as [[t fb']|e]; [|done].
  destruct H as [[(k & [Hok _] & _) _] Hl]. done.
Qed.

(** Marshalling appends exactly the wire format of a frozen tuple, whatever
    its fields and the room left in the buffer, and trips the assertion on a
    tuple that is not frozen. *)
Theorem tuple_marshal_correct (t : tuple) (fb : Fdbuf) :
  fd_dst 0 fb ->
  if frozen t
  then exists fb', Tuple_xdr_marshal t fb = Ok fb' /\ fd_dst 0 fb'
    /\ view fb' = view fb ++ enc_tuple t
  else Tuple_xdr_marshal t fb = Fail AssertFailed.
Proof.
  intros Hd. destruct (frozen t) eqn:Hf.
  - exact (tuple_puts t Hf fb Hd).
  - unfold Tuple_xdr_marshal. by rewrite Hf.
Qed.

(** A string with a null character is not received: the length announced
    for it ([s.length()]) is more than what [xdr_string] sends ([strlen]), so
    that the receiver reads past the characters that came. *)
Theorem null_string_not_received :
  let v := VStr (String "a" (String zero (String "b" EmptyString))) in
  exists fb, xdr_marshal v (Fdbuf_mk 64 false) = Ok fb
    /\ xdr_unmarshal 100 fb = Fail UndefinedBehaviour.
Proof. eexists. split; [vm_compute; reflexivity|]. vm_compute. reflexivity. Qed.

(** *** Witnesses *)

Definition sample_value : value :=
  VList [VStr "link"; VInt64 (-5); VDouble (S754_finite true 4503599627370496 (-52)); VOpaque [1; 2; 255];
         VSet [VInt64 1; VInt64 2]; VTimeDuration 3723000000009; VMatrix 1 2 [VNull; VID ID_zero]].
Definition sample_tuples : list tuple :=
  [mkTuple [VStr "link"; VStr "a:1"; VInt64 7] true 11; mkTuple [VStr "hops"; sample_value] true 12].

Lemma value_xdr_roundtrip_witness :
  exists b1 b2, xdr_marshal sample_value (Fdbuf_mk 16 false) = Ok b1 /\ view b1 = enc sample_value
    /\ xdr_unmarshal 200 b1 = Ok (sample_value, b2) /\ view b2 = [].
Proof.
  refine (value_xdr_roundtrip (H := XdrStream_Fdbuf) sample_value (Fdbuf_mk 16 false) 200 _ _ _ _).
  - apply mk_dst.
  - reflexivity.
  - vm_compute. reflexivity.
  - vm_compute. lia.
Defined.

Lemma tuples_xdr_roundtrip_witness :
  exists fb1 fb2, marshal_all sample_tuples (Fdbuf_mk 4 false) = Ok fb1
    /\ unmarshal_all (length (view fb1)) [20; 21] fb1
       = Ok (zip_with (fun t id => mkTuple (fields t) false id) sample_tuples [20; 21], fb2)
    /\ view fb2 = [].
Proof. apply (tuples_xdr_roundtrip sample_tuples [20; 21] 4); vm_compute; reflexivity. Defined.

(** Eight bytes that announce a tuple of 2^32 - 1 fields. *)
Definition garbage : Fdbuf := mkFdbuf 8 8 0 [255; 255; 255; 255; 0; 0; 0; 5] true.

Lemma tuple_unmarshal_terminates_witness :
  match Tuple_xdr_unmarshal (length (view garbage)) 1 garbage with
  | Ok (_, fb') => fb_ok fb' /\ (length (view fb') + 4 <= length (view garbage))%nat
  | Fail e => e <> OutOfFuel
  end.
Proof.
  apply (tuple_unmarshal_terminates 1 garbage).
  - split; [split; simpl; lia|reflexivity].
  - vm_decide.
Defined.

Lemma tuple_marshal_correct_witness :
  exists fb', Tuple_xdr_marshal (mkTuple [VStr "link"; VInt64 7] true 11) (Fdbuf_mk 4 false) = Ok fb'
    /\ fd_dst 0 fb' /\ view fb' = view (Fdbuf_mk 4 false) ++ enc_tuple (mkTuple [VStr "link"; VInt64 7] true 11).
Proof.
  apply (tuple_marshal_correct (mkTuple [VStr "link"; VInt64 7] true 11) (Fdbuf_mk 4 false)).
  apply mk_dst.
Defined.
