(* ===== verification/Casts.v ===== *)
(** * Strings and casts of values (src/p2core/val_*.C, ID.C, tuple.C, list.C, set.C)

    [toString] and [toConfString] of every value class, the constructor of an
    identifier from a string, and the [cast] functions with which an operator
    converts its operands.

    Standard library.  [strtoll], [strtoull] and [strtod] are written out; an
    [ostream] prints an integer in decimal and a [double] with six significant
    digits ([%g]).  Boost's printing and parsing of times is a parameter
    ([Platform]), and so is what is printed for a NaN, whose sign [spec_float]
    does not keep.  Decrementing the end iterator of an empty container, which
    the printing loops do before they run, has no effect here. *)

From Stdlib Require Import SpecFloat Ascii String.
From S2P Require Import Prelude Ids Stl Values Tuples Xdr.

Local Open Scope p2_scope.

(** The functions of libraries outside the repository that values use:
    [boost::posix_time::to_simple_string] of a time and of a duration,
    [time_from_string] (which may throw), and the text of a NaN. *)
Class Platform := {
  to_simple_string : Z -> string;
  td_to_simple_string : Z -> string;
  time_from_string : string -> res Z;
  nan_string : string
}.

(** A platform that prints all times alike and parses none, to evaluate
    examples on. *)
Definition bare_platform : Platform := {|
  to_simple_string := fun _ => "time";
  td_to_simple_string := fun _ => "duration";
  time_from_string := fun _ => Fail ExternalException;
  nan_string := "nan"
|}.

(** ** Numbers as text *)

Definition char_of (c : Z) : ascii := ascii_of_N (Z.to_N c).

Definition digit_char (d : Z) : ascii :=
  char_of (if d <? 10 then 48 + d else 87 + d).

(** [ostream << int64_t] *)
Fixpoint dec_digits (fuel : nat) (n : Z) (acc : string) : string :=
  match fuel with
  | O => acc
  | S fuel' =>
      let acc := String (digit_char (n mod 10)) acc in
      if n <? 10 then acc else dec_digits fuel' (n / 10) acc
  end.

Definition dec_nonneg (n : Z) : string := dec_digits (S (Z.to_nat (Z.log2 n))) n "".

Definition dec_string (z : Z) : string :=
  if z <? 0 then "-" +:+ dec_nonneg (- z) else dec_nonneg z.

(** [sprintf("%0<n>x", w)] for a [w] of at most [n] digits. *)
Fixpoint hex_digits (n : nat) (w : Z) (acc : string) : string :=
  match n with
  | O => acc
  | S n' => hex_digits n' (w / 16) (String (digit_char (w mod 16)) acc)
  end.

(** [ostream << double]: six significant digits, the scientific form outside
    [1e-4, 1e6), no trailing zeros. *)
Definition digits10 (n : Z) : Z := Z.of_nat (String.length (dec_nonneg n)).

(** The integer nearest to [p / q], ties to even. *)
Definition round_half_even (p q : Z) : Z :=
  let f := p / q in
  let r := p mod q in
  if 2 * r <? q then f else if q <? 2 * r then f + 1 else if Z.even f then f else f + 1.

Definition scale (p q k : Z) : Z * Z :=
  if 0 <=? k then (p, q * 10 ^ k) else (p * 10 ^ (- k), q).

(** The decimal exponent and the six digits of [p / q]. *)
Definition decimal6 (p q : Z) : Z * Z :=
  let x := digits10 p - digits10 q in
  let x := if (let '(a, b) := scale p q x in b <=? a) then x else x - 1 in
  let '(a, b) := scale p q (x - 5) in
  let n := round_half_even a b in
  if n =? 10 ^ 6 then (x + 1, 10 ^ 5) else (x, n).

Fixpoint strip_zeros (rev_digits : list ascii) : list ascii :=
  match rev_digits with
  | c :: l => if Ascii.eqb c "0"%char then strip_zeros l else rev_digits
  | [] => []
  end.

Definition strip_trailing (s : string) : string :=
  string_of_list_ascii (rev (strip_zeros (rev (list_ascii_of_string s)))).

(** [frac] behind the decimal point, which goes when nothing is left. *)
Definition with_fraction (int frac : string) : string :=
  match strip_trailing frac with
  | EmptyString => int
  | f => int +:+ "." +:+ f
  end.

Definition exponent_string (x : Z) : string :=
  (if x <? 0 then "e-" else "e+") +:+
  (if Z.abs x <? 10 then "0" else "") +:+ dec_nonneg (Z.abs x).

Definition print_double (nan : string) (d : spec_float) : string :=
  match d with
  | S754_nan => nan
  | S754_infinity s => if s then "-inf" else "inf"
  | S754_zero s => if s then "-0" else "0"
  | S754_finite s m e =>
      let '(p, q) := if 0 <=? e then (Z.pos m * 2 ^ e, 1) else (Z.pos m, 2 ^ (- e)) in
      let '(x, n) := decimal6 p q in
      let ds := dec_nonneg n in
      (if s then "-" else "") +:+
      (if (-4 <=? x) && (x <? 6) then
         if 0 <=? x then
           with_fraction (String.substring 0 (Z.to_nat (x + 1)) ds)
             (String.substring (Z.to_nat (x + 1)) (Z.to_nat (5 - x)) ds)
         else with_fraction "0"
                (string_of_list_ascii (repeat "0"%char (Z.to_nat (- x - 1))) +:+ ds)
       else with_fraction (String.substring 0 1 ds) (String.substring 1 5 ds) +:+
            exponent_string x)
  end.
(** ** Text as numbers *)

(** [strtoll(s, NULL, 0)] *)
Definition isspace (c : Z) : bool := (c =? 32) || ((9 <=? c) && (c <=? 13)).

Definition digit (c : Z) : option Z :=
  if (48 <=? c) && (c <=? 57) then Some (c - 48)
  else if (97 <=? c) && (c <=? 122) then Some (c - 87)
  else if (65 <=? c) && (c <=? 90) then Some (c - 55)
  else None.

Fixpoint digits (base acc : Z) (s : list Z) : Z :=
  match s with
  | [] => acc
  | c :: s' =>
      match digit c with
      | Some d => if d <? base then digits base (acc * base + d) s' else acc
      | None => acc
      end
  end.

Definition is_hex (c : Z) : bool := match digit c with Some d => d <? 16 | None => false end.

Definition magnitude (s : list Z) : Z :=
  match s with
  | 48 :: x :: c :: s' =>
      if ((x =? 120) || (x =? 88)) && is_hex c then digits 16 0 (c :: s') else digits 8 0 (x :: c :: s')
  | 48 :: s' => digits 8 0 s'
  | _ => digits 10 0 s
  end.

Fixpoint skip_space (s : list Z) : list Z :=
  match s with
  | c :: s' => if isspace c then skip_space s' else s
  | [] => []
  end.

Definition clamp_i64 (z : Z) : Z := Z.max (- 2 ^ 63) (Z.min (2 ^ 63 - 1) z).

Definition strtoll (s : list Z) : Z :=
  match skip_space s with
  | 45 :: s' => clamp_i64 (- magnitude s')
  | 43 :: s' => clamp_i64 (magnitude s')
  | s' => clamp_i64 (magnitude s')
  end.

(** [(int64_t) d]: towards zero; undefined outside the range. *)
Definition int64_of_double (d : spec_float) : res Z :=
  match d with
  | S754_zero _ => Ok 0
  | S754_finite s m e =>
      let z := if 0 <=? e then Z.pos m * 2 ^ e else Z.pos m / 2 ^ (- e) in
      let z := if s then - z else z in
      if decide (is_i64 z) then Ok z else Fail UndefinedBehaviour
  | _ => Fail UndefinedBehaviour
  end.

(** [strtoull(s, &end, 16)]: the number and the text from [end] on, which is
    all of [s] when there is no number.  A minus sign negates modulo 2^64. *)
Fixpoint hex_prefix (acc : Z) (s : list Z) : Z * list Z :=
  match s with
  | c :: s' =>
      match digit c with
      | Some d => if d <? 16 then hex_prefix (acc * 16 + d) s' else (acc, s)
      | None => (acc, s)
      end
  | [] => (acc, [])
  end.

Definition hex_number (s : list Z) : option (Z * list Z) :=
  match s with
  | 48 :: x :: c :: s' =>
      if ((x =? 120) || (x =? 88)) && is_hex c then Some (hex_prefix 0 (c :: s'))
      else Some (hex_prefix 0 s)
  | c :: _ => if is_hex c then Some (hex_prefix 0 s) else None
  | [] => None
  end.

Definition clamp_u64 (z : Z) : Z := Z.min (2 ^ 64 - 1) z.

Definition strtoull16 (s : list Z) : Z * list Z :=
  match skip_space s with
  | 45 :: s' =>
      match hex_number s' with
      | Some (n, e) => (if n <? 2 ^ 64 then u64 (- n) else 2 ^ 64 - 1, e)
      | None => (0, s)
      end
  | 43 :: s' =>
      match hex_number s' with Some (n, e) => (clamp_u64 n, e) | None => (0, s) end
  | s' =>
      match hex_number s' with Some (n, e) => (clamp_u64 n, e) | None => (0, s) end
  end.

(** [strtod(s, NULL)].  [mantissa] reads digits with at most one point; it
    answers their value, how many came behind the point, whether there was
    one at all, and the rest. *)
Fixpoint mantissa (base acc frac : Z) (point any : bool) (s : list Z)
    : Z * Z * bool * list Z :=
  match s with
  | c :: s' =>
      if (c =? 46) && negb point then mantissa base acc frac true any s'
      else match digit c with
           | Some d =>
               if d <? base
               then mantissa base (acc * base + d) (if point then frac + 1 else frac) point true s'
               else (acc, frac, any, s)
           | None => (acc, frac, any, s)
           end
  | [] => (acc, frac, any, [])
  end.

(** The exponent behind the letter [c] (in lower case), when a number follows. *)
Definition exponent (letter : Z) (s : list Z) : Z :=
  match s with
  | c :: s' =>
      if (c =? letter) || (c =? letter - 32) then
        match s' with
        | 45 :: s'' => - digits 10 0 s''
        | 43 :: s'' => digits 10 0 s''
        | _ => digits 10 0 s'
        end
      else 0
  | [] => 0
  end.

(** The double nearest to [num / den]. *)
Definition round_ratio (s : bool) (num den : Z) : spec_float :=
  match num, den with
  | Zpos n, Zpos d =>
      let '(q, e, l) := SFdiv_core_binary 53 1024 (Zpos n) 0 (Zpos d) 0 in
      binary_round_aux 53 1024 s q e l
  | _, _ => S754_zero s
  end.

Definition round_power (s : bool) (m base k : Z) : spec_float :=
  if 0 <=? k then round_ratio s (m * base ^ k) 1 else round_ratio s m (base ^ (- k)).

Definition lower (c : Z) : Z := if (65 <=? c) && (c <=? 90) then c + 32 else c.

Fixpoint starts_with (w s : list Z) : bool :=
  match w, s with
  | [], _ => true
  | a :: w', b :: s' => (a =? lower b) && starts_with w' s'
  | _, [] => false
  end.

Definition strtod_unsigned (neg : bool) (s : list Z) : spec_float :=
  if starts_with (string_bytes "inf") s then S754_infinity neg
  else if starts_with (string_bytes "nan") s then S754_nan
  else
    let decimal :=
      let '(m, f, any, r) := mantissa 10 0 0 false false s in
      if any then round_power neg m 10 (exponent 101 r - f) else S754_zero false in
    match s with
    | 48 :: x :: s' =>
        if (x =? 120) || (x =? 88) then
          let '(m, f, any, r) := mantissa 16 0 0 false false s' in
          if any then round_power neg m 2 (exponent 112 r - 4 * f) else decimal
        else decimal
    | _ => decimal
    end.

Definition strtod (s : list Z) : spec_float :=
  match skip_space s with
  | 45 :: s' => strtod_unsigned true s'
  | 43 :: s' => strtod_unsigned false s'
  | s' => strtod_unsigned false s'
  end.

(** [(double) i] *)
Definition double_of_int64 (i : Z) : spec_float := binary_normalize 53 1024 i 0 false.

(** ** Identifiers and text (ID.C) *)

Definition words_string (ws : list Z) : string :=
  fold_right (fun w s => hex_digits 8 w s) "" ws.

Definition ID_toString (self : ID) : string := "0x" +:+ words_string (words self) +:+ "I".
Definition ID_toConfString (self : ID) : string := "0x" +:+ words_string (words self) +:+ "I".

(** The inner loop of the constructor: from behind the character that stopped
    [strtoull], until one call reads to the end. *)
Fixpoint retry (fuel : nat) (endPointer : list Z) (word : Z) : Z :=
  match fuel, endPointer with
  | S fuel', _ :: s => let '(n, e) := strtoull16 s in retry fuel' e (u32 n)
  | _, _ => word
  end.

(** The words [wordIndex], ..., 0 from the last [8 * (wordIndex + 1)]
    characters; [rhex] holds the characters up to [position], reversed. *)
Fixpoint read_words (wordIndex : nat) (rhex : list Z) (done : list Z) : list Z :=
  match wordIndex with
  | O => done
  | S wordIndex' =>
      let suffix := c_string (rev (take 8 rhex)) in
      let '(n, e) := strtoull16 suffix in
      match e with
      | [] => read_words wordIndex' (drop 8 rhex) (u32 n :: done)
      | _ => replicate wordIndex' 0 ++ retry (length e) e (u32 n) :: done
      end
  end.

Definition ID_of_string (hexString : string) : ID :=
  let s := string_bytes hexString in
  let s := if (40 <? length s)%nat then drop (length s - 40) s else s in
  let s := replicate (40 - length s) 48 ++ s in
  mkID (read_words WORDS (rev s) []).

(** ** [toString] and [toConfString] *)

Fixpoint concat_sep (sep : string) (l : list string) : string :=
  match l with
  | [] => ""
  | [s] => s
  | s :: l' => s +:+ sep +:+ concat_sep sep l'
  end.

Definition opaque_string (b : list Z) : string :=
  "0x" +:+ fold_right (fun c s => hex_digits 2 c s) "" b.

(** [Tuple::toString]: the first field, the others in parentheses. *)
Definition Tuple_print (fs : list string) : string :=
  match fs with
  | [] => "EMPTY_TUPLE"
  | f :: fs' => f +:+ "(" +:+ concat_sep ", " fs' +:+ ")"
  end.

(** [Tuple::toConfString]: a tuple of one field loses it. *)
Definition Tuple_conf (fs : list string) : string :=
  match fs with
  | [] => "EMPTY_TUPLE"
  | [_] => "()"
  | _ => "(" +:+ concat_sep ", " fs +:+ ")"
  end.

Fixpoint rows (size1 size2 : nat) (m : list string) : list (list string) :=
  match size1 with
  | O => []
  | S n => take size2 m :: rows n size2 (drop size2 m)
  end.

Definition row_string (r : list string) : string := "[" +:+ concat_sep ", " r +:+ "]".

(** [dbl.find(".", 0) == npos] *)
Definition has_point (s : string) : bool :=
  existsb (Ascii.eqb ".") (list_ascii_of_string s).

Section printing.
Context `{P : Platform}.

Fixpoint toString (v : value) : string :=
  match v with
  | VNull => "NULL"
  | VStr s => s
  | VInt64 i => dec_string i
  | VDouble d => print_double nan_string d
  | VOpaque b => opaque_string b
  | VTuple t => Tuple_print (map toString t)
  | VTime t => "[" +:+ to_simple_string t +:+ "]"
  | VID i => ID_toString i
  | VTimeDuration td => "[" +:+ td_to_simple_string td +:+ "]"
  | VSet l => "{" +:+ concat_sep ", " (map toString l) +:+ "}"
  | VList l => "(" +:+ concat_sep ", " (map toString l) +:+ ")"
  | VVector l => "[" +:+ concat_sep ", " (map toString l) +:+ "]"
  | VMatrix s1 s2 m =>
      "[" +:+ concat_sep ", " (map row_string (rows s1 s2 (map toString m))) +:+ "]"
  end.

Fixpoint toConfString (v : value) : string :=
  match v with
  | VNull => "NULL"
  | VStr s => String (char_of 34) (s +:+ String (char_of 34) "")
  | VInt64 i => dec_string i
  | VDouble d =>
      let dbl := print_double nan_string d in if has_point dbl then dbl else dbl +:+ ".0"
  | VOpaque b => "opaque(" +:+ opaque_string b +:+ ")"
  | VTuple t => Tuple_conf (map toConfString t)
  | VTime t => "[" +:+ to_simple_string t +:+ "]"
  | VID i => ID_toConfString i
  | VTimeDuration td => "Val_Time(" +:+ td_to_simple_string td +:+ ")"
  | VSet l | VList l => "(" +:+ concat_sep ", " (map toConfString l) +:+ ")"
  | VVector l => "<" +:+ concat_sep ", " (map toConfString l) +:+ ">"
  | VMatrix s1 s2 m =>
      "{" +:+ concat_sep "%" (map row_string (rows s1 s2 (map toConfString m))) +:+ "}"
  end.
End printing.

(** ** Casts *)

Definition Val_Int64_cast (v : value) : res Z :=
  match v with
  | VInt64 i => Ok i
  | VDouble d => int64_of_double d
  | VNull => Ok 0
  | VStr s => Ok (strtoll (c_string (string_bytes s)))
  | _ => Fail TypeError
  end.

(** The bytes of the buffer. *)
Definition Val_Opaque_cast (v : value) : res (list Z) :=
  match v with
  | VOpaque bs => Ok bs
  | VStr s => Ok (string_bytes s)
  | _ => Fail TypeError
  end.

(** [Val_Str::cast] *)
Definition Val_Str_cast `{P : Platform} (v : value) : string :=
  match typeCode v with NULLV => "NULL" | _ => toString v end.

Definition Val_Double_cast (v : value) : res spec_float :=
  match v with
  | VDouble d => Ok d
  | VInt64 i => Ok (double_of_int64 i)
  | VNull => Ok (S754_zero false)
  | VStr s => Ok (strtod (c_string (string_bytes s)))
  | _ => Fail TypeError
  end.

(** [Val_ID::cast]: [ID::mk] takes a [uint32_t], so a number loses its upper
    bits; only a negative integer is refused. *)
Definition Val_ID_cast (v : value) : res ID :=
  match v with
  | VID i => Ok i
  | VInt64 i => if i <? 0 then Fail TypeError else Ok (ID_of_u32 (u32 i))
  | VDouble _ => let? i := Val_Int64_cast v in Ok (ID_of_u32 (u32 i))
  | VStr s => Ok (ID_of_string s)
  | _ => Fail TypeError
  end.

(** [Val_Tuple::cast]: the null pointer for NULL. *)
Definition Val_Tuple_cast (v : value) : res (option (list value)) :=
  match v with
  | VTuple t => Ok (Some t)
  | VNull => Ok None
  | _ => Fail TypeError
  end.

Definition Val_List_cast (v : value) : res (list value) :=
  match v with
  | VList l => Ok l
  | VNull => Ok []
  | _ => Fail TypeError
  end.

Definition Val_Set_cast (v : value) : res (list value) :=
  match v with
  | VSet l => Ok l
  | VNull => Ok []
  | _ => Fail TypeError
  end.

Definition Val_Vector_cast (v : value) : res (list value) :=
  match v with VVector l => Ok l | _ => Fail TypeError end.

Definition Val_Matrix_cast (v : value) : res (nat * nat * list value) :=
  match v with VMatrix s1 s2 m => Ok (s1, s2, m) | _ => Fail TypeError end.

(** *** Times

    The constructor [time_duration(0, 0, s, f)] takes its seconds in a type
    whose width differs between releases of boost (32 or 64 bits): outside 32
    bits the result is not modelled. *)
Definition seconds_duration (s f : Z) : res Z :=
  if (- 2 ^ 31 <=? s) && (s <? 2 ^ 31) then Ok (time_duration 0 0 s f) else Fail Unmodelled.

(** [trunc(d)] as an integer and the fraction [modf(d, &i)]. *)
Definition trunc_int (d : spec_float) : option Z :=
  match d with
  | S754_zero _ => Some 0
  | S754_finite s m e =>
      let z := if 0 <=? e then Z.pos m * 2 ^ e else Z.pos m / 2 ^ (- e) in
      Some (if s then - z else z)
  | _ => None
  end.

Definition modf_frac (d : spec_float) : spec_float :=
  match d with
  | S754_finite s m e =>
      if 0 <=? e then S754_zero s
      else let f := Z.pos m mod 2 ^ (- e) in
           binary_normalize 53 1024 (if s then - f else f) e s
  | S754_zero s | S754_infinity s => S754_zero s
  | S754_nan => S754_nan
  end.

(** [round(d)]: to the nearest integer, ties away from zero. *)
Definition round_int (d : spec_float) : option Z :=
  match d with
  | S754_zero _ => Some 0
  | S754_finite s m e =>
      let z := if 0 <=? e then Z.pos m * 2 ^ e
               else (2 * Z.pos m + 2 ^ (- e)) / 2 ^ (1 - e) in
      Some (if s then - z else z)
  | _ => None
  end.

(** [(uint32_t) x] of an integral [double]. *)
Definition u32_of_double (z : option Z) : res Z :=
  match z with
  | Some z => if decide (is_u32 z) then Ok z else Fail UndefinedBehaviour
  | None => Fail UndefinedBehaviour
  end.

Definition duration_of_double (d : spec_float) : res Z :=
  let? secs := u32_of_double (trunc_int d) in
  let? frac_secs :=
    u32_of_double (round_int (SFmul 53 1024 (modf_frac d) (double_of_int64 (10 ^ 9)))) in
  seconds_duration secs frac_secs.

(** [Val_Time::cast]: a number counts seconds from the epoch.  NULL becomes
    boost's not-a-date-time, which the model has no value for. *)
Definition Val_Time_cast `{P : Platform} (v : value) : res Z :=
  match v with
  | VTime t => Ok t
  | VNull => Fail Unmodelled
  | VInt64 i => seconds_duration i 0
  | VDouble d => duration_of_double d
  | VStr s => time_from_string s
  | _ => Fail TypeError
  end.

(** [Val_Time_Duration::cast]; a tuple holds seconds and nanoseconds. *)
Definition Val_Time_Duration_cast (v : value) : res Z :=
  match v with
  | VTimeDuration td => Ok td
  | VInt64 i => seconds_duration i 0
  | VDouble d => duration_of_double d
  | VNull => Ok 0
  | VTuple (a :: b :: _) =>
      let? secs := Val_Int64_cast a in
      let? n := Val_Int64_cast b in
      let? nsecs := u32_of_double (round_int (double_of_int64 n)) in
      seconds_duration (u32 secs) nsecs
  | VTuple _ => Ok 0
  | _ => Fail TypeError
  end.

(** ** Printed numbers are read back *)

Lemma byte_char c : 0 <= c < 256 -> Z.of_N (N_of_ascii (char_of c)) = c.
Proof. intros Hc. unfold char_of. rewrite N_ascii_embedding; lia. Qed.

Lemma string_bytes_cons c s :
  string_bytes (String c s) = Z.of_N (N_of_ascii c) :: string_bytes s.
Proof. done. Qed.

Lemma string_bytes_app s t : string_bytes (s +:+ t) = string_bytes s ++ string_bytes t.
Proof.
  induction s as [|c s IH]; [done|]. change (String c s +:+ t) with (String c (s +:+ t)).
  by rewrite !string_bytes_cons, IH.
Qed.

(** The byte a digit is printed as. *)
Definition dchar (d : Z) : Z := if d <? 10 then 48 + d else 87 + d.

Lemma digit_char_byte d s : 0 <= d < 16 ->
  string_bytes (String (digit_char d) s) = dchar d :: string_bytes s.
Proof.
  intros Hd. rewrite string_bytes_cons. unfold digit_char.
  rewrite byte_char by (simp_if; lia). done.
Qed.

Lemma digit_dchar d : 0 <= d < 16 -> digit (dchar d) = Some d.
Proof. intros Hd. unfold digit, dchar. simp_if; bools; f_equal; try lia; naive_solver lia. Qed.

Lemma dchar_range d : 0 <= d < 16 -> 48 <= dchar d < 103.
Proof. intros Hd. unfold dchar. simp_if; bools; lia. Qed.

(** What the printed digits of [n > 0] are: they do not start with a zero and
    reading them appends [n]. *)
Definition dec_of (n : Z) (dl : list Z) : Prop :=
  (exists c dl', dl = c :: dl' /\ 49 <= c <= 57) /\
  Forall (fun c => 48 <= c <= 57) dl /\
  forall a t, digits 10 a (dl ++ t) = digits 10 (a * 10 ^ Z.of_nat (length dl) + n) t.

Lemma dec_of_digit d : 0 < d < 10 -> dec_of d [dchar d].
Proof.
  intros Hd. assert (E : dchar d = 48 + d) by (unfold dchar; simp_if; bools; lia).
  repeat split.
  - exists (dchar d), []. split; [done|lia].
  - repeat constructor; lia.
  - intros a t. cbn [app digits length]. rewrite digit_dchar by lia.
    replace (d <? 10) with true by lia. f_equal.
Qed.

Lemma dec_of_snoc n d dl : dec_of n dl -> 0 <= d < 10 -> dec_of (n * 10 + d) (dl ++ [dchar d]).
Proof.
  intros ((c & dl' & -> & Hc) & Hall & Hd) Hr.
  assert (E : dchar d = 48 + d) by (unfold dchar; simp_if; bools; lia).
  repeat split.
  - by exists c, (dl' ++ [dchar d]).
  - apply Forall_app. split; [done|]. repeat constructor; lia.
  - intros a t. rewrite <- app_assoc, Hd. cbn [app digits]. rewrite digit_dchar by lia.
    replace (d <? 10) with true by lia. f_equal.
    rewrite app_comm_cons, length_app, Nat2Z.inj_add, Z.pow_add_r by lia.
    change (10 ^ Z.of_nat (length [dchar d])) with 10. lia.
Qed.

Lemma dec_digits_spec fuel n acc : 0 < n < 2 ^ Z.of_nat fuel ->
  exists dl, string_bytes (dec_digits fuel n acc) = dl ++ string_bytes acc /\ dec_of n dl.
Proof.
  revert n acc. induction fuel as [|fuel IH]; intros n acc Hn; [cbn in Hn; lia|].
  rewrite Nat2Z.inj_succ, Z.pow_succ_r in Hn by lia. cbn [dec_digits].
  pose proof (Z.mod_pos_bound n 10). pose proof (Z.div_mod n 10).
  destruct (n <? 10) eqn:E; bools.
  - exists [dchar n]. rewrite digit_char_byte by lia. split; [|by apply dec_of_digit; lia].
    by rewrite Z.mod_small by lia.
  - assert (0 < n / 10 < 2 ^ Z.of_nat fuel)
      by (split; [apply Z.div_str_pos; lia|apply Z.div_lt_upper_bound; lia]).
    destruct (IH (n / 10) (String (digit_char (n mod 10)) acc)) as (dl & -> & Hdl); [done|].
    exists (dl ++ [dchar (n mod 10)]). rewrite digit_char_byte, <- app_assoc by lia.
    split; [done|]. replace n with (n / 10 * 10 + n mod 10) at 1 by lia.
    apply dec_of_snoc; [done|lia].
Qed.

Lemma dec_nonneg_spec n : 0 < n -> dec_of n (string_bytes (dec_nonneg n)).
Proof.
  intros Hn. destruct (dec_digits_spec (S (Z.to_nat (Z.log2 n))) n "") as (dl & E & Hdl).
  - pose proof (Z.log2_spec n Hn). pose proof (Z.log2_nonneg n).
    rewrite Nat2Z.inj_succ, Z2Nat.id by lia. lia.
  - unfold dec_nonneg. rewrite E. change (string_bytes "") with (@nil Z). by rewrite app_nil_r.
Qed.

Lemma magnitude_dec n : 0 <= n -> magnitude (string_bytes (dec_nonneg n)) = n.
Proof.
  intros Hn. destruct (Z.eq_dec n 0) as [->|]; [done|].
  destruct (dec_nonneg_spec n) as ((c & dl & E & Hc) & _ & Hd); [lia|].
  rewrite <- (app_nil_r (string_bytes _)) in E |- *.
  assert (M : forall s, magnitude (c :: s) = digits 10 0 (c :: s)).
  { intros s. unfold magnitude. destruct c as [|p|p]; try lia.
    do 6 (destruct p; try reflexivity; try lia). }
  rewrite E, M, <- E, Hd. cbn. lia.
Qed.
Lemma dec_string_inj n m : 0 <= n -> 0 <= m -> dec_string n = dec_string m -> n = m.
Proof.
  intros Hn Hm. unfold dec_string. destruct (Z.ltb_spec n 0); [lia|]. destruct (Z.ltb_spec m 0); [lia|].
  intros E. by rewrite <- (magnitude_dec n Hn), <- (magnitude_dec m Hm), E.
Qed.

(** The text of a number has no null character and starts with a digit. *)
Lemma dec_nonneg_text n : 0 <= n ->
  exists c s, string_bytes (dec_nonneg n) = c :: s /\ 48 <= c <= 57 /\
    c_string (string_bytes (dec_nonneg n)) = string_bytes (dec_nonneg n).
Proof.
  intros Hn. destruct (Z.eq_dec n 0) as [->|]; [by exists 48, []|].
  destruct (dec_nonneg_spec n) as ((c & dl & E & Hc) & Hall & _); [lia|].
  exists c, dl. repeat split; [done|lia|lia|]. apply c_string_id, forallb_forall.
  intros x Hx%list_elem_of_In. rewrite Forall_forall in Hall. apply Hall in Hx. lia.
Qed.

Lemma strtoll_digit c s : 48 <= c <= 57 -> strtoll (c :: s) = clamp_i64 (magnitude (c :: s)).
Proof.
  intros Hc. unfold strtoll. cbn [skip_space]. unfold isspace.
  replace ((c =? 32) || ((9 <=? c) && (c <=? 13))) with false by lia.
  destruct c as [|p|p]; try lia. do 6 (destruct p; try reflexivity; try lia).
Qed.

Lemma clamp_i64_id z : is_i64 z -> clamp_i64 z = z.
Proof. unfold is_i64, clamp_i64. lia. Qed.

(** The text of an integer: a sign perhaps, and digits. *)
Lemma dec_string_text z : exists sg c ds,
  string_bytes (dec_string z) = sg ++ c :: ds /\ (sg = [] \/ sg = [45]) /\
  Forall (fun c => 48 <= c <= 57) (c :: ds).
Proof.
  assert (H : forall n, 0 <= n -> exists c ds, string_bytes (dec_nonneg n) = c :: ds /\
    Forall (fun c => 48 <= c <= 57) (c :: ds)).
  { intros n Hn. destruct (Z.eq_dec n 0) as [->|].
    - exists 48, []. split; [done|]. repeat constructor; lia.
    - destruct (dec_nonneg_spec n) as ((c & dl & E & Hc) & Hall & _); [lia|].
      exists c, dl. by rewrite <- E. }
  unfold dec_string. destruct (z <? 0) eqn:E; bools.
  - destruct (H (- z)) as (c & ds & E' & Hd); [lia|]. exists [45], c, ds.
    rewrite string_bytes_app, E'. auto.
  - destruct (H z) as (c & ds & E' & Hd); [lia|]. exists [], c, ds. rewrite E'. auto.
Qed.

Lemma strtoll_dec i : is_i64 i -> strtoll (string_bytes (dec_string i)) = i.
Proof.
  intros Hi. unfold dec_string. destruct (i <? 0) eqn:E; bools.
  - rewrite string_bytes_app. change (string_bytes "-") with [45]. cbn [app].
    unfold strtoll. cbn [skip_space]. change (isspace 45) with false. cbn match.
    rewrite magnitude_dec by lia. rewrite Z.opp_involutive. by apply clamp_i64_id.
  - destruct (dec_nonneg_text i) as (c & s & Es & Hc & Ht); [lia|].
    rewrite Es, strtoll_digit, <- Es, magnitude_dec by lia. by apply clamp_i64_id.
Qed.

Lemma c_string_dec z : c_string (string_bytes (dec_string z)) = string_bytes (dec_string z).
Proof.
  destruct (dec_string_text z) as (sg & c & ds & -> & Hs & Hd). apply c_string_id.
  rewrite forallb_app. apply andb_true_iff. split; [by destruct Hs as [->| ->]|].
  apply forallb_forall. intros x Hx%list_elem_of_In. rewrite Forall_forall in Hd.
  specialize (Hd x Hx). lia.
Qed.

(** A 64-bit integer survives the way through text: the cast of its
    printed form is the integer, for every int64. *)
Theorem int64_string_roundtrip `{P : Platform} (i : Z) : is_i64 i ->
  Val_Int64_cast (VStr (toString (VInt64 i))) = Ok i.
Proof.
  intros Hi. cbn [toString Val_Int64_cast]. f_equal. by rewrite c_string_dec, strtoll_dec.
Qed.

Lemma int64_string_roundtrip_witness :
  is_i64 (- 2 ^ 63) /\
  Val_Int64_cast (VStr (toString (P := bare_platform) (VInt64 (- 2 ^ 63)))) = Ok (- 2 ^ 63).
Proof.
  assert (H : is_i64 (- 2 ^ 63)) by (unfold is_i64; lia).
  split; [exact H|]. exact (int64_string_roundtrip (P := bare_platform) (- 2 ^ 63) H).
Defined.

(** ** Identifiers through text *)

Definition hexd (c : Z) : Prop := 48 <= c <= 57 \/ 97 <= c <= 102.

Lemma hexd_dchar d : 0 <= d < 16 -> hexd (dchar d).
Proof. intros Hd. unfold hexd, dchar. simp_if; bools; lia. Qed.

Lemma hexd_digit c : hexd c -> exists d, digit c = Some d /\ 0 <= d < 16.
Proof.
  intros [Hc|Hc]; unfold digit.
  - replace ((48 <=? c) && (c <=? 57)) with true by lia. eexists. split; [done|lia].
  - replace ((48 <=? c) && (c <=? 57)) with false by lia.
    replace ((97 <=? c) && (c <=? 122)) with true by lia. eexists. split; [done|lia].
Qed.

(** The [n] printed digits of [w]. *)
Fixpoint hexl (n : nat) (w : Z) : list Z :=
  match n with O => [] | S n' => hexl n' (w / 16) ++ [dchar (w mod 16)] end.

Lemma hex_digits_bytes n w acc :
  string_bytes (hex_digits n w acc) = hexl n w ++ string_bytes acc.
Proof.
  revert w acc. induction n as [|n IH]; intros w acc; [done|]. cbn [hex_digits hexl].
  pose proof (Z.mod_pos_bound w 16).
  by rewrite IH, digit_char_byte, <- app_assoc by lia.
Qed.

Lemma length_hexl n w : length (hexl n w) = n.
Proof.
  revert w. induction n as [|n IH]; intros w; [done|]. cbn [hexl].
  rewrite length_app, IH. cbn. lia.
Qed.

Lemma hexl_hexd n w : Forall hexd (hexl n w).
Proof.
  revert w. induction n as [|n IH]; intros w; cbn [hexl]; [done|].
  apply Forall_app. split; [done|]. apply Forall_singleton, hexd_dchar. pose proof (Z.mod_pos_bound w 16). lia.
Qed.

Lemma hex_prefix_hexl n w a t : 0 <= w < 16 ^ Z.of_nat n ->
  hex_prefix a (hexl n w ++ t) = hex_prefix (a * 16 ^ Z.of_nat n + w) t.
Proof.
  revert w t. induction n as [|n IH]; intros w t Hw.
  - cbn in Hw |- *. f_equal. lia.
  - rewrite Nat2Z.inj_succ, Z.pow_succ_r in Hw |- * by lia. cbn [hexl].
    pose proof (Z.mod_pos_bound w 16). pose proof (Z.div_mod w 16).
    rewrite <- app_assoc, IH
      by (split; [apply Z.div_pos; lia|apply Z.div_lt_upper_bound; lia]).
    cbn [app hex_prefix]. rewrite digit_dchar by lia.
    replace (w mod 16 <? 16) with true by lia. f_equal. lia.
Qed.

(** Text that stops the reading of a hexadecimal number. *)
Definition hex_stop (t : list Z) : Prop :=
  match t with [] => True | c :: _ => is_hex c = false /\ c <> 120 /\ c <> 88 end.

Lemma hex_prefix_stop C t a : Forall hexd C -> hex_stop t ->
  exists n, hex_prefix a (C ++ t) = (n, t).
Proof.
  intros HC Ht. revert a. induction HC as [|c C Hc HC IH]; intros a; cbn [app hex_prefix].
  - destruct t as [|c t]; [by exists a|]. destruct Ht as [Ht _]. unfold is_hex in Ht.
    cbn [hex_prefix]. destruct (digit c) as [d|]; [rewrite Ht|]; by exists a.
  - destruct (hexd_digit c Hc) as (d & -> & Hd).
    replace (d <? 16) with true by lia. apply IH.
Qed.

Lemma hex_number_hexd c C t : Forall hexd (c :: C) -> hex_stop t ->
  hex_number ((c :: C) ++ t) = Some (hex_prefix 0 ((c :: C) ++ t)).
Proof.
  intros [Hc HC]%Forall_cons Ht. unfold hex_number.
  assert (Hx : is_hex c = true).
  { unfold is_hex. destruct (hexd_digit c Hc) as (d & -> & Hd). lia. }
  destruct (decide (c = 48)) as [->|Hn].
  - cbn [app]. destruct (C ++ t) as [|x [|y l]] eqn:E; try done.
    assert (x <> 120 /\ x <> 88) as [H1 H2].
    { destruct C as [|x' C]; cbn in E.
      - subst t. cbn in Ht. tauto.
      - simplify_eq. apply Forall_cons in HC as [[?|?] _]; lia. }
    replace ((x =? 120) || (x =? 88)) with false by lia. done.
  - cbn [app]. rewrite Hx. destruct c as [|p|p]; try done.
    do 6 (destruct p; try done).
Qed.

Lemma strtoull16_hexd c C t : Forall hexd (c :: C) -> hex_stop t ->
  strtoull16 ((c :: C) ++ t) =
    (let '(n, e) := hex_prefix 0 ((c :: C) ++ t) in (clamp_u64 n, e)).
Proof.
  intros HC Ht. pose proof (hex_number_hexd c C t HC Ht) as E.
  apply Forall_cons in HC as [Hc _]. unfold strtoull16.
  assert (skip_space ((c :: C) ++ t) = (c :: C) ++ t) as ->.
  { cbn. unfold isspace. destruct Hc;
      replace ((c =? 32) || ((9 <=? c) && (c <=? 13))) with false by lia; done. }
  transitivity (match hex_number ((c :: C) ++ t) with
                | Some (n, e) => (clamp_u64 n, e) | None => (0, (c :: C) ++ t) end);
    [|by rewrite E].
  cbn [app]. destruct Hc; destruct c as [|p|p]; try lia;
    do 6 (destruct p; try reflexivity; try lia).
Qed.

Lemma strtoull16_hexl w : is_u32 w -> strtoull16 (hexl 8 w) = (w, []).
Proof.
  intros Hw. destruct (hexl 8 w) as [|c C] eqn:E.
  { pose proof (length_hexl 8 w) as H. by rewrite E in H. }
  rewrite <- (app_nil_r (c :: C)), strtoull16_hexd; [|rewrite <- E; apply hexl_hexd|done].
  rewrite <- E, hex_prefix_hexl by (unfold is_u32 in Hw; cbn; lia).
  unfold is_u32 in Hw. cbn. f_equal. unfold clamp_u64. lia.
Qed.

Lemma c_string_hexl n w : c_string (hexl n w) = hexl n w.
Proof.
  apply c_string_id, forallb_forall. intros x Hx%list_elem_of_In.
  pose proof (hexl_hexd n w) as H. rewrite Forall_forall in H.
  destruct (H x Hx); lia.
Qed.

Lemma words_string_bytes ws : string_bytes (words_string ws) = concat (map (hexl 8) ws).
Proof.
  induction ws as [|w ws IH]; [done|].
  change (words_string (w :: ws)) with (hex_digits 8 w (words_string ws)).
  by rewrite hex_digits_bytes, IH.
Qed.

Lemma length_words_bytes ws : length (concat (map (hexl 8) ws)) = (8 * length ws)%nat.
Proof.
  induction ws as [|w ws IH]; [done|]. cbn [map concat length].
  rewrite length_app, IH, length_hexl. lia.
Qed.

Lemma read_words_hexl ws acc : Forall is_u32 ws ->
  read_words (length ws) (rev (concat (map (hexl 8) ws))) acc = ws ++ acc.
Proof.
  revert acc. induction ws as [|w ws IH] using rev_ind; intros acc Hw; [done|].
  apply Forall_app in Hw as [Hws Hw]. apply Forall_cons in Hw as [Hw _].
  rewrite map_app, concat_app, length_app, rev_app_distr. cbn [map concat length].
  rewrite app_nil_r, Nat.add_1_r. cbn [read_words].
  assert (L : length (rev (hexl 8 w)) = 8%nat) by (by rewrite length_rev, length_hexl).
  rewrite take_app_length', rev_involutive, c_string_hexl, strtoull16_hexl by done.
  rewrite drop_app_length' by done. rewrite (u32_small w Hw), IH by done.
  by rewrite <- app_assoc.
Qed.

Lemma id_read (i : ID) : wf_id i -> ID_of_string (words_string (words i)) = i.
Proof.
  intros [Hl Hw]. unfold ID_of_string. rewrite words_string_bytes.
  assert (L : length (concat (map (hexl 8) (words i))) = 40%nat)
    by (rewrite length_words_bytes, Hl; done).
  rewrite L. cbn [Nat.ltb Nat.leb]. rewrite L. cbn [Nat.sub replicate app].
  rewrite <- Hl, read_words_hexl, app_nil_r by done. by destruct i.
Qed.

(** The 40 hexadecimal digits of an identifier are read back as the
    identifier by the cast. *)
Theorem id_hex_roundtrip `{P : Platform} (i : ID) : wf_id i ->
  Val_ID_cast (VStr (words_string (words i))) = Ok i.
Proof. intros Hi. cbn [Val_ID_cast]. f_equal. by apply id_read. Qed.

Lemma id_hex_roundtrip_witness :
  wf_id (mkID [1; 2; 3; 4; 4294967295]) /\
  Val_ID_cast (VStr (words_string [1; 2; 3; 4; 4294967295])) = Ok (mkID [1; 2; 3; 4; 4294967295]).
Proof.
  assert (H : wf_id (mkID [1; 2; 3; 4; 4294967295]))
    by (split; [reflexivity|repeat constructor; unfold is_u32; lia]).
  split; [exact H|]. exact (id_hex_roundtrip (P := bare_platform) _ H).
Defined.

(** The printed form of an identifier, [0x...I], is not read back: the
    cast of [toString] to an identifier is zero, whatever the identifier. *)
Theorem id_print_not_read `{P : Platform} (i : ID) : wf_id i ->
  Val_ID_cast (VStr (toString (VID i))) = Ok ID_zero.
Proof.
  intros [Hl Hw]. cbn [toString Val_ID_cast]. f_equal. unfold ID_toString, ID_of_string.
  rewrite !string_bytes_app, words_string_bytes.
  set (B := concat (map (hexl 8) (words i))).
  assert (L : length B = 40%nat) by (unfold B; rewrite length_words_bytes, Hl; done).
  assert (HB : Forall hexd B).
  { unfold B. clear. induction (words i); [done|]. cbn [map concat]. apply Forall_app.
    split; [apply hexl_hexd|done]. }
  change (string_bytes "0x") with [48; 120]. change (string_bytes "I") with [73].
  rewrite !length_app, L. cbn [length Nat.add Nat.ltb Nat.leb Nat.sub].
  destruct B as [|b B'] eqn:E; [done|]. cbn [app drop].
  rewrite drop_0, length_app. cbn in L. injection L as L'. rewrite L'.
  cbn [length Nat.add Nat.sub replicate app].
  rewrite rev_app_distr. cbn [rev app read_words take WORDS].
  apply Forall_cons in HB as [_ HB].
  assert (HC : Forall hexd (rev (take 7 (rev B')))).
  { apply Forall_rev, Forall_take, Forall_rev. done. }
  assert (LC : length (rev (take 7 (rev B'))) = 7%nat)
    by (rewrite length_rev, length_take, length_rev, L'; done).
  set (C := rev (take 7 (rev B'))) in *.
  rewrite c_string_id.
  2:{ apply forallb_forall. intros x Hx%list_elem_of_In.
      apply elem_of_app in Hx as [Hx|Hx]; [|apply list_elem_of_singleton in Hx; subst; done].
      rewrite Forall_forall in HC. destruct (HC x Hx); lia. }
  destruct C as [|c C]; [done|]. rewrite strtoull16_hexd by done.
  destruct (hex_prefix_stop (c :: C) [73] 0) as (n & ->); done.
Qed.

Lemma id_print_not_read_witness :
  wf_id (mkID [0; 0; 0; 0; 7]) /\
  Val_ID_cast (VStr (toString (P := bare_platform) (VID (mkID [0; 0; 0; 0; 7])))) = Ok ID_zero.
Proof.
  assert (H : wf_id (mkID [0; 0; 0; 0; 7]))
    by (split; [reflexivity|repeat constructor; unfold is_u32; lia]).
  split; [exact H|]. exact (id_print_not_read (P := bare_platform) _ H).
Defined.
