(* ===== verification/Oper.v ===== *)
(** * Operators on values (src/p2core/oper.h, oper.C and the Oper classes of val_*.C)

    An [Oper] object is the table of its virtual functions.  [Oper_base] is
    the class [Oper], whose functions all throw; the templates [OperCompare]
    and [OperImpl] and the subclasses of the value classes override some of
    them.  [oper_table] dispatches on the type code of the first operand, as
    [Oper::oper_table_] does; its rows for vectors and matrices are missing in
    the source, which makes their entries null pointers. *)

From Stdlib Require Import SpecFloat Ascii String.
From S2P Require Import Prelude Ids Stl Values Tuples Aggs Xdr Casts.

Local Open Scope p2_scope.

(** Short-circuit connectives over results. *)
Definition and_r (a b : res bool) : res bool := let? x := a in if x then b else Ok false.
Definition or_r (a b : res bool) : res bool := let? x := a in if x then Ok true else b.

Record Oper := mkOper {
  _bnot : value -> res value;
  _band : value -> value -> res value;
  _bor : value -> value -> res value;
  _bxor : value -> value -> res value;
  _lshift : value -> value -> res value;
  _rshift : value -> value -> res value;
  _plus : value -> value -> res value;
  _minus : value -> value -> res value;
  _neg : value -> res value;
  _times : value -> value -> res value;
  _divide : value -> value -> res value;
  _mod : value -> value -> res value;
  _dec : value -> res value;
  _inc : value -> res value;
  _eq : value -> value -> res bool;
  _neq : value -> value -> res bool;
  _gt : value -> value -> res bool;
  _gte : value -> value -> res bool;
  _lt : value -> value -> res bool;
  _lte : value -> value -> res bool;
  _inOO : value -> value -> value -> res bool;
  _inOC : value -> value -> value -> res bool;
  _inCO : value -> value -> value -> res bool;
  _inCC : value -> value -> value -> res bool
}.

(** [NOSUP1], [NOSUP2], [NOSUP3] *)
Definition nosup1 {A} (v : value) : res A := Fail OperException.
Definition nosup2 {A} (v1 v2 : value) : res A := Fail OperException.
Definition nosup3 {A} (v1 v2 v3 : value) : res A := Fail OperException.

Definition Oper_base : Oper := {|
  _bnot := nosup1; _band := nosup2; _bor := nosup2; _bxor := nosup2;
  _lshift := nosup2; _rshift := nosup2; _plus := nosup2; _minus := nosup2;
  _neg := nosup1; _times := nosup2; _divide := nosup2; _mod := nosup2;
  _dec := nosup1; _inc := nosup1;
  _eq := nosup2; _neq := nosup2; _gt := nosup2; _gte := nosup2; _lt := nosup2; _lte := nosup2;
  _inOO := nosup3; _inOC := nosup3; _inCO := nosup3; _inCC := nosup3 |}.

(** ** [OperCompare<T>]

    [cast] is [T::cast] and [cmp c c'] is [T::mk(c)->compareTo(T::mk(c'))].
    Every comparison applies [compareTo] to the second operand, so that [_gt
    v1 v2] holds when [v2] is greater. *)
Section OperCompare.
Context {C : Type} (cast : value -> res C) (cmp : C -> C -> res Z).

Definition compared (test : Z -> bool) (v1 v2 : value) : res bool :=
  let? c1 := cast v1 in
  let? c2 := cast v2 in
  let? r := cmp c2 c1 in
  Ok (test r).

(** [v1->compareTo(v2) op 0] of two converted operands. *)
Definition holds (test : Z -> bool) (c c' : C) : res bool :=
  let? r := cmp c c' in Ok (test r).

Definition gt0 (r : Z) : bool := 0 <? r.
Definition ge0 (r : Z) : bool := 0 <=? r.
Definition lt0 (r : Z) : bool := r <? 0.
Definition le0 (r : Z) : bool := r <=? 0.

(** The four interval tests share their shape: [from] is the test of the
    value against the lower end, [to] against the upper end. *)
Definition interval (from to : Z -> bool) (vc fc tc : value) : res bool :=
  let? v := cast vc in
  let? f := cast fc in
  let? t := cast tc in
  or_r (and_r (holds from v f) (holds to v t))
    (or_r (and_r (holds le0 t f) (holds from v f))
       (and_r (holds to v t) (holds le0 t f))).

Definition OperCompare : Oper := {|
  _bnot := nosup1; _band := nosup2; _bor := nosup2; _bxor := nosup2;
  _lshift := nosup2; _rshift := nosup2; _plus := nosup2; _minus := nosup2;
  _neg := nosup1; _times := nosup2; _divide := nosup2; _mod := nosup2;
  _dec := nosup1; _inc := nosup1;
  _eq := compared (fun r => r =? 0);
  _neq := compared (fun r => negb (r =? 0));
  _gt := compared gt0; _gte := compared ge0; _lt := compared lt0; _lte := compared le0;
  _inOO := interval gt0 lt0; _inOC := interval gt0 le0;
  _inCO := interval ge0 lt0; _inCC := interval ge0 le0 |}.
End OperCompare.

(** The comparison of two values of the class [T], which [T::mk] makes of the
    converted operands. *)
Definition via {C} (mk : C -> value) (c c' : C) : res Z := Ok (compareTo (mk c) (mk c')).

(** ** [OperImpl<Val_Int64>]

    Overflow of [int64_t] arithmetic is undefined, as is a remainder by zero
    and a shift by a count outside 0..63.  A left shift moves the bit
    pattern, a right shift keeps the sign. *)
Definition i64_result (z : Z) : res value :=
  if decide (is_i64 z) then Ok (VInt64 z) else Fail UndefinedBehaviour.

Definition int2 (f : Z -> Z -> res value) (v1 v2 : value) : res value :=
  let? a := Val_Int64_cast v1 in
  let? b := Val_Int64_cast v2 in
  f a b.

Definition shift_ok (b : Z) : bool := (0 <=? b) && (b <? 64).

Definition i64_lshift (a b : Z) : res value :=
  if shift_ok b then Ok (VInt64 (to_i64 (Z.shiftl a b))) else Fail UndefinedBehaviour.
Definition i64_rshift (a b : Z) : res value :=
  if shift_ok b then Ok (VInt64 (Z.shiftr a b)) else Fail UndefinedBehaviour.
Definition i64_mod (a b : Z) : res value :=
  if b =? 0 then Fail UndefinedBehaviour
  else if (a =? - 2 ^ 63) && (b =? -1) then Fail UndefinedBehaviour
  else Ok (VInt64 (Z.rem a b)).

(** [_divide] casts its divisor for the test before it casts the dividend. *)
Definition int_divide (v1 v2 : value) : res value :=
  let? b := Val_Int64_cast v2 in
  if b =? 0 then Fail DivisionByZero
  else let? a := Val_Int64_cast v1 in i64_result (Z.quot a b).

Definition OperInt64 : Oper :=
  let c := OperCompare Val_Int64_cast (via VInt64) in {|
  _bnot v := let? a := Val_Int64_cast v in Ok (VInt64 (Z.lnot a));
  _band := int2 (fun a b => Ok (VInt64 (Z.land a b)));
  _bor := int2 (fun a b => Ok (VInt64 (Z.lor a b)));
  _bxor := int2 (fun a b => Ok (VInt64 (Z.lxor a b)));
  _lshift := int2 i64_lshift;
  _rshift := int2 i64_rshift;
  _plus := int2 (fun a b => i64_result (a + b));
  _minus := int2 (fun a b => i64_result (a - b));
  _neg v := let? a := Val_Int64_cast v in i64_result (- a);
  _times := int2 (fun a b => i64_result (a * b));
  _divide := int_divide;
  _mod := int2 i64_mod;
  _dec v := let? a := Val_Int64_cast v in i64_result (a - 1);
  _inc v := let? a := Val_Int64_cast v in i64_result (a + 1);
  _eq := _eq c; _neq := _neq c; _gt := _gt c; _gte := _gte c; _lt := _lt c; _lte := _lte c;
  _inOO := _inOO c; _inOC := _inOC c; _inCO := _inCO c; _inCC := _inCC c |}.

(** ** [OperDouble] *)
Definition dbl1 (f : spec_float -> spec_float) (v : value) : res value :=
  let? a := Val_Double_cast v in Ok (VDouble (f a)).
Definition dbl2 (f : spec_float -> spec_float -> spec_float) (v1 v2 : value) : res value :=
  let? a := Val_Double_cast v1 in
  let? b := Val_Double_cast v2 in
  Ok (VDouble (f a b)).
Definition one : spec_float := double_of_int64 1.

Definition OperDouble : Oper :=
  let c := OperCompare Val_Double_cast (via VDouble) in {|
  _bnot := nosup1; _band := nosup2; _bor := nosup2; _bxor := nosup2;
  _lshift := nosup2; _rshift := nosup2;
  _plus := dbl2 (SFadd 53 1024);
  _minus := dbl2 (SFsub 53 1024);
  _neg := dbl1 SFopp;
  _times := dbl2 (SFmul 53 1024);
  _divide := dbl2 (SFdiv 53 1024);
  _mod := nosup2;
  _dec := dbl1 (fun d => SFsub 53 1024 d one);
  _inc := dbl1 (fun d => SFadd 53 1024 d one);
  _eq := _eq c; _neq := _neq c; _gt := _gt c; _gte := _gte c; _lt := _lt c; _lte := _lte c;
  _inOO := _inOO c; _inOC := _inOC c; _inCO := _inCO c; _inCC := _inCC c |}.

(** ** [OperNull] *)
Definition is_null (v : value) : bool := match typeCode v with NULLV => true | _ => false end.
Definition null_eq (v1 v2 : value) : res bool := Ok (is_null v1 && is_null v2).

Definition OperNull : Oper := {|
  _bnot := nosup1; _band := nosup2; _bor := nosup2; _bxor := nosup2;
  _lshift := nosup2; _rshift := nosup2; _plus := nosup2; _minus := nosup2;
  _neg := nosup1; _times := nosup2; _divide := nosup2; _mod := nosup2;
  _dec := nosup1; _inc := nosup1;
  _eq := null_eq;
  _neq v1 v2 := let? b := null_eq v1 v2 in Ok (negb b);
  _gt := nosup2; _gte := nosup2; _lt := nosup2; _lte := nosup2;
  _inOO := nosup3; _inOC := nosup3; _inCO := nosup3; _inCC := nosup3 |}.

(** ** [OperID] *)
Definition id2 (f : ID -> ID -> ID) (v1 v2 : value) : res value :=
  let? a := Val_ID_cast v1 in
  let? b := Val_ID_cast v2 in
  Ok (VID (f a b)).
Definition id_shift (f : ID -> Z -> ID) (v1 v2 : value) : res value :=
  let? a := Val_ID_cast v1 in
  let? s := Val_Int64_cast v2 in
  Ok (VID (f a (u32 s))).

Definition OperID : Oper :=
  let c := OperCompare Val_ID_cast (via VID) in {|
  _bnot v := let? a := Val_ID_cast v in Ok (VID (bitwiseNOT a));
  _band := id2 bitwiseAND; _bor := id2 bitwiseOR; _bxor := id2 bitwiseXOR;
  _lshift := id_shift lshift; _rshift := id_shift rshift;
  _plus := id2 add;
  _minus := id2 (fun id1 id2 => distance id2 id1);
  _neg := nosup1; _times := nosup2; _divide := nosup2; _mod := nosup2;
  _dec v := let? a := Val_ID_cast v in Ok (VID (distance ID_ONE a));
  _inc v := let? a := Val_ID_cast v in Ok (VID (add a ID_ONE));
  _eq := _eq c; _neq := _neq c; _gt := _gt c; _gte := _gte c; _lt := _lt c; _lte := _lte c;
  _inOO := _inOO c; _inOC := _inOC c; _inCO := _inCO c; _inCC := _inCC c |}.

(** ** [OperSet]: the set algebra; the comparisons are inclusions. *)
Definition set2 (f : list value -> list value -> list value) (v1 v2 : value) : res value :=
  let? a := Val_Set_cast v1 in
  let? b := Val_Set_cast v2 in
  Ok (VSet (f a b)).
Definition is_set (v : value) : bool := match typeCode v with SET => true | _ => false end.

(** A set against a set ([rel]) or against an element ([elem]). *)
Definition inclusion (rel : list value -> list value -> bool) (elem : list value -> value -> bool)
    (v1 v2 : value) : res bool :=
  if is_set v2 then
    let? a := Val_Set_cast v1 in
    let? b := Val_Set_cast v2 in
    Ok (rel a b)
  else
    let? a := Val_Set_cast v1 in
    Ok (elem a v2).

Definition OperSet : Oper :=
  let c := OperCompare Val_Set_cast (via VSet) in {|
  _bnot v := let? a := Val_Set_cast v in Ok (VInt64 (Z.of_nat (length a)));
  _band := set2 Set_intersect; _bor := set2 Set_setunion; _bxor := set2 Set_symmetricDiff;
  _lshift := nosup2; _rshift := nosup2; _plus := nosup2; _minus := nosup2;
  _neg := nosup1; _times := nosup2;
  _divide := set2 Set_difference;
  _mod := nosup2; _dec := nosup1; _inc := nosup1;
  _eq := _eq c; _neq := _neq c;
  _gt := inclusion Set_propersubset (fun a v => Set_member a v && (1 <? length a)%nat);
  _gte := inclusion Set_subset Set_member;
  _lt v1 v2 :=
    if is_set v2 then inclusion (fun a b => Set_propersubset b a) (fun _ _ => false) v1 v2
    else Ok false;
  _lte := inclusion (fun a b => Set_subset b a)
            (fun a v => Set_member a v && (length a =? 1)%nat);
  _inOO := _inOO c; _inOC := _inOC c; _inCO := _inCO c; _inCC := _inCC c |}.

(** ** [OperTuple]: [Val_Tuple::cast] may answer the null pointer. *)
Definition tuple_ptr_compare (t t' : option (list value)) : res Z :=
  match t, t' with
  | None, _ => Ok 1
  | Some t, Some t' => Ok (compareTo (VTuple t) (VTuple t'))
  | Some _, None => Fail UndefinedBehaviour
  end.

(** [Val_Tuple::mk(Val_Tuple::cast(v1))->compareTo(v2) == 0] *)
Definition tuple_eq (v1 v2 : value) : res bool :=
  let? t := Val_Tuple_cast v1 in
  Ok (match t with Some t => compareTo (VTuple t) v2 =? 0 | None => false end).

Definition OperTuple : Oper :=
  let c := OperCompare Val_Tuple_cast tuple_ptr_compare in {|
  _bnot := nosup1; _band := nosup2; _bor := nosup2; _bxor := nosup2;
  _lshift := nosup2; _rshift := nosup2; _plus := nosup2; _minus := nosup2;
  _neg := nosup1; _times := nosup2; _divide := nosup2; _mod := nosup2;
  _dec := nosup1; _inc := nosup1;
  _eq := tuple_eq;
  _neq v1 v2 := let? b := tuple_eq v1 v2 in Ok (negb b);
  _gt := _gt c; _gte := _gte c; _lt := _lt c; _lte := _lte c;
  _inOO := _inOO c; _inOC := _inOC c; _inCO := _inCO c; _inCC := _inCC c |}.

(** ** [OperList] and the operators of [Val_Opaque]: comparison only. *)
Definition OperList : Oper := OperCompare Val_List_cast (via VList).
Definition OperOpaque : Oper := OperCompare Val_Opaque_cast (via VOpaque).

(** ** [OperTime_Duration]

    boost adds and subtracts the 64-bit counts of ticks of its durations.  The
    test of the range is the model's own: what it makes of a count that leaves it
    (overflow, or one of the counts that stand for its special values) is not
    modelled. *)
Definition td_result (z : Z) : res value :=
  if decide (is_i64 z) then Ok (VTimeDuration z) else Fail Unmodelled.
Definition td2 (f : Z -> Z -> Z) (v1 v2 : value) : res value :=
  let? t1 := Val_Time_Duration_cast v1 in
  let? t2 := Val_Time_Duration_cast v2 in
  td_result (f t1 t2).

Definition OperTime_Duration : Oper :=
  let c := OperCompare Val_Time_Duration_cast (via VTimeDuration) in {|
  _bnot := nosup1; _band := nosup2; _bor := nosup2; _bxor := nosup2;
  _lshift := nosup2; _rshift := nosup2;
  _plus := td2 Z.add; _minus := td2 Z.sub;
  _neg v := let? t1 := Val_Time_Duration_cast v in td_result (- t1);
  _times := nosup2; _divide := nosup2; _mod := nosup2; _dec := nosup1; _inc := nosup1;
  _eq := _eq c; _neq := _neq c; _gt := _gt c; _gte := _gte c; _lt := _lt c; _lte := _lte c;
  _inOO := _inOO c; _inOC := _inOC c; _inCO := _inCO c; _inCC := _inCC c |}.

Section platform.
Context `{P : Platform}.

(** ** [OperStr] *)
Definition OperStr : Oper :=
  let c := OperCompare (fun v => Ok (Val_Str_cast v)) (via VStr) in {|
  _bnot := nosup1; _band := nosup2; _bor := nosup2; _bxor := nosup2;
  _lshift := nosup2; _rshift := nosup2;
  _plus v1 v2 := Ok (VStr (Val_Str_cast v1 +:+ Val_Str_cast v2));
  _minus := nosup2;
  _neg := nosup1; _times := nosup2; _divide := nosup2; _mod := nosup2;
  _dec := nosup1; _inc := nosup1;
  _eq := _eq c; _neq := _neq c; _gt := _gt c; _gte := _gte c; _lt := _lt c; _lte := _lte c;
  _inOO := _inOO c; _inOC := _inOC c; _inCO := _inCO c; _inCC := _inCC c |}.

(** ** [OperTime]: the difference of two times is a duration, that of a time
    and anything else a time. *)
Definition time_minus (v1 v2 : value) : res value :=
  match typeCode v2 with
  | TIME =>
      let? t1 := Val_Time_cast v1 in
      let? t2 := Val_Time_cast v2 in
      td_result (t1 - t2)
  | _ =>
      let? t1 := Val_Time_cast v1 in
      let? d := Val_Time_Duration_cast v2 in
      if decide (is_i64 (t1 - d)) then Ok (VTime (t1 - d)) else Fail Unmodelled
  end.

Definition OperTime : Oper :=
  let c := OperCompare Val_Time_cast (via VTime) in {|
  _bnot := nosup1; _band := nosup2; _bor := nosup2; _bxor := nosup2;
  _lshift := nosup2; _rshift := nosup2; _plus := nosup2;
  _minus := time_minus;
  _neg := nosup1; _times := nosup2; _divide := nosup2; _mod := nosup2;
  _dec := nosup1; _inc := nosup1;
  _eq := _eq c; _neq := _neq c; _gt := _gt c; _gte := _gte c; _lt := _lt c; _lte := _lte c;
  _inOO := _inOO c; _inOC := _inOC c; _inCO := _inCO c; _inCC := _inCC c |}.

(** ** The operator table and the operators *)

Definition oper_table (t1 : TypeCode) : option Oper :=
  match t1 with
  | NULLV => Some OperNull
  | STR => Some OperStr
  | INT64 => Some OperInt64
  | DOUBLE => Some OperDouble
  | OPAQUE => Some OperOpaque
  | TUPLE => Some OperTuple
  | TIME => Some OperTime
  | IDT => Some OperID
  | TIME_DURATION => Some OperTime_Duration
  | SET => Some OperSet
  | LIST => Some OperList
  | VECTOR | MATRIX => None
  end.

(** The entry of the row of [v]; dereferencing a missing one is undefined. *)
Definition row (v : value) : res Oper := of_option UndefinedBehaviour (oper_table (typeCode v)).

Definition op_lshift v1 v2 : res value := let? o := row v1 in _lshift o v1 v2.
Definition op_rshift v1 v2 : res value := let? o := row v1 in _rshift o v1 v2.
Definition op_plus v1 v2 : res value := let? o := row v1 in _plus o v1 v2.
Definition op_minus v1 v2 : res value := let? o := row v1 in _minus o v1 v2.
Definition op_neg v1 : res value := let? o := row v1 in _neg o v1.
Definition op_dec v1 : res value := let? o := row v1 in _dec o v1.
Definition op_inc v1 : res value := let? o := row v1 in _inc o v1.
Definition op_times v1 v2 : res value := let? o := row v1 in _times o v1 v2.
Definition op_divide v1 v2 : res value := let? o := row v1 in _divide o v1 v2.
Definition op_mod v1 v2 : res value := let? o := row v1 in _mod o v1 v2.
Definition op_bnot v : res value := let? o := row v in _bnot o v.
Definition op_band v1 v2 : res value := let? o := row v1 in _band o v1 v2.
Definition op_bor v1 v2 : res value := let? o := row v1 in _bor o v1 v2.
Definition op_bxor v1 v2 : res value := let? o := row v1 in _bxor o v1 v2.

(** [operator==] takes a failed cast for inequality. *)
Definition op_eq v1 v2 : res bool :=
  match (let? o := row v1 in _eq o v1 v2) with
  | Fail TypeError => Ok false
  | r => r
  end.
Definition op_neq v1 v2 : res bool := let? o := row v1 in _neq o v1 v2.
Definition op_lt v1 v2 : res bool := let? o := row v1 in _lt o v1 v2.
Definition op_lte v1 v2 : res bool := let? o := row v1 in _lte o v1 v2.
Definition op_gt v1 v2 : res bool := let? o := row v1 in _gt o v1 v2.
Definition op_gte v1 v2 : res bool := let? o := row v1 in _gte o v1 v2.

(** The interval tests take the row of the lower end. *)
Definition inOO v1 v2 v3 : res bool := let? o := row v2 in _inOO o v1 v2 v3.
Definition inOC v1 v2 v3 : res bool := let? o := row v2 in _inOC o v1 v2 v3.
Definition inCO v1 v2 v3 : res bool := let? o := row v2 in _inCO o v1 v2 v3.
Definition inCC v1 v2 v3 : res bool := let? o := row v2 in _inCC o v1 v2 v3.
End platform.

(** ** Lemmas *)

Lemma forallb_ext_in {A} (f g : A -> bool) l :
  (forall x, x ∈ l -> f x = g x) -> forallb f l = forallb g l.
Proof.
  induction l as [|a l IH]; [done|]. intros H. cbn.
  rewrite (H a) by left. f_equal. apply IH. intros x Hx. apply H. by right.
Qed.

(** [std::includes] on two sets. *)
Lemma std_includes_memb a b : wf_set a -> wf_set b ->
  std_includes a b = forallb (fun x => memb x a) b.
Proof.
  intros [Pa Sa] [Pb Sb]. revert b Pb Sb.
  induction a as [|x a IH]; intros [|y b] Pb Sb; try done.
  pose proof Pb as Pb'. pose proof Sb as Sb'.
  apply Forall_cons in Pa as [Px Pa]. apply StronglySorted_inv in Sa as [Sa Ha].
  apply Forall_cons in Pb' as [Py Pb']. apply StronglySorted_inv in Sb' as [Sb' Hb].
  specialize (IH Pa Sa). cbn [std_includes].
  assert (Hlow : forall z, plainP z -> value_lt z x = true -> memb z (x :: a) = false).
  { intros z Pz Hz. rewrite memb_cons. unfold equivb at 1. rewrite Hz. cbn.
    apply (memb_above z z); auto; [by apply (equivb_refl value_lt plainP)|].
    by apply (above_trans z x). }
  destruct (value_lt y x) eqn:Eyx; [cbn [forallb]; by rewrite Hlow|].
  assert (Hskip : forall z, plainP z -> value_lt x z = true ->
    memb z (x :: a) = memb z a).
  { intros z Pz Hz. rewrite memb_cons. unfold equivb at 1. rewrite Hz.
    by rewrite andb_false_r. }
  destruct (value_lt x y) eqn:Exy.
  - rewrite IH by done. apply forallb_ext_in. intros z Hz.
    symmetry. apply Hskip; [rewrite Forall_forall in Pb; auto|].
    apply elem_of_cons in Hz as [->|Hz]; [done|]. rewrite Forall_forall in Hb, Pb'.
    apply (swo_trans x y z); auto. exact (Hb z Hz).
  - rewrite IH by done. cbn [forallb]. rewrite memb_cons. unfold equivb at 1.
    rewrite Exy, Eyx. cbn. apply forallb_ext_in. intros z Hz. symmetry.
    rewrite Forall_forall in Hb, Pb'. apply Hskip; [auto|].
    rewrite (equivb_lt_l value_lt plainP x y z); auto; [exact (Hb z Hz)|].
    by apply equivb_true.
Qed.

Section facts.
Context `{P : Platform}.

(** The classes whose comparisons are those of [compareTo]. *)
Definition ordered_class (t : TypeCode) : bool :=
  match t with NULLV | SET | LIST | VECTOR | MATRIX => false | _ => true end.

(** Each comparison operator of such a class, in terms of [compareTo] of the
    second operand with the first. *)
Lemma same_class v1 v2 : typeCode v1 = typeCode v2 -> ordered_class (typeCode v1) = true ->
  op_gt v1 v2 = Ok (gt0 (compareTo v2 v1)) /\ op_gte v1 v2 = Ok (ge0 (compareTo v2 v1)) /\
  op_lt v1 v2 = Ok (lt0 (compareTo v2 v1)) /\ op_lte v1 v2 = Ok (le0 (compareTo v2 v1)).
Proof. destruct v1, v2; try discriminate; intros _ _; repeat split; reflexivity. Qed.

(** Of these, tuples compare the first operand with the second for equality. *)
Lemma same_class_eq v1 v2 : plainP v1 -> plainP v2 ->
  typeCode v1 = typeCode v2 -> ordered_class (typeCode v1) = true ->
  op_eq v1 v2 = Ok (compareTo v1 v2 =? 0) /\ op_neq v1 v2 = Ok (negb (compareTo v1 v2 =? 0)).
Proof.
  intros P1 P2 Ht Ho. assert (E : compareTo v2 v1 = - compareTo v1 v2) by (by apply cmp_antisym).
  assert (E0 : (compareTo v2 v1 =? 0) = (compareTo v1 v2 =? 0)) by lia.
  destruct v1, v2; try discriminate; (split; [|]); rewrite <- ?E0; try reflexivity;
    rewrite ?E0; reflexivity.
Qed.

(** The comparison operators on two values of one class (numbers, strings,
    byte strings, tuples, times, identifiers, durations) decide the order of
    the values, with the operands of [<], [<=], [>], [>=] exchanged:
    [op_lt v1 v2] holds exactly when [v2] is below [v1].  Equality is that of
    the order and inequality its negation. *)
Theorem comparison_operators (v1 v2 : value) : plainP v1 -> plainP v2 ->
  typeCode v1 = typeCode v2 -> ordered_class (typeCode v1) = true ->
  op_lt v1 v2 = Ok (value_lt v2 v1) /\ op_lte v1 v2 = Ok (negb (value_lt v1 v2)) /\
  op_gt v1 v2 = Ok (value_lt v1 v2) /\ op_gte v1 v2 = Ok (negb (value_lt v2 v1)) /\
  op_eq v1 v2 = Ok (equals v1 v2) /\ op_neq v1 v2 = Ok (negb (equals v1 v2)).
Proof.
  intros P1 P2 Ht Ho. destruct (same_class v1 v2 Ht Ho) as (-> & -> & -> & ->).
  destruct (same_class_eq v1 v2 P1 P2 Ht Ho) as [-> ->].
  assert (E : compareTo v2 v1 = - compareTo v1 v2) by (by apply cmp_antisym).
  unfold value_lt, equals, gt0, ge0, lt0, le0. rewrite E.
  repeat split; f_equal; lia.
Qed.

(** An interval test on values of one class, from the three comparisons of its
    operands: value and lower end, value and upper end, the two ends. *)
Definition arc_test (from to : Z -> bool) (vf vt tf : Z) : bool :=
  (from vf && to vt) || (le0 tf && from vf) || (to vt && le0 tf).

Lemma interval_class v f t : typeCode v = typeCode f -> typeCode t = typeCode f ->
  ordered_class (typeCode f) = true ->
  let test from to := Ok (arc_test from to (compareTo v f) (compareTo v t) (compareTo t f)) in
  inOO v f t = test gt0 lt0 /\ inOC v f t = test gt0 le0 /\
  inCO v f t = test ge0 lt0 /\ inCC v f t = test ge0 le0.
Proof.
  intros Hv Ht Ho. unfold arc_test.
  destruct v, f, t; try discriminate;
    cbn -[compareTo gt0 ge0 lt0 le0]; unfold holds, via;
    cbn -[compareTo gt0 ge0 lt0 le0];
    repeat split; f_equal;
    repeat (match goal with |- context [if ?b then _ else _] => destruct b end;
            cbn -[compareTo gt0 ge0 lt0 le0]); try reflexivity; try lia.
Qed.

(** On identifiers the interval operators of the virtual machine are the
    ring intervals of class [ID]. *)
Theorem interval_operators_on_ids (v f t : ID) :
  inOO (VID v) (VID f) (VID t) = Ok (betweenOO v f t) /\
  inOC (VID v) (VID f) (VID t) = Ok (betweenOC v f t) /\
  inCO (VID v) (VID f) (VID t) = Ok (betweenCO v f t) /\
  inCC (VID v) (VID f) (VID t) = Ok (betweenCC v f t).
Proof. by apply (interval_class (VID v) (VID f) (VID t)). Qed.

(** In every ordered class the intervals from [f] to [t] and from [t] to
    [f], for ends that differ, partition the values: open against closed, and
    half open against half open. *)
Theorem interval_partition (v f t : value) : plainP v -> plainP f -> plainP t ->
  typeCode v = typeCode f -> typeCode t = typeCode f -> ordered_class (typeCode f) = true ->
  equals f t = false ->
  (exists b, inOO v f t = Ok b /\ inCC v t f = Ok (negb b)) /\
  (exists b, inOC v f t = Ok b /\ inOC v t f = Ok (negb b)) /\
  (exists b, inCO v f t = Ok b /\ inCO v t f = Ok (negb b)).
Proof.
  intros Pv Pf Pt Hv Ht Ho Hd.
  destruct (interval_class v f t) as (-> & -> & -> & _); [done..|].
  destruct (interval_class v t f) as (_ & -> & -> & ->); [congruence..|].
  unfold equals in Hd. pose proof (cmp_antisym f t Pf Pt) as Hft.
  pose proof (cmp_trans (P := plainP) v f t Pv Pf Pt) as H1.
  pose proof (cmp_trans (P := plainP) v t f Pv Pt Pf) as H2.
  pose proof (cmp_trans (P := plainP) f v t Pf Pv Pt) as H3.
  pose proof (cmp_trans (P := plainP) t v f Pt Pv Pf) as H4.
  pose proof (cmp_antisym v f Pv Pf) as Hvf. pose proof (cmp_antisym v t Pv Pt) as Hvt.
  unfold arc_test, gt0, ge0, lt0, le0.
  split; [|split]; (eexists; split; [reflexivity|]; f_equal); lia.
Qed.

(** Between sets, [>=] holds when the first operand includes the second,
    [>] when it does and is larger, and [<=], [<] with the roles exchanged;
    against a value that is no set, [>=] is membership. *)
Theorem set_comparisons (a b : list value) (x : value) : wf_set a -> wf_set b ->
  plainP x -> typeCode x <> SET ->
  op_gte (VSet a) (VSet b) = Ok (forallb (Set_member a) b) /\
  op_gt (VSet a) (VSet b) = Ok (forallb (Set_member a) b && (length b <? length a)%nat) /\
  op_lte (VSet a) (VSet b) = Ok (forallb (Set_member b) a) /\
  op_lt (VSet a) (VSet b) = Ok (forallb (Set_member b) a && (length a <? length b)%nat) /\
  op_gte (VSet a) x = Ok (Set_member a x).
Proof.
  intros Wa Wb Px Hx.
  assert (H : forall c d, wf_set c -> wf_set d -> Set_subset c d = forallb (Set_member c) d).
  { intros c d Wc Wd. unfold Set_subset. rewrite std_includes_memb by done.
    apply forallb_ext_in. intros z Hz. symmetry. apply Set_member_memb; [done|].
    destruct Wd as [Pd _]. rewrite Forall_forall in Pd. auto. }
  repeat split; cbn; unfold Set_propersubset; rewrite ?H by done; try done.
  unfold op_gte, row. cbn. unfold inclusion, is_set. by destruct x.
Qed.

(** Integer division and remainder: for a divisor that is not zero, and
    outside the one quotient that overflows, both operators answer, and their
    results are the truncated quotient and its remainder. *)
Theorem integer_division (a b : Z) : is_i64 a -> is_i64 b -> b <> 0 ->
  ~ (a = - 2 ^ 63 /\ b = -1) ->
  exists q r, op_divide (VInt64 a) (VInt64 b) = Ok (VInt64 q) /\
    op_mod (VInt64 a) (VInt64 b) = Ok (VInt64 r) /\
    a = q * b + r /\ Z.abs r < Z.abs b /\ 0 <= a * r.
Proof.
  intros Ha Hb Hz Ho. exists (Z.quot a b), (Z.rem a b).
  pose proof (Z.quot_rem a b Hz). pose proof (Z.rem_bound_abs a b Hz).
  pose proof (Z.rem_sign_mul a b Hz).
  assert (is_i64 (Z.quot a b)).
  { unfold is_i64 in *. destruct (Z.eq_dec (Z.abs b) 1) as [E|E].
    - assert (b = 1 \/ b = -1) as [-> | ->] by lia;
        rewrite ?Z.quot_1_r, ?(Z.quot_opp_r a 1), ?Z.quot_1_r by lia; lia.
    - pose proof (Z.quot_abs a b Hz).
      assert (Z.abs a ÷ Z.abs b <= Z.abs a / 2).
      { rewrite Z.quot_div_nonneg by lia. apply Z.div_le_compat_l; lia. }
      pose proof (Z.mul_div_le (Z.abs a) 2). lia. }
  cbn. unfold int_divide, int2, i64_mod, i64_result. cbn.
  replace (b =? 0) with false by lia. rewrite decide_True by done.
  replace ((a =? - 2 ^ 63) && (b =? -1)) with false by lia.
  repeat split; lia.
Qed.

(** Equality of values of different classes depends on the order of the
    operands: zero equals NULL, NULL does not equal zero. *)
Theorem equality_not_symmetric :
  op_eq (VInt64 0) VNull = Ok true /\ op_eq VNull (VInt64 0) = Ok false /\
  op_eq (VStr "NULL") VNull = Ok true /\ op_eq VNull (VStr "NULL") = Ok false.
Proof. repeat split; reflexivity. Qed.
End facts.

(** ** Types and ranges of results *)

Lemma i64_shiftr z : is_i64 z <-> Z.shiftr z 63 = 0 \/ Z.shiftr z 63 = -1.
Proof.
  unfold is_i64. rewrite Z.shiftr_div_pow2 by lia.
  pose proof (Z.div_mod z (2 ^ 63)). pose proof (Z.mod_pos_bound z (2 ^ 63)). lia.
Qed.

Lemma i64_land a b : is_i64 a -> is_i64 b -> is_i64 (Z.land a b).
Proof. rewrite !i64_shiftr, Z.shiftr_land. by intros [-> | ->] [-> | ->]; auto. Qed.
Lemma i64_lor a b : is_i64 a -> is_i64 b -> is_i64 (Z.lor a b).
Proof. rewrite !i64_shiftr, Z.shiftr_lor. by intros [-> | ->] [-> | ->]; auto. Qed.
Lemma i64_lxor a b : is_i64 a -> is_i64 b -> is_i64 (Z.lxor a b).
Proof. rewrite !i64_shiftr, Z.shiftr_lxor. by intros [-> | ->] [-> | ->]; auto. Qed.
Lemma i64_lnot a : is_i64 a -> is_i64 (Z.lnot a).
Proof. unfold is_i64, Z.lnot. lia. Qed.
Lemma i64_shr a b : is_i64 a -> 0 <= b -> is_i64 (Z.shiftr a b).
Proof.
  unfold is_i64. intros Ha Hb. rewrite Z.shiftr_div_pow2 by done.
  assert (0 < 2 ^ b) by (apply Z.pow_pos_nonneg; lia).
  split; [apply Z.div_le_lower_bound; nia|apply Z.div_lt_upper_bound; nia].
Qed.
Lemma i64_wrap z : is_i64 (to_i64 z).
Proof. unfold is_i64, to_i64. pose proof (Z.mod_pos_bound (z + 2 ^ 63) (2 ^ 64)). lia. Qed.
Lemma i64_rem a b : is_i64 b -> b <> 0 -> is_i64 (Z.rem a b).
Proof. unfold is_i64. intros Hb Hz. pose proof (Z.rem_bound_abs a b Hz). lia. Qed.

#[export] Hint Resolve i64_land i64_lor i64_lxor i64_lnot i64_wrap i64_rem : p2.

(** A value whose payload is one the program can hold: a 64-bit integer or
    tick count, five words of 32 bits, a strictly sorted set. *)
Definition wf_value (v : value) : Prop :=
  match v with
  | VInt64 i => is_i64 i
  | VID i => wf_id i
  | VTime t => is_i64 t
  | VTimeDuration td => is_i64 td
  | VSet l => wf_set l
  | _ => True
  end.

Lemma clamp_i64_range z : is_i64 (clamp_i64 z).
Proof. unfold is_i64, clamp_i64. lia. Qed.

Lemma strtoll_range s : is_i64 (strtoll s).
Proof.
  unfold strtoll. repeat (match goal with |- context [match ?x with _ => _ end] =>
    destruct x end; try apply clamp_i64_range).
Qed.

Lemma Val_Int64_cast_wf v i : wf_value v -> Val_Int64_cast v = Ok i -> is_i64 i.
Proof.
  destruct v; cbn; intros Hv E; simplify_eq; try done; [apply strtoll_range|].
  destruct d; cbn in E; simplify_eq; try done; try (split; lia). by case_decide; simplify_eq.
Qed.

Lemma retry_range fuel e w : is_u32 w -> is_u32 (retry fuel e w).
Proof.
  revert e w. induction fuel as [|fuel IH]; intros [|c e] w Hw; cbn; try done.
  destruct (strtoull16 e). apply IH. auto with p2.
Qed.

Lemma read_words_wf n r acc : Forall is_u32 acc ->
  length (read_words n r acc) = (n + length acc)%nat /\ Forall is_u32 (read_words n r acc).
Proof.
  revert r acc. induction n as [|n IH]; intros r acc Ha; cbn [read_words]; [done|].
  destruct (strtoull16 _) as [w [|c e]].
  - destruct (IH (drop 8 r) (u32 w :: acc)) as [-> H]; [by constructor; auto with p2|].
    split; [cbn; lia|done].
  - rewrite length_app, length_replicate. cbn [length]. split; [lia|].
    apply Forall_app. split; [apply Forall_replicate; split; lia|].
    constructor; [apply retry_range; auto with p2|done].
Qed.

Lemma ID_of_u32_wf w : is_u32 w -> wf_id (ID_of_u32 w).
Proof. intros Hw. split; [done|]. repeat constructor; try done; unfold is_u32 in *; lia. Qed.

Lemma Val_ID_cast_wf v i : wf_value v -> Val_ID_cast v = Ok i -> wf_id i.
Proof.
  destruct v; cbn -[ID_of_u32]; intros Hv E; simplify_eq; try done.
  - split; cbn; [|]; apply (read_words_wf 5 _ []); constructor.
  - destruct (i0 <? 0); simplify_eq. apply ID_of_u32_wf. auto with p2.
  - destruct (int64_of_double d); cbn -[ID_of_u32] in E; simplify_eq.
    apply ID_of_u32_wf. auto with p2.
Qed.

Lemma Val_Set_cast_wf v l : wf_value v -> Val_Set_cast v = Ok l -> wf_set l.
Proof. destruct v; cbn; intros Hv E; simplify_eq; try done. split; constructor. Qed.

(** [ok_inv] opens a successful chain of casts. *)
Ltac ok_inv :=
  repeat match goal with
  | H : rbind ?m _ = Ok _ |- _ => let E := fresh "E" in destruct m eqn:E; cbn [rbind] in H;
      [|discriminate H]
  | H : Fail _ = Ok _ |- _ => discriminate H
  | H : Ok _ = Ok _ |- _ => injection H as H; try subst
  | H : i64_result _ = Ok _ |- _ => unfold i64_result in H; case_decide
  | H : td_result _ = Ok _ |- _ => unfold td_result in H; case_decide
  | H : (if _ then _ else _) = Ok _ |- _ => case_match
  end.

Section results.
Context `{P : Platform}.

(** The binary operators that answer a value. *)
Definition binary_operators : list (value -> value -> res value) :=
  [op_plus; op_times; op_divide; op_mod; op_band; op_bor; op_bxor; op_lshift; op_rshift].

Ltac operator_cases op v1 E :=
  repeat (apply elem_of_cons in op as [->|op]); [..|by apply not_elem_of_nil in op];
  destruct v1; cbn in E; try discriminate E;
  unfold int2, int_divide, i64_mod, i64_lshift, i64_rshift, dbl2, id2, id_shift, set2, td2,
    nosup2 in E; ok_inv.

(** C36: The class of a result is the class of the first operand, for every
    binary operator but [-]; the difference of two times is a duration, every
    other difference has the class of the first operand; a negation,
    increment or decrement keeps the class, and so does a complement, except
    that of a set, which is its size. *)
Theorem result_types (v1 v2 v : value) :
  (forall op, op ∈ binary_operators -> op v1 v2 = Ok v -> typeCode v = typeCode v1) /\
  (op_minus v1 v2 = Ok v ->
     typeCode v = match typeCode v1, typeCode v2 with
                  | TIME, TIME => TIME_DURATION | t, _ => t end) /\
  (op_neg v1 = Ok v \/ op_inc v1 = Ok v \/ op_dec v1 = Ok v -> typeCode v = typeCode v1) /\
  (op_bnot v1 = Ok v -> typeCode v = match typeCode v1 with SET => INT64 | t => t end).
Proof.
  split; [|split; [|split]].
  - intros op Hop E. operator_cases Hop v1 E; reflexivity.
  - intros E. destruct v1; cbn in E; try discriminate E;
      unfold int2, dbl2, id2, td2, nosup2, time_minus in E; ok_inv; try reflexivity.
    destruct v2; cbn in E; ok_inv; try case_decide; ok_inv; reflexivity.
  - intros [E|[E|E]]; destruct v1; cbn in E; try discriminate E;
      unfold dbl1, nosup1 in E; ok_inv; reflexivity.
  - intros E. destruct v1; cbn in E; try discriminate E; unfold nosup1 in E; ok_inv; reflexivity.
Qed.

Lemma id2_wf f v1 v2 v : (forall a b, wf_id a -> wf_id b -> wf_id (f a b)) ->
  wf_value v1 -> wf_value v2 -> id2 f v1 v2 = Ok v -> wf_value v.
Proof.
  intros Hf W1 W2 E. unfold id2 in E. ok_inv. apply Hf; [by apply (Val_ID_cast_wf v1)|by apply (Val_ID_cast_wf v2)].
Qed.

Lemma id_shift_wf f v1 v2 v : (forall a s, wf_id a -> 0 <= s -> wf_id (f a s)) ->
  wf_value v1 -> id_shift f v1 v2 = Ok v -> wf_value v.
Proof.
  intros Hf W1 E. unfold id_shift in E. ok_inv.
  apply Hf; [by eapply Val_ID_cast_wf|apply u32_range].
Qed.

Lemma set2_wf f v1 v2 v : (forall a b, wf_set a -> wf_set b -> wf_set (f a b)) ->
  wf_value v1 -> wf_value v2 -> set2 f v1 v2 = Ok v -> wf_value v.
Proof.
  intros Hf W1 W2 E. unfold set2 in E. ok_inv. apply Hf; [by apply (Val_Set_cast_wf v1)|by apply (Val_Set_cast_wf v2)].
Qed.

Lemma int2_wf f v1 v2 v :
  (forall a b w, is_i64 a -> is_i64 b -> f a b = Ok w -> wf_value w) ->
  wf_value v1 -> wf_value v2 -> int2 f v1 v2 = Ok v -> wf_value v.
Proof.
  intros Hf W1 W2 E. unfold int2 in E. ok_inv.
  eapply Hf; [..|exact E]; [by apply (Val_Int64_cast_wf v1)|by apply (Val_Int64_cast_wf v2)].
Qed.

Lemma i64_result_wf z v : i64_result z = Ok v -> wf_value v.
Proof. intros E. by ok_inv. Qed.

Lemma i64_shifts_wf a b v : is_i64 a -> i64_lshift a b = Ok v \/ i64_rshift a b = Ok v ->
  wf_value v.
Proof.
  unfold i64_lshift, i64_rshift, shift_ok. intros Ha [E|E]; ok_inv; bools.
  - apply i64_wrap.
  - by apply i64_shr.
Qed.

Lemma i64_mod_wf a b v : is_i64 b -> i64_mod a b = Ok v -> wf_value v.
Proof. unfold i64_mod. intros Hb E. ok_inv. bools. by apply i64_rem. Qed.

Lemma int_divide_wf v1 v2 v : int_divide v1 v2 = Ok v -> wf_value v.
Proof. unfold int_divide. intros E. by ok_inv. Qed.

Lemma td2_wf f v1 v2 v : td2 f v1 v2 = Ok v -> wf_value v.
Proof. unfold td2. intros E. by ok_inv. Qed.

Lemma dbl2_wf f v1 v2 v : dbl2 f v1 v2 = Ok v -> wf_value v.
Proof. unfold dbl2. intros E. by ok_inv. Qed.

Lemma dbl1_wf f v1 v : dbl1 f v1 = Ok v -> wf_value v.
Proof. unfold dbl1. intros E. by ok_inv. Qed.

(** The set algebra keeps sets sorted. *)
Lemma set_ops_wf a b : wf_set a -> wf_set b ->
  wf_set (Set_setunion a b) /\ wf_set (Set_intersect a b) /\
  wf_set (Set_difference a b) /\ wf_set (Set_symmetricDiff a b).
Proof.
  intros Ha Hb. unfold Set_setunion, Set_intersect, Set_difference, Set_symmetricDiff.
  rewrite merge_gen_union, merge_gen_intersection, merge_gen_difference, merge_gen_symmetric.
  repeat split; by apply Set_op_spec.
Qed.

(** [show_method E] replaces an operator by the method it dispatches to. *)
Ltac show_method E :=
  cbn -[int2 int_divide id2 id_shift set2 td2 dbl1 dbl2 nosup1 nosup2] in E.

(** The ways a result arises, as one automation step. *)
Ltac in_range :=
  match goal with
  | E : nosup2 _ _ = Ok _ |- _ => discriminate E
  | E : nosup1 _ = Ok _ |- _ => discriminate E
  | E : int2 i64_mod _ _ = Ok _ |- _ =>
      eapply int2_wf; [| | |exact E]; [|done|done]; intros; by eapply i64_mod_wf
  | E : int2 i64_lshift _ _ = Ok _ |- _ =>
      eapply int2_wf; [| | |exact E]; [|done|done];
      intros; eapply i64_shifts_wf; [|left; eassumption]; done
  | E : int2 i64_rshift _ _ = Ok _ |- _ =>
      eapply int2_wf; [| | |exact E]; [|done|done];
      intros; eapply i64_shifts_wf; [|right; eassumption]; done
  | E : int2 _ _ _ = Ok _ |- _ =>
      eapply int2_wf; [| | |exact E]; [|done|done]; cbn; intros;
      first [by eapply i64_result_wf|simplify_eq; cbn; auto with p2]
  | E : int_divide _ _ = Ok _ |- _ => by eapply int_divide_wf
  | E : dbl2 _ _ _ = Ok _ |- _ => by eapply dbl2_wf
  | E : dbl1 _ _ = Ok _ |- _ => by eapply dbl1_wf
  | E : td2 _ _ _ = Ok _ |- _ => by eapply td2_wf
  | E : id2 _ _ _ = Ok _ |- _ =>
      eapply id2_wf; [| | |exact E]; [|done|done]; intros;
      first [by apply add_wf_val|by apply distance_wf_val|by apply bitwise_wf]
  | E : id_shift _ _ _ = Ok _ |- _ =>
      eapply id_shift_wf; [| |exact E]; [|done]; intros;
      first [by apply lshift_wf_val|by apply rshift_wf_val]
  | E : set2 _ _ _ = Ok _ |- _ => eapply set2_wf; [| | |exact E]; [|done|done]; intros; by apply set_ops_wf
  | E : Ok (VStr _) = Ok _ |- _ => by injection E as <-
  end.

(** Every operator that answers keeps its values in range: integers and
    tick counts in 64 bits, identifiers of five 32-bit words, sets strictly
    sorted (the size of a set, its complement, is in range when the set is
    smaller than 2^63). *)
Theorem results_in_range (v1 v2 v : value) : wf_value v1 -> wf_value v2 ->
  (forall op, op ∈ op_minus :: binary_operators -> op v1 v2 = Ok v -> wf_value v) /\
  (op_neg v1 = Ok v \/ op_inc v1 = Ok v \/ op_dec v1 = Ok v -> wf_value v) /\
  (op_bnot v1 = Ok v -> (forall l, v1 = VSet l -> Z.of_nat (length l) < 2 ^ 63) -> wf_value v).
Proof.
  intros W1 W2. split; [|split].
  - intros op Hop E.
    repeat (apply elem_of_cons in Hop as [->|Hop]); [..|by apply not_elem_of_nil in Hop];
      destruct v1; show_method E; try discriminate E; try in_range.
    unfold time_minus in E. destruct v2; cbn in E; ok_inv; try case_decide; by ok_inv.
  - intros [E|[E|E]]; destruct v1; show_method E; try discriminate E; try in_range; try by ok_inv.
    + injection E as <-. apply add_wf_val; [done|apply wf_ID_ONE].
    + injection E as <-. apply distance_wf_val; [apply wf_ID_ONE|done].
  - intros E Hs. destruct v1; show_method E; try discriminate E; try in_range; injection E as <-.
    + by apply i64_lnot.
    + by apply (bitwise_wf i i).
    + specialize (Hs l eq_refl). cbn. unfold is_i64. lia.
Qed.

(** ** The operators on identifiers *)

(** The answer is an identifier that stands for the number [z]. *)
Definition answers_id (r : res value) (z : Z) : Prop := exists c, r = Ok (VID c) /\ wf_id c /\ idZ c = z.
Lemma answers_make c z : wf_id c /\ idZ c = z -> answers_id (Ok (VID c)) z.
Proof. intros []. by exists c. Qed.

End results.

(** ** The theorems at work *)

Section examples.
#[local] Existing Instance bare_platform.

Lemma comparison_operators_witness :
  op_lt (VInt64 3) (VInt64 2) = Ok true /\ op_gte (VInt64 3) (VInt64 2) = Ok false.
Proof.
  destruct (comparison_operators (VInt64 3) (VInt64 2)) as (H1 & _ & _ & H2 & _);
    [reflexivity..|]. split; [exact H1|exact H2].
Defined.

Lemma interval_partition_witness :
  exists b, inOO (VInt64 9) (VInt64 7) (VInt64 3) = Ok b /\ inCC (VInt64 9) (VInt64 3) (VInt64 7) = Ok (negb b).
Proof.
  destruct (interval_partition (VInt64 9) (VInt64 7) (VInt64 3)) as (H & _); [reflexivity..|]. exact H.
Defined.

Lemma set_comparisons_witness :
  op_gt (VSet [VInt64 1; VInt64 2]) (VSet [VInt64 2]) = Ok true /\
  op_gte (VSet [VInt64 1; VInt64 2]) (VInt64 5) = Ok false.
Proof.
  destruct (set_comparisons [VInt64 1; VInt64 2] [VInt64 2] (VInt64 5)) as (_ & H1 & _ & _ & H2).
  - split; [repeat constructor|]. repeat constructor.
  - split; [repeat constructor|]. repeat constructor.
  - reflexivity.
  - discriminate.
  - split; [exact H1|exact H2].
Defined.

Lemma integer_division_witness :
  exists q r, op_divide (VInt64 (-7)) (VInt64 2) = Ok (VInt64 q) /\
    op_mod (VInt64 (-7)) (VInt64 2) = Ok (VInt64 r) /\ -7 = q * 2 + r.
Proof.
  destruct (integer_division (-7) 2) as (q & r & H1 & H2 & H3 & _);
    [unfold is_i64; lia|unfold is_i64; lia|lia|lia|].
  exists q, r. split; [exact H1|]. split; [exact H2|exact H3].
Defined.

Lemma results_in_range_witness : wf_value (VInt64 (2 ^ 63 - 1)).
Proof.
  destruct (results_in_range (VInt64 (2 ^ 63 - 2)) (VInt64 1) (VInt64 (2 ^ 63 - 1))) as (H & _).
  - unfold wf_value, is_i64. cbn. unfold is_i64. lia.
  - unfold wf_value, is_i64. cbn. unfold is_i64. lia.
  - apply (H op_plus); [|vm_compute; reflexivity]. unfold binary_operators. set_solver.
Defined.

End examples.
