(* ===== verification/Names.v ===== *)
(** * Schemas and expressions (src/p2core/compileUtil.C, namespace namestracker)

    The compiler keeps programs as tuples: an expression is a tuple whose
    first field names its kind (systemTable.h), a schema a list of such
    expressions.  [namestracker] works on these values: it finds variables in
    schemas, merges schemas, derives join keys and masks, prints expressions.

    [Tuple::mk(name)] appends the node identifier of the catalog, a value that
    is a parameter here.  [toVar] numbers the variables it makes up with a
    static counter, which is passed along.  Where the source would put a null
    pointer into a list, the model stops with [Unmodelled]. *)

From Stdlib Require Import SpecFloat Ascii String.
From S2P Require Import Prelude Ids Stl Values Tuples Aggs Xdr Casts Oper.

Local Open Scope p2_scope.

(** ** The kinds of expression (systemTable.h) *)

Definition AGG : string := "Aggregation".
Definition BOOL : string := "Bool".
Definition RANGE : string := "Range".
Definition MATH : string := "Math".
Definition VAL : string := "Value".
Definition VAR : string := "Variable".
Definition NEWLOCSPEC : string := "NewLocSpec".
Definition LOC : string := "Location".
Definition VEC : string := "Vector".
Definition MAT : string := "Matrix".
Definition FUNCTION : string := "sys::function".
Definition SELECT : string := "sys::select".
Definition ASSIGN : string := "sys::assign".

(** ** Fields of a tuple value *)

(** [( *t)[i]] throws when there is no such field. *)
Definition field (t : list value) (i : nat) : res value := of_option OutOfRange (t !! i).

(** Dereferencing [Val_Tuple::cast(v)]. *)
Definition tuple_of (v : value) : res (list value) :=
  let? t := Val_Tuple_cast v in of_option UndefinedBehaviour t.

Section namestracker.
Context `{P : Platform} (nodeid : value).

(** [( *t)[TNAME]->toString()] *)
Definition tname (t : list value) : res string := let? f := field t 0 in Ok (toString f).

(** [( *Val_Tuple::cast(v))[0]->toString()] *)
Definition kind (v : value) : res string := let? t := tuple_of v in tname t.

(** [Tuple::mk(name)] *)
Definition mk_named (name : string) : list value := [VStr name; nodeid].

Definition is_kind (k k' : string) : bool := String.eqb k k'.

(** ** Searching a schema *)

(** The name a variable is looked up by. *)
Definition lookup_name (variable : value) : res value :=
  match variable with
  | VTuple t =>
      let? k := tname t in
      if is_kind k VAR || is_kind k LOC then field t 2
      else if is_kind k AGG then
        let? var := field t 2 in
        let? b := op_neq var VNull in
        if b then let? t' := tuple_of var in field t' 2 else Ok var
      else Ok variable
  | _ => Ok variable
  end.

(** The name an attribute of the schema has; none for the null pointer. *)
Definition attribute_name (arg : list value) (k : string) : res (option value) :=
  if is_kind k AGG then
    let? v := field arg 2 in
    let? t := Val_Tuple_cast v in
    match t with Some t' => let? x := field t' 2 in Ok (Some x) | None => Ok None end
  else let? x := field arg 2 in Ok (Some x).

Fixpoint position_from (args : list value) (var : value) (index : Z) : res Z :=
  match args with
  | [] => Ok (-1)
  | i :: args' =>
      let? arg := tuple_of i in
      let? k := tname arg in
      if negb (is_kind k AGG) && negb (is_kind k VAR) && negb (is_kind k LOC)
      then position_from args' var (index + 1)
      else
        let? name := attribute_name arg k in
        let? b := match name with Some x => op_eq x var | None => Ok false end in
        if b then Ok index else position_from args' var (index + 1)
  end.

Definition position (args : list value) (variable : value) : res Z :=
  let? n := op_eq variable VNull in
  if n then Ok (-1)
  else let? var := lookup_name variable in position_from args var 0.

(** ** [toVar] *)

(** A made-up variable. *)
Definition fict_var (k : string) (n : Z) : value :=
  VTuple (mk_named k ++ [VStr ("$_" +:+ dec_string n)]).

Fixpoint toVar (v : value) (fictVar : Z) : res (option value * Z) :=
  match v with
  | VList elems =>
      (fix go (l : list value) (varList : list value) (n : Z) : res (option value * Z) :=
         match l with
         | [] => Ok (Some (VList varList), n)
         | e :: l' =>
             let? k := kind e in
             if is_kind k LOC then go l' (varList ++ [e]) n
             else
               let? (var, n) := toVar e n in
               go l' (match var with Some x => varList ++ [x] | None => varList end) n
         end) elems [] fictVar
  | VTuple t =>
      let? k := tname t in
      if is_kind k VAL then Ok (Some (fict_var VAR fictVar), fictVar + 1)
      else if is_kind k VAR then Ok (Some v, fictVar)
      else if is_kind k LOC then
        let? x := field t 2 in Ok (Some (VTuple (mk_named VAR ++ [x])), fictVar)
      else if is_kind k AGG then
        match t with
        | _ :: _ :: x :: _ => toVar x fictVar
        | _ => Fail OutOfRange
        end
      else Ok (None, fictVar)
  | _ =>
      let? n := op_eq v VNull in
      if n then Ok (Some (fict_var VAR fictVar), fictVar + 1) else Fail TypeError
  end.

(** [uniqueSchema]: the same number of attributes, all made up. *)
Fixpoint unique_from (l : list value) (fictvar : Z) : res (list value) :=
  match l with
  | [] => Ok []
  | e :: l' =>
      let? k := kind e in
      let? rest := unique_from l' (fictvar + 1) in
      Ok (fict_var (if is_kind k LOC then LOC else VAR) fictvar :: rest)
  end.

Definition uniqueSchema (v : value) : res value :=
  match v with
  | VList l => let? s := unique_from l 0 in Ok (VList s)
  | _ => Ok (VList [])
  end.

(** ** Attributes of a head: [flatten], [groupby], [aggregation], [location] *)

(** Appending [toVar] of an attribute; the null pointer is not modelled. *)
Definition append_var (acc : list value) (e : value) (n : Z) : res (list value * Z) :=
  let? (var, n) := toVar e n in
  let? x := of_option Unmodelled var in
  Ok (acc ++ [x], n).

Fixpoint flatten (args schema : list value) (n : Z) : res (list value * Z) :=
  match args with
  | [] => Ok (schema, n)
  | i :: args' =>
      let? arg := tuple_of i in
      let? k := tname arg in
      if is_kind k LOC then flatten args' (schema ++ [i]) n
      else if negb (is_kind k AGG) then
        let? (schema, n) := append_var schema i n in flatten args' schema n
      else
        let? f := field arg 2 in
        let? b := op_neq f VNull in
        if b then let? (schema, n) := append_var schema i n in flatten args' schema n
        else flatten args' schema n
  end.

Fixpoint groupby (args gb : list value) (n : Z) : res (list value * Z) :=
  match args with
  | [] => Ok (gb, n)
  | i :: args' =>
      let? k := kind i in
      if negb (is_kind k AGG) then
        let? (gb, n) := append_var gb i n in groupby args' gb n
      else groupby args' gb n
  end.

Fixpoint aggregation_from (args : list value) (index : Z) : res Z :=
  match args with
  | [] => Ok (-1)
  | i :: args' =>
      let? k := kind i in
      if is_kind k AGG then Ok index else aggregation_from args' (index + 1)
  end.
Definition aggregation (args : list value) : res Z := aggregation_from args 0.

(** [location]: none is the null pointer. *)
Fixpoint location (schema : list value) : res (option value) :=
  match schema with
  | [] => Ok None
  | i :: schema' =>
      let? attribute := tuple_of i in
      let? k := tname attribute in
      if is_kind k LOC then let? x := field attribute 2 in Ok (Some x)
      else if is_kind k AGG then
        let? f := field attribute 2 in
        let? b := op_neq f VNull in
        if b then
          let? k' := kind f in
          if is_kind k' LOC then Ok (Some f) else location schema'
        else location schema'
      else location schema'
  end.

(** ** Variables of an expression *)

Fixpoint variables (v : value) : res (list value) :=
  match v with
  | VTuple t =>
      let? k := tname t in
      if is_kind k BOOL || is_kind k MATH then
        match t with
        | _ :: _ :: _ :: lhs :: rhs :: _ =>
            let? l := variables lhs in
            let? r := variables rhs in
            Ok (l ++ r)
        | _ => Fail OutOfRange
        end
      else if is_kind k VAR then Ok [v]
      else if is_kind k LOC then Ok [v]
      else if is_kind k AGG then
        match t with _ :: _ :: x :: _ => variables x | _ => Fail OutOfRange end
      else if is_kind k FUNCTION then
        match t with
        | _ :: _ :: _ :: n :: rest =>
            let? args := Val_Int64_cast n in
            (** the arguments are visited from the last to the first *)
            (fix go (l : list value) (args : Z) : res (list value) :=
               if args <=? 0 then Ok []
               else match l with
                    | [] => Fail OutOfRange
                    | e :: l' =>
                        let? later := go l' (args - 1) in
                        let? vars := variables e in
                        Ok (later ++ vars)
                    end) rest (to_i32 args)
        | _ => Fail OutOfRange
        end
      else Ok []
  | _ =>
      let? n := op_eq v VNull in
      if n then Ok [] else let? _ := tuple_of v in Ok []
  end.

(** ** Relations between schemas *)

(** The position of [toVar] of an attribute; [position] dereferences a null
    pointer. *)
Definition position_of_var (schema : list value) (e : value) (n : Z) : res (Z * Z) :=
  let? (var, n) := toVar e n in
  let? x := of_option UndefinedBehaviour var in
  let? p := position schema x in
  Ok (p, n).

(** Every variable of the first schema is in the second. *)
Fixpoint subset (schema1 schema2 : list value) (n : Z) : res (bool * Z) :=
  match schema1 with
  | [] => Ok (true, n)
  | i :: schema1' =>
      let? k := kind i in
      if is_kind k VAL then subset schema1' schema2 n
      else
        let? (p, n) := position_of_var schema2 i n in
        if p <? 0 then Ok (false, n) else subset schema1' schema2 n
  end.

Fixpoint all_positions (vars schema : list value) (n : Z) : res (bool * Z) :=
  match vars with
  | [] => Ok (true, n)
  | i :: vars' =>
      let? (p, n) := position_of_var schema i n in
      if p <? 0 then Ok (false, n) else all_positions vars' schema n
  end.

(** Every variable of the expression is in the schema. *)
Definition filter_ (schema : list value) (boolv : value) (n : Z) : res (bool * Z) :=
  let? vars := variables boolv in all_positions vars schema n.

Fixpoint found_in (e : value) (plan : list value) : res bool :=
  match plan with
  | [] => Ok false
  | i2 :: plan' => let? b := op_eq e i2 in if b then Ok true else found_in e plan'
  end.

(** Every step of the first plan is in the second. *)
Fixpoint equivalent (plan1 plan2 : list value) : res bool :=
  match plan1 with
  | [] => Ok true
  | i1 :: plan1' =>
      let? b := found_in i1 plan2 in
      if b then equivalent plan1' plan2 else Ok false
  end.

(** The attributes of [l] that [keep] accepts, in order. *)
Fixpoint select_attrs (keep : value -> res bool) (l : list value) : res (list value) :=
  match l with
  | [] => Ok []
  | i :: l' =>
      let? b := keep i in
      let? rest := select_attrs keep l' in
      Ok (if b then i :: rest else rest)
  end.

(** [merge]: the schema of a join. *)
Definition not_value (i : value) : res bool :=
  let? k := kind i in Ok (negb (is_kind k VAL)).
Definition not_in_outer (outer : list value) (i : value) : res bool :=
  let? p := position outer i in
  if p <? 0 then not_value i else Ok false.
Definition merge (outer inner : list value) : res (list value) :=
  let? a := select_attrs not_value outer in
  let? b := select_attrs (not_in_outer outer) inner in
  Ok (a ++ b).

(** [prefix]: positions that do not decrease. *)
Fixpoint prefix_from (pre schema : list value) (pos : Z) : res bool :=
  match pre with
  | [] => Ok true
  | i :: pre' =>
      let? attrPos := position schema i in
      if attrPos <? pos then Ok false else prefix_from pre' schema attrPos
  end.
Definition prefix (pre schema : list value) : res bool := prefix_from pre schema 0.

(** [joinKeys]: the keys of the join, of the inner index and of the inner
    attributes that are not joined, positions counted behind the table name. *)
Fixpoint joinKeys_from (outer inner : list value) (innerPos : Z)
    (joinKey indexKey baseKey : list Z) : res (list Z * list Z * list Z) :=
  match inner with
  | [] => Ok (joinKey, indexKey, baseKey)
  | i :: inner' =>
      let? pos := position outer i in
      if pos <? 0
      then joinKeys_from outer inner' (innerPos + 1) joinKey indexKey (baseKey ++ [innerPos])
      else joinKeys_from outer inner' (innerPos + 1) (joinKey ++ [pos + 1])
             (indexKey ++ [innerPos]) baseKey
  end.
Definition joinKeys (outer inner : list value) : res (list Z * list Z * list Z) :=
  joinKeys_from outer inner 1 [] [] [].

(** [adornment]: the positions bound by variables of [bound] or by constants. *)
Fixpoint adornment_from (bound schema : list value) (pos : Z) : res (list value) :=
  match schema with
  | [] => Ok []
  | i :: schema' =>
      let? k := kind i in
      let? b := if is_kind k VAR then let? p := position bound i in Ok (0 <=? p)
                else Ok (negb (is_kind k LOC)) in
      let? rest := adornment_from bound schema' (pos + 1) in
      Ok (if b then VInt64 pos :: rest else rest)
  end.
Definition adornment (bound schema : list value) : res (list value) :=
  adornment_from bound schema 1.

(** [project]: the attributes at the given positions (from 1); the whole
    schema when one is out of range. *)
Fixpoint project_from (positions schema acc : list value) : res (list value) :=
  match positions with
  | [] => Ok acc
  | p :: positions' =>
      let? i := Val_Int64_cast p in
      let pos := u32 (i - 1) in
      if pos <? Z.of_nat (length schema) then
        let? x := List_at schema (Z.to_nat pos) in
        project_from positions' schema (acc ++ [x])
      else Ok schema
  end.
Definition projectAttrs (positions schema : list value) : res (list value) :=
  project_from positions schema [].

(** [assignSchema]: the schema behind an assignment. *)
Definition assignSchema (outer : list value) (var : value) : res (list value) :=
  let? p := position outer var in
  if p <? 0 then let? t := tuple_of var in Ok (outer ++ [VTuple t]) else Ok outer.

(** [castassign]: a comparison of an attribute of either schema, read as an
    assignment. *)
Definition castassign (outer inner boolv : list value) : res value :=
  let? k := tname boolv in
  if is_kind k BOOL then
    let? f4 := field boolv 4 in
    let? b := op_neq f4 VNull in
    if b then
      let? lhs := field boolv 3 in
      let rhs := f4 in
      let? lo := position outer lhs in
      let? ri := if 0 <=? lo then position inner rhs else Ok (-1) in
      if (0 <=? lo) && (0 <=? ri) then Ok (VList [rhs; lhs])
      else
        let? ro := position outer rhs in
        let? li := if 0 <=? ro then position inner lhs else Ok (-1) in
        if (0 <=? ro) && (0 <=? li) then Ok (VList [lhs; rhs]) else Ok VNull
    else Ok VNull
  else Ok VNull.

(** [size() > 0] of a value: false for the empty containers and strings. *)
Definition size_positive (v : value) : bool :=
  match v with
  | VStr EmptyString | VOpaque [] | VTuple [] | VSet [] | VList [] | VVector [] => false
  | VMatrix s1 s2 _ => (0 <? s1 * s2)%nat
  | _ => true
  end.

(** The order a join can keep. *)
Fixpoint first_variable (join : list value) : res value :=
  match join with
  | [] => Ok VNull
  | i :: join' => let? k := kind i in if is_kind k VAR then Ok i else first_variable join'
  end.

Definition sortAttr (outer : list value) (outerOrder : value) (inner : list value)
    (innerOrder : value) : res value :=
  let? same := if size_positive outerOrder then op_eq outerOrder innerOrder else Ok false in
  if same then Ok outerOrder
  else
    let? join := select_attrs (fun i => let? p := position outer i in Ok (0 <=? p)) inner in
    let? po := if size_positive outerOrder then position join outerOrder else Ok 0 in
    if 0 <? po then Ok outerOrder
    else
      let? pi := if size_positive innerOrder then position join innerOrder else Ok 0 in
      if 0 <? pi then Ok innerOrder else first_variable join.

(** [isTheta]: a comparison of a variable with a constant, not for equality. *)
Definition isTheta (boolv : value) : res bool :=
  let? tp := tuple_of boolv in
  let? k := tname tp in
  if is_kind k BOOL then
    let? lhs := field tp 3 in
    let? rhs := field tp 4 in
    let? b := op_neq rhs VNull in
    if b then
      let? o := field tp 2 in
      if is_kind (toString o) "==" then Ok false
      else
        let? kl := kind lhs in
        let? c := if is_kind kl VAR then let? kr := kind rhs in Ok (is_kind kr VAL) else Ok false in
        if c then Ok true
        else
          let? kr := kind rhs in
          if is_kind kr VAR then let? kl := kind lhs in Ok (is_kind kl VAL) else Ok false
    else Ok false
  else Ok false.

(** ** Masks *)

Fixpoint calculateMask (v : value) : res (list value) :=
  match v with
  | VTuple t =>
      let? k := tname t in
      if is_kind k LOC || is_kind k VAR then Ok [VTuple t]
      else if is_kind k AGG then
        match t with _ :: _ :: x :: _ => calculateMask x | _ => Fail OutOfRange end
      else if is_kind k BOOL || is_kind k RANGE || is_kind k MATH then
        match t with
        | _ :: _ :: _ :: lhs :: rest =>
            let? l := calculateMask lhs in
            match rest with
            | rhs :: _ => let? r := calculateMask rhs in Ok (l ++ r)
            | [] => Fail OutOfRange
            end
        | _ => Fail OutOfRange
        end
      else if is_kind k FUNCTION then
        match t with
        | _ :: _ :: _ :: n :: rest =>
            let? numArgs := Val_Int64_cast n in
            (fix go (l : list value) (numArgs : Z) : res (list value) :=
               if numArgs <=? 0 then Ok []
               else match l with
                    | [] => Fail OutOfRange
                    | e :: l' =>
                        let? m := calculateMask e in
                        let? later := go l' (numArgs - 1) in
                        Ok (m ++ later)
                    end) rest (u32 numArgs)
        | _ => Fail OutOfRange
        end
      else if is_kind k VEC || is_kind k MAT then Fail AssertFailed
      else Ok []
  | _ => let? _ := tuple_of v in Ok []
  end.
Definition getMask (v : value) : res (list value) := calculateMask v.

(** [applyMask]: the attributes named by one of the first parts of the mask. *)
Fixpoint in_mask (mask : list value) (outer : value) (count countEnd : Z) : res bool :=
  match mask with
  | [] => Ok false
  | m :: mask' =>
      if count <? countEnd then
        let? maskPart := Val_List_cast m in
        let? p := position maskPart outer in
        if 0 <=? p then Ok true else in_mask mask' outer (count + 1) countEnd
      else Ok false
  end.

Definition applyMask (original mask : list value) (oldPos : Z) : res (list value) :=
  let countEnd := u32 (Z.of_nat (length mask) - u32 oldPos + 1) in
  select_attrs (fun outer => in_mask mask outer 0 countEnd) original.

(** ** Expressions as text *)

Definition quoted (s : string) : string := String (char_of 34) (s +:+ String (char_of 34) "").

Fixpoint exprString (v : value) : res string :=
  match v with
  | VTuple expr =>
      let? type := tname expr in
      if is_kind type VAR || is_kind type VAL || is_kind type MAT || is_kind type VEC then
        let? val := field expr 2 in
        match val with
        | VStr s => Ok (if is_kind type VAL then quoted s else s)
        | _ => Ok (toString val)
        end
      else if is_kind type LOC then let? x := field expr 2 in Ok ("@" +:+ toString x)
      else if is_kind type NEWLOCSPEC then let? x := field expr 2 in Ok ("&" +:+ toString x)
      else if is_kind type AGG then
        match expr with
        | _ :: _ :: x :: f :: _ =>
            let? b := op_eq x VNull in
            let? s := if b then Ok "*" else exprString x in
            Ok (toString f +:+ "< " +:+ s +:+ " >")
        | _ => Fail OutOfRange
        end
      else if is_kind type BOOL then
        match expr with
        | _ :: _ :: o :: l :: r :: _ =>
            let? b := op_neq r VNull in
            if b then
              let? sl := exprString l in
              let? sr := exprString r in
              Ok (sl +:+ " " +:+ toString o +:+ " " +:+ sr)
            else
              let? sl := exprString l in Ok (toString o +:+ " " +:+ sl)
        | _ => Fail OutOfRange
        end
      else if is_kind type MATH then
        match expr with
        | _ :: _ :: o :: l :: r :: _ =>
            let? sl := exprString l in
            let? sr := exprString r in
            Ok (sl +:+ " " +:+ toString o +:+ " " +:+ sr)
        | _ => Fail OutOfRange
        end
      else if is_kind type FUNCTION then
        match expr with
        | _ :: _ :: name :: n :: rest =>
            let? args := Val_Int64_cast n in
            let? s := (fix go (l : list value) (k : Z) : res string :=
                if k <=? 0 then Ok ""
                else match l with
                     | [] => Fail OutOfRange
                     | e :: l' =>
                         let? s := exprString e in
                         let? later := go l' (k - 1) in
                         Ok (s +:+ (if k =? 1 then "" else ", ") +:+ later)
                     end) rest (u32 args) in
            Ok (toString name +:+ "(" +:+ s +:+ ")")
        | _ => Fail OutOfRange
        end
      else Ok ""
  | _ => let? _ := tuple_of v in Ok ""
  end.
End namestracker.

(** ** Schemas of attributes

    The attributes the compiler builds, and the value each is kept as. *)
Inductive attr :=
  | AVar (x : string)
  | ALoc (x : string)
  | AAgg (x : option string) (f : string)
  | AVal (v : value).

Definition aname (a : attr) : option string :=
  match a with AVar x | ALoc x => Some x | AAgg x _ => x | AVal _ => None end.

Definition is_val (a : attr) : bool := match a with AVal _ => true | _ => false end.

Definition names (l : list attr) : list string := omap aname l.

(** The first position at which a schema has a name, or -1. *)
Fixpoint index_from (x : string) (l : list attr) (i : Z) : Z :=
  match l with
  | [] => -1
  | a :: l' => if bool_decide (aname a = Some x) then i else index_from x l' (i + 1)
  end.

Lemma NoDup_omap_filter (Q : attr -> Prop) `{!forall a, Decision (Q a)} l :
  NoDup (omap aname l) -> NoDup (omap aname (filter Q l)).
Proof.
  induction l as [|a l IH]; [done|]. rewrite filter_cons. cbn.
  destruct (aname a) as [x|] eqn:E; intros Hd; case_decide; cbn; rewrite ?E; auto.
  - apply NoDup_cons in Hd as [Hx Hd]. apply NoDup_cons. split; [|auto].
    intros (b & [_ Hb]%list_elem_of_filter & Hn)%list_elem_of_omap. apply Hx.
    apply list_elem_of_omap. eauto.
  - apply NoDup_cons in Hd as [Hx Hd]. auto.
Qed.

Section schemas.
Context `{P : Platform} (nodeid : value).

Definition embed (a : attr) : value :=
  match a with
  | AVar x => VTuple [VStr VAR; nodeid; VStr x]
  | ALoc x => VTuple [VStr LOC; nodeid; VStr x]
  | AAgg (Some x) f => VTuple [VStr AGG; nodeid; VTuple [VStr VAR; nodeid; VStr x]; VStr f]
  | AAgg None f => VTuple [VStr AGG; nodeid; VNull; VStr f]
  | AVal v => VTuple [VStr VAL; nodeid; v]
  end.

(** What [position] compares the names of the schema with, for an attribute
    that has no name: no variable is called like the text of a constant. *)
Definition no_clash (l : list attr) (a : attr) : Prop :=
  match a with
  | AVal _ => toString (embed a) ∉ names l
  | AAgg None _ => "NULL" ∉ names l
  | _ => True
  end.

Lemma lexc_zero_eq (s t : list Z) : lexc cmpZ s t = 0 <-> s = t.
Proof.
  revert t. induction s as [|a s IH]; intros [|b t]; cbn; try done.
  destruct (cmpZ a b =? 0) eqn:E; bools.
  - apply cmpZ_zero in E as ->. rewrite IH. split; [by intros ->|by intros [=]].
  - split; [lia|]. intros [= -> ->]. destruct E. by apply cmpZ_zero.
Qed.

Lemma string_bytes_inj s t : string_bytes s = string_bytes t -> s = t.
Proof.
  revert t. induction s as [|c s IH]; intros [|d t]; try done.
  rewrite !string_bytes_cons. intros [= Hc Hs]. f_equal; [|by apply IH].
  rewrite <- (ascii_N_embedding c), <- (ascii_N_embedding d). f_equal. lia.
Qed.

(** Equality with a string on the left compares texts. *)
Lemma op_eq_str x v : op_eq (VStr x) v = Ok (bool_decide (x = Val_Str_cast v)).
Proof.
  unfold op_eq, row. cbn -[Val_Str_cast]. change (Val_Str_cast (VStr x)) with x.
  unfold Val_Str_compareTo. cbn -[Val_Str_cast]. f_equal.
  destruct (Z.eqb_spec (lexc cmpZ (string_bytes (Val_Str_cast v)) (string_bytes x)) 0) as [E|E];
    symmetry; [apply bool_decide_true|apply bool_decide_false].
  - apply lexc_zero_eq, string_bytes_inj in E. done.
  - intros ->. apply E. by apply lexc_zero_eq.
Qed.

(** The search loop on embedded attributes. *)
Lemma position_from_embed l v i :
  position_from (embed <$> l) v i = Ok (index_from (Val_Str_cast v) l i).
Proof.
  revert i. induction l as [|a l IH]; intros i; [done|].
  rewrite fmap_cons. cbn [position_from index_from].
  destruct a as [x|x|[x|] f|w]; cbn [embed tuple_of Val_Tuple_cast rbind of_option tname field];
    cbn -[op_eq Val_Str_cast position_from]; rewrite ?op_eq_str; cbn [rbind];
    rewrite ?IH; try case_bool_decide; try case_bool_decide; try congruence; try done.
Qed.

Lemma index_from_absent x l i : x ∉ names l -> index_from x l i = -1.
Proof.
  revert i. induction l as [|a l IH]; intros i Hx; [done|]. cbn.
  rewrite bool_decide_false.
  - apply IH. intros H. apply Hx. unfold names. cbn. destruct (aname a); [by right|done].
  - intros E. apply Hx. unfold names. cbn. rewrite E. left.
Qed.

(** [position] of an embedded attribute. *)
Lemma position_embed l a : no_clash l a ->
  position (embed <$> l) (embed a) =
    Ok (match aname a with Some x => index_from x l 0 | None => -1 end).
Proof.
  intros Hc. unfold position.
  destruct a as [x|x|[x|] f|w]; cbn -[position_from names]; rewrite position_from_embed;
    cbn -[names]; try done; f_equal; by apply index_from_absent.
Qed.

(** The index found holds the name, and no earlier one does. *)
Lemma index_from_spec x l i : 0 <= i ->
  match decide (x ∈ names l) with
  | left _ => exists k a, index_from x l i = i + Z.of_nat k /\ l !! k = Some a /\
      aname a = Some x /\ x ∉ names (take k l)
  | right _ => index_from x l i = -1
  end.
Proof.
  intros Hi. case_decide as Hx; [|by apply index_from_absent].
  revert i Hi. induction l as [|a l IH]; intros i Hi; [by apply not_elem_of_nil in Hx|].
  cbn. case_bool_decide as E.
  - exists 0%nat, a. repeat split; try done; [lia|]. apply not_elem_of_nil.
  - destruct (IH) with (i := i + 1) as (k & b & -> & Hl & Hn & Ht); [|lia|].
    + unfold names in *. cbn in Hx. destruct (aname a) as [y|] eqn:Ey; [|done].
      apply elem_of_cons in Hx as [->|]; [done|done].
    + exists (S k), b. repeat split; try done; [lia|]. unfold names in *. cbn.
      destruct (aname a) as [y|] eqn:Ey; [|done]. apply not_elem_of_cons. split; congruence.
Qed.

(** [position] of a named attribute in a schema: the index of the first
    attribute with that name (aggregates count by the variable they aggregate),
    or -1 when the schema has no such name. *)
Theorem position_correct (l : list attr) (a : attr) (x : string) : aname a = Some x ->
  exists p, position (embed <$> l) (embed a) = Ok p /\
  ((p = -1 /\ x ∉ names l) \/
   (exists k b, p = Z.of_nat k /\ l !! k = Some b /\ aname b = Some x /\
      x ∉ names (take k l))).
Proof.
  intros Ha. rewrite position_embed by (by destruct a as [| |[]|]). rewrite Ha.
  eexists. split; [done|]. pose proof (index_from_spec x l 0) as H.
  case_decide; [|left; split; [by apply H|done]].
  destruct H as (k & b & -> & Hl & Hn & Ht); [done|]. right. by exists k, b.
Qed.

(** [shared outer a]: the attribute's name occurs in the outer schema. *)
Definition shared (outer : list attr) (a : attr) : bool :=
  match aname a with Some x => bool_decide (x ∈ names outer) | None => false end.

Lemma position_shared outer a : no_clash outer a ->
  exists p, position (embed <$> outer) (embed a) = Ok p /\
  if shared outer a
  then exists k b, p = Z.of_nat k /\ outer !! k = Some b /\ aname b = aname a
  else p = -1.
Proof.
  intros Hc. rewrite position_embed by done. eexists. split; [done|]. unfold shared.
  destruct (aname a) as [x|]; [|done]. pose proof (index_from_spec x outer 0) as H.
  case_decide as Hx;
    [rewrite bool_decide_true by done|rewrite bool_decide_false by done; by apply H].
  destruct H as (k & b & -> & Hl & Hn & _); [done|]. exists k, b. split; [lia|done].
Qed.

(** The keys [joinKeys] derives for an inner schema from position [n] on. *)
Definition join_pair (outer inner : list attr) (n j i : Z) : Prop :=
  exists ko ki a b, j = Z.of_nat ko + 1 /\ i = Z.of_nat ki + n /\
    outer !! ko = Some a /\ inner !! ki = Some b /\ aname a = aname b /\ aname b <> None.

Definition base_attr (outer inner : list attr) (n i : Z) : Prop :=
  exists ki b, i = Z.of_nat ki + n /\ inner !! ki = Some b /\ shared outer b = false.

Lemma joinKeys_from_spec outer inner n jk ik bk : Forall (no_clash outer) inner ->
  exists jk' ik' bk',
    joinKeys_from (embed <$> outer) (embed <$> inner) n jk ik bk =
      Ok (jk ++ jk', ik ++ ik', bk ++ bk') /\
    Forall2 (join_pair outer inner n) jk' ik' /\ Forall (base_attr outer inner n) bk' /\
    ik' ++ bk' ≡ₚ seqZ n (Z.of_nat (length inner)).
Proof.
  intros Hc. revert n jk ik bk. induction Hc as [|a inner Ha Hc IH]; intros n jk ik bk.
  { exists [], [], []. rewrite !app_nil_r. repeat split; constructor. }
  rewrite fmap_cons. cbn [joinKeys_from length].
  assert (L1 : forall j i, join_pair outer inner (n + 1) j i -> join_pair outer (a :: inner) n j i).
  { intros j i (ko & ki & b & c & -> & -> & H). exists ko, (S ki), b, c. split; [done|].
    split; [lia|done]. }
  assert (L2 : forall i, base_attr outer inner (n + 1) i -> base_attr outer (a :: inner) n i).
  { intros i (ki & b & -> & H). exists (S ki), b. split; [lia|done]. }
  destruct (position_shared outer a Ha) as (p & -> & Hp). cbn [rbind].
  rewrite Nat2Z.inj_succ, seqZ_cons by lia.
  replace (Z.pred (Z.succ (Z.of_nat (length inner)))) with (Z.of_nat (length inner)) by lia.
  destruct (shared outer a) eqn:Es.
  - destruct Hp as (k & b & -> & Hk & Hn).
    rewrite (proj2 (Z.ltb_ge _ _)) by apply Nat2Z.is_nonneg.
    destruct (IH (n + 1) (jk ++ [Z.of_nat k + 1]) (ik ++ [n]) bk) as (j' & i' & b' & -> & HF & HB & HP).
    exists (Z.of_nat k + 1 :: j'), (n :: i'), b'. rewrite <- !app_assoc. split; [done|].
    repeat split.
    + constructor; [|by eapply Forall2_impl].
      exists k, 0%nat, b, a. repeat split; try done.
      unfold shared in Es. by destruct (aname a).
    + by eapply Forall_impl.
    + cbn. by constructor.
  - subst p. cbn [Z.ltb Z.compare].
    destruct (IH (n + 1) jk ik (bk ++ [n])) as (j' & i' & b' & -> & HF & HB & HP).
    exists j', i', (n :: b'). rewrite <- !app_assoc. split; [done|]. repeat split.
    + by eapply Forall2_impl.
    + constructor; [by exists 0%nat, a|by eapply Forall_impl].
    + rewrite <- Permutation_middle. by constructor.
Qed.

(** [joinKeys] splits the attributes of the inner relation: every position
    from 1 on appears once, in the index key or in the base key; position [k]
    of the join key and of the index key name attributes of the outer and of
    the inner relation with the same variable; the attributes of the base key
    share no variable with the outer relation. *)
Theorem joinKeys_correct (outer inner : list attr) : Forall (no_clash outer) inner ->
  exists jk ik bk, joinKeys (embed <$> outer) (embed <$> inner) = Ok (jk, ik, bk) /\
    Forall2 (join_pair outer inner 1) jk ik /\ Forall (base_attr outer inner 1) bk /\
    ik ++ bk ≡ₚ seqZ 1 (Z.of_nat (length inner)).
Proof. intros Hc. apply (joinKeys_from_spec outer inner 1 [] [] [] Hc). Qed.

Lemma select_attrs_embed (keep : value -> res bool) (f : attr -> bool) l :
  Forall (fun a => keep (embed a) = Ok (f a)) l ->
  select_attrs keep (embed <$> l) = Ok (embed <$> filter (fun a => f a = true) l).
Proof.
  induction 1 as [|a l Ha Hl IH]; [done|]. rewrite fmap_cons. cbn [select_attrs].
  rewrite Ha, IH. cbn [rbind]. rewrite filter_cons. by destruct (f a).
Qed.

Lemma not_value_embed a : not_value (embed a) = Ok (negb (is_val a)).
Proof. by destruct a as [| |[]|]. Qed.

(** The attributes [merge] keeps of the inner schema. *)
Definition merged (outer inner : list attr) : list attr :=
  filter (fun a => negb (is_val a) = true) outer ++
  filter (fun a => negb (shared outer a) && negb (is_val a) = true) inner.

Lemma names_filter (f : attr -> bool) l x :
  x ∈ names (filter (fun a => f a = true) l) <->
  exists a, a ∈ l /\ aname a = Some x /\ f a = true.
Proof.
  unfold names. rewrite list_elem_of_omap. split.
  - intros (a & [Hf Ha]%list_elem_of_filter & Hn). eauto.
  - intros (a & Ha & Hn & Hf). exists a. by rewrite list_elem_of_filter.
Qed.

Lemma named_not_val a x : aname a = Some x -> negb (is_val a) = true.
Proof. by destruct a. Qed.

(** [merge] answers the schema of a join: the attributes of the outer
    relation without constants, then those of the inner relation it does not
    have; the variables of the result are those of either schema, and no
    variable is repeated when neither schema repeats one. *)
Theorem merge_correct (outer inner : list attr) : Forall (no_clash outer) inner ->
  merge (embed <$> outer) (embed <$> inner) = Ok (embed <$> merged outer inner) /\
  (forall x, x ∈ names (merged outer inner) <-> x ∈ names outer \/ x ∈ names inner) /\
  (NoDup (names outer) -> NoDup (names inner) -> NoDup (names (merged outer inner))).
Proof.
  intros Hc. split; [|split].
  - unfold merge, merged. rewrite (select_attrs_embed _ (fun a => negb (is_val a))).
    2:{ apply Forall_forall. intros a _. apply not_value_embed. }
    rewrite (select_attrs_embed _ (fun a => negb (shared outer a) && negb (is_val a))).
    { cbn [rbind]. by rewrite fmap_app. }
    eapply Forall_impl; [exact Hc|]. intros a Ha. cbn.
    unfold not_in_outer. destruct (position_shared outer a Ha) as (p & -> & Hp). cbn [rbind].
    destruct (shared outer a).
    + destruct Hp as (k & b & -> & _). by rewrite (proj2 (Z.ltb_ge _ _)) by apply Nat2Z.is_nonneg.
    + subst p. apply not_value_embed.
  - intros x. unfold merged. unfold names at 1. rewrite omap_app, elem_of_app.
    fold (names (filter (fun a => negb (is_val a) = true) outer)).
    fold (names (filter (fun a => negb (shared outer a) && negb (is_val a) = true) inner)).
    rewrite (names_filter (fun a => negb (is_val a))),
      (names_filter (fun a => negb (shared outer a) && negb (is_val a))).
    split.
    + intros [(a & Ha & Hn & _)|(a & Ha & Hn & _)]; [left|right];
        apply list_elem_of_omap; eauto.
    + destruct (decide (x ∈ names outer)) as [Hx|Hx]; intros H.
      * left. apply list_elem_of_omap in Hx as (a & Ha & Hn). eauto using named_not_val.
      * right. destruct H as [|H]; [done|]. apply list_elem_of_omap in H as (a & Ha & Hn).
        exists a. split; [done|]. split; [done|]. rewrite (named_not_val a x Hn), andb_true_r.
        unfold shared. rewrite Hn. by rewrite bool_decide_false.
  - intros N1 N2. unfold merged, names. rewrite omap_app. apply NoDup_app. repeat split.
    + by apply NoDup_omap_filter.
    + intros x Hx Hy. apply (names_filter (fun a => negb (is_val a))) in Hx as (a & Ha & Hn & _).
      apply (names_filter (fun a => negb (shared outer a) && negb (is_val a)))
        in Hy as (b & Hb & Hm & Hf).
      apply andb_true_iff in Hf as [Hf _]. unfold shared in Hf. rewrite Hm in Hf.
      rewrite bool_decide_true in Hf; [done|]. apply list_elem_of_omap. eauto.
    + by apply NoDup_omap_filter.
Qed.
End schemas.

(** ** The theorems at work *)

Section examples.
#[local] Existing Instance bare_platform.

(** [p(@X, Y, Z)] joined with [q(@Y, X, W)]. *)
Definition p_attrs : list attr := [ALoc "X"; AVar "Y"; AVar "Z"].
Definition q_attrs : list attr := [ALoc "Y"; AVar "X"; AVar "W"].

Lemma position_correct_witness :
  exists p, position (embed VNull <$> p_attrs) (embed VNull (AVar "Y")) = Ok p /\
  ((p = -1 /\ "Y" ∉ names p_attrs) \/
   (exists k b, p = Z.of_nat k /\ p_attrs !! k = Some b /\ aname b = Some "Y" /\
      "Y" ∉ names (take k p_attrs))).
Proof. exact (position_correct VNull p_attrs (AVar "Y") "Y" eq_refl). Defined.

Lemma joinKeys_correct_witness :
  exists jk ik bk, joinKeys (embed VNull <$> p_attrs) (embed VNull <$> q_attrs) = Ok (jk, ik, bk) /\
    ik ++ bk ≡ₚ [1; 2; 3].
Proof.
  destruct (joinKeys_correct VNull p_attrs q_attrs) as (jk & ik & bk & H1 & _ & _ & H2).
  - repeat constructor.
  - exists jk, ik, bk. split; [exact H1|exact H2].
Defined.

Lemma merge_correct_witness :
  merge (embed VNull <$> p_attrs) (embed VNull <$> q_attrs) =
    Ok (embed VNull <$> [ALoc "X"; AVar "Y"; AVar "Z"; AVar "W"]).
Proof.
  destruct (merge_correct VNull p_attrs q_attrs) as [H _]; [repeat constructor|exact H].
Defined.
End examples.
