(* ===== verification/Exprs.v ===== *)
(** * Expressions of the parser (src/lang/parse/parseContext.h, parseContext.C)

    The classes derived from [compile::parse::Expression], one constructor
    each, with the members the classes keep; their text, the tuples they are
    turned into for the compiler's catalog, constant folding and copies.  The
    [Range] of a copy has an indeterminate [_type]; a missing operand is a null
    pointer, which [Math::tuple] and the copy constructors follow. *)

From Stdlib Require Import SpecFloat Ascii String.
From S2P Require Import Prelude Ids Stl Values Tuples Aggs Xdr Casts Oper Names.

Local Open Scope p2_scope.

(** [Bool::Operator], [Math::Operator], [Range::Operator] *)
Module BoolOp.
Inductive Operator := NOT | AND | OR | EQ | NEQ | GT | LT | LTE | GTE | RANGEI | NOP.
End BoolOp.
Module MathOp.
Inductive Operator :=
  | LSHIFT | RSHIFT | PLUS | MINUS | TIMES | DIVIDE | MODULUS
  | BITOR | BITAND | BITXOR | BITNOT | APPEND | NOP.
End MathOp.
Module RangeOp.
Inductive Operator := RANGEOO | RANGEOC | RANGECO | RANGECC.
End RangeOp.

Inductive Expression :=
  | EValue (v : value)
  | EVariable (v : value) (location newLocSpec : bool)
  | EAggregation (operName : string) (variable : option (value * bool * bool))
  | EBool (operName : string) (lhs : Expression) (rhs : option Expression)
  | ERange (operName : string) (type : option RangeOp.Operator) (lhs rhs : Expression)
  | EMath (operName : string) (lhs : Expression) (rhs : option Expression)
  | EVector (v : value)
  | EMatrix (v : value)
  | EFunction (name : string) (args : list Expression)
  | ESets (args : list Expression).

(** ** Constructors *)

Definition bool_name (o : BoolOp.Operator) : res string :=
  match o with
  | BoolOp.NOT => Ok "not" | BoolOp.RANGEI => Ok "in" | BoolOp.AND => Ok "and" | BoolOp.OR => Ok "or" | BoolOp.EQ => Ok "=="
  | BoolOp.NEQ => Ok "== not" | BoolOp.GT => Ok ">" | BoolOp.LT => Ok "<" | BoolOp.LTE => Ok "<=" | BoolOp.GTE => Ok ">="
  | BoolOp.NOP => Fail AssertFailed
  end.
Definition math_name (o : MathOp.Operator) : res string :=
  match o with
  | MathOp.LSHIFT => Ok "<<" | MathOp.RSHIFT => Ok ">>" | MathOp.PLUS => Ok "+" | MathOp.MINUS => Ok "-" | MathOp.TIMES => Ok "*"
  | MathOp.DIVIDE => Ok "/" | MathOp.MODULUS => Ok "%" | MathOp.BITAND => Ok "&" | MathOp.BITOR => Ok "|" | MathOp.BITXOR => Ok "^"
  | MathOp.BITNOT => Ok "~" | MathOp.APPEND => Ok "|||" | MathOp.NOP => Fail AssertFailed
  end.
Definition range_name (o : RangeOp.Operator) : string :=
  match o with RangeOp.RANGEOO => "()" | RangeOp.RANGEOC => "(]" | RangeOp.RANGECO => "[)" | RangeOp.RANGECC => "[]" end.

Definition mkBool (o : BoolOp.Operator) (l : Expression) (r : option Expression) : res Expression :=
  let? n := bool_name o in Ok (EBool n l r).
Definition mkMath (o : MathOp.Operator) (l : Expression) (r : option Expression) : res Expression :=
  let? n := math_name o in Ok (EMath n l r).
Definition mkRange (o : RangeOp.Operator) (l r : Expression) : Expression :=
  ERange (range_name o) (Some o) l r.
Definition mkAggregation (aggName : string) (v : Expression) : Expression :=
  EAggregation aggName
    match v with EVariable x l n => Some (x, l, n) | _ => None end.

(** The elements of a vector or matrix must be values: another expression is
    a null pointer after the [dynamic_cast]. *)
Fixpoint literal_values (es : list Expression) : res (list value) :=
  match es with
  | [] => Ok []
  | EValue v :: es' => let? rest := literal_values es' in Ok (v :: rest)
  | _ => Fail UndefinedBehaviour
  end.
Definition mkVector (es : list Expression) : res Expression :=
  let? vs := literal_values es in Ok (EVector (VVector vs)).

Fixpoint literal_rows (rows : list (list Expression)) : res (list value) :=
  match rows with
  | [] => Ok []
  | r :: rows' =>
      let? vs := literal_values r in
      let? rest := literal_rows rows' in
      Ok (vs ++ rest)
  end.
Definition mkMatrix (m : list (list Expression)) : res Expression :=
  match m with
  | [] => Fail OutOfRange
  | row :: _ =>
      let columnArity := length row in
      if forallb (fun r => (length r =? columnArity)%nat) m then
        let? vs := literal_rows m in
        Ok (EMatrix (VMatrix (length m) columnArity vs))
      else Fail CompileException
  end.

Section parse.
Context `{P : Platform} (nodeid : value).

(** ** [toString] *)

Definition variable_string (v : value) (location newLocSpec : bool) : string :=
  (if location then "@" else "") +:+ (if newLocSpec then "&" else "") +:+ toString v.

Fixpoint toString_args (f : Expression -> res string) (es : list Expression) : res string :=
  match es with
  | [] => Ok ""
  | e :: es' =>
      let? s := f e in
      let? rest := toString_args f es' in
      Ok (s +:+ match es' with [] => "" | _ => ", " end +:+ rest)
  end.

Fixpoint Expression_toString (e : Expression) : res string :=
  match e with
  | EValue v | EVector v | EMatrix v => Ok (toString v)
  | EVariable v l n => Ok (variable_string v l n)
  | EAggregation o var =>
      Ok (o +:+ "< " +:+
          match var with Some (v, l, n) => variable_string v l n | None => "*" end +:+ " >")
  | EBool o l r =>
      let? sl := Expression_toString l in
      match r with
      | Some r =>
          let? sr := Expression_toString r in
          Ok ("( " +:+ sl +:+ " )" +:+ " " +:+ o +:+ " " +:+ "( " +:+ sr +:+ " )")
      | None => Ok (" " +:+ o +:+ "( " +:+ sl +:+ " )")
      end
  | ERange _ type l r =>
      match type with
      | None => Fail UndefinedBehaviour
      | Some t =>
          let? sl := Expression_toString l in
          let? sr := Expression_toString r in
          Ok (match t with RangeOp.RANGEOO | RangeOp.RANGEOC => "(" | _ => "[" end +:+ sl +:+ ", " +:+ sr +:+
              match t with RangeOp.RANGEOO | RangeOp.RANGECO => ")" | _ => "]" end)
      end
  | EMath o l r =>
      let? sl := Expression_toString l in
      match r with
      | Some r => let? sr := Expression_toString r in Ok (sl +:+ " " +:+ o +:+ " " +:+ sr)
      | None => Fail UndefinedBehaviour
      end
  | EFunction name args =>
      let? s := toString_args Expression_toString args in Ok (name +:+ "( " +:+ s +:+ ")")
  | ESets args =>
      let? s := toString_args Expression_toString args in Ok ("{ " +:+ s +:+ "}")
  end.

(** ** [tuple] *)

Definition SETS : string := "Set".

Definition variable_tuple (v : value) (location newLocSpec : bool) : value :=
  VTuple (mk_named nodeid (if location then LOC else if newLocSpec then NEWLOCSPEC else VAR) ++ [v]).

Fixpoint tuple_args (f : Expression -> res value) (es : list Expression) : res (list value) :=
  match es with
  | [] => Ok []
  | e :: es' => let? t := f e in let? rest := tuple_args f es' in Ok (t :: rest)
  end.

Fixpoint Expression_tuple (e : Expression) : res value :=
  match e with
  | EValue v => Ok (VTuple (mk_named nodeid VAL ++ [v]))
  | EVariable v l n => Ok (variable_tuple v l n)
  | EAggregation o var =>
      Ok (VTuple (mk_named nodeid AGG ++
        [match var with Some (v, l, n) => variable_tuple v l n | None => VNull end; VStr o]))
  | EBool o l r =>
      let? tl := Expression_tuple l in
      let? tr := match r with Some r => Expression_tuple r | None => Ok VNull end in
      Ok (VTuple (mk_named nodeid BOOL ++ [VStr o; tl; tr]))
  | ERange o _ l r =>
      let? tl := Expression_tuple l in
      let? tr := Expression_tuple r in
      Ok (VTuple (mk_named nodeid RANGE ++ [VStr o; tl; tr]))
  | EMath o l r =>
      let? tl := Expression_tuple l in
      let? tr := match r with Some r => Expression_tuple r | None => Fail UndefinedBehaviour end in
      Ok (VTuple (mk_named nodeid MATH ++ [VStr o; tl; tr]))
  | EVector v => Ok (VTuple (mk_named nodeid VEC ++ [v]))
  | EMatrix v => Ok (VTuple (mk_named nodeid MAT ++ [v]))
  | EFunction name args =>
      let? ts := tuple_args Expression_tuple args in
      Ok (VTuple (mk_named nodeid FUNCTION ++ VStr name :: VInt64 (Z.of_nat (length args)) :: ts))
  | ESets args =>
      let? ts := tuple_args Expression_tuple args in
      Ok (VTuple (mk_named nodeid SETS ++ VStr SETS :: VInt64 (Z.of_nat (length args)) :: ts))
  end.

(** ** [value]: [None] is the null pointer *)

Definition fold_math (o : string) (l r : value) : res (option value) :=
  let some (x : res value) := let? v := x in Ok (Some v) in
  if String.eqb o "<<" then some (op_lshift l r)
  else if String.eqb o ">>" then some (op_lshift l r)
  else if String.eqb o "+" then some (op_plus l r)
  else if String.eqb o "-" then some (op_minus l r)
  else if String.eqb o "*" then some (op_times l r)
  else if String.eqb o "/" then some (op_divide l r)
  else if String.eqb o "%" then some (op_mod l r)
  else Ok None.

(** [Math::value] of an operand: a [Math] or a [Value]. *)
Fixpoint operand_value (e : Expression) : res (option value) :=
  match e with
  | EValue v => Ok (Some v)
  | EMath o l r =>
      let? x := operand_value l in
      match l with
      | EValue _ | EMath _ _ _ =>
          let? y := match r with Some r => operand_value r | None => Ok None end in
          match x, y with Some x, Some y => fold_math o x y | _, _ => Ok None end
      | _ => Ok None
      end
  | _ => Ok None
  end.

(** The virtual [value]. *)
Definition Expression_value (e : Expression) : res (option value) :=
  match e with
  | EValue _ | EMath _ _ _ => operand_value e
  | _ => Fail CompileException
  end.

(** ** [isEqual] and [copy] *)

Definition isEqual (self e : Expression) : bool :=
  match self, e with
  | EValue a, EValue b => compareTo a b =? 0
  | EVariable a _ _, EVariable b _ _ => compareTo a b =? 0
  | _, _ => false
  end.

Fixpoint copy_args (f : Expression -> res Expression) (es : list Expression) : res (list Expression) :=
  match es with
  | [] => Ok []
  | e :: es' => let? c := f e in let? rest := copy_args f es' in Ok (c :: rest)
  end.

Fixpoint copy (e : Expression) : res Expression :=
  match e with
  | EValue _ | EVariable _ _ _ | EVector _ | EMatrix _ => Ok e
  | EAggregation o (Some v) => Ok (EAggregation o (Some v))
  | EAggregation _ None => Fail UndefinedBehaviour
  | EBool o l r =>
      let? cl := copy l in
      match r with
      | Some r => let? cr := copy r in Ok (EBool o cl (Some cr))
      | None => Fail UndefinedBehaviour
      end
  | ERange o _ l r => let? cl := copy l in let? cr := copy r in Ok (ERange o None cl cr)
  | EMath o l r =>
      let? cl := copy l in
      match r with
      | Some r => let? cr := copy r in Ok (EMath o cl (Some cr))
      | None => Fail UndefinedBehaviour
      end
  | EFunction name args => let? cs := copy_args copy args in Ok (EFunction name cs)
  | ESets args => let? cs := copy_args copy args in Ok (ESets cs)
  end.
End parse.

(** Induction over the operands of an expression. *)
Lemma Expression_induction (Q : Expression -> Prop) :
  (forall v, Q (EValue v)) -> (forall v l n, Q (EVariable v l n)) ->
  (forall o v, Q (EAggregation o v)) ->
  (forall o l, Q l -> Q (EBool o l None)) ->
  (forall o l r, Q l -> Q r -> Q (EBool o l (Some r))) ->
  (forall o t l r, Q l -> Q r -> Q (ERange o t l r)) ->
  (forall o l, Q l -> Q (EMath o l None)) ->
  (forall o l r, Q l -> Q r -> Q (EMath o l (Some r))) ->
  (forall v, Q (EVector v)) -> (forall v, Q (EMatrix v)) ->
  (forall n args, Forall Q args -> Q (EFunction n args)) ->
  (forall args, Forall Q args -> Q (ESets args)) ->
  forall e, Q e.
Proof.
  intros H1 H2 H3 H4 H5 H6 H7 H8 H9 H10 H11 H12. fix IH 1.
  intros [v|v l n|o v|o l [r|]|o t l r|o l [r|]|v|v|n args|args].
  - apply H1.
  - apply H2.
  - apply H3.
  - apply H5; apply IH.
  - apply H4, IH.
  - apply H6; apply IH.
  - apply H8; apply IH.
  - apply H7, IH.
  - apply H9.
  - apply H10.
  - apply H11. induction args as [|e args IHargs]; constructor; [apply IH|exact IHargs].
  - apply H12. induction args as [|e args IHargs]; constructor; [apply IH|exact IHargs].
Qed.
