(* ===== verification/Pel.v ===== *)
(** * The PEL virtual machine (src/p2core/pel/pel_vm.C, pel_vm.h, pel_program.h, pel_gen.py)

    PEL is the stack language Overlog expressions are compiled to.  A program
    is a list of instruction words and a pool of constants; [execute] runs it
    on a tuple, with one definition per opcode ([DEF_OP]), an arity check
    before each, and the exceptions of casts and operators turned into error
    codes.

    Objects.  A value on the stack is a pointer in the source.  Six operations
    ([T_APPEND], [L_APPEND], [COMBINEMASK], [L_REMOVELAST], [V_SETOFFSET],
    [M_SETOFFSET]) change the object they find there.  A stack slot therefore
    records who can reach its object: [Fresh] when an operation of this run
    made it and nothing else points to it, [Frozen] for a tuple that was
    frozen, [Shared] otherwise.  Changing a fresh object is an update of the
    slot; appending to a frozen tuple fails the assertion of [Tuple::append];
    a change of a shared object would be seen through other pointers, and the
    model stops with [Unmodelled].

    Outside the repository.  The random numbers, the clock, regular
    expressions, SHA-1, [exp] and [log] are parameters ([Externals]); so are
    the operations of the security utilities (secureUtil.C), which are not
    modelled. *)

From Stdlib Require Import SpecFloat Ascii String.
From S2P Require Import Prelude Ids Stl Values Tuples Aggs Xdr Casts Oper Names.

Local Open Scope p2_scope.

(** ** Opcodes (pel_gen.py) *)

Inductive opcode :=
  | DROP | SWAP | DUP | PUSH_CONST | PUSH_FIELD | POP | POP_ALL | PEEK | IFELSE | IFPOP
  | IFPOP_TUPLE | IFSTOP | DUMPSTACK | FUNC0 | H_SHA1 | MAX | MIN | T_IDGEN | T_MKTUPLE
  | T_APPEND | T_UNBOX | T_UNBOXPOP | T_FIELD | T_SWALLOW | TYPEOF | TOTALCOMP | L_FACT
  | L_CREATEKEY | L_APPEND | L_CONCAT | L_MEMBER | L_SUBSET | L_INTERSECT
  | L_MULTISET_INTERSECT | V_INITVEC | V_GETOFFSET | V_SETOFFSET | V_COMPAREVEC
  | M_INITMAT | M_GETOFFSET | M_SETOFFSET | M_COMPAREMAT | NOT | AND | OR | RAND | COIN
  | L_INIT | L_CONS | L_CAR | L_CDR | L_CONTAINS | L_REMOVELAST | L_LAST | L_SIZE | ASR
  | ASL | BIT_AND | BIT_OR | BIT_XOR | BIT_NOT | MOD | APPEND | TIME_LT | TIME_LTE
  | TIME_GT | TIME_GTE | TIME_EQ | TIME_MINUS | TIME_NOW | TIME_DURATION_LT
  | TIME_DURATION_LTE | TIME_DURATION_GT | TIME_DURATION_GTE | TIME_DURATION_EQ
  | TIME_DURATION_PLUS | TIME_DURATION_MINUS | MINUSMINUS | PLUSPLUS | INOO | INOC
  | INCO | INCC | STR_CAT | STR_LEN | STR_UPPER | STR_LOWER | STR_SUBSTR | STR_MATCH
  | STR_CONV | STR_REPLACE | STR_FIND | O_STATUS | O_SELECT | O_RANGEAM | O_FILTER
  | A_TO_VAR | A_UNIQUE_SCHEMA | ISTHETA | L_GET_ATTR | T_MK_TYPE | T_MK_BOOL
  | T_MK_MATH | T_MK_AGG | L_POS_ATTR | L_AGG_ATTR | L_GROUPBY_ATTR | L_FLATTEN
  | L_INDEXMATCH | L_CASTASSIGN | L_VARIABLES | L_MERGE | L_REMOVEVAR | L_REMOVEPOS
  | L_EQUIVALENT | L_GROUP | L_PREFIX | L_SORTATTR | L_PROJECT | L_ADORNMENT
  | L_ASSIGNSCHEMA | VERIFY | GEN | SETMOD | EMPTY | INITSET | SERIALIZE | DESERIALIZE
  | CREATEVER | CREATELOCSPEC | IS_LOCSPEC | GET_CERT | IS_SAYS | LOADKEYFILE
  | INITMASK | COMBINEMASK | GETMASK | MASK | NEG | PLUS | MINUS | MUL | DIV | EQ | LT
  | LTE | GT | GTE | INT_ABS | DBL_FLOOR | DBL_CEIL | EXP | LN | DRAND48 | CONV_I64
  | CONV_DBL | CONV_STR | CONV_TIME | CONV_TIME_DURATION | CONV_ID.

(** The generated jump table: mnemonic, arity, operation, in opcode order. *)
Definition jump_table : list (string * nat * opcode) := [
  ("drop", 1%nat, DROP); ("swap", 2%nat, SWAP); ("dup", 1%nat, DUP);
  ("", 0%nat, PUSH_CONST); ("", 0%nat, PUSH_FIELD); ("pop", 1%nat, POP);
  ("popall", 1%nat, POP_ALL); ("peek", 1%nat, PEEK); ("ifelse", 3%nat, IFELSE);
  ("ifpop", 2%nat, IFPOP); ("ifpoptuple", 1%nat, IFPOP_TUPLE);
  ("ifstop", 1%nat, IFSTOP); ("dumpStack", 1%nat, DUMPSTACK); ("func0", 1%nat, FUNC0);
  ("sha1", 1%nat, H_SHA1); ("max", 2%nat, MAX); ("min", 2%nat, MIN);
  ("idgen", 0%nat, T_IDGEN); ("->t", 1%nat, T_MKTUPLE); ("append", 2%nat, T_APPEND);
  ("unbox", 1%nat, T_UNBOX); ("unboxPop", 1%nat, T_UNBOXPOP);
  ("field", 2%nat, T_FIELD); ("swallow", 0%nat, T_SWALLOW); ("typeOf", 1%nat, TYPEOF);
  ("totalComp", 2%nat, TOTALCOMP); ("fact", 2%nat, L_FACT);
  ("createkey", 1%nat, L_CREATEKEY); ("lappend", 2%nat, L_APPEND);
  ("concat", 2%nat, L_CONCAT); ("member", 2%nat, L_MEMBER);
  ("subset", 2%nat, L_SUBSET); ("intersect", 2%nat, L_INTERSECT);
  ("msintersect", 2%nat, L_MULTISET_INTERSECT); ("initvec", 1%nat, V_INITVEC);
  ("getvectoroffset", 2%nat, V_GETOFFSET); ("setvectoroffset", 3%nat, V_SETOFFSET);
  ("vectorcompare", 2%nat, V_COMPAREVEC); ("initmat", 2%nat, M_INITMAT);
  ("getmatrixoffset", 3%nat, M_GETOFFSET); ("setmatrixoffset", 4%nat, M_SETOFFSET);
  ("matrixcompare", 3%nat, M_COMPAREMAT); ("not", 1%nat, NOT); ("and", 2%nat, AND);
  ("or", 2%nat, OR); ("rand", 0%nat, RAND); ("coin", 1%nat, COIN);
  ("initlist", 0%nat, L_INIT); ("cons", 2%nat, L_CONS); ("car", 1%nat, L_CAR);
  ("cdr", 1%nat, L_CDR); ("contains", 2%nat, L_CONTAINS);
  ("removeLast", 1%nat, L_REMOVELAST); ("last", 1%nat, L_LAST);
  ("size", 1%nat, L_SIZE); (">>", 2%nat, ASR); ("<<", 2%nat, ASL);
  ("&", 2%nat, BIT_AND); ("|", 2%nat, BIT_OR); ("^", 2%nat, BIT_XOR);
  ("~", 1%nat, BIT_NOT); ("%", 2%nat, MOD); ("|||", 2%nat, APPEND);
  ("<time", 2%nat, TIME_LT); ("<=time", 2%nat, TIME_LTE); (">time", 2%nat, TIME_GT);
  (">=time", 2%nat, TIME_GTE); ("==time", 2%nat, TIME_EQ);
  ("-time", 2%nat, TIME_MINUS); ("now", 0%nat, TIME_NOW);
  ("<time_duration", 2%nat, TIME_DURATION_LT);
  ("<=time_duration", 2%nat, TIME_DURATION_LTE);
  (">time_duration", 2%nat, TIME_DURATION_GT);
  (">=time_duration", 2%nat, TIME_DURATION_GTE);
  ("==time_duration", 2%nat, TIME_DURATION_EQ);
  ("+time_duration", 2%nat, TIME_DURATION_PLUS);
  ("-time_duration", 2%nat, TIME_DURATION_MINUS); ("--", 1%nat, MINUSMINUS);
  ("++", 1%nat, PLUSPLUS); ("()", 3%nat, INOO); ("(]", 3%nat, INOC);
  ("[)", 3%nat, INCO); ("[]", 3%nat, INCC); ("strcat", 2%nat, STR_CAT);
  ("strlen", 1%nat, STR_LEN); ("upper", 1%nat, STR_UPPER); ("lower", 1%nat, STR_LOWER);
  ("substr", 3%nat, STR_SUBSTR); ("match", 2%nat, STR_MATCH);
  ("tostr", 1%nat, STR_CONV); ("strreplace", 3%nat, STR_REPLACE);
  ("strfind", 2%nat, STR_FIND); ("status", 2%nat, O_STATUS);
  ("selectivity", 2%nat, O_SELECT); ("rangeAM", 2%nat, O_RANGEAM);
  ("filter", 2%nat, O_FILTER); ("tovar", 1%nat, A_TO_VAR);
  ("uniqueSchema", 1%nat, A_UNIQUE_SCHEMA); ("istheta", 1%nat, ISTHETA);
  ("getattr", 2%nat, L_GET_ATTR); ("mktype", 2%nat, T_MK_TYPE);
  ("mkbool", 3%nat, T_MK_BOOL); ("mkmath", 3%nat, T_MK_MATH);
  ("mkagg", 2%nat, T_MK_AGG); ("posattr", 2%nat, L_POS_ATTR);
  ("aggattr", 1%nat, L_AGG_ATTR); ("groupbyattr", 1%nat, L_GROUPBY_ATTR);
  ("flatten", 1%nat, L_FLATTEN); ("indexMatch", 3%nat, L_INDEXMATCH);
  ("castassign", 3%nat, L_CASTASSIGN); ("variables", 1%nat, L_VARIABLES);
  ("merge", 2%nat, L_MERGE); ("removevar", 2%nat, L_REMOVEVAR);
  ("removepos", 2%nat, L_REMOVEPOS); ("equivalent", 2%nat, L_EQUIVALENT);
  ("group", 1%nat, L_GROUP); ("prefix", 2%nat, L_PREFIX);
  ("sortattr", 4%nat, L_SORTATTR); ("project", 2%nat, L_PROJECT);
  ("adornment", 2%nat, L_ADORNMENT); ("assignschema", 2%nat, L_ASSIGNSCHEMA);
  ("verify", 6%nat, VERIFY); ("gen", 3%nat, GEN); ("mod", 1%nat, SETMOD);
  ("empty", 0%nat, EMPTY); ("initSet", 1%nat, INITSET);
  ("serialize", 2%nat, SERIALIZE); ("deserialize", 2%nat, DESERIALIZE);
  ("createVersion", 0%nat, CREATEVER); ("createLocSpec", 0%nat, CREATELOCSPEC);
  ("isLocSpec", 1%nat, IS_LOCSPEC); ("getCert", 1%nat, GET_CERT);
  ("isSays", 1%nat, IS_SAYS); ("loadKeyFile", 1%nat, LOADKEYFILE);
  ("initMask", 1%nat, INITMASK); ("combineMask", 2%nat, COMBINEMASK);
  ("getMask", 1%nat, GETMASK); ("mask", 3%nat, MASK); ("neg", 1%nat, NEG);
  ("+", 2%nat, PLUS); ("-", 2%nat, MINUS); ("*", 2%nat, MUL); ("/", 2%nat, DIV);
  ("==", 2%nat, EQ); ("<", 2%nat, LT); ("<=", 2%nat, LTE); (">", 2%nat, GT);
  (">=", 2%nat, GTE); ("abs", 1%nat, INT_ABS); ("floor", 1%nat, DBL_FLOOR);
  ("ceil", 1%nat, DBL_CEIL); ("exp", 1%nat, EXP); ("ln", 1%nat, LN);
  ("drand48", 0%nat, DRAND48); ("->i64", 1%nat, CONV_I64); ("->dbl", 1%nat, CONV_DBL);
  ("->str", 1%nat, CONV_STR); ("->time", 1%nat, CONV_TIME);
  ("->time_duration", 1%nat, CONV_TIME_DURATION); ("->id", 1%nat, CONV_ID)].

Definition NUM_OPCODES : Z := Z.of_nat (length jump_table).

(** [Pel_VM::Error] *)
Inductive Error :=
  | PE_SUCCESS | PE_BAD_CONSTANT | PE_BAD_FIELD | PE_OPER_UNSUP | PE_STACK_UNDERFLOW
  | PE_TYPE_CONVERSION | PE_BAD_OPCODE | PE_DIVIDE_BY_ZERO | PE_BAD_STRING_OP
  | PE_INVALID_ERRNO | PE_STOP | PE_BAD_LIST_FIELD | PE_LIST_UNDERFLOW | PE_UNKNOWN.

#[export] Instance Error_eq_dec : EqDecision Error.
Proof. solve_decision. Defined.

Record Pel_Program := mkProgram {
  ops : list Z;
  const_pool : list value
}.

(** ** The machine *)

(** The functions and state outside the repository.  [World] is the state of
    the random generators, of the clock and of what the security utilities
    use.  [ext_sha1] answers the digest as five 32-bit words. *)
Class Externals := {
  World : Type;
  ext_random : World -> Z * World;
  ext_drand48 : World -> spec_float * World;
  ext_getTime : World -> Z * World;
  ext_regex_match : string -> string -> res bool;
  ext_sha1 : list Z -> list Z;
  ext_exp : spec_float -> spec_float;
  ext_log : spec_float -> spec_float;
  ext_secure : opcode -> list value -> World -> res value * World
}.

(** Externals with a clock that stands still, to evaluate examples on. *)
Definition still_externals : Externals := {|
  World := unit;
  ext_random := fun w => (0, w);
  ext_drand48 := fun w => (S754_zero false, w);
  ext_getTime := fun w => (0, w);
  ext_regex_match := fun re s => Ok (String.eqb re s);
  ext_sha1 := fun _ => [0; 0; 0; 0; 0];
  ext_exp := fun d => d;
  ext_log := fun d => d;
  ext_secure := fun _ _ w => (Fail Unmodelled, w)
|}.

Inductive own := Fresh | Frozen | Shared.

Definition slot : Type := value * own.

Section machine.
Context `{P : Platform} `{X : Externals} (nodeid : value).

(** [_st] (the top first), [error], [result]; and the static counters of
    [toVar] and of [TableManager::uniqueIdentifier]. *)
Record vm := mkVM {
  st : list slot;
  error : Error;
  result : option (list value);
  fictVar : Z;
  identifier : Z;
  world : World
}.

Definition set_st (s : list slot) (m : vm) : vm :=
  mkVM s (error m) (result m) (fictVar m) (identifier m) (world m).
Definition set_error (e : Error) (m : vm) : vm :=
  mkVM (st m) e (result m) (fictVar m) (identifier m) (world m).
Definition set_result (r : option (list value)) (m : vm) : vm :=
  mkVM (st m) (error m) r (fictVar m) (identifier m) (world m).
Definition set_fictVar (n : Z) (m : vm) : vm :=
  mkVM (st m) (error m) (result m) n (identifier m) (world m).
Definition set_identifier (n : Z) (m : vm) : vm :=
  mkVM (st m) (error m) (result m) (fictVar m) n (world m).
Definition set_world (w : World) (m : vm) : vm :=
  mkVM (st m) (error m) (result m) (fictVar m) (identifier m) w.

(** Operations change the machine also when they throw. *)
Definition M (A : Type) : Type := vm -> res A * vm.

Definition ret {A} (a : A) : M A := fun m => (Ok a, m).
Definition throw {A} (f : failure) : M A := fun m => (Fail f, m).
Definition bind {A B} (c : M A) (k : A -> M B) : M B :=
  fun m => match c m with (Ok a, m') => k a m' | (Fail f, m') => (Fail f, m') end.
Definition lift {A} (r : res A) : M A := fun m => (r, m).

Notation "'let!' x ':=' c 'in' k" := (bind c (fun x => k))
  (at level 10, x pattern, c at level 100, k at level 200).

(** *** The stack *)

Definition stackPush (v : value) (o : own) : M unit :=
  fun m => (Ok tt, set_st ((v, o) :: st m) m).

(** [stackTop(); stackPop()]; undefined on an empty stack. *)
Definition pop_slot : M slot :=
  fun m => match st m with
           | s :: rest => (Ok s, set_st rest m)
           | [] => (Fail UndefinedBehaviour, m)
           end.
Definition pop : M value := let! s := pop_slot in ret (fst s).

(** A change of the slot on top ([stackTop()]). *)
Definition modify_top (f : slot -> res slot) : M unit :=
  fun m => match st m with
           | s :: rest => match f s with
                          | Ok s' => (Ok tt, set_st (s' :: rest) m)
                          | Fail e => (Fail e, m)
                          end
           | [] => (Fail UndefinedBehaviour, m)
           end.
Definition push_slot (s : slot) : M unit := stackPush (fst s) (snd s).

(** New scalars cannot be changed, so who holds them does not matter. *)
Definition push_new (v : value) : M unit := stackPush v Fresh.
Definition push_int (z : Z) : M unit := push_new (VInt64 z).
Definition push_bool (b : bool) : M unit := push_int (if b then 1 else 0).

Definition pop_signed : M Z := let! v := pop in lift (Val_Int64_cast v).
Definition pop_string : M string := let! v := pop in ret (Val_Str_cast v).
Definition pop_time : M Z := let! v := pop in lift (Val_Time_cast v).
Definition pop_time_duration : M Z := let! v := pop in lift (Val_Time_Duration_cast v).
Definition pop_double : M spec_float := let! v := pop in lift (Val_Double_cast v).
Definition pop_list : M (list value) := let! v := pop in lift (Val_List_cast v).

Definition fail (e : Error) : M unit := fun m => (Ok tt, set_error e m).

(** [result->append(v)], the result tuple made on first use. *)
Definition result_append (v : value) : M unit :=
  fun m => (Ok tt, set_result (Some (default [] (result m) ++ [v])) m).
Definition result_open : M unit :=
  fun m => (Ok tt, set_result (Some (default [] (result m))) m).
Fixpoint result_append_all (vs : list value) : M unit :=
  match vs with
  | [] => ret tt
  | v :: vs' => let! _ := result_append v in result_append_all vs'
  end.

(** The static counters. *)
Definition with_fict {A} (f : Z -> res (A * Z)) : M A :=
  fun m => match f (fictVar m) with
           | Ok (a, n) => (Ok a, set_fictVar n m)
           | Fail e => (Fail e, m)
           end.
Definition uniqueIdentifier : M Z :=
  fun m => (Ok (identifier m), set_identifier (u32 (identifier m + 1)) m).

Definition with_world {A} (f : World -> A * World) : M A :=
  fun m => let '(a, w) := f (world m) in (Ok a, set_world w m).
Definition secure_call (op : opcode) (args : list value) : M unit :=
  fun m => let '(r, w) := ext_secure op args (world m) in
           match r with
           | Ok v => stackPush v Shared (set_world w m)
           | Fail f => (Fail f, set_world w m)
           end.

(** ** Stack operations *)

(** Two pointers to the same object: neither may change it unseen. *)
Definition share (o : own) : own := match o with Fresh => Shared | _ => o end.

Definition op_DROP : M unit := let! _ := pop_slot in ret tt.

Definition op_SWAP : M unit :=
  let! t1 := pop_slot in
  let! t2 := pop_slot in
  let! _ := push_slot t1 in
  push_slot t2.

Definition op_DUP : M unit :=
  let! (v, o) := pop_slot in
  let! _ := stackPush v (share o) in
  stackPush v (share o).

(** The bound tests let the index equal to the size through; [Tuple::operator[]]
    then throws, for the pool of constants (a tuple) as for the operand. *)
Definition op_PUSH_CONST (prg : Pel_Program) (inst : Z) : M unit :=
  let ndx := Z.shiftr inst 16 in
  if Z.of_nat (length (const_pool prg)) <? ndx then fail PE_BAD_CONSTANT
  else let! v := lift (field (const_pool prg) (Z.to_nat ndx)) in stackPush v Shared.

Definition op_PUSH_FIELD (operand : list value) (inst : Z) : M unit :=
  let ndx := Z.shiftr inst 16 in
  if Z.of_nat (length operand) <? ndx then fail PE_BAD_FIELD
  else let! v := lift (field operand (Z.to_nat ndx)) in stackPush v Shared.

Definition op_POP : M unit :=
  let! _ := result_open in
  let! top := pop in
  result_append top.

Definition op_POP_ALL : M unit :=
  let! _ := result_open in
  fun m => result_append_all (map fst (st m)) (set_st [] m).

(** [stackPosition >= _st.size()] compares as unsigned (64-bit [size_t]), so a
    negative position is out of range too. *)
Definition op_PEEK : M unit :=
  let! stackPosition := pop_signed in
  fun m =>
    if Z.of_nat (length (st m)) <=? u64 stackPosition then fail PE_STACK_UNDERFLOW m
    else
      let i := Z.to_nat (u32 stackPosition) in
      match st m !! i with
      | Some (v, o) => stackPush v (share o) (set_st (<[i := (v, share o)]> (st m)) m)
      | None => (Fail UndefinedBehaviour, m)
      end.

Definition op_IFELSE : M unit :=
  let! elseVal := pop_slot in
  let! thenVal := pop_slot in
  let! ifVal := pop_signed in
  push_slot (if negb (ifVal =? 0) then thenVal else elseVal).

Definition op_IFPOP : M unit :=
  let! thenVal := pop in
  let! ifVal := pop_signed in
  if negb (ifVal =? 0) then result_append thenVal else ret tt.

Definition op_IFSTOP : M unit :=
  let! ifVal := pop_signed in
  if negb (ifVal =? 0) then fail PE_STOP else ret tt.

(** Logging only. *)
Definition op_DUMPSTACK : M unit := let! _ := pop_string in ret tt.

Definition op_IFPOP_TUPLE (operand : list value) : M unit :=
  let! ifVal := pop_signed in
  if negb (ifVal =? 0)
  then let! _ := result_open in result_append_all operand
  else ret tt.

(** ** Tuples *)

Definition op_T_MKTUPLE : M unit := let! val := pop in stackPush (VTuple [val]) Fresh.

(** The tuple stays on the stack and grows in place. *)
Definition append_slot (v : value) (s : slot) : res slot :=
  let? t := tuple_of (fst s) in
  match snd s with
  | Fresh => Ok (VTuple (t ++ [v]), Fresh)
  | Frozen => Fail AssertFailed
  | Shared => Fail Unmodelled
  end.

Definition op_T_APPEND : M unit :=
  let! v := pop in
  modify_top (append_slot v).

Fixpoint push_all (vs : list value) : M unit :=
  match vs with
  | [] => ret tt
  | v :: vs' => let! _ := stackPush v Shared in push_all vs'
  end.

Definition op_T_UNBOX : M unit :=
  let! tuple := pop in
  let! t := lift (tuple_of tuple) in
  push_all (rev t).

Definition op_T_UNBOXPOP : M unit :=
  let! tuple := pop in
  let! t := lift (Val_Tuple_cast tuple) in
  let! _ := result_open in
  let! t := lift (of_option UndefinedBehaviour t) in
  result_append_all t.

Definition op_T_FIELD : M unit :=
  let! n := pop_signed in
  let! tuple := pop in
  let! t := lift (tuple_of tuple) in
  let! v := lift (field t (Z.to_nat (u32 n))) in
  stackPush v Shared.

Definition op_T_SWALLOW (operand : list value) : M unit := stackPush (VTuple operand) Shared.

Definition typeName (v : value) : string :=
  match typeCode v with
  | NULLV => "null" | STR => "str" | INT64 => "int64" | DOUBLE => "double"
  | OPAQUE => "opaque" | TUPLE => "tuple" | TIME => "time" | IDT => "ID"
  | TIME_DURATION => "time_duration" | SET => "set" | LIST => "list"
  | VECTOR => "vector" | MATRIX => "matrix"
  end.

Definition op_TYPEOF : M unit := let! v := pop in push_new (VStr (typeName v)).

(** ** Hashing, identifiers, extremes *)

Definition op_H_SHA1 : M unit :=
  let! vp := pop in
  push_new (VID (mkID (ext_sha1 (string_bytes (toString vp))))).

Definition op_T_IDGEN : M unit := let! n := uniqueIdentifier in push_int n.

Definition op_MAX : M unit :=
  let! (v1, o1) := pop_slot in
  let! (v2, o2) := pop_slot in
  let! b := lift (op_lte v1 v2) in
  push_slot (if b then (v2, o2) else (v1, o1)).

Definition op_MIN : M unit :=
  let! (v1, o1) := pop_slot in
  let! (v2, o2) := pop_slot in
  let! b := lift (op_lte v1 v2) in
  push_slot (if b then (v1, o1) else (v2, o2)).

(** [FUNC0] is not implemented: it drops the name. *)
Definition op_FUNC0 : M unit := let! _ := pop in ret tt.

(** ** Masks and attributes *)

Definition op_INITMASK : M unit := let! listVal := pop in stackPush (VList [listVal]) Fresh.

Definition op_GETMASK : M unit :=
  let! v := pop in
  let! mask := lift (getMask v) in
  stackPush (VList mask) Fresh.

(** A NULL mask stays NULL: the list it is cast to is dropped. *)
Definition op_COMBINEMASK : M unit :=
  let! (first, o) := pop_slot in
  let! second := pop in
  let! l := lift (Val_List_cast first) in
  match first, o with
  | VNull, _ => stackPush VNull o
  | _, Shared => throw Unmodelled
  | _, _ => stackPush (VList (l ++ [second])) o
  end.

Definition op_MASK : M unit :=
  let! tempSchema := pop in
  let! maskSchema := pop in
  let! oldPos := pop in
  let! maskList := lift (Val_List_cast maskSchema) in
  let! tempList := lift (Val_List_cast tempSchema) in
  let! pos := lift (Val_Int64_cast oldPos) in
  let! masked := lift (applyMask tempList maskList pos) in
  stackPush (VList masked) Fresh.

(** A null pointer on the stack is not modelled. *)
Definition op_A_TO_VAR : M unit :=
  let! attr := pop in
  let! var := with_fict (toVar nodeid attr) in
  let! v := lift (of_option Unmodelled var) in
  stackPush v Shared.

Definition op_A_UNIQUE_SCHEMA : M unit :=
  let! attr := pop in
  let! v := lift (uniqueSchema nodeid attr) in
  stackPush v Fresh.

Definition op_ISTHETA : M unit :=
  let! boolv := pop in
  let! b := lift (isTheta boolv) in
  push_bool b.

(** ** Schemas *)

Definition op_L_CREATEKEY : M unit :=
  let! schema := pop_list in
  stackPush (VList (VInt64 <$> seqZ 1 (Z.of_nat (length schema)))) Fresh.

Fixpoint fact_values (vs : list value) : res (list value) :=
  match vs with
  | [] => Ok []
  | v :: vs' =>
      let? x := match v with VTuple t => field t 2 | _ => Ok v end in
      let? rest := fact_values vs' in
      Ok (x :: rest)
  end.

Definition op_L_FACT : M unit :=
  let! first := pop in
  let! second := pop in
  let! values := lift (Val_List_cast second) in
  let! vs := lift (fact_values values) in
  stackPush (VTuple (mk_named nodeid (toString first) ++ vs)) Frozen.

Fixpoint index_contained (index : list value) (indexKey : list Z) : res bool :=
  match index with
  | [] => Ok true
  | k :: index' =>
      let? pos := Val_Int64_cast k in
      if existsb (Z.eqb pos) indexKey then index_contained index' indexKey else Ok false
  end.

Definition op_L_INDEXMATCH : M unit :=
  let! val1 := pop in
  let! val2 := pop in
  let! val3 := pop in
  let! outer := lift (Val_List_cast val1) in
  let! inner := lift (Val_List_cast val2) in
  let! index := lift (Val_List_cast val3) in
  let! (_, indexKey, _) := lift (joinKeys outer inner) in
  let! b := lift (index_contained index indexKey) in
  push_bool b.

Definition op_L_VARIABLES : M unit :=
  let! expr := pop in
  let! vars := lift (variables expr) in
  stackPush (VList vars) Fresh.

Definition op_L_CASTASSIGN : M unit :=
  let! val1 := pop in
  let! val2 := pop in
  let! val3 := pop in
  let! outer := lift (Val_List_cast val1) in
  let! inner := lift (Val_List_cast val2) in
  let! select := lift (tuple_of val3) in
  let! v := lift (castassign outer inner select) in
  stackPush v Fresh.

Definition op_L_ADORNMENT : M unit :=
  let! first := pop in
  let! second := pop in
  let! b := lift (op_neq first VNull) in
  let! bound := if b then lift (Val_List_cast first) else ret [] in
  let! schema := lift (Val_List_cast second) in
  let! adorn := lift (adornment bound schema) in
  stackPush (VList adorn) Fresh.

Definition op_L_PROJECT : M unit :=
  let! first := pop in
  let! second := pop in
  let! positions := lift (Val_List_cast first) in
  let! schema := lift (Val_List_cast second) in
  let! l := lift (projectAttrs positions schema) in
  (** out of range, the schema's own list is answered *)
  stackPush (VList l) Shared.

Definition op_L_SORTATTR : M unit :=
  let! val1 := pop in
  let! oorder := pop in
  let! val3 := pop in
  let! iorder := pop in
  let! outer := lift (Val_List_cast val1) in
  let! inner := lift (Val_List_cast val3) in
  let! v := lift (sortAttr outer oorder inner iorder) in
  stackPush v Shared.

Definition op_L_PREFIX : M unit :=
  let! val1 := pop in
  let! val2 := pop in
  let! null := lift (or_r (op_eq val1 VNull) (op_eq val2 VNull)) in
  if null then push_int 0
  else
    let! list1 := lift (Val_List_cast val1) in
    let! list2 := lift (Val_List_cast val2) in
    let! b := lift (prefix list1 list2) in
    push_bool b.

Definition op_L_EQUIVALENT : M unit :=
  let! val1 := pop in
  let! val2 := pop in
  let! plan1 := lift (Val_List_cast val1) in
  let! plan2 := lift (Val_List_cast val2) in
  let! b := lift (equivalent plan1 plan2) in
  push_bool b.

(** [std::atoi] *)
Definition atoi (s : string) : Z :=
  to_i32 (match skip_space (c_string (string_bytes s)) with
          | 45 :: s' => clamp_i64 (- digits 10 0 s')
          | 43 :: s' => clamp_i64 (digits 10 0 s')
          | s' => clamp_i64 (digits 10 0 s')
          end).

(** The index of the first smallest element. *)
Fixpoint min_index (l : list Z) (i best : nat) (bestv : Z) : nat :=
  match l with
  | [] => best
  | x :: l' => if x <? bestv then min_index l' (S i) i x else min_index l' (S i) best bestv
  end.

Fixpoint selection (fuel : nat) (elements : list Z) : list Z :=
  match fuel, elements with
  | S fuel', x :: l =>
      let index := min_index l 1 0 x in
      match elements !! index with
      | Some e => e :: selection fuel' (delete index elements)
      | None => []
      end
  | _, _ => []
  end.

(** The steps of a plan, sorted and printed one behind the other. *)
Definition op_L_GROUP : M unit :=
  let! plan := pop_list in
  let elements := map (fun v => atoi (toString v)) plan in
  push_new (VStr (fold_right (fun e s => dec_string e +:+ s) ""
                    (selection (length elements) elements))).

Definition op_L_MERGE : M unit :=
  let! val1 := pop in
  let! val2 := pop in
  let! list1 := lift (Val_List_cast val1) in
  let! list2 := lift (Val_List_cast val2) in
  let! l := lift (merge list1 list2) in
  stackPush (VList l) Fresh.

Definition op_L_REMOVEVAR : M unit :=
  let! second := pop in
  let! first := pop in
  let! l := lift (Val_List_cast first) in
  stackPush (VList (filter (fun v => compareTo v second <> 0) l)) Fresh.

(** Counting [position] below the range of [int] is undefined. *)
Definition i32_position (z : Z) (steps : nat) : res Z :=
  let p := to_i32 z in
  if p - Z.of_nat steps <? - 2 ^ 31 then Fail UndefinedBehaviour else Ok p.

Definition op_L_REMOVEPOS : M unit :=
  let! second := pop in
  let! first := pop in
  let! l := lift (Val_List_cast first) in
  let! n := lift (Val_Int64_cast second) in
  let! p := lift (i32_position n (length l)) in
  stackPush (VList (if 0 <=? p then delete (Z.to_nat p) l else l)) Fresh.

Definition op_L_ASSIGNSCHEMA : M unit :=
  let! first := pop in
  let! var := pop in
  let! schema := lift (Val_List_cast first) in
  let! l := lift (assignSchema schema var) in
  stackPush (VList l) Fresh.

Definition op_L_POS_ATTR : M unit :=
  let! var := pop in
  let! l := pop_list in
  let! p := lift (position l var) in
  push_int p.

Definition op_T_MK_TYPE : M unit :=
  let! type := pop in
  let! val := pop in
  stackPush (VTuple (mk_named nodeid (toString type) ++ [val])) Frozen.

Definition op_T_MK_AGG : M unit :=
  let! oper := pop in
  let! var := pop in
  stackPush (VTuple (mk_named nodeid AGG ++ [var; oper])) Frozen.

Definition op_T_MK_MATH : M unit :=
  let! type := pop in
  let! val1 := pop in
  let! val2 := pop in
  stackPush (VTuple (mk_named nodeid MATH ++ [type; val1; val2])) Frozen.

Definition op_T_MK_BOOL : M unit :=
  let! type := pop in
  let! val1 := pop in
  let! val2 := pop in
  stackPush (VTuple (mk_named nodeid BOOL ++ [type; val1; val2])) Frozen.

Fixpoint find_kind (type : string) (l : list value) : res (option value) :=
  match l with
  | [] => Ok None
  | e :: l' => let? k := kind e in if is_kind k type then Ok (Some e) else find_kind type l'
  end.

Definition op_L_GET_ATTR : M unit :=
  let! attr := pop in
  let! l := pop_list in
  match attr with
  | VInt64 i =>
      let! p := lift (i32_position i (length l)) in
      if 0 <=? p then
        match l !! Z.to_nat p with
        | Some v => stackPush v Shared
        | None => push_new VNull
        end
      else push_new VNull
  | VStr type =>
      if is_kind type LOC then
        let! loc := lift (location l) in
        match loc with
        | None => fail PE_BAD_LIST_FIELD
        | Some x => stackPush (VTuple (mk_named nodeid LOC ++ [x])) Frozen
        end
      else
        let! found := lift (find_kind type l) in
        match found with
        | Some v => stackPush v Shared
        | None => push_new VNull
        end
  | _ => push_new VNull
  end.

Definition op_L_FLATTEN : M unit :=
  let! l := pop_list in
  let! s := with_fict (flatten nodeid l []) in
  stackPush (VList s) Fresh.

Definition op_L_GROUPBY_ATTR : M unit :=
  let! l := pop_list in
  let! s := with_fict (groupby nodeid l []) in
  stackPush (VList s) Fresh.

Definition op_L_AGG_ATTR : M unit :=
  let! l := pop_list in
  let! p := lift (aggregation l) in
  push_int p.

(** ** Lists *)

Definition op_L_CONCAT : M unit :=
  let! val1 := pop in
  let! val2 := pop in
  let! list1 := lift (Val_List_cast val1) in
  let! list2 := lift (Val_List_cast val2) in
  stackPush (VList (List_concat list1 list2)) Fresh.

(** An empty list is replaced by a new one, any other grows in place. *)
Definition op_L_APPEND : M unit :=
  let! v := pop in
  let! (listVal, o) := pop_slot in
  let! l := lift (Val_List_cast listVal) in
  match l, o with
  | [], _ => stackPush (VList [v]) Fresh
  | _, Shared => throw Unmodelled
  | _, _ => stackPush (VList (List_append l v)) o
  end.

Definition op_L_SUBSET : M unit :=
  let! first := pop in
  let! second := pop in
  match first, second with
  | VList s1, VList s2 =>
      let! b := with_fict (subset nodeid s1 s2) in
      push_bool b
  | _, _ => fail PE_BAD_LIST_FIELD
  end.

Definition op_L_MEMBER : M unit :=
  let! v := pop in
  let! listVal := pop in
  match listVal with
  | VList l => push_int (List_member l v)
  | _ => let! s := lift (Val_Set_cast listVal) in push_bool (Set_member s v)
  end.

Definition op_L_INTERSECT : M unit :=
  let! val1 := pop in
  let! val2 := pop in
  let! l1 := lift (Val_List_cast val1) in
  let! l2 := lift (Val_List_cast val2) in
  stackPush (VList (List_intersect l1 l2)) Fresh.

(** [List::multiset_intersect] counts the elements of [l] by their text; each
    element of this list uses up one. *)
Definition count_values (l : list value) : gmap string (value * Z) :=
  fold_left (fun m v =>
    let k := toString v in
    <[k := (v, match m !! k with Some (_, n) => n + 1 | None => 1 end)]> m) l ∅.

Fixpoint use_values (vpl : list value) (m : gmap string (value * Z)) : list value :=
  match vpl with
  | [] => []
  | v :: vpl' =>
      let k := toString v in
      match m !! k with
      | Some (w, n) =>
          if negb (n =? 0) then w :: use_values vpl' (<[k := (v, n - 1)]> m)
          else use_values vpl' m
      | None => use_values vpl' m
      end
  end.

Definition List_multiset_intersect (vpl l : list value) : list value :=
  use_values vpl (count_values l).

Definition op_L_MULTISET_INTERSECT : M unit :=
  let! val1 := pop in
  let! val2 := pop in
  let! l1 := lift (Val_List_cast val1) in
  let! l2 := lift (Val_List_cast val2) in
  stackPush (VList (List_multiset_intersect l1 l2)) Fresh.

Definition op_L_INIT : M unit := stackPush (VList []) Fresh.

(** What [L_CONS] adds of an operand: a list's elements, nothing of NULL. *)
Definition cons_part (v : value) : list value :=
  match v with VNull => [] | VList l => l | _ => [v] end.

Definition op_L_CONS : M unit :=
  let! first := pop in
  let! second := pop in
  stackPush (VList (cons_part first ++ cons_part second)) Fresh.

Definition op_L_CDR : M unit :=
  let! l := pop_list in
  match l with
  | [] => fail PE_LIST_UNDERFLOW
  | _ :: l' => stackPush (VList l') Fresh
  end.

Definition op_L_CAR : M unit :=
  let! l := pop_list in
  match l with
  | [] => fail PE_LIST_UNDERFLOW
  | v :: _ => stackPush v Shared
  end.

Definition op_L_CONTAINS : M unit :=
  let! second := pop in
  let! l := pop_list in
  push_int (List_member l second).

(** Unlike [L_CDR], this changes the list itself. *)
Definition op_L_REMOVELAST : M unit :=
  let! (first, o) := pop_slot in
  let! l := lift (Val_List_cast first) in
  match l, o with
  | [], _ => fail PE_LIST_UNDERFLOW
  | _, Shared => throw Unmodelled
  | _, _ => stackPush (VList (removelast l)) o
  end.

Definition op_L_LAST : M unit :=
  let! l := pop_list in
  match last l with
  | None => fail PE_LIST_UNDERFLOW
  | Some v => stackPush v Shared
  end.

Definition op_L_SIZE : M unit := let! l := pop_list in push_int (Z.of_nat (length l)).

(** ** Sets *)

Definition op_EMPTY : M unit := push_new (VSet []).
Definition op_INITSET : M unit := let! v := pop in push_new (VSet (Set_insert [] v)).
Definition op_SETMOD : M unit :=
  let! v := pop in
  match v with VSet l => push_int (Z.of_nat (length l)) | _ => push_int 1 end.

(** ** Vectors and matrices

    A new vector or matrix holds null pointers, which values do not have:
    only an empty one is modelled.  An index outside the vector is undefined. *)

Definition op_V_INITVEC : M unit :=
  let! sz := pop_signed in
  if u64 sz =? 0 then stackPush (VVector []) Fresh else throw Unmodelled.

Definition op_V_GETOFFSET : M unit :=
  let! offset := pop_signed in
  let! val1 := pop in
  let! v1 := lift (Val_Vector_cast val1) in
  let! v := lift (of_option UndefinedBehaviour (v1 !! Z.to_nat (u64 offset))) in
  stackPush v Shared.

Definition op_V_SETOFFSET : M unit :=
  let! val1 := pop in
  let! offset := pop_signed in
  let! (val2, o) := pop_slot in
  let! v2 := lift (Val_Vector_cast val2) in
  if Z.of_nat (length v2) <=? u64 offset then throw UndefinedBehaviour
  else match o with
       | Shared => throw Unmodelled
       | _ => stackPush (VVector (<[Z.to_nat (u64 offset) := val1]> v2)) o
       end.

Definition op_V_COMPAREVEC : M unit :=
  let! val1 := pop in
  let! val2 := pop in
  let! v2 := lift (Val_Vector_cast val2) in
  push_int (compareTo (VVector v2) val1).

Definition op_M_INITMAT : M unit :=
  let! sz2 := pop_signed in
  let! sz1 := pop_signed in
  if (u64 sz1 =? 0) || (u64 sz2 =? 0)
  then stackPush (VMatrix (Z.to_nat (u64 sz1)) (Z.to_nat (u64 sz2)) []) Fresh
  else throw Unmodelled.

(** Row-major position of an element. *)
Definition mat_index (s1 s2 : nat) (i j : Z) : res nat :=
  if (u64 i <? Z.of_nat s1) && (u64 j <? Z.of_nat s2)
  then Ok (Z.to_nat (u64 i) * s2 + Z.to_nat (u64 j))%nat
  else Fail UndefinedBehaviour.

Definition op_M_GETOFFSET : M unit :=
  let! offset1 := pop_signed in
  let! offset2 := pop_signed in
  let! val1 := pop in
  let! (s1, s2, m1) := lift (Val_Matrix_cast val1) in
  let! k := lift (mat_index s1 s2 offset1 offset2) in
  let! v := lift (of_option UndefinedBehaviour (m1 !! k)) in
  stackPush v Shared.

Definition op_M_SETOFFSET : M unit :=
  let! val1 := pop in
  let! offset1 := pop_signed in
  let! offset2 := pop_signed in
  let! (val2, o) := pop_slot in
  let! (s1, s2, mat) := lift (Val_Matrix_cast val2) in
  let! k := lift (mat_index s1 s2 offset1 offset2) in
  match o with
  | Shared => throw Unmodelled
  | _ => stackPush (VMatrix s1 s2 (<[k := val1]> mat)) o
  end.

(** The arity is three but two operands are used. *)
Definition op_M_COMPAREMAT : M unit :=
  let! val1 := pop in
  let! val2 := pop in
  let! (s1, s2, m2) := lift (Val_Matrix_cast val2) in
  push_int (compareTo (VMatrix s1 s2 m2) val1).

(** ** Booleans and random numbers *)

Definition op_NOT : M unit := let! v := pop_signed in push_bool (v =? 0).
Definition op_AND : M unit :=
  let! v2 := pop_signed in
  let! v1 := pop_signed in
  push_bool (negb (v1 =? 0) && negb (v2 =? 0)).
Definition op_OR : M unit :=
  let! v2 := pop_signed in
  let! v1 := pop_signed in
  push_bool (negb (v1 =? 0) || negb (v2 =? 0)).
Definition op_RAND : M unit := let! r := with_world ext_random in push_int r.
Definition RAND_MAX : Z := 2 ^ 31 - 1.
Definition op_COIN : M unit :=
  let! r := with_world ext_random in
  let! p := pop_double in
  push_bool (SFleb (SFdiv 53 1024 (double_of_int64 r) (double_of_int64 RAND_MAX)) p).
Definition op_DRAND48 : M unit := let! r := with_world ext_drand48 in push_new (VDouble r).

(** ** Arithmetic

    Binary operations pop the right operand first; the pushed object is the
    new one the operator made. *)
Definition binary (f : value -> value -> res value) : M unit :=
  let! v1 := pop in
  let! v2 := pop in
  let! r := lift (f v2 v1) in
  push_new r.
Definition unary (f : value -> res value) : M unit :=
  let! v := pop in
  let! r := lift (f v) in
  push_new r.

Definition op_ASR : M unit := binary op_rshift.
Definition op_ASL : M unit := binary op_lshift.
Definition op_BIT_AND : M unit := binary op_band.
Definition op_BIT_OR : M unit := binary op_bor.
Definition op_BIT_XOR : M unit := binary op_bxor.
Definition op_BIT_NOT : M unit := unary op_bnot.
Definition op_NEG : M unit := unary op_neg.
Definition op_PLUS : M unit := binary op_plus.
Definition op_MINUS : M unit := binary op_minus.
Definition op_MINUSMINUS : M unit := unary op_dec.
Definition op_PLUSPLUS : M unit := unary op_inc.
Definition op_MUL : M unit := binary op_times.

Definition op_APPEND : M unit :=
  let! v1 := pop in
  let! v2 := pop in
  push_new (VStr (toString v1 +:+ toString v2)).

(** A division by zero the operator finds is caught; [MOD] has only the first
    test. *)
Definition op_DIV : M unit :=
  let! v1 := pop in
  let! v2 := pop in
  let! nonzero := lift (op_neq v1 (VInt64 0)) in
  if nonzero then
    match op_divide v2 v1 with
    | Ok r => push_new r
    | Fail DivisionByZero => fail PE_DIVIDE_BY_ZERO
    | Fail f => throw f
    end
  else fail PE_DIVIDE_BY_ZERO.

Definition op_MOD : M unit :=
  let! v1 := pop in
  let! v2 := pop in
  let! nonzero := lift (op_neq v1 (VInt64 0)) in
  if nonzero then let! r := lift (op_mod v2 v1) in push_new r
  else fail PE_DIVIDE_BY_ZERO.

(** ** Comparisons: the operators take their operands exchanged (Oper.v). *)

Definition compare_op (f : value -> value -> res bool) : M unit :=
  let! v1 := pop in
  let! v2 := pop in
  let! b := lift (f v2 v1) in
  push_bool b.

Definition op_TOTALCOMP : M unit :=
  let! v1 := pop in
  let! v2 := pop in
  push_int (compareTo v1 v2).
Definition op_EQ : M unit := compare_op op_eq.
Definition op_LT : M unit := compare_op op_gt.
Definition op_LTE : M unit := compare_op op_gte.
Definition op_GT : M unit := compare_op op_lt.
Definition op_GTE : M unit := compare_op op_lte.

Definition interval_op (f : value -> value -> value -> res bool) : M unit :=
  let! to := pop in
  let! from := pop in
  let! key := pop in
  let! b := lift (f key from to) in
  push_bool b.
Definition op_INOO : M unit := interval_op inOO.
Definition op_INOC : M unit := interval_op inOC.
Definition op_INCO : M unit := interval_op inCO.
Definition op_INCC : M unit := interval_op inCC.

(** ** Times *)

Definition time_test (f : Z -> Z -> bool) : M unit :=
  let! s1 := pop_time in
  let! s2 := pop_time in
  push_bool (f s2 s1).
Definition op_TIME_LT : M unit := time_test Z.ltb.
Definition op_TIME_LTE : M unit := time_test Z.leb.
Definition op_TIME_GT : M unit := time_test Z.gtb.
Definition op_TIME_GTE : M unit := time_test Z.geb.
Definition op_TIME_EQ : M unit := time_test Z.eqb.
Definition op_TIME_NOW : M unit := let! t := with_world ext_getTime in push_new (VTime t).
Definition op_TIME_MINUS : M unit :=
  let! v1 := pop_time in
  let! v2 := pop_time in
  let! r := lift (td_result (v2 - v1)) in
  push_new r.

Definition duration_test (f : Z -> Z -> bool) : M unit :=
  let! s1 := pop_time_duration in
  let! s2 := pop_time_duration in
  push_bool (f s2 s1).
Definition op_TIME_DURATION_LT : M unit := duration_test Z.ltb.
Definition op_TIME_DURATION_LTE : M unit := duration_test Z.leb.
Definition op_TIME_DURATION_GT : M unit := duration_test Z.gtb.
Definition op_TIME_DURATION_GTE : M unit := duration_test Z.geb.
Definition op_TIME_DURATION_EQ : M unit := duration_test Z.eqb.
Definition op_TIME_DURATION_PLUS : M unit :=
  let! v1 := pop_time_duration in
  let! v2 := pop_time_duration in
  let! r := lift (td_result (v1 + v2)) in
  push_new r.
Definition op_TIME_DURATION_MINUS : M unit :=
  let! v1 := pop_time_duration in
  let! v2 := pop_time_duration in
  let! r := lift (td_result (v2 - v1)) in
  push_new r.

(** ** Strings *)

Definition op_STR_CAT : M unit :=
  let! s1 := pop_string in
  let! s2 := pop_string in
  push_new (VStr (s2 +:+ s1)).
Definition op_STR_LEN : M unit :=
  let! s := pop_string in push_int (Z.of_nat (String.length s)).

(** [toupper] and [tolower] of the C locale. *)
Definition map_string (f : Z -> Z) (s : string) : string :=
  string_of_list_ascii (map (fun c => char_of (f (Z.of_N (N_of_ascii c)))) (list_ascii_of_string s)).
Definition to_upper (c : Z) : Z := if (97 <=? c) && (c <=? 122) then c - 32 else c.
Definition op_STR_UPPER : M unit := let! s := pop_string in push_new (VStr (map_string to_upper s)).
Definition op_STR_LOWER : M unit := let! s := pop_string in push_new (VStr (map_string lower s)).

Definition op_STR_FIND : M unit :=
  let! theStringToLookInto := pop_string in
  let! theStringToLookUp := pop_string in
  push_int (match String.index 0 theStringToLookUp theStringToLookInto with
            | Some pos => Z.of_nat pos
            | None => -1
            end).

(** The sum of two [int64_t] is tested, so it may overflow. *)
Definition op_STR_SUBSTR : M unit :=
  let! len := pop_signed in
  let! pos := pop_signed in
  let! s := pop_string in
  if (pos <? 0) || (len <=? 0) then fail PE_BAD_STRING_OP
  else if negb (bool_decide (is_i64 (pos + len))) then throw UndefinedBehaviour
  else if Z.of_nat (String.length s) <? pos + len then fail PE_BAD_STRING_OP
  else push_new (VStr (String.substring (Z.to_nat pos) (Z.to_nat len) s)).

Definition op_STR_MATCH : M unit :=
  let! re := pop_string in
  let! s := pop_string in
  let! b := lift (ext_regex_match re s) in
  push_bool b.

(** [value.replace(s, pattern.length(), replace)] *)
Definition replace_at (s n : nat) (replace v : string) : string :=
  String.substring 0 s v +:+ replace +:+
  String.substring (s + n) (String.length v - (s + n)) v.

(** The loop goes on one character behind the start of each replacement. *)
Fixpoint replace_loop (fuel s : nat) (pattern replace v : string) : res string :=
  match fuel with
  | O => Fail OutOfFuel
  | S fuel' =>
      match String.index s pattern v with
      | None => Ok v
      | Some s' =>
          replace_loop fuel' (S s') pattern replace
            (replace_at s' (String.length pattern) replace v)
      end
  end.

(** Rounds the loop may take before the model gives up (it may run forever). *)
Definition replace_fuel (v : string) : nat := S (S (String.length v)).

Definition op_STR_REPLACE : M unit :=
  let! first := pop in
  let! second := pop in
  let! third := pop in
  let v := toString third in
  let! r := lift (replace_loop (replace_fuel v) 0 (toString first) (toString second) v) in
  push_new (VStr r).

Definition conv_element (v : value) : res string :=
  match v with VTuple _ => exprString v | _ => Ok (toString v) end.

Fixpoint conv_elements (l : list value) : res string :=
  match l with
  | [] => Ok ""
  | v :: l' =>
      let? s := conv_element v in
      let? rest := conv_elements l' in
      Ok (s +:+ rest)
  end.

Definition op_STR_CONV : M unit :=
  let! t := pop in
  let! s := lift (match t with VList l => conv_elements l | _ => conv_element t end) in
  push_new (VStr s).

(** ** Numbers and conversions *)

(** [llabs] *)
Definition op_INT_ABS : M unit :=
  let! v := pop_signed in
  let! r := lift (i64_result (Z.abs v)) in
  push_new r.

(** [floor] and [ceil] of a double: [up] adds one to a fraction's integer
    part. *)
Definition round_toward (up : bool) (d : spec_float) : spec_float :=
  match d with
  | S754_finite s m e =>
      if 0 <=? e then d
      else
        let z := if s then - Z.pos m else Z.pos m in
        let f := z / 2 ^ (- e) in
        let r := if up && negb (z mod 2 ^ (- e) =? 0) then f + 1 else f in
        binary_normalize 53 1024 r 0 s
  | _ => d
  end.
Definition op_DBL_FLOOR : M unit :=
  let! d := pop_double in push_new (VDouble (round_toward false d)).
Definition op_DBL_CEIL : M unit :=
  let! d := pop_double in push_new (VDouble (round_toward true d)).

Definition op_CONV_I64 : M unit := let! z := pop_signed in push_int z.
Definition op_CONV_STR : M unit := let! s := pop_string in push_new (VStr s).
Definition op_CONV_DBL : M unit := let! d := pop_double in push_new (VDouble d).
Definition op_CONV_TIME : M unit := let! t := pop_time in push_new (VTime t).
Definition op_CONV_ID : M unit :=
  let! v := pop in
  let! i := lift (Val_ID_cast v) in
  push_new (VID i).
Definition op_CONV_TIME_DURATION : M unit :=
  let! t := pop_time_duration in push_new (VTimeDuration t).

Definition op_EXP : M unit := let! d := pop_double in push_new (VDouble (ext_exp d)).
Definition op_LN : M unit := let! d := pop_double in push_new (VDouble (ext_log d)).

(** ** Optimizer support *)

(** These two drop their operands and push nothing. *)
Definition op_O_STATUS : M unit := let! _ := pop in let! _ := pop in ret tt.
Definition op_O_RANGEAM : M unit := let! _ := pop in let! _ := pop in ret tt.

Definition op_O_SELECT : M unit :=
  let! second := pop in
  let! first := pop in
  let! outer := lift (Val_List_cast first) in
  let! inner := lift (Val_List_cast second) in
  let! (jk, _, bk) := lift (joinKeys outer inner) in
  let n := Z.of_nat (length jk) in
  let d := SFadd 53 1024 (double_of_int64 (n + Z.of_nat (length bk))) one in
  push_new (VDouble (SFsub 53 1024 one (SFdiv 53 1024 (double_of_int64 n) d))).

Definition op_O_FILTER : M unit :=
  let! first := pop in
  let! second := pop in
  let! schema := lift (Val_List_cast first) in
  let! f := with_fict (filter_ nodeid schema second) in
  push_bool f.

(** ** Operations of the security utilities *)

Definition secure1 (op : opcode) : M unit := let! v := pop in secure_call op [v].
Definition secure2 (op : opcode) : M unit :=
  let! first := pop in
  let! second := pop in
  secure_call op [first; second].

(** [Val_Int64::cast(stackTop()); stackPop();] *)
Definition top_signed : M Z :=
  fun m => match st m with
           | (v, _) :: rest =>
               match Val_Int64_cast v with
               | Ok z => (Ok z, set_st rest m)
               | Fail f => (Fail f, m)
               end
           | [] => (Fail UndefinedBehaviour, m)
           end.

Definition op_GEN : M unit :=
  let! serializedMsg := pop in
  let! type := top_signed in
  let! key := pop in
  secure_call GEN [serializedMsg; VInt64 type; key].

(** A value that is no set counts as the set of it. *)
Definition as_set (v : value) : value :=
  match v with VSet _ => v | _ => VSet (Set_insert [] v) end.
Definition as_list (v : value) : value := match v with VList _ => v | _ => VList [v] end.

Definition op_VERIFY : M unit :=
  let! msg := pop in
  let! proof := pop in
  let! p := pop in
  let! r := pop in
  let! k := top_signed in
  let! v := pop in
  secure_call VERIFY [msg; as_list proof; as_set p; as_set r; VInt64 k; as_set v].

(** ** Execution *)

(** The member function of an entry of the jump table. *)
Definition op_fn (op : opcode) (prg : Pel_Program) (operand : list value) (inst : Z) : M unit :=
  match op with
  | DROP => op_DROP | SWAP => op_SWAP | DUP => op_DUP
  | PUSH_CONST => op_PUSH_CONST prg inst | PUSH_FIELD => op_PUSH_FIELD operand inst
  | POP => op_POP | POP_ALL => op_POP_ALL | PEEK => op_PEEK | IFELSE => op_IFELSE
  | IFPOP => op_IFPOP | IFPOP_TUPLE => op_IFPOP_TUPLE operand | IFSTOP => op_IFSTOP
  | DUMPSTACK => op_DUMPSTACK | FUNC0 => op_FUNC0 | H_SHA1 => op_H_SHA1 | MAX => op_MAX
  | MIN => op_MIN | T_IDGEN => op_T_IDGEN | T_MKTUPLE => op_T_MKTUPLE
  | T_APPEND => op_T_APPEND | T_UNBOX => op_T_UNBOX | T_UNBOXPOP => op_T_UNBOXPOP
  | T_FIELD => op_T_FIELD | T_SWALLOW => op_T_SWALLOW operand | TYPEOF => op_TYPEOF
  | TOTALCOMP => op_TOTALCOMP | L_FACT => op_L_FACT | L_CREATEKEY => op_L_CREATEKEY
  | L_APPEND => op_L_APPEND | L_CONCAT => op_L_CONCAT | L_MEMBER => op_L_MEMBER
  | L_SUBSET => op_L_SUBSET | L_INTERSECT => op_L_INTERSECT
  | L_MULTISET_INTERSECT => op_L_MULTISET_INTERSECT | V_INITVEC => op_V_INITVEC
  | V_GETOFFSET => op_V_GETOFFSET | V_SETOFFSET => op_V_SETOFFSET
  | V_COMPAREVEC => op_V_COMPAREVEC | M_INITMAT => op_M_INITMAT
  | M_GETOFFSET => op_M_GETOFFSET | M_SETOFFSET => op_M_SETOFFSET
  | M_COMPAREMAT => op_M_COMPAREMAT | NOT => op_NOT | AND => op_AND | OR => op_OR
  | RAND => op_RAND | COIN => op_COIN | L_INIT => op_L_INIT | L_CONS => op_L_CONS
  | L_CAR => op_L_CAR | L_CDR => op_L_CDR | L_CONTAINS => op_L_CONTAINS
  | L_REMOVELAST => op_L_REMOVELAST | L_LAST => op_L_LAST | L_SIZE => op_L_SIZE
  | ASR => op_ASR | ASL => op_ASL | BIT_AND => op_BIT_AND | BIT_OR => op_BIT_OR
  | BIT_XOR => op_BIT_XOR | BIT_NOT => op_BIT_NOT | MOD => op_MOD | APPEND => op_APPEND
  | TIME_LT => op_TIME_LT | TIME_LTE => op_TIME_LTE | TIME_GT => op_TIME_GT
  | TIME_GTE => op_TIME_GTE | TIME_EQ => op_TIME_EQ | TIME_MINUS => op_TIME_MINUS
  | TIME_NOW => op_TIME_NOW | TIME_DURATION_LT => op_TIME_DURATION_LT
  | TIME_DURATION_LTE => op_TIME_DURATION_LTE | TIME_DURATION_GT => op_TIME_DURATION_GT
  | TIME_DURATION_GTE => op_TIME_DURATION_GTE | TIME_DURATION_EQ => op_TIME_DURATION_EQ
  | TIME_DURATION_PLUS => op_TIME_DURATION_PLUS
  | TIME_DURATION_MINUS => op_TIME_DURATION_MINUS | MINUSMINUS => op_MINUSMINUS
  | PLUSPLUS => op_PLUSPLUS | INOO => op_INOO | INOC => op_INOC | INCO => op_INCO
  | INCC => op_INCC | STR_CAT => op_STR_CAT | STR_LEN => op_STR_LEN
  | STR_UPPER => op_STR_UPPER | STR_LOWER => op_STR_LOWER | STR_SUBSTR => op_STR_SUBSTR
  | STR_MATCH => op_STR_MATCH | STR_CONV => op_STR_CONV | STR_REPLACE => op_STR_REPLACE
  | STR_FIND => op_STR_FIND | O_STATUS => op_O_STATUS | O_SELECT => op_O_SELECT
  | O_RANGEAM => op_O_RANGEAM | O_FILTER => op_O_FILTER | A_TO_VAR => op_A_TO_VAR
  | A_UNIQUE_SCHEMA => op_A_UNIQUE_SCHEMA | ISTHETA => op_ISTHETA
  | L_GET_ATTR => op_L_GET_ATTR | T_MK_TYPE => op_T_MK_TYPE | T_MK_BOOL => op_T_MK_BOOL
  | T_MK_MATH => op_T_MK_MATH | T_MK_AGG => op_T_MK_AGG | L_POS_ATTR => op_L_POS_ATTR
  | L_AGG_ATTR => op_L_AGG_ATTR | L_GROUPBY_ATTR => op_L_GROUPBY_ATTR
  | L_FLATTEN => op_L_FLATTEN | L_INDEXMATCH => op_L_INDEXMATCH
  | L_CASTASSIGN => op_L_CASTASSIGN | L_VARIABLES => op_L_VARIABLES | L_MERGE => op_L_MERGE
  | L_REMOVEVAR => op_L_REMOVEVAR | L_REMOVEPOS => op_L_REMOVEPOS
  | L_EQUIVALENT => op_L_EQUIVALENT | L_GROUP => op_L_GROUP | L_PREFIX => op_L_PREFIX
  | L_SORTATTR => op_L_SORTATTR | L_PROJECT => op_L_PROJECT | L_ADORNMENT => op_L_ADORNMENT
  | L_ASSIGNSCHEMA => op_L_ASSIGNSCHEMA | VERIFY => op_VERIFY | GEN => op_GEN
  | SETMOD => op_SETMOD | EMPTY => op_EMPTY | INITSET => op_INITSET
  | SERIALIZE => secure2 SERIALIZE | DESERIALIZE => secure2 DESERIALIZE
  | CREATEVER => secure_call CREATEVER [] | CREATELOCSPEC => secure_call CREATELOCSPEC []
  | IS_LOCSPEC => secure1 IS_LOCSPEC | GET_CERT => secure1 GET_CERT
  | IS_SAYS => secure1 IS_SAYS | LOADKEYFILE => secure1 LOADKEYFILE
  | INITMASK => op_INITMASK | COMBINEMASK => op_COMBINEMASK | GETMASK => op_GETMASK
  | MASK => op_MASK | NEG => op_NEG | PLUS => op_PLUS | MINUS => op_MINUS | MUL => op_MUL
  | DIV => op_DIV | EQ => op_EQ | LT => op_LT | LTE => op_LTE | GT => op_GT | GTE => op_GTE
  | INT_ABS => op_INT_ABS | DBL_FLOOR => op_DBL_FLOOR | DBL_CEIL => op_DBL_CEIL
  | EXP => op_EXP | LN => op_LN | DRAND48 => op_DRAND48 | CONV_I64 => op_CONV_I64
  | CONV_DBL => op_CONV_DBL | CONV_STR => op_CONV_STR | CONV_TIME => op_CONV_TIME
  | CONV_TIME_DURATION => op_CONV_TIME_DURATION | CONV_ID => op_CONV_ID
  end.

(** [execute_instruction]: the opcode, the arity, the operation; the
    exceptions of operators and casts become error codes, others propagate.
    The bound test lets [op = NUM_OPCODES] through, past the table. *)
Definition execute_instruction (prg : Pel_Program) (operand : list value) (inst : Z) : M Error :=
  fun m =>
    let op := Z.land inst 65535 in
    if NUM_OPCODES <? op then (Ok PE_BAD_OPCODE, set_error PE_BAD_OPCODE m)
    else match jump_table !! Z.to_nat op with
         | None => (Fail UndefinedBehaviour, m)
         | Some (_, arity, fn) =>
             if (length (st m) <? arity)%nat
             then (Ok PE_STACK_UNDERFLOW, set_error PE_STACK_UNDERFLOW m)
             else match op_fn fn prg operand inst m with
                  | (Ok _, m') => (Ok (error m'), m')
                  | (Fail OperException, m') => (Ok PE_OPER_UNSUP, set_error PE_OPER_UNSUP m')
                  | (Fail TypeError, m') =>
                      (Ok PE_TYPE_CONVERSION, set_error PE_TYPE_CONVERSION m')
                  | (Fail f, m') => (Fail f, m')
                  end
         end.

Fixpoint execute_loop (prg : Pel_Program) (operand : list value) (code : list Z) : M Error :=
  fun m =>
    match code with
    | [] => (Ok (error m), m)
    | inst :: code' =>
        match execute_instruction prg operand inst m with
        | (Ok PE_SUCCESS, m') => execute_loop prg operand code' m'
        | (Ok PE_STOP, m') => (Ok PE_SUCCESS, m')
        | (Ok e, m') => (Ok e, m')
        | (Fail f, m') => (Fail f, m')
        end
    end.

(** [execute]: the stack is the caller's. *)
Definition execute (prg : Pel_Program) (data : list value) : M Error :=
  fun m => execute_loop prg data (ops prg) (set_result None (set_error PE_SUCCESS m)).

(** [reset], [result_val], [result_tuple], [reset_result_tuple] *)
Definition vm_reset (m : vm) : vm := set_st [] m.
Definition result_val : M value :=
  fun m => match st m with
           | (v, _) :: _ => (Ok v, m)
           | [] => (Ok VNull, set_st [(VNull, Shared)] m)
           end.
Definition result_tuple (m : vm) : option (list value) := result m.
Definition reset_result_tuple (m : vm) : vm := set_result None m.

(** [strerror]: the table has no entry for [PE_STOP]. *)
Definition error_number (e : Error) : nat :=
  match e with
  | PE_SUCCESS => 0 | PE_BAD_CONSTANT => 1 | PE_BAD_FIELD => 2 | PE_OPER_UNSUP => 3
  | PE_STACK_UNDERFLOW => 4 | PE_TYPE_CONVERSION => 5 | PE_BAD_OPCODE => 6
  | PE_DIVIDE_BY_ZERO => 7 | PE_BAD_STRING_OP => 8 | PE_INVALID_ERRNO => 9 | PE_STOP => 10
  | PE_BAD_LIST_FIELD => 11 | PE_LIST_UNDERFLOW => 12 | PE_UNKNOWN => 13
  end.
Definition err_msgs : list string :=
  ["ER:Success"; "ER:Out-of-range constant reference"; "ER:Out-of-range field reference";
   "ER:Operator not supported for type"; "ER:Stack underflow"; "ER:Bad type conversion";
   "ER:Bad opcode"; "ER:Divide by zero"; "ER:Bad string operation"; "ER:Invalid Errno";
   "ER:Bad list field"; "ER:List underflow"; "ER:Unknown Error"].
Definition strerror (e : Error) : res string :=
  of_option UndefinedBehaviour (err_msgs !! error_number e).
End machine.

Notation "'let!' x ':=' c 'in' k" := (bind c (fun x => k))
  (at level 10, x pattern, c at level 100, k at level 200) : p2_scope.
