(* ===== verification/PelLexer.v ===== *)
(** * The PEL lexer (src/p2core/pel/pel_lexer.lex, pel_lexer.h)

    [compile] turns program text into instructions and constants.  As flex
    does, each step takes the rule with the longest match, the earliest one
    among equals; a rule is given by the length of its longest match.  Bad
    tokens and doubles out of range are logged and dropped.  Text is a list of
    character codes. *)

From Stdlib Require Import SpecFloat Ascii String.
From S2P Require Import Prelude Ids Stl Values Tuples Aggs Xdr Casts Oper Names Pel.

Local Open Scope p2_scope.

(** ** Matching *)

Definition is_digit (c : Z) : bool := (48 <=? c) && (c <=? 57).
Definition is_hexdigit (c : Z) : bool :=
  is_digit c || ((97 <=? c) && (c <=? 102)) || ((65 <=? c) && (c <=? 70)).
(** [ \t\r\n] and [[:space:]] *)
Definition is_blank (c : Z) : bool := (c =? 32) || (c =? 9) || (c =? 13) || (c =? 10).

(** The length of the longest prefix of characters that satisfy [p]. *)
Fixpoint span (p : Z -> bool) (s : list Z) : nat :=
  match s with c :: s' => if p c then S (span p s') else O | [] => O end.

Definition some_if (b : bool) (n : nat) : option nat := if b then Some n else None.

(** The longer of two matches. *)
Definition longer (a b : option nat) : option nat :=
  match a, b with
  | Some n, Some k => Some (Nat.max n k)
  | Some n, None => Some n
  | None, _ => b
  end.

Definition after (n : nat) (m : list Z -> option nat) (s : list Z) : option nat :=
  match m (drop n s) with Some k => Some (n + k)%nat | None => None end.

Definition starts (w s : list Z) : bool := bool_decide (take (length w) s = w).

(** [{DIGIT}+] and [0[xX]{HEXDIGIT}+] *)
Definition m_digits (s : list Z) : option nat :=
  let n := span is_digit s in some_if (0 <? n)%nat n.
Definition m_hex (s : list Z) : option nat :=
  match s with
  | 48 :: x :: s' =>
      let n := span is_hexdigit s' in
      some_if (((x =? 120) || (x =? 88)) && (0 <? n)%nat) (2 + n)
  | _ => None
  end.
Definition m_number (s : list Z) : option nat := longer (m_digits s) (m_hex s).

(** [m] behind an optional minus sign, and followed by the character [c]. *)
Definition m_signed (m : list Z -> option nat) (s : list Z) : option nat :=
  match s with 45 :: _ => after 1 m s | _ => m s end.
Definition m_suffix (m : list Z -> option nat) (c : Z) (s : list Z) : option nat :=
  match m s with
  | Some n => if bool_decide (s !! n = Some c) then Some (S n) else None
  | None => None
  end.

(** [{EXP}], [{DECIM}] *)
Definition m_exp (s : list Z) : option nat :=
  match s with
  | e :: s' =>
      if (e =? 101) || (e =? 69) then
        match s' with
        | c :: s'' => if (c =? 43) || (c =? 45) then after 2 m_digits s else after 1 m_digits s
        | [] => None
        end
      else None
  | [] => None
  end.
Definition m_decim (s : list Z) : option nat :=
  match s with 46 :: _ => after 1 m_digits s | _ => None end.
Definition m_fraction (s : list Z) : option nat :=
  match m_decim s with
  | Some n => longer (Some n) (after n m_exp s)
  | None => m_exp s
  end.
Definition m_double (s : list Z) : option nat :=
  m_signed (fun s => match m_digits s with Some n => after n m_fraction s | None => None end) s.

(** A literal between two quotes [q]; [bad] may not occur in it unescaped. *)
Fixpoint m_literal (q : Z) (bad : Z -> bool) (s : list Z) (n : nat) : option nat :=
  match s with
  | c :: s' =>
      if c =? q then Some (S n)
      else if c =? 92 then match s' with _ :: s'' => m_literal q bad s'' (S (S n)) | [] => None end
      else if (c =? 10) || bad c then None
      else m_literal q bad s' (S n)
  | [] => None
  end.
Definition m_quoted (q : Z) (bad : Z -> bool) (s : list Z) : option nat :=
  match s with c :: s' => if c =? q then m_literal q bad s' 1 else None | [] => None end.

(** [open.*close]: up to the last [close] on the line. *)
Fixpoint last_on_line (close : Z) (s : list Z) (n : nat) (found : option nat) : option nat :=
  match s with
  | c :: s' =>
      if c =? 10 then found
      else last_on_line close s' (S n) (if c =? close then Some (S n) else found)
  | [] => found
  end.
Definition m_bracket (open close : Z) (s : list Z) : option nat :=
  match s with c :: s' => if c =? open then last_on_line close s' 1 None else None | [] => None end.

(** To the end of the line, which must be there. *)
Definition m_line (s : list Z) : option nat :=
  let n := span (fun c => negb (c =? 10)) s in
  some_if (n <? length s)%nat (S n).

(** ** The rules, in order *)

Inductive rule :=
  | RBlank | RComment | RDirective | RLong | REscaped | RChar | RUnsigned | RInt | RId
  | RDouble | RString | RQuoted | RNull | RField | RMatrix | RVector | RWord.

Definition matches (bol : bool) (r : rule) (s : list Z) : option nat :=
  match r with
  | RBlank => let n := span is_blank s in some_if (0 <? n)%nat n
  | RComment => if starts [47; 47] s then m_line s else None
  | RDirective => if bol && starts [35; 33] s then m_line s else None
  | RLong => some_if (starts [47; 42] s) 2
  | REscaped => match s with
                | 39 :: 92 :: c :: 39 :: _ => some_if (negb (c =? 10)) 4
                | _ => None
                end
  | RChar => match s with 39 :: c :: 39 :: _ => some_if (negb (c =? 92)) 3 | _ => None end
  | RUnsigned => longer (m_suffix m_digits 85 s) (m_suffix m_hex 85 s)
  | RInt => m_signed m_number s
  | RId => m_suffix m_hex 73 s
  | RDouble => m_double s
  | RString => m_quoted 34 (fun _ => false) s
  | RQuoted => m_quoted 39 (fun c => c =? 34) s
  | RNull => some_if (starts (string_bytes "null") s || starts (string_bytes "NULL") s) 4
  | RField => match s with 36 :: _ => after 1 m_digits s | _ => None end
  | RMatrix => m_bracket 123 125 s
  | RVector => m_bracket 60 62 s
  | RWord => let n := span (fun c => negb (isspace c)) s in some_if (0 <? n)%nat n
  end.

Definition rules : list rule :=
  [RBlank; RComment; RDirective; RLong; REscaped; RChar; RUnsigned; RInt; RId;
   RDouble; RString; RQuoted; RNull; RField; RMatrix; RVector; RWord].

(** The first rule with the longest match. *)
Definition best (bol : bool) (s : list Z) : option (rule * nat) :=
  fold_left (fun acc r =>
    match matches bol r s, acc with
    | Some n, Some (_, k) => if (k <? n)%nat then Some (r, n) else acc
    | Some n, None => Some (r, n)
    | None, _ => acc
    end) rules None.

(** ** Actions *)

(** [strtoull(s, NULL, 0)] *)
Definition strtoull0 (s : list Z) : Z :=
  match skip_space s with
  | 45 :: s' => let n := magnitude s' in if n <? 2 ^ 64 then u64 (- n) else 2 ^ 64 - 1
  | 43 :: s' => clamp_u64 (magnitude s')
  | s' => clamp_u64 (magnitude s')
  end.

(** The text of a literal without its opening quote; [c] is the character
    last written, which a line continuation writes again. *)
Fixpoint unescape (fuel : nat) (c : Z) (s : list Z) : list Z :=
  match fuel, s with
  | S fuel', a :: b :: s' =>
      if a =? 92 then
        let c := if b =? 10 then c else if b =? 110 then 10 else if b =? 114 then 13
                 else if b =? 116 then 9 else b in
        c :: unescape fuel' c s'
      else a :: unescape fuel' a (b :: s')
  | _, _ => []
  end.
Definition text_of (s : list Z) : string :=
  string_of_list_ascii (map char_of s).
Definition literal (text : list Z) : string :=
  text_of (unescape (length text) 0 (drop 1 text)).

(** [strtok]: the non-empty pieces between the separators. *)
Fixpoint strtok (sep : Z) (s piece : list Z) : list (list Z) :=
  let out := match piece with [] => [] | _ => [piece] end in
  match s with
  | c :: s' => if c =? sep then out ++ strtok sep s' [] else strtok sep s' (piece ++ [c])
  | [] => out
  end.

Definition parse_element (tok : list Z) : value :=
  if existsb (Z.eqb 46) tok then VDouble (strtod tok) else VInt64 (to_i64 (strtoull0 tok)).
Definition parseVector (vec : list Z) : list value := map parse_element (strtok 44 vec []).

(** [arity] elements of each row; a shorter row is read past its end. *)
Fixpoint matrix_rows (arity : nat) (rows : list (list value)) : res (list value) :=
  match rows with
  | [] => Ok []
  | r :: rows' =>
      if (length r <? arity)%nat then Fail UndefinedBehaviour
      else let? rest := matrix_rows arity rows' in Ok (take arity r ++ rest)
  end.
Definition parseMatrix (mat : list Z) : res value :=
  let rows := map (fun tok => parseVector (drop 1 tok)) (strtok 37 mat []) in
  let arity := match rows with r :: _ => length r | [] => O end in
  let? m := matrix_rows arity rows in
  Ok (VMatrix (length rows) arity m).

Definition OP_PUSH_CONST : Z := 3.
Definition OP_PUSH_FIELD : Z := 4.

Definition add_const (f : value) (p : Pel_Program) : Pel_Program :=
  mkProgram (ops p ++ [Z.lor (Z.shiftl (Z.land (Z.of_nat (length (const_pool p))) 65535) 16)
                         OP_PUSH_CONST])
    (const_pool p ++ [f]).
Definition add_tuple_load (f : Z) (p : Pel_Program) : Pel_Program :=
  mkProgram (ops p ++ [Z.lor (Z.shiftl (Z.land f 65535) 16) OP_PUSH_FIELD]) (const_pool p).
Definition add_opcode (op : Z) (p : Pel_Program) : Pel_Program :=
  mkProgram (ops p ++ [Z.land op 65535]) (const_pool p).

(** The opcode of a mnemonic: the first entry of the token table. *)
Fixpoint token_code (name : string) (t : list (string * nat * opcode)) (i : Z) : option Z :=
  match t with
  | [] => None
  | (w, _, _) :: t' => if String.eqb name w then Some i else token_code name t' (i + 1)
  end.

Definition escaped_char (c : Z) : Z :=
  if c =? 110 then 10 else if c =? 114 then 13 else if c =? 116 then 9
  else if c =? 102 then 12 else c.

(** A [char] is signed. *)
Definition char_value (c : Z) : Z := if 128 <=? c then c - 256 else c.

(** The comment after [/*]: nested comments count.  Answers the rest. *)
Fixpoint skip_comment (depth : nat) (star slash : bool) (s : list Z) : list Z :=
  match depth, s with
  | O, _ => s
  | _, [] => []
  | S d, c :: s' =>
      let depth' := if (c =? 42) && slash then S depth
                    else if (c =? 47) && star then d else depth in
      skip_comment depth' (c =? 42) (c =? 47) s'
  end.

Definition act (r : rule) (yytext : list Z) (p : Pel_Program) : res Pel_Program :=
  match r with
  | RBlank | RComment | RDirective | RLong => Ok p
  | REscaped => Ok (add_const (VInt64 (char_value (escaped_char (nth 2 yytext 0)))) p)
  | RChar => Ok (add_const (VInt64 (char_value (nth 1 yytext 0))) p)
  | RUnsigned => Ok (add_const (VInt64 (to_i64 (strtoull0 yytext))) p)
  | RInt => Ok (add_const (VInt64 (strtoll yytext)) p)
  | RId => Ok (add_const (VID (ID_of_string (text_of (removelast (drop 2 yytext))))) p)
  | RDouble =>
      match strtod yytext with
      | S754_infinity _ => Ok p
      | d => Ok (add_const (VDouble d) p)
      end
  | RString | RQuoted => Ok (add_const (VStr (literal yytext)) p)
  | RNull => Ok (add_const VNull p)
  | RField => Ok (add_tuple_load (to_i32 (strtoll (drop 1 yytext))) p)
  | RMatrix => let? v := parseMatrix (drop 1 yytext) in Ok (add_const v p)
  | RVector => Ok (add_const (VVector (parseVector (drop 1 yytext))) p)
  | RWord => Ok (match token_code (text_of yytext) jump_table 0 with
                 | Some op => add_opcode op p
                 | None => p
                 end)
  end.

(** [yylex]; a character no rule takes is echoed. *)
Fixpoint yylex (fuel : nat) (bol : bool) (s : list Z) (p : Pel_Program) : res Pel_Program :=
  match fuel, s with
  | O, _ => Fail OutOfFuel
  | _, [] => Ok p
  | S fuel', c :: s' =>
      match best bol s with
      | None => yylex fuel' (c =? 10) s' p
      | Some (r, n) =>
          let yytext := take n s in
          let? p := act r yytext p in
          let rest := drop n s in
          let rest := match r with RLong => skip_comment 1 false false rest | _ => rest end in
          yylex fuel' (bool_decide (last yytext = Some 10)) rest p
      end
  end.

Definition compile_text (s : list Z) : res Pel_Program :=
  yylex (S (length s)) true s (mkProgram [] []).
Definition compile (prog : string) : res Pel_Program := compile_text (c_string (string_bytes prog)).

(** [decompile], [opcode_mnemonic] *)
Definition opcode_mnemonic (op : Z) : option string :=
  match jump_table !! Z.to_nat (Z.land op 65535) with Some (w, _, _) => Some w | None => None end.

Definition decompile_op `{P : Platform} (prog : Pel_Program) (op : Z) : string :=
  let opn := Z.shiftr op 16 in
  let opc := Z.land op 65535 in
  if opc =? OP_PUSH_FIELD then "$" +:+ dec_string opn +:+ " "
  else if opc =? OP_PUSH_CONST then
    match const_pool prog !! Z.to_nat opn with
    | Some (VStr s) => quoted s +:+ " "
    | Some v => toString v +:+ " "
    | None => "<out-of-range-const-" +:+ dec_string opn +:+ "> "
    end
  else match jump_table !! Z.to_nat opc with
       | Some (w, _, _) => w +:+ " "
       | None => "<unknown-op-code-" +:+ dec_string opc +:+ "> "
       end.
Definition decompile `{P : Platform} (prog : Pel_Program) : string :=
  fold_right (fun op s => decompile_op prog op +:+ s) "" (ops prog).
