(* ===== verification/PelSafe.v ===== *)
(** * Properties of the PEL virtual machine

    The arities of the opcode table are right: an operation sees only that
    many slots of the stack.  What the operations that deserve a statement
    compute, which exceptions leave [execute], and where the machine departs
    from what its comments say. *)

From Stdlib Require Import SpecFloat Ascii String.
From S2P Require Import Prelude Ids Stl Values Tuples Aggs Xdr Casts Oper Names Pel.

Local Open Scope p2_scope.

Section locality.
Context `{P : Platform} `{X : Externals} (nodeid : value).

(** [under rest m]: the machine [m] with [rest] below its stack. *)
Definition under (rest : list slot) (m : vm) : vm := set_st (st m ++ rest) m.

(** A computation that needs at most [n] slots: what lies below them does not
    change its outcome and is left as it is; and when it answers, at most [n]
    slots are gone. *)
Definition local {A} (n : nat) (c : M A) : Prop :=
  forall m rest, (n <= length (st m))%nat ->
    c (under rest m) = (fst (c m), under rest (snd (c m))) /\
    (forall a, fst (c m) = Ok a -> (length (st m) <= n + length (st (snd (c m))))%nat).

Lemma local_weaken {A} n k (c : M A) : local n c -> (n <= k)%nat -> local k c.
Proof.
  intros Hc Hk m rest Hm. destruct (Hc m rest) as [H1 H2]; [lia|]. split; [done|].
  intros a Ha. specialize (H2 a Ha). lia.
Qed.

Lemma local_bind {A B} n k (c : M A) (f : A -> M B) :
  local n c -> (forall a, local k (f a)) -> local (n + k) (bind c f).
Proof.
  intros Hc Hf m rest Hm. unfold bind. destruct (Hc m rest) as [-> Hl]; [lia|].
  destruct (c m) as [[a|e] m'] eqn:E; cbn [fst snd] in *; [|done].
  specialize (Hl a eq_refl). destruct (Hf a m' rest) as [-> Hl']; [lia|]. split; [done|].
  intros b Hb. specialize (Hl' b Hb). lia.
Qed.

Lemma local_pop_then {A B} n (c : M A) (f : A -> M B) :
  local 1 c -> (forall a, local n (f a)) -> local (S n) (bind c f).
Proof. apply (local_bind 1). Qed.

Lemma local_then {A B} n (c : M A) (f : A -> M B) :
  local 0 c -> (forall a, local n (f a)) -> local n (bind c f).
Proof. apply (local_bind 0). Qed.

(** A computation that does not touch the stack. *)
Lemma local_pure {A} (c : M A) :
  (forall m s, c (set_st s m) = (fst (c m), set_st s (snd (c m)))) ->
  (forall m, st (snd (c m)) = st m) -> local 0 c.
Proof.
  intros H1 H2 m rest _. unfold under. rewrite H1, H2. split; [done|]. intros. lia.
Qed.

Lemma local_ret {A} (a : A) : local 0 (ret a).
Proof. by apply local_pure. Qed.
Lemma local_throw {A} f : local 0 (throw (A := A) f).
Proof. by apply local_pure. Qed.
Lemma local_lift {A} (r : res A) : local 0 (lift r).
Proof. by apply local_pure. Qed.
Lemma local_fail e : local 0 (fail e).
Proof. by apply local_pure. Qed.
Lemma local_result_append v : local 0 (result_append v).
Proof. by apply local_pure. Qed.
Lemma local_result_open : local 0 result_open.
Proof. by apply local_pure. Qed.
Lemma local_unique : local 0 uniqueIdentifier.
Proof. by apply local_pure. Qed.
Lemma local_with_fict {A} (f : Z -> res (A * Z)) : local 0 (with_fict f).
Proof.
  apply local_pure; intros; unfold with_fict; cbn; destruct (f _) as [[]|]; done.
Qed.
Lemma local_with_world {A} (f : World -> A * World) : local 0 (with_world f).
Proof. apply local_pure; intros; unfold with_world; cbn; destruct (f _); done. Qed.

Lemma local_push v o : local 0 (stackPush v o).
Proof. intros m rest _. split; [done|]. intros. cbn. lia. Qed.

Lemma local_pop_slot : local 1 pop_slot.
Proof.
  intros m rest Hm. unfold pop_slot, under. destruct (st m) as [|s l]; cbn in *; [lia|].
  split; [done|]. intros. lia.
Qed.
Lemma local_modify_top f : local 1 (modify_top f).
Proof.
  intros m rest Hm. unfold modify_top, under. destruct (st m) as [|s l] eqn:E; cbn in *; [lia|].
  destruct (f s); cbn; rewrite ?E; (split; [done|]); intros; cbn; lia.
Qed.
Lemma local_top_signed : local 1 top_signed.
Proof.
  intros m rest Hm. unfold top_signed, under. destruct (st m) as [|[v o] l] eqn:E; cbn in *; [lia|].
  destruct (Val_Int64_cast v); cbn; rewrite ?E; (split; [done|]); intros; cbn; lia.
Qed.
Lemma local_secure_call op args : local 0 (secure_call op args).
Proof.
  intros m rest _. unfold secure_call. cbn. destruct (ext_secure op args (world m)) as [[v|f] w];
    (split; [done|]); intros; cbn; lia.
Qed.
Lemma local_append_all vs : local 0 (result_append_all vs).
Proof.
  induction vs as [|v vs IH]; cbn; [apply local_ret|].
  apply local_then; [apply local_result_append|done].
Qed.
Lemma local_push_all vs : local 0 (push_all vs).
Proof.
  induction vs as [|v vs IH]; cbn; [apply local_ret|].
  apply local_then; [apply local_push|done].
Qed.

Lemma local_pop : local 1 pop.
Proof. apply (local_bind 1 0); [apply local_pop_slot|intros; apply local_ret]. Qed.
Lemma local_pop_lift {A} (f : value -> res A) : local 1 (bind pop (fun v => lift (f v))).
Proof. apply (local_bind 1 0); [apply local_pop|intros; apply local_lift]. Qed.
Lemma local_pop_string : local 1 pop_string.
Proof. apply (local_bind 1 0); [apply local_pop|intros; apply local_ret]. Qed.

Lemma local_pop_signed : local 1 pop_signed.
Proof. apply local_pop_lift. Qed.
Lemma local_pop_time : local 1 pop_time.
Proof. apply local_pop_lift. Qed.
Lemma local_pop_time_duration : local 1 pop_time_duration.
Proof. apply local_pop_lift. Qed.
Lemma local_pop_double : local 1 pop_double.
Proof. apply local_pop_lift. Qed.
Lemma local_pop_list : local 1 pop_list.
Proof. apply local_pop_lift. Qed.
Lemma local_push_new v : local 0 (push_new v).
Proof. apply local_push. Qed.
Lemma local_push_int z : local 0 (push_int z).
Proof. apply local_push. Qed.
Lemma local_push_bool b : local 0 (push_bool b).
Proof. apply local_push. Qed.
Lemma local_push_slot s : local 0 (push_slot s).
Proof. apply local_push. Qed.

Create HintDb local0.
Create HintDb local1.

#[local] Hint Resolve local_ret local_throw local_lift local_fail local_result_append
  local_result_open local_unique local_with_fict local_with_world local_push
  local_secure_call local_append_all local_push_all local_push_new local_push_int
  local_push_bool local_push_slot : local0.
#[local] Hint Resolve local_pop_slot local_top_signed local_pop local_pop_string
  local_pop_lift local_modify_top local_pop_signed local_pop_time local_pop_time_duration
  local_pop_double local_pop_list : local1.

(** [solve_local] walks down an operation. *)
Ltac solve_local :=
  repeat first
    [ match goal with
      | |- forall _, _ => intro
      | |- local _ (bind _ _) => apply local_pop_then; [solve [auto with local1 nocore]|]
      | |- local _ (bind _ _) => apply local_then; [solve [auto with local0 nocore]|]
      | |- local _ (match ?x with _ => _ end) => destruct x
      | |- local _ (if ?x then _ else _) => destruct x
      | |- local _ _ => solve [eapply local_weaken; [solve [auto with local1 nocore]|lia]]
      | |- local _ _ => solve [eapply local_weaken; [solve [auto with local0 nocore]|lia]]
      end ].

#[local] Hint Extern 1 (local 0 (if ?b then _ else _)) => destruct b : local0.

Ltac head_of c := match c with ?f _ => head_of f | _ => c end.

(** Each operation needs its arity. *)
Ltac solve_op :=
  cbn [op_fn];
  repeat first
    [ solve [solve_local]
    | match goal with
      | |- local _ (bind _ _) => fail 1
      | |- local _ ?c => let h := head_of c in unfold h
      end ].

Lemma table_local prg operand inst :
  Forall (fun '(_, arity, op) =>
    op = PEEK \/ op = POP_ALL \/ local arity (op_fn nodeid op prg operand inst)) jump_table.
Proof.
  unfold jump_table.
  repeat (apply Forall_cons; split;
    [first [by left|by right; left|right; right; solve [solve_op]]|]).
  constructor.
Qed.

(** The arities of the opcode table are those of the operations: on a
    stack with at least that many slots every operation but [PEEK] and
    [POP_ALL] (which reach further by design) has the same outcome whatever
    lies below its operands, which it leaves untouched, and takes no more than
    its operands.  With the test before each instruction no operation reads an
    empty stack. *)
Theorem arity_suffices (name : string) (arity : nat) (op : opcode) prg operand inst m rest :
  (name, arity, op) ∈ jump_table -> op <> PEEK -> op <> POP_ALL ->
  (arity <= length (st m))%nat ->
  let '(r, m') := op_fn nodeid op prg operand inst m in
  op_fn nodeid op prg operand inst (under rest m) = (r, under rest m') /\
  (forall a, r = Ok a -> (length (st m) <= arity + length (st m'))%nat).
Proof.
  intros Hin Hpk Hpa Hm. pose proof (table_local prg operand inst) as H.
  rewrite Forall_forall in H. destruct (H _ Hin) as [|[|Hl]]; [done..|].
  destruct (Hl m rest Hm) as [H1 H2]. destruct (op_fn _ _ _ _ _ m). done.
Qed.
End locality.

Section operations.
Context `{P : Platform} `{X : Externals} (nodeid : value).

(** ** Exceptions *)

(** Casting and operator exceptions never leave [execute]: they become the
    error codes [PE_TYPE_CONVERSION] and [PE_OPER_UNSUP]. *)
Theorem execute_catches prg data m :
  fst (execute nodeid prg data m) <> Fail TypeError /\
  fst (execute nodeid prg data m) <> Fail OperException.
Proof.
  unfold execute. generalize (set_result None (set_error PE_SUCCESS m)). clear m.
  induction (ops prg) as [|inst code IH]; intros m; cbn [execute_loop]; [done|].
  unfold execute_instruction. destruct (NUM_OPCODES <? _); [by cbn|].
  destruct (jump_table !! _) as [[[w n] op]|]; [|by cbn].
  destruct (_ <? n)%nat; [by cbn|].
  destruct (op_fn _ _ _ _ _ m) as [[u|f] m'].
  - destruct (error m'); try done; apply IH.
  - by destruct f.
Qed.

(** The bound tests of the machine let one value too many through: an
    instruction with opcode [NUM_OPCODES] calls past the jump table, the field
    or constant whose index is the size throws an exception that [execute]
    does not catch where the code for a bad field or constant is due, and the
    message of the last error code lies past the table, which has no entry for
    [PE_STOP]. *)
Theorem bounds_off_by_one prg operand m :
  execute_instruction nodeid prg operand NUM_OPCODES m = (Fail UndefinedBehaviour, m) /\
  op_PUSH_FIELD operand (Z.shiftl (Z.of_nat (length operand)) 16) m = (Fail OutOfRange, m) /\
  op_PUSH_CONST prg (Z.shiftl (Z.of_nat (length (const_pool prg))) 16) m = (Fail OutOfRange, m) /\
  strerror PE_BAD_LIST_FIELD = Ok "ER:List underflow" /\ strerror PE_UNKNOWN = Fail UndefinedBehaviour.
Proof.
  assert (H : forall (l : list value), field l (length l) = Fail OutOfRange).
  { intros l. unfold field. by rewrite lookup_ge_None_2. }
  split; [reflexivity|]. unfold op_PUSH_FIELD, op_PUSH_CONST, bind, lift.
  rewrite !Z.shiftr_shiftl_l, !Z.sub_diag, !Z.shiftl_0_r, !Z.ltb_irrefl, !Nat2Z.id, !H by lia.
  repeat split; reflexivity.
Qed.

(** ** Comparison, extremes, division *)

(** The machine with two operands on top. *)
Definition with_operands (m : vm) (left right : slot) (rest : list slot) : vm :=
  set_st (right :: left :: rest) m.

Definition pushed (m : vm) (v : value) (rest : list slot) : vm := set_st ((v, Fresh) :: rest) m.

Definition bool_value (b : bool) : value := VInt64 (if b then 1 else 0).

(** The comparison instructions compare the operand pushed first with the
    one pushed second, in the order of their class, and push 1 or 0. *)
Theorem comparison_instructions (m : vm) (l r : value) ol or rest :
  plainP l -> plainP r -> typeCode l = typeCode r -> ordered_class (typeCode l) = true ->
  let m0 := with_operands m (l, ol) (r, or) rest in
  op_LT m0 = (Ok tt, pushed m (bool_value (value_lt l r)) rest) /\
  op_LTE m0 = (Ok tt, pushed m (bool_value (negb (value_lt r l))) rest) /\
  op_GT m0 = (Ok tt, pushed m (bool_value (value_lt r l)) rest) /\
  op_GTE m0 = (Ok tt, pushed m (bool_value (negb (value_lt l r))) rest) /\
  op_EQ m0 = (Ok tt, pushed m (bool_value (equals l r)) rest).
Proof.
  intros Pl Pr Ht Ho m0.
  destruct (same_class l r Ht Ho) as (H1 & H2 & H3 & H4).
  destruct (same_class_eq l r Pl Pr Ht Ho) as [H5 _].
  assert (E : compareTo r l = - compareTo l r) by (by apply cmp_antisym).
  unfold op_LT, op_LTE, op_GT, op_GTE, op_EQ, compare_op, m0, with_operands, bind, pop, pop_slot,
    lift, ret, bind.
  cbn. rewrite H1, H2, H3, H4, H5. unfold value_lt, equals, gt0, ge0, lt0, le0. rewrite E.
  unfold pushed, bool_value, push_bool, push_int, push_new, stackPush.
  set (c := compareTo l r).
  replace (0 <? - c) with (c <? 0) by lia. replace (0 <=? - c) with (negb (0 <? c)) by lia.
  replace (- c <? 0) with (0 <? c) by lia. replace (- c <=? 0) with (negb (c <? 0)) by lia.
  repeat split.
Qed.

(** [max] answers the smaller and [min] the larger of two different values
    of one class: the operations use [<=] as if its operands were not
    exchanged. *)
Theorem max_is_min (m : vm) (l r : value) ol or rest :
  plainP l -> plainP r -> typeCode l = typeCode r -> ordered_class (typeCode l) = true ->
  equals l r = false ->
  let m0 := with_operands m (l, ol) (r, or) rest in
  let smaller := if value_lt l r then (l, ol) else (r, or) in
  let larger := if value_lt l r then (r, or) else (l, ol) in
  op_MAX m0 = (Ok tt, set_st (smaller :: rest) m) /\
  op_MIN m0 = (Ok tt, set_st (larger :: rest) m).
Proof.
  intros Pl Pr Ht Ho Hd m0 sm la.
  destruct (same_class r l) as (_ & _ & _ & H); [congruence..|].
  assert (E : compareTo r l = - compareTo l r) by (by apply cmp_antisym).
  unfold op_MAX, op_MIN, m0, with_operands, bind, pop_slot, lift. cbn.
  rewrite H. unfold sm, la, value_lt, le0, equals in *.
  replace (compareTo l r <=? 0) with (compareTo l r <? 0) by lia.
  by destruct (compareTo l r <? 0).
Qed.

(** A remainder by NULL, by a text that is no number or by a fraction
    below one divides by zero, which is undefined; a division with the same
    operands answers the error code. *)
Theorem mod_by_zero_escapes (m : vm) (a : Z) o o' rest :
  Forall (fun d =>
    op_MOD (with_operands m (VInt64 a, o) (d, o') rest) = (Fail UndefinedBehaviour, set_st rest m) /\
    op_DIV (with_operands m (VInt64 a, o) (d, o') rest) =
      (Ok tt, set_error PE_DIVIDE_BY_ZERO (set_st rest m)))
    [VNull; VStr "abc"; VDouble (round_ratio false 1 2)].
Proof. repeat constructor. Qed.
End operations.

(** ** String replacement *)

Lemma length_substring n k s : (n + k <= String.length s)%nat ->
  String.length (String.substring n k s) = k.
Proof.
  revert n k. induction s as [|c s IH]; intros [|n] [|k] H; cbn in *; try lia.
  - f_equal. apply IH. lia.
  - rewrite (IH n O) by lia. done.
  - apply IH. lia.
Qed.

Lemma string_length_app s t :
  String.length (s +:+ t) = (String.length s + String.length t)%nat.
Proof. induction s as [|c s IH]; [done|]. exact (f_equal S IH). Qed.

Lemma prefix_length p v : String.prefix p v = true -> (String.length p <= String.length v)%nat.
Proof.
  revert v. induction p as [|a p IH]; intros [|b v]; cbn; try done; [lia|].
  destruct (ascii_dec a b); [|done]. intros H%IH. lia.
Qed.

(** [find] answers a position at or behind the start, with room for the
    pattern. *)
Lemma index_bounds n p v i : String.index n p v = Some i ->
  (n <= i)%nat /\ (i + String.length p <= String.length v)%nat.
Proof.
  revert n i. induction v as [|c v IH]; intros n i.
  - destruct n, p; cbn; intros H; simplify_eq; cbn; lia.
  - destruct n as [|n]; cbn [String.index].
    + destruct (String.prefix p (String c v)) eqn:E; intros H; simplify_eq.
      { split; [lia|]. apply prefix_length in E. lia. }
      destruct (String.index 0 p v) as [k|] eqn:Ek; simplify_eq.
      destruct (IH 0%nat k Ek). cbn. lia.
    + destruct (String.index n p v) as [k|] eqn:Ek; intros H; simplify_eq.
      destruct (IH n k Ek). cbn. lia.
Qed.

Lemma replace_at_length s n r v : (s + n <= String.length v)%nat ->
  String.length (replace_at s n r v) = (String.length v - n + String.length r)%nat.
Proof.
  intros H. unfold replace_at. rewrite !string_length_app, !length_substring by lia. lia.
Qed.

Lemma replace_loop_fuel fuel s p r v : (String.length r <= String.length p)%nat ->
  (S (String.length v) - s < fuel)%nat -> exists w, replace_loop fuel s p r v = Ok w.
Proof.
  intros Hr. revert s v. induction fuel as [|fuel IH]; intros s v Hf; [lia|].
  cbn. destruct (String.index s p v) as [i|] eqn:E; [|eauto].
  destruct (index_bounds _ _ _ _ E). apply IH. rewrite replace_at_length by lia. lia.
Qed.

(** [strreplace] answers whenever the replacement is no longer than the
    pattern: the loop ends within the length of the text. *)
Theorem strreplace_terminates (p r v : string) :
  (String.length r <= String.length p)%nat ->
  exists w, replace_loop (replace_fuel v) 0 p r v = Ok w.
Proof. intros Hr. apply replace_loop_fuel; [done|]. unfold replace_fuel. lia. Qed.

Lemma strreplace_terminates_witness :
  exists w, replace_loop (replace_fuel "abcabc") 0 "abc" "ca" "abcabc" = Ok w.
Proof. apply (strreplace_terminates "abc" "ca" "abcabc"). cbn. lia. Defined.

(** A text of [n] times the same letter. *)
Fixpoint rep (n : nat) (c : ascii) : string :=
  match n with O => "" | S n' => String c (rep n' c) end.

Lemma length_rep n c : String.length (rep n c) = n.
Proof. induction n; cbn; auto. Qed.

Lemma index_rep n i c : (i < n)%nat -> String.index i (rep 1 c) (rep n c) = Some i.
Proof.
  revert i. induction n as [|n IH]; intros [|i] Hi; try lia.
  - cbn [rep String.index String.prefix]. by destruct (ascii_dec c c); [destruct n|].
  - cbn [rep String.index]. fold rep. change (String c "") with (rep 1 c).
    rewrite IH by lia. done.
Qed.

Lemma substring_rep n i k c : (i + k <= n)%nat -> String.substring i k (rep n c) = rep k c.
Proof.
  revert i k. induction n as [|n IH]; intros [|i] [|k] H; cbn; try lia; try done.
  - f_equal. apply (IH 0%nat). lia.
  - apply (IH i 0%nat). lia.
  - apply IH. lia.
Qed.

Lemma rep_app n k c : rep n c +:+ rep k c = rep (n + k) c.
Proof. induction n as [|n IH]; [done|]. exact (f_equal (String c) IH). Qed.

(** Replacing a letter by the letter doubled never ends: the search goes on
    inside the text just inserted, so no amount of rounds is enough. *)
Theorem strreplace_diverges (c : ascii) (n fuel : nat) : (0 < n)%nat ->
  replace_loop fuel 0 (rep 1 c) (rep 2 c) (rep n c) = Fail OutOfFuel.
Proof.
  intros Hn. assert (H : forall s n, (s < n)%nat ->
    replace_loop fuel s (rep 1 c) (rep 2 c) (rep n c) = Fail OutOfFuel); [|by apply H].
  clear n Hn. induction fuel as [|fuel IH]; intros s n Hs; [done|].
  cbn [replace_loop]. rewrite index_rep by done. unfold replace_at.
  rewrite !length_rep, !substring_rep, !rep_app by lia. apply IH. lia.
Qed.

Lemma strreplace_diverges_witness :
  (0 < 1)%nat /\ replace_loop 100 0 "a" "aa" "a" = Fail OutOfFuel.
Proof. split; [lia|]. apply (strreplace_diverges "a" 1 100). lia. Defined.

(** ** Multiset intersection *)

Section multiset.
Context `{P : Platform}.

(** How many elements have the text [k]. *)
Definition text_count (k : string) (l : list value) : nat :=
  length (filter (fun v => toString v = k) l).

(** What a table of counts says about [k]. *)
Definition counted (m : gmap string (value * Z)) (k : string) : Z :=
  match m !! k with Some (_, n) => n | None => 0 end.

Definition counts_ok (m : gmap string (value * Z)) : Prop :=
  forall k w n, m !! k = Some (w, n) -> toString w = k /\ 0 <= n.

Lemma text_count_cons k v l :
  text_count k (v :: l) = ((if decide (toString v = k) then 1 else 0) + text_count k l)%nat.
Proof. unfold text_count. rewrite filter_cons. by case_decide. Qed.

Definition count_one (m : gmap string (value * Z)) (v : value) : gmap string (value * Z) :=
  let k := toString v in
  <[k := (v, match m !! k with Some (_, n) => n + 1 | None => 1 end)]> m.

Lemma counted_insert m k k' w n :
  counted (<[k := (w, n)]> m) k' = if decide (k = k') then n else counted m k'.
Proof.
  unfold counted. case_decide; subst; [by rewrite lookup_insert_eq|by rewrite lookup_insert_ne].
Qed.

Lemma counts_ok_insert m w n : counts_ok m -> 0 <= n ->
  counts_ok (<[toString w := (w, n)]> m).
Proof.
  intros Hm Hn k w' n' H. apply lookup_insert_Some in H as [[<- [= <- <-]]|[_ H]]; [done|].
  by apply (Hm k w').
Qed.

Lemma counted_nonneg m k : counts_ok m -> 0 <= counted m k.
Proof.
  intros Hm. unfold counted. destruct (m !! k) as [[w n]|] eqn:E; [|done]. by apply (Hm k w n).
Qed.

Lemma count_one_eq m v : count_one m v = <[toString v := (v, counted m (toString v) + 1)]> m.
Proof. unfold count_one, counted. by destruct (m !! toString v) as [[]|]. Qed.

Lemma count_values_spec l m : counts_ok m ->
  counts_ok (fold_left count_one l m) /\
  forall k, counted (fold_left count_one l m) k = counted m k + Z.of_nat (text_count k l).
Proof.
  revert m. induction l as [|v l IH]; intros m Hm; cbn [fold_left].
  { split; [done|]. intros k. cbn. lia. }
  pose proof (counted_nonneg m (toString v) Hm).
  destruct (IH (count_one m v)) as [H1 H2].
  { rewrite count_one_eq. apply counts_ok_insert; [done|lia]. }
  split; [done|]. intros k. rewrite H2, count_one_eq, counted_insert, text_count_cons.
  case_decide; subst; lia.
Qed.

Lemma use_values_spec vpl m k : counts_ok m ->
  Z.of_nat (text_count k (use_values vpl m)) =
    Z.min (Z.of_nat (text_count k vpl)) (counted m k).
Proof.
  revert m. induction vpl as [|v vpl IH]; intros m Hm; cbn [use_values].
  { pose proof (counted_nonneg m k Hm). change (text_count k []) with 0%nat. lia. }
  rewrite text_count_cons. destruct (m !! toString v) as [[w n]|] eqn:E.
  - destruct (Hm _ _ _ E) as [Hw Hn].
    assert (Hc : counted m (toString v) = n) by (unfold counted; by rewrite E).
    destruct (negb (n =? 0)) eqn:En; bools.
    + rewrite text_count_cons, Hw, Nat2Z.inj_add, IH by (apply counts_ok_insert; [done|lia]).
      rewrite counted_insert. case_decide; subst; lia.
    + rewrite IH by done. pose proof (counted_nonneg m k Hm). case_decide; subst; lia.
  - rewrite IH by done. case_decide; subst; [|lia].
    assert (counted m (toString v) = 0) by (unfold counted; by rewrite E). lia.
Qed.

(** The multiset intersection of two lists has every element (by its text)
    as often as the list that has it less often. *)
Theorem multiset_intersect_correct (vpl l : list value) (k : string) :
  text_count k (List_multiset_intersect vpl l) =
    Nat.min (text_count k vpl) (text_count k l).
Proof.
  unfold List_multiset_intersect.
  destruct (count_values_spec l ∅) as [H1 H2]; [by intros ? ? ?|].
  change (count_values l) with (fold_left count_one l ∅).
  pose proof (use_values_spec vpl (fold_left count_one l ∅) k H1) as H.
  rewrite (H2 k) in H. change (counted ∅ k) with 0 in H. lia.
Qed.
End multiset.

(** ** The theorems at work *)

Section examples.
#[local] Existing Instance bare_platform.
#[local] Existing Instance still_externals.

Definition example_vm : vm := mkVM [] PE_SUCCESS None 0 0 tt.

Lemma arity_suffices_witness :
  op_fn VNull PLUS (mkProgram [] []) [] 0
    (under [(VStr "below", Shared)] (set_st [(VInt64 2, Shared); (VInt64 1, Shared)] example_vm)) =
  (Ok tt, under [(VStr "below", Shared)] (set_st [(VInt64 3, Fresh)] example_vm)).
Proof.
  pose proof (arity_suffices VNull "+" 2 PLUS (mkProgram [] []) [] 0
    (set_st [(VInt64 2, Shared); (VInt64 1, Shared)] example_vm) [(VStr "below", Shared)]) as H.
  destruct H as [H _]; [|discriminate|discriminate|cbn; lia|exact H].
  apply list_elem_of_In. unfold jump_table. cbn. repeat (first [left; reflexivity|right]).
Defined.

Lemma comparison_instructions_witness :
  op_LT (with_operands example_vm (VInt64 1, Shared) (VInt64 2, Shared) []) =
    (Ok tt, pushed example_vm (VInt64 1) []).
Proof.
  destruct (comparison_instructions example_vm (VInt64 1) (VInt64 2) Shared Shared []) as [H _];
    [reflexivity..|exact H].
Defined.

Lemma max_is_min_witness :
  op_MAX (with_operands example_vm (VInt64 1, Shared) (VInt64 2, Shared) []) =
    (Ok tt, set_st [(VInt64 1, Shared)] example_vm).
Proof.
  destruct (max_is_min example_vm (VInt64 1) (VInt64 2) Shared Shared []) as [H _];
    [reflexivity..|exact H].
Defined.
End examples.
