(* ===== verification/PelText.v ===== *)
(** * Reading back printed PEL programs

    The lexer (PelLexer.v) reads what [decompile] and the expression compiler
    (PelGen.v) write.  A printed program is a sequence of lexemes, each behind
    a space; the lemmas below show that the longest match at a lexeme is the
    lexeme, and so that the program read is the program printed.

    The one thing that stands in the way is the rule for vectors, which takes
    everything from a [<] to the last [>] of the line: [vector_free] says that
    no [>] follows a mnemonic that starts with [<]. *)

From Stdlib Require Import SpecFloat Ascii String.
From S2P Require Import Prelude Ids Stl Values Tuples Aggs Xdr Casts Oper Names Pel PelLexer.

Local Open Scope p2_scope.

#[export] Instance rule_eq_dec : EqDecision rule.
Proof. solve_decision. Defined.

(** ** Patterns on character codes as tests *)

(** [lit c n]: the match on the literal [n] against [c], either way. *)
Ltac lit c n :=
  destruct (Z.eq_dec c n) as [->|]; [reflexivity|
    replace (c =? n) with false by lia;
    destruct c as [|p|p]; try reflexivity;
    do 8 (try reflexivity; destruct p; try reflexivity; try lia)].

Lemma m_hex_eq s : m_hex s =
  match s with
  | c :: x :: s' =>
      if c =? 48 then
        let n := span is_hexdigit s' in
        some_if (((x =? 120) || (x =? 88)) && (0 <? n)%nat) (2 + n)
      else None
  | _ => None
  end.
Proof. destruct s as [|c [|x s']]; [done| |lit c 48]. unfold m_hex. repeat case_match; done. Qed.

Lemma m_signed_eq m s : m_signed m s =
  match s with c :: _ => if c =? 45 then after 1 m s else m s | [] => m [] end.
Proof. destruct s as [|c s]; [done|]. lit c 45. Qed.

Lemma m_decim_eq s : m_decim s =
  match s with c :: _ => if c =? 46 then after 1 m_digits s else None | [] => None end.
Proof. destruct s as [|c s]; [done|]. lit c 46. Qed.

Lemma field_eq bol s : matches bol RField s =
  match s with c :: _ => if c =? 36 then after 1 m_digits s else None | [] => None end.
Proof. destruct s as [|c s]; [done|]. unfold matches. lit c 36. Qed.

Lemma char_rules bol c s : c <> 39 ->
  matches bol REscaped (c :: s) = None /\ matches bol RChar (c :: s) = None.
Proof.
  intros Hc. unfold matches. destruct c as [|p|p]; try done.
  do 6 (try done; destruct p; try done).
Qed.

(** ** What follows a lexeme does not change its match *)

Definition nosp (c : Z) : Prop := isspace c = false.

(** A matcher that stops at a space. *)
Definition framed (m : list Z -> option nat) : Prop :=
  forall w s, Forall nosp w ->
    m (w ++ 32 :: s) = m w /\ (forall n, m w = Some n -> (n <= length w)%nat).

Lemma run_frame p w s : p 32 = false ->
  span p (w ++ 32 :: s) = span p w /\ (span p w <= length w)%nat.
Proof.
  intros Hp. induction w as [|c w [IH1 IH2]]; cbn; [rewrite Hp; split; [done|lia]|].
  destruct (p c); [|split; [done|lia]]. rewrite IH1. split; [done|lia].
Qed.

Lemma some_if_Some b n k : some_if b n = Some k -> b = true /\ n = k.
Proof. unfold some_if. destruct b; naive_solver. Qed.

Lemma framed_digits : framed m_digits.
Proof.
  intros w s _. unfold m_digits. destruct (run_frame is_digit w s) as [-> ?]; [done|].
  split; [done|]. intros n [_ <-]%some_if_Some. done.
Qed.

Lemma framed_hex : framed m_hex.
Proof.
  intros w s Hw. rewrite !m_hex_eq. destruct w as [|c [|x w]]; cbn [app].
  - split; [by destruct s|done].
  - destruct (c =? 48); [|done]. split; [|done]. unfold some_if. cbn. done.
  - destruct (c =? 48); [|done]. destruct (run_frame is_hexdigit w s) as [-> ?]; [done|].
    split; [done|]. cbn. intros n [_ <-]%some_if_Some. lia.
Qed.

Lemma framed_longer m1 m2 : framed m1 -> framed m2 -> framed (fun s => longer (m1 s) (m2 s)).
Proof.
  intros H1 H2 w s Hw. destruct (H1 w s Hw) as [-> L1], (H2 w s Hw) as [-> L2].
  split; [done|]. intros n. destruct (m1 w) as [a|], (m2 w) as [b|]; cbn; intros; simplify_eq;
    auto. specialize (L1 _ eq_refl). specialize (L2 _ eq_refl). lia.
Qed.

Lemma framed_after m n w s : framed m -> Forall nosp w -> (n <= length w)%nat ->
  after n m (w ++ 32 :: s) = after n m w /\
  (forall k, after n m w = Some k -> (k <= length w)%nat).
Proof.
  intros Hm Hw Hn. unfold after. rewrite drop_app_le by done.
  destruct (Hm (drop n w) s) as [-> L]; [by apply Forall_drop|]. split; [done|].
  intros k. destruct (m (drop n w)) as [a|]; [|done]. intros [= <-].
  specialize (L a eq_refl). rewrite length_drop in L. lia.
Qed.

Lemma framed_signed m : framed m -> framed (m_signed m).
Proof.
  intros Hm w s Hw. rewrite !m_signed_eq. destruct w as [|c w]; cbn [app].
  - change (32 =? 45) with false. cbn match. exact (Hm [] s Hw).
  - destruct (c =? 45); [|exact (Hm (c :: w) s Hw)].
    apply (framed_after m 1 (c :: w) s); [done..|cbn; lia].
Qed.

Lemma framed_suffix m c : framed m -> nosp c -> framed (m_suffix m c).
Proof.
  intros Hm Hc w s Hw. unfold m_suffix. destruct (Hm w s Hw) as [-> L].
  destruct (m w) as [n|]; [|done]. specialize (L n eq_refl).
  destruct (decide (n = length w)) as [->|Hn].
  - rewrite list_lookup_middle by done. rewrite (lookup_ge_None_2 w) by lia.
    rewrite (bool_decide_false (None = _)) by done.
    rewrite bool_decide_false by (intros [= <-]; done). done.
  - rewrite lookup_app_l by lia. split; [done|]. case_bool_decide; [|done].
    intros k [= <-]. lia.
Qed.

Lemma framed_exp : framed m_exp.
Proof.
  intros w s Hw. unfold m_exp. destruct w as [|e [|c w]]; cbn [app].
  - done.
  - destruct ((e =? 101) || (e =? 69)); [|done]. cbn. done.
  - destruct ((e =? 101) || (e =? 69)); [|done].
    destruct ((c =? 43) || (c =? 45));
      [apply (framed_after m_digits 2 (e :: c :: w) s)|apply (framed_after m_digits 1 (e :: c :: w) s)];
      (done || cbn; lia || apply framed_digits).
Qed.

Lemma framed_decim : framed m_decim.
Proof.
  intros w s Hw. rewrite !m_decim_eq. destruct w as [|c w]; [done|]. cbn [app].
  destruct (c =? 46); [|done].
  apply (framed_after m_digits 1 (c :: w) s); [apply framed_digits|done|cbn; lia].
Qed.

Lemma framed_fraction : framed m_fraction.
Proof.
  intros w s Hw. unfold m_fraction. destruct (framed_decim w s Hw) as [-> L].
  destruct (m_decim w) as [n|]; [|by apply framed_exp].
  specialize (L n eq_refl). destruct (framed_after m_exp n w s framed_exp Hw L) as [-> L'].
  split; [done|]. intros k. destruct (after n m_exp w); cbn; intros [= <-]; [|done].
  specialize (L' _ eq_refl). lia.
Qed.

Lemma framed_double : framed m_double.
Proof.
  apply framed_signed. intros w s Hw. destruct (framed_digits w s Hw) as [-> L].
  destruct (m_digits w) as [n|]; [|done]. specialize (L n eq_refl).
  apply framed_after; [apply framed_fraction|done|done].
Qed.

Lemma starts_frame k w s : Forall nosp k -> starts k (w ++ 32 :: s) = starts k w.
Proof.
  intros Hk. unfold starts. apply bool_decide_ext. rewrite take_app. split; intros H.
  - destruct (length k - length w)%nat as [|n] eqn:E.
    + by rewrite take_0, app_nil_r in H.
    + rewrite <- H, Forall_app in Hk. destruct Hk as [_ Hk]. cbn in Hk.
      by apply Forall_cons in Hk as [? _].
  - rewrite H. assert (length k <= length w)%nat.
    { rewrite <- H, length_take. lia. }
    replace (length k - length w)%nat with 0%nat by lia. by rewrite take_0, app_nil_r.
Qed.

Lemma starts_head a k c s : a <> c -> starts (a :: k) (c :: s) = false.
Proof. intros H. apply bool_decide_false. cbn. intros [= E _]. done. Qed.

Lemma last_on_line_none close s n : close ∉ s -> last_on_line close s n None = None.
Proof.
  revert n. induction s as [|c s IH]; intros n H; [done|]. cbn.
  destruct (c =? 10); [done|]. apply not_elem_of_cons in H as [H1 H2].
  replace (c =? close) with false by lia. by apply IH.
Qed.

(** The start of a lexeme that is no literal, comment or matrix. *)
Definition word_start (c : Z) : bool :=
  negb (isspace c || (c =? 34) || (c =? 39) || (c =? 123) || (c =? 35)).
Definition is_word (w : list Z) : bool :=
  match w with c :: _ => word_start c | [] => false end &&
  forallb (fun c => negb (isspace c)) w &&
  negb (starts [47; 47] w) && negb (starts [47; 42] w).
(** The vector rule finds nothing: no [<] in front or no [>] up to the end. *)
Definition no_vector (w s : list Z) : Prop := head w <> Some 60 \/ 62 ∉ w ++ s.

Lemma word_start_inv c : word_start c = true ->
  is_blank c = false /\ nosp c /\ c <> 34 /\ c <> 39 /\ c <> 123 /\ c <> 35.
Proof. unfold word_start, is_blank, nosp, isspace. lia. Qed.

Lemma is_word_inv c w : is_word (c :: w) = true ->
  word_start c = true /\ Forall nosp (c :: w) /\
  starts [47; 47] (c :: w) = false /\ starts [47; 42] (c :: w) = false.
Proof.
  unfold is_word. intros H. bools. repeat split; [done| |done|done].
  apply Forall_forall. intros x Hx. rewrite forallb_forall in H2.
  apply negb_true_iff, H2. by apply list_elem_of_In.
Qed.

Lemma is_word_nosp w : is_word w = true -> Forall nosp w.
Proof. destruct w as [|c w]; [done|]. intros H. by apply is_word_inv in H as (_ & ? & _). Qed.

Lemma is_word_intro c w : word_start c = true -> c <> 47 -> Forall nosp w ->
  is_word (c :: w) = true.
Proof.
  intros Hc Hn Hw. unfold is_word. rewrite Hc, !starts_head by done. cbn [forallb].
  destruct (word_start_inv c Hc) as (_ & -> & _). rewrite !andb_true_r. cbn.
  apply forallb_forall. intros x Hx. rewrite Forall_forall in Hw.
  rewrite (Hw x); [done|]. by apply list_elem_of_In.
Qed.

(** The matchers of a word do not depend on what follows it. *)
Lemma matches_frame b r w s : is_word w = true -> no_vector w (32 :: s) ->
  matches b r (w ++ 32 :: s) = matches false r w.
Proof.
  intros Hw Hv. destruct w as [|c w]; [done|].
  destruct (is_word_inv c w Hw) as (Hc & Hn & S1 & S2).
  destruct (word_start_inv c Hc) as (Hb & C1 & C2 & C3 & C4 & C5).
  destruct r; unfold matches.
  - cbn [app span]. rewrite Hb. done.
  - by rewrite starts_frame, S1 by (repeat constructor).
  - cbn [app]. by rewrite !starts_head, andb_false_r by lia.
  - rewrite starts_frame by (repeat constructor). done.
  - destruct (char_rules b c (w ++ 32 :: s)), (char_rules false c w); try done; unfold matches in *; cbn [app]; congruence.
  - destruct (char_rules b c (w ++ 32 :: s)), (char_rules false c w); try done; unfold matches in *; cbn [app]; congruence.
  - apply (framed_longer _ _ (framed_suffix m_digits 85 framed_digits eq_refl)
      (framed_suffix m_hex 85 framed_hex eq_refl)). done.
  - apply (framed_signed m_number); [|done]. apply framed_longer; [apply framed_digits|apply framed_hex].
  - apply (framed_suffix m_hex 73 framed_hex eq_refl). done.
  - by apply framed_double.
  - unfold m_quoted. cbn [app]. by replace (c =? 34) with false by lia.
  - unfold m_quoted. cbn [app]. by replace (c =? 39) with false by lia.
  - rewrite !starts_frame by (repeat constructor). done.
  - pose proof (field_eq b ((c :: w) ++ 32 :: s)) as E1. pose proof (field_eq b (c :: w)) as E2.
    unfold matches in E1, E2. rewrite E1, E2. cbn [app]. destruct (c =? 36); [|done].
    apply (framed_after m_digits 1 (c :: w) s); [apply framed_digits|done|cbn; lia].
  - unfold m_bracket. cbn [app]. by replace (c =? 123) with false by lia.
  - unfold m_bracket. cbn [app]. destruct (c =? 60) eqn:E; [|done]. bools. subst c.
    destruct Hv as [Hv|Hv]; [done|]. cbn [app] in Hv. apply not_elem_of_cons in Hv as [_ Hv].
    rewrite !last_on_line_none; [done| |done]. intros Hx. apply Hv, elem_of_app. by left.
  - destruct (run_frame (fun c => negb (isspace c)) (c :: w) s) as [-> _]; done.
Qed.

(** ** The rule that is taken *)

Lemma best_ext b b' s s' : (forall r, matches b r s = matches b' r s') -> best b s = best b' s'.
Proof.
  intros H. unfold best. generalize (@None (rule * nat)).
  induction rules as [|r rs IH]; intros acc; [done|]. cbn [fold_left]. rewrite H. apply IH.
Qed.

Lemma best_word b w s : is_word w = true -> no_vector w (32 :: s) ->
  best b (w ++ 32 :: s) = best false w.
Proof. intros Hw Hv. apply best_ext. intros r. by apply matches_frame. Qed.

(** One step of the choice. *)
Definition choose (b : bool) (s : list Z) (acc : option (rule * nat)) (r : rule) : option (rule * nat) :=
  match matches b r s, acc with
  | Some n, Some (_, k) => if (k <? n)%nat then Some (r, n) else acc
  | Some n, None => Some (r, n)
  | None, _ => acc
  end.

Definition shorter (n : nat) (o : option (rule * nat)) : Prop :=
  match o with Some (_, k) => (k < n)%nat | None => True end.

(** The first rule that matches the most is the one taken. *)
Lemma best_first b s pre r post n : rules = pre ++ r :: post ->
  matches b r s = Some n ->
  Forall (fun r' => forall k, matches b r' s = Some k -> (k < n)%nat) pre ->
  Forall (fun r' => forall k, matches b r' s = Some k -> (k <= n)%nat) post ->
  best b s = Some (r, n).
Proof.
  intros E Hr Hpre Hpost. change (fold_left (choose b s) rules None = Some (r, n)).
  rewrite E, fold_left_app. cbn [fold_left].
  assert (H : forall acc, shorter n acc -> shorter n (fold_left (choose b s) pre acc)).
  { clear - Hpre. induction Hpre as [|r' pre Hr' _ IH]; intros acc Hacc; [done|].
    cbn [fold_left]. apply IH. unfold choose.
    destruct (matches b r' s) as [k|]; [|done]. specialize (Hr' k eq_refl).
    destruct acc as [[r0 k0]|]; [|done]. by destruct (k0 <? k)%nat. }
  specialize (H None I). generalize dependent (fold_left (choose b s) pre None).
  intros acc Hacc. assert (Ec : choose b s acc r = Some (r, n)).
  { unfold choose. rewrite Hr. destruct acc as [[r0 k0]|]; [|done]. cbn in Hacc.
    by replace (k0 <? n)%nat with true by (symmetry; apply Nat.ltb_lt; lia). }
  rewrite Ec. clear - Hpost. induction Hpost as [|r' post Hr' _ IH]; [done|].
  cbn [fold_left]. rewrite <- IH at 2. f_equal. unfold choose.
  destruct (matches b r' s) as [k|]; [|done]. specialize (Hr' k eq_refl).
  by replace (n <? k)%nat with false by (symmetry; apply Nat.ltb_ge; lia).
Qed.

(** ** Every match takes at least one character of the text *)

Definition bounded (m : list Z -> option nat) : Prop :=
  forall s n, m s = Some n -> (1 <= n <= length s)%nat.

Lemma run_bound p s : (span p s <= length s)%nat.
Proof. induction s as [|c s IH]; cbn; [lia|]. destruct (p c); lia. Qed.

Lemma bounded_run p : bounded (fun s => let n := span p s in some_if (0 <? n)%nat n).
Proof.
  intros s n [H <-]%some_if_Some. apply Nat.ltb_lt in H. pose proof (run_bound p s). lia.
Qed.

Lemma bounded_hex : bounded m_hex.
Proof.
  intros s n. rewrite m_hex_eq. destruct s as [|c [|x s]]; try done.
  destruct (c =? 48); [|done]. intros [_ <-]%some_if_Some.
  pose proof (run_bound is_hexdigit s). cbn. lia.
Qed.

Lemma bounded_longer m1 m2 : bounded m1 -> bounded m2 -> bounded (fun s => longer (m1 s) (m2 s)).
Proof.
  intros H1 H2 s n. specialize (H1 s). specialize (H2 s).
  destruct (m1 s) as [a|], (m2 s) as [b|]; cbn; intros [= <-]; auto.
  specialize (H1 _ eq_refl). specialize (H2 _ eq_refl). lia.
Qed.

Lemma bounded_after m k : bounded m -> bounded (after k m).
Proof.
  intros Hm s n. unfold after. destruct (m (drop k s)) as [a|] eqn:E; [|done].
  intros [= <-]. apply Hm in E. rewrite length_drop in E. lia.
Qed.

Lemma bounded_signed m : bounded m -> bounded (m_signed m).
Proof.
  intros Hm s n. rewrite m_signed_eq. destruct s as [|c s]; [apply Hm|].
  destruct (c =? 45); [by apply bounded_after|apply Hm].
Qed.

Lemma bounded_suffix m c : bounded m -> bounded (m_suffix m c).
Proof.
  intros Hm s n. unfold m_suffix. destruct (m s) as [a|] eqn:E; [|done]. apply Hm in E.
  case_bool_decide as Hl; [|done]. intros [= <-]. apply lookup_lt_Some in Hl. lia.
Qed.

Lemma bounded_fraction : bounded m_fraction.
Proof.
  assert (He : bounded m_exp).
  { intros s n. unfold m_exp. destruct s as [|e [|c s]]; try done.
    - by destruct (_ || _).
    - destruct (_ || _); [|done]. destruct (_ || _); by apply bounded_after, bounded_run. }
  intros s n. unfold m_fraction. destruct (m_decim s) as [k|] eqn:E; [|apply He].
  rewrite m_decim_eq in E. destruct s as [|c s]; [done|]. destruct (c =? 46); [|done].
  apply (bounded_after m_digits 1) in E; [|apply bounded_run].
  destruct (after k m_exp _) as [j|] eqn:Ej; cbn; intros [= <-]; [|done].
  apply (bounded_after m_exp k He) in Ej. cbn in *. lia.
Qed.

Lemma bounded_double : bounded m_double.
Proof.
  apply bounded_signed. intros s n. destruct (m_digits s) as [k|]; [|done].
  apply bounded_after, bounded_fraction.
Qed.

Lemma literal_bound q bad s n k : m_literal q bad s n = Some k -> (n < k <= n + length s)%nat.
Proof.
  revert n. induction s as [s IH] using (induction_ltof1 _ (@length Z)). unfold ltof in IH.
  intros n. destruct s as [|c s]; cbn; [done|].
  destruct (c =? q); [intros [= <-]; lia|]. destruct (c =? 92).
  - destruct s as [|d s]; [done|]. intros H%IH; cbn; lia.
  - destruct (_ || _); [done|]. intros H%IH; cbn; lia.
Qed.

Lemma last_on_line_bound close s n f k : (forall j, f = Some j -> (1 <= j <= n)%nat) ->
  last_on_line close s n f = Some k -> (1 <= k <= n + length s)%nat.
Proof.
  revert n f. induction s as [|c s IH]; intros n f Hf; cbn.
  - intros H. specialize (Hf k H). lia.
  - destruct (c =? 10); [intros H; specialize (Hf k H); lia|]. intros H%IH; [lia|].
    intros j. destruct (c =? close); [intros [= <-]; lia|]. intros Hj. specialize (Hf j Hj). lia.
Qed.

Lemma starts_length w s : starts w s = true -> (length w <= length s)%nat.
Proof.
  unfold starts. intros H%bool_decide_eq_true. rewrite <- H, length_take. lia.
Qed.

Lemma matches_bound b r : bounded (matches b r).
Proof.
  intros s n. destruct r; cbn [matches].
  - apply bounded_run.
  - destruct (starts _ s); [|done]. intros [H <-]%some_if_Some. apply Nat.ltb_lt in H. lia.
  - destruct (_ && _); [|done]. intros [H <-]%some_if_Some. apply Nat.ltb_lt in H. lia.
  - intros [H%starts_length <-]%some_if_Some. cbn in H. lia.
  - repeat case_match; try done. intros [_ <-]%some_if_Some. cbn. lia.
  - repeat case_match; try done. intros [_ <-]%some_if_Some. cbn. lia.
  - apply bounded_longer; apply bounded_suffix; [apply bounded_run|apply bounded_hex].
  - apply bounded_signed, bounded_longer; [apply bounded_run|apply bounded_hex].
  - apply bounded_suffix, bounded_hex.
  - apply bounded_double.
  - unfold m_quoted. destruct s as [|c s]; [done|]. destruct (_ =? _); [|done].
    intros H%literal_bound. cbn. lia.
  - unfold m_quoted. destruct s as [|c s]; [done|]. destruct (_ =? _); [|done].
    intros H%literal_bound. cbn. lia.
  - intros [H <-]%some_if_Some. apply orb_true_iff in H as [H|H]; apply starts_length in H; cbn in H; lia.
  - pose proof (field_eq b s) as E. cbn [matches] in E. rewrite E.
    destruct s as [|c s]; [done|]. destruct (c =? 36); [|done].
    apply bounded_after, bounded_run.
  - unfold m_bracket. destruct s as [|c s]; [done|]. destruct (_ =? _); [|done].
    intros H%last_on_line_bound; [cbn; lia|done].
  - unfold m_bracket. destruct s as [|c s]; [done|]. destruct (_ =? _); [|done].
    intros H%last_on_line_bound; [cbn; lia|done].
  - apply bounded_run.
Qed.

Lemma best_bound b s r n : best b s = Some (r, n) -> (1 <= n <= length s)%nat.
Proof.
  change (best b s) with (fold_left (choose b s) rules None).
  assert (H : forall acc, (forall r n, acc = Some (r, n) -> (1 <= n <= length s)%nat) ->
    forall r n, fold_left (choose b s) rules acc = Some (r, n) -> (1 <= n <= length s)%nat);
    [|by apply H].
  induction rules as [|r' rs IH]; intros acc Hacc r0 n0; [apply Hacc|]. cbn [fold_left].
  apply IH. intros r1 n1. unfold choose.
  pose proof (matches_bound b r' s) as Hb. destruct (matches b r' s) as [k|]; [|apply Hacc].
  specialize (Hb k eq_refl). destruct acc as [[r2 k2]|]; [|intros [= <- <-]; done].
  destruct (k2 <? k)%nat; [intros [= <- <-]; done|apply Hacc].
Qed.

(** ** Reading, without the fuel *)

Lemma skip_comment_length d st sl s : (length (skip_comment d st sl s) <= length s)%nat.
Proof.
  revert d st sl. induction s as [|c s IH]; intros [|d] st sl; cbn; try lia.
  etransitivity; [apply IH|]. lia.
Qed.

(** The text behind a lexeme. *)
Definition behind (r : rule) (n : nat) (s : list Z) : list Z :=
  match r with RLong => skip_comment 1 false false (drop n s) | _ => drop n s end.

Lemma behind_length r n s : (1 <= n)%nat -> s <> [] -> (length (behind r n s) < length s)%nat.
Proof.
  intros Hn Hs. assert (length (drop n s) < length s)%nat.
  { rewrite length_drop. destruct s; [done|]. cbn. lia. }
  unfold behind. destruct r; try done.
  pose proof (skip_comment_length 1 false false (drop n s)). lia.
Qed.

(** Any fuel above the length of the text gives the same answer. *)
Lemma yylex_fuel f1 f2 b s p : (length s < f1)%nat -> (length s < f2)%nat ->
  yylex f1 b s p = yylex f2 b s p.
Proof.
  revert f2 b s p. induction f1 as [|f1 IH]; intros [|f2] b s p H1 H2; try lia.
  destruct s as [|c s]; [done|]. cbn [yylex]. cbn [length] in H1, H2.
  destruct (best b (c :: s)) as [[r n]|] eqn:E; [|apply IH; lia].
  apply best_bound in E. destruct (act r _ p) as [p'|]; [|done]. cbn [rbind].
  pose proof (behind_length r n (c :: s)) as Hl. cbn [length] in Hl.
  unfold behind in Hl. apply IH; (eapply Nat.lt_le_trans; [apply Hl; [lia|done]|lia]).
Qed.

Definition lex (b : bool) (s : list Z) (p : Pel_Program) : res Pel_Program :=
  yylex (S (length s)) b s p.

Lemma lex_step b s p r n : best b s = Some (r, n) ->
  lex b s p =
    (let? p' := act r (take n s) p in
     lex (bool_decide (last (take n s) = Some 10)) (behind r n s) p').
Proof.
  intros E. pose proof (best_bound _ _ _ _ E) as Hn. unfold lex at 1.
  destruct s as [|c s]; [cbn [length] in Hn; lia|]. cbn [yylex]. rewrite E.
  destruct (act r _ p) as [p'|]; [|done]. cbn [rbind].
  pose proof (behind_length r n (c :: s)) as Hl. unfold lex, behind in *.
  apply yylex_fuel; [|lia]. apply Hl; [lia|done].
Qed.

(** *** A space *)

Lemma best_blank b c s : is_blank c = true ->
  best b (c :: s) = Some (RBlank, S (span is_blank s)).
Proof.
  intros Hc.
  apply (best_first _ _ [] _ (tail rules)); [done|cbn; by rewrite Hc|done|].
  assert (H : forall r, r <> RBlank -> matches b r (c :: s) = None).
  { intros r Hr. unfold is_blank in Hc. rewrite !orb_true_iff in Hc.
    destruct Hc as [[[Hc|Hc]|Hc]|Hc]; bools; subst c; destruct r; try done; cbn [matches];
      by rewrite starts_head, andb_false_r. }
  unfold rules. cbn [tail].
  repeat (apply Forall_cons; split; [intros k Hk; by rewrite H in Hk|]). done.
Qed.

Lemma take_run_last p s c : last (take (span p s) s) = Some c -> c ∈ s /\ p c = true.
Proof.
  intros H. apply last_Some in H as [l H].
  assert (Hall : Forall (fun c => p c = true) (take (span p s) s)).
  { clear. induction s as [|c s IH]; cbn; [done|]. destruct (p c) eqn:E; [|done].
    cbn. by constructor. }
  rewrite H in Hall. apply Forall_app in Hall as [_ Hc].
  apply Forall_cons in Hc as [Hc _]. split; [|done]. eapply (subseteq_take (span p s)). rewrite H. apply elem_of_app. right. by left.
Qed.

(** A space before text without newlines only starts the text anew. *)
Lemma lex_space b s p : 10 ∉ s -> lex b (32 :: s) p = lex false s p.
Proof.
  intros Hs. rewrite (lex_step _ _ _ _ _ (best_blank b 32 s eq_refl)). cbn [act rbind behind drop take].
  assert (Hb : bool_decide (last (32 :: take (span is_blank s) s) = Some 10) = false).
  { apply bool_decide_false. rewrite last_cons. intros H.
    destruct (last (take _ s)) as [c|] eqn:E; [|done]. injection H as ->.
    by apply take_run_last in E as [? _]. }
  rewrite Hb. destruct s as [|c s]; [done|]. cbn [span] in *. destruct (is_blank c) eqn:Ec; [|done].
  rewrite (lex_step false (c :: s) p RBlank (S (span is_blank s))); [|by apply best_blank].
  cbn [act rbind behind]. f_equal. symmetry. apply bool_decide_false. intros H.
  apply Hs. apply (take_run_last is_blank (c :: s)). cbn [span]. by rewrite Ec.
Qed.

(** *** A lexeme *)

(** [lexeme r w s]: in front of a space and [s], [w] is what rule [r] takes. *)
Definition lexeme (r : rule) (w s : list Z) : Prop :=
  r <> RLong /\ (10 ∉ w) /\ forall b, best b (w ++ 32 :: s) = Some (r, length w).

Lemma lex_lexeme r w s b p p' : lexeme r w s -> act r w p = Ok p' -> 10 ∉ s ->
  lex b (w ++ 32 :: s) p = lex false s p'.
Proof.
  intros (Hr & Hw & Hb) Ha Hs. rewrite (lex_step _ _ _ _ _ (Hb b)), take_app_length.
  rewrite Ha. cbn [rbind]. replace (behind r _ _) with (32 :: s).
  2:{ unfold behind. rewrite drop_app_length. by destruct r. }
  rewrite bool_decide_false; [by apply lex_space|]. intros H. apply Hw.
  by apply last_Some_elem_of.
Qed.

Lemma lexeme_word r w s : is_word w = true -> no_vector w (32 :: s) -> r <> RLong ->
  best false w = Some (r, length w) -> lexeme r w s.
Proof.
  intros Hw Hv Hr Hb. split; [done|]. split; [|intros b; by rewrite best_word].
  intros H. pose proof (is_word_nosp w Hw) as Hn. rewrite Forall_forall in Hn.
  by specialize (Hn 10 H).
Qed.

(** ** Numbers, fields, identifiers and strings *)

(** Text that is neither blank nor a comment, directive or literal. *)
Lemma plain_start b c s : is_word (c :: s) = true ->
  Forall (fun r => matches b r (c :: s) = None)
    [RBlank; RComment; RDirective; RLong; REscaped; RChar; RString; RQuoted; RMatrix].
Proof.
  intros Hw. destruct (is_word_inv c s Hw) as (Hc & _ & S1 & S2).
  destruct (word_start_inv c Hc) as (Hb & C1 & C2 & C3 & C4 & C5).
  destruct (char_rules b c s) as [E1 E2]; [done|].
  repeat (apply Forall_cons; split); try done; cbn [matches].
  - cbn [span]. by rewrite Hb.
  - by rewrite S1.
  - by rewrite starts_head, andb_false_r by lia.
  - by rewrite S2.
  - unfold m_quoted. by replace (c =? 34) with false by lia.
  - unfold m_quoted. by replace (c =? 39) with false by lia.
  - unfold m_bracket. by replace (c =? 123) with false by lia.
Qed.

Lemma run_all p s : forallb p s = true -> span p s = length s.
Proof. induction s as [|c s IH]; cbn; [done|]. intros H. bools. rewrite H, IH; done. Qed.

Lemma run_app p u v : forallb p u = true -> span p (u ++ v) = (length u + span p v)%nat.
Proof. induction u as [|c u IH]; cbn; [done|]. intros H. bools. rewrite H, IH; done. Qed.

(** The digits of a decimal number. *)
Definition all_digits (ds : list Z) : bool := (0 <? length ds)%nat && forallb is_digit ds.

Lemma digits_match ds : all_digits ds = true ->
  m_digits ds = Some (length ds) /\ m_hex ds = None.
Proof.
  unfold all_digits. intros H. bools. unfold m_digits. rewrite run_all by done.
  rewrite H. split; [done|]. rewrite m_hex_eq. destruct ds as [|c [|x ds]]; try done.
  destruct (c =? 48); [|done]. cbn in H0. bools. unfold is_digit in H1.
  replace ((x =? 120) || (x =? 88)) with false by lia. done.
Qed.

Lemma digit_word_start c : is_digit c = true -> word_start c = true /\ c <> 47 /\ c <> 60.
Proof. unfold is_digit, word_start, isspace. lia. Qed.

Lemma digits_nosp ds : forallb is_digit ds = true -> Forall nosp ds.
Proof.
  intros H. apply Forall_forall. intros c Hc. rewrite forallb_forall in H.
  specialize (H c (proj1 (list_elem_of_In _ _) Hc)). unfold is_digit, nosp, isspace in *. lia.
Qed.

(** The rules in front of and behind a rule. *)
Fixpoint before (r : rule) (rs : list rule) : list rule :=
  match rs with
  | r' :: rs' => if bool_decide (r' = r) then [] else r' :: before r rs'
  | [] => []
  end.

(** The rule that takes a whole word: no rule before it does. *)
Lemma word_lexeme r w s : is_word w = true -> no_vector w (32 :: s) -> r <> RLong ->
  matches false r w = Some (length w) ->
  Forall (fun r' => matches false r' w <> Some (length w)) (before r rules) ->
  lexeme r w s.
Proof.
  intros Hw Hv Hr Hm Hb. apply lexeme_word; [done..|].
  assert (rules = before r rules ++ r :: drop (S (length (before r rules))) rules) as E
    by (by destruct r).
  eapply best_first; [exact E|done| |].
  - eapply Forall_impl; [exact Hb|]. cbn. intros r' H k Hk.
    pose proof (matches_bound false r' w k Hk). destruct (decide (k = length w)); [congruence|lia].
  - apply Forall_forall. intros r' _ k Hk. by apply (matches_bound false r' w k).
Qed.

Lemma int_lexeme sg ds s : sg = [] \/ sg = [45] -> all_digits ds = true ->
  lexeme RInt (sg ++ ds) s.
Proof.
  intros Hs Hd. destruct (digits_match ds Hd) as [D X]. unfold all_digits in Hd. bools.
  pose proof (digits_nosp ds H0) as Hn. destruct ds as [|c ds]; [done|].
  pose proof H0 as Hc. cbn [forallb] in Hc. bools.
  destruct (digit_word_start c) as (W1 & W2 & W3); [done|].
  assert (Hw : is_word (sg ++ c :: ds) = true).
  { destruct Hs as [->| ->]; cbn [app]; apply is_word_intro; try done.
    by apply Forall_cons in Hn as [_ ?]. }
  apply word_lexeme; [done| |done| |].
  - left. destruct Hs as [->| ->]; cbn; congruence.
  - cbn [matches]. rewrite m_signed_eq. destruct Hs as [->| ->]; cbn [app].
    + unfold is_digit in H1. replace (c =? 45) with false by lia.
      unfold m_number. by rewrite D, X.
    + unfold after. cbn [drop]. unfold m_number. by rewrite D, X.
  - assert (Hu : matches false RUnsigned (sg ++ c :: ds) = None).
    { cbn [matches]. destruct Hs as [->| ->]; cbn [app].
      - unfold m_suffix. rewrite D, X. rewrite lookup_ge_None_2 by done.
        by rewrite bool_decide_false.
      - done. }
    destruct (sg ++ c :: ds) as [|a w] eqn:E; [done|].
    pose proof (plain_start false a w Hw) as Hp.
    repeat (apply Forall_cons in Hp as [? Hp]). cbn [before rules].
    repeat (apply Forall_cons; split; [congruence|]). done.
Qed.

Lemma field_lexeme ds s : all_digits ds = true -> lexeme RField (36 :: ds) s.
Proof.
  intros Hd. destruct (digits_match ds Hd) as [D X]. unfold all_digits in Hd. bools.
  pose proof (digits_nosp ds H0) as Hn.
  assert (Hw : is_word (36 :: ds) = true) by (by apply is_word_intro).
  apply word_lexeme; [done|by left|done| |].
  - cbn [matches]. unfold after. cbn [drop]. by rewrite drop_0, D.
  - pose proof (plain_start false 36 ds Hw) as Hp.
    repeat (apply Forall_cons in Hp as [? Hp]). cbn [before rules].
    repeat (apply Forall_cons; split; [congruence || done|]). done.
Qed.

Lemma id_lexeme hs s : hs <> [] -> forallb is_hexdigit hs = true ->
  lexeme RId (48 :: 120 :: hs ++ [73]) s.
Proof.
  intros Hne Hh. assert (Hn : Forall nosp hs).
  { apply Forall_forall. intros c Hc. rewrite forallb_forall in Hh.
    specialize (Hh c (proj1 (list_elem_of_In _ _) Hc)).
    unfold is_hexdigit, is_digit, nosp, isspace in *. lia. }
  set (w := 48 :: 120 :: hs ++ [73]).
  assert (Hw : is_word w = true).
  { apply is_word_intro; [done..|]. apply Forall_cons. split; [done|].
    apply Forall_app. split; [done|]. by repeat constructor. }
  assert (X : m_hex w = Some (2 + length hs)%nat).
  { unfold w. rewrite m_hex_eq. cbn [Z.eqb Pos.eqb]. rewrite run_app by done. cbn [span].
    change (is_hexdigit 73) with false. cbn match. rewrite Nat.add_0_r.
    destruct hs; [done|]. done. }
  assert (D : m_digits w = Some 1%nat) by done.
  assert (L : length w = (3 + length hs)%nat) by (unfold w; cbn; rewrite length_app; cbn; lia).
  assert (I : w !! (2 + length hs)%nat = Some 73) by (cbn; by apply list_lookup_middle).
  apply word_lexeme; [done|by left|done| |].
  - cbn [matches]. unfold m_suffix. rewrite X, I, L. by rewrite bool_decide_true.
  - pose proof (plain_start false 48 (120 :: hs ++ [73]) Hw) as Hp. fold w in Hp.
    repeat (apply Forall_cons in Hp as [? Hp]). cbn [before rules].
    repeat (apply Forall_cons; split); try congruence; [| |done].
    + cbn [matches]. unfold m_suffix. rewrite D, X, I.
      rewrite !bool_decide_false by done. done.
    + cbn [matches]. rewrite m_signed_eq. unfold w at 1. change (48 =? 45) with false. cbn match.
      unfold m_number. rewrite D, X, L. cbn [longer]. intros [= E]. lia.
Qed.

(** Characters a string literal holds as they are. *)
Definition literal_char (c : Z) : bool := negb ((c =? 34) || (c =? 92) || (c =? 10)).

Lemma literal_match body s n : forallb literal_char body = true ->
  m_literal 34 (fun _ => false) (body ++ 34 :: s) n = Some (n + length body + 1)%nat.
Proof.
  revert n. induction body as [|c body IH]; intros n H; cbn [app m_literal].
  - cbn. f_equal. lia.
  - cbn [forallb] in H. bools. unfold literal_char in H.
    replace (c =? 34) with false by lia. replace (c =? 92) with false by lia.
    replace (c =? 10) with false by lia. cbn match. rewrite IH by done. cbn. f_equal. lia.
Qed.

Lemma string_lexeme body s : forallb literal_char body = true ->
  lexeme RString (34 :: body ++ [34]) s.
Proof.
  intros Hb. set (w := 34 :: body ++ [34]).
  assert (L : length w = (2 + length body)%nat) by (unfold w; cbn; rewrite length_app; cbn; lia).
  split; [done|]. split.
  { unfold w. intros [?|H]%elem_of_cons; [done|]. apply elem_of_app in H as [H|H].
    - rewrite forallb_forall in Hb. specialize (Hb _ (proj1 (list_elem_of_In _ _) H)). done.
    - by apply list_elem_of_singleton in H. }
  intros b. eapply (best_first b _ (before RString rules) RString (drop 11 rules)); [done| | |].
  - unfold w. cbn [matches app]. unfold m_quoted. cbn [Z.eqb Pos.eqb].
    rewrite <- app_assoc. cbn [app]. rewrite literal_match by done. f_equal.
    cbn. rewrite length_app. cbn. lia.
  - unfold w. cbn [before rules app].
    repeat (apply Forall_cons; split; [intros k Hk; exfalso; revert Hk; cbn [matches];
      rewrite ?starts_head, ?andb_false_r by done; done|]). done.
  - rewrite L. cbn [rules drop].
    repeat (apply Forall_cons; split; [intros k; unfold w; cbn [app]; try done|]); [|done].
    cbn [matches]. intros [_ <-]%some_if_Some.
    destruct (run_frame (fun c => negb (isspace c)) w s) as [E1 E2]; [done|].
    unfold w in *. cbn [app] in E1. rewrite E1. lia.
Qed.

(** ** Programs *)

(** An instruction as it is written: a constant, a field of the operand, an
    entry of the opcode table. *)
Inductive instr := IConst (v : value) | IField (k : Z) | IOp (i : nat).

Definition emit (i : instr) (p : Pel_Program) : Pel_Program :=
  match i with
  | IConst v => add_const v p
  | IField k => add_tuple_load k p
  | IOp i => add_opcode (Z.of_nat i) p
  end.
Definition emit_all (is_ : list instr) (p : Pel_Program) : Pel_Program :=
  fold_left (fun p i => emit i p) is_ p.
Definition load (is_ : list instr) : Pel_Program := emit_all is_ (mkProgram [] []).

Definition mnemonic (i : nat) : string :=
  match jump_table !! i with Some (w, _, _) => w | None => "" end.

(** The operations with a mnemonic. *)
Definition named_op (i : nat) : bool := (i <? length jump_table)%nat && negb (i =? 3)%nat && negb (i =? 4)%nat.

(** What the text shows as it is. *)
Definition plain_text (s : string) : bool :=
  forallb (fun c => literal_char c && negb (c =? 0)) (string_bytes s).

(** The instructions whose text is read back. *)
Definition readable (i : instr) : Prop :=
  match i with
  | IConst (VInt64 z) => is_i64 z
  | IConst (VID d) => wf_id d
  | IConst (VStr s) => plain_text s = true
  | IConst VNull => True
  | IConst _ => False
  | IField k => 0 <= k < 65536
  | IOp i => named_op i = true
  end.

Lemma string_app_assoc (s t u : string) : (s +:+ t) +:+ u = s +:+ (t +:+ u).
Proof. induction s as [|c s IH]; [done|]. exact (f_equal (String c) IH). Qed.

Section text.
Context `{P : Platform}.

Definition show (i : instr) : string :=
  match i with
  | IConst (VStr s) => quoted s
  | IConst v => toString v
  | IField k => "$" +:+ dec_string k
  | IOp i => mnemonic i
  end.

Definition program_text (is_ : list instr) : string :=
  fold_right (fun i s => show i +:+ " " +:+ s) "" is_.

Definition has_char (c : Z) (s : string) : bool := bool_decide (c ∈ string_bytes s).
Definition opens_vector (i : instr) : bool := bool_decide (head (string_bytes (show i)) = Some 60).

(** No [>] behind a lexeme that starts with [<]. *)
Fixpoint vector_free (is_ : list instr) : bool :=
  match is_ with
  | [] => true
  | i :: is' =>
      (negb (opens_vector i) || forallb (fun j => negb (has_char 62 (show j))) (i :: is')) &&
      vector_free is'
  end.

Definition clean (s : string) : Prop := Forall (fun c => c <> 0 /\ c <> 10) (string_bytes s).

(** The table: every mnemonic is one word, the first with its name. *)
Definition op_readable (i : nat) : bool :=
  let w := string_bytes (mnemonic i) in
  is_word w && bool_decide (best false w = Some (RWord, length w)) &&
  bool_decide (token_code (text_of w) jump_table 0 = Some (Z.of_nat i)) &&
  forallb (fun c => negb (c =? 0)) w.

Lemma ops_readable i : named_op i = true -> op_readable i = true.
Proof.
  assert (H : forallb (fun i => negb (named_op i) || op_readable i) (seq 0 (length jump_table)) = true)
    by (vm_compute; reflexivity).
  intros Hi. rewrite forallb_forall in H. specialize (H i). rewrite Hi in H. apply H.
  apply in_seq. unfold named_op in Hi. rewrite !andb_true_iff in Hi.
  destruct Hi as [[Hi%Nat.ltb_lt _] _]. lia.
Qed.

Lemma text_of_bytes s : text_of (string_bytes s) = s.
Proof.
  unfold text_of. induction s as [|c s IH]; [done|]. rewrite string_bytes_cons. cbn [map string_of_list_ascii].
  rewrite IH. f_equal. unfold char_of. by rewrite N2Z.id, ascii_N_embedding.
Qed.

Lemma unescape_plain fuel c body : forallb literal_char body = true -> (length body < fuel)%nat ->
  unescape fuel c (body ++ [34]) = body.
Proof.
  revert fuel c. induction body as [|a body IH]; intros [|fuel] c Hb Hf; try done; [cbn in Hf; lia|].
  cbn [forallb] in Hb. bools. cbn [length] in Hf.
  assert (Ha : (a =? 92) = false) by (unfold literal_char in H; lia).
  destruct (body ++ [34]) as [|b l] eqn:E; [by destruct body|].
  cbn [app]. rewrite E. cbn [unescape]. rewrite Ha. f_equal. apply IH; [done|lia].
Qed.

Lemma quoted_bytes s : string_bytes (quoted s) = 34 :: string_bytes s ++ [34].
Proof. unfold quoted. rewrite string_bytes_cons, string_bytes_app. done. Qed.

Lemma words_bytes_hex ws : forallb is_hexdigit (concat (map (hexl 8) ws)) = true.
Proof.
  induction ws as [|w ws IH]; [done|]. cbn [map concat]. rewrite forallb_app, IH, andb_true_r.
  apply forallb_forall. intros x Hx%list_elem_of_In. pose proof (hexl_hexd 8 w) as H.
  rewrite Forall_forall in H. specialize (H x Hx). unfold hexd, is_hexdigit, is_digit in *. lia.
Qed.

Lemma digits_all c ds : Forall (fun c => 48 <= c <= 57) (c :: ds) -> all_digits (c :: ds) = true.
Proof.
  intros H. unfold all_digits. cbn [length]. apply andb_true_iff. split; [done|].
  apply forallb_forall. intros x Hx%list_elem_of_In. rewrite Forall_forall in H.
  specialize (H x Hx). unfold is_digit. lia.
Qed.

(** [reads i s]: in front of a space and [s], the lexer reads [i]. *)
Definition reads (i : instr) (s : list Z) : Prop :=
  exists r, lexeme r (string_bytes (show i)) s /\
    forall p, act r (string_bytes (show i)) p = Ok (emit i p).

Lemma reads_int z s : is_i64 z -> reads (IConst (VInt64 z)) s.
Proof.
  intros Hz. exists RInt. cbn [show toString emit act]. rewrite strtoll_dec by done. split; [|done].
  destruct (dec_string_text z) as (sg & c & ds & -> & Hs & Hd).
  apply int_lexeme; [done|by apply digits_all].
Qed.

Lemma reads_field k s : 0 <= k < 65536 -> reads (IField k) s.
Proof.
  intros Hk. exists RField. cbn [show emit act]. rewrite string_bytes_app.
  change (string_bytes "$") with [36]. cbn [app drop].
  rewrite drop_0, strtoll_dec by (unfold is_i64; lia). split.
  - destruct (dec_string_text k) as (sg & c & ds & E & Hs & Hd).
    assert (sg = []) as ->; [|rewrite E; by apply field_lexeme, digits_all].
    destruct Hs as [->| ->]; [done|]. unfold dec_string in E.
    replace (k <? 0) with false in E by lia.
    destruct (dec_nonneg_text k) as (c' & s' & E' & Hc & _); [lia|].
    rewrite E' in E. cbn in E. simplify_eq. lia.
  - intros p. unfold to_i32. rewrite Z.mod_small by lia. do 2 f_equal. lia.
Qed.

Lemma reads_id d s : wf_id d -> reads (IConst (VID d)) s.
Proof.
  intros Hd. exists RId. cbn [show toString emit act]. unfold ID_toString.
  rewrite !string_bytes_app. change (string_bytes "0x") with [48; 120].
  change (string_bytes "I") with [73]. cbn [app drop]. split.
  - rewrite words_string_bytes. apply id_lexeme; [|apply words_bytes_hex].
    intros E. pose proof (length_words_bytes (words d)) as L. rewrite E in L.
    destruct Hd as [Hl _]. rewrite Hl in L. done.
  - intros p. rewrite drop_0, removelast_last, text_of_bytes. by rewrite id_read.
Qed.

Lemma reads_str t s : plain_text t = true -> reads (IConst (VStr t)) s.
Proof.
  intros Ht. assert (Hl : forallb literal_char (string_bytes t) = true).
  { apply forallb_forall. intros x Hx. unfold plain_text in Ht. rewrite forallb_forall in Ht.
    specialize (Ht x Hx). by bools. }
  exists RString. cbn [show emit act]. rewrite quoted_bytes. split; [by apply string_lexeme|].
  intros p. unfold literal. cbn [drop]. rewrite drop_0, unescape_plain; [by rewrite text_of_bytes|done|].
  cbn. rewrite length_app. cbn. lia.
Qed.

Lemma reads_op i s : named_op i = true -> no_vector (string_bytes (mnemonic i)) (32 :: s) ->
  reads (IOp i) s.
Proof.
  intros Hi Hv. apply ops_readable in Hi. unfold op_readable in Hi. bools.
  exists RWord. cbn [show emit act]. split.
  - apply lexeme_word; [done..|]. by apply bool_decide_eq_true in H2.
  - intros p. apply bool_decide_eq_true in H1. by rewrite H1.
Qed.

Lemma reads_readable i s : readable i ->
  (opens_vector i = true -> 62 ∉ string_bytes (show i) ++ 32 :: s) -> reads i s.
Proof.
  intros Hi Hv. destruct i as [v|k|i]; [|by apply reads_field|].
  - destruct v; try done; [|by apply reads_str|by apply reads_int|by apply reads_id].
    exists RNull. split; [|done]. apply lexeme_word; [done|by left|done|by vm_compute].
  - apply reads_op; [done|]. unfold no_vector. unfold opens_vector in Hv.
    case_bool_decide as E; [right; by apply Hv|by left].
Qed.

(** The text of a readable instruction has no null character and no newline. *)
Lemma show_clean i : readable i -> clean (show i).
Proof.
  assert (Hn : forall w, Forall nosp w -> forallb (fun c => negb (c =? 0)) w = true ->
    Forall (fun c => c <> 0 /\ c <> 10) w).
  { intros w H1 H2. apply Forall_forall. intros c Hc. rewrite Forall_forall in H1.
    rewrite forallb_forall in H2. specialize (H1 c Hc).
    specialize (H2 c (proj1 (list_elem_of_In _ _) Hc)). unfold nosp, isspace in H1. lia. }
  assert (Hd : forall z, clean (dec_string z)).
  { intros z. unfold clean. destruct (dec_string_text z) as (sg & c & ds & -> & Hs & Hd).
    apply Forall_app. split; [destruct Hs as [->| ->]; vm_decide|].
    eapply Forall_impl; [exact Hd|]. cbn. lia. }
  unfold clean. destruct i as [v|k|i]; cbn [readable show].
  - destruct v; try done; cbn [toString]; intros H.
    + vm_decide.
    + rewrite quoted_bytes. repeat (apply Forall_cons; split; [lia|]).
      apply Forall_app. split; [|vm_decide]. apply Forall_forall.
      unfold plain_text in H. rewrite forallb_forall in H. intros c Hc.
      specialize (H c (proj1 (list_elem_of_In _ _) Hc)). unfold literal_char in H. lia.
    + apply Hd.
    + unfold ID_toString. rewrite !string_bytes_app, words_string_bytes.
      apply Forall_app. split; [vm_decide|]. apply Forall_app. split; [|vm_decide].
      apply Forall_forall. intros c Hc. pose proof (words_bytes_hex (words i)) as Hx.
      rewrite forallb_forall in Hx. specialize (Hx c (proj1 (list_elem_of_In _ _) Hc)).
      unfold is_hexdigit, is_digit in Hx. lia.
  - intros _. rewrite string_bytes_app. apply Forall_app. split; [vm_decide|apply Hd].
  - intros H. apply ops_readable in H. unfold op_readable in H. bools.
    apply Hn; [by apply is_word_nosp|done].
Qed.

Lemma program_text_bytes i is_ :
  string_bytes (program_text (i :: is_)) =
    string_bytes (show i) ++ 32 :: string_bytes (program_text is_).
Proof. unfold program_text. cbn [fold_right]. by rewrite !string_bytes_app. Qed.

Lemma program_text_clean is_ : Forall readable is_ -> clean (program_text is_).
Proof.
  unfold clean. induction 1 as [|i is_ Hi _ IH]; [by constructor|]. rewrite program_text_bytes.
  apply Forall_app. split; [by apply show_clean|]. apply Forall_cons. split; [lia|done].
Qed.

Lemma program_text_char c is_ : c <> 32 -> forallb (fun j => negb (has_char c (show j))) is_ = true ->
  c ∉ string_bytes (program_text is_).
Proof.
  intros Hc. induction is_ as [|i is_ IH]; intros H; [by apply not_elem_of_nil|].
  cbn [forallb] in H. bools. rewrite program_text_bytes. rewrite elem_of_app, elem_of_cons.
  unfold has_char in H. apply bool_decide_eq_false in H.
  intros [?|[?|?]]; [done|done|by apply IH].
Qed.

Lemma lex_program b is_ p : Forall readable is_ -> vector_free is_ = true ->
  lex b (string_bytes (program_text is_)) p = Ok (emit_all is_ p).
Proof.
  intros Hr. revert b p. induction Hr as [|i is_ Hi Hr IH]; intros b p Hv; [done|].
  cbn [vector_free] in Hv. bools. rewrite program_text_bytes.
  assert (Hn : 10 ∉ string_bytes (program_text is_)).
  { intros H10. pose proof (program_text_clean is_ Hr) as Hc. unfold clean in Hc.
    rewrite Forall_forall in Hc. by destruct (Hc 10 H10). }
  destruct (reads_readable i (string_bytes (program_text is_)) Hi) as (r & Hl & Ha).
  { intros Ho. rewrite Ho in H. cbn [negb orb] in H.
    pose proof (program_text_char 62 (i :: is_)) as Hc. rewrite program_text_bytes in Hc.
    by apply Hc. }
  rewrite (lex_lexeme r _ _ b p (emit i p)) by done. by apply IH.
Qed.

Lemma compile_program_text is_ : Forall readable is_ -> vector_free is_ = true ->
  compile (program_text is_) = Ok (load is_).
Proof.
  intros Hr Hv. unfold compile, compile_text. rewrite c_string_id.
  - by apply lex_program.
  - apply forallb_forall. intros c Hc%list_elem_of_In.
    pose proof (program_text_clean is_ Hr) as Hcl. unfold clean in Hcl.
    rewrite Forall_forall in Hcl. specialize (Hcl c Hc). lia.
Qed.

(** *** The words and constants of a program *)

Definition word_of (n : Z) (code : Z) : Z := Z.lor (Z.shiftl (Z.land n 65535) 16) code.

Lemma word_of_parts n code : 0 <= n < 65536 -> 0 <= code < 65536 ->
  Z.shiftr (word_of n code) 16 = n /\ Z.land (word_of n code) 65535 = code.
Proof.
  intros Hn Hc. unfold word_of. change 65535 with (Z.ones 16).
  rewrite (Z.land_ones n), (Z.mod_small n) by lia. split.
  - rewrite Z.shiftr_lor, Z.shiftr_shiftl_l, Z.sub_diag, Z.shiftl_0_r by lia.
    rewrite (Z.shiftr_div_pow2 code), Z.div_small by lia. by rewrite Z.lor_0_r.
  - rewrite Z.land_lor_distr_l, !Z.land_ones, Z.shiftl_mul_pow2 by lia.
    rewrite Z.mod_mul, Z.lor_0_l, Z.mod_small by lia. done.
Qed.

Definition constants (is_ : list instr) : list value :=
  omap (fun i => match i with IConst v => Some v | _ => None end) is_.

(** The word of an instruction in a program with [n] constants so far. *)
Definition code_of (n : nat) (i : instr) : Z :=
  match i with
  | IConst _ => word_of (Z.of_nat n) OP_PUSH_CONST
  | IField k => word_of k OP_PUSH_FIELD
  | IOp i => Z.land (Z.of_nat i) 65535
  end.

Fixpoint codes (n : nat) (is_ : list instr) : list Z :=
  match is_ with
  | [] => []
  | i :: is' => code_of n i :: codes (n + length (constants [i])) is'
  end.

Lemma constants_cons i is_ : constants (i :: is_) = constants [i] ++ constants is_.
Proof. by destruct i. Qed.

Lemma emit_all_eq is_ p :
  emit_all is_ p = mkProgram (ops p ++ codes (length (const_pool p)) is_)
                     (const_pool p ++ constants is_).
Proof.
  unfold emit_all. revert p. induction is_ as [|i is_ IH]; intros p; cbn [fold_left].
  { destruct p. cbn. by rewrite !app_nil_r. }
  rewrite IH. cbn [codes]. rewrite (constants_cons i is_).
  destruct i; cbn; rewrite <- ?app_assoc, ?length_app, ?Nat.add_0_r; done.
Qed.

Lemma load_eq is_ : load is_ = mkProgram (codes 0 is_) (constants is_).
Proof. unfold load. by rewrite emit_all_eq. Qed.

Lemma named_op_bound i : named_op i = true -> (i < length jump_table)%nat /\ i <> 3%nat /\ i <> 4%nat.
Proof.
  unfold named_op. rewrite !andb_true_iff, !negb_true_iff, Nat.ltb_lt, !Nat.eqb_neq. tauto.
Qed.

Lemma op_word i : named_op i = true -> Z.land (Z.of_nat i) 65535 = Z.of_nat i.
Proof.
  intros Hi%named_op_bound. assert (length jump_table < 1000)%nat by (apply Nat.ltb_lt; reflexivity).
  change 65535 with (Z.ones 16). rewrite Z.land_ones, Z.mod_small by lia. done.
Qed.

Lemma decompile_instr i n pool ws : readable i ->
  (forall v, i = IConst v -> pool !! n = Some v /\ Z.of_nat n < 65536) ->
  decompile_op (mkProgram ws pool) (code_of n i) = show i +:+ " ".
Proof.
  intros Hr Hp. unfold decompile_op. destruct i as [v|k|i]; cbn [code_of].
  - destruct (Hp v eq_refl) as [Hv Hn]. destruct (word_of_parts (Z.of_nat n) OP_PUSH_CONST) as [-> ->]; [lia|done|].
    cbn [Z.eqb Pos.eqb OP_PUSH_CONST OP_PUSH_FIELD const_pool].
    rewrite Nat2Z.id, Hv. by destruct v.
  - destruct (word_of_parts k OP_PUSH_FIELD) as [-> ->]; done.
  - rewrite op_word by done. apply named_op_bound in Hr as (H1 & H2 & H3).
    assert (Z.land (Z.of_nat i) 65535 = Z.of_nat i) as ->.
    { apply op_word. unfold named_op. apply Nat.ltb_lt in H1. apply Nat.eqb_neq in H2, H3.
      by rewrite H1, H2, H3. }
    unfold OP_PUSH_FIELD, OP_PUSH_CONST. replace (Z.of_nat i =? 4) with false by lia.
    replace (Z.of_nat i =? 3) with false by lia. rewrite Nat2Z.id. cbn [show]. unfold mnemonic.
    destruct (lookup_lt_is_Some_2 jump_table i H1) as [[[w a] o] ->]. done.
Qed.

Lemma decompile_load is_ : Forall readable is_ -> Z.of_nat (length (constants is_)) <= 65536 ->
  decompile (load is_) = program_text is_.
Proof.
  rewrite load_eq. unfold decompile. cbn [ops]. intros Hr Hl. generalize (codes 0 is_) at 1. intros ws.
  assert (H : forall pre, Z.of_nat (length (pre ++ constants is_)) <= 65536 ->
    fold_right (fun op s => decompile_op (mkProgram ws (pre ++ constants is_)) op +:+ s) ""
      (codes (length pre) is_) = program_text is_); [|by apply (H [])].
  clear Hl. induction Hr as [|i is_ Hi Hr IH]; intros pre Hl; [done|].
  cbn [codes fold_right program_text]. rewrite constants_cons in Hl |- *.
  rewrite app_assoc in Hl |- *. specialize (IH _ Hl). rewrite length_app in IH. rewrite IH.
  rewrite decompile_instr; [by rewrite string_app_assoc|done|].
  intros v ->. rewrite <- app_assoc, !length_app in *. cbn in Hl |- *.
  rewrite list_lookup_middle by done. split; [done|lia].
Qed.

(** C34: A program of integers, identifiers, plain strings, NULL, field
    references and named operations, with at most 65536 constants, survives
    decompilation: compiling what [decompile] prints gives the program back, word
    for word, unless the text has a [>] behind a [<], where the lexer reads a
    vector. *)
Theorem decompile_roundtrip (is_ : list instr) :
  Forall readable is_ -> vector_free is_ = true ->
  Z.of_nat (length (constants is_)) <= 65536 ->
  compile (decompile (load is_)) = Ok (load is_).
Proof. intros Hr Hv Hl. rewrite decompile_load by done. by apply compile_program_text. Qed.

(** The rule for vectors takes comparisons for one: in [$1 $2 < $3 $4 > and]
    the text from [<] to [>] becomes a constant, and of the two comparisons
    nothing is left. *)
Theorem comparisons_read_as_vector :
  compile "$1 $2 < $3 $4 > and" =
    Ok (load [IField 1; IField 2; IConst (VVector [VInt64 0]); IOp 43]).
Proof. vm_compute. reflexivity. Qed.
End text.

Lemma decompile_roundtrip_witness :
  let is_ := [IField 1; IConst (VInt64 (-5)); IOp 43; IConst (VStr "a b"); IConst VNull] in
  compile (decompile (P := bare_platform) (load is_)) = Ok (load is_).
Proof.
  apply (decompile_roundtrip (P := bare_platform)).
  - repeat (apply Forall_cons; split; [first [reflexivity|exact I|unfold readable, is_i64; lia]|]). constructor.
  - vm_compute. reflexivity.
  - cbn. lia.
Defined.
