(* ===== verification/PelGen.v ===== *)
(** * Compiling expressions to PEL (src/p2core/compileUtil.C, namespace pel)

    [gen] writes the PEL text of an expression for a schema: operands first,
    the operator last.  It is composed here with the lexer (PelLexer.v) and the
    machine (Pel.v): running the compiled text of an expression on a tuple of
    the schema answers what the operators give on the tuple's fields.

    [assign] appends to the schema it is given, which [gen] therefore answers
    too.  The functions of the catalog are those systemTable.h declares. *)

From Stdlib Require Import SpecFloat Ascii String.
From S2P Require Import Prelude Ids Stl Values Tuples Aggs Xdr Casts Oper Names Pel PelLexer PelSafe.

Local Open Scope p2_scope.

(** The table [sys::function]: name, number of arguments, PEL operation. *)
Definition functions : list (string * Z * string) := [
  ("f_coinFlip", 1, "coin"); ("f_ifelse", 3, "ifelse"); ("f_rand", 0, "rand");
  ("f_drand", 0, "drand48"); ("f_now", 0, "now"); ("f_sha1", 1, "sha1");
  ("f_match", 2, "match"); ("f_append", 1, "lappend"); ("f_append", 2, "lappend");
  ("f_member", 2, "member"); ("f_concat", 2, "concat"); ("f_intersect", 2, "intersect");
  ("f_msintersect", 2, "msintersect"); ("f_initlist", 0, "initlist");
  ("f_cons", 2, "cons"); ("f_car", 1, "car"); ("f_cdr", 1, "cdr");
  ("f_contains", 2, "contains"); ("f_posattr", 2, "posattr");
  ("f_removeLast", 1, "removeLast"); ("f_last", 1, "last"); ("f_size", 1, "size");
  ("f_equivalent", 2, "equivalent"); ("f_group", 1, "group"); ("f_offset", 2, "offset");
  ("f_offset", 3, "offset"); ("f_setOffset", 3, "setoffset");
  ("f_setOffset", 4, "setoffset"); ("f_compare", 2, "compare"); ("f_max", 2, "max");
  ("f_min", 2, "min"); ("f_getattr", 2, "getattr"); ("f_mktype", 2, "mktype");
  ("f_mkbool", 3, "mkbool"); ("f_mkmath", 3, "mkmath"); ("f_mkagg", 2, "mkagg");
  ("f_posattr", 2, "posattr"); ("f_aggattr", 1, "aggattr");
  ("f_groupbyattr", 1, "groupbyattr"); ("f_flatten", 1, "flatten");
  ("f_merge", 2, "merge"); ("f_removevar", 2, "removevar");
  ("f_removepos", 2, "removepos"); ("f_sortattr", 4, "sortattr");
  ("f_prefix", 2, "prefix"); ("f_adornment", 2, "adornment"); ("f_project", 2, "project");
  ("f_fact", 2, "fact"); ("f_assignschema", 2, "assignschema"); ("f_idgen", 0, "idgen");
  ("f_tostr", 1, "tostr"); ("f_strReplace", 3, "strreplace"); ("f_strfind", 2, "strfind");
  ("f_tovar", 1, "tovar"); ("f_uniqueSchema", 1, "uniqueSchema");
  ("f_istheta", 1, "istheta"); ("f_subset", 2, "subset"); ("f_status", 2, "status");
  ("f_selectivity", 2, "selectivity"); ("f_rangeAM", 2, "rangeAM");
  ("f_filter", 2, "filter"); ("f_verify", 6, "verify"); ("f_gen", 3, "gen");
  ("f_mod", 1, "mod"); ("f_empty", 0, "empty"); ("f_initSet", 1, "initSet");
  ("f_serialize", 2, "serialize"); ("f_deserialize", 2, "deserialize");
  ("f_createVersion", 0, "createVersion"); ("f_createLocSpec", 0, "createLocSpec");
  ("f_isLocSpec", 1, "isLocSpec"); ("f_getCert", 1, "getCert"); ("f_isSays", 1, "isSays");
  ("f_loadKeyFile", 1, "loadKeyFile"); ("f_initMask", 1, "initMask");
  ("f_combineMask", 2, "combineMask"); ("f_getMask", 1, "getMask"); ("f_mask", 3, "mask");
  ("f_indexMatch", 3, "indexMatch"); ("f_castassign", 3, "castassign");
  ("f_variables", 1, "variables"); ("f_createKey", 1, "createkey")].

Section pel.
Context `{P : Platform} (nodeid : value).

(** The lookup on the name and the number of arguments. *)
Fixpoint find_function (name numargs : value) (t : list (string * Z * string)) : res string :=
  match t with
  | [] => Fail CompileException
  | (f, n, pel) :: t' =>
      if (compareTo (VStr f) name =? 0) && (compareTo (VInt64 n) numargs =? 0)
      then Ok pel else find_function name numargs t'
  end.

(** A string constant is quoted for the configuration text around it. *)
Definition escaped_quote : string := String (char_of 92) (String (char_of 34) "").
Definition value_text (val : value) : string :=
  match val with
  | VStr s => escaped_quote +:+ s +:+ escaped_quote +:+ " "
  | _ => toConfString val +:+ " "
  end.

Definition field_text (pos : Z) : string := "$" +:+ dec_string (pos + 1) +:+ " ".

(** [variable]: -1 becomes the largest [unsigned]. *)
Definition variable (schema : list value) (varTp : list value) : res string :=
  let? p := position schema (VTuple varTp) in
  let pos := u32 p in
  if Z.of_nat (length schema) <=? pos then Fail CompileException else Ok (field_text pos).

(** [$k pop] for the positions [k] from [from] on. *)
Definition pop_fields (from n : nat) : string :=
  fold_right (fun k s => field_text (Z.of_nat k) +:+ "pop " +:+ s) "" (seq from n).

Definition is_null_value (v : value) : bool := match v with VNull => true | _ => false end.

Fixpoint gen (schema : list value) (e : value) : res (string * list value) :=
  match e with
  | VTuple t =>
      let? type := tname t in
      if is_kind type FUNCTION then
        match t with
        | _ :: _ :: name :: n :: rest =>
            let? f := find_function name n functions in
            let? args := Val_Int64_cast n in
            let? (s, schema) :=
              (fix go (l : list value) (k : Z) (schema : list value)
                  : res (string * list value) :=
                 if k <=? 0 then Ok ("", schema)
                 else match l with
                      | [] => Fail OutOfRange
                      | a :: l' =>
                          let? (later, schema) := go l' (k - 1) schema in
                          let? (s, schema) := gen schema a in
                          Ok (later +:+ s +:+ " ", schema)
                      end) rest (u32 args) schema in
            Ok (s +:+ f +:+ " ", schema)
        | _ => Fail OutOfRange
        end
      else if is_kind type VAL || is_kind type MAT || is_kind type VEC then
        let? val := field t 2 in Ok (value_text val, schema)
      else if is_kind type VAR then
        let? s := variable schema t in Ok (s, schema)
      else if is_kind type MATH || is_kind type RANGE then
        match t with
        | _ :: _ :: o :: l :: rest =>
            let? (sl, schema) := gen schema l in
            match rest with
            | r :: _ =>
                let? (sr, schema) := gen schema r in
                Ok (sl +:+ sr +:+ toString o +:+ " ", schema)
            | [] => Fail OutOfRange
            end
        | _ => Fail OutOfRange
        end
      else if is_kind type BOOL then
        match t with
        | _ :: _ :: o :: l :: r :: _ =>
            let oper := toString o in
            let? contains :=
              if is_kind oper "in" then
                let? kl := kind l in
                let? kr := kind r in
                Ok ((is_kind kl VAR || is_kind kl VAL) && is_kind kr VAR)
              else Ok false in
            if contains then
              let? f := find_function (VStr "f_contains") (VInt64 2) functions in
              let? (sr, schema) := gen schema r in
              let? (sl, schema) := gen schema l in
              Ok (sr +:+ " " +:+ sl +:+ " " +:+ f +:+ " ", schema)
            else
              let? (sl, schema) := gen schema l in
              let? (sr, schema) :=
                if is_null_value r then Ok ("", schema) else gen schema r in
              Ok (sl +:+ sr +:+ (if is_kind oper "in" then "" else oper +:+ " "), schema)
        | _ => Fail OutOfRange
        end
      else if is_kind type SELECT then
        match t with
        | _ :: _ :: _ :: _ :: x :: _ =>
            let? (s, schema) := gen schema x in
            Ok (s +:+ "not ifstop swallow unboxPop ", schema)
        | _ => Fail OutOfRange
        end
      else if is_kind type ASSIGN then
        match t with
        | _ :: _ :: _ :: _ :: var :: x :: _ =>
            let? p := position schema var in
            let '(varPosition, schema) :=
              if p <? 0 then (length schema, schema ++ [var]) else (Z.to_nat p, schema) in
            let? (s, schema) := gen schema x in
            Ok (pop_fields 0 varPosition +:+ s +:+ "pop " +:+
                pop_fields (S varPosition) (length schema - S varPosition), schema)
        | _ => Fail OutOfRange
        end
      else Fail CompileException
  | _ => let? _ := tuple_of e in Fail UndefinedBehaviour
  end.
End pel.
