(* ===== verification/Terms.v ===== *)
(** * Terms and rules of the parser (src/lang/parse/parseContext.h, parseContext.C)

    [Functor] with its derived class [Says], [Assign], [Select]; the
    constructors and changes the grammar asks for; [Rule] and the
    canonicalisation of its head, which names every argument by a variable of
    its own.

    The members [_locSpec], [_opaque] and [_hint] are read only when [_new] is
    set; they are [None] before.  An iterator into an argument list is the
    position it stands at; the program keeps one across an [erase] and an
    [insert] at its place, where the containers it is run with leave it on the
    same or on the preceding element (which is then a fresh variable, and met
    twice without effect). *)

From Stdlib Require Import Ascii String.
From S2P Require Import Prelude Ids Stl Values Tuples Aggs Xdr Casts Oper Names Exprs.

Local Open Scope p2_scope.

Definition NEWSUFFIX : string := "New".
Definition STAGEVARPREFIX : string := "PS_".
Definition FICTPREFIX : string := "NH".
Definition varPrefix : string := "PRW_".
Definition saysSuffix : string := "Says".

(** [Functor::SubTerms], without [NOT_FOUND]. *)
Inductive SubTerm := T_FUNCTOR | T_LOCSPEC | T_OPAQUE | T_HINT | T_SAYS.
Definition sub_index (s : SubTerm) : nat :=
  match s with T_FUNCTOR => 0 | T_LOCSPEC => 1 | T_OPAQUE => 2 | T_HINT => 3 | T_SAYS => 4 end.
Definition sub_terms : list SubTerm := [T_FUNCTOR; T_LOCSPEC; T_OPAQUE; T_HINT; T_SAYS].
#[export] Instance sub_term_eq_dec : EqDecision SubTerm.
Proof. solve_decision. Defined.

(** [f_says] is there exactly in a [Says]. *)
Record Functor := mkFunctorObj {
  f_name : string;
  f_args : list Expression;
  f_complement : bool;
  f_new : bool;
  f_locSpec : option Expression;
  f_opaque : option Expression;
  f_hint : option Expression;
  f_says : option (list Expression)
}.

Definition with_args (a : list Expression) (F : Functor) : Functor :=
  mkFunctorObj (f_name F) a (f_complement F) (f_new F) (f_locSpec F) (f_opaque F) (f_hint F) (f_says F).
Definition with_name (n : string) (F : Functor) : Functor :=
  mkFunctorObj n (f_args F) (f_complement F) (f_new F) (f_locSpec F) (f_opaque F) (f_hint F) (f_says F).

Inductive Term :=
  | TFunctor (F : Functor)
  | TAssign (variable : option Expression) (assign : Expression)
  | TSelect (select : option Expression).

Definition variable_named (name : string) : Expression := EVariable (VStr name) false false.
Definition is_location (e : Expression) : bool := match e with EVariable _ l _ => l | _ => false end.

(** The [dynamic_cast]s of the constructors of [Assign] and [Select]. *)
Definition Assign_mk (v a : Expression) : Term :=
  TAssign match v with EVariable _ _ _ => Some v | _ => None end a.
Definition Select_mk (s : Expression) : Term :=
  TSelect match s with EBool _ _ _ => Some s | _ => None end.

Section parse.
Context `{P : Platform}.

(** ** [Functor] *)

(** The constructor that checks for one location and at most one aggregate; a
    location inside an aggregate counts, but not as a second one. *)
Fixpoint check_args (locSpec aggregate : bool) (a : list Expression) : res bool :=
  match a with
  | [] => Ok locSpec
  | EVariable _ true _ :: a' => if locSpec then Fail CompileException else check_args true aggregate a'
  | EAggregation _ v :: a' =>
      let locSpec := match v with Some (_, true, _) => true | _ => locSpec end in
      if aggregate then Fail CompileException else check_args locSpec true a'
  | _ :: a' => check_args locSpec aggregate a'
  end.
Definition Functor_mk (n : Expression) (a : list Expression) (complement newF : bool) : res Functor :=
  let? name := Expression_toString n in
  let? locSpec := check_args false false a in
  if (locSpec : bool) then Ok (mkFunctorObj name a complement newF None None None None) else Fail CompileException.

(** [Says::Says(f, s)] *)
Definition Says_mk (F : Functor) (s : list Expression) : res Functor :=
  if f_complement F then Fail CompileException
  else Ok (mkFunctorObj (f_name F) (f_args F) (f_complement F) (f_new F) (f_locSpec F) (f_opaque F) (f_hint F) (Some s)).

(** [Functor::Functor(TableEntry*, fictVar)]: a table's name with fresh variables. *)
Definition Functor_of_table (name : string) (fields : nat) (fictVar : Z) : Functor * Z :=
  (mkFunctorObj name
     ((fun i => EVariable (VStr (varPrefix +:+ dec_string (fictVar + Z.of_nat i))) (i =? 0)%nat false) <$> seq 0 fields)
     false false None None None None, fictVar + Z.of_nat fields).

(** [Functor::toString], [Says::toString] *)
Definition member_text (e : option Expression) : res string :=
  let? e := of_option UndefinedBehaviour e in Expression_toString e.
Definition plain_functor_text (F : Functor) : res string :=
  let? pre :=
    if f_new F then
      let? l := member_text (f_locSpec F) in let? o := member_text (f_opaque F) in let? h := member_text (f_hint F) in
      Ok ("new< " +:+ l +:+ ", " +:+ o +:+ ", " +:+ h +:+ ", ")
    else Ok "" in
  let? args := toString_args Expression_toString (f_args F) in
  Ok (pre +:+ (if f_complement F then "!" else "") +:+ f_name F +:+ (if f_complement F then "^" else "") +:+ "( "
      +:+ args +:+ " )" +:+ (if f_new F then ">" else "")).
Definition functor_text (F : Functor) : res string :=
  let? inner := plain_functor_text F in
  match f_says F with
  | None => Ok inner
  | Some s => let? says := toString_args Expression_toString s in Ok ("says( " +:+ says +:+ " ) <" +:+ inner +:+ "> ")
  end.

(** [Functor::getLocSpec], [Functor::changeLocSpec] *)
Definition getLocSpec (F : Functor) : res Expression :=
  let? e := of_option OutOfRange (f_args F !! 0%nat) in
  if is_location e then Ok e else Fail CompileException.
Definition changeLocSpec (l : Expression) (F : Functor) : res Functor :=
  if is_location l then
    let? e := of_option OutOfRange (f_args F !! 0%nat) in
    if is_location e then Ok (with_args (<[0%nat := l]> (f_args F)) F) else Fail CompileException
  else Fail CompileException.

(** [Functor::makeNew]; the counter is [fictVarCounter]. *)
Definition makeNew (locSpec opaque : Expression) (F : Functor) (n : Z) : Functor * Z :=
  (mkFunctorObj (f_name F) (f_args F) (f_complement F) true (Some locSpec) (Some opaque)
     (Some (variable_named (FICTPREFIX +:+ dec_string n))) (f_says F), n + 1).

(** [Functor::resetHint] *)
Definition resetHint (F : Functor) : Functor :=
  if f_new F then mkFunctorObj (f_name F) (f_args F) (f_complement F) (f_new F) (f_locSpec F) (f_opaque F) (Some (EValue VNull)) (f_says F)
  else F.

(** [Functor::processNew]: the location becomes an ordinary variable, and the
    location of the event, the opaque field and a hint come before it. *)
Definition processNew (terms : list Term) (val : option Expression) (F : Functor) (n : Z) : res (Functor * list Term * Z) :=
  let? _ := check (f_new F) AssertFailed in
  let? loc := getLocSpec F in
  let args := match f_args F with
              | EVariable v _ nl :: rest => EVariable v false nl :: rest
              | args => args
              end in
  let hint := variable_named (FICTPREFIX +:+ dec_string n) in
  let? o := of_option UndefinedBehaviour (f_opaque F) in
  let? l := of_option UndefinedBehaviour (f_locSpec F) in
  let F := with_args (l :: o :: hint :: args) F in
  match l with
  | EVariable _ false _ => Fail CompileException
  | _ =>
      let terms := match val with Some e => terms ++ [Assign_mk hint e] | None => terms end in
      Ok (with_name (f_name F +:+ NEWSUFFIX) F, terms, n + 1)
  end.

(** [Functor::aggregate] *)
Definition Functor_aggregate (F : Functor) : option Expression :=
  List.find (fun e => match e with EAggregation _ _ => true | _ => false end) (f_args F).

(** [Functor::find], [Functor::totalFind], [Says::totalFind]: arguments are
    compared by their text. *)
Fixpoint find_text (s : string) (k : nat) (l : list Expression) : res (option nat) :=
  match l with
  | [] => Ok None
  | e :: l' =>
      let? t := Expression_toString e in
      if String.eqb s t then Ok (Some k) else find_text s (S k) l'
  end.
Definition member_find (s : string) (F : Functor) : res (option SubTerm) :=
  if f_new F then
    let? l := member_text (f_locSpec F) in
    if String.eqb s l then Ok (Some T_LOCSPEC) else
    let? o := member_text (f_opaque F) in
    if String.eqb s o then Ok (Some T_OPAQUE) else
    let? h := member_text (f_hint F) in
    if String.eqb s h then Ok (Some T_HINT) else Ok None
  else Ok None.
Definition totalFind (e : Expression) (F : Functor) : res (option (SubTerm * nat)) :=
  let? s := Expression_toString e in
  let? i := find_text s 0 (f_args F) in
  match i with
  | Some i => Ok (Some (T_FUNCTOR, i))
  | None =>
      let? m := member_find s F in
      match m, f_says F with
      | Some m, _ => Ok (Some (m, 0%nat))
      | None, Some says =>
          let? j := find_text s 0 says in
          Ok match j with Some j => Some (T_SAYS, j) | None => None end
      | None, None => Ok None
      end
  end.

(** The lists [canonicalizeAttributes] walks over, and [replace] at a place. *)
Definition sub_args (s : SubTerm) (F : Functor) : list Expression :=
  match s with
  | T_FUNCTOR => f_args F
  | T_LOCSPEC => if f_new F then option_list (f_locSpec F) else []
  | T_OPAQUE => if f_new F then option_list (f_opaque F) else []
  | T_HINT => if f_new F then option_list (f_hint F) else []
  | T_SAYS => default [] (f_says F)
  end.
Definition replace_argument (s : SubTerm) (i : nat) (e : Expression) (F : Functor) : Functor :=
  let set l := <[i := e]> l in
  mkFunctorObj (f_name F)
    (match s with T_FUNCTOR => set (f_args F) | _ => f_args F end) (f_complement F) (f_new F)
    (match s with T_LOCSPEC => Some e | _ => f_locSpec F end)
    (match s with T_OPAQUE => Some e | _ => f_opaque F end)
    (match s with T_HINT => Some e | _ => f_hint F end)
    (match s with T_SAYS => set <$> f_says F | _ => f_says F end).

(** ** [Term] *)

Definition term_text (t : Term) : res string :=
  match t with
  | TFunctor F => functor_text F
  | TAssign v a => let? v := of_option UndefinedBehaviour v in let? v := Expression_toString v in let? a := Expression_toString a in Ok (v +:+ " := " +:+ a)
  | TSelect s => let? s := of_option UndefinedBehaviour s in Expression_toString s
  end.

(** The copy constructors: those of functors share the members of a new one. *)
Definition functor_copy (F : Functor) : res Functor :=
  let? a := copy_args copy (f_args F) in
  let? s := match f_says F with None => Ok None | Some s => let? s := copy_args copy s in Ok (Some s) end in
  Ok (mkFunctorObj (f_name F) a (f_complement F) (f_new F) (f_locSpec F) (f_opaque F) (f_hint F) s).
Definition term_copy (t : Term) : res Term :=
  match t with
  | TFunctor F => let? F := functor_copy F in Ok (TFunctor F)
  | TAssign v a => let? a := copy a in let? v := of_option UndefinedBehaviour v in Ok (TAssign (Some v) a)
  | TSelect s => let? s := of_option UndefinedBehaviour s in let? s := copy s in Ok (TSelect (Some s))
  end.

(** ** [Rule] *)

Record Rule := mkRule { r_name : string; r_delete : bool; r_head : Functor; r_body : list Term; r_new : bool }.

(** The constructor; the counter is [ruleId]. *)
Definition Rule_mk (lhs : Term) (rhs : list Term) (deleteFlag : bool) (n : option Expression) (ruleId : Z) : res (Rule * Z) :=
  let? (name, ruleId) :=
    match n with
    | Some e => let? s := Expression_toString e in Ok (s, ruleId)
    | None => Ok ("rule_" +:+ dec_string ruleId, ruleId + 1)
    end in
  match lhs with
  | TFunctor F => Ok (mkRule name deleteFlag (resetHint F) rhs false, ruleId)
  | _ => Fail UndefinedBehaviour
  end.

Fixpoint terms_text (l : list Term) : res string :=
  match l with
  | [] => Ok ""
  | t :: l' => let? s := term_text t in let? rest := terms_text l' in Ok (s +:+ match l' with [] => "" | _ => ", " end +:+ rest)
  end.
Definition rule_text (r : Rule) : res string :=
  let? h := functor_text (r_head r) in
  let? b := terms_text (r_body r) in
  Ok ("Rule " +:+ r_name r +:+ ": " +:+ (if r_delete r then "delete " else "") +:+ h +:+ " :- " +:+ b +:+ ".").
Definition rule_copy (r : Rule) : res Rule :=
  let? h := functor_copy (r_head r) in
  let? b := (fix copies l := match l with [] => Ok [] | t :: l' => let? c := term_copy t in let? r := copies l' in Ok (c :: r) end) (r_body r) in
  Ok (mkRule (r_name r) (r_delete r) h b (r_new r)).

(** ** [Rule::canonicalizeAttributes], of the head *)

(** The head so far, the body and [fict_varnum]. *)
Record Canon := mkCanon { cn_head : Functor; cn_body : list Term; cn_next : Z }.

Definition stage_var (n : Z) : Expression := variable_named (STAGEVARPREFIX +:+ dec_string n).

(** A fresh variable takes the place of an argument and is assigned it. *)
Definition name_argument (s : SubTerm) (i : nat) (e : Expression) (K : Canon) : Canon :=
  let tmp := stage_var (cn_next K) in
  mkCanon (replace_argument s i tmp (cn_head K)) (cn_body K ++ [Assign_mk tmp e]) (cn_next K + 1).

(** Whether the place a variable is found at makes its present place a
    repetition; places of different single members are not compared. *)
Definition repeated (prev : option (SubTerm * nat)) (s : SubTerm) (i : nat) : bool :=
  match prev with
  | None => false
  | Some (s', i') =>
      (sub_index s' <? sub_index s)%nat
      || (bool_decide (s' = s) && match s with T_FUNCTOR | T_SAYS => (i' <? i)%nat | _ => false end)
  end.

Definition canon_argument (s : SubTerm) (i : nat) (K : Canon) : res Canon :=
  let? e := of_option UndefinedBehaviour (sub_args s (cn_head K) !! i) in
  match e with
  | EVariable _ _ _ =>
      let? prev := totalFind e (cn_head K) in
      Ok (if repeated prev s i then name_argument s i e K else K)
  | EValue _ | EMath _ _ _ | EFunction _ _ => Ok (name_argument s i e K)
  | EAggregation _ _ => Ok K
  | _ => Fail CompileException
  end.
Fixpoint canon_places (l : list (SubTerm * nat)) (K : Canon) : res Canon :=
  match l with
  | [] => Ok K
  | (s, i) :: l' => let? K := canon_argument s i K in canon_places l' K
  end.
Definition place_count (s : SubTerm) (F : Functor) : nat :=
  match s with
  | T_FUNCTOR | T_SAYS => length (sub_args s F)
  | _ => if f_new F then 1 else 0
  end.
Definition places (F : Functor) : list (SubTerm * nat) :=
  s ← sub_terms; (fun i => (s, i)) <$> seq 0 (place_count s F).

(** [Rule::canonicalizeRule]: predicates of the body are left as they are. *)
Definition canonicalizeRule (r : Rule) (n : Z) : res (Rule * Z) :=
  if String.eqb (f_name (r_head r)) "periodic" then Ok (r, n)
  else
    let? K := canon_places (places (r_head r)) (mkCanon (r_head r) (r_body r) n) in
    Ok (mkRule (r_name r) (r_delete r) (cn_head K) (cn_body K) (r_new r), cn_next K).
End parse.

(** ** What canonicalisation does *)

(** The places of a head in the order they are visited. *)
Definition before (p q : SubTerm * nat) : Prop :=
  (sub_index p.1 < sub_index q.1 \/ (p.1 = q.1 /\ p.2 < q.2))%nat.
Definition argument (F : Functor) (p : SubTerm * nat) : option Expression := sub_args p.1 F !! p.2.
Definition head_args (F : Functor) : list Expression := omap (argument F) (places F).

(** A functor as the grammar makes it: the members of a new one are there. *)
Definition complete (F : Functor) : Prop :=
  f_new F = true -> is_Some (f_locSpec F) /\ is_Some (f_opaque F) /\ is_Some (f_hint F).

Lemma sub_index_inj s s' : sub_index s = sub_index s' -> s = s'.
Proof. by destruct s, s'. Qed.
Lemma before_trans p q r : before p q -> before q r -> before p r.
Proof. destruct p, q, r. unfold before. cbn. intros [?|[-> ?]] [?|[-> ?]]; [left; lia..|right; split; [done|lia]]. Qed.
Lemma before_irrefl p : ~ before p p.
Proof. unfold before. lia. Qed.
Lemma before_total p q : before p q \/ p = q \/ before q p.
Proof.
  destruct p as [s i], q as [s' i']. unfold before. cbn. destruct (Nat.lt_trichotomy (sub_index s) (sub_index s')) as [|[E|]]; [by auto| |by auto].
  apply sub_index_inj in E as ->. destruct (Nat.lt_trichotomy i i') as [|[->|]]; auto 6.
Qed.

(** The places of one list, and those of the lists after it. *)
Lemma sorted_block s n l : StronglySorted before l -> Forall (fun p => sub_index s < sub_index p.1)%nat l ->
  StronglySorted before (((fun i => (s, i)) <$> seq 0 n) ++ l).
Proof.
  intros Hl Hs. cut (forall k, StronglySorted before (((fun i => (s, i)) <$> seq k n) ++ l)); [done|].
  induction n as [|n IH]; intros k; [done|]. cbn. constructor; [apply IH|]. apply Forall_app. split.
  - apply Forall_fmap, Forall_forall. intros i Hi%elem_of_seq. right. cbn. split; [done|lia].
  - eapply Forall_impl; [exact Hs|]. intros p Hp. by left.
Qed.
Lemma places_sorted F : StronglySorted before (places F).
Proof.
  unfold places, sub_terms. cbn [mbind list_bind].
  repeat (apply sorted_block; [|repeat (apply Forall_app; split); try (apply Forall_fmap, Forall_forall; intros; cbn; lia); by constructor]).
  constructor.
Qed.
Lemma places_elem F s i : (s, i) ∈ places F <-> (i < place_count s F)%nat.
Proof.
  unfold places. rewrite list_elem_of_bind. split.
  - intros (s' & (j & [= -> ->] & Hj%elem_of_seq)%list_elem_of_fmap & _). lia.
  - intros Hi. exists s. split; [|destruct s; unfold sub_terms; set_solver]. apply list_elem_of_fmap. exists i. split; [done|]. apply elem_of_seq. lia.
Qed.
Lemma sorted_split {A} (R : A -> A -> Prop) (l1 l2 : list A) x : StronglySorted R (l1 ++ x :: l2) ->
  Forall (fun y => R y x) l1 /\ Forall (R x) l2.
Proof.
  induction l1 as [|y l1 IH]; cbn; intros H; apply StronglySorted_inv in H as [H1 H2]; [by split|].
  destruct (IH H1). split; [|done]. constructor; [|done]. rewrite Forall_forall in H2. apply H2. set_solver.
Qed.

(** An argument is at every place, and changing one leaves the others. *)
Lemma complete_argument F p : complete F -> p ∈ places F -> is_Some (argument F p).
Proof.
  destruct p as [s i]. rewrite places_elem. unfold argument, complete. cbn. intros HC Hi.
  destruct s; cbn in *; try (by apply lookup_lt_is_Some); destruct (f_new F) eqn:E; try lia; destruct (HC eq_refl) as ([? H1] & [? H2] & [? H3]);
    rewrite ?H1, ?H2, ?H3; (destruct i; [by eexists|lia]).
Qed.
Lemma place_count_replace s i e F s' : place_count s' (replace_argument s i e F) = place_count s' F.
Proof. destruct s, s'; cbn; rewrite ?length_insert; try done. destruct (f_says F); cbn; by rewrite ?length_insert. Qed.
Lemma places_replace s i e F : places (replace_argument s i e F) = places F.
Proof. unfold places, sub_terms. cbn [mbind list_bind]. by rewrite !place_count_replace. Qed.
Lemma complete_replace s i e F : complete F -> complete (replace_argument s i e F).
Proof. unfold complete. cbn. intros H Hn. destruct (H Hn) as (? & ? & ?). split_and!; destruct s; by eauto. Qed.
Lemma argument_replace s i e F q : (s, i) ∈ places F -> q ∈ places F ->
  argument (replace_argument s i e F) q = if decide (q = (s, i)) then Some e else argument F q.
Proof.
  destruct q as [s' j]. rewrite !places_elem. intros Hi Hj. unfold argument. cbn.
  destruct (decide ((s', j) = (s, i))) as [[= -> ->]|Hn].
  - destruct s; cbn in *; try (by apply list_lookup_insert_eq); try (destruct (f_new F); [|lia]; by destruct i; [|lia]).
    destruct (f_says F); cbn in *; [by apply list_lookup_insert_eq|lia].
  - destruct (decide (s' = s)) as [->|Hs]; [|by destruct s, s'].
    assert (i <> j) by congruence. destruct s; cbn in *; try (by apply list_lookup_insert_ne);
      try (destruct (f_new F); [|lia]; destruct i, j; lia). destruct (f_says F); cbn in *; [by apply list_lookup_insert_ne|done].
Qed.

Section canonical.
Context `{P : Platform}.

Definition printable (e : Expression) : Prop := exists s, Expression_toString e = Ok s.
Definition text (e : Expression) (s : string) : Prop := Expression_toString e = Ok s.

Lemma find_text_ok s l : forall k, (forall e, e ∈ l -> printable e) ->
  exists r, find_text s k l = Ok r /\
    match r with
    | Some j => exists i e, j = (k + i)%nat /\ l !! i = Some e /\ text e s /\ forall i' e', (i' < i)%nat -> l !! i' = Some e' -> ~ text e' s
    | None => forall e, e ∈ l -> ~ text e s
    end.
Proof.
  induction l as [|e l IH]; intros k Hl; cbn; [exists None; split; [done|]; intros e He; by apply elem_of_nil in He|].
  destruct (Hl e) as [t Ht]; [set_solver|]. rewrite Ht. cbn. destruct (String.eqb_spec s t) as [<-|Hn].
  - exists (Some k). split; [done|]. exists 0%nat, e. split_and!; [lia|done|done|lia].
  - destruct (IH (S k)) as (r & -> & Hr); [set_solver|]. exists r. split; [done|].
    assert (He : ~ text e s) by (unfold text; congruence). destruct r as [j|].
    + destruct Hr as (i & e' & -> & Hi & Ht' & Hlt). exists (S i), e'. split_and!; [lia|done|done|].
      intros [|i'] e'' Hi' Hl'; [by injection Hl' as <-|]. eapply Hlt; [|exact Hl']. lia.
    + intros e' [->|He']%elem_of_cons; [done|by apply Hr].
Qed.

(** All arguments of a complete functor print. *)
Definition legible (F : Functor) : Prop := forall p e, p ∈ places F -> argument F p = Some e -> printable e.
Definition found_first (F : Functor) (s : string) (p : SubTerm * nat) : Prop :=
  p ∈ places F /\ (exists e, argument F p = Some e /\ text e s)
  /\ forall q e, before q p -> q ∈ places F -> argument F q = Some e -> ~ text e s.

Lemma legible_list F s : legible F -> (s = T_FUNCTOR \/ s = T_SAYS) -> forall e, e ∈ sub_args s F -> printable e.
Proof.
  intros HL Hs e [i Hi]%list_elem_of_lookup. apply (HL (s, i)); [|done]. apply places_elem.
  destruct Hs as [-> | ->]; cbn; by eapply lookup_lt_Some.
Qed.

(** Among the members of a new functor [member_find] finds the first. *)
Lemma member_find_ok s F : complete F -> legible F -> (forall q e', q.1 = T_FUNCTOR -> argument F q = Some e' -> ~ text e' s) ->
  exists m, member_find s F = Ok m /\
    match m with
    | Some m => found_first F s (m, 0%nat)
    | None => forall q e', q ∈ places F -> q.1 <> T_SAYS -> argument F q = Some e' -> ~ text e' s
    end.
Proof.
  intros HC HL H0.
  unfold member_find. destruct (f_new F) eqn:Hnew.
  - assert (Hpl : forall m, m <> T_FUNCTOR -> m <> T_SAYS -> (m, 0%nat) ∈ places F) by (intros m ? ?; apply places_elem; destruct m; cbn; rewrite ?Hnew; done || lia).
    assert (Harg : forall m j, m <> T_FUNCTOR -> m <> T_SAYS -> (m, j) ∈ places F -> j = 0%nat)
      by (intros m j ? ?; rewrite places_elem; destruct m; cbn; rewrite ?Hnew; done || lia).
    assert (Hl : forall m, m <> T_FUNCTOR -> m <> T_SAYS -> exists e' t, argument F (m, 0%nat) = Some e' /\ text e' t).
    { intros m H1 H2. destruct (complete_argument F (m, 0%nat) HC) as [e' He']; [by apply Hpl|].
      destruct (HL _ _ (Hpl m H1 H2) He') as [t Ht']. by exists e', t. }
    destruct (Hl T_LOCSPEC) as (el & tl & Hel & Htl); [done..|]. destruct (Hl T_OPAQUE) as (eo & to & Heo & Hto); [done..|].
    destruct (Hl T_HINT) as (eh & th & Heh & Hth); [done..|]. destruct (HC Hnew) as ([xl Hxl] & [xo Hxo] & [xh Hxh]).
    unfold argument in Hel, Heo, Heh. cbn in Hel, Heo, Heh. rewrite Hnew in Hel, Heo, Heh. rewrite Hxl in Hel. rewrite Hxo in Heo. rewrite Hxh in Heh. cbn in Hel, Heo, Heh.
    simplify_eq. unfold member_text. rewrite Hxl, Hxo, Hxh. cbn [of_option rbind]. rewrite Htl, Hto, Hth. cbn [rbind].
    assert (Hval : forall m j e', (m, j) ∈ places F -> argument F (m, j) = Some e' ->
      match m with T_LOCSPEC => e' = el | T_OPAQUE => e' = eo | T_HINT => e' = eh | _ => True end).
    { intros m j e' Hq. destruct m; try done; (assert (j = 0%nat) as -> by (by eapply Harg; [..|exact Hq]));
        unfold argument; cbn; rewrite Hnew, ?Hxl, ?Hxo, ?Hxh; cbn; congruence. }
    unfold text in *.
    destruct (String.eqb_spec s tl) as [->|Hnl].
    { exists (Some T_LOCSPEC). split; [done|]. split_and!; [by apply Hpl| |].
      - exists el. split; [|done]. unfold argument. cbn. by rewrite Hnew, Hxl.
      - intros [s' j] e' [Hb|[E Hb]] Hq Ha; cbn in Hb; [|lia]. destruct s'; cbn in Hb; try lia. exact (H0 (T_FUNCTOR, j) e' eq_refl Ha). }
    destruct (String.eqb_spec s to) as [->|Hno].
    { exists (Some T_OPAQUE). split; [done|]. split_and!; [by apply Hpl| |].
      - exists eo. split; [|done]. unfold argument. cbn. by rewrite Hnew, Hxo.
      - intros [s' j] e' [Hb|[E Hb]] Hq Ha; cbn in Hb; [|lia]. destruct s'; cbn in Hb; try lia; [exact (H0 (T_FUNCTOR, j) e' eq_refl Ha)|].
        rewrite (Hval _ _ _ Hq Ha). congruence. }
    destruct (String.eqb_spec s th) as [->|Hnh].
    { exists (Some T_HINT). split; [done|]. split_and!; [by apply Hpl| |].
      - exists eh. split; [|done]. unfold argument. cbn. by rewrite Hnew, Hxh.
      - intros [s' j] e' [Hb|[E Hb]] Hq Ha; cbn in Hb; [|lia]. destruct s'; cbn in Hb; try lia; [exact (H0 (T_FUNCTOR, j) e' eq_refl Ha)|..];
          rewrite (Hval _ _ _ Hq Ha); congruence. }
    exists None. split; [done|]. intros [s' j] e' Hq Hs Ha. cbn in Hs. destruct s'; [exact (H0 (T_FUNCTOR, j) e' eq_refl Ha)| | | |done];
      rewrite (Hval _ _ _ Hq Ha); congruence.
  - exists None. split; [done|]. intros [s' j] e' Hq Hs Ha. cbn in Hs. destruct s'; [exact (H0 (T_FUNCTOR, j) e' eq_refl Ha)| | | |done];
      apply places_elem in Hq; cbn in Hq; rewrite Hnew in Hq; lia.
Qed.

(** [totalFind] finds the first place with the text. *)
Lemma totalFind_ok e s F : complete F -> legible F -> text e s -> (exists p e', p ∈ places F /\ argument F p = Some e' /\ text e' s) ->
  exists p, totalFind e F = Ok (Some p) /\ found_first F s p.
Proof.
  intros HC HL He (p & ep & Hp & Hep & Ht). unfold totalFind. rewrite He. cbn [rbind].
  destruct (find_text_ok s (f_args F) 0) as (r & -> & Hr); [by apply (legible_list F T_FUNCTOR); auto|]. cbn [rbind]. destruct r as [j|].
  { destruct Hr as (i & e' & -> & Hi & Ht' & Hlt). exists (T_FUNCTOR, i). split; [done|]. split_and!.
    - apply places_elem. by eapply lookup_lt_Some.
    - by exists e'.
    - intros [s' j] e'' [Hb|[E Hb]] _ Hq; cbn in Hb; [destruct s'; cbn in Hb; lia|]. cbn in E. subst. by eapply Hlt. }
  assert (H0 : forall q e', q.1 = T_FUNCTOR -> argument F q = Some e' -> ~ text e' s).
  { intros [? j] e' [= ->] Hq. apply Hr. by eapply list_elem_of_lookup_2. }
  destruct (member_find_ok s F HC HL H0) as (m & -> & Hm). cbn [rbind]. destruct m as [m|]; [by exists (m, 0%nat)|].
  destruct (f_says F) as [says|] eqn:Hsays.
  2:{ exfalso. refine (Hm p ep Hp _ Hep Ht). intros Hs. destruct p as [s' j]. cbn in Hs. subst. apply places_elem in Hp. cbn in Hp. rewrite Hsays in Hp. cbn in Hp. lia. }
  destruct (find_text_ok s says 0) as (r & -> & Hr2).
  { intros x Hx. apply (legible_list F T_SAYS); [done|by right|]. cbn. by rewrite Hsays. }
  cbn [rbind]. destruct r as [j|].
  - destruct Hr2 as (i & e' & -> & Hi & Ht' & Hlt). exists (T_SAYS, i). split; [done|]. split_and!.
    + apply places_elem. cbn. rewrite Hsays. by eapply lookup_lt_Some.
    + exists e'. split; [|done]. unfold argument. cbn. by rewrite Hsays.
    + intros [s' j] e'' [Hb|[E Hb]] Hq Ha; cbn in Hb.
      * apply (Hm _ _ Hq); [|done]. cbn. intros ->. cbn in Hb. lia.
      * cbn in E. subst. unfold argument in Ha. cbn in Ha. rewrite Hsays in Ha. by eapply Hlt.
  - exfalso. destruct (decide (p.1 = T_SAYS)) as [E|Hs]; [|by apply (Hm p ep)]. destruct p as [s' j]. cbn in E. subst.
    unfold argument in Hep. cbn in Hep. rewrite Hsays in Hep. eapply Hr2; [|exact Ht]. by eapply list_elem_of_lookup_2.
Qed.
End canonical.

(** *** One argument after the other *)

Section canonical_head.
Context `{P : Platform}.

(** The arguments that can be named or kept. *)
Definition nameable (e : Expression) : Prop :=
  match e with EVariable _ _ _ | EValue _ | EMath _ _ _ | EFunction _ _ | EAggregation _ _ => True | _ => False end.
Definition is_simple (e : Expression) : Prop := match e with EVariable _ _ _ | EAggregation _ _ => True | _ => False end.
Definition is_variable (e : Expression) : bool := match e with EVariable _ _ _ => true | _ => false end.

(** A valuation of expressions under which an assignment holds. *)
Definition assigned {A} (val : Expression -> A) (t : Term) : Prop :=
  match t with TAssign (Some v) e => val v = val e | _ => True end.

Lemma stage_var_text k : text (stage_var k) (STAGEVARPREFIX +:+ dec_string k).
Proof. reflexivity. Qed.
Lemma stage_var_inj n m s : 0 <= n -> 0 <= m -> text (stage_var n) s -> text (stage_var m) s -> n = m.
Proof. unfold text. rewrite !stage_var_text. intros Hn Hm [= <-] [= E]. symmetry in E. by apply dec_string_inj. Qed.

Variables (F0 : Functor) (body0 : list Term) (n : Z).
Hypothesis (HC0 : complete F0) (HL0 : legible F0) (Hn : 0 <= n).
Hypothesis (Hfresh : forall k p e, n <= k -> argument F0 p = Some e -> ~ text e (STAGEVARPREFIX +:+ dec_string k)).

(** The places [done] have been visited; [named] lists what was assigned. *)
Record canon_inv (done : list (SubTerm * nat)) (named : list Expression) (K : Canon) : Prop := {
  ci_places : places (cn_head K) = places F0;
  ci_complete : complete (cn_head K);
  ci_name : f_name (cn_head K) = f_name F0 /\ f_complement (cn_head K) = f_complement F0 /\ f_new (cn_head K) = f_new F0;
  ci_body : cn_body K = body0 ++ imap (fun k e => Assign_mk (stage_var (n + Z.of_nat k)) e) named;
  ci_next : cn_next K = n + Z.of_nat (length named);
  ci_todo : forall q, q ∈ places F0 -> q ∉ done -> argument (cn_head K) q = argument F0 q;
  ci_done : forall q, q ∈ done -> exists e0 e, argument F0 q = Some e0 /\ argument (cn_head K) q = Some e /\ is_simple e
    /\ (e = e0 \/ exists k, named !! k = Some e0 /\ e = stage_var (n + Z.of_nat k));
  ci_distinct : forall p q e e' s, p ∈ done -> q ∈ done -> argument (cn_head K) p = Some e -> argument (cn_head K) q = Some e' ->
    is_variable e = true -> is_variable e' = true -> text e s -> text e' s -> p = q
}.

Lemma canon_legible done named K : done ⊆ places F0 -> canon_inv done named K -> legible (cn_head K).
Proof.
  intros Hd HK q e Hq He. rewrite (ci_places _ _ _ HK) in Hq. destruct (decide (q ∈ done)) as [Hin|Hin].
  - destruct (ci_done _ _ _ HK q Hin) as (e0 & e1 & H0 & H1 & _ & [->|(k & _ & ->)]); rewrite He in H1; injection H1 as ->.
    + by apply (HL0 q).
    + by eexists.
  - rewrite (ci_todo _ _ _ HK q Hq Hin) in He. by apply (HL0 q).
Qed.

(** The text of the next fresh variable is not among those before. *)
Lemma canon_fresh done named K q e : canon_inv done named K -> q ∈ done -> argument (cn_head K) q = Some e ->
  ~ text e (STAGEVARPREFIX +:+ dec_string (cn_next K)).
Proof.
  intros HK Hq He Ht. destruct (ci_done _ _ _ HK q Hq) as (e0 & e1 & H0 & H1 & _ & Hor). rewrite He in H1. injection H1 as <-.
  rewrite (ci_next _ _ _ HK) in Ht. destruct Hor as [->|(k & Hk & ->)].
  - eapply (Hfresh (n + Z.of_nat (length named)) q); [lia|exact H0|exact Ht].
  - apply lookup_lt_Some in Hk.
    assert (n + Z.of_nat k = n + Z.of_nat (length named)); [|lia].
    eapply stage_var_inj; [lia|lia|exact Ht|apply stage_var_text].
Qed.

Lemma canon_keep done named K p e : canon_inv done named K -> p ∈ places F0 -> p ∉ done -> argument F0 p = Some e -> is_simple e ->
  (forall q e' s, q ∈ done -> argument (cn_head K) q = Some e' -> is_variable e = true -> is_variable e' = true -> text e s -> ~ text e' s) ->
  canon_inv (done ++ [p]) named K.
Proof.
  intros HK Hp Hpd He Hs Hnew. pose proof (ci_todo _ _ _ HK p Hp Hpd) as Hcur. split; try apply HK.
  - intros q Hq Hqd. apply HK; [done|]. set_solver.
  - intros q [Hq|Hq%list_elem_of_singleton]%elem_of_app; [by apply HK|]. subst q. exists e, e. rewrite Hcur. by auto.
  - intros q r eq er s [Hq|Hq%list_elem_of_singleton]%elem_of_app [Hr|Hr%list_elem_of_singleton]%elem_of_app Hqe Hre Vq Vr Tq Tr;
      subst; [by eapply (ci_distinct _ _ _ HK)| | |done]; exfalso; rewrite Hcur, He in *; simplify_eq.
    + by eapply (Hnew q eq).
    + by eapply (Hnew r er).
Qed.

Lemma canon_name done named K s i e : canon_inv done named K -> (s, i) ∈ places F0 -> (s, i) ∉ done -> done ⊆ places F0 ->
  argument F0 (s, i) = Some e -> canon_inv (done ++ [(s, i)]) (named ++ [e]) (name_argument s i e K).
Proof.
  intros HK Hp Hpd Hdp He. assert (HpK : (s, i) ∈ places (cn_head K)) by by rewrite (ci_places _ _ _ HK).
  assert (Harg : forall q, q ∈ places F0 -> argument (cn_head (name_argument s i e K)) q
    = if decide (q = (s, i)) then Some (stage_var (cn_next K)) else argument (cn_head K) q).
  { intros q Hq. apply argument_replace; [done|]. by rewrite (ci_places _ _ _ HK). }
  assert (Hold : forall q, q ∈ done -> argument (cn_head (name_argument s i e K)) q = argument (cn_head K) q).
  { intros q Hq. rewrite Harg by by apply Hdp. by destruct (decide _) as [->|]. }
  split.
  - cbn [name_argument cn_head]. rewrite places_replace. apply HK.
  - apply complete_replace, HK.
  - cbn. apply HK.
  - cbn [name_argument cn_body]. rewrite (ci_body _ _ _ HK), imap_app, <- app_assoc. cbn. by rewrite Nat.add_0_r, (ci_next _ _ _ HK).
  - cbn [name_argument cn_next]. rewrite (ci_next _ _ _ HK), length_app. cbn. lia.
  - intros q Hq Hqd. rewrite Harg by done. destruct (decide _) as [->|]; [set_solver|]. apply HK; [done|]. set_solver.
  - intros q [Hq|Hq%list_elem_of_singleton]%elem_of_app.
    + destruct (ci_done _ _ _ HK q Hq) as (e0 & e1 & H0 & H1 & Hs & Hor). exists e0, e1. rewrite Hold by done. split_and!; [done..|].
      destruct Hor as [|(k & Hk & ->)]; [by left|right]. exists k. split; [by apply lookup_app_l_Some|done].
    + subst q. exists e, (stage_var (cn_next K)). rewrite Harg, decide_True by done. split_and!; [done..|]. right. exists (length named).
      by rewrite lookup_app_r, Nat.sub_diag, (ci_next _ _ _ HK) by lia.
  - assert (Hlast : forall q e' t, q ∈ done -> argument (cn_head (name_argument s i e K)) q = Some e' -> text e' t ->
      ~ text (stage_var (cn_next K)) t).
    { intros q e' t Hq Hqe Ht. rewrite Hold in Hqe by done. unfold text. rewrite stage_var_text. intros [= <-].
      by eapply canon_fresh. }
    intros q r eq er t [Hq|Hq%list_elem_of_singleton]%elem_of_app [Hr|Hr%list_elem_of_singleton]%elem_of_app Hqe Hre Vq Vr Tq Tr; subst; [| | |done].
    + rewrite Hold in Hqe, Hre by done. by eapply (ci_distinct _ _ _ HK).
    + exfalso. rewrite Harg, decide_True in Hre by done. injection Hre as <-. by eapply Hlast.
    + exfalso. rewrite Harg, decide_True in Hqe by done. injection Hqe as <-. by eapply Hlast.
Qed.
Lemma repeated_before p s i : p ∈ places F0 -> (s, i) ∈ places F0 -> repeated (Some p) s i = true <-> before p (s, i).
Proof.
  destruct p as [s' i']. rewrite !places_elem. intros Hp Hi. unfold repeated, before. cbn [fst snd].
  rewrite orb_true_iff, Nat.ltb_lt, andb_true_iff, bool_decide_eq_true. split; intros [|[-> Hb]]; auto; right; (split; [done|]).
  - destruct s; try done; by apply Nat.ltb_lt.
  - destruct s; cbn in Hp, Hi; try (by apply Nat.ltb_lt); destruct (f_new F0); lia.
Qed.

Lemma canon_argument_ok done named K s i e rest : canon_inv done named K -> places F0 = done ++ (s, i) :: rest ->
  argument F0 (s, i) = Some e -> nameable e ->
  exists K' named', canon_argument s i K = Ok K' /\ canon_inv (done ++ [(s, i)]) named' K' /\ (named' = named \/ named' = named ++ [e]).
Proof.
  intros HK Hpl He Hna. pose proof (places_sorted F0) as Hso. rewrite Hpl in Hso. apply sorted_split in Hso as [Hbef _].
  rewrite Forall_forall in Hbef. assert (Hp : (s, i) ∈ places F0) by (rewrite Hpl; set_solver).
  assert (Hd : done ⊆ places F0) by (intros q Hq; rewrite Hpl; set_solver).
  assert (Hpd : (s, i) ∉ done) by (intros Hin; by eapply before_irrefl, Hbef).
  assert (Hcur : argument (cn_head K) (s, i) = Some e) by by rewrite (ci_todo _ _ _ HK).
  unfold canon_argument. change (sub_args s (cn_head K) !! i) with (argument (cn_head K) (s, i)). rewrite Hcur. cbn [of_option rbind].
  assert (Hname : exists K' named', Ok (name_argument s i e K) = Ok K' /\ canon_inv (done ++ [(s, i)]) named' K' /\ (named' = named \/ named' = named ++ [e])).
  { exists (name_argument s i e K), (named ++ [e]). split_and!; [done| |by right]. by apply canon_name. }
  assert (Hkeep : is_simple e -> (forall q e' t, q ∈ done -> argument (cn_head K) q = Some e' -> is_variable e = true -> is_variable e' = true -> text e t -> ~ text e' t) ->
    exists K' named', Ok K = Ok K' /\ canon_inv (done ++ [(s, i)]) named' K' /\ (named' = named \/ named' = named ++ [e])).
  { intros Hs Hx. exists K, named. split_and!; [done| |by left]. by eapply canon_keep. }
  destruct e; try done; [|by apply Hkeep].
  destruct (HL0 _ _ Hp He) as [t Ht].
  destruct (totalFind_ok _ t (cn_head K) (ci_complete _ _ _ HK) (canon_legible _ _ _ Hd HK) Ht) as (p & -> & Hf).
  { exists (s, i), (EVariable v location newLocSpec). rewrite (ci_places _ _ _ HK). by split_and!. }
  cbn [rbind]. destruct Hf as (Hpp & (ep & Hep & Htp) & Hfirst). rewrite (ci_places _ _ _ HK) in Hpp, Hfirst.
  destruct (repeated (Some p) s i) eqn:Hrep; [done|]. apply Hkeep; [done|]. intros q e' t' Hq Hqe _ _ Ht1 Ht2.
  assert (t' = t) as -> by (unfold text in *; congruence).
  apply (Hfirst q e'); [|by apply Hd|done|done]. destruct (before_total p (s, i)) as [Hb|[->|Hb]].
  - apply repeated_before in Hb; [congruence|done|done].
  - by apply Hbef.
  - eapply before_trans; [by apply Hbef|done].
Qed.

Lemma canon_places_ok : forall todo done named K, canon_inv done named K -> places F0 = done ++ todo -> named ⊆ head_args F0 ->
  (forall p e, p ∈ places F0 -> argument F0 p = Some e -> nameable e) ->
  exists K' named', canon_places todo K = Ok K' /\ canon_inv (places F0) named' K' /\ named' ⊆ head_args F0.
Proof.
  induction todo as [|[s i] todo IH]; intros done named K HK Hpl Hsub Hna.
  - rewrite app_nil_r in Hpl. subst. by exists K, named.
  - assert (Hp : (s, i) ∈ places F0) by (rewrite Hpl; set_solver). destruct (complete_argument F0 _ HC0 Hp) as [e He].
    destruct (canon_argument_ok done named K s i e todo HK Hpl He) as (K1 & named1 & E1 & HK1 & Hn1); [by eapply Hna|].
    cbn. rewrite E1. cbn. apply (IH (done ++ [(s, i)]) named1 K1 HK1); [by rewrite <- app_assoc| |done].
    destruct Hn1 as [->| ->]; [done|]. intros x [Hx|Hx%list_elem_of_singleton]%elem_of_app; [by apply Hsub|]. subst.
    apply list_elem_of_omap. by exists (s, i).
Qed.
End canonical_head.

(** Two ways of filling the same places agree where a valuation does. *)
Lemma omap_valued {A B} (f g : B -> option Expression) (val : Expression -> A) (l : list B) :
  (forall p, p ∈ l -> exists e0 e, g p = Some e0 /\ f p = Some e /\ val e = val e0) -> val <$> omap f l = val <$> omap g l.
Proof.
  induction l as [|p l IH]; intros H; [done|]. cbn. destruct (H p) as (e0 & e & -> & -> & Hv); [set_solver|]. cbn.
  f_equal; [done|]. apply IH. intros q Hq. apply H. set_solver.
Qed.

Lemma canon_start `{P : Platform} F body n : complete F -> canon_inv F body n [] [] (mkCanon F body n).
Proof.
  intros HC. split; cbn; try done; try set_solver; try lia; by rewrite app_nil_r.
Qed.


(** [reach(@X, Y, Y, C + 1)] *)
Definition reach_rule : Rule :=
  let V s := EVariable (VStr s) false false in
  mkRule "r1" false
    (mkFunctorObj "reach" [EVariable (VStr "X") true false; V "Y"; V "Y"; EMath "+" (V "C") (Some (EValue (VInt64 1)))]%string false false None None None None)
    [] false.

(** ... it becomes [reach(@X, Y, PS_7, PS_8)] with [PS_7 := Y], [PS_8 := C + 1]. *)
Example reach_canonical :
  (let? (r, n) := canonicalizeRule (P := bare_platform) reach_rule 7 in
   Ok (omap (fun e => match Expression_toString (P := bare_platform) e with Ok s => Some s | _ => None end) (f_args (r_head r)), length (r_body r), n))
  = Ok (["@X"; "Y"; "PS_7"; "PS_8"]%string, 2%nat, 9).
Proof. vm_compute. reflexivity. Qed.
