(* ===== verification/Catalog.v ===== *)
(** * The catalog (src/p2core/tableManager.C, systemTable.h)

    Every table of the system, by name, and the system tables that describe
    them: sys::table a row for each table, sys::index one for each index,
    sys::attribute one for each column of a system table.  [initialize] boots the
    catalog; afterwards listeners on sys::table and sys::index act on the rows
    that programs insert.

    A listener runs inside the insertion that calls it, after the row is in the
    table; it may insert rows itself, so insertions have a fuel, which counts the
    insertions inside insertions.  The cardinality that an insertion computes and
    drops (see CommonTable.v) is left out, with the tuple numbers it takes. *)

From Stdlib Require Import String SpecFloat.
From stdpp Require Import gmap strings.
From S2P Require Import Prelude Ids Stl Values Tuples Aggs Keys CommonTable RefTable Table2 Casts Names PelGen.

Local Open Scope p2_scope.

(** ** Names *)

Definition NODEID : string := "sys::nodeId".
Definition ARGUMENT : string := "sys::argument".
Definition PROGRAM : string := "sys::program".
Definition PERROR : string := "sys::error".
Definition GLOBAL_EVENT : string := "sys::globalEvent".
Definition SIDE_AFFECT : string := "sys::sideAffect".
Definition REWRITE : string := "sys::rewrite".
Definition ATTRIBUTE : string := "sys::attribute".
Definition TABLE : string := "sys::table".
Definition REF : string := "sys::ref".
Definition INDEX : string := "sys::index".
Definition FACT : string := "sys::fact".
Definition SAYS : string := "sys::says".
Definition NEW : string := "sys::new".
Definition STAGE : string := "sys::stage".
Definition RULE : string := "sys::rule".
Definition FUNCTOR : string := "sys::predicate".
Definition PROJECTION : string := "sys::projection".
Definition WATCH : string := "sys::watch".
Definition COMPILE_STATUS : string := "sys::compileStatus".
Definition HASH_INDEX : string := "Hash".
Definition NODE_ID : nat := 1.

(** [TABLEDEF] and [SCHEMA]: the system tables, their keys and columns. *)
Definition system_tables : list (string * KeyName * list (string * Z)) := [
  (TABLE, KEY3, [("TNAME", 0); ("LOCATION", 1); ("TID", 2); ("TABLENAME", 3); ("LIFETIME", 4); ("SIZE", 5);
    ("KEY", 6); ("CARD", 7); ("SORT", 8); ("PID", 9)]);
  (INDEX, KEY34, [("TNAME", 0); ("LOCATION", 1); ("IID", 2); ("TABLENAME", 3); ("KEY", 4); ("TYPE", 5);
    ("SELECTIVITY", 6)]);
  (ATTRIBUTE, KEY34, [("TNAME", 0); ("LOCATION", 1); ("ATTRID", 2); ("TABLENAME", 3); ("ATTRNAME", 4); ("POSITION", 5)]);
  (REF, KEY2, [("TNAME", 0); ("LOCATION", 1); ("REFID", 2); ("PID", 3); ("FROM", 4); ("TO", 5);
    ("LOCSPECFIELD", 6); ("REFTYPE", 7)]);
  (SAYS, KEY2, [("TNAME", 0); ("LOCATION", 1); ("SAYSID", 2); ("FID", 3); ("ATTRIBUTES", 4)]);
  (NEW, KEY2, [("TNAME", 0); ("LOCATION", 1); ("NEWID", 2); ("FID", 3); ("EVENTLOC", 4); ("OPAQUE", 5);
    ("SYSTEMINFO", 6)]);
  (NODEID, KEY3, [("TNAME", 0); ("LOCATION", 1); ("NID", 2); ("ADDRESS", 3)]);
  (ARGUMENT, KEY2, [("TNAME", 0); ("LOCATION", 1); ("KEY", 2); ("VALUE", 3)]);
  (GLOBAL_EVENT, KEY45, [("TNAME", 0); ("LOCATION", 1); ("EID", 2); ("PID", 3); ("NAME", 4); ("TYPE", 5);
    ("TRIGGER", 6); ("SCHEMA", 7)]);
  (SIDE_AFFECT, KEY45, [("TNAME", 0); ("LOCATION", 1); ("SID", 2); ("PID", 3); ("NAME", 4); ("TYPE", 5);
    ("TRIGGER", 6); ("SCHEMA", 7)]);
  (PROGRAM, KEY2, [("TNAME", 0); ("LOCATION", 1); ("PID", 2); ("NAME", 3); (REWRITE, 4); ("STATUS", 5);
    ("TEXT", 6); ("RESULT_MESSAGE", 7); ("P2DL", 8); ("SOURCE", 9)]);
  (PERROR, KEY25, [("TNAME", 0); ("LOCATION", 1); ("PID", 2); ("PNAME", 3); ("NODEID", 4); ("CODE", 5); ("DESC", 6)]);
  (REWRITE, KEY34, [("TNAME", 0); ("LOCATION", 1); ("RID", 2); ("INPUT", 3); ("OUTPUT", 4)]);
  (WATCH, KEY45, [("TNAME", 0); ("LOCATION", 1); ("WID", 2); ("PID", 3); ("NAME", 4); ("MOD", 5)]);
  (STAGE, KEY2, [("TNAME", 0); ("LOCATION", 1); ("SID", 2); ("PID", 3); ("PROCESSOR", 4); ("INPUT", 5); ("OUTPUT", 6)]);
  (FACT, KEY2, [("TNAME", 0); ("LOCATION", 1); ("FID", 2); ("PID", 3); ("TABLENAME", 4); ("TUPLE", 5)]);
  (RULE, KEY2, [("TNAME", 0); ("LOCATION", 1); ("RID", 2); ("PID", 3); ("NAME", 4); ("HEAD_FID", 5); ("P2DL", 6);
    ("DELETE", 7); ("TERM_COUNT", 8); ("NEW", 9)]);
  (FUNCTOR, KEY2, [("TNAME", 0); ("LOCATION", 1); ("FID", 2); ("RID", 3); ("NOTIN", 4); ("NAME", 5); ("TID", 6);
    ("ECA", 7); ("ATTRIBUTES", 8); ("POSITION", 9); ("AM", 10); ("NEW", 11)]);
  (ASSIGN, KEY2, [("TNAME", 0); ("LOCATION", 1); ("AID", 2); ("RID", 3); ("VAR", 4); ("VALUE", 5); ("POSITION", 6)]);
  (SELECT, KEY2, [("TNAME", 0); ("LOCATION", 1); ("SID", 2); ("RID", 3); ("BOOL", 4); ("POSITION", 5); ("AM", 6)]);
  (PROJECTION, KEY2, [("TNAME", 0); ("LOCATION", 1); ("PID", 2); ("RID", 3); ("ATTRIBUTES", 4); ("POSITION", 5)]);
  (FUNCTION, KEY2, [("TNAME", 0); ("LOCATION", 1); ("FID", 2); ("NAME", 3); ("NUMARGS", 4); ("PEL", 5)]);
  (COMPILE_STATUS, KEY1, [("TNAME", 0); ("LOCATION", 1); ("STATUS", 2)])
]%string.

(** [FOREIGN_KEY]: source, key, referenced table. *)
Definition foreign_keys : list (string * KeyName * string) := [
  (FACT, KEY3, PROGRAM); (REF, KEY3, PROGRAM); (FACT, KEY4, TABLE); (RULE, KEY3, PROGRAM); (INDEX, KEY3, TABLE);
  (SAYS, KEY3, FUNCTOR); (NEW, KEY3, FUNCTOR); (FUNCTOR, KEY3, RULE); (ASSIGN, KEY3, RULE); (SELECT, KEY3, RULE)
].

(** [SECONDARY_INDEX] *)
Definition secondary_indices : list (string * KeyName) := [
  (REF, KEY3); (REF, KEY4); (SAYS, KEY3); (NEW, KEY3); (FUNCTION, KEY3); (FUNCTION, KEY34); (RULE, KEY3);
  (FUNCTOR, KEY3); (FUNCTOR, KEY5); (FUNCTOR, KEY39); (ASSIGN, KEY3); (ASSIGN, KEY36); (SELECT, KEY3); (SELECT, KEY35);
  (FACT, KEY3); (STAGE, KEY3); (REWRITE, KEY3); (REWRITE, KEY4); (WATCH, KEY4); (PROJECTION, KEY35); (TABLE, KEY9)
].

(** ** Tables of either class *)

(** What a [CommonTablePtr] of the catalog points to. *)
Inductive catalog_table := StRef (T : table) | StTable2 (T : Table2.table2).

Section clock.
Variable now : Z.

Definition st_insert (t : tuple) (s : catalog_table) : res (bool * catalog_table) :=
  match s with
  | StRef T => let? (b, T) := RefTable.insert t now T in Ok (b, StRef T)
  | StTable2 T => let? (b, T) := Table2.insert t now now now T in Ok (b, StTable2 T)
  end.
Definition st_remove (t : tuple) (s : catalog_table) : res (bool * catalog_table) :=
  match s with
  | StRef T => let? (b, T) := RefTable.remove t T in Ok (b, StRef T)
  | StTable2 T => let? (b, T) := Table2.remove t now T in Ok (b, StTable2 T)
  end.
Definition st_lookup2 (k : Key) (t : tuple) (s : catalog_table) : res (IteratorObj * catalog_table) :=
  match s with
  | StRef T => let? it := CommonTable.lookup2 k t T in Ok (it, s)
  | StTable2 T => let? (it, T) := Table2.lookup2 k t now T in Ok (it, StTable2 T)
  end.
Definition st_lookup3 (l k : Key) (t : tuple) (s : catalog_table) : res (option IteratorObj * catalog_table) :=
  match s with
  | StRef T => let? (it, T) := CommonTable.lookup3 l k t T in Ok (it, StRef T)
  | StTable2 T => let? (it, T) := Table2.lookup3 l k t now T in Ok (it, StTable2 T)
  end.
Definition st_scan (s : catalog_table) : res (IteratorObj * catalog_table) :=
  match s with
  | StRef T => Ok (CommonTable.scan T, s)
  | StTable2 T => let? (it, T) := Table2.scan now T in Ok (it, StTable2 T)
  end.
Definition st_base (s : catalog_table) : table := match s with StRef T => T | StTable2 T => Table2.t2_base T end.
Definition st_secondaryIndex (k : Key) (s : catalog_table) : bool * catalog_table :=
  match s with
  | StRef T => let '(b, T) := CommonTable.secondaryIndex k T in (b, StRef T)
  | StTable2 T => let '(b, B) := CommonTable.secondaryIndex k (Table2.t2_base T) in (b, StTable2 (Table2.with_base B T))
  end.

(** ** [TableManager] *)

(** The tables by name, the next unique identifier, the counter of tuples, the
    foreign keys; whether [Plumber::catalog()] is this catalog already (it is not
    while it is constructed), and whether the listeners are in place. *)
Record Catalog := mkCatalog {
  cat_tables : gmap string catalog_table;
  cat_identifier : Z;
  cat_counter : Z;
  cat_foreignKeys : list (string * (Key * string));
  cat_installed : bool;
  cat_listening : bool
}.

Definition with_tables (m : gmap string catalog_table) (C : Catalog) : Catalog :=
  mkCatalog m (cat_identifier C) (cat_counter C) (cat_foreignKeys C) (cat_installed C) (cat_listening C).
Definition with_identifier (i : Z) (C : Catalog) : Catalog :=
  mkCatalog (cat_tables C) i (cat_counter C) (cat_foreignKeys C) (cat_installed C) (cat_listening C).
Definition with_counter (n : Z) (C : Catalog) : Catalog :=
  mkCatalog (cat_tables C) (cat_identifier C) n (cat_foreignKeys C) (cat_installed C) (cat_listening C).
Definition with_foreignKeys (l : list (string * (Key * string))) (C : Catalog) : Catalog :=
  mkCatalog (cat_tables C) (cat_identifier C) (cat_counter C) l (cat_installed C) (cat_listening C).
Definition set_installed (C : Catalog) : Catalog :=
  mkCatalog (cat_tables C) (cat_identifier C) (cat_counter C) (cat_foreignKeys C) true (cat_listening C).
Definition set_listening (C : Catalog) : Catalog :=
  mkCatalog (cat_tables C) (cat_identifier C) (cat_counter C) (cat_foreignKeys C) (cat_installed C) true.

(** [TableManager::table]; calling a method of a null pointer. *)
Definition cat_table (name : string) (C : Catalog) : option catalog_table := cat_tables C !! name.
Definition the_table (name : string) (C : Catalog) : res catalog_table := of_option UndefinedBehaviour (cat_table name C).
Definition put_table (name : string) (s : catalog_table) (C : Catalog) : Catalog := with_tables (<[name := s]> (cat_tables C)) C.

(** [TableManager::uniqueIdentifier] *)
Definition next_identifier (C : Catalog) : Z * Catalog :=
  (cat_identifier C, with_identifier (u32 (cat_identifier C + 1)) C).

(** [Tuple::mk()] *)
Definition new_tuple (C : Catalog) : tuple * Catalog :=
  let '(t, n) := Tuple_mk (cat_counter C) in (t, with_counter n C).

(** [TableManager::attribute] *)
Definition attribute (tablename attrname : string) (C : Catalog) : res (Z * Catalog) :=
  let '(t, C) := new_tuple C in
  let tp := mkTuple [VStr tablename; VStr attrname] false (tupleID t) in
  let? attrTbl := the_table ATTRIBUTE C in
  let? (it, attrTbl) := st_lookup3 (theKey KEY01) (theKey KEY34) tp attrTbl in
  let C := put_table ATTRIBUTE attrTbl C in
  let? it := of_option UndefinedBehaviour it in
  match fst (CommonTable.next it) with
  | None => Fail Thrown
  | Some row => let? v := Tuple_at row 5 in let? z := Val_Int64_cast v in Ok (z, C)
  end.

(** [TableManager::attributes] *)
Definition attributes (tablename : string) (C : Catalog) : res (Z * Catalog) :=
  let '(t, C) := new_tuple C in
  let tp := mkTuple [VStr tablename] false (tupleID t) in
  let? attrTbl := the_table ATTRIBUTE C in
  let? (it, attrTbl) := st_lookup3 (theKey KEY0) (theKey KEY3) tp attrTbl in
  let? it := of_option UndefinedBehaviour it in
  Ok (u32 (Z.of_nat (length (it_spool it) - it_pos it)), put_table ATTRIBUTE attrTbl C).
(** [TableManager::nodeid()]; the address of the first row of sys::nodeId. *)
Definition nodeid (C : Catalog) : res (option value * Catalog) :=
  let? nodeidTbl := the_table NODEID C in
  let? (it, nodeidTbl) := st_scan nodeidTbl in
  let C := put_table NODEID nodeidTbl C in
  match fst (CommonTable.next it) with
  | Some row =>
      let? (pos, C) := attribute NODEID "ADDRESS" C in
      let? v := Tuple_at row (Z.to_nat pos) in Ok (Some v, C)
  | None => Ok (None, C)
  end.

(** [Tuple::mk(name)], which asks for the node twice. *)
Definition Tuple_mk_name (name : string) (C : Catalog) : res (tuple * Catalog) :=
  let '(t, C) := new_tuple C in
  let? (node, C) :=
    if cat_installed C then
      let? (n, C) := nodeid C in
      match n with
      | Some _ => let? (n, C) := nodeid C in let? v := of_option AssertFailed n in Ok (v, C)
      | None => Ok (VNull, C)
      end
    else Ok (VNull, C) in
  Ok (mkTuple [VStr name; node] false (tupleID t), C).

(** A row of a system table: the name, the node, a fresh identifier and the
    other columns; frozen. *)
Definition make_row (name : string) (vs : list value) (C : Catalog) : res (tuple * Catalog) :=
  let? (tp, C) := Tuple_mk_name name C in
  let '(i, C) := next_identifier C in
  Ok (mkTuple (fields tp ++ VInt64 i :: vs) true (tupleID tp), C).

(** [CommonTable::insert] of a table, without listeners. *)
Definition plain_insert (name : string) (t : tuple) (C : Catalog) : res (bool * Catalog) :=
  let? s := the_table name C in
  let? (b, s) := st_insert t s in
  Ok (b, put_table name s C).

Definition key_list (key : Key) : value := VList ((fun k => VInt64 (Z.of_nat k)) <$> key).

(** [RefTable::RefTable], [Table2::Table2]: the search tuple takes a number. *)
Definition RefTable_new (name : string) (key : Key) (C : Catalog) : catalog_table * Catalog :=
  let '(t, C) := new_tuple C in (StRef (RefTable.mk name key (tupleID t)), C).
Definition Table2_new (name : string) (key : Key) (size : Z) (l : Table2.lifetime) (C : Catalog) : catalog_table * Catalog :=
  let '(t, C) := new_tuple C in (StTable2 (Table2.mk name key size l (tupleID t)), C).

Section insertions.
(** An insertion with its listeners. *)
Variable insert_row : string -> tuple -> Catalog -> res (bool * Catalog).

(** [TableManager::registerTable]; the lifetime -1 stands for none, a [seconds()]
    is the seconds field of a duration. *)
Definition registerTable (tbl : catalog_table) (name : string) (l : Table2.lifetime) (size : Z) (primaryKey : Key)
    (sort : option value) (pid : value) (C : Catalog) : res (tuple * Catalog) :=
  match cat_table name C with
  | Some _ => Fail Thrown
  | None =>
      let C := put_table name tbl C in
      let? ttl := match l with
                  | Table2.PosInfin => Ok (-1)
                  | Table2.Dur d => Ok (Z.rem (Z.quot d (10 ^ 9)) 60)
                  | Table2.NegInfin => Fail Unmodelled
                  end in
      let? _ := of_option AssertFailed (cat_table TABLE C) in
      let? (tp, C) := make_row TABLE [VStr name; VInt64 ttl; VInt64 size; key_list primaryKey; VInt64 0;
                        default VNull sort; pid] C in
      let? (_, C) := insert_row TABLE tp C in
      Ok (tp, C)
  end.

(** The rows of sys::index with the table and the key of a row. *)
Definition index_exists (tp : tuple) (C : Catalog) : res (bool * Catalog) :=
  let? index := the_table INDEX C in
  let? (it, index) := st_lookup2 (theKey KEY34) tp index in
  Ok (negb (done it), put_table INDEX index C).

(** [TableManager::registerIndex] *)
Definition registerIndex (tableName type : string) (key : Key) (C : Catalog) : res Catalog :=
  let? _ := of_option AssertFailed (cat_table INDEX C) in
  match cat_table tableName C with
  | None => Fail Thrown
  | Some _ =>
      let? (tp, C) := make_row INDEX [VStr tableName; key_list key; VStr type; VDouble (round_ratio false 3 10)] C in
      let? (found, C) := index_exists tp C in
      if found then Fail Thrown
      else
        let? (_, C) := insert_row INDEX tp C in
        let? (found, C) := index_exists tp C in
        if found then Ok C else Fail Thrown
  end.

(** [TableManager::createIndex] *)
Definition createIndex (tableName type : string) (key : Key) (C : Catalog) : res (tuple * Catalog) :=
  let? _ := the_table INDEX C in
  let? (tp, C) := make_row INDEX [VStr tableName; key_list key] C in
  let tp := mkTuple (fields tp) false (tupleID tp) in
  let? (found, C) := index_exists tp C in
  if found then Ok (tp, C)
  else
    match cat_table tableName C with
    | None => Fail Thrown
    | Some t =>
        let '(new, t) := st_secondaryIndex key t in
        let C := put_table tableName t C in
        if new then let? C := registerIndex tableName type key C in Ok (tp, C) else Ok (tp, C)
    end.

(** [RefTable::mk(catalog, ...)], [Table2::mk(catalog, ...)] *)
Definition RefTable_make (name : string) (l : Table2.lifetime) (size : Z) (key : Key) (sort : option value) (pid : value)
    (C : Catalog) : res (tuple * Catalog) :=
  let? _ := check (Table2.is_pos_infinity l) AssertFailed in
  let? _ := check (size =? 0) AssertFailed in
  let '(s, C) := RefTable_new name key C in
  let? (tp, C) := registerTable s name l size key sort pid C in
  let? C := registerIndex name "Hash" key C in
  Ok (tp, C).
Definition Table2_make (name : string) (l : Table2.lifetime) (size : Z) (key : Key) (sort : option value) (pid : value)
    (C : Catalog) : res (tuple * Catalog) :=
  let '(s, C) := Table2_new name key size l C in
  let? (tp, C) := registerTable s name l size key sort pid C in
  let? C := registerIndex name "Hash" key C in
  Ok (tp, C).

Fixpoint unsigned_fields (vs : list value) : res Key :=
  match vs with
  | [] => Ok []
  | v :: vs' => let? z := Val_Int64_cast v in let? k := unsigned_fields vs' in Ok (Z.to_nat (u32 z) :: k)
  end.

(** A key in a row: NULL is the identity, a list its fields. *)
Definition key_of_row (v : value) : res Key :=
  match v with VNull => Ok (theKey KEYID) | _ => let? l := Val_List_cast v in unsigned_fields l end.

Definition row_column (row : tuple) (tablename attrname : string) (C : Catalog) : res (value * Catalog) :=
  let? (pos, C) := attribute tablename attrname C in
  let? v := Tuple_at row (Z.to_nat pos) in Ok (v, C).

Context `{P : Platform}.

(** [TableManager::indexListener] *)
Definition indexListener (index : tuple) (C : Catalog) : res Catalog :=
  let? (name, C) := row_column index INDEX "TABLENAME" C in
  let? (_, C) := row_column index INDEX "TYPE" C in
  let? (kv, C) := row_column index INDEX "KEY" C in
  match cat_table (toString name) C with
  | None => Ok C
  | Some _ =>
      let? keys := key_of_row kv in
      let? (_, C) := createIndex (toString name) HASH_INDEX keys C in Ok C
  end.

(** [TableManager::tableListener]; the tables are made in [Plumber::catalog()]. *)
Definition tableListener (row : tuple) (C : Catalog) : res Catalog :=
  let? (name, C) := row_column row TABLE "TABLENAME" C in
  let? (size, C) := row_column row TABLE "SIZE" C in let? size := Val_Int64_cast size in
  let size := (size + 2 ^ 31) mod 2 ^ 32 - 2 ^ 31 in
  let? (lt, C) := row_column row TABLE "LIFETIME" C in
  let? (key, C) := row_column row TABLE "KEY" C in
  let? (_, C) := row_column row TABLE "SORT" C in
  let? (pid, C) := row_column row TABLE "PID" C in
  match cat_table (toString name) C with
  | Some _ => Ok C
  | None =>
      let? l := match lt with
                | VTimeDuration d => Ok (Table2.Dur d)
                | _ =>
                    let? z := Val_Int64_cast lt in
                    if z =? -1 then Ok Table2.PosInfin else let? d := Val_Time_Duration_cast lt in Ok (Table2.Dur d)
                end in
      let size := if size =? -1 then 0 else u32 size in
      let? pk := key_of_row key in
      let? (_, C) :=
        if Table2.is_pos_infinity l && (size =? 0)
        then RefTable_make (toString name) l size pk None pid C
        else Table2_make (toString name) l size pk None pid C in
      Ok C
  end.

(** [TableManager::errorListener] prints the columns it reads. *)
Definition errorListener (error : tuple) (C : Catalog) : res Catalog :=
  let? (_, C) := row_column error PERROR "PNAME" C in
  let? (_, C) := row_column error PERROR "NODEID" C in
  let? (_, C) := row_column error PERROR "CODE" C in
  let? (_, C) := row_column error PERROR "DESC" C in
  Ok C.

(** [TableManager::createForeignKey] *)
Definition createForeignKey (src : string) (fk : Key) (dest : string) (C : Catalog) : res Catalog :=
  let? _ := the_table src C in
  let? _ := the_table dest C in
  if decide ((src, (fk, dest)) ∈ cat_foreignKeys C) then Fail Thrown
  else Ok (with_foreignKeys (cat_foreignKeys C ++ [(src, (fk, dest))]) C).
End insertions.

(** An insertion and, when the row is new and the listeners are in place, what
    they do. *)
Fixpoint insert_row `{P : Platform} (fuel : nat) (name : string) (t : tuple) (C : Catalog) : res (bool * Catalog) :=
  match fuel with
  | O => Fail OutOfFuel
  | S fuel' =>
      let? (b, C) := plain_insert name t C in
      if b && cat_listening C then
        let? C :=
          if (name =? TABLE)%string then tableListener (insert_row fuel') t C
          else if (name =? INDEX)%string then indexListener (insert_row fuel') t C
          else if (name =? PERROR)%string then errorListener t C
          else Ok C in
        Ok (b, C)
      else Ok (b, C)
  end.

(** [TableManager::nodeid(id, addr)]: every row of every table gets the node;
    the iterators run over what the tables held when they were made. *)
Definition rename_row `{P : Platform} (fuel : nat) (id : value) (name : string) (row : tuple) (C : Catalog) : res (tuple * Catalog) :=
  let '(t, C) := new_tuple C in
  let t := mkTuple (fields row) false (tupleID t) in
  let? s := the_table name C in
  let? (_, s) := st_remove t s in
  let C := put_table name s C in
  let? t := Tuple_set t NODE_ID id in
  let? (_, C) := insert_row fuel name t C in
  Ok (t, C).

(** The rows of an iterator in the order it gives them. *)
Definition rows_of (it : IteratorObj) : list tuple := rev (it_spool it).

Fixpoint rename_rows `{P : Platform} (fuel : nat) (id : value) (name : string) (rows : list tuple) (C : Catalog) : res Catalog :=
  match rows with
  | [] => Ok C
  | row :: rows' => let? (_, C) := rename_row fuel id name row C in rename_rows fuel id name rows' C
  end.

Fixpoint rename_tables `{P : Platform} (fuel : nat) (id : value) (rows : list tuple) (C : Catalog) : res Catalog :=
  match rows with
  | [] => Ok C
  | row :: rows' =>
      let? (t, C) := rename_row fuel id TABLE row C in
      let? (v, C) := row_column t TABLE "TABLENAME" C in
      let name := Val_Str_cast v in
      let? s := the_table name C in
      let? (it, s) := st_scan s in
      let? C := rename_rows fuel id name (rows_of it) (put_table name s C) in
      rename_tables fuel id rows' C
  end.

Definition set_nodeid `{P : Platform} (fuel : nat) (id addr : value) (C : Catalog) : res Catalog :=
  let? s := the_table TABLE C in
  let? (it, s) := st_scan s in
  let? C := rename_tables fuel id (rows_of it) (put_table TABLE s C) in
  let? (tp, C) := Tuple_mk_name NODEID C in
  let nid := mkTuple (fields tp ++ [id; addr]) true (tupleID tp) in
  let? (_, C) := insert_row fuel NODEID nid C in
  Ok C.

(** [TableManager::dropTable], [TableManager::dropIndex] *)
Definition dropTable (tableName : string) (C : Catalog) : bool * Catalog := (true, C).
Definition dropIndex (tableName : string) (key : Key) (C : Catalog) : bool * Catalog := (true, C).

(** ** [TableManager::initialize] *)

Fixpoint each {A} (f : A -> Catalog -> res Catalog) (l : list A) (C : Catalog) : res Catalog :=
  match l with [] => Ok C | x :: l' => let? C := f x C in each f l' C end.

(** The two tables that describe tables. *)
Definition is_bootstrap (name : string) : bool := (name =? TABLE)%string || (name =? INDEX)%string.

Definition boot_table (d : string * KeyName * list (string * Z)) (C : Catalog) : res Catalog :=
  let '(name, key, _) := d in
  if is_bootstrap name then
    let '(s, C) := RefTable_new name (theKey key) C in
    let? (_, C) := registerTable plain_insert s name Table2.PosInfin 0 (theKey key) None VNull C in Ok C
  else Ok C.
Definition boot_index (d : string * KeyName * list (string * Z)) (C : Catalog) : res Catalog :=
  let '(name, key, _) := d in
  if is_bootstrap name then registerIndex plain_insert name HASH_INDEX (theKey key) C else Ok C.
Definition boot_other (d : string * KeyName * list (string * Z)) (C : Catalog) : res Catalog :=
  let '(name, key, _) := d in
  if is_bootstrap name then Ok C
  else let? (_, C) := RefTable_make plain_insert name Table2.PosInfin 0 (theKey key) None VNull C in Ok C.

Definition boot_attribute (name : string) (a : string * Z) (C : Catalog) : res Catalog :=
  let? (tp, C) := make_row ATTRIBUTE [VStr name; VStr (fst a); VInt64 (snd a)] C in
  let? (_, C) := plain_insert ATTRIBUTE tp C in Ok C.
Definition boot_attributes (d : string * KeyName * list (string * Z)) (C : Catalog) : res Catalog :=
  let '(name, _, schema) := d in each (boot_attribute name) schema C.

Definition boot_secondary (d : string * KeyName) (C : Catalog) : res Catalog :=
  let? (_, C) := createIndex plain_insert (fst d) HASH_INDEX (theKey (snd d)) C in Ok C.
Definition boot_foreign (d : string * KeyName * string) (C : Catalog) : res Catalog :=
  let '(src, key, dest) := d in
  let? C := createForeignKey src (theKey key) dest C in
  let? (_, C) := createIndex plain_insert dest HASH_INDEX (theKey key) C in Ok C.
Definition boot_function (f : string * Z * string) (C : Catalog) : res Catalog :=
  let '(name, numargs, pel) := f in
  let? (func, C) := make_row FUNCTION [VStr name; VInt64 numargs; VStr pel] C in
  let? (b, C) := plain_insert FUNCTION func C in
  let? _ := check b AssertFailed in Ok C.

(** The constructor, on the functions of systemTable.h; the catalog is installed
    when it returns. *)
Definition empty_catalog : Catalog := mkCatalog ∅ 1 1 [] false false.
Definition catalog_initialize (functions : list (string * Z * string)) : res Catalog :=
  let? C := each boot_table system_tables empty_catalog in
  let? C := each boot_index system_tables C in
  let? C := each boot_other system_tables C in
  let? C := each boot_attributes system_tables C in
  let? C := each boot_secondary secondary_indices C in
  let? C := each boot_foreign foreign_keys C in
  let? C := each boot_function functions C in
  Ok (set_installed (set_listening C)).
End clock.

(** ** What the catalog promises *)

(** The rows of a table, and the catalog of the program. *)
Definition table_rows (name : string) (C : Catalog) : list (list value) :=
  match cat_table name C with
  | Some s => fields <$> spool (t_heap (st_base s)) (t_primary (st_base s))
  | None => []
  end.
Definition boot (now : Z) : res Catalog := catalog_initialize now functions.

(** The table has the index, and sys::index says so. *)
Definition index_recorded (name : string) (key : Key) (C : Catalog) : bool :=
  match cat_table name C with
  | Some (StRef T) => bool_decide (key = t_key T) || (if t_indices T !! key is Some _ then true else false)
  | _ => false
  end
  && Nat.eqb (length (List.filter (fun row => match row with
        | _ :: _ :: _ :: VStr n :: k :: _ => (n =? name)%string && bool_decide (k = key_list key)
        | _ => false
        end) (table_rows INDEX C))) 1.

(** Every column of a system table is where the schema says. *)
Definition columns_found (now : Z) (C : Catalog) (d : string * KeyName * list (string * Z)) : bool :=
  let '(name, _, schema) := d in
  forallb (fun a => match attribute now name (fst a) C with Ok (q, _) => q =? snd a | Fail _ => false end) schema.

(** Every system table is a [RefTable] with its key, has one row in sys::table,
    and its primary index one row in sys::index. *)
Definition table_described (C : Catalog) (d : string * KeyName * list (string * Z)) : bool :=
  let '(name, key, _) := d in
  (match cat_table name C with Some (StRef T) => bool_decide (t_key T = theKey key) | _ => false end)
  && Nat.eqb (length (List.filter (fun row => match row with
        | [_; _; _; VStr n; VInt64 ttl; VInt64 size; k; VInt64 card; VNull; VNull] =>
            (n =? name)%string && (ttl =? -1) && (size =? 0) && (card =? 0) && bool_decide (k = key_list (theKey key))
        | _ => false
        end) (table_rows TABLE C))) 1
  && index_recorded name (theKey key) C.

Definition declared_indices : list (string * KeyName) :=
  secondary_indices ++ ((fun d => (snd d, snd (fst d))) <$> foreign_keys).

Definition boot_checks (now : Z) : bool :=
  match boot now with
  | Ok C =>
      forallb (columns_found now C) system_tables
      && forallb (table_described C) system_tables
      && forallb (fun d => index_recorded (fst d) (theKey (snd d)) C) declared_indices
      && (length (table_rows TABLE C) =? length system_tables)%nat
      && (length (table_rows FUNCTION C) =? length functions)%nat
  | Fail _ => false
  end.

Lemma boot_checks_hold now : boot_checks now = true.
Proof. vm_compute. reflexivity. Qed.

(** the catalog boots: no exception is thrown and no assertion fails.  Then
    [attribute] finds every column of every system table at the position of the
    schema; every system table has its key and exactly one row in sys::table;
    every primary, secondary and foreign-key index exists on its table and has
    exactly one row in sys::index; every function has its row. *)
Theorem catalog_boots (now : Z) : exists C, boot now = Ok C
  /\ (forall name key schema, (name, key, schema) ∈ system_tables ->
        (forall a p, (a, p) ∈ schema -> exists C', attribute now name a C = Ok (p, C'))
        /\ table_described C (name, key, schema) = true)
  /\ (forall name key, (name, key) ∈ declared_indices -> index_recorded name (theKey key) C = true)
  /\ length (table_rows TABLE C) = length system_tables
  /\ length (table_rows FUNCTION C) = length functions.
Proof.
  pose proof (boot_checks_hold now) as H. unfold boot_checks in H. destruct (boot now) as [C|]; [|done]. exists C.
  split; [done|]. bools.
  repeat match goal with H : (_ =? _)%nat = true |- _ => apply Nat.eqb_eq in H end.
  repeat match goal with H : forallb _ _ = true |- _ => rewrite forallb_forall in H end. split_and!; try done.
  - intros name key schema Hin. apply list_elem_of_In in Hin. split; [|auto]. intros a p Ha.
    match goal with Hc : forall x, _ -> columns_found _ _ x = true |- _ => specialize (Hc _ Hin); unfold columns_found in Hc end.
    repeat match goal with H : forallb _ _ = true |- _ => rewrite forallb_forall in H end.
    match goal with Hc : forall x, In x schema -> _ |- _ => specialize (Hc (a, p) (proj1 (list_elem_of_In _ _) Ha)) end.
    simpl in *. destruct (attribute now name a C) as [[q C']|]; [|done]. bools. subst. by exists C'.
  - intros name key Hin. apply list_elem_of_In in Hin.
    match goal with Hc : forall x, In x declared_indices -> _ |- _ => apply (Hc (name, key) Hin) end.
Qed.

(** A table that exists is not registered again; one that is registered is
    found. *)
Theorem registerTable_twice (now : Z) tbl name l size key sort pid C : is_Some (cat_table name C) ->
  forall ins, registerTable now ins tbl name l size key sort pid C = Fail Thrown.
Proof. intros [s Hs] ins. unfold registerTable. by rewrite Hs. Qed.

(** *** What the code does not mean to do *)

(** [attributes] looks up sys::attribute by [KEY3], for which it has no index: it
    dereferences a null iterator whatever the name. *)
Theorem attributes_unusable (now : Z) (name : string) :
  (match boot now with Ok C => match attributes now name C with Fail f => Some f | Ok _ => None end | Fail _ => None end)
  = Some UndefinedBehaviour.
Proof. vm_compute. reflexivity. Qed.

(** The listener on sys::index looks for the row it was called for, finds it and
    makes no index: a program that inserts a row for an index of sys::fact on its
    fifth field gets none. *)
Definition index_request : tuple :=
  mkTuple [VStr INDEX; VNull; VInt64 9999; VStr FACT; VList [VInt64 5]; VStr HASH_INDEX; VDouble (round_ratio false 3 10)] true 777.

Theorem index_rows_make_no_index :
  (match boot 0 with
   | Ok C =>
       match insert_row (P := bare_platform) 0 4 INDEX index_request C with
       | Ok (b, C') =>
           match cat_table FACT C' with
           | Some s => Some (b, length (table_rows INDEX C') - length (table_rows INDEX C), t_indices (st_base s) !! [5])%nat
           | None => None
           end
       | Fail _ => None
       end
   | Fail _ => None
   end) = Some (true, 1%nat, None).
Proof. vm_compute. reflexivity. Qed.

(** A row of sys::table does make a table: of the other class when it has a
    lifetime, with a row of its own in sys::index. *)
Definition table_request : tuple :=
  mkTuple [VStr TABLE; VNull; VInt64 9998; VStr "link"; VInt64 30; VInt64 100; VList [VInt64 1; VInt64 2]; VInt64 0; VNull; VInt64 7] true 778.

Example table_rows_make_tables :
  (match boot 0 with
   | Ok C =>
       match insert_row (P := bare_platform) 0 4 TABLE table_request C with
       | Ok (b, C') =>
           match cat_table "link" C' with
           | Some (StTable2 T) => Some (b, t_key (Table2.t2_base T), Table2.t2_maxSize T, Table2.t2_maxLifetime T,
               index_recorded "link" [1; 2]%nat (put_table "link" (StRef (Table2.t2_base T)) C'))
           | _ => None
           end
       | Fail _ => None
       end
   | Fail _ => None
   end) = Some (true, [1; 2]%nat, 100, Table2.Dur (30 * 10 ^ 9), true).
Proof. vm_compute. reflexivity. Qed.
