(* ===== verification/Program.v ===== *)
(** * Programs in the catalog (src/lang/parse/parseContext.C, compileContext.C)

    The statements of a program, what their constructors make of what the
    grammar hands them, and the rows each of them puts into the system tables.
    [parse] puts tables first, then indices, then the other statements, and the
    row of the program itself comes last.

    A functor's row is inserted before its arguments are known and completed in
    place: the object in the table is the one that is changed ([amend]).  Tuples
    inside values have no identity, so they take no number.  The parser proper
    (bison) is not part of the model: the statements are given. *)

From Stdlib Require Import Ascii String SpecFloat.
From stdpp Require Import gmap strings.
From S2P Require Import Prelude Ids Stl Values Tuples Aggs Keys CommonTable RefTable Table2 Xdr Casts Oper Names Exprs Terms Catalog.

Local Open Scope p2_scope.

Definition PROGRAM_STREAM : string := "sys::program_add".
Definition ERROR_STREAM : string := "sys::error_add".
Definition VERPOS : Z := 2.
Definition compoundRewrite : bool := false.

(** ** Statements *)

Record TableObj := mkTableObj {
  tb_name : string; tb_lifetime : Table2.lifetime; tb_size : Z; tb_keys : Key; tb_versioned : bool
}.

Inductive Statement :=
  | SNamespace (name : string) (statements : list Statement)
  | SRule (r : Rule)
  | SIndex (name type : string) (keys : Key)
  | STable (t : TableObj)
  | SRef (refType : Z) (from to : string) (locSpecField : Z)
  | SWatch (watch modifiers : string)
  | SStage (processor input output : string)
  | SFact (t : tuple).

Section parse.
Context `{P : Platform}.

(** [Val_Int64::cast(e->value())]; a null pointer is followed. *)
Definition int_value (e : Expression) : res Z :=
  let? v := Expression_value e in
  let? v := of_option UndefinedBehaviour v in
  Val_Int64_cast v.

(** [Index::Index]: the loop stops after the first field that is not 0 or 1. *)
Fixpoint index_keys (fieldNum : Z) (keys : list Expression) : res Key :=
  match keys with
  | [] => Ok []
  | e :: keys' =>
      if fieldNum <=? 1 then
        let? z := int_value e in
        let? rest := index_keys (u32 z) keys' in Ok (Z.to_nat (u32 z) :: rest)
      else Ok []
  end.
Definition Index_mk (name type : Expression) (keys : list Expression) : res Statement :=
  let? n := Expression_toString name in
  let? t := Expression_toString type in
  let? k := index_keys 0 keys in Ok (SIndex n t k).

(** [Table::Table]: the leading fields 0 and 1, then the fields the versions and
    the [says] add, then the others, moved behind them. *)
Fixpoint leading_keys (keys : list Expression) : res Key :=
  match keys with
  | [] => Ok []
  | e :: keys' =>
      let? z := int_value e in
      if u32 z <=? 1 then let? rest := leading_keys keys' in Ok (Z.to_nat (u32 z) :: rest) else Ok []
  end.
Fixpoint other_keys (offset : Z) (keys : list Expression) : res Key :=
  match keys with
  | [] => Ok []
  | e :: keys' =>
      let? z := int_value e in
      let f := u32 z in
      let f := if 1 <? f then u32 (f + (offset - 1)) else f in
      let? rest := other_keys offset keys' in Ok (Z.to_nat f :: rest)
  end.
Definition table_keys (says versioned : bool) (keys : list Expression) : res Key :=
  let? front := leading_keys keys in
  let offset := 1 in
  let '(ver, offset) := if compoundRewrite && versioned then ([Z.to_nat VERPOS], offset + 1) else ([], offset) in
  let? _ := check (implb (compoundRewrite && versioned) (VERPOS =? offset)) AssertFailed in
  let '(proof, offset) :=
    if says then ((fun k => Z.to_nat (offset + Z.of_nat k)) <$> seq 1 5, offset + 5) else ([], offset) in
  let? rest := other_keys offset (drop (length front) keys) in
  Ok (front ++ ver ++ proof ++ rest).

(** The constructor; next to the table, the name it adds to
    [materializedSaysTables].  [keys] may be a null pointer. *)
Definition Table_mk (name ttl size : Expression) (keys : option (list Expression)) (says versioned : bool)
    : res (TableObj * option string) :=
  let? n := Expression_toString name in
  let? t := int_value ttl in
  let myTtl := to_i32 t in
  let? lifetime :=
    if myTtl =? -1 then Ok Table2.PosInfin
    else if myTtl =? 0 then Ok (Table2.Dur 0)
    else let? d := seconds_duration myTtl 0 in Ok (Table2.Dur d) in
  let? s := int_value size in
  let s := if s =? -1 then 0 else s in
  let? k := match keys with Some l => table_keys says versioned l | None => Ok [] end in
  Ok (mkTableObj (if says then n +:+ saysSuffix else n) lifetime s k versioned, if says then Some n else None).

(** [Ref::Ref] *)
Definition Ref_mk (refType : Z) (from to locSpecField : Expression) : res Statement :=
  let? f := Expression_toString from in
  let? t := Expression_toString to in
  let? l := int_value locSpecField in
  Ok (SRef (u32 refType) f t (u32 l)).

(** [Fact::Fact]; the number of the tuple is given. *)
Fixpoint fact_values (pos : Z) (a : list Expression) : res (list value) :=
  match a with
  | [] => Ok []
  | e :: a' =>
      let version := if (pos =? VERPOS) && compoundRewrite then [VInt64 0] else [] in
      let? v := match e with
                | EValue v => Ok v
                | EMath _ _ _ => let? v := Expression_value e in of_option AssertFailed v
                | _ => Fail CompileException
                end in
      let? rest := fact_values (pos + 1) a' in Ok (version ++ v :: rest)
  end.
Definition Fact_mk (n : Expression) (a : list Expression) (id : Z) : res Statement :=
  let? name := Expression_toString n in
  let? vs := fact_values 1 a in
  Ok (SFact (mkTuple (VStr name :: vs) true id)).

(** [Context::program(s)]: the rules are canonicalised, those of namespaces as
    they come; the counter is [fict_varnum]. *)
Fixpoint canonicalize_statement (s : Statement) (n : Z) : res (Statement * Z) :=
  match s with
  | SRule r => let? (r, n) := canonicalizeRule r n in Ok (SRule r, n)
  | SNamespace name l =>
      let? (l, n) :=
        (fix all (l : list Statement) (n : Z) : res (list Statement * Z) :=
           match l with
           | [] => Ok ([], n)
           | s :: l' => let? (s, n) := canonicalize_statement s n in let? (l', n) := all l' n in Ok (s :: l', n)
           end) l n in
      Ok (SNamespace name l, n)
  | _ => Ok (s, n)
  end.
Fixpoint canonicalize_all (l : list Statement) (n : Z) : res (list Statement * Z) :=
  match l with
  | [] => Ok ([], n)
  | s :: l' => let? (s, n) := canonicalize_statement s n in let? (l', n) := canonicalize_all l' n in Ok (s :: l', n)
  end.

(** ** Rows *)

Definition has_global_prefix (name : string) : bool := (2 <=? String.length name)%nat && (substring 0 2 name =? "::")%string.
(** A name in a namespace: "::" leads back to the global one. *)
Definition scoped (ns name : string) : string :=
  if has_global_prefix name then substring 2 (String.length name - 2) name else ns +:+ name.

Variable now : Z.

(** [Tuple::mk(name, true)] and [append]. *)
Definition open_row (name : string) (C : Catalog) : res (tuple * Catalog) :=
  let? (tp, C) := Tuple_mk_name now name C in
  let '(i, C) := next_identifier C in
  Ok (mkTuple (fields tp ++ [VInt64 i]) false (tupleID tp), C).
Definition row_add (vs : list value) (t : tuple) : tuple := mkTuple (fields t ++ vs) (frozen t) (tupleID t).
Definition row_freeze (t : tuple) : tuple := mkTuple (fields t) true (tupleID t).

(** The node that [Tuple::mk(name)] writes into the tuples of expressions. *)
Definition node_value (C : Catalog) : res (value * Catalog) :=
  if cat_installed C then let? (n, C) := nodeid now C in Ok (default VNull n, C) else Ok (VNull, C).
Definition expression_row (e : Expression) (C : Catalog) : res (value * Catalog) :=
  let? (node, C) := node_value C in
  let? v := Expression_tuple node e in Ok (v, C).
Fixpoint expression_rows (l : list Expression) (C : Catalog) : res (list value * Catalog) :=
  match l with
  | [] => Ok ([], C)
  | e :: l' => let? (v, C) := expression_row e C in let? (vs, C) := expression_rows l' C in Ok (v :: vs, C)
  end.

(** A change of the object with this number, wherever a table has it. *)
Definition amend_entry (t : tuple) (e : Entry) : Entry :=
  match e_tuple e with
  | Some u => if tupleID u =? tupleID t then mkEntry (Some t) (e_time e) (e_refCount e) else e
  | None => e
  end.
Definition st_amend (t : tuple) (s : catalog_table) : catalog_table :=
  match s with
  | StRef T => StRef (with_heap (amend_entry t <$> t_heap T) T)
  | StTable2 T => StTable2 (Table2.with_base (with_heap (amend_entry t <$> t_heap (Table2.t2_base T)) (Table2.t2_base T)) T)
  end.
Definition amend (name : string) (t : tuple) (C : Catalog) : res Catalog :=
  let? s := the_table name C in Ok (put_table name (st_amend t s) C).

Definition bool_int (b : bool) : value := VInt64 (if b then 1 else 0).

(** [set(catalog->attribute(table, column), v)] *)
Definition set_column (table column : string) (v : value) (t : tuple) (C : Catalog) : res (tuple * Catalog) :=
  let? (p, C) := attribute now table column C in
  let? t := Tuple_set t (Z.to_nat p) v in Ok (t, C).
Definition get_column (table column : string) (t : tuple) (C : Catalog) : res (value * Catalog) :=
  let? (p, C) := attribute now table column C in
  let? v := Tuple_at t (Z.to_nat p) in Ok (v, C).

(** The identifier of the table of that name, if there is one. *)
Definition find_table (tp : tuple) (C : Catalog) : res (option tuple * Catalog) :=
  let? (p, C) := attribute now FUNCTOR "NAME" C in
  let? t := the_table TABLE C in
  let? (it, t) := st_lookup3 now [Z.to_nat p] (theKey KEY3) tp t in
  let? it := of_option UndefinedBehaviour it in
  Ok (fst (CommonTable.next it), put_table TABLE t C).

Definition functor_scope (ns name : string) : string :=
  if has_global_prefix name then scoped ns name else if String.eqb name "periodic" then name else ns +:+ name.

(** [Functor::materialize] *)
Definition new_row (F : Functor) (fid : value) (C : Catalog) : res Catalog :=
  let? (tp, C) := open_row NEW C in
  let? l := of_option UndefinedBehaviour (f_locSpec F) in let? (l, C) := expression_row l C in
  let? o := of_option UndefinedBehaviour (f_opaque F) in let? (o, C) := expression_row o C in
  let? h := of_option UndefinedBehaviour (f_hint F) in let? (h, C) := expression_row h C in
  let? (_, C) := plain_insert now NEW (row_freeze (row_add [fid; l; o; h] tp)) C in Ok C.
Definition functor_row (F : Functor) (ruleId : value) (ns : string) (pos : Z) (C : Catalog) : res (tuple * Catalog) :=
  let? (tp, C) := open_row FUNCTOR C in
  let tp := row_add [ruleId; bool_int (f_complement F); VStr (functor_scope ns (f_name F))] tp in
  let? (table, C) := find_table tp C in
  let? tid :=
    match table with
    | Some row => if f_complement F && (pos =? 0) then Fail CompileException else Tuple_at row 2
    | None => if f_complement F then Fail CompileException else Ok VNull
    end in
  let tp := row_add [tid; VNull; VNull; VInt64 pos; VNull; bool_int (f_new F)] tp in
  let? (_, C) := plain_insert now FUNCTOR tp C in
  let? (attributes, C) := expression_rows (f_args F) C in
  let? (tp, C) := set_column FUNCTOR "ATTRIBUTES" (VList attributes) tp C in
  let tp := row_freeze tp in
  let? C := amend FUNCTOR tp C in
  let? (_, C) := plain_insert now FUNCTOR tp C in
  let? C := if f_new F then let? fid := Tuple_at tp 2 in new_row F fid C else Ok C in
  Ok (tp, C).

(** [Says::materialize] *)
Definition functor_materialize (F : Functor) (ruleId : value) (ns : string) (pos : Z) (C : Catalog) : res (tuple * Catalog) :=
  let? (functorTp, C) := functor_row F ruleId ns pos C in
  match f_says F with
  | None => Ok (functorTp, C)
  | Some says =>
      let? (tp, C) := open_row SAYS C in
      let? fid := Tuple_at functorTp 2 in
      let? (attributes, C) := expression_rows says C in
      let? (_, C) := plain_insert now SAYS (row_freeze (row_add [fid; VList attributes] tp)) C in
      Ok (functorTp, C)
  end.

(** [Assign::materialize], [Select::materialize] *)
Definition term_materialize (t : Term) (ruleId : value) (ns : string) (pos : Z) (C : Catalog) : res (tuple * Catalog) :=
  match t with
  | TFunctor F => functor_materialize F ruleId ns pos C
  | TAssign v a =>
      let? (tp, C) := open_row ASSIGN C in
      let? v := of_option UndefinedBehaviour v in
      let? (variable, C) := expression_row v C in
      let? (value, C) := expression_row a C in
      let tp := row_freeze (row_add [ruleId; variable; value; VInt64 pos] tp) in
      let? (_, C) := plain_insert now ASSIGN tp C in Ok (tp, C)
  | TSelect s =>
      let? (tp, C) := open_row SELECT C in
      let? s := of_option UndefinedBehaviour s in
      let? (boolExpr, C) := expression_row s C in
      let tp := row_freeze (row_add [ruleId; boolExpr; VInt64 pos; VNull] tp) in
      let? (_, C) := plain_insert now SELECT tp C in Ok (tp, C)
  end.
Fixpoint terms_materialize (l : list Term) (ruleId : value) (ns : string) (pos : Z) (C : Catalog) : res Catalog :=
  match l with
  | [] => Ok C
  | t :: l' => let? (_, C) := term_materialize t ruleId ns pos C in terms_materialize l' ruleId ns (pos + 1) C
  end.

(** [Rule::materialize] *)
Definition rule_materialize (r : Rule) (programID : value) (ns : string) (C : Catalog) : res (tuple * Catalog) :=
  let? (tp, C) := open_row RULE C in
  let tp := row_add [programID; VStr (r_name r)] tp in
  let? rid := Tuple_at tp 2 in
  let? (headTp, C) := functor_materialize (r_head r) rid ns 0 C in
  let? fid := Tuple_at headTp 2 in
  let tp := row_freeze (row_add [fid; VNull; bool_int (r_delete r); VInt64 (Z.of_nat (length (r_body r)) + 1); bool_int (r_new r)] tp) in
  let? (_, C) := plain_insert now RULE tp C in
  let? C := terms_materialize (r_body r) rid ns 1 C in
  Ok (tp, C).

(** [Watch::materialize]: a row for each modifier that is not there yet; without
    modifiers, one with the empty text. *)
Fixpoint watch_rows (mods : list string) (watch : string) (programId : value) (ns : string) (C : Catalog) : res Catalog :=
  match mods with
  | [] => Ok C
  | m :: mods' =>
      let? (tp, C) := open_row WATCH C in
      let tp := row_add [programId; VStr (scoped ns watch); VStr m] tp in
      let? (kn, C) := attribute now WATCH "NAME" C in
      let? (km, C) := attribute now WATCH "MOD" C in
      let key := [Z.to_nat kn; Z.to_nat km] in
      let? t := the_table WATCH C in
      let? (it, t) := st_lookup3 now key key tp t in
      let C := put_table WATCH t C in
      let? it := of_option UndefinedBehaviour it in
      let? C := if done it then let? (_, C) := plain_insert now WATCH (row_freeze tp) C in Ok C else Ok C in
      watch_rows mods' watch programId ns C
  end.
Definition watch_materialize (watch modifiers : string) (programId : value) (ns : string) (C : Catalog) : res Catalog :=
  let? (_, C) := attribute now WATCH "NAME" C in
  let? (_, C) := attribute now WATCH "MOD" C in
  let mods := if String.eqb modifiers "" then [""%string]
              else (fun c => String c EmptyString) <$> String.list_ascii_of_string modifiers in
  watch_rows mods watch programId ns C.

(** [Stage::materialize], [Fact::materialize], [Ref::materialize] *)
Definition stage_materialize (processor input output : string) (programID : value) (ns : string) (C : Catalog) : res Catalog :=
  let? (tp, C) := open_row STAGE C in
  let tp := row_freeze (row_add [programID; VStr processor; VStr (scoped ns input); VStr (scoped ns output)] tp) in
  let? (_, C) := plain_insert now STAGE tp C in Ok C.
Definition fact_materialize (t : tuple) (parentKey : value) (ns : string) (C : Catalog) : res Catalog :=
  let? v := Tuple_at t 0 in
  let name := scoped ns (toString v) in
  let vs := <[0%nat := VStr name]> (fields t) in
  let? (tp, C) := open_row FACT C in
  let tp := row_freeze (row_add [parentKey; VStr name; VTuple vs] tp) in
  let? (_, C) := plain_insert now FACT tp C in Ok C.
Definition ref_materialize (refType : Z) (from to : string) (locSpecField : Z) (parentKey : value) (ns : string) (C : Catalog) : res Catalog :=
  let? (tp, C) := open_row REF C in
  let tp := row_freeze (row_add [parentKey; VStr (scoped ns from); VStr (scoped ns to); VInt64 locSpecField; VInt64 refType] tp) in
  let? (_, C) := plain_insert now REF tp C in Ok C.

(** [Table::materialize], [Index::materialize]; insertions into sys::table and
    sys::index call listeners, whose depth is bounded. *)
Variable fuel : nat.

Definition table_materialize (t : TableObj) (parentKey : value) (ns : string) (C : Catalog) : res Catalog :=
  let name := scoped ns (tb_name t) in
  let size := u32 (tb_size t) in
  let? (_, C) :=
    if Table2.is_pos_infinity (tb_lifetime t) && (tb_size t =? 0)
    then RefTable_make now (insert_row now fuel) name (tb_lifetime t) size (tb_keys t) None parentKey C
    else Table2_make now (insert_row now fuel) name (tb_lifetime t) size (tb_keys t) None parentKey C in
  Ok C.
Definition index_materialize (name type : string) (keys : Key) (ns : string) (C : Catalog) : res Catalog :=
  let? (_, C) := createIndex now (insert_row now fuel) (scoped ns name) type keys C in Ok C.

(** ** [Namespace::materialize], [Context::parse] *)

Inductive Pass := PassTable | PassIndex | PassOther.
Definition in_pass (p : Pass) (s : Statement) : bool :=
  match p, s with
  | PassTable, STable _ => true
  | PassIndex, SIndex _ _ _ => true
  | PassOther, (STable _ | SIndex _ _ _) => false
  | PassOther, _ => true
  | _, _ => false
  end.

(** The statements of one pass; the three passes over a list. *)
Fixpoint pass_over (f : Statement -> Catalog -> res Catalog) (p : Pass) (l : list Statement) (C : Catalog) : res Catalog :=
  match l with
  | [] => Ok C
  | s :: l' => let? C := if in_pass p s then f s C else Ok C in pass_over f p l' C
  end.
Definition passes (f : Statement -> Catalog -> res Catalog) (l : list Statement) (C : Catalog) : res Catalog :=
  let? C := pass_over f PassTable l C in
  let? C := pass_over f PassIndex l C in
  pass_over f PassOther l C.

Fixpoint statement_materialize (s : Statement) (pid : value) (ns : string) (C : Catalog) : res Catalog :=
  match s with
  | SNamespace name l => passes (fun s => statement_materialize s pid (ns +:+ name +:+ "::")) l C
  | SRule r => let? (_, C) := rule_materialize r pid ns C in Ok C
  | SIndex name type keys => index_materialize name type keys ns C
  | STable t => table_materialize t pid ns C
  | SRef refType from to l => ref_materialize refType from to l pid ns C
  | SWatch w m => watch_materialize w m pid ns C
  | SStage p i o => stage_materialize p i o pid ns C
  | SFact t => fact_materialize t pid ns C
  end.

(** [Context::parse], of statements the grammar has accepted and canonicalised. *)
Definition parse (pid : value) (l : list Statement) (C : Catalog) : res Catalog :=
  passes (fun s => statement_materialize s pid "") l C.

(** [Context::Context(args)] with a program: its row goes in when its statements
    have. *)
Definition parse_context (status prog : string) (l : list Statement) (C : Catalog) : res Catalog :=
  let? (tp, C) := open_row PROGRAM C in
  let? (source, C) := nodeid now C in
  let? source := of_option AssertFailed source in
  let tp := row_freeze (row_add [VStr "main"; VNull; VStr status; VStr prog; VNull; VNull; source] tp) in
  let? pid := Tuple_at tp 2 in
  let? C := parse pid l C in
  let? (_, C) := plain_insert now PROGRAM tp C in Ok C.

(** [Tuple::clone] *)
Definition Tuple_clone (t : tuple) (C : Catalog) : tuple * Catalog :=
  let '(n, C) := new_tuple C in (mkTuple (fields t) false (tupleID n), C).
Definition Tuple_clone_name (name : string) (newid : bool) (t : tuple) (C : Catalog) : res (tuple * Catalog) :=
  if newid then let? (tp, C) := open_row name C in Ok (row_add (drop 3 (fields t)) tp, C)
  else let? (tp, C) := Tuple_mk_name now name C in Ok (row_add (drop 2 (fields t)) tp, C).

(** [Context::program(catalog, program)] of the parser's stage, on the statements
    of the text. *)
Definition parse_program (l : list Statement) (program : tuple) (C : Catalog) : res (tuple * Catalog) :=
  let? (_, C) := get_column PROGRAM "TEXT" program C in
  let? pid := Tuple_at program 2 in
  let? C := parse pid l C in
  let? (p, C) := Tuple_clone_name PROGRAM_STREAM false program C in
  Ok (row_freeze p, C).

(** ** [compile::Context] *)

(** [Context::program] of the other stages: [rule] is called on the rules that
    the program has when the loop starts. *)
Fixpoint each_rule (rule : tuple -> Catalog -> res Catalog) (l : list tuple) (C : Catalog) : res Catalog :=
  match l with [] => Ok C | r :: l' => let? C := rule r C in each_rule rule l' C end.
Definition rows_with (name : string) (from to : Key) (t : tuple) (C : Catalog) : res (list tuple * Catalog) :=
  let? s := the_table name C in
  let? (it, s) := st_lookup3 now from to t s in
  let? it := of_option UndefinedBehaviour it in
  Ok (rows_of it, put_table name s C).
Definition stage_program (rule : tuple -> Catalog -> res Catalog) (program : tuple) (C : Catalog) : res (tuple * Catalog) :=
  let? (rules, C) := rows_with RULE (theKey KEY2) (theKey KEY3) program C in
  let? C := each_rule rule rules C in
  let? (p, C) := Tuple_clone_name PROGRAM_STREAM false program C in
  Ok (row_freeze p, C).

(** [Context::error], which the listener on sys::error prints. *)
Definition stage_error (program : tuple) (code : Z) (desc : string) (C : Catalog) : res Catalog :=
  let '(t, C) := new_tuple C in
  let? (source, C) := get_column PROGRAM "SOURCE" program C in
  let? (pid, C) := get_column PROGRAM "PID" program C in
  let? (name, C) := get_column PROGRAM "NAME" program C in
  let? (node, C) := nodeid now C in
  let? node := of_option AssertFailed node in
  let tp := mkTuple [VStr ERROR_STREAM; source; pid; name; node; VInt64 code; VStr desc] true (tupleID t) in
  let? (_, C) := insert_row now fuel PERROR tp C in Ok C.
End parse.

(** The fields of an index after the first one past 1 are not kept: an index on the
    fields 2 and 3 is one on field 2. *)
Lemma index_keys_dropped `{P : Platform} e keys z f :
  int_value e = Ok z -> 1 < u32 z -> 0 <= f <= 1 -> index_keys f (e :: keys) = Ok [Z.to_nat (u32 z)].
Proof.
  intros He Hz Hf. cbn. rewrite (proj2 (Z.leb_le f 1)) by lia. rewrite He. cbn.
  destruct keys as [|e' keys]; cbn; [done|]. by rewrite (proj2 (Z.leb_gt (u32 z) 1)) by lia.
Qed.
