(* ===== verification/EcaStage.v ===== *)
(** * The event-condition-action stage (src/lang/eca/ecaContext.C)

    [rule] finds the event of a rule among the rows of its functors, marks it
    with the kind of event it is, marks the head with the kind of action and the
    other functors as probes, and numbers the terms so that the event comes first.
    All of it happens in the rows of sys::predicate, sys::assign and sys::select.

    The rows a lookup delivers are those the table held when it was made. *)

From Stdlib Require Import Ascii String.
From S2P Require Import Prelude Ids Stl Values Tuples Aggs Keys CommonTable RefTable Table2 Casts Oper Names Exprs Terms Catalog Program.

Local Open Scope p2_scope.

(** ** Decisions *)

(** The functors of a rule's body as the first loop sorts them. *)
Record Parts := mkParts { pt_event : option tuple; pt_alternate : option tuple; pt_probes : list tuple }.

Section eca.
Context `{P : Platform}.

(** What the loop does with a functor that is not the head: without a table it is
    the event, with one it is a probe; with a mark of its own it may be the event. *)
Definition sort_functor (tid eca : value) (functor : tuple) (p : Parts) : res Parts :=
  let? no_table := op_eq tid VNull in
  let? p :=
    if (no_table : bool) then
      match pt_event p with
      | Some _ => Fail CompileException
      | None => Ok (mkParts (Some functor) (pt_alternate p) (pt_probes p))
      end
    else Ok (mkParts (pt_event p) (pt_alternate p) (pt_probes p ++ [functor])) in
  let? marked := op_neq eca VNull in
  if marked && negb (String.eqb (toString eca) "PROBE") then
    match pt_alternate p with
    | Some _ => Fail CompileException
    | None => Ok (mkParts (pt_event p) (Some functor) (pt_probes p))
    end
  else Ok p.

(** The object is taken out of the probes. *)
Fixpoint erase_object (t : tuple) (l : list tuple) : list tuple :=
  match l with
  | [] => []
  | u :: l' => if tupleID u =? tupleID t then l' else u :: erase_object t l'
  end.
Definition choose_event (p : Parts) : res (tuple * list tuple) :=
  match pt_event p, pt_alternate p with
  | Some e, _ => Ok (e, pt_probes p)
  | None, Some a => Ok (a, erase_object a (pt_probes p))
  | None, None => match pt_probes p with [e] => Ok (e, []) | _ => Fail CompileException end
  end.

(** The mark of the event, if it gets one. *)
Definition is_periodic (name : string) : bool :=
  (8 <=? String.length name)%nat && String.eqb (substring (String.length name - 8) (String.length name) name) "periodic".
Definition event_mark (name : string) (tid eca : value) : res (option string) :=
  if is_periodic name then Ok (Some "INSERT")
  else
    let? stored := op_neq tid VNull in
    let? unmarked := (if (stored : bool) then op_eq eca VNull else Ok false) in
    if (unmarked : bool) then Ok (Some "DELTA_INSERT")
    else let? unmarked := op_eq eca VNull in Ok (if (unmarked : bool) then Some "RECV" else None).

(** The positions of the terms up to the event move up by one. *)
Definition moved (eventPos oldPos : Z) : option Z := if oldPos <=? eventPos then Some (u32 (oldPos + 1)) else None.

(** ** [Context::rule] *)

Variable now : Z.

Fixpoint sort_functors (rule : tuple) (l : list tuple) (p : Parts) (C : Catalog) : res (Parts * Catalog) :=
  match l with
  | [] => Ok (p, C)
  | f :: l' =>
      let? fid := Tuple_at f 2 in
      let? (head, C) := get_column now RULE "HEAD_FID" rule C in
      let? body := op_neq fid head in
      let? (p, C) :=
        if (body : bool) then
          let? (tid, C) := get_column now FUNCTOR "TID" f C in
          let? (eca, C) := get_column now FUNCTOR "ECA" f C in
          let? p := sort_functor tid eca f p in Ok (p, C)
        else Ok (p, C) in
      sort_functors rule l' p C
  end.

(** Rows of a table that belong to the rule get their new position; those that
    keep theirs are not written. *)
Definition move_row (table : string) (eventPos : Z) (row : tuple) (C : Catalog) : res Catalog :=
  let '(tp, C) := Tuple_clone row C in
  let? (pos, C) := get_column now table "POSITION" tp C in
  let? old := Val_Int64_cast pos in
  match moved eventPos (u32 old) with
  | Some p =>
      let? (tp, C) := set_column now table "POSITION" (VInt64 p) tp C in
      let? (b, C) := plain_insert now table (row_freeze tp) C in
      if (b : bool) then Ok C else Fail CompileException
  | None => Ok C
  end.
Fixpoint move_rows (table : string) (eventPos : Z) (l : list tuple) (C : Catalog) : res Catalog :=
  match l with [] => Ok C | r :: l' => let? C := move_row table eventPos r C in move_rows table eventPos l' C end.

Definition probe_row (eventPos : Z) (row : tuple) (C : Catalog) : res Catalog :=
  let '(tp, C) := Tuple_clone row C in
  let? (tp, C) := set_column now FUNCTOR "ECA" (VStr "PROBE") tp C in
  let? (pos, C) := get_column now FUNCTOR "POSITION" tp C in
  let? old := Val_Int64_cast pos in
  let? (tp, C) :=
    match moved eventPos (u32 old) with
    | Some p => set_column now FUNCTOR "POSITION" (VInt64 p) tp C
    | None => Ok (tp, C)
    end in
  let? (_, C) := plain_insert now FUNCTOR (row_freeze tp) C in Ok C.
Fixpoint probe_rows (eventPos : Z) (l : list tuple) (C : Catalog) : res Catalog :=
  match l with [] => Ok C | r :: l' => let? C := probe_row eventPos r C in probe_rows eventPos l' C end.

Definition event_row (event : tuple) (C : Catalog) : res (Z * tuple * Catalog) :=
  let '(tp, C) := Tuple_clone event C in
  let? (name, C) := get_column now FUNCTOR "NAME" event C in
  let? (tid, C) := get_column now FUNCTOR "TID" event C in
  let? (eca, C) := get_column now FUNCTOR "ECA" event C in
  let? mark := event_mark (toString name) tid eca in
  let? (tp, C) := match mark with Some m => set_column now FUNCTOR "ECA" (VStr m) tp C | None => Ok (tp, C) end in
  let? (pos, C) := get_column now FUNCTOR "POSITION" tp C in
  let? old := Val_Int64_cast pos in
  let? (tp, C) := set_column now FUNCTOR "POSITION" (VInt64 1) tp C in
  Ok (u32 old, row_freeze tp, C).

(** [headEca] *)
Definition head_mark (rule head : tuple) (C : Catalog) : res (string * Catalog) :=
  let? (tid, C) := get_column now FUNCTOR "TID" head C in
  let? stored := op_neq tid VNull in
  if (stored : bool) then
    let? (del, C) := get_column now RULE "DELETE" rule C in
    let? d := Val_Int64_cast del in
    Ok (if d =? 0 then "ADD" else "DELETE", C)
  else Ok ("SEND", C).
Definition head_row (rule head : tuple) (C : Catalog) : res (tuple * Catalog) :=
  let? (mark, C) := head_mark rule head C in
  let? (head, C) := set_column now FUNCTOR "ECA" (VStr mark) head C in
  let? (head, C) := set_column now FUNCTOR "POSITION" (VInt64 0) head C in
  Ok (row_freeze head, C).

Definition plain_remove (name : string) (t : tuple) (C : Catalog) : res (bool * Catalog) :=
  let? s := the_table name C in
  let? (b, s) := st_remove now t s in
  Ok (b, put_table name s C).

Definition eca_rule (rule : tuple) (C : Catalog) : res Catalog :=
  let? (functors, C) := rows_with now FUNCTOR (theKey KEY2) (theKey KEY3) rule C in
  let? (p, C) := sort_functors rule functors (mkParts None None []) C in
  let? (event, probes) := choose_event p in
  let? (heads, C) := rows_with now FUNCTOR (theKey KEY5) (theKey KEY2) rule C in
  let? head := of_option CompileException (heads !! 0%nat) in
  let '(ecaHead, C) := Tuple_clone head C in
  let? (eventPos, ecaEvent, C) := event_row event C in
  let? (_, C) := plain_insert now FUNCTOR ecaEvent C in
  let? (ecaHead, C) := head_row rule ecaHead C in
  let? (_, C) := plain_remove FUNCTOR ecaHead C in
  let? (b, C) := plain_insert now FUNCTOR ecaHead C in
  let? _ := check b CompileException in
  let? C := probe_rows eventPos probes C in
  let? (k, C) := attribute now ASSIGN "RID" C in
  let? (assigns, C) := rows_with now ASSIGN (theKey KEY2) [Z.to_nat k] rule C in
  let? C := move_rows ASSIGN eventPos assigns C in
  let? (k, C) := attribute now SELECT "RID" C in
  let? (selects, C) := rows_with now SELECT (theKey KEY2) [Z.to_nat k] rule C in
  move_rows SELECT eventPos selects C.
Definition eca_program (program : tuple) (C : Catalog) : res (tuple * Catalog) := stage_program now eca_rule program C.
End eca.

(** ** One event, and it comes first *)

(** The position of a term that is not the event, afterwards. *)
Definition new_position (eventPos p : Z) : Z := default p (moved eventPos p).

Lemma new_position_eq e p : 0 <= p < 2 ^ 32 - 1 -> new_position e p = if p <=? e then p + 1 else p.
Proof. intros Hp. unfold new_position, moved. destruct (p <=? e); [|done]. cbn. unfold u32. by rewrite Z.mod_small by lia. Qed.

(** If the terms of a rule's body are numbered from 1 without gaps, the stage
    numbers them so again: the event is the first and the others keep their order. *)
Theorem eca_numbering (n : nat) (e : Z) (others : list Z) :
  Permutation (e :: others) (seqZ 1 (Z.of_nat n)) -> Z.of_nat n < 2 ^ 32 - 1 ->
  Permutation (1 :: (new_position e <$> others)) (seqZ 1 (Z.of_nat n))
  /\ forall p q, p ∈ others -> q ∈ others -> (p < q <-> new_position e p < new_position e q).
Proof.
  intros HP Hn.
  assert (Hin : forall p, p ∈ e :: others <-> 1 <= p < 1 + Z.of_nat n) by (intros p; rewrite HP; apply elem_of_seqZ).
  assert (HND : NoDup (e :: others)) by (rewrite HP; apply NoDup_seqZ). apply NoDup_cons in HND as [He HND].
  assert (Hpos : forall p, p ∈ others -> 1 <= p < 1 + Z.of_nat n /\ p <> e /\ new_position e p = if p <=? e then p + 1 else p).
  { intros p Hp. assert (1 <= p < 1 + Z.of_nat n) by (apply Hin; set_solver). split_and!; [lia..|by intros ->|apply new_position_eq; lia]. }
  assert (Hmono : forall p q, p ∈ others -> q ∈ others -> (p < q <-> new_position e p < new_position e q)).
  { intros p q Hp Hq. destruct (Hpos p Hp) as (? & ? & ->), (Hpos q Hq) as (? & ? & ->).
    destruct (Z.leb_spec p e), (Z.leb_spec q e); lia. }
  split; [|done]. assert (He1 : 1 <= e < 1 + Z.of_nat n) by (apply Hin; set_solver).
  apply NoDup_Permutation; [|apply NoDup_seqZ|].
  - apply NoDup_cons. split.
    + intros (p & E & Hp)%list_elem_of_fmap. destruct (Hpos p Hp) as (? & ? & E'). rewrite E' in E. destruct (Z.leb_spec p e); lia.
    + apply NoDup_fmap_2_strong; [|done]. intros p q Hp Hq E. pose proof (Hmono p q Hp Hq). pose proof (Hmono q p Hq Hp). lia.
  - intros x. rewrite elem_of_cons, elem_of_seqZ, list_elem_of_fmap. split.
    + intros [->|(p & -> & Hp)]; [lia|]. destruct (Hpos p Hp) as (? & ? & ->). destruct (Z.leb_spec p e); lia.
    + intros Hx. destruct (decide (x = 1)) as [|Hx1]; [by left|right].
      assert (Hy : exists y, y ∈ others /\ new_position e y = x); [|destruct Hy as (y & Hy & <-); by exists y].
      assert (Hmem : forall y, 1 <= y < 1 + Z.of_nat n -> y <> e -> y ∈ others) by (intros y Hy Hye; apply Hin in Hy; set_solver).
      destruct (Z.leb_spec x e).
      * exists (x - 1). assert (x - 1 ∈ others) by (apply Hmem; lia). split; [done|]. destruct (Hpos _ ltac:(eassumption)) as (? & ? & ->). destruct (Z.leb_spec (x - 1) e); lia.
      * exists x. assert (x ∈ others) by (apply Hmem; lia). split; [done|]. destruct (Hpos _ ltac:(eassumption)) as (? & ? & ->). destruct (Z.leb_spec x e); lia.
Qed.

Lemma erase_object_perm t l : t ∈ l -> NoDup (tupleID <$> l) -> Permutation l (t :: erase_object t l).
Proof.
  induction l as [|u l IH]; intros Ht Hn; [by apply elem_of_nil in Ht|]. cbn in *. apply NoDup_cons in Hn as [Hu Hn].
  destruct (Z.eqb_spec (tupleID u) (tupleID t)) as [E|E].
  - apply elem_of_cons in Ht as [->|Ht]; [done|]. exfalso. apply Hu. rewrite E. apply list_elem_of_fmap. by exists t.
  - apply elem_of_cons in Ht as [->|Ht]; [done|]. rewrite (IH Ht Hn) at 1. by apply Permutation_swap.
Qed.

Section split.
Context `{P : Platform} (now : Z).

(** What the loop has put in its place: the functors that are not heads. *)
Definition placed (p : Parts) : list tuple := option_list (pt_event p) ++ pt_probes p.

Lemma sort_functor_placed tid eca f p p' : sort_functor tid eca f p = Ok p' ->
  Permutation (placed p') (f :: placed p) /\ forall a, pt_alternate p' = Some a -> a = f \/ pt_alternate p = Some a.
Proof.
  unfold sort_functor. destruct (op_eq tid VNull) as [[]|]; [| |done]; cbn [rbind].
  - destruct (pt_event p) eqn:Ee; [done|]. cbn [rbind]. destruct (op_neq eca VNull) as [m|]; [|done]. cbn [rbind pt_alternate pt_event pt_probes].
    destruct (m && _); [destruct (pt_alternate p); [done|]|]; intros [= <-]; unfold placed; rewrite Ee; cbn; split; naive_solver.
  - destruct (op_neq eca VNull) as [m|]; [|done]. cbn [rbind pt_alternate pt_event pt_probes].
    assert (HP : Permutation (option_list (pt_event p) ++ pt_probes p ++ [f]) (f :: option_list (pt_event p) ++ pt_probes p))
      by (rewrite app_assoc; by rewrite Permutation_app_comm).
    destruct (m && _); [destruct (pt_alternate p); [done|]|]; intros [= <-]; unfold placed; cbn; (split; [done|naive_solver]).
Qed.

Definition alternate_placed (p : Parts) : Prop := forall a, pt_alternate p = Some a -> a ∈ placed p.

Lemma sort_functors_placed rule l : forall p C p' C', sort_functors now rule l p C = Ok (p', C') -> alternate_placed p ->
  alternate_placed p' /\ exists heads, Permutation (placed p ++ l) (placed p' ++ heads).
Proof.
  induction l as [|f l IH]; intros p C p' C' E HA; cbn in E; [injection E as <- <-; split; [done|by exists []]|].
  destruct (Tuple_at f 2) as [fid|]; [|done]. cbn [rbind] in E. destruct (get_column now RULE "HEAD_FID" rule C) as [[h C1]|]; [|done]. cbn [rbind] in E.
  destruct (op_neq fid h) as [[]|]; [| |done]; cbn [rbind] in E.
  - destruct (get_column now FUNCTOR "TID" f C1) as [[tid C2]|]; [|done]. cbn [rbind] in E.
    destruct (get_column now FUNCTOR "ECA" f C2) as [[eca C3]|]; [|done]. cbn [rbind] in E.
    destruct (sort_functor tid eca f p) as [p1|] eqn:E1; [|done]. cbn [rbind] in E.
    destruct (sort_functor_placed _ _ _ _ _ E1) as [HP HA1]. destruct (IH _ _ _ _ E) as (HA2 & heads & HP2).
    { intros a Ha. rewrite HP. destruct (HA1 a Ha) as [->|Ha1]; [apply list_elem_of_here|]. by apply list_elem_of_further, HA. }
    split; [done|]. exists heads. rewrite <- HP2, HP. cbn. by rewrite Permutation_middle.
  - destruct (IH _ _ _ _ E HA) as (HA2 & heads & HP2). split; [done|]. exists (f :: heads).
    rewrite <- !Permutation_middle, HP2. done.
Qed.

(** The event and the probes are the functors of the rule without heads, each
    once. *)
Lemma eca_splits rule l C p C' e probes : NoDup (tupleID <$> l) ->
  sort_functors now rule l (mkParts None None []) C = Ok (p, C') -> choose_event p = Ok (e, probes) ->
  exists heads, Permutation l (e :: probes ++ heads).
Proof.
  intros HN E Hc. destruct (sort_functors_placed _ _ _ _ _ _ E) as (HA & heads & HP); [done|]. cbn in HP. exists heads. rewrite HP. rewrite HP in HN.
  unfold choose_event in Hc. unfold placed, alternate_placed in *. destruct (pt_event p) as [ev|] eqn:Ee; [by injection Hc as <- <-|].
  cbn in *. destruct (pt_alternate p) as [a|] eqn:Ea.
  - injection Hc as <- <-. rewrite (erase_object_perm a (pt_probes p)) at 1; [done|specialize (HA a eq_refl); unfold placed in HA; by rewrite Ee in HA|].
    rewrite fmap_app in HN. by apply NoDup_app in HN as (? & _ & _).
  - destruct (pt_probes p) as [|x [|y r]]; [done| |done]. by injection Hc as <- <-.
Qed.
End split.
