(* ===== verification/Stages.v ===== *)
(** * Stages and the tokenizer (src/elements/stage.C, src/stages/tokenizer.C)

    A [Stage] pulls tuples from upstream, hands each to its processor and gives
    out what the processor makes of it, one tuple per pull.  A processor is an
    instance of [Processor]; [Emits] is what a well-behaved one promises, and a
    stage around it is proved against that.  The [Tokenizer] splits a text at
    delimiters.

    The upstream element is the list of the tuples it will give; empty, it keeps
    the stage's callback and calls it when it has one again ([stage_unblock]).
    The downstream callback is called by being returned.  A text is the list of
    its characters, [npos] is [None]. *)

From Stdlib Require Import Ascii String.
From S2P Require Import Prelude Ids Stl Values Tuples Casts.

Local Open Scope p2_scope.

(** [Stage::Processor]; [true] is the status [MORE]. *)
Class Processor (S : Type) := {
  newInput : tuple -> S -> S;
  newOutput : S -> res (option tuple * bool * S)
}.

(** ** [Stage] *)

Section stage.
Context {CB St : Type} `{!Processor St}.

Record Stage := mkStage {
  sg_pullCallback : option CB;
  sg_pendingInput : bool;
  sg_upstreamBlocked : bool;
  sg_processingBlocked : bool;
  sg_processor : St
}.
Definition stage_new (s : St) : Stage := mkStage None false false false s.

Definition block (cb : option CB) (upstream : bool) (T : Stage) : Stage :=
  mkStage cb (sg_pendingInput T) (upstream || sg_upstreamBlocked T) (sg_processingBlocked T) (sg_processor T).
Definition with_processor (pending : bool) (s : St) (T : Stage) : Stage :=
  mkStage (sg_pullCallback T) pending (sg_upstreamBlocked T) (sg_processingBlocked T) s.

(** The loop of [Stage::pull]; [cb] may be a null callback. *)
Fixpoint pull_loop (fuel : nat) (cb : option CB) (T : Stage) (up : list tuple) : res (option tuple * Stage * list tuple) :=
  match fuel with
  | O => Fail OutOfFuel
  | S fuel =>
      let work T up :=
        let? (r, more, s) := newOutput (sg_processor T) in
        match (r : option tuple) with
        | Some t => Ok (Some t, with_processor (sg_pendingInput T) s T, up)
        | None =>
            if (more : bool) then Ok (None, block cb false (with_processor (sg_pendingInput T) s T), up)
            else pull_loop fuel cb (with_processor false s T) up
        end in
      if sg_pendingInput T then work T up
      else if sg_upstreamBlocked T then Ok (None, block cb false T, up)
      else
        match up with
        | [] => Ok (None, block cb true T, [])
        | t :: up' => work (with_processor true (newInput t (sg_processor T)) T) up'
        end
  end.
Definition stage_pull (fuel : nat) (cb : option CB) (T : Stage) (up : list tuple) : res (option tuple * Stage * list tuple) :=
  match sg_pullCallback T with
  | Some _ => Ok (None, T, up)
  | None => pull_loop fuel cb T up
  end.

(** [n] pulls, as long as they give something. *)
Fixpoint stage_pulls (n fuel : nat) (cb : option CB) (T : Stage) (up : list tuple) : res (list tuple * Stage * list tuple) :=
  match n with
  | O => Ok ([], T, up)
  | S n =>
      let? (r, T, up) := stage_pull fuel cb T up in
      match r with
      | None => Ok ([], T, up)
      | Some t => let? (l, T, up) := stage_pulls n fuel cb T up in Ok (t :: l, T, up)
      end
  end.

(** [Stage::unblock], [Stage::resume]: the callback that is called, which is empty
    if it was null. *)
Definition stage_unblock (T : Stage) : res (option CB * Stage) :=
  if sg_upstreamBlocked T then
    let? cb := of_option Thrown (sg_pullCallback T) in
    Ok (Some cb, mkStage None (sg_pendingInput T) false (sg_processingBlocked T) (sg_processor T))
  else Ok (None, T).
Definition stage_resume (T : Stage) : res (option CB * Stage) :=
  if sg_processingBlocked T then
    let? cb := of_option Thrown (sg_pullCallback T) in
    Ok (Some cb, mkStage None (sg_pendingInput T) (sg_upstreamBlocked T) false (sg_processor T))
  else Ok (None, T).
End stage.
Arguments Stage : clear implicits.

(** ** [Tokenizer] *)

Definition TOKEN : value := VStr "token".
Record Tokenizer := mkTokenizer {
  tk_delimiter : list ascii;
  tk_content : list ascii;
  tk_iterator : option nat;
  tk_locationSpecifier : option value
}.

(** [find_first_of], [find_first_not_of] from a position. *)
Fixpoint first_place (p : ascii -> bool) (l : list ascii) (k : nat) : option nat :=
  match l with
  | [] => None
  | c :: l' => if p c then Some k else first_place p l' (S k)
  end.
Definition among (d : list ascii) (c : ascii) : bool := existsb (Ascii.eqb c) d.
Definition find_first_of (s d : list ascii) (pos : option nat) : option nat :=
  match pos with Some k => first_place (among d) (drop k s) k | None => None end.
Definition find_first_not_of (s d : list ascii) (pos : option nat) : option nat :=
  match pos with Some k => first_place (fun c => negb (among d c)) (drop k s) k | None => None end.

Definition with_iterator (i : option nat) (T : Tokenizer) : Tokenizer :=
  mkTokenizer (tk_delimiter T) (tk_content T) i (tk_locationSpecifier T).

(** [Tokenizer::newInput] *)
Definition tokenizer_newInput (t : tuple) (T : Tokenizer) : Tokenizer :=
  match fields t with
  | _ :: loc :: d :: c :: _ =>
      match d, c with
      | VStr d, VStr c =>
          let d := list_ascii_of_string d in let c := list_ascii_of_string c in
          mkTokenizer d c (find_first_not_of c d (Some 0%nat)) (Some loc)
      | _, _ => mkTokenizer [] [] (Some 0%nat) (Some loc)
      end
  | _ => mkTokenizer [] [] (Some 0%nat) (tk_locationSpecifier T)
  end.

(** [Tokenizer::newOutput]; [append] refuses a null location.  The number of the
    result tuple is left out. *)
Definition token_tuple (T : Tokenizer) (token : list ascii) : res tuple :=
  let? loc := of_option AssertFailed (tk_locationSpecifier T) in
  Ok (mkTuple [TOKEN; loc; VStr (string_of_list_ascii token)] true 0).
Definition tokenizer_newOutput (T : Tokenizer) : res (option tuple * bool * Tokenizer) :=
  match find_first_of (tk_content T) (tk_delimiter T) (tk_iterator T) with
  | None =>
      match tk_iterator T with
      | Some k =>
          let? _ := check (k <=? length (tk_content T))%nat OutOfRange in
          let? t := token_tuple T (drop k (tk_content T)) in
          Ok (Some t, true, with_iterator None T)
      | None => Ok (None, false, T)
      end
  | Some e =>
      let k := default 0%nat (tk_iterator T) in
      let? t := token_tuple T (take (e - k) (drop k (tk_content T))) in
      Ok (Some t, true, with_iterator (find_first_not_of (tk_content T) (tk_delimiter T) (Some e)) T)
  end.
#[export] Instance tokenizer_processor : Processor Tokenizer := {|
  newInput := tokenizer_newInput; newOutput := tokenizer_newOutput
|}.

(** ** What a processor promises *)

(** A processor that makes [outs t] of every input [t] it accepts, one tuple at a
    time, and then is done; [pending] is what it still has to give. *)
Class Emits (S : Type) `{!Processor S} (ok : tuple -> Prop) (outs : tuple -> list tuple) := {
  pending : S -> list tuple -> Prop;
  emits_input : forall t s, ok t -> pending (newInput t s) (outs t);
  emits_more : forall s x l, pending s (x :: l) -> exists s', newOutput s = Ok (Some x, true, s') /\ pending s' l;
  emits_done : forall s, pending s [] -> exists s', newOutput s = Ok (None, false, s')
}.

Section emitting.
Context {CB St : Type} `{!Processor St} (ok : tuple -> Prop) (outs : tuple -> list tuple) `{!Emits St ok outs}.

(** Nothing blocks the stage and it still has [l] to give of its present input. *)
Definition stage_at (T : Stage CB St) (l : list tuple) : Prop :=
  sg_pullCallback T = None /\ sg_upstreamBlocked T = false
  /\ if sg_pendingInput T then pending (sg_processor T) l else l = [].

(** What a pull owes: the next of what remains, or nothing and then it is blocked. *)
Definition pulled (cb : option CB) (n : nat) (todo : list tuple) (r : option tuple * Stage CB St * list tuple) : Prop :=
  match r with
  | (Some t, T, up) => exists l, todo = t :: l ++ (up ≫= outs) /\ stage_at T l /\ Forall ok up /\ (length up <= n)%nat
  | (None, T, up) => todo = [] /\ up = [] /\ sg_upstreamBlocked T = true /\ sg_pullCallback T = cb
  end.

Lemma pull_idle cb up : forall fuel (T : Stage CB St), Forall ok up -> sg_pullCallback T = None ->
  sg_upstreamBlocked T = false -> sg_pendingInput T = false -> (length up < fuel)%nat ->
  exists r, pull_loop fuel cb T up = Ok r /\ pulled cb (length up) (up ≫= outs) r.
Proof.
  induction up as [|t up IH]; intros fuel T HO Hc Hu Hp Hf; (destruct fuel as [|fuel]; [cbn in Hf; lia|]); cbn [pull_loop]; rewrite Hp, Hu.
  - eexists. split; [done|]. by split_and!.
  - apply Forall_cons in HO as [Ht HO]. cbn in Hf. pose proof (emits_input t (sg_processor T) Ht) as Hs.
    cbn [sg_processor with_processor sg_pendingInput]. rewrite bind_cons. destruct (outs t) as [|x l].
    + destruct (emits_done _ Hs) as (s' & ->). cbn [rbind]. edestruct (IH fuel) as ([[[t'|] T'] up'] & E & H); [..|exists (Some t', T', up')|exists (None, T', up')]; [done|..|split; [exact E|]|split; [exact E|]]; cbn; auto; [lia|]. destruct H as (l & ? & ? & ? & ?). exists l. split_and!; auto.
    + destruct (emits_more _ _ _ Hs) as (s' & -> & Hp'). cbn [rbind]. eexists. split; [done|].
      exists l. split_and!; auto. 1: by split_and!. all: cbn; lia.
Qed.

Lemma pull_loop_ok cb up fuel (T : Stage CB St) l : Forall ok up -> stage_at T l -> (length up + 2 <= fuel)%nat ->
  exists r, pull_loop fuel cb T up = Ok r /\ pulled cb (length up) (l ++ (up ≫= outs)) r.
Proof.
  intros HO (Hc & Hu & Hp) Hf. destruct (sg_pendingInput T) eqn:Ep.
  - destruct fuel as [|fuel]; [lia|]. cbn [pull_loop]. rewrite Ep. destruct l as [|x l].
    + destruct (emits_done _ Hp) as (s' & ->). cbn [rbind]. apply pull_idle; auto; lia.
    + destruct (emits_more _ _ _ Hp) as (s' & -> & Hp'). cbn [rbind]. eexists. split; [done|].
      exists l. split_and!; auto. 1: by split_and!. all: cbn; lia.
  - subst l. apply pull_idle; auto; lia.
Qed.

Lemma pulls_ok cb fuel : forall n (T : Stage CB St) l up, Forall ok up -> stage_at T l -> (length up + 2 <= fuel)%nat ->
  (length (l ++ (up ≫= outs)) < n)%nat ->
  exists T', stage_pulls n fuel cb T up = Ok (l ++ (up ≫= outs), T', [])
    /\ sg_upstreamBlocked T' = true /\ sg_pullCallback T' = cb.
Proof.
  induction n as [|n IH]; intros T l up HO Hat Hf Hn; [lia|]. cbn [stage_pulls]. unfold stage_pull. rewrite (proj1 Hat).
  destruct (pull_loop_ok cb up fuel T l HO Hat Hf) as ([[[t|] T'] up'] & -> & Hr); cbn [rbind].
  - destruct Hr as (l' & E & Hat' & HO' & Hle). rewrite E in *. cbn in Hn.
    destruct (IH T' l' up' HO' Hat' ltac:(lia) ltac:(lia)) as (T2 & -> & H2). cbn. by exists T2.
  - destruct Hr as (-> & -> & H1 & H2). by exists T'.
Qed.
End emitting.

(** ** The tokenizer emits the words of its input *)

(** The maximal runs of characters that are no delimiters; [w] is the present run,
    backwards. *)
Fixpoint words_from (p : ascii -> bool) (w l : list ascii) : list (list ascii) :=
  match l with
  | [] => match w with [] => [] | _ => [rev w] end
  | c :: l' =>
      if p c then match w with [] => words_from p [] l' | _ => rev w :: words_from p [] l' end
      else words_from p (c :: w) l'
  end.
Definition words (d l : list ascii) : list (list ascii) := words_from (among d) [] l.
Local Notation "'plain' p" := (Forall (fun c => p c = false)) (at level 10, p at level 9).

Lemma first_place_spec p l : forall k,
  match first_place p l k with
  | Some j => exists w c r, l = w ++ c :: r /\ plain p w /\ p c = true /\ j = (k + length w)%nat
  | None => plain p l
  end.
Proof.
  induction l as [|c l IH]; intros k; cbn; [done|]. destruct (p c) eqn:E; [by exists [], c, l; cbn; split_and!; [..|lia]|].
  specialize (IH (S k)). destruct (first_place p l (S k)) as [j|]; [|by constructor].
  destruct IH as (w & c' & r & -> & Hw & Hc & ->). exists (c :: w), c', r. cbn. split_and!; [done|by constructor|done|lia].
Qed.

Lemma words_plain p w l : plain p w -> forall u, words_from p u (w ++ l) = words_from p (rev w ++ u) l.
Proof.
  induction 1 as [|c w Hc Hw IH]; intros u; cbn; [done|]. rewrite Hc, IH. by rewrite <- app_assoc.
Qed.
Lemma words_delims p ds l : Forall (fun c => p c = true) ds -> words_from p [] (ds ++ l) = words_from p [] l.
Proof. induction 1 as [|c ds Hc _ IH]; cbn; [done|]. by rewrite Hc. Qed.
Lemma words_next p w c l : plain p w -> w <> [] -> p c = true -> words_from p [] (w ++ c :: l) = w :: words_from p [] l.
Proof.
  intros Hw Hn Hc. rewrite (words_plain p w) by done. rewrite app_nil_r. cbn. rewrite Hc.
  destruct (rev w) eqn:E; [by apply (f_equal (@rev _)) in E; rewrite rev_involutive in E|]. by rewrite <- E, rev_involutive.
Qed.
Lemma words_last p w : plain p w -> w <> [] -> words_from p [] w = [w].
Proof.
  intros Hw Hn. pose proof (words_plain p w [] Hw []) as H. rewrite !app_nil_r in H. rewrite H. cbn.
  destruct (rev w) eqn:E; [by apply (f_equal (@rev _)) in E; rewrite rev_involutive in E|]. by rewrite <- E, rev_involutive.
Qed.

(** The iterator is at the first character of a word, or at the end. *)
Definition at_word (d c : list ascii) (i : option nat) (l : list (list ascii)) : Prop :=
  match i with
  | Some k => exists x r, drop k c = x :: r /\ among d x = false /\ words d (x :: r) = l
  | None => l = []
  end.

Lemma skip_delims d c k : at_word d c (find_first_not_of c d (Some k)) (words d (drop k c)).
Proof.
  cbn. pose proof (first_place_spec (fun c => negb (among d c)) (drop k c) k) as H.
  destruct first_place as [j|]; cbn.
  - destruct H as (ds & x & r & E & Hd & Hx & ->). exists x, r.
    assert (Forall (fun c => among d c = true) ds) by (eapply Forall_impl; [exact Hd|]; intros y; apply negb_false_iff).
    split_and!; [|by apply negb_true_iff|].
    + rewrite <- drop_drop, E. by rewrite drop_app_length.
    + rewrite E. unfold words. by rewrite words_delims.
  - rewrite <- (app_nil_r (drop k c)). unfold words. rewrite words_delims; [done|].
    eapply Forall_impl; [exact H|]. intros y. apply negb_false_iff.
Qed.

(** The token [w] with the location of the input. *)
Definition token (loc : value) (w : list ascii) : tuple := mkTuple [TOKEN; loc; VStr (string_of_list_ascii w)] true 0.

(** An input the tokenizer takes: its third and fourth fields are strings. *)
Definition tokenizable (t : tuple) : Prop :=
  exists name loc d c rest, fields t = name :: loc :: VStr d :: VStr c :: rest.
Definition tokens (t : tuple) : list tuple :=
  match fields t with
  | _ :: loc :: VStr d :: VStr c :: _ => token loc <$> words (list_ascii_of_string d) (list_ascii_of_string c)
  | _ => []
  end.

Definition tokenizing (T : Tokenizer) (l : list tuple) : Prop :=
  exists loc ws, tk_locationSpecifier T = Some loc /\ l = token loc <$> ws
    /\ at_word (tk_delimiter T) (tk_content T) (tk_iterator T) ws.

Lemma tokenizing_input t T : tokenizable t -> tokenizing (tokenizer_newInput t T) (tokens t).
Proof.
  intros (n & loc & d & c & rest & E). unfold tokens, tokenizer_newInput. rewrite E.
  exists loc, (words (list_ascii_of_string d) (list_ascii_of_string c)). split_and!; [done..|]. apply skip_delims.
Qed.

Lemma tokenizing_more T x l : tokenizing T (x :: l) ->
  exists T', tokenizer_newOutput T = Ok (Some x, true, T') /\ tokenizing T' l.
Proof.
  destruct T as [d c i ol]. intros (loc & ws & Hl & E & Hat). cbn in *. subst ol.
  destruct ws as [|w ws]; [done|]. injection E as -> ->.
  destruct i as [k|]; [|done]. destruct Hat as (x & r & Ed & Hx & Hw).
  unfold tokenizer_newOutput. cbn [tk_content tk_delimiter tk_iterator find_first_of default id].
  pose proof (first_place_spec (among d) (drop k c) k) as H. rewrite Ed in *. destruct first_place as [j|].
  - destruct H as (v & y & s & E & Hv & Hy & ->).
    assert (Hvn : v <> []) by (intros ->; injection E as -> _; congruence).
    unfold words in Hw. rewrite E, words_next in Hw by done. injection Hw as -> <-.
    rewrite E. replace (k + length w - k)%nat with (length w) by lia. rewrite take_app_length.
    eexists. split; [done|]. exists loc, (words d (drop (k + length w) c)). split_and!; [done| |apply skip_delims].
    rewrite <- drop_drop, Ed, E, drop_app_length. unfold words. cbn. by rewrite Hy.
  - unfold words in Hw. rewrite words_last in Hw by done. injection Hw as <- <-.
    assert (Hk : (k < length c)%nat) by (apply (f_equal length) in Ed; rewrite length_drop in Ed; cbn in Ed; lia).
    rewrite (proj2 (Nat.leb_le _ _)) by lia. eexists. split; [done|]. by exists loc, [].
Qed.

Lemma tokenizing_done T : tokenizing T [] -> exists T', tokenizer_newOutput T = Ok (None, false, T').
Proof.
  destruct T as [d c i ol]. intros (loc & ws & Hl & E & Hat). cbn in *. symmetry in E. apply fmap_nil_inv in E. subst ws.
  destruct i as [k|]; [|by eexists]. destruct Hat as (x & r & Ed & Hx & Hw). exfalso.
  unfold words in Hw. cbn in Hw. rewrite Hx in Hw. clear Ed. revert Hw. generalize (@nil ascii) as u. revert x Hx.
  induction r as [|y r IH]; intros x Hx u; cbn; [by destruct (rev u)|].
  destruct (among d y) eqn:Ey; [by destruct (rev u)|]. by apply (IH y Ey (x :: u)).
Qed.

#[export] Instance tokenizer_emits : Emits Tokenizer tokenizable tokens := {|
  pending := tokenizing; emits_input := tokenizing_input; emits_more := tokenizing_more; emits_done := tokenizing_done
|}.

(** Pulling a fresh stage gives out exactly what its processor makes of the
    tuples of its input, all of it and in their order, and then blocks with the
    callback of the last pull registered - for every processor that keeps the
    promise of [Emits], with fuel one round per input tuple and two more. *)
Theorem stage_gives_all {CB St} `{!Processor St} ok outs `{!Emits St ok outs} (cb : option CB) (s : St) up n fuel :
  Forall ok up -> (length up + 2 <= fuel)%nat -> (length (up ≫= outs) < n)%nat ->
  exists T', stage_pulls n fuel cb (stage_new s) up = Ok (up ≫= outs, T', [])
    /\ sg_upstreamBlocked T' = true /\ sg_pullCallback T' = cb.
Proof. intros HO Hf Hn. apply (pulls_ok ok outs cb fuel n (stage_new s) [] up HO); [by split_and!|done|done]. Qed.

Definition two_texts : list tuple :=
  let text s := mkTuple [VStr "tokenizeEvent"; VStr "n1"; VStr ", "; VStr s] true 0 in [text ", a, bc,,d"; text "ef"]%string.
Lemma stage_gives_all_witness : exists T',
  stage_pulls 5 4 (Some tt) (stage_new (mkTokenizer [] [] None None)) two_texts
    = Ok (token (VStr "n1") <$> (list_ascii_of_string <$> ["a"; "bc"; "d"; "ef"]%string), T', [])
  /\ sg_upstreamBlocked T' = true /\ sg_pullCallback T' = Some tt.
Proof.
  apply (stage_gives_all tokenizable tokens (Some tt) (mkTokenizer [] [] None None) two_texts 5 4).
  - repeat constructor; repeat eexists.
  - vm_compute. lia.
  - vm_compute. lia.
Defined.

(** An input that is no pair of strings is not concluded without a result: the
    tokenizer gives an empty token for it first. *)
Lemma bad_input_token t T loc name d c rest : fields t = name :: loc :: d :: c :: rest ->
  (forall a b, (d, c) <> (VStr a, VStr b)) ->
  tokenizer_newOutput (tokenizer_newInput t T) = Ok (Some (token loc []), true, mkTokenizer [] [] None (Some loc)).
Proof.
  intros E H. unfold tokenizer_newInput. rewrite E.
  destruct d, c; try reflexivity. by destruct (H s s0).
Qed.

(** Nothing sets [_processingBlocked]: [Stage::resume] never calls anybody. *)
Lemma never_processing_blocked {CB St} `{!Processor St} fuel (cb : option CB) (T : Stage CB St) up r T' up' :
  sg_processingBlocked T = false -> stage_pull fuel cb T up = Ok (r, T', up') -> stage_resume T' = Ok (None, T').
Proof.
  intros HT H. enough (sg_processingBlocked T' = false) as E by (unfold stage_resume; by rewrite E).
  revert H. unfold stage_pull. destruct (sg_pullCallback T); [by intros [= <- <- <-]|].
  revert T up HT. induction fuel as [|fuel IH]; intros T up HT; [done|]. cbn [pull_loop].
  destruct (sg_pendingInput T), (sg_upstreamBlocked T), up as [|t up];
    repeat (destruct (newOutput _) as [[[[?|] []] ?]|]; cbn [rbind]); try done;
    intros H; try (by injection H as <- <- <-); by apply IH in H.
Qed.
