(* ===== verification/PelCorrect.v ===== *)
(** * From Overlog expressions to results

    The whole way of an expression: the tuple the parser makes of it
    (Exprs.v), the PEL text of that tuple for a schema (PelGen.v), the program
    the lexer reads from the text (PelLexer.v, PelText.v), and its execution on
    a tuple of the schema (Pel.v).  [eval] is the reference: it computes the
    value of an expression with the operators of values (Oper.v), without
    text, program or stack.  Running the compiled text of a selection or an
    assignment keeps, drops or extends the tuple as [eval] says.

    Covered: integer and identifier constants, variables, binary arithmetic,
    comparisons, boolean connectives and interval tests. *)

From Stdlib Require Import SpecFloat Ascii String.
From S2P Require Import Prelude Ids Stl Values Tuples Aggs Xdr Casts Oper Names Exprs Pel PelLexer PelSafe PelText PelGen.

Local Open Scope p2_scope.

(** ** The reference evaluator *)

(** A value, an error code of the machine, or what execution throws. *)
Inductive outcome := Val (v : value) | Code (e : Error) | Raise (f : failure).

Definition obind (o : outcome) (k : value -> outcome) : outcome :=
  match o with Val v => k v | _ => o end.

(** The machine turns two of the exceptions into error codes. *)
Definition outcome_of {A} (inj : A -> value) (r : res A) : outcome :=
  match r with
  | Ok a => Val (inj a)
  | Fail OperException => Code PE_OPER_UNSUP
  | Fail TypeError => Code PE_TYPE_CONVERSION
  | Fail f => Raise f
  end.

Section eval.
Context `{P : Platform} (nodeid : value).

Definition truth (v : value) (k : bool -> outcome) : outcome :=
  match Val_Int64_cast v with
  | Ok z => k (negb (z =? 0))
  | Fail f => outcome_of VInt64 (Fail f)
  end.

(** Division tests the divisor against zero first. *)
Definition divide_by (f : value -> value -> res value) (on_zero : failure -> outcome)
    (x y : value) : outcome :=
  match op_neq y (VInt64 0) with
  | Ok true => match f x y with
               | Ok v => Val v
               | Fail e => on_zero e
               end
  | Ok false => Code PE_DIVIDE_BY_ZERO
  | Fail e => outcome_of VInt64 (Fail e)
  end.

Definition math_value (o : MathOp.Operator) (x y : value) : outcome :=
  match o with
  | MathOp.LSHIFT => outcome_of id (op_lshift x y)
  | MathOp.RSHIFT => outcome_of id (op_rshift x y)
  | MathOp.PLUS => outcome_of id (op_plus x y)
  | MathOp.MINUS => outcome_of id (op_minus x y)
  | MathOp.TIMES => outcome_of id (op_times x y)
  | MathOp.DIVIDE =>
      divide_by op_divide
        (fun f => match f with
                  | DivisionByZero => Code PE_DIVIDE_BY_ZERO
                  | _ => outcome_of VInt64 (Fail f)
                  end) x y
  | MathOp.MODULUS => divide_by op_mod (fun f => outcome_of VInt64 (Fail f)) x y
  | MathOp.BITOR => outcome_of id (op_bor x y)
  | MathOp.BITAND => outcome_of id (op_band x y)
  | MathOp.BITXOR => outcome_of id (op_bxor x y)
  | MathOp.APPEND => Val (VStr (toString y +:+ toString x))
  | MathOp.BITNOT | MathOp.NOP => Raise AssertFailed
  end.

(** The comparison operators of values take their operands exchanged. *)
Definition bool_math (o : BoolOp.Operator) (x y : value) : outcome :=
  match o with
  | BoolOp.EQ => outcome_of bool_value (op_eq x y)
  | BoolOp.NEQ => outcome_of bool_value (let? b := op_eq x y in Ok (negb b))
  | BoolOp.LT => outcome_of bool_value (op_gt x y)
  | BoolOp.LTE => outcome_of bool_value (op_gte x y)
  | BoolOp.GT => outcome_of bool_value (op_lt x y)
  | BoolOp.GTE => outcome_of bool_value (op_lte x y)
  | BoolOp.AND => truth y (fun b => truth x (fun a => Val (bool_value (a && b))))
  | BoolOp.OR => truth y (fun b => truth x (fun a => Val (bool_value (a || b))))
  | BoolOp.NOT | BoolOp.RANGEI | BoolOp.NOP => Raise AssertFailed
  end.

Definition range_value (o : RangeOp.Operator) (x lo hi : value) : outcome :=
  outcome_of bool_value
    (match o with
     | RangeOp.RANGEOO => inOO x lo hi
     | RangeOp.RANGEOC => inOC x lo hi
     | RangeOp.RANGECO => inCO x lo hi
     | RangeOp.RANGECC => inCC x lo hi
     end).

(** The operators by their names. *)
Definition math_ops : list MathOp.Operator :=
  [MathOp.LSHIFT; MathOp.RSHIFT; MathOp.PLUS; MathOp.MINUS; MathOp.TIMES; MathOp.DIVIDE;
   MathOp.MODULUS; MathOp.BITOR; MathOp.BITAND; MathOp.BITXOR; MathOp.APPEND].
Definition bool_ops : list BoolOp.Operator :=
  [BoolOp.EQ; BoolOp.NEQ; BoolOp.LT; BoolOp.LTE; BoolOp.GT; BoolOp.GTE; BoolOp.AND; BoolOp.OR].
Definition range_ops : list RangeOp.Operator :=
  [RangeOp.RANGEOO; RangeOp.RANGEOC; RangeOp.RANGECO; RangeOp.RANGECC].

Definition named {A} (name : A -> res string) (w : string) (o : A) : bool :=
  match name o with Ok n => String.eqb n w | Fail _ => false end.

Definition math_of (w : string) : option MathOp.Operator := List.find (named math_name w) math_ops.
Definition bool_of (w : string) : option BoolOp.Operator := List.find (named bool_name w) bool_ops.
Definition range_of (w : string) : option RangeOp.Operator :=
  List.find (fun o => String.eqb (range_name o) w) range_ops.

(** The field of [data] a variable of the schema stands for: the first field
    is the name of the tuple. *)
Definition variable_value (schema data : list value) (v : value) : option (nat * value) :=
  match position schema (variable_tuple nodeid v false false) with
  | Ok p => if 0 <=? p then match data !! S (Z.to_nat p) with
                            | Some x => Some (Z.to_nat p, x)
                            | None => None
                            end
            else None
  | Fail _ => None
  end.

(** [None]: the expression is outside the fragment. *)
Fixpoint eval (schema data : list value) (e : Expression) : option outcome :=
  match e with
  | EValue v => Some (Val v)
  | EVariable v false false => (fun x => Val (snd x)) <$> variable_value schema data v
  | EMath w l (Some r) =>
      match math_of w, eval schema data l, eval schema data r with
      | Some o, Some x, Some y => Some (obind x (fun x => obind y (math_value o x)))
      | _, _, _ => None
      end
  | EBool w l None =>
      if String.eqb w "not" then
        match eval schema data l with
        | Some x => Some (obind x (fun x => truth x (fun b => Val (bool_value (negb b)))))
        | None => None
        end
      else None
  | EBool w l (Some r) =>
      match r with
      | ERange w' _ lo hi =>
          if String.eqb w "in" then
            match range_of w', eval schema data l, eval schema data lo, eval schema data hi with
            | Some o, Some x, Some y, Some z =>
                Some (obind x (fun x => obind y (fun y => obind z (range_value o x y))))
            | _, _, _, _ => None
            end
          else None
      | _ =>
          match bool_of w, eval schema data l, eval schema data r with
          | Some o, Some x, Some y => Some (obind x (fun x => obind y (bool_math o x)))
          | _, _, _ => None
          end
      end
  | _ => None
  end.

(** Constants the text shows as the lexer reads them. *)
Fixpoint plain_constants (e : Expression) : Prop :=
  match e with
  | EValue v => match v with VStr _ => False | _ => readable (IConst v) end
  | EMath _ l r | EBool _ l r =>
      plain_constants l /\ match r with Some r => plain_constants r | None => True end
  | ERange _ _ l r => plain_constants l /\ plain_constants r
  | _ => True
  end.
End eval.

(** ** The instructions of an expression *)

Definition op_index (w : string) : nat :=
  match token_code w jump_table 0 with Some i => Z.to_nat i | None => 0%nat end.

(** [!=] is written as two operations. *)
Definition code_op (w : string) : list instr :=
  if String.eqb w "== not" then [IOp (op_index "=="); IOp (op_index "not")] else [IOp (op_index w)].

Section code.
Context `{P : Platform} (nodeid : value).

Fixpoint code (schema : list value) (e : Expression) : list instr :=
  match e with
  | EValue v => [IConst v]
  | EVariable v _ _ =>
      match position schema (variable_tuple nodeid v false false) with
      | Ok p => [IField (p + 1)]
      | Fail _ => []
      end
  | EMath w l (Some r) => code schema l ++ code schema r ++ code_op w
  | EBool w l None => code schema l ++ code_op w
  | EBool w l (Some r) =>
      match r with
      | ERange w' _ lo hi => code schema l ++ code schema lo ++ code schema hi ++ code_op w'
      | _ => code schema l ++ code schema r ++ code_op w
      end
  | _ => []
  end.

Lemma string_app_nil (s : string) : s +:+ "" = s.
Proof. induction s as [|c s IH]; [done|]. exact (f_equal (String c) IH). Qed.

Lemma program_text_app a b : program_text (a ++ b) = program_text a +:+ program_text b.
Proof.
  induction a as [|i a IH]; [done|]. cbn [app]. unfold program_text in *. cbn [fold_right].
  rewrite IH. by rewrite !string_app_assoc.
Qed.

(** The names of the operators are the mnemonics of the operations. *)
Lemma code_op_text w : is_Some (math_of w) \/ is_Some (bool_of w) \/ is_Some (range_of w) \/ w = "not" ->
  program_text (code_op w) = w +:+ " " /\ Forall readable (code_op w).
Proof.
  assert (E : forall w', w' ∈ ["not"; "<<"; ">>"; "+"; "-"; "*"; "/"; "%"; "|"; "&"; "^"; "|||"; "==";
    "== not"; "<"; "<="; ">"; ">="; "and"; "or"; "()"; "(]"; "[)"; "[]"] ->
    program_text (code_op w') = w' +:+ " " /\ Forall readable (code_op w')).
  { intros w' Hw. repeat (apply elem_of_cons in Hw as [->|Hw];
      [split; [vm_compute; reflexivity|repeat constructor]|]). by apply not_elem_of_nil in Hw. }
  intros H. apply E. revert H. unfold math_of, bool_of, range_of.
  cbn [List.find math_ops bool_ops range_ops named math_name bool_name range_name].
  intros [[o H]|[[o H]|[[o H]| ->]]]; [| | |by left];
    repeat match type of H with context [String.eqb ?a w] =>
      destruct (String.eqb_spec a w) as [<-|]; [clear; set_solver|] end; done.
Qed.

(** A tuple of an expression starts with its kind. *)
Lemma tuple_shape e t : Expression_tuple nodeid e = Ok t -> exists k fs, t = VTuple (VStr k :: fs).
Proof.
  assert (H : forall A (r : res A) (f : A -> res value),
    (forall a, f a = Ok t -> exists k fs, t = VTuple (VStr k :: fs)) ->
    (let? x := r in f x) = Ok t -> exists k fs, t = VTuple (VStr k :: fs)).
  { intros A r f Hf. destruct r; [apply Hf|done]. }
  destruct e; cbn [Expression_tuple]; unfold variable_tuple, mk_named; cbn [app];
    try (intros [= <-]; eauto; done);
    repeat (apply H; intros ?); intros [= <-]; eauto.
Qed.

Lemma toString_VStr w : toString (VStr w) = w.
Proof. done. Qed.

(** [gen] on the tuples of operators. *)
Lemma gen_math schema w tl tr sl sr :
  gen schema tl = Ok (sl, schema) -> gen schema tr = Ok (sr, schema) ->
  gen schema (VTuple (mk_named nodeid MATH ++ [VStr w; tl; tr])) =
    Ok (sl +:+ sr +:+ w +:+ " ", schema).
Proof. intros Hl Hr. cbn. rewrite Hl. cbn. by rewrite Hr. Qed.

Lemma gen_range schema w tl tr sl sr :
  gen schema tl = Ok (sl, schema) -> gen schema tr = Ok (sr, schema) ->
  gen schema (VTuple (mk_named nodeid RANGE ++ [VStr w; tl; tr])) =
    Ok (sl +:+ sr +:+ w +:+ " ", schema).
Proof. intros Hl Hr. cbn. rewrite Hl. cbn. by rewrite Hr. Qed.

Lemma gen_bool schema w tl tr sl sr : String.eqb w "in" = false -> is_null_value tr = false ->
  gen schema tl = Ok (sl, schema) -> gen schema tr = Ok (sr, schema) ->
  gen schema (VTuple (mk_named nodeid BOOL ++ [VStr w; tl; tr])) =
    Ok (sl +:+ sr +:+ w +:+ " ", schema).
Proof.
  intros Hw Hn Hl Hr. cbn -[String.eqb find_function]. unfold is_kind. rewrite !Hw.
  cbn -[find_function]. rewrite Hl. cbn. by rewrite Hn, Hr.
Qed.

Lemma gen_in schema tl tr sl sr kl : kind tl = Ok kl -> kind tr = Ok RANGE -> is_null_value tr = false ->
  gen schema tl = Ok (sl, schema) -> gen schema tr = Ok (sr, schema) ->
  gen schema (VTuple (mk_named nodeid BOOL ++ [VStr "in"; tl; tr])) = Ok (sl +:+ sr, schema).
Proof.
  intros Hkl Hkr Hn Hl Hr. cbn -[find_function]. rewrite Hkl, Hkr.
  cbn -[find_function is_kind]. change (is_kind RANGE VAR) with false. rewrite andb_false_r.
  cbn -[find_function]. rewrite Hl. cbn. rewrite Hn, Hr. cbn. by rewrite string_app_nil.
Qed.

Lemma gen_not schema w tl sl : String.eqb w "in" = false ->
  gen schema tl = Ok (sl, schema) ->
  gen schema (VTuple (mk_named nodeid BOOL ++ [VStr w; tl; VNull])) = Ok (sl +:+ w +:+ " ", schema).
Proof.
  intros Hw Hl. cbn -[String.eqb find_function]. unfold is_kind. rewrite !Hw.
  cbn -[find_function]. rewrite Hl. done.
Qed.

Lemma gen_val schema v : match v with VStr _ => False | _ => True end ->
  match v with VInt64 _ | VID _ | VNull => True | _ => False end ->
  gen schema (VTuple (mk_named nodeid VAL ++ [v])) = Ok (program_text [IConst v], schema).
Proof. by destruct v. Qed.

Lemma gen_var schema v p : position schema (variable_tuple nodeid v false false) = Ok p ->
  0 <= p < Z.of_nat (length schema) -> Z.of_nat (length schema) < 65535 ->
  gen schema (variable_tuple nodeid v false false) = Ok (program_text [IField (p + 1)], schema).
Proof.
  intros Hp Hr Hl. unfold variable_tuple in *. cbn [mk_named app] in *. cbn -[variable].
  unfold variable. unfold mk_named in Hp. cbn [app] in Hp. rewrite Hp. cbn [rbind].
  unfold u32. rewrite Z.mod_small by lia. replace (Z.of_nat (length schema) <=? p) with false by lia.
  done.
Qed.

Context (schema data : list value).
Hypothesis data_schema : (length data <= S (length schema))%nat.
Hypothesis schema_small : Z.of_nat (length schema) < 65535.

Lemma variable_position v p x : variable_value nodeid schema data v = Some (p, x) ->
  position schema (variable_tuple nodeid v false false) = Ok (Z.of_nat p) /\
  data !! S p = Some x /\ (p < length schema)%nat.
Proof.
  unfold variable_value. destruct (position _ _) as [q|]; [|done].
  destruct (0 <=? q) eqn:E; [|done]. bools.
  destruct (data !! S (Z.to_nat q)) as [y|] eqn:Ey; [|done]. intros [= <- <-].
  rewrite Z2Nat.id by done. repeat split; [done|].
  apply lookup_lt_Some in Ey. lia.
Qed.

(** The compiled text of an expression is that of its instructions. *)
Definition generates (e : Expression) : Prop := forall o t,
  eval nodeid schema data e = Some o -> plain_constants e -> Expression_tuple nodeid e = Ok t ->
  gen schema t = Ok (program_text (code schema e), schema) /\ Forall readable (code schema e).

Lemma bool_of_not_in w o : bool_of w = Some o -> String.eqb w "in" = false.
Proof.
  intros H. destruct (String.eqb_spec w "in") as [->|]; [|done]. by vm_compute in H.
Qed.

Lemma generates_op2 w l r tl tr : generates l -> generates r ->
  is_Some (eval nodeid schema data l) -> is_Some (eval nodeid schema data r) ->
  plain_constants l -> plain_constants r -> Expression_tuple nodeid l = Ok tl -> Expression_tuple nodeid r = Ok tr ->
  is_Some (math_of w) \/ is_Some (bool_of w) \/ is_Some (range_of w) \/ w = "not" ->
  exists sl sr, gen schema tl = Ok (sl, schema) /\ gen schema tr = Ok (sr, schema) /\
    program_text (code schema l ++ code schema r ++ code_op w) = sl +:+ sr +:+ w +:+ " " /\
    Forall readable (code schema l ++ code schema r ++ code_op w).
Proof.
  intros Hl Hr [x Hx] [y Hy] Pl Pr Tl Tr Hw.
  destruct (Hl x tl Hx Pl Tl) as [El Rl], (Hr y tr Hy Pr Tr) as [Er Rr].
  destruct (code_op_text w Hw) as [Ew Rw].
  eexists _, _. split; [exact El|]. split; [exact Er|]. split.
  - by rewrite !program_text_app, Ew.
  - by rewrite !Forall_app.
Qed.

(** Also the operands of a range, which is no expression of its own. *)
Definition generates_deep (e : Expression) : Prop :=
  generates e /\ match e with ERange _ _ lo hi => generates lo /\ generates hi | _ => True end.

Lemma tuple_not_null e t : Expression_tuple nodeid e = Ok t -> is_null_value t = false.
Proof. intros H. by destruct (tuple_shape e t H) as (k & fs & ->). Qed.

Lemma generates_in w' ty l lo hi : generates l -> generates lo -> generates hi ->
  generates (EBool "in" l (Some (ERange w' ty lo hi))).
Proof.
  intros Hl Hlo Hhi o t. cbn [eval String.eqb Ascii.eqb Bool.eqb plain_constants Expression_tuple code].
  destruct (range_of w') as [ro|] eqn:Ew; [|done].
  destruct (eval _ _ _ l) as [x|] eqn:El; [|done].
  destruct (eval _ _ _ lo) as [y|] eqn:Elo; [|done].
  destruct (eval _ _ _ hi) as [z|] eqn:Ehi; [|done]. intros _ (Pl & Plo & Phi).
  destruct (Expression_tuple nodeid l) as [tl|] eqn:Tl; [|done].
  destruct (Expression_tuple nodeid lo) as [tlo|] eqn:Tlo; [|done].
  destruct (Expression_tuple nodeid hi) as [thi|] eqn:Thi; [|done]. cbn [rbind]. intros [= <-].
  destruct (Hl x tl El Pl Tl) as [Gl Rl].
  destruct (generates_op2 w' lo hi tlo thi) as (slo & shi & Glo & Ghi & Et & Rt); eauto.
  destruct (tuple_shape l tl Tl) as (k & fs & ->).
  split; [|by rewrite Forall_app]. etransitivity.
  - apply (gen_in schema _ (VTuple (mk_named nodeid RANGE ++ [VStr w'; tlo; thi]))
      (program_text (code schema l)) (slo +:+ shi +:+ w' +:+ " ") k); try done.
    by apply gen_range.
  - by rewrite program_text_app, Et.
Qed.

Definition is_range (e : Expression) : bool := match e with ERange _ _ _ _ => true | _ => false end.

Lemma generates_bool w l r : generates l -> generates r -> is_range r = false ->
  generates (EBool w l (Some r)).
Proof.
  intros Hl Hr Hn o t.
  assert (eval nodeid schema data (EBool w l (Some r)) =
    match bool_of w, eval nodeid schema data l, eval nodeid schema data r with
    | Some o, Some x, Some y => Some (obind x (fun x => obind y (bool_math o x)))
    | _, _, _ => None end) as -> by (by destruct r).
  assert (code schema (EBool w l (Some r)) = code schema l ++ code schema r ++ code_op w)
    as -> by (by destruct r).
  cbn [plain_constants Expression_tuple].
  destruct (bool_of w) as [bo|] eqn:Ew; [|done].
  destruct (eval _ _ _ l) as [x|] eqn:El; [|done].
  destruct (eval _ _ _ r) as [y|] eqn:Er; [|done]. intros _ [Pl Pr].
  destruct (Expression_tuple nodeid l) as [tl|] eqn:Tl; [|done].
  destruct (Expression_tuple nodeid r) as [tr|] eqn:Tr; [|done]. intros [= <-].
  destruct (generates_op2 w l r tl tr) as (sl & sr & Gl & Gr & Et & Rt); eauto.
  split; [|done]. rewrite Et. apply gen_bool; [by apply (bool_of_not_in w bo)| |done|done].
  by apply (tuple_not_null r).
Qed.

Lemma generates_all e : generates_deep e.
Proof.
  induction e as [v|v l n|o v|w l [IHl _]|w l r [IHl _] IHr|w ty l r [IHl _] [IHr _]
    |w l _|w l r [IHl _] [IHr _]|v|v|n args|args] using Expression_induction; (split; [|done || idtac]);
    try (intros ? ?; done).
  - intros o t [= <-] Hp [= <-]. cbn [plain_constants code] in *.
    destruct v; try done; by (split; [apply gen_val|apply Forall_singleton]).
  - intros o t H _ [= <-]. cbn [eval code] in *. destruct l, n; try done.
    destruct (variable_value nodeid schema data v) as [[p x]|] eqn:E; [|done].
    destruct (variable_position v p x E) as (Ep & _ & Hp). rewrite Ep.
    split; [apply gen_var; [done|lia..]|]. apply Forall_singleton. cbn. lia.
  - intros o t. cbn [eval plain_constants Expression_tuple code].
    destruct (String.eqb_spec w "not") as [->|]; [|done].
    destruct (eval _ _ _ l) as [x|] eqn:El; [|done]. intros _ [Pl _].
    destruct (Expression_tuple nodeid l) as [tl|] eqn:Tl; [|done]. intros [= <-].
    destruct (IHl x tl El Pl Tl) as [Gl Rl]. destruct (code_op_text "not") as [Ew Rw]; [auto|].
    split; [|by rewrite Forall_app]. etransitivity; [by apply gen_not|].
    by rewrite program_text_app, Ew.
  - destruct IHr as [IHr IHr'].
    destruct r; try (by apply generates_bool). destruct IHr' as [H1 H2].
    destruct (String.eqb_spec w "in") as [->|Hw]; [by apply generates_in|].
    intros o t. cbn [eval]. by rewrite (proj2 (String.eqb_neq w "in") Hw).
  - intros o t. cbn [eval plain_constants Expression_tuple code].
    destruct (math_of w) as [mo|] eqn:Ew; [|done].
    destruct (eval _ _ _ l) as [x|] eqn:El; [|done].
    destruct (eval _ _ _ r) as [y|] eqn:Er; [|done]. intros _ [Pl Pr].
    destruct (Expression_tuple nodeid l) as [tl|] eqn:Tl; [|done].
    destruct (Expression_tuple nodeid r) as [tr|] eqn:Tr; [|done]. intros [= <-].
    destruct (generates_op2 w l r tl tr) as (sl & sr & Gl & Gr & Et & Rt); eauto.
    split; [|done]. rewrite Et. by apply gen_math.
Qed.
End code.

(** ** Execution *)

Section exec.
Context `{P : Platform} `{X : Externals} (nodeid : value) (prg : Pel_Program) (data : list value).

Local Abbreviation loop := (execute_loop nodeid prg data).

(** What is left to do after code with outcome [o]; [w] is how the value is
    held. *)
Definition continues (o : outcome) (w : own) (k : list Z) (m : vm) (r : res Error * vm) : Prop :=
  match o with
  | Val v => r = loop k (set_st ((v, w) :: st m) m)
  | Code e => exists m', r = (Ok e, m')
  | Raise f => exists m', r = (Fail f, m')
  end.

Definition runs_to (c : list Z) (o : outcome) (w : own) : Prop :=
  forall k m, error m = PE_SUCCESS -> continues o w k m (loop (c ++ k) m).

(** One instruction on its operands, which are the [args] on top, the last
    one highest. *)
Definition steps_to (inst : Z) (args : list value) (o : outcome) : Prop :=
  forall ss rest m, ss.*1 = args -> error m = PE_SUCCESS ->
  let r := execute_instruction nodeid prg data inst (set_st (rev ss ++ rest) m) in
  match o with
  | Val v => r = (Ok PE_SUCCESS, set_st ((v, Fresh) :: rest) m)
  | Code e => e <> PE_SUCCESS /\ e <> PE_STOP /\ exists m', r = (Ok e, m')
  | Raise f => exists m', r = (Fail f, m')
  end.

Lemma loop_step inst k m :
  loop (inst :: k) m =
    match execute_instruction nodeid prg data inst m with
    | (Ok PE_SUCCESS, m') => loop k m'
    | (Ok PE_STOP, m') => (Ok PE_SUCCESS, m')
    | (Ok e, m') => (Ok e, m')
    | (Fail f, m') => (Fail f, m')
    end.
Proof. done. Qed.

Lemma continues_step inst args o ss rest k m : steps_to inst args o -> ss.*1 = args ->
  error m = PE_SUCCESS ->
  continues o Fresh k (set_st rest m) (loop (inst :: k) (set_st (rev ss ++ rest) m)).
Proof.
  intros H Hs He. specialize (H ss rest m Hs He). rewrite loop_step. cbn zeta in H.
  destruct o as [v|e|f]; cbn [continues].
  - by rewrite H.
  - destruct H as (H1 & H2 & m' & ->). exists m'. by destruct e.
  - destruct H as (m' & ->). by exists m'.
Qed.

Lemma set_st_st m : set_st (st m) m = m.
Proof. by destruct m. Qed.

Lemma runs_op1 c o w inst f : runs_to c o w -> (forall x, steps_to inst [x] (f x)) ->
  runs_to (c ++ [inst]) (obind o f) Fresh.
Proof.
  intros Hc Hf k m He. rewrite <- app_assoc. specialize (Hc ([inst] ++ k) m He).
  destruct o as [x| |]; [|exact Hc..]. cbn [continues] in Hc. rewrite Hc. cbn [obind].
  pose proof (continues_step inst [x] (f x) [(x, w)] (st m) k m (Hf x) eq_refl He) as H.
  by rewrite set_st_st in H.
Qed.

Lemma runs_op2 c1 o1 w1 c2 o2 w2 inst f : runs_to c1 o1 w1 -> runs_to c2 o2 w2 ->
  (forall x y, steps_to inst [x; y] (f x y)) ->
  runs_to (c1 ++ c2 ++ [inst]) (obind o1 (fun x => obind o2 (f x))) Fresh.
Proof.
  intros H1 H2 Hf k m He. rewrite <- !app_assoc. specialize (H1 (c2 ++ [inst] ++ k) m He).
  destruct o1 as [x| |]; [|exact H1..]. cbn [continues] in H1. rewrite H1. cbn [obind].
  specialize (H2 ([inst] ++ k) (set_st ((x, w1) :: st m) m) He).
  destruct o2 as [y| |]; [|exact H2..]. cbn [continues] in H2. rewrite H2. cbn [obind].
  pose proof (continues_step inst [x; y] (f x y) [(x, w1); (y, w2)] (st m) k m (Hf x y) eq_refl He) as H.
  by rewrite set_st_st in H.
Qed.

Lemma runs_op3 c1 o1 w1 c2 o2 w2 c3 o3 w3 inst f :
  runs_to c1 o1 w1 -> runs_to c2 o2 w2 -> runs_to c3 o3 w3 ->
  (forall x y z, steps_to inst [x; y; z] (f x y z)) ->
  runs_to (c1 ++ c2 ++ c3 ++ [inst])
    (obind o1 (fun x => obind o2 (fun y => obind o3 (f x y)))) Fresh.
Proof.
  intros H1 H2 H3 Hf k m He. rewrite <- !app_assoc.
  specialize (H1 (c2 ++ c3 ++ [inst] ++ k) m He).
  destruct o1 as [x| |]; [|exact H1..]. cbn [continues] in H1. rewrite H1. cbn [obind].
  specialize (H2 (c3 ++ [inst] ++ k) (set_st ((x, w1) :: st m) m) He).
  destruct o2 as [y| |]; [|exact H2..]. cbn [continues] in H2. rewrite H2. cbn [obind].
  specialize (H3 ([inst] ++ k)
    (set_st ((y, w2) :: st (set_st ((x, w1) :: st m) m)) (set_st ((x, w1) :: st m) m)) He).
  destruct o3 as [z| |]; [|exact H3..]. cbn [continues] in H3. rewrite H3. cbn [obind].
  pose proof (continues_step inst [x; y; z] (f x y z) [(x, w1); (y, w2); (z, w3)] (st m) k m
    (Hf x y z) eq_refl He) as H.
  by rewrite set_st_st in H.
Qed.

(** *** What the operations do *)

(** The outcome of an operation before its exceptions become codes. *)
Definition handled (r : res unit * vm) (o : outcome) (rest : list slot) (m : vm) : Prop :=
  match o with
  | Val v => r = (Ok tt, set_st ((v, Fresh) :: rest) m)
  | Code e => e <> PE_SUCCESS /\ e <> PE_STOP /\ exists m',
      (r = (Ok tt, m') /\ error m' = e) \/ (e = PE_OPER_UNSUP /\ r = (Fail OperException, m')) \/
      (e = PE_TYPE_CONVERSION /\ r = (Fail TypeError, m'))
  | Raise f => f <> OperException /\ f <> TypeError /\ exists m', r = (Fail f, m')
  end.

Definition performs (op : opcode) (args : list value) (o : outcome) : Prop :=
  forall inst ss rest m, ss.*1 = args -> error m = PE_SUCCESS ->
    handled (op_fn nodeid op prg data inst (set_st (rev ss ++ rest) m)) o rest m.

(** An instruction of the table runs its operation. *)
Lemma exec_named i name arity op m : named_op i = true ->
  jump_table !! i = Some (name, arity, op) -> (arity <= length (st m))%nat ->
  execute_instruction nodeid prg data (code_of 0 (IOp i)) m =
    match op_fn nodeid op prg data (code_of 0 (IOp i)) m with
    | (Ok _, m') => (Ok (error m'), m')
    | (Fail OperException, m') => (Ok PE_OPER_UNSUP, set_error PE_OPER_UNSUP m')
    | (Fail TypeError, m') => (Ok PE_TYPE_CONVERSION, set_error PE_TYPE_CONVERSION m')
    | (Fail f, m') => (Fail f, m')
    end.
Proof.
  intros Hi Hj Ha. unfold execute_instruction. cbn [code_of].
  assert (E : Z.land (Z.land (Z.of_nat i) 65535) 65535 = Z.of_nat i)
    by (by rewrite (op_word i Hi), (op_word i Hi)).
  rewrite E. assert (Hb : (NUM_OPCODES <? Z.of_nat i) = false).
  { apply Z.ltb_ge. apply named_op_bound in Hi as [Hi _]. unfold NUM_OPCODES. lia. }
  rewrite Hb, Nat2Z.id, Hj. apply Nat.ltb_ge in Ha. by rewrite Ha.
Qed.

Lemma steps_named i name arity op args o : named_op i = true ->
  jump_table !! i = Some (name, arity, op) -> length args = arity -> performs op args o ->
  steps_to (code_of 0 (IOp i)) args o.
Proof.
  intros Hi Hj Ha Hp ss rest m Hs He r. unfold r.
  rewrite (exec_named i name arity op).
  2,3: done.
  2:{ cbn. rewrite length_app, length_rev, <- Ha, <- Hs, length_map. lia. }
  specialize (Hp (code_of 0 (IOp i)) ss rest m Hs He).
  destruct o as [v|e|f]; cbn [handled] in Hp.
  - rewrite Hp. by rewrite <- He.
  - destruct Hp as (H1 & H2 & m' & Hp). do 2 (split; [done|]).
    destruct Hp as [[-> <-]|[[-> ->]|[-> ->]]]; eauto.
  - destruct Hp as (H1 & H2 & m' & ->). exists m'. by destruct f.
Qed.

Lemma handled_lift {A} (inj : A -> value) (r : res A) rest m : error m = PE_SUCCESS ->
  handled (bind (lift r) (fun a => push_new (inj a)) (set_st rest m)) (outcome_of inj r) rest m.
Proof.
  intros He. destruct r as [a|f]; [done|]. destruct f; cbn; repeat split; try done; eauto.
Qed.

Lemma performs_binary op f x y : (forall inst, op_fn nodeid op prg data inst = binary f) ->
  performs op [x; y] (outcome_of id (f x y)).
Proof.
  intros E inst ss rest m Hs He. rewrite E.
  destruct ss as [|[a wa] [|[b wb] [|]]]; cbn in Hs; simplify_eq.
  apply (handled_lift id (f x y) rest m He).
Qed.

Lemma performs_compare op f x y : (forall inst, op_fn nodeid op prg data inst = compare_op f) ->
  performs op [x; y] (outcome_of bool_value (f x y)).
Proof.
  intros E inst ss rest m Hs He. rewrite E.
  destruct ss as [|[a wa] [|[b wb] [|]]]; cbn in Hs; simplify_eq.
  apply (handled_lift bool_value (f x y) rest m He).
Qed.

Lemma performs_interval op f x y z : (forall inst, op_fn nodeid op prg data inst = interval_op f) ->
  performs op [x; y; z] (outcome_of bool_value (f x y z)).
Proof.
  intros E inst ss rest m Hs He. rewrite E.
  destruct ss as [|[a wa] [|[b wb] [|[c wc] [|]]]]; cbn in Hs; simplify_eq.
  apply (handled_lift bool_value (f x y z) rest m He).
Qed.

Lemma handled_truth v (k : bool -> M unit) (ko : bool -> outcome) rest m : error m = PE_SUCCESS ->
  (forall b, handled (k b (set_st rest m)) (ko b) rest m) ->
  handled (bind (lift (Val_Int64_cast v)) (fun z => k (negb (z =? 0))) (set_st rest m)) (truth v ko) rest m.
Proof.
  intros He Hk. unfold truth, bind, lift. destruct (Val_Int64_cast v) as [z|f]; [apply Hk|].
  destruct f; cbn; repeat split; try done; eauto.
Qed.

Lemma performs_not x : performs NOT [x] (truth x (fun b => Val (bool_value (negb b)))).
Proof.
  intros inst ss rest m Hs He. destruct ss as [|[a wa] [|]]; cbn in Hs; simplify_eq.
  pose proof (handled_truth x (fun b => push_bool (negb b))
    (fun b => Val (bool_value (negb b))) rest m He) as H.
  unfold bind, lift in H. cbn in H |- *. unfold op_NOT, pop_signed, bind, lift, ret, pop, pop_slot. cbn.
  destruct (Val_Int64_cast x); [|by apply H]. rewrite negb_involutive in H. by apply H.
Qed.

(** [and] and [or] convert the right operand first. *)
Lemma performs_connective op g x y :
  (forall inst, op_fn nodeid op prg data inst =
    bind pop_signed (fun v2 => bind pop_signed (fun v1 => push_bool (g (negb (v1 =? 0)) (negb (v2 =? 0)))))) ->
  performs op [x; y] (truth y (fun b => truth x (fun a => Val (bool_value (g a b))))).
Proof.
  intros E inst ss rest m Hs He. rewrite E.
  destruct ss as [|[a wa] [|[b wb] [|]]]; cbn in Hs; simplify_eq.
  unfold truth, pop_signed, pop, pop_slot, bind, lift, ret. cbn.
  destruct (Val_Int64_cast y) as [z2|f]; [|destruct f; cbn; repeat split; try done; eauto].
  cbn. destruct (Val_Int64_cast x) as [z1|f]; [done|destruct f; cbn; repeat split; try done; eauto].
Qed.

Lemma performs_divide x y : performs DIV [x; y] (math_value MathOp.DIVIDE x y).
Proof.
  intros inst ss rest m Hs He. destruct ss as [|[a wa] [|[b wb] [|]]]; cbn in Hs; simplify_eq.
  cbn [op_fn]. unfold op_DIV, math_value, divide_by, pop, pop_slot, bind, lift, ret. cbn.
  destruct (op_neq y (VInt64 0)) as [[]|f].
  - destruct (op_divide x y) as [v|f]; [done|].
    destruct f; cbn; repeat split; try done; eauto.
  - cbn. repeat split; try done. eauto.
  - destruct f; cbn; repeat split; try done; eauto.
Qed.

Lemma performs_mod x y : performs MOD [x; y] (math_value MathOp.MODULUS x y).
Proof.
  intros inst ss rest m Hs He. destruct ss as [|[a wa] [|[b wb] [|]]]; cbn in Hs; simplify_eq.
  cbn [op_fn]. unfold op_MOD, math_value, divide_by, pop, pop_slot, bind, lift, ret. cbn.
  destruct (op_neq y (VInt64 0)) as [[]|f].
  - destruct (op_mod x y) as [v|f]; [done|]. destruct f; cbn; repeat split; try done; eauto.
  - cbn. repeat split; try done. eauto.
  - destruct f; cbn; repeat split; try done; eauto.
Qed.

Lemma performs_append x y : performs APPEND [x; y] (math_value MathOp.APPEND x y).
Proof.
  intros inst ss rest m Hs He. by destruct ss as [|[a wa] [|[b wb] [|]]]; cbn in Hs; simplify_eq.
Qed.

(** [by_name H w]: the cases of the name [w] looked up in [H]. *)
Local Ltac by_name H w :=
  repeat match type of H with context [String.eqb ?a w] =>
    destruct (String.eqb_spec a w) as [<-|]; [injection H as <-|] end; try done.

Lemma math_steps w o x y : math_of w = Some o ->
  code_op w = [IOp (op_index w)] /\
  steps_to (code_of 0 (IOp (op_index w))) [x; y] (math_value o x y).
Proof.
  unfold math_of. cbn [List.find math_ops named math_name]. intros H.
  by_name H w; (split; [reflexivity|]);
    (eapply steps_named; [reflexivity|reflexivity|reflexivity|]);
    first [apply performs_divide|apply performs_mod|apply performs_append
          |by apply performs_binary].
Qed.

Lemma range_steps w o x y z : range_of w = Some o ->
  code_op w = [IOp (op_index w)] /\
  steps_to (code_of 0 (IOp (op_index w))) [x; y; z] (range_value o x y z).
Proof.
  unfold range_of. cbn [List.find range_ops range_name]. intros H.
  by_name H w; (split; [reflexivity|]);
    (eapply steps_named; [reflexivity|reflexivity|reflexivity|]); by apply performs_interval.
Qed.

Lemma not_steps x :
  steps_to (code_of 0 (IOp (op_index "not"))) [x] (truth x (fun b => Val (bool_value (negb b)))).
Proof. eapply steps_named; [reflexivity|reflexivity|reflexivity|]. apply performs_not. Qed.

Lemma neq_outcome x y :
  bool_math BoolOp.NEQ x y =
    obind (outcome_of bool_value (op_eq x y)) (fun v => truth v (fun b => Val (bool_value (negb b)))).
Proof.
  cbn [bool_math]. destruct (op_eq x y) as [b|f]; [by destruct b|by destruct f].
Qed.

(** The comparison and connective of a name, which [!=] does in two steps. *)
Lemma bool_steps w o c1 o1 w1 c2 o2 w2 : bool_of w = Some o ->
  runs_to c1 o1 w1 -> runs_to c2 o2 w2 ->
  runs_to (c1 ++ c2 ++ codes 0 (code_op w)) (obind o1 (fun x => obind o2 (bool_math o x))) Fresh.
Proof.
  unfold bool_of. cbn [List.find bool_ops named bool_name]. intros H R1 R2.
  by_name H w;
    try (apply (runs_op2 c1 o1 w1 c2 o2 w2); [done|done|]; intros x y;
         (eapply steps_named; [reflexivity|reflexivity|reflexivity|]);
         first [by apply performs_compare|by apply (performs_connective _ andb)
               |by apply (performs_connective _ orb)]).
  change (codes 0 (code_op "== not")) with
    ([code_of 0 (IOp (op_index "=="))] ++ [code_of 0 (IOp (op_index "not"))]).
  rewrite !app_assoc, <- (app_assoc c1 c2).
  replace (obind o1 _) with
    (obind (obind o1 (fun x => obind o2 (fun y => outcome_of bool_value (op_eq x y))))
       (fun v => truth v (fun b => Val (bool_value (negb b))))).
  - eapply runs_op1; [|apply not_steps].
    eapply runs_op2; [done|done|]. intros x y.
    eapply steps_named; [reflexivity|reflexivity|reflexivity|]. by apply performs_compare.
  - destruct o1 as [x| |]; [|done..]. destruct o2 as [y| |]; [|done..]. symmetry. apply neq_outcome.
Qed.

(** *** Constants and fields *)

Lemma runs_const n v : const_pool prg !! n = Some v -> Z.of_nat n < 65536 ->
  runs_to [code_of n (IConst v)] (Val v) Shared.
Proof.
  intros Hv Hn k m He. cbn [app continues]. rewrite loop_step. unfold execute_instruction.
  cbn [code_of]. destruct (word_of_parts (Z.of_nat n) OP_PUSH_CONST) as [E1 E2]; [lia|done|].
  rewrite E2. change (NUM_OPCODES <? OP_PUSH_CONST) with false.
  change (jump_table !! Z.to_nat OP_PUSH_CONST) with (Some ("", 0%nat, PUSH_CONST)). cbn match.
  change (length (st m) <? 0)%nat with false. cbn [op_fn]. unfold op_PUSH_CONST. rewrite E1.
  pose proof (lookup_lt_Some _ _ _ Hv) as Hl.
  replace (Z.of_nat (length (const_pool prg)) <? Z.of_nat n) with false by lia.
  unfold field. rewrite Nat2Z.id, Hv. cbn. by rewrite He.
Qed.

Lemma runs_field p x : data !! p = Some x -> Z.of_nat p < 65536 ->
  runs_to [code_of 0 (IField (Z.of_nat p))] (Val x) Shared.
Proof.
  intros Hv Hn k m He. cbn [app continues]. rewrite loop_step. unfold execute_instruction.
  cbn [code_of]. destruct (word_of_parts (Z.of_nat p) OP_PUSH_FIELD) as [E1 E2]; [lia|done|].
  rewrite E2. change (NUM_OPCODES <? OP_PUSH_FIELD) with false.
  change (jump_table !! Z.to_nat OP_PUSH_FIELD) with (Some ("", 0%nat, PUSH_FIELD)). cbn match.
  change (length (st m) <? 0)%nat with false. cbn [op_fn]. unfold op_PUSH_FIELD. rewrite E1.
  pose proof (lookup_lt_Some _ _ _ Hv) as Hl.
  replace (Z.of_nat (length data) <? Z.of_nat p) with false by lia.
  unfold field. rewrite Nat2Z.id, Hv. cbn. by rewrite He.
Qed.

(** *** Expressions *)

(** The constants [cs] are in the pool from [n] on. *)
Definition pooled (n : nat) (cs : list value) : Prop :=
  forall i v, cs !! i = Some v -> const_pool prg !! (n + i)%nat = Some v /\ Z.of_nat (n + i) < 65536.

Lemma pooled_app n a b : pooled n (a ++ b) -> pooled n a /\ pooled (n + length a) b.
Proof.
  intros H. split; intros i v Hi.
  - apply H. by apply lookup_app_l_Some.
  - rewrite <- Nat.add_assoc. apply H. rewrite lookup_app_r by lia.
    by replace (length a + i - length a)%nat with i by lia.
Qed.

Lemma constants_app a b : constants (a ++ b) = constants a ++ constants b.
Proof. apply omap_app. Qed.

Lemma codes_app n a b : codes n (a ++ b) = codes n a ++ codes (n + length (constants a)) b.
Proof.
  revert n. induction a as [|i a IH]; intros n; cbn [app codes].
  - cbn. by rewrite Nat.add_0_r.
  - rewrite IH, (constants_cons i a), length_app, Nat.add_assoc. done.
Qed.

(** Operations and fields do not depend on the constants so far. *)
Lemma codes_op n w : codes n (code_op w) = codes 0 (code_op w) /\ constants (code_op w) = [].
Proof. unfold code_op. by destruct (String.eqb w "== not"). Qed.

Definition held (e : Expression) : own :=
  match e with EValue _ | EVariable _ _ _ => Shared | _ => Fresh end.

Context (schema : list value).
Hypothesis data_schema : (length data <= S (length schema))%nat.
Hypothesis schema_small : Z.of_nat (length schema) < 65535.

Local Abbreviation code_s := (code nodeid schema).
Local Abbreviation eval_s := (eval nodeid schema data).

(** The instructions of [e] compute what [eval] says. *)
Definition computes (e : Expression) : Prop := forall o n,
  eval_s e = Some o -> pooled n (constants (code_s e)) -> runs_to (codes n (code_s e)) o (held e).
Definition computes_deep (e : Expression) : Prop :=
  computes e /\ match e with ERange _ _ lo hi => computes lo /\ computes hi | _ => True end.

Lemma computes_value v : computes (EValue v).
Proof.
  intros o n [= <-] Hp. destruct (Hp 0%nat v eq_refl) as [Hv Hn]. rewrite Nat.add_0_r in Hv, Hn.
  by apply runs_const.
Qed.

Lemma computes_variable v l b : computes (EVariable v l b).
Proof.
  intros o n H _. cbn [eval code] in *. destruct l, b; try done.
  destruct (variable_value nodeid schema data v) as [[p x]|] eqn:E; [|done]. injection H as <-.
  destruct (variable_position nodeid schema data data_schema v p x E) as (-> & Hx & Hp).
  cbn [codes]. replace (Z.of_nat p + 1) with (Z.of_nat (S p)) by lia. apply runs_field; [done|lia].
Qed.

Lemma computes_bool w l r : computes l -> computes r -> is_range r = false ->
  computes (EBool w l (Some r)).
Proof.
  intros Hl Hr Hn o n.
  assert (eval_s (EBool w l (Some r)) =
    match bool_of w, eval_s l, eval_s r with
    | Some o, Some x, Some y => Some (obind x (fun x => obind y (bool_math o x)))
    | _, _, _ => None end) as -> by (by destruct r).
  assert (code_s (EBool w l (Some r)) = code_s l ++ code_s r ++ code_op w) as -> by (by destruct r).
  destruct (bool_of w) as [bo|] eqn:Ew; [|done].
  destruct (eval_s l) as [x|] eqn:El; [|done]. destruct (eval_s r) as [y|] eqn:Er; [|done].
  intros [= <-]. rewrite !constants_app, !codes_app.
  intros [Pl [Pr _]%pooled_app]%pooled_app. rewrite (proj1 (codes_op _ w)).
  eapply bool_steps; [done|by apply Hl|by apply Hr].
Qed.

Lemma computes_math w l r : computes l -> computes r -> computes (EMath w l (Some r)).
Proof.
  intros Hl Hr o n. cbn [eval code].
  destruct (math_of w) as [mo|] eqn:Ew; [|done].
  destruct (eval_s l) as [x|] eqn:El; [|done]. destruct (eval_s r) as [y|] eqn:Er; [|done].
  intros [= <-]. rewrite !constants_app, !codes_app.
  intros [Pl [Pr _]%pooled_app]%pooled_app. rewrite (proj1 (codes_op _ w)).
  rewrite (proj1 (math_steps w mo VNull VNull Ew)).
  eapply runs_op2; [by apply Hl|by apply Hr|]. intros a b. by apply math_steps.
Qed.

Lemma computes_in w w' ty l lo hi : computes l -> computes lo -> computes hi ->
  computes (EBool w l (Some (ERange w' ty lo hi))).
Proof.
  intros Hl Hlo Hhi o n. cbn [eval code]. destruct (String.eqb w "in"); [|done].
  destruct (range_of w') as [ro|] eqn:Ew; [|done].
  destruct (eval_s l) as [x|] eqn:El; [|done]. destruct (eval_s lo) as [y|] eqn:Elo; [|done].
  destruct (eval_s hi) as [z|] eqn:Ehi; [|done].
  intros [= <-]. rewrite !constants_app, !codes_app.
  intros [Pl [Plo [Phi _]%pooled_app]%pooled_app]%pooled_app. rewrite (proj1 (codes_op _ w')).
  rewrite (proj1 (range_steps w' ro VNull VNull VNull Ew)).
  eapply runs_op3; [by apply Hl|by apply Hlo|by apply Hhi|]. intros a b c. by apply range_steps.
Qed.

Lemma computes_not w l : computes l -> computes (EBool w l None).
Proof.
  intros Hl o n. cbn [eval code].
  destruct (String.eqb_spec w "not") as [->|]; [|done].
  destruct (eval_s l) as [x|] eqn:El; [|done]. intros [= <-].
  rewrite constants_app, codes_app. intros [Pl _]%pooled_app. rewrite (proj1 (codes_op _ "not")).
  eapply runs_op1; [by apply Hl|]. intros a. apply not_steps.
Qed.

Lemma computes_all e : computes_deep e.
Proof.
  induction e as [v|v l n|o v|w l [IHl _]|w l r [IHl _] [IHr IHr']|w ty l r [IHl _] [IHr _]
    |w l _|w l r [IHl _] [IHr _]|v|v|n args|args] using Expression_induction; (split; [|done || idtac]);
    try (intros ? ?; done).
  - apply computes_value.
  - apply computes_variable.
  - by apply computes_not.
  - destruct r; try (by apply computes_bool). destruct IHr'. by apply computes_in.
  - by apply computes_math.
Qed.
End exec.

(** ** The theorems *)

Lemma pooled_whole cs prg : const_pool prg = cs -> Z.of_nat (length cs) <= 65536 -> pooled prg 0 cs.
Proof. intros E Hl i v Hi. split; [by rewrite E|]. apply lookup_lt_Some in Hi. cbn. lia. Qed.

Section compiled.
Context `{P : Platform} `{X : Externals} (nodeid : value) (schema data : list value).
Hypothesis data_schema : (length data <= S (length schema))%nat.
Hypothesis schema_small : Z.of_nat (length schema) < 65535.

(** [e] is compiled and runs: it is in the fragment, with outcome [o], its
    constants are shown as they are read, the program text opens no vector and
    the constants are few enough to be numbered. *)
Definition compilable (e : Expression) (t : value) (o : outcome) (rest : list instr) : Prop :=
  eval nodeid schema data e = Some o /\ plain_constants e /\ Expression_tuple nodeid e = Ok t /\
  vector_free (code nodeid schema e ++ rest) = true /\
  Z.of_nat (length (constants (code nodeid schema e))) <= 65536.

Definition start (m : vm) : vm := set_result None (set_error PE_SUCCESS m).

(** C33: Compiling an expression is correct.  Take an expression whose constants are
    integers, identifiers or NULL, at most 65536 of them, and whose program text has
    no [>] behind a [<], where the lexer would read a vector.  The text generated for
    its tuple is read as a program which, run on a tuple of the schema, pushes the
    value the reference evaluator gives and leaves the rest of the machine alone;
    where the evaluator reports an error code or an exception, so does the run. *)
Theorem expression_compiled (e : Expression) (t : value) (o : outcome) :
  compilable e t o [] ->
  exists text prg, gen schema t = Ok (text, schema) /\ compile text = Ok prg /\
  forall m, match o with
            | Val v => execute nodeid prg data m =
                (Ok PE_SUCCESS, set_st ((v, held e) :: st m) (start m))
            | Code c => exists m', execute nodeid prg data m = (Ok c, m')
            | Raise f => exists m', execute nodeid prg data m = (Fail f, m')
            end.
Proof.
  intros (He & Hp & Ht & Hv & Hc). rewrite app_nil_r in Hv.
  destruct (proj1 (generates_all nodeid schema data data_schema schema_small e) o t He Hp Ht) as [Hg Hr].
  exists (program_text (code nodeid schema e)), (load (code nodeid schema e)).
  split; [done|]. split; [by apply compile_program_text|]. intros m.
  destruct (computes_all nodeid (load (code nodeid schema e)) data schema data_schema
    schema_small e) as [H _].
  specialize (H o 0%nat He). unfold execute. rewrite load_eq in *. cbn [ops].
  specialize (H (pooled_whole _ (mkProgram _ _) eq_refl Hc) [] (start m) eq_refl).
  rewrite app_nil_r in H. exact H.
Qed.

(** *** Selections *)

Definition select_ops : list instr :=
  [IOp (op_index "not"); IOp (op_index "ifstop"); IOp (op_index "swallow"); IOp (op_index "unboxPop")].

Lemma select_text : program_text select_ops = "not ifstop swallow unboxPop ".
Proof. vm_compute. reflexivity. Qed.

Lemma append_all vs m :
  result_append_all vs m = (Ok tt, match vs with
                                   | [] => m
                                   | _ => set_result (Some (default [] (result m) ++ vs)) m
                                   end).
Proof.
  revert m. induction vs as [|v vs IH]; intros m; [done|].
  cbn [result_append_all]. unfold bind, result_append. rewrite IH. f_equal.
  destruct vs; [done|]. cbn. unfold set_result. cbn. by rewrite <- app_assoc.
Qed.

(** The end of a selection, on the value of the condition. *)
Lemma select_loop prg b w m : error m = PE_SUCCESS -> result m = None ->
  exists m', execute_loop nodeid prg data (codes 0 select_ops) (set_st ((bool_value b, w) :: st m) m) =
    (Ok PE_SUCCESS, m') /\ result m' = (if b then Some data else None) /\ st m' = st m.
Proof.
  destruct m as [s e r f i w0]. cbn [error result]. intros -> ->.
  unfold select_ops. cbn [codes constants omap length Nat.add].
  rewrite loop_step, (exec_named nodeid prg data _ "not" 1 NOT) by (done || cbn; lia).
  cbn -[code_of execute_loop]. rewrite loop_step.
  rewrite (exec_named nodeid prg data _ "ifstop" 1 IFSTOP) by (done || cbn; lia).
  destruct b; cbn -[code_of execute_loop]; [|by eexists].
  rewrite loop_step, (exec_named nodeid prg data _ "swallow" 0 T_SWALLOW) by (done || cbn; lia).
  cbn -[code_of execute_loop].
  rewrite loop_step, (exec_named nodeid prg data _ "unboxPop" 1 T_UNBOXPOP) by (done || cbn; lia).
  cbn -[code_of execute_loop result_append_all].
  unfold op_T_UNBOXPOP, pop, pop_slot, lift, ret, bind, result_open.
  cbn -[code_of execute_loop result_append_all].
  rewrite append_all. cbn -[execute_loop]. destruct data; cbn; by eexists.
Qed.

Lemma gen_select t text a b more : gen schema t = Ok (text, schema) ->
  gen schema (VTuple (mk_named nodeid SELECT ++ a :: b :: t :: more)) =
    Ok (text +:+ "not ifstop swallow unboxPop ", schema).
Proof. intros H. cbn. by rewrite H. Qed.

Lemma compilable_text e t o rest : compilable e t o rest -> Forall readable rest ->
  gen schema t = Ok (program_text (code nodeid schema e), schema) /\
  compile (program_text (code nodeid schema e) +:+ program_text rest) =
    Ok (load (code nodeid schema e ++ rest)).
Proof.
  intros (He & Hp & Ht & Hv & Hc) Hr.
  destruct (proj1 (generates_all nodeid schema data data_schema schema_small e) o t He Hp Ht) as [Hg Hr'].
  split; [done|]. rewrite <- program_text_app. apply compile_program_text; [by apply Forall_app|done].
Qed.

(** A compiled selection keeps a tuple exactly when its condition holds: the
    program generated for it answers the whole tuple as its result when the
    condition evaluates to true and no result when it evaluates to false, and
    leaves the stack as it was. *)
Theorem selection_compiled (e : Expression) (t : value) (b : bool) (id rid : value) more :
  compilable e t (Val (bool_value b)) select_ops ->
  exists text prg,
    gen schema (VTuple (mk_named nodeid SELECT ++ id :: rid :: t :: more)) = Ok (text, schema) /\
    compile text = Ok prg /\
    forall m, exists m', execute nodeid prg data m = (Ok PE_SUCCESS, m') /\
      result_tuple m' = (if b then Some data else None) /\ st m' = st m.
Proof.
  intros Hc. destruct (compilable_text e t _ select_ops Hc) as [Hg Hl]; [by repeat constructor|].
  rewrite select_text in Hl. eexists _, _. split; [by apply gen_select|]. split; [exact Hl|].
  destruct Hc as (He & _ & _ & _ & Hn). intros m.
  set (is_ := code nodeid schema e ++ select_ops).
  destruct (computes_all nodeid (load is_) data schema data_schema schema_small e) as [H _].
  assert (Hcs : constants is_ = constants (code nodeid schema e)).
  { unfold is_. rewrite constants_app. change (constants select_ops) with (@nil value). by rewrite app_nil_r. }
  specialize (H _ 0%nat He). unfold execute. rewrite load_eq, Hcs in *. cbn [ops].
  specialize (H (pooled_whole _ (mkProgram _ _) eq_refl Hn)).
  unfold is_ at 2. rewrite codes_app.
  specialize (H (codes 0 select_ops) (start m) eq_refl). cbn [continues] in H.
  change (codes (0 + _) select_ops) with (codes 0 select_ops).
  destruct (select_loop (mkProgram (codes 0 is_) (constants (code nodeid schema e))) b (held e) (start m))
    as (m' & E & Hr & Hs); [done|done|]. exists m'. rewrite <- E. auto.
Qed.
End compiled.

(** *** Assignments *)

Section assignment.
Context `{P : Platform} `{X : Externals} (nodeid : value).

(** [$k pop] for [n] fields from position [from] on. *)
Definition pops (from n : nat) : list instr :=
  flat_map (fun k => [IField (Z.of_nat k + 1); IOp (op_index "pop")]) (seq from n).

Lemma pops_text from n : program_text (pops from n) = pop_fields from n.
Proof.
  unfold pops, pop_fields. induction (seq from n) as [|k ks IH]; [done|]. cbn [flat_map fold_right].
  rewrite program_text_app, IH. unfold field_text, program_text. cbn [fold_right show].
  change (mnemonic (op_index "pop")) with "pop". rewrite !string_app_assoc. done.
Qed.

Lemma pops_readable from n : (Z.of_nat (from + n) < 65536) -> Forall readable (pops from n).
Proof.
  intros H. unfold pops. apply Forall_flat_map, Forall_forall. intros k Hk%elem_of_seq.
  apply Forall_cons. split; [cbn; lia|]. by apply Forall_singleton.
Qed.

Lemma pops_constants from n : constants (pops from n) = [].
Proof.
  unfold pops. induction (seq from n) as [|k ks IH]; [done|]. cbn [flat_map].
  by rewrite constants_app, IH.
Qed.

(** The machine with [vs] appended to its result. *)
Definition add_result (vs : list value) (m : vm) : vm :=
  match vs with [] => m | _ => set_result (Some (default [] (result m) ++ vs)) m end.

Lemma add_result_app a b m : add_result b (add_result a m) = add_result (a ++ b) m.
Proof.
  destruct a as [|x a]; [done|]. destruct b as [|y b]; [by rewrite app_nil_r|].
  cbn. unfold set_result. cbn. by rewrite <- app_assoc.
Qed.

Lemma pop_loop prg data v w k m : error m = PE_SUCCESS ->
  execute_loop nodeid prg data (codes 0 [IOp (op_index "pop")] ++ k) (set_st ((v, w) :: st m) m) =
    execute_loop nodeid prg data k (add_result [v] m).
Proof.
  destruct m as [s e r f i w0]. cbn [error]. intros ->. cbn [codes app].
  rewrite loop_step, (exec_named nodeid prg data _ "pop" 1 POP) by (done || cbn; lia).
  cbn -[code_of execute_loop]. unfold set_result. cbn. by destruct r.
Qed.

Lemma pops_loop prg data from n c k m : (n = 0 \/ S (from + n) <= length data)%nat ->
  Z.of_nat (length data) < 65536 -> error m = PE_SUCCESS ->
  execute_loop nodeid prg data (codes c (pops from n) ++ k) m =
    execute_loop nodeid prg data k (add_result (take n (drop (S from) data)) m).
Proof.
  revert from c m. induction n as [|n IH]; intros from c m Hl Hd He; [done|].
  destruct (lookup_lt_is_Some_2 data (S from)) as [x Hx]; [lia|].
  assert (Hf : runs_to nodeid prg data [code_of 0 (IField (Z.of_nat (S from)))] (Val x) Shared)
    by (apply runs_field; [done|lia]).
  change (pops from (S n)) with
    ([IField (Z.of_nat from + 1)] ++ [IOp (op_index "pop")] ++ pops (S from) n).
  rewrite !codes_app, <- !app_assoc. cbn [codes constants omap length].
  replace (Z.of_nat from + 1) with (Z.of_nat (S from)) by lia.
  etransitivity; [exact (Hf _ m He)|]. rewrite pop_loop by done.
  rewrite IH by (try done; lia). f_equal. rewrite add_result_app. f_equal.
  by rewrite (drop_S data x (S from)).
Qed.

(** The schema after an assignment, and where the variable is in it. *)
Definition assigned (schema : list value) (var : value) (p : Z) : list value * nat :=
  if p <? 0 then (schema ++ [var], length schema) else (schema, Z.to_nat p).

Lemma gen_assign schema schema' var t p q text a b more :
  position schema var = Ok p -> assigned schema var p = (schema', q) ->
  gen schema' t = Ok (text, schema') ->
  gen schema (VTuple (mk_named nodeid ASSIGN ++ a :: b :: var :: t :: more)) =
    Ok (pop_fields 0 q +:+ text +:+ "pop " +:+ pop_fields (S q) (length schema' - S q), schema').
Proof.
  intros Hp Ha Hg. unfold assigned in Ha. cbn -[position pop_fields]. rewrite Hp. cbn [rbind].
  destruct (p <? 0); simplify_eq; by rewrite Hg.
Qed.

(** The instructions of an assignment to position [q]. *)
Definition assign_code (schema' : list value) (e : Expression) (q : nat) : list instr :=
  pops 0 q ++ code nodeid schema' e ++ [IOp (op_index "pop")] ++ pops (S q) (length schema' - S q).

Lemma assign_loop prg schema' data e q c v m :
  (length data <= S (length schema'))%nat -> Z.of_nat (length schema') < 65535 ->
  (S q <= length data)%nat -> (S (length schema') <= length data \/ length schema' <= S q)%nat ->
  eval nodeid schema' data e = Some (Val v) ->
  pooled prg c (constants (code nodeid schema' e)) -> error m = PE_SUCCESS -> result m = None ->
  execute_loop nodeid prg data (codes c (assign_code schema' e q)) m =
    (Ok PE_SUCCESS,
     set_result (Some (take q (drop 1 data) ++ [v] ++ drop (S (S q)) data)) m).
Proof.
  intros Hd Hs Hq Hl He Hp Hm Hr. unfold assign_code. rewrite !codes_app, pops_constants, Nat.add_0_r.
  rewrite pops_loop by (try done; lia).
  destruct (computes_all nodeid prg data schema' Hd Hs e) as [Hc _].
  specialize (Hc _ c He Hp). set (m1 := add_result _ m).
  assert (E1 : error m1 = PE_SUCCESS) by (unfold m1, add_result; by destruct (take _ _)).
  etransitivity; [exact (Hc _ m1 E1)|].
  change (codes _ [IOp (op_index "pop")]) with (codes 0 [IOp (op_index "pop")]).
  rewrite pop_loop, <- (app_nil_r (codes _ (pops _ _))) by done.
  rewrite pops_loop by (unfold m1, add_result; try (by destruct (take _ _)); lia).
  rewrite !add_result_app, take_ge by (rewrite length_drop; lia).
  unfold m1. rewrite add_result_app. cbn [execute_loop].
  set (vs := take q (drop 1 data) ++ [v] ++ drop (S (S q)) data).
  replace (take q (drop 1 data) ++ _) with vs by (unfold vs; by rewrite <- ?app_assoc).
  assert (Hne : vs <> []) by (unfold vs; by destruct (take q (drop 1 data))).
  clearbody vs. destruct vs as [|x vs]; [done|]. cbn [add_result]. rewrite Hr. cbn. by rewrite Hm.
Qed.

(** A compiled assignment extends or updates a tuple: the program generated
    for it answers the fields of the tuple with the value of the expression in
    the place of the variable, which is a new last field when the schema does
    not have the variable; the schema grows accordingly and the stack is left
    as it was. *)
Theorem assignment_compiled (schema data : list value) (e : Expression) (t var v : value)
    (p : Z) (schema' : list value) (q : nat) (id rid : value) more :
  length data = S (length schema) -> Z.of_nat (length schema) < 65534 ->
  position schema var = Ok p -> p < Z.of_nat (length schema) ->
  assigned schema var p = (schema', q) ->
  eval nodeid schema' data e = Some (Val v) -> plain_constants e -> Expression_tuple nodeid e = Ok t ->
  vector_free (assign_code schema' e q) = true ->
  Z.of_nat (length (constants (code nodeid schema' e))) <= 65536 ->
  exists text prg,
    gen schema (VTuple (mk_named nodeid ASSIGN ++ id :: rid :: var :: t :: more)) = Ok (text, schema') /\
    compile text = Ok prg /\
    forall m, execute nodeid prg data m =
      (Ok PE_SUCCESS,
       set_result (Some (take q (drop 1 data) ++ [v] ++ drop (S (S q)) data)) (start m)).
Proof.
  intros Hd Hs Hp Hb Ha He Hc Ht Hv Hn.
  assert (Hq : (q < length schema' /\ length schema <= length schema' <= S (length schema) /\ q <= length schema /\
    (length schema' = length schema \/ length schema' = S q))%nat).
  { unfold assigned in Ha. destruct (p <? 0) eqn:E; bools; simplify_eq; rewrite ?length_app; cbn; lia. }
  assert (Hd' : (length data <= S (length schema'))%nat) by lia.
  assert (Hs' : Z.of_nat (length schema') < 65535) by lia.
  destruct (proj1 (generates_all nodeid schema' data Hd' Hs' e) _ t He Hc Ht) as [Hg Hr].
  eexists _, (load (assign_code schema' e q)). split; [by eapply gen_assign|]. split.
  - rewrite <- !pops_text. change "pop " with (program_text [IOp (op_index "pop")]).
    rewrite <- !program_text_app. apply compile_program_text; [|done].
    unfold assign_code. rewrite !Forall_app. split; [apply pops_readable; lia|]. split; [done|].
    split; [by apply Forall_singleton|apply pops_readable; lia].
  - intros m. unfold execute. rewrite load_eq. cbn [ops].
    apply (assign_loop (mkProgram _ _) schema' data e q 0 v (start m)); try done; [lia|lia|].
    apply pooled_whole; [|done]. unfold assign_code. cbn [const_pool].
    rewrite !constants_app, !pops_constants. cbn. by rewrite app_nil_r.
Qed.
End assignment.

(** ** Constant folding *)

Section folding.
Context `{P : Platform} (nodeid : value) (schema data : list value).

Definition folds_right (w : string) : bool :=
  String.eqb w "<<" || String.eqb w "+" || String.eqb w "-" || String.eqb w "*".

(** Only the operators [<<], [+], [-] and [*] occur. *)
Fixpoint folds (e : Expression) : bool :=
  match e with
  | EMath w l r => folds_right w && folds l && match r with Some r => folds r | None => true end
  | _ => true
  end.

Lemma fold_math_value w x y v : folds_right w = true -> fold_math w x y = Ok (Some v) ->
  exists o, math_of w = Some o /\ math_value o x y = Val v.
Proof.
  unfold folds_right. rewrite !orb_true_iff, !String.eqb_eq.
  intros Hw H. unfold fold_math in H.
  destruct Hw as [[[->| ->]| ->]| ->]; cbn [String.eqb Ascii.eqb Bool.eqb] in H;
    eexists; (split; [reflexivity|]); cbn [math_value];
    [destruct (op_lshift x y)|destruct (op_plus x y)|destruct (op_minus x y)|destruct (op_times x y)];
    cbn in H |- *; by simplify_eq.
Qed.

(** Constant folding agrees with execution: where the parser computes the
    value of an expression of the operators [<<], [+], [-] and [*] itself, it
    is the value the expression evaluates to. *)
Theorem folding_agrees (e : Expression) (v : value) : folds e = true ->
  Expression_value e = Ok (Some v) -> eval nodeid schema data e = Some (Val v).
Proof.
  assert (H : forall e v, folds e = true -> operand_value e = Ok (Some v) ->
    eval nodeid schema data e = Some (Val v)); [|by destruct e; try done; apply H].
  clear e v. induction e as [| | | | | | |w l r IHl IHr| | | | ] using Expression_induction;
    intros v' Hf Hv; try done; cbn [operand_value] in Hv.
  - by injection Hv as ->.
  - destruct (operand_value _); [|done]. cbn in Hv. by repeat case_match.
  - cbn [folds] in Hf. bools. destruct (operand_value l) as [[x|]|] eqn:El; [| |done]; cbn in Hv.
    + destruct (operand_value r) as [[y|]|] eqn:Er; try (by repeat case_match).
      assert (Hm : fold_math w x y = Ok (Some v')) by (by destruct l).
      destruct (fold_math_value w x y v') as (o & Ho & Hmv); [done..|].
      cbn [eval]. rewrite Ho, (IHl x), (IHr y) by done. cbn. by rewrite Hmv.
    + by destruct l, (operand_value r) as [[]|].
Qed.
End folding.

(** A right shift of constants is folded to a left shift: [8 >> 1] is 16 in
    the parser and 4 when it runs. *)
Theorem folding_shifts_left `{P : Platform} nodeid schema data :
  let e := EMath ">>" (EValue (VInt64 8)) (Some (EValue (VInt64 1))) in
  Expression_value e = Ok (Some (VInt64 16)) /\
  eval nodeid schema data e = Some (Val (VInt64 4)).
Proof. split; reflexivity. Qed.

(** ** The functions of the catalog *)

(** The functions without an operation of their name and arity. *)
Definition missing_operations : list (string * Z) :=
  [("f_append", 1); ("f_offset", 2); ("f_offset", 3); ("f_setOffset", 3); ("f_setOffset", 4);
   ("f_compare", 2)].

(** Every function of the catalog is an operation of the machine of the
    same name that takes as many operands as the function has arguments, except
    for [f_append] of one argument, [f_offset], [f_setOffset] and [f_compare],
    for which the machine has none. *)
Theorem functions_are_operations :
  Forall (fun '(f, n, w) =>
    ((f, n) ∈ missing_operations <->
     ~ Exists (fun '(w', a, _) => w' = w /\ Z.of_nat a = n) jump_table)) functions.
Proof.
  assert (H : Forall (fun '(f, n, w) =>
    bool_decide ((f, n) ∈ missing_operations) =
    negb (existsb (fun e : string * nat * opcode =>
            let '(w', a, _) := e in String.eqb w' w && (Z.of_nat a =? n)) jump_table)) functions)
    by (repeat constructor).
  eapply Forall_impl; [exact H|]. clear H. intros [[f n] w] H.
  assert (E : Exists (fun '(w', a, _) => w' = w /\ Z.of_nat a = n) jump_table <->
    existsb (fun e : string * nat * opcode =>
            let '(w', a, _) := e in String.eqb w' w && (Z.of_nat a =? n)) jump_table = true).
  { rewrite existsb_exists, List.Exists_exists. split; intros [[[w' a] o] [Hin Hx]]; exists (w', a, o);
      (split; [done|]); revert Hx; rewrite andb_true_iff, String.eqb_eq, Z.eqb_eq; done. }
  rewrite E. destruct (existsb _ _); cbn in H.
  - apply bool_decide_eq_false in H. split; [done|]. intros Hn. by destruct Hn.
  - apply bool_decide_eq_true in H. done.
Qed.

(** ** The theorems at work *)

Section examples.
#[local] Existing Instance bare_platform.
#[local] Existing Instance still_externals.

Definition x_var : Expression := EVariable (VStr "X") false false.
Definition y_var : Expression := EVariable (VStr "Y") false false.
Definition xy_schema : list value :=
  [variable_tuple VNull (VStr "X") false false; variable_tuple VNull (VStr "Y") false false].
Definition xy_data : list value := [VStr "p"; VInt64 3; VInt64 5].

(** [X + 2 == Y] *)
Definition sum_test : Expression :=
  EBool "==" (EMath "+" x_var (Some (EValue (VInt64 2)))) (Some y_var).
Definition sum_test_tuple : value :=
  match Expression_tuple VNull sum_test with Ok t => t | Fail _ => VNull end.

Lemma expression_compiled_witness :
  exists text prg, gen xy_schema sum_test_tuple = Ok (text, xy_schema) /\ compile text = Ok prg /\
    execute VNull prg xy_data example_vm = (Ok PE_SUCCESS, set_st [(VInt64 1, Fresh)] example_vm).
Proof.
  destruct (expression_compiled VNull xy_schema xy_data) with
    (e := sum_test) (t := sum_test_tuple) (o := Val (VInt64 1)) as (text & prg & H1 & H2 & H3).
  - cbn. lia.
  - cbn. lia.
  - split; [reflexivity|]. split; [repeat split; unfold readable, is_i64; lia|]. split; [reflexivity|].
    split; [vm_compute; reflexivity|vm_compute; discriminate].
  - exists text, prg. split; [exact H1|]. split; [exact H2|]. exact (H3 example_vm).
Defined.

Lemma selection_compiled_witness :
  exists text prg,
    gen xy_schema (VTuple (mk_named VNull SELECT ++ [VNull; VNull; sum_test_tuple])) = Ok (text, xy_schema) /\
    compile text = Ok prg /\
    exists m', execute VNull prg xy_data example_vm = (Ok PE_SUCCESS, m') /\ result_tuple m' = Some xy_data.
Proof.
  destruct (selection_compiled VNull xy_schema xy_data) with
    (e := sum_test) (t := sum_test_tuple) (b := true) (id := VNull) (rid := VNull) (more := @nil value)
    as (text & prg & H1 & H2 & H3).
  - cbn. lia.
  - cbn. lia.
  - split; [reflexivity|]. split; [repeat split; unfold readable, is_i64; lia|]. split; [reflexivity|].
    split; [vm_compute; reflexivity|vm_compute; discriminate].
  - exists text, prg. split; [exact H1|]. split; [exact H2|].
    destruct (H3 example_vm) as (m' & E & Er & _). exists m'. split; [exact E|exact Er].
Defined.

(** [Z := X * 2] *)
Definition double_x : Expression := EMath "*" x_var (Some (EValue (VInt64 2))).
Definition double_x_tuple : value :=
  match Expression_tuple VNull double_x with Ok t => t | Fail _ => VNull end.
Definition z_tuple : value := variable_tuple VNull (VStr "Z") false false.

Lemma assignment_compiled_witness :
  exists text prg,
    gen xy_schema (VTuple (mk_named VNull ASSIGN ++ [VNull; VNull; z_tuple; double_x_tuple])) =
      Ok (text, xy_schema ++ [z_tuple]) /\
    compile text = Ok prg /\
    execute VNull prg xy_data example_vm =
      (Ok PE_SUCCESS, set_result (Some [VInt64 3; VInt64 5; VInt64 6]) example_vm).
Proof.
  destruct (assignment_compiled VNull xy_schema xy_data double_x double_x_tuple z_tuple (VInt64 6)
    (-1) (xy_schema ++ [z_tuple]) 2 VNull VNull []) as (text & prg & H1 & H2 & H3).
  - reflexivity.
  - cbn. lia.
  - vm_compute. reflexivity.
  - cbn. lia.
  - reflexivity.
  - vm_compute. reflexivity.
  - repeat split; unfold readable, is_i64; lia.
  - reflexivity.
  - vm_compute. reflexivity.
  - vm_compute. discriminate.
  - exists text, prg. split; [exact H1|]. split; [exact H2|]. exact (H3 example_vm).
Defined.

Lemma folding_agrees_witness :
  eval VNull [] [] (EMath "+" (EValue (VInt64 1)) (Some (EValue (VInt64 2)))) = Some (Val (VInt64 3)).
Proof. apply (folding_agrees VNull [] []); reflexivity. Defined.
End examples.
