(* ===== verification/Frag.v ===== *)
(** * Fragmentation (src/net/frag.C, defrag.C, frag.h, defrag.h)

    [Frag] marshals the payload of a packet (the fields behind its sequence
    number) and cuts it into blocks; [Defrag] collects the blocks of a
    sequence number and rebuilds the packet.  Callbacks are numbers, and an
    operation answers the callbacks it calls.  New tuples draw their identity
    from the counter that is passed along.  [payload->cstr()] only writes
    behind the valid bytes of the payload, which the model does not show. *)

From Stdlib Require Import SpecFloat Ascii String.
From S2P Require Import Prelude Ids Stl Values Tuples Fdbuf Xdr Casts.

Local Open Scope p2_scope.

(** ** The elements *)

(** The position of the sequence number in a packet. *)
Definition SEQ : nat := 7.

Definition callback := nat.

Record Frag := mkFrag {
  fr_push_cb : option callback;
  fr_pull_cb : option callback;
  fr_block_size : nat;
  fr_max_queue_size : nat;
  fr_fragments : list tuple
}.

Record Defrag := mkDefrag {
  df_pull_cb : option callback;
  df_fragments : list (Z * tuple);  (* the multimap, in iteration order *)
  df_tuples : list tuple
}.

Definition Frag_mk (bs mqs : nat) : res Frag :=
  let? _ := check (bs mod 4 =? 0)%nat AssertFailed in Ok (mkFrag None None bs mqs []).
Definition Defrag_mk : Defrag := mkDefrag None [] [].

(** The fields of [t] from 0 up to [SEQ], appended to a new tuple. *)
Definition header (t : tuple) : res (list value) :=
  let? _ := check (SEQ <? length (fields t))%nat OutOfRange in Ok (take (S SEQ) (fields t)).

(** The loop that cuts the marshalled payload. *)
Fixpoint blocks (fuel : nat) (bs : nat) (t : tuple) (num_chunks bn : Z) (payload : Fdbuf)
    (counter : Z) : res (list tuple * Z) :=
  if (length_ payload =? 0)%nat then Ok ([], counter)
  else
    match fuel with
    | O => Fail OutOfFuel
    | S fuel' =>
        let '(p, counter) := Tuple_mk counter in
        let? hd := header t in
        let? (_, payload, fb) := pop_to_fdbuf payload (Fdbuf_mk BUF_DFLT_CAP false) bs in
        let? (ps, counter) := blocks fuel' bs t num_chunks (u32 (bn + 1)) payload counter in
        Ok (mkTuple (hd ++ [VInt64 bn; VInt64 num_chunks; VOpaque (view fb)]) true (tupleID p) :: ps,
            counter)
    end.

(** [Frag::fragment]: the fragments, in order.  With a zero block size the
    number of chunks is an infinity cast to [unsigned]. *)
Definition fragment (bs : nat) (t : tuple) (counter : Z) : res (list tuple * Z) :=
  let '(p, counter) := Tuple_mk counter in
  let payload := mkTuple (drop (S SEQ) (fields t)) true (tupleID p) in
  let? fb := Tuple_xdr_marshal payload (Fdbuf_mk BUF_DFLT_CAP false) in
  let? _ := check (0 <? bs)%nat UndefinedBehaviour in
  let num_chunks := u32 (Z.of_nat ((length_ fb + bs - 1) / bs)) in
  blocks (length_ fb) bs t num_chunks 0 fb counter.

(** [Frag::push]: whether more is welcome, the callbacks called. *)
Definition Frag_push (port : nat) (t : tuple) (cb : callback) (counter : Z) (F : Frag)
    : res (bool * list callback * Frag * Z) :=
  let? _ := check (port =? 0)%nat AssertFailed in
  let? (ps, counter) := fragment (fr_block_size F) t counter in
  let q := fr_fragments F ++ ps in
  let '(calls, pull_cb) :=
    match q, fr_pull_cb F with
    | _ :: _, Some k => ([k], None)
    | _, k => ([], k)
    end in
  if (fr_max_queue_size F <=? length q)%nat
  then Ok (false, calls, mkFrag (Some cb) pull_cb (fr_block_size F) (fr_max_queue_size F) q, counter)
  else Ok (true, calls, mkFrag (fr_push_cb F) pull_cb (fr_block_size F) (fr_max_queue_size F) q, counter).

(** [Frag::pull] *)
Definition Frag_pull (port : nat) (cb : callback) (F : Frag)
    : res (option tuple * list callback * Frag) :=
  let? _ := check (port =? 0)%nat AssertFailed in
  match fr_fragments F with
  | t :: q =>
      let '(calls, push_cb) :=
        match fr_push_cb F with
        | Some k => if (length q <? fr_max_queue_size F)%nat then ([k], None) else ([], Some k)
        | None => ([], None)
        end in
      Ok (Some t, calls, mkFrag push_cb (fr_pull_cb F) (fr_block_size F) (fr_max_queue_size F) q)
  | [] =>
      let pull_cb := match fr_pull_cb F with None => Some cb | k => k end in
      Ok (None, [], mkFrag (fr_push_cb F) pull_cb (fr_block_size F) (fr_max_queue_size F) [])
  end.

(** ** Reassembly *)

Abbreviation key_lt := Z.ltb.

(** The loops over the multimap start at [find(seq_num)] and run to [end()]:
    the position of a fragment with the offset. *)
Fixpoint find_offset (offset : Z) (m : list (Z * tuple)) : res (option nat) :=
  match m with
  | [] => Ok None
  | (_, p) :: m' =>
      let? v := Tuple_at p (SEQ + 1) in
      let? o := Val_Int64_cast v in
      if o =? offset then Ok (Some 0%nat)
      else let? r := find_offset offset m' in Ok (option_map S r)
  end.

Definition find_from (seq_num offset : Z) (m : list (Z * tuple)) : res (option nat) :=
  match set_find key_lt fst seq_num m with
  | None => Ok None
  | Some i => let? r := find_offset offset (drop i m) in Ok (option_map (Nat.add i) r)
  end.

(** The blocks in order: take block [i] out of the multimap, append it. *)
Fixpoint assemble (n : nat) (seq_num i : Z) (m : list (Z * tuple)) (fb : Fdbuf)
    : res (list (Z * tuple) * Fdbuf) :=
  match n with
  | O => Ok (m, fb)
  | S n' =>
      let? found := find_from seq_num i m in
      let? j := of_option AssertFailed found in
      let? p := of_option UndefinedBehaviour (m !! j) in
      let? v := Tuple_at (snd p) (SEQ + 3) in
      let? bs := Val_Opaque_cast v in
      let? fb := push_bytes bs fb in
      assemble n' seq_num (i + 1) (delete j m) fb
  end.

(** The rebuilt packet: the four fields from [SEQ] on are replaced by the
    sequence number and the payload's fields. *)
Definition rebuild (t unmarshal : tuple) (id : Z) : tuple :=
  mkTuple (take (S SEQ) (fields t) ++ fields unmarshal ++ drop (SEQ + 4) (fields t)) false id.

(** [Defrag::defragment] *)
Definition defragment (t : tuple) (counter : Z) (D : Defrag) : res (Defrag * Z) :=
  let? v := Tuple_at t SEQ in let? s := Val_Int64_cast v in let seq_num := u64 s in
  let? v := Tuple_at t (SEQ + 1) in let? o := Val_Int64_cast v in let offset := u32 o in
  let? v := Tuple_at t (SEQ + 2) in let? c := Val_Int64_cast v in let chunks := u32 c in
  let? dup := find_from seq_num offset (df_fragments D) in
  match dup with
  | Some _ => Ok (D, counter)
  | None =>
      let m := multiset_insert key_lt fst (seq_num, t) (df_fragments D) in
      let count := length (filter (fun p => fst p = seq_num) m) in
      if Z.of_nat count =? chunks then
        let? (m, fb) := assemble (Z.to_nat chunks) seq_num 0 m (Fdbuf_mk BUF_DFLT_CAP false) in
        let '(u, counter) := Tuple_mk counter in
        let? (unmarshal, _) := Tuple_xdr_unmarshal (length (view fb)) (tupleID u) fb in
        let '(d, counter) := Tuple_mk counter in
        Ok (mkDefrag (df_pull_cb D) m (df_tuples D ++ [rebuild t unmarshal (tupleID d)]), counter)
      else Ok (mkDefrag (df_pull_cb D) m (df_tuples D), counter)
  end.

(** [Defrag::push], [Defrag::pull] *)
Definition Defrag_push (port : nat) (t : tuple) (counter : Z) (D : Defrag)
    : res (list callback * Defrag * Z) :=
  let? _ := check (port =? 0)%nat AssertFailed in
  let? (D, counter) := defragment t counter D in
  match df_tuples D, df_pull_cb D with
  | _ :: _, Some k => Ok ([k], mkDefrag None (df_fragments D) (df_tuples D), counter)
  | _, _ => Ok ([], D, counter)
  end.

Definition Defrag_pull (port : nat) (cb : callback) (D : Defrag) : res (option tuple * Defrag) :=
  let? _ := check (port =? 0)%nat AssertFailed in
  match df_tuples D with
  | t :: q => Ok (Some t, mkDefrag (df_pull_cb D) (df_fragments D) q)
  | [] =>
      let pull_cb := match df_pull_cb D with None => Some cb | k => k end in
      Ok (None, mkDefrag pull_cb (df_fragments D) [])
  end.

(** Handing a sequence of packets to [Defrag]. *)
Fixpoint deliver (ps : list tuple) (counter : Z) (D : Defrag) : res (Defrag * Z) :=
  match ps with
  | [] => Ok (D, counter)
  | p :: ps' =>
      let? (_, D, counter) := Defrag_push 0 p counter D in deliver ps' counter D
  end.

(** ** Lemmas: cutting *)

(** The blocks of a byte string. *)
Fixpoint split_blocks (fuel bs : nat) (l : list Z) : list (list Z) :=
  match l, fuel with
  | [], _ => []
  | _, O => []
  | _, S fuel' => take bs l :: split_blocks fuel' bs (drop bs l)
  end.

Lemma split_blocks_concat fuel bs l : (0 < bs)%nat -> (length l <= fuel)%nat ->
  concat (split_blocks fuel bs l) = l.
Proof.
  intros Hbs. revert l. induction fuel as [|fuel IH]; intros l Hl.
  - by destruct l; simpl in Hl; [|lia].
  - destruct l as [|x l]; [done|]. cbn [split_blocks concat].
    rewrite IH by (rewrite length_drop; simpl in *; lia). apply take_drop.
Qed.

Lemma split_blocks_length fuel bs l : (0 < bs)%nat -> (length l <= fuel)%nat ->
  length (split_blocks fuel bs l) = ((length l + bs - 1) / bs)%nat.
Proof.
  intros Hbs. revert l. induction fuel as [|fuel IH]; intros l Hl.
  - destruct l; simpl in Hl; [|lia]. simpl. symmetry. apply Nat.div_small. lia.
  - destruct l as [|x l]; [symmetry; apply Nat.div_small; simpl; lia|].
    cbn [split_blocks]. set (l1 := x :: l) in *. assert (0 < length l1)%nat by (simpl; lia).
    cbn [length]. rewrite IH by (rewrite length_drop; lia). rewrite length_drop.
    destruct (Nat.le_gt_cases bs (length l1)).
    + replace (length l1 + bs - 1)%nat with (length l1 - bs + bs - 1 + 1 * bs)%nat by lia.
      rewrite Nat.div_add by lia. lia.
    + replace (length l1 - bs)%nat with 0%nat by lia. rewrite (Nat.div_small (0 + bs - 1)) by lia.
      apply (Nat.div_unique _ _ _ (length l1 - 1)); lia.
Qed.

(** The field lists of numbered fragments. *)
Fixpoint numbered (hd : list value) (num bn : Z) (cs : list (list Z)) : list (list value) :=
  match cs with
  | [] => []
  | c :: cs' => (hd ++ [VInt64 bn; VInt64 num; VOpaque c]) :: numbered hd num (bn + 1) cs'
  end.

Lemma pop_to_fdbuf_ok fb n : fb_ok fb -> (0 < n)%nat ->
  exists k fb' dst, pop_to_fdbuf fb (Fdbuf_mk BUF_DFLT_CAP false) n = Ok (k, fb', dst)
    /\ fb_ok fb' /\ view fb' = drop n (view fb) /\ view dst = take n (view fb).
Proof.
  intros Hok Hn. unfold pop_to_fdbuf, pushFdbuf.
  destruct (mk_dst BUF_DFLT_CAP) as [(Hok1 & Hs1 & Hr1 & _) Hv1].
  set (m := (n `min` fb_len fb)%nat).
  pose proof (push_bytes_ok (take (fb_len fb `min` m) (view fb)) _ Hok1 Hr1) as H.
  destruct (push_bytes _ (Fdbuf_mk BUF_DFLT_CAP false)) as [dst|f]; [|lia]. cbn [rbind].
  destruct H as (_ & Hv & _). rewrite Hv1 in Hv. simpl in Hv.
  pose proof (pop_bytes_ok m fb Hok) as Hp. unfold pop_bytes in Hp.
  rewrite (proj2 (Nat.leb_le m (fb_len fb))) in Hp by lia. destruct Hp as (_ & _ & Hok' & Hv' & _).
  pose proof (view_length fb Hok) as Hl. do 3 eexists. split; [reflexivity|]. split; [done|].
  rewrite Hv', Hv. subst m. destruct (Nat.le_gt_cases n (fb_len fb)).
  - rewrite Nat.min_l by done. split; [done|]. f_equal. lia.
  - rewrite Nat.min_r by lia. split; [by rewrite !drop_ge by lia|]. rewrite !take_ge by lia. done.
Qed.

Lemma blocks_ok fuel bs t num bn fb counter : (0 < bs)%nat -> (SEQ < length (fields t))%nat ->
  fb_ok fb -> (length (view fb) <= fuel)%nat -> 0 <= bn ->
  bn + Z.of_nat (length (split_blocks fuel bs (view fb))) < 2 ^ 32 ->
  exists ps counter', blocks fuel bs t num bn fb counter = Ok (ps, counter')
    /\ fields <$> ps = numbered (take (S SEQ) (fields t)) num bn (split_blocks fuel bs (view fb)).
Proof.
  intros Hbs Ht. revert bn fb counter. induction fuel as [|fuel IH]; intros bn fb counter Hok Hl Hbn Hr;
    pose proof (view_length fb Hok) as Hv; cbn [blocks]; unfold length_.
  - rewrite (proj2 (Nat.eqb_eq (fb_len fb) 0)) by lia.
    destruct (view fb); [|simpl in Hl; lia]. exists [], counter. done.
  - destruct (Nat.eqb_spec (fb_len fb) 0) as [Hz|Hz].
    { destruct (view fb); [|simpl in Hv; lia]. exists [], counter. done. }
    unfold header, Tuple_mk. rewrite (proj2 (Nat.ltb_lt _ _) Ht). cbn [check rbind].
    destruct (pop_to_fdbuf_ok fb bs Hok Hbs) as (k & fb' & dst & -> & Hok' & Hv' & Hd). cbn [rbind].
    destruct (view fb) as [|x l] eqn:Ev; [simpl in Hv; lia|].
    cbn [split_blocks] in *. set (l1 := x :: l) in *. cbn [length numbered] in *.
    destruct (IH (bn + 1) fb' (u32 (counter + 1))) as (ps & c' & E & Hps); auto.
    + rewrite Hv', length_drop. lia.
    + lia.
    + rewrite Hv'. lia.
    + rewrite (u32_small (bn + 1)) by (unfold is_u32; lia). rewrite E. cbn [rbind].
      eexists _, _. split; [reflexivity|]. rewrite fmap_cons, Hps, Hv', Hd. done.
Qed.

(** ** Lemmas: the multimap *)

Section multimap.
Context (s : Z) (base : list (Z * tuple)).
Context (Hbase : Forall (fun e => fst e < s) base).

Definition at_seq (ps : list tuple) : list (Z * tuple) := (fun p => (s, p)) <$> ps.

Lemma lower_bound_base ps : lower_bound key_lt fst s (base ++ at_seq ps) = length base.
Proof.
  induction base as [|e l IH]; simpl; [|apply Forall_cons in Hbase as [He Hl]].
  - destruct ps; simpl; [done|]. by rewrite Z.ltb_irrefl.
  - rewrite (proj2 (Z.ltb_lt _ _)) by done. by rewrite IH by done.
Qed.

Lemma upper_bound_base ps :
  upper_bound key_lt fst s (base ++ at_seq ps) = length (base ++ at_seq ps).
Proof.
  induction base as [|e l IH]; simpl; [|apply Forall_cons in Hbase as [He Hl]].
  - induction ps; simpl; [done|]. by rewrite Z.ltb_irrefl, IHps.
  - rewrite (proj2 (Z.ltb_ge _ _)) by lia. by rewrite IH by done.
Qed.

Lemma insert_base t ps : multiset_insert key_lt fst (s, t) (base ++ at_seq ps)
  = base ++ at_seq (ps ++ [t]).
Proof.
  unfold multiset_insert, insert_at. simpl fst. rewrite upper_bound_base.
  rewrite take_ge, drop_ge by done. unfold at_seq. by rewrite fmap_app, <- app_assoc.
Qed.

Lemma count_base ps :
  length (filter (fun p => fst p = s) (base ++ at_seq ps)) = length ps.
Proof.
  rewrite filter_app, length_app.
  assert (E1 : filter (fun p : Z * tuple => fst p = s) base = []).
  { induction base as [|e l IH]; [done|]. apply Forall_cons in Hbase as [He Hl].
    rewrite filter_cons, IH by done. by rewrite decide_False by lia. }
  rewrite E1. simpl. induction ps as [|p ps IH]; [done|]. unfold at_seq in *. cbn [fmap list_fmap].
  rewrite filter_cons_True by done. simpl. by f_equal.
Qed.

Definition offset_is (p : tuple) (o : Z) : Prop := Tuple_at p (SEQ + 1) = Ok (VInt64 o).

Lemma find_offset_ok x ps os : Forall2 offset_is ps os ->
  find_offset x (at_seq ps) = Ok (option_map fst (list_find (fun o => o = x) os)).
Proof.
  induction 1 as [|p o ps os Hp _ IH]; [done|].
  change (at_seq (p :: ps)) with ((s, p) :: at_seq ps).
  cbn [find_offset list_find]. rewrite Hp. cbn [rbind Val_Int64_cast].
  destruct (Z.eqb_spec o x); [by rewrite decide_True|]. rewrite decide_False by done.
  rewrite IH. cbn [rbind]. by destruct (list_find _ os) as [[]|].
Qed.

Lemma find_from_ok x ps os : Forall2 offset_is ps os ->
  find_from s x (base ++ at_seq ps)
  = Ok (option_map (Nat.add (length base)) (option_map fst (list_find (fun o => o = x) os))).
Proof.
  intros H. unfold find_from, set_find. rewrite lower_bound_base.
  rewrite lookup_app_r, Nat.sub_diag by done. destruct H as [|p o ps os Hp H]; [done|].
  simpl (at_seq (p :: ps) !! _). cbn [fst]. rewrite Z.ltb_irrefl.
  rewrite drop_app_length, (find_offset_ok x (p :: ps) (o :: os)) by (by constructor). done.
Qed.
End multimap.

(** ** Lemmas: reassembly *)

Lemma numbered_lookup hd num bn cs i : numbered hd num bn cs !! i
  = (fun c => hd ++ [VInt64 (bn + Z.of_nat i); VInt64 num; VOpaque c]) <$> cs !! i.
Proof.
  revert bn i. induction cs as [|c cs IH]; intros bn i; [done|].
  destruct i as [|i]; simpl; [by rewrite Z.add_0_r|]. rewrite IH.
  by replace (bn + 1 + Z.of_nat i) with (bn + Z.of_nat (S i)) by lia.
Qed.

Section packet.
(** The fragments [fs] of a packet with header [hd] and blocks [cs]. *)
Context (hd : list value) (s : Z) (cs : list (list Z)) (fs : list tuple).
Context (Hhd : length hd = S SEQ) (Hseq : hd !! SEQ = Some (VInt64 s)).
Context (Hfs : fields <$> fs = numbered hd (Z.of_nat (length cs)) 0 cs).
Context (Hcs : Z.of_nat (length cs) < 2 ^ 32).

Lemma frag_lookup i p : fs !! i = Some p -> exists c, cs !! i = Some c
  /\ fields p = hd ++ [VInt64 (Z.of_nat i); VInt64 (Z.of_nat (length cs)); VOpaque c].
Proof.
  intros Hp. apply (f_equal (fun l => l !! i)) in Hfs.
  rewrite list_lookup_fmap, Hp, numbered_lookup in Hfs. simpl in Hfs.
  destruct (cs !! i) as [c|]; [|done]. exists c. split; [done|]. by injection Hfs.
Qed.

Lemma frags_length : length fs = length cs.
Proof.
  apply (f_equal length) in Hfs. rewrite length_fmap in Hfs. rewrite Hfs. clear.
  generalize (Z.of_nat (length cs)) as num, 0 as bn. induction cs as [|c l IH]; intros; simpl; [done|].
  by rewrite IH.
Qed.

(** The fields that reassembly reads. *)
Lemma frag_fields i p : fs !! i = Some p -> exists c, cs !! i = Some c
  /\ Tuple_at p SEQ = Ok (VInt64 s) /\ offset_is p (Z.of_nat i)
  /\ Tuple_at p (SEQ + 2) = Ok (VInt64 (Z.of_nat (length cs)))
  /\ Tuple_at p (SEQ + 3) = Ok (VOpaque c)
  /\ take (S SEQ) (fields p) = hd /\ drop (SEQ + 4) (fields p) = [].
Proof.
  intros Hp. destruct (frag_lookup i p Hp) as (c & Hc & Hf). exists c. split; [done|].
  unfold offset_is, Tuple_at. rewrite Hf. split_and!.
  - rewrite lookup_app_l by lia. by rewrite Hseq.
  - rewrite lookup_app_r, Hhd by (rewrite Hhd; unfold SEQ; lia). done.
  - rewrite lookup_app_r, Hhd by (rewrite Hhd; unfold SEQ; lia). done.
  - rewrite lookup_app_r, Hhd by (rewrite Hhd; unfold SEQ; lia). done.
  - rewrite <- Hhd. apply take_app_length.
  - apply drop_ge. rewrite length_app, Hhd. simpl. lia.
Qed.

(** A list of fragments and the list of their offsets. *)
Definition indexed (ps : list tuple) (ixs : list nat) : Prop :=
  Forall2 (fun p i => fs !! i = Some p) ps ixs.

Lemma indexed_offsets ps ixs : indexed ps ixs -> Forall2 offset_is ps (Z.of_nat <$> ixs).
Proof.
  induction 1 as [|p i ps ixs Hp _ IH]; simpl; constructor; [|done].
  by destruct (frag_fields i p Hp) as (c & _ & _ & Ho & _).
Qed.

Lemma list_find_Z ixs i :
  option_map fst (list_find (fun o => o = Z.of_nat i) (Z.of_nat <$> ixs))
  = option_map fst (list_find (fun j => j = i) ixs).
Proof.
  induction ixs as [|j ixs IH]; [done|]. cbn [fmap list_fmap list_find].
  destruct (decide (j = i)) as [->|Hne].
  - by rewrite !decide_True.
  - rewrite !decide_False by lia. revert IH.
    destruct (list_find (fun o => o = Z.of_nat i) _) as [[]|],
      (list_find (fun j => j = i) ixs) as [[]|]; simpl; congruence.
Qed.

Lemma delete_base {A} (l1 l2 : list A) j : delete (length l1 + j)%nat (l1 ++ l2) = l1 ++ delete j l2.
Proof. induction l1 as [|x l1 IH]; simpl; [done|]. by rewrite IH. Qed.

Section reassembly.
Context (base : list (Z * tuple)) (Hbase : Forall (fun e => fst e < u64 s) base).

(** Taking the blocks out in order, wherever they sit. *)
Lemma assemble_ok n i ps ixs fb k : indexed ps ixs -> ixs ≡ₚ seq i n -> (i + n = length cs)%nat ->
  fd_dst k fb ->
  exists fb' k', assemble n (u64 s) (Z.of_nat i) (base ++ at_seq (u64 s) ps) fb = Ok (base, fb')
    /\ fd_dst k' fb' /\ view fb' = view fb ++ concat (drop i cs).
Proof.
  revert i ps ixs fb k. induction n as [|n IH]; intros i ps ixs fb k Hps His Hn Hfb.
  - apply Permutation_nil_r in His. subst ixs. apply Forall2_nil_inv_r in Hps. subst ps.
    exists fb, k. simpl. rewrite app_nil_r. split_and!; auto.
    rewrite drop_ge by lia. simpl. by rewrite app_nil_r.
  - cbn [assemble]. rewrite (find_from_ok _ base Hbase _ ps _ (indexed_offsets ps ixs Hps)).
    rewrite list_find_Z. cbn [rbind].
    destruct (list_find (fun j => j = i) ixs) as [[j i']|] eqn:Ef.
    2:{ apply list_find_None in Ef. rewrite Forall_forall in Ef. exfalso.
        apply (Ef i); [|done]. rewrite His. simpl. by left. }
    apply list_find_Some in Ef as (Hj & -> & _). cbn [option_map fst of_option rbind].
    destruct (Forall2_lookup_r _ _ _ _ _ Hps Hj) as (p & Hpj & Hp).
    assert (Hlk : (base ++ at_seq (u64 s) ps) !! (length base + j)%nat = Some (u64 s, p)).
    { rewrite lookup_app_r by lia. replace (length base + j - length base)%nat with j by lia.
      unfold at_seq. by rewrite list_lookup_fmap, Hpj. }
    rewrite Hlk. cbn [of_option rbind snd].
    destruct (frag_fields i p Hp) as (c & Hc & _ & _ & _ & Hpay & _).
    rewrite Hpay. cbn [rbind Val_Opaque_cast].
    destruct (fd_putbytes_ok k c fb Hfb) as (fb1 & E1 & Hfb1 & Hv1).
    unfold fd_putbytes in E1. rewrite E1. cbn [rbind].
    rewrite delete_base.
    replace (delete j (at_seq (u64 s) ps)) with (at_seq (u64 s) (delete j ps))
      by apply list_fmap_delete.
    replace (Z.of_nat i + 1) with (Z.of_nat (S i)) by lia.
    destruct (IH (S i) (delete j ps) (delete j ixs) fb1 ((k + length c) mod 4)%nat)
      as (fb' & k' & E & Hfb' & Hv').
    + by apply Forall2_delete.
    + apply (Permutation_cons_inv (a := i)). rewrite <- (delete_Permutation ixs j i Hj). done.
    + lia.
    + done.
    + exists fb', k'. split_and!; auto. rewrite Hv', Hv1, <- app_assoc. f_equal.
      by rewrite (drop_S cs c i Hc).
Qed.

(** What a fragment of the packet does before it looks at the multimap. *)
Lemma defragment_unfold p i counter D : fs !! i = Some p ->
  defragment p counter D
  = rbind (find_from (u64 s) (Z.of_nat i) (df_fragments D)) (fun dup =>
    match dup with
    | Some _ => Ok (D, counter)
    | None =>
        let m := multiset_insert key_lt fst (u64 s, p) (df_fragments D) in
        if Z.of_nat (length (filter (fun p => fst p = u64 s) m)) =? Z.of_nat (length cs) then
          rbind (assemble (length cs) (u64 s) 0 m (Fdbuf_mk BUF_DFLT_CAP false)) (fun '(m, fb) =>
          let '(u, counter) := Tuple_mk counter in
          rbind (Tuple_xdr_unmarshal (length (view fb)) (tupleID u) fb) (fun '(unmarshal, _) =>
          let '(d, counter) := Tuple_mk counter in
          Ok (mkDefrag (df_pull_cb D) m (df_tuples D ++ [rebuild p unmarshal (tupleID d)]), counter)))
        else Ok (mkDefrag (df_pull_cb D) m (df_tuples D), counter)
    end).
Proof.
  intros Hp. destruct (frag_fields i p Hp) as (c & Hc & H0 & H1 & H2 & _).
  assert (i < length cs)%nat by (by eapply lookup_lt_Some).
  unfold defragment. rewrite H0. cbn [rbind Val_Int64_cast]. rewrite H1. cbn [rbind Val_Int64_cast].
  rewrite H2. cbn [rbind Val_Int64_cast]. rewrite !u32_small by (unfold is_u32; lia).
  by rewrite Nat2Z.id.
Qed.

Lemma find_fresh ps ixs i : indexed ps ixs -> i ∉ ixs ->
  find_from (u64 s) (Z.of_nat i) (base ++ at_seq (u64 s) ps) = Ok None.
Proof.
  intros Hps Hi. rewrite (find_from_ok _ base Hbase _ ps _ (indexed_offsets ps ixs Hps)), list_find_Z.
  destruct (list_find (fun j => j = i) ixs) as [[j i']|] eqn:E; [|done].
  apply list_find_Some in E as (Hj & -> & _). exfalso. apply Hi. by eapply list_elem_of_lookup_2.
Qed.

(** A fragment that does not complete the packet is kept. *)
Lemma defragment_partial ps ixs p i counter D : df_fragments D = base ++ at_seq (u64 s) ps ->
  indexed ps ixs -> fs !! i = Some p -> i ∉ ixs -> (S (length ps) < length cs)%nat ->
  defragment p counter D
  = Ok (mkDefrag (df_pull_cb D) (base ++ at_seq (u64 s) (ps ++ [p])) (df_tuples D), counter).
Proof.
  intros HD Hps Hp Hi Hl. rewrite (defragment_unfold p i) by done. rewrite HD.
  rewrite (find_fresh ps ixs) by done. cbn [rbind].
  rewrite insert_base, count_base by done. rewrite length_app. cbn [length].
  by rewrite (proj2 (Z.eqb_neq _ _)) by lia.
Qed.

(** The last one completes it. *)
Lemma defragment_last payload ps ixs p i counter D : df_fragments D = base ++ at_seq (u64 s) ps ->
  indexed ps ixs -> fs !! i = Some p -> ixs ++ [i] ≡ₚ seq 0 (length cs) ->
  sendable payload = true -> concat cs = enc_tuple payload ->
  exists u counter', defragment p counter D
    = Ok (mkDefrag (df_pull_cb D) base (df_tuples D ++ [u]), counter')
    /\ fields u = hd ++ fields payload.
Proof.
  intros HD Hps Hp Hixs Hs Hc. rewrite (defragment_unfold p i) by done. rewrite HD.
  assert (Hi : i ∉ ixs).
  { assert (Hnd : NoDup (ixs ++ [i])) by (rewrite Hixs; apply NoDup_seq).
    apply NoDup_app in Hnd as (_ & Hd & _). intros Hi. apply (Hd i Hi). by left. }
  assert (Hl : S (length ps) = length cs).
  { apply Permutation_length in Hixs. rewrite length_app, length_seq in Hixs. simpl in Hixs.
    apply Forall2_length in Hps. lia. }
  rewrite (find_fresh ps ixs) by done. cbn [rbind].
  rewrite insert_base, count_base by done. rewrite length_app. cbn [length].
  rewrite (proj2 (Z.eqb_eq _ _)) by lia. cbv zeta.
  destruct (mk_dst BUF_DFLT_CAP) as [Hd Hv].
  assert (Hall : indexed (ps ++ [p]) (ixs ++ [i])) by (apply Forall2_app; [done|by repeat constructor]).
  destruct (assemble_ok (length cs) 0 _ _ _ 0 Hall Hixs eq_refl Hd) as (fb & k & E & Hfb & Hvf).
  change (Z.of_nat 0) with 0 in E. rewrite E. cbn [rbind Tuple_mk tupleID].
  rewrite Hv, drop_0, Hc in Hvf. simpl in Hvf. rewrite Hvf. destruct Hfb as (Hok & Hst & _).
  destruct (tuple_gets payload counter (length (enc_tuple payload)) Hs (le_n _) fb [])
    as (fb' & E' & _).
  - simpl. split; [done|]. by rewrite Hst.
  - simpl. rewrite Hvf. by apply enc_tuple_bytes.
  - simpl. by rewrite Hvf, app_nil_r.
  - rewrite E'. cbn [rbind]. do 2 eexists. split; [reflexivity|].
    destruct (frag_fields i p Hp) as (c & _ & _ & _ & _ & _ & Hhead & Htail).
    unfold rebuild. cbn [fields]. by rewrite Hhead, Htail, app_nil_r.
Qed.

Lemma Defrag_push_ok t counter D D1 counter1 : defragment t counter D = Ok (D1, counter1) ->
  exists calls D2, Defrag_push 0 t counter D = Ok (calls, D2, counter1)
    /\ df_fragments D2 = df_fragments D1 /\ df_tuples D2 = df_tuples D1.
Proof.
  intros E. unfold Defrag_push. cbn [check Nat.eqb rbind]. rewrite E. cbn [rbind].
  destruct (df_tuples D1) eqn:Et; [eauto|]. destruct (df_pull_cb D1); [|eauto].
  by do 2 eexists.
Qed.

(** Fragments in any order. *)
Lemma deliver_ok payload todo ps ixs jxs counter D :
  df_fragments D = base ++ at_seq (u64 s) ps -> indexed ps ixs -> indexed todo jxs ->
  ixs ++ jxs ≡ₚ seq 0 (length cs) -> todo <> [] ->
  sendable payload = true -> concat cs = enc_tuple payload ->
  exists D' counter' u, deliver todo counter D = Ok (D', counter')
    /\ df_fragments D' = base /\ df_tuples D' = df_tuples D ++ [u]
    /\ fields u = hd ++ fields payload.
Proof.
  intros HD Hps Htodo Hperm Hne Hs Hc. revert ps ixs counter D HD Hps Hperm Hne.
  induction Htodo as [|p j todo jxs Hp Htodo IH]; intros ps ixs counter D HD Hps Hperm Hne; [done|].
  cbn [deliver]. pose proof (Permutation_length Hperm) as Hlen.
  rewrite length_app, length_seq in Hlen. simpl in Hlen. pose proof (Forall2_length _ _ _ Hps).
  destruct todo as [|p2 todo].
  - apply Forall2_nil_inv_l in Htodo. subst jxs.
    destruct (defragment_last payload ps ixs p j counter D) as (u & c' & E & Hu); auto.
    destruct (Defrag_push_ok _ _ _ _ _ E) as (calls & D2 & -> & Hf2 & Ht2). cbn [rbind deliver].
    by exists D2, c', u.
  - pose proof (Forall2_length _ _ _ Htodo) as Hl2. simpl in Hl2.
    assert (Hj : j ∉ ixs).
    { assert (Hnd : NoDup (ixs ++ j :: jxs)) by (rewrite Hperm; apply NoDup_seq).
      apply NoDup_app in Hnd as (_ & Hd & _). intros Hi. apply (Hd j Hi). by left. }
    pose proof (defragment_partial ps ixs p j counter D HD Hps Hp Hj ltac:(lia)) as E.
    destruct (Defrag_push_ok _ _ _ _ _ E) as (calls & D2 & -> & Hf2 & Ht2). cbn [rbind].
    change (df_tuples D2 = df_tuples D) in Ht2. rewrite <- Ht2. apply (IH (ps ++ [p]) (ixs ++ [j])); auto.
    + apply Forall2_app; [done|by repeat constructor].
    + by rewrite <- app_assoc.
Qed.
End reassembly.
End packet.

Lemma indexed_order fs order : order ≡ₚ fs ->
  exists ixs, indexed fs order ixs /\ ixs ≡ₚ seq 0 (length fs).
Proof.
  intros Hp. assert (H0 : indexed fs fs (seq 0 (length fs))).
  { apply Forall2_same_length_lookup. split; [by rewrite length_seq|].
    intros i x y Hx Hy. apply lookup_seq in Hy as [-> _]. done. }
  destruct (Permutation_Forall2 (symmetry Hp) H0) as (ixs & H1 & H2).
  exists ixs. split; [exact H2|by symmetry].
Qed.

(** ** Theorems *)

(** A packet with a sequence number and a payload that can be marshalled into
    fewer than 2^32 bytes. *)
Definition payload_of (t : tuple) : tuple := mkTuple (drop (S SEQ) (fields t)) true 0.
Definition packet_seq (t : tuple) : option Z :=
  match fields t !! SEQ with Some (VInt64 s) => Some s | _ => None end.
Definition packet_ok (t : tuple) : bool :=
  sendable (payload_of t) && (Z.of_nat (length (enc_tuple (payload_of t))) <? 2 ^ 32).

Lemma fragment_ok bs t s counter : (0 < bs)%nat -> packet_ok t = true -> packet_seq t = Some s ->
  exists ps counter' cs, fragment bs t counter = Ok (ps, counter')
    /\ fields <$> ps = numbered (take (S SEQ) (fields t)) (Z.of_nat (length cs)) 0 cs
    /\ concat cs = enc_tuple (payload_of t) /\ Z.of_nat (length cs) < 2 ^ 32.
Proof.
  intros Hbs Hok Hseq. unfold packet_ok in Hok. bools.
  assert (Ht : (SEQ < length (fields t))%nat).
  { unfold packet_seq in Hseq. destruct (fields t !! SEQ) eqn:E; [|done].
    by apply lookup_lt_Some in E. }
  unfold fragment. cbn [Tuple_mk tupleID]. destruct (mk_dst BUF_DFLT_CAP) as [Hd Hv].
  set (pl := mkTuple (drop (S SEQ) (fields t)) true counter).
  destruct (tuple_puts (XS := XdrStream_Fdbuf) pl eq_refl _ Hd) as (fb & E & Hfb & Hvf).
  rewrite E. cbn [rbind]. rewrite (proj2 (Nat.ltb_lt _ _) Hbs). cbn [check rbind].
  change (view fb = view (Fdbuf_mk BUF_DFLT_CAP false) ++ enc_tuple (payload_of t)) in Hvf.
  rewrite Hv in Hvf. simpl in Hvf. destruct Hfb as [Hfbok _].
  pose proof (view_length fb Hfbok) as Hl. unfold length_. rewrite <- Hl.
  set (cs := split_blocks (length (view fb)) bs (view fb)).
  assert (Hcs : length cs = ((length (view fb) + bs - 1) / bs)%nat)
    by (apply split_blocks_length; done).
  assert (Hle : (length cs <= length (view fb))%nat).
  { assert (4 <= length (view fb))%nat
      by (rewrite Hvf; unfold enc_tuple; rewrite length_app, be32_length; lia).
    rewrite Hcs. apply Nat.Div0.div_le_upper_bound. nia. }
  rewrite <- Hcs, u32_small by (unfold is_u32; rewrite Hvf in Hle; lia).
  destruct (blocks_ok (length (view fb)) bs t (Z.of_nat (length cs)) 0 fb (u32 (counter + 1)))
    as (ps & c' & Eb & Hps); auto; try lia.
  { fold cs. rewrite Hvf in Hle. lia. }
  exists ps, c', cs. split_and!; auto.
  - unfold cs. rewrite split_blocks_concat by done. done.
  - rewrite Hvf in Hle. lia.
Qed.

(** C37: whatever the block size, the fragments of a packet reassemble to it in
    every order of arrival, when nothing else arrives in between and [Defrag] holds
    no fragment of an equal or larger sequence number to begin with: it queues
    exactly one tuple, with the fields of the original, and keeps no fragment of
    it. *)
Theorem frag_defrag_roundtrip (bs : nat) (t : tuple) (s counter : Z) :
  (0 < bs)%nat -> packet_ok t = true -> packet_seq t = Some s ->
  exists ps counter', fragment bs t counter = Ok (ps, counter')
    /\ forall order D counter2, order ≡ₚ ps ->
       Forall (fun e => fst e < u64 s) (df_fragments D) ->
       exists D' counter3 u, deliver order counter2 D = Ok (D', counter3)
         /\ df_fragments D' = df_fragments D /\ df_tuples D' = df_tuples D ++ [u]
         /\ fields u = fields t.
Proof.
  intros Hbs Hok Hseq. destruct (fragment_ok bs t s counter Hbs Hok Hseq)
    as (ps & c' & cs & E & Hps & Hcc & Hcs).
  exists ps, c'. split; [done|]. intros order D c2 Hord HD.
  destruct (indexed_order ps order Hord) as (ixs & Hix & Hperm).
  assert (Ht : (SEQ < length (fields t))%nat /\ fields t !! SEQ = Some (VInt64 s)).
  { unfold packet_seq in Hseq. destruct (fields t !! SEQ) as [[]|] eqn:Es; simplify_eq.
    split; [by apply lookup_lt_Some in Es|done]. }
  destruct Ht as [Ht Hs]. set (hd := take (S SEQ) (fields t)) in *.
  assert (Hhd : length hd = S SEQ) by (unfold hd; rewrite length_take; lia).
  assert (Hhs : hd !! SEQ = Some (VInt64 s)) by (unfold hd; rewrite lookup_take_lt by lia; done).
  rewrite (frags_length hd cs ps Hps) in Hperm.
  destruct (deliver_ok hd s cs ps Hhd Hhs Hps Hcs (df_fragments D) HD (payload_of t) order [] [] ixs c2 D)
    as (D' & c3 & u & E' & Hf' & Ht' & Hu); auto.
  - by rewrite app_nil_r.
  - constructor.
  - intros ->. apply Permutation_nil_l in Hord. subst ps. pose proof (frags_length hd cs [] Hps) as Hz.
    destruct cs; [|done]. simpl in Hcc. unfold enc_tuple in Hcc. done.
  - unfold packet_ok in Hok. by bools.
  - exists D', c3, u. split_and!; auto. rewrite Hu. unfold payload_of, hd. simpl fields.
    by rewrite take_drop.
Qed.

(** *** Interleaved packets *)

(** A packet with sequence number [s] and one payload field. *)
Definition sample_packet (s x : Z) : tuple :=
  mkTuple [VStr "dst"; VStr "src"; VNull; VNull; VNull; VNull; VInt64 0; VInt64 s; VInt64 x] true 1.

Definition sample_fragments (s x : Z) : list tuple :=
  match fragment 8 (sample_packet s x) 10 with Ok (ps, _) => ps | Fail _ => [] end.

(** the loops of [Defrag] run past the fragments of their sequence number:
    when the blocks of packets 5 and 7 interleave, block 0 of packet 5 is taken
    for a duplicate of block 0 of packet 7 and dropped, and packet 5 never
    completes although all its fragments arrived. *)
Theorem defrag_interleaving_loses :
  match sample_fragments 5 1, sample_fragments 7 2 with
  | [a0; a1], [b0; b1] =>
      match deliver [a1; b0; a0; b1] 100 Defrag_mk with
      | Ok (D, _) => fields <$> df_tuples D = [fields (sample_packet 7 2)]
                     /\ df_fragments D = [(5, a1)]
      | Fail _ => False
      end
  | _, _ => False
  end.
Proof. vm_compute. split; reflexivity. Qed.

(** ** Flow control *)

(** States reachable by pushes and pulls. *)
Inductive Frag_reachable (bs mqs : nat) : Frag -> Prop :=
  | frag_start F : Frag_mk bs mqs = Ok F -> Frag_reachable bs mqs F
  | frag_push port t cb counter F more calls F' counter' : Frag_reachable bs mqs F ->
      Frag_push port t cb counter F = Ok (more, calls, F', counter') -> Frag_reachable bs mqs F'
  | frag_pull port cb F r calls F' : Frag_reachable bs mqs F ->
      Frag_pull port cb F = Ok (r, calls, F') -> Frag_reachable bs mqs F'.

(** no wake-up is lost: in every reachable state of [Frag] a puller waits
    only on an empty queue and a pusher only on a full one. *)
Theorem frag_no_lost_wakeup (bs mqs : nat) (F : Frag) : Frag_reachable bs mqs F ->
  (is_Some (fr_pull_cb F) -> fr_fragments F = [])
  /\ (is_Some (fr_push_cb F) -> (mqs <= length (fr_fragments F))%nat)
  /\ fr_max_queue_size F = mqs /\ fr_block_size F = bs.
Proof.
  induction 1 as [F E|port t cb counter F more calls F' c' _ (IH1 & IH2 & IH3 & IH4) E
    |port cb F r calls F' _ (IH1 & IH2 & IH3 & IH4) E].
  - unfold Frag_mk in E. destruct (check _ _); simpl in E; simplify_eq. simpl.
    split_and!; try done; by intros [].
  - unfold Frag_push in E. destruct (check (port =? 0)%nat AssertFailed); simpl in E; [|done].
    destruct (fragment _ t counter) as [[ps c]|]; simpl in E; [|done].
    assert (Hlen : (length (fr_fragments F) <= length (fr_fragments F ++ ps))%nat)
      by (rewrite length_app; lia).
    set (q := fr_fragments F ++ ps) in *.
    assert (Hq : fr_fragments F = [] \/ fr_pull_cb F = None).
    { destruct (fr_pull_cb F); [left; eauto|by right]. }
    destruct (Nat.leb_spec (fr_max_queue_size F) (length q)) as [Hf|Hf];
      destruct q as [|x q'] eqn:Eq; destruct (fr_pull_cb F) eqn:Ep; simplify_eq; simpl in *;
      split_and!; try done; try (by intros []); try lia; intros Hs; apply IH2 in Hs; lia.
  - unfold Frag_pull in E. destruct (check (port =? 0)%nat AssertFailed); simpl in E; [|done].
    destruct (fr_fragments F) as [|x q] eqn:Eq.
    + simplify_eq. simpl. split_and!; try done.
    + destruct (fr_push_cb F) as [k|] eqn:Ek; [destruct (Nat.ltb_spec (length q) (fr_max_queue_size F))|];
        simplify_eq; simpl; split_and!; try done; try (by intros []); try lia;
        intros Hs; apply IH1 in Hs; done.
Qed.

(** *** Witnesses *)

Lemma frag_defrag_roundtrip_witness :
  exists ps counter', fragment 8 (sample_packet 5 1) 10 = Ok (ps, counter')
    /\ forall order D counter2, order ≡ₚ ps ->
       Forall (fun e => fst e < u64 5) (df_fragments D) ->
       exists D' counter3 u, deliver order counter2 D = Ok (D', counter3)
         /\ df_fragments D' = df_fragments D /\ df_tuples D' = df_tuples D ++ [u]
         /\ fields u = fields (sample_packet 5 1).
Proof.
  apply (frag_defrag_roundtrip 8 (sample_packet 5 1) 5 10); [lia|vm_compute; reflexivity..].
Defined.

Lemma frag_no_lost_wakeup_witness :
  (is_Some (fr_pull_cb (mkFrag None (Some 3%nat) 8 4 [])) -> fr_fragments (mkFrag None (Some 3%nat) 8 4 []) = [])
  /\ (is_Some (fr_push_cb (mkFrag None (Some 3%nat) 8 4 [])) -> (4 <= 0)%nat) /\ 4%nat = 4%nat /\ 8%nat = 8%nat.
Proof.
  apply (frag_no_lost_wakeup 8 4 (mkFrag None (Some 3%nat) 8 4 [])).
  apply (frag_pull 8 4 0 3%nat (mkFrag None None 8 4 []) None []); [|reflexivity].
  apply frag_start. reflexivity.
Defined.
