(* ===== verification/Delivery.v ===== *)
(** * Sequencing and acknowledgement (src/net/tupleseq.C, cumulativeAck.C, dupRemove.C)

    The elements that number outgoing packets, acknowledge incoming ones
    cumulatively and drop duplicates.  Each keeps one record per peer, in a
    [std::map] ordered by [Value::Comparator] (a sorted association list).  A
    timer is an action of the operation that arms or cancels it; when it fires
    the element forgets the peer.  Sequence numbers are [int64_t]s that stay below
    2^63 - 1, and [rand()] is a parameter. *)

From Stdlib Require Import SpecFloat Sorting.
From S2P Require Import Prelude Ids Stl Values Tuples Fdbuf Xdr Casts Frag.

Local Open Scope p2_scope.

Definition DEST : nat := 0.
Definition SRC : nat := 1.
Definition CUMSEQ : nat := 6.

(** ** Records per peer *)

Inductive timer_action :=
  | CancelTimer (src : value)
  | ArmTimer (src : value).

(** [delayCB] asserts that the delay, in seconds, is not negative; NaN is refused too. *)
Definition delay_check (seconds : spec_float) : res unit := check (SFleb (S754_zero false) seconds) AssertFailed.

Section connections.
Context {C : Type}.

Definition c_find (src : value) (m : list (value * C)) : option nat := set_find value_lt fst src m.

Definition lookup_ (src : value) (m : list (value * C)) : option C :=
  match c_find src m with Some i => snd <$> m !! i | None => None end.
Definition unmap (src : value) (m : list (value * C)) : list (value * C) :=
  match c_find src m with Some i => delete i m | None => m end.
Definition map_ (src : value) (cp : C) (m : list (value * C)) : list (value * C) :=
  set_insert value_lt fst (src, cp) (unmap src m).

(** The record behind the shared pointer changes. *)
Definition update (src : value) (cp : C) (m : list (value * C)) : list (value * C) :=
  match c_find src m with Some i => alter (fun e => (fst e, cp)) i m | None => m end.

(** What [CumulativeAck] and [DupRemove] begin with: a cumulative number of
    zero ([reset]) forgets the peer, cancelling its timer; a peer that is not
    known gets a fresh record. *)
Definition acquire (tcb : C -> bool) (fresh : C) (reset : bool) (src : value)
    (m : list (value * C)) : list timer_action * list (value * C) * C :=
  let '(acts, m1, cp) :=
    match lookup_ src m with
    | Some cp =>
        if reset then (if tcb cp then [CancelTimer src] else [], unmap src m, None)
        else ([], m, Some cp)
    | None => ([], m, None)
    end in
  match cp with
  | Some cp => (acts, m1, cp)
  | None => (acts, map_ src fresh m1, fresh)
  end.
End connections.

(** ** [Sequence] *)

(** [Sequence::simple_action]; [init] is the random first number. *)
Definition Sequence_simple_action (init : Z) (p : tuple) (counter : Z) (seq_map : list (value * Z))
    : res (tuple * list (value * Z) * Z) :=
  let? dest := Tuple_at p DEST in
  let '(seq, m) :=
    match lookup_ dest seq_map with
    | Some s => (s + 1, seq_map)
    | None => (init, set_insert value_lt fst (dest, init) seq_map)
    end in
  let m := update dest seq m in
  let '(tp, counter) := Tuple_mk counter in
  Ok (mkTuple (<[SEQ := VInt64 seq]> (fields p)) true (tupleID tp), m, counter).

(** ** [CumulativeAck] *)

Record AckConnection := mkAck { ack_tcb : bool; ack_cum_seq : Z; ack_queue : list Z }.

(** Insertion in sequence order; [None] when the number is queued already.
    The source then compares an iterator that [insert] invalidated with
    [end()]; that they differ is taken for granted. *)
Fixpoint queue_insert (seq : Z) (q : list Z) : option (list Z) :=
  match q with
  | [] => Some [seq]
  | x :: q' =>
      if seq =? x then None
      else if seq <? x then Some (seq :: x :: q')
      else option_map (cons x) (queue_insert seq q')
  end.

(** "Move the next sequence pointer if we've filled a hole" *)
Fixpoint advance (cum : Z) (q : list Z) : Z :=
  match q with
  | [] => cum
  | x :: q' =>
      if cum + 1 =? x then advance (cum + 1) q'
      else if cum <? x then cum
      else advance cum q'
  end.

(** [CumulativeAck::Connection::confirm] *)
Definition confirm (seq : Z) (c : AckConnection) : AckConnection :=
  let finish cum q :=
    let cum' := advance cum q in
    mkAck (ack_tcb c) cum' (filter (fun x => cum' < x) q) in
  if seq <? ack_cum_seq c then finish (ack_cum_seq c) (ack_queue c)
  else if ack_cum_seq c + 1 =? seq then finish (ack_cum_seq c + 1) (ack_queue c)
  else match queue_insert seq (ack_queue c) with
       | None => c
       | Some q => finish (ack_cum_seq c) q
       end.

(** What a packet does to the record of its sender. *)
Definition ack_packet (seq srcCumulativeSeq : Z) (c : AckConnection) : AckConnection :=
  confirm seq
    (if srcCumulativeSeq =? 0 then mkAck (ack_tcb c) seq (ack_queue c)
     else if ack_cum_seq c <? srcCumulativeSeq then mkAck (ack_tcb c) srcCumulativeSeq (ack_queue c)
     else c).

(** [CumulativeAck::simple_action] *)
Definition CumulativeAck_simple_action (tp : tuple) (counter : Z) (cmap : list (value * AckConnection))
    : res (tuple * list timer_action * list (value * AckConnection) * Z) :=
  let? src := Tuple_at tp (SRC + 2) in
  let? v := Tuple_at tp (SEQ + 2) in let? seq := Val_Int64_cast v in
  let? v := Tuple_at tp (CUMSEQ + 2) in let? srcCumulativeSeq := Val_Int64_cast v in
  let '(acts1, m2, cp2) :=
    acquire ack_tcb (mkAck false 0 []) (srcCumulativeSeq =? 0) src cmap in
  let cp3 := ack_packet seq srcCumulativeSeq cp2 in
  let '(cack, counter) := Tuple_mk counter in
  let acts2 := if ack_tcb cp3 then [CancelTimer src] else [] in
  let cp4 := mkAck true (ack_cum_seq cp3) (ack_queue cp3) in
  Ok (mkTuple (<[(CUMSEQ + 2)%nat := VInt64 (ack_cum_seq cp3)]> (fields tp)) false (tupleID cack),
      acts1 ++ acts2 ++ [ArmTimer src], update src cp4 m2, counter).

(** ** [DupRemove] *)

Record DupConnection := mkDup { dup_tcb : bool; dup_cum_seq : Z; dup_received : gset Z }.

(** [DupRemove::Connection::received]: is the packet a duplicate? *)
Definition received (seq cseq : Z) (c : DupConnection) : bool * DupConnection :=
  let c1 :=
    if dup_cum_seq c <? cseq then
      let r := if negb (dup_cum_seq c =? 0) && negb (bool_decide (dup_received c = ∅))
               then filter (fun s => ~ (dup_cum_seq c <= s <= cseq)) (dup_received c)
               else dup_received c in
      mkDup (dup_tcb c) cseq r
    else c in
  if seq <? dup_cum_seq c1 then (true, c1)
  else if bool_decide (seq ∈ dup_received c1) then (true, c1)
  else (false, mkDup (dup_tcb c1) (dup_cum_seq c1) ({[seq]} ∪ dup_received c1)).

(** [DupRemove::push]: the packet handed on, if any. *)
Definition DupRemove_push (port : nat) (tp : tuple) (cmap : list (value * DupConnection))
    : res (option tuple * list timer_action * list (value * DupConnection)) :=
  let? _ := check (port =? 0)%nat AssertFailed in
  let? src := Tuple_at tp SRC in
  let? v := Tuple_at tp CUMSEQ in let? cseq := Val_Int64_cast v in
  let '(acts1, m2, cp2) := acquire dup_tcb (mkDup false 0 ∅) (cseq =? 0) src cmap in
  let acts2 := if dup_tcb cp2 then [CancelTimer src] else [] in
  let? v := Tuple_at tp SEQ in let? seq := Val_Int64_cast v in
  let '(dup, cp3) := received seq cseq (mkDup true (dup_cum_seq cp2) (dup_received cp2)) in
  Ok (if dup then None else Some tp, acts1 ++ acts2 ++ [ArmTimer src], update src cp3 m2).

(** ** Lemmas: cumulative acknowledgement *)

Abbreviation sorted := (StronglySorted Z.lt).

Lemma queue_insert_spec seq q : sorted q ->
  match queue_insert seq q with
  | None => seq ∈ q
  | Some q' => sorted q' /\ (seq ∉ q) /\ (forall x, (x ∈ q') <-> (x = seq \/ x ∈ q))
  end.
Proof.
  induction 1 as [|x q Hq IH Hx]; cbn [queue_insert].
  - split_and!; [repeat constructor|apply not_elem_of_nil|].
    set_solver.
  - rewrite Forall_forall in Hx. destruct (Z.eqb_spec seq x) as [->|Hne]; [by left|].
    destruct (Z.ltb_spec seq x) as [Hlt|Hge].
    + split_and!.
      * repeat constructor; [done|by apply Forall_forall|done|].
        apply Forall_forall. intros y Hy. specialize (Hx y Hy). lia.
      * rewrite not_elem_of_cons. split; [done|]. intros Hy. specialize (Hx seq Hy). lia.
      * intros y. by rewrite !elem_of_cons.
    + destruct (queue_insert seq q) as [q'|]; cbn [option_map]; [|by right].
      destruct IH as (Hq' & Hn & Hin). split_and!.
      * constructor; [done|]. apply Forall_forall. intros y Hy.
        apply Hin in Hy as [->|Hy]; [lia|auto].
      * by rewrite not_elem_of_cons.
      * intros y. rewrite !elem_of_cons, Hin. tauto.
Qed.

(** [advance] stops right before the first hole. *)
Lemma advance_spec cum q : sorted q ->
  cum <= advance cum q /\ (forall k, cum < k <= advance cum q -> k ∈ q) /\ advance cum q + 1 ∉ q.
Proof.
  intros Hq. revert cum. induction Hq as [|x q Hq IH Hx]; intros cum; cbn [advance].
  - split_and!; [lia|intros; lia|apply not_elem_of_nil].
  - rewrite Forall_forall in Hx. destruct (Z.eqb_spec (cum + 1) x) as [<-|Hne].
    + destruct (IH (cum + 1)) as (H1 & H2 & H3). split_and!; [lia| |].
      * intros k Hk. destruct (decide (k = cum + 1)) as [->|]; [by left|]. right. apply H2. lia.
      * rewrite not_elem_of_cons. split; [lia|done].
    + destruct (Z.ltb_spec cum x) as [Hlt|Hge].
      * split_and!; [lia|intros; lia|]. rewrite not_elem_of_cons. split; [lia|].
        intros Hy. specialize (Hx _ Hy). lia.
      * destruct (IH cum) as (H1 & H2 & H3). split_and!; [lia| |].
        -- intros k Hk. right. by apply H2.
        -- rewrite not_elem_of_cons. split; [lia|done].
Qed.

Lemma sorted_filter (P : Z -> Prop) `{!forall x, Decision (P x)} q : sorted q -> sorted (filter P q).
Proof.
  induction 1 as [|x q Hq IH Hx]; [constructor|]. rewrite filter_cons. case_decide; [|done].
  constructor; [done|]. by apply Forall_filter.
Qed.

(** The record of a connection that has confirmed the numbers of [seen] since
    it stood at [c0]: the queue holds those beyond the first hole. *)
Record ack_inv (c0 : Z) (seen : Z -> Prop) (c : AckConnection) : Prop := mkAckInv {
  ai_sorted : sorted (ack_queue c);
  ai_low : c0 <= ack_cum_seq c;
  ai_acked : forall k, c0 < k <= ack_cum_seq c -> seen k;
  ai_queue : forall k, k ∈ ack_queue c -> seen k;
  ai_kept : forall k, seen k -> ack_cum_seq c < k -> k ∈ ack_queue c;
  ai_hole : ack_cum_seq c + 1 ∉ ack_queue c
}.

Lemma confirm_inv c0 seen seq c : ack_inv c0 seen c ->
  ack_inv c0 (fun k => seen k \/ k = seq) (confirm seq c).
Proof.
  intros [Hs Hl Ha Hq Hk Hh]. unfold confirm.
  assert (Hfin : forall cum q, sorted q -> c0 <= cum ->
    (forall k, c0 < k <= cum -> seen k \/ k = seq) -> (forall k, k ∈ q -> seen k \/ k = seq) ->
    (forall k, seen k \/ k = seq -> cum < k -> k ∈ q) ->
    ack_inv c0 (fun k => seen k \/ k = seq)
      (mkAck (ack_tcb c) (advance cum q) (filter (fun x => advance cum q < x) q))).
  { intros cum q H1 H2 H3 H4 H5. destruct (advance_spec cum q H1) as (A1 & A2 & A3).
    split; cbn [ack_cum_seq ack_queue].
    - by apply sorted_filter.
    - lia.
    - intros k Hk'. destruct (Z.le_gt_cases k cum); [apply H3; lia|]. apply H4, A2. lia.
    - intros k Hk'. apply list_elem_of_filter in Hk' as [_ Hk']. auto.
    - intros k Hk' Hc. apply list_elem_of_filter. split; [done|]. apply H5; [done|lia].
    - intros Hin. apply list_elem_of_filter in Hin as [_ Hin]. done. }
  destruct (Z.ltb_spec seq (ack_cum_seq c)) as [Hlt|Hge].
  { apply Hfin; auto. intros k [Hk'| ->] Hc; [auto|lia]. }
  destruct (Z.eqb_spec (ack_cum_seq c + 1) seq) as [<-|Hne].
  { apply Hfin; auto; [lia| |].
    - intros k Hk'. destruct (decide (k = ack_cum_seq c + 1)); [by right|]. left. apply Ha. lia.
    - intros k [Hk'| ->] Hc; [apply Hk; [done|lia]|lia]. }
  pose proof (queue_insert_spec seq _ Hs) as Hi.
  destruct (queue_insert seq (ack_queue c)) as [q|].
  - destruct Hi as (Hq' & _ & Hin). apply Hfin; auto.
    + intros k Hk'. apply Hin in Hk' as [->|Hk']; auto.
    + intros k [Hk'| ->] Hc; apply Hin; auto.
  - split; [done|done|intros k Hk'; left; auto|intros k Hk'; left; auto| |done].
    intros k [Hk'| ->] Hc; auto.
Qed.

(** Confirming a sequence of numbers. *)
Fixpoint confirm_all (seqs : list Z) (c : AckConnection) : AckConnection :=
  match seqs with
  | [] => c
  | seq :: seqs' => confirm_all seqs' (confirm seq c)
  end.

Lemma ack_inv_ext c0 P Q c : (forall k, P k <-> Q k) -> ack_inv c0 P c -> ack_inv c0 Q c.
Proof. intros E [H1 H2 H3 H4 H5 H6]. split; auto; intros k; rewrite <- E; auto. Qed.

Lemma confirm_all_inv c0 P seqs c : ack_inv c0 P c ->
  ack_inv c0 (fun k => P k \/ k ∈ seqs) (confirm_all seqs c).
Proof.
  revert P c. induction seqs as [|s seqs IH]; intros P c H; cbn [confirm_all].
  - eapply ack_inv_ext; [|exact H]. intros k. rewrite elem_of_nil. tauto.
  - eapply ack_inv_ext; [|apply IH, confirm_inv, H]. intros k. cbn beta. rewrite elem_of_cons. tauto.
Qed.

(** the cumulative number acknowledged after any sequence of confirmed
    packets, in any order and with any repetitions, is exactly the last one
    before the first packet that is missing. *)
Theorem cumulative_ack_exact (tcb : bool) (c0 : Z) (seqs : list Z) :
  let cum := ack_cum_seq (confirm_all seqs (mkAck tcb c0 [])) in
  c0 <= cum /\ (forall k, c0 < k <= cum -> k ∈ seqs) /\ (cum + 1 ∉ seqs).
Proof.
  intros cum. assert (H0 : ack_inv c0 (fun _ => False) (mkAck tcb c0 [])).
  { split; cbn [ack_queue ack_cum_seq]; try done; try lia; try constructor.
    - intros k Hk. by apply elem_of_nil in Hk.
    - apply not_elem_of_nil. }
  apply (confirm_all_inv c0 _ seqs) in H0 as [H1 H2 H3 H4 H5 H6]. fold cum in H2, H3, H5, H6.
  split_and!; [done| |].
  - intros k Hk. destruct (H3 k Hk) as [[]|]. done.
  - intros Hin. apply H6, H5; [by right|lia].
Qed.

(** ** Lemmas: records per peer *)

Section connection_lemmas.
Context {C : Type}.
Implicit Types (m : list (value * C)) (src : value).

(** The map holds plain keys in strictly ascending order. *)
Definition cwf m : Prop := Forall (fun e => plainP (fst e)) m /\ set_sorted value_lt fst m.

Abbreviation peer a b := (equivb value_lt a b).

Lemma cwf_mset m : cwf m -> mset_sorted value_lt fst m.
Proof. intros [HP Hs]. by apply (set_sorted_mset value_lt fst plainP). Qed.

Lemma lookup_iff src m c : cwf m -> plainP src ->
  lookup_ src m = Some c <-> exists k, (k, c) ∈ m /\ peer src k = true.
Proof.
  intros Hm Ps. pose proof (cwf_mset m Hm) as Hms. destruct Hm as [HP Hs].
  unfold lookup_, c_find. split.
  - intros H. destruct (set_find value_lt fst src m) as [i|] eqn:Ef; [|done].
    destruct (m !! i) as [[k c']|] eqn:Ei; simplify_eq. exists k. simplify_eq/=.
    split; [by eapply list_elem_of_lookup_2|].
    apply (set_find_equiv value_lt fst plainP src m i (k, c)); auto.
  - intros (k & Hin & Heq). destruct (set_find value_lt fst src m) as [i|] eqn:Ef.
    + destruct (set_find_Some value_lt fst src m i Ef) as ([k' c'] & Ei & _). rewrite Ei. simpl.
      apply list_elem_of_lookup in Hin as [j Hj].
      pose proof (set_find_equiv value_lt fst plainP src m i _ Ps HP Hms Ef Ei) as He. simpl in He.
      assert (Pk : plainP k) by (rewrite Forall_lookup in HP; by apply (HP j (k, c))).
      assert (Pk' : plainP k') by (rewrite Forall_lookup in HP; by apply (HP i (k', c'))).
      assert (i = j) as ->; [|congruence].
      apply (set_unique value_lt fst plainP m (k', c') (k, c)); auto. simpl.
      rewrite equivb_sym in He. by apply (equivb_trans value_lt plainP k' src k).
    + apply (set_find_None value_lt fst plainP) in Ef; auto.
      rewrite Forall_forall in Ef. specialize (Ef _ Hin). simpl in Ef. congruence.
Qed.

Lemma unmap_ok src m : cwf m -> plainP src ->
  cwf (unmap src m) /\ forall e, (e ∈ unmap src m) <-> (e ∈ m) /\ peer src (fst e) = false.
Proof.
  intros Hm Ps. pose proof (cwf_mset m Hm) as Hms. pose proof Hm as [HP Hs].
  unfold unmap, c_find. destruct (set_find value_lt fst src m) as [i|] eqn:Ef.
  - destruct (set_find_Some value_lt fst src m i Ef) as (e & Ei & _).
    pose proof (set_find_equiv value_lt fst plainP src m i e Ps HP Hms Ef Ei) as He. split.
    + split; [by apply Forall_delete|]. by apply StronglySorted_delete.
    + intros x. rewrite (set_delete_filter value_lt fst plainP src m i e) by done.
      rewrite list_elem_of_filter. tauto.
  - split; [done|]. intros e. apply (set_find_None value_lt fst plainP) in Ef; auto.
    rewrite Forall_forall in Ef. split; [|tauto]. intros He. split; [done|auto].
Qed.

Lemma map_ok src c m : cwf m -> plainP src ->
  cwf (map_ src c m)
  /\ forall e, (e ∈ map_ src c m) <-> e = (src, c) \/ (e ∈ m /\ peer src (fst e) = false).
Proof.
  intros Hm Ps. destruct (unmap_ok src m Hm Ps) as [[HP Hs] Hin]. unfold map_, set_insert.
  assert (Hno : Forall (fun e => peer src (fst e) = false) (unmap src m)).
  { apply Forall_forall. intros e He. by apply Hin in He as [_ ?]. }
  pose proof (cwf_mset _ (conj HP Hs)) as Hms.
  assert (Hn : set_find value_lt fst (fst (src, c)) (unmap src m) = None)
    by (by apply (set_find_None value_lt fst plainP)).
  rewrite Hn. split.
  - split.
    + rewrite insert_at_perm. by constructor.
    + by apply (set_insert_at_sorted value_lt fst plainP).
  - intros e. rewrite insert_at_perm, elem_of_cons, Hin. tauto.
Qed.

Lemma option_iff {A} (x y : option A) : (forall a, x = Some a <-> y = Some a) -> x = y.
Proof.
  intros H. destruct x as [a|]; [symmetry; by apply H|]. destruct y as [b|]; [|done].
  by apply H.
Qed.

Lemma lookup_map src c m : cwf m -> plainP src -> lookup_ src (map_ src c m) = Some c.
Proof.
  intros Hm Ps. destruct (map_ok src c m Hm Ps) as [Hw Hin]. apply lookup_iff; auto.
  exists src. split; [apply Hin; by left|]. by apply (equivb_refl value_lt plainP).
Qed.

Lemma lookup_map_ne src c m o : cwf m -> plainP src -> plainP o -> peer src o = false ->
  lookup_ o (map_ src c m) = lookup_ o m.
Proof.
  intros Hm Ps Po Hne. destruct (map_ok src c m Hm Ps) as [Hw Hin]. apply option_iff. intros a.
  rewrite !lookup_iff by done. split; intros (k & Hk & He).
  - apply Hin in Hk as [[= -> ->]|[Hk _]]; [|eauto]. rewrite equivb_sym in He. congruence.
  - exists k. split; [|done]. apply Hin. right. split; [done|]. simpl.
    destruct (peer src k) eqn:E; [|done].
    assert (Pk : plainP k) by (destruct Hm as [HP _]; rewrite Forall_forall in HP; by apply (HP (k, a))).
    rewrite equivb_sym in He. rewrite (equivb_trans value_lt plainP src k o) in Hne; done.
Qed.

Lemma lookup_unmap_ne src m o : cwf m -> plainP src -> plainP o -> peer src o = false ->
  lookup_ o (unmap src m) = lookup_ o m.
Proof.
  intros Hm Ps Po Hne. destruct (unmap_ok src m Hm Ps) as [Hw Hin]. apply option_iff. intros a.
  rewrite !lookup_iff by done. split; intros (k & Hk & He).
  - apply Hin in Hk as [Hk _]. eauto.
  - exists k. split; [|done]. apply Hin. split; [done|]. simpl.
    destruct (peer src k) eqn:E; [|done].
    assert (Pk : plainP k) by (destruct Hm as [HP _]; rewrite Forall_forall in HP; by apply (HP (k, a))).
    rewrite equivb_sym in He. rewrite (equivb_trans value_lt plainP src k o) in Hne; done.
Qed.

(** Updating a record changes it and no other. *)
Lemma update_keys src c m : fst <$> update src c m = fst <$> m.
Proof.
  unfold update. destruct (c_find src m) as [i|]; [|done].
  revert i. induction m as [|e m IH]; intros [|i]; try done.
  cbn. f_equal. apply IH.
Qed.

Lemma lower_bound_keys src m m' : fst <$> m = fst <$> m' ->
  lower_bound value_lt fst src m = lower_bound value_lt fst src m'.
Proof.
  revert m'. induction m as [|e m IH]; intros [|e' m'] H; try done.
  injection H as H1 H2. simpl. rewrite H1, (IH m') by done. done.
Qed.

Lemma c_find_keys src m m' : fst <$> m = fst <$> m' -> c_find src m = c_find src m'.
Proof.
  intros H. unfold c_find, set_find. rewrite (lower_bound_keys src m m' H).
  apply (f_equal (fun l => l !! lower_bound value_lt fst src m')) in H.
  rewrite !list_lookup_fmap in H.
  destruct (m !! _), (m' !! _); simpl in H; simplify_eq; by rewrite ?H.
Qed.

Lemma sorted_keys m :
  set_sorted value_lt fst m <-> StronglySorted (fun a b => value_lt a b = true) (fst <$> m).
Proof.
  unfold set_sorted. induction m as [|e m IH]; simpl.
  - split; constructor.
  - split; intros H; apply StronglySorted_inv in H as [H1 H2]; constructor;
      try (by apply IH); revert H2; by rewrite Forall_fmap.
Qed.

Lemma cwf_update src c m : cwf m -> cwf (update src c m).
Proof.
  intros [HP Hs]. split.
  - apply (Forall_fmap fst plainP). rewrite update_keys. by apply Forall_fmap.
  - apply sorted_keys. rewrite update_keys. by apply sorted_keys.
Qed.

Lemma lookup_update src c m : is_Some (lookup_ src m) -> lookup_ src (update src c m) = Some c.
Proof.
  unfold lookup_. rewrite (c_find_keys src (update src c m) m) by apply update_keys.
  unfold update. destruct (c_find src m) as [i|]; [|by intros []].
  intros [x Hx]. rewrite list_lookup_alter, decide_True by done. revert Hx. by destruct (m !! i).
Qed.

Lemma lookup_update_ne src c m o : cwf m -> plainP src -> plainP o -> peer src o = false ->
  lookup_ o (update src c m) = lookup_ o m.
Proof.
  intros Hm Ps Po Hne. pose proof (cwf_mset m Hm) as Hms. destruct Hm as [HP Hs].
  unfold lookup_. rewrite (c_find_keys o (update src c m) m) by apply update_keys.
  destruct (c_find o m) as [j|] eqn:Ej; [|done]. unfold update.
  destruct (c_find src m) as [i|] eqn:Ei; [|done]. unfold c_find in *.
  destruct (decide (i = j)) as [->|Hij]; [|by rewrite list_lookup_alter_ne].
  destruct (set_find_Some value_lt fst o m j Ej) as (e & He & _).
  pose proof (set_find_equiv value_lt fst plainP o m j e Po HP Hms Ej He) as H1.
  pose proof (set_find_equiv value_lt fst plainP src m j e Ps HP Hms Ei He) as H2.
  assert (Pe : plainP (fst e)) by (rewrite Forall_lookup in HP; by apply (HP j)).
  rewrite equivb_sym in H1. rewrite (equivb_trans value_lt plainP src (fst e) o) in Hne; done.
Qed.

(** The record a packet works on. *)
Definition record_for (fresh : C) (reset : bool) src m : C :=
  match lookup_ src m with
  | Some cp => if reset then fresh else cp
  | None => fresh
  end.

Lemma acquire_ok tcb (fresh : C) reset src m : cwf m -> plainP src ->
  let '(_, m', cp) := acquire tcb fresh reset src m in
  cp = record_for fresh reset src m /\ cwf m' /\ lookup_ src m' = Some cp
  /\ forall o, plainP o -> peer src o = false -> lookup_ o m' = lookup_ o m.
Proof.
  intros Hm Ps. unfold acquire, record_for. destruct (lookup_ src m) as [cp|] eqn:El; [destruct reset|].
  - destruct (unmap_ok src m Hm Ps) as [Hw _]. split_and!; [done|by apply map_ok|by apply lookup_map|].
    intros o Po Hne. rewrite lookup_map_ne, lookup_unmap_ne; done.
  - done.
  - split_and!; [done|by apply map_ok|by apply lookup_map|]. intros o Po Hne. by apply lookup_map_ne.
Qed.
End connection_lemmas.

(** ** Lemmas: duplicates *)

(** Packets of one connection, given by their sequence and cumulative numbers;
    the numbers that were handed on, latest first. *)
Fixpoint received_all (ps : list (Z * Z)) (c : DupConnection) : list Z * DupConnection :=
  match ps with
  | [] => ([], c)
  | (seq, cseq) :: ps' =>
      let '(dup, c1) := received seq cseq c in
      let '(out, c2) := received_all ps' c1 in
      (if dup then out else seq :: out, c2)
  end.

(** Above the cumulative number the map is exactly what was handed on. *)
Definition dup_inv (out : Z -> Prop) (c : DupConnection) : Prop :=
  forall s, dup_cum_seq c < s -> (s ∈ dup_received c) <-> out s.

(** The cumulative number after a packet. *)
Definition cum_after (cseq : Z) (c : DupConnection) : Z := Z.max (dup_cum_seq c) cseq.

Lemma received_spec out seq cseq c : dup_inv out c ->
  let '(dup, c') := received seq cseq c in
  dup_cum_seq c' = cum_after cseq c
  /\ (seq < cum_after cseq c -> dup = true)
  /\ (cum_after cseq c < seq -> dup = true <-> out seq)
  /\ dup_inv (fun s => out s \/ (dup = false /\ s = seq)) c'.
Proof.
  intros HI. unfold received, cum_after.
  set (c1 := if dup_cum_seq c <? cseq then _ else c).
  assert (Hc1 : dup_cum_seq c1 = Z.max (dup_cum_seq c) cseq).
  { unfold c1. destruct (Z.ltb_spec (dup_cum_seq c) cseq); simpl; lia. }
  assert (HI1 : dup_inv out c1).
  { intros s Hs. rewrite Hc1 in Hs. unfold c1. destruct (dup_cum_seq c <? cseq); [|apply HI; lia].
    simpl. rewrite <- (HI s) by lia. destruct (_ && _); [|done]. rewrite elem_of_filter. split; [tauto|].
    intros H. split; [lia|done]. }
  destruct (Z.ltb_spec seq (dup_cum_seq c1)) as [Hlt|Hge].
  { split_and!; [done|done|lia|]. intros s Hs. rewrite (HI1 s) by done. intuition congruence. }
  case_bool_decide as Hin.
  - split_and!; [done|done| |].
    + intros Hs. split; [|done]. intros _. apply HI1; [lia|done].
    + intros s Hs. rewrite (HI1 s) by done. intuition congruence.
  - split_and!; [done|lia| |].
    + intros Hs. split; [done|]. intros Ho. exfalso. apply Hin, HI1; [lia|done].
    + intros s Hs. simpl in *. rewrite elem_of_union, elem_of_singleton, (HI1 s) by done.
      intuition congruence.
Qed.

Lemma dup_inv_ext P Q c : (forall s, P s <-> Q s) -> dup_inv P c -> dup_inv Q c.
Proof. intros E H s Hs. rewrite <- (E s). by apply H. Qed.

Lemma received_all_inv ps P c : dup_inv P c ->
  let '(out, c') := received_all ps c in dup_inv (fun s => P s \/ s ∈ out) c'.
Proof.
  revert P c. induction ps as [|[seq cseq] ps IH]; intros P c H; cbn [received_all].
  - eapply dup_inv_ext; [|exact H]. intros s. rewrite elem_of_nil. tauto.
  - pose proof (received_spec P seq cseq c H) as Hr.
    destruct (received seq cseq c) as [dup c1]. destruct Hr as (_ & _ & _ & H1).
    specialize (IH _ c1 H1). destruct (received_all ps c1) as [out c2].
    eapply dup_inv_ext; [|exact IH]. intros s. cbn beta. destruct dup.
    + intuition congruence.
    + rewrite elem_of_cons. intuition congruence.
Qed.

(** after any sequence of packets of a connection, a packet below the
    cumulative number is dropped, and one above it is dropped exactly when its
    number was handed on before: no loss and no duplication there. *)
Theorem dup_remove_exact (tcb : bool) (ps : list (Z * Z)) (seq cseq : Z) :
  let '(out, c) := received_all ps (mkDup tcb 0 ∅) in
  (seq < cum_after cseq c -> fst (received seq cseq c) = true)
  /\ (cum_after cseq c < seq -> fst (received seq cseq c) = true <-> seq ∈ out).
Proof.
  assert (H0 : dup_inv (fun _ => False) (mkDup tcb 0 ∅)).
  { intros s _. simpl. rewrite elem_of_empty. tauto. }
  pose proof (received_all_inv ps _ _ H0) as H.
  destruct (received_all ps (mkDup tcb 0 ∅)) as [out c].
  pose proof (received_spec _ seq cseq c H) as Hr.
  destruct (received seq cseq c) as [dup c1]. destruct Hr as (_ & H1 & H2 & _).
  split; [exact H1|]. intros Hs. simpl. rewrite (H2 Hs). tauto.
Qed.

(** At the cumulative number itself a packet is handed on twice: number 5,
    then number 6 announcing that 5 was acknowledged, then 5 again. *)
Theorem dup_remove_repeats :
  fst (received_all [(5, 3); (6, 5); (5, 5)] (mkDup false 0 ∅)) = [5; 6; 5].
Proof. vm_compute. reflexivity. Qed.

(** ** The elements *)

(** [DupRemove] judges a packet by the record of its sender (a fresh one for
    a new sender or a cumulative number of zero), hands it on exactly when it is
    no duplicate, and leaves the records of all other senders alone. *)
Theorem dup_remove_push_correct (tp : tuple) (m : list (value * DupConnection)) (src : value)
    (seq cseq : Z) :
  cwf m -> plainP src -> Tuple_at tp SRC = Ok src ->
  Tuple_at tp SEQ = Ok (VInt64 seq) -> Tuple_at tp CUMSEQ = Ok (VInt64 cseq) ->
  let old := record_for (mkDup false 0 ∅) (cseq =? 0) src m in
  let '(dup, new) := received seq cseq (mkDup true (dup_cum_seq old) (dup_received old)) in
  exists acts m', DupRemove_push 0 tp m = Ok (if dup then None else Some tp, acts, m')
    /\ cwf m' /\ lookup_ src m' = Some new
    /\ forall o, plainP o -> equivb value_lt src o = false -> lookup_ o m' = lookup_ o m.
Proof.
  intros Hm Ps H1 H2 H3 old.
  pose proof (acquire_ok dup_tcb (mkDup false 0 ∅) (cseq =? 0) src m Hm Ps) as Ha.
  destruct (received seq cseq _) as [dup new] eqn:Er. unfold DupRemove_push.
  rewrite H1, H3. cbn [check Nat.eqb rbind Val_Int64_cast].
  destruct (acquire _ _ _ src m) as [[acts m2] cp]. destruct Ha as (Hcp & Hw & Hl & Ho).
  rewrite H2. cbn [rbind Val_Int64_cast]. rewrite Hcp. fold old. rewrite Er.
  do 2 eexists. split; [reflexivity|]. split_and!.
  - by apply cwf_update.
  - apply lookup_update. by rewrite Hl.
  - intros o Po Hne. rewrite lookup_update_ne by done. auto.
Qed.

(** [CumulativeAck] answers the packet with the sender's cumulative number in
    place of its own, updates the sender's record by the packet, and leaves the
    records of all other senders alone. *)
Theorem cumulative_ack_correct (tp : tuple) (counter : Z) (m : list (value * AckConnection))
    (src : value) (seq cseq : Z) :
  cwf m -> plainP src -> Tuple_at tp (SRC + 2) = Ok src ->
  Tuple_at tp (SEQ + 2) = Ok (VInt64 seq) -> Tuple_at tp (CUMSEQ + 2) = Ok (VInt64 cseq) ->
  let new := ack_packet seq cseq (record_for (mkAck false 0 []) (cseq =? 0) src m) in
  exists cack acts m' counter',
    CumulativeAck_simple_action tp counter m = Ok (cack, acts, m', counter')
    /\ fields cack = <[(CUMSEQ + 2)%nat := VInt64 (ack_cum_seq new)]> (fields tp)
    /\ cwf m' /\ lookup_ src m' = Some (mkAck true (ack_cum_seq new) (ack_queue new))
    /\ forall o, plainP o -> equivb value_lt src o = false -> lookup_ o m' = lookup_ o m.
Proof.
  intros Hm Ps H1 H2 H3 new.
  pose proof (acquire_ok ack_tcb (mkAck false 0 []) (cseq =? 0) src m Hm Ps) as Ha.
  unfold CumulativeAck_simple_action. rewrite H1, H2, H3. cbn [rbind Val_Int64_cast].
  destruct (acquire _ _ _ src m) as [[acts m2] cp]. destruct Ha as (Hcp & Hw & Hl & Ho).
  rewrite Hcp. fold new. unfold Tuple_mk. do 4 eexists. split; [reflexivity|].
  split_and!; [done|by apply cwf_update|apply lookup_update; by rewrite Hl|].
  intros o Po Hne. rewrite lookup_update_ne by done. auto.
Qed.

Lemma lookup_none_find {C} src (m : list (value * C)) : lookup_ src m = None -> c_find src m = None.
Proof.
  unfold lookup_, c_find. destruct (set_find value_lt fst src m) as [i|] eqn:E; [|done].
  destruct (set_find_Some value_lt fst src m i E) as (e & -> & _). done.
Qed.

(** [Sequence] stamps a packet with the successor of the last number it gave
    to the packet's destination (the random one for a new destination),
    remembers it, and leaves the other destinations alone: every destination
    sees consecutive numbers. *)
Theorem sequence_consecutive (init : Z) (p : tuple) (counter : Z) (m : list (value * Z))
    (dest : value) :
  cwf m -> plainP dest -> Tuple_at p DEST = Ok dest ->
  let s := match lookup_ dest m with Some n => n + 1 | None => init end in
  exists q m' counter', Sequence_simple_action init p counter m = Ok (q, m', counter')
    /\ fields q = <[SEQ := VInt64 s]> (fields p) /\ frozen q = true
    /\ cwf m' /\ lookup_ dest m' = Some s
    /\ forall o, plainP o -> equivb value_lt dest o = false -> lookup_ o m' = lookup_ o m.
Proof.
  intros Hm Pd H1 s. unfold Sequence_simple_action. rewrite H1. cbn [rbind].
  unfold s. destruct (lookup_ dest m) as [n|] eqn:El; unfold Tuple_mk; do 3 eexists;
    (split; [reflexivity|]); (split; [done|]); (split; [done|]).
  - split_and!; [by apply cwf_update|apply lookup_update; by rewrite El|].
    intros o Po Hne. by apply lookup_update_ne.
  - assert (E : set_insert value_lt fst (dest, init) m = map_ dest init m).
    { unfold map_, unmap. by rewrite (lookup_none_find dest m El). }
    rewrite E. pose proof (lookup_map dest init m Hm Pd) as Hl.
    destruct (map_ok dest init m Hm Pd) as [Hw _].
    split_and!; [by apply cwf_update|apply lookup_update; by rewrite Hl|].
    intros o Po Hne. rewrite lookup_update_ne by done. by apply lookup_map_ne.
Qed.

(** *** Witnesses *)

Definition net_packet (src : value) (cseq seq : Z) : tuple :=
  mkTuple [VStr "dst"; src; VNull; VNull; VNull; VNull; VInt64 cseq; VInt64 seq; VStr "x"; VNull] true 1.

(** The same packet as it reaches [CumulativeAck], behind two more fields. *)
Definition ack_request (src : value) (cseq seq : Z) : tuple :=
  mkTuple (VStr "me" :: VStr "ACK" :: fields (net_packet src cseq seq)) true 2.

Lemma dup_remove_push_correct_witness :
  let old := mkDup true 3 {[4]} in
  let '(dup, new) := received 5 3 (mkDup true (dup_cum_seq old) (dup_received old)) in
  exists acts m', DupRemove_push 0 (net_packet (VStr "a:1") 3 5) [(VStr "a:1", old)]
      = Ok (if dup then None else Some (net_packet (VStr "a:1") 3 5), acts, m')
    /\ cwf m' /\ lookup_ (VStr "a:1") m' = Some new
    /\ forall o, plainP o -> equivb value_lt (VStr "a:1") o = false ->
         lookup_ o m' = lookup_ o [(VStr "a:1", old)].
Proof.
  apply (dup_remove_push_correct (net_packet (VStr "a:1") 3 5) [(VStr "a:1", mkDup true 3 {[4]})]
    (VStr "a:1") 5 3); try reflexivity.
  split; repeat constructor.
Defined.

Lemma cumulative_ack_correct_witness :
  let new := ack_packet 5 3 (mkAck true 4 [6]) in
  exists cack acts m' counter',
    CumulativeAck_simple_action (ack_request (VStr "a:1") 3 5) 9 [(VStr "a:1", mkAck true 4 [6])]
      = Ok (cack, acts, m', counter')
    /\ fields cack = <[(CUMSEQ + 2)%nat := VInt64 (ack_cum_seq new)]> (fields (ack_request (VStr "a:1") 3 5))
    /\ cwf m' /\ lookup_ (VStr "a:1") m' = Some (mkAck true (ack_cum_seq new) (ack_queue new))
    /\ forall o, plainP o -> equivb value_lt (VStr "a:1") o = false ->
         lookup_ o m' = lookup_ o [(VStr "a:1", mkAck true 4 [6])].
Proof.
  apply (cumulative_ack_correct (ack_request (VStr "a:1") 3 5) 9 [(VStr "a:1", mkAck true 4 [6])]
    (VStr "a:1") 5 3); try reflexivity.
  split; repeat constructor.
Defined.

Lemma sequence_consecutive_witness :
  exists q m' counter', Sequence_simple_action 77 (net_packet (VStr "a:1") 0 0) 9 [(VStr "dst", 41)]
      = Ok (q, m', counter')
    /\ fields q = <[SEQ := VInt64 42]> (fields (net_packet (VStr "a:1") 0 0)) /\ frozen q = true
    /\ cwf m' /\ lookup_ (VStr "dst") m' = Some 42
    /\ forall o, plainP o -> equivb value_lt (VStr "dst") o = false ->
         lookup_ o m' = lookup_ o [(VStr "dst", 41)].
Proof.
  apply (sequence_consecutive 77 (net_packet (VStr "a:1") 0 0) 9 [(VStr "dst", 41)] (VStr "dst"));
    try reflexivity.
  split; repeat constructor.
Defined.
