(* ===== verification/Ordered.v ===== *)
(** * Ordered and retried delivery (src/net/odelivery.C, rdelivery.C)

    [ODelivery] hands the packets of each sender on in sequence order, waiting
    for a missing one until a timer fires; [RDelivery] keeps the packets that
    were sent and not acknowledged yet, for retransmission.  The records per peer
    are those of Delivery.v.  What the downstream element answers to the [k]-th
    [push] of an operation is its argument [ans k]; a timer is an action of the
    operation that arms or cancels it, and its firing is an operation of its own.
    Times are nanoseconds. *)

From Stdlib Require Import SpecFloat String Sorting.
From S2P Require Import Prelude Ids Stl Values Tuples Fdbuf Xdr Casts Frag Delivery.

Local Open Scope p2_scope.

Definition RTT : nat := 2.

(** [Val_Int64::cast] of a field. *)
Definition int_field (tp : tuple) (i : nat) : res Z :=
  let? v := Tuple_at tp i in Val_Int64_cast v.

(** ** [ODelivery] *)

Record ODConnection := mkOD {
  od_touched : Z;
  od_tcb : bool;
  od_next_seq : Z;
  od_queue : list tuple
}.

(** [ODelivery::Connection::Connection]: the number passes through a [uint]. *)
Definition ODConnection_mk (now ns : Z) : ODConnection := mkOD now false (u32 ns) [].

(** "Insert the tuple in sequence order"; [None] when there is one of the same
    number, otherwise the queue and whether the tuple went before another one. *)
Fixpoint od_place (seq : Z) (tp : tuple) (q : list tuple) : res (option (list tuple * bool)) :=
  match q with
  | [] => Ok (Some ([tp], false))
  | t :: q' =>
      let? seq2 := int_field t SEQ in
      if seq =? seq2 then Ok None
      else if seq <? seq2 then Ok (Some (tp :: q, true))
      else let? r := od_place seq tp q' in Ok (option_map (prod_map (cons t) id) r)
  end.

(** "Move the next sequence pointer if we've filled a hole" *)
Fixpoint od_advance (next : Z) (q : list tuple) : res Z :=
  match q with
  | [] => Ok next
  | t :: q' =>
      let? seq3 := int_field t SEQ in
      if seq3 =? next then od_advance (next + 1) q' else Ok next
  end.

(** [vector::insert] invalidates the iterator that the code compares with [end()]
    afterwards, of the vector that results; what the comparison then gives is a
    parameter. *)
Section odelivery.
Context (stale_end : list tuple -> bool).

(** [ODelivery::Connection::insert] *)
Definition ODConnection_insert (tp : tuple) (c : ODConnection) : res ODConnection :=
  let? seq := int_field tp SEQ in
  let? placed :=
    if (length (od_queue c) =? 0)%nat && (od_next_seq c <=? seq) then Ok (Some ([tp], false))
    else od_place seq tp (od_queue c) in
  match placed with
  | None => Ok c
  | Some (q, before) =>
      let q := if before && stale_end q then q ++ [tp] else q in
      let? next := od_advance (od_next_seq c) q in
      Ok (mkOD (od_touched c) (od_tcb c) next q)
  end.

(** [ODelivery::Connection::touch], [touch_duration]: [seconds()] is the field
    of a duration, not its total. *)
Definition ODConnection_touch (now : Z) (c : ODConnection) : ODConnection :=
  mkOD now (od_tcb c) (od_next_seq c) (od_queue c).

Definition duration_seconds (d : Z) : Z := Z.rem (Z.quot d (10 ^ 9)) 60.
Definition touch_duration (now : Z) (c : ODConnection) : Z := duration_seconds (now - od_touched c).
Definition CONNECTION_TIMEOUT : Z := 240.

(** The delay of the timer: [5.0 + ((10.0 * rto) / 1000.0)]. *)
Definition wait_delay (rto : spec_float) : spec_float :=
  SFadd 53 1024 (double_of_int64 5)
    (SFdiv 53 1024 (SFmul 53 1024 (double_of_int64 10) rto) (double_of_int64 1000)).

(** [ODelivery::flush]: the tuples pushed, the timer actions, and what is left;
    [k] counts the pushes of the operation so far. *)
Fixpoint od_flush (ans : nat -> Z) (k : nat) (out_on tcb : bool) (next touched : Z) (q : list tuple)
    : res (list tuple * list timer_action * bool * ODConnection) :=
  match q with
  | [] => Ok ([], [], out_on, mkOD touched tcb next [])
  | tpl :: q' =>
      if negb out_on then Ok ([], [], out_on, mkOD touched tcb next q)
      else
        let? src := Tuple_at tpl SRC in
        let? seq := int_field tpl SEQ in
        let? v := Tuple_at tpl RTT in
        let? rto := Val_Double_cast v in
        if seq <=? next then
          let out_on := negb (ans k =? 0) in
          let next := if seq =? next then next + 1 else next in
          let? (sent, acts, out_on, c) := od_flush ans (S k) out_on false next touched q' in
          Ok (tpl :: sent, (if tcb then [CancelTimer src] else []) ++ acts, out_on, c)
        else if negb tcb then
          let? _ := delay_check (wait_delay rto) in Ok ([], [ArmTimer src], out_on, mkOD touched true next q)
        else Ok ([], [], out_on, mkOD touched tcb next q)
  end.

Definition ODelivery_flush (ans : nat -> Z) (k : nat) (out_on : bool) (c : ODConnection) :=
  od_flush ans k out_on (od_tcb c) (od_next_seq c) (od_touched c) (od_queue c).

Record ODelivery := mkODelivery { od_out_on : bool; od_cmap : list (value * ODConnection) }.

(** [ODelivery::ODelivery] *)
Definition ODelivery_mk : ODelivery := mkODelivery true [].

(** [ODelivery::push] once the packet is in its record: the tuples pushed, the
    timer actions, the answer. *)
Definition od_settle (ans : nat -> Z) (src : value) (cp : ODConnection) (out_on : bool)
    (m : list (value * ODConnection)) : res (list tuple * list timer_action * Z * ODelivery) :=
  if out_on then
    let? (sent, acts, out_on, cp) := ODelivery_flush ans 0 out_on cp in
    Ok (sent, acts, Z.b2z out_on, mkODelivery out_on (update src cp m))
  else Ok ([], [], Z.b2z out_on, mkODelivery out_on (update src cp m)).

(** [ODelivery::push] *)
Definition ODelivery_push (now : Z) (ans : nat -> Z) (port : nat) (tp : tuple) (E : ODelivery)
    : res (list tuple * list timer_action * Z * ODelivery) :=
  let? _ := check (port =? 0)%nat AssertFailed in
  let? src := Tuple_at tp SRC in
  let? seq := int_field tp SEQ in
  let? cseq := int_field tp CUMSEQ in
  let cp := lookup_ src (od_cmap E) in
  let '(cp, m) :=
    match cp with
    | Some c => if cseq =? 0 then (None, unmap src (od_cmap E)) else (Some c, od_cmap E)
    | None => (None, od_cmap E)
    end in
  match cp with
  | Some c =>
      if seq <? od_next_seq c then Ok ([], [], Z.b2z (od_out_on E), mkODelivery (od_out_on E) m)
      else
        let? c := ODConnection_insert tp (ODConnection_touch now c) in
        od_settle ans src c (od_out_on E) m
  | None =>
      let c := ODConnection_mk now cseq in
      let m := map_ src c m in
      let? c := ODConnection_insert tp c in
      od_settle ans src c (od_out_on E) m
  end.

(** [ODelivery::out_cb]: the loop over the records of all senders. *)
Fixpoint od_out_loop (ans : nat -> Z) (k : nat) (out_on : bool) (m : list (value * ODConnection))
    : res (list tuple * list timer_action * bool * list (value * ODConnection)) :=
  match m with
  | [] => Ok ([], [], out_on, [])
  | (src, c) :: m' =>
      if out_on then
        let? (sent, acts, out_on, c) := ODelivery_flush ans k out_on c in
        let? (sent', acts', out_on, m') := od_out_loop ans (k + length sent) out_on m' in
        Ok (sent ++ sent', acts ++ acts', out_on, (src, c) :: m')
      else Ok ([], [], out_on, m)
  end.

Definition ODelivery_out_cb (ans : nat -> Z) (E : ODelivery)
    : res (list tuple * list timer_action * ODelivery) :=
  let? (sent, acts, out_on, m) := od_out_loop ans 0 true (od_cmap E) in
  Ok (sent, acts, mkODelivery out_on m).

(** [ODelivery::flushConnectionQ]: the timer of a sender fires. *)
Definition flushConnectionQ (now : Z) (ans : nat -> Z) (src : value) (E : ODelivery)
    : res (list tuple * list timer_action * ODelivery) :=
  let? cp := of_option UndefinedBehaviour (lookup_ src (od_cmap E)) in
  let cp := mkOD (od_touched cp) false (od_next_seq cp) (od_queue cp) in
  let? (sent, acts, out_on, cp) :=
    match last (od_queue cp) with
    | Some t =>
        let? s := int_field t SEQ in
        ODelivery_flush ans 0 (od_out_on E) (mkOD (od_touched cp) (od_tcb cp) (s + 1) (od_queue cp))
    | None => Ok ([], [], od_out_on E, cp)
    end in
  let m := update src cp (od_cmap E) in
  let m := if (length (od_queue cp) =? 0)%nat && (CONNECTION_TIMEOUT <? touch_duration now cp)
           then unmap src m else m in
  Ok (sent, acts, mkODelivery out_on m).
End odelivery.

(** ** [RDelivery] *)

Section rdelivery.
Context `{P : Platform} {CB : Type}.

(** [RDelivery::Connection::Tuple], [RDelivery::Connection] *)
Record RDTuple := mkRDTuple { rdt_seq : Z; rdt_tp : tuple; rdt_retry_cnt : Z }.

Record RDConnection := mkRD {
  rd_dest : value;
  rd_outstanding : list RDTuple;
  rd_rtt : spec_float;
  rd_cum_seq : Z;
  rd_tcb : bool
}.

Definition RDConnection_mk (dest : value) (rtt : spec_float) : RDConnection := mkRD dest [] rtt 0 false.

Record RDelivery := mkRDelivery {
  rd_retry_q : list tuple;
  rd_out_cb : option CB;
  rd_in_on : bool;
  rd_max_retry : Z;
  rd_index : list (value * RDConnection)
}.

(** [RDelivery::RDelivery] *)
Definition RDelivery_mk (m : Z) : RDelivery := mkRDelivery [] None true m [].

(** [RDelivery::RDelivery(TuplePtr)] *)
Definition RDelivery_mk_args (args : tuple) : res RDelivery :=
  let? _ := Tuple_at args 2 in
  let? m := if (3 <? Tuple_size args)%nat then int_field args 3 else Ok 3 in
  Ok (RDelivery_mk (u32 m)).

(** [RDelivery::pull]; [flip] says whether the random number is below one half,
    [input] what the input port gives if it is asked.  The answer, and whether
    the input was asked. *)
Definition RDelivery_pull (flip : bool) (input : option tuple) (port : nat) (cb : option CB)
    (R : RDelivery) : res (option tuple * bool * RDelivery) :=
  let? _ := check (port =? 0)%nat AssertFailed in
  let asked := rd_in_on R && ((length (rd_retry_q R) =? 0)%nat || flip) in
  let in_on := if asked then (if input is Some _ then true else false) else rd_in_on R in
  if asked && in_on
  then Ok (input, asked, mkRDelivery (rd_retry_q R) (rd_out_cb R) in_on (rd_max_retry R) (rd_index R))
  else match rd_retry_q R with
       | tp :: q => Ok (Some tp, asked, mkRDelivery q (rd_out_cb R) in_on (rd_max_retry R) (rd_index R))
       | [] => Ok (None, asked, mkRDelivery [] cb in_on (rd_max_retry R) (rd_index R))
       end.

(** The front of the deque up to the cumulative number is popped. *)
Fixpoint pop_acked (cum : Z) (q : list RDTuple) : list RDTuple :=
  match q with
  | t :: q' => if rdt_seq t <=? cum then pop_acked cum q' else q
  | [] => []
  end.

(** [(2 * cp->_rtt) / 1000.0], or without the 2. *)
Definition retry_delay (twice : bool) (rtt : spec_float) : spec_float :=
  SFdiv 53 1024 (if twice then SFmul 53 1024 (double_of_int64 2) rtt else rtt) (double_of_int64 1000).

(** [RDelivery::ack] *)
Definition RDelivery_ack (tp : tuple) (index : list (value * RDConnection))
    : res (list timer_action * list (value * RDConnection)) :=
  let? dest := Tuple_at tp (DEST + 2) in
  let? cseq := int_field tp (CUMSEQ + 2) in
  match lookup_ dest index with
  | Some cp =>
      if rd_cum_seq cp <? cseq then
        let q := pop_acked cseq (rd_outstanding cp) in
        let armed := negb (length q =? 0)%nat in
        let? _ := if armed then delay_check (retry_delay true (rd_rtt cp)) else Ok tt in
        Ok ((if rd_tcb cp then [CancelTimer dest] else []) ++ (if armed then [ArmTimer dest] else []),
            update dest (mkRD (rd_dest cp) q (rd_rtt cp) cseq armed) index)
      else Ok ([], index)
  | None => Ok ([], index)
  end.

(** The loop of [RDelivery::push] over the fields; a [TypeError] ends it with
    what was done so far. *)
Fixpoint push_acks (fs : list value) (tp : tuple) (index : list (value * RDConnection))
    : res (list timer_action * list (value * RDConnection)) :=
  match fs with
  | [] => Ok ([], index)
  | v :: fs' =>
      if (match typeCode v with STR => true | _ => false end) && (Val_Str_cast v =? "ACK")%string then
        match RDelivery_ack tp index with
        | Ok (acts, index) => let? (acts', index) := push_acks fs' tp index in Ok (acts ++ acts', index)
        | Fail TypeError => Ok ([], index)
        | Fail f => Fail f
        end
      else push_acks fs' tp index
  end.

(** [RDelivery::push]: the tuple goes out of port 1, with the callback. *)
Definition RDelivery_push (port : nat) (tp : tuple) (R : RDelivery)
    : res (tuple * list timer_action * RDelivery) :=
  let? _ := check (port =? 1)%nat AssertFailed in
  let? (acts, index) := push_acks (fields tp) tp (rd_index R) in
  Ok (tp, acts, mkRDelivery (rd_retry_q R) (rd_out_cb R) (rd_in_on R) (rd_max_retry R) index).

(** [RDelivery::handle_failure], the loop over the outstanding tuples; [first]
    says that the iterator is still at the beginning of the deque.  What is
    queued for retransmission, what stays outstanding, the cumulative number. *)
Fixpoint failure_loop (max_retry : Z) (first : bool) (cum : Z) (q : list RDTuple)
    : res (list tuple * list RDTuple * Z) :=
  match q with
  | [] => Ok ([], [], cum)
  | t :: q' =>
      if rdt_retry_cnt t <? max_retry then
        let? (retry, q', cum) := failure_loop max_retry false cum q' in
        Ok (rdt_tp t :: retry, mkRDTuple (rdt_seq t) (rdt_tp t) (rdt_retry_cnt t + 1) :: q', cum)
      else
        let? _ := check first AssertFailed in
        failure_loop max_retry first (if cum <? rdt_seq t then rdt_seq t else cum) q'
  end.

(** The timer of the connection of [dest] fires.  The callbacks that are
    called, the timer actions. *)
Definition handle_failure (dest : value) (R : RDelivery)
    : res (list CB * list timer_action * RDelivery) :=
  let? cp := of_option UndefinedBehaviour (lookup_ dest (rd_index R)) in
  let? (retry, q, cum) := failure_loop (rd_max_retry R) true (rd_cum_seq cp) (rd_outstanding cp) in
  let wake := negb (length retry =? 0)%nat in
  let armed := negb (length q =? 0)%nat in
  let? _ := if armed then delay_check (retry_delay false (rd_rtt cp)) else Ok tt in
  Ok (if wake then option_list (rd_out_cb R) else [],
      if armed then [ArmTimer dest] else [],
      mkRDelivery (rd_retry_q R ++ retry) (if wake then None else rd_out_cb R) (rd_in_on R)
        (rd_max_retry R) (update dest (mkRD (rd_dest cp) q (rd_rtt cp) cum armed) (rd_index R))).

(** [RDelivery::map]: an existing record stays. *)
Definition RDelivery_map (dest : value) (cp : RDConnection) (index : list (value * RDConnection))
    : list (value * RDConnection) :=
  if c_find dest index is Some _ then index else set_insert value_lt fst (dest, cp) index.

(** [RDelivery::tuple]: stamps the packet with the cumulative number and keeps
    it as outstanding. *)
Definition RDelivery_tuple (tp : tuple) (counter : Z) (R : RDelivery)
    : res (tuple * list timer_action * RDelivery * Z) :=
  let? dest := Tuple_at tp DEST in
  let? seq := int_field tp SEQ in
  let? v := Tuple_at tp RTT in
  let? rtt := Val_Double_cast v in
  let '(cp, index) :=
    match lookup_ dest (rd_index R) with
    | Some cp => (cp, rd_index R)
    | None => let cp := RDConnection_mk dest rtt in (cp, RDelivery_map dest cp (rd_index R))
    end in
  let '(rtp, counter) := Tuple_mk counter in
  let rtp := mkTuple (<[CUMSEQ := VInt64 (rd_cum_seq cp)]> (fields tp)) true (tupleID rtp) in
  let? _ := if rd_tcb cp then Ok tt else delay_check (retry_delay true (rd_rtt cp)) in
  let acts := if rd_tcb cp then [] else [ArmTimer dest] in
  let cp := mkRD (rd_dest cp) (rd_outstanding cp ++ [mkRDTuple seq rtp 0]) (rd_rtt cp) (rd_cum_seq cp) true in
  Ok (rtp, acts,
      mkRDelivery (rd_retry_q R) (rd_out_cb R) (rd_in_on R) (rd_max_retry R) (update dest cp index), counter).

(** [RDelivery::input_cb] *)
Definition RDelivery_input_cb (R : RDelivery) : list CB * RDelivery :=
  (option_list (rd_out_cb R), mkRDelivery (rd_retry_q R) None true (rd_max_retry R) (rd_index R)).
End rdelivery.
Arguments RDelivery : clear implicits.

(** ** Lemmas: one connection of [ODelivery] *)

(** A packet with number [n]: its sender and round trip time can be read, and the
    time gives a delay a timer takes. *)
Definition packet (t : tuple) (n : Z) : Prop :=
  int_field t SEQ = Ok n /\ (exists src, Tuple_at t SRC = Ok src)
  /\ exists v d, Tuple_at t RTT = Ok v /\ Val_Double_cast v = Ok d /\ delay_check (wait_delay d) = Ok tt.

Lemma od_place_numbers seq tp q ns : Forall2 packet q ns -> packet tp seq ->
  exists r, od_place seq tp q = Ok r
  /\ match queue_insert seq ns with
     | None => r = None
     | Some ns' => exists q' b, r = Some (q', b) /\ Forall2 packet q' ns'
     end.
Proof.
  intros Hq Ht. induction Hq as [|t n q ns Hn Hq IH]; cbn [od_place queue_insert].
  - eexists. split; [done|]. do 2 eexists. split; [done|]. by constructor; [|constructor].
  - pose proof Hn as [-> _]. cbn [rbind]. destruct (seq =? n); [by eexists|].
    destruct (seq <? n).
    + eexists. split; [done|]. do 2 eexists. split; [done|]. by constructor; [|constructor].
    + destruct IH as (r & -> & Hr). cbn [rbind]. eexists. split; [done|].
      destruct (queue_insert seq ns) as [ns'|]; cbn [option_map].
      * destruct Hr as (q' & b & -> & Hq'). do 2 eexists. split; [done|]. by constructor.
      * by rewrite Hr.
Qed.

Lemma od_advance_numbers next q ns : Forall2 packet q ns -> sorted ns ->
  exists next', od_advance next q = Ok next' /\ next <= next' /\ forall j, next <= j < next' -> j ∈ ns.
Proof.
  intros Hq. revert next. induction Hq as [|t n q ns Hn Hq IH]; intros next Hs; cbn [od_advance].
  - exists next. split_and!; [done|lia|lia].
  - apply StronglySorted_inv in Hs as [Hs _]. destruct Hn as [-> _]. cbn [rbind].
    destruct (Z.eqb_spec n next) as [->|Hne].
    + destruct (IH (next + 1) Hs) as (next' & -> & Hle & Hin). exists next'. split_and!; [done|lia|].
      intros j Hj. destruct (decide (j = next)) as [->|]; [by left|]. right. apply Hin. lia.
    + exists next. split_and!; [done|lia|lia].
Qed.

(** The connection has handed on [d] packets, numbered from [n0]; [ns] are the
    numbers that wait.  Everything from the first one missing up to the next
    number expected waits, and nothing below it. *)
Record od_queued (n0 d next : Z) (q : list tuple) (ns : list Z) : Prop := mkODQueued {
  oq_packets : Forall2 packet q ns;
  oq_sorted : sorted ns;
  oq_low : Forall (fun n => n0 + d <= n) ns;
  oq_next : n0 + d <= next;
  oq_dense : forall j, n0 + d <= j < next -> j ∈ ns
}.

(** The packet at the front goes out only when it is the first one missing. *)
Lemma od_front n0 d next t q n ns : od_queued n0 d next (t :: q) (n :: ns) -> n <= next -> n = n0 + d.
Proof.
  intros [_ Hs Hl Hn Hd] Hle. inversion_clear Hl as [|? ? Hge _].
  apply StronglySorted_inv in Hs as [_ Hgt]. rewrite Forall_forall in Hgt.
  destruct (decide (n = n0 + d)); [done|].
  assert (Hin : n0 + d ∈ n :: ns) by (apply Hd; lia).
  apply elem_of_cons in Hin as [|Hin]; [lia|]. apply Hgt in Hin. lia.
Qed.

Lemma od_flush_numbers ans k out_on tcb n0 d next touched q ns : od_queued n0 d next q ns ->
  exists sent acts out_on' tcb' next' q' ns' e,
    od_flush ans k out_on tcb next touched q = Ok (sent, acts, out_on', mkOD touched tcb' next' q')
    /\ Forall2 packet sent (seqZ (n0 + d) e) /\ 0 <= e /\ od_queued n0 (d + e) next' q' ns'
    /\ (forall j, n0 + d + e <= j -> j ∈ ns -> j ∈ ns')
    /\ (forall j, (j ∈ ns' \/ n0 + d <= j < n0 + d + e) -> j ∈ ns)
    /\ (out_on' = true -> n0 + d + e ∉ ns).
Proof.
  revert k out_on tcb d next ns. induction q as [|t q IH]; intros k out_on tcb d next ns HQ.
  { pose proof HQ as [Hp Hs Hl Hn Hd]. inversion Hp; subst.
    exists [], [], out_on, tcb, next, [], [], 0. rewrite !Z.add_0_r. split_and!; try done.
    - intros j [|]; [done|lia].
    - intros _. apply not_elem_of_nil. }
  pose proof HQ as [Hp Hs Hl Hn Hd]. inversion Hp as [|? n ? ns0 Hpk Hp0]; subst. cbn [od_flush].
  assert (Hstay : exists ns' e, Forall2 packet [] (seqZ (n0 + d) e) /\ 0 <= e
    /\ od_queued n0 (d + e) next (t :: q) ns' /\ (forall j, n0 + d + e <= j -> j ∈ n :: ns0 -> j ∈ ns')
    /\ (forall j, (j ∈ ns' \/ n0 + d <= j < n0 + d + e) -> j ∈ n :: ns0)
    /\ ns' = n :: ns0 /\ e = 0).
  { exists (n :: ns0), 0. rewrite !Z.add_0_r. split_and!; try done. intros j [|]; [done|lia]. }
  destruct Hstay as (ns' & e & S1 & S2 & S3 & S4 & S5 & S6 & S7).
  destruct out_on; cbn [negb].
  2: { exists [], [], false, tcb, next, (t :: q), ns', e. split_and!; try done. }
  destruct Hpk as (Hseq & [src Hsrc] & v & dd & Hv & Hdd & Hdel). rewrite Hsrc, Hseq, Hv. cbn [rbind].
  rewrite Hdd. cbn [rbind]. destruct (Z.leb_spec n next) as [Hle|Hgt].
  - pose proof (od_front _ _ _ _ _ _ _ HQ Hle) as ->.
    set (next1 := if n0 + d =? next then next + 1 else next).
    assert (HQ1 : od_queued n0 (d + 1) next1 q ns0).
    { apply StronglySorted_inv in Hs as [Hs1 Hgt]. rewrite Forall_forall in Hgt.
      split; [done|done| | |].
      - apply Forall_forall. intros j Hj. apply Hgt in Hj. lia.
      - unfold next1. destruct (Z.eqb_spec (n0 + d) next); lia.
      - intros j Hj. unfold next1 in Hj. destruct (Z.eqb_spec (n0 + d) next); [lia|].
        assert (Hin : j ∈ n0 + d :: ns0) by (apply Hd; lia). apply elem_of_cons in Hin as [|]; [lia|done]. }
    destruct (IH (S k) (negb (ans k =? 0)) false _ _ _ HQ1)
      as (sent & acts & o & tc & nx & q' & ns'' & e' & Hf & H1 & H2 & H3 & H4 & H5 & H6).
    rewrite Hf. cbn [rbind].
    exists (t :: sent), ((if tcb then [CancelTimer src] else []) ++ acts), o, tc, nx, q', ns'', (e' + 1).
    replace (d + (e' + 1)) with (d + 1 + e') by lia.
    split_and!; try done; try lia.
    + rewrite seqZ_cons by lia. constructor.
      * split_and!; eauto 6.
      * replace (Z.succ (n0 + d)) with (n0 + (d + 1)) by lia.
        by replace (Z.pred (e' + 1)) with e' by lia.
    + intros j Hj Hin. apply H4; [lia|]. apply elem_of_cons in Hin as [->|]; [lia|done].
    + intros j [Hj|Hj]; [right; apply H5; by left|].
      destruct (decide (j = n0 + d)) as [->|]; [by left|]. right. apply H5. right. lia.
    + intros Ho. rewrite not_elem_of_cons. split; [lia|].
      replace (n0 + d + (e' + 1)) with (n0 + (d + 1) + e') by lia. auto.
  - assert (Hhole : n0 + d + e ∉ n :: ns0).
    { rewrite S7, Z.add_0_r. apply StronglySorted_inv in Hs as [_ Hs]. rewrite Forall_forall in Hs.
      intros Hin. apply elem_of_cons in Hin as [E|Hin]; [lia|]. apply Hs in Hin. lia. }
    destruct tcb; cbn [negb]; rewrite ?Hdel; cbn [rbind]; do 8 eexists; split_and!; try done.
Qed.

Section od_one.
Context (stale_end : list tuple -> bool) (Hstale : forall q, stale_end q = false).

Lemma od_insert_numbers n0 d tp seq c ns :
  od_queued n0 d (od_next_seq c) (od_queue c) ns -> packet tp seq -> od_next_seq c <= seq ->
  exists c' ns', ODConnection_insert stale_end tp c = Ok c' /\ od_queued n0 d (od_next_seq c') (od_queue c') ns'
    /\ (forall j, j ∈ ns' <-> j = seq \/ j ∈ ns).
Proof.
  intros [Hp Hs Hl Hn Hd] Ht Hge. unfold ODConnection_insert. pose proof Ht as [-> _]. cbn [rbind].
  assert (Hplace : exists r, (if (length (od_queue c) =? 0)%nat && (od_next_seq c <=? seq) then Ok (Some ([tp], false))
      else od_place seq tp (od_queue c)) = Ok r
    /\ match queue_insert seq ns with
       | None => r = None
       | Some ns' => exists q' b, r = Some (q', b) /\ Forall2 packet q' ns'
       end).
  { destruct (_ && _) eqn:E; [|by apply od_place_numbers].
    destruct Hp; [|done]. eexists. split; [done|]. cbn [queue_insert].
    do 2 eexists. split; [done|]. by constructor; [|constructor]. }
  destruct Hplace as (r & -> & Hr). cbn [rbind]. pose proof (queue_insert_spec seq ns Hs) as Hi.
  destruct (queue_insert seq ns) as [ns'|].
  - destruct Hr as (q' & b & -> & Hq'). destruct Hi as (Hs' & _ & Hin). rewrite Hstale, andb_false_r.
    destruct (od_advance_numbers (od_next_seq c) q' ns' Hq' Hs') as (next' & -> & Hle & Hin').
    cbn [rbind]. eexists _, ns'. split; [done|]. split; [|done]. split; cbn; [done|done| |lia|].
    + apply Forall_forall. intros j Hj. rewrite Forall_forall in Hl.
      apply Hin in Hj as [->|Hj]; [lia|auto].
    + intros j Hj. destruct (Z.lt_ge_cases j (od_next_seq c)); [|apply Hin'; lia].
      apply Hin. right. apply Hd. lia.
  - rewrite Hr. exists c, ns. split; [done|]. split; [done|]. intros j. split; [tauto|].
    intros [->|]; done.
Qed.

(** ** One connection over time *)

(** What [ODelivery::push] does to the record of the sender that it has found or
    made ([odelivery_push_correct] below). *)
Definition od_arrive (now : Z) (ans : nat -> Z) (tp : tuple) (out_on : bool) (c : ODConnection)
    : res (list tuple * list timer_action * bool * ODConnection) :=
  let? seq := int_field tp SEQ in
  if seq <? od_next_seq c then Ok ([], [], out_on, c)
  else
    let? c := ODConnection_insert stale_end tp (ODConnection_touch now c) in
    if out_on then ODelivery_flush ans 0 out_on c else Ok ([], [], out_on, c).

(** The invariant: of the numbers [seen], those from [n0] on are handed on or
    wait, and the first one missing is not among them while the output is on. *)
Record od_inv (n0 d : Z) (seen : Z -> Prop) (out_on : bool) (c : ODConnection) : Prop := mkODInv {
  oi_queued : exists ns, od_queued n0 d (od_next_seq c) (od_queue c) ns
    /\ (forall j, j ∈ ns -> seen j) /\ (forall j, seen j -> n0 + d <= j -> j ∈ ns);
  oi_sent : forall j, n0 <= j < n0 + d -> seen j;
  oi_hole : out_on = true -> ~ seen (n0 + d)
}.

Lemma od_flush_inv ans k n0 d (seen : Z -> Prop) out_on c ns :
  od_queued n0 d (od_next_seq c) (od_queue c) ns ->
  (forall j, j ∈ ns -> seen j) -> (forall j, seen j -> n0 + d <= j -> j ∈ ns) ->
  (forall j, n0 <= j < n0 + d -> seen j) ->
  exists sent acts o c' e, ODelivery_flush ans k out_on c = Ok (sent, acts, o, c')
    /\ 0 <= e /\ Forall2 packet sent (seqZ (n0 + d) e) /\ od_inv n0 (d + e) seen o c'.
Proof.
  intros HQ H1 H2 H3. unfold ODelivery_flush.
  destruct (od_flush_numbers ans k out_on (od_tcb c) n0 d _ (od_touched c) _ ns HQ)
    as (sent & acts & o & tc & nx & q' & ns' & e & -> & F1 & F2 & F3 & F4 & F5 & F6).
  exists sent, acts, o, (mkOD (od_touched c) tc nx q'), e. split_and!; [done|done|done|].
  split; cbn.
  - exists ns'. split_and!; [done| |].
    + intros j Hj. apply H1, F5. by left.
    + intros j Hj Hge. apply F4; [lia|]. apply H2; [done|lia].
  - intros j Hj. destruct (Z.lt_ge_cases j (n0 + d)); [apply H3; lia|]. apply H1, F5. right. lia.
  - intros Ho Hs. apply (F6 Ho). replace (n0 + d + e) with (n0 + (d + e)) by lia.
    apply H2; [done|lia].
Qed.

Lemma od_inv_ext n0 d P Q out_on c : (forall j, P j <-> Q j) -> od_inv n0 d P out_on c -> od_inv n0 d Q out_on c.
Proof.
  intros E [(ns & H1 & H2 & H3) H4 H5]. split; [exists ns; split_and!; [done| |]| |].
  - intros j Hj. apply E. auto.
  - intros j Hj. apply E in Hj. auto.
  - intros j Hj. apply E. auto.
  - intros Ho Hj. apply E in Hj. by apply H5.
Qed.

Lemma od_arrive_inv now ans n0 d (seen : Z -> Prop) out_on c tp seq :
  od_inv n0 d seen out_on c -> packet tp seq ->
  exists sent acts o c' e, od_arrive now ans tp out_on c = Ok (sent, acts, o, c')
    /\ 0 <= e /\ Forall2 packet sent (seqZ (n0 + d) e)
    /\ od_inv n0 (d + e) (fun j => seen j \/ j = seq) o c'.
Proof.
  intros [(ns & HQ & H2 & H3) H4 H5] Ht. unfold od_arrive. pose proof Ht as [-> _]. cbn [rbind].
  destruct (Z.ltb_spec seq (od_next_seq c)) as [Hlt|Hge].
  { exists [], [], out_on, c, 0. rewrite Z.add_0_r. split_and!; [done|done|done|].
    pose proof HQ as [_ _ _ _ D0]. split.
    - exists ns. split_and!; [done|auto|]. intros j [Hj| ->] Hj'; [auto|]. apply D0. lia.
    - auto.
    - intros Ho [Hj|Hj]; [by apply H5|]. apply H5, H2, D0; [done|]. lia. }
  assert (Hins : forall j, n0 <= j < n0 + d -> seen j \/ j = seq) by auto.
  destruct (od_insert_numbers n0 d tp seq (ODConnection_touch now c) ns HQ Ht Hge)
    as (c1 & ns1 & -> & HQ1 & Hin). cbn [rbind].
  assert (K1 : forall j, j ∈ ns1 -> seen j \/ j = seq).
  { intros j Hj. apply Hin in Hj as [->|Hj]; auto. }
  assert (K2 : forall j, seen j \/ j = seq -> n0 + d <= j -> j ∈ ns1).
  { intros j [Hj| ->] Hj'; apply Hin; auto. }
  destruct out_on.
  - exact (od_flush_inv ans 0 n0 d _ true c1 ns1 HQ1 K1 K2 Hins).
  - exists [], [], false, c1, 0. rewrite Z.add_0_r. split_and!; [done|done|done|].
    split; [by exists ns1|done|done].
Qed.

(** ** The elements *)

Lemma update_same {C} src (c : C) m : lookup_ src m = Some c -> update src c m = m.
Proof.
  unfold lookup_, update. destruct (c_find src m) as [i|]; [|done]. intros H.
  destruct (m !! i) as [[k c']|] eqn:E; [|done]. cbn in H. simplify_eq.
  apply list_eq. intros j. destruct (decide (i = j)) as [->|Hne].
  - rewrite list_lookup_alter, decide_True by done. by rewrite E.
  - by rewrite list_lookup_alter_ne.
Qed.

(** [ODelivery::push] treats a packet by the record of its sender - a fresh one
    for a new sender or a cumulative number of zero - and leaves the records of
    all other senders alone. *)
Theorem odelivery_push_correct (now : Z) (ans : nat -> Z) (tp : tuple) (E : ODelivery) (src : value)
    (seq cseq : Z) :
  cwf (od_cmap E) -> plainP src -> Tuple_at tp SRC = Ok src ->
  int_field tp SEQ = Ok seq -> int_field tp CUMSEQ = Ok cseq -> u32 cseq <= seq ->
  let old := record_for (ODConnection_mk now cseq) (cseq =? 0) src (od_cmap E) in
  forall sent acts out_on new,
    od_arrive now ans tp (od_out_on E) old = Ok (sent, acts, out_on, new) ->
    exists E', ODelivery_push stale_end now ans 0 tp E = Ok (sent, acts, Z.b2z out_on, E')
    /\ od_out_on E' = out_on /\ cwf (od_cmap E') /\ lookup_ src (od_cmap E') = Some new
    /\ forall o, plainP o -> equivb value_lt src o = false ->
         lookup_ o (od_cmap E') = lookup_ o (od_cmap E).
Proof.
  intros Hm Ps H1 H2 H3 Hc old sent acts out_on new Ha.
  pose proof (acquire_ok (fun _ => false) (ODConnection_mk now cseq) (cseq =? 0) src _ Hm Ps) as Hq.
  unfold od_arrive in Ha. unfold ODelivery_push. rewrite H1, H2, H3. rewrite H2 in Ha.
  cbn [check Nat.eqb rbind] in *. unfold acquire in Hq. unfold old, record_for in Ha.
  assert (Hsettle : forall c m, is_Some (lookup_ src m) -> cwf m ->
    (if od_out_on E then ODelivery_flush ans 0 (od_out_on E) c else Ok ([], [], od_out_on E, c))
      = Ok (sent, acts, out_on, new) ->
    od_settle ans src c (od_out_on E) m = Ok (sent, acts, Z.b2z out_on, mkODelivery out_on (update src new m))).
  { intros c m Hl Hw. unfold od_settle. destruct (od_out_on E); [|by intros [= <- <- <- <-]].
    intros ->. done. }
  assert (Hend : forall m, cwf m -> is_Some (lookup_ src m) ->
    (forall o, plainP o -> equivb value_lt src o = false -> lookup_ o m = lookup_ o (od_cmap E)) ->
    cwf (update src new m) /\ lookup_ src (update src new m) = Some new
    /\ forall o, plainP o -> equivb value_lt src o = false ->
         lookup_ o (update src new m) = lookup_ o (od_cmap E)).
  { intros m Hw Hl Ho. split_and!; [by apply cwf_update|by apply lookup_update|].
    intros o Po Hne. rewrite lookup_update_ne by done. auto. }
  assert (Hfresh : forall m, cwf m -> is_Some (lookup_ src m) ->
    (forall o, plainP o -> equivb value_lt src o = false -> lookup_ o m = lookup_ o (od_cmap E)) ->
    (if seq <? od_next_seq (ODConnection_mk now cseq) then Ok ([], [], od_out_on E, ODConnection_mk now cseq)
     else let? c := ODConnection_insert stale_end tp (ODConnection_touch now (ODConnection_mk now cseq)) in
          if od_out_on E then ODelivery_flush ans 0 (od_out_on E) c else Ok ([], [], od_out_on E, c))
      = Ok (sent, acts, out_on, new) ->
    exists E', (let? c := ODConnection_insert stale_end tp (ODConnection_mk now cseq) in
                od_settle ans src c (od_out_on E) m) = Ok (sent, acts, Z.b2z out_on, E')
    /\ od_out_on E' = out_on /\ cwf (od_cmap E') /\ lookup_ src (od_cmap E') = Some new
    /\ forall o, plainP o -> equivb value_lt src o = false ->
         lookup_ o (od_cmap E') = lookup_ o (od_cmap E)).
  { intros m Hw Hl Ho Hr.
    change (od_next_seq (ODConnection_mk now cseq)) with (u32 cseq) in Hr.
    destruct (Z.ltb_spec seq (u32 cseq)) as [|_]; [lia|].
    change (ODConnection_touch now (ODConnection_mk now cseq)) with (ODConnection_mk now cseq) in Hr.
    destruct (ODConnection_insert stale_end tp (ODConnection_mk now cseq)) as [c|f]; [|done]. cbn [rbind] in *.
    rewrite (Hsettle c m Hl Hw Hr). eexists. split; [done|]. split; [done|]. by apply Hend. }
  destruct (lookup_ src (od_cmap E)) as [c|] eqn:El; [destruct (cseq =? 0)|].
  - destruct Hq as (_ & Hw & Hl & Ho). apply Hfresh; eauto.
  - destruct (seq <? od_next_seq c).
    + injection Ha as <- <- <- <-. eexists. split; [done|]. cbn. split_and!; auto.
    + destruct (ODConnection_insert stale_end tp (ODConnection_touch now c)) as [c1|f]; [|done]. cbn [rbind] in *.
      rewrite (Hsettle c1 _ (mk_is_Some _ _ El) Hm Ha). eexists. split; [done|]. split; [done|].
      apply Hend; [done| |done]. by rewrite El.
  - destruct Hq as (_ & Hw & Hl & Ho). apply Hfresh; eauto.
Qed.

(** ** Order, whatever timers do *)

(** The connection has handed on the numbers [ms]; what waits is larger, and so is
    the number it expects. *)
Record od_order (ms : list Z) (seen : Z -> Prop) (c : ODConnection) : Prop := mkODOrder {
  oo_sorted : sorted ms;
  oo_next : Forall (fun m => m < od_next_seq c) ms;
  oo_seen : Forall seen ms;
  oo_queue : exists ns, Forall2 packet (od_queue c) ns /\ sorted ns /\ Forall seen ns
    /\ forall m n, m ∈ ms -> n ∈ ns -> m < n
}.

Lemma od_order_mono ms (P Q : Z -> Prop) c : (forall j, P j -> Q j) -> od_order ms P c -> od_order ms Q c.
Proof.
  intros H [H1 H2 H3 (ns & H4 & H5 & H6 & H7)]. split; [done|done|by eapply Forall_impl|].
  exists ns. split_and!; [done|done|by eapply Forall_impl|done].
Qed.

Lemma od_flush_order ans seen touched : forall q k out_on tcb next ms,
  od_order ms seen (mkOD touched tcb next q) ->
  exists sent acts o c' es, od_flush ans k out_on tcb next touched q = Ok (sent, acts, o, c')
    /\ sent ++ od_queue c' = q /\ Forall2 packet sent es /\ od_order (ms ++ es) seen c'.
Proof.
  induction q as [|t q IH]; intros k out_on tcb next ms HO.
  { exists [], [], out_on, (mkOD touched tcb next []), []. rewrite (app_nil_r ms). split_and!; [done|done|constructor|done]. }
  assert (Hstay : forall (acts : list timer_action) tcb', exists sent acts' o c' es,
    Ok ([] : list tuple, acts, out_on, mkOD touched tcb' next (t :: q)) = Ok (sent, acts', o, c')
    /\ sent ++ od_queue c' = t :: q /\ Forall2 packet sent es /\ od_order (ms ++ es) seen c').
  { intros acts tcb'. exists [], acts, out_on, (mkOD touched tcb' next (t :: q)), []. rewrite (app_nil_r ms).
    split_and!; [done|done|constructor|]. destruct HO. by split. }
  pose proof HO as [Hs Hn Hse (ns & Hp & Hns & Hnse & Hlt)]. cbn in Hp, Hn.
  apply Forall2_cons_inv_l in Hp as (n & ns0 & Hpk & Hp & ->). cbn [od_flush].
  destruct out_on; cbn [negb]; [|apply Hstay].
  pose proof Hpk as (Hseq & [src Hsrc] & v & dd & Hv & Hdd & Hdel). rewrite Hsrc, Hseq, Hv. cbn [rbind].
  rewrite Hdd. cbn [rbind]. destruct (Z.leb_spec n next) as [Hle|Hgt].
  - set (next1 := if n =? next then next + 1 else next).
    assert (Hn1 : n < next1 /\ next <= next1) by (unfold next1; destruct (Z.eqb_spec n next); lia).
    apply StronglySorted_inv in Hns as [Hns Hnlt]. apply Forall_cons in Hnse as [Hsn Hnse]. rewrite Forall_forall in Hnlt.
    assert (HO1 : od_order (ms ++ [n]) seen (mkOD touched false next1 q)).
    { split; cbn.
      - apply StronglySorted_app_2; [|done|repeat constructor]. intros a b Ha ->%list_elem_of_singleton. apply Hlt; set_solver.
      - apply Forall_app. split; [eapply Forall_impl; [exact Hn|]; cbn; lia|]. apply Forall_singleton. lia.
      - apply Forall_app. split; [done|]. by apply Forall_singleton.
      - exists ns0. split_and!; [done|done|done|]. intros m b [Hm| ->%list_elem_of_singleton]%elem_of_app Hb; [apply Hlt; set_solver|].
        by apply Hnlt. }
    destruct (IH (S k) (negb (ans k =? 0)) false next1 _ HO1) as (sent & acts & o & c' & es & -> & E & H1 & H2).
    cbn [rbind]. eexists (t :: sent), _, o, c', (n :: es). rewrite <- app_assoc in H2.
    split_and!; [done|cbn; by rewrite E|by constructor|done].
  - destruct tcb; cbn [negb]; rewrite ?Hdel; cbn [rbind]; apply Hstay.
Qed.

Lemma od_insert_order ms seen tp seq c : od_order ms seen c -> packet tp seq -> od_next_seq c <= seq ->
  exists c', ODConnection_insert stale_end tp c = Ok c' /\ od_order ms (fun j => seen j \/ j = seq) c'.
Proof.
  intros [Hs Hn Hse (ns & Hp & Hns & Hnse & Hlt)] Ht Hge.
  unfold ODConnection_insert. pose proof Ht as [-> _]. cbn [rbind].
  assert (Hplace : exists r, (if (length (od_queue c) =? 0)%nat && (od_next_seq c <=? seq) then Ok (Some ([tp], false))
      else od_place seq tp (od_queue c)) = Ok r
    /\ match queue_insert seq ns with
       | None => r = None
       | Some ns' => exists q' b, r = Some (q', b) /\ Forall2 packet q' ns'
       end).
  { destruct (_ && _) eqn:E; [|by apply od_place_numbers].
    destruct Hp; [|done]. eexists. split; [done|]. cbn [queue_insert].
    do 2 eexists. split; [done|]. by constructor; [|constructor]. }
  destruct Hplace as (r & -> & Hr). cbn [rbind]. pose proof (queue_insert_spec seq ns Hns) as Hi.
  rewrite Forall_forall in Hn, Hse, Hnse.
  destruct (queue_insert seq ns) as [ns'|].
  - destruct Hr as (q' & b & -> & Hq'). destruct Hi as (Hs' & _ & Hin). rewrite Hstale, andb_false_r.
    destruct (od_advance_numbers (od_next_seq c) q' ns' Hq' Hs') as (next' & -> & Hle & _).
    cbn [rbind]. eexists. split; [done|]. split; cbn; [done|apply Forall_forall; intros m Hm; specialize (Hn m Hm); lia|..].
    + apply Forall_forall. auto.
    + exists ns'. split_and!; [done|done| |].
      * apply Forall_forall. intros j Hj. apply Hin in Hj as [->|Hj]; auto.
      * intros m n Hm Hj. apply Hin in Hj as [->|Hj]; [specialize (Hn m Hm); lia|auto].
  - rewrite Hr. exists c. split; [done|]. split; [done|by apply Forall_forall|apply Forall_forall; auto|].
    exists ns. split_and!; [done|done|apply Forall_forall; auto|done].
Qed.

(** What waits are the packets that waited and the new one. *)
Lemma od_place_elems seq tp q r : od_place seq tp q = Ok r -> forall (Q : tuple -> Prop), Forall Q q -> Q tp ->
  match r with Some (q', _) => Forall Q q' | None => True end.
Proof.
  revert r. induction q as [|t q IH]; intros r; cbn [od_place].
  { intros [= <-] Q _ Ht. by constructor. }
  destruct (int_field t SEQ) as [n|]; cbn [rbind]; [|done]. destruct (seq =? n); [by intros [= <-]|].
  destruct (seq <? n); [intros [= <-] Q HQ Ht; by constructor|].
  destruct (od_place seq tp q) as [r'|] eqn:E; cbn [rbind]; [|done]. intros [= <-] Q HQ Ht.
  apply Forall_cons in HQ as [H1 H2]. specialize (IH _ eq_refl Q H2 Ht). destruct r' as [[q' b]|]; cbn; [by constructor|done].
Qed.
Lemma od_insert_elems tp c c' (Q : tuple -> Prop) : ODConnection_insert stale_end tp c = Ok c' ->
  Forall Q (od_queue c) -> Q tp -> Forall Q (od_queue c').
Proof.
  unfold ODConnection_insert. destruct (int_field tp SEQ) as [seq|]; cbn [rbind]; [|done].
  set (placed := if (length (od_queue c) =? 0)%nat && (od_next_seq c <=? seq) then Ok (Some ([tp], false)) else od_place seq tp (od_queue c)).
  assert (Hpl : forall q b, placed = Ok (Some (q, b)) -> Forall Q (od_queue c) -> Q tp -> Forall Q q).
  { intros q b. unfold placed. destruct (_ && _); [intros [= <- _] _ Ht; by constructor|].
    intros E HQ Ht. exact (od_place_elems _ _ _ _ E Q HQ Ht). }
  clearbody placed. destruct placed as [[[q b]|]|]; cbn [rbind]; [|by intros [= <-]|done].
  rewrite Hstale, andb_false_r. destruct (od_advance _ _); cbn [rbind]; [|done]. intros [= <-] HQ Ht. by apply (Hpl q b).
Qed.

(** ** One sender among others *)

Abbreviation peer a b := (equivb value_lt a b).

(** The packet [t] is of the sender [s]. *)
Definition sent_by (s : value) (t : tuple) : bool :=
  match Tuple_at t SRC with Ok src => peer s src | Fail _ => false end.
Definition has_sender (t : tuple) : Prop := exists src, Tuple_at t SRC = Ok src /\ plainP src.
Definition numbers (s : value) (l : list tuple) : list Z :=
  omap (fun t => if sent_by s t then match int_field t SEQ with Ok n => Some n | Fail _ => None end else None) l.

Lemma sent_by_peer s o t : plainP s -> plainP o -> has_sender t -> sent_by o t = true -> sent_by s t = peer s o.
Proof.
  intros Ps Po (src & Hsrc & Psrc). unfold sent_by. rewrite Hsrc. intros Ho.
  destruct (peer s o) eqn:E.
  - by apply (equivb_trans value_lt plainP s o src).
  - destruct (peer s src) eqn:E'; [|done]. rewrite equivb_sym in Ho.
    by rewrite (equivb_trans value_lt plainP s src o) in E.
Qed.

Lemma numbers_of s sent es : Forall (fun t => sent_by s t = true) sent -> Forall2 packet sent es -> numbers s sent = es.
Proof.
  intros HF H. induction H as [|t n sent es [Hn _] H IH]; [done|]. apply Forall_cons in HF as [H1 H2].
  cbn. rewrite H1, Hn. f_equal. by apply IH.
Qed.
Lemma numbers_none s sent : Forall (fun t => sent_by s t = false) sent -> numbers s sent = [].
Proof. induction 1 as [|t l Ht _ IH]; [done|]. cbn. by rewrite Ht. Qed.
Lemma numbers_app s l l' : numbers s (l ++ l') = numbers s l ++ numbers s l'.
Proof. apply omap_app. Qed.

(** The record of a sender: its packets are in order and its own. *)
Record rec_ok (o : value) (c : ODConnection) : Prop := mkRecOk {
  rk_order : exists ms, od_order ms (fun _ => True) c;
  rk_own : Forall (fun t => has_sender t /\ sent_by o t = true) (od_queue c)
}.

(** The record of the sender looked at: while none of its timers has fired the
    numbers are consecutive. *)
Record sender_inv (n0 : Z) (ms : list Z) (seen : Z -> Prop) (fired out_on : bool) (c : ODConnection) : Prop := mkSenderInv {
  si_order : od_order ms seen c;
  si_dense : fired = false -> exists d, 0 <= d /\ ms = seqZ n0 d /\ od_inv n0 d seen out_on c
}.

Lemma packets_unique sent es es' : Forall2 packet sent es -> Forall2 packet sent es' -> es = es'.
Proof.
  intros H. revert es'. induction H as [|t n sent es [Hn _] H IH]; intros es' H'; inversion H' as [|? n' ? es0 [Hn' _] H0]; subst; [done|].
  f_equal; [congruence|by apply IH].
Qed.

Lemma seqZ_more n0 d e : 0 <= d -> 0 <= e -> seqZ n0 d ++ seqZ (n0 + d) e = seqZ n0 (d + e).
Proof. intros. by rewrite <- seqZ_app. Qed.

Lemma flush_sender ans k out_on o0 n0 ms seen fired c : sender_inv n0 ms seen fired o0 c ->
  exists sent acts o c' es, ODelivery_flush ans k out_on c = Ok (sent, acts, o, c')
    /\ sent ++ od_queue c' = od_queue c /\ Forall2 packet sent es /\ sender_inv n0 (ms ++ es) seen fired o c'.
Proof.
  intros [HO HD]. destruct c as [touched tcb next q].
  destruct (od_flush_order ans seen touched q k out_on tcb next ms HO) as (sent & acts & o & c' & es & E & Hq & Hes & HO').
  exists sent, acts, o, c', es. split_and!; [exact E|exact Hq|exact Hes|]. split; [exact HO'|].
  intros Hf. destruct (HD Hf) as (d & Hd & -> & [(ns & HQ & H2 & H3) H4 H5]).
  destruct (od_flush_inv ans k n0 d seen out_on (mkOD touched tcb next q) ns HQ H2 H3 H4) as (sent' & acts' & o' & c2 & e & E' & He & Hes' & HI).
  unfold ODelivery_flush in E'. cbn in E'. rewrite E in E'. injection E' as <- <- <- <-.
  exists (d + e). split_and!; [lia| |exact HI]. rewrite (packets_unique _ _ _ Hes Hes'). by apply seqZ_more.
Qed.

Lemma arrive_sender now ans n0 ms seen fired out_on c tp seq : sender_inv n0 ms seen fired out_on c -> packet tp seq ->
  exists sent acts o c' es, od_arrive now ans tp out_on c = Ok (sent, acts, o, c')
    /\ (forall Q : tuple -> Prop, Forall Q (od_queue c) -> Q tp -> Forall Q sent /\ Forall Q (od_queue c'))
    /\ Forall2 packet sent es /\ sender_inv n0 (ms ++ es) (fun j => seen j \/ j = seq) fired o c'.
Proof.
  intros [HO HD] Ht.
  assert (Hord : exists sent acts o c' es, od_arrive now ans tp out_on c = Ok (sent, acts, o, c')
    /\ (forall Q : tuple -> Prop, Forall Q (od_queue c) -> Q tp -> Forall Q sent /\ Forall Q (od_queue c'))
    /\ Forall2 packet sent es /\ od_order (ms ++ es) (fun j => seen j \/ j = seq) c').
  { unfold od_arrive. pose proof Ht as [-> _]. cbn [rbind]. destruct (Z.ltb_spec seq (od_next_seq c)) as [|Hge].
    - exists [], [], out_on, c, []. rewrite (app_nil_r ms). split_and!; [done|by intros Q HQ _; split|constructor|].
      eapply od_order_mono; [|exact HO]. auto.
    - assert (HO1 : od_order ms seen (ODConnection_touch now c)) by (destruct HO; by split).
      destruct (od_insert_order ms seen tp seq _ HO1 Ht Hge) as (c1 & E1 & HO2). rewrite E1. cbn [rbind].
      assert (Hel : forall Q : tuple -> Prop, Forall Q (od_queue c) -> Q tp -> Forall Q (od_queue c1))
        by (intros Q HQ Hq; by apply (od_insert_elems _ _ _ Q E1)).
      destruct out_on.
      + destruct c1 as [touched tcb next q]. unfold ODelivery_flush. cbn.
        destruct (od_flush_order ans _ touched q 0 true tcb next ms HO2) as (sent & acts & o & c' & es & E & Hq & Hes & HO').
        exists sent, acts, o, c', es. split_and!; [exact E| |exact Hes|exact HO'].
        intros Q HQ HQt. apply Forall_app. rewrite Hq. by apply (Hel Q).
      + exists [], [], false, c1, []. rewrite (app_nil_r ms). split_and!; [done| |constructor|done].
        intros Q HQ HQt. split; [constructor|]. by apply (Hel Q). }
  destruct Hord as (sent & acts & o & c' & es & E & Hel & Hes & HO').
  exists sent, acts, o, c', es. split_and!; [exact E|exact Hel|exact Hes|]. split; [exact HO'|].
  intros Hf. destruct (HD Hf) as (d & Hd & -> & HI).
  destruct (od_arrive_inv now ans n0 d seen out_on c tp seq HI Ht) as (sent' & acts' & o' & c2 & e & E' & He & Hes' & HI').
  rewrite E in E'. injection E' as <- <- <- <-. exists (d + e). split_and!; [lia| |exact HI'].
  rewrite (packets_unique _ _ _ Hes Hes'). by apply seqZ_more.
Qed.

(** *** Runs of the element *)

(** A packet arrives; the output calls back; the timer of a sender fires, which it
    does only while it is armed. *)
Inductive od_event :=
  | OPush (now : Z) (ans : nat -> Z) (tp : tuple)
  | OWake (ans : nat -> Z)
  | OTimer (now : Z) (ans : nat -> Z) (src : value).

Definition od_step (e : od_event) (E : ODelivery) : res (list tuple * ODelivery) :=
  match e with
  | OPush now ans tp => let? (sent, _, _, E) := ODelivery_push stale_end now ans 0 tp E in Ok (sent, E)
  | OWake ans => let? (sent, _, E) := ODelivery_out_cb ans E in Ok (sent, E)
  | OTimer now ans src =>
      match lookup_ src (od_cmap E) with
      | Some c => if od_tcb c then let? (sent, _, E) := flushConnectionQ now ans src E in Ok (sent, E) else Ok ([], E)
      | None => Ok ([], E)
      end
  end.
Fixpoint od_run (es : list od_event) (E : ODelivery) : res (list tuple * ODelivery) :=
  match es with
  | [] => Ok ([], E)
  | e :: es' =>
      let? (sent, E) := od_step e E in
      let? (sent', E) := od_run es' E in
      Ok (sent ++ sent', E)
  end.

Definition pushed_by (e : od_event) : list tuple := match e with OPush _ _ tp => [tp] | _ => [] end.
Definition packets (es : list od_event) : list tuple := es ≫= pushed_by.
Definition fires_for (s : value) (e : od_event) : bool := match e with OTimer _ _ src => peer s src | _ => false end.

(** What the code relies on of a packet: its fields can be read, and its number is
    not below its cumulative number. *)
Definition sane (tp : tuple) : Prop :=
  has_sender tp /\ exists seq cseq, packet tp seq /\ int_field tp CUMSEQ = Ok cseq /\ u32 cseq <= seq.

(** The sender [s] starts with the cumulative number [n0] and never goes back to 0. *)
Fixpoint steady (s : value) (known : bool) (n0 : Z) (l : list tuple) : Prop :=
  match l with
  | [] => True
  | t :: l' =>
      if sent_by s t then
        (if known then int_field t CUMSEQ <> Ok 0 else int_field t CUMSEQ = Ok n0) /\ steady s true n0 l'
      else steady s known n0 l'
  end.

Definition all_ok (E : ODelivery) : Prop :=
  cwf (od_cmap E) /\ forall o c, plainP o -> lookup_ o (od_cmap E) = Some c -> rec_ok o c.
Definition sender_ok (s : value) (n0 : Z) (ms : list Z) (seen : Z -> Prop) (fired : bool) (E : ODelivery) : Prop :=
  match lookup_ s (od_cmap E) with
  | Some c => sender_inv n0 ms seen fired (od_out_on E) c
  | None => ms = [] /\ forall j, ~ seen j
  end.

Lemma sender_inv_ext n0 ms (P Q : Z -> Prop) fired o c : (forall j, P j <-> Q j) -> sender_inv n0 ms P fired o c -> sender_inv n0 ms Q fired o c.
Proof.
  intros E [H1 H2]. split; [eapply od_order_mono; [|exact H1]; intros j; apply E|].
  intros Hf. destruct (H2 Hf) as (d & Hd & -> & HI). exists d. split_and!; [done|done|by eapply od_inv_ext].
Qed.
Lemma sender_inv_off n0 ms seen fired o c : sender_inv n0 ms seen fired o c -> sender_inv n0 ms seen fired false c.
Proof.
  intros [H1 H2]. split; [done|]. intros Hf. destruct (H2 Hf) as (d & Hd & -> & [I1 I2 _]). exists d. by split_and!.
Qed.
Lemma sender_inv_any n0 ms seen c : od_order ms seen c -> forall o, sender_inv n0 ms seen true o c.
Proof. intros H o. by split. Qed.

Lemma all_ok_elem E k c : all_ok E -> (k, c) ∈ od_cmap E -> plainP k /\ rec_ok k c.
Proof.
  intros [Hw H] Hin. assert (Pk : plainP k) by (destruct Hw as [HP _]; rewrite Forall_forall in HP; by apply (HP _ Hin)).
  split; [done|]. apply H; [done|]. apply lookup_iff; [done|done|]. exists k. split; [done|]. by apply (equivb_refl value_lt plainP).
Qed.

(** The packets of a record are of a sender, or not, as the record is. *)
Lemma own_numbers s o sent es : plainP s -> plainP o -> Forall (fun t => has_sender t /\ sent_by o t = true) sent ->
  Forall2 packet sent es -> numbers s sent = if peer s o then es else [].
Proof.
  intros Ps Po HF Hes.
  assert (H : Forall (fun t => sent_by s t = peer s o) sent)
    by (eapply Forall_impl; [exact HF|]; intros t [Ht Ho]; by apply sent_by_peer).
  destruct (peer s o); [by apply numbers_of|by apply numbers_none].
Qed.
Lemma rec_ok_peer s o c : plainP s -> plainP o -> peer o s = true -> rec_ok o c -> rec_ok s c.
Proof.
  intros Ps Po H [H1 H2]. split; [done|]. eapply Forall_impl; [exact H2|]. intros t [Ht Ho]. split; [done|].
  rewrite (sent_by_peer s o t) by done. by rewrite equivb_sym.
Qed.

Lemma fresh_order now cseq : od_order [] (fun _ => True) (ODConnection_mk now cseq).
Proof. split; [constructor..|]. exists []. split_and!; [constructor..|]. by intros ? ? ?%elem_of_nil. Qed.
Lemma fresh_sender now n0 fired o : is_u32 n0 -> sender_inv n0 [] (fun _ => False) fired o (ODConnection_mk now n0).
Proof.
  intros Hn. split.
  - split; [constructor..|]. exists []. split_and!; [constructor..|]. by intros ? ? ?%elem_of_nil.
  - intros _. exists 0. split_and!; [lia|done|]. split; cbn; [|lia|tauto]. exists [].
    split_and!; [|intros j Hj; by apply elem_of_nil in Hj|done].
    unfold ODConnection_mk. rewrite (u32_small n0 Hn). split; [constructor|constructor|constructor|cbn; lia|cbn; intros; lia].
Qed.

Lemma push_step s n0 ms seen fired now ans tp E : plainP s -> is_u32 n0 -> all_ok E -> sender_ok s n0 ms seen fired E -> sane tp ->
  (sent_by s tp = true -> match lookup_ s (od_cmap E) with Some _ => int_field tp CUMSEQ <> Ok 0 | None => int_field tp CUMSEQ = Ok n0 end) ->
  exists sent E', od_step (OPush now ans tp) E = Ok (sent, E') /\ all_ok E'
    /\ sender_ok s n0 (ms ++ numbers s sent) (fun j => seen j \/ j ∈ numbers s [tp]) fired E'
    /\ (sent_by s tp = true -> is_Some (lookup_ s (od_cmap E'))) /\ (sent_by s tp = false -> lookup_ s (od_cmap E') = lookup_ s (od_cmap E)).
Proof.
  intros Ps Hn0 [Hw Hall] Hs (Hsnd & seq & cseq & Hp & Hc & Hle) Hsteady.
  pose proof Hsnd as (src & Hsrc & Psrc). set (old := record_for (ODConnection_mk now cseq) (cseq =? 0) src (od_cmap E)).
  assert (Hsb : sent_by s tp = peer s src) by (unfold sent_by; by rewrite Hsrc).
  assert (Hown : sent_by src tp = true) by (unfold sent_by; rewrite Hsrc; by apply (equivb_refl value_lt plainP)).
  assert (Hnum : numbers s [tp] = if peer s src then [seq] else []).
  { cbn. rewrite Hsb. destruct Hp as [-> _]. by destruct (peer s src). }
  assert (Hold : Forall (fun t => has_sender t /\ sent_by src t = true) (od_queue old) /\ exists ms', od_order ms' (fun _ => True) old).
  { unfold old, record_for. destruct (lookup_ src (od_cmap E)) as [c|] eqn:El; [|by split; [constructor|exists []; apply fresh_order]].
    destruct (cseq =? 0); [by split; [constructor|exists []; apply fresh_order]|]. destruct (Hall src c Psrc El). done. }
  destruct Hold as [Hq (ms' & Hord)].
  destruct (arrive_sender now ans n0 ms' _ true (od_out_on E) old tp seq (sender_inv_any n0 ms' _ old Hord _) Hp)
    as (sent & acts & o & new & es & Ea & Hel & Hes & [Hord' _]).
  destruct (odelivery_push_correct now ans tp E src seq cseq Hw Psrc Hsrc (proj1 Hp) Hc Hle sent acts o new Ea)
    as (E' & Epush & Eo & Hw' & Hl' & Hothers).
  destruct (Hel _ Hq (conj Hsnd Hown)) as [Hsent Hq'].
  exists sent, E'. cbn [od_step]. rewrite Epush. cbn [rbind]. split; [done|].
  assert (Hrec : rec_ok src new) by (split; [exists (ms' ++ es); eapply od_order_mono; [|exact Hord']; auto|done]).
  assert (Hsame : forall o', plainP o' -> peer src o' = true -> lookup_ o' (od_cmap E') = Some new).
  { intros o' Po Hpe. apply lookup_iff; [done..|]. apply lookup_iff in Hl' as (k & Hk & Hpk); [|done..].
    exists k. split; [done|]. assert (Pk : plainP k) by (destruct Hw' as [HP _]; rewrite Forall_forall in HP; by apply (HP _ Hk)).
    rewrite equivb_sym in Hpe. by apply (equivb_trans value_lt plainP o' src k). }
  split; [split; [done|]; intros o' c Po Hlo; destruct (peer src o') eqn:Epe|].
  { rewrite (Hsame o' Po Epe) in Hlo. injection Hlo as <-. by apply (rec_ok_peer o' src). }
  { rewrite (Hothers o' Po Epe) in Hlo. by apply Hall. }
  rewrite Hnum, (own_numbers s src sent es Ps Psrc Hsent Hes), Hsb. rewrite Hsb in Hsteady. unfold sender_ok in *.
  destruct (peer s src) eqn:Epe.
  - assert (Epe' : peer src s = true) by (by rewrite equivb_sym). rewrite (Hsame s Ps Epe'). split; [|by split].
    specialize (Hsteady eq_refl).
    assert (Hls : lookup_ src (od_cmap E) = lookup_ s (od_cmap E)).
    { apply option_iff. intros a. rewrite !lookup_iff by done. split; intros (k & Hk & Hpk); exists k; (split; [done|]);
        assert (Pk : plainP k) by (destruct Hw as [HP _]; rewrite Forall_forall in HP; by apply (HP _ Hk));
        [by apply (equivb_trans value_lt plainP s src k)|by apply (equivb_trans value_lt plainP src s k)]. }
    assert (HI : sender_inv n0 ms seen fired (od_out_on E) old).
    { unfold old, record_for. rewrite Hls. destruct (lookup_ s (od_cmap E)) as [c|].
      - destruct (Z.eqb_spec cseq 0); [by subst|done].
      - destruct Hs as [-> Hno]. rewrite Hc in Hsteady. injection Hsteady as ->.
        eapply sender_inv_ext; [|by apply fresh_sender]. intros j. specialize (Hno j). tauto. }
    destruct (arrive_sender now ans n0 ms seen fired (od_out_on E) old tp seq HI Hp) as (sent2 & acts2 & o2 & new2 & es2 & Ea2 & _ & Hes2 & HI2).
    rewrite Ea in Ea2. injection Ea2 as <- <- <- <-. rewrite (packets_unique _ _ _ Hes Hes2), Eo.
    eapply sender_inv_ext; [|exact HI2]. intros j. by rewrite list_elem_of_singleton.
  - assert (Epe' : peer src s = false) by (by rewrite equivb_sym). rewrite (Hothers s Ps Epe'). split; [|by split].
    rewrite app_nil_r. destruct (lookup_ s (od_cmap E)) as [c|]; [|destruct Hs as [-> Hs]; split; [done|intros j [Hj|Hj]; [by apply (Hs j)|by apply elem_of_nil in Hj]]].
    apply (sender_inv_ext _ _ seen); [intros j; rewrite elem_of_nil; tauto|]. rewrite Eo.
    destruct o; [|by eapply sender_inv_off]. destruct (od_out_on E) eqn:Eon; [done|].
    exfalso. unfold od_arrive in Ea. destruct (int_field tp SEQ); cbn [rbind] in Ea; [|done].
    destruct (_ <? _); [done|]. destruct (ODConnection_insert _ _ _); cbn [rbind] in Ea; done.
Qed.

(** The loop over the records when the output calls back: each is flushed or, once
    the output blocks, left as it is. *)
Lemma out_loop_records ans : forall m k out_on, Forall (fun e => plainP (fst e) /\ rec_ok (fst e) (snd e)) m ->
  exists sent acts o m', od_out_loop ans k out_on m = Ok (sent, acts, o, m') /\ fst <$> m' = fst <$> m
    /\ Forall (fun e => plainP (fst e) /\ rec_ok (fst e) (snd e)) m'
    /\ forall s, plainP s -> Forall (fun e => peer s (fst e) = false) m -> numbers s sent = [].
Proof.
  induction m as [|[src c] m IH]; intros k out_on Hm; cbn [od_out_loop].
  { eexists [], [], out_on, []. split_and!; done. }
  pose proof Hm as Hm0. apply Forall_cons in Hm as [[Ps [(ms & Hord) Hown]] Hm]. cbn in *.
  destruct out_on; [|by eexists [], [], false, _; split_and!].
  destruct (flush_sender ans k true true 0 ms _ true c (sender_inv_any 0 ms _ c Hord true)) as (sent & acts & o & c' & es & -> & Hq & Hes & [Hord' _]).
  cbn [rbind]. destruct (IH (k + length sent)%nat o Hm) as (sent' & acts' & o' & m' & -> & Hk & Hm' & Hn). cbn [rbind].
  rewrite <- Hq in Hown. apply Forall_app in Hown as [Hown1 Hown2].
  eexists _, _, _, _. split; [done|]. split; [cbn; by rewrite Hk|]. split.
  - constructor; [|done]. split; [done|]. cbn. split; [by exists (ms ++ es)|done].
  - intros s Pss HF. apply Forall_cons in HF as [H1 H2]. cbn in H1.
    rewrite numbers_app, (own_numbers s src sent es Pss Ps Hown1 Hes), H1. by apply Hn.
Qed.

(** ... and what that means for the sender looked at. *)
Lemma out_loop_sender ans s n0 ms seen fired o0 : plainP s -> forall m k out_on kc c sent acts o m',
  Forall (fun e => plainP (fst e) /\ rec_ok (fst e) (snd e)) m -> set_sorted value_lt fst m ->
  (kc, c) ∈ m -> peer s kc = true -> sender_inv n0 ms seen fired o0 c ->
  od_out_loop ans k out_on m = Ok (sent, acts, o, m') ->
  exists c', (kc, c') ∈ m' /\ sender_inv n0 (ms ++ numbers s sent) seen fired o c'.
Proof.
  intros Pss. induction m as [|[src c0] m IH]; intros k out_on kc c sent acts o m' Hm Hs Hin Hpe HI E; [by apply elem_of_nil in Hin|].
  cbn [od_out_loop] in E. apply Forall_cons in Hm as [[Ps [(ms0 & Hord) Hown]] Hm]. cbn in *.
  apply StronglySorted_inv in Hs as [Hs Hlt].
  destruct out_on; [|injection E as <- <- <- <-; exists c; rewrite app_nil_r; split; [done|by eapply sender_inv_off]].
  apply elem_of_cons in Hin as [[= <- <-]|Hin].
  - destruct (flush_sender ans k true o0 n0 ms seen fired c HI) as (sent1 & acts1 & o1 & c' & es & E1 & Hq & Hes & HI').
    rewrite E1 in E. cbn [rbind] in E.
    destruct (out_loop_records ans m (k + length sent1)%nat o1 Hm) as (sent2 & acts2 & o2 & m2 & E2 & _ & _ & Hn).
    rewrite E2 in E. cbn [rbind] in E. injection E as <- <- <- <-.
    rewrite <- Hq in Hown. apply Forall_app in Hown as [Hown1 _].
    assert (Hrest : Forall (fun e => peer s (fst e) = false) m).
    { apply Forall_forall. intros [k' c1] Hin'. cbn. destruct (peer s k') eqn:Ek; [|done]. exfalso.
      rewrite Forall_forall in Hlt, Hm. specialize (Hlt _ Hin'). destruct (Hm _ Hin') as [Pk' _]. cbn in *.
      rewrite equivb_sym in Hpe. pose proof (equivb_trans value_lt plainP kc s k' Ps Pss Pk' Hpe Ek) as Hkk.
      unfold equivb in Hkk. rewrite Hlt in Hkk. done. }
    exists c'. split; [by left|]. rewrite numbers_app, (own_numbers s kc sent1 es Pss Ps Hown1 Hes), Hpe, (Hn s Pss Hrest), app_nil_r.
    destruct o2; [|by eapply sender_inv_off]. destruct o1; [done|].
    exfalso. destruct m as [|[? ?] ?]; cbn in E2; done.
  - destruct (flush_sender ans k true true 0 ms0 _ true c0 (sender_inv_any 0 ms0 _ c0 Hord true)) as (sent1 & acts1 & o1 & c1 & es & E1 & Hq & Hes & _).
    rewrite E1 in E. cbn [rbind] in E.
    destruct (out_loop_records ans m (k + length sent1)%nat o1 Hm) as (sent2 & acts2 & o2 & m2 & E2 & _ & _ & _).
    rewrite E2 in E. cbn [rbind] in E. injection E as <- <- <- <-.
    destruct (IH _ _ _ _ _ _ _ _ Hm Hs Hin Hpe HI E2) as (c' & Hc' & HI'). exists c'. split; [by right|].
    rewrite <- Hq in Hown. apply Forall_app in Hown as [Hown1 _].
    assert (Hne : peer s src = false).
    { destruct (peer s src) eqn:Ek; [|done]. exfalso. rewrite Forall_forall in Hlt, Hm. specialize (Hlt _ Hin).
      destruct (Hm _ Hin) as [Pkc _]. cbn in *. rewrite equivb_sym in Ek.
      pose proof (equivb_trans value_lt plainP src s kc Ps Pss Pkc Ek Hpe) as Hkk. unfold equivb in Hkk. by rewrite Hlt in Hkk. }
    by rewrite numbers_app, (own_numbers s src sent1 es Pss Ps Hown1 Hes), Hne.
Qed.

Lemma all_ok_records E : all_ok E -> Forall (fun e => plainP (fst e) /\ rec_ok (fst e) (snd e)) (od_cmap E).
Proof. intros H. apply Forall_forall. intros [k c] Hin. by apply (all_ok_elem E). Qed.

Lemma records_all_ok o (m m0 : list (value * ODConnection)) : cwf m0 -> fst <$> m = fst <$> m0 -> Forall (fun e => plainP (fst e) /\ rec_ok (fst e) (snd e)) m ->
  all_ok (mkODelivery o m).
Proof.
  intros [HP Hs] Hk HF.
  assert (Hw : cwf m).
  { split; [eapply Forall_impl; [exact HF|]; intros e He; apply He|]. apply sorted_keys. rewrite Hk. by apply sorted_keys. }
  split; [done|]. cbn. intros o' c Po Hl. apply lookup_iff in Hl as (k & Hin & Hpe); [|done..].
  rewrite Forall_forall in HF. destruct (HF _ Hin) as [Pk Hr]. apply (rec_ok_peer o' k); [done|done|by rewrite equivb_sym|done].
Qed.

Lemma lookup_keys_none {C} s (m m' : list (value * C)) : fst <$> m = fst <$> m' -> lookup_ s m = None -> lookup_ s m' = None.
Proof.
  intros Hk. unfold lookup_. rewrite (c_find_keys s m m' Hk). destruct (c_find s m') as [i|]; [|done].
  intros H. apply (f_equal (fun l => l !! i)) in Hk. rewrite !list_lookup_fmap in Hk.
  by destruct (m !! i), (m' !! i).
Qed.

Lemma wake_step s n0 ms seen fired ans E : plainP s -> all_ok E -> sender_ok s n0 ms seen fired E ->
  exists sent E', od_step (OWake ans) E = Ok (sent, E') /\ all_ok E' /\ sender_ok s n0 (ms ++ numbers s sent) seen fired E'
    /\ (is_Some (lookup_ s (od_cmap E)) <-> is_Some (lookup_ s (od_cmap E'))).
Proof.
  intros Ps HA Hs. pose proof (all_ok_records E HA) as Hm. pose proof HA as [Hw _]. cbn [od_step]. unfold ODelivery_out_cb.
  destruct (out_loop_records ans (od_cmap E) 0 true Hm) as (sent & acts & o & m' & El & Hk & Hm' & Hnone).
  rewrite El. cbn [rbind]. exists sent, (mkODelivery o m'). split; [done|].
  pose proof (records_all_ok o m' _ Hw Hk Hm') as HA'. split; [done|]. unfold sender_ok in *. cbn.
  destruct (lookup_ s (od_cmap E)) as [c|] eqn:Els.
  - pose proof Els as Els'. apply lookup_iff in Els' as (kc & Hin & Hpe); [|done..].
    destruct (out_loop_sender ans s n0 ms seen fired _ Ps _ _ _ _ _ _ _ _ _ Hm (proj2 Hw) Hin Hpe Hs El) as (c' & Hin' & HI').
    assert (Hl' : lookup_ s m' = Some c') by (apply lookup_iff; [apply HA'|done|]; by exists kc).
    rewrite Hl'. split; [done|]. by split; intros _.
  - rewrite (lookup_keys_none s _ m' (eq_sym Hk) Els). destruct Hs as [-> Hs]. split; [|by split; intros []].
    rewrite (Hnone s Ps); [done|]. apply Forall_forall. intros [k c] Hin. cbn. destruct (peer s k) eqn:Ek; [|done].
    exfalso. assert (Hx : lookup_ s (od_cmap E) = Some c) by (apply lookup_iff; [done|done|]; by exists k). congruence.
Qed.

Lemma seconds_not_long now c : (CONNECTION_TIMEOUT <? touch_duration now c) = false.
Proof.
  apply Z.ltb_ge. unfold touch_duration, CONNECTION_TIMEOUT, duration_seconds.
  pose proof (Z.rem_bound_abs (Z.quot (now - od_touched c) (10 ^ 9)) 60). lia.
Qed.

(** The numbers of a record after its timer: everything that waits is expected. *)
Lemma expect_all ms seen c t : od_order ms seen c -> last (od_queue c) = Some t ->
  exists n, int_field t SEQ = Ok n /\ od_order ms seen (mkOD (od_touched c) false (n + 1) (od_queue c)).
Proof.
  intros [Hs Hn Hse (ns & Hp & Hns & Hnse & Hlt)] Hl. destruct c as [tch tcb next q]. cbn in *.
  apply last_Some in Hl as [q0 ->]. apply Forall2_app_inv_l in Hp as (n1 & n2 & H1 & H2 & ->).
  apply Forall2_cons_inv_l in H2 as (n & n3 & [Hn' Hrest] & H3 & ->). apply Forall2_nil_inv_l in H3 as ->.
  exists n. split; [done|]. split; cbn; [done| |done|].
  - apply Forall_forall. intros m Hm. assert (m < n) by (apply Hlt; set_solver). lia.
  - exists (n1 ++ [n]). split_and!; [|done|done|done]. apply Forall2_app; [done|]. by constructor; [split|constructor].
Qed.

Lemma timer_step s n0 ms seen fired now ans src E : plainP s -> plainP src -> all_ok E -> sender_ok s n0 ms seen fired E ->
  exists sent E', od_step (OTimer now ans src) E = Ok (sent, E') /\ all_ok E'
    /\ sender_ok s n0 (ms ++ numbers s sent) seen (fired || peer s src) E'
    /\ (is_Some (lookup_ s (od_cmap E)) <-> is_Some (lookup_ s (od_cmap E'))).
Proof.
  intros Ps Psrc HA Hs. pose proof HA as [Hw Hall]. cbn [od_step].
  assert (Hweak : forall c o, sender_inv n0 ms seen fired o c -> sender_inv n0 ms seen (fired || peer s src) o c).
  { intros c o [H1 H2]. split; [done|]. intros [Hf _]%orb_false_iff. by apply H2. }
  assert (Hidle : exists sent E', Ok ([], E) = Ok (sent, E') /\ all_ok E'
    /\ sender_ok s n0 (ms ++ numbers s sent) seen (fired || peer s src) E'
    /\ (is_Some (lookup_ s (od_cmap E)) <-> is_Some (lookup_ s (od_cmap E')))).
  { exists [], E. rewrite app_nil_r. split_and!; [done|done| |done]. unfold sender_ok in *.
    destruct (lookup_ s (od_cmap E)); [by apply Hweak|done]. }
  destruct (lookup_ src (od_cmap E)) as [c|] eqn:Esrc; [|exact Hidle]. destruct (od_tcb c); [|exact Hidle]. clear Hidle.
  destruct (Hall src c Psrc Esrc) as [(ms0 & Hord0) Hown]. unfold flushConnectionQ. rewrite Esrc. cbn [of_option rbind od_queue].
  assert (Hfl : forall ms1 seen1, od_order ms1 seen1 c -> exists sent acts o c' es,
    match last (od_queue c) with
    | Some t => let? n := int_field t SEQ in ODelivery_flush ans 0 (od_out_on E) (mkOD (od_touched c) false (n + 1) (od_queue c))
    | None => Ok ([], [], od_out_on E, mkOD (od_touched c) false (od_next_seq c) (od_queue c))
    end = Ok (sent, acts, o, c') /\ sent ++ od_queue c' = od_queue c /\ Forall2 packet sent es /\ od_order (ms1 ++ es) seen1 c'
      /\ (o = true -> od_out_on E = true)).
  { intros ms1 seen1 HO. destruct (last (od_queue c)) as [t|] eqn:El.
    - destruct (expect_all _ _ _ _ HO El) as (n & -> & HO1). cbn [rbind].
      destruct (flush_sender ans 0 (od_out_on E) true n0 ms1 _ true _ (sender_inv_any n0 ms1 _ _ HO1 true)) as (sent & acts & o & c' & es & Ef & Hq & Hes & [HO2 _]).
      exists sent, acts, o, c', es. split_and!; [done..|]. intros ->. destruct (od_out_on E); [done|].
      unfold ODelivery_flush in Ef. cbn in Ef. destruct (od_queue c); cbn in Ef; [by apply last_None in El || done|]. congruence.
    - exists [], [], (od_out_on E), (mkOD (od_touched c) false (od_next_seq c) (od_queue c)), []. rewrite (app_nil_r ms1).
      split_and!; [done|done|constructor| |done]. destruct HO. by split. }
  destruct (Hfl _ _ Hord0) as (sent & acts & o & c' & es & Ef & Hq & Hes & HO' & Hon). cbn [od_touched od_tcb od_next_seq] in *.
  rewrite Ef. cbn [rbind]. rewrite seconds_not_long, andb_false_r. exists sent, (mkODelivery o (update src c' (od_cmap E))). split; [done|].
  rewrite <- Hq in Hown. apply Forall_app in Hown as [Hown1 Hown2].
  assert (Hrec : rec_ok src c') by (split; [by exists (ms0 ++ es)|done]).
  assert (Hw' : cwf (update src c' (od_cmap E))) by (by apply cwf_update).
  assert (Hself : lookup_ src (update src c' (od_cmap E)) = Some c') by (apply lookup_update; by rewrite Esrc).
  assert (Hsame : forall o', plainP o' -> peer src o' = true -> lookup_ o' (update src c' (od_cmap E)) = Some c' /\ lookup_ o' (od_cmap E) = Some c).
  { intros o' Po Hpe. rewrite equivb_sym in Hpe. split; (apply lookup_iff; [done|done|]).
    - apply lookup_iff in Hself as (k & Hk & Hpk); [|done..]. exists k. split; [done|].
      assert (Pk : plainP k) by (destruct Hw' as [HP _]; rewrite Forall_forall in HP; by apply (HP _ Hk)).
      by apply (equivb_trans value_lt plainP o' src k).
    - apply lookup_iff in Esrc as (k & Hk & Hpk); [|done..]. exists k. split; [done|].
      assert (Pk : plainP k) by (destruct Hw as [HP _]; rewrite Forall_forall in HP; by apply (HP _ Hk)).
      by apply (equivb_trans value_lt plainP o' src k). }
  split; [split; [done|]; cbn; intros o' c1 Po Hl; destruct (peer src o') eqn:Epe|].
  { rewrite (proj1 (Hsame o' Po Epe)) in Hl. injection Hl as <-. by apply (rec_ok_peer o' src). }
  { rewrite lookup_update_ne in Hl by done. by apply Hall. }
  rewrite (own_numbers s src sent es Ps Psrc Hown1 Hes). unfold sender_ok in *. cbn. destruct (peer s src) eqn:Epe.
  - assert (Epe' : peer src s = true) by (by rewrite equivb_sym). destruct (Hsame s Ps Epe') as [-> E2]. rewrite E2 in Hs |- *.
    split; [|by split; intros _]. rewrite orb_true_r. destruct Hs as [HOs _].
    destruct (Hfl _ _ HOs) as (sent2 & acts2 & o2 & c2 & es2 & Ef2 & _ & Hes2 & HO2 & _). rewrite Ef in Ef2. injection Ef2 as <- <- <- <-.
    rewrite (packets_unique _ _ _ Hes Hes2). by apply sender_inv_any.
  - assert (Epe' : peer src s = false) by (by rewrite equivb_sym). rewrite lookup_update_ne by done. split; [|done].
    rewrite app_nil_r, orb_false_r. destruct (lookup_ s (od_cmap E)) as [c1|]; [|done].
    destruct o; [by rewrite (Hon eq_refl) in Hs|by eapply sender_inv_off].
Qed.

Lemma steady_step s n0 e es known : steady s known n0 (packets (e :: es)) ->
  steady s (known || existsb (sent_by s) (pushed_by e)) n0 (packets es).
Proof.
  unfold packets. cbn. destruct e; cbn; rewrite ?orb_false_r; [|done..]. destruct (sent_by s tp); rewrite ?orb_true_r, ?orb_false_r; [by intros [_ ?]|done].
Qed.

Lemma od_run_ok s n0 es : plainP s -> is_u32 n0 -> forall ms seen fired E,
  all_ok E -> sender_ok s n0 ms seen fired E -> Forall sane (packets es) ->
  Forall (fun e => match e with OTimer _ _ src => plainP src | _ => True end) es ->
  steady s (bool_decide (is_Some (lookup_ s (od_cmap E)))) n0 (packets es) ->
  exists sent E', od_run es E = Ok (sent, E')
    /\ sender_ok s n0 (ms ++ numbers s sent) (fun j => seen j \/ j ∈ numbers s (packets es)) (fired || existsb (fires_for s) es) E'.
Proof.
  intros Ps Hn0. induction es as [|e es IH]; intros ms seen fired E HA Hs Hsane Htm Hst.
  { exists [], E. rewrite app_nil_r, orb_false_r. split; [done|]. unfold sender_ok in *.
    destruct (lookup_ s (od_cmap E)); [eapply sender_inv_ext; [|exact Hs]; intros j; cbn; rewrite elem_of_nil; tauto|].
    destruct Hs as [-> Hs]. split; [done|]. cbn. intros j [Hj|Hj]; [by apply (Hs j)|by apply elem_of_nil in Hj]. }
  apply Forall_cons in Htm as [Ht Htm]. pose proof (steady_step _ _ _ _ _ Hst) as Hst'.
  assert (Hsane' : Forall sane (pushed_by e) /\ Forall sane (packets es)) by (by apply Forall_app in Hsane).
  assert (Hstep : exists sent E1, od_step e E = Ok (sent, E1) /\ all_ok E1
    /\ sender_ok s n0 (ms ++ numbers s sent) (fun j => seen j \/ j ∈ numbers s (pushed_by e)) (fired || fires_for s e) E1
    /\ bool_decide (is_Some (lookup_ s (od_cmap E1))) = bool_decide (is_Some (lookup_ s (od_cmap E))) || existsb (sent_by s) (pushed_by e)).
  { assert (Hnil : forall f E1, sender_ok s n0 f seen (fired || fires_for s e) E1 -> pushed_by e = [] ->
      sender_ok s n0 f (fun j => seen j \/ j ∈ numbers s (pushed_by e)) (fired || fires_for s e) E1).
    { intros f E1 H1 ->. unfold sender_ok in *. destruct (lookup_ s (od_cmap E1)).
      - eapply sender_inv_ext; [|exact H1]. intros j. cbn. rewrite elem_of_nil. tauto.
      - destruct H1 as [-> H1]. split; [done|]. intros j [Hj|Hj]; [by apply (H1 j)|by apply elem_of_nil in Hj]. }
    destruct e as [now ans tp|ans|now ans src]; cbn [fires_for pushed_by existsb] in *.
    - destruct Hsane' as [Hs1 _]. apply Forall_inv in Hs1.
      destruct (push_step s n0 ms seen fired now ans tp E Ps Hn0 HA Hs Hs1) as (sent & E1 & H1 & H2 & H3 & H4 & H5).
      { intros Hsb. unfold packets in Hst. cbn in Hst. rewrite Hsb in Hst. destruct Hst as [Hst _].
        destruct (lookup_ s (od_cmap E)); [by rewrite bool_decide_true in Hst by done|]. rewrite bool_decide_false in Hst; [done|by intros []]. }
      exists sent, E1. rewrite !orb_false_r. split_and!; [done|done|done|]. destruct (sent_by s tp).
      + rewrite orb_true_r. apply bool_decide_eq_true. by apply H4.
      + rewrite orb_false_r. by rewrite H5.
    - destruct (wake_step s n0 ms seen fired ans E Ps HA Hs) as (sent & E1 & H1 & H2 & H3 & H4).
      exists sent, E1. rewrite !orb_false_r in *. split_and!; [done|done|by apply Hnil|]. symmetry. by apply bool_decide_ext.
    - destruct (timer_step s n0 ms seen fired now ans src E Ps Ht HA Hs) as (sent & E1 & H1 & H2 & H3 & H4).
      exists sent, E1. rewrite !orb_false_r in *. split_and!; [done|done|by apply Hnil|]. symmetry. by apply bool_decide_ext. }
  destruct Hstep as (sent & E1 & H1 & H2 & H3 & H4). rewrite <- H4 in Hst'.
  destruct (IH _ _ _ _ H2 H3 (proj2 Hsane') Htm Hst') as (sent' & E' & Hr & HI).
  cbn [od_run]. rewrite H1. cbn [rbind]. rewrite Hr. cbn [rbind]. exists (sent ++ sent'), E'. split; [done|].
  rewrite numbers_app, app_assoc. cbn [existsb]. rewrite orb_assoc. unfold sender_ok in *.
  assert (Hnum : numbers s (packets (e :: es)) = numbers s (pushed_by e) ++ numbers s (packets es)) by apply numbers_app.
  destruct (lookup_ s (od_cmap E')).
  - eapply sender_inv_ext; [|exact HI]. intros j. rewrite Hnum, elem_of_app. tauto.
  - destruct HI as [-> HI]. split; [done|]. intros j Hj. apply (HI j). rewrite Hnum, elem_of_app in Hj. tauto.
Qed.

(** C13: ordered delivery, over any run of [ODelivery]: packets of any number of
    senders arrive in any order and any number of times, the output blocks and calls
    back, timers fire.  For a sender whose first packet has the cumulative number
    [n0] and that does not go back to the number 0 - a 0 makes the element forget the
    sender - and under the assumption that the iterator [vector::insert] invalidated
    does not compare equal to [end()]: nothing fails; the packets of the sender are
    handed on in strictly ascending order, hence each at most once, and none that
    did not arrive; and if no timer of the sender fired they are consecutive from
    [n0] and, while the output accepts tuples, go right up to the first missing
    number. *)
Theorem odelivery_in_order (s : value) (n0 : Z) (es : list od_event) :
  plainP s -> is_u32 n0 -> Forall sane (packets es) ->
  Forall (fun e => match e with OTimer _ _ src => plainP src | _ => True end) es ->
  steady s false n0 (packets es) ->
  exists sent E, od_run es ODelivery_mk = Ok (sent, E)
    /\ sorted (numbers s sent) /\ numbers s sent ⊆ numbers s (packets es)
    /\ (existsb (fires_for s) es = false ->
        exists d, 0 <= d /\ numbers s sent = seqZ n0 d
          /\ (od_out_on E = true -> n0 + d ∉ numbers s (packets es))).
Proof.
  intros Ps Hn0 Hsane Htm Hst.
  assert (HA : all_ok ODelivery_mk) by (split; [split; constructor|]; intros o c _ H; done).
  assert (H0 : sender_ok s n0 [] (fun _ => False) false ODelivery_mk) by (split; [done|auto]).
  destruct (od_run_ok s n0 es Ps Hn0 [] _ false _ HA H0 Hsane Htm Hst) as (sent & E & Hr & HI). cbn [app orb] in HI.
  exists sent, E. split; [done|]. unfold sender_ok in HI. destruct (lookup_ s (od_cmap E)) as [c|].
  - destruct HI as [[Hs _ Hse _] HD]. split_and!; [done| |].
    + intros j Hj. rewrite Forall_forall in Hse. by destruct (Hse j Hj) as [[]|].
    + intros Hf. destruct (HD Hf) as (d & Hd & -> & [_ _ Hh]). exists d. split_and!; [done|done|].
      intros Ho Hin. apply (Hh Ho). by right.
  - destruct HI as [-> HI]. split_and!; [constructor|set_solver|]. intros _. exists 0. split_and!; [lia|done|].
    intros _ Hin. apply (HI (n0 + 0)). by right.
Qed.
End od_one.

(** A packet whose cumulative number is zero starts its connection anew.  The
    packets 8 and 9 of a sender that has not been acknowledged yet, both with
    the number 0: the second one discards the first, which is never delivered,
    while the timer that was armed for it stays armed. *)
Definition od_sample (seq cseq : Z) : tuple :=
  mkTuple [VStr "here"; VStr "peer"; VDouble (S754_zero false); VNull; VNull; VNull;
           VInt64 cseq; VInt64 seq] true 0.

Definition od_accept (k : nat) : Z := 1.

Theorem odelivery_reset_loses :
  exists E1 E2,
    ODelivery_push (fun _ => false) 0 od_accept 0 (od_sample 8 0) ODelivery_mk = Ok ([], [ArmTimer (VStr "peer")], 1, E1)
    /\ ODelivery_push (fun _ => false) 1 od_accept 0 (od_sample 9 0) E1 = Ok ([], [ArmTimer (VStr "peer")], 1, E2)
    /\ (od_queue <$> lookup_ (VStr "peer") (od_cmap E1)) = Some [od_sample 8 0]
    /\ (od_queue <$> lookup_ (VStr "peer") (od_cmap E2)) = Some [od_sample 9 0].
Proof.
  exists (mkODelivery true [(VStr "peer", mkOD 0 true 0 [od_sample 8 0])]),
    (mkODelivery true [(VStr "peer", mkOD 1 true 0 [od_sample 9 0])]).
  split_and!; vm_compute; reflexivity.
Qed.

(** A connection is to be removed when it was not touched for more than
    [CONNECTION_TIMEOUT] seconds, but what is compared with those 240 is the
    seconds field of the duration: [flushConnectionQ] never removes a record. *)
Lemma duration_seconds_bound d : - 60 < duration_seconds d < 60.
Proof. unfold duration_seconds. pose proof (Z.rem_bound_abs (Z.quot d (10 ^ 9)) 60). lia. Qed.

Theorem odelivery_never_forgets (now : Z) (ans : nat -> Z) (src : value) (E E' : ODelivery)
    (sent : list tuple) (acts : list timer_action) :
  flushConnectionQ now ans src E = Ok (sent, acts, E') -> fst <$> od_cmap E' = fst <$> od_cmap E.
Proof.
  unfold flushConnectionQ. destruct (lookup_ src (od_cmap E)) as [cp|]; [|done]. cbn [of_option rbind].
  destruct (match last _ with Some _ => _ | None => _ end) as [[[[s a] o] c]|f]; [|done].
  cbn [rbind]. intros [= <- <- <-]. cbn [od_cmap].
  assert (Ht : (CONNECTION_TIMEOUT <? touch_duration now c) = false).
  { apply Z.ltb_ge. unfold touch_duration, CONNECTION_TIMEOUT.
    pose proof (duration_seconds_bound (now - od_touched c)). lia. }
  rewrite Ht, andb_false_r. apply update_keys.
Qed.

Section rdelivery_facts.
Context `{P : Platform} {CB : Type}.

(** The operations of [RDelivery] that its ports, callbacks and timers can
    start. *)
Inductive rd_step : RDelivery CB -> RDelivery CB -> Prop :=
  | rd_pull flip input port cb R out asked R' :
      RDelivery_pull flip input port cb R = Ok (out, asked, R') -> rd_step R R'
  | rd_push port tp R out acts R' :
      RDelivery_push port tp R = Ok (out, acts, R') -> rd_step R R'
  | rd_fail dest R cbs acts R' :
      handle_failure dest R = Ok (cbs, acts, R') -> rd_step R R'
  | rd_wake R : rd_step R (snd (RDelivery_input_cb R)).

Lemma push_acks_empty fs tp acts index : push_acks fs tp [] = Ok (acts, index) -> index = [].
Proof.
  revert acts index. induction fs as [|v fs IH]; intros acts index; cbn [push_acks]; [by intros [= <- <-]|].
  destruct (_ && _); [|apply IH]. unfold RDelivery_ack.
  destruct (Tuple_at tp (DEST + 2)) as [dest|f]; cbn [rbind]; [|destruct f; [..|done|done]; by intros [= <- <-]].
  destruct (int_field tp (CUMSEQ + 2)) as [cseq|f]; cbn [rbind]; [|destruct f; by intros [= <- <-]].
  cbn. destruct (push_acks fs tp []) as [[acts' index']|f] eqn:E; [|done]. cbn [rbind].
  intros [= <- <-]. by eapply IH.
Qed.

(** No packet is ever stored for retransmission: [tuple()], which would, is not
    called by any operation of the element. *)
Theorem rdelivery_never_retries (m : Z) (R : RDelivery CB) :
  rtc rd_step (RDelivery_mk m) R -> rd_retry_q R = [] /\ rd_index R = [].
Proof.
  intros H. remember (RDelivery_mk m) as R0 eqn:E0.
  assert (H0 : rd_retry_q R0 = [] /\ rd_index R0 = []) by (by rewrite E0). clear E0.
  induction H as [|R0 R1 R Hs _ IH]; [done|]. apply IH. destruct H0 as [Hq Hi]. destruct Hs as
    [flip input port cb R2 out asked R' Hp|port tp R2 out acts R' Hp|dest R2 cbs acts R' Hf|R2].
  - unfold RDelivery_pull in Hp. destruct (check _ _); [|done]. cbn [rbind] in Hp.
    rewrite Hq in Hp. destruct (_ && _); by injection Hp as <- <- <-.
  - unfold RDelivery_push in Hp. destruct (check _ _); [|done]. cbn [rbind] in Hp. rewrite Hi in Hp.
    destruct (push_acks _ _ _) as [[acts' index]|] eqn:E; [|done]. injection Hp as <- <- <-.
    split; [done|]. by apply push_acks_empty in E.
  - unfold handle_failure in Hf. rewrite Hi in Hf. done.
  - done.
Qed.
End rdelivery_facts.

(** ** Retransmission *)

(** The outstanding packets of a connection: an older one was sent at least as
    often as a newer one, and none more than [max] times again. *)
Definition retry_ok (max : Z) (q : list RDTuple) : Prop :=
  StronglySorted (fun a b => rdt_retry_cnt b <= rdt_retry_cnt a) q
  /\ Forall (fun t => 0 <= rdt_retry_cnt t <= max) q.

Definition sent_again (t : RDTuple) : RDTuple :=
  mkRDTuple (rdt_seq t) (rdt_tp t) (rdt_retry_cnt t + 1).

Lemma failure_loop_kept max first cum q : Forall (fun t => rdt_retry_cnt t < max) q ->
  failure_loop max first cum q = Ok (rdt_tp <$> q, sent_again <$> q, cum).
Proof.
  intros H. revert first. induction H as [|t q Ht Hq IH]; intros first; cbn [failure_loop]; [done|].
  rewrite (proj2 (Z.ltb_lt _ _) Ht), IH. done.
Qed.

(** [handle_failure] neither trips its assertion nor sends a packet more than
    [max] times again: what has reached the bound is at the front and is given
    up, everything else is queued once more and counted. *)
Theorem handle_failure_bounded (max cum : Z) (q : list RDTuple) : retry_ok max q ->
  let kept := filter (fun t => rdt_retry_cnt t < max) q in
  exists cum', failure_loop max true cum q = Ok (rdt_tp <$> kept, sent_again <$> kept, cum')
  /\ cum <= cum' /\ retry_ok max (sent_again <$> kept).
Proof.
  intros [Hs Hb] kept.
  assert (Hrun : exists cum', failure_loop max true cum q = Ok (rdt_tp <$> kept, sent_again <$> kept, cum')
    /\ cum <= cum').
  { unfold kept. clear kept. revert cum. induction Hs as [|t q Hs IH Ht]; intros cum; cbn [failure_loop].
    - exists cum. by split; [|lia].
    - inversion_clear Hb as [|? ? Hbt Hbq]. rewrite filter_cons. destruct (Z.ltb_spec (rdt_retry_cnt t) max) as [Hlt|Hge].
      + rewrite decide_True by done.
        assert (Hall : Forall (fun t => rdt_retry_cnt t < max) q) by (eapply Forall_impl; [exact Ht|]; cbn; lia).
        rewrite (failure_loop_kept _ _ _ _ Hall). cbn [rbind].
        rewrite (filter_all _ q Hall). exists cum. by split; [|lia].
      + rewrite decide_False by lia. cbn [check rbind].
        destruct (IH Hbq (if cum <? rdt_seq t then rdt_seq t else cum)) as (cum' & -> & Hle).
        exists cum'. split; [done|]. destruct (Z.ltb_spec cum (rdt_seq t)); lia. }
  destruct Hrun as (cum' & Hr & Hle). exists cum'. split_and!; [done|done|]. split.
  - unfold kept. clear -Hs. induction Hs as [|t q Hs IH Ht]; [constructor|]. rewrite filter_cons.
    case_decide; [|done]. cbn. constructor; [done|]. rewrite Forall_fmap. apply Forall_filter.
    eapply Forall_impl; [exact Ht|]. cbn. lia.
  - rewrite Forall_fmap. apply Forall_forall. intros t Ht. apply list_elem_of_filter in Ht as [Hlt Hin].
    rewrite Forall_forall in Hb. specialize (Hb t Hin). cbn. lia.
Qed.

(** A packet that joins the queue, and the packets an acknowledgement pops,
    keep the order. *)
Lemma retry_ok_append max q seq tp : 0 <= max -> retry_ok max q -> retry_ok max (q ++ [mkRDTuple seq tp 0]).
Proof.
  intros Hm [Hs Hb]. split.
  - clear Hm. induction Hs as [|t q Hs IH Ht]; cbn; [repeat constructor|].
    inversion_clear Hb. constructor; [auto|]. apply Forall_app. split; [done|]. repeat constructor. cbn. lia.
  - apply Forall_app. split; [done|]. repeat constructor; cbn; lia.
Qed.

Lemma retry_ok_pop max cum q : retry_ok max q -> retry_ok max (pop_acked cum q).
Proof.
  intros [Hs Hb]. induction Hs as [|t q Hs IH Ht]; cbn [pop_acked]; [by split; constructor|].
  inversion_clear Hb. destruct (rdt_seq t <=? cum); [auto|]. split; by constructor.
Qed.

(** ** Witness *)

Lemma od_sample_packet seq cseq : packet (od_sample seq cseq) seq.
Proof. split; [done|]. split; eexists; [done|]. eexists. split_and!; [done|done|vm_compute; reflexivity]. Qed.
Lemma od_sample_sane seq cseq : u32 cseq <= seq -> sane (od_sample seq cseq).
Proof. intros H. split; [by eexists|]. exists seq, cseq. split_and!; [apply od_sample_packet|done|done]. Qed.

(** Packets 3, 1, 3 and 2 of a sender that starts with 1; the output refuses the
    first tuple it is given and calls back later. *)
Lemma odelivery_in_order_witness :
  let es := [OPush 0 od_accept (od_sample 3 1); OPush 1 (fun _ => 0) (od_sample 1 1);
             OPush 2 od_accept (od_sample 3 1); OPush 3 od_accept (od_sample 2 1); OWake od_accept] in
  exists sent E, od_run (fun _ => false) es ODelivery_mk = Ok (sent, E)
    /\ sorted (numbers (VStr "peer") sent) /\ numbers (VStr "peer") sent ⊆ [3; 1; 3; 2]
    /\ exists d, numbers (VStr "peer") sent = seqZ 1 d /\ d = 3.
Proof.
  intros es.
  destruct (odelivery_in_order (fun _ => false) (fun _ => eq_refl) (VStr "peer") 1 es) as (sent & E & Hr & Hs & Hsub & Hd).
  - vm_decide.
  - vm_decide.
  - repeat (apply Forall_cons; split; [apply od_sample_sane; vm_compute; discriminate|]). constructor.
  - repeat constructor.
  - vm_compute. repeat split; discriminate.
  - exists sent, E. split_and!; [exact Hr|exact Hs|exact Hsub|]. destruct (Hd eq_refl) as (d & Hd0 & Hn & Hout).
    exists d. split; [exact Hn|]. vm_compute in Hr. injection Hr as <- <-.
    apply (f_equal length) in Hn. rewrite length_seqZ in Hn. change (3%nat = Z.to_nat d) in Hn. lia.
Defined.
