(* ===== verification/Congest.v ===== *)
(** * Congestion control (src/net/roundTripTimer.C, basicAck.C, cct.C, rcct.C)

    [RoundTripTimer] estimates the round trip time of every destination,
    [BasicAck] answers each packet, [CCT] bounds what is in flight by a window
    and [RateCCT] by a rate.  Each sender keeps a record of every packet that is
    not acknowledged, in a map of maps, with a timer that forgets the packet.

    A timer is named by the number of its handle, which the environment
    supplies; arming and cancelling it are actions an operation returns, and its
    firing is an operation of its own.  Times are nanoseconds. *)

From Stdlib Require Import SpecFloat String.
From stdpp Require Import gmap.
From S2P Require Import Prelude Ids Stl Values Tuples Fdbuf Xdr Casts Frag Delivery Ordered.

Local Open Scope p2_scope.

Definition TS : nat := 3.
Definition STACK_SIZE : nat := 8.

(** Conversion of a [long] to [int32_t], and arithmetic on [int32_t], whose
    overflow is undefined. *)
Definition to_int32 (z : Z) : Z := (z + 2 ^ 31) mod 2 ^ 32 - 2 ^ 31.
Definition is_i32 (z : Z) : Prop := - 2 ^ 31 <= z < 2 ^ 31.
#[export] Instance is_i32_dec z : Decision (is_i32 z).
Proof. unfold is_i32. apply _. Defined.
Definition int32 (z : Z) : res Z := if decide (is_i32 z) then Ok z else Fail UndefinedBehaviour.

(** [total_milliseconds()] of a duration. *)
Definition total_milliseconds (d : Z) : Z := Z.quot d (10 ^ 6).

(** [(0.0 + ms) / 1000.0], the delay given to [delayCB]. *)
Definition ms_delay (ms : spec_float) : spec_float :=
  SFdiv 53 1024 (SFadd 53 1024 (S754_zero false) ms) (double_of_int64 1000).

(** Is the tuple an acknowledgement? *)
Definition is_ack (tp : tuple) : res bool :=
  let? v := Tuple_at tp 1 in
  Ok (match v with VStr s => (s =? "ACK")%string | _ => false end).

(** What an operation asks of the event loop: a timer for a packet, the timer of
    [RateCCT] for missing feedback, the removal of a timer. *)
Inductive timer_op :=
  | ArmPacket (h : Z) (delay : spec_float) (dest : value) (seq : Z)
  | ArmFeedback (h : Z) (delay : spec_float)
  | Cancel (h : Z).

(** ** Packets in flight *)

(** [std::map<ValuePtr, boost::shared_ptr<std::map<SeqNum, R> > >] *)
Abbreviation index R := (list (value * gmap Z R)).

Section inflight.
Context {R : Type}.

Definition in_flight (dest : value) (seq : Z) (t : index R) : option R :=
  match lookup_ dest t with Some m => m !! seq | None => None end.

(** [map]: an existing entry stays; the map behind the shared pointer of a new
    destination gets the entry once the pointer is stored. *)
Definition track (dest : value) (seq : Z) (r : R) (t : index R) : index R :=
  match lookup_ dest t with
  | Some m => update dest (if m !! seq is Some _ then m else <[seq := r]> m) t
  | None => set_insert value_lt fst (dest, {[seq := r]}) t
  end.

(** [erase] of an entry, and of the inner map when it was the last. *)
Definition untrack (dest : value) (seq : Z) (t : index R) : index R :=
  match lookup_ dest t with
  | Some m => if decide (delete seq m = ∅) then unmap dest t else update dest (delete seq m) t
  | None => t
  end.

(** The number of packets in flight. *)
Definition total (t : index R) : nat := sum_list (size ∘ snd <$> t).
End inflight.

(** ** [RoundTripTimer] *)

(** [RTTRec]: eight times the mean, four times the deviation, the timeout; all
    in milliseconds. *)
Record RTTRec := mkRTT { sa_ : Z; sv_ : Z; rto_ : Z }.

Definition MAX_RTO : Z := 5000.
Definition MIN_RTO : Z := 500.

(** [RTTRec::RTTRec] *)
Definition RTTRec_mk : RTTRec := mkRTT (-1) 0 MAX_RTO.

(** "Don't backoff past 5 seconds." *)
Definition clamp_rto (rto : Z) : Z :=
  if MAX_RTO <? rto then MAX_RTO else if rto <? MIN_RTO then MIN_RTO else rto.

(** [RoundTripTimer::add_rtt_meas], on the record *)
Definition add_rtt_meas (m : Z) (r : RTTRec) : res RTTRec :=
  if m <? 0 then Ok r
  else if sa_ r =? -1 then
    let? sa := int32 (Z.shiftl m 3) in
    let? rto := int32 (Z.shiftl m 2) in
    let? rto := int32 (rto + 10) in
    Ok (mkRTT sa 0 (clamp_rto rto))
  else
    let? m := int32 (m - Z.shiftr (sa_ r) 3) in
    let? sa := int32 (sa_ r + m) in
    let? m := (if m <? 0 then int32 (-1 * m) else Ok m) in
    let? m := int32 (m - Z.shiftr (sv_ r) 2) in
    let? sv := int32 (sv_ r + m) in
    let? rto := int32 (Z.shiftr sa 3 + sv + 10) in
    Ok (mkRTT sa sv (clamp_rto rto)).

(** [RoundTripTimer::timeout], on the record *)
Definition timeout (r : RTTRec) : res RTTRec :=
  let? rto := int32 (Z.shiftl (rto_ r) 1) in
  Ok (mkRTT (sa_ r) (sv_ r) (clamp_rto rto)).

(** [TupleTimestamp]; [tt_tcb] says that the timer is not [NULL]. *)
Record TupleTimestamp := mkTT { tt_id : Z; tt_tt : Z; tt_dest : value; tt_seq : Z; tt_tcb : bool }.

(** [TupleTimestamp::delay] *)
Definition tt_delay (now : Z) (tt : TupleTimestamp) : Z := to_int32 (total_milliseconds (now - tt_tt tt)).

Record RoundTripTimer := mkRoundTripTimer {
  rttmap_ : list (value * RTTRec);
  rtt_tmap : index TupleTimestamp
}.
Definition RoundTripTimer_mk : RoundTripTimer := mkRoundTripTimer [] [].

(** [RoundTripTimer::dealloc]; the object of the timer that [fired] has no timer
    any more. *)
Definition rtt_dealloc (now : Z) (fired : option Z) (dest : value) (seq : Z) (t : index TupleTimestamp)
    : Z * list timer_op * index TupleTimestamp :=
  match in_flight dest seq t with
  | Some record =>
      let tcb := tt_tcb record && negb (bool_decide (fired = Some (tt_id record))) in
      (tt_delay now record, if tcb then [Cancel (tt_id record)] else [], untrack dest seq t)
  | None => (-1, [], t)
  end.

(** [RoundTripTimer::push] on port 1 *)
Definition RoundTripTimer_ack (now : Z) (tp : tuple) (E : RoundTripTimer)
    : res (list timer_op * RoundTripTimer) :=
  let? ack := is_ack tp in
  if ack then
    let? dest := Tuple_at tp (DEST + 2) in
    let? seq := int_field tp (SEQ + 2) in
    match lookup_ dest (rttmap_ E) with
    | None => Ok ([], E)
    | Some r =>
        let '(delay, acts, t) := rtt_dealloc now None dest seq (rtt_tmap E) in
        let? r := add_rtt_meas delay r in
        Ok (acts, mkRoundTripTimer (update dest r (rttmap_ E)) t)
    end
  else Ok ([], E).

(** [RoundTripTimer::simple_action]; the new timer is [h]. *)
Definition RoundTripTimer_simple_action (now h : Z) (p : tuple) (counter : Z) (E : RoundTripTimer)
    : res (tuple * list timer_op * RoundTripTimer * Z) :=
  let? seq := int_field p SEQ in
  let? dest := Tuple_at p DEST in
  let '(r, rttmap) :=
    match lookup_ dest (rttmap_ E) with
    | Some r => (r, rttmap_ E)
    | None => (RTTRec_mk, set_insert value_lt fst (dest, RTTRec_mk) (rttmap_ E))
    end in
  let rto := double_of_int64 (rto_ r) in
  let t := track dest seq (mkTT h now dest seq true) (rtt_tmap E) in
  let '(tp, counter) := Tuple_mk counter in
  Ok (mkTuple (<[RTT := VDouble rto]> (fields p)) true (tupleID tp),
      [ArmPacket h (ms_delay rto) dest seq], mkRoundTripTimer rttmap t, counter).

(** [RoundTripTimer::timeout_cb], for the packet the timer [h] was armed for *)
Definition RoundTripTimer_timeout_cb (now h : Z) (dest : value) (seq : Z) (E : RoundTripTimer)
    : res (list timer_op * RoundTripTimer) :=
  let? r := of_option AssertFailed (lookup_ dest (rttmap_ E)) in
  let? r := timeout r in
  let '(_, acts, t) := rtt_dealloc now (Some h) dest seq (rtt_tmap E) in
  Ok (acts, mkRoundTripTimer (update dest r (rttmap_ E)) t).

(** ** [BasicAck] *)

Section congest.
Context {CB : Type}.

Record BasicAck := mkBasicAck { ba_ack_cb : option CB; ba_ack_q : list tuple }.
Definition BasicAck_mk : BasicAck := mkBasicAck None [].

(** The first [n] fields, read one by one. *)
Fixpoint copy_fields (p : tuple) (ks : list nat) : res (list value) :=
  match ks with
  | [] => Ok []
  | i :: ks' => let? v := Tuple_at p i in let? vs := copy_fields p ks' in Ok (v :: vs)
  end.

(** [BasicAck::simple_action]: the packet goes on, its acknowledgement is
    queued, whoever waits for one is called. *)
Definition BasicAck_simple_action (p : tuple) (counter : Z) (E : BasicAck)
    : res (tuple * list CB * BasicAck * Z) :=
  let? src := Tuple_at p SRC in
  let '(ack, counter) := Tuple_mk counter in
  let? stack := copy_fields p (seq 0 STACK_SIZE) in
  let ack := mkTuple (src :: VStr "ACK" :: stack) true (tupleID ack) in
  Ok (p, option_list (ba_ack_cb E), mkBasicAck None (ba_ack_q E ++ [ack]), counter).

(** [BasicAck::pull] on port 1 *)
Definition BasicAck_pull_ack (cb : option CB) (E : BasicAck) : option tuple * BasicAck :=
  match ba_ack_q E with
  | ack :: q => (Some ack, mkBasicAck (ba_ack_cb E) q)
  | [] => (None, mkBasicAck cb [])
  end.

(** ** [CCT] *)

(** [CCTuple] *)
Record CCTuple := mkCCTuple { cc_id : Z; cc_dest : value; cc_seq : Z; cc_tcb : bool; cc_wnd : bool }.

Record CCT := mkCCT {
  ct_data_cb : option CB;
  ct_data_on : bool;
  ct_max_wnd : spec_float;
  ct_cwnd : spec_float;
  ct_ssthresh : spec_float;
  ct_tmap : index CCTuple
}.

(** [CCT::CCT(string, double, double)] and its defaults *)
Definition CCT_mk (init_wnd max_wnd : spec_float) : CCT := mkCCT None true max_wnd init_wnd max_wnd [].
Definition CCT_default : CCT := CCT_mk (double_of_int64 1) (double_of_int64 2048).

(** [CCT::CCT(TuplePtr)] *)
Definition CCT_mk_args (args : tuple) : res CCT :=
  let? _ := Tuple_at args 2 in
  let? v := Tuple_at args 3 in let? cwnd := Val_Double_cast v in
  let? v := Tuple_at args 4 in let? max_wnd := Val_Double_cast v in
  Ok (CCT_mk cwnd max_wnd).

(** [CCT::current_window]: [tmap_.size()]; [CCT::max_window]: [int(cwnd_)]. *)
Definition current_window (E : CCT) : Z := Z.of_nat (length (ct_tmap E)).
Definition max_window (E : CCT) : res Z :=
  let? z := of_option UndefinedBehaviour (trunc_int (ct_cwnd E)) in int32 z.

Definition with_window (cwnd ssthresh : spec_float) (E : CCT) : CCT :=
  mkCCT (ct_data_cb E) (ct_data_on E) (ct_max_wnd E) cwnd ssthresh (ct_tmap E).
Definition with_tmap (t : index CCTuple) (E : CCT) : CCT :=
  mkCCT (ct_data_cb E) (ct_data_on E) (ct_max_wnd E) (ct_cwnd E) (ct_ssthresh E) t.
Definition with_data (cb : option CB) (on : bool) (E : CCT) : CCT :=
  mkCCT cb on (ct_max_wnd E) (ct_cwnd E) (ct_ssthresh E) (ct_tmap E).

(** [CCT::successTransmit]: slow start below the threshold, additive increase
    above, within the maximum. *)
Definition grow (max_wnd cwnd ssthresh : spec_float) : spec_float :=
  let cwnd := if SFltb cwnd ssthresh then SFmul 53 1024 cwnd (double_of_int64 2)
              else SFadd 53 1024 cwnd (double_of_int64 1) in
  if SFltb max_wnd cwnd then max_wnd else cwnd.
Definition successTransmit (E : CCT) : CCT :=
  with_window (grow (ct_max_wnd E) (ct_cwnd E) (ct_ssthresh E)) (ct_ssthresh E) E.

(** [CCT::failureTransmit] *)
Definition failureTransmit (E : CCT) : CCT :=
  let two := double_of_int64 2 in
  let ssthresh := SFdiv 53 1024 (ct_cwnd E) two in
  with_window two (if SFltb ssthresh two then two else ssthresh) E.

(** [CCT::dealloc] *)
Definition cct_dealloc (fired : option Z) (dest : value) (seq : Z) (E : CCT)
    : res (list timer_op * list CB * CCT) :=
  match in_flight dest seq (ct_tmap E) with
  | Some record =>
      let tcb := cc_tcb record && negb (bool_decide (fired = Some (cc_id record))) in
      let acts := if tcb then [Cancel (cc_id record)] else [] in
      let E := with_tmap (untrack dest seq (ct_tmap E)) E in
      let? mw := max_window E in
      if (current_window E <? mw) && ct_data_on E
      then Ok (acts, option_list (ct_data_cb E), with_data None (ct_data_on E) E)
      else Ok (acts, [], E)
  | None => Ok ([], [], E)
  end.

(** [CCT::push]: the tuple goes out of port 1. *)
Definition CCT_push (port : nat) (tp : tuple) (E : CCT)
    : res (tuple * list timer_op * list CB * CCT) :=
  let? _ := check (port =? 1)%nat AssertFailed in
  let? ack := is_ack tp in
  if ack then
    let? dest := Tuple_at tp (DEST + 2) in
    let? seq := int_field tp (SEQ + 2) in
    let? (acts, cbs, E) := cct_dealloc None dest seq E in
    Ok (tp, acts, cbs, successTransmit E)
  else Ok (tp, [], [], E).

(** [CCT::map] *)
Definition CCT_map (h : Z) (dest : value) (seq : Z) (rtt : spec_float) (E : CCT) : res (list timer_op * CCT) :=
  let? _ := delay_check (ms_delay rtt) in
  Ok ([ArmPacket h (ms_delay rtt) dest seq],
      with_tmap (track dest seq (mkCCTuple h dest seq true true) (ct_tmap E)) E).

(** [CCT::pull]; [input] is what the input port gives if it is asked.  The
    answer, and whether the input was asked. *)
Definition CCT_pull (port : nat) (h : Z) (input : option tuple) (cb : option CB) (E : CCT)
    : res (option tuple * bool * list timer_op * CCT) :=
  let? _ := check (port =? 0)%nat AssertFailed in
  let? mw := max_window E in
  if current_window E <? mw then
    match input with
    | Some tp =>
        let? seq := int_field tp SEQ in
        let? dest := Tuple_at tp DEST in
        let? v := Tuple_at tp RTT in
        let? rtt := Val_Double_cast v in
        let? (acts, E) := CCT_map h dest seq rtt (with_data (ct_data_cb E) true E) in
        Ok (Some tp, true, acts, E)
    | None => Ok (None, true, [], with_data cb false E)
    end
  else Ok (None, false, [], with_data cb (ct_data_on E) E).

(** [CCT::data_ready] *)
Definition CCT_data_ready (E : CCT) : list CB * CCT := (option_list (ct_data_cb E), with_data None true E).

(** [CCT::timeout_cb].  An object that [map] did not store because its number
    was taken is reached by its timer only, and its [wnd_] stays [true]. *)
Definition clear_wnd (r : CCTuple) : CCTuple := mkCCTuple (cc_id r) (cc_dest r) (cc_seq r) (cc_tcb r) false.
Definition CCT_timeout_cb (h : Z) (dest : value) (seq : Z) (E : CCT)
    : res (list timer_op * list CB * CCT) :=
  let wnd :=
    match in_flight dest seq (ct_tmap E) with
    | Some r => if decide (cc_id r = h) then cc_wnd r else true
    | None => true
    end in
  let E := if wnd then with_tmap (prod_map id (fun m : gmap Z CCTuple => clear_wnd <$> m) <$> ct_tmap E) (failureTransmit E) else E in
  cct_dealloc (Some h) dest seq E.

(** ** [RateCCT] *)

Context `{P : Platform} (pow : spec_float -> spec_float -> spec_float).

Record RateCCT := mkRateCCT {
  rc_data_on : bool;
  rc_data_cbv : option CB;
  rc_trate : Z;
  rc_rrate : Z;
  rc_rtt : Z;
  rc_rto : Z;
  rc_nofeedback : option Z;
  rc_tld : Z;
  rc_index : index Z
}.

(** [RateCCT::RateCCT]; [rrate_] is not initialised, it holds [junk]. *)
Definition RateCCT_mk (now junk : Z) : RateCCT := mkRateCCT true None 1 junk 100 4000 None now [].

Definition tuplesInFlight (E : RateCCT) : Z := Z.of_nat (total (rc_index E)).

Definition rc_with_data (cb : option CB) (on : bool) (E : RateCCT) : RateCCT :=
  mkRateCCT on cb (rc_trate E) (rc_rrate E) (rc_rtt E) (rc_rto E) (rc_nofeedback E) (rc_tld E) (rc_index E).
Definition rc_with_index (t : index Z) (E : RateCCT) : RateCCT :=
  mkRateCCT (rc_data_on E) (rc_data_cbv E) (rc_trate E) (rc_rrate E) (rc_rtt E) (rc_rto E) (rc_nofeedback E) (rc_tld E) t.
Definition rc_with_rates (trate rrate rtt rto : Z) (nofeedback : option Z) (tld : Z) (E : RateCCT) : RateCCT :=
  mkRateCCT (rc_data_on E) (rc_data_cbv E) trate rrate rtt rto nofeedback tld (rc_index E).

(** [RateCCT::delay] *)
Definition rc_delay (now ts : Z) : Z := u32 (total_milliseconds (now - ts)).

(** [RateCCT::unmap]: the timers cancelled, the callbacks called. *)
Definition rc_unmap (dest : value) (seq : Z) (E : RateCCT) : list timer_op * list CB * RateCCT :=
  let acts := match in_flight dest seq (rc_index E) with Some h => [Cancel h] | None => [] end in
  let E := match in_flight dest seq (rc_index E) with
           | Some _ => rc_with_index (untrack dest seq (rc_index E)) E
           | None => E
           end in
  if tuplesInFlight E <? rc_trate E
  then (acts, option_list (rc_data_cbv E), rc_with_data None (rc_data_on E) E)
  else (acts, [], E).

Definition tenth (n : Z) : spec_float := round_ratio false n 10.

(** The filtered round trip time, and the rate the throughput equation allows. *)
Definition filter_rtt (rtt rt : Z) : res Z :=
  let one := double_of_int64 1 in
  u32_of_double (trunc_int (SFadd 53 1024
    (SFmul 53 1024 (tenth 9) (double_of_int64 rtt))
    (SFmul 53 1024 (SFsub 53 1024 one (tenth 9)) (double_of_int64 rt)))).

Definition x_calc (rtt : Z) (p : spec_float) : res Z :=
  let mul := SFmul 53 1024 in let add := SFadd 53 1024 in let div := SFdiv 53 1024 in
  let n := double_of_int64 in
  let f := add (SFsqrt 53 1024 (div (mul (n 2) p) (n 3)))
    (mul (mul (mul (n 12) (SFsqrt 53 1024 (div (mul (n 3) p) (n 8)))) p)
         (add (n 1) (mul (n 32) (pow p (n 2))))) in
  u32_of_double (trunc_int (div (n 1000) (mul (n rtt) f))).

(** The new rate, and the time the rate was last doubled. *)
Definition new_rate (now rtt X_recv : Z) (p : spec_float) (E : RateCCT) : res (Z * Z) :=
  if SFltb (S754_zero false) p then
    let? X := x_calc rtt p in
    Ok (Z.max (Z.min X (u32 (2 * X_recv))) 1, rc_tld E)
  else if rtt <? rc_delay now (rc_tld E) then
    Ok (Z.max (Z.min (u32 (2 * rc_trate E)) (u32 (2 * X_recv))) 2, now)
  else Ok (rc_trate E, rc_tld E).

(** [RateCCT::feedback]; the new timer is [h]. *)
Definition rc_feedback (now h rt X_recv : Z) (p : spec_float) (E : RateCCT) : res (list timer_op * RateCCT) :=
  let acts := match rc_nofeedback E with Some h => [Cancel h] | None => [] end in
  let? rtt := if rc_rtt E =? 0 then Ok rt else filter_rtt (rc_rtt E) rt in
  let rto := u32 (Z.shiftl rtt 2) in
  let? (trate, tld) := new_rate now rtt X_recv p E in
  let? q := if trate =? 0 then Fail DivisionByZero else Ok (8000 / trate) in
  let tms := Z.max rto q in
  Ok (acts ++ [ArmFeedback h (ms_delay (double_of_int64 tms))],
      rc_with_rates trate X_recv rtt rto (Some h) tld E).

(** [RateCCT::feedback_timeout] *)
Definition rc_feedback_timeout (now h : Z) (E : RateCCT) : res (list timer_op * RateCCT) :=
  let rrate := if u32 (2 * rc_rrate E) <? rc_trate E then Z.max (rc_trate E / 2) 1 else rc_trate E / 4 in
  rc_feedback now h (rc_rtt E) rrate (S754_zero false)
    (rc_with_rates (rc_trate E) rrate (rc_rtt E) (rc_rto E) None (rc_tld E) E).

(** [RateCCT::push] on port 1 *)
Definition RateCCT_push (port : nat) (now h : Z) (tp : tuple) (E : RateCCT)
    : res (tuple * list timer_op * list CB * RateCCT) :=
  let? _ := check (port =? 1)%nat AssertFailed in
  let? ack := is_ack tp in
  if ack then
    let? dest := Tuple_at tp (DEST + 2) in
    let? seq := int_field tp (SEQ + 2) in
    let? v := Tuple_at tp (TS + 2) in let? ts := Val_Time_cast v in
    let? rr := int_field tp STACK_SIZE in
    let? v := Tuple_at tp (STACK_SIZE + 1) in let? p := Val_Double_cast v in
    let '(acts, cbs, E) := rc_unmap dest seq E in
    let? (acts', E) := rc_feedback now h (rc_delay now ts) (u32 rr) p E in
    Ok (tp, acts ++ acts', cbs, E)
  else Ok (tp, [], [], E).

(** [RateCCT::package] *)
Definition rc_package (now h : Z) (tp : tuple) (counter : Z) (E : RateCCT)
    : res (tuple * list timer_op * RateCCT * Z) :=
  let? dest := Tuple_at tp DEST in
  let? seq := int_field tp SEQ in
  let acts := [ArmPacket h (ms_delay (double_of_int64 (rc_rto E))) dest seq] in
  let E := rc_with_index (track dest seq h (rc_index E)) E in
  let '(p, counter) := Tuple_mk counter in
  Ok (mkTuple (<[TS := VTime now]> (<[RTT := VInt64 (rc_rtt E)]> (fields tp))) true (tupleID p), acts, E, counter).

(** [RateCCT::pull]; [input] is what the input port gives if it is asked. *)
Definition RateCCT_pull (port : nat) (now h : Z) (input : option tuple) (cb : option CB) (counter : Z) (E : RateCCT)
    : res (option tuple * bool * list timer_op * RateCCT * Z) :=
  if (port =? 0)%nat then
    if tuplesInFlight E <? rc_trate E then
      match input with
      | Some tp =>
          let? (p, acts, E, counter) := rc_package now h tp counter (rc_with_data (rc_data_cbv E) true E) in
          Ok (Some p, true, acts, E, counter)
      | None => Ok (None, true, [], rc_with_data cb false E, counter)
      end
    else Ok (None, false, [], rc_with_data cb (rc_data_on E) E, counter)
  else Ok (None, false, [], E, counter).

(** [RateCCT::data_ready], [RateCCT::tuple_timeout] *)
Definition rc_data_ready (E : RateCCT) : list CB * RateCCT := (option_list (rc_data_cbv E), rc_with_data None true E).
Definition rc_tuple_timeout (dest : value) (seq : Z) (E : RateCCT) := rc_unmap dest seq E.
End congest.
Arguments BasicAck : clear implicits.
Arguments CCT : clear implicits.
Arguments RateCCT : clear implicits.

(** ** Lemmas: packets in flight *)

(** The timers of packets that are armed, with what each was armed for. *)
Abbreviation pending := (gmap Z (value * Z)).

Section inflight_lemmas.
Context {R : Type}.
Implicit Types (t : index R) (dest : value).

Abbreviation peer a b := (equivb value_lt a b).

(** A peer is known by any of its equivalent names. *)
Lemma lookup_peer {C} a b (m : list (value * C)) : cwf m -> plainP a -> plainP b -> peer a b = true ->
  lookup_ a m = lookup_ b m.
Proof.
  intros Hm Pa Pb Hab. apply option_iff. intros c. rewrite !lookup_iff by done.
  assert (Pk : forall k, (k, c) ∈ m -> plainP k).
  { intros k Hk. destruct Hm as [HP _]. rewrite Forall_forall in HP. by apply (HP (k, c)). }
  split; intros (k & Hk & He); exists k; (split; [done|]); specialize (Pk k Hk).
  - rewrite equivb_sym in Hab. by apply (equivb_trans value_lt plainP b a k).
  - by apply (equivb_trans value_lt plainP a b k).
Qed.

Lemma lookup_unmap_peer {C} a b (m : list (value * C)) : cwf m -> plainP a -> plainP b -> peer a b = true ->
  lookup_ b (unmap a m) = None.
Proof.
  intros Hm Pa Pb Hab. destruct (unmap_ok a m Hm Pa) as [Hw Hin].
  destruct (lookup_ b (unmap a m)) as [c|] eqn:E; [|done]. apply lookup_iff in E as (k & Hk & He); [|done..].
  apply Hin in Hk as [Hk Hn]. simpl in Hn.
  assert (Pk : plainP k) by (destruct Hm as [HP _]; rewrite Forall_forall in HP; by apply (HP (k, c))).
  by rewrite (equivb_trans value_lt plainP a b k) in Hn.
Qed.

Lemma Forall_update {C} (Q : value * C -> Prop) dest c (m : list (value * C)) :
  Forall Q m -> (forall k, Q (k, c)) -> Forall Q (update dest c m).
Proof. intros Hm Hc. unfold update. destruct (c_find dest m); [|done]. apply Forall_alter; [done|]. intros []; auto. Qed.

Definition index_wf t : Prop := cwf t /\ Forall (fun e => snd e <> ∅) t.

Lemma new_peer_map {C} dest (c : C) m : lookup_ dest m = None -> set_insert value_lt fst (dest, c) m = map_ dest c m.
Proof. intros El. unfold map_, unmap. by rewrite (lookup_none_find dest m El). Qed.

Lemma in_flight_track t dest seq (r : R) : index_wf t -> plainP dest ->
  index_wf (track dest seq r t)
  /\ forall d s, plainP d -> in_flight d s (track dest seq r t)
       = if peer dest d && (seq =? s) then Some (default r (in_flight dest seq t)) else in_flight d s t.
Proof.
  intros [Hw Hne] Pd. unfold track, in_flight. destruct (lookup_ dest t) as [m|] eqn:El.
  - set (m' := if m !! seq is Some _ then m else <[seq := r]> m).
    assert (Hm' : forall s, m' !! s = if seq =? s then Some (default r (m !! seq)) else m !! s).
    { intros s. unfold m'. destruct (Z.eqb_spec seq s) as [<-|Hs]; destruct (m !! seq) eqn:E; rewrite ?E; try done;
        [by rewrite lookup_insert_eq|by rewrite lookup_insert_ne]. }
    assert (Hn : m' <> ∅) by (intros H; specialize (Hm' seq); by rewrite H, lookup_empty, Z.eqb_refl in Hm').
    split; [split; [by apply cwf_update|by apply Forall_update]|].
    intros d s Pdd. destruct (peer dest d) eqn:Hp; simpl; [|by rewrite lookup_update_ne].
    rewrite <- !(lookup_peer dest d) by (try apply cwf_update; done).
    rewrite lookup_update by (by rewrite El). rewrite Hm', El. by destruct (seq =? s).
  - rewrite new_peer_map by done. destruct (map_ok dest {[seq := r]} t Hw Pd) as [Hw' Hin].
    split; [split; [done|]|].
    { apply Forall_forall. intros e He. rewrite Forall_forall in Hne.
      apply Hin in He as [->|[He _]]; [apply insert_non_empty|by apply Hne]. }
    intros d s Pdd. destruct (peer dest d) eqn:Hp; simpl; [|by rewrite lookup_map_ne].
    rewrite <- !(lookup_peer dest d), lookup_map, El by done.
    destruct (Z.eqb_spec seq s) as [<-|Hs]; [apply lookup_singleton_eq|by apply lookup_singleton_ne].
Qed.

Lemma in_flight_untrack t dest seq : index_wf t -> plainP dest ->
  index_wf (untrack dest seq t)
  /\ forall d s, plainP d -> in_flight d s (untrack dest seq t)
       = if peer dest d && (seq =? s) then None else in_flight d s t.
Proof.
  intros [Hw Hne] Pd. unfold untrack, in_flight. destruct (lookup_ dest t) as [m|] eqn:El.
  - case_decide as Hm.
    + destruct (unmap_ok dest t Hw Pd) as [Hw' Hin]. split; [split; [done|]|].
      { apply Forall_forall. intros e He. rewrite Forall_forall in Hne. apply Hne. by apply Hin in He as [? _]. }
      intros d s Pdd. destruct (peer dest d) eqn:Hp; simpl; [|by rewrite lookup_unmap_ne].
      rewrite lookup_unmap_peer, <- (lookup_peer dest d), El by done.
      destruct (Z.eqb_spec seq s) as [<-|Hs]; [done|].
      by rewrite <- (lookup_delete_ne m seq s), Hm, lookup_empty by done.
    + split; [split; [by apply cwf_update|by apply Forall_update]|].
      intros d s Pdd. destruct (peer dest d) eqn:Hp; simpl; [|by rewrite lookup_update_ne].
      rewrite <- !(lookup_peer dest d) by (try apply cwf_update; done).
      rewrite lookup_update, El by (by rewrite El).
      destruct (Z.eqb_spec seq s) as [<-|Hs]; [apply lookup_delete_eq|by rewrite lookup_delete_ne].
  - split; [done|]. intros d s Pdd. destruct (peer dest d) eqn:Hp; simpl; [|done].
    rewrite <- (lookup_peer dest d), El by done. by destruct (seq =? s).
Qed.

(** The index is empty exactly when nothing is in flight. *)
Lemma in_flight_some t : index_wf t -> t <> [] -> exists d s r, plainP d /\ in_flight d s t = Some r.
Proof.
  intros [Hw Hne] Ht. destruct t as [|[d m] t]; [done|].
  inversion Hne as [|? ? Hm _]; subst. simpl in Hm. apply map_choose in Hm as (s & r & Hr).
  assert (Pd : plainP d) by (destruct Hw as [HP _]; by inversion HP).
  exists d, s, r. split; [done|]. unfold in_flight.
  assert (El : lookup_ d ((d, m) :: t) = Some m).
  { apply lookup_iff; [done..|]. exists d. split; [by left|]. by apply (equivb_refl value_lt plainP). }
  by rewrite El.
Qed.

(** *** Timers of packets; [rid] names the timer of a record. *)

Record timed (rid : R -> Z) (pend : pending) t : Prop := {
  tracked_wf : index_wf t;
  tracked_timer : forall d s r, plainP d -> in_flight d s t = Some r ->
    exists d', pend !! rid r = Some (d', s) /\ plainP d' /\ peer d d' = true
}.

(** A new packet with its timer; when the number is taken, the timer runs
    without a record. *)
Lemma tracked_track rid pend t dest seq (r : R) : timed rid pend t -> plainP dest -> pend !! rid r = None ->
  timed rid (<[rid r := (dest, seq)]> pend) (track dest seq r t).
Proof.
  intros [Hw Ht] Pd Hfresh. destruct (in_flight_track t dest seq r Hw Pd) as [Hw' Hl]. split; [done|].
  assert (Hold : forall d s r', plainP d -> in_flight d s t = Some r' ->
    exists d', <[rid r := (dest, seq)]> pend !! rid r' = Some (d', s) /\ plainP d' /\ peer d d' = true).
  { intros d s r' Pdd H. destruct (Ht d s r' Pdd H) as (d' & Hp & ?). exists d'. split; [|done].
    rewrite lookup_insert_ne; [done|]. intros E. rewrite E in Hfresh. congruence. }
  intros d s r' Pdd. rewrite Hl by done. destruct (peer dest d && (seq =? s)) eqn:E; [|by apply Hold].
  apply andb_true_iff in E as [Hp Hs]. apply Z.eqb_eq in Hs as <-. intros [= <-].
  destruct (in_flight dest seq t) as [r0|] eqn:Ef; simpl.
  - destruct (Hold dest seq r0 Pd Ef) as (d' & ? & Pd' & Hp'). exists d'. split_and!; [done..|].
    rewrite equivb_sym in Hp. by apply (equivb_trans value_lt plainP d dest d').
  - exists dest. rewrite lookup_insert_eq, equivb_sym. done.
Qed.

(** The record of a packet goes, and its timer with it. *)
Lemma tracked_untrack rid pend t dest seq (r : R) : timed rid pend t -> plainP dest ->
  in_flight dest seq t = Some r -> timed rid (delete (rid r) pend) (untrack dest seq t).
Proof.
  intros [Hw Ht] Pd Hr. destruct (in_flight_untrack t dest seq Hw Pd) as [Hw' Hl]. split; [done|].
  intros d s r' Pdd. rewrite Hl by done. destruct (peer dest d && (seq =? s)) eqn:E; [done|]. intros Hr'.
  destruct (Ht d s r' Pdd Hr') as (d' & Hp & Pd' & Hpd). destruct (Ht dest seq r Pd Hr) as (d0 & Hp0 & Pd0 & Hpd0).
  exists d'. split; [|done]. rewrite lookup_delete_ne; [done|]. intros Heq. rewrite Heq, Hp in Hp0. simplify_eq.
  rewrite Z.eqb_refl, andb_true_r in E. rewrite equivb_sym in Hpd.
  by rewrite (equivb_trans value_lt plainP dest d0 d) in E.
Qed.

(** A timer that fires takes its packet with it, and the timer of the record
    that holds the packet's number. *)
Lemma tracked_fire rid pend t h dest seq : timed rid pend t -> plainP dest -> pend !! h = Some (dest, seq) ->
  timed rid (delete h (match in_flight dest seq t with Some r => delete (rid r) pend | None => pend end))
    (match in_flight dest seq t with Some _ => untrack dest seq t | None => t end).
Proof.
  intros Htr Pd Hh.
  assert (H : timed rid (match in_flight dest seq t with Some r => delete (rid r) pend | None => pend end)
            (match in_flight dest seq t with Some _ => untrack dest seq t | None => t end)
      /\ in_flight dest seq (match in_flight dest seq t with Some _ => untrack dest seq t | None => t end) = None).
  { destruct (in_flight dest seq t) as [r|] eqn:E; [|done]. split; [by apply tracked_untrack|].
    destruct (in_flight_untrack t dest seq (tracked_wf _ _ _ Htr) Pd) as [_ Hl].
    by rewrite Hl, (equivb_refl value_lt plainP), Z.eqb_refl. }
  destruct H as [[Hw Ht] Hno]. split; [done|]. intros d s r Pdd Hr.
  destruct (Ht d s r Pdd Hr) as (d' & Hp & Pd' & Hpd). exists d'. split; [|done].
  rewrite lookup_delete_ne; [done|]. intros ->.
  assert (Hp' : pend !! rid r = Some (d', s)).
  { revert Hp. destruct (in_flight dest seq t); [|done]. intros Hp. by apply lookup_delete_Some in Hp as [_ ?]. }
  rewrite Hh in Hp'. simplify_eq. unfold in_flight in Hr, Hno.
  rewrite <- (lookup_peer d d') in Hno by (try apply Hw; done). by rewrite Hr in Hno.
Qed.
End inflight_lemmas.
