(* ===== verification/Congested.v ===== *)
(** * Congestion control: theorems

    The elements of Congest.v with the timers they arm: no assertion fails, the
    estimates and windows stay in range, no packet in flight is without a timer
    and no consumer waits for ever. *)

From Stdlib Require Import SpecFloat String.
From stdpp Require Import gmap.
From S2P Require Import Prelude Ids Stl Values Tuples Fdbuf Xdr Casts Frag Delivery Ordered Congest.

Local Open Scope p2_scope.

(** ** Round trip times *)

(** A record whose measurements lay in [L, M]. *)
Record rtt_ok (L M : Z) (r : RTTRec) : Prop := {
  rtt_rto : MIN_RTO <= rto_ r <= MAX_RTO;
  rtt_est : (sa_ r = -1 /\ sv_ r = 0) \/ (8 * L <= sa_ r <= 8 * M /\ 0 <= sv_ r <= 4 * (M - L))
}.

Lemma rtt_ok_fresh L M : rtt_ok L M RTTRec_mk.
Proof. by split; [|left]. Qed.

Lemma rtt_ok_mono L M M' r : M <= M' -> rtt_ok L M r -> rtt_ok L M' r.
Proof. intros H [H1 [?|[??]]]; split; try done; [by left|right; lia]. Qed.

Lemma clamp_rto_range rto : MIN_RTO <= clamp_rto rto <= MAX_RTO.
Proof. unfold clamp_rto, MIN_RTO, MAX_RTO. repeat case_match; bools; lia. Qed.

Lemma int32_ok z : is_i32 z -> int32 z = Ok z.
Proof. intros H. unfold int32. by rewrite decide_True. Qed.

(** A timeout, and a measurement within the bounds, keep the record within the
    bounds; no [int32_t] overflows. *)
Lemma timeout_ok L M r : rtt_ok L M r -> exists r', timeout r = Ok r' /\ rtt_ok L M r' /\ sa_ r' = sa_ r.
Proof.
  intros [Hr He]. unfold timeout, MIN_RTO, MAX_RTO in *. rewrite Z.shiftl_mul_pow2 by lia.
  rewrite int32_ok by (unfold is_i32; lia). simpl. eexists. split; [done|].
  split; [split; [apply clamp_rto_range|done]|done].
Qed.

Lemma add_rtt_meas_ok L M m r : 0 <= L <= m -> m <= M < 2 ^ 28 - 2 -> rtt_ok L M r ->
  exists r', add_rtt_meas m r = Ok r' /\ rtt_ok L M r' /\ sa_ r' <> -1.
Proof.
  intros HL HM [Hr He]. unfold add_rtt_meas. destruct (Z.ltb_spec m 0) as [?|_]; [lia|].
  rewrite !Z.shiftl_mul_pow2, !Z.shiftr_div_pow2 by lia.
  assert (Hc : forall a b c, rtt_ok L M (mkRTT a b (clamp_rto c)) <->
    (a = -1 /\ b = 0) \/ (8 * L <= a <= 8 * M /\ 0 <= b <= 4 * (M - L))).
  { intros a b c. split; [by intros []|]. intros H. split; [apply clamp_rto_range|done]. }
  change (2 ^ 3) with 8. change (2 ^ 2) with 4. destruct (Z.eqb_spec (sa_ r) (-1)) as [E|E].
  - rewrite !int32_ok by (unfold is_i32; lia). simpl. rewrite int32_ok by (unfold is_i32; lia). simpl.
    eexists. split; [done|]. rewrite Hc. simpl. lia.
  - destruct He as [[? _]|[Ha Hv]]; [lia|]. set (q := sa_ r / 8). assert (Hq : 8 * q <= sa_ r < 8 * q + 8) by (unfold q; Z.to_euclidean_division_equations; lia).
    rewrite int32_ok by (unfold is_i32; lia). simpl. rewrite int32_ok by (unfold is_i32; lia). simpl.
    set (d := if m - q <? 0 then int32 (-1 * (m - q)) else Ok (m - q)).
    assert (Hd : d = Ok (Z.abs (m - q))).
    { unfold d. destruct (Z.ltb_spec (m - q) 0); [|f_equal; lia]. rewrite int32_ok by (unfold is_i32; lia). f_equal. lia. }
    rewrite Hd. simpl. set (u := sv_ r / 4). assert (Hu : 4 * u <= sv_ r < 4 * u + 4) by (unfold u; Z.to_euclidean_division_equations; lia).
    rewrite int32_ok by (unfold is_i32; lia). simpl. rewrite int32_ok by (unfold is_i32; lia). simpl.
    rewrite !Z.shiftr_div_pow2 by lia. change (2 ^ 3) with 8.
    assert (0 <= (sa_ r + (m - q)) / 8 < 2 ^ 28) by (Z.to_euclidean_division_equations; lia).
    rewrite int32_ok by (unfold is_i32; lia). simpl. eexists. split; [done|]. rewrite Hc. simpl. lia.
Qed.

(** What happens to the record of a destination. *)
Inductive rtt_event := Measured (m : Z) | TimedOut.

Fixpoint rtt_events (evs : list rtt_event) (r : RTTRec) : res RTTRec :=
  match evs with
  | [] => Ok r
  | ev :: evs' =>
      let? r := match ev with Measured m => add_rtt_meas m r | TimedOut => timeout r end in
      rtt_events evs' r
  end.

Definition within (L M : Z) (ev : rtt_event) : Prop := match ev with Measured m => L <= m <= M | TimedOut => True end.

(** C21: for every sequence of measurements between [L] and [M] milliseconds and of
    timeouts, the estimator never overflows an [int32_t], the timeout stays
    between half a second and five seconds, the mean is between [L] and [M] and
    the deviation at most [M - L]; without a measurement there is no estimate. *)
Theorem rtt_estimate_bounded (L M : Z) (evs : list rtt_event) : 0 <= L -> M < 2 ^ 28 - 2 ->
  Forall (within L M) evs ->
  exists r, rtt_events evs RTTRec_mk = Ok r /\ 500 <= rto_ r <= 5000
    /\ if existsb (fun ev => if ev is Measured _ then true else false) evs
       then L <= Z.shiftr (sa_ r) 3 <= M /\ 0 <= Z.shiftr (sv_ r) 2 <= M - L
       else sa_ r = -1.
Proof.
  intros HL HM Hevs.
  assert (H : forall r, rtt_ok L M r -> exists r', rtt_events evs r = Ok r' /\ rtt_ok L M r'
    /\ if existsb (fun ev => if ev is Measured _ then true else false) evs then sa_ r' <> -1
       else sa_ r' = sa_ r).
  { induction Hevs as [|ev evs Hev Hevs IH]; intros r Hr; [by exists r|]. destruct ev as [m|]; simpl.
    - destruct (add_rtt_meas_ok L M m r) as (r1 & -> & H1 & Hs1); [simpl in Hev; lia..|done|]. simpl.
      destruct (IH r1 H1) as (r2 & E2 & H2 & Hs2). exists r2. split_and!; [done..|].
      destruct (existsb _ evs); [done|by rewrite Hs2].
    - destruct (timeout_ok L M r Hr) as (r1 & -> & H1 & Hs1). simpl.
      destruct (IH r1 H1) as (r2 & E2 & H2 & Hs2). exists r2. split_and!; [done..|].
      destruct (existsb _ evs); [done|by rewrite Hs2]. }
  destruct (H RTTRec_mk (rtt_ok_fresh L M)) as (r & E & [Hr He] & Hs). exists r. split; [done|].
  split; [done|]. destruct (existsb _ evs); [|done]. destruct He as [[? _]|[Ha Hv]]; [done|].
  rewrite !Z.shiftr_div_pow2 by lia. change (2 ^ 3) with 8. change (2 ^ 2) with 4.
  Z.to_euclidean_division_equations; lia.
Qed.

(** *** The element and its timers *)

Definition apply_op (pend : pending) (o : timer_op) : pending :=
  match o with
  | ArmPacket h _ dest seq => <[h := (dest, seq)]> pend
  | ArmFeedback _ _ => pend
  | Cancel h => delete h pend
  end.
Definition apply_ops (ops : list timer_op) (pend : pending) : pending := foldl apply_op pend ops.

(** The element, the clock, the next handle, the armed timers, the counter of
    tuples. *)
Record RttWorld := mkRttWorld { rw_now : Z; rw_next : Z; rw_pend : pending; rw_count : Z; rw_elem : RoundTripTimer }.

(** Time passes, a packet goes through, an acknowledgement arrives, a timer
    fires (if it is armed). *)
Inductive rtt_op := RttTick (d : Z) | RttSend (p : tuple) | RttAck (tp : tuple) | RttFire (h : Z).

Definition rtt_step (o : rtt_op) (w : RttWorld) : res RttWorld :=
  let '(mkRttWorld now next pend count E) := w in
  match o with
  | RttTick d => Ok (mkRttWorld (now + d) next pend count E)
  | RttSend p =>
      let? (_, acts, E, count) := RoundTripTimer_simple_action now next p count E in
      Ok (mkRttWorld now (next + 1) (apply_ops acts pend) count E)
  | RttAck tp =>
      let? (acts, E) := RoundTripTimer_ack now tp E in
      Ok (mkRttWorld now next (apply_ops acts pend) count E)
  | RttFire h =>
      match pend !! h with
      | Some (dest, seq) =>
          let? (acts, E) := RoundTripTimer_timeout_cb now h dest seq E in
          Ok (mkRttWorld now next (apply_ops acts (delete h pend)) count E)
      | None => Ok w
      end
  end.
Fixpoint rtt_run (ops : list rtt_op) (w : RttWorld) : res RttWorld :=
  match ops with [] => Ok w | o :: ops' => let? w := rtt_step o w in rtt_run ops' w end.

(** A packet, and an acknowledgement: the fields the elements read are there. *)
Definition header_ok (p : tuple) : Prop :=
  exists dest seq, fields p !! DEST = Some dest /\ plainP dest /\ fields p !! SEQ = Some (VInt64 seq).
Definition reply_ok (tp : tuple) : Prop :=
  exists b, is_ack tp = Ok b /\ (b = true ->
    exists dest seq, fields tp !! (DEST + 2)%nat = Some dest /\ plainP dest /\ fields tp !! (SEQ + 2)%nat = Some (VInt64 seq)).
Definition rtt_op_ok (o : rtt_op) : Prop :=
  match o with RttTick d => 0 <= d | RttSend p => header_ok p | RttAck tp => reply_ok tp | RttFire _ => True end.
Definition elapsed (o : rtt_op) : Z := match o with RttTick d => d | _ => 0 end.

(** The invariant; [t0] is the time of the start. *)
Record rtt_inv (t0 : Z) (w : RttWorld) : Prop := {
  ri_now : t0 <= rw_now w;
  ri_peers : cwf (rttmap_ (rw_elem w));
  ri_tracked : timed tt_id (rw_pend w) (rtt_tmap (rw_elem w));
  ri_fresh : forall h, is_Some (rw_pend w !! h) -> h < rw_next w;
  ri_known : forall h d s, rw_pend w !! h = Some (d, s) -> plainP d /\ is_Some (lookup_ d (rttmap_ (rw_elem w)));
  ri_stamps : forall d s tt, plainP d -> in_flight d s (rtt_tmap (rw_elem w)) = Some tt ->
    tt_tcb tt = true /\ t0 <= tt_tt tt <= rw_now w;
  ri_records : forall d r, plainP d -> lookup_ d (rttmap_ (rw_elem w)) = Some r ->
    rtt_ok 0 (total_milliseconds (rw_now w - t0)) r
}.

Lemma lookup_update_any {C} a b (c : C) (m : list (value * C)) : cwf m -> plainP a -> plainP b ->
  is_Some (lookup_ a m) ->
  lookup_ b (update a c m) = if equivb value_lt a b then Some c else lookup_ b m.
Proof.
  intros Hm Pa Pb Hs. destruct (equivb value_lt a b) eqn:E; [|by apply lookup_update_ne].
  rewrite <- (lookup_peer a b) by (try apply cwf_update; done). by apply lookup_update.
Qed.

Lemma total_milliseconds_bound a b : 0 <= a <= b -> 0 <= total_milliseconds a <= total_milliseconds b.
Proof. intros H. unfold total_milliseconds. split; [apply Z.quot_pos; lia|apply Z.quot_le_mono; lia]. Qed.

Lemma to_int32_small z : 0 <= z < 2 ^ 31 -> to_int32 z = z.
Proof. intros H. unfold to_int32. rewrite Z.mod_small by lia. lia. Qed.

(** The slot of a packet is emptied, and the timer of its record cancelled
    unless it is the one that fires. *)
Lemma rtt_dealloc_eq now fired dest seq t :
  (forall tt, in_flight dest seq t = Some tt -> tt_tcb tt = true) ->
  exists delay acts, rtt_dealloc now fired dest seq t
      = (delay, acts, match in_flight dest seq t with Some _ => untrack dest seq t | None => t end)
    /\ delay = match in_flight dest seq t with Some x => tt_delay now x | None => -1 end
    /\ forall pend, apply_ops acts (if fired is Some h then delete h pend else pend)
       = (let pend' := match in_flight dest seq t with Some x => delete (tt_id x) pend | None => pend end in
          if fired is Some h then delete h pend' else pend').
Proof.
  intros Htcb. unfold rtt_dealloc. destruct (in_flight dest seq t) as [tt|] eqn:E.
  - rewrite (Htcb tt) by done. simpl. eexists _, _. split; [done|]. split; [done|]. intros pend.
    destruct fired as [h|]; simpl; [|done]. case_bool_decide as Hf; simpl.
    + injection Hf as ->. by rewrite delete_delete_eq.
    + by rewrite delete_delete.
  - eexists _, _. split; [done|]. split; [done|]. intros pend. by destruct fired.
Qed.

Section rtt_steps.
Variable t0 : Z.

Lemma ri_delay w d s tt : rtt_inv t0 w -> plainP d -> in_flight d s (rtt_tmap (rw_elem w)) = Some tt ->
  total_milliseconds (rw_now w - t0) < 2 ^ 28 - 2 ->
  0 <= tt_delay (rw_now w) tt <= total_milliseconds (rw_now w - t0).
Proof.
  intros Hw Pd Htt Hlim. destruct (ri_stamps _ _ Hw d s tt Pd Htt) as [_ Ht]. unfold tt_delay.
  pose proof (total_milliseconds_bound (rw_now w - tt_tt tt) (rw_now w - t0)) as Hb.
  rewrite to_int32_small; lia.
Qed.

(** Emptying a slot and changing the record of its destination. *)
Lemma rtt_inv_settle now next pend count E dest seq r h :
  rtt_inv t0 (mkRttWorld now next pend count E) -> plainP dest ->
  is_Some (lookup_ dest (rttmap_ E)) -> rtt_ok 0 (total_milliseconds (now - t0)) r ->
  (if h is Some h then pend !! h = Some (dest, seq) else True) ->
  let t := rtt_tmap E in
  let pend' := match in_flight dest seq t with Some x => delete (tt_id x) pend | None => pend end in
  rtt_inv t0 (mkRttWorld now next (if h is Some h then delete h pend' else pend') count
    (mkRoundTripTimer (update dest r (rttmap_ E)) (match in_flight dest seq t with Some _ => untrack dest seq t | None => t end))).
Proof.
  intros [Hnow Hp Ht Hf Hk Hst Hr] Pd Hd Hok Hh t pend'. simpl in *.
  assert (Hsub : forall k x, (if h is Some h then delete h pend' else pend') !! k = Some x -> pend !! k = Some x).
  { intros k x. assert (H : pend' !! k = Some x -> pend !! k = Some x).
    { unfold pend'. destruct (in_flight dest seq t); [|done]. by intros [_ ?]%lookup_delete_Some. }
    destruct h; [|done]. intros [_ ?]%lookup_delete_Some. auto. }
  split; simpl; try done.
  - by apply cwf_update.
  - destruct h as [h|]; [by apply tracked_fire|]. unfold pend'. destruct (in_flight dest seq t) eqn:E1; [|done].
    by apply tracked_untrack.
  - intros k [x Hx]. apply Hf. exists x. by apply Hsub.
  - intros k d s Hx. destruct (Hk k d s (Hsub _ _ Hx)) as [Pdd Hs]. split; [done|].
    rewrite lookup_update_any by done. by destruct (equivb _ _ _).
  - intros d s tt Pdd Htt. apply (Hst d s tt Pdd). fold t. revert Htt. destruct (in_flight dest seq t) eqn:E1; [|done].
    destruct (in_flight_untrack t dest seq (tracked_wf _ _ _ Ht) Pd) as [_ Hl]. rewrite Hl by done. by destruct (_ && _).
  - intros d r' Pdd. rewrite lookup_update_any by done. destruct (equivb _ _ _); [by intros [= <-]|by apply Hr].
Qed.

Lemma rtt_send_ok w p : rtt_inv t0 w -> header_ok p ->
  exists w', rtt_step (RttSend p) w = Ok w' /\ rtt_inv t0 w' /\ rw_now w' = rw_now w.
Proof.
  destruct w as [now next pend count E]. intros [Hnow Hp Ht Hf Hk Hst Hr] (dest & seq & Hd & Pd & Hs). simpl in *.
  unfold RoundTripTimer_simple_action, int_field, Tuple_at. rewrite Hs, Hd. simpl.
  set (m := match lookup_ dest (rttmap_ E) with Some _ => rttmap_ E | None => map_ dest RTTRec_mk (rttmap_ E) end).
  assert (Hm : (match lookup_ dest (rttmap_ E) with
      | Some r => (r, rttmap_ E) | None => (RTTRec_mk, set_insert value_lt fst (dest, RTTRec_mk) (rttmap_ E)) end)
      = (default RTTRec_mk (lookup_ dest (rttmap_ E)), m)).
  { unfold m. destruct (lookup_ dest (rttmap_ E)) eqn:El; [done|]. by rewrite new_peer_map. }
  rewrite Hm. simpl. eexists. split; [done|]. split; [|done].
  assert (Hl : cwf m /\ is_Some (lookup_ dest m) /\ forall d, plainP d ->
    (is_Some (lookup_ d (rttmap_ E)) -> is_Some (lookup_ d m))
    /\ forall r, lookup_ d m = Some r -> lookup_ d (rttmap_ E) = Some r \/ r = RTTRec_mk).
  { unfold m. destruct (lookup_ dest (rttmap_ E)) as [r0|] eqn:El.
    - rewrite El. split_and!; [done|by eexists|]. intros d Pdd. split; [done|]. by left.
    - destruct (map_ok dest RTTRec_mk (rttmap_ E) Hp Pd) as [Hw' _]. rewrite lookup_map by done. split_and!; [done|by eexists|].
      intros d Pdd. destruct (equivb value_lt dest d) eqn:Ed.
      + rewrite <- !(lookup_peer dest d), lookup_map by done. split; [by eexists|]. intros r [= <-]. by right.
      + rewrite lookup_map_ne by done. split; [done|]. by left. }
  destruct Hl as (Hwm & Hdm & Hl).
  assert (Hfresh : pend !! next = None).
  { destruct (pend !! next) eqn:E1; [|done]. specialize (Hf next). rewrite E1 in Hf. specialize (Hf (mk_is_Some _ _ eq_refl)). lia. }
  split; simpl; try done.
  - by apply (tracked_track tt_id pend (rtt_tmap E) dest seq (mkTT next now dest seq true)).
  - intros h [x Hx]. destruct (decide (next = h)) as [->|Hne]; [lia|]. rewrite lookup_insert_ne in Hx by done.
    specialize (Hf h (mk_is_Some _ _ Hx)). lia.
  - intros h d s Hx. destruct (decide (next = h)) as [->|Hne].
    + rewrite lookup_insert_eq in Hx. by simplify_eq.
    + rewrite lookup_insert_ne in Hx by done. destruct (Hk h d s Hx) as [Pdd Hs']. split; [done|]. by apply Hl.
  - intros d s tt Pdd. destruct (in_flight_track (rtt_tmap E) dest seq (mkTT next now dest seq true) (tracked_wf _ _ _ Ht) Pd) as [_ Hg].
    rewrite Hg by done. destruct (_ && _); [|by apply Hst]. intros [= <-].
    destruct (in_flight dest seq (rtt_tmap E)) as [tt0|] eqn:E0; simpl; [by apply (Hst dest seq)|lia].
  - intros d r Pdd Hx. destruct (Hl d Pdd) as [_ Hl']. destruct (Hl' r Hx) as [?| ->]; [by apply (Hr d)|apply rtt_ok_fresh].
Qed.

Lemma rtt_ack_ok w tp : rtt_inv t0 w -> reply_ok tp -> total_milliseconds (rw_now w - t0) < 2 ^ 28 - 2 ->
  exists w', rtt_step (RttAck tp) w = Ok w' /\ rtt_inv t0 w' /\ rw_now w' = rw_now w.
Proof.
  intros Hw (b & Hb & Hf) Hlim. pose proof (fun d s tt => ri_delay w d s tt Hw) as Hdel.
  destruct w as [now next pend count E]. unfold rtt_step, RoundTripTimer_ack. rewrite Hb. simpl.
  destruct b; [|by eexists]. destruct (Hf eq_refl) as (dest & seq & Hd & Pd & Hs).
  unfold int_field, Tuple_at. simpl in Hd, Hs. rewrite Hd. simpl. rewrite Hs. simpl.
  destruct (lookup_ dest (rttmap_ E)) as [r|] eqn:El; [|by eexists].
  destruct (rtt_dealloc_eq now None dest seq (rtt_tmap E)) as (delay & acts & Hde & Hdl & Happ).
  { intros tt Htt. by apply (ri_stamps _ _ Hw dest seq tt). }
  rewrite Hde. assert (Hr : exists r', add_rtt_meas delay r = Ok r' /\ rtt_ok 0 (total_milliseconds (now - t0)) r').
  { pose proof (ri_records _ _ Hw dest r Pd El) as Hok. subst delay. destruct (in_flight dest seq (rtt_tmap E)) as [tt|] eqn:Et.
    - specialize (Hdel dest seq tt Pd Et Hlim). simpl in Hdel. simpl in Hok.
      destruct (add_rtt_meas_ok 0 (total_milliseconds (now - t0)) (tt_delay now tt) r) as (r' & ? & ? & _); [simpl in *; lia..|done|by exists r'].
    - by exists r. }
  destruct Hr as (r' & -> & Hok). simpl. eexists. split; [done|]. split; [|done]. rewrite (Happ pend).
  apply (rtt_inv_settle now next pend count E dest seq r' None); done.
Qed.

Lemma rtt_fire_ok w h : rtt_inv t0 w ->
  exists w', rtt_step (RttFire h) w = Ok w' /\ rtt_inv t0 w' /\ rw_now w' = rw_now w.
Proof.
  intros Hw. destruct w as [now next pend count E]. simpl. destruct (pend !! h) as [[dest seq]|] eqn:Eh; [|by eexists].
  destruct (ri_known _ _ Hw h dest seq Eh) as [Pd [r El]]. unfold RoundTripTimer_timeout_cb. simpl in El. rewrite El. simpl.
  destruct (timeout_ok 0 (total_milliseconds (now - t0)) r (ri_records _ _ Hw dest r Pd El)) as (r' & -> & Hok & _). simpl.
  destruct (rtt_dealloc_eq now (Some h) dest seq (rtt_tmap E)) as (delay & acts & Hde & _ & Happ).
  { intros tt Htt. by apply (ri_stamps _ _ Hw dest seq tt). }
  rewrite Hde. simpl. eexists. split; [done|]. split; [|done]. rewrite (Happ pend).
  apply (rtt_inv_settle now next pend count E dest seq r' (Some h)); done.
Qed.

Lemma rtt_step_ok w o : rtt_inv t0 w -> rtt_op_ok o ->
  total_milliseconds (rw_now w + elapsed o - t0) < 2 ^ 28 - 2 ->
  exists w', rtt_step o w = Ok w' /\ rtt_inv t0 w' /\ rw_now w' = rw_now w + elapsed o.
Proof.
  intros Hw Ho Hlim. destruct o as [d|p|tp|h]; simpl in Hlim, Ho; rewrite ?Z.add_0_r in *; simpl elapsed; rewrite ?Z.add_0_r.
  - destruct w as [now next pend count E]. eexists. split; [done|]. split; [|done].
    destruct Hw as [Hnow Hp Ht Hf Hk Hst Hr]. simpl in *. split; simpl; try done; [lia| |].
    + intros d' s tt Pd Htt. destruct (Hst d' s tt Pd Htt). split; [done|lia].
    + intros d' r Pd Hx. apply (rtt_ok_mono 0 (total_milliseconds (now - t0))); [|by apply (Hr d')].
      apply total_milliseconds_bound. lia.
  - by apply rtt_send_ok.
  - by apply rtt_ack_ok.
  - by apply rtt_fire_ok.
Qed.
End rtt_steps.

Definition rtt_start (now : Z) : RttWorld := mkRttWorld now 0 ∅ 0 RoundTripTimer_mk.

Lemma rtt_start_inv now : rtt_inv now (rtt_start now).
Proof.
  split; simpl; try done.
  - repeat constructor.
  - split; [repeat constructor|]. intros d s r _ H. done.
  - intros h [x Hx]. by rewrite lookup_empty in Hx.
Qed.

Fixpoint duration (ops : list rtt_op) : Z := match ops with [] => 0 | o :: ops' => elapsed o + duration ops' end.

(** C22: whatever packets pass, acknowledgements arrive - known or not, twice or
    late - and timers fire in the first three days, [RoundTripTimer] never stops:
    every assertion holds and no [int32_t] overflows; every record in flight has
    a timer armed for it, and every timeout is between half a second and five
    seconds with a mean between zero and the time since the start. *)
Theorem rtt_timer_sound (t0 : Z) (ops : list rtt_op) : Forall rtt_op_ok ops ->
  total_milliseconds (duration ops) < 2 ^ 28 - 2 ->
  exists w, rtt_run ops (rtt_start t0) = Ok w
    /\ (forall d s tt, plainP d -> in_flight d s (rtt_tmap (rw_elem w)) = Some tt ->
          exists d', rw_pend w !! tt_id tt = Some (d', s) /\ plainP d' /\ equivb value_lt d d' = true)
    /\ (forall d r, plainP d -> lookup_ d (rttmap_ (rw_elem w)) = Some r ->
          500 <= rto_ r <= 5000
          /\ (sa_ r = -1 \/ 0 <= Z.shiftr (sa_ r) 3 <= total_milliseconds (rw_now w - t0))).
Proof.
  intros Hops Hlim.
  assert (H : forall w, rtt_inv t0 w -> total_milliseconds (rw_now w + duration ops - t0) < 2 ^ 28 - 2 ->
    exists w', rtt_run ops w = Ok w' /\ rtt_inv t0 w').
  { clear Hlim. induction Hops as [|o ops Ho Hops IH]; intros w Hw Hlim; [by exists w|]. simpl in Hlim.
    assert (Hd : 0 <= elapsed o /\ 0 <= duration ops).
    { clear -Ho Hops. split; [by destruct o|]. induction Hops as [|o' ops' Ho' _ IH']; simpl; [lia|].
      assert (0 <= elapsed o') by (by destruct o'). lia. }
    pose proof (ri_now _ _ Hw). destruct (rtt_step_ok t0 w o Hw Ho) as (w1 & E1 & H1 & Hn1).
    { pose proof (total_milliseconds_bound (rw_now w + elapsed o - t0) (rw_now w + (elapsed o + duration ops) - t0)). lia. }
    simpl. rewrite E1. simpl. apply IH; [done|]. rewrite Hn1. by rewrite <- Z.add_assoc. }
  destruct (H (rtt_start t0)) as (w & E & Hw); [apply rtt_start_inv|simpl; by replace (t0 + duration ops - t0) with (duration ops) by lia|].
  exists w. split; [done|]. split; [apply Hw|]. intros d r Pd Hr. destruct (ri_records _ _ Hw d r Pd Hr) as [Hrto He].
  split; [done|]. destruct He as [[? _]|[Ha _]]; [by left|right]. rewrite Z.shiftr_div_pow2 by lia. change (2 ^ 3) with 8.
  Z.to_euclidean_division_equations; lia.
Qed.

(** *** Witnesses *)

Definition congest_packet (dest : value) (seq : Z) : tuple :=
  mkTuple [dest; VStr "me"; VDouble (double_of_int64 0); VNull; VNull; VNull; VInt64 0; VInt64 seq; VStr "data"] true 1.
Definition congest_reply (dest : value) (seq : Z) : tuple :=
  mkTuple (VStr "me" :: VStr "ACK" :: fields (congest_packet dest seq)) true 2.

Lemma congest_packet_ok s n : header_ok (congest_packet (VStr s) n).
Proof. by exists (VStr s), n. Qed.
Lemma congest_reply_ok s n : reply_ok (congest_reply (VStr s) n).
Proof. exists true. split; [done|]. intros _. by exists (VStr s), n. Qed.

Lemma rtt_estimate_bounded_witness :
  exists r, rtt_events [Measured 120; TimedOut; Measured 80; Measured 95] RTTRec_mk = Ok r /\ 500 <= rto_ r <= 5000
    /\ 80 <= Z.shiftr (sa_ r) 3 <= 120 /\ 0 <= Z.shiftr (sv_ r) 2 <= 120 - 80.
Proof.
  apply (rtt_estimate_bounded 80 120 [Measured 120; TimedOut; Measured 80; Measured 95]); [lia|lia|].
  repeat constructor; simpl; lia.
Defined.

(** Two packets to one peer, one acknowledged twice, one lost. *)
Definition rtt_demo : list rtt_op :=
  [RttSend (congest_packet (VStr "a:1") 1); RttSend (congest_packet (VStr "a:1") 2); RttTick (90 * 10 ^ 6);
   RttAck (congest_reply (VStr "a:1") 1); RttAck (congest_reply (VStr "a:1") 1); RttTick (5 * 10 ^ 9); RttFire 1; RttFire 0].

Lemma rtt_timer_sound_witness :
  exists w, rtt_run rtt_demo (rtt_start 7) = Ok w
    /\ (forall d s tt, plainP d -> in_flight d s (rtt_tmap (rw_elem w)) = Some tt ->
          exists d', rw_pend w !! tt_id tt = Some (d', s) /\ plainP d' /\ equivb value_lt d d' = true)
    /\ (forall d r, plainP d -> lookup_ d (rttmap_ (rw_elem w)) = Some r ->
          500 <= rto_ r <= 5000
          /\ (sa_ r = -1 \/ 0 <= Z.shiftr (sa_ r) 3 <= total_milliseconds (rw_now w - 7))).
Proof.
  apply (rtt_timer_sound 7 rtt_demo); [|vm_compute; reflexivity].
  unfold rtt_demo.
  repeat (constructor; [first [apply congest_packet_ok|apply congest_reply_ok|simpl; lia|exact I]|]). constructor.
Defined.

Example rtt_demo_rto : (fun w => snd <$> rttmap_ (rw_elem w)) <$> (match rtt_run rtt_demo (rtt_start 7) with Ok w => Some w | Fail _ => None end)
  = Some [mkRTT 720 0 1000].
Proof. vm_compute. reflexivity. Qed.

(** ** The window of [CCT] *)

(** A change of the records that keeps their timers. *)
Section map_records.
Context {R : Type} (f : R -> R).
Definition map_records (t : index R) : index R := prod_map id (fun m : gmap Z R => f <$> m) <$> t.

Lemma map_records_keys t : fst <$> map_records t = fst <$> t.
Proof. unfold map_records. rewrite <- list_fmap_compose. by apply list_fmap_ext. Qed.

Lemma in_flight_map_records d s t : in_flight d s (map_records t) = f <$> in_flight d s t.
Proof.
  unfold in_flight, lookup_. rewrite (c_find_keys d (map_records t) t) by apply map_records_keys.
  destruct (c_find d t) as [i|]; [|done]. unfold map_records. rewrite list_lookup_fmap.
  destruct (t !! i) as [[k m]|]; simpl; [|done]. by rewrite lookup_fmap.
Qed.

Lemma index_wf_map_records t : index_wf t -> index_wf (map_records t).
Proof.
  intros [[HP Hs] Hne]. split; [split|].
  - apply (Forall_fmap fst plainP). rewrite map_records_keys. by apply Forall_fmap.
  - apply sorted_keys. rewrite map_records_keys. by apply sorted_keys.
  - unfold map_records. apply Forall_fmap. apply (Forall_impl _ _ _ Hne). intros [k m] Hm. simpl in *.
    by rewrite fmap_empty_iff.
Qed.

Lemma tracked_map_records rid pend t : (forall r, rid (f r) = rid r) -> timed rid pend t -> timed rid pend (map_records t).
Proof.
  intros Hf [Hw Ht]. split; [by apply index_wf_map_records|]. intros d s r Pd. rewrite in_flight_map_records.
  intros [r0 [Hr ->]]%fmap_Some. rewrite Hf. by apply Ht.
Qed.
End map_records.

(** The windows of an element made with the default arguments are integers
    between 1 and 2048, on which [double] arithmetic is exact. *)
Definition windows : list Z := seqZ 1 2048.

Definition window_step_ok (n : Z) : bool :=
  let cap c := if SFltb (double_of_int64 2048) c then double_of_int64 2048 else c in
  bool_decide (cap (SFmul 53 1024 (double_of_int64 n) (double_of_int64 2)) = double_of_int64 (Z.min (2 * n) 2048))
  && bool_decide (cap (SFadd 53 1024 (double_of_int64 n) (double_of_int64 1)) = double_of_int64 (Z.min (n + 1) 2048))
  && bool_decide (trunc_int (double_of_int64 n) = Some n).

Lemma windows_exact : forallb window_step_ok windows = true.
Proof. vm_compute. reflexivity. Qed.

Lemma window_exact n : 1 <= n <= 2048 -> window_step_ok n = true.
Proof.
  intros Hn. pose proof windows_exact as H. rewrite forallb_forall in H. apply H. unfold windows.
  apply list_elem_of_In, elem_of_seqZ. lia.
Qed.

(** Slow start doubles the window below the threshold; above, it grows by one. *)
Lemma grow_exact n ssthresh : 1 <= n <= 2048 ->
  grow (double_of_int64 2048) (double_of_int64 n) ssthresh
  = double_of_int64 (Z.min (if SFltb (double_of_int64 n) ssthresh then 2 * n else n + 1) 2048).
Proof.
  intros Hn. pose proof (window_exact n Hn) as H. unfold window_step_ok in H. apply andb_true_iff in H as [H _].
  apply andb_true_iff in H as [H1 H2]. apply bool_decide_eq_true in H1, H2. unfold grow. by destruct (SFltb _ ssthresh).
Qed.

Lemma int_of_window n : 1 <= n <= 2048 -> trunc_int (double_of_int64 n) = Some n.
Proof.
  intros Hn. pose proof (window_exact n Hn) as H. unfold window_step_ok in H. apply andb_true_iff in H as [_ H].
  by apply bool_decide_eq_true in H.
Qed.

(** *** The element, its timers and its clients *)
Section cct_world.
Context {CB : Type}.

(** The next handle, the armed timers, what is owed - the callback of the last pull
    that gave nothing, unless it was called since -, a log of the callbacks called,
    each time with what was owed before, and the element. *)
Record CctWorld := mkCctWorld {
  cw_next : Z; cw_pend : pending; cw_owed : option CB; cw_log : list (list CB * option CB); cw_elem : CCT CB
}.
Definition still_owed (cbs : list CB) (owed : option CB) : option CB := match cbs with [] => owed | _ => None end.

(** The consumer pulls while [input] is what the producer would give; an
    acknowledgement arrives; the producer has data again; a timer fires. *)
Inductive cct_op := CctPull (input : option tuple) (cb : CB) | CctPush (tp : tuple) | CctReady | CctFire (h : Z).

Definition cct_step (o : cct_op) (w : CctWorld) : res CctWorld :=
  let '(mkCctWorld next pend owed log E) := w in
  match o with
  | CctPull input cb =>
      let? (out, _, acts, E) := CCT_pull 0 next input (Some cb) E in
      Ok (mkCctWorld (next + 1) (apply_ops acts pend) (match out with Some _ => owed | None => Some cb end) log E)
  | CctPush tp =>
      let? (_, acts, cbs, E) := CCT_push 1 tp E in
      Ok (mkCctWorld next (apply_ops acts pend) (still_owed cbs owed) (log ++ [(cbs, owed)]) E)
  | CctReady =>
      let '(cbs, E) := CCT_data_ready E in Ok (mkCctWorld next pend (still_owed cbs owed) (log ++ [(cbs, owed)]) E)
  | CctFire h =>
      match pend !! h with
      | Some (dest, seq) =>
          let? (acts, cbs, E) := CCT_timeout_cb h dest seq E in
          Ok (mkCctWorld next (apply_ops acts (delete h pend)) (still_owed cbs owed) (log ++ [(cbs, owed)]) E)
      | None => Ok w
      end
  end.
Fixpoint cct_run (ops : list cct_op) (w : CctWorld) : res CctWorld :=
  match ops with [] => Ok w | o :: ops' => let? w := cct_step o w in cct_run ops' w end.

(** A packet as [RoundTripTimer] makes it, with a timeout in it that a timer takes. *)
Definition timed_packet_ok (p : tuple) : Prop :=
  header_ok p /\ exists d, fields p !! RTT = Some (VDouble d) /\ delay_check (ms_delay d) = Ok tt.
Definition cct_op_ok (o : cct_op) : Prop :=
  match o with
  | CctPull (Some p) _ => timed_packet_ok p
  | CctPush tp => reply_ok tp
  | _ => True
  end.

(** The packets and their timers, and the window; whoever waits will be called:
    there is no data, or a packet in flight. *)
Record cct_packets (next : Z) (pend : pending) (E : CCT CB) : Prop := {
  cp_tracked : timed cc_id pend (ct_tmap E);
  cp_fresh : forall h, is_Some (pend !! h) -> h < next;
  cp_plain : forall h d s, pend !! h = Some (d, s) -> plainP d;
  cp_armed : forall d s r, plainP d -> in_flight d s (ct_tmap E) = Some r -> cc_tcb r = true;
  cp_max : ct_max_wnd E = double_of_int64 2048;
  cp_window : exists n, ct_cwnd E = double_of_int64 n /\ 1 <= n <= 2048
}.
Definition cct_waits (E : CCT CB) : Prop := is_Some (ct_data_cb E) -> ct_data_on E = false \/ ct_tmap E <> [].

(** The callbacks an operation calls: nobody, and then the same one waits, or the
    one that waits, and then nobody does. *)
Definition cct_calls (cbs : list CB) (E E' : CCT CB) : Prop :=
  (cbs = [] /\ ct_data_cb E' = ct_data_cb E) \/ (cbs = option_list (ct_data_cb E) /\ ct_data_cb E' = None).
Definition called_owed (l : list CB * option CB) : Prop := fst l = [] \/ exists cb, snd l = Some cb /\ fst l = [cb].

Lemma calls_owed cbs E E' : cct_calls cbs E E' -> still_owed cbs (ct_data_cb E) = ct_data_cb E' /\ called_owed (cbs, ct_data_cb E).
Proof.
  intros [[-> ->]|[-> ->]]; [split; [done|by left]|]. destruct (ct_data_cb E) as [cb|]; cbn; (split; [done|]); [right; by exists cb|by left].
Qed.

Lemma max_window_ok next pend E : cct_packets next pend E -> exists n, max_window E = Ok n /\ 1 <= n <= 2048.
Proof.
  intros H. destruct (cp_window _ _ _ H) as (n & Hn & Hr). exists n. unfold max_window. rewrite Hn, int_of_window by done.
  simpl. by rewrite int32_ok by (unfold is_i32; lia).
Qed.

(** Forgetting a packet calls whoever waits unless the window is still full. *)
Lemma cct_dealloc_ok next pend fired dest seq E : cct_packets next pend E -> cct_waits E -> plainP dest ->
  (if fired is Some h then pend !! h = Some (dest, seq) else True) ->
  exists acts cbs E', cct_dealloc fired dest seq E = Ok (acts, cbs, E')
    /\ cct_packets next (apply_ops acts (if fired is Some h then delete h pend else pend)) E' /\ cct_waits E' /\ cct_calls cbs E E'.
Proof.
  intros Hp Hwt Pd Hh. pose proof Hp as [Ht Hf Hpl Ha Hm Hc]. unfold cct_dealloc.
  destruct (in_flight dest seq (ct_tmap E)) as [r|] eqn:Er.
  - rewrite (Ha dest seq r) by done. simpl. set (E1 := with_tmap (untrack dest seq (ct_tmap E)) E).
    set (pend1 := if fired is Some h then delete h (delete (cc_id r) pend) else delete (cc_id r) pend).
    assert (Hap : apply_ops (if negb (bool_decide (fired = Some (cc_id r))) then [Cancel (cc_id r)] else [])
                    (if fired is Some h then delete h pend else pend) = pend1).
    { unfold pend1. destruct fired as [h|]; simpl; [|done]. case_bool_decide as Hd; simpl; [|by rewrite delete_delete].
      injection Hd as ->. by rewrite delete_delete_eq. }
    assert (Hsub : forall k x, pend1 !! k = Some x -> pend !! k = Some x).
    { intros k x. unfold pend1. destruct fired; [intros [_ Hx]%lookup_delete_Some|intros Hx]; by apply lookup_delete_Some in Hx as [_ ?]. }
    assert (H1 : cct_packets next pend1 E1).
    { split; simpl; try done.
      - unfold pend1. destruct fired as [h|]; [|by apply tracked_untrack].
        pose proof (tracked_fire cc_id pend (ct_tmap E) h dest seq Ht Pd Hh) as H. by rewrite Er in H.
      - intros h [x Hx]. apply Hf. exists x. by apply Hsub.
      - intros h d s Hx. by apply (Hpl h d s), Hsub.
      - intros d s r' Pdd. destruct (in_flight_untrack (ct_tmap E) dest seq (tracked_wf _ _ _ Ht) Pd) as [_ Hl].
        rewrite Hl by done. destruct (_ && _); [done|by apply Ha]. }
    destruct (max_window_ok _ _ _ H1) as (n & -> & Hn). simpl.
    destruct ((current_window E1 <? n) && ct_data_on E) eqn:Ew; eexists _, _, _; (split; [done|]); rewrite Hap.
    + split; [destruct H1 as [H1 H2 H3 H4 H5 H6]; by split|]. split; [by intros [? ?]|by right].
    + split; [done|]. split; [|by left]. intros Hs. destruct (Hwt Hs) as [?|_]; [by left|]. apply andb_false_iff in Ew as [Ew|Ew]; [|by left].
      right. bools. unfold current_window in Ew. intros Hnil. rewrite Hnil in Ew. simpl in Ew. lia.
  - eexists _, _, _. split; [done|]. split; [|by split; [|left]]. simpl. destruct fired as [h|]; [|done].
    pose proof (tracked_fire cc_id pend (ct_tmap E) h dest seq Ht Pd Hh) as Htf. rewrite Er in Htf.
    split; simpl; try done.
    + intros k [x [_ Hx]%lookup_delete_Some]. apply Hf. by exists x.
    + intros k d s [_ Hx]%lookup_delete_Some. by apply (Hpl k d s).
Qed.

Lemma success_ok next pend E : cct_packets next pend E -> cct_waits E ->
  cct_packets next pend (successTransmit E) /\ cct_waits (successTransmit E).
Proof.
  intros [Ht Hf Hpl Ha Hm (n & Hn & Hr)] Hw. split; [|done]. split; simpl; try done.
  exists (Z.min (if SFltb (double_of_int64 n) (ct_ssthresh E) then 2 * n else n + 1) 2048).
  rewrite Hm, Hn, grow_exact by done. split; [done|]. destruct (SFltb _ _); lia.
Qed.

Lemma failure_ok next pend E : cct_packets next pend E -> cct_waits E ->
  let E' := with_tmap (map_records clear_wnd (ct_tmap E)) (failureTransmit E) in
  cct_packets next pend E' /\ cct_waits E'.
Proof.
  intros [Ht Hf Hpl Ha Hm Hc] Hw. split.
  - split; simpl; try done.
    + by apply tracked_map_records.
    + intros d s r Pd. rewrite in_flight_map_records. intros (r0 & Hr & ->)%fmap_Some. simpl. by apply (Ha d s).
    + exists 2. done.
  - intros Hs. destruct (Hw Hs) as [?|Hne]; [by left|right]. simpl. unfold map_records. by destruct (ct_tmap E).
Qed.

Lemma cct_pull_ok next pend input cb E : cct_packets next pend E -> cct_waits E -> cct_op_ok (CctPull input cb) ->
  exists out asked acts E', CCT_pull 0 next input (Some cb) E = Ok (out, asked, acts, E')
    /\ cct_packets (next + 1) (apply_ops acts pend) E' /\ cct_waits E'
    /\ ct_data_cb E' = match out with Some _ => ct_data_cb E | None => Some cb end.
Proof.
  intros Hp Hwt Hin. pose proof Hp as [Ht Hf Hpl Ha Hm Hc]. unfold CCT_pull. simpl.
  assert (Hf' : forall h, is_Some (pend !! h) -> h < next + 1) by (intros h Hh; specialize (Hf h Hh); lia).
  destruct (max_window_ok _ _ _ Hp) as (n & -> & Hn). simpl. destruct (Z.ltb_spec (current_window E) n) as [Hlt|Hge].
  - destruct input as [p|].
    + destruct Hin as [(dest & seq & Hd & Pd & Hs) (rtt & Hrtt & Hdel)]. unfold int_field, Tuple_at. rewrite Hs, Hd, Hrtt. simpl.
      unfold CCT_map. rewrite Hdel. simpl. eexists _, _, _, _. split; [done|].
      destruct (in_flight_track (ct_tmap E) dest seq (mkCCTuple next dest seq true true) (tracked_wf _ _ _ Ht) Pd) as [Hwf Hg].
      assert (Hfresh : pend !! next = None).
      { destruct (pend !! next) as [x|] eqn:Ex; [|done]. specialize (Hf next (mk_is_Some _ _ Ex)). lia. }
      split; [split; simpl; try done|split; [|done]].
      * by apply (tracked_track cc_id pend (ct_tmap E) dest seq (mkCCTuple next dest seq true true)).
      * intros h [x Hx]. destruct (decide (next = h)) as [->|Hne]; [lia|]. rewrite lookup_insert_ne in Hx by done. apply Hf'. by exists x.
      * intros h d s Hx. destruct (decide (next = h)) as [->|Hne]; [rewrite lookup_insert_eq in Hx; by simplify_eq|].
        rewrite lookup_insert_ne in Hx by done. by apply (Hpl h d s).
      * intros d s r Pdd. rewrite Hg by done. destruct (_ && _); [|by apply Ha]. intros [= <-].
        destruct (in_flight dest seq (ct_tmap E)) eqn:E0; simpl; [by apply (Ha dest seq)|done].
      * intros Hsome. right. simpl. intros Hnil. specialize (Hg dest seq Pd). rewrite Hnil in Hg.
        by rewrite (equivb_refl value_lt plainP), Z.eqb_refl in Hg.
    + eexists _, _, _, _. split; [done|]. split; [by split|]. split; [|done]. intros _. by left.
  - eexists _, _, _, _. split; [done|]. split; [by split|]. split; [|done]. intros _. right. simpl. intros Hnil.
    unfold current_window in Hge. rewrite Hnil in Hge. simpl in Hge. lia.
Qed.

(** What holds between operations: the one owed a call is the one the element
    remembers. *)
Record cct_inv (w : CctWorld) : Prop := {
  cv_packets : cct_packets (cw_next w) (cw_pend w) (cw_elem w);
  cv_waits : cct_waits (cw_elem w);
  cv_owed : cw_owed w = ct_data_cb (cw_elem w);
  cv_log : Forall called_owed (cw_log w)
}.

Lemma cct_called next pend log cbs E E' : cct_packets next pend E' -> cct_waits E' -> cct_calls cbs E E' -> Forall called_owed log ->
  cct_inv (mkCctWorld next pend (still_owed cbs (ct_data_cb E)) (log ++ [(cbs, ct_data_cb E)]) E').
Proof.
  intros Hp Hw Hc Hl. destruct (calls_owed _ _ _ Hc) as [H1 H2]. split; [done|done|done|]. apply Forall_app. split; [done|].
  by apply Forall_singleton.
Qed.

Lemma cct_step_ok o w : cct_inv w -> cct_op_ok o -> exists w', cct_step o w = Ok w' /\ cct_inv w'.
Proof.
  destruct w as [next pend owed log E]. intros [Hp Hw Hd Hl]. simpl in *. subst owed. intros Ho. destruct o as [input cb|tp| |h]; simpl.
  - destruct (cct_pull_ok next pend input cb E Hp Hw Ho) as (out & asked & acts & E' & -> & H1 & H2 & H3). simpl.
    eexists. split; [done|]. by split.
  - destruct Ho as (b & Hb & Hf). unfold CCT_push. simpl. rewrite Hb. simpl.
    destruct b; [|eexists; split; [done|]; apply cct_called; [done|done|by left|done]].
    destruct (Hf eq_refl) as (dest & seq & Hd & Pd & Hs). unfold int_field, Tuple_at. simpl in Hd, Hs. rewrite Hd. simpl. rewrite Hs. simpl.
    destruct (cct_dealloc_ok next pend None dest seq E Hp Hw Pd I) as (acts & cbs & E' & -> & H1 & H2 & H3). simpl.
    eexists. split; [done|]. destruct (success_ok _ _ _ H1 H2). by apply cct_called.
  - eexists. split; [done|]. apply cct_called; [destruct Hp as [H1 H2 H3 H4 H5 H6]; by split|by intros [? ?]|by right|done].
  - destruct (pend !! h) as [[dest seq]|] eqn:Eh; [|by eexists]. pose proof (cp_plain _ _ _ Hp h dest seq Eh) as Pd.
    assert (H : exists E1, cct_packets next pend E1 /\ cct_waits E1 /\ ct_data_cb E1 = ct_data_cb E
      /\ CCT_timeout_cb h dest seq E = cct_dealloc (Some h) dest seq E1).
    { unfold CCT_timeout_cb. destruct (match in_flight dest seq (ct_tmap E) with Some _ => _ | None => _ end); [|by exists E].
      destruct (failure_ok next pend E Hp Hw) as [H1 H2]. by eexists. }
    destruct H as (E1 & H1 & H2 & Hcb & ->). destruct (cct_dealloc_ok next pend (Some h) dest seq E1 H1 H2 Pd Eh) as (acts & cbs & E' & -> & ? & ? & ?).
    simpl. eexists. split; [done|]. rewrite <- Hcb. by apply cct_called.
Qed.

Definition cct_start : CctWorld := mkCctWorld 0 ∅ None [] CCT_default.

(** C23: [CCT] with its default arguments never loses a wake-up and never stops.
    After any sequence of pulls, acknowledgements, announcements of data and
    timeouts the window is an integer between 1 and 2048; only the callback of the
    last pull that gave nothing is ever called, and once; and while that call is
    owed, the element will make it: either the producer owes an announcement of
    data, which calls it, or a packet is in flight whose timer is armed - so that
    it has been called by the time no packet is in flight. *)
Theorem cct_never_stalls (ops : list cct_op) : Forall cct_op_ok ops ->
  exists w, cct_run ops cct_start = Ok w
    /\ (exists n, max_window (cw_elem w) = Ok n /\ 1 <= n <= 2048)
    /\ Forall called_owed (cw_log w)
    /\ (forall cb, cw_owed w = Some cb ->
          (ct_data_on (cw_elem w) = false
           \/ exists d s r x, in_flight d s (ct_tmap (cw_elem w)) = Some r /\ cw_pend w !! cc_id r = Some x)
          /\ exists w', cct_step CctReady w = Ok w' /\ cw_log w' = cw_log w ++ [([cb], Some cb)] /\ cw_owed w' = None).
Proof.
  intros Hops.
  assert (H : forall w, cct_inv w -> exists w', cct_run ops w = Ok w' /\ cct_inv w').
  { induction Hops as [|o ops Ho Hops IH]; intros w Hw; [by exists w|]. simpl.
    destruct (cct_step_ok o w Hw Ho) as (w1 & -> & H1). simpl. by apply IH. }
  destruct (H cct_start) as (w & E & [Hp Hw Ho Hl]).
  - split; simpl; try done; [|by intros [? ?]].
    split; simpl; try done; last by exists 1.
    + split; [split; [split; constructor|constructor]|done].
    + intros h [x Hx]. by rewrite lookup_empty in Hx.
  - exists w. split; [done|]. split; [by apply (max_window_ok _ _ _ Hp)|]. split; [done|]. intros cb Hcb. rewrite Ho in Hcb. split.
    + destruct (Hw (mk_is_Some _ _ Hcb)) as [?|Hne]; [by left|right]. pose proof (cp_tracked _ _ _ Hp) as Ht.
      destruct (in_flight_some _ (tracked_wf _ _ _ Ht) Hne) as (d & s & r & Pd & Hr).
      destruct (tracked_timer _ _ _ Ht d s r Pd Hr) as (d' & Hx & _). by exists d, s, r, (d', s).
    + destruct w as [next pend owed log El]. simpl in *. subst owed. rewrite Hcb. eexists. split; [done|]. done.
Qed.
End cct_world.
Arguments cct_op : clear implicits.
Arguments CctWorld : clear implicits.

(** *** Witness, and what the window does not bound *)

Definition cct_demo : list (cct_op nat) :=
  [CctPull (Some (congest_packet (VStr "a:1") 1)) 1%nat; CctPull (Some (congest_packet (VStr "a:1") 2)) 2%nat; CctFire 0;
   CctPull None 3%nat; CctPush (congest_reply (VStr "a:1") 2); CctReady].

Lemma cct_never_stalls_witness :
  exists w, cct_run cct_demo cct_start = Ok w
    /\ (exists n, max_window (cw_elem w) = Ok n /\ 1 <= n <= 2048)
    /\ Forall called_owed (cw_log w) /\ (fst <$> cw_log w) ≫= id = [2%nat; 3%nat].
Proof.
  destruct (cct_never_stalls cct_demo) as (w & E & Hn & Hl & _).
  - unfold cct_demo. repeat (constructor; [first [apply congest_reply_ok|exact I|split; [apply congest_packet_ok|eexists; split; [reflexivity|vm_compute; reflexivity]]]|]). constructor.
  - exists w. split_and!; [exact E|exact Hn|exact Hl|]. vm_compute in E. injection E as <-. reflexivity.
Defined.

(** [current_window] is the size of the outer map, the number of destinations:
    with the window at two, any number of packets to one destination goes out
    unacknowledged. *)
Definition cct_burst (n : nat) : list (cct_op nat) :=
  (fun k => CctPull (Some (congest_packet (VStr "a:1") (Z.of_nat k))) 0%nat) <$> seq 0 n.
Definition narrow : CctWorld nat := mkCctWorld 0 ∅ None [] (CCT_mk (double_of_int64 2) (double_of_int64 2)).

Theorem cct_window_counts_peers :
  (match cct_run (cct_burst 100) narrow with
   | Ok w => Some (max_window (cw_elem w), current_window (cw_elem w), total (ct_tmap (cw_elem w)), size (cw_pend w))
   | Fail _ => None
   end) = Some (Ok 2, 1, 100%nat, 100%nat).
Proof. vm_compute. reflexivity. Qed.

(** ** The rate of [RateCCT] *)

Section rate_world.
Context {CB : Type} `{P : Platform} (pow : spec_float -> spec_float -> spec_float).

(** The clock, the next handle, the armed timers of packets and of feedback, the
    callbacks called, the counter of tuples, the element. *)
Record RateWorld := mkRateWorld {
  tw_now : Z; tw_next : Z; tw_pend : pending; tw_feedback : gset Z; tw_called : list CB; tw_count : Z;
  tw_elem : RateCCT CB
}.

Definition feedback_op (fb : gset Z) (o : timer_op) : gset Z :=
  match o with
  | ArmPacket _ _ _ _ => fb
  | ArmFeedback h _ => {[h]} ∪ fb
  | Cancel h => fb ∖ {[h]}
  end.

Inductive rate_op :=
  RateTick (d : Z) | RatePull (input : option tuple) (cb : CB) | RatePush (tp : tuple) | RateReady | RateFire (h : Z).

Definition rate_step (o : rate_op) (w : RateWorld) : res RateWorld :=
  let '(mkRateWorld now next pend fb called count E) := w in
  match o with
  | RateTick d => Ok (mkRateWorld (now + d) next pend fb called count E)
  | RatePull input cb =>
      let? (_, _, acts, E, count) := RateCCT_pull 0 now next input (Some cb) count E in
      Ok (mkRateWorld now (next + 1) (apply_ops acts pend) (foldl feedback_op fb acts) called count E)
  | RatePush tp =>
      let? (_, acts, cbs, E) := RateCCT_push pow 1 now next tp E in
      Ok (mkRateWorld now (next + 1) (apply_ops acts pend) (foldl feedback_op fb acts) (called ++ cbs) count E)
  | RateReady => let '(cbs, E) := rc_data_ready E in Ok (mkRateWorld now next pend fb (called ++ cbs) count E)
  | RateFire h =>
      match pend !! h with
      | Some (dest, seq) =>
          let '(acts, cbs, E) := rc_tuple_timeout dest seq E in
          Ok (mkRateWorld now next (apply_ops acts (delete h pend)) (foldl feedback_op fb acts) (called ++ cbs) count E)
      | None =>
          if decide (h ∈ fb) then
            let? (acts, E) := rc_feedback_timeout pow now next E in
            Ok (mkRateWorld now (next + 1) (apply_ops acts pend) (foldl feedback_op (fb ∖ {[h]}) acts) called count E)
          else Ok w
      end
  end.
Fixpoint rate_run (ops : list rate_op) (w : RateWorld) : res RateWorld :=
  match ops with [] => Ok w | o :: ops' => let? w := rate_step o w in rate_run ops' w end.

(** An acknowledgement with a timestamp and what the element reads as the
    receiver's rate; what it reads as the loss rate, [STACK_SIZE + 1], is the
    field of the sequence number, [SEQ + 2]. *)
Definition rated_ok (tp : tuple) : Prop :=
  reply_ok tp /\ exists ts rr, fields tp !! (TS + 2)%nat = Some (VTime ts)
    /\ fields tp !! STACK_SIZE = Some (VInt64 rr).
Definition rate_op_ok (o : rate_op) : Prop :=
  match o with RatePull (Some p) _ => header_ok p | RatePush tp => rated_ok tp | _ => True end.

Record rate_inv (w : RateWorld) : Prop := {
  rt_tracked : timed id (tw_pend w) (rc_index (tw_elem w));
  rt_fresh : forall h, is_Some (tw_pend w !! h) \/ h ∈ tw_feedback w -> h < tw_next w;
  rt_plain : forall h d s, tw_pend w !! h = Some (d, s) -> plainP d;
  rt_apart : forall h, is_Some (tw_pend w !! h) -> h ∉ tw_feedback w;
  rt_feedback : tw_feedback w = match rc_nofeedback (tw_elem w) with Some h => {[h]} | None => ∅ end;
  rt_rate : 1 <= rc_trate (tw_elem w) < 2 ^ 32;
  rt_waits : is_Some (rc_data_cbv (tw_elem w)) -> rc_data_on (tw_elem w) = false \/ rc_index (tw_elem w) <> []
}.

(** An operation goes well, or stops at a conversion of a [double] that does not
    fit a [uint32_t]. *)
Definition goes {A} (r : res A) (Q : A -> Prop) : Prop := match r with Ok a => Q a | Fail f => f = UndefinedBehaviour end.

Lemma goes_bind {A B} (r : res A) (k : A -> res B) Q : goes r (fun a => goes (k a) Q) -> goes (rbind r k) Q.
Proof. by destruct r. Qed.
Lemma goes_impl {A} (r : res A) (Q Q' : A -> Prop) : goes r Q -> (forall a, Q a -> Q' a) -> goes r Q'.
Proof. destruct r; simpl; auto. Qed.

Lemma u32_of_double_goes z : goes (u32_of_double z) is_u32.
Proof. unfold u32_of_double. destruct z as [z|]; [|done]. by case_decide. Qed.

Lemma new_rate_goes now rtt X p (E : RateCCT CB) : 1 <= rc_trate E < 2 ^ 32 ->
  goes (new_rate pow now rtt X p E) (fun x => 1 <= fst x < 2 ^ 32).
Proof.
  intros Hr. unfold new_rate. pose proof (u32_range (2 * X)) as H1. pose proof (u32_range (2 * rc_trate E)) as H2. unfold is_u32 in H1, H2.
  destruct (SFltb _ _); [|destruct (_ <? _); simpl; lia]. apply goes_bind.
  apply (goes_impl _ is_u32); [apply u32_of_double_goes|]. intros z Hz. unfold is_u32 in Hz. simpl. lia.
Qed.

(** Feedback replaces the feedback timer and keeps the rate positive. *)
Lemma rc_feedback_goes now h rt X p (E : RateCCT CB) : 1 <= rc_trate E < 2 ^ 32 ->
  goes (rc_feedback pow now h rt X p E) (fun x =>
    let '(acts, E') := x in
    1 <= rc_trate E' < 2 ^ 32 /\ rc_nofeedback E' = Some h /\ rc_index E' = rc_index E
    /\ rc_data_cbv E' = rc_data_cbv E /\ rc_data_on E' = rc_data_on E
    /\ exists d, acts = match rc_nofeedback E with Some h0 => [Cancel h0] | None => [] end ++ [ArmFeedback h d]).
Proof.
  intros Hr. unfold rc_feedback. apply goes_bind.
  apply (goes_impl _ (fun _ => True)).
  { destruct (_ =? 0); [done|]. apply (goes_impl _ is_u32); [apply u32_of_double_goes|done]. }
  intros rtt _. apply goes_bind. apply (goes_impl _ (fun x => 1 <= fst x < 2 ^ 32)); [by apply new_rate_goes|].
  intros [trate tld] Ht. simpl in Ht. destruct (Z.eqb_spec trate 0) as [->|_]; [lia|]. simpl. split_and!; try done; try lia. by eexists.
Qed.

(** Forgetting a packet, whether it was acknowledged or its timer fired, calls
    whoever waits unless the rate is still used up. *)
Lemma rc_unmap_ok now next pend fb called count (E : RateCCT CB) dest seq fired :
  rate_inv (mkRateWorld now next pend fb called count E) -> plainP dest ->
  (if fired is Some h then pend !! h = Some (dest, seq) else True) ->
  let '(acts, cbs, E') := rc_unmap dest seq E in
  rate_inv (mkRateWorld now next (apply_ops acts (if fired is Some h then delete h pend else pend))
    (foldl feedback_op fb acts) (called ++ cbs) count E')
  /\ foldl feedback_op fb acts = fb /\ rc_nofeedback E' = rc_nofeedback E.
Proof.
  intros [Ht Hf Hpl Hap Hfb Hr Hw] Pd Hh. simpl in *. unfold rc_unmap.
  set (oh := in_flight dest seq (rc_index E)).
  set (acts := match oh with Some h => [Cancel h] | None => [] end).
  set (t := match oh with Some _ => untrack dest seq (rc_index E) | None => rc_index E end).
  assert (HE : match oh with Some _ => rc_with_index (untrack dest seq (rc_index E)) E | None => E end = rc_with_index t E).
  { unfold t. destruct oh; [done|]. by destruct E. }
  rewrite HE. clear HE. set (pend0 := if fired is Some h then delete h pend else pend).
  assert (Hpend : timed id (apply_ops acts pend0) t).
  { unfold acts, t, pend0. destruct fired as [h|].
    - pose proof (tracked_fire id pend (rc_index E) h dest seq Ht Pd Hh) as H. fold oh in H. unfold id in H.
      destruct oh; simpl; [by rewrite delete_delete|done].
    - destruct oh as [r|] eqn:Eo; simpl; [|done]. by apply (tracked_untrack id pend (rc_index E) dest seq r). }
  assert (Hsub : forall k x, apply_ops acts pend0 !! k = Some x -> pend !! k = Some x).
  { intros k x Hx. assert (pend0 !! k = Some x) as Hx'.
    { unfold acts in Hx. destruct oh; [|done]. simpl in Hx. by apply lookup_delete_Some in Hx as [_ ?]. }
    unfold pend0 in Hx'. destruct fired; [|done]. by apply lookup_delete_Some in Hx' as [_ ?]. }
  assert (Hfbk : foldl feedback_op fb acts = fb).
  { unfold acts. destruct oh as [r|] eqn:Eo; [|done]. simpl. apply set_eq. intros x. rewrite elem_of_difference, elem_of_singleton.
    split; [by intros [? _]|]. intros Hx. split; [done|]. intros ->.
    destruct (tracked_timer _ _ _ Ht dest seq r Pd Eo) as (d' & Hp & _). by apply (Hap r); [eexists|]. }
  assert (Hinv : forall cb, (is_Some cb -> rc_data_on E = false \/ t <> []) ->
    rate_inv (mkRateWorld now next (apply_ops acts pend0) fb called count (rc_with_data cb (rc_data_on E) (rc_with_index t E)))).
  { intros cb Hcb. split; simpl; try done.
    - intros h [[x Hx]|Hx]; apply Hf; [left; exists x; by apply Hsub|by right].
    - intros h d s Hx. by apply (Hpl h d s), Hsub.
    - intros h [x Hx]. apply Hap. exists x. by apply Hsub. }
  assert (Hdone : forall w cs, rate_inv (mkRateWorld now next (apply_ops acts pend0) fb called count w) ->
    rate_inv (mkRateWorld now next (apply_ops acts pend0) (foldl feedback_op fb acts) (called ++ cs) count w)).
  { intros w cs [? ? ? ? ? ? ?]. rewrite Hfbk. by split. }
  destruct (tuplesInFlight (rc_with_index t E) <? rc_trate (rc_with_index t E)) eqn:El; split_and!; try done; apply Hdone.
  - apply Hinv. by intros [? ?].
  - replace (rc_with_index t E) with (rc_with_data (rc_data_cbv E) (rc_data_on E) (rc_with_index t E)) by done.
    apply Hinv. intros Hs. right. intros Hnil. bools. unfold tuplesInFlight in El. simpl in El. rewrite Hnil in El. unfold total in El. simpl in El. lia.
Qed.

(** Feedback in a good state leads to a good state. *)
Lemma rate_feedback_ok now next pend fb called count (E : RateCCT CB) rt X p acts E' :
  rate_inv (mkRateWorld now next pend fb called count E) ->
  rc_feedback pow now next rt X p E = Ok (acts, E') ->
  rate_inv (mkRateWorld now (next + 1) (apply_ops acts pend) (foldl feedback_op fb acts) called count E').
Proof.
  intros [Ht Hf Hpl Hap Hfb Hr Hw] HE. simpl in *.
  pose proof (rc_feedback_goes now next rt X p E Hr) as H. rewrite HE in H. simpl in H.
  destruct H as (Hr' & Hno & Hi & Hcb & Hon & d & ->).
  assert (Hnext : pend !! next = None).
  { destruct (pend !! next) as [x|] eqn:Ex; [|done]. specialize (Hf next (or_introl (mk_is_Some _ _ Ex))). lia. }
  assert (Hp : apply_ops (match rc_nofeedback E with Some h0 => [Cancel h0] | None => [] end ++ [ArmFeedback next d]) pend = pend).
  { destruct (rc_nofeedback E) as [h0|]; [|done]. simpl. apply delete_id. destruct (pend !! h0) as [x|] eqn:Ex; [|done].
    exfalso. apply (Hap h0); [by eexists|]. rewrite Hfb. by apply elem_of_singleton. }
  assert (Hb : foldl feedback_op fb (match rc_nofeedback E with Some h0 => [Cancel h0] | None => [] end ++ [ArmFeedback next d]) = {[next]}).
  { rewrite Hfb. destruct (rc_nofeedback E) as [h0|]; simpl; rewrite ?difference_diag_L; apply (right_id_L ∅ (∪)). }
  rewrite Hp, Hb. split; simpl; rewrite ?Hi, ?Hno, ?Hcb, ?Hon; try done.
  - intros h [Hh|Hh]; [specialize (Hf h (or_introl Hh)); lia|]. apply elem_of_singleton in Hh. lia.
  - intros h [x Hx] Hh. apply elem_of_singleton in Hh as ->. by rewrite Hnext in Hx.
Qed.

Lemma rate_inv_called now next pend fb called called' count count' (E : RateCCT CB) :
  rate_inv (mkRateWorld now next pend fb called count E) -> rate_inv (mkRateWorld now next pend fb called' count' E).
Proof. intros [? ? ? ? ? ? ?]. by split. Qed.

Lemma rate_pull_ok w input cb : rate_inv w -> rate_op_ok (RatePull input cb) ->
  exists w', rate_step (RatePull input cb) w = Ok w' /\ rate_inv w'.
Proof.
  destruct w as [now next pend fb called count E]. intros Hinv Hin. pose proof Hinv as [Ht Hf Hpl Hap Hfb Hr Hw]. simpl in *.
  unfold RateCCT_pull. simpl.
  assert (Hf' : forall h, is_Some (pend !! h) \/ h ∈ fb -> h < next + 1) by (intros h Hh; specialize (Hf h Hh); lia).
  destruct (Z.ltb_spec (tuplesInFlight E) (rc_trate E)) as [Hlt|Hge].
  - destruct input as [p|]; [|eexists; split; [done|]; split; try done; intros _; by left].
    destruct Hin as (dest & seq & Hd & Pd & Hs). unfold rc_package, int_field, Tuple_at. rewrite Hd, Hs. simpl.
    eexists. split; [done|].
    assert (Hfresh : pend !! next = None).
    { destruct (pend !! next) as [x|] eqn:Ex; [|done]. specialize (Hf next (or_introl (mk_is_Some _ _ Ex))). lia. }
    assert (Hins : forall h x, <[next := (dest, seq)]> pend !! h = Some x -> h = next /\ x = (dest, seq) \/ pend !! h = Some x).
    { intros h x. destruct (decide (next = h)) as [->|Hne]; [rewrite lookup_insert_eq; intros [= <-]; by left|].
      rewrite lookup_insert_ne by done. by right. }
    split; simpl; try done.
    + by apply (tracked_track id pend (rc_index E) dest seq next).
    + intros h [[x Hx]|Hh]; [|apply Hf'; by right]. apply Hins in Hx as [[-> _]|Hx]; [lia|]. apply Hf'. left. by exists x.
    + intros h d s Hx. apply Hins in Hx as [[_ [= -> ->]]|Hx]; [done|]. by apply (Hpl h d s).
    + intros h [x Hx] Hh. apply Hins in Hx as [[-> _]|Hx]; [specialize (Hf next (or_intror Hh)); lia|]. apply (Hap h); [by exists x|done].
    + intros _. right. intros Hnil.
      destruct (in_flight_track (rc_index E) dest seq next (tracked_wf _ _ _ Ht) Pd) as [_ Hg]. specialize (Hg dest seq Pd).
      rewrite Hnil in Hg. by rewrite (equivb_refl value_lt plainP), Z.eqb_refl in Hg.
  - eexists. split; [done|]. split; try done. simpl. intros _. right. intros Hnil. unfold tuplesInFlight in Hge. rewrite Hnil in Hge.
    unfold total in Hge. simpl in Hge. lia.
Qed.

Lemma rate_push_ok w tp : rate_inv w -> rated_ok tp -> goes (rate_step (RatePush tp) w) rate_inv.
Proof.
  destruct w as [now next pend fb called count E]. intros Hinv [(b & Hb & Hrep) (ts & rr & Hts & Hrr)].
  unfold rate_step, RateCCT_push. simpl. rewrite Hb. simpl. destruct b; cycle 1.
  { simpl. rewrite app_nil_r. destruct Hinv as [? Hf ? ? ? ? ?]. split; try done. intros h Hh. specialize (Hf h Hh). simpl in *. lia. }
  destruct (Hrep eq_refl) as (dest & seq & Hd & Pd & Hs). unfold int_field, Tuple_at. simpl in Hd, Hs, Hts, Hrr.
  rewrite Hd. simpl. rewrite !Hs. simpl. rewrite Hts. simpl. rewrite Hrr. simpl. set (p := double_of_int64 seq).
  pose proof (rc_unmap_ok now next pend fb called count E dest seq None Hinv Pd I) as Hun.
  destruct (rc_unmap dest seq E) as [[acts cbs] E1]. destruct Hun as (H1 & _ & _). simpl in H1.
  destruct (rc_feedback pow now next (rc_delay now ts) (u32 rr) p E1) as [[acts' E2]|f] eqn:Ef; simpl.
  - unfold apply_ops. rewrite !foldl_app. by apply (rate_feedback_ok now next _ _ _ _ E1 (rc_delay now ts) (u32 rr) p).
  - pose proof (rc_feedback_goes now next (rc_delay now ts) (u32 rr) p E1 (rt_rate _ H1)) as H. by rewrite Ef in H.
Qed.

Lemma rate_fire_ok w h : rate_inv w -> goes (rate_step (RateFire h) w) rate_inv.
Proof.
  destruct w as [now next pend fb called count E]. intros Hinv. simpl.
  destruct (pend !! h) as [[dest seq]|] eqn:Eh.
  - unfold rc_tuple_timeout.
    pose proof (rc_unmap_ok now next pend fb called count E dest seq (Some h) Hinv (rt_plain _ Hinv h dest seq Eh) Eh) as Hun.
    destruct (rc_unmap dest seq E) as [[acts cbs] E1]. simpl. by destruct Hun as (H1 & _ & _).
  - case_decide as Hfb; [|done]. apply goes_bind. unfold rc_feedback_timeout.
    set (rrate := if _ <? _ then _ else _). set (E1 := rc_with_rates _ _ _ _ _ _ _).
    assert (Hh : fb ∖ {[h]} = ∅).
    { pose proof (rt_feedback _ Hinv) as Hx. simpl in Hx. rewrite Hx in *. destruct (rc_nofeedback E); [|by apply not_elem_of_empty in Hfb].
      apply elem_of_singleton in Hfb as ->. apply difference_diag_L. }
    assert (H1 : rate_inv (mkRateWorld now next pend (fb ∖ {[h]}) called count E1)).
    { destruct Hinv as [Ht Hf Hpl Hap Hfb' Hr Hw]. simpl in *. rewrite Hh. split; simpl; try done.
      intros k [Hk|Hk]; [by apply Hf; left|by apply not_elem_of_empty in Hk]. }
    pose proof (rc_feedback_goes now next (rc_rtt E) rrate (S754_zero false) E1 (rt_rate _ H1)) as Hg.
    destruct (rc_feedback _ _ _ _ _ _ E1) as [[acts E2]|f] eqn:Ef; [|done].
    apply (rate_feedback_ok now next pend (fb ∖ {[h]}) called count E1 (rc_rtt E) rrate (S754_zero false) acts E2 H1 Ef).
Qed.

Lemma rate_step_goes o w : rate_inv w -> rate_op_ok o -> goes (rate_step o w) rate_inv.
Proof.
  intros Hw Ho. destruct o as [d|input cb|tp| |h].
  - destruct w. simpl. destruct Hw as [? ? ? ? ? ? ?]. by split.
  - destruct (rate_pull_ok w input cb Hw Ho) as (w' & -> & ?). done.
  - by apply rate_push_ok.
  - destruct w. simpl. destruct Hw as [? ? ? ? ? ? ?]. split; try done. by intros [? ?].
  - by apply rate_fire_ok.
Qed.

Definition rate_start (now junk : Z) : RateWorld := mkRateWorld now 0 ∅ ∅ [] 0 (RateCCT_mk now junk).

(** whatever [RateCCT] receives, and whatever [rrate_] holds at the start, the
    sending rate stays positive, so that [8000 / trate_] is defined; at most one
    feedback timer runs, the one the element remembers; every packet in flight
    has its timer; and whoever waits for a packet will be called: the producer
    owes an announcement of data, or a packet is in flight.  Nothing fails but
    the conversion of a [double] that does not fit a [uint32_t]. *)
Theorem rate_control_sound (now junk : Z) (ops : list rate_op) : Forall rate_op_ok ops ->
  match rate_run ops (rate_start now junk) with
  | Ok w =>
      1 <= rc_trate (tw_elem w) < 2 ^ 32
      /\ tw_feedback w = match rc_nofeedback (tw_elem w) with Some h => {[h]} | None => ∅ end
      /\ (forall d s h, plainP d -> in_flight d s (rc_index (tw_elem w)) = Some h -> is_Some (tw_pend w !! h))
      /\ (forall cb, rc_data_cbv (tw_elem w) = Some cb ->
            rc_data_on (tw_elem w) = false \/ exists d s h, in_flight d s (rc_index (tw_elem w)) = Some h)
  | Fail f => f = UndefinedBehaviour
  end.
Proof.
  intros Hops. assert (H : forall w, rate_inv w -> goes (rate_run ops w) rate_inv).
  { induction Hops as [|o ops Ho Hops IH]; intros w Hw; [done|]. simpl. apply goes_bind.
    apply (goes_impl _ rate_inv); [by apply rate_step_goes|done]. }
  specialize (H (rate_start now junk)). destruct (rate_run ops (rate_start now junk)) as [w|f]; simpl in H.
  - destruct H as [Ht Hf Hpl Hap Hfb Hr Hw].
    + split; simpl; try done.
      * split; [split; [split; constructor|constructor]|done].
      * intros h [[x Hx]|Hx]; [by rewrite lookup_empty in Hx|by apply not_elem_of_empty in Hx].
    + split_and!; [lia..|done| |].
      * intros d s h Pd Hx. destruct (tracked_timer _ _ _ Ht d s h Pd Hx) as (d' & Hp & _). by eexists.
      * intros cb Hcb. destruct (Hw (mk_is_Some _ _ Hcb)) as [?|Hne]; [by left|right].
        destruct (in_flight_some _ (tracked_wf _ _ _ Ht) Hne) as (d & s & h & _ & Hx). by exists d, s, h.
  - apply H. split; simpl; try done.
    + split; [split; [split; constructor|constructor]|done].
    + intros h [[x Hx]|Hx]; [by rewrite lookup_empty in Hx|by apply not_elem_of_empty in Hx].
Qed.
End rate_world.

(** *** Witness, and what the element takes for the loss rate *)

Definition rate_packet (dest : value) (seq : Z) : tuple :=
  mkTuple [dest; VStr "me"; VNull; VTime 0; VInt64 3; VDouble (double_of_int64 0); VInt64 0; VInt64 seq; VStr "data"] true 1.
Definition rate_reply (dest : value) (seq : Z) : tuple :=
  mkTuple (VStr "me" :: VStr "ACK" :: fields (rate_packet dest seq)) true 2.
Definition square (x _ : spec_float) : spec_float := SFmul 53 1024 x x.

(** A packet goes out, the next has to wait; the acknowledgement frees the rate
    and starts the feedback timer, which then fires. *)
Definition rate_demo : list (@rate_op nat) :=
  [RatePull (Some (rate_packet (VStr "a:1") 7)) 1%nat; RatePull (Some (rate_packet (VStr "a:1") 8)) 2%nat; RateTick (10 ^ 9);
   RatePush (rate_reply (VStr "a:1") 7); RateTick (10 ^ 10); RateFire 2].

Lemma rate_control_sound_witness :
  match rate_run (P := bare_platform) square rate_demo (rate_start 0 12345) with
  | Ok w =>
      1 <= rc_trate (tw_elem w) < 2 ^ 32
      /\ tw_feedback w = match rc_nofeedback (tw_elem w) with Some h => {[h]} | None => ∅ end
      /\ (forall d s h, plainP d -> in_flight d s (rc_index (tw_elem w)) = Some h -> is_Some (tw_pend w !! h))
      /\ (forall cb, rc_data_cbv (tw_elem w) = Some cb ->
            rc_data_on (tw_elem w) = false \/ exists d s h, in_flight d s (rc_index (tw_elem w)) = Some h)
  | Fail f => f = UndefinedBehaviour
  end.
Proof.
  apply (rate_control_sound (P := bare_platform) square 0 12345 rate_demo). unfold rate_demo.
  assert (Hp : forall n, header_ok (rate_packet (VStr "a:1") n)) by (intros n; by exists (VStr "a:1"), n).
  repeat (constructor; [first [exact I|apply Hp|split; [exists true; split; [done|intros _; by exists (VStr "a:1"), 7]|by exists 0, 0]]|]).
  constructor.
Defined.

(** The run goes well: the waiting consumer is called, the rate is two. *)
Example rate_demo_goes :
  (match rate_run (P := bare_platform) square rate_demo (rate_start 0 12345) with
   | Ok w => Some (tw_called w, rc_trate (tw_elem w), rc_nofeedback (tw_elem w))
   | Fail _ => None
   end) = Some ([2%nat], 2, Some 3).
Proof. vm_compute. reflexivity. Qed.

(** [RateCCR] writes the rates of an acknowledgement at [RRATE + 2] and
    [LRATE + 2]; [RateCCT] reads them at [STACK_SIZE] and [STACK_SIZE + 1], the
    fields of the cumulative and of the own sequence number. *)
Theorem rate_reads_sequence_numbers (CB : Type) (P : Platform) pow now h tp dest seq ts rr (E : RateCCT CB) :
  is_ack tp = Ok true -> fields tp !! (DEST + 2)%nat = Some dest -> fields tp !! (SEQ + 2)%nat = Some (VInt64 seq) ->
  fields tp !! (TS + 2)%nat = Some (VTime ts) -> fields tp !! (CUMSEQ + 2)%nat = Some (VInt64 rr) ->
  RateCCT_push (P := P) pow 1 now h tp E
  = let '(acts, cbs, E) := rc_unmap dest seq E in
    let? (acts', E) := rc_feedback pow now h (rc_delay now ts) (u32 rr) (double_of_int64 seq) E in
    Ok (tp, acts ++ acts', cbs, E).
Proof.
  intros Ha Hd Hs Ht Hr. unfold RateCCT_push. simpl. rewrite Ha. simpl. unfold int_field, Tuple_at. simpl in *.
  rewrite Hd. simpl. rewrite !Hs. simpl. rewrite Ht. simpl. change STACK_SIZE with 8%nat. by rewrite Hr.
Qed.
