(* ===== verification/LossRate.v ===== *)
(** * Loss rates (src/net/rccr.C)

    [RateCCR] measures, for every sender, the rate at which packets arrive and
    the rate at which they are lost: a history of arrivals, newest first, the
    first number that is missing in it, and a record of the last losses.

    A [double] that does not fit a [long] is converted to an unspecified one,
    which is a parameter.  Sequence numbers stay below 2^63 - 1, times are
    nanoseconds. *)

From Stdlib Require Import SpecFloat String Sorting.
From S2P Require Import Prelude Ids Stl Values Tuples Fdbuf Xdr Casts Frag Delivery Ordered Congest.

Local Open Scope p2_scope.

Definition RRATE : nat := 4.
Definition LRATE : nat := 5.
Definition LOSS_SIZE : nat := 8.
Definition MAX_CTIME : Z := 5 * 60 * 1000.

(** ** Arrivals and losses *)

(** [TupleInfo], [TupleInfo::delay], [TupleInfo::compare] *)
Record TupleInfo := mkInfo { ti_seq : Z; ti_rtt : Z; ti_ts : Z }.
Definition ti_delay (i t : TupleInfo) : Z := total_milliseconds (ti_ts t - ti_ts i).
Definition ti_compare (i t : TupleInfo) : Z := cmpZ (ti_delay i t) 0.

(** [LossRec] *)
Record LossRec := mkLossRec { lr_length : Z; lr_tuples : list TupleInfo }.

(** The loop of the constructor: the tuple before the missing one and the last
    tuple seen on the way there, the one after it. *)
Fixpoint find_gap (miss : Z) (a : option TupleInfo) (history : list TupleInfo)
    : option TupleInfo * option TupleInfo :=
  match history with
  | [] => (a, None)
  | i :: history' => if ti_seq i + 1 =? miss then (a, Some i) else find_gap miss (Some i) history'
  end.

Section lossrate.
Variable unspecified : Z.
Definition to_long (d : spec_float) : Z := match int64_of_double d with Ok z => z | Fail _ => unspecified end.

(** [LossRec::nominal_time]: when the packet should have come. *)
Definition nominal_time (seq : Z) (b a : TupleInfo) : Z :=
  let n := double_of_int64 in
  let offset := to_long (SFmul 53 1024 (n (ti_delay b a))
    (SFdiv 53 1024 (n (seq - ti_seq b)) (n (ti_seq a - ti_seq b)))) in
  ti_ts b + offset * 10 ^ 6.

(** The numbers between [b] and [a]. *)
Definition lost (b a : TupleInfo) : list TupleInfo :=
  (fun s => mkInfo s 0 (nominal_time s b a)) <$> seqZ (ti_seq b + 1) (ti_seq a - ti_seq b - 1).

(** [LossRec::LossRec] *)
Definition LossRec_mk (history : list TupleInfo) (miss : Z) : res LossRec :=
  match find_gap miss None history with
  | (Some a, Some b) =>
      let? _ := check (0 <? ti_seq a - ti_seq b) AssertFailed in
      Ok (mkLossRec (u32 (Z.of_nat (length history))) (lost b a))
  | _ => Fail UndefinedBehaviour
  end.

(** [LossRec::exists], [LossRec::remove] *)
Definition lr_exists (s : Z) (l : LossRec) : bool := existsb (fun i => ti_seq i =? s) (lr_tuples l).
Fixpoint remove_info (s : Z) (l : list TupleInfo) : list TupleInfo :=
  match l with
  | [] => []
  | i :: l' => if ti_seq i =? s then l' else i :: remove_info s l'
  end.

(** "Did we void out some loss interval?" *)
Fixpoint void_losses (s : Z) (recs : list LossRec) : list LossRec :=
  match recs with
  | [] => []
  | l :: recs' =>
      if lr_exists s l then
        match remove_info s (lr_tuples l) with
        | [] => recs'
        | ts => mkLossRec (lr_length l) ts :: void_losses s recs'
        end
      else l :: void_losses s recs'
  end.

(** ** [RateCCR::Connection] *)

Record RcvConnection := mkRcv {
  rv_loss_rate : spec_float;
  rv_order : Z;
  rv_rate : Z;
  rv_seq_miss : Z;
  rv_active_ts : Z;
  rv_history : list TupleInfo;
  rv_loss_recs : list LossRec
}.

(** The weights of the loss intervals: one for the first half, then falling. *)
Definition i_weight (i : nat) : spec_float :=
  let n z := double_of_int64 z in
  let sub := SFsub 53 1024 in
  let half := SFdiv 53 1024 (n (Z.of_nat LOSS_SIZE)) (n 2) in
  if (i <? LOSS_SIZE / 2)%nat then n 1
  else sub (n 1) (SFdiv 53 1024 (sub (n (Z.of_nat i)) (sub half (n 1))) (SFadd 53 1024 half (n 1))).

(** [Connection::Connection] *)
Definition RcvConnection_mk (now : Z) : RcvConnection := mkRcv (S754_zero false) 5 1 0 now [] [].

(** The rate: the tuples of the history that came within a round trip time,
    until one that is more than two before. *)
Fixpoint count_rate (tip : TupleInfo) (rtt : Z) (history : list TupleInfo) (rate : Z) : Z :=
  match history with
  | [] => rate
  | i :: history' =>
      if 0 <=? ti_compare i tip then
        if ti_delay i tip <? rtt then count_rate tip rtt history' (u32 (rate + 1))
        else if 2 * rtt <? ti_delay i tip then rate
        else count_rate tip rtt history' rate
      else count_rate tip rtt history' rate
  end.

(** "We're filling some hole": before the first older tuple. *)
Fixpoint fill_hole (tip : TupleInfo) (l : list TupleInfo) : list TupleInfo :=
  match l with
  | [] => []
  | i :: l' => if ti_seq i <? ti_seq tip then tip :: l else i :: fill_hole tip l'
  end.

(** "Look for a new missed sequence number", down to the tuple that came. *)
Fixpoint next_miss (s prev : Z) (l : list TupleInfo) (miss : Z) : Z :=
  match l with
  | [] => miss
  | i :: l' =>
      if ti_seq i =? s then miss
      else next_miss s (ti_seq i) l' (if prev =? ti_seq i + 1 then miss else ti_seq i + 1)
  end.

(** [Connection::compute_loss_rate] *)
Fixpoint loss_sums (i : nat) (recs : list LossRec) (lint norm : spec_float) : spec_float * spec_float :=
  match recs with
  | [] => (lint, norm)
  | l :: recs' =>
      if (i + 1 <? LOSS_SIZE)%nat then
        loss_sums (i + 1) recs' (SFadd 53 1024 lint (SFmul 53 1024 (double_of_int64 (lr_length l)) (i_weight i)))
          (SFadd 53 1024 norm (i_weight (i + 1)))
      else (lint, norm)
  end.
Definition compute_loss_rate (history : list TupleInfo) (recs : list LossRec) : spec_float :=
  match recs with
  | [] => S754_zero false
  | _ =>
      let '(lint, norm) :=
        loss_sums 0 recs (SFmul 53 1024 (double_of_int64 (Z.of_nat (length history))) (i_weight 0)) (i_weight 0) in
      SFdiv 53 1024 (double_of_int64 1) (SFdiv 53 1024 lint norm)
  end.

(** [Connection::handle_tuple]: the history, the missing number, the losses. *)
Definition place_tuple (tip : TupleInfo) (c : RcvConnection) : res (list TupleInfo * Z * list LossRec) :=
  let history := rv_history c in let miss := rv_seq_miss c in let recs := rv_loss_recs c in
  if negb (miss =? 0) && (rv_order c <=? ti_seq tip - miss) then
    let? l := LossRec_mk history miss in
    let recs := l :: recs in
    Ok ([tip], 0, if (LOSS_SIZE <? length recs)%nat then take (length recs - 1) recs else recs)
  else
    match history with
    | [] => Ok ([tip], miss, recs)
    | front :: rest =>
        if ti_seq front <? ti_seq tip then
          Ok (tip :: history,
              if (miss =? 0) && negb (ti_seq front + 1 =? ti_seq tip) then ti_seq front + 1 else miss, recs)
        else if ti_seq tip <? ti_seq (List.last history front) then Ok (history, miss, void_losses (ti_seq tip) recs)
        else
          let rest := fill_hole tip rest in
          Ok (front :: rest, if miss =? ti_seq tip then next_miss (ti_seq tip) (ti_seq front) rest 0 else miss, recs)
    end.

Definition handle_tuple (now : Z) (tip : TupleInfo) (c : RcvConnection) : res RcvConnection :=
  let rate := count_rate tip (ti_rtt tip) (rv_history c) 1 in
  let? (history, miss, recs) := place_tuple tip c in
  Ok (mkRcv (compute_loss_rate history recs) (rv_order c) rate miss now history recs).

(** [Connection::active] *)
Definition rv_active (now : Z) (c : RcvConnection) : bool := rc_delay now (rv_active_ts c) <? MAX_CTIME.

(** [RateCCR::simple_action] *)
Definition RateCCR_simple_action `{P : Platform} (now : Z) (tp : tuple) (counter : Z) (cmap : list (value * RcvConnection))
    : res (tuple * list (value * RcvConnection) * Z) :=
  let? src := Tuple_at tp (SRC + 2) in
  let? seq := int_field tp (SEQ + 2) in
  let? rtt := int_field tp (RTT + 2) in
  let rtt := to_int32 rtt in
  let? v := Tuple_at tp (TS + 2) in let? ts := Val_Time_cast v in
  if (seq =? 0) || (rtt =? 0) then Ok (tp, cmap, counter)
  else
    let '(c, cmap) :=
      match lookup_ src cmap with
      | Some c => (c, cmap)
      | None => (RcvConnection_mk now, set_insert value_lt fst (src, RcvConnection_mk now) cmap)
      end in
    let? c := handle_tuple now (mkInfo seq (u32 rtt) ts) c in
    let '(rack, counter) := Tuple_mk counter in
    Ok (mkTuple (<[(LRATE + 2)%nat := VDouble (rv_loss_rate c)]>
                 (<[(RRATE + 2)%nat := VInt64 (rv_rate c)]> (fields tp))) true (tupleID rack),
        update src c cmap, counter).

(** Packets of one sender, each with the time it comes in. *)
Fixpoint handle_all (arrivals : list (Z * TupleInfo)) (c : RcvConnection) : res RcvConnection :=
  match arrivals with
  | [] => Ok c
  | (now, tip) :: arrivals' => let? c := handle_tuple now tip c in handle_all arrivals' c
  end.

(** ** Lemmas: the history *)

Definition newest_first : list TupleInfo -> Prop := StronglySorted (fun a b => ti_seq b < ti_seq a).

(** [miss] is a hole of the history: the number before it is there, a later one
    too, itself it is not. *)
Record hole (miss : Z) (h : list TupleInfo) : Prop := {
  hole_below : exists b, b ∈ h /\ ti_seq b + 1 = miss;
  hole_above : exists a, a ∈ h /\ miss < ti_seq a;
  hole_open : forall i, i ∈ h -> ti_seq i <> miss
}.

Lemma newest_first_cons i h : newest_first (i :: h) <-> newest_first h /\ forall j, j ∈ h -> ti_seq j < ti_seq i.
Proof.
  unfold newest_first. split.
  - intros [Hs Hf]%StronglySorted_inv. rewrite Forall_forall in Hf. auto.
  - intros [Hs Hf]. constructor; [done|]. by apply Forall_forall.
Qed.

(** A hole is found: the tuples around it. *)
Lemma find_gap_hole miss h a0 : newest_first h -> (exists b, b ∈ h /\ ti_seq b + 1 = miss) ->
  (forall i, i ∈ h -> ti_seq i <> miss) ->
  ((exists a, a ∈ h /\ miss < ti_seq a) \/ exists a, a0 = Some a /\ miss < ti_seq a) ->
  exists a b, find_gap miss a0 h = (Some a, Some b) /\ ti_seq b + 1 = miss /\ miss < ti_seq a.
Proof.
  revert a0. induction h as [|i h IH]; intros a0 Hs (b & Hb & Eb) Ho Ha; [by apply elem_of_nil in Hb|].
  apply newest_first_cons in Hs as [Hs Hi]. simpl. destruct (Z.eqb_spec (ti_seq i + 1) miss) as [E|E].
  - destruct Ha as [(a & Hin & Hgt)|(a & -> & Hgt)]; [|by exists a, i].
    apply elem_of_cons in Hin as [->|Hin]; [lia|]. specialize (Hi a Hin). lia.
  - apply elem_of_cons in Hb as [->|Hb]; [done|]. apply IH; [done|by exists b|intros j Hj; apply Ho; by right|].
    right. exists i. split; [done|]. specialize (Hi b Hb). specialize (Ho i (list_elem_of_here _ _)). lia.
Qed.

Lemma LossRec_mk_ok miss h : newest_first h -> hole miss h ->
  exists l, LossRec_mk h miss = Ok l /\ lr_tuples l <> [].
Proof.
  intros Hs [Hb Ha Ho]. unfold LossRec_mk.
  destruct (find_gap_hole miss h None Hs Hb Ho (or_introl Ha)) as (a & b & -> & Eb & Hgt). unfold check.
  destruct (Z.ltb_spec 0 (ti_seq a - ti_seq b)); [|lia]. simpl. eexists. split; [done|]. simpl. unfold lost.
  rewrite seqZ_cons by lia. done.
Qed.

Lemma void_losses_ok s recs : Forall (fun l => lr_tuples l <> []) recs ->
  (length (void_losses s recs) <= length recs)%nat /\ Forall (fun l => lr_tuples l <> []) (void_losses s recs).
Proof.
  intros H. induction H as [|l recs Hl Hrecs [IH1 IH2]]; [done|]. simpl. destruct (lr_exists s l); [|split; [simpl; lia|by constructor]].
  destruct (remove_info s (lr_tuples l)) eqn:E; [split; [lia|done]|]. split; [simpl; lia|by constructor].
Qed.

(** Filling a hole puts the tuple in its place. *)
Lemma fill_hole_elem tip l i : i ∈ fill_hole tip l -> i = tip \/ i ∈ l.
Proof.
  induction l as [|j l IH]; simpl; [auto|]. destruct (_ <? _); rewrite !elem_of_cons; [tauto|].
  intros [->|H]; [tauto|]. destruct (IH H); tauto.
Qed.
Lemma fill_hole_keeps tip l i : i ∈ l -> i ∈ fill_hole tip l.
Proof.
  induction l as [|j l IH]; simpl; [auto|]. destruct (_ <? _); rewrite !elem_of_cons; [tauto|]. intros [->|H]; auto.
Qed.
Lemma fill_hole_sorted tip l : newest_first l -> (forall i, i ∈ l -> ti_seq i <> ti_seq tip) -> newest_first (fill_hole tip l).
Proof.
  induction l as [|j l IH]; intros Hs Hne; [done|]. simpl. pose proof (proj1 (newest_first_cons _ _) Hs) as [Hs' Hj].
  specialize (Hne j (list_elem_of_here _ _)) as Hjt. destruct (Z.ltb_spec (ti_seq j) (ti_seq tip)).
  - apply newest_first_cons. split; [done|]. intros i [->|Hi]%elem_of_cons; [lia|]. specialize (Hj i Hi). lia.
  - apply newest_first_cons. split; [apply IH; [done|]; intros i Hi; apply Hne; by right|].
    intros i [->|Hi]%fill_hole_elem; [lia|]. by apply Hj.
Qed.

(** The search for a new missing number finds a hole, or leaves what it had. *)
Lemma next_miss_ok s h1 p l miss : newest_first (h1 ++ p :: l) -> (miss = 0 \/ hole miss (h1 ++ p :: l)) ->
  next_miss s (ti_seq p) l miss = 0 \/ hole (next_miss s (ti_seq p) l miss) (h1 ++ p :: l).
Proof.
  revert h1 p miss. induction l as [|i l IH]; intros h1 p miss Hs Hm; [done|]. simpl.
  destruct (ti_seq i =? s); [done|]. specialize (IH (h1 ++ [p]) i). rewrite <- !app_assoc in IH. apply IH; [done|].
  destruct (Z.eqb_spec (ti_seq p) (ti_seq i + 1)) as [E|E]; [done|]. right. simpl.
  assert (Hord : forall x, x ∈ h1 ++ p :: i :: l -> ti_seq p <= ti_seq x \/ ti_seq x <= ti_seq i).
  { clear -Hs. induction h1 as [|y h1 IH].
    - intros x. simpl in Hs. apply newest_first_cons in Hs as [Hs _]. apply newest_first_cons in Hs as [_ Hi]. simpl.
      rewrite !elem_of_cons. intros [->|[->|Hx]]; [left; lia|right; lia|right]. specialize (Hi x Hx). lia.
    - simpl in Hs. apply newest_first_cons in Hs as [Hs Hy]. intros x [->|Hx]%elem_of_cons; [|by apply IH]. left.
      specialize (Hy p). rewrite elem_of_app, elem_of_cons in Hy. specialize (Hy (or_intror (or_introl eq_refl))). lia. }
  assert (Hpi : ti_seq i < ti_seq p).
  { clear -Hs. induction h1 as [|y h1 IH]; [|apply newest_first_cons in Hs as [Hs _]; auto].
    apply newest_first_cons in Hs as [_ Hp]. apply Hp. by left. }
  split.
  - exists i. split; [|done]. rewrite elem_of_app, !elem_of_cons. tauto.
  - exists p. split; [|lia]. rewrite elem_of_app, !elem_of_cons. tauto.
  - intros x Hx. specialize (Hord x Hx). lia.
Qed.

(** The invariant of a connection. *)
Record rcv_inv (c : RcvConnection) : Prop := {
  rv_sorted : newest_first (rv_history c);
  rv_hole : rv_seq_miss c = 0 \/ hole (rv_seq_miss c) (rv_history c);
  rv_few : (length (rv_loss_recs c) <= LOSS_SIZE)%nat;
  rv_lost : Forall (fun l => lr_tuples l <> []) (rv_loss_recs c)
}.

Lemma last_default_lowest (front : TupleInfo) h : newest_first (front :: h) ->
  forall i, i ∈ front :: h -> ti_seq (List.last (front :: h) front) <= ti_seq i.
Proof.
  revert front. induction h as [|j h IH]; intros front Hs i Hi.
  - apply list_elem_of_singleton in Hi as ->. simpl. lia.
  - apply newest_first_cons in Hs as [Hs Hf]. specialize (IH j Hs).
    assert (E : List.last (front :: j :: h) front = List.last (j :: h) j).
    { change (List.last (front :: j :: h) front) with (List.last (j :: h) front). clear.
      revert j. induction h as [|k h IH']; intros j; [done|]. simpl in *. by destruct h. }
    rewrite E. apply elem_of_cons in Hi as [->|Hi]; [|by apply IH].
    specialize (Hf j (list_elem_of_here _ _)). specialize (IH j (list_elem_of_here _ _)). lia.
Qed.

Lemma hole_newer miss tip h : hole miss h -> ti_seq tip <> miss -> hole miss (tip :: h).
Proof.
  intros [(b & Hb & Eb) (a & Ha & Hgt) Ho] Hne. split; [exists b|exists a|]; [split; [by right|done]..|].
  intros i [->|Hi]%elem_of_cons; auto.
Qed.

(** A tuple that is not in the history yet is placed without a failure. *)
Lemma place_tuple_ok tip c : rcv_inv c -> (forall i, i ∈ rv_history c -> ti_seq i <> ti_seq tip) -> ti_seq tip <> 0 ->
  exists h m recs, place_tuple tip c = Ok (h, m, recs)
    /\ newest_first h /\ (m = 0 \/ hole m h) /\ (length recs <= LOSS_SIZE)%nat /\ Forall (fun l => lr_tuples l <> []) recs
    /\ forall i, i ∈ h -> i = tip \/ i ∈ rv_history c.
Proof.
  intros [Hs Hm Hfew Hl] Hne H0. unfold place_tuple.
  assert (Hone : newest_first [tip]) by (apply newest_first_cons; split; [constructor|by intros j Hj%elem_of_nil]).
  destruct (negb (rv_seq_miss c =? 0) && (rv_order c <=? ti_seq tip - rv_seq_miss c)) eqn:Eloss.
  { bools. destruct Hm as [?|Hm]; [done|]. destruct (LossRec_mk_ok _ _ Hs Hm) as (l & -> & Hlne). simpl.
    eexists _, _, _. split; [done|]. split_and!; [done|by left| | |by intros i ->%list_elem_of_singleton; left].
    - destruct (Nat.ltb_spec LOSS_SIZE (S (length (rv_loss_recs c)))); [|simpl; lia]. rewrite length_take. simpl. lia.
    - destruct (_ <? _)%nat; [apply Forall_take|]; by constructor. }
  destruct (rv_history c) as [|front rest] eqn:Eh.
  { eexists _, _, _. split; [done|]. split_and!; try done; [|by intros i ->%list_elem_of_singleton; left].
    destruct Hm as [?|[(b & Hb & _) _ _]]; [by left|by apply elem_of_nil in Hb]. }
  pose proof (proj1 (newest_first_cons _ _) Hs) as [Hs' Hf].
  destruct (Z.ltb_spec (ti_seq front) (ti_seq tip)) as [Hlt|Hge].
  { eexists _, _, _. split; [done|]. split_and!; [| |done|done|by intros i [->|?]%elem_of_cons; [left|right]].
    - apply newest_first_cons. split; [done|]. intros j [->|Hj]%elem_of_cons; [done|]. specialize (Hf j Hj). lia.
    - destruct (Z.eqb_spec (rv_seq_miss c) 0) as [E|E]; simpl.
      + destruct (Z.eqb_spec (ti_seq front + 1) (ti_seq tip)) as [E1|E1]; simpl; [by left|right]. split.
        * exists front. split; [right; left|done].
        * exists tip. split; [left|lia].
        * intros i Hi. rewrite !elem_of_cons in Hi. destruct Hi as [->|[->|Hi]]; [lia..|]. specialize (Hf i Hi). lia.
      + right. destruct Hm as [?|Hm]; [done|]. apply hole_newer; [done|]. destruct (hole_above _ _ Hm) as (a & Ha & Hgt).
        apply elem_of_cons in Ha as [->|Ha]; [lia|]. specialize (Hf a Ha). lia. }
  destruct (_ <? ti_seq (List.last (front :: rest) front)) eqn:Eold.
  { destruct (void_losses_ok (ti_seq tip) _ Hl) as [H1 H2]. eexists _, _, _. split; [done|]. split_and!; try done; [lia|by right]. }
  assert (Hin : forall i, i ∈ front :: fill_hole tip rest -> i = tip \/ i ∈ front :: rest).
  { intros i [->|Hi]%elem_of_cons; [right; left|]. apply fill_hole_elem in Hi as [?|?]; [by left|right; by right]. }
  assert (Hs2 : newest_first (front :: fill_hole tip rest)).
  { apply newest_first_cons. split; [apply fill_hole_sorted; [done|]; intros i Hi; apply Hne; by right|].
    intros j [->|Hj]%fill_hole_elem; [|by apply Hf]. specialize (Hne front (list_elem_of_here _ _)). lia. }
  eexists _, _, _. split; [done|]. split_and!; [done| |done|done|done].
  destruct (Z.eqb_spec (rv_seq_miss c) (ti_seq tip)) as [E|E].
  - apply (next_miss_ok (ti_seq tip) [] front); [done|by left].
  - destruct Hm as [?|Hm]; [by left|right]. destruct Hm as [(b & Hb & Eb) (a & Ha & Hgt) Ho].
    assert (Hk : forall i, i ∈ front :: rest -> i ∈ front :: fill_hole tip rest).
    { intros i [->|Hi]%elem_of_cons; [by left|right]. by apply fill_hole_keeps. }
    split; [exists b; split; [by apply Hk|done]|exists a; split; [by apply Hk|done]|].
    intros i [->|Hi]%Hin; [done|by apply Ho].
Qed.

(** C24: whatever the order in which the packets of a sender arrive, as long as
    none arrives twice, the receiver never stops: when the first missing number is
    five behind, the tuples on both sides of the hole are found.  The history
    stays in descending order and holds arrived packets only; the missing number
    it remembers is a hole of it; there are at most eight records of losses, none
    empty. *)
Theorem loss_history_sound (now0 : Z) (arrivals : list (Z * TupleInfo)) :
  NoDup (ti_seq ∘ snd <$> arrivals) -> Forall (fun a => ti_seq (snd a) <> 0) arrivals ->
  exists c, handle_all arrivals (RcvConnection_mk now0) = Ok c
    /\ newest_first (rv_history c)
    /\ (forall i, i ∈ rv_history c -> i ∈ arrivals.*2)
    /\ (rv_seq_miss c = 0 \/ hole (rv_seq_miss c) (rv_history c))
    /\ (length (rv_loss_recs c) <= LOSS_SIZE)%nat
    /\ Forall (fun l => lr_tuples l <> []) (rv_loss_recs c).
Proof.
  intros Hnd Hpos.
  assert (H : forall c, rcv_inv c -> (forall i a, i ∈ rv_history c -> a ∈ arrivals -> ti_seq i <> ti_seq (snd a)) ->
    exists c', handle_all arrivals c = Ok c' /\ rcv_inv c' /\ forall i, i ∈ rv_history c' -> i ∈ rv_history c \/ i ∈ arrivals.*2).
  { clear now0. induction Hpos as [|[now tip] arrivals Hp Hpos IH]; intros c Hc Hd; [exists c; split_and!; auto|].
    apply NoDup_cons in Hnd as [Hnew Hnd]. simpl in Hp, Hnew.
    destruct (place_tuple_ok tip c Hc) as (h & m & recs & Ep & Hs & Hm & Hf & Hl & Hin); [|done|].
    { intros i Hi. apply (Hd i (now, tip) Hi). by left. }
    simpl. unfold handle_tuple. rewrite Ep. simpl.
    destruct (IH Hnd (mkRcv (compute_loss_rate h recs) (rv_order c) (count_rate tip (ti_rtt tip) (rv_history c) 1) m now h recs))
      as (c' & E & Hc' & Hin').
    - by split.
    - simpl. intros i a Hi Ha. apply Hin in Hi as [->|Hi]; [|apply Hd; [done|by right]].
      intros Heq. apply Hnew. rewrite Heq. by apply (list_elem_of_fmap_2 (ti_seq ∘ snd)).
    - exists c'. split; [done|]. split; [done|]. intros i Hi. destruct (Hin' i Hi) as [Hi'|?]; [|right; by right].
      simpl in Hi'. destruct (Hin i Hi') as [->|?]; [right; left|by left]. }
  destruct (H (RcvConnection_mk now0)) as (c & E & [Hs Hm Hf Hl] & Hin).
  - split; simpl; [constructor|by left|lia|done].
  - by intros i a Hi%elem_of_nil.
  - exists c. split_and!; try done. intros i Hi. destruct (Hin i Hi) as [Hn%elem_of_nil|?]; done.
Qed.
End lossrate.

(** *** Witness *)

Definition arrival (s : Z) : Z * TupleInfo := (s * 10 ^ 6, mkInfo s 100 (s * 10 ^ 6)).

(** The third packet is late, the sixth is lost. *)
Definition some_arrivals : list (Z * TupleInfo) := arrival <$> [1; 2; 4; 5; 3; 7; 8; 9; 10; 11; 12].

Lemma loss_history_sound_witness :
  exists c, handle_all 0 some_arrivals (RcvConnection_mk 0) = Ok c
    /\ newest_first (rv_history c)
    /\ (forall i, i ∈ rv_history c -> i ∈ some_arrivals.*2)
    /\ (rv_seq_miss c = 0 \/ hole (rv_seq_miss c) (rv_history c))
    /\ (length (rv_loss_recs c) <= LOSS_SIZE)%nat
    /\ Forall (fun l => lr_tuples l <> []) (rv_loss_recs c).
Proof.
  apply (loss_history_sound 0 0 some_arrivals); [vm_decide|].
  unfold some_arrivals. repeat (constructor; [done|]). constructor.
Defined.

(** The lost packet is recorded. *)
Example loss_is_recorded :
  (match handle_all 0 some_arrivals (RcvConnection_mk 0) with
   | Ok c => Some ((fun l => ti_seq <$> lr_tuples l) <$> rv_loss_recs c, ti_seq <$> rv_history c)
   | Fail _ => None
   end) = Some ([[6]], [12; 11]).
Proof. vm_compute. reflexivity. Qed.

(** ** What the code does not mean to do *)

(** A packet that arrives twice, when the hole below it is filled and the next one
    is five ahead, makes the receiver dereference a null pointer. *)
Theorem duplicate_crashes_receiver :
  handle_all 0 (arrival <$> [3; 5; 5; 4; 11]) (RcvConnection_mk 0) = Fail UndefinedBehaviour.
Proof. vm_compute. reflexivity. Qed.

(** When the lowest of two missing packets arrives the other is forgotten: five
    more packets later there is no loss. *)
Theorem filled_hole_hides_loss :
  (match handle_all 0 (arrival <$> [4; 7; 5; 8; 9; 10; 11; 12; 13]) (RcvConnection_mk 0) with
   | Ok c => Some (rv_seq_miss c, rv_loss_recs c)
   | Fail _ => None
   end) = Some (0, []).
Proof. vm_compute. reflexivity. Qed.

(** The tuple that completes the wait is not in the history the record is made
    of: it is recorded as lost itself. *)
Theorem arrived_counts_as_lost :
  (match handle_all 0 (arrival <$> [3; 20; 10]) (RcvConnection_mk 0) with
   | Ok c => Some (existsb (lr_exists 10) (rv_loss_recs c), ti_seq <$> rv_history c)
   | Fail _ => None
   end) = Some (true, [10]).
Proof. vm_compute. reflexivity. Qed.

(** The sum takes the weight of the previous interval, the norm that of the next:
    intervals of ten packets each do not average to ten. *)
Theorem loss_weights_shifted :
  let history := mkInfo 1 0 0 in
  SFltb (compute_loss_rate (repeat history 10) (repeat (mkLossRec 10 [history]) 8))
        (SFdiv 53 1024 (double_of_int64 1) (double_of_int64 10)) = true
  /\ compute_loss_rate (repeat history 10) (repeat (mkLossRec 10 [history]) 3) = SFdiv 53 1024 (double_of_int64 1) (double_of_int64 10).
Proof. vm_compute. split; reflexivity. Qed.
