(* ===== verification/Elements.v ===== *)
(** * Elements, queues and slots (src/p2core/element.C, src/elements)

    What every element of the dataflow has - its vectors of ports, the default
    [push], [pull] and [simple_action] - and the elements that filter tuples or
    hold them between a pusher and a puller.

    The type [CB] stands for the function objects ([b_cbv]) that neighbours
    leave behind to be woken up; a null function object is [None].  An operation
    answers the callbacks it calls, in order.  What a neighbour answers to a
    [push] or a [pull] is an argument of the operation that asks. *)

From S2P Require Import Prelude Ids Stl Values Tuples Casts.

Local Open Scope p2_scope.

(** ** Ports *)

(** [Element::Port]: the element and port at the other end, when attached. *)
Definition port := option (nat * nat).

(** One side of an element: the vector of ports, where a deleted port is a null
    pointer, and the counter [_ninputs] or [_noutputs]. *)
Record ports := mkPorts { p_ports : list (option port); p_n : Z }.

(** [Element::portSetup] *)
Definition portSetup (n : nat) : ports := mkPorts (replicate n (Some None)) (Z.of_nat n).

(** The first null pointer of the vector. *)
Fixpoint first_null (l : list (option port)) : option nat :=
  match l with
  | [] => None
  | None :: _ => Some O
  | Some _ :: l' => S <$> first_null l'
  end.

(** [Element::addInputPort], [Element::addOutputPort] *)
Definition addPort (P : ports) : res (nat * ports) :=
  match first_null (p_ports P) with
  | Some i => Ok (i, mkPorts (<[i := Some None]> (p_ports P)) (u32 (p_n P + 1)))
  | None =>
      let P' := mkPorts (p_ports P ++ [Some None]) (u32 (p_n P + 1)) in
      let? _ := check (p_n P' =? Z.of_nat (length (p_ports P'))) AssertFailed in
      Ok (Z.to_nat (u32 (p_n P' - 1)), P')
  end.

(** [Element::deleteInputPort], [Element::deleteOutputPort]; the answer is -1
    when there is no such port. *)
Definition deletePort (i : nat) (P : ports) : Z * ports :=
  if (i <? length (p_ports P))%nat
  then (Z.of_nat i, mkPorts (<[i := None]> (p_ports P)) (u32 (p_n P - 1)))
  else (-1, P).

(** [Element::connect_input], [Element::connect_output] *)
Definition connectPort (i : nat) (f fport : nat) (P : ports) : Z * ports :=
  if (i <? length (p_ports P))%nat
  then (0, mkPorts (<[i := Some (Some (f, fport))]> (p_ports P)) (p_n P))
  else (-1, P).

(** [Element::input], [Element::output] *)
Definition port_at (i : nat) (P : ports) : res (option port) :=
  of_option AssertFailed (p_ports P !! i).

(** [Element::Port::push], [Element::Port::pull]: whom the call reaches. *)
Definition port_peer (i : nat) (P : ports) : res (nat * nat) :=
  let? p := port_at i P in
  let? p := of_option UndefinedBehaviour p in
  of_option AssertFailed p.

(** The counter tells the number of ports that exist. *)
Definition ports_wf (P : ports) : Prop :=
  p_n P = Z.of_nat (length (filter is_Some (p_ports P))) /\
  Z.of_nat (length (p_ports P)) < 2 ^ 32 - 1.

(** ** The default operations *)

(** [Element::push]: the tuple handed to the output port, if any. *)
Definition Element_push (simple_action : tuple -> res (option tuple)) (p : tuple)
    : res (option tuple) :=
  let? result := simple_action p in
  match result with
  | None => Ok None
  | Some r => Ok (if (Tuple_size r =? 0)%nat then None else Some r)
  end.

(** [Element::pull] on an input that gives the tuples [upstream], in order, and
    then nothing; the answer, and what it leaves upstream. *)
Fixpoint Element_pull (simple_action : tuple -> res (option tuple)) (upstream : list tuple)
    : res (option tuple * list tuple) :=
  match upstream with
  | [] => Ok (None, [])
  | p :: rest =>
      let? result := simple_action p in
      match result with
      | Some r => Ok (Some r, rest)
      | None => Element_pull simple_action rest
      end
  end.

(** ** Elements that are a [simple_action] *)

(** [Element::simple_action], [Identity::simple_action] *)
Definition Identity_simple_action (p : tuple) : res (option tuple) := Ok (Some p).

(** [NoNull::simple_action] *)
Definition NoNull_simple_action (p : tuple) : res (option tuple) :=
  Ok (if (0 <? Tuple_size p)%nat then Some p else None).

(** [NoNullSignal::simple_action], with what it pushes out of port 1. *)
Definition NoNullSignal_simple_action (p : tuple) : res (option tuple * option tuple) :=
  Ok (if (0 <? Tuple_size p)%nat then (Some p, None) else (None, Some p)).

(** The size of the tuple in a field: [Val_Tuple::cast( ...)->size()]. *)
Definition nested_size (p : tuple) (fieldNo : nat) : res nat :=
  let? _ := check (fieldNo <? Tuple_size p)%nat AssertFailed in
  let? v := Tuple_at p fieldNo in
  let? t := Val_Tuple_cast v in
  let? t := of_option UndefinedBehaviour t in
  Ok (length t).

(** [NoNullField::simple_action] *)
Definition NoNullField_simple_action (fieldNo : nat) (p : tuple) : res (option tuple) :=
  let? n := nested_size p fieldNo in
  Ok (if (0 <? n)%nat then Some p else None).

(** [OnlyNullField::simple_action] *)
Definition OnlyNullField_simple_action (fieldNo : nat) (p : tuple) : res (option tuple) :=
  let? n := nested_size p fieldNo in
  Ok (if (n =? 0)%nat then Some p else None).

(** [DupElim::simple_action]: [_table] is a [std::set] ordered by
    [Tuple::compareTo]. *)
Definition DupElim_simple_action (p : tuple) (table : list tuple) : option tuple * list tuple :=
  match set_find tuple_lt id p table with
  | Some _ => (None, table)
  | None => (Some p, set_insert tuple_lt id p table)
  end.

(** [Discard::push] *)
Definition Discard_push (p : tuple) : Z := 1.

Section flow.
Context {CB : Type}.

(** ** [Queue] *)

(** [IStateful::State] *)
Inductive StatefulState := STATEFUL | PENDING | STATELESS.

(** The queue with its proxy [_stateProxy], through which the scheduler watches
    it. *)
Record Queue := mkQueue {
  q_q : list tuple;
  q_size : Z;
  q_pullCB : option CB;
  q_pushCB : option CB;
  q_proxy_state : StatefulState;
  q_proxy_size : nat
}.

(** [Queue::Queue] *)
Definition Queue_mk (queueSize : Z) : res Queue :=
  let? _ := check (0 <? queueSize) AssertFailed in
  Ok (mkQueue [] queueSize None None STATELESS 0).

(** [Queue::push] *)
Definition Queue_push (p : tuple) (cb : option CB) (Q : Queue) : Z * list CB * Queue :=
  let q := q_q Q ++ [p] in
  if Z.of_nat (length q) =? q_size Q
  then (0, option_list (q_pullCB Q), mkQueue q (q_size Q) None cb STATEFUL (length q))
  else (1, option_list (q_pullCB Q), mkQueue q (q_size Q) None (q_pushCB Q) STATEFUL (length q)).

(** [Queue::pull] *)
Definition Queue_pull (cb : option CB) (Q : Queue) : option tuple * list CB * Queue :=
  match q_q Q with
  | [] => (None, [], mkQueue [] (q_size Q) cb (q_pushCB Q) (q_proxy_state Q) (q_proxy_size Q))
  | p :: q =>
      (Some p, option_list (q_pushCB Q),
       mkQueue q (q_size Q) (q_pullCB Q) None
         (match q with [] => STATELESS | _ => q_proxy_state Q end) (length q))
  end.

(** ** [Slot] *)

Record Slot := mkSlot { s_t : option tuple; s_push_cb : option CB; s_pull_cb : option CB }.

(** [Slot::Slot] *)
Definition Slot_mk : Slot := mkSlot None None None.

(** [Slot::push]: the answer is always 0. *)
Definition Slot_push (port : nat) (t : tuple) (cb : option CB) (S : Slot) : res (Z * list CB * Slot) :=
  let? _ := check (port =? 0)%nat AssertFailed in
  let push_cb := match s_push_cb S with Some c => Some c | None => cb end in
  match s_t S with
  | None => Ok (0, option_list (s_pull_cb S), mkSlot (Some t) push_cb None)
  | Some t0 => Ok (0, [], mkSlot (Some t0) push_cb (s_pull_cb S))
  end.

(** [Slot::pull] *)
Definition Slot_pull (port : nat) (cb : option CB) (S : Slot) : res (option tuple * list CB * Slot) :=
  let? _ := check (port =? 0)%nat AssertFailed in
  match s_t S with
  | Some t => Ok (Some t, option_list (s_push_cb S), mkSlot None None (s_pull_cb S))
  | None =>
      let pull_cb := match s_pull_cb S with Some c => Some c | None => cb end in
      Ok (None, option_list (s_push_cb S), mkSlot None None pull_cb)
  end.

(** ** The table listeners [Refresh], [Removed] and [Update] *)

(** Three classes with the same body: a buffer filled by the table and a
    pending puller. *)
Record Listening := mkListening { l_buffer : list tuple; l_pullCB : option CB }.

Definition listener (t : tuple) (L : Listening) : list CB * Listening :=
  (option_list (l_pullCB L), mkListening (l_buffer L ++ [t]) None).

Definition Listening_pull (port : nat) (cb : option CB) (L : Listening)
    : res (option tuple * Listening) :=
  let? _ := check (port =? 0)%nat AssertFailed in
  match l_buffer L with
  | [] => Ok (None, mkListening [] cb)
  | t :: b => Ok (Some t, mkListening b (l_pullCB L))
  end.
End flow.
Arguments Queue : clear implicits.
Arguments Slot : clear implicits.
Arguments Listening : clear implicits.

(** ** Ports stay consistent *)

Lemma first_null_Some l i : first_null l = Some i -> l !! i = Some None.
Proof.
  revert i. induction l as [|[p|] l IH]; intros i; simpl; [done| |intros [= <-]; done].
  destruct (first_null l) as [j|]; simpl; [intros [= <-]; by apply IH|done].
Qed.

Lemma first_null_None l : first_null l = None -> filter is_Some l = l.
Proof.
  induction l as [|[p|] l IH]; simpl; [done| |done].
  destruct (first_null l); [done|]. intros _.
  rewrite filter_cons_True by eauto. by rewrite IH.
Qed.

(** Replacing one entry changes the number of ports by what the entry adds or
    takes away. *)
Lemma live_insert (l : list (option port)) i (o o' : option port) : l !! i = Some o ->
  Z.of_nat (length (filter is_Some (<[i := o']> l))) =
  Z.of_nat (length (filter is_Some l)) - (if o is Some _ then 1 else 0) + (if o' is Some _ then 1 else 0).
Proof.
  intros Hi. pose proof (lookup_lt_Some _ _ _ Hi) as Hlt.
  rewrite insert_take_drop by done. rewrite <- (take_drop_middle l i o Hi) at 3.
  rewrite !filter_app, !length_app.
  destruct o, o'; rewrite ?filter_cons_True, ?filter_cons_False by (done || eauto using is_Some_None);
    simpl; lia.
Qed.

Lemma live_bound (l : list (option port)) : (length (filter is_Some l) <= length l)%nat.
Proof. apply length_filter. Qed.

(** Adding a port: it was not there, it is there and detached afterwards, the
    others keep their places, and the counter stays right. *)
Lemma addPort_correct P : ports_wf P -> exists i P', addPort P = Ok (i, P') /\
  (forall q, p_ports P !! i <> Some (Some q)) /\ p_ports P' !! i = Some (Some None) /\
  (forall j, j <> i -> p_ports P' !! j = p_ports P !! j) /\
  p_n P' = p_n P + 1 /\ (length (p_ports P') <= S (length (p_ports P)))%nat.
Proof.
  intros [Hn Hl]. unfold addPort. pose proof (live_bound (p_ports P)).
  assert (Hu : u32 (p_n P + 1) = p_n P + 1) by (apply u32_small; unfold is_u32; lia).
  destruct (first_null (p_ports P)) as [i|] eqn:E.
  - apply first_null_Some in E. pose proof (lookup_lt_Some _ _ _ E).
    do 2 eexists. split; [done|]. simpl. split_and!; [intros q; by rewrite E| | |done|].
    + by apply list_lookup_insert_eq.
    + intros j Hj. by apply list_lookup_insert_ne.
    + rewrite length_insert. lia.
  - apply first_null_None in E. rewrite E in Hn. simpl. rewrite Hu, length_app. simpl.
    replace (p_n P + 1 =? _) with true by (symmetry; apply Z.eqb_eq; lia). simpl.
    rewrite (u32_small (p_n P + 1 - 1)) by (unfold is_u32; lia).
    replace (Z.to_nat (p_n P + 1 - 1)) with (length (p_ports P)) by lia.
    do 2 eexists. split; [done|]. simpl. split_and!; [| | |done|rewrite length_app; simpl; lia].
    + intros q. by rewrite lookup_ge_None_2.
    + by rewrite list_lookup_middle.
    + intros j Hj. destruct (decide (j < length (p_ports P))%nat).
      * by rewrite lookup_app_l.
      * rewrite !lookup_ge_None_2; rewrite ?length_app; simpl; try done; lia.
Qed.

(** Deleting a port that exists. *)
Lemma deletePort_correct P i q : ports_wf P -> p_ports P !! i = Some (Some q) ->
  exists P', deletePort i P = (Z.of_nat i, P') /\ ports_wf P' /\
  p_ports P' = <[i := None]> (p_ports P) /\ p_n P' = p_n P - 1.
Proof.
  intros [Hn Hl] Hi. unfold deletePort. pose proof (lookup_lt_Some _ _ _ Hi).
  pose proof (live_insert _ _ _ None Hi) as HL. simpl in HL.
  pose proof (live_bound (p_ports P)).
  replace (i <? _)%nat with true by (symmetry; apply Nat.ltb_lt; lia).
  assert (Hu : u32 (p_n P - 1) = p_n P - 1) by (apply u32_small; unfold is_u32; lia).
  eexists. split; [done|]. rewrite Hu. split; [|done].
  split; simpl; [lia|by rewrite length_insert].
Qed.

(** Deleting a port twice takes the counter down twice: on an element with one
    port the counter wraps around, and the second port added afterwards trips
    the assertion of [addInputPort]. *)
Lemma double_delete_trips : let P1 := snd (deletePort 0 (portSetup 1)) in
  let P2 := snd (deletePort 0 P1) in
  p_n P2 = 2 ^ 32 - 1 /\
  exists i P3, addPort P2 = Ok (i, P3) /\ addPort P3 = Fail AssertFailed.
Proof.
  split; [by vm_compute|]. exists 0%nat, (mkPorts [Some None] 0).
  split; by vm_compute.
Qed.

(** ** Filters *)

(** Pulling until the input runs dry yields what the action keeps, in order. *)
Fixpoint drain (fuel : nat) (act : tuple -> res (option tuple)) (up : list tuple) : res (list tuple) :=
  match fuel with
  | O => Ok []
  | S fuel =>
      let? x := Element_pull act up in
      match x with
      | (Some r, rest) => let? l := drain fuel act rest in Ok (r :: l)
      | (None, _) => Ok []
      end
  end.

Lemma Element_pull_spec (act : tuple -> res (option tuple)) f up :
  (forall p, p ∈ up -> act p = Ok (f p)) ->
  exists o rest, Element_pull act up = Ok (o, rest) /\
  (length rest <= length up)%nat /\ (o <> None -> (length rest < length up)%nat) /\
  (forall p, p ∈ rest -> p ∈ up) /\
  omap f up = match o with Some r => r :: omap f rest | None => [] end.
Proof.
  induction up as [|p up IH]; intros H; simpl.
  - exists None, []. set_solver.
  - rewrite (H p) by set_solver. simpl. destruct (f p) as [r|].
    + exists (Some r), up. split_and!; simpl; try done; try lia; set_solver.
    + destruct IH as (o & rest & -> & Hl & Hs & Hin & E); [set_solver|].
      exists o, rest. split_and!; [done|lia|intros Ho; specialize (Hs Ho); lia|set_solver|exact E].
Qed.

Lemma drain_omap (act : tuple -> res (option tuple)) f fuel up :
  (forall p, p ∈ up -> act p = Ok (f p)) -> (length up < fuel)%nat ->
  drain fuel act up = Ok (omap f up).
Proof.
  revert up. induction fuel as [|fuel IH]; intros up H Hl; [lia|]. simpl.
  destruct (Element_pull_spec act f up H) as (o & rest & -> & Hr & Hs & Hin & ->). simpl.
  destruct o as [r|]; [|done]. rewrite IH; [done|naive_solver|].
  specialize (Hs ltac:(done)). lia.
Qed.

(** ** [DupElim] passes the first tuple of each class of equal tuples *)

Fixpoint DupElim_run (ps table : list tuple) : list tuple :=
  match ps with
  | [] => []
  | p :: ps =>
      let '(o, table) := DupElim_simple_action p table in
      option_list o ++ DupElim_run ps table
  end.

(** The reference: a tuple passes unless it equals one that was seen. *)
Fixpoint first_seen (ps seen : list tuple) : list tuple :=
  match ps with
  | [] => []
  | p :: ps =>
      if existsb (equivb tuple_lt p) seen then first_seen ps seen
      else p :: first_seen ps (p :: seen)
  end.

#[export] Instance tuple_lt_swo : StrictWeakOrder plain_tuple tuple_lt :=
  compare_swo plain_tuple tuple_compareTo.

Lemma existsb_insert_at {A} (f : A -> bool) i e l :
  existsb f (insert_at i e l) = f e || existsb f l.
Proof.
  unfold insert_at. rewrite <- (take_drop i l) at 3. rewrite !existsb_app. simpl.
  destruct (existsb f (take i l)), (f e); done.
Qed.

Lemma existsb_Forall {A} (f : A -> bool) l :
  existsb f l = false <-> Forall (fun e => f e = false) l.
Proof.
  induction l as [|a l IH]; simpl; [by split|].
  rewrite orb_false_iff, Forall_cons, IH. done.
Qed.

Lemma dup_elim_first_seen ps table seen : Forall plain_tuple ps -> Forall plain_tuple table ->
  set_sorted tuple_lt id table ->
  (forall p, existsb (equivb tuple_lt p) table = existsb (equivb tuple_lt p) seen) ->
  DupElim_run ps table = first_seen ps seen.
Proof.
  intros Hps. revert table seen. induction Hps as [|p ps Hp Hps IH]; [done|].
  intros table seen HT HS HE. cbn [DupElim_run first_seen]. unfold DupElim_simple_action.
  pose proof (set_sorted_mset tuple_lt id plain_tuple table HT HS) as HM.
  pose proof (set_find_None tuple_lt id plain_tuple p table Hp HT HM) as HF.
  rewrite <- HE. unfold set_insert. change (id p) with p.
  destruct (set_find tuple_lt id p table) as [i|] eqn:E.
  - destruct (existsb (equivb tuple_lt p) table) eqn:Hx; [by apply IH|].
    apply existsb_Forall in Hx. by destruct HF as [_ HF]; specialize (HF Hx).
  - rewrite (proj2 (existsb_Forall (equivb tuple_lt p) table) (proj1 HF eq_refl)). simpl. f_equal. apply IH.
    + unfold insert_at. apply Forall_app. split; [by apply Forall_take|].
      constructor; [done|by apply Forall_drop].
    + apply (set_insert_at_sorted tuple_lt id plain_tuple); try done. by apply HF.
    + intros q. rewrite existsb_insert_at. simpl. by rewrite HE.
Qed.

(** ** The queue *)

Section queue.
Context {CB : Type}.
Implicit Types (Q : Queue CB).

(** The proxy tells the scheduler the truth, and a puller waits only on an empty
    queue. *)
Definition queue_wf Q : Prop :=
  q_proxy_size Q = length (q_q Q) /\
  q_proxy_state Q = (match q_q Q with [] => STATELESS | _ => STATEFUL end) /\
  (q_pullCB Q <> None -> q_q Q = []).

Lemma queue_push_spec p cb Q : queue_wf Q -> exists r Q',
  Queue_push p cb Q = (r, option_list (q_pullCB Q), Q') /\ queue_wf Q' /\
  q_q Q' = q_q Q ++ [p] /\ q_size Q' = q_size Q /\ q_pullCB Q' = None /\
  (if Z.of_nat (S (length (q_q Q))) =? q_size Q then r = 0 /\ q_pushCB Q' = cb
   else r = 1 /\ q_pushCB Q' = q_pushCB Q).
Proof.
  intros (H1 & H2 & H3). unfold Queue_push. rewrite length_app. cbn [length].
  rewrite Nat.add_1_r.
  assert (HW : forall b, queue_wf (mkQueue (q_q Q ++ [p]) (q_size Q) None b STATEFUL (S (length (q_q Q))))).
  { intros b. unfold queue_wf. simpl. rewrite length_app. simpl.
    split_and!; [lia|by destruct (q_q Q)|done]. }
  destruct (_ =? _); do 2 eexists; (split; [done|split; [apply HW|]]); split_and!; done.
Qed.

Lemma queue_pull_spec cb Q : queue_wf Q -> exists o called Q',
  Queue_pull cb Q = (o, called, Q') /\ queue_wf Q' /\
  q_q Q = option_list o ++ q_q Q' /\ q_size Q' = q_size Q /\
  match o with
  | None => called = [] /\ q_pullCB Q' = cb /\ q_pushCB Q' = q_pushCB Q
  | Some _ => called = option_list (q_pushCB Q) /\ q_pullCB Q' = None /\ q_pushCB Q' = None
  end.
Proof.
  intros (H1 & H2 & H3). unfold Queue_pull. destruct (q_q Q) as [|p q] eqn:E.
  - do 3 eexists. split_and!; done.
  - assert (q_pullCB Q = None) as ->.
    { destruct (q_pullCB Q); [|done]. by specialize (H3 ltac:(done)). }
    do 3 eexists. split_and!; try done. unfold queue_wf. simpl. rewrite H2.
    split_and!; [done|by destruct q|done].
Qed.

(** A pusher that holds back while it is blocked: after an answer of 0 it does
    not push before its callback is called. *)
Inductive disciplined (n : Z) : Queue CB -> bool -> Prop :=
  | disc_new Q : Queue_mk n = Ok Q -> disciplined n Q false
  | disc_push Q p cb r called Q' : disciplined n Q false ->
      Queue_push p (Some cb) Q = (r, called, Q') -> disciplined n Q' (r =? 0)
  | disc_pull Q b cb o called Q' : disciplined n Q b ->
      Queue_pull cb Q = (o, called, Q') ->
      disciplined n Q' (match o with Some _ => match called with [] => b | _ => false end | None => b end).

(** Back pressure: such a pusher never overfills the queue, it is blocked
    exactly while the queue is full, and while it is blocked its callback is
    kept, so the next pull wakes it. *)
Lemma queue_backpressure n Q b : disciplined n Q b ->
  queue_wf Q /\ q_size Q = n /\ Z.of_nat (length (q_q Q)) <= n /\
  (b = true <-> Z.of_nat (length (q_q Q)) = n) /\ (b = true <-> q_pushCB Q <> None).
Proof.
  induction 1 as [Q HQ|Q p cb r called Q' _ IH HP|Q b cb o called Q' _ IH HP].
  - unfold Queue_mk in HQ. destruct (Z.ltb_spec 0 n); simpl in HQ; [|done].
    injection HQ as <-. simpl. unfold queue_wf. simpl. split_and!; try done; try lia.
  - destruct IH as (HW & HS & HL & HB & HC).
    destruct (queue_push_spec p (Some cb) Q HW) as (r' & Q'' & E & HW' & Hq & Hs & _ & Hr).
    rewrite E in HP. injection HP as -> _ ->. rewrite Hs, HS in *. rewrite Hq, length_app.
    assert (q_pushCB Q = None) as HN.
    { destruct (q_pushCB Q); [|done]. by destruct HC as [_ HC]; specialize (HC ltac:(done)). }
    assert (Z.of_nat (length (q_q Q)) <> n) by (intros Hx; by apply HB in Hx).
    split; [done|]. split; [done|]. cbn [length] in *.
    destruct (Z.eqb_spec (Z.of_nat (S (length (q_q Q)))) n); destruct Hr as [-> Hp]; rewrite Hp, ?HN.
    + split_and!; [lia|split; [lia|done]|done].
    + split_and!; [lia|split; [done|intros; exfalso; lia]|done].
  - destruct IH as (HW & HS & HL & HB & HC).
    destruct (queue_pull_spec cb Q HW) as (o' & c' & Q'' & E & HW' & Hq & Hs & Hr).
    rewrite E in HP. injection HP as -> -> ->. rewrite Hs, HS. split; [done|]. split; [done|].
    rewrite Hq, length_app in HL, HB.
    destruct o as [p|]; destruct Hr as (-> & _ & ->); [|done].
    change (length (option_list (Some p))) with 1%nat in HL, HB.
    assert (match option_list (q_pushCB Q) with [] => b | _ => false end = false) as ->.
    { destruct (q_pushCB Q); [done|]. destruct b; [|done]. by destruct (proj1 HC). }
    split_and!; [lia|split; [done|intros; exfalso; lia]|done].
Qed.

(** A pusher that ignores the answer is not held back: a queue at its limit or
    beyond takes the tuple and answers that it has room. *)
Lemma queue_overrun p cb Q : 0 < q_size Q <= Z.of_nat (length (q_q Q)) ->
  exists called Q', Queue_push p cb Q = (1, called, Q') /\
  length (q_q Q') = S (length (q_q Q)).
Proof.
  intros H. unfold Queue_push. rewrite length_app. simpl.
  destruct (Z.eqb_spec (Z.of_nat (length (q_q Q) + 1)) (q_size Q)); [lia|].
  do 2 eexists. split; [done|]. simpl. rewrite length_app. simpl. lia.
Qed.
End queue.
