(* ===== verification/Specs.v ===== *)
(** * Element specifications (src/p2core/elementSpec.C, elementSpec.h)

    What the plumber knows of an element before it is wired: the personality of
    each port - push, pull, or whatever the other end is - and the groups of
    ports, given by the element's flow code, that must agree.

    Elements, specifications and dataflows refer to each other by pointers; here
    they live in a [World] and are named by their position in it. *)

From Stdlib Require Import Ascii String.
From S2P Require Import Prelude Elements.

Local Open Scope p2_scope.

(** ** Data *)

(** [Element::Processing]; its values are the characters of [processing()]. *)
Inductive Processing := AGNOSTIC | PUSH | PULL.
#[export] Instance Processing_eq_dec : EqDecision Processing.
Proof. solve_decision. Defined.

(** [ElementSpec::UnificationResult] *)
Inductive UnificationResult := PROGRESS | UNCHANGED | CONFLICT.

(** [ElementSpec::Port]: the group is named by its character, the counterpart by
    its specification. *)
Record PortSpec := mkPortSpec {
  ps_processing : Processing;
  ps_uniGroup : option ascii;
  ps_counterpart : option nat;
  ps_check : bool
}.

(** [ElementSpec::UniGroup] *)
Record UniGroup := mkUniGroup { ug_inputs : list nat; ug_outputs : list nat }.

(** [ElementSpec]; the groups with their characters. *)
Record ElementSpec := mkElementSpec {
  es_element : nat;
  es_inputs : list PortSpec;
  es_outputs : list PortSpec;
  es_uniGroups : list (ascii * UniGroup)
}.

(** What the plumber uses of an [Element].  [el_dynamic] tells whether its class
    overrides the operations that add and remove ports; [el_dataflow] is the
    dataflow that the element is, if it is one. *)
Record ElementObj := mkElementObj {
  el_name : string;
  el_inputs : ports;
  el_outputs : ports;
  el_processing : string;
  el_flow_code : string;
  el_active : bool;
  el_dynamic : bool;
  el_dataflow : option nat
}.

(** Which of the two vectors of ports. *)
Inductive Side := Inputs | Outputs.
#[export] Instance Side_eq_dec : EqDecision Side.
Proof. solve_decision. Defined.

Definition el_ports (sd : Side) (e : ElementObj) : ports := match sd with Inputs => el_inputs e | Outputs => el_outputs e end.
Definition set_el_ports (sd : Side) (P : ports) (e : ElementObj) : ElementObj :=
  match sd with
  | Inputs => mkElementObj (el_name e) P (el_outputs e) (el_processing e) (el_flow_code e) (el_active e) (el_dynamic e) (el_dataflow e)
  | Outputs => mkElementObj (el_name e) (el_inputs e) P (el_processing e) (el_flow_code e) (el_active e) (el_dynamic e) (el_dataflow e)
  end.

Definition es_ports (sd : Side) (s : ElementSpec) : list PortSpec := match sd with Inputs => es_inputs s | Outputs => es_outputs s end.
Definition set_es_ports (sd : Side) (l : list PortSpec) (s : ElementSpec) : ElementSpec :=
  match sd with
  | Inputs => mkElementSpec (es_element s) l (es_outputs s) (es_uniGroups s)
  | Outputs => mkElementSpec (es_element s) (es_inputs s) l (es_uniGroups s)
  end.

Definition ug_side (sd : Side) (u : UniGroup) : list nat := match sd with Inputs => ug_inputs u | Outputs => ug_outputs u end.
Definition other (sd : Side) : Side := match sd with Inputs => Outputs | Outputs => Inputs end.

(** ** [ElementSpec::initializePorts] *)

(** [processingCodeString]: the characters that are a personality. *)
Definition processing_of (c : ascii) : option Processing :=
  if (c =? "a")%char then Some AGNOSTIC else if (c =? "h")%char then Some PUSH
  else if (c =? "l")%char then Some PULL else None.

(** [ElementSpec::Port::Port] *)
Definition Port_mk (c : ascii) (g : option ascii) : res PortSpec :=
  let? p := of_option AssertFailed (processing_of c) in Ok (mkPortSpec p g None true).

Definition NO_FLOW_ASSOCIATION : ascii := "-".

(** The group of a character in the scratch vector, which has 256 places; a
    character above 127 is a negative index. *)
Definition group_of (c : ascii) (gs : list (ascii * UniGroup)) : UniGroup :=
  match List.find (fun x => (fst x =? c)%char) gs with Some (_, u) => u | None => mkUniGroup [] [] end.
Definition add_to_group (sd : Side) (i : nat) (u : UniGroup) : UniGroup :=
  match sd with
  | Inputs => mkUniGroup (ug_inputs u ++ [i]) (ug_outputs u)
  | Outputs => mkUniGroup (ug_inputs u) (ug_outputs u ++ [i])
  end.
Fixpoint join_group (sd : Side) (c : ascii) (i : nat) (gs : list (ascii * UniGroup)) : list (ascii * UniGroup) :=
  match gs with
  | [] => [(c, add_to_group sd i (mkUniGroup [] []))]
  | (c', u) :: gs' => if (c' =? c)%char then (c', add_to_group sd i u) :: gs' else (c', u) :: join_group sd c i gs'
  end.

(** The descriptors of the inputs end at a slash, those of the outputs at the
    end of the string.  The character in force and the rest, after one port; the
    end of the string is an invalid personality, and for a flow code the next
    access is outside the string. *)
Definition next_code (sd : Side) (cur : ascii) (s : string) (at_end : failure) : res (ascii * string) :=
  match s with
  | EmptyString => match sd with Inputs => Fail at_end | Outputs => Ok (cur, s) end
  | String c s' =>
      match sd with
      | Inputs => if (c =? "/")%char then Ok (cur, s) else Ok (c, s')
      | Outputs => Ok (c, s')
      end
  end.

(** One of the two loops of [initializePorts]: [n] ports, the first of them
    numbered [i]. *)
Fixpoint make_ports (sd : Side) (n i : nat) (pCurrent fCurrent : ascii) (ps fs : string) (gs : list (ascii * UniGroup))
    : res (list PortSpec * string * string * list (ascii * UniGroup)) :=
  match n with
  | O => Ok ([], ps, fs, gs)
  | S n =>
      let? (pCurrent, ps) := next_code sd pCurrent ps AssertFailed in
      let? (fCurrent, fs) := next_code sd fCurrent fs UndefinedBehaviour in
      let flows := negb (fCurrent =? NO_FLOW_ASSOCIATION)%char in
      let? p := Port_mk pCurrent (if flows then Some fCurrent else None) in
      let? _ := check (negb flows || (nat_of_ascii fCurrent <? 128)%nat) UndefinedBehaviour in
      let gs := if flows then join_group sd fCurrent i gs else gs in
      let? (l, ps, fs, gs) := make_ports sd n (S i) pCurrent fCurrent ps fs gs in
      Ok (p :: l, ps, fs, gs)
  end.

Definition skip_slash (s : string) : res string :=
  match s with String c s' => if (c =? "/")%char then Ok s' else Fail AssertFailed | EmptyString => Fail AssertFailed end.

(** [ElementSpec::ElementSpec] *)
Definition ElementSpec_mk (id : nat) (e : ElementObj) : res ElementSpec :=
  let? (ins, ps, fs, gs) :=
    make_ports Inputs (Z.to_nat (p_n (el_inputs e))) 0 "a"%char NO_FLOW_ASSOCIATION (el_processing e) (el_flow_code e) [] in
  let? ps := skip_slash ps in
  let? fs := skip_slash fs in
  let? (outs, _, _, gs) := make_ports Outputs (Z.to_nat (p_n (el_outputs e))) 0 "a"%char NO_FLOW_ASSOCIATION ps fs gs in
  Ok (mkElementSpec id ins outs gs).

(** ** Unification *)

Definition with_processing (p : Processing) (P : PortSpec) : PortSpec :=
  mkPortSpec p (ps_uniGroup P) (ps_counterpart P) (ps_check P).

(** [ElementSpec::Port::unify] *)
Definition Port_unify (p : Processing) (P : PortSpec) : UnificationResult * PortSpec :=
  if decide (ps_processing P = AGNOSTIC) then (PROGRESS, with_processing p P)
  else if decide (ps_processing P = p) then (UNCHANGED, P)
  else (CONFLICT, P).

(** [ElementSpec::Port::counterpart(ElementSpecPtr)], [reset] *)
Definition Port_counterpart (s : nat) (P : PortSpec) : nat * PortSpec :=
  match ps_counterpart P with
  | None => (0%nat, mkPortSpec (ps_processing P) (ps_uniGroup P) (Some s) (ps_check P))
  | Some _ => (1%nat, P)
  end.
Definition Port_reset (P : PortSpec) : PortSpec :=
  mkPortSpec (ps_processing P) (ps_uniGroup P) None (ps_check P).

(** The loops of [unifyInput] and [unifyOutput] over the ports at the given
    positions; a position outside the group's vector is undefined. *)
Fixpoint unify_ports (ks : list (Side * option nat)) (p : Processing) (r : UnificationResult) (s : ElementSpec)
    : res (UnificationResult * ElementSpec) :=
  match ks with
  | [] => Ok (r, s)
  | (sd, k) :: ks' =>
      let? k := of_option UndefinedBehaviour k in
      let? P := of_option UndefinedBehaviour (es_ports sd s !! k) in
      match Port_unify p P with
      | (CONFLICT, _) => Ok (CONFLICT, s)
      | (PROGRESS, P) => unify_ports ks' p PROGRESS (set_es_ports sd (<[k := P]> (es_ports sd s)) s)
      | (UNCHANGED, _) => unify_ports ks' p r s
      end
  end.

(** The positions they go through: on the port's own side those before and
    those behind the port's number, then all on the other side. *)
Definition unify_order (sd : Side) (portNumber : nat) (u : UniGroup) : list (Side * option nat) :=
  let own := ug_side sd u in
  ((fun i => (sd, own !! i)) <$> (seq 0 portNumber ++ seq (S portNumber) (length own - S portNumber)))
  ++ ((fun k => (other sd, Some k)) <$> ug_side (other sd) u).

(** [ElementSpec::unifyInput], [ElementSpec::unifyOutput]; [n] is [ninputs()] or
    [noutputs()] of the element. *)
Definition unifyPort (sd : Side) (n : Z) (portNumber : nat) (s : ElementSpec) : res (UnificationResult * ElementSpec) :=
  let? _ := check (Z.of_nat portNumber <? n) AssertFailed in
  let? P := of_option UndefinedBehaviour (es_ports sd s !! portNumber) in
  match ps_processing P, ps_uniGroup P with
  | AGNOSTIC, _ | _, None => Ok (UNCHANGED, s)
  | p, Some c => unify_ports (unify_order sd portNumber (group_of c (es_uniGroups s))) p UNCHANGED s
  end.
Definition unifyInput := unifyPort Inputs.
Definition unifyOutput := unifyPort Outputs.

(** ** Adding and removing ports *)

Fixpoint output_descriptor (s : string) : res ascii :=
  match s with
  | EmptyString => Fail UndefinedBehaviour
  | String c s' => if (c =? "/")%char then Ok (match s' with String c' _ => c' | EmptyString => zero end) else output_descriptor s'
  end.

(** [ElementSpec::add_input] without a port key *)
Definition spec_add_input (e : ElementObj) (s : ElementSpec) : res (nat * ElementObj * ElementSpec) :=
  let? _ := check (el_dynamic e) Thrown in
  let? (k, P) := addPort (el_inputs e) in
  let e := set_el_ports Inputs P e in
  let? c := of_option AssertFailed (String.get 0 (el_processing e)) in
  let? p := Port_mk c None in
  if (k <? length (es_inputs s))%nat then Ok (k, e, set_es_ports Inputs (<[k := p]> (es_inputs s)) s)
  else
    let? _ := check (k =? length (es_inputs s))%nat AssertFailed in
    Ok (k, e, set_es_ports Inputs (es_inputs s ++ [p]) s).

(** [ElementSpec::add_output] without a port key: the test is the wrong way
    round, so that a number behind the end is written. *)
Definition spec_add_output (e : ElementObj) (s : ElementSpec) : res (nat * ElementObj * ElementSpec) :=
  let? _ := check (el_dynamic e) Thrown in
  let? (k, P) := addPort (el_outputs e) in
  let e := set_el_ports Outputs P e in
  let? c := output_descriptor (el_processing e) in
  let? p := Port_mk c None in
  if (length (es_outputs s) <? k)%nat then Fail UndefinedBehaviour
  else
    let? _ := check (k =? length (es_outputs s))%nat AssertFailed in
    Ok (k, e, set_es_ports Outputs (es_outputs s ++ [p]) s).

(** [ElementSpec::remove_input], [ElementSpec::remove_output] with a port
    number *)
Definition spec_remove (sd : Side) (k : nat) (e : ElementObj) (s : ElementSpec) : res (Z * ElementObj * ElementSpec) :=
  let? _ := check (el_dynamic e) Thrown in
  let (r, P) := deletePort k (el_ports sd e) in
  let e := set_el_ports sd P e in
  if r =? Z.of_nat k then
    let? _ := check (k <? length (es_ports sd s))%nat UndefinedBehaviour in
    Ok (r, e, set_es_ports sd (alter Port_reset k (es_ports sd s)) s)
  else Ok (-1, e, s).

(** ** What unification does *)

(** The personality of a port. *)
Definition pers (s : ElementSpec) (sd : Side) (k : nat) : option Processing := ps_processing <$> es_ports sd s !! k.

(** A port may only go from agnostic to a personality. *)
Definition port_settles (P P' : PortSpec) : Prop :=
  P' = P \/ (ps_processing P = AGNOSTIC /\ exists p, P' = with_processing p P).
Record spec_settles (s s' : ElementSpec) : Prop := {
  ss_element : es_element s' = es_element s;
  ss_groups : es_uniGroups s' = es_uniGroups s;
  ss_ports : forall sd, Forall2 port_settles (es_ports sd s) (es_ports sd s')
}.

#[export] Instance port_settles_refl : Reflexive port_settles.
Proof. intros P. by left. Qed.
#[export] Instance port_settles_trans : Transitive port_settles.
Proof.
  intros P Q R [->|[HP [p ->]]] [->|[HQ [q ->]]]; [by left|by right; eauto|by right; eauto|].
  right. split; [done|]. by exists q.
Qed.
#[export] Instance spec_settles_refl : Reflexive spec_settles.
Proof. intros s. split; [done|done|reflexivity]. Qed.
#[export] Instance spec_settles_trans : Transitive spec_settles.
Proof. intros a b c [H1 H2 H3] [H4 H5 H6]. split; [congruence|congruence|]. intros sd. by transitivity (es_ports sd b). Qed.

Lemma es_ports_set sd sd' l s : es_ports sd' (set_es_ports sd l s) = if decide (sd = sd') then l else es_ports sd' s.
Proof. by destruct sd, sd'. Qed.

(** A settled specification after one of its ports settled. *)
Lemma settle_port sd k P P' s : es_ports sd s !! k = Some P -> port_settles P P' ->
  spec_settles s (set_es_ports sd (<[k := P']> (es_ports sd s)) s).
Proof.
  intros HP H. split; [by destruct sd|by destruct sd|]. intros sd'. rewrite es_ports_set.
  destruct (decide (sd = sd')) as [->|]; [|reflexivity].
  rewrite <- (list_insert_id _ _ _ HP) at 1. by apply Forall2_insert.
Qed.

Lemma pers_set sd k P s sd' k' : (k < length (es_ports sd s))%nat ->
  pers (set_es_ports sd (<[k := P]> (es_ports sd s)) s) sd' k'
  = if decide (sd = sd' /\ k = k') then Some (ps_processing P) else pers s sd' k'.
Proof.
  intros Hk. unfold pers. rewrite es_ports_set. destruct (decide (sd = sd')) as [<-|Hs].
  - destruct (decide (k = k')) as [<-|Hn].
    + rewrite decide_True by done. by rewrite list_lookup_insert_eq.
    + rewrite decide_False by naive_solver. by rewrite list_lookup_insert_ne.
  - by rewrite decide_False by naive_solver.
Qed.

(** The positions [unify_ports] is given are ports, and may take [p]. *)
Definition visits (s : ElementSpec) (x : Side * option nat) : Prop := exists k, snd x = Some k /\ is_Some (es_ports (fst x) s !! k).
Definition admits (s : ElementSpec) (p : Processing) (x : Side * option nat) : Prop :=
  forall k, snd x = Some k -> pers s (fst x) k = Some AGNOSTIC \/ pers s (fst x) k = Some p.

Lemma visits_settles s s' x : spec_settles s s' -> visits s x -> visits s' x.
Proof.
  intros H (k & Hk & [P HP]). exists k. split; [done|].
  destruct (Forall2_lookup_l _ _ _ _ _ (ss_ports _ _ H (fst x)) HP) as (P' & HP' & _). by exists P'.
Qed.

Lemma unify_ports_ok ks p : p <> AGNOSTIC -> forall r s, Forall (visits s) ks -> r <> CONFLICT ->
  exists r' s', unify_ports ks p r s = Ok (r', s') /\ spec_settles s s'
    /\ (forall sd k, pers s' sd k = pers s sd k \/ (pers s' sd k = Some p /\ (sd, Some k) ∈ ks))
    /\ (Forall (admits s p) ks -> r' <> CONFLICT)
    /\ (r' <> CONFLICT -> forall sd k, (sd, Some k) ∈ ks -> pers s' sd k = Some p).
Proof.
  intros Hp. induction ks as [|[sd o] ks IH]; intros r s HV Hr.
  - exists r, s. split_and!; [done|reflexivity|by left|done|intros _ ? ? ?%elem_of_nil; done].
  - apply Forall_cons in HV as [(k & Hk & [P HP]) HV]. cbn in Hk, HP. subst o. cbn. rewrite HP. cbn.
    unfold Port_unify. destruct (decide (ps_processing P = AGNOSTIC)) as [HA|HA].
    + assert (Hlt : (k < length (es_ports sd s))%nat) by by eapply lookup_lt_Some.
      pose proof (settle_port sd k P (with_processing p P) s HP (or_intror (conj HA (ex_intro _ p eq_refl)))) as Hs.
      set (s1 := set_es_ports _ _ s) in *.
      assert (Hp1 : forall sd' k', pers s1 sd' k' = if decide (sd = sd' /\ k = k') then Some p else pers s sd' k')
        by (intros; apply (pers_set sd k (with_processing p P) s); done).
      destruct (IH PROGRESS s1) as (r' & s' & E & S' & Hps & Had & Hall); [|done|].
      { eapply Forall_impl; [exact HV|]. intros x. by apply visits_settles. }
      exists r', s'. split_and!; [done|by transitivity s1| | |].
      * intros sd' k'. destruct (Hps sd' k') as [Eq|[Eq Hin]]; [|right; split; [done|by apply list_elem_of_further]].
        rewrite Hp1 in Eq. destruct (decide (sd = sd' /\ k = k')) as [[-> ->]|]; [|by left].
        right. split; [done|apply list_elem_of_here].
      * intros HA'. apply Forall_cons in HA' as [_ HA']. apply Had. eapply Forall_impl; [exact HA'|].
        intros [sd' o'] Hadm k' Hk'. rewrite Hp1. destruct (decide _); [by right|by apply Hadm].
      * intros Hc sd' k' [Hin|Hin]%elem_of_cons; [|by apply Hall].
        injection Hin as -> ->. destruct (Hps sd k) as [Eq|[Eq _]]; [|done]. rewrite Eq, Hp1. by rewrite decide_True.
    + destruct (decide (ps_processing P = p)) as [HE|HE].
      * destruct (IH r s HV Hr) as (r' & s' & E & S' & Hps & Had & Hall). exists r', s'. split_and!; [done|done| | |].
        -- intros sd' k'. destruct (Hps sd' k') as [?|[? ?]]; [by left|right; split; [done|by apply list_elem_of_further]].
        -- intros HA'. apply Forall_cons in HA' as [_ HA']. by apply Had.
        -- intros Hc sd' k' [Hin|Hin]%elem_of_cons; [|by apply Hall].
           injection Hin as -> ->. destruct (Hps sd k) as [Eq|[Eq _]]; [|done]. rewrite Eq. unfold pers. rewrite HP. cbn. by rewrite HE.
      * exists CONFLICT, s. split_and!; [done|reflexivity|by left| |done].
        intros HA'. apply Forall_cons in HA' as [Hadm _]. exfalso. destruct (Hadm k eq_refl) as [Eq|Eq];
          unfold pers in Eq; cbn in Eq; rewrite HP in Eq; cbn in Eq; congruence.
Qed.

(** The groups tell exactly which ports carry their character. *)
Record groups_wf (s : ElementSpec) : Prop := {
  gw_member : forall sd k P c, es_ports sd s !! k = Some P -> ps_uniGroup P = Some c -> k ∈ ug_side sd (group_of c (es_uniGroups s));
  gw_port : forall sd k c, k ∈ ug_side sd (group_of c (es_uniGroups s)) -> exists P, es_ports sd s !! k = Some P /\ ps_uniGroup P = Some c
}.

(** A port's number serves [unifyPort] as its position in the group: it must not
    lie behind the group's end, nor be the position of another port. *)
Definition numbered (s : ElementSpec) : Prop := forall sd c k,
  k ∈ ug_side sd (group_of c (es_uniGroups s)) ->
  let own := ug_side sd (group_of c (es_uniGroups s)) in
  (k <= length own)%nat /\ forall j, own !! k = Some j -> j = k.

Definition same_group (s : ElementSpec) (sd sd' : Side) (k k' : nat) : Prop :=
  exists c P P', es_ports sd s !! k = Some P /\ ps_uniGroup P = Some c /\ es_ports sd' s !! k' = Some P' /\ ps_uniGroup P' = Some c.

Lemma port_settles_group P P' : port_settles P P' -> ps_uniGroup P' = ps_uniGroup P.
Proof. by intros [->|[_ [p ->]]]. Qed.

Lemma settles_lookup s s' sd k P' : spec_settles s s' -> es_ports sd s' !! k = Some P' ->
  exists P, es_ports sd s !! k = Some P /\ port_settles P P'.
Proof. intros H HP. by apply (Forall2_lookup_r _ _ _ _ _ (ss_ports _ _ H sd) HP). Qed.
Lemma settles_lookup_l s s' sd k P : spec_settles s s' -> es_ports sd s !! k = Some P ->
  exists P', es_ports sd s' !! k = Some P' /\ port_settles P P'.
Proof. intros H HP. by apply (Forall2_lookup_l _ _ _ _ _ (ss_ports _ _ H sd) HP). Qed.

Lemma same_group_settles s s' sd sd' k k' : spec_settles s s' -> same_group s' sd sd' k k' <-> same_group s sd sd' k k'.
Proof.
  intros H. split; intros (c & P & P' & H1 & H2 & H3 & H4).
  - destruct (settles_lookup _ _ _ _ _ H H1) as (Q & HQ & S1). destruct (settles_lookup _ _ _ _ _ H H3) as (Q' & HQ' & S2).
    apply port_settles_group in S1, S2. exists c, Q, Q'. split_and!; congruence.
  - destruct (settles_lookup_l _ _ _ _ _ H H1) as (Q & HQ & S1). destruct (settles_lookup_l _ _ _ _ _ H H3) as (Q' & HQ' & S2).
    apply port_settles_group in S1, S2. exists c, Q, Q'. split_and!; congruence.
Qed.

Lemma groups_wf_settles s s' : spec_settles s s' -> groups_wf s -> groups_wf s'.
Proof.
  intros H [H1 H2]. split; rewrite (ss_groups _ _ H).
  - intros sd k P' c HP' Hc. destruct (settles_lookup _ _ _ _ _ H HP') as (P & HP & S1). apply port_settles_group in S1.
    apply (H1 sd k P c HP). congruence.
  - intros sd k c Hk. destruct (H2 sd k c Hk) as (P & HP & Hc). destruct (settles_lookup_l _ _ _ _ _ H HP) as (P' & HP' & S1).
    apply port_settles_group in S1. exists P'. split; congruence.
Qed.
Lemma numbered_settles s s' : spec_settles s s' -> numbered s -> numbered s'.
Proof. intros H Hn. unfold numbered. by rewrite (ss_groups _ _ H). Qed.

(** With such numbers the positions visited are the other ports of the group. *)
Lemma unify_order_elem s sd k c sd' o : groups_wf s -> numbered s ->
  k ∈ ug_side sd (group_of c (es_uniGroups s)) ->
  (sd', o) ∈ unify_order sd k (group_of c (es_uniGroups s)) ->
  exists k', o = Some k' /\ k' ∈ ug_side sd' (group_of c (es_uniGroups s)).
Proof.
  intros Hg Hn Hk. set (u := group_of c _) in *. unfold unify_order. intros [Hin|Hin]%elem_of_app.
  - apply list_elem_of_fmap in Hin as (i & [= -> ->] & Hi). destruct (Hn sd c k Hk) as [Hle _]. fold u in Hle.
    assert (Hlt : (i < length (ug_side sd u))%nat).
    { apply elem_of_app in Hi as [Hi|Hi]; apply elem_of_seq in Hi; lia. }
    apply lookup_lt_is_Some in Hlt as [j Hj]. exists j. split; [done|]. by eapply list_elem_of_lookup_2.
  - apply list_elem_of_fmap in Hin as (i & [= -> ->] & Hi). by exists i.
Qed.
Lemma unify_order_covers s sd k c sd' k' : numbered s ->
  k ∈ ug_side sd (group_of c (es_uniGroups s)) -> k' ∈ ug_side sd' (group_of c (es_uniGroups s)) ->
  (sd', k') = (sd, k) \/ (sd', Some k') ∈ unify_order sd k (group_of c (es_uniGroups s)).
Proof.
  intros Hn Hk Hk'. set (u := group_of c _) in *. unfold unify_order. destruct (decide (sd' = sd)) as [->|Hs].
  - apply list_elem_of_lookup in Hk' as [i Hi]. destruct (decide (i = k)) as [->|Hik].
    + left. destruct (Hn sd c k Hk) as [_ Hj]. by rewrite (Hj _ Hi).
    + right. apply elem_of_app. left. apply list_elem_of_fmap. exists i. split; [by rewrite Hi|].
      apply lookup_lt_Some in Hi. apply elem_of_app. rewrite !elem_of_seq. lia.
  - right. apply elem_of_app. right. apply list_elem_of_fmap. exists k'. assert (sd' = other sd) as -> by by destruct sd, sd'. done.
Qed.

(** [unifyPort] on a port that has a personality: it gives it to the whole
    group, unless a port of the group has the other one. *)
Lemma unifyPort_ok s sd n k p : groups_wf s -> numbered s -> pers s sd k = Some p -> p <> AGNOSTIC -> Z.of_nat k < n ->
  exists r s', unifyPort sd n k s = Ok (r, s') /\ spec_settles s s'
    /\ (forall sd' k', pers s' sd' k' = pers s sd' k' \/ (pers s' sd' k' = Some p /\ same_group s sd sd' k k'))
    /\ ((forall sd' k', same_group s sd sd' k k' -> pers s sd' k' = Some AGNOSTIC \/ pers s sd' k' = Some p) -> r <> CONFLICT)
    /\ (r <> CONFLICT -> forall sd' k', same_group s sd sd' k k' -> pers s' sd' k' = Some p).
Proof.
  intros Hg Hn Hpk Hp Hlt. unfold unifyPort. apply Z.ltb_lt in Hlt. rewrite Hlt. cbn.
  unfold pers in Hpk. destruct (es_ports sd s !! k) as [P|] eqn:HP; [|done]. injection Hpk as HpP. cbn.
  destruct (ps_uniGroup P) as [c|] eqn:Hc.
  - assert (Hk := gw_member _ Hg _ _ _ _ HP Hc).
    assert (Hord : forall sd' o, (sd', o) ∈ unify_order sd k (group_of c (es_uniGroups s)) ->
      exists k', o = Some k' /\ same_group s sd sd' k k').
    { intros sd' o Hin. destruct (unify_order_elem s sd k c sd' o Hg Hn Hk Hin) as (k' & -> & Hk').
      exists k'. split; [done|]. destruct (gw_port _ Hg _ _ _ Hk') as (P' & HP' & Hc'). by exists c, P, P'. }
    destruct (unify_ports_ok (unify_order sd k (group_of c (es_uniGroups s))) p Hp UNCHANGED s) as (r & s' & E & S' & Hps & Had & Hall); [|done|].
    { apply Forall_forall. intros [sd' o] Hin. destruct (Hord _ _ Hin) as (k' & -> & (? & ? & P' & _ & _ & HP' & _)).
      exists k'. split; [done|]. by exists P'. }
    exists r, s'. split_and!.
    + rewrite HpP. destruct p; done.
    + done.
    + intros sd' k'. destruct (Hps sd' k') as [?|[? Hin]]; [by left|]. right. split; [done|].
      by destruct (Hord _ _ Hin) as (? & [= <-] & ?).
    + intros Hadm. apply Had. apply Forall_forall. intros [sd' o] Hin k' Hk'. cbn in *. subst o.
      destruct (Hord _ _ Hin) as (? & [= <-] & ?). by apply Hadm.
    + intros Hr sd' k' (c' & P1 & P' & H1 & H2 & H3 & H4). assert (P1 = P) as -> by congruence. assert (c' = c) as -> by congruence.
      destruct (unify_order_covers s sd k c sd' k' Hn Hk (gw_member _ Hg _ _ _ _ H3 H4)) as [[= -> ->]|Hin]; [|by apply Hall].
      destruct (Hps sd k) as [Eq|[Eq _]]; [|done]. rewrite Eq. unfold pers. rewrite HP. cbn. by rewrite HpP.
  - exists UNCHANGED, s. split_and!.
    + rewrite HpP. destruct p; done.
    + reflexivity.
    + by left.
    + done.
    + intros _ sd' k' (c & P1 & P' & H1 & H2 & H3 & H4). congruence.
Qed.

(** ** The groups made from a flow code *)

Lemma group_of_join sd c c' i gs :
  group_of c' (join_group sd c i gs) = if decide (c = c') then add_to_group sd i (group_of c gs) else group_of c' gs.
Proof.
  induction gs as [|[c1 u] gs IH]; unfold group_of in *; cbn.
  - destruct (Ascii.eqb_spec c c'), (decide (c = c')); done.
  - destruct (Ascii.eqb_spec c1 c) as [->|Hc]; cbn.
    + destruct (Ascii.eqb_spec c c'), (decide (c = c')); done.
    + destruct (Ascii.eqb_spec c1 c') as [->|Hc']; [by rewrite decide_False by congruence|]. exact IH.
Qed.
Lemma add_to_group_elem sd sd' i k u : k ∈ ug_side sd' (add_to_group sd i u) <-> k ∈ ug_side sd' u \/ (sd' = sd /\ k = i).
Proof. destruct sd, sd'; cbn; rewrite ?elem_of_app, ?list_elem_of_singleton; naive_solver. Qed.

Lemma make_ports_groups sd n : forall i pc fc ps fs gs l ps' fs' gs', make_ports sd n i pc fc ps fs gs = Ok (l, ps', fs', gs') ->
  length l = n /\ forall sd' c k, k ∈ ug_side sd' (group_of c gs') <->
    k ∈ ug_side sd' (group_of c gs) \/ (sd' = sd /\ exists j P, l !! j = Some P /\ ps_uniGroup P = Some c /\ k = (i + j)%nat).
Proof.
  induction n as [|n IH]; intros i pc fc ps fs gs l ps' fs' gs'; cbn.
  - intros [= <- <- <- <-]. split; [done|]. intros. split; [by left|]. intros [?|(_ & ? & ? & ? & _)]; done.
  - destruct (next_code _ _ ps _) as [[pc1 ps1]|]; [|done]. cbn. destruct (next_code _ _ fs _) as [[fc1 fs1]|]; [|done]. cbn.
    set (flows := negb (fc1 =? NO_FLOW_ASSOCIATION)%char). unfold Port_mk.
    destruct (processing_of pc1) as [p|]; [|done]. cbn. destruct (check _ _); [|done]. cbn.
    destruct (make_ports sd n (S i) pc1 fc1 ps1 fs1 _) as [[[[l1 ps2] fs2] gs2]|] eqn:E; [|done]. cbn. intros [= <- <- <- <-].
    destruct (IH _ _ _ _ _ _ _ _ _ _ E) as [Hl Hg]. split; [cbn; by rewrite Hl|]. intros sd' c k. rewrite Hg. clear Hg E.
    assert (Hin : k ∈ ug_side sd' (group_of c (if flows then join_group sd fc1 i gs else gs)) <->
      k ∈ ug_side sd' (group_of c gs) \/ (sd' = sd /\ k = i /\ (if flows then Some fc1 else None) = Some c)).
    { destruct flows; [|naive_solver]. rewrite group_of_join. destruct (decide (fc1 = c)) as [->|];
        [rewrite add_to_group_elem|]; naive_solver. }
    rewrite Hin. split.
    + intros [[?|(-> & -> & Hc)]|(-> & j & P & H1 & H2 & ->)]; [by left| |].
      * right. split; [done|]. eexists 0%nat, _. split_and!; [done|done|lia].
      * right. split; [done|]. exists (S j), P. split_and!; [done|done|lia].
    + intros [?|(-> & [|j] & P & H1 & H2 & ->)]; [by left; left| |].
      * cbn in H1. injection H1 as <-. cbn in H2. left; right. split_and!; [done|lia|done].
      * right. split; [done|]. exists j, P. split_and!; [done|done|lia].
Qed.

Lemma ElementSpec_mk_ok id e s : ElementSpec_mk id e = Ok s ->
  groups_wf s /\ es_element s = id /\ forall sd, length (es_ports sd s) = Z.to_nat (p_n (el_ports sd e)).
Proof.
  unfold ElementSpec_mk. destruct (make_ports Inputs _ _ _ _ _ _ _) as [[[[ins ps] fs] gs]|] eqn:E1; [|done]. cbn.
  destruct (skip_slash ps) as [ps'|]; [|done]. cbn. destruct (skip_slash fs) as [fs'|]; [|done]. cbn.
  destruct (make_ports Outputs _ _ _ _ _ _ _) as [[[[outs ps2] fs2] gs2]|] eqn:E2; [|done]. cbn. intros [= <-].
  destruct (make_ports_groups _ _ _ _ _ _ _ _ _ _ _ _ E1) as [L1 G1]. destruct (make_ports_groups _ _ _ _ _ _ _ _ _ _ _ _ E2) as [L2 G2].
  assert (HG : forall sd c k, k ∈ ug_side sd (group_of c gs2) <-> exists P, es_ports sd (mkElementSpec id ins outs gs2) !! k = Some P /\ ps_uniGroup P = Some c).
  { intros sd c k. rewrite G2, G1. cbn. split.
    - intros [[Hin|(-> & j & P & H1 & H2 & ->)]|(-> & j & P & H1 & H2 & ->)]; [|by exists P|by exists P].
      destruct sd; by apply elem_of_nil in Hin.
    - intros (P & H1 & H2). destruct sd; [left; right|right]; (split; [done|]); by exists k, P. }
  split; [|split; [done|by intros []]]. split; cbn [es_uniGroups].
  - intros sd k P c H1 H2. apply HG. by exists P.
  - intros sd k c. apply HG.
Qed.


(** Groups that are an initial segment of the ports on each side - all flow
    codes of src/elements are of that kind - are well numbered. *)
Lemma numbered_prefix s :
  Forall (fun g : ascii * UniGroup => forall sd, ug_side sd (snd g) = seq 0 (length (ug_side sd (snd g)))) (es_uniGroups s) ->
  numbered s.
Proof.
  intros H sd c k Hk. unfold group_of in *. destruct (List.find _ _) as [[c' u]|] eqn:E.
  - apply List.find_some in E as [E _]. rewrite Forall_forall in H. specialize (H _ (proj2 (list_elem_of_In _ _) E) sd). cbn in H.
    rewrite H in Hk. apply elem_of_seq in Hk. cbn. split; [lia|]. intros j Hj. rewrite H in Hj. by apply lookup_seq in Hj as [-> _].
  - cbn in Hk. destruct sd; by apply elem_of_nil in Hk.
Qed.

(** ** What does not go as meant *)

(** The number of a port is used as its position in its group.  With the flow
    code "-xx/x" the third input does not follow the second one, and with
    "--x/x" the third input's group is read outside its vector. *)
Definition three_to_one (flow : string) : ElementObj :=
  mkElementObj "e" (portSetup 3) (portSetup 1) "a/a" flow false false None.
Definition pushed_at (k : nat) (flow : string) : res (UnificationResult * ElementSpec) :=
  let? s := ElementSpec_mk 0 (three_to_one flow) in
  unifyInput 3 k (set_es_ports Inputs (alter (with_processing PUSH) k (es_inputs s)) s).
Lemma group_skipped : exists s, pushed_at 1 "-xx/x" = Ok (PROGRESS, s)
  /\ same_group s Inputs Inputs 1 2 /\ pers s Inputs 1 = Some PUSH /\ pers s Inputs 2 = Some AGNOSTIC.
Proof. eexists. split; [reflexivity|]. split; [|done]. by exists "x"%char; eexists _, _. Qed.
Lemma group_overrun : pushed_at 2 "--x/x" = Fail UndefinedBehaviour.
Proof. reflexivity. Qed.

(** An output port that was removed cannot be added again: the number is found,
    but no case of [add_output] takes it. *)
Lemma add_output_after_remove :
  let e := mkElementObj "e" (portSetup 1) (portSetup 2) "h/h" "-/-" false true None in
  exists s e' s', ElementSpec_mk 0 e = Ok s /\ spec_remove Outputs 0 e s = Ok (0, e', s') /\ spec_add_output e' s' = Fail AssertFailed.
Proof. eexists _, _, _. split_and!; reflexivity. Qed.
