(* ===== verification/Graph.v ===== *)
(** * Dataflow graphs (src/p2core/dataflow.C, dataflowEdit.C, plumber.C)

    A [Dataflow] is a set of elements and of hookups between their ports; the
    plumber checks it, settles which hookups are push and which are pull, and
    connects the elements.  A [DataflowEdit] is a copy of an installed dataflow
    with elements and hookups added and removed.  A dataflow may itself be an
    element of another; its exported ports are then looked up in it.

    [World] holds all objects; a specification, an element and a dataflow are
    named by their positions.  The initialization of a single element is its own
    class's; its outcome is an argument. *)

From Stdlib Require Import Ascii String.
From S2P Require Import Prelude Elements Specs.

Local Open Scope p2_scope.

(** ** Data *)

(** [ElementSpec::Hookup] between two elements *)
Record Hookup := mkHookup { h_from : nat; h_fromPort : nat; h_to : nat; h_toPort : nat }.

(** [Dataflow], and [DataflowEdit] when [d_edit] holds its new elements and new
    hookups.  The hookups of the dataflow's own ports are pairs of the own port
    and the port of a specification inside. *)
Record Dataflow := mkDataflow {
  d_name : string;
  d_hookups : list Hookup;
  d_inputs : list (nat * (nat * nat));
  d_outputs : list (nat * (nat * nat));
  d_elements : list nat;
  d_garbage : list nat;
  d_edit : option (list nat * list Hookup);
  d_validated : bool;
  d_initialized : bool
}.

Record World := mkWorld {
  w_elements : list ElementObj;
  w_specs : list ElementSpec;
  w_flows : list Dataflow;
  w_installed : gmap string nat
}.

Definition with_elements (es : list ElementObj) (W : World) : World := mkWorld es (w_specs W) (w_flows W) (w_installed W).
Definition with_specs (ss : list ElementSpec) (W : World) : World := mkWorld (w_elements W) ss (w_flows W) (w_installed W).
Definition with_flows (ds : list Dataflow) (W : World) : World := mkWorld (w_elements W) (w_specs W) ds (w_installed W).

Definition spec_at (W : World) (s : nat) : res ElementSpec := of_option UndefinedBehaviour (w_specs W !! s).
Definition flow_at (W : World) (d : nat) : res Dataflow := of_option UndefinedBehaviour (w_flows W !! d).
(** [ElementSpec::element] *)
Definition element_of (W : World) (s : nat) : res (nat * ElementObj) :=
  let? sp := spec_at W s in
  let? e := of_option UndefinedBehaviour (w_elements W !! es_element sp) in Ok (es_element sp, e).

(** The number of ports on a side: [ninputs()], [noutputs()]. *)
Definition n_ports (sd : Side) (e : ElementObj) : Z := p_n (el_ports sd e).

(** ** Ports behind nested dataflows *)

Definition exported (sd : Side) (D : Dataflow) : list (nat * (nat * nat)) :=
  match sd with Inputs => d_inputs D | Outputs => d_outputs D end.

(** [Dataflow::input], [Dataflow::output]: the plain
    element and port behind a port of a dataflow.  Where there is none the
    source answers a null pointer, which all callers follow. *)
Fixpoint resolve (fuel : nat) (sd : Side) (d port : nat) (W : World) : res (nat * nat) :=
  match fuel with
  | O => Fail OutOfFuel
  | S fuel =>
      let? D := flow_at W d in
      let? _ := check (port <? length (exported sd D))%nat AssertFailed in
      let? (_, (s, p)) := of_option UndefinedBehaviour (List.find (fun x => fst x =? port)%nat (exported sd D)) in
      let? (_, e) := element_of W s in
      match el_dataflow e with Some d' => resolve fuel sd d' p W | None => Ok (s, p) end
  end.

(** [ElementSpec::input(int)], [ElementSpec::output(int)]: where the port is
    found. *)
Definition port_loc (sd : Side) (s port : nat) (W : World) : res (nat * nat) :=
  let? (_, e) := element_of W s in
  match el_dataflow e with
  | Some d => resolve (S (length (w_flows W))) sd d port W
  | None => Ok (s, port)
  end.

Definition port_spec (sd : Side) (l : nat * nat) (W : World) : res PortSpec :=
  let? sp := spec_at W (fst l) in of_option UndefinedBehaviour (es_ports sd sp !! snd l).
Definition set_port (sd : Side) (l : nat * nat) (P : PortSpec) (W : World) : World :=
  with_specs (alter (fun S => set_es_ports sd (<[snd l := P]> (es_ports sd S)) S) (fst l) (w_specs W)) W.

(** [Dataflow::checkInput], [Dataflow::checkOutput] *)
Definition check_exported (sd : Side) (D : Dataflow) (s port : nat) : bool :=
  bool_decide ((s, port) ∈ (exported sd D).*2).

(** ** The checks of [Dataflow::validate] *)

Definition errors (n : nat) : Z := if (n =? 0)%nat then 0 else -1.
Definition count_err (b : bool) : nat := if b then 1 else 0.

(** [Dataflow::check_hookup_elements] *)
Fixpoint hookup_elements (known : list nat) (hs : list Hookup) (W : World) : res nat :=
  match hs with
  | [] => Ok O
  | h :: hs' =>
      let? (f, _) := element_of W (h_from h) in
      let? (t, _) := element_of W (h_to h) in
      let? n := hookup_elements known hs' W in
      Ok (count_err (bool_decide (f ∉ known)) + count_err (bool_decide (t ∉ known)) + n)%nat
  end.
Fixpoint element_ids (ss : list nat) (W : World) : res (list nat) :=
  match ss with
  | [] => Ok []
  | s :: ss' => let? (e, _) := element_of W s in let? es := element_ids ss' W in Ok (e :: es)
  end.
Definition check_hookup_elements (D : Dataflow) (W : World) : res Z :=
  let? known := element_ids (d_elements D) W in
  let? n := hookup_elements known (d_hookups D) W in Ok (errors n).

(** [Dataflow::check_hookup_range] *)
Fixpoint hookup_range (hs : list Hookup) (W : World) : res nat :=
  match hs with
  | [] => Ok O
  | h :: hs' =>
      let? (_, f) := element_of W (h_from h) in
      let? (_, t) := element_of W (h_to h) in
      let? n := hookup_range hs' W in
      Ok (count_err (n_ports Outputs f <=? Z.of_nat (h_fromPort h))%Z + count_err (n_ports Inputs t <=? Z.of_nat (h_toPort h))%Z + n)%nat
  end.
Definition check_hookup_range (D : Dataflow) (W : World) : res Z :=
  let? n := hookup_range (d_hookups D) W in Ok (errors n).

(** An agnostic end takes the personality of the other end, and the ports of its
    group follow. *)
Definition settle (sd : Side) (s port : nat) (l : nat * nat) (p : Processing) (W : World) : res (nat * World) :=
  let? P := port_spec sd l W in
  let W := set_port sd l (with_processing p P) W in
  let? (_, e) := element_of W s in
  let? sp := spec_at W s in
  let? (r, sp) := unifyPort sd (n_ports sd e) port sp in
  Ok (match r with CONFLICT => 1%nat | _ => 0%nat end, with_specs (<[s := sp]> (w_specs W)) W).

(** The body of the loop of [Dataflow::check_push_and_pull]: whether there was
    progress, the errors, and the ports. *)
Definition settle_hookup (h : Hookup) (W : World) : res (bool * nat * World) :=
  let? (_, f) := element_of W (h_from h) in
  let? (_, t) := element_of W (h_to h) in
  let? _ := check ((Z.of_nat (h_fromPort h) <? n_ports Outputs f) && (Z.of_nat (h_toPort h) <? n_ports Inputs t)) AssertFailed in
  let? lf := port_loc Outputs (h_from h) (h_fromPort h) W in
  let? lt := port_loc Inputs (h_to h) (h_toPort h) W in
  let? pf := port_spec Outputs lf W in
  let? pt := port_spec Inputs lt W in
  match ps_processing pf, ps_processing pt with
  | PUSH, PUSH | PULL, PULL | AGNOSTIC, AGNOSTIC => Ok (false, 0%nat, W)
  | PUSH, PULL | PULL, PUSH => Ok (false, 1%nat, W)
  | p, AGNOSTIC => let? (n, W) := settle Inputs (h_to h) (h_toPort h) lt p W in Ok (true, n, W)
  | AGNOSTIC, p => let? (n, W) := settle Outputs (h_from h) (h_fromPort h) lf p W in Ok (true, n, W)
  end.
Fixpoint settle_pass (hs : list Hookup) (W : World) : res (bool * nat * World) :=
  match hs with
  | [] => Ok (false, 0%nat, W)
  | h :: hs' =>
      let? (p1, n1, W) := settle_hookup h W in
      let? (p2, n2, W) := settle_pass hs' W in
      Ok (p1 || p2, (n1 + n2)%nat, W)
  end.
Fixpoint settle_loop (fuel : nat) (hs : list Hookup) (W : World) : res (nat * World) :=
  match fuel with
  | O => Fail OutOfFuel
  | S fuel =>
      let? (progress, n, W) := settle_pass hs W in
      if (progress : bool) then let? (n', W) := settle_loop fuel hs W in Ok ((n + n')%nat, W) else Ok (n, W)
  end.

(** The ports that are still agnostic, which bounds the rounds of the loop. *)
Definition is_agnostic (P : PortSpec) : bool := bool_decide (ps_processing P = AGNOSTIC).
Definition agnostic_ports (S : ElementSpec) : nat :=
  (length (List.filter is_agnostic (es_inputs S)) + length (List.filter is_agnostic (es_outputs S)))%nat.
Definition agnostics (W : World) : nat := sum_list (agnostic_ports <$> w_specs W).

(** [Dataflow::check_push_and_pull] *)
Definition check_push_and_pull (D : Dataflow) (W : World) : res (Z * World) :=
  let? (n, W) := settle_loop (S (agnostics W)) (d_hookups D) W in Ok (errors n, W).

(** [Dataflow::eval_hookups] *)
Definition attach (sd : Side) (s port peer : nat) (W : World) : res (nat * World) :=
  let? l := port_loc sd s port W in
  let? P := port_spec sd l W in
  let (dup, P) := Port_counterpart peer P in Ok (dup, set_port sd l P W).
Fixpoint attach_hookups (hs : list Hookup) (W : World) : res (nat * World) :=
  match hs with
  | [] => Ok (0%nat, W)
  | h :: hs' =>
      let? (n1, W) := attach Outputs (h_from h) (h_fromPort h) (h_to h) W in
      let? (n2, W) := attach Inputs (h_to h) (h_toPort h) (h_from h) W in
      let? (n3, W) := attach_hookups hs' W in
      Ok ((n1 + n2 + n3)%nat, W)
  end.
Definition eval_hookups (D : Dataflow) (W : World) : res (Z * World) :=
  let? (n, W) := attach_hookups (d_hookups D) W in Ok (errors n, W).

(** [Dataflow::check_hookup_completeness]: the unused ports of one side of one
    element, of one element, and of all. *)
Fixpoint unused_ports (sd : Side) (D : Dataflow) (s : nat) (ports : list nat) (W : World) : res nat :=
  match ports with
  | [] => Ok O
  | p :: ports' =>
      let? n :=
        if check_exported sd D s p then Ok O
        else
          let? l := port_loc sd s p W in
          let? P := port_spec sd l W in
          Ok (count_err (ps_check P && bool_decide (ps_counterpart P = None))) in
      let? n' := unused_ports sd D s ports' W in Ok (n + n')%nat
  end.
Fixpoint unused_all (D : Dataflow) (ss : list nat) (W : World) : res nat :=
  match ss with
  | [] => Ok O
  | s :: ss' =>
      let? (_, e) := element_of W s in
      let? n1 := unused_ports Inputs D s (seq 0 (Z.to_nat (n_ports Inputs e))) W in
      let? n2 := unused_ports Outputs D s (seq 0 (Z.to_nat (n_ports Outputs e))) W in
      let? n := unused_all D ss' W in Ok (n1 + n2 + n)%nat
  end.
Definition check_hookup_completeness (D : Dataflow) (W : World) : res Z :=
  let? n := unused_all D (d_elements D) W in Ok (errors n).

Definition alter_flow (f : Dataflow -> Dataflow) (d : nat) (W : World) : World := with_flows (alter f d (w_flows W)) W.
Definition set_validated (D : Dataflow) : Dataflow :=
  mkDataflow (d_name D) (d_hookups D) (d_inputs D) (d_outputs D) (d_elements D) (d_garbage D) (d_edit D) true (d_initialized D).
Definition set_initialized (D : Dataflow) : Dataflow :=
  mkDataflow (d_name D) (d_hookups D) (d_inputs D) (d_outputs D) (d_elements D) (d_garbage D) (d_edit D) (d_validated D) true.

(** The checks in their order; each stops at the first that fails. *)
Definition run_checks (D : Dataflow) (W : World) : res (Z * World) :=
  let? r := check_hookup_elements D W in
  if r <? 0 then Ok (-1, W) else
  let? r := check_hookup_range D W in
  if r <? 0 then Ok (-1, W) else
  let? (r, W) := check_push_and_pull D W in
  if r <? 0 then Ok (-1, W) else
  let? (r, W) := eval_hookups D W in
  if r <? 0 then Ok (-1, W) else
  let? r := check_hookup_completeness D W in
  Ok (if r <? 0 then -1 else 0, W).

(** [Dataflow::validate]; [fuel] bounds the nesting of dataflows. *)
Fixpoint validate_elements (validate : nat -> World -> res (Z * World)) (ss : list nat) (W : World) : res (Z * World) :=
  match ss with
  | [] => Ok (0, W)
  | s :: ss' =>
      let? (_, e) := element_of W s in
      match el_dataflow e with
      | None => validate_elements validate ss' W
      | Some d =>
          let? (r, W) := validate d W in
          if r <? 0 then Ok (-1, W) else validate_elements validate ss' W
      end
  end.
Fixpoint Dataflow_validate (fuel : nat) (d : nat) (W : World) : res (Z * World) :=
  match fuel with
  | O => Fail OutOfFuel
  | S fuel =>
      let? D := flow_at W d in
      if d_validated D then Ok (0, W)
      else
        let? (r, W) := validate_elements (Dataflow_validate fuel) (d_elements D) W in
        if r <? 0 then Ok (-1, W)
        else
          let? (r, W) := run_checks D W in
          if r <? 0 then Ok (-1, W) else Ok (0, alter_flow set_validated d W)
  end.

(** ** [Dataflow::initialize] *)

(** One hookup of [set_connections]. *)
Definition connect (h : Hookup) (W : World) : res World :=
  let? (f, fp) := port_loc Outputs (h_from h) (h_fromPort h) W in
  let? (t, tp) := port_loc Inputs (h_to h) (h_toPort h) W in
  let? (fe, _) := element_of W f in
  let? (te, _) := element_of W t in
  let join sd k peer pp e := set_el_ports sd (snd (connectPort k peer pp (el_ports sd e))) e in
  Ok (with_elements (alter (join Inputs tp fe fp) te (alter (join Outputs fp te tp) fe (w_elements W))) W).
Fixpoint set_connections (hs : list Hookup) (W : World) : res World :=
  match hs with
  | [] => Ok W
  | h :: hs' => let? W := connect h W in set_connections hs' W
  end.

Definition set_active (b : bool) (e : ElementObj) : ElementObj :=
  mkElementObj (el_name e) (el_inputs e) (el_outputs e) (el_processing e) (el_flow_code e) b (el_dynamic e) (el_dataflow e).

Section initialize.
(** What [initialize()] of an element that is not a dataflow answers. *)
Context (elem_initialize : nat -> Z).

Fixpoint init_elements (initialize : nat -> World -> res (Z * World)) (ss : list nat) (W : World) : res (nat * World) :=
  match ss with
  | [] => Ok (0%nat, W)
  | s :: ss' =>
      let? (i, e) := element_of W s in
      let? (r, W) :=
        if el_active e then Ok (0, W)
        else match el_dataflow e with Some d => initialize d W | None => Ok (elem_initialize i, W) end in
      if r <? 0 then let? (n, W) := init_elements initialize ss' W in Ok (S n, W)
      else init_elements initialize ss' (with_elements (alter (set_active true) i (w_elements W)) W)
  end.
Fixpoint initialize (fuel : nat) (d : nat) (W : World) : res (Z * World) :=
  match fuel with
  | O => Fail OutOfFuel
  | S fuel =>
      let? D := flow_at W d in
      let? (n, W) :=
        if d_initialized D then Ok (0%nat, W)
        else
          let? W := set_connections (match d_edit D with Some (_, hs) => hs | None => d_hookups D end) W in
          init_elements (initialize fuel) (d_elements D) W in
      if (n =? 0)%nat then Ok (0, alter_flow set_initialized d W) else Ok (-1, W)
  end.
End initialize.

(** ** [DataflowEdit] *)

Definition set_hookups (hs : list Hookup) (D : Dataflow) : Dataflow :=
  mkDataflow (d_name D) hs (d_inputs D) (d_outputs D) (d_elements D) (d_garbage D) (d_edit D) (d_validated D) (d_initialized D).
Definition set_edit (es : list nat) (hs : list Hookup) (D : Dataflow) : Dataflow :=
  mkDataflow (d_name D) (d_hookups D) (d_inputs D) (d_outputs D) (d_elements D) (d_garbage D) (Some (es, hs)) (d_validated D) (d_initialized D).
Definition set_members (es garbage : list nat) (D : Dataflow) : Dataflow :=
  mkDataflow (d_name D) (d_hookups D) (d_inputs D) (d_outputs D) es garbage (d_edit D) (d_validated D) (d_initialized D).

(** The specification among [ss] for an element, as both [addElement]s look for
    it. *)
Fixpoint spec_for (e : nat) (ss : list nat) (W : World) : option nat :=
  match ss with
  | [] => None
  | s :: ss' => if decide (es_element <$> w_specs W !! s = Some e) then Some s else spec_for e ss' W
  end.
(** [new ElementSpec(e)] *)
Definition new_spec (e : nat) (W : World) : res (nat * World) :=
  let? x := of_option UndefinedBehaviour (w_elements W !! e) in
  let? sp := ElementSpec_mk e x in
  Ok (length (w_specs W), with_specs (w_specs W ++ [sp]) W).

(** [Dataflow::addElement] *)
Definition addElement_plain (e d : nat) (W : World) : res (nat * World) :=
  let? D := flow_at W d in
  match spec_for e (d_elements D) W with
  | Some s => Ok (s, W)
  | None =>
      let? (s, W) := new_spec e W in
      Ok (s, alter_flow (fun D => set_members (d_elements D ++ [s]) (d_garbage D) D) d W)
  end.
(** [DataflowEdit::addElement] *)
Definition addElement_edit (e d : nat) (W : World) : res (nat * World) :=
  let? D := flow_at W d in
  let? (es, hs) := of_option UndefinedBehaviour (d_edit D) in
  match spec_for e es W with
  | Some s => Ok (s, W)
  | None =>
      let? (s, W) := new_spec e W in
      Ok (s, alter_flow (set_edit (es ++ [s]) hs) d W)
  end.

(** [Dataflow::hookUp]; a null pointer on one side makes it a hookup of the
    dataflow's own ports. *)
Definition hookUp_plain (src : option nat) (src_port : nat) (dst : option nat) (dst_port : nat) (D : Dataflow) : res Dataflow :=
  match src, dst with
  | Some s, Some t => Ok (set_hookups (d_hookups D ++ [mkHookup s src_port t dst_port]) D)
  | None, Some t =>
      Ok (mkDataflow (d_name D) (d_hookups D) (d_inputs D ++ [(src_port, (t, dst_port))]) (d_outputs D) (d_elements D)
            (d_garbage D) (d_edit D) (d_validated D) (d_initialized D))
  | Some s, None =>
      Ok (mkDataflow (d_name D) (d_hookups D) (d_inputs D) (d_outputs D ++ [(dst_port, (s, src_port))]) (d_elements D)
            (d_garbage D) (d_edit D) (d_validated D) (d_initialized D))
  | None, None => Fail AssertFailed
  end.

(** Erasing the first hookup that starts or ends at a port. *)
Definition at_port (sd : Side) (s port : nat) (h : Hookup) : bool :=
  match sd with
  | Outputs => (h_from h =? s)%nat && (h_fromPort h =? port)%nat
  | Inputs => (h_to h =? s)%nat && (h_toPort h =? port)%nat
  end.
Fixpoint erase_first (P : Hookup -> bool) (hs : list Hookup) : list Hookup :=
  match hs with [] => [] | h :: hs' => if P h then hs' else h :: erase_first P hs' end.

(** [DataflowEdit::remove_old_hookups] *)
Definition remove_old_hookups (h : Hookup) (hs : list Hookup) : list Hookup :=
  erase_first (at_port Inputs (h_to h) (h_toPort h)) (erase_first (at_port Outputs (h_from h) (h_fromPort h)) hs).

(** [DataflowEdit::hookUp] *)
Definition hookUp_edit (src : option nat) (src_port : nat) (dst : option nat) (dst_port : nat) (D : Dataflow) : res Dataflow :=
  match src, dst, d_edit D with
  | Some s, Some t, Some (es, hs) =>
      let h := mkHookup s src_port t dst_port in
      Ok (set_hookups (remove_old_hookups h (d_hookups D)) (set_edit es (hs ++ [h]) D))
  | _, _, None => Fail UndefinedBehaviour
  | _, _, _ => Fail AssertFailed
  end.

(** [DataflowEdit::disconnect_output], [DataflowEdit::disconnect_input] with a
    port number *)
Definition disconnect (sd : Side) (s port d : nat) (W : World) : res World :=
  let? (i, e) := element_of W s in
  let? sp := spec_at W s in
  let? (r, e, sp) := spec_remove sd port e sp in
  let W := with_specs (<[s := sp]> (w_specs W)) (with_elements (<[i := e]> (w_elements W)) W) in
  if r <? 0 then Ok W
  else Ok (alter_flow (fun D => set_hookups (erase_first (at_port sd s port) (d_hookups D)) D) d W).

(** The constructor [DataflowEdit::DataflowEdit]: the exported ports of nested
    dataflows are reset, every element gets a new specification, and every hookup
    is made again between the specifications at the same places. *)
Fixpoint reset_ports (sd : Side) (d : nat) (ports : list nat) (W : World) : res World :=
  match ports with
  | [] => Ok W
  | p :: ports' =>
      let? l := resolve (S (length (w_flows W))) sd d p W in
      let? P := port_spec sd l W in
      reset_ports sd d ports' (set_port sd l (Port_reset P) W)
  end.
Fixpoint copy_elements (ss : list nat) (d : nat) (W : World) : res World :=
  match ss with
  | [] => Ok W
  | s :: ss' =>
      let? (i, e) := element_of W s in
      let? W := match el_dataflow e with
        | None => Ok W
        | Some d' =>
            let? W := reset_ports Inputs d' (seq 0 (Z.to_nat (n_ports Inputs e))) W in
            reset_ports Outputs d' (seq 0 (Z.to_nat (n_ports Outputs e))) W
        end in
      let? (_, W) := addElement_plain i d W in
      copy_elements ss' d W
  end.
Fixpoint index_of (s : nat) (ss : list nat) : option nat :=
  match ss with [] => None | s' :: ss' => if (s' =? s)%nat then Some O else S <$> index_of s ss' end.
Fixpoint copy_hookups (hs : list Hookup) (old new : list nat) : res (list Hookup) :=
  match hs with
  | [] => Ok []
  | h :: hs' =>
      let? f := of_option AssertFailed (index_of (h_from h) old) in
      let? t := of_option AssertFailed (index_of (h_to h) old) in
      let? f := of_option AssertFailed (new !! f) in
      let? t := of_option AssertFailed (new !! t) in
      let? hs' := copy_hookups hs' old new in
      Ok (mkHookup f (h_fromPort h) t (h_toPort h) :: hs')
  end.
Definition DataflowEdit_mk (d : nat) (W : World) : res (nat * World) :=
  let? D := flow_at W d in
  let d' := length (w_flows W) in
  let? W := copy_elements (d_elements D) d'
              (with_flows (w_flows W ++ [mkDataflow (d_name D) [] [] [] [] (d_garbage D) (Some ([], [])) false false]) W) in
  let? D' := flow_at W d' in
  let? hs := copy_hookups (d_hookups D) (d_elements D) (d_elements D') in
  Ok (d', alter_flow (set_hookups hs) d' W).

(** The loops of [DataflowEdit::validate] that drop elements no hookup refers
    to: one pass over the elements, and the passes until nothing is dropped. *)
Definition referenced (e : ElementObj) (s : nat) (hs : list Hookup) : bool :=
  if 0 <? n_ports Inputs e then existsb (fun h => h_to h =? s)%nat hs
  else (0 <? n_ports Outputs e) && existsb (fun h => h_from h =? s)%nat hs.
Definition touches (s : nat) (h : Hookup) : bool := (h_to h =? s)%nat || (h_from h =? s)%nat.
Fixpoint prune_pass (ss : list nat) (hs : list Hookup) (W : World) : res (list nat * list nat * list Hookup * World) :=
  match ss with
  | [] => Ok ([], [], hs, W)
  | s :: ss' =>
      let? (i, e) := element_of W s in
      if referenced e s hs then
        let? (kept, dropped, hs, W) := prune_pass ss' hs W in Ok (s :: kept, dropped, hs, W)
      else
        let? (kept, dropped, hs, W) :=
          prune_pass ss' (List.filter (fun h => negb (touches s h)) hs) (with_elements (alter (set_active false) i (w_elements W)) W) in
        Ok (kept, s :: dropped, hs, W)
  end.
Fixpoint prune_loop (fuel : nat) (ss : list nat) (hs : list Hookup) (W : World) : res (list nat * list nat * list Hookup * World) :=
  match fuel with
  | O => Fail OutOfFuel
  | S fuel =>
      let? (kept, dropped, hs, W) := prune_pass ss hs W in
      match dropped with
      | [] => Ok (kept, [], hs, W)
      | _ :: _ =>
          let? (kept, dropped', hs, W) := prune_loop fuel kept hs W in Ok (kept, dropped ++ dropped', hs, W)
      end
  end.

(** [DataflowEdit::validate] *)
Definition DataflowEdit_validate (fuel d : nat) (W : World) : res (Z * World) :=
  let? D := flow_at W d in
  let? (new_es, new_hs) := of_option UndefinedBehaviour (d_edit D) in
  let? (kept, dropped, hs, W) := prune_loop (S (length (d_elements D))) (d_elements D) (d_hookups D ++ new_hs) W in
  Dataflow_validate fuel d
    (alter_flow (fun D => set_hookups hs (set_members (kept ++ new_es) (d_garbage D ++ dropped) D)) d W).

(** ** [Plumber] *)

Section plumber.
Context (elem_initialize : nat -> Z).

(** [Plumber::install] *)
Definition install (fuel d : nat) (W : World) : res (Z * World) :=
  let? D := flow_at W d in
  let? (r, W) := match d_edit D with Some _ => DataflowEdit_validate fuel d W | None => Dataflow_validate fuel d W end in
  if r <? 0 then Ok (-1, W)
  else
    let? (r, W) := initialize elem_initialize fuel d W in
    if r <? 0 then Ok (-1, W)
    else Ok (0, mkWorld (w_elements W) (w_specs W) (w_flows W) (<[d_name D := d]> (w_installed W))).
End plumber.

(** [Plumber::dataflow], [Plumber::edit] *)
Definition Plumber_dataflow (n : string) (W : World) : option nat := w_installed W !! n.
Definition Plumber_edit (n : string) (W : World) : res (option nat * World) :=
  match Plumber_dataflow n W with
  | None => Ok (None, W)
  | Some d => let? (d', W) := DataflowEdit_mk d W in Ok (Some d', W)
  end.
