(* ===== verification/Plumbing.v ===== *)
(** * What the plumber guarantees (src/p2core/dataflow.C, dataflowEdit.C)

    The push-and-pull check ends and accepts exactly the graphs whose ports can
    be given personalities; a validated graph uses every port once; an installed
    one is connected as its hookups say; an edit keeps the largest part of the
    old graph that is still fed. *)

From Stdlib Require Import Ascii String.
From S2P Require Import Prelude Elements Specs Graph.

Local Open Scope p2_scope.

(** ** Worlds whose ports have settled *)

Record settles (W W' : World) : Prop := {
  st_elements : w_elements W' = w_elements W;
  st_flows : w_flows W' = w_flows W;
  st_installed : w_installed W' = w_installed W;
  st_specs : Forall2 spec_settles (w_specs W) (w_specs W')
}.
#[export] Instance settles_refl : Reflexive settles.
Proof. intros W. split; [done..|reflexivity]. Qed.
#[export] Instance settles_trans : Transitive settles.
Proof. intros A B C [H1 H2 H3 H4] [K1 K2 K3 K4]. split; [congruence..|by transitivity (w_specs B)]. Qed.

Lemma settles_spec W W' s sp : settles W W' -> w_specs W !! s = Some sp ->
  exists sp', w_specs W' !! s = Some sp' /\ spec_settles sp sp'.
Proof. intros H Hs. by apply (Forall2_lookup_l _ _ _ _ _ (st_specs _ _ H) Hs). Qed.
Lemma settles_spec_r W W' s sp' : settles W W' -> w_specs W' !! s = Some sp' ->
  exists sp, w_specs W !! s = Some sp /\ spec_settles sp sp'.
Proof. intros H Hs. by apply (Forall2_lookup_r _ _ _ _ _ (st_specs _ _ H) Hs). Qed.

Lemma element_of_settles W W' s : settles W W' -> element_of W' s = element_of W s.
Proof.
  intros H. unfold element_of, spec_at. destruct (w_specs W !! s) as [sp|] eqn:E.
  - destruct (settles_spec _ _ _ _ H E) as (sp' & -> & S1). cbn. by rewrite (ss_element _ _ S1), (st_elements _ _ H).
  - assert (w_specs W' !! s = None) as ->; [|done].
    apply lookup_ge_None. apply lookup_ge_None in E. by rewrite <- (Forall2_length _ _ _ (st_specs _ _ H)).
Qed.

(** The personality of a port of the world. *)
Definition wpers (W : World) (sd : Side) (s k : nat) : option Processing := sp ← w_specs W !! s; pers sp sd k.

(** Specifications that fit their elements, with well-formed groups. *)
Record good_spec (W : World) (sp : ElementSpec) : Prop := {
  gs_wf : groups_wf sp;
  gs_numbered : numbered sp;
  gs_element : exists e, w_elements W !! es_element sp = Some e /\
    forall sd, n_ports sd e = Z.of_nat (length (es_ports sd sp))
}.
Definition good_world (W : World) : Prop := forall s sp, w_specs W !! s = Some sp -> good_spec W sp.

Lemma good_settles W W' : settles W W' -> good_world W -> good_world W'.
Proof.
  intros H HG s sp' Hs. destruct (settles_spec_r _ _ _ _ H Hs) as (sp & Hsp & S1). destruct (HG s sp Hsp) as [H1 H2 (e & H3 & H4)].
  split; [by eapply groups_wf_settles|by eapply numbered_settles|]. exists e. rewrite (ss_element _ _ S1), (st_elements _ _ H).
  split; [done|]. intros sd. by rewrite H4, (Forall2_length _ _ _ (ss_ports _ _ S1 sd)).
Qed.

(** A specification of an element that is not a dataflow. *)
Definition plain (W : World) (s : nat) : Prop := exists i e, element_of W s = Ok (i, e) /\ el_dataflow e = None.
Lemma plain_settles W W' s : settles W W' -> plain W s -> plain W' s.
Proof. intros H (i & e & H1 & H2). exists i, e. by rewrite (element_of_settles _ _ _ H). Qed.
Lemma plain_loc W sd s k : plain W s -> port_loc sd s k W = Ok (s, k).
Proof. intros (i & e & H1 & H2). unfold port_loc. rewrite H1. cbn. by rewrite H2. Qed.

(** A hookup between ports that exist, of such elements. *)
Record hookup_ok (W : World) (h : Hookup) : Prop := {
  ho_from : plain W (h_from h);
  ho_to : plain W (h_to h);
  ho_fromPort : is_Some (wpers W Outputs (h_from h) (h_fromPort h));
  ho_toPort : is_Some (wpers W Inputs (h_to h) (h_toPort h))
}.
Lemma wpers_settles W W' sd s k p : settles W W' -> wpers W sd s k = Some p ->
  exists p', wpers W' sd s k = Some p' /\ (p = AGNOSTIC \/ p' = p).
Proof.
  intros H. unfold wpers. destruct (w_specs W !! s) as [sp|] eqn:E; [|done]. cbn.
  destruct (settles_spec _ _ _ _ H E) as (sp' & -> & S1). cbn. unfold pers.
  destruct (es_ports sd sp !! k) as [P|] eqn:HP; [|done]. intros [= <-].
  destruct (settles_lookup_l _ _ _ _ _ S1 HP) as (P' & -> & [->|[HA [p ->]]]); cbn; eauto.
Qed.
Lemma hookup_ok_settles W W' h : settles W W' -> hookup_ok W h -> hookup_ok W' h.
Proof.
  intros H [H1 H2 [p H3] [q H4]]. split; [by eapply plain_settles|by eapply plain_settles| |].
  - destruct (wpers_settles _ _ _ _ _ _ H H3) as (p' & -> & _). by eexists.
  - destruct (wpers_settles _ _ _ _ _ _ H H4) as (p' & -> & _). by eexists.
Qed.

(** *** Counting agnostic ports *)

Lemma settles_count l l' : Forall2 port_settles l l' ->
  (length (List.filter is_agnostic l') <= length (List.filter is_agnostic l))%nat.
Proof.
  induction 1 as [|P P' l l' HP _ IH]; [done|]. cbn. destruct HP as [->|[HA _]]; [destruct (is_agnostic P); cbn; lia|].
  replace (is_agnostic P) with true by (symmetry; by apply bool_decide_eq_true). destruct (is_agnostic P'); cbn; lia.
Qed.
Lemma settles_count_lt l l' k P P' : Forall2 port_settles l l' -> l !! k = Some P -> l' !! k = Some P' ->
  ps_processing P = AGNOSTIC -> ps_processing P' <> AGNOSTIC ->
  (length (List.filter is_agnostic l') < length (List.filter is_agnostic l))%nat.
Proof.
  intros H. revert k. induction H as [|Q Q' l l' HQ H IH]; intros [|k] H1 H2 HA HB; try done; cbn.
  - injection H1 as ->. injection H2 as ->. pose proof (settles_count _ _ H).
    replace (is_agnostic P) with true by (symmetry; by apply bool_decide_eq_true).
    replace (is_agnostic P') with false by (symmetry; by apply bool_decide_eq_false). cbn. lia.
  - specialize (IH _ H1 H2 HA HB). destruct HQ as [->|[HAQ _]]; [destruct (is_agnostic Q); cbn; lia|].
    replace (is_agnostic Q) with true by (symmetry; by apply bool_decide_eq_true). destruct (is_agnostic Q'); cbn; lia.
Qed.
Lemma agnostic_ports_le s s' : spec_settles s s' -> (agnostic_ports s' <= agnostic_ports s)%nat.
Proof.
  intros H. unfold agnostic_ports. pose proof (settles_count _ _ (ss_ports _ _ H Inputs)).
  pose proof (settles_count _ _ (ss_ports _ _ H Outputs)). cbn in *. lia.
Qed.
Lemma agnostic_ports_lt s s' sd k p : spec_settles s s' -> pers s sd k = Some AGNOSTIC -> pers s' sd k = Some p -> p <> AGNOSTIC ->
  (agnostic_ports s' < agnostic_ports s)%nat.
Proof.
  intros H. unfold pers. destruct (es_ports sd s !! k) as [P|] eqn:E1; [|done]. intros [= HA].
  destruct (es_ports sd s' !! k) as [P'|] eqn:E2; [|done]. intros [= HP] Hp. rewrite <- HP in Hp.
  pose proof (settles_count_lt _ _ _ _ _ (ss_ports _ _ H sd) E1 E2 HA Hp).
  pose proof (settles_count _ _ (ss_ports _ _ H Inputs)). pose proof (settles_count _ _ (ss_ports _ _ H Outputs)).
  unfold agnostic_ports. destruct sd; cbn in *; lia.
Qed.
Lemma agnostics_le W W' : settles W W' -> (agnostics W' <= agnostics W)%nat.
Proof.
  intros H. unfold agnostics. induction (st_specs _ _ H) as [|s s' l l' Hs _ IH]; [done|].
  cbn. pose proof (agnostic_ports_le _ _ Hs). lia.
Qed.
Lemma agnostics_lt W W' sd s k p : settles W W' -> wpers W sd s k = Some AGNOSTIC -> wpers W' sd s k = Some p -> p <> AGNOSTIC ->
  (agnostics W' < agnostics W)%nat.
Proof.
  intros H. unfold wpers, agnostics. revert s. induction (st_specs _ _ H) as [|a a' l l' Hs Hl IH]; intros [|s] H1 H2 Hp; try done; cbn.
  - pose proof (agnostic_ports_lt _ _ _ _ _ Hs H1 H2 Hp).
    assert (sum_list (agnostic_ports <$> l') <= sum_list (agnostic_ports <$> l))%nat; [|lia].
    clear IH H1 H2. induction Hl as [|b b' l l' Hb _ IH]; [done|]. cbn. pose proof (agnostic_ports_le _ _ Hb). lia.
  - pose proof (agnostic_ports_le _ _ Hs). specialize (IH s H1 H2 Hp). cbn in IH. lia.
Qed.

(** ** One agnostic end takes a personality *)

Lemma alter_is_insert {A} (f : A -> A) i x (l : list A) : l !! i = Some x -> alter f i l = <[i := f x]> l.
Proof. revert i. induction l as [|y l IH]; intros [|i] H; try done; cbn in *; [by injection H as ->|]. f_equal. by apply IH. Qed.

Lemma settles_with_spec W s sp sp' : w_specs W !! s = Some sp -> spec_settles sp sp' ->
  settles W (with_specs (<[s := sp']> (w_specs W)) W).
Proof.
  intros Hs H. split; [done..|]. cbn. rewrite <- (list_insert_id _ _ _ Hs) at 1. by apply Forall2_insert.
Qed.
Lemma wpers_with_spec W s sp sp' sd s' k : w_specs W !! s = Some sp ->
  wpers (with_specs (<[s := sp']> (w_specs W)) W) sd s' k = if decide (s' = s) then pers sp' sd k else wpers W sd s' k.
Proof.
  intros Hs. unfold wpers. cbn. destruct (decide (s' = s)) as [->|Hn].
  - rewrite list_lookup_insert_eq by by eapply lookup_lt_Some. done.
  - by rewrite list_lookup_insert_ne.
Qed.

Lemma settle_ok W sd s k sp p : good_world W -> w_specs W !! s = Some sp -> pers sp sd k = Some AGNOSTIC -> p <> AGNOSTIC ->
  exists n sp' W', settle sd s k (s, k) p W = Ok (n, W')
    /\ W' = with_specs (<[s := sp']> (w_specs W)) W /\ spec_settles sp sp' /\ pers sp' sd k = Some p
    /\ (forall sd' k', pers sp' sd' k' = pers sp sd' k' \/ (pers sp' sd' k' = Some p /\ ((sd', k') = (sd, k) \/ same_group sp sd sd' k k')))
    /\ ((forall sd' k', same_group sp sd sd' k k' -> pers sp sd' k' = Some AGNOSTIC \/ pers sp sd' k' = Some p) -> n = 0%nat)
    /\ (n = 0%nat -> forall sd' k', same_group sp sd sd' k k' -> pers sp' sd' k' = Some p).
Proof.
  intros HG Hs HA Hp. destruct (HG s sp Hs) as [Hwf Hnum (e & He & Hlen)].
  unfold pers in HA. destruct (es_ports sd sp !! k) as [P|] eqn:HP; [|done]. injection HA as HA.
  pose proof (settle_port sd k P (with_processing p P) sp HP (or_intror (conj HA (ex_intro _ p eq_refl)))) as S1.
  set (sp1 := set_es_ports sd (<[k := with_processing p P]> (es_ports sd sp)) sp) in *.
  assert (Hk : (k < length (es_ports sd sp))%nat) by by eapply lookup_lt_Some.
  assert (Hp1 : forall sd' k', pers sp1 sd' k' = if decide (sd = sd' /\ k = k') then Some p else pers sp sd' k')
    by (intros; by apply (pers_set sd k (with_processing p P) sp)).
  assert (Hpk : pers sp1 sd k = Some p) by (rewrite Hp1; by rewrite decide_True).
  destruct (unifyPort_ok sp1 sd (n_ports sd e) k p) as (r & sp2 & E & S2 & H1 & H2 & H3);
    [by eapply groups_wf_settles|by eapply numbered_settles|done|done|rewrite Hlen; lia|].
  assert (Hsg : forall sd' k', same_group sp1 sd sd' k k' <-> same_group sp sd sd' k k') by (intros; by apply same_group_settles).
  assert (HW1 : set_port sd (s, k) (with_processing p P) W = with_specs (<[s := sp1]> (w_specs W)) W).
  { unfold set_port. cbn. by rewrite (alter_is_insert _ _ _ _ Hs). }
  eexists (match r with CONFLICT => 1%nat | _ => 0%nat end), sp2, _. split_and!.
  - unfold settle, port_spec, spec_at. cbn. rewrite Hs. cbn. rewrite HP. cbn. rewrite HW1.
    rewrite (element_of_settles _ _ _ (settles_with_spec _ _ _ _ Hs S1)). unfold element_of, spec_at. rewrite Hs. cbn. rewrite He. cbn.
    rewrite !(alter_is_insert _ _ _ _ Hs). fold sp1. rewrite list_lookup_insert_eq by by eapply lookup_lt_Some. cbn. rewrite E. cbn. reflexivity.
  - unfold with_specs. cbn. by rewrite list_insert_insert_eq.
  - by transitivity sp1.
  - destruct (H1 sd k) as [Eq|[Eq _]]; [by rewrite Eq|done].
  - intros sd' k'. destruct (H1 sd' k') as [Eq|[Eq Hin]].
    + rewrite Eq, Hp1. destruct (decide _) as [[-> ->]|]; [right; split; [done|by left]|by left].
    + right. split; [done|]. right. by apply Hsg.
  - intros Hadm. assert (r <> CONFLICT) as Hr; [|by destruct r].
    apply H2. intros sd' k' Hg. rewrite Hp1. destruct (decide _); [by right|]. by apply Hadm, Hsg.
  - intros Hr sd' k' Hg. apply H3; [by destruct r|]. by apply Hsg.
Qed.

(** ** Assignments of personalities *)

(** Every port that is not agnostic has the personality [σ] gives it. *)
Definition bounded_by (σ : nat -> Side -> nat -> Processing) (W : World) : Prop :=
  forall sd s k p, wpers W sd s k = Some p -> p = AGNOSTIC \/ p = σ s sd k.
(** [σ] makes every port push or pull, the same for both ends of a hookup and
    for the ports of a group. *)
Record consistent (σ : nat -> Side -> nat -> Processing) (hs : list Hookup) (W : World) : Prop := {
  cs_settled : forall s sd k, σ s sd k <> AGNOSTIC;
  cs_hookups : Forall (fun h => σ (h_from h) Outputs (h_fromPort h) = σ (h_to h) Inputs (h_toPort h)) hs;
  cs_groups : forall s sp sd sd' k k', w_specs W !! s = Some sp -> same_group sp sd sd' k k' -> σ s sd k = σ s sd' k'
}.
(** The ports of a group agree. *)
Definition uniform (W : World) : Prop := forall s sp sd sd' k k',
  w_specs W !! s = Some sp -> same_group sp sd sd' k k' -> pers sp sd k = pers sp sd' k'.
(** The two ends of a hookup agree. *)
Definition agrees (W : World) (h : Hookup) : Prop :=
  wpers W Outputs (h_from h) (h_fromPort h) = wpers W Inputs (h_to h) (h_toPort h).

Lemma consistent_settles σ hs W W' : settles W W' -> consistent σ hs W -> consistent σ hs W'.
Proof.
  intros H [H1 H2 H3]. split; [done|done|]. intros s sp' sd sd' k k' Hs Hg.
  destruct (settles_spec_r _ _ _ _ H Hs) as (sp & Hsp & S1). apply (H3 s sp sd sd' k k' Hsp). by apply (same_group_settles _ _ _ _ _ _ S1).
Qed.

(** What a step of the check keeps: whatever the world may settle to, and - as
    long as there is no error - that groups agree. *)
Record settle_step (W : World) (hs : list Hookup) (n : nat) (W' : World) : Prop := {
  sk_settles : settles W W';
  sk_complete : forall σ, consistent σ hs W -> bounded_by σ W -> n = 0%nat /\ bounded_by σ W';
  sk_uniform : n = 0%nat -> uniform W -> uniform W'
}.

Lemma settle_step_ok W hs sd s k sp p : good_world W -> w_specs W !! s = Some sp -> pers sp sd k = Some AGNOSTIC -> p <> AGNOSTIC ->
  (forall σ, consistent σ hs W -> bounded_by σ W -> p = σ s sd k) ->
  exists n W', settle sd s k (s, k) p W = Ok (n, W') /\ settle_step W hs n W' /\ (agnostics W' < agnostics W)%nat.
Proof.
  intros HG Hs HA Hp Hσ. destruct (settle_ok W sd s k sp p HG Hs HA Hp) as (n & sp' & W' & E & HW & HS & Hk & H1 & H2 & H3).
  assert (HWW : settles W W') by (rewrite HW; by eapply settles_with_spec).
  exists n, W'. split; [done|]. split; [split|].
  - done.
  - intros σ Hc Hb. pose proof (Hσ σ Hc Hb) as Hpσ. split.
    + apply H2. intros sd' k' Hg. assert (is_Some (pers sp sd' k')) as [q Hq].
      { destruct Hg as (c & P & P' & _ & _ & HP' & _). unfold pers. rewrite HP'. by eexists. }
      destruct (Hb sd' s k' q) as [->| ->]; [by unfold wpers; rewrite Hs|by left|]. right. rewrite Hq, Hpσ. f_equal.
      symmetry. by eapply (cs_groups _ _ _ Hc).
    + intros sd' s' k' q. rewrite HW, (wpers_with_spec _ _ _ _ _ _ _ Hs). destruct (decide (s' = s)) as [->|]; [|apply Hb].
      destruct (H1 sd' k') as [Eq|[Eq Hg]]; rewrite Eq; intros Hq.
      * apply Hb. unfold wpers. by rewrite Hs.
      * injection Hq as <-. right. rewrite Hpσ. destruct Hg as [[= -> ->]|Hg]; [done|]. by eapply (cs_groups _ _ _ Hc).
  - intros Hn Hu s1 spx sd1 sd2 k1 k2 Hs1 Hg. rewrite HW in Hs1. cbn in Hs1. destruct (decide (s1 = s)) as [->|Hne].
    + rewrite list_lookup_insert_eq in Hs1 by by eapply lookup_lt_Some. injection Hs1 as <-.
      apply (same_group_settles _ _ _ _ _ _ HS) in Hg. pose proof (Hu _ _ _ _ _ _ Hs Hg) as Hu12.
      assert (Hx : forall sda ka sdb kb, same_group sp sda sdb ka kb -> pers sp sda ka = pers sp sdb kb ->
        pers sp' sda ka <> pers sp sda ka -> pers sp' sda ka = pers sp' sdb kb).
      { intros sda ka sdb kb (c & P & P' & G1 & G2 & G3 & G4) Hab Hch. destruct (H1 sda ka) as [?|[Eq [Hk'|Hg']]]; [done| |].
        - injection Hk' as -> ->. rewrite Eq. symmetry. apply H3; [done|]. by exists c, P, P'.
        - rewrite Eq. symmetry. apply H3; [done|]. destruct Hg' as (c' & Q & Q' & K1 & K2 & K3 & K4).
          exists c', Q, P'. split_and!; congruence. }
      destruct (decide (pers sp' sd1 k1 = pers sp sd1 k1)) as [E1|E1]; [|by apply Hx].
      destruct (decide (pers sp' sd2 k2 = pers sp sd2 k2)) as [E2|E2]; [congruence|].
      symmetry. apply Hx; [|done|done]. destruct Hg as (c & P & P' & G1 & G2 & G3 & G4). by exists c, P', P.
    + rewrite list_lookup_insert_ne in Hs1 by done. by eapply Hu.
  - apply (agnostics_lt W W' sd s k p HWW); [by unfold wpers; rewrite Hs| |done].
    rewrite HW, (wpers_with_spec _ _ _ _ _ _ _ Hs). by rewrite decide_True.
Qed.

(** ** The loop of the check *)

Lemma settle_step_refl W hs : settle_step W hs 0 W.
Proof. split; [reflexivity|done|done]. Qed.
Lemma settle_step_trans A B C hs n m : settle_step A hs n B -> settle_step B hs m C -> settle_step A hs (n + m) C.
Proof.
  intros [H1 H2 H3] [K1 K2 K3]. split; [by transitivity B| |].
  - intros σ Hc Hb. destruct (H2 σ Hc Hb) as [-> Hb1]. apply K2; [by eapply consistent_settles|done].
  - intros Hn Hu. apply K3; [lia|]. apply H3; [lia|done].
Qed.
Lemma settle_step_hookups W hs hs' n W' : hs' ⊆ hs -> settle_step W hs' n W' -> settle_step W hs n W'.
Proof.
  intros Hsub [H1 H2 H3]. split; [done| |done]. intros σ [C1 C2 C3]. apply H2. split; [done| |done].
  rewrite Forall_forall in C2 |- *. naive_solver.
Qed.

Lemma wpers_spec W sd s k p : wpers W sd s k = Some p -> exists sp P, w_specs W !! s = Some sp /\ es_ports sd sp !! k = Some P /\ ps_processing P = p.
Proof.
  unfold wpers. destruct (w_specs W !! s) as [sp|]; [|done]. cbn. unfold pers. destruct (es_ports sd sp !! k) as [P|] eqn:HP; [|done].
  intros [= <-]. by exists sp, P.
Qed.

Lemma settle_hookup_ok h W : good_world W -> hookup_ok W h ->
  exists b n W', settle_hookup h W = Ok (b, n, W') /\ settle_step W [h] n W'
    /\ (if b then (agnostics W' < agnostics W)%nat else W' = W /\ (n = 0%nat -> agrees W h)).
Proof.
  intros HG [Hf Ht [pf Hpf] [pt Hpt]]. pose proof Hf as (fi & fe & Hfe & _). pose proof Ht as (ti & te & Hte & _).
  destruct (wpers_spec _ _ _ _ _ Hpf) as (fsp & fP & Hfs & HfP & Hfp). destruct (wpers_spec _ _ _ _ _ Hpt) as (tsp & tP & Hts & HtP & Htp).
  assert (Hbound : forall sd s k sp P i e, w_specs W !! s = Some sp -> es_ports sd sp !! k = Some P -> element_of W s = Ok (i, e) ->
    (Z.of_nat k <? n_ports sd e) = true).
  { intros sd s k sp P i e H1 H2 H3. unfold element_of, spec_at in H3. rewrite H1 in H3. cbn in H3.
    destruct (gs_element _ _ (HG _ _ H1)) as (e' & He' & Hn). rewrite He' in H3. cbn in H3. injection H3 as <- <-.
    rewrite Hn. apply Z.ltb_lt. apply lookup_lt_Some in H2. lia. }
  assert (Hpers : forall sd s k sp P, w_specs W !! s = Some sp -> es_ports sd sp !! k = Some P -> port_spec sd (s, k) W = Ok P).
  { intros sd s k sp P H1 H2. unfold port_spec, spec_at. cbn. rewrite H1. cbn. by rewrite H2. }
  assert (Hend : forall σ, consistent σ [h] W -> bounded_by σ W ->
    (pf = AGNOSTIC \/ pf = σ (h_from h) Outputs (h_fromPort h)) /\ (pt = AGNOSTIC \/ pt = σ (h_to h) Inputs (h_toPort h))
    /\ σ (h_from h) Outputs (h_fromPort h) = σ (h_to h) Inputs (h_toPort h)).
  { intros σ Hc Hb. split_and!; [by apply Hb|by apply Hb|]. pose proof (cs_hookups _ _ _ Hc) as H. rewrite Forall_singleton in H. done. }
  assert (HpA : pt = AGNOSTIC -> pf <> AGNOSTIC -> exists n W', settle Inputs (h_to h) (h_toPort h) (h_to h, h_toPort h) pf W = Ok (n, W')
    /\ settle_step W [h] n W' /\ (agnostics W' < agnostics W)%nat).
  { intros HA Hn. apply (settle_step_ok W [h] Inputs (h_to h) (h_toPort h) tsp pf HG Hts); [unfold pers; rewrite HtP; cbn; congruence|done|].
    intros σ Hc Hb. destruct (Hend σ Hc Hb) as ([?|?] & _ & ?); congruence. }
  assert (HpB : pf = AGNOSTIC -> pt <> AGNOSTIC -> exists n W', settle Outputs (h_from h) (h_fromPort h) (h_from h, h_fromPort h) pt W = Ok (n, W')
    /\ settle_step W [h] n W' /\ (agnostics W' < agnostics W)%nat).
  { intros HA Hn. apply (settle_step_ok W [h] Outputs (h_from h) (h_fromPort h) fsp pt HG Hfs); [unfold pers; rewrite HfP; cbn; congruence|done|].
    intros σ Hc Hb. destruct (Hend σ Hc Hb) as (_ & [?|?] & ?); congruence. }
  unfold settle_hookup. rewrite Hfe, Hte. cbn. rewrite (Hbound _ _ _ _ _ _ _ Hfs HfP Hfe), (Hbound _ _ _ _ _ _ _ Hts HtP Hte). cbn.
  rewrite (plain_loc _ _ _ _ Hf), (plain_loc _ _ _ _ Ht). cbn. rewrite (Hpers _ _ _ _ _ Hfs HfP). cbn. rewrite (Hpers _ _ _ _ _ Hts HtP). cbn.
  rewrite Hfp, Htp. unfold agrees. rewrite Hpf, Hpt.
  assert (Hbad : pf <> AGNOSTIC -> pt <> AGNOSTIC -> pf <> pt -> settle_step W [h] 1 W).
  { intros H1 H2 H3. split; [reflexivity| |done]. intros σ Hc Hb. exfalso. destruct (Hend σ Hc Hb) as ([?|?] & [?|?] & ?); congruence. }
  destruct pf, pt; cbn;
    first [ eexists false, 0%nat, W; split_and!; [done|apply settle_step_refl|done|done]
          | eexists false, 1%nat, W; split_and!; [done|by apply Hbad|done|done]
          | destruct HpA as (n & W' & -> & HS & HL); [done|done|]; cbn; eexists true, n, W'; by split_and!
          | destruct HpB as (n & W' & -> & HS & HL); [done|done|]; cbn; eexists true, n, W'; by split_and! ].
Qed.

Lemma settle_pass_ok hs : forall W, good_world W -> Forall (hookup_ok W) hs ->
  exists b n W', settle_pass hs W = Ok (b, n, W') /\ settle_step W hs n W'
    /\ (if b then (agnostics W' < agnostics W)%nat else W' = W /\ (n = 0%nat -> Forall (agrees W) hs)).
Proof.
  induction hs as [|h hs IH]; intros W HG HH.
  - eexists false, 0%nat, W. split_and!; [done|apply settle_step_refl|done|done].
  - apply Forall_cons in HH as [Hh HH]. destruct (settle_hookup_ok h W HG Hh) as (b1 & n1 & W1 & E1 & S1 & B1).
    pose proof (sk_settles _ _ _ _ S1) as HS1.
    destruct (IH W1) as (b2 & n2 & W2 & E2 & S2 & B2); [by eapply good_settles| |].
    { eapply Forall_impl; [exact HH|]. intros x. by apply hookup_ok_settles. }
    exists (b1 || b2), (n1 + n2)%nat, W2. cbn. rewrite E1. cbn. rewrite E2. cbn. split; [done|]. split.
    + apply (settle_step_trans W W1 W2); [eapply settle_step_hookups; [|exact S1]|eapply settle_step_hookups; [|exact S2]]; set_solver.
    + pose proof (agnostics_le _ _ HS1). pose proof (agnostics_le _ _ (sk_settles _ _ _ _ S2)).
      destruct b1, b2; cbn; [lia|destruct B2 as [-> _]; lia|destruct B1 as [-> _]; lia|].
      destruct B1 as [-> B1], B2 as [-> B2]. split; [done|]. intros Hn. apply Forall_cons. split; [apply B1|apply B2]; lia.
Qed.

Lemma settle_loop_ok hs : forall fuel W, good_world W -> Forall (hookup_ok W) hs -> (agnostics W < fuel)%nat ->
  exists n W', settle_loop fuel hs W = Ok (n, W') /\ settle_step W hs n W' /\ (n = 0%nat -> Forall (agrees W') hs).
Proof.
  induction fuel as [|fuel IH]; intros W HG HH Hfuel; [lia|].
  destruct (settle_pass_ok hs W HG HH) as (b & n & W1 & E & S1 & B). cbn. rewrite E. cbn.
  pose proof (sk_settles _ _ _ _ S1) as HS1. destruct b.
  - destruct (IH W1) as (n' & W' & E' & S2 & H2); [by eapply good_settles| |lia|].
    { eapply Forall_impl; [exact HH|]. intros x. by apply hookup_ok_settles. }
    rewrite E'. cbn. exists (n + n')%nat, W'. split_and!; [done|by eapply settle_step_trans|]. intros Hn. apply H2. lia.
  - destruct B as [-> B]. exists n, W. by split_and!.
Qed.

(** C14: The push-and-pull check ends.  On a graph whose groups agree to begin
    with it accepts exactly if the ports can be made push or pull so that the two
    ends of every hookup and the ports of every group are the same; ports that
    are not agnostic keep what they are. *)
Theorem push_pull_decides (D : Dataflow) (W : World) :
  good_world W -> Forall (hookup_ok W) (d_hookups D) -> uniform W ->
  exists r W', check_push_and_pull D W = Ok (r, W') /\ settles W W' /\ (r = 0 \/ r = -1)
    /\ (r = 0 <-> exists σ, consistent σ (d_hookups D) W /\ bounded_by σ W).
Proof.
  intros HG HH HU. destruct (settle_loop_ok (d_hookups D) (S (agnostics W)) W HG HH) as (n & W' & E & [HS HC HUn] & HA); [lia|].
  exists (errors n), W'. unfold check_push_and_pull. rewrite E. cbn. split_and!; [done|done| |].
  - unfold errors. destruct (n =? 0)%nat; [by left|by right].
  - unfold errors. destruct (Nat.eqb_spec n 0) as [->|Hn].
    + split; [intros _|done]. specialize (HA eq_refl). specialize (HUn eq_refl HU).
      set (tot (o : option Processing) := match o with Some PULL => PULL | _ => PUSH end).
      exists (fun s sd k => tot (wpers W' sd s k)). split; [split|].
      * intros s sd k. by destruct (wpers W' sd s k) as [[]|].
      * eapply Forall_impl; [exact HA|]. intros h Hh. cbn. by rewrite Hh.
      * intros s sp sd sd' k k' Hs Hg. destruct (settles_spec _ _ _ _ HS Hs) as (sp' & Hs' & S1).
        unfold wpers. rewrite Hs'. cbn. f_equal. apply (HUn s sp' sd sd' k k' Hs'). by apply (same_group_settles _ _ _ _ _ _ S1).
      * intros sd s k p Hp. destruct (wpers_settles _ _ _ _ _ _ HS Hp) as (p' & -> & [->| ->]); [by left|]. destruct p; auto.
    + split; [done|]. intros (σ & Hc & Hb). by destruct (HC σ Hc Hb) as [-> _].
Qed.

(** ** Every port is used once *)

Definition wport (W : World) (sd : Side) (s k : nat) : option PortSpec := sp ← w_specs W !! s; es_ports sd sp !! k.
Definition end_of (sd : Side) (h : Hookup) : nat * nat :=
  match sd with Outputs => (h_from h, h_fromPort h) | Inputs => (h_to h, h_toPort h) end.

(** What attaching counterparts leaves alone. *)
Definition port_attached (P P' : PortSpec) : Prop :=
  ps_processing P' = ps_processing P /\ ps_check P' = ps_check P /\ (ps_counterpart P' = ps_counterpart P \/ ps_counterpart P = None).
Record attached (W W' : World) : Prop := {
  at_elements : forall s, element_of W' s = element_of W s;
  at_flows : w_flows W' = w_flows W;
  at_objects : w_elements W' = w_elements W;
  at_ports : forall sd s k, option_Forall2 port_attached (wport W sd s k) (wport W' sd s k)
}.
#[export] Instance attached_refl : Reflexive attached.
Proof. intros W. split; [done..|]. intros. destruct (wport W sd s k); constructor. split_and!; auto. Qed.
#[export] Instance attached_trans : Transitive attached.
Proof.
  intros A B C [H1 H2 HO H3] [K1 K2 KO K3]. split; [intros; congruence|congruence|congruence|]. intros sd s k. specialize (H3 sd s k). specialize (K3 sd s k).
  inversion H3 as [P Q (a & b & c) E1 E2|E1 E2]; rewrite <- E2 in K3; inversion K3 as [Q' R (a' & b' & c') E3 E4|E3 E4]; subst; [|constructor].
  constructor. split_and!; [congruence..|]. destruct c, c'; [left|right|right|right]; congruence.
Qed.

(** Both ends of a hookup are ports of plain elements. *)
Definition hooked (W : World) (h : Hookup) : Prop := plain W (h_from h) /\ plain W (h_to h) /\ forall sd, is_Some (wport W sd (end_of sd h).1 (end_of sd h).2).
Lemma hooked_attached W W' h : attached W W' -> hooked W h -> hooked W' h.
Proof.
  intros [H1 H2 _ H3] (Hf & Ht & Hp). unfold hooked, plain. rewrite !H1. split_and!; [done|done|]. intros sd. destruct (Hp sd) as [P HP].
  specialize (H3 sd (end_of sd h).1 (end_of sd h).2). rewrite HP in H3. inversion H3. by eexists.
Qed.

Definition taken (W : World) (sd : Side) (s k : nat) : Prop := exists P c, wport W sd s k = Some P /\ ps_counterpart P = Some c.

Lemma attach_ok sd s k peer W P : plain W s -> wport W sd s k = Some P ->
  exists n W', attach sd s k peer W = Ok (n, W') /\ attached W W'
    /\ (n = 0%nat -> ps_counterpart P = None)
    /\ (forall sd' s' k', taken W' sd' s' k' <-> taken W sd' s' k' \/ (sd', s', k') = (sd, s, k)).
Proof.
  intros Hpl HP. unfold wport in HP. destruct (w_specs W !! s) as [sp|] eqn:Hs; [|done]. cbn in HP.
  pose proof (plain_loc W sd s k Hpl) as Hloc. unfold attach. rewrite Hloc. cbn. unfold port_spec, spec_at. cbn. rewrite Hs. cbn. rewrite HP. cbn.
  destruct (Port_counterpart peer P) as [n P'] eqn:EP.
  assert (HP' : ps_processing P' = ps_processing P /\ ps_uniGroup P' = ps_uniGroup P /\ ps_check P' = ps_check P /\
    (n = 0%nat -> ps_counterpart P = None) /\ (exists c, ps_counterpart P' = Some c /\ (ps_counterpart P = None \/ ps_counterpart P = Some c))).
  { unfold Port_counterpart in EP. destruct (ps_counterpart P) eqn:Hc; injection EP as <- <-; cbn; split_and!; try done; eauto. }
  destruct HP' as (Q1 & Q2 & Q3 & Q4 & c & Q5 & Q6).
  set (sp' := set_es_ports sd (<[k := P']> (es_ports sd sp)) sp).
  assert (HW : set_port sd (s, k) P' W = with_specs (<[s := sp']> (w_specs W)) W).
  { unfold set_port. cbn [fst snd]. by rewrite (alter_is_insert _ _ _ _ Hs). }
  assert (Hport : forall sd' s' k', wport (set_port sd (s, k) P' W) sd' s' k' = if decide ((sd', s', k') = (sd, s, k)) then Some P' else wport W sd' s' k').
  { intros sd' s' k'. rewrite HW. unfold wport. cbn. destruct (decide (s' = s)) as [->|Hn].
    - rewrite list_lookup_insert_eq by by eapply lookup_lt_Some. cbn. rewrite Hs. cbn. unfold sp'. rewrite es_ports_set.
      destruct (decide (sd = sd')) as [<-|]; [|by rewrite decide_False by congruence]. destruct (decide (k' = k)) as [->|].
      + rewrite decide_True by done. apply list_lookup_insert_eq. by eapply lookup_lt_Some.
      + rewrite decide_False by congruence. by apply list_lookup_insert_ne.
    - rewrite list_lookup_insert_ne by done. by rewrite decide_False by congruence. }
  exists n, (set_port sd (s, k) P' W). split_and!; [done| |done|].
  - split.
    + intros s'. rewrite HW. unfold element_of, spec_at. cbn. destruct (decide (s' = s)) as [->|Hn].
      * rewrite list_lookup_insert_eq by by eapply lookup_lt_Some. rewrite Hs. cbn. unfold sp'. by destruct sd.
      * by rewrite list_lookup_insert_ne.
    + by rewrite HW.
    + by rewrite HW.
    + intros sd' s' k'. rewrite Hport. destruct (decide _) as [[= -> -> ->]|].
      * unfold wport. rewrite Hs. cbn. rewrite HP. constructor. split_and!; [done|done|]. destruct Q6; [by right|left; congruence].
      * destruct (wport W sd' s' k'); constructor. split_and!; auto.
  - intros sd' s' k'. unfold taken. rewrite Hport. destruct (decide _) as [E|]; [|naive_solver].
    split; [by right|]. intros _. by exists P', c.
Qed.

Lemma taken_attached W W' sd s k : attached W W' -> taken W sd s k -> taken W' sd s k.
Proof.
  intros H (P & c & HP & Hc). pose proof (at_ports _ _ H sd s k) as H3. rewrite HP in H3.
  inversion H3 as [P0 P' Ha E0 HP'|]. destruct Ha as (_ & _ & Hcp). exists P', c. split; [done|]. destruct Hcp; congruence.
Qed.

Lemma attach_hookups_ok hs : forall W, Forall (hooked W) hs ->
  exists n W', attach_hookups hs W = Ok (n, W') /\ attached W W'
    /\ (forall sd s k, taken W' sd s k <-> taken W sd s k \/ (s, k) ∈ end_of sd <$> hs)
    /\ (n = 0%nat -> forall sd, NoDup (end_of sd <$> hs) /\ (forall s k, (s, k) ∈ end_of sd <$> hs -> ~ taken W sd s k)).
Proof.
  induction hs as [|h hs IH]; intros W HH.
  - exists 0%nat, W. split_and!; [done|reflexivity| |].
    + intros. cbn. rewrite elem_of_nil. tauto.
    + intros _ sd. split; [constructor|]. intros s k Hin. by apply elem_of_nil in Hin.
  - apply Forall_cons in HH as [Hh HH]. pose proof Hh as (Hf & Ht & Hp).
    destruct (Hp Outputs) as [P HP]. cbn in HP.
    destruct (attach_ok Outputs _ _ (h_to h) W P Hf HP) as (n1 & W1 & E1 & A1 & N1 & T1).
    destruct (hooked_attached _ _ _ A1 Hh) as (_ & Ht1 & Hp1). destruct (Hp1 Inputs) as [Q HQ]. cbn in HQ.
    destruct (attach_ok Inputs _ _ (h_from h) W1 Q Ht1 HQ) as (n2 & W2 & E2 & A2 & N2 & T2).
    destruct (IH W2) as (n3 & W3 & E3 & A3 & T3 & N3).
    { eapply Forall_impl; [exact HH|]. intros x Hx. eapply hooked_attached; [exact A2|]. by eapply hooked_attached. }
    exists (n1 + n2 + n3)%nat, W3. cbn [attach_hookups]. rewrite E1. cbn. rewrite E2. cbn. rewrite E3. cbn.
    split_and!; [done|by do 2 (etransitivity; [eassumption|])| |].
    + intros sd s k. rewrite T3, T2, T1, elem_of_cons. destruct sd; cbn; naive_solver.
    + intros Hn sd. assert (n1 = 0 /\ n2 = 0 /\ n3 = 0)%nat as (-> & -> & ->) by lia. specialize (N3 eq_refl sd) as [ND NT].
      assert (Hhd : forall s k, (s, k) = end_of sd h -> taken W2 sd s k /\ ~ taken W sd s k).
      { intros s k Hsk. destruct sd; cbn in Hsk; injection Hsk as -> ->.
        - split; [apply T2; by right|]. intros Htk. apply (taken_attached _ _ _ _ _ A1) in Htk as (Q' & c & HQ' & Hc).
          specialize (N2 eq_refl). congruence.
        - split; [apply T2; left; apply T1; by right|]. intros (P' & c & HP' & Hc). specialize (N1 eq_refl). congruence. }
      split; [apply NoDup_cons; split; [|done]|].
      * destruct (end_of sd h) as [s k] eqn:E. intros Hin. by apply (NT s k Hin), Hhd.
      * intros s k [Hin|Hin]%elem_of_cons; [by apply Hhd|]. intros Htk. apply (NT s k Hin). apply (taken_attached _ _ _ _ _ A2).
        by apply (taken_attached _ _ _ _ _ A1).
Qed.

(** ** The other checks *)

Lemma element_ids_in ss W known : element_ids ss W = Ok known ->
  forall i, i ∈ known -> exists s e, s ∈ ss /\ element_of W s = Ok (i, e).
Proof.
  revert known. induction ss as [|s ss IH]; intros known; cbn; [intros [= <-] i Hin; by apply elem_of_nil in Hin|].
  destruct (element_of W s) as [[i e]|] eqn:E; [|done]. cbn. destruct (element_ids ss W) as [es|] eqn:E1; [|done]. cbn.
  intros [= <-] i' [->|Hin]%elem_of_cons; [exists s, e; split; [apply list_elem_of_here|done]|].
  destruct (IH es eq_refl i' Hin) as (s' & e' & H1 & H2). exists s', e'. split; [by apply list_elem_of_further|done].
Qed.

(** Both ends of the hookup are elements of the dataflow. *)
Definition inside (W : World) (ss : list nat) (h : Hookup) : Prop :=
  forall sd, exists i e s' e', element_of W (end_of sd h).1 = Ok (i, e) /\ s' ∈ ss /\ element_of W s' = Ok (i, e').
Lemma hookup_elements_sound D W known n : element_ids (d_elements D) W = Ok known -> forall hs,
  hookup_elements known hs W = Ok n -> n = 0%nat -> Forall (inside W (d_elements D)) hs.
Proof.
  intros HK hs. revert n. induction hs as [|h hs IH]; intros n; cbn; [constructor|].
  destruct (element_of W (h_from h)) as [[f fe]|] eqn:Ef; [|done]. cbn. destruct (element_of W (h_to h)) as [[t te]|] eqn:Et; [|done]. cbn.
  destruct (hookup_elements known hs W) as [m|] eqn:E; [|done]. cbn. intros [= <-] Hn.
  destruct (decide (f ∈ known)) as [Hf|]; [|rewrite bool_decide_true in Hn by done; cbn in Hn; lia].
  destruct (decide (t ∈ known)) as [Ht|]; [|rewrite (bool_decide_true (t ∉ known)) in Hn by done; cbn in Hn; lia].
  constructor; [|apply (IH m); [done|lia]]. destruct (element_ids_in _ _ _ HK _ Hf) as (s1 & e1 & ? & ?).
  destruct (element_ids_in _ _ _ HK _ Ht) as (s2 & e2 & ? & ?).
  intros []; cbn; [exists t, te, s2, e2|exists f, fe, s1, e1]; by split_and!.
Qed.

Lemma hookup_range_sound W : forall hs n, hookup_range hs W = Ok n -> n = 0%nat ->
  Forall (fun h => forall sd, exists i e, element_of W (end_of sd h).1 = Ok (i, e) /\ Z.of_nat (end_of sd h).2 < n_ports sd e) hs.
Proof.
  induction hs as [|h hs IH]; intros n; cbn; [constructor|].
  destruct (element_of W (h_from h)) as [[f fe]|] eqn:Ef; [|done]. cbn. destruct (element_of W (h_to h)) as [[t te]|] eqn:Et; [|done]. cbn.
  destruct (hookup_range hs W) as [m|] eqn:E; [|done]. cbn. intros [= <-] Hn.
  destruct (Z.leb_spec (n_ports Outputs fe) (Z.of_nat (h_fromPort h))) as [|Hf]; [cbn in Hn; lia|].
  destruct (Z.leb_spec (n_ports Inputs te) (Z.of_nat (h_toPort h))) as [|Ht]; [cbn in Hn; lia|].
  constructor; [|apply (IH m); [done|cbn in Hn; lia]]. intros []; cbn; [exists t, te|exists f, fe]; done.
Qed.

Lemma unused_ports_sound sd D s W : plain W s -> forall ps n, unused_ports sd D s ps W = Ok n -> n = 0%nat ->
  forall k P, k ∈ ps -> check_exported sd D s k = false -> wport W sd s k = Some P -> ps_check P = true -> taken W sd s k.
Proof.
  intros Hpl. induction ps as [|p ps IH]; intros n; cbn; [intros _ _ k P Hin; by apply elem_of_nil in Hin|].
  destruct (if check_exported sd D s p then _ else _) as [m|] eqn:E; [|done]. cbn.
  destruct (unused_ports sd D s ps W) as [m'|] eqn:E'; [|done]. cbn. intros [= <-] Hn k P Hin Hex HP Hck.
  apply elem_of_cons in Hin as [->|Hin]; [|eapply (IH m' eq_refl); [lia|eassumption..]].
  rewrite Hex, (plain_loc _ _ _ _ Hpl) in E. cbn in E. unfold port_spec, spec_at, wport in *. cbn in E.
  destruct (w_specs W !! s) as [sp|] eqn:Hs; [|done]. cbn in E, HP. rewrite HP in E. cbn in E. rewrite Hck in E. injection E as <-.
  destruct (ps_counterpart P) as [c|] eqn:Hc; [|rewrite bool_decide_true in Hn by done; cbn in Hn; lia].
  exists P, c. unfold wport. rewrite Hs. done.
Qed.
Lemma unused_all_sound D W : forall ss n, Forall (plain W) ss -> unused_all D ss W = Ok n -> n = 0%nat ->
  forall s sd k P i e, s ∈ ss -> element_of W s = Ok (i, e) -> Z.of_nat k < n_ports sd e -> check_exported sd D s k = false ->
    wport W sd s k = Some P -> ps_check P = true -> taken W sd s k.
Proof.
  induction ss as [|s ss IH]; intros n Hpl; cbn; [intros _ _ s sd k P i e Hin; by apply elem_of_nil in Hin|].
  apply Forall_cons in Hpl as [Hs Hpl]. destruct (element_of W s) as [[i e]|] eqn:E; [|done]. cbn.
  destruct (unused_ports Inputs _ _ _ _) as [n1|] eqn:E1; [|done]. cbn. destruct (unused_ports Outputs _ _ _ _) as [n2|] eqn:E2; [|done]. cbn.
  destruct (unused_all D ss W) as [n3|] eqn:E3; [|done]. cbn. intros [= <-] Hn s' sd k P i' e' Hin He Hk Hex HP Hck.
  apply elem_of_cons in Hin as [->|Hin].
  - assert (e' = e) as -> by congruence. destruct sd;
      [eapply (unused_ports_sound Inputs D s W Hs _ n1 E1)|eapply (unused_ports_sound Outputs D s W Hs _ n2 E2)];
      first [done|lia|apply elem_of_seq; lia].
  - eapply (IH n3 Hpl eq_refl); first [done|lia].
Qed.

Lemma good_port W s i e sd k : good_world W -> element_of W s = Ok (i, e) -> Z.of_nat k < n_ports sd e -> is_Some (wport W sd s k).
Proof.
  intros HG He Hk. unfold element_of, spec_at in He. unfold wport. destruct (w_specs W !! s) as [sp|] eqn:Hs; [|done]. cbn in *.
  destruct (gs_element _ _ (HG _ _ Hs)) as (e' & He' & Hlen). rewrite He' in He. cbn in He. injection He as <- <-.
  apply lookup_lt_is_Some. rewrite Hlen in Hk. lia.
Qed.
Lemma wpers_wport W sd s k : wpers W sd s k = ps_processing <$> wport W sd s k.
Proof. unfold wpers, wport, pers. by destruct (w_specs W !! s). Qed.
Lemma wport_settles W W' sd s k P' : settles W W' -> wport W' sd s k = Some P' -> exists P, wport W sd s k = Some P /\ port_settles P P'.
Proof.
  intros H. unfold wport. destruct (w_specs W' !! s) as [sp'|] eqn:E; [|done]. cbn. intros HP.
  destruct (settles_spec_r _ _ _ _ H E) as (sp & -> & S1). cbn. by apply (settles_lookup _ _ _ _ _ S1).
Qed.

(** No element of the dataflow is a dataflow, and none of its ports has been
    attached. *)
Definition flat (W : World) (D : Dataflow) : Prop :=
  Forall (plain W) (d_elements D) /\ Forall (fun h => plain W (h_from h) /\ plain W (h_to h)) (d_hookups D).
Definition fresh (W : World) (D : Dataflow) : Prop := forall s sd k P,
  s ∈ d_elements D -> wport W sd s k = Some P -> ps_counterpart P = None /\ ps_check P = true.

Lemma validate_plain f ss W : Forall (plain W) ss -> validate_elements f ss W = Ok (0, W).
Proof.
  induction 1 as [|s ss (i & e & H1 & H2) _ IH]; [done|]. cbn. rewrite H1. cbn. by rewrite H2.
Qed.

(** The hookups that run into (out of) a port, by their numbers. *)
Definition hookups_at (D : Dataflow) (sd : Side) (s k : nat) (i : nat) : Prop :=
  exists h, d_hookups D !! i = Some h /\ end_of sd h = (s, k).

Lemma errors_neg n : (errors n <? 0) = negb (n =? 0)%nat.
Proof. unfold errors. by destruct (n =? 0)%nat. Qed.

(** What a run of [validate] that succeeds has been through. *)
Lemma validate_passed (fuel d : nat) (D : Dataflow) (W W' : World) :
  w_flows W !! d = Some D -> d_validated D = false -> good_world W -> flat W D -> Dataflow_validate fuel d W = Ok (0, W') ->
  exists W1 W2, settles W W1 /\ attached W1 W2 /\ W' = alter_flow set_validated d W2
    /\ Forall (inside W (d_elements D)) (d_hookups D) /\ Forall (hookup_ok W) (d_hookups D) /\ Forall (agrees W1) (d_hookups D)
    /\ (forall sd, NoDup (end_of sd <$> d_hookups D))
    /\ (forall sd s k, taken W2 sd s k <-> taken W1 sd s k \/ (s, k) ∈ end_of sd <$> d_hookups D)
    /\ unused_all D (d_elements D) W2 = Ok 0%nat.
Proof.
  intros HD Hv HG [HF1 HF2]. destruct fuel as [|fuel]; [done|]. cbn. unfold flow_at. rewrite HD. cbn. rewrite Hv.
  rewrite (validate_plain _ _ _ HF1). cbn -[settle_loop]. unfold run_checks, check_hookup_elements, check_hookup_range, check_push_and_pull, eval_hookups, check_hookup_completeness.
  destruct (element_ids (d_elements D) W) as [known|] eqn:EK; [|done]. cbn -[settle_loop]. destruct (hookup_elements known (d_hookups D) W) as [n1|] eqn:E1; [|done]. cbn -[settle_loop].
  rewrite errors_neg. destruct (Nat.eqb_spec n1 0) as [Hn1|]; [|done]. cbn -[settle_loop]. destruct (hookup_range (d_hookups D) W) as [n2|] eqn:E2; [|done]. cbn -[settle_loop].
  rewrite errors_neg. destruct (Nat.eqb_spec n2 0) as [Hn2|]; [|done]. cbn [negb].
  pose proof (hookup_range_sound W _ _ E2 Hn2) as HR.
  assert (HH : Forall (hookup_ok W) (d_hookups D)).
  { apply Forall_forall. intros h Hh. rewrite Forall_forall in HF2, HR. destruct (HF2 h Hh) as [Hf Ht]. pose proof (HR h Hh) as HRh.
    split; [done|done| |]; rewrite wpers_wport; apply fmap_is_Some.
    - destruct (HRh Outputs) as (i & e & He & Hk). by eapply good_port.
    - destruct (HRh Inputs) as (i & e & He & Hk). by eapply good_port. }
  destruct (settle_loop_ok (d_hookups D) (S (agnostics W)) W HG HH) as (n3 & W1 & E3 & S1 & A1); [lia|]. rewrite E3. cbn.
  pose proof (sk_settles _ _ _ _ S1) as HS1.
  rewrite errors_neg. destruct (Nat.eqb_spec n3 0) as [Hn3|]; [|done]. cbn [negb].
  assert (HH1 : Forall (hooked W1) (d_hookups D)).
  { eapply Forall_impl; [exact HH|]. intros h Hh. apply (hookup_ok_settles _ _ _ HS1) in Hh as [Hf Ht Hfp Htp].
    split_and!; [done|done|]. intros []; cbn; eapply fmap_is_Some; rewrite <- wpers_wport; done. }
  destruct (attach_hookups_ok (d_hookups D) W1 HH1) as (n4 & W2 & E4 & A2 & T2 & N2). rewrite E4. cbn.
  rewrite errors_neg. destruct (Nat.eqb_spec n4 0) as [Hn4|]; [|done]. cbn [negb].
  destruct (unused_all D (d_elements D) W2) as [n5|] eqn:E5; [|done]. cbn. rewrite errors_neg.
  destruct (Nat.eqb_spec n5 0) as [->|]; [|done]. cbn. intros [= <-].
  exists W1, W2. split_and!; try done; [by eapply hookup_elements_sound|by apply A1|by apply N2].
Qed.

(** C15: In a dataflow that passes [validate] every hookup joins two elements of the
    dataflow at ports they have, which are both push, both pull or both still
    agnostic; and every port of an element that is not exported has exactly one
    hookup. *)
Theorem validate_sound (fuel d : nat) (D : Dataflow) (W W' : World) :
  w_flows W !! d = Some D -> d_validated D = false -> good_world W -> flat W D -> fresh W D ->
  Dataflow_validate fuel d W = Ok (0, W') ->
  Forall (fun h => inside W (d_elements D) h /\ exists p, forall sd, wpers W' sd (end_of sd h).1 (end_of sd h).2 = Some p) (d_hookups D)
  /\ forall s i e sd k, s ∈ d_elements D -> element_of W s = Ok (i, e) -> Z.of_nat k < n_ports sd e -> check_exported sd D s k = false ->
     exists j, forall j', hookups_at D sd s k j' <-> j' = j.
Proof.
  intros HD Hv HG HF HFr HV.
  destruct (validate_passed _ _ _ _ _ HD Hv HG HF HV) as (W1 & W2 & HS1 & A2 & -> & HIn & HH & A1 & ND & T2 & E5). split.
  - apply Forall_forall. intros h Hh. rewrite Forall_forall in HIn, A1, HH. split; [by apply HIn|].
    destruct (hookup_ok_settles _ _ _ HS1 (HH h Hh)) as [_ _ [p Hp] _]. exists p.
    assert (Hw : forall sd s k, wpers (alter_flow set_validated d W2) sd s k = wpers W1 sd s k).
    { intros sd s k. change (wpers W2 sd s k = wpers W1 sd s k). rewrite !wpers_wport. pose proof (at_ports _ _ A2 sd s k) as Hopt.
      inversion Hopt as [Q Q' (HQ & _) HE1 HE2|HE1 HE2]; cbn; [by rewrite HQ|done]. }
    intros sd. rewrite Hw. specialize (A1 h Hh). unfold agrees in A1. destruct sd; cbn; [rewrite <- A1|]; done.
  - intros s i e sd k Hin He Hk Hex. destruct (good_port _ _ _ _ _ _ HG He Hk) as [P HP].
    assert (HFl : Forall (plain W2) (d_elements D)).
    { destruct HF as [HF1 _]. eapply Forall_impl; [exact HF1|]. intros x Hx. apply (plain_settles _ _ _ HS1) in Hx. unfold plain. by rewrite (at_elements _ _ A2). }
    destruct (wpers_settles W W1 sd s k (ps_processing P) HS1) as (p' & Hp' & _); [by rewrite wpers_wport, HP|].
    rewrite wpers_wport in Hp'. destruct (wport W1 sd s k) as [P1|] eqn:HP1; [|done].
    assert (Hfresh : ps_counterpart P1 = None /\ ps_check P1 = true).
    { destruct (wport_settles _ _ _ _ _ _ HS1 HP1) as (P0 & HP0 & HSt). destruct (HFr _ _ _ _ Hin HP0). destruct HSt as [->|[_ [p ->]]]; done. }
    destruct Hfresh as [Hc1 Hck1]. pose proof (at_ports _ _ A2 sd s k) as Hopt. rewrite HP1 in Hopt.
    inversion Hopt as [? P2 (_ & Hck2 & _) HE1 HP2|]. subst.
    assert (Htk : taken W2 sd s k).
    { eapply (unused_all_sound D W2 _ _ HFl E5 eq_refl s sd k P2 i e); try done; [|congruence].
      rewrite (at_elements _ _ A2), (element_of_settles _ _ _ HS1). done. }
    apply T2 in Htk as [(P' & c & HP' & Hc)|Hend]; [congruence|].
    apply list_elem_of_lookup in Hend as [j Hj]. exists j. intros j'. split.
    + intros (h & Hj' & Hh). eapply NoDup_lookup; [exact (ND sd)| |exact Hj]. by rewrite list_lookup_fmap, Hj'; cbn; rewrite Hh.
    + intros ->. rewrite list_lookup_fmap in Hj. destruct (d_hookups D !! j) as [h|] eqn:Eh; [|done]. cbn in Hj. exists h. split; [done|congruence].
Qed.

(** ** Connecting and starting the elements *)

(** The entry of the vector of ports of an element. *)
Definition eport (W : World) (sd : Side) (i k : nat) : option (option port) := e ← w_elements W !! i; p_ports (el_ports sd e) !! k.

(** What connecting and starting leave alone. *)
Record rewired (W W' : World) : Prop := {
  rw_specs : w_specs W' = w_specs W;
  rw_flows : w_flows W' = w_flows W;
  rw_elements : forall i, option_Forall2 (fun e e' => el_dataflow e' = el_dataflow e /\
    forall sd, length (p_ports (el_ports sd e')) = length (p_ports (el_ports sd e))) (w_elements W !! i) (w_elements W' !! i)
}.
#[export] Instance rewired_refl : Reflexive rewired.
Proof. intros W. split; [done|done|]. intros i. destruct (w_elements W !! i); by constructor. Qed.
#[export] Instance rewired_trans : Transitive rewired.
Proof.
  intros A B C [H1 H2 H3] [K1 K2 K3]. split; [congruence|congruence|]. intros i. specialize (H3 i). specialize (K3 i).
  inversion H3 as [P Q (a & b) E1 E2|E1 E2]; rewrite <- E2 in K3; inversion K3 as [Q' R (a' & b') E3 E4|E3 E4]; subst; [|constructor].
  constructor. split; [congruence|]. intros sd. by rewrite b', b.
Qed.

(** The element of a specification that is not a dataflow. *)
Definition plain_at (W : World) (s i : nat) : Prop := exists e, element_of W s = Ok (i, e) /\ el_dataflow e = None.
Lemma plain_at_plain W s i : plain_at W s i -> plain W s.
Proof. intros (e & H1 & H2). by exists i, e. Qed.
Lemma plain_at_rewired W W' s i : rewired W W' -> plain_at W s i -> plain_at W' s i.
Proof.
  intros [H1 H2 H3] (e & He & Hd). unfold plain_at, element_of, spec_at in *. rewrite H1. destruct (w_specs W !! s) as [sp|]; [|done]. cbn in *.
  specialize (H3 (es_element sp)). destruct (w_elements W !! es_element sp) as [e0|]; [|done]. cbn in He. injection He as <- <-.
  inversion H3 as [? e' (Ha & _) He0 He'|]. exists e'. cbn. split; [done|]. by rewrite Ha.
Qed.

Lemma join_rewired W sd i k peer pp : 
  let W' := with_elements (alter (fun e => set_el_ports sd (snd (connectPort k peer pp (el_ports sd e))) e) i (w_elements W)) W in
  rewired W W' /\ forall sd' i' k', eport W' sd' i' k' =
    if decide ((sd', i', k') = (sd, i, k)) then (if eport W sd i k is Some _ then Some (Some (Some (peer, pp))) else None) else eport W sd' i' k'.
Proof.
  intros W'. assert (Hset : forall sd' P e, el_ports sd' (set_el_ports sd P e) = if decide (sd = sd') then P else el_ports sd' e) by by destruct sd, sd'.
  assert (Hlen : forall P, length (p_ports (snd (connectPort k peer pp P))) = length (p_ports P)).
  { intros P. unfold connectPort. destruct (k <? _)%nat; cbn; [apply length_insert|done]. }
  split.
  - split; [done|done|]. intros i'. unfold W'. cbn. destruct (decide (i' = i)) as [->|Hn].
    + rewrite list_lookup_alter_eq. destruct (w_elements W !! i) as [e|]; cbn; constructor. split; [by destruct sd|].
      intros sd'. rewrite Hset. destruct (decide (sd = sd')) as [<-|]; [apply Hlen|done].
    + rewrite list_lookup_alter_ne by done. destruct (w_elements W !! i'); by constructor.
  - intros sd' i' k'. unfold W', eport. cbn. destruct (decide (i' = i)) as [->|Hn].
    + rewrite list_lookup_alter_eq. destruct (w_elements W !! i) as [e|]; cbn; [|by destruct (decide _)]. rewrite Hset.
      destruct (decide (sd = sd')) as [<-|]; [|by rewrite decide_False by congruence]. unfold connectPort.
      destruct (Nat.ltb_spec k (length (p_ports (el_ports sd e)))) as [Hk|Hk]; cbn.
      * destruct (decide (k' = k)) as [->|Hkn].
        -- rewrite decide_True by done. destruct (lookup_lt_is_Some_2 _ _ Hk) as [x ->]. cbn. by apply list_lookup_insert_eq.
        -- rewrite decide_False by congruence. by apply list_lookup_insert_ne.
      * destruct (decide _) as [[= ->]|]; [|done]. by rewrite (lookup_ge_None_2 _ _ Hk).
    + rewrite list_lookup_alter_ne by done. by rewrite decide_False by congruence.
Qed.

(** A hookup between the ports [fp] and [tp] of the elements [f] and [t]. *)
Definition joins (W : World) (h : Hookup) (f t : nat) : Prop :=
  plain_at W (h_from h) f /\ plain_at W (h_to h) t /\ is_Some (eport W Outputs f (h_fromPort h)) /\ is_Some (eport W Inputs t (h_toPort h)).
Definition connected (W : World) (h : Hookup) (f t : nat) : Prop :=
  eport W Outputs f (h_fromPort h) = Some (Some (Some (t, h_toPort h)))
  /\ eport W Inputs t (h_toPort h) = Some (Some (Some (f, h_fromPort h))).

Lemma eport_some_rewired W W' sd i k : rewired W W' -> is_Some (eport W sd i k) -> is_Some (eport W' sd i k).
Proof.
  intros [_ _ H]. specialize (H i). unfold eport. destruct (w_elements W !! i) as [e|]; [|by intros []]. cbn.
  inversion H as [? e' (_ & Hl) He0 He'|]. cbn. intros Hk. apply lookup_lt_is_Some. rewrite Hl. by apply lookup_lt_is_Some.
Qed.
Lemma joins_rewired W W' h f t : rewired W W' -> joins W h f t -> joins W' h f t.
Proof. intros H (H1 & H2 & H3 & H4). split_and!; [by eapply plain_at_rewired|by eapply plain_at_rewired|by eapply eport_some_rewired|by eapply eport_some_rewired]. Qed.

Lemma connect_ok W h f t : joins W h f t ->
  exists W', connect h W = Ok W' /\ rewired W W' /\ connected W' h f t
    /\ forall sd i k, (sd, i, k) <> (Outputs, f, h_fromPort h) -> (sd, i, k) <> (Inputs, t, h_toPort h) -> eport W' sd i k = eport W sd i k.
Proof.
  intros (Hf & Ht & [po Hpo] & [pi Hpi]). unfold connect.
  rewrite (plain_loc _ _ _ _ (plain_at_plain _ _ _ Hf)), (plain_loc _ _ _ _ (plain_at_plain _ _ _ Ht)). cbn.
  destruct Hf as (fe & -> & _), Ht as (te & -> & _). cbn.
  destruct (join_rewired W Outputs f (h_fromPort h) t (h_toPort h)) as [R1 P1]. set (W1 := with_elements _ W) in *.
  destruct (join_rewired W1 Inputs t (h_toPort h) f (h_fromPort h)) as [R2 P2]. set (W2 := with_elements _ W1) in *.
  exists W2. split; [done|]. split; [by transitivity W1|]. split.
  - split.
    + rewrite P2. rewrite decide_False by done. rewrite P1. rewrite decide_True by done. by rewrite Hpo.
    + rewrite P2. rewrite decide_True by done. rewrite P1. rewrite decide_False by done. by rewrite Hpi.
  - intros sd i k H1 H2. rewrite P2, decide_False by done. by rewrite P1, decide_False by done.
Qed.

Lemma set_connections_ok (elem : nat -> nat) hs : forall W,
  Forall (fun h => joins W h (elem (h_from h)) (elem (h_to h))) hs ->
  (forall sd, NoDup ((fun h => (elem (end_of sd h).1, (end_of sd h).2)) <$> hs)) ->
  exists W', set_connections hs W = Ok W' /\ rewired W W'
    /\ Forall (fun h => connected W' h (elem (h_from h)) (elem (h_to h))) hs
    /\ forall sd i k, (i, k) ∉ (fun h => (elem (end_of sd h).1, (end_of sd h).2)) <$> hs -> eport W' sd i k = eport W sd i k.
Proof.
  induction hs as [|h hs IH]; intros W HJ HN; [by exists W|]. apply Forall_cons in HJ as [Hh HJ].
  destruct (connect_ok W h _ _ Hh) as (W1 & E1 & R1 & C1 & F1). cbn. rewrite E1. cbn.
  destruct (IH W1) as (W2 & E2 & R2 & C2 & F2).
  { eapply Forall_impl; [exact HJ|]. intros x Hx. by eapply joins_rewired. }
  { intros sd. specialize (HN sd). rewrite fmap_cons in HN. by apply NoDup_cons in HN as [_ HN]. }
  exists W2. split; [done|]. split; [by transitivity W1|]. split.
  - apply Forall_cons. split; [|done]. destruct C1 as [Co Ci]. pose proof (HN Outputs) as No. pose proof (HN Inputs) as Ni.
    rewrite fmap_cons in No, Ni. apply NoDup_cons in No as [No _], Ni as [Ni _]. split; by rewrite F2.
  - intros sd i k Hin. apply not_elem_of_cons in Hin as [Hne Hin]. rewrite F2 by done.
    apply F1; intros [= -> -> ->]; by apply Hne.
Qed.

(** Starting elements changes no port. *)
Lemma init_elements_ok elem_initialize init ss : forall W n W', Forall (plain W) ss -> init_elements elem_initialize init ss W = Ok (n, W') ->
  n = 0%nat -> rewired W W' /\ (forall sd i k, eport W' sd i k = eport W sd i k) /\ w_installed W' = w_installed W
  /\ (forall i e, w_elements W !! i = Some e -> el_active e = true -> exists e', w_elements W' !! i = Some e' /\ el_active e' = true)
  /\ Forall (fun s => exists i e, element_of W' s = Ok (i, e) /\ el_active e = true) ss.
Proof.
  induction ss as [|s ss IH]; intros W n W' HP; cbn.
  - intros [= <- <-] _. split_and!; [reflexivity|done|done|eauto|constructor].
  - apply Forall_cons in HP as [(i & e & He & Hd) HP]. rewrite He. cbn. rewrite Hd.
    replace (if el_active e then Ok (0, W) else Ok (elem_initialize i, W)) with (Ok (if el_active e then 0 else elem_initialize i, W)) by by destruct (el_active e).
    cbn. destruct (_ <? 0).
    { destruct (init_elements _ _ ss W) as [[m W1]|]; [|done]. cbn. by intros [= <- _]. }
    set (W1 := with_elements _ W). intros E Hn.
    assert (Hse : forall b e sd, el_ports sd (set_active b e) = el_ports sd e) by by intros ? ? [].
    assert (R1 : rewired W W1).
    { split; [done|done|]. intros j. unfold W1. cbn. destruct (decide (j = i)) as [->|Hj].
      - rewrite list_lookup_alter_eq. destruct (w_elements W !! i); constructor. split; [done|]. intros sd. by rewrite Hse.
      - rewrite list_lookup_alter_ne by done. destruct (w_elements W !! j); by constructor. }
    destruct (IH W1 n W') as (R2 & P2 & I2 & A2 & F2); [|done|done|].
    { eapply Forall_impl; [exact HP|]. intros x (j & ej & Hx & Hdx). apply (plain_at_plain _ _ j). apply (plain_at_rewired _ _ _ _ R1). by exists ej. }
    assert (P1 : forall sd j k, eport W1 sd j k = eport W sd j k).
    { intros sd j k. unfold eport, W1. cbn. destruct (decide (j = i)) as [->|Hj].
      - rewrite list_lookup_alter_eq. destruct (w_elements W !! i); [|done]. cbn. by rewrite Hse.
      - by rewrite list_lookup_alter_ne. }
    assert (HA1 : forall j ej, w_elements W !! j = Some ej -> exists e', w_elements W1 !! j = Some e' /\ (el_active ej = true \/ j = i -> el_active e' = true)).
    { intros j ej Hj. unfold W1. cbn. destruct (decide (j = i)) as [->|Hji].
      - rewrite list_lookup_alter_eq, Hj. by eexists.
      - rewrite list_lookup_alter_ne, Hj by done. eexists. split; [done|]. by intros [?|?]. }
    split_and!; [by transitivity W1|intros; by rewrite P2|done| |].
    + intros j ej Hj Ha. destruct (HA1 j ej Hj) as (e' & He' & Ha'). by eapply A2; [|apply Ha'; left].
    + constructor; [|done]. unfold element_of, spec_at in *. rewrite (rw_specs _ _ R2). change (w_specs W1) with (w_specs W).
      destruct (w_specs W !! s) as [sp|]; [|done]. cbn in *. destruct (w_elements W !! es_element sp) as [e0|] eqn:E0; [|done]. cbn in He. injection He as Hi <-.
      destruct (HA1 _ _ E0) as (e' & He' & Ha'). destruct (A2 _ _ He') as (e2 & He2 & Ha2); [by apply Ha'; right|]. rewrite He2. by eexists _, e2.
Qed.

(** Every port an element counts is there, and the hookups of a dataflow tell
    elements apart. *)
Definition full (W : World) : Prop := forall i e sd, w_elements W !! i = Some e ->
  n_ports sd e = Z.of_nat (length (p_ports (el_ports sd e))).
Definition distinct_elements (W : World) (D : Dataflow) (elem : nat -> nat) : Prop :=
  Forall (fun h => forall sd, plain_at W (end_of sd h).1 (elem (end_of sd h).1)) (d_hookups D)
  /\ forall s s', elem s = elem s' -> s = s'.

(** C16: Once a dataflow is installed it is found by its name, all its elements are
    active, and every hookup is connected in both directions: what is pushed out
    of its first end arrives at the second, and what is pulled from the second
    comes from the first. *)
Theorem install_connects (elem_initialize : nat -> Z) (fuel d : nat) (D : Dataflow) (W W' : World) (elem : nat -> nat) :
  w_flows W !! d = Some D -> d_edit D = None -> d_validated D = false -> d_initialized D = false ->
  good_world W -> flat W D -> full W -> distinct_elements W D elem ->
  install elem_initialize fuel d W = Ok (0, W') ->
  Plumber_dataflow (d_name D) W' = Some d
  /\ Forall (fun s => exists i e, element_of W' s = Ok (i, e) /\ el_active e = true) (d_elements D)
  /\ Forall (fun h => connected W' h (elem (h_from h)) (elem (h_to h))) (d_hookups D).
Proof.
  intros HD He Hv Hi HG HF HFull [HD1 HD2]. unfold install, flow_at. rewrite HD. cbn. rewrite He.
  destruct (Dataflow_validate fuel d W) as [[r W1']|] eqn:EV; [|done]. cbn. destruct (Z.ltb_spec r 0) as [|Hr]; [done|].
  assert (r = 0) as ->.
  { destruct fuel as [|fuel]; [done|]. cbn in EV. unfold flow_at in EV. rewrite HD in EV. cbn in EV. rewrite Hv in EV.
    rewrite (validate_plain _ _ _ (proj1 HF)) in EV. cbn in EV. destruct (run_checks D W) as [[x Wx]|]; [|done]. cbn in EV.
    destruct (x <? 0); injection EV as <- _; [lia|done]. }
  destruct (validate_passed _ _ _ _ _ HD Hv HG HF EV) as (W1 & W2 & HS1 & A2 & -> & HIn & HH & A1 & ND & T2 & E5). clear EV.
  set (V := alter_flow set_validated d W2) in *.
  assert (HVe : forall s, element_of V s = element_of W s) by (intros; change (element_of V s) with (element_of W2 s); by rewrite (at_elements _ _ A2), (element_of_settles _ _ _ HS1)).
  assert (HVo : w_elements V = w_elements W) by (change (w_elements V) with (w_elements W2); by rewrite (at_objects _ _ A2), (st_elements _ _ HS1)).
  assert (HVd : w_flows V !! d = Some (set_validated D)).
  { unfold V. cbn. rewrite list_lookup_alter_eq, (at_flows _ _ A2), (st_flows _ _ HS1), HD. done. }
  assert (HJ : Forall (fun h => joins V h (elem (h_from h)) (elem (h_to h))) (d_hookups D)).
  { apply Forall_forall. intros h Hh. rewrite Forall_forall in HD1, HH. pose proof (HH h Hh) as [_ _ Hfp Htp].
    assert (Hend : forall sd, plain_at V (end_of sd h).1 (elem (end_of sd h).1) /\ is_Some (eport V sd (elem (end_of sd h).1) (end_of sd h).2)).
    { intros sd. destruct (HD1 h Hh sd) as (e & Hee & Hed). split; [exists e; by rewrite HVe|]. unfold eport. rewrite HVo.
      assert (Hw : is_Some (wpers W sd (end_of sd h).1 (end_of sd h).2)) by by destruct sd.
      destruct Hw as [p Hw]. apply wpers_spec in Hw as (sp & P & Hsp & HP & _). destruct (HG _ _ Hsp) as [_ _ (e' & He' & Hlen)].
      unfold element_of, spec_at in Hee. rewrite Hsp in Hee. cbn in Hee. rewrite He' in Hee. cbn in Hee. injection Hee as Hi1 Hi2.
      rewrite <- Hi1, He'. cbn. apply lookup_lt_is_Some. apply lookup_lt_Some in HP. pose proof (HFull _ _ sd He'). specialize (Hlen sd). lia. }
    destruct (Hend Outputs), (Hend Inputs). by split_and!. }
  destruct fuel as [|fuel]; [done|]. cbn [initialize]. unfold flow_at. rewrite HVd. cbn [of_option rbind set_validated d_initialized d_edit d_elements d_hookups].
  rewrite Hi, He. destruct (set_connections_ok elem (d_hookups D) V HJ) as (W3 & E3 & R3 & C3 & _).
  { intros sd. specialize (ND sd). rewrite (list_fmap_compose (end_of sd) (fun x => (elem x.1, x.2))) . apply NoDup_fmap_2; [|done].
    intros [s k] [s' k'] [= E1 E2]. cbn in *. apply HD2 in E1. congruence. }
  rewrite E3. cbn [rbind]. destruct (init_elements _ _ (d_elements D) W3) as [[n W4]|] eqn:E4; [|done]. cbn [rbind].
  destruct (Nat.eqb_spec n 0) as [Hn|]; [|done]. cbn. intros [= <-].
  destruct (init_elements_ok elem_initialize (initialize elem_initialize fuel) (d_elements D) W3 n W4) as (R4 & P4 & I4 & _ & F4); [|done|done|].
  { destruct HF as [HF1 _]. eapply Forall_impl; [exact HF1|]. intros s (i & e & H1 & H2). apply (plain_at_plain _ _ i).
    apply (plain_at_rewired _ _ _ _ R3). exists e. by rewrite HVe. }
  split_and!; [apply lookup_insert_eq|exact F4|]. eapply Forall_impl; [exact C3|]. intros h [Ho Hii].
  split; [rewrite <- Ho|rewrite <- Hii]; apply P4.
Qed.

(** ** What an edit keeps *)

Definition same_counts (W W' : World) : Prop := forall s i e, element_of W s = Ok (i, e) ->
  exists e', element_of W' s = Ok (i, e') /\ forall sd, n_ports sd e' = n_ports sd e.
#[export] Instance same_counts_refl : Reflexive same_counts.
Proof. intros W s i e H. by exists e. Qed.
#[export] Instance same_counts_trans : Transitive same_counts.
Proof.
  intros A B C H K s i e He. destruct (H s i e He) as (e1 & H1 & N1). destruct (K s i e1 H1) as (e2 & H2 & N2).
  exists e2. split; [done|]. intros sd. by rewrite N2.
Qed.
Lemma set_active_counts b i W : same_counts W (with_elements (alter (set_active b) i (w_elements W)) W).
Proof.
  intros s j e. unfold element_of, spec_at. cbn. destruct (w_specs W !! s) as [sp|]; [|done]. cbn.
  destruct (decide (es_element sp = i)) as [<-|Hn].
  - rewrite list_lookup_alter_eq. destruct (w_elements W !! es_element sp) as [e0|]; [|done]. cbn. intros [= <- <-].
    exists (set_active b e0). split; [done|]. by intros [].
  - rewrite list_lookup_alter_ne by done. destruct (w_elements W !! es_element sp) as [e0|]; [|done]. cbn. intros [= <- <-]. by exists e0.
Qed.

Lemma referenced_counts e e' s hs : (forall sd, n_ports sd e' = n_ports sd e) -> referenced e' s hs = referenced e s hs.
Proof. intros H. unfold referenced. by rewrite !H. Qed.
Lemma referenced_mono e s hs hs' : hs ⊆ hs' -> referenced e s hs = true -> referenced e s hs' = true.
Proof.
  intros H. assert (HE : forall P, existsb P hs = true -> existsb P hs' = true).
  { intros P (x & Hx & HP)%existsb_exists. apply existsb_exists. exists x. split; [|done]. rewrite <- list_elem_of_In in *. by apply H. }
  unfold referenced. destruct (0 <? n_ports Inputs e); [apply HE|]. rewrite !andb_true_iff. intros [? ?]. split; [done|by apply HE].
Qed.

(** The hookups that touch none of the given specifications. *)
Definition away (ss : list nat) (hs : list Hookup) : list Hookup := List.filter (fun h => negb (existsb (fun s => touches s h) ss)) hs.
Lemma away_app ss ss' hs : away ss' (away ss hs) = away (ss ++ ss') hs.
Proof.
  unfold away. induction hs as [|h hs IH]; [done|]. cbn. rewrite existsb_app. destruct (existsb (fun s => touches s h) ss); cbn; [done|].
  destruct (existsb _ ss'); cbn; by rewrite IH.
Qed.
Lemma away_nil hs : away [] hs = hs.
Proof. exact (List.filter_true hs). Qed.
Lemma away_one s hs : List.filter (fun h => negb (touches s h)) hs = away [s] hs.
Proof. apply List.filter_ext. intros h. cbn. by rewrite orb_false_r. Qed.
Lemma away_mono ss ss' hs : ss' ⊆ ss -> away ss hs ⊆ away ss' hs.
Proof.
  intros H h. unfold away. rewrite !list_elem_of_In, !filter_In, <- !list_elem_of_In. intros [Hh Ht]. split; [done|].
  apply negb_true_iff in Ht. apply negb_true_iff. destruct (existsb _ ss') eqn:E; [|done]. apply existsb_exists in E as (x & Hx & Hxt).
  rewrite <- Ht. symmetry. apply existsb_exists. exists x. split; [|done]. rewrite <- list_elem_of_In in *. by apply H.
Qed.

(** A part [K] of the elements that the hookups away from the others feed. *)
Definition fed (W : World) (ss : list nat) (hs : list Hookup) (K : list nat) : Prop :=
  K ⊆ ss /\ forall s i e, s ∈ K -> element_of W s = Ok (i, e) -> referenced e s (away (filter (fun s => s ∉ K) ss) hs) = true.

Lemma prune_pass_ok W0 : forall ss hs W, same_counts W0 W -> (forall s, s ∈ ss -> exists i e, element_of W0 s = Ok (i, e)) ->
  exists kept dropped W', prune_pass ss hs W = Ok (kept, dropped, away dropped hs, W') /\ same_counts W0 W'
    /\ Permutation ss (kept ++ dropped)
    /\ (dropped = [] -> forall s i e, s ∈ kept -> element_of W0 s = Ok (i, e) -> referenced e s hs = true)
    /\ (forall (Q : Hookup -> Prop) (K : list nat), (forall s h, s ∈ ss -> s ∉ K -> touches s h = true -> ~ Q h) ->
        (forall s i e hs', s ∈ K -> element_of W0 s = Ok (i, e) -> (forall h, Q h -> h ∈ hs') -> referenced e s hs' = true) ->
        (forall h, Q h -> h ∈ hs) -> (forall s, s ∈ dropped -> s ∉ K) /\ forall h, Q h -> h ∈ away dropped hs).
Proof.
  induction ss as [|s ss IH]; intros hs W HW HE.
  - exists [], [], W. cbn. rewrite away_nil. split_and!; [done|done|done|intros _ s i e Hin; by apply elem_of_nil in Hin|].
    intros Q K _ _ HQ. split; [|done]. intros s Hin. by apply elem_of_nil in Hin.
  - destruct (HE s) as (i & e & He); [apply list_elem_of_here|]. destruct (HW s i e He) as (e' & He' & Hn). cbn. rewrite He'. cbn.
    rewrite (referenced_counts e e' s hs Hn). destruct (referenced e s hs) eqn:HR.
    + destruct (IH hs W HW) as (kept & dropped & W' & E & SC & HP & H0 & HM); [intros x Hx; by apply HE, list_elem_of_further|].
      rewrite E. cbn. exists (s :: kept), dropped, W'. split_and!; [done|done|cbn; by f_equiv| |].
      * intros Hd x ix ex [->|Hx]%elem_of_cons Hex; [congruence|by eapply H0].
      * intros Q K H1 H2 H3. apply HM; [|done|done]. intros x h Hx. by apply H1, list_elem_of_further.
    + destruct (IH (away [s] hs) (with_elements (alter (set_active false) i (w_elements W)) W)) as (kept & dropped & W' & E & SC & HP & _ & HM).
      { transitivity W; [done|apply set_active_counts]. }
      { intros x Hx. by apply HE, list_elem_of_further. }
      rewrite away_one, E. cbn. rewrite away_app. cbn.
      exists kept, (s :: dropped), W'. split_and!; [done|done|by rewrite <- Permutation_middle; f_equiv|done|].
      intros Q K H1 H2 H3.
      assert (HsK : s ∉ K) by (intros Hs; pose proof (H2 s i e hs Hs He H3); congruence).
      assert (H3' : forall h, Q h -> h ∈ away [s] hs).
      { intros h Hh. unfold away. rewrite list_elem_of_In, filter_In, <- list_elem_of_In. split; [by apply H3|]. cbn. rewrite orb_false_r.
        destruct (touches s h) eqn:Ht; [|done]. exfalso. eapply (H1 s h); [apply list_elem_of_here|done|done|done]. }
      destruct (HM Q K) as [M1 M2]; [intros x h Hx; by apply H1, list_elem_of_further|done|done|]. split.
      * intros x [->|Hx]%elem_of_cons; [done|by apply M1].
      * intros h Hh. specialize (M2 h Hh). by rewrite away_app in M2.
Qed.

Lemma prune_loop_ok W0 : forall fuel ss hs W, (length ss < fuel)%nat -> same_counts W0 W -> (forall s, s ∈ ss -> exists i e, element_of W0 s = Ok (i, e)) ->
  exists kept dropped W', prune_loop fuel ss hs W = Ok (kept, dropped, away dropped hs, W')
    /\ Permutation ss (kept ++ dropped)
    /\ (forall s i e, s ∈ kept -> element_of W0 s = Ok (i, e) -> referenced e s (away dropped hs) = true)
    /\ (forall (Q : Hookup -> Prop) (K : list nat), (forall s h, s ∈ ss -> s ∉ K -> touches s h = true -> ~ Q h) ->
        (forall s i e hs', s ∈ K -> element_of W0 s = Ok (i, e) -> (forall h, Q h -> h ∈ hs') -> referenced e s hs' = true) ->
        (forall h, Q h -> h ∈ hs) -> forall s, s ∈ dropped -> s ∉ K).
Proof.
  induction fuel as [|fuel IH]; intros ss hs W Hf HW HE; [lia|].
  destruct (prune_pass_ok W0 ss hs W HW HE) as (kept & dropped & W1 & E & SC & HP & H0 & HM). cbn. rewrite E. cbn.
  destruct dropped as [|d dropped].
  - rewrite app_nil_r in HP. exists kept, [], W1. split_and!; [done|by rewrite app_nil_r| |].
    + intros s i e. rewrite away_nil. by apply H0.
    + intros Q K _ _ _ s Hs. by apply elem_of_nil in Hs.
  - assert (Hsub : forall s, s ∈ kept -> s ∈ ss) by (intros s Hs; rewrite HP; apply elem_of_app; by left).
    destruct (IH kept (away (d :: dropped) hs) W1) as (kept2 & dropped2 & W2 & E2 & HP2 & H2 & HM2); [|done|naive_solver|].
    { apply Permutation_length in HP. rewrite length_app in HP. cbn in HP. lia. }
    rewrite E2. cbn. rewrite away_app in *. exists kept2, (d :: dropped ++ dropped2), W2. split_and!; [done| |done|].
    + rewrite HP, HP2, <- app_assoc. f_equiv. by rewrite Permutation_app_comm.
    + intros Q K HQ1 HQ2 HQ3. destruct (HM Q K HQ1 HQ2 HQ3) as [M1 M2].
      specialize (HM2 Q K). change (d :: dropped ++ dropped2) with ((d :: dropped) ++ dropped2).
      intros s [Hs|Hs]%elem_of_app; [by apply M1|]. apply HM2; [|done|done|done]. intros x h Hx. apply HQ1. by apply Hsub.
Qed.

(** A set of elements that feeds itself is kept. *)
Lemma fed_kept W ss hs kept dropped K : Permutation ss (kept ++ dropped) ->
  (forall (Q : Hookup -> Prop) (K : list nat), (forall s h, s ∈ ss -> s ∉ K -> touches s h = true -> ~ Q h) ->
     (forall s i e hs', s ∈ K -> element_of W s = Ok (i, e) -> (forall h, Q h -> h ∈ hs') -> referenced e s hs' = true) ->
     (forall h, Q h -> h ∈ hs) -> forall s, s ∈ dropped -> s ∉ K) ->
  fed W ss hs K -> K ⊆ kept.
Proof.
  intros HP HM [HK HF] s Hs.
  pose proof (HK s Hs) as Hin. rewrite HP in Hin. apply elem_of_app in Hin as [?|Hd]; [done|]. exfalso.
  refine (HM (fun h => h ∈ away (filter (fun s => s ∉ K) ss) hs) K _ _ _ s Hd Hs).
  - intros x h Hx HxK Ht. unfold away. rewrite list_elem_of_In, filter_In. intros [_ Hn]. apply negb_true_iff in Hn.
    assert (existsb (fun s => touches s h) (filter (fun s => s ∉ K) ss) = true); [|congruence].
    apply existsb_exists. exists x. split; [|done]. apply list_elem_of_In. by apply list_elem_of_filter.
  - intros x i e hs' Hx He Hh. eapply referenced_mono; [|by eapply HF]. intros h. apply Hh.
  - intros h. unfold away. rewrite !list_elem_of_In, filter_In. tauto.
Qed.

(** Validation touches specifications and marks dataflows as validated; nothing
    else. *)
Definition checked (W W' : World) : Prop :=
  w_elements W' = w_elements W /\ Forall2 (fun D D' => D' = D \/ D' = set_validated D) (w_flows W) (w_flows W').
#[export] Instance checked_refl : Reflexive checked.
Proof. intros W. split; [done|]. apply Forall_Forall2_diag, Forall_forall. by left. Qed.
#[export] Instance checked_trans : Transitive checked.
Proof.
  intros A B C [H1 H2] [K1 K2]. split; [congruence|]. clear -H2 K2. revert K2. generalize (w_flows C).
  induction H2 as [|D D1 l l1 HD _ IH]; intros k K; inversion K as [|? D2 ? k2 HD2]; subst; constructor; [|by apply IH].
  destruct HD as [->| ->], HD2 as [->| ->]; auto.
Qed.

(** A run from [W] that, when it ends, has only done that. *)
Definition checks {A} (W : World) (world : A -> World) (m : res A) : Prop := forall a, m = Ok a -> checked W (world a).
Lemma checks_ok {A} W world (a : A) : checked W (world a) -> checks W world (Ok a).
Proof. by intros H ? [= <-]. Qed.
Lemma checks_fail {A} W (world : A -> World) f : checks W world (Fail f).
Proof. done. Qed.
Lemma checks_read {A B} W world (m : res A) (k : A -> res B) : (forall a, checks W world (k a)) -> checks W world (rbind m k).
Proof. intros H b. destruct m; [apply H|done]. Qed.
Lemma checks_bind {A B} W world world' (m : res A) (k : A -> res B) :
  checks W world' m -> (forall a, checks (world' a) world (k a)) -> checks W world (rbind m k).
Proof. intros H K b. destruct m as [a|]; [|done]. cbn. intros E. etrans; [by apply H|by eapply K]. Qed.
Ltac no_more := cbn -[settle_loop]; apply checks_ok; cbn; first [exact (checked_refl _)|split; [reflexivity|apply (checked_refl _)]].

Lemma settle_checks sd s p l q W : checks W snd (settle sd s p l q W).
Proof. unfold settle. apply checks_read. intros P. apply checks_read. intros [_ e]. apply checks_read. intros sp. apply checks_read. intros [r sp']. no_more. Qed.
Lemma settle_hookup_checks h W : checks W snd (settle_hookup h W).
Proof.
  unfold settle_hookup. apply checks_read. intros [_ f]. apply checks_read. intros [_ t]. do 5 (apply checks_read; intros ?).
  destruct (ps_processing _), (ps_processing _); first [no_more|
    eapply checks_bind; [apply settle_checks|intros [n W1]; no_more]].
Qed.
Lemma settle_pass_checks hs : forall W, checks W snd (settle_pass hs W).
Proof.
  induction hs as [|h hs IH]; intros W; [no_more|]. cbn. eapply checks_bind; [apply settle_hookup_checks|].
  intros [[p1 n1] W1]. eapply checks_bind; [apply IH|]. intros [[p2 n2] W2]. no_more.
Qed.
Lemma settle_loop_checks hs fuel : forall W, checks W snd (settle_loop fuel hs W).
Proof.
  induction fuel as [|fuel IH]; intros W; [done|]. cbn. eapply checks_bind; [apply settle_pass_checks|].
  intros [[[] n] W1]; [|no_more]. eapply checks_bind; [apply IH|]. intros [n' W2]. no_more.
Qed.
Lemma attach_checks sd s p q W : checks W snd (attach sd s p q W).
Proof. unfold attach. do 2 (apply checks_read; intros ?). destruct (Port_counterpart _ _). no_more. Qed.
Lemma attach_hookups_checks hs : forall W, checks W snd (attach_hookups hs W).
Proof.
  induction hs as [|h hs IH]; intros W; [no_more|]. cbn. do 2 (eapply checks_bind; [apply attach_checks|intros [? ?]]).
  eapply checks_bind; [apply IH|]. intros [n3 W3]. no_more.
Qed.
Lemma run_checks_checks D W : checks W snd (run_checks D W).
Proof.
  unfold run_checks, check_push_and_pull, eval_hookups. apply checks_read. intros r. case_match; [no_more|].
  apply checks_read. intros r1. case_match; [no_more|].
  eapply (checks_bind _ _ snd). { eapply checks_bind; [apply settle_loop_checks|]. intros [n W1]. no_more. }
  intros [r2 W1]. case_match; [no_more|].
  eapply (checks_bind _ _ snd). { eapply checks_bind; [apply attach_hookups_checks|]. intros [n W2]. no_more. }
  intros [r3 W2]. case_match; [no_more|]. apply checks_read. intros r4. no_more.
Qed.
Lemma alter_flow_checked d W : checked W (alter_flow set_validated d W).
Proof.
  split; [done|]. cbn. generalize (w_flows W). clear W. intros Ds. revert d.
  induction Ds as [|D Ds IH]; intros [|d]; cbn; constructor; auto. apply Forall_Forall2_diag, Forall_forall. by left.
Qed.
Lemma validate_elements_checks f ss : (forall d W, checks W snd (f d W)) -> forall W, checks W snd (validate_elements f ss W).
Proof.
  intros Hf. induction ss as [|s ss IH]; intros W; [no_more|]. cbn. apply checks_read. intros [_ e].
  destruct (el_dataflow e); [|apply IH]. eapply checks_bind; [apply Hf|]. intros [r W1]. case_match; [no_more|apply IH].
Qed.
Lemma Dataflow_validate_checks fuel : forall d W, checks W snd (Dataflow_validate fuel d W).
Proof.
  induction fuel as [|fuel IH]; intros d W; [done|]. cbn. apply checks_read. intros D. case_match; [no_more|].
  eapply checks_bind; [by apply validate_elements_checks|]. intros [r W1]. case_match; [no_more|].
  eapply checks_bind; [apply run_checks_checks|]. intros [r2 W2]. case_match; [no_more|].
  apply checks_ok, alter_flow_checked.
Qed.

(** An element dropped is made inactive. *)
Definition retire (W : World) (s : nat) : World :=
  match element_of W s with Ok (i, _) => with_elements (alter (set_active false) i (w_elements W)) W | Fail _ => W end.
Lemma prune_pass_retires ss : forall hs W kept dropped hs' W',
  prune_pass ss hs W = Ok (kept, dropped, hs', W') -> W' = foldl retire W dropped.
Proof.
  induction ss as [|s ss IH]; intros hs W kept dropped hs' W'; [by intros [= <- <- <- <-]|]. cbn.
  destruct (element_of W s) as [[i e]|] eqn:He; [|done]. cbn. destruct (referenced e s hs).
  - destruct (prune_pass ss hs W) as [[[[k d] h] W1]|] eqn:E; [|done]. cbn. intros [= <- <- <- <-]. by eapply IH.
  - destruct (prune_pass ss _ _) as [[[[k d] h] W1]|] eqn:E; [|done]. cbn. intros [= <- <- <- <-].
    cbn. unfold retire at 2. rewrite He. by eapply IH.
Qed.
Lemma prune_loop_retires fuel : forall ss hs W kept dropped hs' W',
  prune_loop fuel ss hs W = Ok (kept, dropped, hs', W') -> W' = foldl retire W dropped.
Proof.
  induction fuel as [|fuel IH]; intros ss hs W kept dropped hs' W'; [done|]. cbn.
  destruct (prune_pass ss hs W) as [[[[k d] h] W1]|] eqn:E; [|done]. apply prune_pass_retires in E. subst W1. cbn.
  destruct d as [|s d]; [by intros [= <- <- <- <-]|].
  destruct (prune_loop fuel k h _) as [[[[k2 d2] h2] W2]|] eqn:E2; [|done]. cbn. intros [= <- <- <- <-].
  apply IH in E2. change (s :: d ++ d2) with ((s :: d) ++ d2). by rewrite foldl_app.
Qed.
Lemma retire_others W s : w_specs (retire W s) = w_specs W /\ w_flows (retire W s) = w_flows W.
Proof. unfold retire. by destruct (element_of W s) as [[]|]. Qed.
Lemma retired_others ss : forall W, w_specs (foldl retire W ss) = w_specs W /\ w_flows (foldl retire W ss) = w_flows W.
Proof.
  induction ss as [|s ss IH]; intros W; [done|]. cbn. destruct (retire_others W s) as [<- <-]. apply IH.
Qed.
Lemma element_of_retire W s s' i e : element_of W s' = Ok (i, e) ->
  exists e', element_of (retire W s) s' = Ok (i, e') /\ (e' = e \/ e' = set_active false e)
    /\ (s = s' -> e' = set_active false e) /\ ((forall e0, element_of W s <> Ok (i, e0)) -> e' = e).
Proof.
  intros H. unfold retire. destruct (element_of W s) as [[j e0]|] eqn:Hs;
    [|exists e; split_and!; [done|by left|intros ->; congruence|done]].
  revert H. unfold element_of, spec_at. cbn. destruct (w_specs W !! s') as [sp|]eqn:Esp; [|done]. cbn.
  destruct (decide (es_element sp = j)) as [<-|Hn].
  - rewrite list_lookup_alter_eq. destruct (w_elements W !! es_element sp) as [e1|]; [|done]. cbn. intros [= <- <-].
    exists (set_active false e1). split_and!; [done|by right|done|]. intros Hno. by destruct (Hno e0).
  - rewrite list_lookup_alter_ne by done. destruct (w_elements W !! es_element sp) as [e1|] eqn:Ee; [|done]. cbn. intros [= <- <-].
    exists e1. split_and!; [done|by left| |done]. intros ->. unfold element_of, spec_at in Hs. rewrite Esp in Hs. cbn in Hs.
    rewrite Ee in Hs. cbn in Hs. congruence.
Qed.
Lemma element_of_retired ss : forall W s i e, element_of W s = Ok (i, e) ->
  exists e', element_of (foldl retire W ss) s = Ok (i, e') /\ (e' = e \/ e' = set_active false e)
    /\ (s ∈ ss -> e' = set_active false e) /\ ((forall x e0, x ∈ ss -> element_of W x <> Ok (i, e0)) -> e' = e).
Proof.
  induction ss as [|x ss IH]; intros W s i e H.
  - exists e. split_and!; [done|by left|intros Hs; by apply elem_of_nil in Hs|done].
  - destruct (element_of_retire W x s i e H) as (e1 & H1 & A1 & B1 & C1). cbn.
    destruct (IH _ _ _ _ H1) as (e2 & H2 & A2 & B2 & C2). exists e2.
    assert (Hi : forall b b' e, set_active b (set_active b' e) = set_active b e) by done.
    split_and!; [done|destruct A1 as [->| ->], A2 as [->| ->]; rewrite ?Hi; auto| |].
    + intros [->|Hs]%elem_of_cons; [rewrite B1 in A2 by done; destruct A2 as [->| ->]; by rewrite ?Hi|].
      rewrite B2 by done. destruct A1 as [->| ->]; by rewrite ?Hi.
    + intros Hno. rewrite C2; [apply C1; intros e0; apply Hno, list_elem_of_here|].
      intros y e0 Hy Hy'. pose proof (Hno y) as Hny.
      destruct (element_of W y) as [[j ey]|f] eqn:Ey.
      * destruct (element_of_retire W x y j ey Ey) as (e3 & H3 & _). rewrite H3 in Hy'. injection Hy' as -> <-.
        by eapply Hny; [apply list_elem_of_further|].
      * revert Ey Hy'. unfold element_of, spec_at. destruct (retire_others W x) as [-> _].
        destruct (w_specs W !! y) as [sp|]; [|done]. cbn. unfold retire. destruct (w_elements W !! es_element sp) as [z|] eqn:Ez; [done|].
        intros _. destruct (element_of W x) as [[j ?]|]; cbn; [|by rewrite Ez].
        destruct (decide (es_element sp = j)) as [<-|]; [rewrite list_lookup_alter_eq, Ez|rewrite list_lookup_alter_ne, Ez by done]; done.
Qed.

Definition edited (kept dropped new_es : list nat) (new_hs : list Hookup) (D : Dataflow) : Dataflow :=
  mkDataflow (d_name D) (away dropped (d_hookups D ++ new_hs)) (d_inputs D) (d_outputs D) (kept ++ new_es)
    (d_garbage D ++ dropped) (d_edit D) (d_validated D) (d_initialized D).

(** C17: [DataflowEdit::validate] divides the old elements into those it keeps and
    those it drops, and validates the dataflow with the kept and all the new
    elements, and with the old and new hookups that touch no dropped element.  An
    element kept still has a hookup that feeds it, from a kept or a new element (an
    element without inputs: one that it feeds), and nothing else could be kept:
    every set of old elements in which each is so fed is among the kept.  The
    dropped elements are garbage and inactive, no other element changes its state,
    and however the validation ends, these are the elements and the hookups. *)
Theorem edit_prunes (fuel d : nat) (D : Dataflow) (new_es : list nat) (new_hs : list Hookup) (W : World) :
  w_flows W !! d = Some D -> d_edit D = Some (new_es, new_hs) ->
  (forall s, s ∈ d_elements D -> exists i e, element_of W s = Ok (i, e)) ->
  let hs := d_hookups D ++ new_hs in
  exists kept dropped W1,
    Permutation (d_elements D) (kept ++ dropped)
    /\ (forall s i e, s ∈ kept -> element_of W s = Ok (i, e) -> referenced e s (away dropped hs) = true)
    /\ (forall K, fed W (d_elements D) hs K -> K ⊆ kept)
    /\ DataflowEdit_validate fuel d W = Dataflow_validate fuel d W1
    /\ w_flows W1 = <[d := edited kept dropped new_es new_hs D]> (w_flows W)
    /\ (forall s i e, element_of W s = Ok (i, e) -> exists e', element_of W1 s = Ok (i, e')
        /\ (s ∈ dropped -> e' = set_active false e)
        /\ ((forall x e0, x ∈ dropped -> element_of W x <> Ok (i, e0)) -> e' = e))
    /\ (forall r W', DataflowEdit_validate fuel d W = Ok (r, W') -> exists D', w_flows W' !! d = Some D'
        /\ d_elements D' = kept ++ new_es /\ d_hookups D' = away dropped hs /\ d_garbage D' = d_garbage D ++ dropped).
Proof.
  intros HD Hed HE hs.
  destruct (prune_loop_ok W (S (length (d_elements D))) (d_elements D) hs W) as (kept & dropped & W1 & E & HP & HR & HM);
    [lia|reflexivity|done|]. pose proof (prune_loop_retires _ _ _ _ _ _ _ _ E) as ->.
  destruct (retired_others dropped W) as [HS HF].
  set (W1 := alter_flow (fun D => set_hookups (away dropped hs) (set_members (kept ++ new_es) (d_garbage D ++ dropped) D)) d (foldl retire W dropped)).
  assert (HV : DataflowEdit_validate fuel d W = Dataflow_validate fuel d W1).
  { unfold DataflowEdit_validate, flow_at. rewrite HD. cbn -[prune_loop]. rewrite Hed. cbn -[prune_loop]. fold hs. by rewrite E. }
  assert (HW1 : w_flows W1 = <[d := edited kept dropped new_es new_hs D]> (w_flows W)).
  { cbn. rewrite HF. apply list_eq. intros j. destruct (decide (d = j)) as [<-|];
      [|by rewrite list_lookup_alter_ne, list_lookup_insert_ne].
    rewrite list_lookup_alter_eq, HD, list_lookup_insert_eq by (by eapply lookup_lt_Some). done. }
  exists kept, dropped, W1. split_and!; [done|done| |done|done| |].
  - intros K HK. by apply (fed_kept W (d_elements D) hs kept dropped).
  - intros s i e Hs. destruct (element_of_retired dropped W s i e Hs) as (e' & H1 & _ & H2 & H3). by exists e'.
  - rewrite HV. intros r W' HW'. destruct (Dataflow_validate_checks _ _ _ _ HW') as [_ HC]. change (snd (r, W')) with W' in HC. rewrite HW1 in HC.
    destruct (Forall2_lookup_l _ _ _ d (edited kept dropped new_es new_hs D) HC) as (D' & H1 & H2).
    { apply list_lookup_insert_eq. by eapply lookup_lt_Some. }
    exists D'. split; [done|]. destruct H2 as [->| ->]; done.
Qed.

(** ** Witnesses: a source, an element that passes tuples on, and a sink *)

Definition demo_element (name : string) (ins outs : nat) (personality flow : string) : ElementObj :=
  mkElementObj name (portSetup ins) (portSetup outs) personality flow false false None.
Definition spec_of (id : nat) (e : ElementObj) : ElementSpec :=
  match ElementSpec_mk id e with Ok s => s | Fail _ => mkElementSpec id [] [] [] end.
Definition demo_elements : list ElementObj :=
  [demo_element "source" 0 1 "/h" "/-"; demo_element "identity" 1 1 "a/a" "x/x"; demo_element "sink" 1 0 "h/" "-/"].
Definition demo_flow : Dataflow :=
  mkDataflow "demo" [mkHookup 0 0 1 0; mkHookup 1 0 2 0] [] [] [0; 1; 2]%nat [] None false false.
Definition demo_world : World := mkWorld demo_elements (imap spec_of demo_elements) [demo_flow] ∅.

Lemma spec_of_good W id e : w_elements W !! id = Some e -> (exists s, ElementSpec_mk id e = Ok s) ->
  (forall sd, 0 <= n_ports sd e) ->
  Forall (fun g : ascii * UniGroup => forall sd, ug_side sd (snd g) = seq 0 (length (ug_side sd (snd g)))) (es_uniGroups (spec_of id e)) ->
  good_spec W (spec_of id e).
Proof.
  intros He [s Hs] Hn HG. unfold spec_of in *. rewrite Hs in *. destruct (ElementSpec_mk_ok _ _ _ Hs) as (H1 & H2 & H3).
  split; [done|by apply numbered_prefix|]. exists e. split; [by rewrite H2|]. intros sd. rewrite H3. unfold n_ports in *. by rewrite Z2Nat.id.
Qed.
Lemma demo_good : good_world demo_world.
Proof.
  intros s sp Hs. destruct s as [|[|[|s]]]; [..|done]; injection Hs as <-;
    (apply spec_of_good; [reflexivity|by eexists|by intros []|]); repeat constructor; intros []; reflexivity.
Qed.
Lemma demo_plain s : s ∈ d_elements demo_flow -> plain demo_world s.
Proof. intros Hs. repeat (apply elem_of_cons in Hs as [->|Hs]; [by eexists _, _|]). by apply elem_of_nil in Hs. Qed.
Lemma demo_flat : flat demo_world demo_flow.
Proof. split; [apply Forall_forall; apply demo_plain|]. repeat constructor; apply demo_plain; cbn; set_solver. Qed.
Lemma demo_hookups : Forall (hookup_ok demo_world) (d_hookups demo_flow).
Proof. repeat constructor; try (apply demo_plain; cbn; set_solver); by eexists. Qed.

Lemma demo_uniform : uniform demo_world.
Proof.
  intros s sp sd sd' k k' Hs (c & P & P' & H1 & H2 & H3 & H4). unfold pers. rewrite H1, H3. cbn.
  destruct s as [|[|[|s]]]; [..|done]; injection Hs as <-; vm_compute in H1, H3;
    destruct sd, sd', k as [|[|k]], k' as [|[|k']]; try done; injection H1 as <-; injection H3 as <-; done.
Qed.
Lemma demo_fresh : fresh demo_world demo_flow.
Proof.
  intros s sd k P Hs HP. unfold wport in HP. destruct (w_specs demo_world !! s) as [sp|] eqn:E; [|done]. cbn in HP.
  destruct s as [|[|[|s]]]; [..|done]; injection E as <-; vm_compute in HP; destruct sd, k as [|[|k]]; try done; by injection HP as <-.
Qed.
Lemma demo_full : full demo_world.
Proof. intros i e sd Hi. destruct i as [|[|[|i]]]; [..|done]; injection Hi as <-; by destruct sd. Qed.
Lemma demo_distinct : distinct_elements demo_world demo_flow (fun s => s).
Proof. split; [|done]. repeat constructor; intros []; by eexists. Qed.

Definition result_of {A} (r : res (Z * A)) : option Z := match r with Ok (z, _) => Some z | Fail _ => None end.
Definition world_of (r : res (Z * World)) : World := match r with Ok (_, W) => W | Fail _ => demo_world end.
Definition demo_validated : World := Eval vm_compute in world_of (Dataflow_validate 1 0 demo_world).
Definition demo_installed : World := Eval vm_compute in world_of (install (fun _ => 0) 1 0 demo_world).

Lemma push_pull_decides_witness : Forall (hookup_ok demo_world) (d_hookups demo_flow) /\
  exists r W', check_push_and_pull demo_flow demo_world = Ok (r, W') /\ settles demo_world W' /\ (r = 0 \/ r = -1)
    /\ (r = 0 <-> exists σ, consistent σ (d_hookups demo_flow) demo_world /\ bounded_by σ demo_world).
Proof. split; [exact demo_hookups|]. apply (push_pull_decides demo_flow demo_world demo_good demo_hookups demo_uniform). Defined.

Lemma validate_sound_witness : exists j, forall j', hookups_at demo_flow Inputs 2 0 j' <-> j' = j.
Proof.
  eapply (proj2 (validate_sound 1 0 demo_flow demo_world demo_validated eq_refl eq_refl demo_good demo_flat demo_fresh eq_refl));
    [cbn; set_solver|reflexivity|reflexivity|reflexivity].
Defined.

Lemma install_connects_witness : Forall (fun h => connected demo_installed h (h_from h) (h_to h)) (d_hookups demo_flow).
Proof.
  apply (install_connects (fun _ => 0) 1 0 demo_flow demo_world demo_installed (fun s => s) eq_refl eq_refl eq_refl eq_refl
    demo_good demo_flat demo_full demo_distinct eq_refl).
Defined.

(** An edit of the dataflow without its first hookup that puts a new source in
    place of the old one. *)
Definition edit_flow : Dataflow :=
  mkDataflow "demo" [mkHookup 1 0 2 0] [] [] [0; 1; 2]%nat [] (Some ([3%nat], [mkHookup 3 0 1 0])) false false.
Definition edit_elements : list ElementObj := demo_elements ++ [demo_element "source2" 0 1 "/h" "/-"].
Definition edit_world : World := mkWorld edit_elements (imap spec_of edit_elements) [edit_flow] ∅.
Lemma edit_prunes_witness : exists kept dropped,
  Permutation [0; 1; 2]%nat (kept ++ dropped) /\ [1; 2]%nat ⊆ kept
  /\ exists W' D', DataflowEdit_validate 1 0 edit_world = Ok (0, W') /\ w_flows W' !! 0%nat = Some D'
    /\ d_elements D' = kept ++ [3%nat] /\ d_hookups D' = away dropped [mkHookup 1 0 2 0; mkHookup 3 0 1 0].
Proof.
  destruct (edit_prunes 1 0 edit_flow [3%nat] [mkHookup 3 0 1 0] edit_world) as (kept & dropped & W1 & HP & _ & HK & _ & _ & _ & HV).
  - reflexivity.
  - reflexivity.
  - intros s Hs. cbn in Hs. repeat (apply elem_of_cons in Hs as [->|Hs]; [by do 2 eexists|]). by apply elem_of_nil in Hs.
  - exists kept, dropped. split_and!; [exact HP| |].
    + apply HK. split; [set_solver|]. intros s i e Hs.
      repeat (apply elem_of_cons in Hs as [->|Hs]; [vm_compute; by intros [= <- <-]|]). by apply elem_of_nil in Hs.
    + destruct (DataflowEdit_validate 1 0 edit_world) as [[r W']|] eqn:E; [|by vm_compute in E].
      destruct (HV r W' eq_refl) as (D' & H1 & H2 & H3 & _). exists W', D'. split_and!; [|done|done|done].
      vm_compute in E. injection E as <- <-. reflexivity.
Defined.
