(* ===== verification/Loop.v ===== *)
(** * The event loop (src/p2core/loop.C, loop.h)

    Timers in a set ordered by time and number, callbacks for file descriptors,
    the processes of the scheduler, and the loop that serves them.

    A callback is code of its owner: what it does is an argument, [acts] - the
    calls it makes back into the loop, in order, and the rest of the world.  Time
    is in ticks of boost's clock, [ticks] to the second; reading the clock and
    [pselect] are arguments too.  A timer is named by its number, by which its
    handle is known. *)

From Stdlib Require Import SpecFloat.
From stdpp Require Import countable gmap.
From S2P Require Import Prelude Stl Casts.

Local Open Scope p2_scope.

(** [b_selop] *)
Inductive b_selop := b_selread | b_selwrite.
#[export] Instance b_selop_eq_dec : EqDecision b_selop.
Proof. solve_decision. Defined.
#[export] Instance b_selop_countable : Countable b_selop.
Proof.
  apply (inj_countable' (fun o => match o with b_selread => true | b_selwrite => false end)
    (fun b : bool => if b then b_selread else b_selwrite)). by intros [].
Defined.

(** [timeCBHandleLess], on times and numbers *)
Definition timeCB_less (a b : Z * Z) : bool := (fst a <? fst b) || ((fst a =? fst b) && (snd a <? snd b)).

Section loop.
Context {CB : Type} {W : Type}.

(** ** Data *)

(** [timeCBHandle]; elements are named by numbers. *)
Record timeCBHandle := mkTimeCB { tc_owner : option nat; tc_active : bool; tc_time : Z; tc_callback : CB; tc_ID : Z }.
Definition tc_key (h : timeCBHandle) : Z * Z := (tc_time h, tc_ID h).

(** The global state of the loop: [callbacks], [callbackID],
    [fileDescriptorCallbacks], [readBits], [writeBits], [nextFD]; the timer that
    runs, which is in the set no more but still exists; and the rest of the
    world. *)
Record LoopState := mkLoopState {
  ls_callbacks : list timeCBHandle;
  ls_callbackID : Z;
  ls_running : option Z;
  ls_fds : gmap (nat * b_selop) (CB * option nat);
  ls_readBits : gset nat;
  ls_writeBits : gset nat;
  ls_nextFD : nat;
  ls_world : W
}.

(** What a callback may ask of the loop. *)
Inductive LoopAction :=
  | DelayCB (secondDelay : spec_float) (cb : CB) (owner : option nat)
  | TimeCBRemove (handle : Z)
  | FileDescriptorCB (fd : nat) (op : b_selop) (cb : CB) (owner : option nat)
  | RemoveFileDescriptorCB (fd : nat) (op : b_selop).

Definition with_timers (l : list timeCBHandle) (S : LoopState) : LoopState :=
  mkLoopState l (ls_callbackID S) (ls_running S) (ls_fds S) (ls_readBits S) (ls_writeBits S) (ls_nextFD S) (ls_world S).
Definition with_running (r : option Z) (S : LoopState) : LoopState :=
  mkLoopState (ls_callbacks S) (ls_callbackID S) r (ls_fds S) (ls_readBits S) (ls_writeBits S) (ls_nextFD S) (ls_world S).
Definition with_world (w : W) (S : LoopState) : LoopState :=
  mkLoopState (ls_callbacks S) (ls_callbackID S) (ls_running S) (ls_fds S) (ls_readBits S) (ls_writeBits S) (ls_nextFD S) w.

Context (ticks : Z) (getTime : W -> Z * W) (acts : CB -> LoopState -> list LoopAction * W) (owner_active : W -> nat -> bool).

(** ** Timers *)

(** The duration [delayCB] makes of a number of seconds: the whole seconds, and
    the fraction in ticks. *)
Definition delay_ticks (secondDelay : spec_float) : res Z :=
  let? _ := check (SFleb (S754_zero false) secondDelay) AssertFailed in
  let? secs := int64_of_double secondDelay in
  let? frac := int64_of_double (SFmul 53 1024 (SFsub 53 1024 secondDelay (double_of_int64 secs)) (double_of_int64 ticks)) in
  Ok (secs * ticks + frac).

(** [delayCB] *)
Definition delayCB (secondDelay : spec_float) (cb : CB) (owner : option nat) (S : LoopState) : res (Z * LoopState) :=
  let? dlay := delay_ticks secondDelay in
  let (now, w) := getTime (ls_world S) in
  let handle := mkTimeCB owner true (now + dlay) cb (ls_callbackID S) in
  Ok (ls_callbackID S,
      mkLoopState (set_insert timeCB_less tc_key handle (ls_callbacks S)) (ls_callbackID S + 1) (ls_running S) (ls_fds S)
        (ls_readBits S) (ls_writeBits S) (ls_nextFD S) w).

Definition deactivate (h : timeCBHandle) : timeCBHandle := mkTimeCB (tc_owner h) false (tc_time h) (tc_callback h) (tc_ID h).

(** [timeCBRemove]; the handle of a timer that has run is gone. *)
Definition timeCBRemove (handle : Z) (S : LoopState) : res LoopState :=
  let? _ := check (existsb (fun h => tc_ID h =? handle) (ls_callbacks S) || bool_decide (ls_running S = Some handle)) UndefinedBehaviour in
  Ok (with_timers ((fun h => if tc_ID h =? handle then deactivate h else h) <$> ls_callbacks S) S).

(** ** File descriptors *)

Definition FD_SETSIZE : nat := 1024.
Definition ls_bits (op : b_selop) (S : LoopState) : gset nat := match op with b_selread => ls_readBits S | b_selwrite => ls_writeBits S end.

(** [fileDescriptorCB]; the constructor of the handle wants the descriptor
    positive. *)
Definition fileDescriptorCB (fd : nat) (op : b_selop) (cb : CB) (owner : option nat) (S : LoopState) : res (bool * LoopState) :=
  let? _ := check (0 <? fd)%nat AssertFailed in
  match ls_fds S !! (fd, op) with
  | None =>
      let? _ := check (fd <? FD_SETSIZE)%nat UndefinedBehaviour in
      Ok (true, mkLoopState (ls_callbacks S) (ls_callbackID S) (ls_running S) (<[(fd, op) := (cb, owner)]> (ls_fds S))
        (match op with b_selread => {[fd]} ∪ ls_readBits S | b_selwrite => ls_readBits S end)
        (match op with b_selwrite => {[fd]} ∪ ls_writeBits S | b_selread => ls_writeBits S end)
        (Nat.max (fd + 1) (ls_nextFD S)) (ls_world S))
  | Some _ =>
      Ok (false, mkLoopState (ls_callbacks S) (ls_callbackID S) (ls_running S) (<[(fd, op) := (cb, owner)]> (ls_fds S))
        (ls_readBits S) (ls_writeBits S) (ls_nextFD S) (ls_world S))
  end.

(** [removeFileDescriptorCB] *)
Definition removeFileDescriptorCB (fd : nat) (op : b_selop) (S : LoopState) : res (bool * LoopState) :=
  let? _ := check (0 <? fd)%nat AssertFailed in
  let? _ := check (fd <? FD_SETSIZE)%nat UndefinedBehaviour in
  Ok (bool_decide (is_Some (ls_fds S !! (fd, op))),
      mkLoopState (ls_callbacks S) (ls_callbackID S) (ls_running S) (delete (fd, op) (ls_fds S))
        (match op with b_selread => ls_readBits S ∖ {[fd]} | b_selwrite => ls_readBits S end)
        (match op with b_selwrite => ls_writeBits S ∖ {[fd]} | b_selread => ls_writeBits S end)
        (ls_nextFD S) (ls_world S)).

(** ** Callbacks *)

Definition perform (a : LoopAction) (S : LoopState) : res LoopState :=
  match a with
  | DelayCB d cb o => let? (_, S) := delayCB d cb o S in Ok S
  | TimeCBRemove h => timeCBRemove h S
  | FileDescriptorCB fd op cb o => let? (_, S) := fileDescriptorCB fd op cb o S in Ok S
  | RemoveFileDescriptorCB fd op => let? (_, S) := removeFileDescriptorCB fd op S in Ok S
  end.
Fixpoint perform_all (l : list LoopAction) (S : LoopState) : res LoopState :=
  match l with [] => Ok S | a :: l' => let? S := perform a S in perform_all l' S end.
Definition invoke (cb : CB) (S : LoopState) : res LoopState :=
  let (l, w) := acts cb S in perform_all l (with_world w S).
Definition may_run (owner : option nat) (S : LoopState) : bool :=
  match owner with None => true | Some e => owner_active (ls_world S) e end.

(** ** [timeCBCatchup] *)

(** The iterator of its first loop, as the key of the timer it stands at, [None]
    at the end of the set.  It moves on before the callback runs, so that a timer
    the callback puts before it waits for the next catch-up. *)
Definition before_iter (iter : option (Z * Z)) (h : timeCBHandle) : bool :=
  match iter with None => true | Some k => timeCB_less (tc_key h) k end.
Definition ahead (iter : option (Z * Z)) (l : list timeCBHandle) : list timeCBHandle := List.filter (fun h => negb (before_iter iter h)) l.
Definition iter_at (l : list timeCBHandle) : option (Z * Z) := tc_key <$> head l.
Definition erase_timer (h : timeCBHandle) (l : list timeCBHandle) : list timeCBHandle :=
  List.filter (fun x => negb (bool_decide (tc_key x = tc_key h))) l.

(** The loop; next to the state, the timers whose callbacks ran, each with the time
    read before.  The bound is on the number of timers that expire. *)
Fixpoint expire (fuel : nat) (now : Z) (iter : option (Z * Z)) (S : LoopState) : res (list (timeCBHandle * Z) * LoopState) :=
  match ahead iter (ls_callbacks S) with
  | h :: rest =>
      if tc_time h <=? now then
        match fuel with
        | O => Fail OutOfFuel
        | Datatypes.S fuel =>
            let S := with_running (Some (tc_ID h)) (with_timers (erase_timer h (ls_callbacks S)) S) in
            let runs := tc_active h && may_run (tc_owner h) S in
            let? S := if runs then invoke (tc_callback h) S else Ok S in
            let (now', w) := getTime (ls_world S) in
            let? (fired, S) := expire fuel now' (iter_at rest) (with_running None (with_world w S)) in
            Ok (if runs then (h, now) :: fired else fired, S)
        end
      else Ok ([], S)
  | [] => Ok ([], S)
  end.

Definition timeCBCatchup (fuel : nat) (S : LoopState) : res (list (timeCBHandle * Z) * LoopState) :=
  let (now, w) := getTime (ls_world S) in
  let? (fired, S) := expire fuel now (iter_at (ls_callbacks S)) (with_world w S) in
  Ok (fired, with_timers (List.filter tc_active (ls_callbacks S)) S).

(** ** [fileDescriptorCatchup] *)

(** One of its two loops, over the ready descriptors in ascending order. *)
Fixpoint dispatch (op : b_selop) (ready : list nat) (S : LoopState) : res LoopState :=
  match ready with
  | [] => Ok S
  | fd :: ready' =>
      let? _ := check (0 <? fd)%nat AssertFailed in
      let? (cb, owner) := of_option AssertFailed (ls_fds S !! (fd, op)) in
      let? S := if may_run owner S then invoke cb S else Ok S in
      dispatch op ready' S
  end.

(** [pselect] answers, for a bound on the descriptors, the two sets and a timeout
    in seconds and nanoseconds, the descriptors ready for writing and for
    reading; [None] is its failure. *)
Context (pselect : nat -> gset nat -> gset nat -> Z * Z -> W -> option (list nat * list nat) * W).

Definition fileDescriptorCatchup (waitDuration : Z) (S : LoopState) : res LoopState :=
  let tv_sec := waitDuration ÷ ticks in
  let tv_nsec := Z.rem waitDuration ticks * (10 ^ 9 ÷ ticks) in
  let? _ := check (0 <=? tv_nsec) AssertFailed in
  let (result, w) := pselect (ls_nextFD S) (ls_readBits S) (ls_writeBits S) (tv_sec, tv_nsec) (ls_world S) in
  let S := with_world w S in
  let? (writes, reads) := of_option Exited result in
  let? S := dispatch b_selwrite writes S in
  dispatch b_selread reads S.

(** ** [processCatchup] *)

(** A process may change the state of the loop and the wait it is given. *)
Context (proc : nat -> Z -> LoopState -> res (Z * LoopState)).

Fixpoint process_loop (ps : list nat) (w2 waitDuration : Z) (S : LoopState) : res (Z * LoopState) :=
  match ps with
  | [] => Ok (waitDuration, S)
  | p :: ps' =>
      let? (w2, S) := proc p w2 S in
      process_loop ps' w2 (if w2 <? waitDuration then w2 else waitDuration) S
  end.
Definition processCatchup (ps : list nat) (waitDuration : Z) (S : LoopState) : res (Z * LoopState) :=
  process_loop ps waitDuration waitDuration S.

(** ** [eventLoop] *)

(** How long the loop may wait before the first timer is due. *)
Definition wait_for_timers (now waitDuration : Z) (l : list timeCBHandle) : Z :=
  match l with
  | [] => waitDuration
  | h :: _ => if tc_time h <? now then 0 else if waitDuration >? tc_time h - now then tc_time h - now else waitDuration
  end.

(** One round; the timers that fired. *)
Definition loop_round (fuel : nat) (ps : list nat) (S : LoopState) : res (list (timeCBHandle * Z) * LoopState) :=
  let? (fired, S) := timeCBCatchup fuel S in
  let? (waitDuration, S) := processCatchup ps (10 * ticks) S in
  let (now, w) := getTime (ls_world S) in
  let S := with_world w S in
  let? S := fileDescriptorCatchup (wait_for_timers now waitDuration (ls_callbacks S)) S in
  Ok (fired, S).
Fixpoint eventLoop (rounds fuel : nat) (ps : list nat) (S : LoopState) : res (list (timeCBHandle * Z) * LoopState) :=
  match rounds with
  | O => Ok ([], S)
  | Datatypes.S rounds =>
      let? (fired, S) := loop_round fuel ps S in
      let? (fired', S) := eventLoop rounds fuel ps S in Ok (fired ++ fired', S)
  end.

(** [registerProcess], [removeProcess] *)
Definition registerProcess (p : nat) (ps : list nat) : list nat := ps ++ [p].
Definition removeProcess (p : nat) (ps : list nat) : list nat := filter (fun q => q <> p) ps.

(** [eventLoopInitialize] on the zeroed globals *)
Definition eventLoopInitialize (w : W) : LoopState := mkLoopState [] 0 None ∅ ∅ ∅ 0 w.
End loop.
Arguments timeCBHandle : clear implicits.
Arguments LoopState : clear implicits.
Arguments LoopAction : clear implicits.

(** ** The order of timers *)

#[export] Instance timeCB_less_order : StrictWeakOrder (fun _ => True) timeCB_less.
Proof.
  unfold timeCB_less. split; intros; repeat match goal with x : Z * Z |- _ => destruct x end; cbn in *;
    rewrite ?orb_true_iff, ?orb_false_iff, ?andb_true_iff, ?andb_false_iff, ?Z.ltb_lt, ?Z.ltb_ge, ?Z.eqb_eq, ?Z.eqb_neq in *; lia.
Qed.
Lemma timeCB_less_spec a b : timeCB_less a b = true <-> fst a < fst b \/ (fst a = fst b /\ snd a < snd b).
Proof. unfold timeCB_less. rewrite orb_true_iff, andb_true_iff, !Z.ltb_lt, Z.eqb_eq. tauto. Qed.

Section timers.
Context {CB W : Type} (ticks : Z) (getTime : W -> Z * W) (acts : CB -> LoopState CB W -> list (LoopAction CB) * W)
  (owner_active : W -> nat -> bool).

Local Abbreviation Timer := (timeCBHandle CB).
Local Abbreviation State := (LoopState CB W).
Local Abbreviation sorted := (set_sorted timeCB_less (@tc_key CB)).

(** The timers are sorted, and no number has been given away twice. *)
Record timers_ok (S : State) : Prop := {
  tk_sorted : sorted (ls_callbacks S);
  tk_ids : Forall (fun h => tc_ID h < ls_callbackID S) (ls_callbacks S)
}.

Lemma timers_filter_sorted f (l : list Timer) : sorted l -> sorted (List.filter f l).
Proof.
  unfold set_sorted. induction 1 as [|h l Hs IH Hh]; cbn; [constructor|]. destruct (f h); [|done]. constructor; [done|].
  apply Forall_forall. intros x. rewrite list_elem_of_In, filter_In, <- list_elem_of_In. intros [Hx _]. rewrite Forall_forall in Hh. by apply Hh.
Qed.
Lemma filter_Forall {A} (Q : A -> Prop) f l : Forall Q l -> Forall Q (List.filter f l).
Proof. induction 1; cbn; [constructor|]. destruct (f x); [by constructor|done]. Qed.
Lemma timers_filter f S r : timers_ok S -> timers_ok (with_running r (with_timers (List.filter f (ls_callbacks S)) S)).
Proof. intros [H1 H2]. split; cbn; [by apply timers_filter_sorted|by apply filter_Forall]. Qed.

(** What holds of the world when the clock is read, of the times read, and of the
    times of the timers callbacks make. *)
Class CatchupWorld (inv : W -> Prop) (read new : Z -> Prop) : Prop := {
  cw_read : forall w t w', inv w -> getTime w = (t, w') -> read t /\ inv w';
  cw_acts : forall cb S l w', inv (ls_world S) -> acts cb S = (l, w') -> inv w';
  cw_delays : forall cb S l w' d cb' o z t, acts cb S = (l, w') -> DelayCB d cb' o ∈ l -> delay_ticks ticks d = Ok z -> read t -> new (t + z)
}.
Context (inv : W -> Prop) (read new : Z -> Prop) `{CW : !CatchupWorld inv read new}.

(** The timers after some calls are the old ones, perhaps cancelled, and new
    ones with new numbers. *)
Record grows (S S' : State) : Prop := {
  gr_ids : ls_callbackID S <= ls_callbackID S';
  gr_timers : Forall (fun h => (exists h0, h0 ∈ ls_callbacks S /\ tc_key h0 = tc_key h) \/ (ls_callbackID S <= tc_ID h /\ new (tc_time h)))
    (ls_callbacks S')
}.
Lemma grows_same S S' : ls_callbacks S' = ls_callbacks S -> ls_callbackID S' = ls_callbackID S -> grows S S'.
Proof. intros E1 E2. split; [by rewrite E2|]. rewrite E1. apply Forall_forall. intros h Hh. left. by exists h. Qed.
#[local] Instance grows_refl : Reflexive grows.
Proof. intros S. by apply grows_same. Qed.
#[local] Instance grows_trans : Transitive grows.
Proof.
  intros A B C [A1 A2] [B1 B2]. split; [lia|]. eapply Forall_impl; [exact B2|]. intros h [(h0 & H0 & E)|[Hi Hn]]; [|right; split; [lia|done]].
  rewrite Forall_forall in A2. destruct (A2 h0 H0) as [(h1 & H1 & E1)|[Hi Hn]]; [left; exists h1; split; [done|congruence]|right].
  unfold tc_key in E. by injection E as <- <-.
Qed.

Definition fine (a : LoopAction CB) : Prop :=
  match a with DelayCB d _ _ => forall z t, delay_ticks ticks d = Ok z -> read t -> new (t + z) | _ => True end.

Lemma delayCB_ok d cb o S id S' : delayCB ticks getTime d cb o S = Ok (id, S') -> fine (DelayCB d cb o) -> inv (ls_world S) -> timers_ok S ->
  timers_ok S' /\ inv (ls_world S') /\ grows S S'.
Proof.
  intros E Hd HI [Hs Hi]. unfold delayCB in E. destruct (delay_ticks ticks d) as [z|] eqn:EZ; [|done]. cbn in E.
  destruct (getTime (ls_world S)) as [now w] eqn:ET. destruct (cw_read _ _ _ HI ET) as [Hr HI']. injection E as <- <-.
  set (h := mkTimeCB o true (now + z) cb (ls_callbackID S)).
  assert (Hne : Forall (fun x => equivb timeCB_less (tc_key h) (tc_key x) = false) (ls_callbacks S)).
  { eapply Forall_impl; [exact Hi|]. intros x Hx. unfold equivb. apply andb_false_iff. rewrite !negb_false_iff, !timeCB_less_spec. cbn in *. lia. }
  assert (HP : forall l : list Timer, Forall (fun e => (fun _ : Z * Z => True) (tc_key e)) l) by (intros l; by apply Forall_true).
  assert (Hins : set_insert timeCB_less tc_key h (ls_callbacks S) = insert_at (lower_bound timeCB_less tc_key (tc_key h) (ls_callbacks S)) h (ls_callbacks S)).
  { unfold set_insert. assert (set_find timeCB_less tc_key (tc_key h) (ls_callbacks S) = None) as ->; [|done].
    apply (set_find_None timeCB_less tc_key (fun _ => True)); [done|apply HP|by apply (set_sorted_mset timeCB_less tc_key (fun _ => True))|done]. }
  assert (Hin : forall x, x ∈ set_insert timeCB_less tc_key h (ls_callbacks S) <-> x ∈ ls_callbacks S \/ x = h).
  { intros x. rewrite Hins. unfold insert_at. set (i := lower_bound _ _ _ _).
    assert (x ∈ ls_callbacks S <-> x ∈ take i (ls_callbacks S) \/ x ∈ drop i (ls_callbacks S)) as -> by (by rewrite <- elem_of_app, take_drop).
    rewrite elem_of_app, elem_of_cons. tauto. }
  split_and!; cbn; [|done|].
  - split; cbn; [rewrite Hins; by apply (set_insert_at_sorted timeCB_less tc_key (fun _ => True)); [| apply HP| |]|].
    apply Forall_forall. intros x [Hx| ->]%Hin; [|cbn; lia]. rewrite Forall_forall in Hi. specialize (Hi x Hx). lia.
  - split; cbn; [lia|]. apply Forall_forall. intros x [Hx| ->]%Hin; [left; by exists x|right]. split; [cbn; lia|]. by apply Hd.
Qed.

(** Cancelling a timer changes no key. *)
Lemma timeCBRemove_ok id S S' : timeCBRemove (CB := CB) (W := W) id S = Ok S' -> timers_ok S ->
  timers_ok S' /\ ls_world S' = ls_world S /\ grows S S'.
Proof.
  unfold timeCBRemove. destruct (check _ _); [|done]. cbn. intros [= <-] [Hs Hi].
  set (f := fun h : Timer => if tc_ID h =? id then deactivate h else h).
  assert (Hk : forall h, tc_key (f h) = tc_key h) by (intros h; unfold f; by destruct (_ =? _)).
  split_and!; [split; cbn|done|].
  - unfold set_sorted in *. induction Hs as [|h l Hs IH Hh]; cbn; constructor; [by apply IH; apply Forall_cons in Hi as [_ Hi]|].
    apply Forall_fmap. eapply Forall_impl; [exact Hh|]. intros x. cbn. fold (f h) (f x). by rewrite !Hk.
  - apply Forall_fmap. eapply Forall_impl; [exact Hi|]. intros x Hx. cbn. unfold f. by destruct (_ =? _).
  - split; cbn; [lia|]. apply Forall_fmap, Forall_forall. intros x Hx. left. exists x. split; [done|]. cbn. fold (f x). by rewrite Hk.
Qed.

Lemma perform_ok a S S' : perform ticks getTime a S = Ok S' -> fine a -> inv (ls_world S) -> timers_ok S ->
  timers_ok S' /\ inv (ls_world S') /\ grows S S'.
Proof.
  intros E Hf HI HT. assert (Hsame : ls_callbacks S' = ls_callbacks S -> ls_world S' = ls_world S -> ls_callbackID S' = ls_callbackID S ->
    timers_ok S' /\ inv (ls_world S') /\ grows S S').
  { intros E1 E2 E3. rewrite E2. split_and!; [|done|by apply grows_same]. destruct HT. split; by rewrite ?E1, ?E3. }
  destruct a as [d cb o|id|fd op cb o|fd op]; cbn in E.
  - destruct (delayCB ticks getTime d cb o S) as [[id S1]|] eqn:ED; [|done]. cbn in E. injection E as ->. by apply (delayCB_ok _ _ _ _ _ _ ED).
  - destruct (timeCBRemove_ok _ _ _ E HT) as (H1 & H2 & H3). by rewrite H2.
  - destruct (fileDescriptorCB fd op cb o S) as [[r S1]|] eqn:ED; [|done]. injection E as ->. unfold fileDescriptorCB in ED.
    destruct (check (0 <? fd)%nat AssertFailed); [|done]. destruct (ls_fds S !! (fd, op)); [injection ED as _ <-; by apply Hsame|].
    destruct (check (fd <? FD_SETSIZE)%nat UndefinedBehaviour); [|done]. injection ED as _ <-. by apply Hsame.
  - unfold removeFileDescriptorCB in E. destruct (check (0 <? fd)%nat AssertFailed); [|done].
    destruct (check (fd <? FD_SETSIZE)%nat UndefinedBehaviour); [|done]. injection E as <-. by apply Hsame.
Qed.

Lemma perform_all_ok l : forall S S', perform_all ticks getTime l S = Ok S' -> Forall fine l -> inv (ls_world S) -> timers_ok S ->
  timers_ok S' /\ inv (ls_world S') /\ grows S S'.
Proof.
  induction l as [|a l IH]; intros S S' E HF HI HT; cbn in E; [by injection E as <-|].
  destruct (perform ticks getTime a S) as [S1|] eqn:E1; [|done]. cbn in E. apply Forall_cons in HF as [Ha HF].
  destruct (perform_ok _ _ _ E1 Ha HI HT) as (H1 & H2 & H3). destruct (IH _ _ E HF H2 H1) as (K1 & K2 & K3).
  split_and!; [done|done|by etrans].
Qed.
Lemma invoke_ok cb S S' : invoke ticks getTime acts cb S = Ok S' -> inv (ls_world S) -> timers_ok S ->
  timers_ok S' /\ inv (ls_world S') /\ grows S S'.
Proof.
  unfold invoke. destruct (acts cb S) as [l w] eqn:EA. intros E HI HT.
  destruct (perform_all_ok l (with_world w S) S' E) as (H1 & H2 & [H3 H4]); [|by eapply cw_acts|by destruct HT|by split_and!].
  apply Forall_forall. intros [d cb' o| | |] Hin; cbn; [|done..]. intros z t Hz Ht. by eapply cw_delays.
Qed.

(** ** What a catch-up fires and leaves *)

Lemma ahead_elem iter (l : list Timer) h : h ∈ ahead iter l <-> h ∈ l /\ before_iter iter h = false.
Proof. unfold ahead. by rewrite !list_elem_of_In, filter_In, negb_true_iff. Qed.
Lemma erase_elem (l : list Timer) x h : x ∈ erase_timer h l <-> x ∈ l /\ tc_key x <> tc_key h.
Proof. unfold erase_timer. rewrite !list_elem_of_In, filter_In, negb_true_iff. by rewrite bool_decide_eq_false. Qed.

(** The step of the iterator: the timers before its next position are those that
    were before it; those from there on are after the timer erased. *)
Lemma iter_next iter (l rest : list Timer) h : sorted l -> ahead iter l = h :: rest ->
  (forall x, x ∈ erase_timer h l -> before_iter (iter_at rest) x = true -> before_iter iter x = true)
  /\ (forall x : Timer, before_iter (iter_at rest) x = false -> timeCB_less (tc_key h) (tc_key x) = true).
Proof.
  intros Hs HA. pose proof (timers_filter_sorted (fun h => negb (before_iter iter h)) l Hs) as HS. change (sorted (ahead iter l)) in HS. rewrite HA in HS.
  inversion HS as [|? ? HS' Hh]; subst. split.
  - intros x [Hx Hn]%erase_elem Hb. destruct (before_iter iter x) eqn:Hbx; [done|].
    assert (Hin : x ∈ h :: rest) by (rewrite <- HA; by apply ahead_elem). apply elem_of_cons in Hin as [->|Hin]; [done|].
    destruct rest as [|y rest]; [by apply elem_of_nil in Hin|]. cbn in Hb. inversion HS' as [|? ? _ Hy]; subst.
    apply elem_of_cons in Hin as [->|Hin]; [apply timeCB_less_spec in Hb; lia|]. rewrite Forall_forall in Hy. specialize (Hy x Hin).
    apply timeCB_less_spec in Hb, Hy. lia.
  - intros x. destruct rest as [|y rest]; [done|]. cbn. apply Forall_cons in Hh as [Hy _]. apply timeCB_less_spec in Hy. intros Hx.
    apply timeCB_less_spec. apply not_true_iff_false in Hx. rewrite timeCB_less_spec in Hx. cbn in *. lia.
Qed.

(** The timers a catch-up leaves: late ones, and new ones. *)
Definition left_over (id now : Z) (S : State) : Prop :=
  Forall (fun h => now < tc_time h \/ (id <= tc_ID h /\ new (tc_time h))) (ls_callbacks S).
Definition passed_new (id : Z) (iter : option (Z * Z)) (S : State) : Prop :=
  id <= ls_callbackID S /\ forall h, h ∈ ls_callbacks S -> before_iter iter h = true -> id <= tc_ID h /\ new (tc_time h).

Lemma passed_grows id iter S S' : passed_new id iter S -> grows S S' -> passed_new id iter S'.
Proof.
  intros [Hi Hp] [Gi Gt]. split; [lia|]. intros h Hh Hb. rewrite Forall_forall in Gt. destruct (Gt h Hh) as [(h0 & H0 & E)|[H1 H2]]; [|split; [lia|done]].
  destruct (Hp h0 H0) as [K1 K2]; [unfold before_iter in *; by rewrite E|]. unfold tc_key in E. by injection E as <- <-.
Qed.
Lemma iter_stops id now iter S : timers_ok S -> passed_new id iter S ->
  match ahead iter (ls_callbacks S) with h :: _ => now < tc_time h | [] => True end -> left_over id now S.
Proof.
  intros [Hs _] [_ Hp] Ha. apply Forall_forall. intros x Hx. destruct (before_iter iter x) eqn:Hb; [right; by apply Hp|left].
  assert (Hin : x ∈ ahead iter (ls_callbacks S)) by (by apply ahead_elem).
  pose proof (timers_filter_sorted (fun h => negb (before_iter iter h)) _ Hs) as HS. change (sorted (ahead iter (ls_callbacks S))) in HS.
  destruct (ahead iter (ls_callbacks S)) as [|h rest]; [by apply elem_of_nil in Hin|]. inversion HS as [|? ? _ Hh]; subst.
  apply elem_of_cons in Hin as [->|Hin]; [done|]. rewrite Forall_forall in Hh. specialize (Hh x Hin). apply timeCB_less_spec in Hh. cbn in Hh. lia.
Qed.

Lemma expire_ok id fuel : forall now iter S fired S', expire ticks getTime acts owner_active fuel now iter S = Ok (fired, S') ->
  timers_ok S -> inv (ls_world S) -> read now -> passed_new id iter S ->
  timers_ok S' /\ sorted (fst <$> fired) /\ Forall (fun x : Timer * Z => tc_time (fst x) <= snd x) fired
  /\ Forall (fun x : Timer * Z => before_iter iter (fst x) = false) fired /\ exists now', read now' /\ left_over id now' S'.
Proof.
  induction fuel as [|fuel IH]; intros now iter S fired S' E HT HI Hnow Hp; cbn in E; pose proof (iter_stops id now iter S HT Hp) as Hstop;
    destruct (ahead iter (ls_callbacks S)) as [|h rest] eqn:EC.
  1, 3: injection E as <- <-; split_and!; [done|constructor|constructor|constructor|exists now; split; [done|by apply Hstop]].
  all: destruct (Z.leb_spec (tc_time h) now) as [Hle|Hgt].
  2, 4: injection E as <- <-; split_and!; [done|constructor|constructor|constructor|exists now; split; [done|by apply Hstop]].
  1: done.
  destruct (iter_next iter _ _ _ (tk_sorted _ HT) EC) as [Hpass Hnext].
  set (S1 := with_running (Some (tc_ID h)) (with_timers (erase_timer h (ls_callbacks S)) S)) in *.
  set (runs := tc_active h && may_run owner_active (tc_owner h) S1) in *.
  assert (HT1 : timers_ok S1) by (by apply timers_filter).
  assert (HP1 : passed_new id (iter_at rest) S1).
  { destruct Hp as [Hi Hp]. split; [done|]. intros x Hx Hb. apply Hp; [by apply erase_elem in Hx as [? _]|by apply Hpass]. }
  assert (exists S2, (if runs then invoke ticks getTime acts (tc_callback h) S1 else Ok S1) = Ok S2 /\ timers_ok S2 /\ inv (ls_world S2) /\ grows S1 S2)
    as (S2 & E2 & HT2 & HI2 & HG2).
  { destruct runs; [|by exists S1]. destruct (invoke ticks getTime acts (tc_callback h) S1) as [S2|] eqn:EI; [|done]. exists S2. split; [done|].
    by apply (invoke_ok _ _ _ EI). }
  rewrite E2 in E. cbn in E. destruct (getTime (ls_world S2)) as [t w] eqn:ET. destruct (cw_read _ _ _ HI2 ET) as [Hr HI3].
  destruct (expire ticks getTime acts owner_active fuel t (iter_at rest) _) as [[f S4]|] eqn:EX; [|done]. cbn in E. injection E as <- <-.
  destruct (IH _ _ _ _ _ EX) as (K1 & K2 & K3 & K4 & K5); [by destruct HT2|done|done|exact (passed_grows _ _ _ _ HP1 HG2)|].
  assert (Hh : before_iter iter h = false) by (apply (ahead_elem iter (ls_callbacks S)); rewrite EC; apply list_elem_of_here).
  assert (K4' : Forall (fun x : Timer * Z => before_iter iter (fst x) = false) f).
  { eapply Forall_impl; [exact K4|]. intros x Hx. specialize (Hnext _ Hx). destruct iter as [k|]; [|done]. cbn in *.
    apply timeCB_less_spec in Hnext. apply not_true_iff_false. apply not_true_iff_false in Hh. rewrite timeCB_less_spec in *. cbn in *. lia. }
  split_and!; [done| | | |done]; (destruct runs; [|done]); constructor; try done.
  apply Forall_fmap. eapply Forall_impl; [exact K4|]. intros x Hx. by apply Hnext.
Qed.

Lemma catchup_leaves (fuel : nat) (S S' : State) (fired : list (Timer * Z)) : timers_ok S -> inv (ls_world S) ->
  timeCBCatchup ticks getTime acts owner_active fuel S = Ok (fired, S') ->
  sorted (fst <$> fired) /\ Forall (fun x => tc_time (fst x) <= snd x) fired /\ timers_ok S'
  /\ exists now, read now
    /\ Forall (fun h => tc_active h = true /\ (now < tc_time h \/ (ls_callbackID S <= tc_ID h /\ new (tc_time h)))) (ls_callbacks S').
Proof.
  intros HT HI. unfold timeCBCatchup. destruct (getTime (ls_world S)) as [now w] eqn:ET. destruct (cw_read _ _ _ HI ET) as [Hr HI'].
  destruct (expire _ _ _ _ _ _ _ _) as [[f S1]|] eqn:EX; [|done]. cbn. intros [= <- <-].
  destruct (expire_ok (ls_callbackID S) _ _ _ _ _ _ EX) as (H1 & H2 & H3 & _ & now' & H4 & H5); [by destruct HT|done|done| |].
  { split; [done|]. intros h Hh Hb. exfalso. pose proof (tk_sorted _ HT) as Hs. cbn in Hh. unfold iter_at in Hb.
    destruct (ls_callbacks S) as [|h0 l]; [by apply elem_of_nil in Hh|]. cbn in Hb. inversion Hs as [|? ? _ Hl]; subst. apply timeCB_less_spec in Hb.
    apply elem_of_cons in Hh as [->|Hh]; [lia|]. rewrite Forall_forall in Hl. specialize (Hl h Hh). apply timeCB_less_spec in Hl. lia. }
  split_and!; [done|done|by apply (timers_filter tc_active S1 (ls_running S1))|]. exists now'. split; [done|].
  apply Forall_forall. intros x. cbn. rewrite list_elem_of_In, filter_In, <- list_elem_of_In. intros [Hx Ha].
  unfold left_over in H5. rewrite Forall_forall in H5. split; [done|by apply H5].
Qed.
End timers.

(** A clock that does not run backwards: [clock] bounds what has been read, and
    the delays callbacks ask for are not negative. *)
Class MonotoneClock {CB W} (ticks : Z) (getTime : W -> Z * W) (acts : CB -> LoopState CB W -> list (LoopAction CB) * W) (clock : W -> Z) : Prop := {
  mc_read : forall w t w', getTime w = (t, w') -> clock w <= t <= clock w';
  mc_acts : forall cb S l w', acts cb S = (l, w') -> clock (ls_world S) <= clock w';
  mc_delays : forall cb S l w' d cb' o z, acts cb S = (l, w') -> DelayCB d cb' o ∈ l -> delay_ticks ticks d = Ok z -> 0 <= z
}.
#[local] Instance monotone_world {CB W} ticks getTime (acts : CB -> LoopState CB W -> list (LoopAction CB) * W) clock c
  `{MC : !MonotoneClock ticks getTime acts clock} : CatchupWorld ticks getTime acts (fun w => c <= clock w) (fun t => c <= t) (fun t => c <= t).
Proof.
  split.
  - intros w t w' Hw E. pose proof (mc_read _ _ _ E). lia.
  - intros cb S l w' HS E. pose proof (mc_acts _ _ _ _ E). lia.
  - intros cb S l w' d cb' o z t E Hin Hz Ht. pose proof (mc_delays _ _ _ _ _ _ _ _ E Hin Hz). lia.
Qed.


(** ** A catch-up ends *)

(** The clock stays within a window as long as the world satisfies [P], which
    the callbacks preserve; the delays they ask for reach beyond the window. *)
Class ShortCatchup {CB W} (ticks : Z) (getTime : W -> Z * W) (acts : CB -> LoopState CB W -> list (LoopAction CB) * W)
    (P : W -> Prop) (first last : Z) : Prop := {
  sc_read : forall w t w', P w -> getTime w = (t, w') -> first <= t <= last /\ P w';
  sc_acts : forall cb S l w', P (ls_world S) -> acts cb S = (l, w') -> P w';
  sc_delays : forall cb S l w' d cb' o z, acts cb S = (l, w') -> DelayCB d cb' o ∈ l -> delay_ticks ticks d = Ok z -> last < first + z
}.

Section termination.
Context {CB W : Type} (ticks : Z) (getTime : W -> Z * W) (acts : CB -> LoopState CB W -> list (LoopAction CB) * W)
  (owner_active : W -> nat -> bool) (P : W -> Prop) (first last : Z) `{SC : !ShortCatchup ticks getTime acts P first last}.

Definition due (l : list (timeCBHandle CB)) : nat := length (List.filter (fun h => tc_time h <=? last) l).

Lemma due_app l l' : due (l ++ l') = (due l + due l')%nat.
Proof. unfold due. induction l as [|h l IH]; [done|]. cbn. destruct (tc_time h <=? last); cbn; by rewrite IH. Qed.
Lemma due_insert h l : last < tc_time h -> (due (set_insert timeCB_less tc_key h l) <= due l)%nat.
Proof.
  intros Hh. unfold set_insert. destruct (set_find _ _ _ _); [done|]. unfold insert_at. set (i := lower_bound _ _ _ _).
  assert (due l = due (take i l) + due (drop i l))%nat as -> by (by rewrite <- due_app, take_drop).
  rewrite due_app. change (h :: drop i l) with ([h] ++ drop i l). rewrite due_app. unfold due at 2. cbn.
  destruct (Z.leb_spec (tc_time h) last); [lia|]. cbn. lia.
Qed.

Definition never_fails_out {A} (r : res A) (Q : A -> Prop) : Prop := match r with Ok a => Q a | Fail f => f <> OutOfFuel end.

Lemma perform_due a (S : LoopState CB W) : P (ls_world S) ->
  match a with DelayCB d _ _ => forall z, delay_ticks ticks d = Ok z -> last < first + z | _ => True end ->
  never_fails_out (perform ticks getTime a S) (fun S' => P (ls_world S') /\ (due (ls_callbacks S') <= due (ls_callbacks S))%nat).
Proof.
  intros HP Ha. destruct a as [d cb o|id|fd op cb o|fd op]; cbn [perform].
  - unfold delayCB. destruct (delay_ticks ticks d) as [z|f] eqn:ED; cbn.
    + destruct (getTime (ls_world S)) as [t w] eqn:ET. cbn. destruct (sc_read _ _ _ HP ET) as [Ht HP']. split; [done|].
      apply due_insert. cbn. specialize (Ha z eq_refl). lia.
    + intros ->. unfold delay_ticks in ED. destruct (check _ _) eqn:E1 in ED; cbn in ED; [|unfold check in E1; destruct (SFleb _ _); simplify_eq].
      destruct (int64_of_double d) as [s|f] eqn:E2 in ED; cbn in ED.
      * destruct (int64_of_double _) as [s2|f2] eqn:E3 in ED; cbn in ED; [done|]. injection ED as ->. unfold int64_of_double in E3. repeat case_match; simplify_eq.
      * injection ED as ->. unfold int64_of_double in E2. repeat case_match; simplify_eq.
  - unfold timeCBRemove. destruct (_ || _); cbn; [|done]. split; [done|]. unfold due. induction (ls_callbacks S) as [|h l IH]; [done|].
    cbn. destruct (tc_ID h =? id); cbn; destruct (tc_time h <=? last); cbn; lia.
  - unfold fileDescriptorCB. destruct (0 <? fd)%nat; cbn [check rbind]; [|done]. destruct (ls_fds S !! (fd, op)); cbn [rbind]; [done|].
    destruct (fd <? FD_SETSIZE)%nat; cbn [check rbind]; [|done]. done.
  - unfold removeFileDescriptorCB. destruct (0 <? fd)%nat; cbn [check rbind]; [|done]. destruct (fd <? FD_SETSIZE)%nat; cbn [check rbind]; [|done]. done.
Qed.
Lemma perform_all_due l : forall S : LoopState CB W, P (ls_world S) ->
  Forall (fun a => match a with DelayCB d _ _ => forall z, delay_ticks ticks d = Ok z -> last < first + z | _ => True end) l ->
  never_fails_out (perform_all ticks getTime l S) (fun S' => P (ls_world S') /\ (due (ls_callbacks S') <= due (ls_callbacks S))%nat).
Proof.
  induction l as [|a l IH]; intros S HP HF; [done|]. apply Forall_cons in HF as [Ha HF]. cbn.
  pose proof (perform_due a S HP Ha) as H1. destruct (perform ticks getTime a S) as [S1|f]; [|done]. cbn in *. destruct H1 as [HP1 H1].
  specialize (IH S1 HP1 HF). destruct (perform_all ticks getTime l S1) as [S2|f]; [|done]. cbn in *. destruct IH. split; [done|lia].
Qed.

#[local] Instance short_world : CatchupWorld ticks getTime acts P (fun t => first <= t <= last) (fun t => last < t).
Proof.
  split; [exact sc_read|exact sc_acts|]. intros cb S l w' d cb' o z t E Hin Hz Ht. pose proof (sc_delays _ _ _ _ _ _ _ _ E Hin Hz). lia.
Qed.

Lemma due_erase h l : h ∈ l -> tc_time h <= last -> (due (erase_timer h l) < due l)%nat.
Proof.
  intros Hin Hh. assert (HE : forall l, (due (erase_timer h l) <= due l)%nat).
  { clear. induction l as [|x l IH]; [done|]. unfold erase_timer, due in *. cbn. destruct (bool_decide _); cbn; destruct (tc_time x <=? last); cbn; lia. }
  induction l as [|x l IH]; [by apply elem_of_nil in Hin|]. apply elem_of_cons in Hin as [<-|Hin].
  - specialize (HE l). unfold erase_timer, due in *. cbn. rewrite bool_decide_true by done. cbn. rewrite (proj2 (Z.leb_le _ _) Hh). cbn. lia.
  - specialize (IH Hin). unfold erase_timer, due in *. cbn. destruct (bool_decide _); cbn; destruct (tc_time x <=? last); cbn; lia.
Qed.

Lemma expire_ends fuel : forall now iter (S : LoopState CB W), P (ls_world S) -> now <= last -> (due (ls_callbacks S) <= fuel)%nat ->
  expire ticks getTime acts owner_active fuel now iter S <> Fail OutOfFuel.
Proof.
  induction fuel as [|fuel IH]; intros now iter S HP Hn Hd; cbn; destruct (ahead iter (ls_callbacks S)) as [|h rest] eqn:EC; [done| |done|];
    destruct (Z.leb_spec (tc_time h) now) as [Hle|]; try done;
    assert (Hin : h ∈ ls_callbacks S) by (eapply ahead_elem; rewrite EC; apply list_elem_of_here);
    pose proof (due_erase h (ls_callbacks S) Hin ltac:(lia)) as Hde; [lia|].
  set (S1 := with_running (Some (tc_ID h)) (with_timers (erase_timer h (ls_callbacks S)) S)) in *.
  assert (HR : never_fails_out (if tc_active h && may_run owner_active (tc_owner h) S1 then invoke ticks getTime acts (tc_callback h) S1 else Ok S1)
    (fun S' => P (ls_world S') /\ (due (ls_callbacks S') <= due (erase_timer h (ls_callbacks S)))%nat)).
  { destruct (_ && _); [|done]. unfold invoke. destruct (acts (tc_callback h) S1) as [l w] eqn:EA.
    apply (perform_all_due l (with_world w S1)); [by eapply (sc_acts _ S1)|]. apply Forall_forall. intros [d cb o| | |] Hd'; [|done..].
    intros z. by eapply sc_delays. }
  destruct (if tc_active h && may_run owner_active (tc_owner h) S1 then _ else _) as [S2|f]; cbn in HR; [|by intros [= ->]]. cbn.
  destruct HR as [HP2 HD2]. destruct (getTime (ls_world S2)) as [t w] eqn:ET. destruct (sc_read _ _ _ HP2 ET) as [Ht HP3].
  specialize (IH t (iter_at rest) (with_running None (with_world w S2)) HP3). destruct (expire _ _ _ _ fuel t _ _) as [[f S4]|f]; [done|]. cbn.
  intros [= ->]. apply IH; [lia|change (due (ls_callbacks S2) <= fuel)%nat; lia|done].
Qed.

End termination.

(** ** The wait *)

Lemma process_loop_min {CB W} (proc : nat -> Z -> LoopState CB W -> res (Z * LoopState CB W)) ps : forall w2 wait S d S',
  process_loop proc ps w2 wait S = Ok (d, S') -> d <= wait /\ ((forall p w S1 w' S2, 0 <= w -> proc p w S1 = Ok (w', S2) -> 0 <= w') -> 0 <= w2 -> 0 <= wait -> 0 <= d).
Proof.
  induction ps as [|p ps IH]; intros w2 wait S d S'; cbn; [intros [= <- <-]; split; [lia|intros _ _ H; exact H]|].
  destruct (proc p w2 S) as [[w2' S1]|] eqn:E; [|done]. cbn. intros H. apply IH in H as [H1 H2]. revert H1 H2. destruct (Z.ltb_spec w2' wait); intros H1 H2.
  - split; [lia|]. intros Hp Hw Hwait. apply H2; [exact Hp|exact (Hp _ _ _ _ _ Hw E)|exact (Hp _ _ _ _ _ Hw E)].
  - split; [lia|]. intros Hp Hw Hwait. apply H2; [exact Hp|exact (Hp _ _ _ _ _ Hw E)|exact Hwait].
Qed.

(** The loop waits no longer than its ten seconds, than any process allows, and
    than the time to its first timer; it does not wait at all when that has
    passed, and the wait is never negative. *)
Theorem wait_meets_deadline {CB W} (proc : nat -> Z -> LoopState CB W -> res (Z * LoopState CB W)) (ps : list nat) (ticks now d : Z)
    (S S' : LoopState CB W) :
  0 < ticks -> (forall p w S1 w' S2, 0 <= w -> proc p w S1 = Ok (w', S2) -> 0 <= w') -> timers_ok S' ->
  processCatchup proc ps (10 * ticks) S = Ok (d, S') ->
  let wait := wait_for_timers now d (ls_callbacks S') in
  0 <= wait <= d /\ d <= 10 * ticks /\ Forall (fun h => wait <= Z.max 0 (tc_time h - now)) (ls_callbacks S').
Proof.
  intros Ht Hp HT E. unfold processCatchup in E. apply process_loop_min in E as [E1 E2]. specialize (E2 Hp ltac:(lia) ltac:(lia)).
  destruct HT as [Hs _]. unfold wait_for_timers. destruct (ls_callbacks S') as [|h l]; [split_and!; [lia|lia|lia|constructor]|].
  inversion Hs as [|? ? _ Hh]; subst.
  assert (Hw : forall w, w <= Z.max 0 (tc_time h - now) -> Forall (fun h => w <= Z.max 0 (tc_time h - now)) (h :: l)).
  { intros w Hw. constructor; [done|]. eapply Forall_impl; [exact Hh|]. intros x. cbn. rewrite timeCB_less_spec. cbn. lia. }
  destruct (Z.ltb_spec (tc_time h) now).
  - split_and!; [lia|lia|lia|]. apply Hw. lia.
  - destruct (Z.gtb_spec d (tc_time h - now)); (split_and!; [lia|lia|lia|]; apply Hw; lia).
Qed.

(** ** Descriptors and their bits *)

Section descriptors.
Context {CB W : Type} (ticks : Z) (getTime : W -> Z * W) (acts : CB -> LoopState CB W -> list (LoopAction CB) * W)
  (owner_active : W -> nat -> bool).

(** A bit is set exactly for the descriptors that have a callback, and these are
    in range. *)
Record fds_ok (S : LoopState CB W) : Prop := {
  fk_bits : forall fd op, fd ∈ ls_bits op S <-> is_Some (ls_fds S !! (fd, op));
  fk_range : forall fd op, is_Some (ls_fds S !! (fd, op)) -> (0 < fd < ls_nextFD S)%nat /\ (fd < FD_SETSIZE)%nat
}.

Lemma fds_same (S S' : LoopState CB W) : ls_fds S' = ls_fds S -> ls_readBits S' = ls_readBits S -> ls_writeBits S' = ls_writeBits S ->
  ls_nextFD S' = ls_nextFD S -> fds_ok S -> fds_ok S'.
Proof. intros E1 E2 E3 E4 [H1 H2]. split; intros fd op; [rewrite E1, <- H1; destruct op; cbn; by rewrite ?E2, ?E3|rewrite E1, E4; exact (H2 fd op)]. Qed.

Lemma perform_fds a (S S' : LoopState CB W) : perform ticks getTime a S = Ok S' -> fds_ok S -> fds_ok S'.
Proof.
  intros E HS. destruct a as [d cb o|id|fd op cb o|fd op]; cbn [perform] in E.
  - unfold delayCB in E. destruct (delay_ticks ticks d) as [z|]; [|done]. cbn in E. destruct (getTime (ls_world S)). injection E as <-. by apply (fds_same S).
  - unfold timeCBRemove in E. destruct (check _ _); [|done]. injection E as <-. by apply (fds_same S).
  - unfold fileDescriptorCB in E. destruct (Nat.ltb_spec 0 fd) as [H0|]; cbn [check rbind] in E; [|done]. destruct HS as [H1 H2].
    assert (HF : forall fd' op', is_Some (<[(fd, op):=(cb, o)]> (ls_fds S) !! (fd', op')) <-> (fd', op') = (fd, op) \/ is_Some (ls_fds S !! (fd', op'))).
    { intros fd' op'. destruct (decide ((fd', op') = (fd, op))) as [->|Hn].
      - rewrite lookup_insert_eq. split; [by left|by eexists].
      - rewrite lookup_insert_ne by done. tauto. }
    destruct (ls_fds S !! (fd, op)) as [x|] eqn:Ex.
    + cbn [rbind] in E. injection E as <-. split; cbn [ls_fds ls_nextFD]; intros fd' op'; rewrite HF.
      * destruct op'; unfold ls_bits; cbn; [change (ls_readBits S) with (ls_bits b_selread S)|change (ls_writeBits S) with (ls_bits b_selwrite S)];
          rewrite H1; (split; [by right|]); (intros [[= -> <-]|?]; [by rewrite Ex|done]).
      * intros [[= -> ->]|Hs]; [apply (H2 fd op); by rewrite Ex|by apply (H2 fd' op')].
    + destruct (Nat.ltb_spec fd FD_SETSIZE) as [Hfd|]; cbn [check rbind] in E; [|done]. injection E as <-. split; cbn [ls_fds ls_nextFD]; intros fd' op'; rewrite HF.
      * rewrite <- H1. destruct op, op'; unfold ls_bits; cbn; set_solver.
      * intros [[= -> ->]|Hs]; [split; [lia|done]|]. destruct (H2 _ _ Hs). split; [lia|done].
  - unfold removeFileDescriptorCB in E. destruct (Nat.ltb_spec 0 fd) as [H0|]; cbn [check rbind] in E; [|done].
    destruct (Nat.ltb_spec fd FD_SETSIZE) as [Hfd|]; cbn [check rbind] in E; [|done]. destruct HS as [H1 H2]. injection E as <-.
    assert (HF : forall fd' op', is_Some (delete (fd, op) (ls_fds S) !! (fd', op')) <-> (fd', op') <> (fd, op) /\ is_Some (ls_fds S !! (fd', op'))).
    { intros fd' op'. destruct (decide ((fd', op') = (fd, op))) as [->|Hn].
      - rewrite lookup_delete_eq. split; [by intros []|by intros []].
      - rewrite lookup_delete_ne by done. tauto. }
    split; cbn [ls_fds ls_nextFD]; intros fd' op'; rewrite HF.
    + rewrite <- H1. destruct op, op'; unfold ls_bits; cbn; set_solver.
    + intros [_ Hs]. by apply (H2 fd' op').
Qed.
Lemma perform_all_fds l : forall S S' : LoopState CB W, perform_all ticks getTime l S = Ok S' -> fds_ok S -> fds_ok S'.
Proof.
  induction l as [|a l IH]; intros S S' E HS; cbn in E; [by injection E as <-|].
  destruct (perform ticks getTime a S) as [S1|] eqn:E1; [|done]. cbn in E. eapply IH; [exact E|]. by eapply perform_fds.
Qed.
Lemma invoke_fds cb (S S' : LoopState CB W) : invoke ticks getTime acts cb S = Ok S' -> fds_ok S -> fds_ok S'.
Proof. unfold invoke. destruct (acts cb S) as [l w]. intros E HS. eapply perform_all_fds; [exact E|]. by apply (fds_same S). Qed.
Lemma fds_initial w : fds_ok (eventLoopInitialize (CB := CB) w).
Proof. split; [|by intros fd op []]. intros fd []; cbn; (split; [set_solver|by intros []]). Qed.

End descriptors.

(** ** Witnesses *)

(** A world that is a clock; callback 0 asks for callback 1 a second later,
    callback 2 stops watching descriptor 5, others do nothing. *)
Definition demo_ticks : Z := 10 ^ 6.
Definition one_second : spec_float := double_of_int64 1.
Definition demo_acts (cb : nat) (S : LoopState nat Z) : list (LoopAction nat) * Z :=
  (match cb with
   | O => [DelayCB one_second 1%nat None]
   | 2%nat => [RemoveFileDescriptorCB 5 b_selread]
   | _ => []
   end, ls_world S).
Definition tick (w : Z) : Z * Z := (w, w + 1).
Definition demo_timers : list (timeCBHandle nat) := [mkTimeCB None true 5 0%nat 0; mkTimeCB None true 5 1%nat 1; mkTimeCB None true 90 1%nat 2].
Definition demo_loop : LoopState nat Z := mkLoopState demo_timers 3 None ∅ ∅ ∅ 0 6.

Lemma one_second_ticks z : delay_ticks demo_ticks one_second = Ok z -> z = 10 ^ 6.
Proof. intros H. vm_compute in H. injection H as <-. done. Qed.
#[export] Instance demo_clock : MonotoneClock demo_ticks tick demo_acts id.
Proof.
  split.
  - intros w t w' [= <- <-]. cbn. lia.
  - intros cb S l w' [= _ <-]. cbn. lia.
  - intros cb S l w' d cb' o z [= <- _] Hin Hz. destruct cb as [|[|[|cb]]]; cbn in Hin;
      [apply list_elem_of_singleton in Hin; injection Hin as -> -> ->; apply one_second_ticks in Hz; lia
      |by apply elem_of_nil in Hin|by apply list_elem_of_singleton in Hin|by apply elem_of_nil in Hin].
Qed.
#[export] Instance demo_short : ShortCatchup demo_ticks (fun w : Z => (w, w)) demo_acts (fun w => w = 6) 6 6.
Proof.
  split.
  - intros w t w' -> [= <- <-]. done.
  - intros cb S l w' HS [= _ <-]. done.
  - intros cb S l w' d cb' o z [= <- _] Hin Hz. destruct cb as [|[|[|cb]]]; cbn in Hin;
      [apply list_elem_of_singleton in Hin; injection Hin as -> -> ->; apply one_second_ticks in Hz; lia
      |by apply elem_of_nil in Hin|by apply list_elem_of_singleton in Hin|by apply elem_of_nil in Hin].
Qed.
Lemma demo_timers_ok : timers_ok demo_loop.
Proof. split; cbn; repeat constructor. Qed.

Definition fired_of {A B} (r : res (A * B)) (d : A * B) : A * B := match r with Ok x => x | Fail _ => d end.
Definition demo_caught : list (timeCBHandle nat * Z) * LoopState nat Z :=
  Eval vm_compute in fired_of (timeCBCatchup demo_ticks tick demo_acts (fun _ _ => true) 5 demo_loop) ([], demo_loop).



(** A callback that asks to be called again at once is called once in a catch-up:
    its new timer, due already, is left for the next. *)
Definition again_acts (cb : nat) (S : LoopState nat Z) : list (LoopAction nat) * Z := ([DelayCB (S754_zero false) cb None], ls_world S).
Lemma due_timer_left : (match timeCBCatchup demo_ticks (fun w : Z => (w, w)) again_acts (fun _ _ => true) 9
    (mkLoopState [mkTimeCB None true 5 0%nat 0] 1 None ∅ ∅ ∅ 0 6) with
  | Ok (fired, L) => Some (tc_ID <$> (fst <$> fired), tc_key <$> ls_callbacks L)
  | Fail _ => None
  end) = Some ([0], [(6, 1)]).
Proof. vm_compute. reflexivity. Qed.

Lemma wait_meets_deadline_witness : wait_for_timers 2 10 (ls_callbacks demo_loop) = 3 /\
  0 <= wait_for_timers 2 10 (ls_callbacks demo_loop) <= 10.
Proof.
  split; [reflexivity|]. eapply (wait_meets_deadline (fun _ w S => Ok (w, S)) [0%nat] 1 2 10 demo_loop demo_loop);
    [lia|by intros ? ? ? ? ? ? [= <- <-]|exact demo_timers_ok|reflexivity].
Defined.

Definition demo_watching (cb : nat) : LoopState nat Z :=
  match perform_all demo_ticks tick [FileDescriptorCB 4 b_selread cb None; FileDescriptorCB 5 b_selread 1%nat None] (eventLoopInitialize 0) with
  | Ok L => L
  | Fail _ => demo_loop
  end.


(** A callback that takes away another descriptor which pselect has reported too:
    the loop looks for it and fails. *)
Lemma removal_during_dispatch_asserts :
  dispatch demo_ticks tick demo_acts (fun _ _ => true) b_selread [4; 5]%nat (demo_watching 2) = Fail AssertFailed.
Proof. vm_compute. reflexivity. Qed.

(** Descriptor 0 passes the first assertion of [fileDescriptorCB] and fails that
    of the handle. *)
Lemma descriptor_zero_refused {CB W} op cb o (S : LoopState CB W) : fileDescriptorCB 0 op cb o S = Fail AssertFailed.
Proof. reflexivity. Qed.
