(* ===== verification/Flow.v ===== *)
(** * Elements that merge, split and copy flows (src/elements)

    [RoundRobin] and [DRoundRobin] pull from several inputs in turn, [Mux]
    merges several pushers, [Duplicate], [DuplicateConservative] and
    [DDuplicateConservative] copy a tuple to all outputs, [Demux],
    [DemuxConservative] and [DDemux] route it by a key field.  All of them keep
    flags for the neighbours that have blocked and the callback of the
    neighbour they have blocked themselves.

    What a neighbour answers is a function of its port: each is asked at most
    once by one operation.  The ports of the elements whose number of ports is
    fixed are attached. *)

From S2P Require Import Prelude Ids Stl Values Tuples Casts Elements.

Local Open Scope p2_scope.

(** [std::vector::operator[]]: out of range is undefined. *)
Definition vec_at {A} (l : list A) (i : nat) : res A := of_option UndefinedBehaviour (l !! i).

Section flow.
Context {CB : Type}.

(** ** [RoundRobin] *)

Record RoundRobin := mkRR {
  rr_n : nat;
  rr_pull_cb : option CB;
  rr_flags : list bool;
  rr_count : Z;
  rr_next : nat
}.

(** [RoundRobin::RoundRobin] *)
Definition RoundRobin_mk (n : nat) : RoundRobin := mkRR n None (replicate n false) 0 0.

(** [RoundRobin::unblock] *)
Definition RoundRobin_unblock (input : nat) (R : RoundRobin) : res (list CB * RoundRobin) :=
  let? _ := check (input <=? rr_n R)%nat AssertFailed in
  let? b := vec_at (rr_flags R) input in
  let? R :=
    if b : bool then
      let? _ := check (0 <? rr_count R) AssertFailed in
      Ok (mkRR (rr_n R) (rr_pull_cb R) (<[input := false]> (rr_flags R)) (u32 (rr_count R - 1)) (rr_next R))
    else Ok R in
  Ok (option_list (rr_pull_cb R), mkRR (rr_n R) None (rr_flags R) (rr_count R) (rr_next R)).

(** The loop of [RoundRobin::pull], [k] iterations before its end; [ans] gives
    the answer of each input.  A tuple comes with the input it was pulled
    from. *)
Fixpoint RoundRobin_loop (ans : nat -> option tuple) (cb : option CB) (k i : nat) (R : RoundRobin)
    : res (option (nat * tuple) * RoundRobin) :=
  match k with
  | O => Fail AssertFailed
  | S k =>
      let currentInput := ((rr_next R + i) mod rr_n R)%nat in
      let? b := vec_at (rr_flags R) currentInput in
      if b : bool then RoundRobin_loop ans cb k (S i) R
      else
        match ans currentInput with
        | None =>
            let flags := <[currentInput := true]> (rr_flags R) in
            let count := u32 (rr_count R + 1) in
            if count =? Z.of_nat (rr_n R)
            then Ok (None, mkRR (rr_n R) cb flags count ((currentInput + 1) mod rr_n R))
            else RoundRobin_loop ans cb k (S i) (mkRR (rr_n R) (rr_pull_cb R) flags count (rr_next R))
        | Some p =>
            Ok (Some (currentInput, p),
                mkRR (rr_n R) (rr_pull_cb R) (rr_flags R) (rr_count R) ((currentInput + 1) mod rr_n R))
        end
  end.

(** [RoundRobin::pull] *)
Definition RoundRobin_pull (port : nat) (ans : nat -> option tuple) (cb : option CB) (R : RoundRobin)
    : res (option (nat * tuple) * RoundRobin) :=
  let? _ := check (port =? 0)%nat AssertFailed in
  if rr_count R =? Z.of_nat (rr_n R)
  then Ok (None, mkRR (rr_n R) (match rr_pull_cb R with Some c => Some c | None => cb end)
                   (rr_flags R) (rr_count R) (rr_next R))
  else
    let? _ := check (match rr_pull_cb R with Some _ => false | None => true end) AssertFailed in
    RoundRobin_loop ans cb (rr_n R) 0 R.

(** ** [DRoundRobin] *)

(** Inputs come and go; [ninputs()] is the counter of the ports. *)
Record DRoundRobin := mkDRR {
  dr_in : ports;
  dr_pull_cb : option CB;
  dr_flags : list bool;
  dr_count : Z;
  dr_next : Z
}.

Definition DRoundRobin_mk (n : nat) : DRoundRobin :=
  mkDRR (portSetup n) None (replicate n false) 0 0.

(** [this->input(i) != 0] *)
Definition has_port (i : nat) (P : ports) : res bool :=
  let? p := port_at i P in Ok (match p with Some _ => true | None => false end).

(** [DRoundRobin::unblock] *)
Definition DRoundRobin_unblock (input : nat) (R : DRoundRobin) : res (list CB * DRoundRobin) :=
  let? _ := check (input <? length (dr_flags R))%nat AssertFailed in
  let? b := vec_at (dr_flags R) input in
  let R := if b : bool
           then mkDRR (dr_in R) (dr_pull_cb R) (<[input := false]> (dr_flags R)) (u32 (dr_count R - 1)) (dr_next R)
           else R in
  match dr_pull_cb R with
  | None => Ok ([], R)
  | Some c =>
      let? there := has_port input (dr_in R) in
      if there : bool then Ok ([c], mkDRR (dr_in R) None (dr_flags R) (dr_count R) (dr_next R))
      else Ok ([], R)
  end.

(** The loop of [DRoundRobin::pull]. *)
Fixpoint DRoundRobin_loop (ans : nat -> option tuple) (cb : option CB) (k : nat) (i : Z) (R : DRoundRobin)
    : res (option (nat * tuple) * DRoundRobin) :=
  match k with
  | O => Fail AssertFailed
  | S k =>
      let currentInput := Z.to_nat (u32 (dr_next R + i) mod p_n (dr_in R)) in
      let next := u32 (Z.of_nat currentInput + 1) mod p_n (dr_in R) in
      let? b := vec_at (dr_flags R) currentInput in
      let? skip := if b : bool then Ok true
                   else let? there := has_port currentInput (dr_in R) in Ok (negb there) in
      if skip : bool then DRoundRobin_loop ans cb k (i + 1) R
      else
        let? _ := port_peer currentInput (dr_in R) in
        match ans currentInput with
        | None =>
            let flags := <[currentInput := true]> (dr_flags R) in
            let count := u32 (dr_count R + 1) in
            if count =? p_n (dr_in R)
            then Ok (None, mkDRR (dr_in R) cb flags count next)
            else DRoundRobin_loop ans cb k (i + 1) (mkDRR (dr_in R) (dr_pull_cb R) flags count (dr_next R))
        | Some p =>
            Ok (Some (currentInput, p), mkDRR (dr_in R) (dr_pull_cb R) (dr_flags R) (dr_count R) next)
        end
  end.

(** [DRoundRobin::pull] *)
Definition DRoundRobin_pull (port : nat) (ans : nat -> option tuple) (cb : option CB) (R : DRoundRobin)
    : res (option (nat * tuple) * DRoundRobin) :=
  let? _ := check (port =? 0)%nat AssertFailed in
  if dr_count R =? p_n (dr_in R)
  then Ok (None, mkDRR (dr_in R) (match dr_pull_cb R with Some c => Some c | None => cb end)
                   (dr_flags R) (dr_count R) (dr_next R))
  else
    let? _ := check (match dr_pull_cb R with Some _ => false | None => true end) AssertFailed in
    DRoundRobin_loop ans cb (Z.to_nat (p_n (dr_in R))) 0 R.

(** [DRoundRobin::add_input]: the new port starts blocked, and its [unblock]
    runs from the event loop. *)
Definition DRoundRobin_add_input (R : DRoundRobin) : res (nat * DRoundRobin) :=
  let? (i, P) := addPort (dr_in R) in
  let? flags :=
    if (i =? length (dr_flags R))%nat then Ok (dr_flags R ++ [true])
    else let? _ := vec_at (dr_flags R) i in Ok (<[i := true]> (dr_flags R)) in
  Ok (i, mkDRR P (dr_pull_cb R) flags (u32 (dr_count R + 1)) (dr_next R)).

(** [DRoundRobin::remove_input] *)
Definition DRoundRobin_remove_input (i : nat) (R : DRoundRobin) : res (Z * DRoundRobin) :=
  let '(r, P) := deletePort i (dr_in R) in
  if 0 <=? r then
    let? b := vec_at (dr_flags R) i in
    let flags := if b : bool then <[i := false]> (dr_flags R) else dr_flags R in
    let count := if b : bool then u32 (dr_count R - 1) else dr_count R in
    let flags := if (i + 1 =? length flags)%nat then take i flags else flags in
    Ok (Z.of_nat i, mkDRR P (dr_pull_cb R) flags count (dr_next R))
  else Ok (-1, mkDRR P (dr_pull_cb R) (dr_flags R) (dr_count R) (dr_next R)).

(** ** [Duplicate] *)

(** The state of [Duplicate] and of [DuplicateConservative]. *)
Record Duplicate := mkDuplicate {
  d_n : nat;
  d_push_cb : option CB;
  d_flags : list bool;
  d_count : Z
}.

(** [Duplicate::Duplicate(string, int)] *)
Definition Duplicate_mk (n : nat) : Duplicate := mkDuplicate n None (replicate n false) 0.

(** [Duplicate::Duplicate(TuplePtr)] leaves [_block_flag_count] as it finds it in
    memory. *)
Definition Duplicate_mk_args (junk : Z) (n : nat) : Duplicate := mkDuplicate n None (replicate n false) junk.

(** The test and reset of a flag that the [unblock]s begin with. *)
Definition Duplicate_clear (output : nat) (D : Duplicate) : res Duplicate :=
  let? _ := check (output <=? d_n D)%nat AssertFailed in
  let? b := vec_at (d_flags D) output in
  Ok (if b : bool
      then mkDuplicate (d_n D) (d_push_cb D) (<[output := false]> (d_flags D)) (u32 (d_count D - 1))
      else D).

(** [Duplicate::unblock] *)
Definition Duplicate_unblock (output : nat) (D : Duplicate) : res (list CB * Duplicate) :=
  let? D := Duplicate_clear output D in
  Ok (option_list (d_push_cb D), mkDuplicate (d_n D) None (d_flags D) (d_count D)).

(** The loop of [Duplicate::push]: the outputs the tuple is sent to, and the
    flags and their count after it.  [ans] gives the answer of each output. *)
Fixpoint Duplicate_loop (ans : nat -> Z) (k i : nat) (flags : list bool) (count : Z)
    : res (list nat * list bool * Z) :=
  match k with
  | O => Ok ([], flags, count)
  | S k =>
      let? b := vec_at flags i in
      if b : bool then Duplicate_loop ans k (S i) flags count
      else
        let '(flags, count) := if ans i =? 0 then (<[i := true]> flags, u32 (count + 1)) else (flags, count) in
        let? (sent, flags, count) := Duplicate_loop ans k (S i) flags count in
        Ok (i :: sent, flags, count)
  end.

(** [Duplicate::push]: the answer and the outputs that got the tuple. *)
Definition Duplicate_push (port : nat) (p : tuple) (ans : nat -> Z) (cb : option CB) (D : Duplicate)
    : res (Z * list nat * Duplicate) :=
  let? _ := check (port =? 0)%nat AssertFailed in
  let? _ := check (0 <? Tuple_size p)%nat AssertFailed in
  if d_count D =? Z.of_nat (d_n D)
  then Ok (0, [], mkDuplicate (d_n D) (match d_push_cb D with Some c => Some c | None => cb end) (d_flags D) (d_count D))
  else
    let? (sent, flags, count) := Duplicate_loop ans (d_n D) 0 (d_flags D) (d_count D) in
    if count =? Z.of_nat (d_n D) then
      let? _ := check (match d_push_cb D with Some _ => false | None => true end) AssertFailed in
      Ok (0, sent, mkDuplicate (d_n D) cb flags count)
    else Ok (1, sent, mkDuplicate (d_n D) (d_push_cb D) flags count).

(** ** [DuplicateConservative] *)

(** [DuplicateConservative::unblock]; calling a null function object throws. *)
Definition DuplicateConservative_unblock (output : nat) (D : Duplicate) : res (list CB * Duplicate) :=
  let? D := Duplicate_clear output D in
  if d_count D =? 0 then
    let? c := of_option ExternalException (d_push_cb D) in
    Ok ([c], mkDuplicate (d_n D) None (d_flags D) (d_count D))
  else Ok ([], D).

(** The loop of [DuplicateConservative::push]. *)
Fixpoint DuplicateConservative_loop (ans : nat -> Z) (k i : nat) (flags : list bool) (count : Z)
    : res (list nat * list bool * Z) :=
  match k with
  | O => Ok ([], flags, count)
  | S k =>
      let? b := vec_at flags i in
      let? _ := check (negb b) AssertFailed in
      let '(flags, count) := if ans i =? 0 then (<[i := true]> flags, u32 (count + 1)) else (flags, count) in
      let? (sent, flags, count) := DuplicateConservative_loop ans k (S i) flags count in
      Ok (i :: sent, flags, count)
  end.

(** [DuplicateConservative::push] *)
Definition DuplicateConservative_push (port : nat) (p : tuple) (ans : nat -> Z) (cb : option CB) (D : Duplicate)
    : res (Z * list nat * Duplicate) :=
  let? _ := check (port =? 0)%nat AssertFailed in
  if 0 <? d_count D then
    let? _ := check (match d_push_cb D with Some _ => true | None => false end) AssertFailed in
    Ok (0, [], D)
  else
    let? _ := check (d_count D =? 0) AssertFailed in
    let? _ := check (match d_push_cb D with Some _ => false | None => true end) AssertFailed in
    let? (sent, flags, count) := DuplicateConservative_loop ans (d_n D) 0 (d_flags D) (d_count D) in
    if 0 <? count then Ok (0, sent, mkDuplicate (d_n D) cb flags count)
    else Ok (1, sent, mkDuplicate (d_n D) (d_push_cb D) flags count).
End flow.
Arguments RoundRobin : clear implicits.
Arguments DRoundRobin : clear implicits.
Arguments Duplicate : clear implicits.

(** ** Block flags and their count *)

(** The number of flags that are set. *)
Definition blocked (l : list bool) : nat := length (filter (fun b => b = true) l).

Lemma blocked_bound l : (blocked l <= length l)%nat.
Proof. apply length_filter. Qed.

Lemma blocked_insert l i (b b' : bool) : l !! i = Some b ->
  (blocked (<[i := b']> l) + (if b then 1 else 0) = blocked l + (if b' then 1 else 0))%nat.
Proof.
  intros Hi. pose proof (lookup_lt_Some _ _ _ Hi). unfold blocked.
  rewrite insert_take_drop by done. rewrite <- (take_drop_middle l i b Hi) at 3.
  rewrite !filter_app, !length_app.
  destruct b, b'; rewrite ?filter_cons_True, ?filter_cons_False by done; simpl; lia.
Qed.

Lemma blocked_all l i : blocked l = length l -> (i < length l)%nat -> l !! i = Some true.
Proof.
  intros Hb Hi. destruct (lookup_lt_is_Some_2 l i Hi) as [[] Hl]; [done|].
  pose proof (blocked_insert l i false true Hl) as H.
  pose proof (blocked_bound (<[i := true]> l)). rewrite length_insert in *. simpl in H. lia.
Qed.

Lemma blocked_some l i : l !! i = Some true -> (0 < blocked l)%nat.
Proof. intros H. pose proof (blocked_insert l i true false H). simpl in *. lia. Qed.

Lemma blocked_none l i : l !! i = Some false -> (blocked l < length l)%nat.
Proof.
  intros H. pose proof (blocked_insert l i false true H).
  pose proof (blocked_bound (<[i := true]> l)). rewrite length_insert in *. simpl in *. lia.
Qed.

Lemma blocked_exists l : (blocked l < length l)%nat -> exists i, l !! i = Some false.
Proof.
  induction l as [|[] l IH]; unfold blocked in *; simpl; intros H; [lia| |by exists 0%nat].
  destruct IH as [i Hi]; [lia|]. by exists (S i).
Qed.

Lemma blocked_replicate n : blocked (replicate n false) = 0%nat.
Proof. induction n as [|n IH]; [done|]. unfold blocked in *. simpl. done. Qed.

(** ** Round robin *)

Section round_robin.
Context {CB : Type}.
Implicit Types (R : RoundRobin CB).

(** The count is the number of flags set, and a puller waits only when every
    input is blocked. *)
Record rr_wf R : Prop := mkRRwf {
  rr_wf_n : 0 < Z.of_nat (rr_n R) < 2 ^ 31;
  rr_wf_flags : length (rr_flags R) = rr_n R;
  rr_wf_count : rr_count R = Z.of_nat (blocked (rr_flags R));
  rr_wf_next : (rr_next R < rr_n R)%nat;
  rr_wf_cb : rr_pull_cb R <> None -> rr_count R = Z.of_nat (rr_n R)
}.

Lemma rr_mk_wf n : 0 < Z.of_nat n < 2 ^ 31 -> rr_wf (RoundRobin_mk n).
Proof.
  intros H. split; simpl; try done; try lia; [by rewrite length_replicate|].
  by rewrite blocked_replicate.
Qed.

Lemma rr_unblock_spec R i : rr_wf R -> (i < rr_n R)%nat ->
  exists R', RoundRobin_unblock i R = Ok (option_list (rr_pull_cb R), R') /\ rr_wf R' /\
  rr_n R' = rr_n R /\ rr_next R' = rr_next R /\ rr_flags R' = <[i := false]> (rr_flags R).
Proof.
  intros [Hn Hf Hc Hx Hp] Hi. unfold RoundRobin_unblock.
  replace (i <=? rr_n R)%nat with true by (symmetry; apply Nat.leb_le; lia). simpl.
  destruct (lookup_lt_is_Some_2 (rr_flags R) i ltac:(lia)) as [b Hb].
  unfold vec_at. rewrite Hb. simpl. pose proof (blocked_insert _ _ _ false Hb) as HB.
  pose proof (blocked_bound (rr_flags R)).
  destruct b; simpl in HB.
  - replace (0 <? rr_count R) with true by (symmetry; apply Z.ltb_lt; lia). simpl.
    rewrite (u32_small (rr_count R - 1)) by (unfold is_u32; lia).
    eexists. split; [done|]. split; [|done].
    split; simpl; try done; try lia. by rewrite length_insert.
  - eexists. split; [done|]. simpl. split; [|rewrite list_insert_id by done; done].
    by split.
Qed.

(** How far input [i] is from being the next. *)
Definition rr_distance R (i : nat) : nat := ((i + rr_n R - rr_next R) mod rr_n R)%nat.

Lemma distance_index R i : (rr_next R < rr_n R)%nat -> (i < rr_n R)%nat ->
  (rr_distance R i < rr_n R)%nat /\ ((rr_next R + rr_distance R i) mod rr_n R = i)%nat.
Proof.
  intros Hx Hi. unfold rr_distance. split; [apply Nat.mod_upper_bound; lia|].
  rewrite Nat.Div0.add_mod_idemp_r.
  replace (rr_next R + (i + rr_n R - rr_next R))%nat with (i + 1 * rr_n R)%nat by lia.
  rewrite Nat.Div0.mod_add. by apply Nat.mod_small.
Qed.

(** After input [(next + e) mod n] was served, an input at distance [d > e] has
    come closer. *)
Lemma next_distance n s e d : (0 < n)%nat -> (e < d)%nat -> (d < n)%nat ->
  (((s + d) mod n + n - (((s + e) mod n + 1) mod n)) mod n = d - e - 1)%nat.
Proof.
  intros Hn He Hd.
  rewrite Nat.Div0.add_mod_idemp_l.
  pose proof (Nat.div_mod (s + d) n ltac:(lia)). pose proof (Nat.div_mod (s + e + 1) n ltac:(lia)).
  pose proof (Nat.mod_upper_bound (s + d) n ltac:(lia)).
  pose proof (Nat.mod_upper_bound (s + e + 1) n ltac:(lia)).
  set (a := ((s + d) mod n)%nat) in *. set (b := ((s + e + 1) mod n)%nat) in *.
  set (x := ((s + d) / n)%nat) in *. set (y := ((s + e + 1) / n)%nat) in *.
  assert (x = y \/ x = S y) as [->| ->] by nia.
  - replace (a + n - b)%nat with (d - e - 1 + 1 * n)%nat by nia.
    rewrite Nat.Div0.mod_add. apply Nat.mod_small. lia.
  - replace (a + n - b)%nat with (d - e - 1)%nat by nia. apply Nat.mod_small. lia.
Qed.

(** One pass of the loop: it ends on an input that gives a tuple, or with all
    inputs blocked. *)
Lemma rr_loop_spec ans cb k i R : rr_wf R -> rr_pull_cb R = None ->
  rr_count R < Z.of_nat (rr_n R) -> (i + k = rr_n R)%nat ->
  (forall j, (j < i)%nat -> rr_flags R !! ((rr_next R + j) mod rr_n R)%nat = Some true) ->
  exists o R', RoundRobin_loop ans cb k i R = Ok (o, R') /\ rr_wf R' /\ rr_n R' = rr_n R /\
  (forall j, rr_flags R !! j = Some false -> ans j <> None -> rr_flags R' !! j = Some false) /\
  match o with
  | None => rr_count R' = Z.of_nat (rr_n R') /\ rr_pull_cb R' = cb
  | Some (c, p) => ans c = Some p /\ rr_flags R !! c = Some false /\ rr_pull_cb R' = None /\
      exists e, (i <= e < rr_n R)%nat /\ c = ((rr_next R + e) mod rr_n R)%nat /\
      rr_next R' = ((c + 1) mod rr_n R)%nat /\
      forall j, (i <= j < e)%nat -> let x := ((rr_next R + j) mod rr_n R)%nat in
        rr_flags R !! x = Some true \/ ans x = None
  end.
Proof.
  revert i R. induction k as [|k IH]; intros i R HW Hcb Hlt Hik Hall.
  - exfalso. destruct HW as [Hn Hf Hc Hx Hp].
    destruct (blocked_exists (rr_flags R)) as [j Hj]; [lia|].
    pose proof (lookup_lt_Some _ _ _ Hj) as Hjl. rewrite Hf in Hjl.
    destruct (distance_index R j Hx Hjl) as [Hd E].
    specialize (Hall (rr_distance R j) ltac:(lia)). rewrite E in Hall. congruence.
  - cbn [RoundRobin_loop]. pose proof HW as [Hn Hf Hc Hx Hp].
    set (cur := ((rr_next R + i) mod rr_n R)%nat) in *.
    assert (Hcur : (cur < rr_n R)%nat) by (apply Nat.mod_upper_bound; lia).
    destruct (lookup_lt_is_Some_2 (rr_flags R) cur ltac:(lia)) as [b Hb].
    unfold vec_at. rewrite Hb. cbn [of_option rbind].
    assert (Hstep : forall R', rr_n R' = rr_n R -> rr_next R' = rr_next R ->
      rr_flags R' = <[cur := true]> (rr_flags R) -> forall j, (j < S i)%nat ->
      rr_flags R' !! ((rr_next R' + j) mod rr_n R')%nat = Some true).
    { intros R' -> -> -> j Hj. fold cur. destruct (decide (j = i)) as [->|].
      - fold cur. apply list_lookup_insert_eq. lia.
      - destruct (decide (cur = (rr_next R + j) mod rr_n R)%nat) as [<-|].
        + apply list_lookup_insert_eq. lia.
        + rewrite list_lookup_insert_ne by done. apply Hall. lia. }
    destruct b.
    + destruct (IH (S i) R HW Hcb Hlt ltac:(lia)) as (o & R' & -> & HW' & HN & HK & HO).
      { apply Hstep; try done. by rewrite list_insert_id. }
      exists o, R'. split_and!; try done; try apply HW'.
      destruct o as [[c p]|]; [|done]. destruct HO as (H1 & H2 & H3 & e & He & H5 & H6 & H7).
      split_and!; try done. exists e. split; [lia|]. split_and!; try done.
      intros j Hj. destruct (decide (j = i)) as [->|]; [left; apply Hb|apply H7; lia].
    + destruct (ans cur) as [p|] eqn:Ea.
      * do 2 eexists. split; [done|]. simpl. split_and!; try done.
        -- split; simpl; try done. apply Nat.mod_upper_bound. lia.
        -- exists i. split; [lia|]. split_and!; try done. intros j Hj. lia.
      * pose proof (blocked_insert _ _ _ true Hb) as HB. simpl in HB.
        rewrite (u32_small (rr_count R + 1)) by (unfold is_u32; lia).
        assert (HK : forall j, rr_flags R !! j = Some false -> ans j <> None ->
          <[cur := true]> (rr_flags R) !! j = Some false).
        { intros j Hj Hja. rewrite list_lookup_insert_ne; [done|]. by intros <-. }
        destruct (Z.eqb_spec (rr_count R + 1) (Z.of_nat (rr_n R))) as [E|E].
        -- do 2 eexists. split; [done|]. simpl. split_and!; try done.
           split; simpl; try done; try lia; [by rewrite length_insert|].
           apply Nat.mod_upper_bound. lia.
        -- set (R1 := mkRR _ _ _ _ _).
           assert (rr_wf R1) as HW1.
           { split; simpl; try done; try lia; by rewrite length_insert. }
           destruct (IH (S i) R1 HW1 Hcb ltac:(simpl; lia) ltac:(simpl; lia))
             as (o & R' & -> & HW' & HN & HK' & HO); [by apply Hstep|].
           exists o, R'. split_and!; try done; try apply HW'.
           ++ intros j Hj Hja. apply HK'; [|done]. by apply HK.
           ++ destruct o as [[c p]|]; [|done].
              destruct HO as (H1 & H2 & H3 & e & He & H5 & H6 & H7). simpl in *.
              split_and!; try done.
              { destruct (decide (cur = c)) as [<-|]; [done|].
                by rewrite list_lookup_insert_ne in H2. }
              exists e. split; [lia|]. split_and!; try done. intros j Hj.
              destruct (decide (j = i)) as [->|]; [right; apply Ea|].
              destruct (H7 j ltac:(lia)) as [Hl|]; [|by right].
              destruct (decide (cur = (rr_next R + j) mod rr_n R)%nat) as [<-|];
                [right; apply Ea|left]. by rewrite list_lookup_insert_ne in Hl.
Qed.

(** Any pull keeps the state consistent and never trips an assertion; it
    answers nothing only when every input is blocked, and then it holds on to a
    callback. *)
Lemma rr_pull_safe ans cb R : rr_wf R -> exists o R',
  RoundRobin_pull 0 ans cb R = Ok (o, R') /\ rr_wf R' /\ rr_n R' = rr_n R /\
  (o = None -> rr_count R' = Z.of_nat (rr_n R') /\ (cb <> None -> rr_pull_cb R' <> None)).
Proof.
  intros HW. pose proof HW as [Hn Hf Hc Hx Hp]. unfold RoundRobin_pull. simpl.
  destruct (Z.eqb_spec (rr_count R) (Z.of_nat (rr_n R))) as [E|E].
  - do 2 eexists. split; [done|]. simpl. split; [by split|]. split; [done|].
    intros _. split; [done|]. by destruct (rr_pull_cb R).
  - destruct (rr_pull_cb R) as [c|] eqn:Ecb; [by specialize (Hp ltac:(done))|]. simpl.
    pose proof (blocked_bound (rr_flags R)).
    destruct (rr_loop_spec ans cb (rr_n R) 0 R HW Ecb ltac:(lia) ltac:(lia) ltac:(lia))
      as (o & R' & -> & HW' & HN & _ & HO).
    exists o, R'. split_and!; try done; try apply HW'. intros ->.
    destruct HO as [HO ->]. done.
Qed.

(** A pull while input [i] is ready serves [i] or brings it closer, and leaves it
    unblocked. *)
Lemma rr_pull_ready ans cb R i : rr_wf R -> rr_flags R !! i = Some false -> ans i <> None ->
  exists c p R', RoundRobin_pull 0 ans cb R = Ok (Some (c, p), R') /\ rr_wf R' /\
  rr_n R' = rr_n R /\ rr_flags R' !! i = Some false /\
  (c <> i -> (rr_distance R' i < rr_distance R i)%nat).
Proof.
  intros HW Hi Ha. pose proof HW as [Hn Hf Hc Hx Hp]. unfold RoundRobin_pull. simpl.
  pose proof (blocked_none _ _ Hi). pose proof (lookup_lt_Some _ _ _ Hi) as Hl. rewrite Hf in Hl.
  destruct (Z.eqb_spec (rr_count R) (Z.of_nat (rr_n R))) as [E|E]; [lia|].
  destruct (rr_pull_cb R) as [c|] eqn:Ecb; [by specialize (Hp ltac:(done))|]. simpl.
  destruct (rr_loop_spec ans cb (rr_n R) 0 R HW Ecb ltac:(lia) ltac:(lia) ltac:(lia))
    as (o & R' & -> & HW' & HN & HK & HO).
  destruct o as [[c p]|].
  2:{ destruct HO as [HO _]. destruct HW' as [Hn' Hf' Hc' _ _].
      pose proof (blocked_none _ _ (HK i Hi Ha)). lia. }
  exists c, p, R'. split_and!; try done; [by apply HK|]. intros Hne.
  destruct HO as (_ & _ & _ & e & He & Hce & Hnx & Hsk).
  destruct (distance_index R i Hx Hl) as [Hd Hdi].
  set (d := rr_distance R i) in *.
  assert (e < d)%nat as Hed.
  { destruct (decide (e = d)) as [->|]; [by rewrite Hdi in Hce|].
    destruct (decide (e < d)%nat); [done|]. exfalso.
    destruct (Hsk d ltac:(lia)) as [Hs|Hs]; rewrite Hdi in Hs; congruence. }
  unfold rr_distance at 1. rewrite HN, Hnx, <- Hdi, Hce.
  rewrite next_distance by lia. lia.
Qed.

(** A history of a [RoundRobin]: pulls with the answers its inputs would give,
    and wake-ups of inputs. *)
Inductive rr_event :=
  | RPull (ans : nat -> option tuple) (cb : option CB)
  | RUnblock (input : nat).

Fixpoint rr_run (es : list rr_event) R : res (list (option (nat * tuple)) * RoundRobin CB) :=
  match es with
  | [] => Ok ([], R)
  | RPull ans cb :: es =>
      let? (o, R) := RoundRobin_pull 0 ans cb R in
      let? (outs, R) := rr_run es R in
      Ok (o :: outs, R)
  | RUnblock i :: es =>
      let? (_, R) := RoundRobin_unblock i R in rr_run es R
  end.

(** Input [i] can always give a tuple, and only inputs that exist wake up. *)
Definition stays_ready (i n : nat) (e : rr_event) : Prop :=
  match e with RPull ans _ => ans i <> None | RUnblock j => (j < n)%nat end.

Fixpoint pulls (es : list rr_event) : nat :=
  match es with [] => 0 | RPull _ _ :: es => S (pulls es) | RUnblock _ :: es => pulls es end.

Lemma rr_run_ready i es R : rr_wf R -> rr_flags R !! i = Some false ->
  Forall (stays_ready i (rr_n R)) es ->
  exists outs R', rr_run es R = Ok (outs, R') /\ (None ∉ outs) /\
  ((rr_distance R i < pulls es)%nat -> exists t, Some (i, t) ∈ outs).
Proof.
  intros HW Hi HF. remember (rr_n R) as n eqn:En. revert R HW Hi En.
  induction HF as [|[ans cb|j] es He HF IH]; intros R HW Hi ->; simpl in *.
  - exists [], R. split_and!; [done|set_solver|lia].
  - destruct (rr_pull_ready ans cb R i HW Hi He) as (c & p & R1 & -> & HW1 & HN1 & Hi1 & Hd). simpl.
    destruct (IH R1 HW1 Hi1 ltac:(done)) as (outs & R2 & -> & Hno & Hso). simpl.
    do 2 eexists. split; [done|]. split; [by apply not_elem_of_cons|]. intros Hlt.
    destruct (decide (c = i)) as [->|Hc]; [exists p; set_solver|].
    destruct (Hso ltac:(specialize (Hd Hc); lia)) as [t Ht]. exists t. set_solver.
  - destruct (rr_unblock_spec R j HW He) as (R1 & -> & HW1 & HN1 & Hx1 & Hf1). simpl.
    assert (rr_flags R1 !! i = Some false) as Hi1.
    { rewrite Hf1. destruct (decide (j = i)) as [->|]; [|by rewrite list_lookup_insert_ne].
      apply list_lookup_insert_eq. by apply lookup_lt_Some in Hi. }
    destruct (IH R1 HW1 Hi1 ltac:(done)) as (outs & R2 & -> & Hno & Hso).
    do 2 eexists. split; [done|]. split; [done|].
    replace (rr_distance R i) with (rr_distance R1 i) by (unfold rr_distance; by rewrite HN1, Hx1). done.
Qed.

(** No input starves.  On every history in which input [i] is unblocked and
    always has a tuple to give, whatever the other inputs do, each pull succeeds,
    and among any [n] successive pulls of an element with [n] inputs at least one
    takes its tuple from input [i]. *)
Theorem round_robin_fair es R i : rr_wf R -> rr_flags R !! i = Some false ->
  Forall (stays_ready i (rr_n R)) es ->
  exists outs R', rr_run es R = Ok (outs, R') /\ (None ∉ outs) /\
  ((rr_n R <= pulls es)%nat -> exists t, Some (i, t) ∈ outs).
Proof.
  intros HW Hi HF. destruct (rr_run_ready i es R HW Hi HF) as (outs & R' & E & Hn & Hs).
  exists outs, R'. split_and!; [done..|]. intros Hl. apply Hs.
  pose proof (lookup_lt_Some _ _ _ Hi) as Hil. rewrite (rr_wf_flags R HW) in Hil.
  destruct (distance_index R i (rr_wf_next R HW) Hil). lia.
Qed.
End round_robin.

(** ** [Duplicate] *)

Section duplicate.
Context {CB : Type}.
Implicit Types (D : Duplicate CB).

Record flags_wf D : Prop := mkFwf {
  fw_n : Z.of_nat (d_n D) < 2 ^ 32 - 1;
  fw_flags : length (d_flags D) = d_n D;
  fw_count : d_count D = Z.of_nat (blocked (d_flags D))
}.

(** The pusher waits only when every output is blocked. *)
Definition dup_wf D : Prop :=
  flags_wf D /\ (d_push_cb D <> None -> d_count D = Z.of_nat (d_n D)).

(** The flags after a tuple was offered to the outputs from [i] on. *)
Definition dup_offered (ans : nat -> Z) (i : nat) (flags flags' : list bool) : Prop :=
  length flags' = length flags /\
  forall j b, flags !! j = Some b -> flags' !! j = Some (b || ((i <=? j)%nat && (ans j =? 0))).

Lemma offered_here ans flags : dup_offered ans (length flags) flags flags.
Proof.
  split; [done|]. intros j b Hj. pose proof (lookup_lt_Some _ _ _ Hj).
  replace (length flags <=? j)%nat with false by (symmetry; apply Nat.leb_gt; lia).
  by rewrite orb_false_r.
Qed.

(** One step of the loops: output [i] blocked already, or it is offered the
    tuple. *)
Lemma offered_skip ans i flags flags' : flags !! i = Some true ->
  dup_offered ans (S i) flags flags' -> dup_offered ans i flags flags'.
Proof.
  intros Hi [Hl H]. split; [done|]. intros j b Hj. rewrite (H j b Hj). f_equal.
  destruct (decide (j = i)) as [->|].
  - rewrite Hi in Hj. by injection Hj as <-.
  - do 2 f_equal. apply eq_bool_prop_intro. rewrite !Is_true_true, !Nat.leb_le. lia.
Qed.

Lemma offered_step ans i flags flags' : flags !! i = Some false ->
  dup_offered ans (S i) (if ans i =? 0 then <[i := true]> flags else flags) flags' ->
  dup_offered ans i flags flags'.
Proof.
  intros Hi [Hl H]. pose proof (lookup_lt_Some _ _ _ Hi). split.
  - rewrite Hl. destruct (ans i =? 0); [apply length_insert|done].
  - intros j b Hj. destruct (decide (j = i)) as [->|Hne].
    + rewrite Hi in Hj. injection Hj as <-. rewrite Nat.leb_refl. simpl.
      destruct (ans i =? 0) eqn:E.
      * rewrite (H i true) by (by apply list_lookup_insert_eq). done.
      * rewrite (H i false) by done. rewrite E, andb_false_r. done.
    + rewrite (H j b).
      * do 3 f_equal. apply eq_bool_prop_intro. rewrite !Is_true_true, !Nat.leb_le. lia.
      * destruct (ans i =? 0); [rewrite list_lookup_insert_ne by done|]; done.
Qed.

Lemma duplicate_loop_spec ans k i flags : (i + k = length flags)%nat ->
  Z.of_nat (length flags) < 2 ^ 32 - 1 ->
  exists flags', Duplicate_loop ans k i flags (Z.of_nat (blocked flags)) =
    Ok (filter (fun j => flags !! j = Some false) (seq i k), flags', Z.of_nat (blocked flags')) /\
  dup_offered ans i flags flags'.
Proof.
  revert i flags. induction k as [|k IH]; intros i flags Hik Hb; simpl.
  - exists flags. split; [done|]. replace i with (length flags) by lia. apply offered_here.
  - destruct (lookup_lt_is_Some_2 flags i ltac:(lia)) as [b Hi]. unfold vec_at. rewrite Hi. simpl.
    destruct b.
    + destruct (IH (S i) flags ltac:(lia) Hb) as (flags' & -> & HO).
      exists flags'. split; [|by apply offered_skip].
      rewrite filter_cons_False by congruence. done.
    + rewrite filter_cons_True by done. set (fl := if ans i =? 0 then <[i := true]> flags else flags).
      assert (Hlen : length fl = length flags).
      { unfold fl. destruct (ans i =? 0); [apply length_insert|done]. }
      destruct (IH (S i) fl ltac:(lia) ltac:(lia)) as (flags' & E & HO).
      exists flags'. split; [|by apply offered_step].
      pose proof (blocked_insert _ _ _ true Hi) as HB. simpl in HB.
      pose proof (blocked_bound (<[i := true]> flags)) as HB'. rewrite length_insert in HB'.
      assert (filter (fun j => fl !! j = Some false) (seq (S i) k) =
              filter (fun j => flags !! j = Some false) (seq (S i) k)) as HF.
      { apply filter_ext, Forall_forall. intros j Hj%elem_of_seq. unfold fl.
        destruct (ans i =? 0); [rewrite list_lookup_insert_ne by lia|]; done. }
      rewrite <- HF. unfold fl in *. destruct (ans i =? 0).
      * rewrite (u32_small (_ + 1)) by (unfold is_u32; lia).
        replace (Z.of_nat (blocked flags) + 1) with (Z.of_nat (blocked (<[i := true]> flags))) by lia.
        by rewrite E.
      * by rewrite E.
Qed.

Lemma dup_all_blocked D j : flags_wf D -> d_count D = Z.of_nat (d_n D) -> (j < d_n D)%nat ->
  d_flags D !! j = Some true.
Proof. intros [Hn Hf Hc] E Hj. apply blocked_all; lia. Qed.

(** [Duplicate] copies a tuple to exactly the outputs that are not blocked, in
    order, and marks those that block on it.  It answers 0 exactly when all
    outputs are blocked afterwards, and then holds a callback; otherwise it
    answers 1.  No assertion fails, and the flags and their count stay
    consistent. *)
Theorem duplicate_push_correct p ans cb D : dup_wf D -> (0 < Tuple_size p)%nat ->
  exists r sent D', Duplicate_push 0 p ans cb D = Ok (r, sent, D') /\ dup_wf D' /\
  d_n D' = d_n D /\
  sent = filter (fun j => d_flags D !! j = Some false) (seq 0 (d_n D)) /\
  dup_offered ans 0 (d_flags D) (d_flags D') /\
  r = (if decide (blocked (d_flags D') = d_n D) then 0 else 1) /\
  (r = 0 -> d_push_cb D' = match d_push_cb D with Some c => Some c | None => cb end).
Proof.
  intros [HF Hcb] Hp. pose proof HF as [Hn Hf Hc]. unfold Duplicate_push.
  replace (0 <? Tuple_size p)%nat with true by (symmetry; by apply Nat.ltb_lt). simpl.
  destruct (Z.eqb_spec (d_count D) (Z.of_nat (d_n D))) as [E|E].
  - assert (forall j b, d_flags D !! j = Some b -> b = true) as Hall.
    { intros j b Hj. pose proof (lookup_lt_Some _ _ _ Hj).
      rewrite (dup_all_blocked D j HF E) in Hj by lia. congruence. }
    do 3 eexists. split; [done|]. simpl. split; [by split|]. split; [done|]. split_and!.
    + symmetry. apply filter_none, Forall_forall. intros j _ Hj. by apply Hall in Hj.
    + split; [done|]. intros j b Hj. rewrite Hj. by rewrite (Hall j b Hj).
    + rewrite decide_True by lia. done.
    + done.
  - destruct (d_push_cb D) as [c|] eqn:Ecb; [by specialize (Hcb ltac:(done))|].
    rewrite Hc, <- Hf in *.
    destruct (duplicate_loop_spec ans (length (d_flags D)) 0 (d_flags D) ltac:(lia) Hn)
      as (flags' & -> & HO). cbn [rbind].
    destruct HO as [HL HO].
    destruct (Z.eqb_spec (Z.of_nat (blocked flags')) (Z.of_nat (length (d_flags D)))) as [E'|E'];
      simpl; do 3 eexists; (split; [done|]); simpl; (split; [split; [by split; simpl; lia|done]|]).
    + split_and!; try done. by rewrite decide_True by lia.
    + split_and!; try done. by rewrite decide_False by lia.
Qed.

Lemma duplicate_clear_spec D i : flags_wf D -> (i < d_n D)%nat ->
  exists D', Duplicate_clear i D = Ok D' /\ flags_wf D' /\ d_n D' = d_n D /\
  d_push_cb D' = d_push_cb D /\ d_flags D' = <[i := false]> (d_flags D).
Proof.
  intros [Hn Hf Hc] Hi. unfold Duplicate_clear.
  replace (i <=? d_n D)%nat with true by (symmetry; apply Nat.leb_le; lia). simpl.
  destruct (lookup_lt_is_Some_2 (d_flags D) i ltac:(lia)) as [b Hb].
  unfold vec_at. rewrite Hb. simpl. pose proof (blocked_insert _ _ _ false Hb) as HB.
  pose proof (blocked_bound (d_flags D)).
  destruct b; simpl in HB.
  - rewrite (u32_small (d_count D - 1)) by (unfold is_u32; lia).
    eexists. split; [done|]. split; [|done].
    split; simpl; try done; try lia. by rewrite length_insert.
  - eexists. split; [done|]. rewrite list_insert_id by done. done.
Qed.

(** A wake-up of any output wakes the pusher, if one waits. *)
Lemma duplicate_unblock_spec D i : dup_wf D -> (i < d_n D)%nat ->
  exists D', Duplicate_unblock i D = Ok (option_list (d_push_cb D), D') /\ dup_wf D' /\
  d_n D' = d_n D /\ d_flags D' = <[i := false]> (d_flags D) /\ d_push_cb D' = None.
Proof.
  intros [HF Hcb] Hi. unfold Duplicate_unblock.
  destruct (duplicate_clear_spec D i HF Hi) as (D' & -> & [Hn Hf Hc] & HN & HP & HL).
  simpl. rewrite HP. eexists. split; [done|]. split; [by split|]. done.
Qed.

(** The constructor that reads its arguments from a tuple does not set the
    count: when the memory happens to hold the number of outputs, the element
    refuses its first tuple although no output is blocked, and no output will
    ever call back. *)
Lemma duplicate_uninitialised n p ans cb : (0 < Tuple_size p)%nat -> exists D',
  Duplicate_push (CB := CB) 0 p ans cb (Duplicate_mk_args (Z.of_nat n) n) = Ok (0, [], D') /\
  d_push_cb D' = cb /\ blocked (d_flags D') = 0%nat.
Proof.
  intros Hp. unfold Duplicate_push.
  replace (0 <? Tuple_size p)%nat with true by (symmetry; by apply Nat.ltb_lt). simpl.
  rewrite Z.eqb_refl. eexists. split; [done|]. split; [done|]. apply blocked_replicate.
Qed.

(** ** [DuplicateConservative] *)

(** The pusher waits exactly while some output is blocked. *)
Definition dupc_wf D : Prop :=
  flags_wf D /\ (d_push_cb D <> None <-> 0 < d_count D).

Lemma conservative_loop_spec ans k i flags : (i + k = length flags)%nat ->
  Z.of_nat (length flags) < 2 ^ 32 - 1 ->
  (forall j, (i <= j < length flags)%nat -> flags !! j = Some false) ->
  exists flags', DuplicateConservative_loop ans k i flags (Z.of_nat (blocked flags)) =
    Ok (seq i k, flags', Z.of_nat (blocked flags')) /\
  dup_offered ans i flags flags'.
Proof.
  revert i flags. induction k as [|k IH]; intros i flags Hik Hb Hall; simpl.
  - exists flags. split; [done|]. replace i with (length flags) by lia. apply offered_here.
  - pose proof (Hall i ltac:(lia)) as Hi. unfold vec_at. rewrite Hi. simpl.
    set (fl := if ans i =? 0 then <[i := true]> flags else flags).
    assert (Hlen : length fl = length flags).
    { unfold fl. destruct (ans i =? 0); [apply length_insert|done]. }
    destruct (IH (S i) fl ltac:(lia) ltac:(lia)) as (flags' & E & HO).
    { intros j Hj. unfold fl. destruct (ans i =? 0); [rewrite list_lookup_insert_ne by lia|];
        apply Hall; lia. }
    exists flags'. split; [|by apply offered_step].
    pose proof (blocked_insert _ _ _ true Hi) as HB. simpl in HB.
    pose proof (blocked_bound (<[i := true]> flags)) as HB'. rewrite length_insert in HB'.
    unfold fl in *. destruct (ans i =? 0).
    + rewrite (u32_small (_ + 1)) by (unfold is_u32; lia).
      replace (Z.of_nat (blocked flags) + 1) with (Z.of_nat (blocked (<[i := true]> flags))) by lia.
      by rewrite E.
    + by rewrite E.
Qed.

Lemma blocked_zero (l : list bool) j : blocked l = 0%nat -> (j < length l)%nat -> l !! j = Some false.
Proof.
  intros Hb Hj. destruct (lookup_lt_is_Some_2 l j Hj) as [[] Hl]; [|done].
  pose proof (blocked_some _ _ Hl). lia.
Qed.

(** With a proper callback, [DuplicateConservative] sends a tuple to all outputs
    or, while one of them is blocked, to none; it answers 1 exactly when all
    outputs can take more. *)
Lemma conservative_push_correct p ans c D : dupc_wf D ->
  exists r sent D', DuplicateConservative_push 0 p ans (Some c) D = Ok (r, sent, D') /\
  dupc_wf D' /\ d_n D' = d_n D /\
  r = (if decide (blocked (d_flags D') = 0%nat) then 1 else 0) /\
  (blocked (d_flags D) = 0%nat -> sent = seq 0 (d_n D) /\ dup_offered ans 0 (d_flags D) (d_flags D')) /\
  (blocked (d_flags D) <> 0%nat -> sent = [] /\ D' = D).
Proof.
  intros [HF Hcb]. pose proof HF as [Hn Hf Hc]. unfold DuplicateConservative_push. simpl.
  destruct (Z.ltb_spec 0 (d_count D)) as [E|E].
  - destruct (d_push_cb D) as [c0|] eqn:Ecb; [|by destruct Hcb as [_ Hcb]; specialize (Hcb E)].
    simpl. do 3 eexists. split; [done|]. split; [split; [done|by rewrite Ecb]|].
    split; [done|]. rewrite decide_False by lia. split_and!; try done. lia.
  - assert (blocked (d_flags D) = 0%nat) as HZ by lia.
    replace (d_count D =? 0) with true by (symmetry; apply Z.eqb_eq; lia). simpl.
    destruct (d_push_cb D) as [c0|] eqn:Ecb; [destruct Hcb as [Hcb _]; specialize (Hcb ltac:(done)); lia|].
    simpl. rewrite Hc, <- Hf in *.
    destruct (conservative_loop_spec ans (length (d_flags D)) 0 (d_flags D) ltac:(lia) Hn)
      as (flags' & -> & HO); [intros j Hj; apply blocked_zero; lia|]. cbn [rbind].
    destruct HO as [HL HO].
    destruct (Z.ltb_spec 0 (Z.of_nat (blocked flags'))) as [E'|E']; do 3 eexists;
      (split; [done|]); simpl; (split; [split; [by split; simpl; lia|]|]); simpl; try done;
      split_and!; try done; try lia.
    + by rewrite decide_False by lia.
    + by rewrite decide_True by lia.
Qed.

(** The wake-up reaches the pusher with the last blocked output; a wake-up that
    finds nothing blocked calls a null function object. *)
Lemma conservative_unblock_spec D i : dupc_wf D -> (i < d_n D)%nat ->
  match DuplicateConservative_unblock i D with
  | Ok (called, D') => dupc_wf D' /\ d_flags D' = <[i := false]> (d_flags D) /\
      called = (if decide (blocked (d_flags D') = 0%nat) then option_list (d_push_cb D) else [])
  | Fail f => f = ExternalException /\ blocked (d_flags D) = 0%nat
  end.
Proof.
  intros [HF Hcb] Hi. unfold DuplicateConservative_unblock.
  destruct (duplicate_clear_spec D i HF Hi) as (D' & -> & HF' & HN & HP & HL).
  pose proof HF' as [Hn Hf Hc]. cbn [rbind]. rewrite HP.
  destruct (Z.eqb_spec (d_count D') 0) as [E|E].
  - destruct (d_push_cb D) as [c|] eqn:Ecb; simpl.
    + rewrite decide_True by lia. split; [|done]. split; [by split|]. simpl. split; [done|lia].
    + split; [done|]. destruct (decide (blocked (d_flags D) = 0%nat)) as [|Hz]; [done|].
      destruct Hcb as [_ Hcb]. exfalso. apply Hcb; [|done]. destruct HF as [_ _ ->]. lia.
  - simpl. rewrite decide_False by lia. split; [|done]. split; [done|]. rewrite HP, Hcb.
    destruct HF as [_ Hfl Hct]. destruct (lookup_lt_is_Some_2 (d_flags D) i ltac:(lia)) as [b Hb].
    pose proof (blocked_insert _ _ _ false Hb) as HB. rewrite <- HL in HB. destruct b; lia.
Qed.
End duplicate.

(** ** [DRoundRobin] after an input was removed *)

Section dynamic.
Context {CB : Type}.
Implicit Types (R : DRoundRobin CB).

(** The numbers of the inputs asked stay below the number of inputs. *)
Lemma drr_loop_below ans cb k i R c p R' : 0 < p_n (dr_in R) ->
  DRoundRobin_loop ans cb k i R = Ok (Some (c, p), R') ->
  Z.of_nat c < p_n (dr_in R) /\ dr_in R' = dr_in R.
Proof.
  intros Hn. revert i R Hn. induction k as [|k IH]; intros i R Hn; [done|].
  cbn [DRoundRobin_loop]. set (cur := Z.to_nat _).
  assert (Z.of_nat cur < p_n (dr_in R)).
  { unfold cur. pose proof (Z.mod_pos_bound (u32 (dr_next R + i)) _ Hn). lia. }
  destruct (vec_at (dr_flags R) cur) as [b|]; [|done]. cbn [rbind].
  destruct (if b then _ else _) as [sk|]; [|done]. cbn [rbind].
  destruct sk; [by apply IH|].
  destruct (port_peer cur (dr_in R)); [|done]. cbn [rbind].
  destruct (ans cur) as [q|].
  - by intros [= <- _ <-].
  - case_match; [done|]. intros E. by apply IH in E.
Qed.

(** An element that starts with [n] attached inputs. *)
Definition drr_attached (n : nat) : DRoundRobin CB :=
  mkDRR (mkPorts ((fun j => Some (Some (j, 0%nat))) <$> seq 0 n) (Z.of_nat n)) None (replicate n false) 0 0.

(** Removing an input loses another one: the counter [ninputs()] goes down while
    the ports keep their numbers, so that no pull ever reaches the last input
    again.  When the first of two inputs is removed the element is unusable: the
    next pull, whatever the inputs have to offer, runs into the assertion it
    should never reach. *)
Theorem round_robin_remove_loses n i r R : (i < n)%nat -> Z.of_nat n < 2 ^ 32 ->
  DRoundRobin_remove_input i (drr_attached n) = Ok (r, R) ->
  (forall R1 ans cb c p R2, dr_in R1 = dr_in R -> DRoundRobin_pull 0 ans cb R1 = Ok (Some (c, p), R2) ->
    c <> (n - 1)%nat) /\
  (n = 2%nat -> i = 0%nat -> forall ans cb, DRoundRobin_pull 0 ans cb R = Fail AssertFailed).
Proof.
  intros Hi Hn HR. split.
  - intros R1 ans cb c p R2 HI HP.
    assert (p_n (dr_in R) = Z.of_nat n - 1) as HN.
    { revert HR. unfold DRoundRobin_remove_input, deletePort. simpl.
      rewrite length_fmap, length_seq. replace (i <? n)%nat with true by (symmetry; by apply Nat.ltb_lt).
      replace (0 <=? Z.of_nat i) with true by (symmetry; apply Z.leb_le; lia).
      destruct (vec_at _ i) as [b|]; [|done]. cbn [rbind]. intros [= _ <-]. simpl.
      apply u32_small. unfold is_u32. lia. }
    unfold DRoundRobin_pull in HP. simpl in HP. rewrite HI, HN in HP.
    destruct (dr_count R1 =? _); [done|]. destruct (dr_pull_cb R1); [done|]. simpl in HP.
    destruct (decide (n = 1%nat)) as [->|]; [done|].
    apply drr_loop_below in HP as [Hc _]; rewrite HI, HN in *; lia.
  - intros -> -> ans cb. vm_compute in HR. injection HR as <- <-. by vm_compute.
Qed.
End dynamic.

(** ** The theorems on concrete elements *)

Definition a_tuple (n : Z) : tuple := mkTuple [VInt64 n] true n.

(** Three inputs of which the first always has a tuple and the second never;
    the third is ready throughout and is served. *)
Definition rr_history : list (rr_event (CB := nat)) :=
  [RPull (fun i => if (i =? 1)%nat then None else Some (a_tuple (Z.of_nat i))) (Some 7%nat);
   RUnblock 1;
   RPull (fun i => if (i =? 1)%nat then None else Some (a_tuple (Z.of_nat i))) (Some 7%nat);
   RPull (fun i => if (i =? 1)%nat then None else Some (a_tuple (Z.of_nat i))) (Some 7%nat)].

Lemma round_robin_fair_witness : exists outs R', rr_run rr_history (RoundRobin_mk 3) = Ok (outs, R') /\
  (None ∉ outs) /\ exists t, Some (2%nat, t) ∈ outs.
Proof.
  destruct (round_robin_fair rr_history (RoundRobin_mk 3) 2) as (outs & R' & E & Hn & Hs).
  - apply rr_mk_wf. simpl. lia.
  - reflexivity.
  - repeat (apply Forall_cons; split; [simpl; first [discriminate | lia]|]). apply Forall_nil. exact I.
  - exists outs, R'. split; [exact E|]. split; [exact Hn|]. apply Hs. simpl. lia.
Defined.

Lemma round_robin_remove_loses_witness : exists r R,
  DRoundRobin_remove_input 0 (drr_attached (CB := nat) 2) = Ok (r, R) /\
  DRoundRobin_pull 0 (fun i => Some (a_tuple (Z.of_nat i))) None R = Fail AssertFailed.
Proof.
  do 2 eexists. split; [reflexivity|].
  apply (round_robin_remove_loses (CB := nat) 2 0 0 _ ltac:(lia) ltac:(lia) eq_refl); reflexivity.
Defined.
