(* ===== verification/Route.v ===== *)
(** * Merging pushers and routing by key (src/elements/mux.C, demux.C,
    demuxConservative.C, ddemux.C, dDuplicateConservative.C)

    [Mux] merges the tuples pushed into its inputs and buffers one per input
    while its output is blocked; the demultiplexers send a tuple to the output
    whose key equals a field of the tuple.  As in Flow.v, [CB] is the type of the
    callbacks and the answers of neighbours are arguments. *)

From S2P Require Import Prelude Ids Stl Values Tuples Casts Elements Flow.

Local Open Scope p2_scope.

Definition present {A} (o : option A) : bool := match o with Some _ => true | None => false end.

Section route.
Context {CB : Type}.

(** ** [Mux] *)

(** [m_timer] is [_timeCallback != NULL]: [catchUp] is about to run from the
    event loop. *)
Record Mux := mkMux {
  m_blocked : bool;
  m_cbs : list (option CB);
  m_tuples : list (option tuple);
  m_timer : bool
}.

(** [Mux::Mux] *)
Definition Mux_mk (n : nat) : Mux := mkMux false (replicate n None) (replicate n None) false.

Definition Mux_n (M : Mux) : nat := length (m_cbs M).

(** [Mux::callback]: the output has room again. *)
Definition Mux_callback (M : Mux) : res Mux :=
  let? _ := check (negb (m_timer M)) AssertFailed in
  Ok (mkMux (m_blocked M) (m_cbs M) (m_tuples M) true).

(** The first loop of [Mux::catchUp]: the pending tuples go out, in order of
    their inputs, until the output blocks.  The tuples pushed, the buffers, and
    whether the loop ran to its end. *)
Fixpoint Mux_flush (ans : nat -> Z) (k i : nat) (cbs : list (option CB)) (ts : list (option tuple))
    : res (list tuple * list (option tuple) * bool) :=
  match k with
  | O => Ok ([], ts, true)
  | S k =>
      let? t := vec_at ts i in
      match t with
      | None => Mux_flush ans k (S i) cbs ts
      | Some t =>
          let? cb := vec_at cbs i in
          let? _ := check (present cb) AssertFailed in
          if ans i =? 0 then Ok ([t], ts, false)
          else
            let? (out, ts, fin) := Mux_flush ans k (S i) cbs (<[i := None]> ts) in
            Ok (t :: out, ts, fin)
      end
  end.

(** [Mux::catchUp]: what it pushes out and whom it wakes up. *)
Definition Mux_catchUp (ans : nat -> Z) (M : Mux) : res (list tuple * list CB * Mux) :=
  let? _ := check (m_blocked M) AssertFailed in
  let? _ := check (m_timer M) AssertFailed in
  let? (out, ts, fin) := Mux_flush ans (Mux_n M) 0 (m_cbs M) (m_tuples M) in
  if fin : bool
  then Ok (out, omap id (m_cbs M), mkMux false ((fun _ => None) <$> m_cbs M) ts false)
  else Ok (out, [], mkMux (m_blocked M) (m_cbs M) ts false).

(** [Mux::push]: the answer and what goes to the output, which answers [r]. *)
Definition Mux_push (port : nat) (p : tuple) (r : Z) (cb : option CB) (M : Mux)
    : res (Z * list tuple * Mux) :=
  let? _ := check (port <? Mux_n M)%nat AssertFailed in
  let? t := vec_at (m_tuples M) port in
  let? c := vec_at (m_cbs M) port in
  if m_blocked M then
    if present t then
      let? _ := check (present c) AssertFailed in Ok (0, [], M)
    else
      let? _ := check (negb (present c)) AssertFailed in
      Ok (0, [], mkMux (m_blocked M) (<[port := cb]> (m_cbs M)) (<[port := Some p]> (m_tuples M)) (m_timer M))
  else
    let? _ := check (negb (present c) && negb (present t)) AssertFailed in
    if r =? 0
    then Ok (0, [p], mkMux true (<[port := cb]> (m_cbs M)) (m_tuples M) (m_timer M))
    else Ok (1, [p], M).

(** ** [Demux] *)

Record Demux := mkDemux {
  dx_keys : list value;
  dx_push_cb : option CB;
  dx_flags : list bool;
  dx_count : Z;
  dx_field : nat
}.

(** [noutputs()]: one output per key, and the default output, which is the
    last. *)
Definition Demux_n (D : Demux) : nat := S (length (dx_keys D)).

(** [Demux::Demux] *)
Definition Demux_mk (keys : list value) (field : nat) : Demux :=
  mkDemux keys None (replicate (S (length keys)) false) 0 field.

(** [Demux::unblock] *)
Definition Demux_unblock (output : nat) (D : Demux) : res (list CB * Demux) :=
  let? _ := check (output <=? Demux_n D)%nat AssertFailed in
  let? b := vec_at (dx_flags D) output in
  let flags := if b : bool then <[output := false]> (dx_flags D) else dx_flags D in
  let count := if b : bool then u32 (dx_count D - 1) else dx_count D in
  Ok (option_list (dx_push_cb D), mkDemux (dx_keys D) None flags count (dx_field D)).

(** The first key that equals the value, from [i] on. *)
Fixpoint key_index (key : value) (keys : list value) (i : nat) : option nat :=
  match keys with
  | [] => None
  | k :: keys => if equals k key then Some i else key_index key keys (S i)
  end.

(** [Demux::output(ValuePtr)] *)
Definition Demux_output (key : value) (D : Demux) : Z :=
  match key_index key (dx_keys D) 0 with Some i => Z.of_nat i | None => -1 end.

(** What [Demux::push] does once it knows the output: the same statements for a
    key's output and for the default. *)
Definition Demux_send (i : nat) (ans : nat -> Z) (cb : option CB) (D : Demux) : res (Z * option nat * Demux) :=
  let? b := vec_at (dx_flags D) i in
  if b : bool then
    let? _ := check (dx_count D <? Z.of_nat (Demux_n D)) AssertFailed in Ok (1, None, D)
  else if ans i =? 0 then
    let flags := <[i := true]> (dx_flags D) in
    let count := u32 (dx_count D + 1) in
    if count =? Z.of_nat (Demux_n D) then
      let? _ := check (negb (present (dx_push_cb D))) AssertFailed in
      Ok (0, Some i, mkDemux (dx_keys D) cb flags count (dx_field D))
    else Ok (1, Some i, mkDemux (dx_keys D) (dx_push_cb D) flags count (dx_field D))
  else Ok (1, Some i, D).

(** [Demux::push]: the answer and the output the tuple goes to, if any. *)
Definition Demux_push (port : nat) (p : tuple) (ans : nat -> Z) (cb : option CB) (D : Demux)
    : res (Z * option nat * Demux) :=
  let? _ := check (port =? 0)%nat AssertFailed in
  let? _ := check (0 <? Tuple_size p)%nat AssertFailed in
  if dx_count D =? Z.of_nat (Demux_n D)
  then Ok (0, None, mkDemux (dx_keys D) (match dx_push_cb D with Some c => Some c | None => cb end)
                      (dx_flags D) (dx_count D) (dx_field D))
  else
    let? first := Tuple_at p (dx_field D) in
    match key_index first (dx_keys D) 0 with
    | Some i => Demux_send i ans cb D
    | None => Demux_send (Demux_n D - 1) ans cb D
    end.

(** ** [DemuxConservative] *)

(** [_portMap] is a [std::map] ordered by [Value::Comparator]. *)
Record DemuxConservative := mkDemuxC {
  dc_push_cb : option CB;
  dc_map : list (value * nat);
  dc_blocked : Z;
  dc_field : nat;
  dc_n : nat
}.

Fixpoint number_keys (keys : list value) (i : nat) (m : list (value * nat)) : list (value * nat) :=
  match keys with
  | [] => m
  | k :: keys => number_keys keys (S i) (set_insert value_lt fst (k, i) m)
  end.

(** [DemuxConservative::DemuxConservative] *)
Definition DemuxConservative_mk (keys : list value) (field : nat) : DemuxConservative :=
  mkDemuxC None (number_keys keys 1 []) (-1) field (S (length keys)).

(** [_portMap.find(key)->second] *)
Definition port_of (key : value) (m : list (value * nat)) : option nat :=
  match set_find value_lt fst key m with Some i => snd <$> m !! i | None => None end.

(** [DemuxConservative::output] *)
Definition DemuxConservative_output (key : value) (D : DemuxConservative) : Z :=
  match port_of key (dc_map D) with Some i => Z.of_nat i | None => -1 end.

(** [DemuxConservative::unblock] *)
Definition DemuxConservative_unblock (output : nat) (D : DemuxConservative)
    : res (list CB * DemuxConservative) :=
  let? _ := check (output <=? dc_n D)%nat AssertFailed in
  if dc_blocked D =? Z.of_nat output
  then Ok (option_list (dc_push_cb D), mkDemuxC None (dc_map D) (-1) (dc_field D) (dc_n D))
  else Ok ([], D).

(** [DemuxConservative::push]; [r] is the answer of the output. *)
Definition DemuxConservative_push (port : nat) (p : tuple) (r : Z) (cb : option CB)
    (D : DemuxConservative) : res (Z * option nat * DemuxConservative) :=
  let? _ := check (port =? 0)%nat AssertFailed in
  let? _ := check (dc_field D <=? Tuple_size p)%nat AssertFailed in
  if negb (dc_blocked D =? -1)
  then Ok (0, None, mkDemuxC (match dc_push_cb D with Some c => Some c | None => cb end)
                      (dc_map D) (dc_blocked D) (dc_field D) (dc_n D))
  else
    let? key := Tuple_at p (dc_field D) in
    let o := match port_of key (dc_map D) with Some i => i | None => O end in
    if r =? 0 then
      let? _ := check (negb (present (dc_push_cb D))) AssertFailed in
      Ok (0, Some o, mkDemuxC cb (dc_map D) (Z.of_nat o) (dc_field D) (dc_n D))
    else Ok (1, Some o, D).

(** ** [DDemux] *)

Record DDemux := mkDDemux {
  dd_out : ports;
  dd_push_cb : option CB;
  dd_map : list (value * nat);
  dd_flags : list bool;
  dd_count : Z;
  dd_field : nat
}.

(** [DDemux::add_output] *)
Definition DDemux_add_output (key : value) (D : DDemux) : res (nat * DDemux) :=
  match port_of key (dd_map D) with
  | Some i => Ok (i, D)
  | None =>
      let? (i, P) := addPort (dd_out D) in
      let m := set_insert value_lt fst (key, i) (dd_map D) in
      let? flags :=
        if (i =? length (dd_flags D))%nat then Ok (dd_flags D ++ [false])
        else
          let? b := vec_at (dd_flags D) i in
          let? _ := check (negb b) AssertFailed in Ok (dd_flags D) in
      Ok (i, mkDDemux P (dd_push_cb D) m flags (dd_count D) (dd_field D))
  end.

Fixpoint DDemux_add_all (keys : list value) (D : DDemux) : res DDemux :=
  match keys with
  | [] => Ok D
  | k :: keys =>
      let? (i, D) := DDemux_add_output k D in
      let? _ := check (0 <? i)%nat AssertFailed in
      DDemux_add_all keys D
  end.

(** [DDemux::DDemux] *)
Definition DDemux_mk (keys : list value) (field : nat) : res DDemux :=
  DDemux_add_all keys (mkDDemux (portSetup 1) None [] [false] 0 field).

(** [DDemux::output] *)
Definition DDemux_output (key : value) (D : DDemux) : Z :=
  match port_of key (dd_map D) with Some i => Z.of_nat i | None => -1 end.

(** [DDemux::remove_block_flag] *)
Definition remove_block_flag (i : nat) (D : DDemux) : res DDemux :=
  let? b := vec_at (dd_flags D) i in
  let flags := if b : bool then <[i := false]> (dd_flags D) else dd_flags D in
  let count := if b : bool then u32 (dd_count D - 1) else dd_count D in
  let flags := if (i + 1 =? length flags)%nat then take i flags else flags in
  Ok (mkDDemux (dd_out D) (dd_push_cb D) (dd_map D) flags count (dd_field D)).

(** [DDemux::remove_output(unsigned)]: it calls itself after each entry it
    erases; the answer is always the one of the last call. *)
Fixpoint DDemux_remove_port (fuel : nat) (i : nat) (D : DDemux) : res (Z * DDemux) :=
  match fuel with
  | O => Fail OutOfFuel
  | S fuel =>
      let? _ := check (negb (i =? 0)%nat) AssertFailed in
      match list_find (fun e => snd e = i) (dd_map D) with
      | Some (j, _) =>
          let? D := remove_block_flag i
            (mkDDemux (dd_out D) (dd_push_cb D) (delete j (dd_map D)) (dd_flags D) (dd_count D) (dd_field D)) in
          DDemux_remove_port fuel i D
      | None => Ok (-1, D)
      end
  end.

(** [DDemux::remove_output(ValuePtr)]: for a key that is not in the map it
    dereferences [end()]. *)
Definition DDemux_remove_output (key : value) (D : DDemux) : res (Z * DDemux) :=
  match set_find value_lt fst key (dd_map D) with
  | Some _ => Ok (-1, D)
  | None => Fail UndefinedBehaviour
  end.

(** [DDemux::unblock] *)
Definition DDemux_unblock (output : nat) (D : DDemux) : res (list CB * DDemux) :=
  let? _ := check (output <=? length (dd_flags D))%nat AssertFailed in
  let? b := vec_at (dd_flags D) output in
  let flags := if b : bool then <[output := false]> (dd_flags D) else dd_flags D in
  let count := if b : bool then u32 (dd_count D - 1) else dd_count D in
  let D := mkDDemux (dd_out D) (dd_push_cb D) (dd_map D) flags count (dd_field D) in
  match dd_push_cb D with
  | None => Ok ([], D)
  | Some c =>
      let? there := has_port output (dd_out D) in
      if there : bool
      then Ok ([c], mkDDemux (dd_out D) None (dd_map D) (dd_flags D) (dd_count D) (dd_field D))
      else Ok ([], D)
  end.

(** What [DDemux::push] does once it knows the output.  When the last output
    that was free blocks, the branch of a key asserts that no callback is
    waiting, the branch of the default output that one is ([want]). *)
Definition DDemux_send (want : bool) (i : nat) (r : Z) (cb : option CB) (D : DDemux)
    : res (Z * option nat * DDemux) :=
  let? b := vec_at (dd_flags D) i in
  if b : bool then
    let? _ := check (dd_count D <? p_n (dd_out D)) AssertFailed in Ok (1, None, D)
  else
    let? _ := port_peer i (dd_out D) in
    if r =? 0 then
      let flags := <[i := true]> (dd_flags D) in
      let count := u32 (dd_count D + 1) in
      if count =? p_n (dd_out D) then
        let? _ := check (eqb (present (dd_push_cb D)) want) AssertFailed in
        Ok (0, Some i, mkDDemux (dd_out D) cb (dd_map D) flags count (dd_field D))
      else Ok (1, Some i, mkDDemux (dd_out D) (dd_push_cb D) (dd_map D) flags count (dd_field D))
    else Ok (1, Some i, D).

(** [DDemux::push]; [r] is the answer of the output. *)
Definition DDemux_push (port : nat) (p : tuple) (r : Z) (cb : option CB) (D : DDemux)
    : res (Z * option nat * DDemux) :=
  let? _ := check (port =? 0)%nat AssertFailed in
  let? _ := check (0 <? Tuple_size p)%nat AssertFailed in
  if dd_count D =? p_n (dd_out D)
  then Ok (0, None, mkDDemux (dd_out D) (match dd_push_cb D with Some c => Some c | None => cb end)
                      (dd_map D) (dd_flags D) (dd_count D) (dd_field D))
  else
    let? key := Tuple_at p (dd_field D) in
    match port_of key (dd_map D) with
    | Some i => DDemux_send false i r cb D
    | None => DDemux_send true 0 r cb D
    end.

(** ** [DDuplicateConservative] *)

Record DDuplicate := mkDDup {
  du_out : ports;
  du_push_cb : option CB;
  du_flags : list bool;
  du_count : Z
}.

(** [DDuplicateConservative::DDuplicateConservative] *)
Definition DDuplicate_mk (n : nat) : DDuplicate := mkDDup (portSetup n) None (replicate n false) 0.

(** [DDuplicateConservative::unblock] *)
Definition DDuplicate_unblock (output : nat) (D : DDuplicate) : res (list CB * DDuplicate) :=
  let? _ := check (Z.of_nat output <=? p_n (du_out D)) AssertFailed in
  let? b := vec_at (du_flags D) output in
  let flags := if b : bool then <[output := false]> (du_flags D) else du_flags D in
  let count := if b : bool then u32 (du_count D - 1) else du_count D in
  if count =? 0 then
    let? c := of_option ExternalException (du_push_cb D) in
    Ok ([c], mkDDup (du_out D) None flags count)
  else Ok ([], mkDDup (du_out D) (du_push_cb D) flags count).

(** The loop of [DDuplicateConservative::push]. *)
Fixpoint DDuplicate_loop (ans : nat -> Z) (P : ports) (k i : nat) (flags : list bool) (count : Z)
    : res (list nat * list bool * Z) :=
  match k with
  | O => Ok ([], flags, count)
  | S k =>
      let? _ := port_peer i P in
      let? b := vec_at flags i in
      let? _ := check (negb b) AssertFailed in
      let '(flags, count) := if ans i =? 0 then (<[i := true]> flags, u32 (count + 1)) else (flags, count) in
      let? (sent, flags, count) := DDuplicate_loop ans P k (S i) flags count in
      Ok (i :: sent, flags, count)
  end.

(** [DDuplicateConservative::push] *)
Definition DDuplicate_push (port : nat) (p : tuple) (ans : nat -> Z) (cb : option CB) (D : DDuplicate)
    : res (Z * list nat * DDuplicate) :=
  let? _ := check (port =? 0)%nat AssertFailed in
  if 0 <? du_count D then
    let? _ := check (present (du_push_cb D)) AssertFailed in Ok (0, [], D)
  else
    let? _ := check (du_count D =? 0) AssertFailed in
    let? _ := check (negb (present (du_push_cb D))) AssertFailed in
    let? (sent, flags, count) :=
      DDuplicate_loop ans (du_out D) (Z.to_nat (p_n (du_out D))) 0 (du_flags D) (du_count D) in
    if 0 <? count then Ok (0, sent, mkDDup (du_out D) cb flags count)
    else Ok (1, sent, mkDDup (du_out D) (du_push_cb D) flags count).

(** [DDuplicateConservative::add_output] *)
Definition DDuplicate_add_output (D : DDuplicate) : res (nat * DDuplicate) :=
  let? (i, P) := addPort (du_out D) in
  Ok (i, mkDDup P (du_push_cb D) (du_flags D ++ [false]) (du_count D)).

(** [DDuplicateConservative::remove_output] *)
Definition DDuplicate_remove_output (i : nat) (D : DDuplicate) : Z * DDuplicate :=
  let '(r, P) := deletePort i (du_out D) in
  (r, mkDDup P (du_push_cb D) (du_flags D) (du_count D)).
End route.
Arguments DDuplicate : clear implicits.
Arguments Mux : clear implicits.
Arguments Demux : clear implicits.
Arguments DemuxConservative : clear implicits.
Arguments DDemux : clear implicits.

(** ** [Mux]: nobody waits forever, but a tuple may go out twice *)

Section mux.
Context {CB : Type}.
Implicit Types (M : Mux CB).

(** A buffered tuple has a waiting pusher, and pushers wait only while the
    output is blocked. *)
Record mux_wf M : Prop := mkMuxWf {
  mux_len : length (m_tuples M) = length (m_cbs M);
  mux_pending : forall i t, m_tuples M !! i = Some (Some t) -> exists c, m_cbs M !! i = Some (Some c);
  mux_free : m_blocked M = false ->
    m_timer M = false /\ Forall (fun c => c = None) (m_cbs M) /\ Forall (fun t => t = None) (m_tuples M)
}.

Lemma mux_flush_spec ans k i (cbs : list (option CB)) ts : (i + k = length ts)%nat ->
  (forall j t, ts !! j = Some (Some t) -> exists c, cbs !! j = Some (Some c)) ->
  (forall j, (j < i)%nat -> ts !! j = Some None) ->
  exists out ts' fin, Mux_flush ans k i cbs ts = Ok (out, ts', fin) /\ length ts' = length ts /\
  (forall j t, ts' !! j = Some (Some t) -> ts !! j = Some (Some t)) /\
  (fin = true -> Forall (fun t => t = None) ts' /\ out = omap id (drop i ts)) /\
  (fin = false -> exists j t, ts' !! j = Some (Some t) /\ last out = Some t).
Proof.
  revert i ts. induction k as [|k IH]; intros i ts Hik Hp Hlow; simpl.
  - do 3 eexists. split; [done|]. split_and!; try done. intros _. split.
    + apply Forall_lookup. intros j t Hj. pose proof (lookup_lt_Some _ _ _ Hj).
      rewrite Hlow in Hj by lia. by injection Hj as <-.
    + by rewrite drop_ge by lia.
  - destruct (lookup_lt_is_Some_2 ts i ltac:(lia)) as [o Hi]. unfold vec_at. rewrite Hi. cbn [of_option rbind].
    rewrite (drop_S ts o i Hi). destruct o as [t|].
    + destruct (Hp i t Hi) as [c Hc]. rewrite Hc. cbn [of_option rbind present check].
      destruct (ans i =? 0).
      * exists [t], ts, false. split; [done|]. split_and!; try done. intros _. by exists i, t.
      * destruct (IH (S i) (<[i := None]> ts)) as (out & ts' & fin & -> & Hl & Hk & Hf & Hn).
        -- rewrite length_insert. lia.
        -- intros j u Hj. apply list_lookup_insert_Some in Hj as [(_ & ? & _)|[_ Hj]]; [done|eauto].
        -- intros j Hj. destruct (decide (i = j)) as [<-|].
           ++ apply list_lookup_insert_eq. lia.
           ++ rewrite list_lookup_insert_ne by done. apply Hlow. lia.
        -- rewrite length_insert in Hl. cbn [rbind]. exists (t :: out), ts', fin. split; [done|].
           rewrite drop_insert_lt in Hf by lia. split_and!; [done| | |].
           ++ intros j u Hj. apply Hk in Hj.
              apply list_lookup_insert_Some in Hj as [(_ & ? & _)|[_ Hj]]; [done|done].
           ++ intros ->. destruct (Hf eq_refl) as [H1 H2]. split; [done|]. rewrite H2. done.
           ++ intros ->. destruct (Hn eq_refl) as (j & u & H1 & H2). exists j, u.
              split; [done|]. by destruct out.
    + destruct (IH (S i) ts) as (out & ts' & fin & -> & Hl & Hk & Hf & Hn).
      * lia.
      * done.
      * intros j Hj. destruct (decide (j = i)) as [->|]; [done|]. apply Hlow. lia.
      * by exists out, ts', fin.
Qed.

Lemma mux_flush_skip ans k j i (cbs : list (option CB)) ts : (j <= i)%nat ->
  (forall x, (j <= x < i)%nat -> ts !! x = Some None) ->
  Mux_flush ans (i - j + k) j cbs ts = Mux_flush ans k i cbs ts.
Proof.
  intros Hj. remember (i - j)%nat as d eqn:Ed. revert j Hj Ed.
  induction d as [|d IH]; intros j Hj Ed Hn; simpl.
  - by replace j with i by lia.
  - unfold vec_at. rewrite Hn by lia. cbn [of_option rbind]. apply IH; [lia..|].
    intros x Hx. apply Hn. lia.
Qed.

(** The element among neighbours that keep the protocol: a pusher that was
    answered 0 waits for its callback; the output calls [Mux::callback] once
    for each push it answered with 0 ([owed]: that call is still to come); the
    event loop runs [catchUp] once it is scheduled. *)
Inductive mux_system : Mux CB -> bool -> Prop :=
  | mux_new n : mux_system (Mux_mk n) false
  | mux_pushed M owed port p r c a out M' : mux_system M owed ->
      m_cbs M !! port = Some None -> Mux_push port p r (Some c) M = Ok (a, out, M') ->
      mux_system M' (owed || match out with [] => false | _ => r =? 0 end)
  | mux_called M M' : mux_system M true -> Mux_callback M = Ok M' -> mux_system M' false
  | mux_caught_up M owed ans out called M' : mux_system M owed -> m_timer M = true ->
      Mux_catchUp ans M = Ok (out, called, M') -> mux_system M' (m_blocked M').

(** What such a system looks like at any time. *)
Definition mux_inv M (owed : bool) : Prop :=
  mux_wf M /\ owed = m_blocked M && negb (m_timer M).

Lemma mux_push_inv M owed port p r c a out M' : mux_inv M owed -> m_cbs M !! port = Some None ->
  Mux_push port p r (Some c) M = Ok (a, out, M') ->
  mux_inv M' (owed || match out with [] => false | _ => r =? 0 end).
Proof.
  intros [[Hl Hp Hf] Ho] Hc. pose proof (lookup_lt_Some _ _ _ Hc) as Hlt. unfold Mux_push.
  replace (port <? Mux_n M)%nat with true by (symmetry; by apply Nat.ltb_lt).
  destruct (lookup_lt_is_Some_2 (m_tuples M) port ltac:(lia)) as [t Ht].
  unfold vec_at. rewrite Hc, Ht. cbn [of_option rbind check present negb andb].
  destruct t as [t|]; [destruct (Hp _ _ Ht); congruence|]. cbn [present].
  destruct (m_blocked M) eqn:EB; cbn [rbind check].
  - intros [= <- <- <-]. rewrite orb_false_r. split; [|simpl; by rewrite Ho].
    split; simpl; [by rewrite !length_insert| |done].
    intros i u Hi. apply list_lookup_insert_Some in Hi as [(<- & _ & _)|[Hne Hi]].
    + exists c. by apply list_lookup_insert_eq.
    + rewrite list_lookup_insert_ne by done. eauto.
  - destruct (Hf eq_refl) as (HT & HC & HTs). destruct (r =? 0); intros [= <- <- <-].
    + rewrite orb_true_r. split; [|simpl; by rewrite HT].
      split; simpl; [by rewrite length_insert| |done].
      intros i u Hi. rewrite Forall_lookup in HTs. by apply HTs in Hi.
    + rewrite orb_false_r. split; [|by rewrite Ho, EB]. by split.
Qed.

Lemma mux_catchUp_inv M owed ans : mux_inv M owed -> m_timer M = true ->
  exists out called M', Mux_catchUp ans M = Ok (out, called, M') /\ mux_inv M' (m_blocked M') /\
  (m_blocked M' = false -> out = omap id (m_tuples M) /\ called = omap id (m_cbs M)).
Proof.
  intros [[Hl Hp Hf] Ho] HT. unfold Mux_catchUp.
  destruct (m_blocked M) eqn:EB; [|by destruct (Hf eq_refl); congruence].
  rewrite HT. cbn [check rbind]. unfold Mux_n. rewrite <- Hl.
  destruct (mux_flush_spec ans (length (m_tuples M)) 0 (m_cbs M) (m_tuples M))
    as (out & ts' & fin & -> & Hl' & Hk & Hf' & _); [lia|done|lia|]. cbn [rbind].
  destruct fin.
  - destruct (Hf' eq_refl) as [H1 H2]. do 3 eexists. split; [done|]. split; [|done].
    split; [|done]. split; simpl; [by rewrite length_fmap, Hl'| |].
    + intros i t Hi. rewrite Forall_lookup in H1. by apply H1 in Hi.
    + intros _. split_and!; [done| |done]. apply Forall_fmap, Forall_true. done.
  - do 3 eexists. split; [done|]. split; [|done]. split; [|done].
    split; simpl; [by rewrite Hl'| |done]. eauto.
Qed.

Lemma mux_system_inv M owed : mux_system M owed -> mux_inv M owed.
Proof.
  induction 1 as [n|M owed port p r c a out M' _ IH Hc HP|M M' _ IH HP|M owed ans out called M' _ IH HT HP].
  - split; [|done]. split; simpl; [by rewrite !length_replicate| |].
    + intros i t Hi. by apply lookup_replicate in Hi as [? _].
    + intros _. split_and!; [done|by apply Forall_replicate..].
  - by eapply mux_push_inv.
  - destruct IH as [[Hl Hp Hf] Ho]. symmetry in Ho. apply andb_true_iff in Ho as [Hb Ht].
    unfold Mux_callback in HP. rewrite Ht in HP. injection HP as <-.
    split; [|simpl; by rewrite Hb]. split; simpl; [done..|]. by rewrite Hb.
  - destruct (mux_catchUp_inv M owed ans IH HT) as (? & ? & ? & E & HI & _). congruence.
Qed.

(** Among neighbours that keep the protocol no assertion of [Mux] fails, and
    nobody waits forever: whenever a pusher waits, either the output still owes
    its call or [catchUp] is scheduled, and a [catchUp] that finds room sends
    all buffered tuples and wakes all waiting pushers. *)
Theorem mux_never_stuck M owed : mux_system M owed ->
  (forall port p r c, m_cbs M !! port = Some None ->
    exists a out M', Mux_push port p r (Some c) M = Ok (a, out, M')) /\
  (owed = true -> exists M', Mux_callback M = Ok M') /\
  (forall i c, m_cbs M !! i = Some (Some c) -> owed = true \/ m_timer M = true) /\
  (forall ans, m_timer M = true -> exists out called M', Mux_catchUp ans M = Ok (out, called, M') /\
    (m_blocked M' = false -> out = omap id (m_tuples M) /\ called = omap id (m_cbs M))).
Proof.
  intros HS. pose proof (mux_system_inv M owed HS) as HI. pose proof HI as [[Hl Hp Hf] Ho].
  split_and!.
  - intros port p r c Hc. pose proof (lookup_lt_Some _ _ _ Hc) as Hlt. unfold Mux_push.
    replace (port <? Mux_n M)%nat with true by (symmetry; by apply Nat.ltb_lt).
    destruct (lookup_lt_is_Some_2 (m_tuples M) port ltac:(lia)) as [[t|] Ht];
      [destruct (Hp _ _ Ht); congruence|].
    unfold vec_at. rewrite Hc, Ht. simpl. destruct (m_blocked M); [eauto|]. simpl.
    destruct (r =? 0); eauto.
  - intros ->. symmetry in Ho. apply andb_true_iff in Ho as [_ Ht].
    unfold Mux_callback. rewrite Ht. simpl. eauto.
  - intros i c Hi. destruct (m_blocked M) eqn:EB; [|].
    + rewrite Ho. destruct (m_timer M); auto.
    + destruct (Hf eq_refl) as (_ & HC & _). rewrite Forall_lookup in HC. by apply HC in Hi.
  - intros ans HT. destruct (mux_catchUp_inv M owed ans HI HT) as (out & called & M' & E & _ & H).
    eauto.
Qed.

(** In [push] an answer of 0 means that the output took the tuple and has no
    room for more; [catchUp] takes it for a refusal.  The tuple on which the
    output blocks stays buffered, and the next [catchUp] pushes it again. *)
Theorem mux_repeats M ans i t : mux_wf M -> m_blocked M = true -> m_timer M = true ->
  m_tuples M !! i = Some (Some t) -> (forall j, (j < i)%nat -> m_tuples M !! j = Some None) ->
  ans i = 0 ->
  exists M1 M2, Mux_catchUp ans M = Ok ([t], [], M1) /\ Mux_callback M1 = Ok M2 /\
  forall ans', exists out called M3, Mux_catchUp ans' M2 = Ok (t :: out, called, M3).
Proof.
  intros [Hl Hp Hf] HB HT Hi Hlow Ha. pose proof (lookup_lt_Some _ _ _ Hi) as Hlt.
  destruct (Hp i t Hi) as [c Hc]. set (k := (length (m_tuples M) - S i)%nat).
  assert (HF : forall ans, exists out ts fin,
    Mux_flush ans (Mux_n M) 0 (m_cbs M) (m_tuples M) = Ok (t :: out, ts, fin) /\
    (ans i = 0 -> out = [] /\ ts = m_tuples M /\ fin = false)).
  { intros ans0. replace (Mux_n M) with (i - 0 + S k)%nat by (unfold Mux_n, k; lia).
    rewrite mux_flush_skip by (lia || intros; apply Hlow; lia).
    destruct (mux_flush_spec ans0 (S k) i (m_cbs M) (m_tuples M)) as (out & ts & fin & E & _);
      [unfold k; lia|done|done|].
    rewrite E. revert E. cbn [Mux_flush]. unfold vec_at. rewrite Hi, Hc. cbn [of_option rbind present check].
    destruct (Z.eqb_spec (ans0 i) 0) as [E0|E0].
    - intros [= <- <- <-]. by exists [], (m_tuples M), false.
    - destruct (Mux_flush ans0 k (S i) _ _) as [[[out' ts'] fin']|]; [|done]. cbn [rbind].
      intros [= <- <- <-]. exists out', ts', fin'. by split. }
  destruct (HF ans) as (out & ts & fin & E & HO). destruct (HO Ha) as (-> & -> & ->).
  unfold Mux_catchUp at 1. rewrite HB, HT. cbn [check rbind]. rewrite E. cbn [rbind].
  do 2 eexists. split; [done|]. split; [done|]. intros ans'.
  destruct (HF ans') as (out & ts & fin & E' & _).
  unfold Mux_catchUp. cbn [m_blocked m_timer m_cbs m_tuples check rbind Mux_n] in *.
  unfold Mux_n in *. cbn [m_cbs]. rewrite E'. cbn [rbind]. destruct fin; eauto.
Qed.
End mux.

(** ** Routing *)

Section demux.
Context {CB : Type}.
Implicit Types (D : Demux CB).

Record demux_wf D : Prop := mkDemuxWf {
  dx_wf_n : Z.of_nat (Demux_n D) < 2 ^ 32 - 1;
  dx_wf_flags : length (dx_flags D) = Demux_n D;
  dx_wf_count : dx_count D = Z.of_nat (blocked (dx_flags D));
  dx_wf_cb : dx_push_cb D <> None -> dx_count D = Z.of_nat (Demux_n D)
}.

(** The output for a value: the first key that equals it, or the default. *)
Definition target (key : value) D : nat :=
  match key_index key (dx_keys D) 0 with Some i => i | None => length (dx_keys D) end.

Lemma key_index_spec key keys i : match key_index key keys i with
  | Some j => exists k, (i <= j)%nat /\ keys !! (j - i)%nat = Some k /\ equals k key = true /\
      forall x k', (x < j - i)%nat -> keys !! x = Some k' -> equals k' key = false
  | None => Forall (fun k => equals k key = false) keys
  end.
Proof.
  revert i. induction keys as [|k keys IH]; intros i; simpl; [constructor|].
  destruct (equals k key) eqn:E.
  - exists k. rewrite Nat.sub_diag. split_and!; [lia|done|done|lia].
  - specialize (IH (S i)). destruct (key_index key keys (S i)) as [j|]; [|by constructor].
    destruct IH as (k1 & Hj & Hl & He & Hx). exists k1.
    replace (j - i)%nat with (S (j - S i)) by lia. split_and!; [lia|done|done|].
    intros [|x] k' Hlt Hk; simpl in Hk; [congruence|]. apply (Hx x k'); [lia|done].
Qed.

Lemma target_bound key D : (target key D < Demux_n D)%nat.
Proof.
  unfold target, Demux_n. pose proof (key_index_spec key (dx_keys D) 0) as H.
  destruct (key_index key (dx_keys D) 0) as [j|]; [|lia].
  destruct H as (k & _ & Hl & _). apply lookup_lt_Some in Hl. lia.
Qed.

(** [Demux] sends a tuple to the output of the first key that equals its field,
    or to the default output, unless that output is blocked: then the tuple is
    dropped.  Only that output's flag can change; the answer is 0 exactly when
    all outputs are blocked, and then a callback is held.  No assertion fails. *)
Theorem demux_push_correct p key ans cb D : demux_wf D -> fields p !! dx_field D = Some key ->
  exists r o D', Demux_push 0 p ans cb D = Ok (r, o, D') /\ demux_wf D' /\
  dx_keys D' = dx_keys D /\
  o = (if decide (dx_flags D !! target key D = Some true) then None else Some (target key D)) /\
  dx_flags D' = (if decide (o <> None /\ ans (target key D) = 0)
                 then <[target key D := true]> (dx_flags D) else dx_flags D) /\
  r = (if decide (blocked (dx_flags D') = Demux_n D) then 0 else 1) /\
  (r = 0 -> dx_push_cb D' = match dx_push_cb D with Some c => Some c | None => cb end).
Proof.
  intros HW Hk. pose proof HW as [Hn Hf Hc Hp]. pose proof (lookup_lt_Some _ _ _ Hk) as Hl.
  pose proof (target_bound key D) as Ht. unfold Demux_push.
  replace (0 <? Tuple_size p)%nat with true
    by (symmetry; apply Nat.ltb_lt; unfold Tuple_size; lia). simpl check. cbn [rbind].
  destruct (Z.eqb_spec (dx_count D) (Z.of_nat (Demux_n D))) as [E|E].
  - pose proof (blocked_all (dx_flags D) (target key D) ltac:(lia) ltac:(lia)) as HT.
    rewrite (decide_True (P := dx_flags D !! _ = _)) by done.
    do 3 eexists. split; [done|]. split; [by split|]. simpl.
    rewrite decide_True by lia. done.
  - unfold Tuple_at. rewrite Hk. cbn [of_option rbind].
    assert (match key_index key (dx_keys D) 0 with
            | Some i => Demux_send i ans cb D
            | None => Demux_send (Demux_n D - 1) ans cb D end = Demux_send (target key D) ans cb D) as ->.
    { unfold target, Demux_n. destruct (key_index _ _ _); [done|]. f_equal. lia. }
    assert (dx_push_cb D = None) as Hcb by (destruct (dx_push_cb D); [by specialize (Hp ltac:(done))|done]).
    set (i := target key D) in *. unfold Demux_send.
    destruct (lookup_lt_is_Some_2 (dx_flags D) i ltac:(lia)) as [b Hb].
    pose proof (blocked_bound (dx_flags D)) as HBd.
    unfold vec_at. rewrite Hb. cbn [of_option rbind]. destruct b.
    + replace (dx_count D <? Z.of_nat (Demux_n D)) with true by (symmetry; apply Z.ltb_lt; lia).
      rewrite decide_True by done. do 3 eexists. split; [done|]. split; [done|].
      rewrite (decide_False (P := _ /\ _)) by (intros [Hx _]; done). rewrite decide_False by lia. done.
    + rewrite (decide_False (P := Some false = Some true)) by done.
      pose proof (blocked_insert _ _ _ true Hb) as HB. simpl in HB.
      pose proof (blocked_bound (<[i := true]> (dx_flags D))) as HB'. rewrite length_insert in HB'.
      rewrite (u32_small (dx_count D + 1)) by (unfold is_u32; lia).
      destruct (Z.eqb_spec (ans i) 0) as [Ea|Ea].
      * rewrite Hcb. destruct (Z.eqb_spec (dx_count D + 1) (Z.of_nat (Demux_n D))) as [E1|E1];
          do 3 eexists; (split; [done|]); simpl.
        all: split; [split; simpl; try done; try lia; by rewrite length_insert|].
        all: rewrite (decide_True (P := _ /\ _)) by done; split_and!; try done.
        -- rewrite decide_True by lia. done.
        -- rewrite decide_False by lia. done.
      * do 3 eexists. split; [done|]. split; [done|].
        rewrite (decide_False (P := _ /\ _)) by (intros [_ Hx]; done). rewrite decide_False by lia. done.
Qed.

(** A wake-up of an output clears its flag and wakes the pusher, if one waits. *)
Lemma demux_unblock_correct D i : demux_wf D -> (i < Demux_n D)%nat ->
  exists D', Demux_unblock i D = Ok (option_list (dx_push_cb D), D') /\ demux_wf D' /\
  dx_flags D' = <[i := false]> (dx_flags D) /\ dx_keys D' = dx_keys D /\ dx_push_cb D' = None.
Proof.
  intros [Hn Hf Hc Hp] Hi. unfold Demux_unblock.
  replace (i <=? Demux_n D)%nat with true by (symmetry; apply Nat.leb_le; lia). cbn [check rbind].
  destruct (lookup_lt_is_Some_2 (dx_flags D) i ltac:(lia)) as [b Hb].
  unfold vec_at. rewrite Hb. cbn [of_option rbind]. pose proof (blocked_insert _ _ _ false Hb) as HB.
  pose proof (blocked_bound (dx_flags D)) as HBd. eexists. split; [done|].
  destruct b; simpl in HB |- *.
  - rewrite (u32_small (dx_count D - 1)) by (unfold is_u32; lia).
    split; [|done]. split; simpl; try done; try lia. by rewrite length_insert.
  - rewrite list_insert_id by done. split; [|done]. by split.
Qed.
End demux.

(** [DDemux]: when the default output is the last one that was free and it
    blocks, the element asserts that a pusher is already waiting.  None is, so
    the program stops where it should have blocked its input. *)
Lemma ddemux_default_asserts {CB} (D : DDemux CB) p key cb e :
  fields p !! dd_field D = Some key -> port_of key (dd_map D) = None ->
  dd_push_cb D = None -> dd_flags D !! 0%nat = Some false -> port_peer 0 (dd_out D) = Ok e ->
  0 <= dd_count D -> dd_count D + 1 = p_n (dd_out D) -> p_n (dd_out D) < 2 ^ 32 ->
  DDemux_push 0 p 0 cb D = Fail AssertFailed.
Proof.
  intros Hk Hm Hcb Hf Hp H0 Hc Hlt. pose proof (lookup_lt_Some _ _ _ Hk).
  unfold DDemux_push. replace (0 <? Tuple_size p)%nat with true
    by (symmetry; apply Nat.ltb_lt; unfold Tuple_size; lia). simpl check. cbn [rbind].
  destruct (Z.eqb_spec (dd_count D) (p_n (dd_out D))); [lia|].
  unfold Tuple_at. rewrite Hk. cbn [of_option rbind]. rewrite Hm.
  unfold DDemux_send, vec_at. rewrite Hf. cbn [of_option rbind].
  rewrite Hp. cbn [rbind].
  rewrite Z.eqb_refl, Hc, u32_small by (unfold is_u32; lia). rewrite Z.eqb_refl, Hcb. done.
Qed.

(** Outputs cannot be removed: for a key that is present nothing happens, for
    one that is not the behaviour is undefined. *)
Lemma ddemux_remove_never {CB} (D : DDemux CB) key :
  DDemux_remove_output key D = Ok (-1, D) \/ DDemux_remove_output key D = Fail UndefinedBehaviour.
Proof. unfold DDemux_remove_output. destruct (set_find _ _ _ _); auto. Qed.

(** ** The theorems on concrete elements *)

(** A multiplexer of two inputs after its output blocked on a tuple of the
    first, a tuple of the second was buffered, and the output called back. *)
Definition mux_example : Mux nat :=
  mkMux true [Some 1%nat; Some 2%nat] [None; Some (a_tuple 5)] true.

Lemma mux_example_reachable : mux_system mux_example false.
Proof.
  eapply (mux_called (mkMux true [Some 1%nat; Some 2%nat] [None; Some (a_tuple 5)] false)); [|reflexivity].
  apply (mux_pushed (mkMux true [Some 1%nat; None] [None; None] false) true 1 (a_tuple 5) 1 2%nat 0 []);
    [|reflexivity|reflexivity].
  apply (mux_pushed (Mux_mk 2) false 0 (a_tuple 4) 0 1%nat 0 [a_tuple 4]); [apply mux_new|reflexivity|reflexivity].
Qed.

Lemma mux_never_stuck_witness : exists out called M', Mux_catchUp (fun _ => 1) mux_example = Ok (out, called, M') /\
  out = [a_tuple 5] /\ called = [1%nat; 2%nat].
Proof.
  destruct (mux_never_stuck mux_example false mux_example_reachable) as (_ & _ & _ & H).
  destruct (H (fun _ => 1) eq_refl) as (out & called & M' & E & HC).
  exists out, called, M'. split; [exact E|]. vm_compute in E. injection E as <- <- <-.
  split; reflexivity.
Defined.

Lemma mux_repeats_witness : exists M1 M2,
  Mux_catchUp (fun _ => 0) mux_example = Ok ([a_tuple 5], [], M1) /\ Mux_callback M1 = Ok M2 /\
  forall ans', exists out called M3, Mux_catchUp ans' M2 = Ok (a_tuple 5 :: out, called, M3).
Proof.
  apply (mux_repeats mux_example (fun _ => 0) 1 (a_tuple 5)).
  - apply (mux_system_inv _ _ mux_example_reachable).
  - reflexivity.
  - reflexivity.
  - reflexivity.
  - intros j Hj. replace j with 0%nat by lia. reflexivity.
  - reflexivity.
Defined.

Lemma demux_push_correct_witness : exists r o D',
  Demux_push 0 (a_tuple 5) (fun _ => 0) (Some 3%nat) (Demux_mk [VInt64 4; VInt64 5] 0) = Ok (r, o, D') /\
  o = Some 1%nat /\ r = 1.
Proof.
  destruct (demux_push_correct (CB := nat) (a_tuple 5) (VInt64 5) (fun _ => 0) (Some 3%nat)
    (Demux_mk [VInt64 4; VInt64 5] 0)) as (r & o & D' & E & _).
  - split; [vm_compute; reflexivity|reflexivity|vm_compute; reflexivity|intros H; by destruct H].
  - reflexivity.
  - exists r, o, D'. split; [exact E|]. vm_compute in E. injection E as <- <- <-. split; reflexivity.
Defined.
