(* ===== verification/Sched.v ===== *)
(** * Runnables, the scheduler and a pipeline of elements
    (src/p2core/iRunnable.h, scheduler.C, src/elements/pullPush.C,
    timedPullPush.C, switch.C)

    The elements that move tuples from a pull input to a push output, and the
    loop of the scheduler that runs them.  The neighbours of [PullPush] and
    [Switch] are given by two functions on a state [E]; [pipe] puts a [Queue], a
    [PullPush] and a [Slot] together. *)

From S2P Require Import Prelude Ids Stl Values Tuples Casts Elements.

Local Open Scope p2_scope.

(** ** Runnables *)

(** [IRunnable::State] *)
Inductive RunState := QUIECENE | ACTIVE | BLOCKED | OFF.

#[export] Instance RunState_eq_dec : EqDecision RunState.
Proof. solve_decision. Defined.

(** The value of the enumeration. *)
Definition state_code (s : RunState) : Z :=
  match s with QUIECENE => 0 | ACTIVE => 1 | BLOCKED => 2 | OFF => 3 end.

(** The proxies [PullPush::Runnable] and [Switch::Runnable]. *)
Record Runnable := mkRunnable { r_state : RunState; r_pullPending : bool; r_pushPending : bool }.

Definition set_pull (b : bool) (P : Runnable) : Runnable := mkRunnable (r_state P) b (r_pushPending P).
Definition set_push (b : bool) (P : Runnable) : Runnable := mkRunnable (r_state P) (r_pullPending P) b.
Definition put_state (s : RunState) (P : Runnable) : Runnable :=
  mkRunnable s (r_pullPending P) (r_pushPending P).

(** [PullPush::Runnable::Runnable] over [IRunnable::IRunnable] *)
Definition Runnable_mk : Runnable := mkRunnable ACTIVE false false.

Section elements.
Context {E : Type} (pull : E -> res (option tuple * E)) (push : tuple -> E -> res (Z * E)).

(** ** [PullPush] *)

(** [PullPush::Runnable::state] *)
Definition PullPush_state (s : RunState) (P : Runnable) : res Runnable :=
  match s with
  | OFF => Ok (put_state OFF P)
  | ACTIVE =>
      let? _ := check (negb (r_pullPending P || r_pushPending P)) AssertFailed in
      Ok (put_state ACTIVE P)
  | _ => Ok (put_state BLOCKED P)
  end.

(** [PullPush::run]: the loop ends when the input has nothing to give or the
    output takes no more. *)
Fixpoint PullPush_loop (fuel : nat) (P : Runnable) (e : E) : res (Runnable * E) :=
  match fuel with
  | O => Fail OutOfFuel
  | S fuel =>
      let? (o, e) := pull e in
      match o with
      | Some p =>
          let? (r, e) := push p e in
          if r =? 0 then
            let? P := PullPush_state BLOCKED (set_push true P) in Ok (P, e)
          else PullPush_loop fuel P e
      | None =>
          let? P := PullPush_state QUIECENE (set_pull true P) in Ok (P, e)
      end
  end.

(** [PullPush::Runnable::run] *)
Definition PullPush_run (fuel : nat) (P : Runnable) (e : E) : res (Runnable * E) :=
  let? _ := check (bool_decide (r_state P = ACTIVE)) AssertFailed in
  PullPush_loop fuel P e.

(** [PullPush::pullWakeup], [PullPush::pushWakeup] *)
Definition PullPush_pullWakeup (P : Runnable) : res Runnable :=
  let P := set_pull false P in
  if r_pushPending P then Ok P else PullPush_state ACTIVE P.

Definition PullPush_pushWakeup (P : Runnable) : res Runnable :=
  let P := set_push false P in
  if r_pullPending P then Ok P else PullPush_state ACTIVE P.

(** ** [Switch] *)

(** [Switch::Runnable::state] *)
Definition Switch_state (s : RunState) (P : Runnable) : res Runnable :=
  match s with
  | OFF => Ok (put_state OFF P)
  | ACTIVE =>
      let? _ := check (negb (r_pushPending P)) AssertFailed in
      Ok (put_state ACTIVE P)
  | _ => Ok (put_state BLOCKED P)
  end.

(** [Switch::run]: at most [mNTuple] tuples, without a limit when that is 0. *)
Fixpoint Switch_loop (fuel : nat) (mNTuple i : Z) (P : Runnable) (e : E) : res (Runnable * E) :=
  match fuel with
  | O => Fail OutOfFuel
  | S fuel =>
      if (mNTuple =? 0) || (i <? mNTuple) then
        let? (o, e) := pull e in
        match o with
        | Some p =>
            let? (r, e) := push p e in
            if r =? 0 then
              let? P := Switch_state BLOCKED (set_push true P) in Ok (P, e)
            else Switch_loop fuel mNTuple (i + 1) P e
        | None =>
            let? P := Switch_state QUIECENE P in Ok (set_pull true P, e)
        end
      else if mNTuple =? 0 then Ok (P, e)
      else let? P := Switch_state OFF P in Ok (P, e)
  end.

(** [Switch::Runnable::run] *)
Definition Switch_run (fuel : nat) (mNTuple : Z) (P : Runnable) (e : E) : res (Runnable * E) :=
  let? _ := check (bool_decide (r_state P = ACTIVE)) AssertFailed in
  Switch_loop fuel mNTuple 0 P e.

(** The test [!state() == IRunnable::OFF] of the wake-ups: the negation binds to
    the state, and its truth value is compared with the enumeration. *)
Definition not_state_is_off (P : Runnable) : bool :=
  (if state_code (r_state P) =? 0 then 1 else 0) =? state_code OFF.

(** [Switch::pullWakeup], [Switch::pushWakeup] *)
Definition Switch_pullWakeup (P : Runnable) : res Runnable :=
  let P := set_pull false P in
  if not_state_is_off P && negb (r_pushPending P) then Switch_state ACTIVE P else Ok P.

Definition Switch_pushWakeup (P : Runnable) : res Runnable :=
  let P := set_push false P in
  if not_state_is_off P && negb (r_pullPending P) then Switch_state ACTIVE P else Ok P.
End elements.

(** ** [TimedPullPush] *)

(** [tp_timer] is [_timeCallback != 0]. *)
Record TimedPullPush := mkTPP {
  tp_tuples : Z;
  tp_counter : Z;
  tp_pendingPull : bool;
  tp_pendingPush : bool;
  tp_timer : bool
}.

(** [TimedPullPush::TimedPullPush] *)
Definition TimedPullPush_mk (tuples : Z) : res TimedPullPush :=
  let? _ := check (0 <=? tuples) AssertFailed in
  Ok (mkTPP tuples 0 false false false).

(** [TimedPullPush::reschedule] *)
Definition reschedule (T : TimedPullPush) : res TimedPullPush :=
  let? _ := check (negb (tp_timer T)) AssertFailed in
  if (tp_tuples T =? 0) || ((0 <? tp_tuples T) && (tp_counter T <? tp_tuples T))
  then Ok (mkTPP (tp_tuples T) (tp_counter T) (tp_pendingPull T) (tp_pendingPush T) true)
  else Ok T.

(** [TimedPullPush::runTimer]: [o] is what the input would give and [r] what the
    output would answer; the tuple that is pushed. *)
Definition runTimer (o : option tuple) (r : Z) (T : TimedPullPush) : res (option tuple * TimedPullPush) :=
  let T := mkTPP (tp_tuples T) (tp_counter T) (tp_pendingPull T) (tp_pendingPush T) false in
  if tp_pendingPush T || tp_pendingPull T then let? T := reschedule T in Ok (None, T)
  else
    match o with
    | Some p =>
        let? T := reschedule (mkTPP (tp_tuples T) (tp_counter T + 1) (tp_pendingPull T) (r =? 0) false) in
        Ok (Some p, T)
    | None => Ok (None, mkTPP (tp_tuples T) (tp_counter T) true (tp_pendingPush T) false)
    end.

(** [TimedPullPush::pullWakeup], [TimedPullPush::pushWakeup] *)
Definition TimedPullPush_pullWakeup (T : TimedPullPush) : res TimedPullPush :=
  let T := mkTPP (tp_tuples T) (tp_counter T) false (tp_pendingPush T) (tp_timer T) in
  if tp_timer T then Ok T else reschedule T.

Definition TimedPullPush_pushWakeup (T : TimedPullPush) : res TimedPullPush :=
  let T := mkTPP (tp_tuples T) (tp_counter T) (tp_pendingPull T) false (tp_timer T) in
  if tp_timer T then Ok T else reschedule T.

(** ** [Scheduler::runRunnables] *)

Section scheduler.
Context {St : Type} (state : St -> nat -> RunState) (run : nat -> St -> res St) (mpSwitch : option nat).

(** One pass over the runnables: whether none was left active when it was
    visited, and whether something ran. *)
Fixpoint run_pass (ids : list nat) (hasNo ran : bool) (S : St) : res (bool * bool * St) :=
  match ids with
  | [] => Ok (hasNo, ran, S)
  | it :: ids =>
      let? (ran, S) :=
        if bool_decide (state S it = ACTIVE) then
          let? S := run it S in
          if bool_decide (mpSwitch = Some it) then
            let? _ := check (bool_decide (state S it <> ACTIVE)) AssertFailed in Ok (ran, S)
          else Ok (true, S)
        else Ok (ran, S) in
      run_pass ids (hasNo && negb (bool_decide (state S it = ACTIVE))) ran S
  end.

(** The check after the pass. *)
Definition none_active (ids : list nat) (S : St) : bool :=
  forallb (fun it => negb (bool_decide (state S it = ACTIVE))) ids.

Fixpoint run_loop (fuel : nat) (ids : list nat) (ran : bool) (S : St) : res (bool * St) :=
  match fuel with
  | O => Fail OutOfFuel
  | S fuel =>
      let? (hasNo, ran, S) := run_pass ids true ran S in
      if hasNo && none_active ids S then Ok (ran, S) else run_loop fuel ids ran S
  end.

Definition runRunnables (fuel : nat) (ids : list nat) (S : St) : res (bool * St) :=
  let? _ := check (match ids with [] => false | _ => true end) AssertFailed in
  run_loop fuel ids false S.
End scheduler.

(** ** A pipeline: [Queue], [PullPush], [Slot] *)

(** The callbacks that go around: the two wake-ups of the [PullPush], and those
    of whoever pushes into the queue or pulls from the slot. *)
Inductive pcb := PullWakeup | PushWakeup | Outer (n : nat).

Record pipe := mkPipe { pi_q : Queue pcb; pi_p : Runnable; pi_s : Slot pcb }.

Definition pipe_mk (size : Z) : res pipe :=
  let? q := Queue_mk size in Ok (mkPipe q Runnable_mk Slot_mk).

(** Calling the callbacks an operation answers. *)
Fixpoint call_all (cs : list pcb) (P : Runnable) : res Runnable :=
  match cs with
  | [] => Ok P
  | PullWakeup :: cs => let? P := PullPush_pullWakeup P in call_all cs P
  | PushWakeup :: cs => let? P := PullPush_pushWakeup P in call_all cs P
  | Outer _ :: cs => call_all cs P
  end.

Definition outer (c : pcb) : bool := match c with Outer _ => true | _ => false end.

(** The input and the output of the [PullPush].  A callback to the [PullPush]
    itself while it runs is outside the model; [pipe_exec_inv] shows there is
    none. *)
Definition pipe_in (e : Queue pcb * Slot pcb) : res (option tuple * (Queue pcb * Slot pcb)) :=
  let '(o, called, q) := Queue_pull (Some PullWakeup) (fst e) in
  let? _ := check (forallb outer called) Unmodelled in Ok (o, (q, snd e)).

Definition pipe_out (t : tuple) (e : Queue pcb * Slot pcb) : res (Z * (Queue pcb * Slot pcb)) :=
  let? (r, called, s) := Slot_push 0 t (Some PushWakeup) (snd e) in
  let? _ := check (forallb outer called) Unmodelled in Ok (r, (fst e, s)).

(** What happens to the pipeline: somebody pushes a tuple, the scheduler comes
    by and runs the [PullPush] if it is active, somebody pulls. *)
Inductive pipe_event := EPush (t : tuple) (n : nat) | ERun | EPull (n : nat).

Definition pipe_exec (ev : pipe_event) (X : pipe) : res (list tuple * pipe) :=
  match ev with
  | EPush t n =>
      let '(_, called, q) := Queue_push t (Some (Outer n)) (pi_q X) in
      let? P := call_all called (pi_p X) in
      Ok ([], mkPipe q P (pi_s X))
  | ERun =>
      if bool_decide (r_state (pi_p X) = ACTIVE) then
        let? (P, e) := PullPush_run pipe_in pipe_out (S (length (q_q (pi_q X)))) (pi_p X) (pi_q X, pi_s X) in
        Ok ([], mkPipe (fst e) P (snd e))
      else Ok ([], X)
  | EPull n =>
      let? (o, called, s) := Slot_pull 0 (Some (Outer n)) (pi_s X) in
      let? P := call_all called (pi_p X) in
      Ok (option_list o, mkPipe (pi_q X) P s)
  end.

Fixpoint pipe_run (evs : list pipe_event) (X : pipe) : res (list tuple * pipe) :=
  match evs with
  | [] => Ok ([], X)
  | ev :: evs =>
      let? (out, X) := pipe_exec ev X in
      let? (outs, X) := pipe_run evs X in
      Ok (out ++ outs, X)
  end.

(** The tuples pushed in a history. *)
Definition pushed (evs : list pipe_event) : list tuple :=
  omap (fun ev => match ev with EPush t _ => Some t | _ => None end) evs.

(** ** The pipeline neither loses nor repeats tuples, and never stalls *)

Definition outside (o : option pcb) : Prop := match o with Some c => outer c = true | None => True end.

(** The pending flags of the [PullPush] mirror what its neighbours hold, and it
    is active exactly when neither is set. *)
Record pipe_inv (X : pipe) : Prop := mkPipeInv {
  pv_queue : queue_wf (pi_q X);
  pv_pullCB : q_pullCB (pi_q X) = if r_pullPending (pi_p X) then Some PullWakeup else None;
  pv_pushCB : outside (q_pushCB (pi_q X));
  pv_full : r_pushPending (pi_p X) = match s_t (pi_s X) with Some _ => true | None => false end;
  pv_push_cb : s_push_cb (pi_s X) = if r_pushPending (pi_p X) then Some PushWakeup else None;
  pv_pull_cb : outside (s_pull_cb (pi_s X));
  pv_state : r_state (pi_p X) = if r_pullPending (pi_p X) || r_pushPending (pi_p X) then BLOCKED else ACTIVE
}.

(** The tuples inside, the oldest first. *)
Definition content (X : pipe) : list tuple := option_list (s_t (pi_s X)) ++ q_q (pi_q X).

Lemma call_outside o P : outside o -> call_all (option_list o) P = Ok P.
Proof. by destruct o as [[]|]. Qed.

Lemma outside_forallb o : outside o -> forallb outer (option_list o) = true.
Proof. destruct o as [c|]; [|done]. simpl. by intros ->. Qed.

Lemma pipe_mk_inv size X : pipe_mk size = Ok X -> pipe_inv X /\ content X = [].
Proof.
  unfold pipe_mk, Queue_mk. destruct (0 <? size); [|done]. intros [= <-]. done.
Qed.

Lemma pipe_push_inv X t n : pipe_inv X -> exists X', pipe_exec (EPush t n) X = Ok ([], X') /\
  pipe_inv X' /\ content X' = content X ++ [t].
Proof.
  intros [Hq HpC HuC Hf Hu Hl Hs]. unfold pipe_exec.
  destruct (queue_push_spec t (Some (Outer n)) (pi_q X) Hq) as (r & q & -> & Hq' & Hqq & _ & HN & Hr).
  assert (outside (q_pushCB q)) as HO by (destruct (_ =? q_size (pi_q X)); destruct Hr as [_ ->]; done).
  destruct X as [Q [st pp up] s]. cbn [pi_q pi_p pi_s r_state r_pullPending r_pushPending] in *.
  rewrite HpC. assert (HC : forall P, content (mkPipe q P s) = content (mkPipe Q (mkRunnable st pp up) s) ++ [t]).
  { intros P. unfold content. simpl. by rewrite Hqq, app_assoc. }
  destruct pp, up; simpl; (eexists; split; [reflexivity|]; split; [|apply HC]); by split.
Qed.

Lemma pipe_pull_inv X n : pipe_inv X -> exists out X', pipe_exec (EPull n) X = Ok (out, X') /\
  pipe_inv X' /\ content X = out ++ content X' /\ out = option_list (s_t (pi_s X)).
Proof.
  intros [Hq HpC HuC Hf Hu Hl Hs]. unfold pipe_exec, Slot_pull. cbn [Nat.eqb check rbind].
  destruct X as [Q [st pp up] [t uc lc]]. unfold content.
  cbn [pi_q pi_p pi_s r_state r_pullPending r_pushPending s_t s_push_cb s_pull_cb] in *. subst up uc.
  destruct t as [t|], pp; simpl in *; subst st;
    (do 2 eexists; split; [reflexivity|]; split; [|done]); split; try done; by destruct lc.
Qed.

Lemma pipe_run_inv X : pipe_inv X -> exists X', pipe_exec ERun X = Ok ([], X') /\
  pipe_inv X' /\ content X' = content X /\
  r_state (pi_p X') <> ACTIVE /\
  (s_t (pi_s X) = None -> q_q (pi_q X) <> [] -> s_t (pi_s X') <> None).
Proof.
  intros HI. pose proof HI as [Hq HpC HuC Hf Hu Hl Hs]. unfold pipe_exec, PullPush_run.
  destruct (bool_decide_reflect (r_state (pi_p X) = ACTIVE)) as [HA|HA]; cbn [check rbind].
  - rewrite Hs in HA. destruct X as [Q [st pp up] [t uc lc]].
    cbn [pi_q pi_p pi_s r_state r_pullPending r_pushPending s_t s_push_cb s_pull_cb] in *.
    destruct pp, up; try done. destruct t as [t|]; [done|]. simpl in Hu. subst uc st.
    cbn [PullPush_loop]. unfold pipe_in at 1. cbn [fst snd].
    destruct (queue_pull_spec (Some PullWakeup) Q Hq) as (o & called & Q' & -> & Hq' & Hqq & _ & Ho).
    destruct o as [t|]; destruct Ho as (-> & HN & HM).
    + rewrite outside_forallb by done. cbn [check rbind]. unfold pipe_out, Slot_push.
      cbn [Nat.eqb check rbind fst snd s_t s_push_cb s_pull_cb]. rewrite outside_forallb by done.
      cbn [check rbind]. rewrite Z.eqb_refl. cbn. eexists. split; [reflexivity|].
      split; [|split; [unfold content; by rewrite Hqq|done]].
      split; simpl; try done. by rewrite HM.
    + cbn. eexists. split; [reflexivity|]. simpl in Hqq.
      split; [|split; [unfold content; by rewrite Hqq|]].
      * split; simpl; try done. by rewrite HM.
      * split; [done|]. intros _ Hne. rewrite Hqq in Hne. destruct Hq' as (_ & _ & H3).
        by rewrite H3 in Hne by (by rewrite HN).
  - exists X. split_and!; try done. intros Ht Hne. rewrite Hs, Hf, Ht in HA.
    destruct Hq as (_ & _ & H3). rewrite HpC in H3.
    destruct (r_pullPending (pi_p X)); [by destruct Hne; apply H3|done].
Qed.

(** Every event keeps the invariant, takes tuples out at the front and puts
    them in at the back. *)
Lemma pipe_exec_inv X ev : pipe_inv X -> exists out X', pipe_exec ev X = Ok (out, X') /\
  pipe_inv X' /\ out ++ content X' = content X ++ pushed [ev].
Proof.
  intros HI. destruct ev as [t n| |n].
  - destruct (pipe_push_inv X t n HI) as (X' & -> & HI' & HC). by exists [], X'.
  - destruct (pipe_run_inv X HI) as (X' & -> & HI' & HC & _). exists [], X'. by rewrite app_nil_r.
  - destruct (pipe_pull_inv X n HI) as (out & X' & -> & HI' & HC & _). exists out, X'.
    by rewrite app_nil_r.
Qed.

Lemma pipe_runs evs X : pipe_inv X -> exists outs X', pipe_run evs X = Ok (outs, X') /\
  pipe_inv X' /\ outs ++ content X' = content X ++ pushed evs.
Proof.
  revert X. induction evs as [|ev evs IH]; intros X HI; simpl.
  - exists [], X. by rewrite app_nil_r.
  - destruct (pipe_exec_inv X ev HI) as (out & X1 & -> & HI1 & HC1). cbn [rbind].
    destruct (IH X1 HI1) as (outs & X2 & -> & HI2 & HC2). cbn [rbind].
    do 2 eexists. split; [done|]. split; [done|].
    rewrite <- app_assoc, HC2, app_assoc, HC1, <- app_assoc. f_equal.
    unfold pushed. by destruct ev.
Qed.

(** C31: A queue, a [PullPush] and a slot in a row are a FIFO channel.  Whatever is
    pushed, pulled and scheduled in whatever order, no operation fails, and what
    has come out followed by what is inside is what was pushed, in order: no
    tuple is lost, repeated or overtaken.  And no wake-up is lost: when the slot
    is empty and tuples wait in the queue the [PullPush] is active, so that
    running it and pulling delivers the oldest tuple. *)
Theorem pipeline_is_channel size X evs : pipe_mk size = Ok X ->
  exists outs X', pipe_run evs X = Ok (outs, X') /\ outs ++ content X' = pushed evs /\
  forall t rest n, content X' = t :: rest ->
    exists X'', pipe_run [ERun; EPull n] X' = Ok ([t], X'').
Proof.
  intros HX. destruct (pipe_mk_inv size X HX) as [HI HC].
  destruct (pipe_runs evs X HI) as (outs & X' & E & HI' & HC'). rewrite HC in HC'.
  exists outs, X'. split; [done|]. split; [done|]. intros t rest n Hc.
  destruct (pipe_run_inv X' HI') as (X1 & E1 & HI1 & HC1 & _ & Hfill).
  destruct (pipe_pull_inv X1 n HI1) as (out & X2 & E2 & HI2 & HC2 & Ho).
  exists X2. cbn [pipe_run]. rewrite E1. cbn [rbind]. rewrite E2. cbn [rbind].
  rewrite app_nil_r, Ho. rewrite <- HC1 in Hc. unfold content in Hc.
  destruct (s_t (pi_s X1)) as [u|] eqn:Eu; [by injection Hc as -> _|]. exfalso.
  destruct (s_t (pi_s X')) as [u|] eqn:Eu'.
  - unfold content in HC1. rewrite Eu, Eu' in HC1. pose proof HI' as [_ _ _ Hf _ _ Hs].
    rewrite Eu' in Hf. rewrite Hf, orb_true_r in Hs.
    unfold pipe_exec in E1. rewrite Hs in E1. injection E1 as <-. congruence.
  - apply (Hfill eq_refl); [|done]. intros Hq. unfold content in HC1.
    rewrite Eu, Eu', Hq in HC1. simpl in HC1, Hc. rewrite HC1 in Hc. done.
Qed.

(** ** The scheduler runs the dataflow to quiescence *)

Section quiescence.
Context {St : Type} (state : St -> nat -> RunState) (run : nat -> St -> res St) (mpSwitch : option nat).

(** The dataflow is expected to terminate (scheduler.h): from a state the
    invariant describes, running an active runnable succeeds, keeps the
    invariant and makes progress in some measure; the switch turns itself off. *)
Context (inv : St -> Prop) (measure : St -> nat).
Hypothesis run_progress : forall it S, inv S -> state S it = ACTIVE ->
  exists S', run it S = Ok S' /\ inv S' /\ (measure S' < measure S)%nat /\
  (mpSwitch = Some it -> state S' it <> ACTIVE).

(** A pass succeeds; if some runnable is active when it starts, it runs one. *)
Lemma run_pass_progress ids hasNo ran S : inv S -> exists hasNo' ran' S',
  run_pass state run mpSwitch ids hasNo ran S = Ok (hasNo', ran', S') /\ inv S' /\
  (measure S' <= measure S)%nat /\
  (none_active state ids S = false -> (measure S' < measure S)%nat).
Proof.
  revert hasNo ran S. induction ids as [|it ids IH]; intros hasNo ran S HI; cbn [run_pass].
  - do 3 eexists. by split_and!.
  - unfold none_active in *. cbn [forallb].
    destruct (bool_decide_reflect (state S it = ACTIVE)) as [HA|HA]; cbn [rbind negb andb].
    + destruct (run_progress it S HI HA) as (S1 & -> & HI1 & HM & HS). cbn [rbind].
      assert (exists ran1, (if bool_decide (mpSwitch = Some it)
        then let? _ := check (bool_decide (state S1 it <> ACTIVE)) AssertFailed in Ok (ran, S1)
        else Ok (true, S1)) = Ok (ran1, S1)) as [ran1 ->].
      { destruct (bool_decide_reflect (mpSwitch = Some it)) as [E|]; [|eauto].
        rewrite bool_decide_true by auto. simpl. eauto. }
      cbn [rbind]. destruct (IH (hasNo && negb (bool_decide (state S1 it = ACTIVE))) ran1 S1 HI1) as (h & r & S2 & -> & HI2 & HM2 & _).
      exists h, r, S2. split_and!; try done; lia.
    + rewrite bool_decide_false by done.
      destruct (IH (hasNo && negb false) ran S HI) as (h & r & S2 & -> & HI2 & HM2 & HN).
      exists h, r, S2. by split_and!.
Qed.

(** A pass over runnables none of which is active changes nothing. *)
Lemma run_pass_idle ids hasNo ran S : none_active state ids S = true ->
  run_pass state run mpSwitch ids hasNo ran S = Ok (hasNo, ran, S).
Proof.
  unfold none_active. revert hasNo. induction ids as [|it ids IH]; intros hasNo; [done|].
  cbn [forallb run_pass]. intros [H1 H2]%andb_true_iff.
  apply negb_true_iff in H1. rewrite H1. cbn [rbind negb]. rewrite H1, andb_true_r. by apply IH.
Qed.

Lemma run_loop_quiesces fuel ids ran S : inv S -> (measure S < fuel)%nat ->
  exists ran' S', run_loop state run mpSwitch fuel ids ran S = Ok (ran', S') /\ inv S' /\
  none_active state ids S' = true /\ (none_active state ids S = true -> ran' = ran /\ S' = S).
Proof.
  revert ran S. induction fuel as [|fuel IH]; intros ran S HI Hf; [lia|]. cbn [run_loop].
  destruct (none_active state ids S) eqn:EN.
  - rewrite run_pass_idle by done. cbn [rbind andb]. rewrite EN. by exists ran, S.
  - destruct (run_pass_progress ids true ran S HI) as (h & r & S1 & -> & HI1 & _ & HM). cbn [rbind].
    specialize (HM EN). destruct (h && none_active state ids S1) eqn:E.
    + apply andb_true_iff in E as [_ E]. by exists r, S1.
    + destruct (IH r S1 HI1 ltac:(lia)) as (r2 & S2 & -> & HI2 & HN2 & _). by exists r2, S2.
Qed.

(** C32: In a dataflow that terminates, the scheduler's loop ends, within as many
    passes as the measure allows, in a state where no runnable is active; no
    assertion fails; and it reports that nothing ran when nothing was active. *)
Theorem scheduler_quiesces ids S : inv S -> ids <> [] ->
  exists ran S', runRunnables state run mpSwitch (Datatypes.S (measure S)) ids S = Ok (ran, S') /\
  inv S' /\ (forall it, it ∈ ids -> state S' it <> ACTIVE) /\
  ((forall it, it ∈ ids -> state S it <> ACTIVE) -> ran = false /\ S' = S).
Proof.
  intros HI Hne. unfold runRunnables. destruct ids as [|i ids]; [done|]. cbn [check rbind].
  destruct (run_loop_quiesces (Datatypes.S (measure S)) (i :: ids) false S HI ltac:(lia))
    as (r & S' & -> & HI' & HN & HS).
  assert (HE : forall S, none_active state (i :: ids) S = true <->
    forall it, it ∈ i :: ids -> state S it <> ACTIVE).
  { intros S0. unfold none_active. rewrite forallb_forall. setoid_rewrite <- list_elem_of_In.
    setoid_rewrite negb_true_iff. setoid_rewrite bool_decide_eq_false. done. }
  exists r, S'. split_and!; [done|done|by apply HE|]. intros Hq. apply HS. by apply HE.
Qed.
End quiescence.

(** ** [TimedPullPush] sends its quota and is never stuck *)

(** The element among neighbours that call back once for each refusal; [n] is
    the number of tuples sent. *)
Inductive timed_system (tuples : Z) : TimedPullPush -> nat -> Prop :=
  | timed_new T T' : TimedPullPush_mk tuples = Ok T -> reschedule T = Ok T' -> timed_system tuples T' 0
  | timed_fired T n o r out T' : timed_system tuples T n -> tp_timer T = true ->
      runTimer o r T = Ok (out, T') ->
      timed_system tuples T' (match out with Some _ => S n | None => n end)
  | timed_pull T n T' : timed_system tuples T n -> tp_pendingPull T = true ->
      TimedPullPush_pullWakeup T = Ok T' -> timed_system tuples T' n
  | timed_push T n T' : timed_system tuples T n -> tp_pendingPush T = true ->
      TimedPullPush_pushWakeup T = Ok T' -> timed_system tuples T' n.

Lemma reschedule_spec T : tp_timer T = false -> 0 <= tp_tuples T ->
  exists T', reschedule T = Ok T' /\ tp_tuples T' = tp_tuples T /\ tp_counter T' = tp_counter T /\
  tp_pendingPull T' = tp_pendingPull T /\ tp_pendingPush T' = tp_pendingPush T /\
  (tp_timer T' = true <-> tp_tuples T = 0 \/ tp_counter T < tp_tuples T).
Proof.
  intros HT H0. unfold reschedule. rewrite HT. cbn [negb check rbind].
  destruct (Z.eqb_spec (tp_tuples T) 0), (Z.ltb_spec 0 (tp_tuples T)),
    (Z.ltb_spec (tp_counter T) (tp_tuples T)); cbn [andb orb]; try lia;
    (eexists; split; [done|]; split_and!; try done; simpl; try rewrite HT; split; (done || lia)).
Qed.

Definition timed_inv (tuples : Z) (T : TimedPullPush) (n : nat) : Prop :=
  tp_tuples T = tuples /\ 0 <= tuples /\ tp_counter T = Z.of_nat n /\
  (tuples = 0 \/ Z.of_nat n <= tuples) /\
  (tp_timer T = true -> tuples = 0 \/ Z.of_nat n < tuples) /\
  (tp_timer T = true \/ tp_pendingPull T = true \/ (0 < tuples /\ Z.of_nat n = tuples)).

Lemma timed_reschedule tuples T n : tp_tuples T = tuples -> 0 <= tuples ->
  tp_counter T = Z.of_nat n -> tp_timer T = false -> tuples = 0 \/ Z.of_nat n <= tuples ->
  exists T', reschedule T = Ok T' /\ timed_inv tuples T' n.
Proof.
  intros HT H0 HC Ht Hn. destruct (reschedule_spec T Ht ltac:(lia)) as (T' & -> & H1 & H2 & H3 & H4 & H5).
  exists T'. split; [done|]. rewrite HT, HC in *. unfold timed_inv. rewrite H1, H2.
  split_and!; try done; [by intros ?%H5|].
  destruct (tp_timer T'); [by left|]. right. right.
  destruct (decide (tuples = 0 \/ Z.of_nat n < tuples)) as [Hd|Hd]; [by apply H5 in Hd|lia].
Qed.

Lemma timed_fires tuples T n o r : timed_inv tuples T n -> tp_timer T = true ->
  exists out T', runTimer o r T = Ok (out, T') /\
  timed_inv tuples T' (match out with Some _ => S n | None => n end).
Proof.
  intros (H1 & H2 & H3 & H4 & H5 & H6) Ht. unfold runTimer. specialize (H5 Ht).
  cbn [tp_pendingPush tp_pendingPull tp_tuples tp_counter].
  destruct (tp_pendingPush T || tp_pendingPull T).
  - match goal with |- context [reschedule ?T1] =>
      destruct (timed_reschedule tuples T1 n) as (T' & -> & HI); [simpl; done || lia..|] end.
    by exists None, T'.
  - destruct o as [p|].
    + match goal with |- context [reschedule ?T1] =>
        destruct (timed_reschedule tuples T1 (S n)) as (T' & -> & HI); [simpl; done || lia..|] end.
      by exists (Some p), T'.
    + do 2 eexists. split; [done|]. unfold timed_inv. simpl. split_and!; auto.
Qed.

Lemma timed_wakeup tuples T T1 n : timed_inv tuples T n ->
  tp_tuples T1 = tp_tuples T -> tp_counter T1 = tp_counter T -> tp_timer T1 = tp_timer T ->
  exists T', (if tp_timer T1 then Ok T1 else reschedule T1) = Ok T' /\ timed_inv tuples T' n.
Proof.
  intros (H1 & H2 & H3 & H4 & H5 & H6) E1 E2 E3. destruct (tp_timer T1) eqn:Et.
  - exists T1. split; [done|]. unfold timed_inv. rewrite E1, E2, Et. rewrite <- E3 in H5.
    split_and!; auto.
  - apply timed_reschedule; congruence || done.
Qed.

Lemma timed_system_inv tuples T n : timed_system tuples T n -> timed_inv tuples T n.
Proof.
  induction 1 as [T T' HM HR|T n o r out T' _ IH Ht HR|T n T' _ IH Hp HW|T n T' _ IH Hp HW].
  - unfold TimedPullPush_mk in HM. destruct (Z.leb_spec 0 tuples); [|done]. injection HM as <-.
    destruct (timed_reschedule tuples (mkTPP tuples 0 false false false) 0) as (T2 & E & HI);
      [simpl; done || lia..|]. rewrite E in HR. by injection HR as <-.
  - destruct (timed_fires tuples T n o r IH Ht) as (? & ? & E & HI). rewrite E in HR. by injection HR as <- <-.
  - unfold TimedPullPush_pullWakeup in HW.
    edestruct (timed_wakeup tuples T) as (T2 & E & HI); [done|..|rewrite E in HW; injection HW as <-; done]; done.
  - unfold TimedPullPush_pushWakeup in HW.
    edestruct (timed_wakeup tuples T) as (T2 & E & HI); [done|..|rewrite E in HW; injection HW as <-; done]; done.
Qed.

(** It sends at most [_tuples] tuples (without a limit when that is 0), none of
    its assertions fails, and at any time its timer is armed, or it waits for
    its input, or it has sent its quota. *)
Theorem timed_pull_push_quota tuples T n : timed_system tuples T n ->
  (tuples = 0 \/ Z.of_nat n <= tuples) /\
  (tp_timer T = true \/ tp_pendingPull T = true \/ (0 < tuples /\ Z.of_nat n = tuples)) /\
  (tp_timer T = true -> forall o r, exists out T', runTimer o r T = Ok (out, T')) /\
  (exists T', TimedPullPush_pullWakeup T = Ok T') /\ (exists T', TimedPullPush_pushWakeup T = Ok T').
Proof.
  intros HS. pose proof (timed_system_inv _ _ _ HS) as HI. pose proof HI as (_ & _ & _ & H4 & _ & H6).
  split; [done|]. split; [done|]. split_and!.
  - intros Ht o r. destruct (timed_fires tuples T n o r HI Ht) as (out & T' & E & _). eauto.
  - edestruct (timed_wakeup tuples T) as (T2 & E & _); [done| | | |exists T2; exact E]; done.
  - edestruct (timed_wakeup tuples T) as (T2 & E & _); [done| | | |exists T2; exact E]; done.
Qed.

(** ** [Switch]: its wake-ups never make it active *)

(** The precedence of [!state() == OFF]: whatever the state, the test fails, so
    that a wake-up only resets its flag.  A switch that has stopped for want of
    input or room stays stopped until somebody else sets its state. *)
Theorem switch_wakeups_inert P :
  Switch_pullWakeup P = Ok (set_pull false P) /\ Switch_pushWakeup P = Ok (set_push false P).
Proof. split; unfold Switch_pullWakeup, Switch_pushWakeup, not_state_is_off; by destruct P as [[] ? ?]. Qed.

(** ** The theorems on concrete systems *)

Definition two_tuples : list pipe_event :=
  [EPush (mkTuple [] true 1) 0; ERun; EPush (mkTuple [] true 2) 0; EPull 1].

(** A pipeline with a queue of one place, into which two tuples are pushed. *)
Definition small_pipe : pipe := mkPipe (mkQueue [] 1 None None STATELESS 0) Runnable_mk Slot_mk.

Lemma pipeline_is_channel_witness : exists outs X', pipe_run two_tuples small_pipe = Ok (outs, X') /\
  outs = [mkTuple [] true 1] /\ exists X'', pipe_run [ERun; EPull 2] X' = Ok ([mkTuple [] true 2], X'').
Proof.
  destruct (pipeline_is_channel 1 small_pipe two_tuples eq_refl) as (outs & X' & E & _ & H).
  exists outs, X'. split; [exact E|]. vm_compute in E. injection E as <- <-. split; [reflexivity|].
  apply (H _ []). reflexivity.
Defined.

(** The scheduler on that pipeline, whose only runnable is the [PullPush]. *)
Definition pipe_runnable (it : nat) (X : pipe) : res pipe :=
  let? (_, X) := pipe_exec ERun X in Ok X.

Lemma pipe_progress it X : pipe_inv X -> r_state (pi_p X) = ACTIVE ->
  exists X', pipe_runnable it X = Ok X' /\ pipe_inv X' /\
  ((if decide (r_state (pi_p X') = ACTIVE) then 1 else 0) <
   (if decide (r_state (pi_p X) = ACTIVE) then 1 else 0))%nat /\
  (None = Some it -> r_state (pi_p X') <> ACTIVE).
Proof.
  intros HI HA. destruct (pipe_run_inv X HI) as (X' & E & HI' & _ & Hn & _).
  exists X'. unfold pipe_runnable. rewrite E. split; [done|]. split; [done|].
  rewrite decide_False by done. rewrite decide_True by done. split; [lia|done].
Qed.

Lemma scheduler_quiesces_witness : exists ran X',
  runRunnables (fun X _ => r_state (pi_p X)) pipe_runnable None 2 [0%nat] small_pipe = Ok (ran, X') /\
  r_state (pi_p X') <> ACTIVE.
Proof.
  destruct (scheduler_quiesces (fun X (_ : nat) => r_state (pi_p X)) pipe_runnable None pipe_inv
    (fun X => if decide (r_state (pi_p X) = ACTIVE) then 1%nat else 0%nat) pipe_progress [0%nat] small_pipe)
    as (ran & X' & E & _ & Hq & _).
  - apply (pipe_mk_inv 1). reflexivity.
  - discriminate.
  - exists ran, X'. split; [exact E|]. apply (Hq 0%nat). set_solver.
Defined.

Lemma timed_pull_push_quota_witness : exists T, timed_system 1 T 1 /\ tp_timer T = false /\ 1 <= 1.
Proof.
  assert (H : timed_system 1 (mkTPP 1 1 false false false) 1).
  { eapply (timed_fired 1 (mkTPP 1 0 false false true) 0 (Some (mkTuple [] true 1)) 1
      (Some (mkTuple [] true 1))); [|reflexivity|reflexivity].
    eapply timed_new; reflexivity. }
  exists (mkTPP 1 1 false false false). split; [exact H|]. split; [reflexivity|].
  destruct (timed_pull_push_quota 1 _ 1 H) as ([H0|H0] & _); [discriminate|exact H0].
Defined.
