(* ===== verification/Joins.v ===== *)
(** * Elements that work on a table (src/elements)

    [Lookup2] and [RangeLookup] turn a table into a join: a tuple is pushed in,
    and every pull answers the tuple paired with one of its matches.  [Insert]
    and [Delete] change a table; [Aggregate] hands on what a table's aggregate
    reports.

    An element holds a [CommonTablePtr] and calls it through virtual methods:
    [TableOps] is that interface, with one instance per class of tables.  What
    the clock shows during the calls is a parameter of the instance. *)

From S2P Require Import Prelude Ids Stl Values Tuples Aggs Keys CommonTable TableInv RefTable TableLookup Table2 Casts Elements.

Local Open Scope p2_scope.

(** ** The virtual methods of tables *)

Class TableOps (T : Type) := {
  tbl_lookup : Key -> tuple -> T -> res (IteratorObj * T);
  tbl_project_lookup : Key -> Key -> tuple -> T -> res (option IteratorObj * T);
  tbl_range : Key -> Key -> Key -> bool -> bool -> tuple -> T -> res (IteratorObj * T);
  tbl_insert : tuple -> T -> res (bool * T);
  tbl_remove : tuple -> T -> res (bool * T)
}.

(** [idL] and [idU] are the identities of the two search tuples a range lookup
    makes. *)
Definition RefTable_ops (now idL idU : Z) : TableOps table := {|
  tbl_lookup := fun k t T => let? it := CommonTable.lookup2 k t T in Ok (it, T);
  tbl_project_lookup := CommonTable.lookup3;
  tbl_range := fun l r k oL oR t T => let? it := CommonTable.range1DLookup l r k oL oR t idL idU T in Ok (it, T);
  tbl_insert := fun t T => RefTable.insert t now T;
  tbl_remove := RefTable.remove
|}.

Definition Table2_ops (now1 now2 now3 idL idU : Z) : TableOps Table2.table2 := {|
  tbl_lookup := fun k t T => Table2.lookup2 k t now1 T;
  tbl_project_lookup := fun l k t T => Table2.lookup3 l k t now1 T;
  tbl_range := fun l r k oL oR t T => Table2.range1DLookup l r k oL oR t idL idU now1 now2 T;
  tbl_insert := fun t T => Table2.insert t now1 now2 now3 T;
  tbl_remove := fun t T => Table2.remove t now1 T
|}.

(** ** Joins *)

(** The loop of the constructors that take their arguments in a tuple: field
    numbers become [unsigned]. *)
Fixpoint key_fields (vs : list value) : res Key :=
  match vs with
  | [] => Ok []
  | v :: vs' => let? z := Val_Int64_cast v in let? k := key_fields vs' in Ok (Z.to_nat (u32 z) :: k)
  end.
Definition key_of_value (v : value) : res Key :=
  let? l := Val_List_cast v in key_fields l.

Section joins.
Context {CB : Type}.

(** The state [Lookup2] and [RangeLookup] share: the lookup in progress, its
    encapsulated tuple and iterator, and who waits for what. *)
Record Lookup := mkLookup {
  lk_tuple : option tuple;
  lk_value : option value;
  lk_iterator : option IteratorObj;
  lk_pushCB : option CB;
  lk_pullCB : option CB;
  lk_stateCB : option CB;
  lk_state : StatefulState
}.

(** The two constructors; the generic ones have no state callback. *)
Definition Lookup_mk (state_cb : option CB) : Lookup := mkLookup None None None None None state_cb STATELESS.

Definition absent {A} (o : option A) : bool := match o with None => true | Some _ => false end.

(** [Lookup2::push], [RangeLookup::push]; a null tuple is not pushed. *)
Definition Lookup_push (port : nat) (t : tuple) (cb : option CB) (L : Lookup) : res (Z * list CB * Lookup) :=
  let? _ := check (port =? 0)%nat AssertFailed in
  match lk_tuple L with
  | None =>
      let? _ := check (absent (lk_pushCB L)) AssertFailed in
      let? _ := check (absent (lk_value L) && absent (lk_iterator L)) AssertFailed in
      Ok (0, option_list (lk_pullCB L),
          mkLookup (Some t) (Some (VTuple (fields t))) (lk_iterator L) cb None (lk_stateCB L) STATEFUL)
  | Some _ =>
      let? _ := check (negb (absent (lk_pushCB L))) AssertFailed in
      let? _ := check (negb (absent (lk_iterator L))) AssertFailed in
      let? _ := check (negb (absent (lk_value L))) AssertFailed in
      Ok (0, [], L)
  end.

(** A result: the lookup tuple and a match, each encapsulated. *)
Definition joined_tuple (v : value) (match_ : list value) (counter : Z) : tuple * Z :=
  (mkTuple [v; VTuple match_] true counter, u32 (counter + 1)).

Context {T : Type}.

(** [Lookup2::pull], [RangeLookup::pull], which differ in how they fetch the
    iterator.  [Tuple::EMPTY()] is [empty_tuple]. *)
Definition Lookup_pull (fetch : tuple -> T -> res (IteratorObj * T)) (port : nat) (cb : option CB)
    (L : Lookup) (tbl : T) (counter : Z) : res (option tuple * list CB * Lookup * T * Z) :=
  let? _ := check (port =? 0)%nat AssertFailed in
  match lk_tuple L with
  | None =>
      let? _ := check (absent (lk_value L)) AssertFailed in
      let? _ := check (absent (lk_iterator L)) AssertFailed in
      let pullCB := match lk_pullCB L with Some c => Some c | None => cb end in
      Ok (None, [], mkLookup None (lk_value L) (lk_iterator L) (lk_pushCB L) pullCB (lk_stateCB L) (lk_state L),
          tbl, counter)
  | Some t =>
      let? v := of_option UndefinedBehaviour (lk_value L) in
      let? (it, tbl, fresh) := match lk_iterator L with
        | Some it => Ok (it, tbl, false)
        | None => let? (it, tbl) := fetch t tbl in Ok (it, tbl, true)
        end in
      let L1 it := mkLookup (lk_tuple L) (lk_value L) (Some it) (lk_pushCB L) (lk_pullCB L) (lk_stateCB L) (lk_state L) in
      if fresh && done it then
        let (r, counter) := joined_tuple v [] counter in Ok (Some r, [], L1 it, tbl, counter)
      else if done it then
        Ok (Some empty_tuple, option_list (lk_pushCB L) ++ option_list (lk_stateCB L),
            mkLookup None None None None (lk_pullCB L) (lk_stateCB L) STATELESS, tbl, counter)
      else
        let (u, it) := next it in
        let? u := of_option UndefinedBehaviour u in
        let (r, counter) := joined_tuple v (fields u) counter in
        Ok (Some r, [], L1 it, tbl, counter)
  end.

Context `{TB : TableOps T}.

(** How [Lookup2] fetches its iterator: with a projection unless the two keys
    are the same. *)
Definition Lookup2_fetch (lookupKey indexKey : Key) (t : tuple) (tbl : T) : res (IteratorObj * T) :=
  if bool_decide (lookupKey <> indexKey) then
    let? (it, tbl) := tbl_project_lookup lookupKey indexKey t tbl in
    let? it := of_option AssertFailed it in
    Ok (it, tbl)
  else tbl_lookup indexKey t tbl.

Definition Lookup2_pull (lookupKey indexKey : Key) := Lookup_pull (Lookup2_fetch lookupKey indexKey).

(** The fields of [RangeLookup] that stay. *)
Record RangeConfig := mkRange { rg_lKey : Key; rg_rKey : Key; rg_indexKey : Key; rg_openL : bool; rg_openR : bool }.

(** [RangeLookup::RangeLookup(TuplePtr)]: both tests set [_openL], and [_openR]
    keeps the bit [junk] that was in memory. *)
Definition RangeConfig_of_args (junk : bool) (lKey rKey indexKey openL openR : value) : res RangeConfig :=
  let? l := key_of_value lKey in
  let? r := key_of_value rKey in
  let? k := key_of_value indexKey in
  let? _ := Val_Int64_cast openL in
  let? o := Val_Int64_cast openR in
  Ok (mkRange l r k (o =? 1) junk).

Definition RangeLookup_fetch (R : RangeConfig) : tuple -> T -> res (IteratorObj * T) :=
  tbl_range (rg_lKey R) (rg_rKey R) (rg_indexKey R) (rg_openL R) (rg_openR R).

Definition RangeLookup_pull (R : RangeConfig) := Lookup_pull (RangeLookup_fetch R).

(** ** [Insert], [Delete] *)

(** [Insert::push]: [r] is what the output answers when it is pushed to. *)
Definition Insert_push (p : tuple) (r : Z) (tbl : T) : res (Z * option tuple * T) :=
  let? (changed, tbl) := tbl_insert p tbl in
  if changed : bool then Ok (r, Some p, tbl) else Ok (1, None, tbl).

(** [Delete::push] *)
Definition Delete_push (port : nat) (t : tuple) (tbl : T) : res (Z * T) :=
  let? _ := check (port =? 0)%nat AssertFailed in
  let? (_, tbl) := tbl_remove t tbl in
  Ok (1, tbl).
End joins.
Arguments Lookup : clear implicits.

(** ** [Aggregate] *)

Section aggregate.
Context {CB : Type}.

Record AggElement := mkAggElement { ae_latest : option tuple; ae_pending : bool; ae_pullCB : option CB }.

(** [Aggregate::Aggregate] *)
Definition AggElement_mk : AggElement := mkAggElement None false None.

(** [Aggregate::listener] *)
Definition AggElement_listener (t : tuple) (A : AggElement) : list CB * AggElement :=
  let fresh := (option_list (ae_pullCB A), mkAggElement (Some t) true None) in
  match ae_latest A with
  | None => fresh
  | Some t0 => if tuple_compareTo t0 t =? 0 then ([], A) else fresh
  end.

(** [Aggregate::pull] *)
Definition AggElement_pull (port : nat) (cb : option CB) (A : AggElement) : res (option tuple * AggElement) :=
  let? _ := check (port =? 0)%nat AssertFailed in
  if ae_pending A then
    let? _ := check (absent (ae_pullCB A)) AssertFailed in
    let? t := of_option AssertFailed (ae_latest A) in
    Ok (Some t, mkAggElement (Some t) false (ae_pullCB A))
  else
    let pullCB := match ae_pullCB A with Some c => Some c | None => cb end in
    Ok (None, mkAggElement (ae_latest A) false pullCB).
End aggregate.
Arguments AggElement : clear implicits.

(** ** A lookup element delivers its matches, one per pull *)

Section delivery.
Context {CB T : Type} (fetch : tuple -> T -> res (IteratorObj * T)).

(** Pulling [k] times: the answers, and whom the last pulls woke up. *)
Fixpoint pull_times (k : nat) (cb : option CB) (L : Lookup CB) (tbl : T) (counter : Z)
    : res (list (option tuple) * list CB * Lookup CB * T * Z) :=
  match k with
  | O => Ok ([], [], L, tbl, counter)
  | S k =>
      let? (o, called, L, tbl, counter) := Lookup_pull fetch 0 cb L tbl counter in
      let? (os, more, L, tbl, counter) := pull_times k cb L tbl counter in
      Ok (o :: os, called ++ more, L, tbl, counter)
  end.

(** What the pulls answer for a tuple with the matches [us]: one pair for each,
    a single pair with the empty tuple when there is none, and the empty tuple
    at the end. *)
Definition pairs_with (t : tuple) (us : list tuple) : list (list value) :=
  (fun u => [VTuple (fields t); VTuple u]) <$> (match us with [] => [[]] | _ => fields <$> us end).

(** The element between two lookups. *)
Definition lookup_idle (L : Lookup CB) : Prop :=
  lk_tuple L = None /\ lk_value L = None /\ lk_iterator L = None /\ lk_pushCB L = None.

(** The element in the middle of a lookup. *)
Definition looking (t : tuple) (it : IteratorObj) (cb p s : option CB) : Lookup CB :=
  mkLookup (Some t) (Some (VTuple (fields t))) (Some it) cb p s STATEFUL.

Definition answers_are (os : list (option tuple)) (vss : list (list value)) : Prop :=
  Forall2 (fun o vs => exists r, o = Some r /\ fields r = vs) os vss.

Lemma iterator_done sp k : (k <= length sp)%nat -> done (mkIter sp k) = (k =? length sp)%nat.
Proof. intros Hk. unfold done. cbn. destruct sp; [|done]. destruct k; [done|cbn in Hk; lia]. Qed.

Lemma rev_at (sp : list tuple) k : (k < length sp)%nat -> sp !! (length sp - 1 - k)%nat = rev sp !! k.
Proof.
  intros Hk. rewrite rev_alt. change (rev_append sp []) with (reverse sp).
  rewrite reverse_lookup by lia. f_equal. lia.
Qed.

Lemma pulls_rest t cb p s pcb sp k tbl : forall n counter, (k + n = length sp)%nat ->
  exists os called c', pull_times (S n) pcb (looking t (mkIter sp k) cb p s) tbl counter
    = Ok (os, called, mkLookup None None None None p s STATELESS, tbl, c')
  /\ answers_are os (((fun u => [VTuple (fields t); VTuple (fields u)]) <$> drop k (rev sp)) ++ [[]])
  /\ called = option_list cb ++ option_list s.
Proof.
  intros n. revert k. induction n as [|n IH]; intros k counter Hk.
  - rewrite Nat.add_0_r in Hk. subst k. cbn [pull_times Lookup_pull looking lk_tuple lk_value lk_iterator of_option rbind
      check Nat.eqb andb lk_pushCB lk_pullCB lk_stateCB].
    rewrite iterator_done by done. rewrite Nat.eqb_refl. cbn [rbind]. eexists _, _, _. split; [done|].
    rewrite drop_ge by (rewrite length_rev; lia). split; [|by rewrite app_nil_r].
    cbn. constructor; [|constructor]. by exists empty_tuple.
  - assert (Hlt : (k < length sp)%nat) by lia.
    destruct (lookup_lt_is_Some_2 (rev sp) k) as [u Hu]; [by rewrite length_rev|].
    remember (S n) as n1. cbn [pull_times Lookup_pull looking lk_tuple lk_value lk_iterator of_option rbind
      check Nat.eqb andb lk_pushCB lk_pullCB lk_stateCB lk_state].
    rewrite iterator_done by lia. destruct (Nat.eqb_spec k (length sp)); [lia|].
    unfold next. rewrite iterator_done by lia. destruct (Nat.eqb_spec k (length sp)); [lia|].
    cbn [it_spool it_pos]. rewrite rev_at, Hu by done. cbn [of_option rbind joined_tuple].
    subst n1. fold (looking t (mkIter sp (S k)) cb p s).
    destruct (IH (S k) (u32 (counter + 1))) as (os & called & c' & -> & Ha & ->); [lia|].
    cbn [rbind app]. eexists _, _, _. split; [done|]. rewrite (drop_S _ _ _ Hu). cbn. split; [|done].
    constructor; [|done]. by eexists.
Qed.

(** Everything from the push to the end of the lookup. *)
Lemma lookup_answers t cb pcb L tbl it tbl' counter : lookup_idle L -> it_pos it = O ->
  fetch t tbl = Ok (it, tbl') ->
  exists L1, Lookup_push 0 t cb L = Ok (0, option_list (lk_pullCB L), L1) /\
  exists os called L2 c', pull_times (S (length (pairs_with t (delivers it)))) pcb L1 tbl counter = Ok (os, called, L2, tbl', c')
  /\ answers_are os (pairs_with t (delivers it) ++ [[]])
  /\ called = option_list cb ++ option_list (lk_stateCB L) /\ lookup_idle L2 /\ lk_stateCB L2 = lk_stateCB L.
Proof.
  destruct L as [lt lv li lp ll ls st]. intros (H1 & H2 & H3 & H4) Hp Hf. cbn in H1, H2, H3, H4. subst.
  destruct it as [sp k]. cbn in Hp. subst k. eexists. split; [done|].
  assert (Hd : delivers (mkIter sp 0) = rev sp) by (unfold delivers; by rewrite drain_drop by (cbn; lia)).
  rewrite Hd. remember (length (pairs_with t (rev sp))) as n eqn:Hn.
  cbn [pull_times Lookup_pull lk_tuple lk_value lk_iterator of_option rbind check Nat.eqb lk_pushCB lk_pullCB lk_stateCB lk_state].
  rewrite Hf. cbn [rbind andb]. rewrite iterator_done by lia. destruct (Nat.eqb_spec 0 (length sp)) as [E|E].
  - destruct sp; [|done]. cbn in Hn. subst n. cbn [joined_tuple rbind].
    fold (looking t (mkIter [] 0) cb None ls).
    destruct (pulls_rest t cb None ls pcb [] 0 tbl' 0 (u32 (counter + 1))) as (os & called & c' & E' & Ha & ->); [done|].
    rewrite E'. cbn [rbind app]. eexists _, _, _, _. split; [done|]. split; [|done]. cbn. constructor; [|done]. by eexists.
  - destruct (pulls_rest t cb None ls pcb sp 0 tbl' (length sp) counter) as (os & called & c' & E' & Ha & Hc); [lia|].
    assert (Hl : n = length sp).
    { subst n. unfold pairs_with. rewrite length_fmap. rewrite <- (length_rev sp).
      destruct (rev sp) eqn:Er; [|by rewrite length_fmap]. assert (length (rev sp) = length sp) by apply length_rev.
      rewrite Er in H. cbn in H. lia. }
    subst n. rewrite Hl. cbn [pull_times] in E'.
    cbn [Lookup_pull looking lk_tuple lk_value lk_iterator of_option rbind check Nat.eqb lk_pushCB lk_pullCB lk_stateCB lk_state andb] in E'.
    rewrite iterator_done in E' by lia. destruct (Nat.eqb_spec 0 (length sp)); [done|].
    rewrite E'. eexists _, _, _, _. split; [done|]. split; [|done].
    unfold pairs_with. rewrite drop_0 in Ha. destruct (rev sp) eqn:Er; [|rewrite <- list_fmap_compose; exact Ha].
    apply (f_equal length) in Er. rewrite length_rev in Er. cbn in Er. lia.
Qed.
End delivery.

(** Whether a tuple answers a lookup can be decided. *)
Definition field_answers (t u : tuple) (l i : nat) : Prop :=
  match fields t !! l, fields u !! i with Some v, Some w => compareTo v w = 0 | _, _ => False end.

#[export] Instance field_answers_dec t u l i : Decision (field_answers t u l i).
Proof. unfold field_answers. destruct (fields t !! l), (fields u !! i); apply _. Defined.

Lemma answers_alt lookupKey indexKey t u :
  answers lookupKey indexKey t u <-> Forall2 (field_answers t u) lookupKey indexKey.
Proof.
  unfold answers. split; intros HF; apply (Forall2_impl _ _ _ _ HF); intros l i; unfold field_answers.
  - intros (v & w & -> & -> & H). done.
  - destruct (fields t !! l) as [v|], (fields u !! i) as [w|]; try done. by exists v, w.
Qed.

#[export] Instance answers_dec lookupKey indexKey t u : Decision (answers lookupKey indexKey t u).
Proof.
  refine (cast_if (decide (Forall2 (field_answers t u) lookupKey indexKey))); by rewrite answers_alt.
Defined.

Lemma filter_agree {A} (P Q : A -> Prop) `{!forall x, Decision (P x)} `{!forall x, Decision (Q x)} (l : list A) :
  Forall (fun x => P x <-> Q x) l -> filter P l = filter Q l.
Proof.
  induction 1 as [|x l Hx _ IH]; [done|]. rewrite !filter_cons, IH.
  destruct (decide (P x)), (decide (Q x)); done || tauto.
Qed.

Section joined.
Context {CB : Type}.

End joined.

(** ** What does not go as meant *)

(** A second push before the first pull runs into an assertion, although the
    branch it is in only warns of an overrun. *)
Lemma lookup_overrun_asserts {CB} (t t' : tuple) (cb : CB) (cb' : option CB) (L L1 : Lookup CB) r called :
  lookup_idle L -> Lookup_push 0 t (Some cb) L = Ok (r, called, L1) ->
  Lookup_push 0 t' cb' L1 = Fail AssertFailed.
Proof.
  destruct L as [lt lv li lp ll ls st]. intros (H1 & H2 & H3 & H4) E. cbn in H1, H2, H3, H4. subst.
  cbn in E. injection E as <- <- <-. done.
Qed.

(** A [RangeLookup] made from an argument tuple takes its left end from the
    flag of the right one, and its right end from what was in memory. *)
Lemma range_flags_swapped (junk : bool) (l r k : value) (lk rk ik : Key) (oL oR : bool) :
  key_of_value l = Ok lk -> key_of_value r = Ok rk -> key_of_value k = Ok ik ->
  RangeConfig_of_args junk l r k (VInt64 (if oL then 1 else 0)) (VInt64 (if oR then 1 else 0))
    = Ok (mkRange lk rk ik oR junk).
Proof. intros H1 H2 H3. unfold RangeConfig_of_args. rewrite H1, H2, H3. by destruct oR. Qed.

(** [Insert] passes a tuple on exactly when the table reports a change, and
    leaves the table as the insertion does. *)
Lemma insert_forwards {T} `{TB : TableOps T} (p : tuple) (r : Z) (tbl tbl' : T) (b : bool) :
  tbl_insert p tbl = Ok (b, tbl') ->
  Insert_push p r tbl = Ok (if b then r else 1, if b then Some p else None, tbl').
Proof. intros H. unfold Insert_push. rewrite H. by destruct b. Qed.

Section aggregate_element.
Context {CB : Type}.

(** The element as its neighbours may drive it. *)
Inductive agg_system : AggElement CB -> Prop :=
  | agg_new : agg_system AggElement_mk
  | agg_reported A t : agg_system A -> agg_system (snd (AggElement_listener t A))
  | agg_pulled A cb o A' : agg_system A -> AggElement_pull 0 cb A = Ok (o, A') -> agg_system A'.

(** Its assertions never fail: an update that is pending has no puller waiting
    for it. *)
Lemma aggregate_never_asserts A cb : agg_system A -> exists o A', AggElement_pull 0 cb A = Ok (o, A').
Proof.
  intros HA.
  assert (Hinv : ae_pending A = true -> ae_pullCB A = None /\ is_Some (ae_latest A)).
  { induction HA as [|A t HA IH|A c o A' HA IH E]; [done| |].
    - unfold AggElement_listener. destruct (ae_latest A) as [t0|] eqn:El; cbn; [|by eauto].
      destruct (_ =? 0); cbn; [|by eauto]. intros Hp. rewrite El. by apply IH.
    - unfold AggElement_pull in E. cbn [Nat.eqb check rbind] in E. destruct (ae_pending A).
      + destruct (IH eq_refl) as [Hc [t Ht]]. rewrite Hc, Ht in E. cbn in E. by injection E as <- <-.
      + by injection E as <- <-. }
  unfold AggElement_pull. cbn [Nat.eqb check rbind]. destruct (ae_pending A); [|by eexists _, _].
  destruct (Hinv eq_refl) as [-> [t ->]]. by eexists _, _.
Qed.

(** It remembers one report only: when two groups of the aggregate change
    before it is pulled, the first change is lost. *)
Lemma aggregate_loses_reports (t1 t2 : tuple) (cb : option CB) : tuple_compareTo t1 t2 <> 0 ->
  let A := snd (AggElement_listener t2 (snd (AggElement_listener t1 AggElement_mk))) in
  exists A', AggElement_pull 0 cb A = Ok (Some t2, A') /\ AggElement_pull 0 cb A' = Ok (None, mkAggElement (Some t2) false cb).
Proof.
  intros Hne. cbn. apply Z.eqb_neq in Hne. rewrite Hne. cbn. by eexists.
Qed.
End aggregate_element.

(** ** Witness *)

