(* ===== verification/Commit.v ===== *)
(** * Fixpoints and commits (src/p2core/commitManager.C, scheduler.C,
      src/elements/insert2.C, delete2.C, commitBuf.C)

    The scheduler lets one external event into the dataflow, runs the elements
    until none is active, and commits: the tuples that [Insert2], [Delete2] and
    [CommitBuf] elements have put aside meanwhile go to their tables and
    outputs.

    The commit manager's list of actions is a list of records; an element holds
    the position of its action.  Where the pushes of a [CommitBuf] go is outside:
    [push_out] answers for the element behind buffer [b], in a state [W]. *)

From S2P Require Import Prelude Ids Stl Values Tuples Aggs Keys CommonTable TableInv RefTable TableLookup Table2 Casts Elements Joins Sched.

Local Open Scope p2_scope.

(** ** Actions *)

(** [Insert2::Action], [Delete2::Action], [CommitBuf::Action] *)
Inductive ActionKind := InsertAction (tbl : nat) | DeleteAction (tbl : nat) | CommitBufAction (buf : nat).

(** [CommitManager::Action]: [_buffer] is a [TupleMSet], kept in the order of
    [Tuple::compareTo]. *)
Record Action := mkAction { ac_kind : ActionKind; ac_buffer : list tuple }.

(** [CommitManager::Action::addTuple], [removeTuple]; erasing the end of the
    multiset is undefined. *)
Definition addTuple (t : tuple) (A : Action) : Action :=
  mkAction (ac_kind A) (multiset_insert tuple_lt id t (ac_buffer A)).
Definition removeTuple (t : tuple) (A : Action) : res Action :=
  let? i := of_option UndefinedBehaviour (set_find tuple_lt id t (ac_buffer A)) in
  Ok (mkAction (ac_kind A) (delete i (ac_buffer A))).

(** [Insert2::Action::abort] and the other two *)
Definition abort_action (A : Action) : Action := mkAction (ac_kind A) [].

(** [CommitManager::addAction], [removeAction] *)
Definition addAction (A : Action) (M : list Action) : list Action := M ++ [A].
Definition removeAction (i : nat) (M : list Action) : list Action := delete i M.

(** [Insert2::push], [Delete2::push], [CommitBuf::push] *)
Definition action_push (i : nat) (t : tuple) (M : list Action) : Z * list Action := (1, alter (addTuple t) i M).

(** [CommitManager::abort] *)
Definition abort_all (M : list Action) : list Action := abort_action <$> M.

Section commit.
Context {T : Type} `{TB : TableOps T} {W : Type} (push_out : nat -> tuple -> W -> res (Z * W)).

(** What commits act on. *)
Record Flow := mkFlow { fl_tables : list T; fl_world : W }.

(** One tuple of [Insert2::Action::commit], of [Delete2::Action::commit] and of
    [CommitBuf::flush], whose test [!output(0)->push( *it, 0) == 1] is true when
    the push answers 0. *)
Definition commit_tuple (k : ActionKind) (t : tuple) (F : Flow) : res Flow :=
  match k with
  | InsertAction i =>
      let? tbl := of_option UndefinedBehaviour (fl_tables F !! i) in
      let? (_, tbl) := tbl_insert t tbl in
      Ok (mkFlow (<[i := tbl]> (fl_tables F)) (fl_world F))
  | DeleteAction i =>
      let? tbl := of_option UndefinedBehaviour (fl_tables F !! i) in
      let? (_, tbl) := tbl_remove t tbl in
      Ok (mkFlow (<[i := tbl]> (fl_tables F)) (fl_world F))
  | CommitBufAction b =>
      let? (r, w) := push_out b t (fl_world F) in
      if r =? 0 then Fail Thrown else Ok (mkFlow (fl_tables F) w)
  end.

Fixpoint commit_buffer (k : ActionKind) (ts : list tuple) (F : Flow) : res Flow :=
  match ts with
  | [] => Ok F
  | t :: ts' => let? F := commit_tuple k t F in commit_buffer k ts' F
  end.

(** [Insert2::Action::commit], [Delete2::Action::commit],
    [CommitBuf::Action::commit] *)
Definition commit_action (A : Action) (F : Flow) : res (Action * Flow) :=
  let? F := commit_buffer (ac_kind A) (ac_buffer A) F in
  Ok (mkAction (ac_kind A) [], F).

(** [CommitManager::commit] *)
Fixpoint commit_all (M : list Action) (F : Flow) : res (list Action * Flow) :=
  match M with
  | [] => Ok ([], F)
  | A :: M' =>
      let? (A, F) := commit_action A F in
      let? (M', F) := commit_all M' F in
      Ok (A :: M', F)
  end.
End commit.
Arguments Flow : clear implicits.

(** ** [Scheduler::phase2] *)

Section phase2.
Context {St : Type} (extq_size : St -> nat) (activate : St -> res St) (fixpoint : St -> res (bool * St))
  (commit_updates : St -> res St).

(** One round: the gate is opened, the runnables run until none is active, and
    the updates are committed. *)
Definition round (ran : bool) (S : St) : res (bool * St) :=
  let? S := activate S in
  let? (r, S) := fixpoint S in
  let? S := commit_updates S in
  Ok (ran || r, S).

Fixpoint phase2_loop (fuel : nat) (first ran : bool) (S : St) : res (bool * St) :=
  if negb (extq_size S =? 0)%nat || first then
    match fuel with
    | O => Fail OutOfFuel
    | Datatypes.S fuel => let? (ran, S) := round ran S in phase2_loop fuel false ran S
    end
  else Ok (ran, S).

(** [Scheduler::phase2] without ([None]) and with an external queue: whether the
    wait of the event loop is reset to zero. *)
Definition phase2 (has_extQ : bool) (fuel : nat) (S : St) : res (bool * St) :=
  if has_extQ then phase2_loop fuel true false S else Ok (false, S).
End phase2.

(** ** A gate for external events *)

(** An external queue, the switch that lets one tuple through per fixpoint, and
    behind it a network whose reaction to a tuple - the tuples it puts aside for
    each action - depends on the tuple and on what is stored in the tables. *)
Section gate.
Context {T : Type} `{TB : TableOps T} {W : Type} (push_out : nat -> tuple -> W -> res (Z * W))
  (react : tuple -> list T -> list (nat * tuple)).

Record Gate := mkGate { g_q : Queue pcb; g_switch : Runnable; g_actions : list Action; g_flow : Flow T W }.

Definition push_each (ps : list (nat * tuple)) (M : list Action) : list Action :=
  foldl (fun M p => snd (action_push (fst p) (snd p) M)) M ps.

(** The switch's input and output. *)
Definition gate_in (G : Gate) : res (option tuple * Gate) :=
  let '(o, _, Q) := Queue_pull (Some PullWakeup) (g_q G) in
  Ok (o, mkGate Q (g_switch G) (g_actions G) (g_flow G)).
Definition gate_out (t : tuple) (G : Gate) : res (Z * Gate) :=
  Ok (1, mkGate (g_q G) (g_switch G) (push_each (react t (fl_tables (g_flow G))) (g_actions G)) (g_flow G)).

Definition gate_run (it : nat) (G : Gate) : res Gate :=
  let? (P, G) := Switch_run gate_in gate_out 2 1 (g_switch G) G in
  Ok (mkGate (g_q G) P (g_actions G) (g_flow G)).

Definition gate_activate (G : Gate) : res Gate :=
  let? P := Switch_state ACTIVE (g_switch G) in
  Ok (mkGate (g_q G) P (g_actions G) (g_flow G)).

Definition gate_commit (G : Gate) : res Gate :=
  let? (M, F) := commit_all push_out (g_actions G) (g_flow G) in
  Ok (mkGate (g_q G) (g_switch G) M F).

Definition gate_phase2 (fuel : nat) (G : Gate) : res (bool * Gate) :=
  phase2 (fun G => q_proxy_size (g_q G)) gate_activate
    (runRunnables (fun G _ => r_state (g_switch G)) gate_run (Some O) 1 [O]) gate_commit true fuel G.

(** The specification: one event at a time, each seeing what those before it
    have committed. *)
Fixpoint one_by_one (M : list Action) (es : list tuple) (F : Flow T W) : res (Flow T W) :=
  match es with
  | [] => Ok F
  | e :: es' =>
      let? (_, F) := commit_all push_out (push_each (react e (fl_tables F)) M) F in
      one_by_one M es' F
  end.

Definition gate_ready (G : Gate) : Prop :=
  q_proxy_size (g_q G) = length (q_q (g_q G)) /\ r_pushPending (g_switch G) = false /\
  Forall (fun A => ac_buffer A = []) (g_actions G).

Lemma push_all_kinds ps M : ac_kind <$> push_each ps M = ac_kind <$> M.
Proof.
  revert M. induction ps as [|[i t] ps IH]; intros M; [done|]. cbn. unfold push_each in IH. rewrite IH.
  revert i. induction M as [|A M IHM]; intros [|i]; cbn; [done..|]. f_equal. apply IHM.
Qed.

Lemma commit_all_empties M F M' F' : commit_all push_out M F = Ok (M', F') ->
  M' = (fun A => mkAction (ac_kind A) []) <$> M.
Proof.
  revert F M' F'. induction M as [|A M IH]; intros F M' F' E; cbn [commit_all] in E; [by injection E as <- <-|].
  unfold commit_action in E. destruct (commit_buffer push_out _ _ F) as [F1|]; [|done]. cbn [rbind] in E.
  destruct (commit_all push_out M F1) as [[M2 F2]|] eqn:E2; [|done]. cbn [rbind] in E. injection E as <- <-.
  cbn. f_equal. by apply (IH F1 M2 F2).
Qed.

Lemma emptied_same ps M : Forall (fun A => ac_buffer A = []) M ->
  (fun A => mkAction (ac_kind A) []) <$> push_each ps M = M.
Proof.
  intros HM. transitivity ((fun k => mkAction k []) <$> (ac_kind <$> push_each ps M)).
  { by rewrite <- list_fmap_compose. }
  rewrite push_all_kinds, <- list_fmap_compose. induction HM as [|[k b] M Hb _ IH]; [done|]. cbn in *. subst b. by f_equal.
Qed.

(** The fixpoint with the gate open, on the next event or on none. *)
Lemma gate_fixpoint G : r_state (g_switch G) = ACTIVE -> exists P Q,
  runRunnables (fun G _ => r_state (g_switch G)) gate_run (Some O) 1 [O] G = Ok (false, mkGate Q P
    (match q_q (g_q G) with [] => g_actions G | e :: _ => push_each (react e (fl_tables (g_flow G))) (g_actions G) end) (g_flow G))
  /\ q_q Q = tail (q_q (g_q G)) /\ r_pushPending P = r_pushPending (g_switch G)
  /\ (q_proxy_size (g_q G) = length (q_q (g_q G)) -> q_proxy_size Q = length (q_q Q)).
Proof.
  destruct G as [[q n c1 c2 ps pz] [s pp ph] M F]. cbn [g_switch r_state g_q q_q g_actions g_flow r_pushPending q_proxy_size].
  intros ->. unfold runRunnables. cbn [check rbind run_loop run_pass g_switch r_state].
  rewrite bool_decide_true by done. unfold gate_run, Switch_run. cbn [g_switch r_state]. rewrite bool_decide_true by done.
  destruct q as [|e es]; cbn -[bool_decide push_each];
    (rewrite (bool_decide_true (Some O = Some O)) by done); cbn -[bool_decide push_each];
    eexists _, _; (split; [done|]); by split_and!.
Qed.

(** A round takes one event. *)
Lemma gate_round e es G F' M' : gate_ready G -> q_q (g_q G) = e :: es ->
  commit_all push_out (push_each (react e (fl_tables (g_flow G))) (g_actions G)) (g_flow G) = Ok (M', F') ->
  exists G', round gate_activate (runRunnables (fun G _ => r_state (g_switch G)) gate_run (Some O) 1 [O]) gate_commit false G
    = Ok (false, G') /\ gate_ready G' /\ q_q (g_q G') = es /\ g_flow G' = F' /\ g_actions G' = g_actions G.
Proof.
  intros (Hp & Hh & HM) Hq Hc. unfold round, gate_activate. cbn [Switch_state]. rewrite Hh. cbn [check negb rbind].
  destruct (gate_fixpoint (mkGate (g_q G) (put_state ACTIVE (g_switch G)) (g_actions G) (g_flow G)) eq_refl)
    as (P & Q & HR & HQ & HP & HS). rewrite HR. cbn [rbind]. cbn [g_q g_actions g_flow g_switch] in *. rewrite Hq in HQ, HS |- *.
  unfold gate_commit. cbn [g_actions g_flow]. rewrite Hc. cbn [rbind orb].
  pose proof (commit_all_empties _ _ _ _ Hc) as HM'. rewrite (emptied_same _ _ HM) in HM'. subst M'.
  eexists. split; [done|]. cbn in HP. unfold gate_ready. cbn. rewrite HP, Hh, HS by (by rewrite Hp, Hq). by split_and!.
Qed.

(** A round with nothing to take commits nothing. *)
Lemma commit_nothing M F : Forall (fun A => ac_buffer A = []) M -> commit_all push_out M F = Ok (M, F).
Proof.
  induction 1 as [|[k b] M Hb _ IH]; [done|]. cbn in Hb. subst b. cbn. by rewrite IH.
Qed.

Lemma gate_loop es fuel G F' first : (length es <= fuel)%nat -> gate_ready G -> q_q (g_q G) = es ->
  one_by_one (g_actions G) es (g_flow G) = Ok F' -> (first = true -> es <> []) ->
  exists G', phase2_loop (fun G => q_proxy_size (g_q G)) gate_activate
      (runRunnables (fun G _ => r_state (g_switch G)) gate_run (Some O) 1 [O]) gate_commit fuel first false G = Ok (false, G')
    /\ gate_ready G' /\ q_q (g_q G') = [] /\ g_flow G' = F' /\ g_actions G' = g_actions G.
Proof.
  revert fuel G first. induction es as [|e es IH]; intros fuel G first Hfu HG Hq Hs Hf.
  - destruct first; [by destruct (Hf eq_refl)|]. cbn in Hs. injection Hs as <-. exists G.
    destruct HG as (Hp & Hh & HM). split_and!; try done. destruct fuel; cbn [phase2_loop]; by rewrite Hp, Hq.
  - destruct fuel as [|fuel]; [cbn in Hfu; lia|]. cbn [length] in Hfu. cbn [one_by_one] in Hs.
    destruct (commit_all push_out _ (g_flow G)) as [[M1 F1]|] eqn:Ec; [|done]. cbn [rbind] in Hs.
    destruct (gate_round e es G F1 M1 HG Hq Ec) as (G1 & Hr & HG1 & Hq1 & HF1 & HA1).
    rewrite <- HF1, <- HA1 in Hs. destruct (IH fuel G1 false ltac:(lia) HG1 Hq1 Hs) as (G2 & HL & HG2 & Hq2 & HF2 & HA2); [done|].
    exists G2. cbn [phase2_loop]. destruct HG as (Hp & _ & _). rewrite Hp, Hq. cbn [length Nat.eqb negb orb].
    rewrite Hr. cbn [rbind]. rewrite HL. split_and!; try done. by rewrite HA2.
Qed.

(** C27: external events are processed one at a time and atomically: one run of
    the scheduler over a queue of events empties the queue and leaves the tables
    and outputs as if each event in turn had been reacted to on what the events
    before it committed, its updates applied together at the end of its
    fixpoint; the gate is ready for more. *)
Theorem phase2_atomic (G : Gate) (es : list tuple) (F' : Flow T W) : gate_ready G -> q_q (g_q G) = es ->
  one_by_one (g_actions G) es (g_flow G) = Ok F' ->
  exists G', gate_phase2 (Datatypes.S (length es)) G = Ok (false, G') /\ gate_ready G' /\ q_q (g_q G') = [] /\ g_flow G' = F'
    /\ g_actions G' = g_actions G.
Proof.
  intros HG Hq Hs. unfold gate_phase2, phase2. destruct es as [|e es].
  - destruct HG as (Hp & Hh & HM). cbn in Hs. injection Hs as <-. cbn [phase2_loop length]. rewrite Hp, Hq.
    cbn [length Nat.eqb negb orb]. unfold round, gate_activate. cbn [Switch_state]. rewrite Hh. cbn [check negb rbind].
    destruct (gate_fixpoint (mkGate (g_q G) (put_state ACTIVE (g_switch G)) (g_actions G) (g_flow G)) eq_refl)
      as (P & Q & HR & HQ & HP & HS). rewrite HR. cbn [rbind]. cbn [g_q g_actions g_flow g_switch] in *. rewrite Hq in HQ, HS |- *.
    unfold gate_commit. cbn [g_actions g_flow]. rewrite commit_nothing by done. cbn [rbind orb phase2_loop].
    cbn [g_q]. rewrite HS by (by rewrite Hp, Hq). rewrite HQ. cbn. eexists. split; [done|].
    cbn in HP. unfold gate_ready. cbn. rewrite HP, Hh, HS by (by rewrite Hp, Hq). by split_and!.
  - by apply (gate_loop (e :: es)); [cbn; lia|..].
Qed.
End gate.

(** ** The order of the pushes does not matter *)

Lemma buffer_add t l : Forall plain_tuple (t :: l) -> mset_sorted tuple_lt id l ->
  mset_sorted tuple_lt id (multiset_insert tuple_lt id t l) /\ Forall plain_tuple (multiset_insert tuple_lt id t l)
  /\ multiset_insert tuple_lt id t l ≡ₚ t :: l.
Proof.
  intros HP Hs. assert (Hp : multiset_insert tuple_lt id t l ≡ₚ t :: l) by apply insert_at_perm.
  split_and!; [|by rewrite Hp|done]. apply Forall_cons in HP as [Pt Pl].
  apply (multiset_insert_sorted tuple_lt id plain_tuple); done.
Qed.

(** What the pushes leave in a buffer: the tuples pushed, in ascending order. *)
Lemma buffer_fold ts : forall l, Forall plain_tuple (ts ++ l) -> mset_sorted tuple_lt id l ->
  let b := foldl (fun l t => multiset_insert tuple_lt id t l) l ts in
  mset_sorted tuple_lt id b /\ b ≡ₚ ts ++ l.
Proof.
  induction ts as [|t ts IH]; intros l HP Hs; [done|]. cbn in HP |- *. apply Forall_cons in HP as [Pt HP].
  apply Forall_app in HP as [Pts Pl]. destruct (buffer_add t l) as (Hs' & HP' & Hp); [by constructor|done|].
  destruct (IH (multiset_insert tuple_lt id t l)) as [Hb Hbp]; [by apply Forall_app|done|]. split; [done|].
  rewrite Hbp, Hp. by rewrite Permutation_middle.
Qed.

Definition pushed_to (j : nat) (ps : list (nat * tuple)) : list tuple := snd <$> filter (fun p => fst p = j) ps.

Lemma push_all_at ps : forall M j, push_each ps M !! j =
  (fun A => mkAction (ac_kind A) (foldl (fun l t => multiset_insert tuple_lt id t l) (ac_buffer A) (pushed_to j ps))) <$> M !! j.
Proof.
  induction ps as [|[i t] ps IH]; intros M j.
  - cbn. destruct (M !! j) as [[]|]; done.
  - change (push_each ((i, t) :: ps) M) with (push_each ps (alter (addTuple t) i M)). rewrite IH.
    unfold pushed_to. destruct (decide (i = j)) as [->|Hne].
    + rewrite filter_cons_True by done. rewrite list_lookup_alter_eq. by destruct (M !! j).
    + rewrite filter_cons_False by done. by rewrite list_lookup_alter_ne.
Qed.

Section order.
Context {T : Type} `{TB : TableOps T} {W : Type} (push_out : nat -> tuple -> W -> res (Z * W)).

(** what a fixpoint commits does not depend on the order in which its
    elements put their updates aside.  Each buffer holds exactly the tuples
    pushed to its element, in ascending order; when tuples that compare equal
    are the same, any two orders of the pushes give the same buffers, and hence
    the same tables and outputs. *)
Theorem commit_order_free (ps ps' : list (nat * tuple)) (M : list Action) (F : Flow T W) :
  Forall (fun A => ac_buffer A = []) M -> Forall (fun p => plain_tuple (snd p)) ps -> ps ≡ₚ ps' ->
  (forall t u, t ∈ ps.*2 -> u ∈ ps.*2 -> tuple_compareTo t u = 0 -> t = u) ->
  (forall j A, push_each ps M !! j = Some A -> ac_buffer A ≡ₚ pushed_to j ps /\ mset_sorted tuple_lt id (ac_buffer A))
  /\ push_each ps M = push_each ps' M
  /\ commit_all push_out (push_each ps M) F = commit_all push_out (push_each ps' M) F.
Proof.
  intros HM HP Hps Heq.
  assert (Hbuf : forall qs j, Forall (fun p => plain_tuple (snd p)) qs ->
    let b := foldl (fun l t => multiset_insert tuple_lt id t l) [] (pushed_to j qs) in
    mset_sorted tuple_lt id b /\ b ≡ₚ pushed_to j qs).
  { intros qs j Hq. pose proof (buffer_fold (pushed_to j qs) []) as HB. rewrite app_nil_r in HB. apply HB; [|constructor].
    unfold pushed_to. rewrite Forall_fmap. by apply Forall_filter. }
  assert (Hsame : push_each ps M = push_each ps' M).
  { apply list_eq. intros j. rewrite !push_all_at. destruct (M !! j) as [A|] eqn:EA; [|done]. cbn. do 2 f_equal.
    rewrite Forall_forall in HM. rewrite (HM A) by (by eapply list_elem_of_lookup_2).
    destruct (Hbuf ps j HP) as [S1 P1]. destruct (Hbuf ps' j) as [S2 P2]; [by rewrite <- Hps|].
    assert (Hin : forall qs t, t ∈ pushed_to j qs -> t ∈ qs.*2).
    { intros qs t Ht. apply list_elem_of_fmap in Ht as (q & -> & Hq). apply list_elem_of_filter in Hq as [_ Hq].
      by apply list_elem_of_fmap_2. }
    apply (StronglySorted_unique_strong (fun x y => tuple_lt y x = false)); [|done|done|].
    - intros x y Hx Hy H1 H2. assert (Hx' : x ∈ ps.*2) by (apply Hin; by rewrite <- P1).
      assert (Hy' : y ∈ ps.*2) by (rewrite Hps; apply Hin; by rewrite <- P2).
      assert (Px : plain_tuple x /\ plain_tuple y).
      { rewrite Forall_forall in HP. apply list_elem_of_fmap in Hx' as (a & -> & Ha), Hy' as (b & -> & Hb). auto. }
      apply Heq; [done|done|]. unfold tuple_lt in H1, H2.
      destruct Px as [Px Py]. pose proof (cmp_antisym (CompareOrder := tuple_compare_order) x y Px Py). lia.
    - rewrite P1, P2. unfold pushed_to. by rewrite Hps. }
  split; [|by rewrite Hsame]. intros j A HA. rewrite push_all_at in HA.
  destruct (M !! j) as [A0|] eqn:E; [|done]. injection HA as <-. cbn. rewrite Forall_forall in HM.
  rewrite (HM A0) by (by eapply list_elem_of_lookup_2). destruct (Hbuf ps j HP). done.
Qed.
End order.

(** ** Commits to a reference-counted table *)

(** The commit of an [Insert2] is the sequence of its insertions, of a [Delete2]
    that of its removals. *)
Lemma commit_insert_exec {W} (push_out : nat -> tuple -> W -> res (Z * W)) now idL idU i ts bs (F : Flow table W) tbl tbl' :
  fl_tables F !! i = Some tbl -> RefTable.exec_all ((fun t => RefTable.Insert t now) <$> ts) tbl = Ok (bs, tbl') ->
  commit_buffer (TB := RefTable_ops now idL idU) push_out (InsertAction i) ts F = Ok (mkFlow (<[i := tbl']> (fl_tables F)) (fl_world F)).
Proof.
  revert F tbl bs. induction ts as [|t ts IH]; intros F tbl bs Hi E; cbn in E |- *.
  - injection E as <- <-. rewrite list_insert_id by done. by destruct F.
  - rewrite Hi. cbn. destruct (RefTable.insert t now tbl) as [[b tbl1]|]; [|done]. cbn in E |- *.
    destruct (RefTable.exec_all _ tbl1) as [[bs1 tbl2]|] eqn:E1; [|done]. cbn in E. injection E as <- <-.
    rewrite (IH _ tbl1 bs1); cbn; [by rewrite list_insert_insert_eq| |done].
    apply list_lookup_insert_eq. by eapply lookup_lt_Some.
Qed.

Lemma commit_delete_exec {W} (push_out : nat -> tuple -> W -> res (Z * W)) now idL idU i ts bs (F : Flow table W) tbl tbl' :
  fl_tables F !! i = Some tbl -> RefTable.exec_all (RefTable.Remove <$> ts) tbl = Ok (bs, tbl') ->
  commit_buffer (TB := RefTable_ops now idL idU) push_out (DeleteAction i) ts F = Ok (mkFlow (<[i := tbl']> (fl_tables F)) (fl_world F)).
Proof.
  revert F tbl bs. induction ts as [|t ts IH]; intros F tbl bs Hi E; cbn in E |- *.
  - injection E as <- <-. rewrite list_insert_id by done. by destruct F.
  - rewrite Hi. cbn. destruct (RefTable.remove t tbl) as [[b tbl1]|]; [|done]. cbn in E |- *.
    destruct (RefTable.exec_all _ tbl1) as [[bs1 tbl2]|] eqn:E1; [|done]. cbn in E. injection E as <- <-.
    rewrite (IH _ tbl1 bs1); cbn; [by rewrite list_insert_insert_eq| |done].
    apply list_lookup_insert_eq. by eapply lookup_lt_Some.
Qed.

(** ** Witnesses *)

Definition no_out (b : nat) (t : tuple) (w : unit) : res (Z * unit) := Ok (1, tt).
Definition one_insert : list Action := [mkAction (InsertAction 0) []].
Definition links_flow : Flow table unit := mkFlow [RefTable.links0] tt.

(** Two links in the external queue, stored as they arrive. *)
Definition links_gate : Gate (T := table) (W := unit) :=
  mkGate (mkQueue [RefTable.link 1 7 1; RefTable.link 2 7 2] 10 None None STATEFUL 2) (put_state OFF Runnable_mk)
    one_insert links_flow.

Lemma phase2_atomic_witness : exists G' tbl,
  gate_phase2 (TB := RefTable_ops 0 0 0) no_out (fun t _ => [(0%nat, t)]) 3 links_gate = Ok (false, G')
  /\ q_q (g_q G') = [] /\ fl_tables (g_flow G') = [tbl] /\ length (contents tbl) = 2%nat.
Proof.
  set (F' := match one_by_one (TB := RefTable_ops 0 0 0) no_out (fun t _ => [(0%nat, t)]) one_insert
    [RefTable.link 1 7 1; RefTable.link 2 7 2] links_flow with Ok F => F | Fail _ => links_flow end).
  destruct (phase2_atomic (TB := RefTable_ops 0 0 0) no_out (fun t _ => [(0%nat, t)]) links_gate
    [RefTable.link 1 7 1; RefTable.link 2 7 2] F') as (G' & H1 & _ & H2 & H3 & _).
  - split_and!; [reflexivity|reflexivity|repeat constructor].
  - reflexivity.
  - vm_compute. reflexivity.
  - exists G'. eexists. split; [exact H1|]. split; [exact H2|]. rewrite H3. split; [vm_compute; reflexivity|].
    vm_compute. reflexivity.
Defined.

Lemma commit_order_free_witness :
  push_each [(0%nat, RefTable.link 1 7 1); (0%nat, RefTable.link 2 7 2)] one_insert
    = push_each [(0%nat, RefTable.link 2 7 2); (0%nat, RefTable.link 1 7 1)] one_insert.
Proof.
  apply (commit_order_free (TB := RefTable_ops 0 0 0) no_out
    [(0%nat, RefTable.link 1 7 1); (0%nat, RefTable.link 2 7 2)]
    [(0%nat, RefTable.link 2 7 2); (0%nat, RefTable.link 1 7 1)] one_insert links_flow).
  - repeat constructor.
  - vm_decide.
  - apply perm_swap.
  - intros t u Ht Hu H. repeat (apply elem_of_cons in Ht as [->|Ht]); repeat (apply elem_of_cons in Hu as [->|Hu]);
      try done; try (by apply elem_of_nil in Ht); try (by apply elem_of_nil in Hu).
Defined.
