(* ===== verification/AggWrap.v ===== *)
(** * Aggregates over the results of a rule (src/elements/aggwrap2.C,
      aggwrap2Callback.C)

    An aggregation element wraps the strand of a rule: an event comes in from
    outside and goes into the strand, the strand's results come back to be
    aggregated, and when the strand's first join reports that it is done, one
    result tuple leaves.  The two classes differ in how the end is reported: by
    a callback ([comp_cb]), and for [Aggwrap2] also by a push on port 2.

    The strand may answer while it is being pushed to: what it does then is an
    argument of the push.  The effects of an operation on the neighbours are
    listed in order. *)

From Stdlib Require Import String.
From S2P Require Import Prelude Ids Stl Values Tuples Aggs Casts.

Local Open Scope p2_scope.

(** [Aggwrap2::State] *)
Inductive AggState := CONFIG | IDLE | BUSY.

Section aggwrap.
Context {CB : Type}.

Record Aggwrap := mkAggwrap {
  aw_aggField : Z;
  aw_starAgg : bool;
  aw_numJoins : Z;
  aw_outerGroupBy : list Z;
  aw_innerGroupBy : list Z;
  aw_resultTupleName : string;
  aw_fn : AggFunc;
  aw_state : AggState;
  aw_accepting : bool;
  aw_ext_in_cb : option CB;
  aw_event : option tuple;
  aw_seen : bool
}.

(** What the element does to its neighbours: a result tuple on port 0 - the
    group-by fields around the result of the function, which may keep sharing
    the function's own set - and a callback. *)
Inductive awout := Emit (pre : list value) (r : aggres) (post : list value) | Wake (c : CB).

(** The fields of an emitted_fields tuple as they read while the function object is
    [f]. *)
Definition emitted_fields (f : AggFunc) (o : awout) : option (list value) :=
  match o with Emit pre r post => Some (pre ++ deref f r :: post) | Wake _ => None end.

Definition with_cb (cb : option CB) (A : Aggwrap) : Aggwrap :=
  mkAggwrap (aw_aggField A) (aw_starAgg A) (aw_numJoins A) (aw_outerGroupBy A) (aw_innerGroupBy A)
    (aw_resultTupleName A) (aw_fn A) (aw_state A) (aw_accepting A) cb (aw_event A) (aw_seen A).
Definition with_accepting (b : bool) (A : Aggwrap) : Aggwrap :=
  mkAggwrap (aw_aggField A) (aw_starAgg A) (aw_numJoins A) (aw_outerGroupBy A) (aw_innerGroupBy A)
    (aw_resultTupleName A) (aw_fn A) (aw_state A) b (aw_ext_in_cb A) (aw_event A) (aw_seen A).
Definition with_fn (f : AggFunc) (seen : bool) (A : Aggwrap) : Aggwrap :=
  mkAggwrap (aw_aggField A) (aw_starAgg A) (aw_numJoins A) (aw_outerGroupBy A) (aw_innerGroupBy A)
    (aw_resultTupleName A) f (aw_state A) (aw_accepting A) (aw_ext_in_cb A) (aw_event A) seen.
Definition with_state (s : AggState) (ev : option tuple) (A : Aggwrap) : Aggwrap :=
  mkAggwrap (aw_aggField A) (aw_starAgg A) (aw_numJoins A) (aw_outerGroupBy A) (aw_innerGroupBy A)
    (aw_resultTupleName A) (aw_fn A) s (aw_accepting A) (aw_ext_in_cb A) ev (aw_seen A).

(** ** Configuration *)

(** [Aggwrap2::Aggwrap2], which throws when there is no such function.  [seen]
    is what happens to be in [_seenTuples]. *)
Definition Aggwrap_mk (seen : bool) (functionName : string) (aggfield : Z) (starAgg : bool) (resultTupleName : string)
    : res Aggwrap :=
  let? f := of_option Thrown (AggFactory_mk functionName) in
  Ok (mkAggwrap (u32 aggfield) starAgg 0 [] [] resultTupleName f CONFIG true None None seen).

(** [Aggwrap2::registerGroupbyField] *)
Definition registerGroupbyField (outerField : Z) (A : Aggwrap) : Aggwrap :=
  match aw_state A with
  | CONFIG =>
      let outer := aw_outerGroupBy A ++ [u32 outerField] in
      let nextInnerFieldNo := u32 (1 + Z.of_nat (length outer)) in
      let nextInnerFieldNo := if nextInnerFieldNo =? aw_aggField A then u32 (nextInnerFieldNo + 1) else nextInnerFieldNo in
      mkAggwrap (aw_aggField A) (aw_starAgg A) (aw_numJoins A) outer (aw_innerGroupBy A ++ [nextInnerFieldNo])
        (aw_resultTupleName A) (aw_fn A) (aw_state A) (aw_accepting A) (aw_ext_in_cb A) (aw_event A) (aw_seen A)
  | _ => A
  end.

Fixpoint register_fields (vs : list value) (A : Aggwrap) : res Aggwrap :=
  match vs with
  | [] => Ok A
  | v :: vs' => let? z := Val_Int64_cast v in register_fields vs' (registerGroupbyField z A)
  end.

(** [Aggwrap2::Aggwrap2(TuplePtr)], the arguments from the third on.  A function
    that does not exist leaves [_aggregateFn] uninitialised. *)
Definition Aggwrap_of_args `{P : Platform} (seen : bool) (functionName aggField starAgg groupBy resultTupleName : value) : res Aggwrap :=
  let f := Val_Str_cast functionName in
  let? k := Val_Int64_cast aggField in
  let? star := Val_Int64_cast starAgg in
  let? fn := of_option UndefinedBehaviour (AggFactory_mk f) in
  let? fields := Val_List_cast groupBy in
  let? A := register_fields fields (mkAggwrap (u32 k) (negb (star =? 0)) 0 [] [] "" fn CONFIG true None None seen) in
  let name := Val_Str_cast resultTupleName in
  Ok (mkAggwrap (aw_aggField A) (aw_starAgg A) (aw_numJoins A) (aw_outerGroupBy A) (aw_innerGroupBy A)
        name (aw_fn A) (aw_state A) (aw_accepting A) (aw_ext_in_cb A) (aw_event A) (aw_seen A)).

(** [Aggwrap2::get_comp_cb]: the number the callback will call with. *)
Definition get_comp_cb (A : Aggwrap) : res (Z * Aggwrap) :=
  match aw_state A with
  | CONFIG =>
      Ok (aw_numJoins A,
          mkAggwrap (aw_aggField A) (aw_starAgg A) (aw_numJoins A + 1) (aw_outerGroupBy A) (aw_innerGroupBy A)
            (aw_resultTupleName A) (aw_fn A) (aw_state A) (aw_accepting A) (aw_ext_in_cb A) (aw_event A) (aw_seen A))
  | _ => Fail Thrown
  end.

(** ** The aggregation *)

(** [Aggwrap2::agg_init] *)
Definition agg_init (A : Aggwrap) : Aggwrap :=
  with_fn (reset (aw_fn A)) false (with_state BUSY (aw_event A) A).

(** [Aggwrap2::agg_accum] *)
Definition agg_accum (t : tuple) (A : Aggwrap) : res Aggwrap :=
  let? v := if aw_starAgg A then Ok VNull else Tuple_at t (Z.to_nat (aw_aggField A)) in
  let? f := if aw_seen A then process (aw_fn A) v else Ok (first (aw_fn A) v) in
  Ok (with_fn f true A).

(** The loops of [agg_finalize]: [n] fields, counted by the [uint32_t] [i], the
    group-by field taken at [i - off]. *)
Fixpoint group_by_fields (n : nat) (i off : Z) (outer : list Z) (ev : tuple) : res (list value) :=
  match n with
  | O => Ok []
  | S n =>
      let? k := of_option UndefinedBehaviour (outer !! Z.to_nat (u32 (i - off))) in
      let? v := Tuple_at ev (Z.to_nat k) in
      let? vs := group_by_fields n (i + 1) off outer ev in
      Ok (v :: vs)
  end.

(** [Aggwrap2::agg_finalize]; no function answers a null pointer. *)
Definition agg_finalize (A : Aggwrap) : res (list awout * Aggwrap) :=
  let? ev := of_option AssertFailed (aw_event A) in
  let n := Z.of_nat (length (aw_outerGroupBy A)) in
  let? pre := group_by_fields (Z.to_nat (aw_aggField A - 1)) 1 1 (aw_outerGroupBy A) ev in
  let? post := group_by_fields (Z.to_nat (n + 2 - u32 (aw_aggField A + 1))) (u32 (aw_aggField A + 1)) 2 (aw_outerGroupBy A) ev in
  Ok (Emit (VStr (aw_resultTupleName A) :: pre) (result (aw_fn A)) post :: (Wake <$> option_list (aw_ext_in_cb A)),
      with_cb None (with_state IDLE None A)).

(** ** Pushes and callbacks *)

(** [Aggwrap2::push] on port 0.  [inner] is the strand behind port 1: it may use
    the element before it answers. *)
Definition push_outer (inner : Aggwrap -> res (Z * list awout * Aggwrap)) (t : tuple) (cb : option CB) (A : Aggwrap)
    : res (Z * list awout * Aggwrap) :=
  let A := with_cb cb A in
  match aw_state A with
  | BUSY => Ok (0, [], A)
  | _ =>
      let? _ := check (aw_accepting A) AssertFailed in
      let? (r, out, A) := inner (agg_init (with_state IDLE (Some t) A)) in
      Ok (0, out, with_accepting (negb (r =? 0)) A)
  end.

(** The ways the strand reports back: a result ([push] on port 1), the end
    ([push] on port 2, [comp_cb(0)]), the end of another join, and that it takes
    more ([int_push_cb]). *)
Inductive inner_event := Inner (t : tuple) | Complete | JoinDone (jnum : Z) | InnerReady.

(** [Aggwrap2::push] on ports 1 and 2, [comp_cb], [int_push_cb] *)
Definition inner_step (e : inner_event) (A : Aggwrap) : res (list awout * Aggwrap) :=
  match aw_state A, e with
  | BUSY, Inner t => let? A := agg_accum t A in Ok ([], A)
  | BUSY, Complete => agg_finalize A
  | BUSY, JoinDone jnum => if jnum =? 0 then agg_finalize A else Ok ([], A)
  | BUSY, InnerReady => Ok (Wake <$> option_list (aw_ext_in_cb A), with_cb None (with_accepting true A))
  | _, _ => Ok ([], A)
  end.

Fixpoint inner_steps (es : list inner_event) (A : Aggwrap) : res (list awout * Aggwrap) :=
  match es with
  | [] => Ok ([], A)
  | e :: es' =>
      let? (o, A) := inner_step e A in
      let? (o', A) := inner_steps es' A in
      Ok (o ++ o', A)
  end.
(** [Aggwrap2::comp_cb], [Aggwrap2::int_push_cb] *)
Definition comp_cb (jnum : Z) : Aggwrap -> res (list awout * Aggwrap) := inner_step (JoinDone jnum).
Definition int_push_cb : Aggwrap -> res (list awout * Aggwrap) := inner_step InnerReady.

(** [Aggwrap2::push] and [Aggwrap2Callback::push]: the latter has no port 2. *)
Definition Aggwrap2_push (inner : Aggwrap -> res (Z * list awout * Aggwrap)) (port : nat) (t : tuple) (cb : option CB)
    (A : Aggwrap) : res (Z * list awout * Aggwrap) :=
  match port with
  | 0%nat => push_outer inner t cb A
  | 1%nat => let? (o, A) := inner_step (Inner t) A in Ok (1, o, A)
  | 2%nat => let? (o, A) := inner_step Complete A in Ok (1, o, A)
  | _ => Ok (0, [], A)
  end.
Definition Aggwrap2Callback_push (inner : Aggwrap -> res (Z * list awout * Aggwrap)) (port : nat) (t : tuple)
    (cb : option CB) (A : Aggwrap) : res (Z * list awout * Aggwrap) :=
  match port with
  | 0%nat => push_outer inner t cb A
  | 1%nat => let? (o, A) := inner_step (Inner t) A in Ok (1, o, A)
  | _ => Ok (0, [], A)
  end.
End aggwrap.
Arguments Aggwrap : clear implicits.
Arguments awout : clear implicits.

(** ** One event, one result *)

Section correct.
Context {CB : Type}.
Implicit Types A : Aggwrap CB.

(** Events of the strand that do not end the aggregation. *)
Definition quiet (e : inner_event) : Prop :=
  match e with Complete => False | JoinDone j => j <> 0 | _ => True end.

Definition inner_tuples (es : list inner_event) : list tuple :=
  omap (fun e => match e with Inner t => Some t | _ => None end) es.

(** The value a tuple contributes. *)
Definition contributes A (t : tuple) (v : value) : Prop :=
  if aw_starAgg A then v = VNull else fields t !! Z.to_nat (aw_aggField A) = Some v.

(** What stays while an aggregation goes on. *)
Definition same_setup A A' : Prop :=
  aw_aggField A' = aw_aggField A /\ aw_starAgg A' = aw_starAgg A /\ aw_outerGroupBy A' = aw_outerGroupBy A /\
  aw_resultTupleName A' = aw_resultTupleName A /\ aw_state A' = aw_state A /\ aw_event A' = aw_event A.

Lemma same_setup_trans A1 A2 A3 : same_setup A1 A2 -> same_setup A2 A3 -> same_setup A1 A3.
Proof. unfold same_setup. intuition congruence. Qed.

Lemma contributes_setup A A' t v : same_setup A A' -> contributes A t v -> contributes A' t v.
Proof. unfold contributes. intros (-> & -> & _). done. Qed.

(** The function object after some more values. *)
Definition accumulate (f : AggFunc) (seen : bool) (vs : list value) : res AggFunc :=
  match vs with
  | [] => Ok f
  | v :: vs' => let? f := if seen then process f v else Ok (first f v) in process_all f vs'
  end.

Lemma process_all_app f vs ws : process_all f (vs ++ ws) = let? f := process_all f vs in process_all f ws.
Proof. revert f. induction vs as [|v vs IH]; intros f; cbn; [done|]. destruct (process f v); cbn; [apply IH|done]. Qed.

Lemma accumulate_app f seen vs ws : accumulate f seen (vs ++ ws) =
  let? f := accumulate f seen vs in accumulate f (seen || negb (bool_decide (vs = []))) ws.
Proof.
  destruct vs as [|v vs]; cbn; [by rewrite orb_false_r|]. rewrite orb_true_r.
  destruct (if seen then process f v else Ok (first f v)) as [g|]; cbn; [|done]. rewrite process_all_app.
  destruct (process_all g vs) as [h|]; cbn; [|done]. by destruct ws.
Qed.

(** The values that arrive are accumulated; all else is callbacks. *)
Lemma quiet_steps es A vs f' : aw_state A = BUSY -> Forall quiet es ->
  Forall2 (contributes A) (inner_tuples es) vs -> accumulate (aw_fn A) (aw_seen A) vs = Ok f' ->
  exists w A', inner_steps es A = Ok (Wake <$> w, A') /\ same_setup A A' /\ aw_fn A' = f' /\
    aw_seen A' = aw_seen A || negb (bool_decide (vs = [])).
Proof.
  revert A vs. induction es as [|e es IH]; intros A vs HB HQ HV HA.
  { apply Forall2_nil_inv_l in HV as ->. injection HA as <-. exists [], A. cbn. rewrite orb_false_r. by repeat split. }
  apply Forall_cons in HQ as [Hq HQ]. cbn [inner_steps]. unfold inner_step at 1. rewrite HB.
  assert (Hskip : forall A0 w0, same_setup A A0 -> aw_fn A0 = aw_fn A -> aw_seen A0 = aw_seen A ->
    Forall2 (contributes A) (inner_tuples es) vs ->
    exists w A', (let? (o', A1) := inner_steps es A0 in Ok ((Wake <$> w0) ++ o', A1)) = Ok (Wake <$> w, A') /\
      same_setup A A' /\ aw_fn A' = f' /\ aw_seen A' = aw_seen A || negb (bool_decide (vs = []))).
  { intros A0 w0 HS Hf Hs HV0. destruct (IH A0 vs) as (w & A' & -> & HS' & Hf' & Hs').
    - destruct HS as (_ & _ & _ & _ & -> & _). done.
    - done.
    - eapply Forall2_impl; [exact HV0|]. intros t v. by apply contributes_setup.
    - by rewrite Hf, Hs.
    - exists (w0 ++ w), A'. cbn. rewrite fmap_app, <- Hs. split_and!; try done. by eapply same_setup_trans. }
  destruct e as [t| |j|]; cbn [quiet inner_tuples omap list_omap] in *; [|done| |].
  - apply Forall2_cons_inv_l in HV as (v & vs' & Hv & HV & ->). cbn [accumulate] in HA.
    destruct (if aw_seen A then process (aw_fn A) v else Ok (first (aw_fn A) v)) as [g|] eqn:Eg; [|done]. cbn [rbind] in HA.
    assert (Hacc : agg_accum t A = Ok (with_fn g true A)).
    { unfold agg_accum. unfold contributes in Hv. destruct (aw_starAgg A); cbn.
      - subst v. by rewrite Eg.
      - unfold Tuple_at. rewrite Hv. cbn. by rewrite Eg. }
    rewrite Hacc. cbn [rbind]. destruct (IH (with_fn g true A) vs') as (w & A' & -> & HS' & Hf' & Hs'); try done.
    + cbn. destruct vs'; [by injection HA as ->|]. exact HA.
    + exists w, A'. cbn [rbind app]. cbn in Hs'. rewrite orb_true_r. split_and!; done.
  - rewrite (proj2 (Z.eqb_neq j 0)) by done. cbn [rbind]. by apply (Hskip A []).
  - cbn [rbind]. by apply (Hskip (with_cb None (with_accepting true A)) (option_list (aw_ext_in_cb A))).
Qed.

Lemma inner_steps_app es es' A : inner_steps (es ++ es') A =
  let? (o, A) := inner_steps es A in let? (o', A) := inner_steps es' A in Ok (o ++ o', A).
Proof.
  revert A. induction es as [|e es IH]; intros A; cbn [app inner_steps rbind].
  - by destruct (inner_steps es' A) as [[]|].
  - destruct (inner_step e A) as [[o B]|]; cbn [rbind]; [|done]. rewrite IH.
    destruct (inner_steps es B) as [[o1 B1]|]; cbn [rbind]; [|done].
    destruct (inner_steps es' B1) as [[o2 B2]|]; cbn [rbind]; [|done]. by rewrite app_assoc.
Qed.

(** The group-by loops, in range. *)
Lemma group_by_range outer ev gs n i off : Forall2 (fun k v => fields ev !! Z.to_nat k = Some v) outer gs ->
  0 <= i - off -> i - off + Z.of_nat n <= Z.of_nat (length outer) -> Z.of_nat (length outer) < 2 ^ 32 ->
  group_by_fields n i off outer ev = Ok (take n (drop (Z.to_nat (i - off)) gs)).
Proof.
  intros HG. revert i. induction n as [|n IH]; intros i Hi Hn Hs; [done|]. cbn [group_by_fields].
  rewrite u32_small by (unfold is_u32; lia).
  destruct (lookup_lt_is_Some_2 outer (Z.to_nat (i - off))) as [k Hk]; [lia|]. rewrite Hk. cbn [of_option rbind].
  destruct (Forall2_lookup_l _ _ _ _ _ HG Hk) as (v & Hv & Hf). unfold Tuple_at. rewrite Hf. cbn [of_option rbind].
  rewrite IH by lia. cbn [rbind]. rewrite (drop_S _ _ _ Hv).
  by replace (Z.to_nat (i + 1 - off)) with (S (Z.to_nat (i - off))) by lia.
Qed.

(** The result tuple: the name, and the group-by fields of the event with the
    result of the function in its place. *)
Lemma finalize_correct A ev gs : aw_event A = Some ev ->
  Forall2 (fun k v => fields ev !! Z.to_nat k = Some v) (aw_outerGroupBy A) gs ->
  1 <= aw_aggField A <= Z.of_nat (length gs) + 1 -> Z.of_nat (length gs) < 2 ^ 32 - 2 ->
  let p := Z.to_nat (aw_aggField A - 1) in
  agg_finalize A = Ok (Emit (VStr (aw_resultTupleName A) :: take p gs) (result (aw_fn A)) (drop p gs)
                       :: (Wake <$> option_list (aw_ext_in_cb A)), with_cb None (with_state IDLE None A)).
Proof.
  intros HE HG Hf Hl p. pose proof (Forall2_length _ _ _ HG) as Hlen. unfold agg_finalize. rewrite HE. cbn [of_option rbind].
  rewrite (group_by_range _ _ gs) by (done || lia). cbn [rbind].
  rewrite (u32_small (aw_aggField A + 1)) by (unfold is_u32; lia).
  rewrite (group_by_range _ _ gs) by (done || lia). cbn [rbind]. unfold p.
  replace (Z.to_nat (aw_aggField A + 1 - 2)) with (Z.to_nat (aw_aggField A - 1)) by lia.
  change (Z.to_nat (1 - 1)) with O. rewrite drop_0, (take_ge (drop _ gs)) by (rewrite length_drop; lia). done.
Qed.

Definition fields_at (ev : tuple) (ks : list Z) (gs : list value) : Prop :=
  Forall2 (fun k v => fields ev !! Z.to_nat k = Some v) ks gs.

(** The aggregation of [es] until the end is reported. *)
Lemma busy_run es A ev gs vs f' : aw_state A = BUSY -> aw_event A = Some ev -> fields_at ev (aw_outerGroupBy A) gs ->
  1 <= aw_aggField A <= Z.of_nat (length gs) + 1 -> Z.of_nat (length gs) < 2 ^ 32 - 2 ->
  Forall quiet es -> Forall2 (contributes A) (inner_tuples es) vs -> accumulate (aw_fn A) (aw_seen A) vs = Ok f' ->
  let p := Z.to_nat (aw_aggField A - 1) in
  exists w w' A', inner_steps (es ++ [Complete]) A =
      Ok ((Wake <$> w) ++ Emit (VStr (aw_resultTupleName A) :: take p gs) (result f') (drop p gs) :: (Wake <$> w'), A')
    /\ aw_state A' = IDLE /\ aw_fn A' = f' /\ aw_ext_in_cb A' = None.
Proof.
  intros HB HE HG Hf Hl HQ HV HA p.
  destruct (quiet_steps es A vs f' HB HQ HV HA) as (w & A1 & E1 & (S1 & S2 & S3 & S4 & S5 & S6) & F1 & _).
  assert (E2 : inner_steps [Complete] A1 =
    Ok (Emit (VStr (aw_resultTupleName A1) :: take p gs) (result (aw_fn A1)) (drop p gs)
        :: (Wake <$> option_list (aw_ext_in_cb A1)), with_cb None (with_state IDLE None A1))).
  { cbn [inner_steps]. unfold inner_step. rewrite S5, HB. rewrite (finalize_correct A1 ev gs);
      [|by rewrite S6|by rewrite S3|rewrite S1; done|done]. cbn [rbind]. rewrite app_nil_r. unfold p. by rewrite S1. }
  rewrite inner_steps_app, E1. cbn [rbind]. rewrite E2. cbn [rbind].
  eexists w, _, _. rewrite F1, S4. split; [done|]. by split_and!.
Qed.

(** C28: an aggregation over the results of a strand gives one result per event.
    When an event comes in, whatever part of the strand's results arrives while
    the event is still being pushed ([es1]) and whatever part afterwards
    ([es2]), and however the other callbacks fall in between, the end of the
    first join makes the element send exactly one tuple: the name of the head,
    the group-by fields of the event in the order registered, and in its place
    the aggregate, by the function's definition, of the values of the results;
    then it is idle again. *)
Theorem aggwrap_correct (A : Aggwrap CB) (ev : tuple) (cb : option CB) (gs vs : list value) (es1 es2 : list inner_event) (r : Z) :
  aw_state A <> BUSY -> aw_accepting A = true -> fields_at ev (aw_outerGroupBy A) gs ->
  1 <= aw_aggField A <= Z.of_nat (length gs) + 1 -> Z.of_nat (length gs) < 2 ^ 32 - 2 ->
  Forall quiet (es1 ++ es2) -> Forall2 (contributes A) (inner_tuples (es1 ++ es2)) vs -> Forall plainP vs ->
  let p := Z.to_nat (aw_aggField A - 1) in
  exists out1 A1 out2 A2 f' w w',
    push_outer (fun A => let? (o, A) := inner_steps es1 A in Ok (r, o, A)) ev cb A = Ok (0, out1, A1)
    /\ inner_steps (es2 ++ [Complete]) A1 = Ok (out2, A2)
    /\ out1 ++ out2 = (Wake <$> w) ++ Emit (VStr (aw_resultTupleName A) :: take p gs) (result f') (drop p gs) :: (Wake <$> w')
    /\ agg_spec (aw_fn A) vs f' /\ aw_fn A2 = f' /\ aw_state A2 = IDLE /\ aw_ext_in_cb A2 = None.
Proof.
  intros Hst Hacc HG Hf Hl HQ HV HP p. apply Forall_app in HQ as [HQ1 HQ2].
  unfold inner_tuples in HV. rewrite omap_app in HV. apply Forall2_app_inv_l in HV as (vs1 & vs2 & HV1 & HV2 & ->).
  destruct (run_correct (aw_fn A) (vs1 ++ vs2) HP) as (f' & Hrun & Hspec).
  set (B := agg_init (with_state IDLE (Some ev) (with_cb cb A))).
  assert (Hr : accumulate (aw_fn B) (aw_seen B) (vs1 ++ vs2) = Ok f') by (cbn; unfold run in Hrun; destruct (vs1 ++ vs2); done).
  rewrite accumulate_app in Hr. destruct (accumulate (aw_fn B) (aw_seen B) vs1) as [f1|] eqn:E1; [|done]. cbn [rbind] in Hr.
  destruct (quiet_steps es1 B vs1 f1) as (w1 & A1 & H1 & (S1 & S2 & S3 & S4 & S5 & S6) & F1 & F2); [done|done|exact HV1|done|].
  destruct (busy_run es2 (with_accepting (negb (r =? 0)) A1) ev gs vs2 f') as (w2 & w' & A2 & H2 & H3 & H4 & H5).
  - exact S5.
  - exact S6.
  - cbn. by rewrite S3.
  - cbn. rewrite S1. exact Hf.
  - done.
  - done.
  - eapply Forall2_impl; [exact HV2|]. intros t v. unfold contributes. cbn. rewrite S1, S2. done.
  - cbn. by rewrite F1, F2.
  - eexists (Wake <$> w1), (with_accepting (negb (r =? 0)) A1), _, A2, f', (w1 ++ w2), w'. split_and!; try done.
    + unfold push_outer. change (aw_state (with_cb cb A)) with (aw_state A). destruct (aw_state A); [| |done];
        cbn [with_cb aw_accepting]; rewrite Hacc; cbn [check rbind]; fold B; by rewrite H1.
    + cbn. rewrite S1, S4, fmap_app, <- app_assoc. done.
Qed.

(** ** What does not go as meant *)

(** The strand refuses more for now and reports the end before it takes more
    again: the report that it does is ignored, and the next event runs into an
    assertion. *)
Theorem aggwrap_stuck (A : Aggwrap CB) (ev ev' : tuple) (cb cb' : option CB) (gs : list value)
    (inner : Aggwrap CB -> res (Z * list (awout CB) * Aggwrap CB)) :
  aw_state A <> BUSY -> aw_accepting A = true -> fields_at ev (aw_outerGroupBy A) gs ->
  1 <= aw_aggField A <= Z.of_nat (length gs) + 1 -> Z.of_nat (length gs) < 2 ^ 32 - 2 ->
  exists A1 out A2, push_outer (fun A => Ok (0, [], A)) ev cb A = Ok (0, [], A1)
    /\ inner_steps [Complete; InnerReady] A1 = Ok (out, A2) /\ push_outer inner ev' cb' A2 = Fail AssertFailed.
Proof.
  intros Hst Hacc HG Hf Hl. set (B := agg_init (with_state IDLE (Some ev) (with_cb cb A))).
  exists (with_accepting false B).
  pose proof (finalize_correct (with_accepting false B) ev gs eq_refl HG Hf Hl) as HF. cbn [inner_steps].
  unfold inner_step at 1. change (aw_state (with_accepting false B)) with BUSY. cbn iota. rewrite HF. cbn [rbind].
  eexists _, _. split; [|split; [reflexivity|reflexivity]].
  unfold push_outer. change (aw_state (with_cb cb A)) with (aw_state A). destruct (aw_state A); [| |done];
    cbn [with_cb aw_accepting]; rewrite Hacc; done.
Qed.

(** An event that arrives during an aggregation is dropped, and its sender's
    callback replaces the one that waited. *)
Lemma aggwrap_overrun (A : Aggwrap CB) inner t cb : aw_state A = BUSY ->
  push_outer inner t cb A = Ok (0, [], with_cb cb A).
Proof. intros H. unfold push_outer. cbn. by rewrite H. Qed.

(** The set MKSET has sent keeps being the function's own: the next event
    empties it. *)
Lemma mkset_result_emptied (A : Aggwrap CB) pre post s : aw_fn A = AggMkSet s ->
  emitted_fields (CB := CB) (aw_fn A) (Emit pre (result (aw_fn A)) post) = Some (pre ++ VSet s :: post) /\
  emitted_fields (CB := CB) (aw_fn (agg_init A)) (Emit pre (result (aw_fn A)) post) = Some (pre ++ VSet [] :: post).
Proof. intros H. cbn. by rewrite H. Qed.
End correct.

(** The field numbers registered for the strand's tuples start at 2 instead of
    1, and two of them coincide from the aggregate's position on: here the
    group-by fields are 1, 2 and 4. *)
Lemma inner_groupby_misnumbered {CB} (f : AggFunc) :
  let A := mkAggwrap (CB := CB) 3 false 0 [] [] "out"%string f CONFIG true None None false in
  aw_innerGroupBy (registerGroupbyField 4 (registerGroupbyField 2 (registerGroupbyField 3 A))) = [2; 4; 4].
Proof. reflexivity. Qed.

(** ** Witnesses: a maximum over the results for an event ev(X) *)

Definition an_event : tuple := mkTuple [VStr "ev"; VStr "n1"] true 1.
Definition an_inner (n : Z) : tuple := mkTuple [VStr "max"; VStr "n1"; VInt64 n] true n.
Definition max_wrap : Aggwrap nat :=
  mkAggwrap 2 false 1 [1] [3] "max"%string (AggMax None) CONFIG true None None false.

Lemma aggwrap_correct_witness : exists out1 A1 out2 A2 f' w w',
  push_outer (fun A => let? (o, A) := inner_steps [Inner (an_inner 4)] A in Ok (0, o, A)) an_event (Some 7%nat) max_wrap
    = Ok (0, out1, A1)
  /\ inner_steps ([InnerReady; Inner (an_inner 9)] ++ [Complete]) A1 = Ok (out2, A2)
  /\ out1 ++ out2 = (Wake <$> w) ++ Emit [VStr "max"; VStr "n1"] (result f') [] :: (Wake <$> w')
  /\ agg_spec (AggMax None) [VInt64 4; VInt64 9] f'.
Proof.
  destruct (aggwrap_correct max_wrap an_event (Some 7%nat) [VStr "n1"] [VInt64 4; VInt64 9] [Inner (an_inner 4)]
    [InnerReady; Inner (an_inner 9)] 0) as (out1 & A1 & out2 & A2 & f' & w & w' & H1 & H2 & H3 & H4 & _).
  - discriminate.
  - reflexivity.
  - repeat constructor.
  - vm_compute. split; discriminate.
  - vm_compute. reflexivity.
  - repeat constructor.
  - repeat constructor.
  - vm_decide.
  - exists out1, A1, out2, A2, f', w, w'. split; [exact H1|]. split; [exact H2|]. split; [exact H3|exact H4].
Defined.

Lemma aggwrap_stuck_witness : exists A1 out A2,
  push_outer (fun A => Ok (0, [], A)) an_event (Some 7%nat) max_wrap = Ok (0, [], A1)
  /\ inner_steps [Complete; InnerReady] A1 = Ok (out, A2)
  /\ push_outer (fun A => Ok (1, [], A)) an_event None A2 = Fail AssertFailed.
Proof.
  apply (aggwrap_stuck max_wrap an_event an_event (Some 7%nat) None [VStr "n1"] (fun A => Ok (1, [], A))).
  - discriminate.
  - reflexivity.
  - repeat constructor.
  - vm_compute. split; discriminate.
  - vm_compute. reflexivity.
Defined.
