(* ===== verification/Transforms.v ===== *)
(** * Elements that rewrite tuples (src/elements)

    [PelTransform], which runs a PEL program on each tuple, the elements that
    marshal and unmarshal tuples and fields, and the small ones between: each is
    the [simple_action] of an element.  A result is given by its fields; its
    identity is fresh.

    A field that holds an opaque shares its buffer with every copy of the tuple:
    unmarshalling reads the bytes out of it.  The operations that do so answer
    the fields the old tuple is left with as well. *)

From Stdlib Require Import String Ascii.
From S2P Require Import Prelude Ids Stl Values Tuples Aggs Fdbuf Xdr Casts Oper Names Pel PelLexer Elements.

Local Open Scope p2_scope.

(** ** [PelTransform] *)

Section pel.
Context `{P : Platform} `{X : Externals} (nodeid : value).

(** [PelTransform::PelTransform] *)
Definition PelTransform_mk (pelCode : string) : res Pel_Program := compile pelCode.

(** [PelTransform::simple_action], with the element's machine. *)
Definition PelTransform_simple_action (prg : Pel_Program) (p : list value) (m : vm) : res (option (list value) * vm) :=
  match execute nodeid prg p (vm_reset m) with
  | (Fail f, _) => Fail f
  | (Ok PE_SUCCESS, m') => Ok (result_tuple m', m')
  | (Ok _, m') => Ok (None, m')
  end.
End pel.

(** ** [UnboxField], [TupleCounter], [StaticTupleSource], [Hexdump] *)

(** [UnboxField::simple_action]; a field beyond the end throws. *)
Definition UnboxField_simple_action (fieldNo : nat) (p : list value) : res (option (list value)) :=
  let? v := of_option OutOfRange (p !! fieldNo) in
  match v with VTuple t => Ok (Some t) | _ => Ok None end.

(** [TupleCounter::simple_action]: the counter, which no constructor sets, and
    what it lets through. *)
Definition TupleCounter_simple_action `{P : Platform} (type : string) (p : list value) (counter : Z)
    : res (list value * Z) :=
  if (type =? "")%string then Ok (p, u32 (counter + 1))
  else
    let? n := of_option OutOfRange (p !! O) in
    Ok (p, if (toString n =? type)%string then u32 (counter + 1) else counter).

(** [TupleSource::pull] with [StaticTupleSource::generate]. *)
Definition StaticTupleSource_pull (t : tuple) : option tuple := Some t.

(** One byte of the dump: [sprintf(b, "%02x", buf[i])] into four characters;
    [buf[i]] is a signed [char], so a byte from 128 on prints as eight digits. *)
Definition hex_byte (b : Z) : res string :=
  if b <? 128 then Ok (hex_digits 2 b "") else Fail UndefinedBehaviour.

Fixpoint hex_bytes (bs : list Z) : res string :=
  match bs with
  | [] => Ok ""%string
  | b :: bs' => let? s := hex_byte b in let? rest := hex_bytes bs' in Ok (s +:+ rest)
  end.

(** [Hexdump::simple_action] *)
Definition Hexdump_simple_action (fieldNo : nat) (p : list value) : res (option (list value)) :=
  let? v := of_option OutOfRange (p !! fieldNo) in
  match v with
  | VOpaque bs => let? s := hex_bytes bs in Ok (Some (take fieldNo p ++ VStr s :: drop (S fieldNo) p))
  | _ => Ok None
  end.

(** ** Marshalling *)

(** [new Fdbuf()], and the buffer of an opaque that holds [bs] from its start
    on. *)
Definition new_buffer : Fdbuf := Fdbuf_mk BUF_DFLT_CAP false.
Definition opaque_buffer (bs : list Z) : res Fdbuf := push_bytes bs new_buffer.

(** [Marshal::simple_action] *)
Definition Marshal_simple_action (p : tuple) : res (list value) :=
  let? fb := Tuple_xdr_marshal p new_buffer in Ok [VOpaque (view fb)].

(** [Unmarshal::simple_action]: the tuple, which is not frozen, and the fields
    the input is left with. *)
Definition Unmarshal_simple_action (id : Z) (p : list value) : res (option tuple * list value) :=
  match p with
  | [] => Ok (None, [])
  | v :: rest =>
      let? bs := Val_Opaque_cast v in
      let? fb := opaque_buffer bs in
      let? (t, fb) := Tuple_xdr_unmarshal (length (view fb)) id fb in
      Ok (Some t, match v with VOpaque _ => VOpaque (view fb) | _ => v end :: rest)
  end.

(** The loop of [MarshalField::simple_action] from field [i] on: [None] when a
    numbered field can not be marshalled, and the tuple is passed on as it
    is. *)
Fixpoint marshal_fields (fieldNos : list nat) (i : nat) (vs : list value) : res (option (list value)) :=
  match vs with
  | [] => Ok (Some [])
  | v :: vs' =>
      let keep (v : value) := let? r := marshal_fields fieldNos (S i) vs' in Ok (cons v <$> r) in
      if bool_decide (i ∈ fieldNos) then
        match v with
        | VOpaque _ => keep v
        | VTuple _ => let? fb := xdr_marshal v new_buffer in keep (VOpaque (view fb))
        | _ => Ok None
        end
      else keep v
  end.
Definition MarshalField_simple_action (fieldNos : list nat) (p : list value) : res (list value) :=
  let? r := marshal_fields fieldNos 0 p in Ok (default p r).

(** The loop of [UnmarshalField::simple_action]; next to the new fields, the
    old ones as they are left. *)
Fixpoint unmarshal_fields (fieldNos : list nat) (i : nat) (vs : list value) : res (option (list value) * list value) :=
  match vs with
  | [] => Ok (Some [], [])
  | v :: vs' =>
      let keep (v old : value) :=
        let? (r, olds) := unmarshal_fields fieldNos (S i) vs' in Ok (cons v <$> r, old :: olds) in
      if bool_decide (i ∈ fieldNos) then
        match v with
        | VOpaque bs =>
            let? fb := opaque_buffer bs in
            let? (u, fb) := xdr_unmarshal (length bs + 2) fb in
            keep u (VOpaque (view fb))
        | _ => Ok (None, v :: vs')
        end
      else keep v v
  end.
Definition UnmarshalField_simple_action (fieldNos : list nat) (p : list value) : res (list value * list value) :=
  let? (r, olds) := unmarshal_fields fieldNos 0 p in Ok (default olds r, olds).

(** ** What is marshalled is unmarshalled *)

Lemma buffer_of bs : exists fb, opaque_buffer bs = Ok fb /\ view fb = bs /\ fd_src 0 fb.
Proof.
  destruct (mk_dst BUF_DFLT_CAP) as [Hd Hv]. destruct (fd_putbytes_ok 0 bs new_buffer Hd) as (fb & E & (Hok & Hs & _) & V).
  exists fb. split; [exact E|]. unfold new_buffer in V. rewrite Hv in V. split; [exact V|]. split; [done|]. by rewrite Hs.
Qed.

Lemma opaque_reads v : xdr_ok v = true -> exists fb fb',
  opaque_buffer (enc v) = Ok fb /\ xdr_unmarshal (length (enc v) + 2) fb = Ok (v, fb') /\ view fb' = [].
Proof.
  intros Hok. destruct (buffer_of (enc v)) as (fb & E & V & Hs).
  destruct (xdr_unmarshal_ok v Hok (length (enc v) + 2)%nat (le_n _) fb []) as (fb' & E' & _ & V').
  - exact Hs.
  - cbn. rewrite V. by apply enc_bytes.
  - cbn. by rewrite V, app_nil_r.
  - by exists fb, fb'.
Qed.

Lemma marshalled v : exists fb, xdr_marshal v new_buffer = Ok fb /\ view fb = enc v.
Proof.
  destruct (mk_dst BUF_DFLT_CAP) as [Hd Hv]. destruct (xdr_marshal_ok (XS := XdrStream_Fdbuf) v new_buffer Hd) as (fb & E & _ & V).
  exists fb. split; [done|]. change (view fb = view new_buffer ++ enc v) in V. unfold new_buffer in V. by rewrite Hv in V.
Qed.

(** The fields that can be marshalled and come back: tuples of values that can
    be sent. *)
Definition boxed (fieldNos : list nat) (i : nat) (vs : list value) : Prop :=
  forall k v, (k + i)%nat ∈ fieldNos -> vs !! k = Some v -> xdr_ok v = true /\ exists t, v = VTuple t.

(** What is left of a marshalled tuple when its opaque fields have been read. *)
Fixpoint emptied (fieldNos : list nat) (i : nat) (vs : list value) : list value :=
  match vs with
  | [] => []
  | v :: vs' => (if bool_decide (i ∈ fieldNos) then VOpaque [] else v) :: emptied fieldNos (S i) vs'
  end.

Lemma boxed_tail fieldNos i v vs : boxed fieldNos i (v :: vs) -> boxed fieldNos (S i) vs.
Proof. intros H k u Hk Hu. apply (H (S k) u); [|done]. by replace (S k + i)%nat with (k + S i)%nat by lia. Qed.

Lemma fields_roundtrip fieldNos vs : forall i, boxed fieldNos i vs -> exists ws,
  marshal_fields fieldNos i vs = Ok (Some ws) /\
  unmarshal_fields fieldNos i ws = Ok (Some vs, emptied fieldNos i vs).
Proof.
  induction vs as [|v vs IH]; intros i HB; [by exists []|].
  destruct (IH (S i) (boxed_tail _ _ _ _ HB)) as (ws & Em & Eu). cbn [marshal_fields emptied].
  destruct (bool_decide_reflect (i ∈ fieldNos)) as [Hi|Hi].
  - destruct (HB O v Hi eq_refl) as (Hok & t & ->). destruct (marshalled (VTuple t)) as (fb & E & V).
    rewrite E. cbn [rbind]. rewrite Em. cbn [rbind fmap option_fmap option_map].
    eexists. split; [done|]. cbn [unmarshal_fields]. rewrite bool_decide_true by done. rewrite V.
    destruct (opaque_reads _ Hok) as (fb1 & fb2 & -> & E2 & V2). cbn [rbind]. rewrite E2. cbn [rbind]. rewrite V2, Eu. done.
  - rewrite Em. cbn [rbind fmap option_fmap option_map]. eexists. split; [done|]. cbn [unmarshal_fields].
    rewrite bool_decide_false by done. by rewrite Eu.
Qed.

(** [UnmarshalField] undoes [MarshalField]: on a tuple whose numbered fields
    are tuples that can be sent, marshalling those fields and unmarshalling them
    gives the tuple back; of the tuple in between, the numbered fields are left
    empty, so that whoever else holds it can not unmarshal it any more. *)
Theorem marshal_field_roundtrip (fieldNos : list nat) (p : list value) : boxed fieldNos 0 p ->
  exists q, MarshalField_simple_action fieldNos p = Ok q /\
    UnmarshalField_simple_action fieldNos q = Ok (p, emptied fieldNos 0 p) /\
    ((exists k, k ∈ fieldNos /\ (k < length p)%nat) ->
     UnmarshalField_simple_action fieldNos (emptied fieldNos 0 p) = Fail UndefinedBehaviour).
Proof.
  intros HB. destruct (fields_roundtrip fieldNos p 0 HB) as (ws & Em & Eu). exists ws.
  unfold MarshalField_simple_action, UnmarshalField_simple_action. rewrite Em, Eu. split_and!; [done|done|].
  intros (k & Hk & Hlt). assert (H : forall i, (k + i)%nat ∈ fieldNos ->
    unmarshal_fields fieldNos i (emptied fieldNos i p) = Fail UndefinedBehaviour).
  { clear HB Em Eu Hk. revert k Hlt. induction p as [|v p IH]; intros k Hlt i Hk; cbn [length] in Hlt; [lia|].
    cbn [emptied unmarshal_fields]. destruct (bool_decide_reflect (i ∈ fieldNos)) as [Hi|Hi]; [done|].
    destruct k as [|k]; [done|]. rewrite (IH k) by (lia || by replace (k + S i)%nat with (S k + i)%nat by lia). done. }
  rewrite (H O) by (by rewrite Nat.add_0_r). done.
Qed.

(** [Unmarshal] undoes [Marshal], but for the mark that the tuple is complete:
    what has been received can not be marshalled again as it is. *)
Lemma marshal_roundtrip (p : tuple) (id : Z) : sendable p = true ->
  exists q, Marshal_simple_action p = Ok q /\ Unmarshal_simple_action id q = Ok (Some (mkTuple (fields p) false id), [VOpaque []])
    /\ Marshal_simple_action (mkTuple (fields p) false id) = Fail AssertFailed.
Proof.
  intros Hs. assert (Hf : frozen p = true) by (unfold sendable in Hs; by destruct (frozen p)).
  destruct (mk_dst BUF_DFLT_CAP) as [Hd Hv]. destruct (tuple_puts (XS := XdrStream_Fdbuf) p Hf new_buffer Hd) as (fb & E & _ & V).
  change (view fb = view new_buffer ++ enc_tuple p) in V. unfold new_buffer in V. rewrite Hv in V. cbn [app] in V.
  exists [VOpaque (view fb)]. unfold Marshal_simple_action, Unmarshal_simple_action. rewrite E. split; [done|]. split; [|done].
  cbn [Val_Opaque_cast rbind]. destruct (buffer_of (view fb)) as (fb1 & -> & V1 & Hs1). cbn [rbind]. rewrite V1, V.
  destruct (tuple_gets (XS := XdrStream_Fdbuf) p id (length (enc_tuple p)) Hs (le_n _) fb1 []) as (fb2 & -> & _ & V2).
  - exact Hs1.
  - cbn. rewrite V1, V. by apply enc_tuple_bytes.
  - cbn. by rewrite V1, V, app_nil_r.
  - cbn [rbind]. cbn in V2. by rewrite V2.
Qed.

(** A byte from 128 on overruns the four characters [Hexdump] prints it into. *)
Lemma hexdump_overruns fieldNo p pre b post : p !! fieldNo = Some (VOpaque (pre ++ b :: post)) ->
  Forall (fun c => c < 128) pre -> 128 <= b -> Hexdump_simple_action fieldNo p = Fail UndefinedBehaviour.
Proof.
  intros Hp Hpre Hb. unfold Hexdump_simple_action. rewrite Hp. cbn [of_option rbind].
  assert (H : hex_bytes (pre ++ b :: post) = Fail UndefinedBehaviour).
  { clear Hp. induction Hpre as [|c pre Hc _ IH]; cbn [app hex_bytes]; unfold hex_byte.
    - destruct (Z.ltb_spec b 128); [lia|done].
    - destruct (Z.ltb_spec c 128); [|lia]. cbn [rbind]. by rewrite IH. }
  by rewrite H.
Qed.

Lemma marshal_field_roundtrip_witness : exists q,
  MarshalField_simple_action [1%nat] [VStr "msg"; VTuple [VInt64 5; VStr "x"]] = Ok q /\
  UnmarshalField_simple_action [1%nat] q = Ok ([VStr "msg"; VTuple [VInt64 5; VStr "x"]], [VStr "msg"; VOpaque []]).
Proof.
  destruct (marshal_field_roundtrip [1%nat] [VStr "msg"; VTuple [VInt64 5; VStr "x"]]) as (q & H1 & H2 & _).
  - intros k v Hk Hv. apply list_elem_of_singleton in Hk. rewrite Nat.add_0_r in Hk. subst k. injection Hv as <-.
    split; [reflexivity|]. eexists. reflexivity.
  - exists q. split; [exact H1|exact H2].
Defined.
