(* ===== verification/Overlog.v ===== *)
(** * Overlog programs (src/overlog/parser_util, ol_context, src/planner/tableStore, planContext)

    The expressions and terms of Overlog, their text, the operations on the
    predicates of a rule, what [OL_Context] does with each statement of a
    program, the catalog of tables the planner works with and its tracker of
    field names.

    A null operand is [None]; following it is undefined behaviour.  Functors are
    kept by value: after the parser has built a rule nothing changes them.  The
    member [position_] of expressions and terms is written and never read, and is
    left out.  [seconds(n)] is a duration of nanoseconds. *)

From Stdlib Require Import SpecFloat Ascii String.
From S2P Require Import Prelude Ids Stl Values Tuples Aggs Keys CommonTable RefTable Table2 Xdr Casts Oper.

Local Open Scope p2_scope.

(** ** Expressions *)

(** [Parse_Bool::Operator], [Parse_Math::Operator], [Parse_Range::Interval] *)
Module OLBool.
Inductive Operator := NOT | AND | OR | EQ | NEQ | GT | LT | LTE | GTE | RANGE | NOP.
End OLBool.
Module OLMath.
Inductive Operator :=
  | LSHIFT | RSHIFT | PLUS | MINUS | TIMES | DIVIDE | MODULUS
  | BIT_XOR | BIT_AND | APPEND | BIT_OR | BIT_NOT | NOP.
End OLMath.
Module OLRange.
Inductive Interval := RANGEOO | RANGEOC | RANGECO | RANGECC.
End OLRange.

(** The classes derived from [Parse_Expr]; the name a variable, an aggregate, a
    function or an indexed variable keeps in [v] is a string. *)
Inductive Parse_Expr :=
  | Parse_Val (v : value)
  | Parse_Var (v : string) (locspec : bool)
  | Parse_Agg (v : string) (oper : string) (locspec : bool)
  | Parse_Bool (oper : OLBool.Operator) (lhs : Parse_Expr) (rhs : option Parse_Expr)
  | Parse_Range (type : OLRange.Interval) (lhs rhs : Parse_Expr)
  | Parse_Math (oper : OLMath.Operator) (lhs : Parse_Expr) (rhs : option Parse_Expr)
  | Parse_Function (v : string) (args : list Parse_Expr)
  | Parse_Vector (offsets : list Parse_Expr)
  | Parse_VecAtom (v : string) (offset : Parse_Expr)
  | Parse_Matrix (rows : list (list Parse_Expr))
  | Parse_MatAtom (v : string) (offset1 offset2 : Parse_Expr).

Section overlog.
Context `{P : Platform}.

(** [Parse_Var::toLocString] *)
Definition toLocString (v : string) (locspec : bool) : string :=
  if locspec then "@" +:+ v else v.

Definition bool_text (o : OLBool.Operator) : res string :=
  match o with
  | OLBool.AND => Ok " && " | OLBool.OR => Ok " || " | OLBool.EQ => Ok " == " | OLBool.NEQ => Ok " != "
  | OLBool.GT => Ok " > " | OLBool.LT => Ok " < " | OLBool.LTE => Ok " <= " | OLBool.GTE => Ok " >= "
  | _ => Fail AssertFailed
  end.
Definition math_text (o : OLMath.Operator) : res string :=
  match o with
  | OLMath.LSHIFT => Ok "<<" | OLMath.RSHIFT => Ok ">>" | OLMath.PLUS => Ok "+" | OLMath.MINUS => Ok "-"
  | OLMath.TIMES => Ok "*" | OLMath.DIVIDE => Ok "/" | OLMath.MODULUS => Ok "%" | OLMath.BIT_AND => Ok "&"
  | OLMath.BIT_OR => Ok "|" | OLMath.BIT_XOR => Ok "^" | OLMath.BIT_NOT => Ok "~" | OLMath.APPEND => Ok "|||"
  | OLMath.NOP => Fail AssertFailed
  end.

(** The texts of a list, separated by ", ". *)
Fixpoint joined {A} (f : A -> res string) (l : list A) : res string :=
  match l with
  | [] => Ok ""
  | [x] => f x
  | x :: l' => let? s := f x in let? rest := joined f l' in Ok (s +:+ ", " +:+ rest)
  end.

Definition is_bool (e : Parse_Expr) : bool := match e with Parse_Bool _ _ _ => true | _ => false end.
Definition is_math (e : Parse_Expr) : bool := match e with Parse_Math _ _ _ => true | _ => false end.
Definition paren (b : bool) (s : string) : string := if b then "(" +:+ s +:+ ")" else s.

(** [toString] of every class.  [Parse_Bool::toString] and
    [Parse_Math::toString] follow their second operand, and
    [Parse_Matrix::toString] takes the length of every row from the first. *)
Fixpoint Parse_toString (e : Parse_Expr) : res string :=
  match e with
  | Parse_Val v => Ok (toString v)
  | Parse_Var v _ => Ok v
  | Parse_Agg v oper _ => Ok (oper +:+ "< " +:+ v +:+ " >")
  | Parse_Bool o l r =>
      let? sl := Parse_toString l in
      match o, r with
      | OLBool.NOT, _ => Ok ("!(" +:+ sl +:+ ")")
      | OLBool.RANGE, Some r => let? sr := Parse_toString r in Ok (sl +:+ " in " +:+ sr)
      | OLBool.RANGE, None => Fail UndefinedBehaviour
      | _, _ =>
          let? so := bool_text o in
          match r with
          | Some r => let? sr := Parse_toString r in Ok (paren (is_bool l) sl +:+ so +:+ paren (is_bool r) sr)
          | None => Fail UndefinedBehaviour
          end
      end
  | Parse_Range t l r =>
      let? sl := Parse_toString l in
      let? sr := Parse_toString r in
      Ok (match t with OLRange.RANGEOO | OLRange.RANGEOC => "(" | _ => "[" end +:+ sl +:+ ", " +:+ sr +:+
          match t with OLRange.RANGEOO | OLRange.RANGECO => ")" | _ => "]" end)
  | Parse_Math o l r =>
      let? sl := Parse_toString l in
      let? so := math_text o in
      match r with
      | Some r =>
          let? sr := Parse_toString r in
          Ok (paren (is_math l) sl +:+ so +:+ " " +:+ paren (is_math r) sr)
      | None => Fail UndefinedBehaviour
      end
  | Parse_Function v args => let? s := joined Parse_toString args in Ok (v +:+ "(" +:+ s +:+ ")")
  | Parse_Vector offsets => let? s := joined Parse_toString offsets in Ok ("[" +:+ s +:+ "]")
  | Parse_VecAtom v o => let? s := Parse_toString o in Ok (v +:+ "[" +:+ s +:+ "]")
  | Parse_Matrix rows =>
      match rows with
      | [] => Fail OutOfRange
      | row0 :: _ =>
          let columns := length row0 in
          let? s := joined (fun row =>
            if (length row <? columns)%nat then Fail OutOfRange
            else let? s := joined id (take columns (Parse_toString <$> row)) in Ok ("[" +:+ s +:+ "]")) rows in
          Ok ("{" +:+ s +:+ "}")
      end
  | Parse_MatAtom v o1 _ => let? s := Parse_toString o1 in Ok (v +:+ "[" +:+ ", " +:+ s +:+ "]")
  end.

(** [Parse_Math::value]: constant folding; [None] is the null pointer. *)
Definition math_fold (o : OLMath.Operator) (l r : value) : res (option value) :=
  let some (x : res value) := let? v := x in Ok (Some v) in
  match o with
  | OLMath.LSHIFT => some (op_lshift l r)
  | OLMath.RSHIFT => some (op_rshift l r)
  | OLMath.PLUS => some (op_plus l r)
  | OLMath.MINUS => some (op_minus l r)
  | OLMath.TIMES => some (op_times l r)
  | OLMath.DIVIDE => some (op_divide l r)
  | OLMath.MODULUS => some (op_mod l r)
  | _ => Fail AssertFailed
  end.

Fixpoint Parse_value (e : Parse_Expr) : res (option value) :=
  match e with
  | Parse_Val v => Ok (Some v)
  | Parse_Math o l r =>
      match l with
      | Parse_Val _ | Parse_Math _ _ _ =>
          let? x := Parse_value l in
          match r with
          | Some (Parse_Val _ as r) | Some (Parse_Math _ _ _ as r) =>
              let? y := Parse_value r in
              match x, y with Some x, Some y => math_fold o x y | _, _ => Ok None end
          | _ => Ok None
          end
      | _ => Ok None
      end
  | _ => Ok None
  end.

(** ** Terms *)

(** [Parse_Functor]; [fn] is the name, [loc_] the location once it is known. *)
Record Parse_Functor := mkFunctor { fn : string; args_ : list Parse_Expr; loc_ : string }.

Inductive Parse_Term :=
  | TFunctor (f : Parse_Functor)
  | TAssign (var : string) (assign : Parse_Expr)
  | TSelect (select : Parse_Expr)
  | TAggTerm (oper : string) (groupByFields aggFields : list Parse_Expr) (baseTerm : Parse_Functor).

(** The name of the location an argument specifies. *)
Definition arg_loc (e : Parse_Expr) : option string :=
  match e with
  | Parse_Var v true => Some (toLocString v true)
  | Parse_Agg v _ true => Some ("@" +:+ v)
  | _ => None
  end.

(** The loop of [getlocspec]: the only location among the arguments, and the
    empty string when there are several. *)
Definition find_locspec (args : list Parse_Expr) : string :=
  match omap arg_loc args with
  | [l] => l
  | _ => ""
  end.

(** [Parse_Functor::getlocspec]: the member when it is filled in. *)
Definition getlocspec (f : Parse_Functor) : string :=
  if (loc_ f =? "")%string then find_locspec (args_ f) else loc_ f.

(** [Parse_Functor::Parse_Functor]; [l] is the explicit location. *)
Definition Parse_Functor_mk (f : string) (a : list Parse_Expr) (l : option string) : Parse_Functor :=
  match l with
  | Some l => mkFunctor f a l
  | None => mkFunctor f a (find_locspec a)
  end.

(** An argument of a predicate as [Parse_Functor::toString] prints it. *)
Definition arg_text (e : Parse_Expr) : res string :=
  match e with
  | Parse_Var v l => Ok (toLocString v l)
  | _ => Parse_toString e
  end.

(** [Parse_Functor::toString]: without arguments the parenthesis stays open. *)
Definition Functor_toString (f : Parse_Functor) : res string :=
  let? s := joined arg_text (args_ f) in
  Ok (fn f +:+ "(" +:+ s +:+ match args_ f with [] => "" | _ => ")" end).

Definition AggTerm_toString (oper : string) (groupBy aggs : list Parse_Expr) (base : Parse_Functor)
    : res string :=
  let? g := joined Parse_toString groupBy in
  let? a := joined Parse_toString aggs in
  let? b := Functor_toString base in
  Ok (oper +:+ "( " +:+ "(" +:+ g +:+ ")" +:+ ", " +:+ "(" +:+ a +:+ ")" +:+ ", " +:+ b +:+ " )").

Definition Term_toString (t : Parse_Term) : res string :=
  match t with
  | TFunctor f => Functor_toString f
  | TAssign x e => let? s := Parse_toString e in Ok (x +:+ " := " +:+ s)
  | TSelect e => Parse_toString e
  | TAggTerm o g a b => AggTerm_toString o g a b
  end.

(** [Parse_Functor::find]: the position of the first argument with the given
    text, [None] for -1. *)
Fixpoint find_arg (args : list Parse_Expr) (argname : string) : res (option nat) :=
  match args with
  | [] => Ok None
  | e :: args' =>
      let? s := Parse_toString e in
      if (s =? argname)%string then Ok (Some O)
      else let? r := find_arg args' argname in Ok (S <$> r)
  end.

(** [Parse_Functor::aggregate] *)
Fixpoint aggregate_pos (args : list Parse_Expr) : option nat :=
  match args with
  | [] => None
  | Parse_Agg _ _ _ :: _ => Some O
  | _ :: args' => S <$> aggregate_pos args'
  end.
Definition Functor_aggregate (f : Parse_Functor) : option nat := aggregate_pos (args_ f).

(** [Parse_Functor::replace], for a position in range. *)
Definition Functor_replace (p : nat) (e : Parse_Expr) (f : Parse_Functor) : Parse_Functor :=
  mkFunctor (fn f) (<[p := e]> (args_ f)) (loc_ f).

(** [fieldNameEq]: names are compared without the marker of a location. *)
Definition is_at (s : string) : bool := match s with String "@" _ => true | _ => false end.
Definition tail_of (s : string) : string := match s with String _ s' => s' | EmptyString => "" end.

Definition fieldNameEq (n1 n2 : string) : bool :=
  if Bool.eqb (is_at n1) (is_at n2) then (n1 =? n2)%string
  else if is_at n1 then (tail_of n1 =? n2)%string
  else (tail_of n2 =? n1)%string.

(** ** Rules and tables *)

(** [OL_Context::Rule], [OL_Context::TableInfo]; the serial number [ruleNum] of a
    rule is never read. *)
Record Rule := mkRule {
  ruleID : string;
  head : Parse_Functor;
  deleteFlag : bool;
  terms : list Parse_Term
}.

(** [OL_Context::Rule::toString]; a rule without terms dereferences the end of
    its list. *)
Definition Rule_toString (r : Rule) : res string :=
  let? h := Functor_toString (head r) in
  let? b := match terms r with [] => Fail UndefinedBehaviour | ts => joined Term_toString ts end in
  Ok (ruleID r +:+ " " +:+ h +:+ " :- " +:+ b +:+ ".").

Record TableInfo := mkTableInfo {
  tableName : string;
  timeout : Table2.lifetime;
  ti_size : Z;
  primaryKeys : list Z
}.

(** [CommonTable::NO_EXPIRATION], [CommonTable::NO_SIZE] *)
Definition NO_EXPIRATION : Table2.lifetime := Table2.PosInfin.
Definition NO_SIZE : Z := 0.

#[export] Instance lifetime_eq_dec : EqDecision Table2.lifetime.
Proof. solve_decision. Defined.

(** ** [OL_Context] *)

(** The state of the parser; of an error the message is kept, not the line. *)
Record OL_Context := mkContext {
  tables : gmap string TableInfo;
  rules : list Rule;
  watchTables : list (string * string);
  facts : list (list value);
  tuplesToTrace : gset string;
  tablesToTrace : gset string;
  mStages : gmap string (string * string * string);
  errors : list string
}.

Definition OL_Context_mk : OL_Context := mkContext ∅ [] [] [] ∅ ∅ ∅ [].

Definition with_rule (r : Rule) (msgs : list string) (c : OL_Context) : OL_Context :=
  mkContext (tables c) (rules c ++ [r]) (watchTables c) (facts c) (tuplesToTrace c) (tablesToTrace c)
    (mStages c) (errors c ++ msgs).

(** [OL_Context::rule], the head: literals and variables that occur before are
    replaced by fresh variables "$1", "$2", ..., each bound by an assignment.
    [i] is the position, [n] the counter [fict_varnum]. *)
Definition fict_var_name (n : Z) : string := "$" +:+ dec_string n.

Definition canon_arg (i : nat) (n : Z) (h : Parse_Functor) : res (Parse_Functor * list Parse_Term * Z * list string) :=
  let? a := of_option OutOfRange (args_ h !! i) in
  match a with
  | Parse_Agg _ _ _ => Ok (h, [], n, [])
  | Parse_Var v _ =>
      let? loc := find_arg (args_ h) v in
      match loc with
      | Some l =>
          if (l <? i)%nat then
            let h := Functor_replace i (Parse_Var (fict_var_name n) false) h in
            let? e := of_option OutOfRange (args_ h !! l) in
            Ok (h, [TAssign (fict_var_name n) e], n + 1, [])
          else Ok (h, [], n, [])
      | None =>
          (* find answers -1, which is below i, and arg(-1) throws *)
          Fail OutOfRange
      end
  | Parse_Val v =>
      Ok (Functor_replace i (Parse_Var (fict_var_name n) false) h,
          [TAssign (fict_var_name n) (Parse_Val v)], n + 1, [])
  | _ => Ok (h, [], n, ["Parse rule unknown functor body type."])
  end.

(** The loop over the positions from [i] on; [k] of them are left. *)
Fixpoint canon_head (k i : nat) (n : Z) (h : Parse_Functor) : res (Parse_Functor * list Parse_Term * list string) :=
  match k with
  | O => Ok (h, [], [])
  | S k' =>
      let? (h, ts, n, msgs) := canon_arg i n h in
      let? (h, ts', msgs') := canon_head k' (S i) n h in
      Ok (h, ts ++ ts', msgs ++ msgs')
  end.

(** The messages the loop over the body gives. *)
Definition body_arg_error (e : Parse_Expr) : list string :=
  match e with
  | Parse_Var _ _ | Parse_Val _ => []
  | _ => ["Parse functor term unknown argument type."]
  end.

Definition body_errors (t : Parse_Term) : list string :=
  match t with
  | TFunctor f => args_ f ≫= body_arg_error
  | TAssign _ _ | TSelect _ => []
  | TAggTerm _ _ _ _ => ["Internal parse error: unknown term type!"]
  end.

(** [OL_Context::rule] *)
Definition OL_rule (lhs : Parse_Functor) (rhs : list Parse_Term) (delete : bool) (n : option string)
    (c : OL_Context) : res OL_Context :=
  let ruleName := default "" n in
  let? (h, ts, msgs) := canon_head (length (args_ lhs)) 0 1 lhs in
  Ok (with_rule (mkRule ruleName h delete (ts ++ rhs)) (msgs ++ (rhs ≫= body_errors)) c).

(** [OL_Context::aggRule] *)
Definition OL_aggRule (lhs : Parse_Functor) (rhs : Parse_Term) (delete : bool) (n : option string)
    (c : OL_Context) : OL_Context :=
  with_rule (mkRule (default "" n) lhs delete [rhs]) [] c.

(** [int myTtl = Val_Int64::cast(...)] *)
Definition i32 (z : Z) : Z := (z + 2 ^ 31) mod 2 ^ 32 - 2 ^ 31.

(** The member [v] of the argument of a statement: what [cast] gets. *)
Definition expr_int (e : Parse_Expr) : res Z :=
  match e with
  | Parse_Val v => Val_Int64_cast v
  | Parse_Var v _ | Parse_Agg v _ _ | Parse_Function v _ | Parse_VecAtom v _ | Parse_MatAtom v _ _ =>
      Val_Int64_cast (VStr v)
  | _ => Fail UndefinedBehaviour
  end.

Fixpoint ints_of (es : list Parse_Expr) : res (list Z) :=
  match es with
  | [] => Ok []
  | e :: es' => let? z := expr_int e in let? zs := ints_of es' in Ok (u32 z :: zs)
  end.

(** [OL_Context::table]: a table that is declared twice keeps its first
    declaration, and one with a bad timeout is declared all the same, with the
    default duration of zero. *)
Definition OL_table (name ttl size : Parse_Expr) (keys : option (list Parse_Expr)) (c : OL_Context)
    : res OL_Context :=
  let? tname := Parse_toString name in
  let? t := expr_int ttl in
  let myTtl := i32 t in
  let '(timeout, msgs) :=
    if myTtl =? -1 then (NO_EXPIRATION, [])
    else if myTtl =? 0 then (Table2.Dur 0, ["bad timeout for materialized table"])
    else (Table2.Dur (myTtl * 10 ^ 9), []) in
  let? s := expr_int size in
  let mySize := i32 s in
  let size := if mySize =? -1 then NO_SIZE else u32 mySize in
  let? ks := match keys with Some ks => ints_of ks | None => Ok [] end in
  let info := mkTableInfo tname timeout size ks in
  let tables' := if tables c !! tname is Some _ then tables c else <[tname := info]> (tables c) in
  Ok (mkContext tables' (rules c) (watchTables c) (facts c) (tuplesToTrace c) (tablesToTrace c)
        (mStages c) (errors c ++ msgs)).

(** [OL_Context::fact]: the tuple, or the message.  A null pointer is appended
    to the tuple when an expression cannot be folded. *)
Fixpoint fact_fields (args : list Parse_Expr) : res (list value + string) :=
  match args with
  | [] => Ok (inl [])
  | e :: args' =>
      match e with
      | Parse_Val _ | Parse_Math _ _ _ =>
          let? v := Parse_value e in
          let? rest := fact_fields args' in
          match rest with
          | inl vs => let? v := of_option Unmodelled v in Ok (inl (v :: vs))
          | inr msg => Ok (inr msg)
          end
      | _ =>
          let? s := Parse_toString e in
          Ok (inr ("free variables and don't-cares not allowed in facts:" +:+ s))
      end
  end.

Definition OL_fact (f : Parse_Functor) (c : OL_Context) : res OL_Context :=
  let? r := fact_fields (args_ f) in
  Ok (match r with
      | inl vs => mkContext (tables c) (rules c) (watchTables c) (facts c ++ [VStr (fn f) :: vs])
                    (tuplesToTrace c) (tablesToTrace c) (mStages c) (errors c)
      | inr msg => mkContext (tables c) (rules c) (watchTables c) (facts c)
                    (tuplesToTrace c) (tablesToTrace c) (mStages c) (errors c ++ [msg])
      end).

(** A [std::map<string, string>], in the order of its keys; [insert] keeps an
    existing entry. *)
Definition string_lt (a b : string) : bool :=
  match String.compare a b with Lt => true | _ => false end.

(** [OL_Context::watch], [traceTuple], [traceTable], [stage] *)
Definition OL_watch (name modifiers : string) (c : OL_Context) : OL_Context :=
  mkContext (tables c) (rules c) (set_insert string_lt fst (name, modifiers) (watchTables c)) (facts c)
    (tuplesToTrace c) (tablesToTrace c) (mStages c) (errors c).
Definition OL_traceTuple (name : string) (c : OL_Context) : OL_Context :=
  mkContext (tables c) (rules c) (watchTables c) (facts c)
    ({[name]} ∪ tuplesToTrace c) (tablesToTrace c) (mStages c) (errors c).
Definition OL_traceTable (name : string) (c : OL_Context) : OL_Context :=
  mkContext (tables c) (rules c) (watchTables c) (facts c)
    (tuplesToTrace c) ({[name]} ∪ tablesToTrace c) (mStages c) (errors c).
Definition OL_stage (stageName inName outName : string) (c : OL_Context) : OL_Context :=
  mkContext (tables c) (rules c) (watchTables c) (facts c) (tuplesToTrace c) (tablesToTrace c)
    (<[inName := (stageName, inName, outName)]> (mStages c)) (errors c).

(** [OL_Context::gotErrors] *)
Definition gotErrors (c : OL_Context) : bool := match errors c with [] => false | _ => true end.

(** ** [PlanContext::FieldNamesTracker] *)

(** [initialize]: the variables among the arguments, in order. *)
Definition var_name (e : Parse_Expr) : option string :=
  match e with Parse_Var v _ => Some v | _ => None end.
Definition FieldNamesTracker_mk (t : Parse_Term) : list string :=
  match t with TFunctor f => omap var_name (args_ f) | _ => [] end.

(** [fieldPosition], [None] for -1. *)
Fixpoint fieldPosition (names : list string) (var : string) : option nat :=
  match names with
  | [] => None
  | x :: names' => if fieldNameEq x var then Some O else S <$> fieldPosition names' var
  end.

(** [mergeWith(names)] *)
Fixpoint mergeWith (mine names : list string) : list string :=
  match names with
  | [] => mine
  | x :: names' => mergeWith (if fieldPosition mine x is Some _ then mine else mine ++ [x]) names'
  end.

(** [mergeWith(names, numJoinKeys)] *)
Fixpoint mergeWith_keys (mine names : list string) (numJoinKeys count : Z) : list string :=
  match names with
  | [] => mine
  | x :: names' =>
      if (count =? numJoinKeys) || (if fieldPosition mine x is Some _ then false else true)
      then mergeWith_keys (mine ++ [x]) names' numJoinKeys (count + 1)
      else mergeWith_keys mine names' numJoinKeys count
  end.

(** [joinKeys]: the lookup key, the index key and the remaining fields. *)
Fixpoint tracker_joinKeys (mine probe : list string) (myFieldNo : nat) : list nat * list nat * list nat :=
  match mine with
  | [] => ([], [], [])
  | x :: mine' =>
      let '(lookupKey, indexKey, remaining) := tracker_joinKeys mine' probe (S myFieldNo) in
      match fieldPosition probe x with
      | None => (lookupKey, indexKey, myFieldNo :: remaining)
      | Some p => (S p :: lookupKey, myFieldNo :: indexKey, remaining)
      end
  end.

(** ** [TableStore] *)

(** The tables themselves: reference-counted or with a bound on size or age. *)
Inductive CommonTable := ARefTable (T : table) | ATable2 (T : Table2.table2).

(** [_tableInfos] is the map of the context. *)
Record TableStore := mkStore {
  ts_infos : gmap string TableInfo;
  ts_tables : gmap string CommonTable;
  ts_secondary : gset string
}.

Definition getTableInfo (name : string) (ts : TableStore) : option TableInfo := ts_infos ts !! name.

(** [addTableInfo] *)
Definition addTableInfo (ti : TableInfo) (ts : TableStore) : TableStore :=
  if ts_infos ts !! tableName ti is Some _ then ts
  else mkStore (<[tableName ti := ti]> (ts_infos ts)) (ts_tables ts) (ts_secondary ts).

(** [checkSecondaryIndex]: was the index asked for before? *)
Definition checkSecondaryIndex (uniqStr : string) (ts : TableStore) : bool * TableStore :=
  if decide (uniqStr ∈ ts_secondary ts) then (true, ts)
  else (false, mkStore (ts_infos ts) (ts_tables ts) ({[uniqStr]} ∪ ts_secondary ts)).

(** The table [createTable] makes; [sid] is the identifier of the table's own
    search tuple. *)
Definition new_table (ti : TableInfo) (sid : Z) : CommonTable :=
  let key := Z.to_nat <$> primaryKeys ti in
  if decide (timeout ti = NO_EXPIRATION) then
    if ti_size ti =? 0 then ARefTable (RefTable.mk (tableName ti) key sid)
    else ATable2 (Table2.mk (tableName ti) key (ti_size ti) (timeout ti) sid)
  else ATable2 (Table2.mk (tableName ti) key (ti_size ti) (timeout ti) sid).

(** The facts of the table are inserted, at the time [now]. *)
Definition insert_fact (t : tuple) (now : Z) (T : CommonTable) : res CommonTable :=
  match T with
  | ARefTable T => let? (_, T) := RefTable.insert t now T in Ok (ARefTable T)
  | ATable2 T => let? (_, T) := Table2.insert t now now now T in Ok (ATable2 T)
  end.

Fixpoint insert_facts (name : string) (fs : list tuple) (now : Z) (T : CommonTable) : res CommonTable :=
  match fs with
  | [] => Ok T
  | t :: fs' =>
      let? vr := Tuple_at t 0 in
      let? T := if (name =? toString vr)%string then insert_fact t now T else Ok T in
      insert_facts name fs' now T
  end.

Definition empty_aggregates (T : CommonTable) : res CommonTable :=
  match T with
  | ARefTable T => let? T := evaluateEmptyAggregates T in Ok (ARefTable T)
  | ATable2 T => let? b := evaluateEmptyAggregates (Table2.t2_base T) in Ok (ATable2 (Table2.with_base b T))
  end.

(** [TableStore::createTable].  When a table of the name exists, that is the one
    the facts go into, and the new one is dropped. *)
Definition createTable (ti : TableInfo) (fs : list tuple) (now sid : Z) (ts : TableStore) : res TableStore :=
  let newTable := new_table ti sid in
  match ts_tables ts !! tableName ti with
  | None =>
      let? T := insert_facts (tableName ti) fs now newTable in
      let? T := empty_aggregates T in
      Ok (mkStore (ts_infos ts) (<[tableName ti := T]> (ts_tables ts)) (ts_secondary ts))
  | Some old =>
      let? T := insert_facts (tableName ti) fs now old in
      let? _ := empty_aggregates newTable in
      Ok (mkStore (ts_infos ts) (<[tableName ti := T]> (ts_tables ts)) (ts_secondary ts))
  end.
End overlog.
