(* ===== verification/Rules.v ===== *)
(** * The meaning of Overlog rules

    What a rule derives from a database, the specification against which the
    rewritings of the compiler are judged, and the first of them: the canonical
    form [OL_Context::rule] gives to the head of a rule
    (src/overlog/ol_context.C).

    A database tells which tuples (a name and its fields) hold; a rule derives
    the instances of its head under the valuations of the variables that satisfy
    its body.  What expressions evaluate to, and which selections hold, is left
    open ([ExprSem]): all that matters is that they depend on their variables
    only. *)

From Stdlib Require Import SpecFloat Ascii String.
From S2P Require Import Prelude Ids Stl Values Tuples Aggs Keys CommonTable RefTable Table2 Xdr Casts Oper Overlog.

Local Open Scope p2_scope.

Definition valuation := string -> value.
Definition db := string -> list value -> Prop.

(** The variables of an expression. *)
Fixpoint expr_vars (e : Parse_Expr) : list string :=
  match e with
  | Parse_Val _ => []
  | Parse_Var v _ | Parse_Agg v _ _ => [v]
  | Parse_Bool _ l r | Parse_Math _ l r =>
      expr_vars l ++ match r with Some r => expr_vars r | None => [] end
  | Parse_Range _ l r => expr_vars l ++ expr_vars r
  | Parse_Function _ args | Parse_Vector args => args ≫= expr_vars
  | Parse_VecAtom v o => v :: expr_vars o
  | Parse_Matrix rows => rows ≫= (fun row => row ≫= expr_vars)
  | Parse_MatAtom v o1 o2 => v :: expr_vars o1 ++ expr_vars o2
  end.

Definition term_vars (t : Parse_Term) : list string :=
  match t with
  | TFunctor f => args_ f ≫= expr_vars
  | TAssign x e => x :: expr_vars e
  | TSelect e => expr_vars e
  | TAggTerm _ g a f => (g ++ a ++ args_ f) ≫= expr_vars
  end.

Class ExprSem := {
  ev : valuation -> Parse_Expr -> option value;
  sel : valuation -> Parse_Expr -> Prop;
  ev_var : forall σ x l, ev σ (Parse_Var x l) = Some (σ x);
  ev_val : forall σ v, ev σ (Parse_Val v) = Some v;
  ev_ext : forall (σ τ : valuation) e, (forall x, x ∈ expr_vars e -> σ x = τ x) -> ev σ e = ev τ e;
  sel_ext : forall (σ τ : valuation) e, (forall x, x ∈ expr_vars e -> σ x = τ x) -> sel σ e <-> sel τ e
}.

(** A semantics that evaluates variables and literals only, for examples. *)
Definition bare_ev (σ : valuation) (e : Parse_Expr) : option value :=
  match e with
  | Parse_Var x _ => Some (σ x)
  | Parse_Val v => Some v
  | _ => None
  end.

Definition bare_sem : ExprSem.
Proof.
  refine {| ev := bare_ev; sel := fun _ _ => True |}; try done.
  intros σ τ e H. destruct e; try done. cbn. f_equal. apply H. by left.
Defined.

Section semantics.
Context `{S : ExprSem}.

(** The value an argument of a predicate stands for: the parser admits variables
    and literals. *)
Definition arg_val (σ : valuation) (e : Parse_Expr) : option value :=
  match e with
  | Parse_Var x _ => Some (σ x)
  | Parse_Val v => Some v
  | _ => None
  end.

Definition args_match (σ : valuation) (args : list Parse_Expr) (vs : list value) : Prop :=
  Forall2 (fun e v => arg_val σ e = Some v) args vs.

Definition term_holds (D : db) (σ : valuation) (t : Parse_Term) : Prop :=
  match t with
  | TFunctor f => exists vs, args_match σ (args_ f) vs /\ D (fn f) vs
  | TAssign x e => ev σ e = Some (σ x)
  | TSelect e => sel σ e
  | TAggTerm _ _ _ _ => False
  end.

(** The tuples (without the name) that a rule with head arguments [args] and
    body [ts] derives from [D]. *)
Definition derives (D : db) (args : list Parse_Expr) (ts : list Parse_Term) (vs : list value) : Prop :=
  exists σ, Forall (term_holds D σ) ts /\ args_match σ args vs.

Definition rule_derives (D : db) (r : Rule) (vs : list value) : Prop :=
  derives D (args_ (head r)) (terms r) vs.

(** Valuations that agree on the variables of a term make it hold alike. *)
Lemma arg_val_ext (σ τ : valuation) e : (forall x, x ∈ expr_vars e -> σ x = τ x) -> arg_val σ e = arg_val τ e.
Proof. intros H. destruct e; try done. cbn. f_equal. apply H. by left. Qed.

Lemma matches_ext (σ τ : valuation) args vs : (forall x, x ∈ args ≫= expr_vars -> σ x = τ x) ->
  args_match σ args vs <-> args_match τ args vs.
Proof.
  intros H. unfold args_match.
  assert (Hext : forall e, e ∈ args -> arg_val σ e = arg_val τ e).
  { intros e He. apply arg_val_ext. intros x Hx. apply H. apply list_elem_of_bind. eauto. }
  split; intros Hm; induction Hm as [|e v args vs He Hm IH]; constructor.
  - rewrite <- (Hext e) by left. done.
  - apply IH; intros; [apply H|apply Hext]; cbn; [apply elem_of_app; by right|by right].
  - rewrite (Hext e) by left. done.
  - apply IH; intros; [apply H|apply Hext]; cbn; [apply elem_of_app; by right|by right].
Qed.

Lemma holds_ext D (σ τ : valuation) t : (forall x, x ∈ term_vars t -> σ x = τ x) ->
  term_holds D σ t <-> term_holds D τ t.
Proof.
  intros H. destruct t as [f|x e|e|]; cbn [term_holds term_vars] in *; [| | |done].
  - split; intros (vs & Hm & HD); exists vs; (split; [|done]); [rewrite <- (matches_ext σ τ)|rewrite (matches_ext σ τ)]; done.
  - rewrite (ev_ext σ τ e), (H x); [done|by left|]. intros y Hy. apply H. by right.
  - by apply sel_ext.
Qed.

Lemma holds_all_ext D (σ τ : valuation) ts : (forall x, x ∈ ts ≫= term_vars -> σ x = τ x) ->
  Forall (term_holds D σ) ts <-> Forall (term_holds D τ) ts.
Proof.
  intros H. rewrite !Forall_forall. split; intros Hh t Ht; [rewrite <- (holds_ext D σ τ)|rewrite (holds_ext D σ τ)];
    auto; intros x Hx; apply H, list_elem_of_bind; eauto.
Qed.
End semantics.

(** ** The canonical form of a head *)

Lemma fict_var_name_inj n m : 0 <= n -> 0 <= m -> fict_var_name n = fict_var_name m -> n = m.
Proof.
  intros Hn Hm H. unfold fict_var_name in H. injection H as H. by apply dec_string_inj.
Qed.

(** A name the parser gives to a variable: not one of the fresh ones. *)
Definition user_var (x : string) : Prop := forall n, 0 <= n -> x <> fict_var_name n.

Definition plain_arg (e : Parse_Expr) : bool :=
  match e with Parse_Val _ | Parse_Var _ _ => true | _ => false end.
Definition is_var (e : Parse_Expr) : bool := match e with Parse_Var _ _ => true | _ => false end.
Abbreviation var_names := (omap var_name).

Lemma find_arg_vars `{P : Platform} pre v l rest : Forall (fun e => is_var e = true) pre ->
  exists i e, find_arg (pre ++ Parse_Var v l :: rest) v = Ok (Some i)
    /\ (pre ++ Parse_Var v l :: rest) !! i = Some e /\ var_name e = Some v
    /\ ((i < length pre)%nat <-> v ∈ var_names pre).
Proof.
  induction 1 as [|e pre He Hpre IH]; cbn [app find_arg].
  - cbn [Parse_toString rbind]. rewrite String.eqb_refl. exists O, (Parse_Var v l).
    split_and!; [done|done|done|]. cbn. rewrite elem_of_nil. lia.
  - destruct e as [|x l'| | | | | | | | | ]; try done. cbn [Parse_toString rbind].
    change (var_names (Parse_Var x l' :: pre)) with (x :: var_names pre).
    destruct (String.eqb_spec x v) as [->|Hne].
    + exists O, (Parse_Var v l'). split_and!; [done|done|done|]. cbn [length]. rewrite elem_of_cons.
      split; [by left|lia].
    + destruct IH as (i & e & -> & Hi & Hv & Hlt). exists (Datatypes.S i), e. cbn [rbind].
      split_and!; [done|done|done|]. cbn [length]. rewrite elem_of_cons.
      split; [intros; right; apply Hlt; lia|]. intros [?|Hin]; [congruence|]. apply Hlt in Hin. lia.
Qed.

Section canonical.
Context `{P : Platform} `{S : ExprSem}.

(** What the loop over the head has to give for the arguments [rest]: new
    variables, all different, and assignments under which they have the values
    of the old arguments; and these can always be met. *)
Record canon_ok (n : Z) (pre rest new : list Parse_Expr) (ts : list Parse_Term) : Prop := mkCanonOk {
  co_vars : Forall (fun e => is_var e = true) new;
  co_nodup : NoDup (var_names (pre ++ new));
  co_same : forall D σ vs, Forall (term_holds D σ) ts -> args_match σ new vs <-> args_match σ rest vs;
  co_met : forall σ : valuation, exists τ : valuation, (forall x, (forall m, n <= m -> x <> fict_var_name m) -> τ x = σ x)
    /\ forall D, Forall (term_holds D τ) ts
}.

(** One more argument in front: a fresh variable with its assignment... *)
Lemma canon_ok_fresh n pre a rest new ts e0 : 0 <= n -> Forall (fun x => user_var x) (expr_vars e0) ->
  (forall σ, ev σ e0 = arg_val σ a) -> is_Some (arg_val (fun _ => VNull) a) -> plain_arg a = true ->
  canon_ok (n + 1) (pre ++ [Parse_Var (fict_var_name n) false]) rest new ts ->
  canon_ok n pre (a :: rest) (Parse_Var (fict_var_name n) false :: new) (TAssign (fict_var_name n) e0 :: ts).
Proof.
  intros Hn Hu He Ha Hpl [H1 H2 H3 H4]. split.
  - by constructor.
  - by rewrite <- app_assoc in H2.
  - intros D σ vs Hts. inversion_clear Hts as [|? ? Ht Hts']. cbn [term_holds] in Ht. rewrite He in Ht.
    unfold args_match. split; intros Hm; inversion_clear Hm as [|? v ? vs' Hv Hm']; constructor.
    + rewrite Ht. done.
    + by apply (H3 D).
    + cbn [arg_val]. congruence.
    + by apply (H3 D).
  - intros σ. assert (Hv : exists v, arg_val σ a = Some v) by (destruct a; try done; by eexists).
    destruct Hv as [v Hv]. destruct (H4 (fun x => if decide (x = fict_var_name n) then v else σ x)) as (τ & Hτ & Hh).
    exists τ. split.
    + intros x Hx. rewrite Hτ; [|intros m Hm; apply Hx; lia]. rewrite decide_False; [done|]. apply Hx. lia.
    + intros D. constructor; [|done]. cbn [term_holds].
      assert (Hf : τ (fict_var_name n) = v).
      { rewrite Hτ; [by rewrite decide_True|]. intros m Hm E. apply fict_var_name_inj in E; lia. }
      rewrite Hf, <- Hv, <- He. apply ev_ext. intros x Hx. rewrite Forall_forall in Hu.
      specialize (Hu x Hx). rewrite Hτ; [|intros m Hm; apply Hu; lia]. rewrite decide_False; [done|]. by apply Hu.
Qed.

(** ... or the argument itself. *)
Lemma canon_ok_keep n pre v l rest new ts :
  canon_ok n (pre ++ [Parse_Var v l]) rest new ts ->
  canon_ok n pre (Parse_Var v l :: rest) (Parse_Var v l :: new) ts.
Proof.
  intros [H1 H2 H3 H4]. split.
  - by constructor.
  - by rewrite <- app_assoc in H2.
  - intros D σ vs Hts. unfold args_match.
    split; intros Hm; inversion_clear Hm; constructor; try done; by apply (H3 D).
  - done.
Qed.

Lemma canon_head_ok rest : forall pre n h, args_ h = pre ++ rest -> 0 <= n ->
  Forall (fun e => is_var e = true) pre -> NoDup (var_names pre) ->
  (forall x, x ∈ var_names pre -> user_var x \/ exists m, 0 <= m < n /\ x = fict_var_name m) ->
  Forall (fun e => plain_arg e = true) rest -> (forall x, x ∈ var_names rest -> user_var x) ->
  exists new ts, canon_head (length rest) (length pre) n h = Ok (mkFunctor (fn h) (pre ++ new) (loc_ h), ts, [])
    /\ canon_ok n pre rest new ts.
Proof.
  induction rest as [|a rest IH]; intros pre n h Hh Hn Hv Hnd Hx Hpl Hu.
  { exists [], []. destruct h as [f a l]. cbn in *. subst a. rewrite !app_nil_r. split; [done|]. split.
    - constructor.
    - by rewrite app_nil_r.
    - done.
    - intros σ. by exists σ. }
  inversion_clear Hpl as [|? ? Ha Hpl']. cbn [length canon_head]. unfold canon_arg. rewrite Hh.
  rewrite lookup_app_r, Nat.sub_diag by lia. cbn [lookup list_lookup of_option rbind].
  assert (Hfresh : fict_var_name n ∉ var_names pre).
  { intros Hin. apply Hx in Hin as [Hin|(m & Hm & E)]; [by apply (Hin n)|]. apply fict_var_name_inj in E; lia. }
  assert (Hnext : forall v l, v ∉ var_names pre -> NoDup (var_names (pre ++ [Parse_Var v l]))).
  { intros v l Hno. rewrite omap_app. apply NoDup_app. split_and!; [done| |by apply NoDup_singleton].
    intros x Hin Hin'. apply list_elem_of_singleton in Hin' as ->. done. }
  assert (Hvars : forall v l, Forall (fun e => is_var e = true) (pre ++ [Parse_Var v l])).
  { intros v l. apply Forall_app. split; [done|]. by repeat constructor. }
  set (fr := Parse_Var (fict_var_name n) false).
  assert (Hlen : Datatypes.S (length pre) = length (pre ++ [fr])) by (rewrite length_app; cbn; lia).
  assert (Hrec : exists new ts, canon_head (length rest) (Datatypes.S (length pre)) (n + 1) (Functor_replace (length pre) fr h)
      = Ok (mkFunctor (fn h) (pre ++ fr :: new) (loc_ h), ts, []) /\ canon_ok (n + 1) (pre ++ [fr]) rest new ts).
  { rewrite Hlen. destruct (IH (pre ++ [fr]) (n + 1) (Functor_replace (length pre) fr h))
      as (new & ts & -> & Hok); try done; try lia.
    - cbn [args_ Functor_replace]. rewrite Hh, insert_app_r_alt, Nat.sub_diag by lia. by rewrite <- app_assoc.
    - apply Hvars.
    - by apply Hnext.
    - intros x Hin. rewrite omap_app in Hin. apply elem_of_app in Hin as [Hin|Hin].
      + destruct (Hx x Hin) as [|(m & Hm & E)]; [by left|]. right. exists m. split; [lia|done].
      + apply list_elem_of_singleton in Hin as ->. right. exists n. split; [lia|done].
    - intros x Hin. apply Hu. destruct a; try done. cbn. by right.
    - exists new, ts. split; [by rewrite <- app_assoc|done]. }
  destruct Hrec as (new & ts & Hrec & Hok). destruct a as [v|v l| | | | | | | | | ]; try done.
  - cbn [rbind]. fold fr. rewrite Hrec. cbn [rbind]. exists (fr :: new), (TAssign (fict_var_name n) (Parse_Val v) :: ts).
    split; [done|]. apply canon_ok_fresh; try done. intros σ. apply ev_val.
  - destruct (find_arg_vars pre v l rest Hv) as (i & e & -> & Hi & He & Hlt). cbn [rbind].
    assert (Huv : user_var v) by (apply Hu; cbn; by left).
    destruct (Nat.ltb_spec i (length pre)) as [Hil|Hil].
    + cbn [args_ Functor_replace]. rewrite list_lookup_insert_ne by lia. rewrite Hh, Hi.
      destruct e as [|v' l'| | | | | | | | | ]; try done. cbn in He. injection He as ->.
      cbn [of_option rbind]. fold fr. rewrite Hrec. cbn [rbind].
      exists (fr :: new), (TAssign (fict_var_name n) (Parse_Var v l') :: ts). split; [done|].
      apply canon_ok_fresh; try done; [by repeat constructor|]. intros σ. apply ev_var.
    + assert (Hno : v ∉ var_names pre) by (intros Hin; apply Hlt in Hin; lia).
      assert (Hl2 : Datatypes.S (length pre) = length (pre ++ [Parse_Var v l])) by (rewrite length_app; cbn; lia).
      cbn [rbind]. rewrite Hl2. destruct (IH (pre ++ [Parse_Var v l]) n h) as (new' & ts' & -> & Hok');
        [by rewrite Hh, <- app_assoc|done|apply Hvars|by apply Hnext| |done| |].
      * intros x Hin. rewrite omap_app in Hin. apply elem_of_app in Hin as [Hin|Hin]; [by apply Hx|].
        apply list_elem_of_singleton in Hin as ->. by left.
      * intros x Hin. apply Hu. cbn. by right.
      * cbn [rbind]. exists (Parse_Var v l :: new'), ts'. rewrite <- app_assoc. split; [done|].
        by apply canon_ok_keep.
Qed.
End canonical.

Section canonical_rule.
Context `{P : Platform} `{S : ExprSem}.

(** the canonical form keeps the meaning of a rule.  [OL_Context::rule]
    accepts every head made of variables and literals, registers a rule whose
    head has variables only, all different, and which derives from any database
    exactly the tuples the rule as written does. *)
Theorem rule_canonical_correct (lhs : Parse_Functor) (rhs : list Parse_Term) (delete : bool)
    (n : option string) (c : OL_Context) :
  Forall (fun e => plain_arg e = true) (args_ lhs) ->
  (forall x, x ∈ var_names (args_ lhs) \/ x ∈ rhs ≫= term_vars -> user_var x) ->
  exists r, OL_rule lhs rhs delete n c = Ok (with_rule r (rhs ≫= body_errors) c)
    /\ ruleID r = default ""%string n /\ deleteFlag r = delete /\ fn (head r) = fn lhs
    /\ Forall (fun e => is_var e = true) (args_ (head r)) /\ NoDup (var_names (args_ (head r)))
    /\ forall D vs, rule_derives D r vs <-> derives D (args_ lhs) rhs vs.
Proof.
  intros Hpl Hu.
  destruct (canon_head_ok (args_ lhs) [] 1 lhs) as (new & ts & Hc & [H1 H2 H3 H4]);
    [done|lia|constructor|constructor| |done|by auto|].
  { intros x Hx. by apply elem_of_nil in Hx. }
  unfold OL_rule. change 0%nat with (length (@nil Parse_Expr)). rewrite Hc. cbn [rbind app].
  eexists. split; [done|]. cbn. split_and!; [done..|]. intros D vs. unfold rule_derives, derives. cbn. split.
  - intros (σ & Hh & Hm). apply Forall_app in Hh as [Hts Hr]. exists σ. split; [done|]. by apply (H3 D σ vs Hts).
  - intros (σ & Hr & Hm). destruct (H4 σ) as (τ & Hτ & Hts).
    assert (Hag : forall x, user_var x -> σ x = τ x).
    { intros x Hx. symmetry. apply Hτ. intros m Hm'. apply Hx. lia. }
    exists τ. split.
    + apply Forall_app. split; [done|]. apply (holds_all_ext D σ τ); [|done]. intros x Hx. apply Hag, Hu. by right.
    + apply (H3 D τ vs (Hts D)). apply (matches_ext σ τ); [|done]. intros x Hx. apply Hag, Hu. left.
      apply list_elem_of_bind in Hx as (e & Hxe & He). rewrite Forall_forall in Hpl. specialize (Hpl e He).
      apply list_elem_of_omap. exists e. split; [done|]. destruct e; try done; cbn in *; set_solver.
Qed.
End canonical_rule.

(** [out(@X, 5, X) :- in(@X)]: the literal and the second [X] become "$1" and
    "$2". *)
Definition canon_lhs : Parse_Functor :=
  Parse_Functor_mk "out" [Parse_Var "X" true; Parse_Val (VInt64 5); Parse_Var "X" false] None.
Definition canon_rhs : list Parse_Term := [TFunctor (Parse_Functor_mk "in" [Parse_Var "X" true] None)].

Lemma user_var_upper (c : ascii) s : c <> "$"%char -> user_var (String c s).
Proof. intros Hc n _ H. unfold fict_var_name in H. by injection H as H _. Qed.

Lemma rule_canonical_correct_witness :
  OL_rule (P := bare_platform) canon_lhs canon_rhs false None OL_Context_mk
    = Ok (with_rule (mkRule "" (mkFunctor "out"
        [Parse_Var "X" true; Parse_Var "$1" false; Parse_Var "$2" false] "@X") false
        (TAssign "$1" (Parse_Val (VInt64 5)) :: TAssign "$2" (Parse_Var "X" true) :: canon_rhs)) [] OL_Context_mk)
  /\ forall D vs, derives (S := bare_sem) D (args_ canon_lhs) canon_rhs vs <->
       derives (S := bare_sem) D [Parse_Var "X" true; Parse_Var "$1" false; Parse_Var "$2" false]
         (TAssign "$1" (Parse_Val (VInt64 5)) :: TAssign "$2" (Parse_Var "X" true) :: canon_rhs) vs.
Proof.
  assert (Hr : OL_rule (P := bare_platform) canon_lhs canon_rhs false None OL_Context_mk
    = Ok (with_rule (mkRule "" (mkFunctor "out"
        [Parse_Var "X" true; Parse_Var "$1" false; Parse_Var "$2" false] "@X") false
        (TAssign "$1" (Parse_Val (VInt64 5)) :: TAssign "$2" (Parse_Var "X" true) :: canon_rhs)) [] OL_Context_mk))
    by (vm_compute; reflexivity).
  split; [exact Hr|].
  destruct (rule_canonical_correct (P := bare_platform) (S := bare_sem) canon_lhs canon_rhs false None OL_Context_mk)
    as (r & Ho & _ & _ & _ & _ & _ & Hd).
  - repeat constructor.
  - intros x Hx. assert (x = "X"%string) as -> by (vm_compute in Hx; set_solver).
    by apply user_var_upper.
  - rewrite Hr in Ho. injection Ho as Ho. intros D vs. rewrite <- Hd. rewrite <- Ho. done.
Defined.
