(* ===== verification/Localize.v ===== *)
(** * Localisation (src/planner/localize_context.C)

    A rule whose body spans several nodes is cut at the first change of
    location: a send rule joins the predicates before it and ships the result,
    under an invented name, to the node of the next predicate; the rest of the
    rule takes over there, and is localised in turn.

    [rewriteRule] recurses on the rest; its bound [fuel] is reached exactly when
    the source does not terminate.  The facts that [createTable] inserts into a
    new table, the time and the identifier of its search tuple are parameters. *)

From Stdlib Require Import SpecFloat Ascii String.
From S2P Require Import Prelude Ids Stl Values Tuples Aggs Keys CommonTable RefTable Table2 Xdr Casts Oper Overlog Rules.

Local Open Scope p2_scope.

Section localize.
Context `{P : Platform} (fs : list tuple) (now sid : Z).

(** [_localizedRules.at(k)->toString() == rule->toString()] for some [k]. *)
Fixpoint has_text (rs : list Rule) (r : Rule) : res bool :=
  match rs with
  | [] => Ok false
  | r' :: rs' =>
      let? s' := Rule_toString r' in
      let? s := Rule_toString r in
      if (s' =? s)%string then Ok true else has_text rs' r
  end.

(** [Localize_Context::add_rule] *)
Definition add_rule (r : Rule) (L : list Rule) : res (list Rule) :=
  let? known := has_text L r in
  Ok (if known then L else L ++ [r]).

(** Comparison of durations. *)
Definition lifetime_gt (a b : Table2.lifetime) : bool :=
  match a, b with
  | Table2.PosInfin, Table2.PosInfin => false
  | Table2.PosInfin, _ => true
  | Table2.Dur x, Table2.Dur y => y <? x
  | Table2.Dur _, Table2.NegInfin => true
  | _, _ => false
  end.

(** The arguments of the new predicate: the names seen so far, those that name
    the destination marked as its location. *)
Definition send_arg (loc varName : string) : Parse_Expr := Parse_Var varName (fieldNameEq loc varName).

(** [Localize_Context::addSendRule] *)
Definition addSendRule (nextRule : Rule) (newTerms : list Parse_Term) (newFunctorName : string)
    (functor : Parse_Functor) (loc : string) (minLifetime : Table2.lifetime) (fieldNames : list string)
    (ts : TableStore) : res (Rule * TableStore) :=
  let pe := send_arg loc <$> fieldNames in
  let foundLocspec := existsb (fieldNameEq loc) fieldNames in
  let? _ := check foundLocspec Exited in
  let newHead := Parse_Functor_mk newFunctorName pe None in
  let newRule := mkRule (ruleID nextRule +:+ "Local1") newHead false newTerms in
  match getTableInfo (fn functor) ts with
  | Some ti =>
      if decide (minLifetime = Table2.Dur 0) then Ok (newRule, ts)
      else
        let new := mkTableInfo newFunctorName minLifetime (ti_size ti) (primaryKeys ti) in
        let? ts := createTable new fs now sid (addTableInfo new ts) in
        Ok (newRule, ts)
  | None => Ok (newRule, ts)
  end.

(** The first loop of [rewriteRule]: the predicates, events in front, and the
    other terms; whether there is an event; the locations of the tables. *)
Fixpoint separate (ts : TableStore) (l : list Parse_Term) (probeTerms : list Parse_Functor)
    (otherTerms : list Parse_Term) (hasEvent : bool) (probeLocales : gset string)
    : list Parse_Functor * list Parse_Term * bool * gset string :=
  match l with
  | [] => (probeTerms, otherTerms, hasEvent, probeLocales)
  | TFunctor f :: l' =>
      match getTableInfo (fn f) ts with
      | Some _ => separate ts l' (probeTerms ++ [f]) otherTerms hasEvent ({[getlocspec f]} ∪ probeLocales)
      | None => separate ts l' (f :: probeTerms) otherTerms true probeLocales
      end
  | t :: l' => separate ts l' probeTerms (otherTerms ++ [t]) hasEvent probeLocales
  end.

(** [substr(1)] *)
Definition substr1 (s : string) : res string :=
  match s with EmptyString => Fail OutOfRange | String _ s' => Ok s' end.

(** The second loop of [rewriteRule], at the predicate [cur] with [rest] after
    it; [names] is the tracker, null before the first round.  Up to the first
    change of location: the names, the name of the new head, the lifetime, the
    predicates before the boundary and those after it. *)
Fixpoint find_boundary (ts : TableStore) (names : option (list string)) (headName : string)
    (minLifetime : Table2.lifetime) (before : list Parse_Functor) (cur : Parse_Functor)
    (rest : list Parse_Functor)
    : res (option (list string * string * Table2.lifetime * list Parse_Functor * list Parse_Functor)) :=
  match rest with
  | [] => Ok None
  | next :: rest' =>
      let tracked := FieldNamesTracker_mk (TFunctor cur) in
      let names := match names with None => tracked | Some ns => mergeWith ns tracked end in
      let headName := headName +:+ fn cur in
      let minLifetime :=
        match getTableInfo (fn cur) ts with
        | Some ti => if lifetime_gt minLifetime (timeout ti) then timeout ti else minLifetime
        | None => Table2.Dur 0
        end in
      let before := before ++ [cur] in
      if negb (fieldNameEq (getlocspec cur) (getlocspec next)) then
        let? l := substr1 (getlocspec next) in
        Ok (Some (names, headName +:+ l, minLifetime, before, rest))
      else find_boundary ts (Some names) headName minLifetime before next rest'
  end.

(** One round of [Localize_Context::rewriteRule]: [None] when the rule is local;
    otherwise the send rule and the rule for the rest, which is not a delete rule
    whatever the rule was. *)
Definition localize_step (nextRule : Rule) (ts : TableStore) : res (option (Rule * Rule * TableStore)) :=
  let '(probeTerms, otherTerms, hasEvent, probeLocales) := separate ts (terms nextRule) [] [] false ∅ in
  match probeTerms with
  | [] => Fail OutOfRange (* probeTerms.size()-1 wraps around and at(0) throws *)
  | first :: rest =>
      let? b := find_boundary ts None (ruleID nextRule) Table2.PosInfin [] first rest in
      match b with
      | None => Ok None
      | Some (names, headName, minLifetime, before, after) =>
          let? _ := check (negb (hasEvent && (1 <? base.size probeLocales)%nat
                                 && (if Functor_aggregate (head nextRule) is Some _ then true else false)))
                      Exited in
          let? dest := of_option OutOfRange (after !! 0%nat) in
          let? (newRule, ts) := addSendRule nextRule (TFunctor <$> before) headName first
                                  (getlocspec dest) minLifetime names ts in
          let newTerms := TFunctor (head newRule) :: (TFunctor <$> after) ++ otherTerms in
          let newRuleTwo := mkRule (ruleID nextRule +:+ "Local2") (head nextRule) false newTerms in
          Ok (Some (newRule, newRuleTwo, ts))
      end
  end.

(** [Localize_Context::rewriteRule] *)
Fixpoint rewriteRule (fuel : nat) (nextRule : Rule) (ts : TableStore) (L : list Rule)
    : res (TableStore * list Rule) :=
  match fuel with
  | O => Fail OutOfFuel
  | S fuel =>
      let? s := localize_step nextRule ts in
      match s with
      | None => let? L := add_rule nextRule L in Ok (ts, L)
      | Some (newRule, newRuleTwo, ts) =>
          let? L := add_rule newRule L in
          rewriteRule fuel newRuleTwo ts L
      end
  end.

(** [Localize_Context::rewrite] *)
Fixpoint Localize_rewrite (fuel : nat) (rs : list Rule) (ts : TableStore) (L : list Rule)
    : res (TableStore * list Rule) :=
  match rs with
  | [] => Ok (ts, L)
  | r :: rs' => let? (ts, L) := rewriteRule fuel r ts L in Localize_rewrite fuel rs' ts L
  end.

(** The rules [rewriteRule] hands to [add_rule], in order, and the tables it
    leaves. *)
Fixpoint emitted (fuel : nat) (r : Rule) (ts : TableStore) : res (TableStore * list Rule) :=
  match fuel with
  | O => Fail OutOfFuel
  | S fuel =>
      let? s := localize_step r ts in
      match s with
      | None => Ok (ts, [r])
      | Some (newRule, newRuleTwo, ts) =>
          let? (ts, rs) := emitted fuel newRuleTwo ts in Ok (ts, newRule :: rs)
      end
  end.

Fixpoint add_all (rs L : list Rule) : res (list Rule) :=
  match rs with
  | [] => Ok L
  | r :: rs' => let? L := add_rule r L in add_all rs' L
  end.

Lemma rewriteRule_emitted fuel r ts L ts' L' : rewriteRule fuel r ts L = Ok (ts', L') ->
  exists rs, emitted fuel r ts = Ok (ts', rs) /\ add_all rs L = Ok L'.
Proof.
  revert r ts L. induction fuel as [|fuel IH]; intros r ts L; cbn [rewriteRule emitted]; [done|].
  destruct (localize_step r ts) as [[[[n1 n2] ts1]|]|]; [| |done]; cbn [rbind].
  - destruct (add_rule n1 L) as [L1|] eqn:E1; [|done]. cbn [rbind]. intros H.
    apply IH in H as (rs & -> & Ha). cbn [rbind]. eexists. split; [done|]. cbn [add_all].
    by rewrite E1.
  - destruct (add_rule r L) as [L1|] eqn:E1; [|done]. cbn [rbind]. intros [= <- <-].
    eexists. split; [done|]. cbn [add_all]. by rewrite E1.
Qed.

(** ** Names *)

(** A name of a variable has no marker. *)
Abbreviation unmarked x := (is_at x = false).

(** Two names are equal to [fieldNameEq] when they are without the marker. *)
Definition bare (s : string) : string := if is_at s then tail_of s else s.

Lemma is_at_tail s : is_at s = true -> s = String "@" (tail_of s).
Proof. destruct s as [|c s]; [done|]. destruct c as [[] [] [] [] [] [] [] []]; done. Qed.

Lemma bare_inj a b : is_at a = is_at b -> a = b <-> bare a = bare b.
Proof.
  intros E. unfold bare. rewrite <- E. destruct (is_at a) eqn:Ea; [|done]. symmetry in E.
  rewrite (is_at_tail a Ea) at 1. rewrite (is_at_tail b E) at 1. split; [by intros [= ->]|by intros ->].
Qed.

Lemma fieldNameEq_bare a b : unmarked (bare a) -> unmarked (bare b) ->
  fieldNameEq a b = true <-> bare a = bare b.
Proof.
  intros Ha Hb. unfold fieldNameEq. destruct (Bool.eqb (is_at a) (is_at b)) eqn:E.
  - apply Bool.eqb_prop in E. rewrite String.eqb_eq. by apply bare_inj.
  - unfold bare in *. destruct (is_at a), (is_at b); try done; rewrite String.eqb_eq; done.
Qed.

Lemma bare_unmarked x : unmarked x -> bare x = x.
Proof. unfold bare. by intros ->. Qed.

Lemma fieldNameEq_unmarked x y : unmarked x -> unmarked y -> fieldNameEq x y = true <-> x = y.
Proof. intros Hx Hy. rewrite fieldNameEq_bare; rewrite !bare_unmarked by done; done. Qed.

Lemma bare_at x : bare ("@" +:+ x) = x.
Proof. done. Qed.

Lemma fieldPosition_None mine x : Forall (fun y => unmarked y) mine -> unmarked x ->
  fieldPosition mine x = None <-> x ∉ mine.
Proof.
  intros Hm Hx. induction Hm as [|y mine Hy Hm IH]; cbn [fieldPosition].
  - split; [intros _; apply not_elem_of_nil|done].
  - rewrite not_elem_of_cons. destruct (fieldNameEq y x) eqn:E.
    + apply fieldNameEq_unmarked in E as ->; [|done..]. split; [done|]. by intros [].
    + assert (Hne : x <> y) by (intros ->; by rewrite (proj2 (fieldNameEq_unmarked y y Hy Hy) eq_refl) in E).
      destruct (fieldPosition mine x); cbn; [|by rewrite <- IH]. split; [done|].
      intros [_ Hno]. by apply IH in Hno.
Qed.

Lemma mergeWith_spec names mine : Forall (fun y => unmarked y) mine -> Forall (fun y => unmarked y) names ->
  (forall x, x ∈ mergeWith mine names <-> x ∈ mine \/ x ∈ names) /\ (NoDup mine -> NoDup (mergeWith mine names)).
Proof.
  revert mine. induction names as [|y names IH]; intros mine Hm Hn; cbn [mergeWith].
  { split; [|done]. intros x. rewrite elem_of_nil. tauto. }
  inversion_clear Hn as [|? ? Hy Hn']. pose proof (fieldPosition_None mine y Hm Hy) as Hp.
  destruct (fieldPosition mine y) as [i|].
  - destruct (IH mine Hm Hn') as [H1 H2]. split; [|done]. intros x. rewrite H1, elem_of_cons.
    assert (Hin : y ∈ mine) by (destruct (decide (y ∈ mine)) as [|Hno]; [done|by apply Hp in Hno]).
    intuition congruence.
  - assert (Hno : y ∉ mine) by (by apply Hp).
    destruct (IH (mine ++ [y])) as [H1 H2]; [apply Forall_app; by repeat constructor|done|]. split.
    + intros x. rewrite H1, elem_of_app, !elem_of_cons, elem_of_nil. tauto.
    + intros Hnd. apply H2. apply NoDup_app. split_and!; [done| |by apply NoDup_singleton].
      intros z Hz Hz'. apply list_elem_of_singleton in Hz' as ->. done.
Qed.

(** ** The two loops *)

Definition is_functor (t : Parse_Term) : bool := match t with TFunctor _ => true | _ => false end.

(** The predicates and the other terms are the terms of the rule, reordered. *)
Lemma separate_perm ts l : forall p0 o0 e0 s0 p o e s, separate ts l p0 o0 e0 s0 = (p, o, e, s) ->
  (TFunctor <$> p) ++ o ≡ₚ (TFunctor <$> p0) ++ o0 ++ l
  /\ (Forall (fun t => is_functor t = false) o0 -> Forall (fun t => is_functor t = false) o).
Proof.
  induction l as [|t l IH]; intros p0 o0 e0 s0 p o e s; cbn [separate].
  { intros [= <- <- <- <-]. by rewrite app_nil_r. }
  destruct t as [f|x e1|e1|a b c d].
  2-4: intros H; apply IH in H as [Hp Ho]; (split;
    [rewrite Hp, <- app_assoc; done|intros H0; apply Ho, Forall_app; by repeat constructor]).
  destruct (getTableInfo (fn f) ts); intros H; apply IH in H as [Hp Ho]; (split; [|done]); rewrite Hp.
  - rewrite fmap_app, <- app_assoc. cbn. apply Permutation_app_head. by rewrite Permutation_middle.
  - cbn. rewrite Permutation_middle. apply Permutation_app_head. by rewrite Permutation_middle.
Qed.

(** What the variables and locations of a predicate look like. *)
Definition functor_ok (f : Parse_Functor) : Prop :=
  unmarked (bare (getlocspec f)) /\ Forall (fun x => unmarked x) (var_names (args_ f)).

Definition at_loc (b : string) (f : Parse_Functor) : Prop := bare (getlocspec f) = b.

(** The names tracked are the variables of the predicates passed. *)
Definition tracked (names : option (list string)) (ps : list Parse_Functor) : Prop :=
  match names with
  | None => ps = []
  | Some ns => (forall x, x ∈ ns <-> x ∈ ps ≫= (fun f => var_names (args_ f)))
      /\ (forall f0 ps', ps = f0 :: ps' -> NoDup (var_names (args_ f0)) -> NoDup ns)
  end.

Lemma tracked_next names ps cur : tracked names ps -> Forall functor_ok (ps ++ [cur]) ->
  tracked (Some match names with None => FieldNamesTracker_mk (TFunctor cur)
                | Some ns => mergeWith ns (FieldNamesTracker_mk (TFunctor cur)) end) (ps ++ [cur]).
Proof.
  intros Ht Hok. apply Forall_app in Hok as [Hps Hc]. apply Forall_singleton in Hc as [_ Hc].
  destruct names as [ns|]; cbn [tracked FieldNamesTracker_mk] in *.
  - destruct Ht as [H1 H2].
    assert (Hns : Forall (fun x => unmarked x) ns).
    { apply Forall_forall. intros x Hx. apply H1, list_elem_of_bind in Hx as (f & Hx & Hf).
      rewrite Forall_forall in Hps. destruct (Hps f Hf) as [_ Hv]. rewrite Forall_forall in Hv. by apply Hv. }
    destruct (mergeWith_spec (var_names (args_ cur)) ns Hns Hc) as [M1 M2]. split.
    + intros x. rewrite M1, H1, bind_app, elem_of_app. cbn. by rewrite app_nil_r.
    + intros f0 ps' E Hnd. destruct ps as [|f ps]; [|by injection E as <- _; eapply M2, H2].
      apply M2. destruct ns as [|x ns]; [constructor|]. exfalso. specialize (H1 x).
      assert (Hx : x ∈ x :: ns) by left. apply H1 in Hx. by apply elem_of_nil in Hx.
  - subst ps. split; [cbn; by rewrite app_nil_r|]. by intros f0 ps' [= <- _].
Qed.

Lemma find_boundary_spec ts b rest : forall names hn life before cur r,
  find_boundary ts names hn life before cur rest = Ok r ->
  Forall functor_ok (before ++ cur :: rest) -> Forall (at_loc b) (before ++ [cur]) ->
  tracked names before ->
  match r with
  | None => Forall (at_loc b) (before ++ cur :: rest)
  | Some (names', hn', life', bef, aft) =>
      exists f after, aft = f :: after /\ before ++ cur :: rest = bef ++ f :: after
      /\ Forall (at_loc b) bef /\ fieldNameEq b (getlocspec f) = false
      /\ tracked (Some names') bef /\ exists pre, bef = before ++ cur :: pre
  end.
Proof.
  induction rest as [|next rest IH]; intros names hn life before cur r; cbn [find_boundary].
  { intros [= <-] _ H _. done. }
  intros H Hok Hat Ht. set (names1 := match names with None => _ | Some _ => _ end) in H.
  assert (Hok' : Forall functor_ok ((before ++ [cur]) ++ next :: rest)) by (by rewrite <- app_assoc).
  assert (Ht' : tracked (Some names1) (before ++ [cur])).
  { apply tracked_next; [done|]. by apply Forall_app in Hok' as [? _]. }
  pose proof Hat as Hat0. apply Forall_app in Hat0 as [_ Hcur]. rewrite Forall_singleton in Hcur.
  apply Forall_app in Hok' as [Hok1 Hok2]. pose proof Hok1 as Hc. apply Forall_app in Hc as [_ Hc].
  apply Forall_singleton in Hc as [Hc _]. pose proof Hok2 as Hn0. inversion_clear Hn0 as [|? ? [Hn _] _].
  destruct (fieldNameEq (getlocspec cur) (getlocspec next)) eqn:E; cbn [negb] in H.
  - apply fieldNameEq_bare in E; [|done..].
    specialize (IH _ _ _ _ _ _ H). rewrite <- !app_assoc in IH. cbn in IH.
    assert (Hat' : Forall (at_loc b) ((before ++ [cur]) ++ [next])).
    { apply Forall_app. split; [done|]. apply Forall_singleton. unfold at_loc in *. congruence. }
    rewrite <- app_assoc in Hat'. specialize (IH Hok Hat' Ht').
    destruct r as [[[[[n' h'] l'] bef] aft]|]; [|done].
    destruct IH as (f & after & H1 & H2 & H3 & H4 & H5 & pre & H6). exists f, after. split_and!; try done.
    exists (next :: pre). by rewrite H6, <- app_assoc.
  - destruct (substr1 (getlocspec next)) as [l|]; [|done]. injection H as <-.
    exists next, rest. split_and!; [done|by rewrite <- app_assoc|done| |done|by exists []].
    apply not_true_iff_false. intros E'. unfold at_loc in Hcur. subst b.
    apply fieldNameEq_bare in E'; [|by rewrite bare_unmarked|done]. rewrite bare_unmarked in E' by done.
    apply (fieldNameEq_bare _ _ Hc Hn) in E'. congruence.
Qed.

(** ** One round *)

Definition functor_of (t : Parse_Term) : option Parse_Functor :=
  match t with TFunctor f => Some f | _ => None end.
Definition functors (l : list Parse_Term) : list Parse_Functor := omap functor_of l.

Lemma functors_app l1 l2 : functors (l1 ++ l2) = functors l1 ++ functors l2.
Proof. apply omap_app. Qed.

Lemma functors_fmap (ps : list Parse_Functor) : functors (TFunctor <$> ps) = ps.
Proof. induction ps as [|f ps IH]; [done|]. cbn. f_equal. apply IH. Qed.

Lemma functors_none l : Forall (fun t => is_functor t = false) l -> functors l = [].
Proof. induction 1 as [|t l Ht _ IH]; [done|]. destruct t; done. Qed.

(** Every predicate of the rule has a proper location and proper variables. *)
Definition rule_ok (r : Rule) : Prop := Forall functor_ok (functors (terms r)).

(** The tables of [ts] are tables of [ts']. *)
Definition keeps (ts ts' : TableStore) : Prop :=
  forall nm, is_Some (getTableInfo nm ts) -> is_Some (getTableInfo nm ts').

Lemma createTable_infos ti now' sid' ts ts' : createTable ti fs now' sid' ts = Ok ts' -> ts_infos ts' = ts_infos ts.
Proof.
  unfold createTable. destruct (ts_tables ts !! tableName ti) as [old|].
  - destruct (insert_facts _ _ _ old); [|done]. cbn [rbind]. destruct (empty_aggregates _); [|done].
    by intros [= <-].
  - destruct (insert_facts _ _ _ _); [|done]. cbn [rbind]. destruct (empty_aggregates _); [|done].
    by intros [= <-].
Qed.

Lemma addTableInfo_keeps ti ts : keeps ts (addTableInfo ti ts).
Proof.
  intros nm. unfold getTableInfo, addTableInfo.
  destruct (ts_infos ts !! tableName ti) as [x|] eqn:E; [done|]. cbn. intros Hs.
  destruct (decide (nm = tableName ti)) as [->|Hne]; [by rewrite lookup_insert_eq|].
  by rewrite lookup_insert_ne.
Qed.

(** The send rule and the store it leaves. *)
Lemma addSendRule_spec r nts nm f0 loc life names ts n1 ts' :
  addSendRule r nts nm f0 loc life names ts = Ok (n1, ts') ->
  existsb (fieldNameEq loc) names = true
  /\ n1 = mkRule (ruleID r +:+ "Local1") (Parse_Functor_mk nm (send_arg loc <$> names) None) false nts
  /\ keeps ts ts'.
Proof.
  unfold addSendRule. destruct (existsb _ _); [|done]. cbn [check rbind]. intros H.
  destruct (getTableInfo (fn f0) ts) as [ti|]; [|injection H as <- <-; split_and!; [done|done|by intros ?]].
  destruct (decide _); [injection H as <- <-; split_and!; [done|done|by intros ?]|].
  destruct (createTable _ _ _ _ _) as [ts1|] eqn:E; [|done]. cbn [rbind] in H. injection H as <- <-.
  split_and!; [done|done|]. intros k Hk. unfold getTableInfo. rewrite (createTable_infos _ _ _ _ _ E).
  by apply addTableInfo_keeps.
Qed.

Lemma localize_step_spec r ts s : localize_step r ts = Ok s -> rule_ok r ->
  exists p o e l b, separate ts (terms r) [] [] false ∅ = (p, o, e, l)
  /\ (TFunctor <$> p) ++ o ≡ₚ terms r /\ Forall (fun t => is_functor t = false) o /\ Forall functor_ok p
  /\ match s with
     | None => Forall (at_loc b) p
     | Some (n1, n2, ts') => exists f0 before f after names nm,
         p = f0 :: before ++ f :: after /\ Forall (at_loc b) (f0 :: before)
         /\ fieldNameEq b (getlocspec f) = false /\ tracked (Some names) (f0 :: before)
         /\ existsb (fieldNameEq (getlocspec f)) names = true
         /\ n1 = mkRule (ruleID r +:+ "Local1") (Parse_Functor_mk nm (send_arg (getlocspec f) <$> names) None) false
                   (TFunctor <$> f0 :: before)
         /\ n2 = mkRule (ruleID r +:+ "Local2") (head r) false
                   (TFunctor (head n1) :: (TFunctor <$> f :: after) ++ o)
         /\ keeps ts ts'
     end.
Proof.
  unfold localize_step, rule_ok. intros H Hok.
  destruct (separate ts (terms r) [] [] false ∅) as [[[p o] e] l] eqn:Es.
  destruct (separate_perm _ _ _ _ _ _ _ _ _ _ Es) as [Hp Ho]. specialize (Ho (Forall_nil_2 _)).
  cbn in Hp.
  assert (Hfp : Forall functor_ok p).
  { revert Hok. unfold functors. rewrite <- Hp. rewrite omap_app. fold (functors (TFunctor <$> p)).
    rewrite functors_fmap. intros Hok. by apply Forall_app in Hok as [? _]. }
  destruct p as [|f0 rest]; [done|].
  destruct (find_boundary _ _ _ _ _ _ _) as [b|] eqn:Eb; [|done]. cbn [rbind] in H.
  pose proof (find_boundary_spec ts (bare (getlocspec f0)) rest _ _ _ _ _ _ Eb) as Hb. cbn [app] in Hb.
  specialize (Hb Hfp). assert (Hat : Forall (at_loc (bare (getlocspec f0))) [f0]) by (by repeat constructor).
  specialize (Hb Hat eq_refl). exists (f0 :: rest), o, e, l, (bare (getlocspec f0)).
  destruct b as [[[[[names nm] life] bef] aft]|]; [|injection H as <-; split_and!; done].
  destruct Hb as (f & after & -> & E & H1 & H2 & H3 & pre & ->). cbn [app] in *.
  destruct (check _ _); [|done]. cbn [rbind of_option lookup list_lookup] in H.
  destruct (addSendRule _ _ _ _ _ _ _ _) as [[n1 ts1]|] eqn:Ea; [|done]. cbn [rbind] in H.
  injection H as <-. apply addSendRule_spec in Ea as (A1 & A2 & A3). split_and!; [done|done|done|done|].
  exists f0, pre, f, after, names, nm. split_and!; try done.
Qed.

(** The name tracker gives the new predicate proper variables and a proper
    location. *)
Lemma tracked_unmarked names ps : tracked (Some names) ps -> Forall functor_ok ps ->
  Forall (fun x => unmarked x) names.
Proof.
  intros [H1 _] Hok. apply Forall_forall. intros x Hx. apply H1, list_elem_of_bind in Hx as (f & Hx & Hf).
  rewrite Forall_forall in Hok. destruct (Hok f Hf) as [_ Hv]. rewrite Forall_forall in Hv. by apply Hv.
Qed.

Lemma send_names loc (names : list string) : var_names (send_arg loc <$> names) = names.
Proof. induction names as [|x names IH]; [done|]. cbn. f_equal. apply IH. Qed.

Lemma send_locs loc (names : list string) : omap arg_loc (send_arg loc <$> names)
  = (fun x => "@" +:+ x)%string <$> filter (fun x => fieldNameEq loc x = true) names.
Proof.
  induction names as [|x names IH]; [done|]. rewrite fmap_cons, filter_cons. cbn [omap list_omap].
  unfold send_arg at 1. destruct (fieldNameEq loc x) eqn:E; [rewrite decide_True by done|rewrite decide_False by done];
    cbn [arg_loc]; [cbn; f_equal|]; apply IH.
Qed.

Lemma send_functor_ok nm loc (names : list string) : Forall (fun x => unmarked x) names ->
  functor_ok (Parse_Functor_mk nm (send_arg loc <$> names) None).
Proof.
  intros Hn. assert (Hloc : unmarked (bare (find_locspec (send_arg loc <$> names)))).
  { unfold find_locspec. rewrite send_locs. rewrite Forall_forall in Hn.
    destruct (filter _ names) as [|x [|y l]] eqn:E; [done| |done]. cbn. rewrite bare_at.
    apply Hn. assert (Hx : x ∈ filter (fun x => fieldNameEq loc x = true) names) by (rewrite E; by left).
    by apply list_elem_of_filter in Hx as [_ Hx]. }
  split.
  - unfold getlocspec, Parse_Functor_mk. cbn [loc_ args_]. by destruct (_ =? "")%string.
  - cbn [Parse_Functor_mk args_]. by rewrite send_names.
Qed.

Lemma localize_step_ok r ts n1 n2 ts' : localize_step r ts = Ok (Some (n1, n2, ts')) -> rule_ok r ->
  rule_ok n1 /\ rule_ok n2.
Proof.
  intros H Hok. apply localize_step_spec in H as (p & o & e & l & b & _ & Hp & Ho & Hfp & Hs); [|done].
  destruct Hs as (f0 & before & f & after & names & nm & -> & Hat & Hne & Ht & Hex & -> & -> & Hk).
  change (f0 :: before ++ f :: after) with ((f0 :: before) ++ f :: after) in Hfp. apply Forall_app in Hfp as [Hb Ha].
  unfold rule_ok. cbn [terms head]. rewrite functors_fmap. split; [done|].
  change (functors (?t :: ?l)) with (omap functor_of [t] ++ functors l).
  rewrite functors_app, functors_fmap, (functors_none o Ho), app_nil_r. constructor; [|done].
  apply send_functor_ok. by eapply tracked_unmarked.
Qed.

(** ** Every rule is local *)

(** All the predicates of the body are at one location. *)
Definition local_rule (r : Rule) : Prop := exists b, Forall (at_loc b) (functors (terms r)).

Lemma emitted_local fuel : forall r ts ts' rs, emitted fuel r ts = Ok (ts', rs) -> rule_ok r ->
  Forall local_rule rs.
Proof.
  induction fuel as [|fuel IH]; intros r ts ts' rs; cbn [emitted]; [done|].
  destruct (localize_step r ts) as [s|] eqn:Es; [|done]. cbn [rbind]. intros H Hok.
  pose proof (localize_step_spec _ _ _ Es Hok) as (p & o & e & l & b & _ & Hp & Ho & Hfp & Hs).
  destruct s as [[[n1 n2] ts1]|].
  - destruct (localize_step_ok _ _ _ _ _ Es Hok) as [_ Hok2].
    destruct (emitted fuel n2 ts1) as [[ts2 rs2]|] eqn:E2; [|done]. cbn [rbind] in H. injection H as <- <-.
    constructor; [|by eapply IH]. destruct Hs as (f0 & bef & f & aft & names & nm & _ & Hat & _ & _ & _ & -> & _).
    exists b. cbn [terms]. by rewrite functors_fmap.
  - injection H as <- <-. constructor; [|constructor]. exists b. unfold functors.
    assert (Hf : omap functor_of (terms r) ≡ₚ p).
    { rewrite <- Hp, omap_app. fold (functors (TFunctor <$> p)) (functors o).
      by rewrite functors_fmap, functors_none, app_nil_r. }
    by rewrite Hf.
Qed.

Lemma add_rule_incl r L L' : add_rule r L = Ok L' -> forall x, x ∈ L' -> x = r \/ x ∈ L.
Proof.
  unfold add_rule. destruct (has_text L r) as [[]|]; [| |done]; cbn; intros [= <-] x Hx; [by right|].
  apply elem_of_app in Hx as [Hx|Hx]; [by right|]. left. by apply list_elem_of_singleton in Hx.
Qed.

Lemma add_all_incl rs : forall L L', add_all rs L = Ok L' -> forall x, x ∈ L' -> x ∈ rs \/ x ∈ L.
Proof.
  induction rs as [|r rs IH]; intros L L'; cbn [add_all]; [intros [= <-]; by right|].
  destruct (add_rule r L) as [L1|] eqn:E; [|done]. cbn [rbind]. intros H x Hx.
  destruct (IH _ _ H x Hx) as [|Hx1]; [left; by right|].
  destruct (add_rule_incl _ _ _ E x Hx1) as [->|]; [left; by left|by right].
Qed.

(** C9: localisation does what its name says: in every rule it leaves, all the
    predicates of the body are at the same location. *)
Theorem localized_rules_local (fuel : nat) (rs : list Rule) (ts ts' : TableStore) (L : list Rule) :
  Forall rule_ok rs -> Localize_rewrite fuel rs ts [] = Ok (ts', L) -> Forall local_rule L.
Proof.
  assert (Hgen : forall L0, Forall local_rule L0 -> forall ts, Forall rule_ok rs ->
    Localize_rewrite fuel rs ts L0 = Ok (ts', L) -> Forall local_rule L).
  { induction rs as [|r rs IH]; intros L0 HL0 ts0 Hok; cbn [Localize_rewrite]; [by intros [= _ <-]|].
    inversion_clear Hok as [|? ? Hr Hrs].
    destruct (rewriteRule fuel r ts0 L0) as [[ts1 L1]|] eqn:E; [|done]. cbn [rbind].
    apply IH; [|done]. apply rewriteRule_emitted in E as (es & Ee & Ea).
    apply Forall_forall. intros x Hx. destruct (add_all_incl _ _ _ Ea x Hx) as [Hin|Hin].
    - pose proof (emitted_local _ _ _ _ _ Ee Hr) as Hl. rewrite Forall_forall in Hl. by apply Hl.
    - rewrite Forall_forall in HL0. by apply HL0. }
  intros Hok. apply (Hgen []); [constructor|done].
Qed.

(** ** Localisation keeps the meaning *)

Context `{S : ExprSem}.

(** The database after a rule has been applied to it once. *)
Definition extend (D : db) (r : Rule) : db :=
  fun nm ws => D nm ws \/ (nm = fn (head r) /\ rule_derives D r ws).

(** What a sequence of rules derives: each but the last fills the predicate of
    its head, the last gives the result. *)
Fixpoint chain (D : db) (rs : list Rule) (vs : list value) : Prop :=
  match rs with
  | [] => False
  | [r] => rule_derives D r vs
  | r :: rs' => chain (extend D r) rs' vs
  end.

Lemma matches_vars (σ : valuation) loc (names : list string) ws :
  args_match σ (send_arg loc <$> names) ws <-> ws = σ <$> names.
Proof.
  revert ws. induction names as [|x names IH]; intros ws; unfold args_match in *; cbn.
  - split; [by inversion 1|by intros ->; constructor].
  - split.
    + inversion_clear 1 as [|? w ? ws' Hw Hws]. cbn in Hw. injection Hw as ->. f_equal. by apply IH.
    + intros ->. constructor; [done|]. by apply IH.
Qed.

(** A predicate that holds has variables and literals only. *)
Lemma matches_plain σ args vs : args_match σ args vs -> forall x, x ∈ args ≫= expr_vars -> x ∈ var_names args.
Proof.
  induction 1 as [|e v args vs He _ IH]; intros x; [done|].
  change ((e :: args) ≫= expr_vars) with (expr_vars e ++ (args ≫= expr_vars)). rewrite elem_of_app.
  intros [Hx|Hx]; apply list_elem_of_omap.
  - exists e. split; [by left|]. destruct e; try done; [by apply elem_of_nil in Hx|].
    by apply list_elem_of_singleton in Hx as ->.
  - apply IH, list_elem_of_omap in Hx as (e' & Hin & He'). exists e'. split; [by right|done].
Qed.

Lemma Forall_iff_in {A} (Q R : A -> Prop) l : (forall x, x ∈ l -> Q x <-> R x) -> Forall Q l <-> Forall R l.
Proof. intros H. rewrite !Forall_forall. split; intros H' x Hx; apply H; auto. Qed.

Lemma fmap_eq_in {A B} (f g : A -> B) (l : list A) x : f <$> l = g <$> l -> x ∈ l -> f x = g x.
Proof.
  intros E Hx. apply list_elem_of_lookup in Hx as [i Hi].
  apply (f_equal (lookup i)) in E. rewrite !list_lookup_fmap, Hi in E. by injection E.
Qed.

(** The part of the body before the boundary can be joined first. *)
Lemma join_through D args nm loc names (before after : list Parse_Functor) o l vs id1 :
  (TFunctor <$> before ++ after) ++ o ≡ₚ l -> Forall (fun t => is_functor t = false) o ->
  tracked (Some names) before ->
  (forall ws, ~ D nm ws) -> Forall (fun f => fn f <> nm) after ->
  let n1 := mkRule id1 (Parse_Functor_mk nm (send_arg loc <$> names) None) false (TFunctor <$> before) in
  derives (extend D n1) args (TFunctor (head n1) :: (TFunctor <$> after) ++ o) vs <-> derives D args l vs.
Proof.
  intros Hp Ho [Ht _] Hno Haft n1. unfold derives.
  assert (Hext : forall σ, Forall (term_holds (extend D n1) σ) ((TFunctor <$> after) ++ o)
    <-> Forall (term_holds D σ) ((TFunctor <$> after) ++ o)).
  { intros σ. rewrite !Forall_app, !Forall_fmap.
    assert (Hh : forall t, is_functor t = false -> term_holds (extend D n1) σ t <-> term_holds D σ t) by (by intros []).
    apply Morphisms_Prop.and_iff_morphism; apply Forall_iff_in; intros t Ht'.
    - cbn. rewrite Forall_forall in Haft. specialize (Haft t Ht'). split; intros (ws & Hm & HD); exists ws; (split; [done|]).
      + by destruct HD as [|[E _]].
      + by left.
    - rewrite Forall_forall in Ho. by apply Hh, Ho. }
  split; intros (σ & Hh & Hm); exists σ; (split; [|done]).
  - inversion_clear Hh as [|? ? H1 H2]. apply Hext in H2. rewrite <- Hp, fmap_app, <- app_assoc, Forall_app.
    split; [|done]. cbn in H1. destruct H1 as (ws & Hws & [HD|[_ (τ & Hτ & Hmτ)]]); [by apply Hno in HD|].
    cbn in Hτ, Hmτ. apply matches_vars in Hws. apply matches_vars in Hmτ. rewrite Hws in Hmτ.
    assert (Heq : forall x, x ∈ names -> σ x = τ x) by (intros x; by apply fmap_eq_in).
    rewrite Forall_forall in Hτ. apply Forall_forall. intros t Ht'. specialize (Hτ t Ht').
    apply list_elem_of_fmap in Ht' as (f & -> & Hf). cbn in Hτ |- *. destruct Hτ as (us & Hus & HDu).
    exists us. split; [|done]. apply (matches_ext σ τ); [|done]. intros x Hx. apply Heq, Ht, list_elem_of_bind.
    exists f. split; [|done]. by eapply matches_plain.
  - rewrite <- Hp, fmap_app, <- app_assoc, Forall_app in Hh. destruct Hh as [Hb Ha].
    constructor; [|by apply Hext]. cbn. exists (σ <$> names). split; [by apply matches_vars|]. right.
    split; [done|]. exists σ. cbn. split; [done|]. by apply matches_vars.
Qed.

(** The names of the predicates localisation invents. *)
Fixpoint invented (rs : list Rule) : list string :=
  match rs with
  | [] | [_] => []
  | r :: rs' => fn (head r) :: invented rs'
  end.

Lemma emitted_nonempty fuel r ts ts' rs : emitted fuel r ts = Ok (ts', rs) -> exists r1 rs1, rs = r1 :: rs1.
Proof.
  destruct fuel as [|fuel]; [done|]. cbn [emitted].
  destruct (localize_step r ts) as [[[[n1 n2] ts1]|]|]; [| |done]; cbn [rbind].
  - destruct (emitted fuel n2 ts1) as [[ts2 rs2]|]; [|done]. cbn [rbind]. intros [= <- <-]. eauto.
  - intros [= <- <-]. eauto.
Qed.

(** C8: localisation keeps the meaning of a rule.  The rules a rule is replaced
    by derive together, each feeding the next through the predicate it invents,
    exactly the tuples the rule derives - as long as the invented names are
    different from each other, are not used in the rule and hold nothing yet. *)
Theorem localize_meaning (fuel : nat) (r : Rule) (ts ts' : TableStore) (rs : list Rule) (D : db) :
  rule_ok r -> emitted fuel r ts = Ok (ts', rs) -> NoDup (invented rs) ->
  (forall nm, nm ∈ invented rs -> (nm ∉ (fn <$> functors (terms r))) /\ forall ws, ~ D nm ws) ->
  forall vs, chain D rs vs <-> rule_derives D r vs.
Proof.
  revert r ts rs D. induction fuel as [|fuel IH]; intros r ts rs D Hok; cbn [emitted]; [done|].
  destruct (localize_step r ts) as [s|] eqn:Es; [|done]. cbn [rbind].
  destruct s as [[[n1 n2] ts1]|]; [|by intros [= <- <-]].
  destruct (emitted fuel n2 ts1) as [[ts2 rs2]|] eqn:E2; [|done]. cbn [rbind]. intros [= <- <-] Hnd Hfresh vs.
  destruct (localize_step_ok _ _ _ _ _ Es Hok) as [_ Hok2].
  destruct (emitted_nonempty _ _ _ _ _ E2) as (r2 & rs2' & Ers).
  pose proof (localize_step_spec _ _ _ Es Hok) as (p & o & e & l & b & _ & Hp & Ho & Hfp & Hs).
  destruct Hs as (f0 & bef & f & aft & names & nm & -> & Hat & Hne & Ht & Hex & En1 & En2 & Hk).
  change (f0 :: bef ++ f :: aft) with ((f0 :: bef) ++ f :: aft) in Hp.
  assert (Hinv : invented (n1 :: rs2) = nm :: invented rs2) by (rewrite Ers, En1; done).
  assert (Hch : chain D (n1 :: rs2) vs = chain (extend D n1) rs2 vs) by (by rewrite Ers).
  rewrite Hinv in Hnd, Hfresh. apply NoDup_cons in Hnd as [Hnm Hnd].
  assert (Hbody : forall g, g ∈ (f0 :: bef) ++ f :: aft -> g ∈ functors (terms r)).
  { intros g Hg. unfold functors. rewrite <- Hp, omap_app. apply elem_of_app. left.
    fold (functors (TFunctor <$> (f0 :: bef) ++ f :: aft)). by rewrite functors_fmap. }
  destruct (Hfresh nm) as [Hn1 Hn2]; [by left|].
  assert (Haft : Forall (fun g => fn g <> nm) (f :: aft)).
  { apply Forall_forall. intros g Hg E. apply Hn1. rewrite <- E. apply list_elem_of_fmap_2, Hbody, elem_of_app. by right. }
  rewrite Hch, (IH _ _ _ _ Hok2 E2 Hnd).
  - unfold rule_derives. rewrite En2. cbn [head terms].
    pose proof (join_through D (args_ (head r)) nm (getlocspec f) names (f0 :: bef) (f :: aft) o (terms r) vs
      (ruleID r +:+ "Local1") Hp Ho Ht Hn2 Haft) as Hj. by rewrite En1.
  - intros nm2 Hin. destruct (Hfresh nm2) as [Hf1 Hf2]; [by right|].
    assert (Hne2 : nm2 <> nm) by (intros ->; done). split.
    + rewrite En2. cbn [terms]. intros Hx.
      change (functors (?t :: ?l)) with (omap functor_of [t] ++ functors l) in Hx.
      rewrite functors_app, functors_fmap, (functors_none o Ho), app_nil_r, En1 in Hx.
      apply list_elem_of_fmap in Hx as (g & -> & Hg). cbn in Hg. apply elem_of_cons in Hg as [->|Hg]; [done|].
      apply Hf1, list_elem_of_fmap_2, Hbody, elem_of_app. by right.
    + intros ws [HD|[E _]]; [by apply Hf2 in HD|]. rewrite En1 in E. done.
Qed.

(** A delete rule that is cut loses its flag: the rule that reaches its head
    inserts what it should delete. *)
Theorem localize_drops_delete (fuel : nat) (r : Rule) (ts ts' : TableStore) (rs : list Rule) :
  emitted fuel r ts = Ok (ts', rs) -> (1 < length rs)%nat -> Forall (fun r' => deleteFlag r' = false) rs.
Proof.
  assert (Hstep : forall r ts n1 n2 ts1, localize_step r ts = Ok (Some (n1, n2, ts1)) ->
    deleteFlag n1 = false /\ deleteFlag n2 = false).
  { intros r0 ts0 n1 n2 ts1. unfold localize_step. destruct (separate _ _ _ _ _ _) as [[[p o] e] l].
    destruct p as [|f0 rest]; [done|]. destruct (find_boundary _ _ _ _ _ _ _) as [[[[[[a b] c] d] g]|]|]; [|done..].
    cbn [rbind]. destruct (check _ _); [|done]. cbn [rbind]. destruct (of_option _ _); [|done]. cbn [rbind].
    destruct (addSendRule _ _ _ _ _ _ _ _) as [[n ts2]|] eqn:E; [|done]. cbn [rbind]. intros [= <- <- <-].
    by apply addSendRule_spec in E as (_ & -> & _). }
  assert (Hgen : forall fuel r ts ts' rs, emitted fuel r ts = Ok (ts', rs) ->
    deleteFlag r = false \/ (1 < length rs)%nat -> Forall (fun r' => deleteFlag r' = false) rs).
  { clear fuel r ts ts' rs. induction fuel as [|fuel IH]; intros r ts ts' rs; cbn [emitted]; [done|].
    destruct (localize_step r ts) as [[[[n1 n2] ts1]|]|] eqn:Es; [| |done]; cbn [rbind].
    - destruct (Hstep _ _ _ _ _ Es) as [H1 H2].
      destruct (emitted fuel n2 ts1) as [[ts2 rs2]|] eqn:E2; [|done]. cbn [rbind]. intros [= <- <-] _.
      constructor; [done|]. eapply IH; [done|by left].
    - intros [= <- <-] [H|H]; [by repeat constructor|]. cbn in H. lia. }
  intros H Hl. eapply Hgen; [done|by right].
Qed.

(** ** Termination *)

Definition is_table (ts : TableStore) (f : Parse_Functor) : Prop := is_Some (getTableInfo (fn f) ts).

#[export] Instance is_table_dec ts f : Decision (is_table ts f).
Proof. unfold is_table. apply _. Defined.

(** Events go to the front, the latest first; tables follow in order. *)
Lemma separate_probes ts l : forall p0 o0 e0 s0 p o e s, separate ts l p0 o0 e0 s0 = (p, o, e, s) ->
  p = reverse (filter (fun f => ~ is_table ts f) (functors l)) ++ p0 ++ filter (is_table ts) (functors l).
Proof.
  induction l as [|t l IH]; intros p0 o0 e0 s0 p o e s; cbn [separate].
  { intros [= <- <- <- <-]. cbn. by rewrite app_nil_r. }
  destruct t as [f|x e1|e1|a b c d]; [|intros H; by apply IH in H..].
  change (functors (TFunctor f :: l)) with (f :: functors l). rewrite !filter_cons.
  destruct (getTableInfo (fn f) ts) as [ti|] eqn:E; intros H; apply IH in H as ->.
  - assert (Hf : is_table ts f) by (by exists ti). rewrite decide_False by tauto. rewrite decide_True by done.
    by rewrite <- app_assoc.
  - assert (Hf : ~ is_table ts f) by (intros [ti Hti]; congruence). rewrite decide_True by done.
    rewrite decide_False by done. by rewrite reverse_cons, <- app_assoc.
Qed.

(** The changes of location along the predicates. *)
Fixpoint changes (p : list Parse_Functor) : nat :=
  match p with
  | f :: (g :: _) as p' => (if fieldNameEq (getlocspec f) (getlocspec g) then 0 else 1) + changes p'
  | _ => 0
  end.

Lemma changes_length p : (changes p <= length p)%nat.
Proof.
  induction p as [|f [|g p] IH]; [done|cbn; lia|].
  change (changes (f :: g :: p)) with ((if fieldNameEq (getlocspec f) (getlocspec g) then 0 else 1) + changes (g :: p))%nat.
  change (length (f :: g :: p)) with (Datatypes.S (length (g :: p))). destruct (fieldNameEq _ _); lia.
Qed.

Lemma changes_cut before f g after : fieldNameEq (getlocspec (default f (last before))) (getlocspec g) = false ->
  before <> [] -> (changes (g :: after) < changes (before ++ g :: after))%nat.
Proof.
  intros H Hne. destruct before as [|f0 before]; [done|]. clear Hne. revert f0 H.
  induction before as [|f1 before IH]; intros f0 H.
  - change (([f0] ++ g :: after)) with (f0 :: g :: after).
    change (changes (f0 :: g :: after)) with ((if fieldNameEq (getlocspec f0) (getlocspec g) then 0 else 1) + changes (g :: after))%nat.
    cbn in H. rewrite H. lia.
  - specialize (IH f1 H). change ((f0 :: f1 :: before) ++ g :: after) with (f0 :: f1 :: before ++ g :: after).
    change (changes (f0 :: f1 :: before ++ g :: after)) with ((if fieldNameEq (getlocspec f0) (getlocspec f1) then 0 else 1) + changes (f1 :: before ++ g :: after))%nat.
    change ((f1 :: before) ++ g :: after) with (f1 :: before ++ g :: after) in IH. lia.
Qed.

(** The state of a rule between rounds: every predicate has a location, the
    first repeats no variable, all but the first are tables. *)
Record located (ts : TableStore) (p : list Parse_Functor) : Prop := mkLocated {
  lo_at : Forall (fun f => is_at (getlocspec f) = true) p;
  lo_first : forall f p', p = f :: p' -> NoDup (var_names (args_ f));
  lo_tables : forall f p', p = f :: p' -> Forall (is_table ts) p'
}.

(** The location of the predicate that is sent is that of its destination. *)
Lemma send_location nm loc (names : list string) : Forall (fun x => unmarked x) names -> NoDup names ->
  is_at loc = true -> unmarked (bare loc) -> existsb (fieldNameEq loc) names = true ->
  getlocspec (Parse_Functor_mk nm (send_arg loc <$> names) None) = loc.
Proof.
  intros Hn Hnd Hat Hb Hex. pose proof (is_at_tail loc Hat) as El.
  assert (Hbare : bare loc = tail_of loc) by (unfold bare; by rewrite Hat).
  assert (Hfe : forall x, x ∈ names -> fieldNameEq loc x = true <-> x = tail_of loc).
  { intros x Hx. rewrite Forall_forall in Hn. rewrite fieldNameEq_bare; [|done|by rewrite bare_unmarked; auto].
    rewrite (bare_unmarked x), Hbare by auto. split; congruence. }
  assert (Hfilter : filter (fun x => fieldNameEq loc x = true) names = [tail_of loc]).
  { apply existsb_exists in Hex as (x & Hx & Ex). apply list_elem_of_In in Hx. apply Hfe in Ex; [|done]. subst x.
    clear Hn El Hat Hb Hbare. induction Hnd as [|y names Hy Hnd IH]; [by apply elem_of_nil in Hx|]. rewrite filter_cons.
    destruct (decide (fieldNameEq loc y = true)) as [Hd|Hd].
    - apply Hfe in Hd; [|by left]. subst y. f_equal. apply filter_none. apply Forall_forall. intros z Hz E.
      apply Hfe in E; [|by right]. subst z. done.
    - apply IH; [|intros z Hz; apply Hfe; by right]. apply elem_of_cons in Hx as [E|]; [|done].
      exfalso. apply Hd, Hfe; [by left|done]. }
  assert (Hloc : find_locspec (send_arg loc <$> names) = loc).
  { unfold find_locspec. rewrite send_locs, Hfilter. cbn. rewrite El at 2. done. }
  unfold getlocspec, Parse_Functor_mk. cbn [loc_ args_]. rewrite Hloc. by destruct (loc =? "")%string.
Qed.

Definition probes (ts : TableStore) (r : Rule) : list Parse_Functor :=
  let '(p, _, _, _) := separate ts (terms r) [] [] false ∅ in p.

Lemma probes_form ts r : probes ts r
  = reverse (filter (fun f => ~ is_table ts f) (functors (terms r))) ++ filter (is_table ts) (functors (terms r)).
Proof.
  unfold probes. destruct (separate _ _ _ _ _ _) as [[[p o] e] l] eqn:E. by apply separate_probes in E as ->.
Qed.

(** A predicate in front of tables stays in front. *)
Lemma probes_front ts id h d g (ps : list Parse_Functor) o : Forall (is_table ts) ps ->
  Forall (fun t => is_functor t = false) o ->
  probes ts (mkRule id h d (TFunctor g :: (TFunctor <$> ps) ++ o)) = g :: ps.
Proof.
  intros Hps Ho. rewrite probes_form. cbn [terms].
  change (functors (TFunctor g :: (TFunctor <$> ps) ++ o)) with (g :: functors ((TFunctor <$> ps) ++ o)).
  rewrite functors_app, functors_fmap, (functors_none o Ho), app_nil_r, !filter_cons.
  rewrite (filter_all (is_table ts) ps Hps).
  rewrite (filter_none (fun f => ~ is_table ts f) ps) by (eapply Forall_impl; [exact Hps|]; tauto).
  destruct (decide (is_table ts g)); [rewrite decide_False by tauto|rewrite decide_True by done]; done.
Qed.

(** A round that cuts the rule leaves one change of location less. *)
Lemma localize_round r ts n1 n2 ts' : localize_step r ts = Ok (Some (n1, n2, ts')) -> rule_ok r ->
  located ts (probes ts r) ->
  located ts' (probes ts' n2) /\ (changes (probes ts' n2) < changes (probes ts r))%nat.
Proof.
  intros Hs Hok [L1 L2 L3]. unfold probes in L1, L2, L3.
  pose proof (localize_step_spec _ _ _ Hs Hok) as (p & o & e & l & b & Esep & Hp & Ho & Hfp & H).
  destruct H as (f0 & bef & f & aft & names & nm & -> & Hat & Hne & Ht & Hex & -> & -> & Hk).
  assert (Epr : probes ts r = (f0 :: bef) ++ f :: aft) by (unfold probes; by rewrite Esep).
  rewrite Esep in L1, L2, L3. specialize (L2 _ _ eq_refl). specialize (L3 _ _ eq_refl).
  change (f0 :: bef ++ f :: aft) with ((f0 :: bef) ++ f :: aft) in Hfp, L1.
  apply Forall_app in L1 as [_ L1]. apply Forall_app in L3 as [_ L3]. apply Forall_app in Hfp as [Hfb Hfa].
  assert (Htab : Forall (is_table ts') (f :: aft)) by (eapply Forall_impl; [exact L3|]; intros g; apply Hk).
  rewrite Epr. cbn [head]. rewrite (probes_front ts' _ _ _ _ (f :: aft) o Htab Ho).
  pose proof (tracked_unmarked _ _ Ht Hfb) as Hun. destruct Ht as [Ht1 Ht2]. specialize (Ht2 _ _ eq_refl L2).
  inversion_clear L1 as [|? ? Lf La]. inversion_clear Hfa as [|? ? [Hb Hfv] _].
  assert (Hsend : getlocspec (Parse_Functor_mk nm (send_arg (getlocspec f) <$> names) None) = getlocspec f)
    by (by apply send_location).
  split.
  - split.
    + constructor; [by rewrite Hsend|]. by constructor.
    + intros g p' [= <- <-]. cbn [Parse_Functor_mk args_]. by rewrite send_names.
    + by intros g p' [= <- <-].
  - set (N := Parse_Functor_mk _ _ _) in *.
    change (changes (N :: f :: aft)) with ((if fieldNameEq (getlocspec N) (getlocspec f) then 0 else 1) + changes (f :: aft))%nat.
    rewrite Hsend, (proj2 (fieldNameEq_bare (getlocspec f) (getlocspec f) Hb Hb) eq_refl).
    apply (changes_cut (f0 :: bef) f0); [|done]. apply not_true_iff_false. intros E.
    assert (Hlast : exists g, default f0 (last (f0 :: bef)) = g /\ g ∈ f0 :: bef).
    { destruct (last (f0 :: bef)) as [g|] eqn:El; [|by apply last_None in El].
      exists g. split; [done|]. by apply last_Some_elem_of in El. }
    destruct Hlast as (g & Eg & Hg). rewrite Eg in E. rewrite Forall_forall in Hat, Hfb.
    destruct (Hfb g Hg) as [Hgb _]. apply (fieldNameEq_bare _ _ Hgb Hb) in E. specialize (Hat g Hg). unfold at_loc in Hat.
    apply not_true_iff_false in Hne. apply Hne. rewrite <- Hat. apply fieldNameEq_bare; [by rewrite bare_unmarked|done|].
    by rewrite bare_unmarked.
Qed.

Lemma find_boundary_fuel ts rest : forall names hn life before cur,
  find_boundary ts names hn life before cur rest <> Fail OutOfFuel.
Proof.
  induction rest as [|g rest IH]; intros; cbn [find_boundary]; [done|].
  destruct (negb _); [|apply IH]. by destruct (getlocspec g).
Qed.

Lemma localize_step_fuel r ts : (forall ti ts, createTable ti fs now sid ts <> Fail OutOfFuel) ->
  localize_step r ts <> Fail OutOfFuel.
Proof.
  intros Hc. unfold localize_step. destruct (separate _ _ _ _ _ _) as [[[p o] e] l].
  destruct p as [|f0 rest]; [done|].
  pose proof (find_boundary_fuel ts rest None (ruleID r) Table2.PosInfin [] f0) as Hf.
  destruct (find_boundary _ _ _ _ _ _ _) as [[[[[[names nm] life] bef] aft]|]|x]; cbn [rbind]; [|done|congruence].
  destruct (negb _); cbn [check rbind]; [|done]. destruct aft as [|g aft]; cbn [of_option rbind lookup list_lookup]; [done|].
  unfold addSendRule. destruct (existsb _ _); cbn [check rbind]; [|done].
  destruct (getTableInfo _ _); [|done]. destruct (decide _); [done|].
  match goal with |- context [createTable ?a fs now sid ?b] => specialize (Hc a b); destruct (createTable a fs now sid b) end;
    cbn [rbind]; [done|congruence].
Qed.

(** C10: localisation terminates.  For a rule with at most one event whose
    predicates all have a location, and whose first predicate repeats no variable,
    as many rounds as there are predicates are enough. *)
Theorem localize_terminates (fuel : nat) (r : Rule) (ts : TableStore) :
  (forall ti ts, createTable ti fs now sid ts <> Fail OutOfFuel) ->
  rule_ok r -> Forall (fun f => is_at (getlocspec f) = true) (functors (terms r)) ->
  (length (filter (fun f => ~ is_table ts f) (functors (terms r))) <= 1)%nat ->
  (forall f p', probes ts r = f :: p' -> NoDup (var_names (args_ f))) ->
  (length (functors (terms r)) < fuel)%nat ->
  emitted fuel r ts <> Fail OutOfFuel.
Proof.
  intros Hc Hok Hat Hev Hfirst Hfuel.
  assert (Hloc : located ts (probes ts r)).
  { split; [|done|].
    - rewrite probes_form. apply Forall_app. split; [apply Forall_reverse|]; by apply Forall_filter.
    - intros f p' E. rewrite probes_form in E.
      destruct (filter (fun f => ~ is_table ts f) (functors (terms r))) as [|g [|g' l]]; [|injection E as <- <-|cbn in Hev; lia].
      + assert (HF : Forall (is_table ts) (filter (is_table ts) (functors (terms r)))).
        { apply Forall_forall. intros x Hx. by apply list_elem_of_filter in Hx as [? _]. }
        cbn in E. rewrite E in HF. by inversion HF.
      + apply Forall_forall. intros x Hx. by apply list_elem_of_filter in Hx as [? _]. }
  assert (Hch : (changes (probes ts r) < fuel)%nat).
  { eapply Nat.le_lt_trans; [apply changes_length|]. rewrite probes_form, length_app, length_reverse.
    eapply Nat.le_lt_trans; [|exact Hfuel]. clear. induction (functors (terms r)) as [|f l IH]; [done|].
    rewrite !filter_cons. destruct (decide (is_table ts f)); [rewrite decide_False by tauto|rewrite decide_True by done]; cbn in *; lia. }
  clear Hat Hev Hfirst Hfuel. revert r ts Hok Hloc Hch.
  induction fuel as [|fuel IH]; intros r ts Hok Hloc Hch; [lia|]. cbn [emitted].
  pose proof (localize_step_fuel r ts Hc) as Hs.
  destruct (localize_step r ts) as [[[[n1 n2] ts1]|]|x] eqn:Es; cbn [rbind]; [|done|congruence].
  destruct (localize_round _ _ _ _ _ Es Hok Hloc) as [Hl2 Hc2]. destruct (localize_step_ok _ _ _ _ _ Es Hok) as [_ Hok2].
  specialize (IH n2 ts1 Hok2 Hl2 ltac:(lia)). destruct (emitted fuel n2 ts1) as [[ts2 rs2]|x]; cbn [rbind]; [done|congruence].
Qed.
End localize.

(** ** Rules that localisation gets wrong *)

(** While the first predicate names no single location and the next one does,
    the rule is cut again and again.  The predicate that is sent repeats the
    variable that names its destination, so both occurrences are marked, and two
    location specifiers count as none. *)
Definition stuck_event (nm : string) : Parse_Functor :=
  mkFunctor nm [Parse_Var "X" false; Parse_Var "Y" true; Parse_Var "Y" true] "".
Definition stuck_table : Parse_Functor := mkFunctor "q" [Parse_Var "Y" true] "@Y".
Definition stuck_store : TableStore :=
  mkStore {[ "q"%string := mkTableInfo "q" Table2.PosInfin 0 [1] ]} ∅ ∅.

(** [r out(@Y) :- e(@X, Y, Y), q(@Y)], with the event [e] and the table [q]. *)
Definition stuck_rule : Rule :=
  mkRule "r" (mkFunctor "out" [Parse_Var "Y" true] "@Y") false
    [TFunctor (Parse_Functor_mk "e" [Parse_Var "X" true; Parse_Var "Y" false; Parse_Var "Y" false] None);
     TFunctor stuck_table].

Section stuck.
Context `{P : Platform} (fs : list tuple) (now sid : Z).

Lemma not_q nm : (1 < String.length nm)%nat -> getTableInfo nm stuck_store = None.
Proof.
  intros Hl. unfold getTableInfo. cbn [ts_infos stuck_store]. apply lookup_singleton_ne. intros <-. cbn in Hl. lia.
Qed.

Lemma stuck_step id h d nm : (1 < String.length nm)%nat ->
  exists n1, localize_step fs now sid (mkRule id h d [TFunctor (stuck_event nm); TFunctor stuck_table]) stuck_store
    = Ok (Some (n1, mkRule (id +:+ "Local2") h false
        [TFunctor (stuck_event ((id +:+ nm) +:+ "Y")); TFunctor stuck_table], stuck_store)).
Proof.
  intros Hl. pose proof (not_q nm Hl) as Hq.
  assert (Es : exists l, separate stuck_store [TFunctor (stuck_event nm); TFunctor stuck_table] [] [] false ∅
    = ([stuck_event nm; stuck_table], [], true, {[l]})).
  { exists "@Y"%string. cbn [separate]. change (fn (stuck_event nm)) with nm. rewrite Hq. reflexivity. }
  assert (Eb : find_boundary stuck_store None id Table2.PosInfin [] (stuck_event nm) [stuck_table]
    = Ok (Some (["X"; "Y"; "Y"]%string, (id +:+ nm) +:+ "Y", Table2.Dur 0, [stuck_event nm], [stuck_table]))).
  { cbn [find_boundary]. change (fn (stuck_event nm)) with nm. rewrite Hq. reflexivity. }
  destruct Es as [l Es]. unfold localize_step. cbn [terms ruleID]. rewrite Es, Eb. cbn [rbind].
  rewrite size_singleton, andb_false_r. cbn [andb negb check rbind of_option lookup list_lookup].
  unfold addSendRule. change (fn (stuck_event nm)) with nm. rewrite Hq.
  eexists. reflexivity.
Qed.

Lemma append_length (a b : string) : String.length (a +:+ b) = (String.length a + String.length b)%nat.
Proof.
  induction a as [|c a IH]; [done|].
  change (String.length (String c a +:+ b)) with (Datatypes.S (String.length (a +:+ b))). rewrite IH. done.
Qed.

Lemma stuck_diverges fuel : forall id h d nm, (1 < String.length nm)%nat ->
  emitted fs now sid fuel (mkRule id h d [TFunctor (stuck_event nm); TFunctor stuck_table]) stuck_store
    = Fail OutOfFuel.
Proof.
  induction fuel as [|fuel IH]; intros id h d nm Hl; [done|]. cbn [emitted].
  destruct (stuck_step id h d nm Hl) as [n1 ->]. cbn [rbind]. rewrite IH; [done|].
  rewrite !append_length. lia.
Qed.

(** Localising such a rule never ends, whatever the number of rounds. *)
Theorem localize_may_diverge (fuel : nat) : emitted fs now sid fuel stuck_rule stuck_store = Fail OutOfFuel.
Proof.
  destruct fuel as [|fuel]; [done|]. cbn [emitted].
  assert (Hs : exists n1, localize_step fs now sid stuck_rule stuck_store
    = Ok (Some (n1, mkRule "rLocal2" (head stuck_rule) false
        [TFunctor (stuck_event "reY"); TFunctor stuck_table], stuck_store))).
  { eexists. reflexivity. }
  destruct Hs as [n1 ->]. cbn [rbind]. rewrite stuck_diverges; [done|]. cbn. lia.
Qed.
End stuck.

(** ** Examples *)

(** [r1 out(@Y, Z) :- p(@X, Y), q(@Y, Z)] over two tables without expiration. *)
Definition two_tables : TableStore :=
  mkStore {[ "p"%string := mkTableInfo "p" Table2.PosInfin 0 [1];
             "q"%string := mkTableInfo "q" Table2.PosInfin 0 [1] ]} ∅ ∅.

Definition sample_rule (id : string) (delete : bool) : Rule :=
  mkRule id (Parse_Functor_mk "out" [Parse_Var "Y" true; Parse_Var "Z" false] None) delete
    [TFunctor (Parse_Functor_mk "p" [Parse_Var "X" true; Parse_Var "Y" false] None);
     TFunctor (Parse_Functor_mk "q" [Parse_Var "Y" true; Parse_Var "Z" false] None)].

Definition sample_localized : list Rule := [
  mkRule "r1Local1" (mkFunctor "r1pY" [Parse_Var "X" false; Parse_Var "Y" true] "@Y") false
    [TFunctor (mkFunctor "p" [Parse_Var "X" true; Parse_Var "Y" false] "@X")];
  mkRule "r1Local2" (mkFunctor "out" [Parse_Var "Y" true; Parse_Var "Z" false] "@Y") false
    [TFunctor (mkFunctor "r1pY" [Parse_Var "X" false; Parse_Var "Y" true] "@Y");
     TFunctor (mkFunctor "q" [Parse_Var "Y" true; Parse_Var "Z" false] "@Y")]].

Abbreviation localized0 r := (emitted (P := bare_platform) [] 0 0 3 r two_tables).

Lemma sample_emitted d : exists ts', localized0 (sample_rule "r1" d) = Ok (ts', sample_localized).
Proof. destruct d; eexists; reflexivity. Qed.

Lemma sample_rule_ok d : rule_ok (sample_rule "r1" d).
Proof. destruct d; repeat constructor. Qed.

Lemma localized_rules_local_witness :
  exists ts', Localize_rewrite (P := bare_platform) [] 0 0 3 [sample_rule "r1" false] two_tables []
    = Ok (ts', sample_localized) /\ Forall local_rule sample_localized.
Proof.
  assert (H : exists ts', Localize_rewrite (P := bare_platform) [] 0 0 3 [sample_rule "r1" false] two_tables []
    = Ok (ts', sample_localized)) by (eexists; reflexivity).
  destruct H as [ts' H]. exists ts'. split; [exact H|].
  apply (localized_rules_local (P := bare_platform) [] 0 0 3 [sample_rule "r1" false] two_tables ts'); [|exact H].
  repeat constructor.
Defined.

(** [p(1, 2)] and [q(2, 3)] hold. *)
Definition sample_db : db := fun nm ws =>
  (nm = "p"%string /\ ws = [VInt64 1; VInt64 2]) \/ (nm = "q"%string /\ ws = [VInt64 2; VInt64 3]).

Definition sample_valuation : valuation := fun x =>
  if decide (x = "X"%string) then VInt64 1 else if decide (x = "Y"%string) then VInt64 2 else VInt64 3.

Lemma localize_meaning_witness :
  exists ts', localized0 (sample_rule "r1" false) = Ok (ts', sample_localized)
    /\ chain (S := bare_sem) sample_db sample_localized [VInt64 2; VInt64 3].
Proof.
  destruct (sample_emitted false) as [ts' H]. exists ts'. split; [exact H|].
  apply (localize_meaning (P := bare_platform) (S := bare_sem) [] 0 0 3 (sample_rule "r1" false) two_tables ts'
    sample_localized sample_db).
  - apply sample_rule_ok.
  - exact H.
  - cbn. apply NoDup_singleton.
  - intros nm Hnm. cbn in Hnm. apply list_elem_of_singleton in Hnm as ->. split.
    + vm_decide.
    + intros ws [[E _]|[E _]]; discriminate E.
  - exists sample_valuation. split.
    + apply Forall_cons. split; [|apply Forall_singleton].
      * exists [VInt64 1; VInt64 2]. split; [repeat constructor|by left].
      * exists [VInt64 2; VInt64 3]. split; [repeat constructor|by right].
    + repeat constructor.
Defined.

Lemma createTable_no_facts ti ts : createTable (P := bare_platform) ti [] 0 0 ts <> Fail OutOfFuel.
Proof.
  unfold createTable. assert (He : exists T, empty_aggregates (new_table ti 0) = Ok T).
  { unfold new_table. destruct (decide _); [destruct (_ =? _)|]; eexists; reflexivity. }
  destruct He as [T He]. destruct (ts_tables ts !! tableName ti) as [old|]; cbn [insert_facts rbind]; by rewrite He.
Qed.

Lemma localize_terminates_witness :
  (length (functors (terms (sample_rule "r1" false))) < 3)%nat /\
  localized0 (sample_rule "r1" false) <> Fail OutOfFuel.
Proof.
  split; [vm_compute; lia|].
  apply (localize_terminates (P := bare_platform) [] 0 0 3 (sample_rule "r1" false) two_tables).
  - apply createTable_no_facts.
  - apply sample_rule_ok.
  - repeat constructor.
  - vm_compute. lia.
  - intros f p' H. assert (E : probes two_tables (sample_rule "r1" false)
      = [Parse_Functor_mk "p" [Parse_Var "X" true; Parse_Var "Y" false] None;
         Parse_Functor_mk "q" [Parse_Var "Y" true; Parse_Var "Z" false] None]) by reflexivity.
    rewrite E in H. injection H as <- <-. cbn. vm_decide.
  - vm_compute. lia.
Defined.

(** The text of a rule does not tell whether it inserts or deletes: of two rules
    without a name, one that inserts and one that deletes the same tuples, only
    the first survives. *)
Definition local_sample (delete : bool) : Rule :=
  mkRule "" (Parse_Functor_mk "out" [Parse_Var "X" true] None) delete
    [TFunctor (Parse_Functor_mk "p" [Parse_Var "X" true] None)].

Theorem localize_conflates :
  Localize_rewrite (P := bare_platform) [] 0 0 1 [local_sample false; local_sample true] two_tables []
    = Ok (two_tables, [local_sample false]).
Proof. reflexivity. Qed.

(** The invented names are not fresh.  In [out(@Y) :- p(@X, Y), pY(@Y, X)], a rule
    without a name, the predicate invented for [p(@X, Y)] is called [pY] as well:
    its tuples end up in the table of the program. *)
Definition capture_rule : Rule :=
  mkRule "" (Parse_Functor_mk "out" [Parse_Var "Y" true] None) false
    [TFunctor (Parse_Functor_mk "p" [Parse_Var "X" true; Parse_Var "Y" false] None);
     TFunctor (Parse_Functor_mk "pY" [Parse_Var "Y" true; Parse_Var "X" false] None)].
Definition capture_store : TableStore :=
  mkStore {[ "p"%string := mkTableInfo "p" Table2.PosInfin 0 [1];
             "pY"%string := mkTableInfo "pY" Table2.PosInfin 0 [1] ]} ∅ ∅.

Theorem localize_captures :
  exists ts' rs, emitted (P := bare_platform) [] 0 0 3 capture_rule capture_store = Ok (ts', rs)
    /\ invented rs = ["pY"%string] /\ "pY"%string ∈ (fn <$> functors (terms capture_rule)).
Proof. do 2 eexists. split; [reflexivity|]. split; [reflexivity|]. vm_decide. Qed.
