(* ===== verification/Eca.v ===== *)
(** * Event-condition-action rules (src/planner/eca_context.C)

    The planner turns every localised rule into rules that wait for one event:
    the arrival of the rule's event tuple, or - for a rule over tables only - the
    insertion, refresh or removal of a tuple of one of them ("delta rules").

    An [ECA_Rule] is built up through pointers to its event and its action, null
    at first ([None] here). *)

From Stdlib Require Import SpecFloat Ascii String.
From S2P Require Import Prelude Ids Stl Values Tuples Aggs Keys CommonTable RefTable Table2 Xdr Casts Oper Overlog Rules.

Local Open Scope p2_scope.

(** [Parse_Event::Event], [Parse_Action::Action] *)
Module PEvent.
Inductive Event := INSERT | DELETE | RECV | REFRESH.
End PEvent.
Module PAction.
Inductive Action := SEND | ADD | DELETE | DROP.
End PAction.

Record ECA_Rule := mkECA {
  eca_ruleID : string;
  eca_event : option (Parse_Functor * PEvent.Event);
  eca_action : option (Parse_Functor * PAction.Action);
  eca_probeTerms : list Parse_Functor;
  eca_selectAssignTerms : list Parse_Term;
  eca_aggWrap : bool
}.

(** [ECA_Rule::ECA_Rule] *)
Definition ECA_Rule_mk (r : string) : ECA_Rule := mkECA r None None [] [] false.

Definition set_event (f : Parse_Functor) (e : PEvent.Event) (x : ECA_Rule) : ECA_Rule :=
  mkECA (eca_ruleID x) (Some (f, e)) (eca_action x) (eca_probeTerms x) (eca_selectAssignTerms x) (eca_aggWrap x).
Definition set_action (f : Parse_Functor) (a : PAction.Action) (x : ECA_Rule) : ECA_Rule :=
  mkECA (eca_ruleID x) (eca_event x) (Some (f, a)) (eca_probeTerms x) (eca_selectAssignTerms x) (eca_aggWrap x).
Definition add_probe (f : Parse_Functor) (x : ECA_Rule) : ECA_Rule :=
  mkECA (eca_ruleID x) (eca_event x) (eca_action x) (eca_probeTerms x ++ [f]) (eca_selectAssignTerms x) (eca_aggWrap x).
Definition add_other (t : Parse_Term) (x : ECA_Rule) : ECA_Rule :=
  mkECA (eca_ruleID x) (eca_event x) (eca_action x) (eca_probeTerms x) (eca_selectAssignTerms x ++ [t]) (eca_aggWrap x).
Definition set_aggWrap (x : ECA_Rule) : ECA_Rule :=
  mkECA (eca_ruleID x) (eca_event x) (eca_action x) (eca_probeTerms x) (eca_selectAssignTerms x) true.

Section eca.
Context `{P : Platform}.

(** ** Text *)

(** [Parse_Event::toString], [Parse_Action::toString] *)
Definition Event_toString (e : Parse_Functor * PEvent.Event) : res string :=
  let? s := Functor_toString (fst e) in
  Ok (match snd e with
      | PEvent.RECV => "EVENT_RECV<" | PEvent.INSERT => "EVENT_INSERT<"
      | PEvent.DELETE => "EVENT_DELETE<" | PEvent.REFRESH => "EVENT_REFRESH<"
      end +:+ s +:+ ">").
Definition Action_toString (a : Parse_Functor * PAction.Action) : res string :=
  let? s := Functor_toString (fst a) in
  Ok (match snd a with
      | PAction.SEND => "ACTION_SEND<" | PAction.ADD => "ACTION_ADD<"
      | PAction.DELETE => "ACTION_DELETE<" | PAction.DROP => "ACTION_DROP<"
      end +:+ s +:+ ">").

(** [ECA_Rule::toRuleString] *)
Definition toRuleString (x : ECA_Rule) : res string :=
  let? action := of_option UndefinedBehaviour (eca_action x) in
  let? a := Action_toString action in
  let? e := match eca_event x with
            | Some e =>
                let? s := Event_toString e in
                Ok (s +:+ match eca_probeTerms x, eca_selectAssignTerms x with [], [] => "." | _, _ => ", " end)
            | None => Ok ""
            end in
  let? p := match eca_probeTerms x with
            | [] => Ok ""
            | ps => let? s := joined Functor_toString ps in
                    Ok (s +:+ match eca_selectAssignTerms x with [] => "." | _ => ", " end)
            end in
  let? t := match eca_selectAssignTerms x with
            | [] => Ok ""
            | ts => let? s := joined Term_toString ts in Ok (s +:+ ".")
            end in
  Ok (a +:+ " :- " +:+ e +:+ p +:+ t).

(** [ECA_Rule::toString] *)
Definition ECA_toString (x : ECA_Rule) : res string :=
  let? s := toRuleString x in Ok ("ECA Rule " +:+ eca_ruleID x +:+ " " +:+ s).

(** [ECA_Context::add_rule] *)
Fixpoint eca_has_text (xs : list ECA_Rule) (x : ECA_Rule) : res bool :=
  match xs with
  | [] => Ok false
  | y :: xs' =>
      let? s' := toRuleString y in
      let? s := toRuleString x in
      if (s' =? s)%string then Ok true else eca_has_text xs' x
  end.
Definition eca_add_rule (x : ECA_Rule) (L : list ECA_Rule) : res (list ECA_Rule) :=
  let? known := eca_has_text L x in
  Ok (if known then L else L ++ [x]).

Fixpoint eca_add_all (xs L : list ECA_Rule) : res (list ECA_Rule) :=
  match xs with
  | [] => Ok L
  | x :: xs' => let? L := eca_add_rule x L in eca_add_all xs' L
  end.

(** ** Heads *)

(** [new Parse_Functor(name, rule->head->args_, loc)]: the head under another
    name. *)
Definition renamed (h : Parse_Functor) (nm : string) : Parse_Functor :=
  Parse_Functor_mk nm (args_ h) (Some (getlocspec h)).

(** [!rule->head->getlocspec().empty() && fieldNameEq(...)] *)
Definition head_is_at (h : Parse_Functor) (loc : string) : bool :=
  negb (getlocspec h =? "")%string && fieldNameEq (getlocspec h) loc.

Definition store_action (r : Rule) : PAction.Action := if deleteFlag r then PAction.DELETE else PAction.ADD.

(** [ECA_Context::generateActionHead]: the rule with its action, and the rules
    it hands to [add_rule]. *)
Definition generateActionHead (r : Rule) (bodyLoc : string) (ts : TableStore) (x : ECA_Rule)
    : ECA_Rule * list ECA_Rule :=
  match getTableInfo (fn (head r)) ts with
  | None => (set_action (head r) PAction.SEND x, [])
  | Some _ =>
      if head_is_at (head r) bodyLoc then (set_action (head r) (store_action r) x, [])
      else
        let sendFunctor := renamed (head r) (ruleID r +:+ fn (head r) +:+ "send") in
        let mat := set_action (head r) (store_action r)
                     (set_event sendFunctor PEvent.RECV (ECA_Rule_mk (ruleID r +:+ "ECAMat"))) in
        (set_action sendFunctor PAction.SEND x, [mat])
  end.

(** ** Rules with an event *)

(** The loop of [ECA_Context::rewriteEventRule] over the terms: the rule so far,
    the location of the body, and the rules handed to [add_rule]. *)
Fixpoint event_terms (ts : TableStore) (prefix : string) (l : list Parse_Term) (x : ECA_Rule) (bodyloc : string)
    : res (ECA_Rule * string * list ECA_Rule) :=
  match l with
  | [] => Ok (x, bodyloc, [])
  | TFunctor f :: l' =>
      let bodyloc := getlocspec f in
      match getTableInfo (fn f) ts with
      | Some _ => event_terms ts prefix l' (add_probe f x) bodyloc
      | None =>
          if (fn f =? "periodic")%string then
            let periodicRuleID := prefix +:+ "periodic" in
            let? a0 := of_option OutOfRange (args_ f !! 0%nat) in
            let? a1 := of_option OutOfRange (args_ f !! 1%nat) in
            let g := Parse_Functor_mk periodicRuleID [a0; a1] (Some (getlocspec f)) in
            let x1 := set_event f PEvent.INSERT (set_action g PAction.SEND (ECA_Rule_mk periodicRuleID)) in
            let? (x, bodyloc, added) := event_terms ts prefix l' (set_event g PEvent.RECV x) bodyloc in
            Ok (x, bodyloc, x1 :: added)
          else event_terms ts prefix l' (set_event f PEvent.RECV x) bodyloc
      end
  | (TSelect _ | TAssign _ _) as t :: l' => event_terms ts prefix l' (add_other t x) bodyloc
  | TAggTerm _ _ _ _ :: l' => event_terms ts prefix l' x bodyloc
  end.

(** The rules [ECA_Context::rewriteEventRule] hands to [add_rule], in order. *)
Definition event_rules (r : Rule) (ts : TableStore) : res (list ECA_Rule) :=
  let prefix := ruleID r +:+ "_eca" in
  let? (x, bodyloc, added) := event_terms ts prefix (terms r) (ECA_Rule_mk prefix) "" in
  let '(x, mat) := generateActionHead r bodyloc ts x in
  let x := if Functor_aggregate (head r) is Some _ then set_aggWrap x else x in
  Ok (added ++ mat ++ [x]).

Definition rewriteEventRule (r : Rule) (ts : TableStore) (L : list ECA_Rule) : res (list ECA_Rule) :=
  let? xs := event_rules r ts in eca_add_all xs L.

(** ** Rules over tables only *)

(** [tableInfo == NULL || tableInfo->timeout != NO_EXPIRATION] *)
Definition soft (ts : TableStore) (nm : string) : bool :=
  match getTableInfo nm ts with
  | None => true
  | Some ti => negb (bool_decide (timeout ti = NO_EXPIRATION))
  end.

Definition softStateRule (r : Rule) (ts : TableStore) : bool :=
  existsb (fun t => match t with TFunctor f => soft ts (fn f) | _ => false end) (terms r)
  || soft ts (fn (head r)).

(** The other terms of a delta rule. *)
Definition with_others (others : list Parse_Term) (x : ECA_Rule) : ECA_Rule :=
  mkECA (eca_ruleID x) (eca_event x) (eca_action x)
    (omap (fun t => match t with TFunctor f => Some f | _ => None end) others)
    (omap (fun t => match t with TSelect _ | TAssign _ _ => Some t | _ => None end) others) (eca_aggWrap x).

(** The delta rules of the [count]-th term, the predicate [f], in the order in
    which [ECA_Context::rewriteViewRule] hands them to [add_rule]. *)
Definition delta_rules (r : Rule) (ts : TableStore) (count : nat) (f : Parse_Functor) : list ECA_Rule :=
  let h := head r in
  let id := ruleID r +:+ "Eca" +:+ dec_string (Z.of_nat count) in
  let deleteFunctor := renamed h (fn h +:+ "delete") in
  let sendFunctor := renamed h (ruleID r +:+ fn h +:+ "send") in
  let softPredicate := soft ts (fn f) in
  let softRule := softStateRule r ts in
  let table := if getTableInfo (fn h) ts is Some _ then true else false in
  let others := take count (terms r) ++ drop (S count) (terms r) in
  let delta suffix ev g a :=
    with_others others (set_action g a (set_event f ev (ECA_Rule_mk (id +:+ suffix)))) in
  let remote suffix g a := set_action h a (set_event g PEvent.RECV (ECA_Rule_mk (id +:+ "Remote" +:+ suffix))) in
  let '(ins, del, stores) :=
    if head_is_at h (getlocspec f) then
      if table then ((h, PAction.ADD), (h, PAction.DELETE), [])
      else ((h, PAction.SEND), (deleteFunctor, PAction.SEND), [])
    else if table then
      ((sendFunctor, PAction.SEND), (deleteFunctor, PAction.SEND),
       [remote "Ins" sendFunctor PAction.ADD]
         ++ (if softPredicate then [remote "Ref" sendFunctor PAction.ADD] else [])
         ++ (if softRule then [] else [remote "Del" deleteFunctor PAction.DELETE]))
    else ((h, PAction.SEND), (deleteFunctor, PAction.SEND), []) in
  stores
    ++ [delta "Ins" PEvent.INSERT (fst ins) (snd ins)]
    ++ (if softPredicate then [delta "Ref" PEvent.REFRESH (fst ins) (snd ins)] else [])
    ++ (if softRule then [] else [delta "Del" PEvent.DELETE (fst del) (snd del)]).

(** The loop of [ECA_Context::rewriteViewRule] over the terms. *)
Fixpoint view_rules_from (r : Rule) (ts : TableStore) (count : nat) (l : list Parse_Term) : list ECA_Rule :=
  match l with
  | [] => []
  | TFunctor f :: l' => delta_rules r ts count f ++ view_rules_from r ts (S count) l'
  | _ :: l' => view_rules_from r ts (S count) l'
  end.
Definition view_rules (r : Rule) (ts : TableStore) : list ECA_Rule := view_rules_from r ts 0 (terms r).

Definition rewriteViewRule (r : Rule) (ts : TableStore) (L : list ECA_Rule) : res (list ECA_Rule) :=
  eca_add_all (view_rules r ts) L.

(** [ECA_Context::rewriteAggregateView] *)
Definition rewriteAggregateView (r : Rule) (ts : TableStore) (L : list ECA_Rule) : res (list ECA_Rule) :=
  match terms r with
  | [TFunctor f] =>
      let x := set_event f PEvent.INSERT (ECA_Rule_mk (ruleID r +:+ "eca")) in
      let '(x, mat) := generateActionHead r (getlocspec f) ts x in
      eca_add_all (mat ++ [x]) L
  | _ => Fail Exited
  end.

(** ** All rules *)

(** The number of events in a body. *)
Fixpoint countEvents (ts : TableStore) (l : list Parse_Term) : nat :=
  match l with
  | [] => 0
  | TFunctor f :: l' => (if getTableInfo (fn f) ts is Some _ then 0 else 1) + countEvents ts l'
  | _ :: l' => countEvents ts l'
  end.

Definition rewrite_one (r : Rule) (ts : TableStore) (L : list ECA_Rule) : res (list ECA_Rule) :=
  let n := countEvents ts (terms r) in
  if (1 <? n)%nat then Fail Exited
  else if (n =? 0)%nat then
    match Functor_aggregate (head r) with
    | Some _ => rewriteAggregateView r ts L
    | None => rewriteViewRule r ts L
    end
  else rewriteEventRule r ts L.

Fixpoint rewrite_rules (rs : list Rule) (ts : TableStore) (L : list ECA_Rule) : res (list ECA_Rule) :=
  match rs with
  | [] => Ok L
  | r :: rs' => let? L := rewrite_one r ts L in rewrite_rules rs' ts L
  end.

(** [ECA_Context::receiveWatchStubRule], [insertWatchStubRule],
    [deleteWatchStubRule], [refreshWatchStubRule] *)
Definition watchStub (watchedName suffix : string) (e : PEvent.Event) : ECA_Rule :=
  let f := Parse_Functor_mk watchedName [Parse_Var "A" true] None in
  set_action f PAction.DROP (set_event f e (ECA_Rule_mk (watchedName +:+ suffix))).
Definition receiveWatchStubRule (n : string) : ECA_Rule := watchStub n "_watchStub" PEvent.RECV.
Definition insertWatchStubRule (n : string) : ECA_Rule := watchStub n "_insertWatchStub" PEvent.INSERT.
Definition deleteWatchStubRule (n : string) : ECA_Rule := watchStub n "_deleteWatchStub" PEvent.DELETE.
Definition refreshWatchStubRule (n : string) : ECA_Rule := watchStub n "_refreshWatchStub" PEvent.REFRESH.

(** Is the modifier given?  No modifiers stand for all of them. *)
Fixpoint in_modifiers (c : ascii) (s : string) : bool :=
  match s with
  | EmptyString => false
  | String d s' => Ascii.eqb c d || in_modifiers c s'
  end.
Definition modifier (c : ascii) (mods : string) : bool := (mods =? "")%string || in_modifiers c mods.

(** Does a rule wait for the reception of the watched tuple? *)
Fixpoint receives (watchedName : string) (xs : list ECA_Rule) : res bool :=
  match xs with
  | [] => Ok false
  | x :: xs' =>
      let? e := of_option UndefinedBehaviour (eca_event x) in
      match snd e with
      | PEvent.RECV => if (fn (fst e) =? watchedName)%string then Ok true else receives watchedName xs'
      | _ => receives watchedName xs'
      end
  end.

Fixpoint watch_receptions (ws : list (string * string)) (L : list ECA_Rule) : res (list ECA_Rule) :=
  match ws with
  | [] => Ok L
  | (nm, mods) :: ws' =>
      let? L :=
        if modifier "c" mods then
          let? found := receives nm L in
          if found : bool then Ok L else eca_add_rule (receiveWatchStubRule nm) L
        else Ok L in
      watch_receptions ws' L
  end.

Fixpoint watch_tables (ws : list (string * string)) (ts : TableStore) (L : list ECA_Rule) : res (list ECA_Rule) :=
  match ws with
  | [] => Ok L
  | (nm, mods) :: ws' =>
      let? L :=
        match getTableInfo nm ts with
        | None => Ok L
        | Some _ =>
            eca_add_all ((if modifier "i" mods then [insertWatchStubRule nm] else [])
                     ++ (if modifier "d" mods then [deleteWatchStubRule nm] else [])
                     ++ (if modifier "r" mods then [refreshWatchStubRule nm] else [])) L
        end in
      watch_tables ws' ts L
  end.

(** [ECA_Context::rewrite] *)
Definition ECA_rewrite (rs : list Rule) (watches : list (string * string)) (ts : TableStore)
    (L : list ECA_Rule) : res (list ECA_Rule) :=
  let? L := rewrite_rules rs ts L in
  let? L := watch_receptions watches L in
  watch_tables watches ts L.
End eca.

(** ** What an event makes a rule derive *)

Section firing.
Context `{S : ExprSem}.

(** On the event [e] for the tuple [us] of the predicate [nm], with the database
    [D], the rule does the action [a] with the tuple [vs] of the predicate [to]. *)
Definition fires (D : db) (x : ECA_Rule) (e : PEvent.Event) (nm : string) (us : list value)
    (a : PAction.Action) (to : string) (vs : list value) : Prop :=
  exists σ f g, eca_event x = Some (f, e) /\ eca_action x = Some (g, a) /\ fn f = nm /\ fn g = to
    /\ args_match σ (args_ f) us
    /\ Forall (term_holds D σ) (TFunctor <$> eca_probeTerms x) /\ Forall (term_holds D σ) (eca_selectAssignTerms x)
    /\ args_match σ (args_ g) vs.

(** The database with one more tuple. *)
Definition plus (D : db) (nm : string) (us : list value) : db :=
  fun n ws => D n ws \/ (n = nm /\ ws = us).

(** The rules [xs] do the action [a] on the event: at once, or - when the tuple
    belongs elsewhere - by sending it as [relay], whose reception, whatever the
    tables there hold, makes another of them do the action. *)
Definition act (D : db) (xs : list ECA_Rule) (e : PEvent.Event) (nm : string) (us : list value)
    (here : bool) (relay : string) (a : PAction.Action) (to : string) (vs : list value) : Prop :=
  if here then exists x, x ∈ xs /\ fires D x e nm us a to vs
  else exists x y, x ∈ xs /\ y ∈ xs /\ fires D x e nm us PAction.SEND relay vs
    /\ forall D', fires D' y PEvent.RECV relay vs a to vs.

(** What a rule does on the event, in one step. *)
Definition step_of (here : bool) (relay : string) (a : PAction.Action) (to : string) : PAction.Action * string :=
  if here then (a, to) else (PAction.SEND, relay).

Lemma args_match_det σ args vs ws : args_match σ args vs -> args_match σ args ws -> vs = ws.
Proof.
  intros H. revert ws. induction H as [|e v args vs He _ IH]; intros ws Hw; inversion Hw; subst; [done|].
  f_equal; [congruence|by apply IH].
Qed.

(** A rule that does [a] with the tuple it receives. *)
Record passes_on (y : ECA_Rule) (relay : string) (h : Parse_Functor) (a : PAction.Action) : Prop := mkPassesOn {
  po_event : exists g, eca_event y = Some (g, PEvent.RECV) /\ fn g = relay /\ args_ g = args_ h;
  po_action : eca_action y = Some (h, a);
  po_probes : eca_probeTerms y = [];
  po_others : eca_selectAssignTerms y = []
}.
Lemma relay_fires D y relay h a σ vs : passes_on y relay h a -> args_match σ (args_ h) vs ->
  fires D y PEvent.RECV relay vs a (fn h) vs.
Proof.
  intros [(g & H1 & H2 & H3) H4 H5 H6] Hσ. exists σ, g, h. rewrite H3, H5, H6. split_and!; done.
Qed.

(** The terms a rule with conditions can have. *)
Definition plain_term (t : Parse_Term) : bool := match t with TAggTerm _ _ _ _ => false | _ => true end.

Lemma holds_plus D nm us σ t : term_holds (plus D nm us) σ t <->
  term_holds D σ t \/ exists f, t = TFunctor f /\ fn f = nm /\ args_match σ (args_ f) us.
Proof.
  destruct t as [f|x e|e|a b c d]; cbn [term_holds]; [|split; [by left|by intros [|(f & [=] & _)]]..].
  split.
  - intros (ws & Hm & [HD|[E1 E2]]); [left; by exists ws|]. right. exists f. by subst.
  - intros [(ws & Hm & HD)|(g & [= <-] & Hn & Hm)]; [exists ws|exists us]; (split; [done|]); [by left|by right].
Qed.

(** Either the whole body holds without the new tuple or one predicate is the
    new tuple. *)
Lemma Forall_plus D nm us σ ts : Forall (term_holds (plus D nm us) σ) ts ->
  Forall (term_holds D σ) ts \/ exists i f, ts !! i = Some (TFunctor f) /\ fn f = nm /\ args_match σ (args_ f) us.
Proof.
  induction 1 as [|t ts Ht Hts IH]; [by left|]. apply holds_plus in Ht as [Ht|(f & -> & Hn & Hm)].
  - destruct IH as [IH|(i & f & H)]; [left; by constructor|]. right. by exists (Datatypes.S i), f.
  - right. by exists O, f.
Qed.

Lemma holds_mono D nm us σ t : term_holds D σ t -> term_holds (plus D nm us) σ t.
Proof. intros H. apply holds_plus. by left. Qed.

(** The conditions of a delta rule are the other terms of the body. *)
Lemma others_hold D σ others : Forall (fun t => plain_term t = true) others ->
  Forall (term_holds D σ) (TFunctor <$> omap (fun t => match t with TFunctor f => Some f | _ => None end) others)
  /\ Forall (term_holds D σ) (omap (fun t => match t with TSelect _ | TAssign _ _ => Some t | _ => None end) others)
  <-> Forall (term_holds D σ) others.
Proof.
  induction 1 as [|t others Ht Ho IH]; [by split|]. rewrite Forall_cons, <- IH.
  destruct t; try done; cbn [omap list_omap]; rewrite ?fmap_cons, ?Forall_cons; tauto.
Qed.
End firing.

(** ** Delta rules *)

Section delta.
Context `{P : Platform} `{S : ExprSem}.

Lemma view_rules_from_elem r ts x l : forall count, x ∈ view_rules_from r ts count l <->
  exists i f, l !! i = Some (TFunctor f) /\ x ∈ delta_rules r ts (count + i) f.
Proof.
  induction l as [|t l IH]; intros count; cbn [view_rules_from].
  { rewrite elem_of_nil. split; [done|]. by intros (i & f & H & _). }
  assert (Hshift : (exists i f, l !! i = Some (TFunctor f) /\ x ∈ delta_rules r ts (Datatypes.S count + i) f)
    <-> (exists i f, (t :: l) !! Datatypes.S i = Some (TFunctor f) /\ x ∈ delta_rules r ts (count + Datatypes.S i) f)).
  { split; intros (i & f & H1 & H2); exists i, f; (split; [done|]);
      by replace (Datatypes.S count + i)%nat with (count + Datatypes.S i)%nat in * by lia. }
  destruct t as [g| | |]; rewrite ?elem_of_app, IH, Hshift; split.
  - intros [Hx|(i & f & H)]; [exists O, g; rewrite Nat.add_0_r; by split|by exists (Datatypes.S i), f].
  - intros ([|i] & f & H1 & H2); [left|right; by exists i, f]. injection H1 as <-. by rewrite Nat.add_0_r in H2.
  - intros (i & f & H). by exists (Datatypes.S i), f.
  - intros ([|i] & f & H1 & H2); [done|by exists i, f].
  - intros (i & f & H). by exists (Datatypes.S i), f.
  - intros ([|i] & f & H1 & H2); [done|by exists i, f].
  - intros (i & f & H). by exists (Datatypes.S i), f.
  - intros ([|i] & f & H1 & H2); [done|by exists i, f].
Qed.

(** What the delta rules are for: the head is added or removed where it lives if
    it is a table, and sent if it is not. *)
Definition send_name (r : Rule) : string := ruleID r +:+ fn (head r) +:+ "send".
Definition delete_name (r : Rule) : string := fn (head r) +:+ "delete".
Definition is_stored (ts : TableStore) (nm : string) : bool := if getTableInfo nm ts is Some _ then true else false.
Definition at_home (r : Rule) (ts : TableStore) (home : bool) : bool := negb (is_stored ts (fn (head r))) || home.
Definition insert_action (r : Rule) (ts : TableStore) : PAction.Action :=
  if is_stored ts (fn (head r)) then PAction.ADD else PAction.SEND.
Definition insert_step (r : Rule) (ts : TableStore) (home : bool) : PAction.Action * string :=
  step_of (at_home r ts home) (send_name r) (insert_action r ts) (fn (head r)).
Definition delete_step (r : Rule) (ts : TableStore) (home : bool) : PAction.Action * string :=
  if is_stored ts (fn (head r)) then step_of home (delete_name r) PAction.DELETE (fn (head r))
  else (PAction.SEND, delete_name r).

(** A delta rule for the [i]-th term [f], on the event [e]. *)
Record delta_for (r : Rule) (i : nat) (f : Parse_Functor) (e : PEvent.Event) (st : PAction.Action * string) (x : ECA_Rule)
    : Prop := mkDeltaFor {
  df_event : eca_event x = Some (f, e);
  df_action : exists g, eca_action x = Some (g, fst st) /\ fn g = snd st /\ args_ g = args_ (head r);
  df_probe : eca_probeTerms x = omap (fun t => match t with TFunctor f => Some f | _ => None end)
    (take i (terms r) ++ drop (Datatypes.S i) (terms r));
  df_other : eca_selectAssignTerms x = omap (fun t => match t with TSelect _ | TAssign _ _ => Some t | _ => None end)
    (take i (terms r) ++ drop (Datatypes.S i) (terms r))
}.

Local Abbreviation home r f := (head_is_at (head r) (getlocspec f)).

Ltac a_delta := split; [reflexivity|eexists; split_and!; reflexivity|reflexivity|reflexivity].
Ltac delta_cases r ts f :=
  unfold delta_rules, insert_step, delete_step, step_of, at_home, insert_action, is_stored in *;
  destruct (home r f), (getTableInfo (fn (head r)) ts); cbn [negb orb] in *.

(** The delta rules of a term: the one for insertions always, the one for
    refreshes when the predicate is soft state, the one for removals when the
    rule is hard state; and those that store what others sent. *)
Lemma delta_rules_elem r ts i f x : x ∈ delta_rules r ts i f ->
  (exists g, eca_event x = Some (g, PEvent.RECV)) \/ delta_for r i f PEvent.INSERT (insert_step r ts (home r f)) x
  \/ (soft ts (fn f) = true /\ delta_for r i f PEvent.REFRESH (insert_step r ts (home r f)) x)
  \/ (softStateRule r ts = false /\ delta_for r i f PEvent.DELETE (delete_step r ts (home r f)) x).
Proof.
  delta_cases r ts f; destruct (soft ts (fn f)), (softStateRule r ts); cbn [app]; intros Hx;
    repeat (apply elem_of_cons in Hx as [->|Hx]; [
      first [ left; eexists; reflexivity
            | right; left; a_delta
            | right; right; left; split; [done|]; a_delta
            | right; right; right; split; [done|]; a_delta ]|]);
    by apply elem_of_nil in Hx.
Qed.

Lemma delta_rules_insert r ts i f :
  exists x, x ∈ delta_rules r ts i f /\ delta_for r i f PEvent.INSERT (insert_step r ts (home r f)) x.
Proof.
  delta_cases r ts f; eexists;
    (split; [apply elem_of_app; right; apply elem_of_app; left; by left|]); a_delta.
Qed.

Lemma delta_rules_delete r ts i f : softStateRule r ts = false ->
  exists x, x ∈ delta_rules r ts i f /\ delta_for r i f PEvent.DELETE (delete_step r ts (home r f)) x.
Proof.
  intros Hs. delta_cases r ts f; rewrite Hs; eexists;
    (split; [apply elem_of_app; right; apply elem_of_app; right; apply elem_of_app; right; by left|]); a_delta.
Qed.

(** When the head lives elsewhere, the rules there store what is sent. *)
Lemma delta_rules_relay r ts i f : at_home r ts (home r f) = false ->
  insert_action r ts = PAction.ADD
  /\ (exists y, y ∈ delta_rules r ts i f /\ passes_on y (send_name r) (head r) PAction.ADD)
  /\ (softStateRule r ts = false -> exists y, y ∈ delta_rules r ts i f /\ passes_on y (delete_name r) (head r) PAction.DELETE).
Proof.
  intros H. delta_cases r ts f; try done. split_and!; [done| |].
  - eexists. split; [apply elem_of_app; left; apply elem_of_app; left; by left|].
    split; [eexists; split_and!; reflexivity|reflexivity..].
  - intros ->. eexists. split; [apply elem_of_app; left; apply elem_of_app; right; apply elem_of_app; right; by left|].
    split; [eexists; split_and!; reflexivity|reflexivity..].
Qed.

Lemma Forall_others {A} (Q : A -> Prop) l i t : l !! i = Some t ->
  Forall Q l <-> Q t /\ Forall Q (take i l ++ drop (Datatypes.S i) l).
Proof.
  intros H. rewrite <- (take_drop_middle l i t H) at 1. rewrite !Forall_app, Forall_cons. tauto.
Qed.

(** A delta rule fires on the derivations in which the event is the [i]-th
    predicate. *)
Lemma delta_fires D r i f e st x nm us a to vs : Forall (fun t => plain_term t = true) (terms r) ->
  terms r !! i = Some (TFunctor f) -> delta_for r i f e st x ->
  fires D x e nm us a to vs <-> (a, to) = st /\ exists σ, fn f = nm /\ args_match σ (args_ f) us
    /\ Forall (term_holds D σ) (take i (terms r) ++ drop (Datatypes.S i) (terms r)) /\ args_match σ (args_ (head r)) vs.
Proof.
  intros Hpl Hi [H1 (g & H2 & H2n & H2') H3 H4]. pose proof Hpl as Hpl'. rewrite (Forall_others _ _ _ _ Hi) in Hpl'.
  destruct Hpl' as [_ Ho]. destruct st as [a0 to0]. cbn in *. split.
  - intros (σ & f' & g' & E1 & E2 & Hn & Hn' & Hm & Hp & Hs & Hv). rewrite H1 in E1. rewrite H2 in E2.
    injection E1 as <-. injection E2 as <- <-. split; [by rewrite <- Hn', H2n|]. exists σ.
    split_and!; [done|done| |by rewrite <- H2']. apply others_hold; [done|]. by rewrite <- H3, <- H4.
  - intros ([= -> ->] & σ & Hn & Hm & Ho' & Hv). exists σ, f, g.
    apply others_hold in Ho' as [Hp Hs]; [|done]. rewrite H3, H4, H2'. split_and!; done.
Qed.

(** The rules of a view that fire on an insertion or a removal are delta rules. *)
Lemma view_fires D r ts x e nm us a to vs : x ∈ view_rules r ts -> fires D x e nm us a to vs ->
  match e with
  | PEvent.INSERT => exists i f, terms r !! i = Some (TFunctor f) /\ delta_for r i f e (insert_step r ts (home r f)) x
  | PEvent.DELETE => exists i f, terms r !! i = Some (TFunctor f) /\ delta_for r i f e (delete_step r ts (home r f)) x
  | _ => True
  end.
Proof.
  intros Hx (σ & f' & g & E1 & _). apply view_rules_from_elem in Hx as (i & f & Hi & Hx). cbn in Hx.
  destruct (delta_rules_elem _ _ _ _ _ Hx) as [(g' & E)|[E|[[_ E]|[_ E]]]]; try (pose proof (df_event _ _ _ _ _ _ E));
    destruct e; try congruence; try done; exists i, f; done.
Qed.

(** One delta rule and, where the head is remote, the rule that stores it. *)
Lemma delta_acts D r ts i f e st x nm us here relay a vs : Forall (fun t => plain_term t = true) (terms r) ->
  terms r !! i = Some (TFunctor f) -> x ∈ delta_rules r ts i f -> delta_for r i f e st x ->
  st = step_of here relay a (fn (head r)) ->
  (here = false -> exists y, y ∈ delta_rules r ts i f /\ passes_on y relay (head r) a) ->
  (exists σ, fn f = nm /\ args_match σ (args_ f) us
    /\ Forall (term_holds D σ) (take i (terms r) ++ drop (Datatypes.S i) (terms r)) /\ args_match σ (args_ (head r)) vs) ->
  act D (view_rules r ts) e nm us here relay a (fn (head r)) vs.
Proof.
  intros Hpl Hi Hx Hdf -> Hrel Hσ. unfold act, step_of, view_rules in *.
  assert (Hin : forall y, y ∈ delta_rules r ts i f -> y ∈ view_rules_from r ts 0 (terms r))
    by (intros y Hy; apply view_rules_from_elem; by exists i, f).
  destruct here.
  - exists x. split; [by apply Hin|]. by apply (delta_fires _ _ _ _ _ _ _ _ _ _ _ _ Hpl Hi Hdf).
  - destruct (Hrel eq_refl) as (y & Hy & Hpo). exists x, y. split_and!; [by apply Hin..| |].
    + by apply (delta_fires _ _ _ _ _ _ _ _ _ _ _ _ Hpl Hi Hdf).
    + destruct Hσ as (σ & _ & _ & _ & Hv). intros D'. by eapply relay_fires.
Qed.

(** What a rule does on an event is one step of what the rules together do. *)
Lemma act_step D xs e nm us here relay a to vs : act D xs e nm us here relay a to vs ->
  exists x, x ∈ xs /\ fires D x e nm us (fst (step_of here relay a to)) (snd (step_of here relay a to)) vs.
Proof. unfold act, step_of. destruct here; [done|]. intros (x & y & Hx & _ & Hf & _). by exists x. Qed.

(** C11: the insertion delta rules are complete and sound.  Take a rule over tables
    whose predicates agree on whether the head is at their location.  After the
    insertion of a tuple it derives what it derived before and what its insertion
    rules bring about on that event, no more and no less: they add the head to its
    table - at once when the table is at the location of the body, otherwise by a
    message whose reception adds it - or send it when it is no table.  And no rule
    does anything else on the event. *)
Theorem view_delta_correct (r : Rule) (ts : TableStore) (h : bool) (D : db) (nm : string) (us vs : list value) :
  Forall (fun t => plain_term t = true) (terms r) ->
  (forall f, TFunctor f ∈ terms r -> head_is_at (head r) (getlocspec f) = h) ->
  (rule_derives (plus D nm us) r vs <->
   rule_derives D r vs
   \/ act (plus D nm us) (view_rules r ts) PEvent.INSERT nm us (at_home r ts h) (send_name r) (insert_action r ts) (fn (head r)) vs)
  /\ forall x a to, x ∈ view_rules r ts -> fires (plus D nm us) x PEvent.INSERT nm us a to vs ->
       (a, to) = insert_step r ts h /\ rule_derives (plus D nm us) r vs.
Proof.
  intros Hpl Hh.
  assert (Hat : forall i f, terms r !! i = Some (TFunctor f) -> home r f = h) by (intros i f Hi; apply Hh; by eapply list_elem_of_lookup_2).
  assert (Hsound : forall x a to, x ∈ view_rules r ts -> fires (plus D nm us) x PEvent.INSERT nm us a to vs ->
    (a, to) = insert_step r ts h /\ rule_derives (plus D nm us) r vs).
  { intros x a to Hx Hf. destruct (view_fires _ _ _ _ _ _ _ _ _ _ Hx Hf) as (i & f & Hi & Hdf). rewrite (Hat _ _ Hi) in Hdf.
    destruct (proj1 (delta_fires _ _ _ _ _ _ _ _ _ _ _ _ Hpl Hi Hdf) Hf) as (E & σ & Hn & Hm & Ho & Hv).
    split; [done|]. exists σ. split; [|done]. apply (Forall_others _ _ _ _ Hi). split; [|done]. cbn. exists us. split; [done|]. by right. }
  split; [|done]. split.
  - intros (σ & Hb & Hv). destruct (Forall_plus _ _ _ _ _ Hb) as [Hd|(i & f & Hi & Hn & Hm)]; [left; by exists σ|].
    right. destruct (delta_rules_insert r ts i f) as (x & Hx & Hdf). rewrite (Hat _ _ Hi) in Hdf.
    eapply delta_acts; [done|done|done|done|reflexivity| |].
    + intros E. rewrite <- (Hat _ _ Hi) in E. destruct (delta_rules_relay r ts i f E) as (-> & Hy & _). done.
    + exists σ. split_and!; [done|done| |done]. by apply (Forall_others _ _ _ _ Hi) in Hb as [_ Hb].
  - intros [(σ & Hb & Hv)|Hact].
    + exists σ. split; [|done]. eapply Forall_impl; [exact Hb|]. intros t. apply holds_mono.
    + destruct (act_step _ _ _ _ _ _ _ _ _ _ Hact) as (x & Hx & Hf). by eapply Hsound.
Qed.

(** The other predicates of the body do not see a tuple of a name they do not
    have. *)
Lemma holds_other D nm us σ t : (forall f, t = TFunctor f -> fn f <> nm) ->
  term_holds (plus D nm us) σ t <-> term_holds D σ t.
Proof.
  intros H. rewrite holds_plus. split; [|by left]. intros [|(f & -> & Hn & _)]; [done|]. by apply H in Hn.
Qed.

(** The names of the predicates of a body. *)
Definition pred_names (l : list Parse_Term) : list string :=
  omap (fun t => match t with TFunctor f => Some (fn f) | _ => None end) l.

Lemma NoDup_others (l : list Parse_Term) i f t : NoDup (pred_names l) ->
  l !! i = Some (TFunctor f) -> t ∈ take i l ++ drop (Datatypes.S i) l -> forall g, t = TFunctor g -> fn g <> fn f.
Proof.
  intros Hnd Hi Ht g -> E. unfold pred_names in Hnd. rewrite <- (take_drop_middle l i _ Hi), omap_app in Hnd. cbn in Hnd.
  apply NoDup_app in Hnd as (_ & H1 & H2). apply NoDup_cons in H2 as [H2 _].
  assert (Hin : forall k, TFunctor g ∈ k -> fn f ∈ pred_names k).
  { intros k Hk. apply list_elem_of_omap. exists (TFunctor g). by rewrite <- E. }
  apply elem_of_app in Ht as [Ht|Ht]; [|by apply H2, Hin]. apply (H1 (fn f)); [by apply Hin|by left].
Qed.

Lemma hard_rule_stored r ts : softStateRule r ts = false -> is_stored ts (fn (head r)) = true.
Proof.
  unfold softStateRule, is_stored, soft. intros [_ H]%orb_false_iff. by destruct (getTableInfo (fn (head r)) ts).
Qed.

(** Deletions undo insertions.  In a hard-state rule that uses no predicate
    twice, the rules remove from the head's table, on the removal of a tuple and
    once it is gone, exactly what they added on its insertion. *)
Theorem view_delete_undoes_insert (r : Rule) (ts : TableStore) (h : bool) (D : db) (nm : string) (us vs : list value) :
  Forall (fun t => plain_term t = true) (terms r) -> softStateRule r ts = false ->
  NoDup (pred_names (terms r)) ->
  (forall f, TFunctor f ∈ terms r -> head_is_at (head r) (getlocspec f) = h) ->
  act (plus D nm us) (view_rules r ts) PEvent.INSERT nm us h (send_name r) PAction.ADD (fn (head r)) vs <->
  act D (view_rules r ts) PEvent.DELETE nm us h (delete_name r) PAction.DELETE (fn (head r)) vs.
Proof.
  intros Hpl Hs Hnd Hh. pose proof (hard_rule_stored r ts Hs) as Hst.
  assert (Hat : forall i f, terms r !! i = Some (TFunctor f) -> home r f = h) by (intros i f Hi; apply Hh; by eapply list_elem_of_lookup_2).
  assert (Hbody : forall i f σ, terms r !! i = Some (TFunctor f) -> fn f = nm ->
    Forall (term_holds (plus D nm us) σ) (take i (terms r) ++ drop (Datatypes.S i) (terms r)) <->
    Forall (term_holds D σ) (take i (terms r) ++ drop (Datatypes.S i) (terms r))).
  { intros i f σ Hi Hn. rewrite !Forall_forall.
    assert (Ho : forall t, t ∈ take i (terms r) ++ drop (Datatypes.S i) (terms r) ->
      term_holds (plus D nm us) σ t <-> term_holds D σ t).
    { intros t Ht. apply holds_other. intros g Eg. subst nm. by eapply NoDup_others. }
    split; intros H t Ht; apply Ho; auto. }
  assert (Eins : insert_step r ts h = step_of h (send_name r) PAction.ADD (fn (head r)))
    by (unfold insert_step, at_home, insert_action; by rewrite Hst).
  assert (Edel : delete_step r ts h = step_of h (delete_name r) PAction.DELETE (fn (head r)))
    by (unfold delete_step; by rewrite Hst).
  assert (Hrel : forall i f, terms r !! i = Some (TFunctor f) -> h = false -> at_home r ts (home r f) = false)
    by (intros i f Hi ->; unfold at_home; by rewrite Hst, (Hat i f Hi)).
  split; intros Ha; destruct (act_step _ _ _ _ _ _ _ _ _ _ Ha) as (x & Hx & Hf);
    destruct (view_fires _ _ _ _ _ _ _ _ _ _ Hx Hf) as (i & f & Hi & Hdf);
    destruct (proj1 (delta_fires _ _ _ _ _ _ _ _ _ _ _ _ Hpl Hi Hdf) Hf) as (_ & σ & Hn & Hm & Ho & Hv).
  - destruct (delta_rules_delete r ts i f Hs) as (y & Hy & Hdf'). rewrite (Hat i f Hi) in Hdf'.
    eapply (delta_acts D); [done|done|done|done|done| |].
    + intros E. destruct (delta_rules_relay r ts i f (Hrel i f Hi E)) as (_ & _ & Hd). by apply Hd.
    + exists σ. split_and!; [done|done|by apply (Hbody i f)|done].
  - destruct (delta_rules_insert r ts i f) as (y & Hy & Hdf'). rewrite (Hat i f Hi) in Hdf'.
    eapply delta_acts; [done|done|done|done|done| |].
    + intros E. by destruct (delta_rules_relay r ts i f (Hrel i f Hi E)) as (_ & Hd & _).
    + exists σ. split_and!; [done|done|by apply (Hbody i f)|done].
Qed.
End delta.

(** ** Event rules *)

Section event.
Context `{P : Platform} `{S : ExprSem}.

(** A condition of an event rule: a table, a selection or an assignment. *)
Definition condition (ts : TableStore) (t : Parse_Term) : bool :=
  match t with
  | TFunctor f => if getTableInfo (fn f) ts is Some _ then true else false
  | TAggTerm _ _ _ _ => false
  | _ => true
  end.

Definition with_conditions (l : list Parse_Term) (x : ECA_Rule) : ECA_Rule :=
  mkECA (eca_ruleID x) (eca_event x) (eca_action x)
    (eca_probeTerms x ++ omap (fun t => match t with TFunctor f => Some f | _ => None end) l)
    (eca_selectAssignTerms x ++ omap (fun t => match t with TSelect _ | TAssign _ _ => Some t | _ => None end) l)
    (eca_aggWrap x).

(** The conditions are collected; the location of the body is that of a predicate
    met. *)
Lemma event_terms_conditions ts pre l l' : Forall (fun t => condition ts t = true) l -> forall x b,
  exists b', event_terms ts pre (l ++ l') x b = event_terms ts pre l' (with_conditions l x) b'
    /\ (b' = b \/ exists g, TFunctor g ∈ l /\ b' = getlocspec g).
Proof.
  induction 1 as [|t l Ht Hl IH]; intros x b.
  { exists b. cbn. unfold with_conditions. cbn. rewrite !app_nil_r. split; [by destruct x|by left]. }
  assert (Hloc : forall b0 b', (b' = b0 \/ exists g, TFunctor g ∈ l /\ b' = getlocspec g) ->
    (b0 = b \/ exists g, t = TFunctor g /\ b0 = getlocspec g) -> b' = b \/ exists g, TFunctor g ∈ t :: l /\ b' = getlocspec g).
  { intros b0 b' [->|(g & Hg & ->)] Hb; [|right; exists g; split; [by right|done]].
    destruct Hb as [->|(g & -> & ->)]; [by left|]. right. exists g. split; [by left|done]. }
  destruct t as [f|y e|e|]; cbn [condition app event_terms] in *; [| | |done].
  - destruct (getTableInfo (fn f) ts); [|done]. destruct (IH (add_probe f x) (getlocspec f)) as (b' & -> & Hb').
    exists b'. split; [unfold with_conditions, add_probe; cbn; by rewrite <- app_assoc|]. apply (Hloc _ _ Hb'). right. by exists f.
  - destruct (IH (add_other (TAssign y e) x) b) as (b' & -> & Hb').
    exists b'. split; [unfold with_conditions, add_other; cbn; by rewrite <- app_assoc|]. apply (Hloc _ _ Hb'). by left.
  - destruct (IH (add_other (TSelect e) x) b) as (b' & -> & Hb').
    exists b'. split; [unfold with_conditions, add_other; cbn; by rewrite <- app_assoc|]. apply (Hloc _ _ Hb'). by left.
Qed.

Lemma condition_plain ts t : condition ts t = true -> plain_term t = true.
Proof. by destruct t. Qed.

(** What an event rule is for: the head is added to its table, or removed by a
    delete rule; it is sent if it is no table. *)
Definition event_action (r : Rule) (ts : TableStore) : PAction.Action :=
  if is_stored ts (fn (head r)) then if deleteFlag r then PAction.DELETE else PAction.ADD else PAction.SEND.

Lemma generateActionHead_spec r b ts x : let '(x', mat) := generateActionHead r b ts x in
  let here := at_home r ts (head_is_at (head r) b) in
  let st := step_of here (send_name r) (event_action r ts) (fn (head r)) in
  (exists g, x' = set_action g (fst st) x /\ fn g = snd st /\ args_ g = args_ (head r))
  /\ if here then mat = [] else exists y, mat = [y] /\ passes_on y (send_name r) (head r) (event_action r ts).
Proof.
  unfold generateActionHead, at_home, event_action, store_action, is_stored.
  destruct (getTableInfo _ _), (head_is_at _ _); cbn [negb orb step_of fst snd];
    (split; [eexists; split_and!; reflexivity|]); try done.
  eexists. split; [reflexivity|]. split; [eexists; split_and!; reflexivity|reflexivity..].
Qed.

(** The rule that waits for the event fires on the derivations that use it. *)
Lemma event_body_fires (r : Rule) ts pre post f x g (st : PAction.Action * string) D us vs :
  terms r = pre ++ TFunctor f :: post ->
  Forall (fun t => condition ts t = true) pre -> Forall (fun t => condition ts t = true) post ->
  getTableInfo (fn f) ts = None ->
  (eca_event x = Some (f, PEvent.RECV) /\ eca_action x = Some (g, fst st)
    /\ eca_probeTerms x = omap (fun t => match t with TFunctor f => Some f | _ => None end) (pre ++ post)
    /\ eca_selectAssignTerms x = omap (fun t => match t with TSelect _ | TAssign _ _ => Some t | _ => None end) (pre ++ post)) ->
  fn g = snd st -> args_ g = args_ (head r) -> (forall ws, ~ D (fn f) ws) ->
  forall a to, fires D x PEvent.RECV (fn f) us a to vs <-> (a, to) = st /\ rule_derives (plus D (fn f) us) r vs.
Proof.
  intros Ht Hpre Hpost Hf (E1 & E2 & E3 & E4) Hto Hargs Hno a to. unfold rule_derives, derives, fires. rewrite E3, E4, Ht.
  assert (Hcond : Forall (fun t => condition ts t = true) (pre ++ post)) by (by apply Forall_app).
  assert (Hpl : Forall (fun t => plain_term t = true) (pre ++ post))
    by (eapply Forall_impl; [exact Hcond|]; intros t; apply condition_plain).
  assert (Hbody : forall σ, Forall (term_holds (plus D (fn f) us) σ) (pre ++ TFunctor f :: post) <->
    args_match σ (args_ f) us /\ Forall (term_holds D σ) (pre ++ post)).
  { intros σ. assert (Ho : Forall (term_holds (plus D (fn f) us) σ) (pre ++ post) <-> Forall (term_holds D σ) (pre ++ post)).
    { rewrite !Forall_forall. assert (Ho : forall t, t ∈ pre ++ post -> term_holds (plus D (fn f) us) σ t <-> term_holds D σ t).
      { intros t Hin. apply holds_other. intros h -> E. rewrite Forall_forall in Hcond. specialize (Hcond _ Hin).
        cbn in Hcond. by rewrite E, Hf in Hcond. }
      split; intros H t Hin; apply Ho; auto. }
    rewrite <- Ho, !Forall_app, Forall_cons. cbn [term_holds].
    assert (Hev : (exists ws, args_match σ (args_ f) ws /\ plus D (fn f) us (fn f) ws) <-> args_match σ (args_ f) us).
    { split; [intros (ws & Hm & [HD|[_ ->]]); [by apply Hno in HD|done]|]. intros Hm. exists us. split; [done|]. by right. }
    rewrite Hev. tauto. }
  split.
  - intros (σ & f' & g' & Ef & Eg & _ & Hn & Hm & Hp & Hs & Hv). rewrite E1 in Ef. rewrite E2 in Eg.
    injection Ef as <-. injection Eg as <- <-. split; [destruct st; cbn in *; congruence|].
    exists σ. split; [|by rewrite <- Hargs]. apply Hbody. split; [done|]. by apply others_hold.
  - intros (<- & σ & Hb & Hv). apply Hbody in Hb as [Hm Hb]. exists σ, f, g. apply others_hold in Hb as [Hp Hs]; [|done].
    rewrite Hargs. split_and!; done.
Qed.

(** C12: an event rule is compiled faithfully.  Take a rule whose body has one event -
    not a [periodic] and not of the name under which the head is sent - and whose
    predicates agree on whether the head is at their location.  When the event
    arrives, its rules bring about exactly the tuples that the rule derives from the
    tables and that event: they add the head to its table, a delete rule removes it -
    at once when the table is at the location of the body, otherwise by a message
    whose reception does it - and send it when it is no table.  No rule does
    anything else on the event. *)
Theorem event_rule_correct (r : Rule) (ts : TableStore) (h : bool) (pre post : list Parse_Term) (f : Parse_Functor) :
  terms r = pre ++ TFunctor f :: post ->
  Forall (fun t => condition ts t = true) pre -> Forall (fun t => condition ts t = true) post ->
  (forall g, TFunctor g ∈ terms r -> head_is_at (head r) (getlocspec g) = h) ->
  getTableInfo (fn f) ts = None -> fn f <> "periodic"%string -> fn f <> send_name r ->
  exists xs, event_rules r ts = Ok xs
    /\ forall D us vs, (forall ws, ~ D (fn f) ws) ->
         (act D xs PEvent.RECV (fn f) us (at_home r ts h) (send_name r) (event_action r ts) (fn (head r)) vs
            <-> rule_derives (plus D (fn f) us) r vs)
         /\ forall x a to, x ∈ xs -> fires D x PEvent.RECV (fn f) us a to vs ->
              (a, to) = step_of (at_home r ts h) (send_name r) (event_action r ts) (fn (head r))
              /\ rule_derives (plus D (fn f) us) r vs.
Proof.
  intros Ht Hpre Hpost Hh Hf Hper Hfresh. unfold event_rules. rewrite Ht.
  destruct (event_terms_conditions ts (ruleID r +:+ "_eca") pre (TFunctor f :: post) Hpre
    (ECA_Rule_mk (ruleID r +:+ "_eca")) "") as (b1 & -> & _).
  cbn [event_terms]. rewrite Hf. rewrite (proj2 (String.eqb_neq _ _) Hper).
  set (x0 := with_conditions pre _). rewrite <- (app_nil_r post).
  destruct (event_terms_conditions ts (ruleID r +:+ "_eca") post [] Hpost (set_event f PEvent.RECV x0) (getlocspec f)) as (b2 & -> & Hb2).
  assert (Hhome : head_is_at (head r) b2 = h).
  { destruct Hb2 as [->|(g & Hg & ->)]; apply Hh; rewrite Ht; set_solver. }
  cbn [event_terms rbind]. set (x1 := with_conditions post _).
  pose proof (generateActionHead_spec r b2 ts x1) as Hg. destruct (generateActionHead r b2 ts x1) as [x2 mat].
  rewrite Hhome in Hg. cbv zeta in Hg. set (here := at_home r ts h) in *.
  set (st := step_of here (send_name r) (event_action r ts) (fn (head r))) in *.
  destruct Hg as ((g & -> & Hto & Hargs) & Hmat). set (x := if Functor_aggregate (head r) is Some _ then _ else _).
  exists (mat ++ [x]). split; [done|].
  assert (E : eca_event x = Some (f, PEvent.RECV) /\ eca_action x = Some (g, fst st)
    /\ eca_probeTerms x = omap (fun t => match t with TFunctor f => Some f | _ => None end) (pre ++ post)
    /\ eca_selectAssignTerms x = omap (fun t => match t with TSelect _ | TAssign _ _ => Some t | _ => None end) (pre ++ post)).
  { unfold x. rewrite !omap_app. destruct (Functor_aggregate (head r)); done. }
  clearbody x. intros D us vs Hno.
  pose proof (event_body_fires r ts pre post f x g st D us vs Ht Hpre Hpost Hf E Hto Hargs Hno) as Hx.
  assert (Honly : forall y a to, y ∈ mat ++ [x] -> fires D y PEvent.RECV (fn f) us a to vs ->
    (a, to) = st /\ rule_derives (plus D (fn f) us) r vs).
  { intros y a to [Hy| ->%list_elem_of_singleton]%elem_of_app Hfy; [|by apply Hx].
    destruct here; [by rewrite Hmat in Hy; apply elem_of_nil in Hy|].
    destruct Hmat as (z & -> & [(g' & Eg & Hn & _)]). apply list_elem_of_singleton in Hy as ->.
    destruct Hfy as (σ & f' & ? & E1 & _ & Hn' & _). congruence. }
  split; [|exact Honly]. split; [intros Ha|intros Hd].
  - destruct (act_step _ _ _ _ _ _ _ _ _ _ Ha) as (y & Hy & Hfy). by eapply Honly.
  - assert (Hfx : fires D x PEvent.RECV (fn f) us (fst st) (snd st) vs) by (apply Hx; by destruct st).
    unfold act, st, step_of in *. destruct here; [exists x; split; [set_solver|done]|].
    destruct Hmat as (y & -> & Hpo). exists x, y. split_and!; [set_solver..|done|].
    destruct Hd as (σ & _ & Hv). intros D'. by eapply relay_fires.
Qed.
End event.

(** ** What the rewriting of views does not do *)

Section flaws.
Context `{P : Platform}.

(** It does not look whether the rule is a delete rule: a delete rule over
    tables inserts what it should delete. *)
Theorem view_ignores_delete (r : Rule) (ts : TableStore) (d : bool) :
  view_rules (mkRule (ruleID r) (head r) d (terms r)) ts = view_rules r ts.
Proof.
  assert (H : forall l n, view_rules_from (mkRule (ruleID r) (head r) d (terms r)) ts n l = view_rules_from r ts n l).
  { induction l as [|t l IH]; intros n; [done|]. cbn [view_rules_from]. by rewrite IH. }
  apply H.
Qed.

(** A hard-state rule gets no rule for refreshes. *)
Theorem hard_rule_no_refresh (r : Rule) (ts : TableStore) (x : ECA_Rule) (g : Parse_Functor) :
  softStateRule r ts = false -> x ∈ view_rules r ts -> eca_event x <> Some (g, PEvent.REFRESH).
Proof.
  intros Hs Hx E. apply view_rules_from_elem in Hx as (i & f & Hi & Hx). cbn in Hx.
  destruct (delta_rules_elem _ _ _ _ _ Hx) as [(g' & E')|[E'|[[Hsoft _]|[_ E']]]];
    try congruence; try (pose proof (df_event _ _ _ _ _ _ E'); congruence).
  unfold softStateRule in Hs. apply orb_false_iff in Hs as [Hs _].
  assert (Ht : existsb (fun t => match t with TFunctor f => soft ts (fn f) | _ => false end) (terms r) = true).
  { apply existsb_exists. exists (TFunctor f). split; [|done]. apply list_elem_of_In. by eapply list_elem_of_lookup_2. }
  congruence.
Qed.
End flaws.

(** ** Examples *)

(** [v1 p(@X, Z) :- q(@X, Y), s(@X, Y, Z)] over three tables without expiration
    or bound. *)
Definition hard_table (nm : string) : string * TableInfo := (nm, mkTableInfo nm Table2.PosInfin 0 [1]).
Definition eca_store : TableStore :=
  mkStore (list_to_map [hard_table "p"; hard_table "q"; hard_table "s"]) ∅ ∅.

Definition q_atom : Parse_Functor := Parse_Functor_mk "q" [Parse_Var "X" true; Parse_Var "Y" false] None.
Definition s_atom : Parse_Functor :=
  Parse_Functor_mk "s" [Parse_Var "X" true; Parse_Var "Y" false; Parse_Var "Z" false] None.
Definition p_head : Parse_Functor := Parse_Functor_mk "p" [Parse_Var "X" true; Parse_Var "Z" false] None.
Definition view_sample : Rule := mkRule "v1" p_head false [TFunctor q_atom; TFunctor s_atom].

(** [s(1, 2, 3)] holds when [q(1, 2)] comes in. *)
Definition s_db : db := fun nm ws => nm = "s"%string /\ ws = [VInt64 1; VInt64 2; VInt64 3].
Definition xyz : valuation := fun x =>
  if decide (x = "X"%string) then VInt64 1 else if decide (x = "Y"%string) then VInt64 2 else VInt64 3.

Lemma view_sample_derives : rule_derives (S := bare_sem) (plus s_db "q" [VInt64 1; VInt64 2]) view_sample [VInt64 1; VInt64 3].
Proof.
  exists xyz. split; [|repeat constructor]. apply Forall_cons. split; [|apply Forall_singleton].
  - exists [VInt64 1; VInt64 2]. split; [repeat constructor|by right].
  - exists [VInt64 1; VInt64 2; VInt64 3]. split; [repeat constructor|by left].
Qed.

Lemma view_sample_new : ~ rule_derives (S := bare_sem) s_db view_sample [VInt64 1; VInt64 3].
Proof.
  intros (σ & Hb & _). inversion_clear Hb as [|? ? Hq _]. destruct Hq as (ws & _ & [E _]). discriminate E.
Qed.

Lemma view_sample_home f : TFunctor f ∈ terms view_sample -> head_is_at (head view_sample) (getlocspec f) = true.
Proof. intros H. repeat (apply elem_of_cons in H as [[= ->]|H]; [reflexivity|]). by apply elem_of_nil in H. Qed.

Lemma view_sample_acts :
  act (S := bare_sem) (plus s_db "q" [VInt64 1; VInt64 2]) (view_rules view_sample eca_store) PEvent.INSERT "q"
    [VInt64 1; VInt64 2] true "v1psend" PAction.ADD "p" [VInt64 1; VInt64 3].
Proof.
  destruct (delta_rules_insert view_sample eca_store 0 q_atom) as (x & Hx & Hdf).
  assert (Hin : view_sample.(terms) !! 0%nat = Some (TFunctor q_atom)) by done.
  eapply delta_acts; [repeat constructor|exact Hin|exact Hx|exact Hdf|reflexivity|discriminate|].
  exists xyz. split_and!; [done|repeat constructor| |repeat constructor]. apply Forall_singleton.
  exists [VInt64 1; VInt64 2; VInt64 3]. split; [repeat constructor|by left].
Qed.

Lemma view_delta_correct_witness :
  act (S := bare_sem) (plus s_db "q" [VInt64 1; VInt64 2]) (view_rules view_sample eca_store) PEvent.INSERT "q"
    [VInt64 1; VInt64 2] true "v1psend" PAction.ADD "p" [VInt64 1; VInt64 3].
Proof.
  destruct (view_delta_correct (S := bare_sem) view_sample eca_store true s_db "q"
    [VInt64 1; VInt64 2] [VInt64 1; VInt64 3]) as [[H _] _]; [repeat constructor|exact view_sample_home|].
  destruct (H view_sample_derives) as [Hd|Hx]; [destruct (view_sample_new Hd)|exact Hx].
Defined.

(** The same view kept at another node: what is found here is sent there. *)
Definition far_head : Parse_Functor := Parse_Functor_mk "p" [Parse_Var "Z" true; Parse_Var "X" false] None.
Definition far_sample : Rule := mkRule "v2" far_head false [TFunctor q_atom; TFunctor s_atom].
Lemma far_sample_relayed :
  act (S := bare_sem) (plus s_db "q" [VInt64 1; VInt64 2]) (view_rules far_sample eca_store) PEvent.INSERT "q"
    [VInt64 1; VInt64 2] false "v2psend" PAction.ADD "p" [VInt64 3; VInt64 1].
Proof.
  assert (Hin : far_sample.(terms) !! 0%nat = Some (TFunctor q_atom)) by done.
  destruct (delta_rules_insert far_sample eca_store 0 q_atom) as (x & Hx & Hdf).
  eapply delta_acts; [repeat constructor|exact Hin|exact Hx|exact Hdf|reflexivity| |].
  - intros _. by apply (delta_rules_relay far_sample eca_store 0 q_atom).
  - exists xyz. split_and!; [done|repeat constructor| |repeat constructor]. apply Forall_singleton.
    exists [VInt64 1; VInt64 2; VInt64 3]. split; [repeat constructor|by left].
Qed.

Lemma view_delete_undoes_insert_witness :
  act (S := bare_sem) s_db (view_rules view_sample eca_store) PEvent.DELETE "q"
    [VInt64 1; VInt64 2] true "pdelete" PAction.DELETE "p" [VInt64 1; VInt64 3].
Proof.
  apply (view_delete_undoes_insert (S := bare_sem) view_sample eca_store true s_db "q"
    [VInt64 1; VInt64 2] [VInt64 1; VInt64 3]).
  - repeat constructor.
  - vm_compute. reflexivity.
  - vm_decide.
  - exact view_sample_home.
  - exact view_sample_acts.
Defined.

(** [e1 p(@X, Z) :- ping(@X, Y), s(@X, Y, Z)] with the event [ping]. *)
Definition ping_atom : Parse_Functor := Parse_Functor_mk "ping" [Parse_Var "X" true; Parse_Var "Y" false] None.
Definition event_sample : Rule := mkRule "e1" p_head false [TFunctor ping_atom; TFunctor s_atom].

Lemma event_rule_correct_witness :
  exists xs, event_rules event_sample eca_store = Ok xs
    /\ act (S := bare_sem) s_db xs PEvent.RECV "ping" [VInt64 1; VInt64 2] true "e1psend" PAction.ADD "p" [VInt64 1; VInt64 3].
Proof.
  destruct (event_rule_correct (S := bare_sem) event_sample eca_store true [] [TFunctor s_atom] ping_atom)
    as (xs & Hx & Hf).
  - reflexivity.
  - constructor.
  - repeat constructor.
  - intros g H. repeat (apply elem_of_cons in H as [[= ->]|H]; [reflexivity|]). by apply elem_of_nil in H.
  - reflexivity.
  - discriminate.
  - discriminate.
  - exists xs. split; [exact Hx|]. apply Hf.
    + intros ws [E _]. discriminate E.
    + exists xyz. split; [|repeat constructor]. apply Forall_cons. split; [|apply Forall_singleton].
      * exists [VInt64 1; VInt64 2]. split; [repeat constructor|by right].
      * exists [VInt64 1; VInt64 2; VInt64 3]. split; [repeat constructor|by left].
Defined.

(** [w p(@X, Z) :- q(@X, Y), q(@X, Z)]: with a predicate that occurs twice, one
    new tuple is found by two insertion rules - its single derivation is counted
    twice - and once it is gone no removal rule finds it again. *)
Definition self_join : Rule :=
  mkRule "w" p_head false [TFunctor q_atom; TFunctor (Parse_Functor_mk "q" [Parse_Var "X" true; Parse_Var "Z" false] None)].
Definition none_db : db := fun _ _ => False.
Definition on_event (e : PEvent.Event) (x : ECA_Rule) : bool :=
  match eca_event x, e with
  | Some (_, PEvent.INSERT), PEvent.INSERT | Some (_, PEvent.DELETE), PEvent.DELETE => true
  | _, _ => false
  end.

Theorem self_join_counts_twice :
  let us := [VInt64 1; VInt64 2] in
  let xs := view_rules self_join eca_store in
  length (List.filter (on_event PEvent.INSERT) xs) = 2%nat
  /\ Forall (fun x => fires (S := bare_sem) (plus none_db "q" us) x PEvent.INSERT "q" us PAction.ADD "p" us)
       (List.filter (on_event PEvent.INSERT) xs)
  /\ forall x a to vs, x ∈ xs -> ~ fires (S := bare_sem) none_db x PEvent.DELETE "q" us a to vs.
Proof.
  intros us xs. split; [vm_compute; reflexivity|]. split.
  - assert (Hf : forall f id, fn f = "q"%string -> args_match (fun x => if decide (x = "X"%string) then VInt64 1 else VInt64 2) (args_ f) us ->
      forall g, fn g = "q"%string -> args_match (fun x => if decide (x = "X"%string) then VInt64 1 else VInt64 2) (args_ g) us ->
      fires (S := bare_sem) (plus none_db "q" us) (mkECA id (Some (f, PEvent.INSERT)) (Some (p_head, PAction.ADD)) [g] [] false)
        PEvent.INSERT "q" us PAction.ADD "p" us).
    { intros f id Hn Hm g Hn' Hm'. do 3 eexists. split_and!; [done|done|done|done|exact Hm| |constructor|repeat constructor].
      cbn. apply Forall_singleton. exists us. split; [done|]. right. by split. }
    apply Forall_cons. split; [|apply Forall_singleton]; apply Hf; try done; repeat constructor.
  - intros x a to vs Hx (σ & f & g & E1 & _ & _ & _ & _ & Hp & _). vm_compute in Hx.
    repeat (apply elem_of_cons in Hx as [->|Hx]; [
      try discriminate E1; inversion_clear Hp as [|? ? Hq _]; destruct Hq as (ws & _ & []) |]).
    by apply elem_of_nil in Hx.
Qed.

(** The text of a rule does not tell a string from a variable, and the rules are
    told apart by their text: of [a p(@X) :- q(@X, "Y")] and
    [b p(@X) :- q(@X, Y)] only the first is kept. *)
Definition text_sample (id : string) (e : Parse_Expr) : Rule :=
  mkRule id (Parse_Functor_mk "p" [Parse_Var "X" true] None) false
    [TFunctor (Parse_Functor_mk "q" [Parse_Var "X" true; e] None)].

Theorem eca_conflates :
  exists xs, rewrite_rules (P := bare_platform) [text_sample "a" (Parse_Val (VStr "Y"))] eca_store [] = Ok xs
    /\ rewrite_rules (P := bare_platform)
         [text_sample "a" (Parse_Val (VStr "Y")); text_sample "b" (Parse_Var "Y" false)] eca_store [] = Ok xs.
Proof. eexists. split; [vm_compute; reflexivity|vm_compute; reflexivity]. Qed.
