(* ===== verification/RulePel.v ===== *)
(** * PEL text for the terms of a rule (src/planner/rulePel.C)

    The planner of event-condition-action rules writes PEL for the conditions
    and assignments of a rule.  A variable is known by its place among the names
    of the fields of the tuples that flow by; the fields are counted from 1, the
    name of the tuple being field 0.

    [ol_eval] is the reference: it computes an expression from the values of its
    variables with the operators of values, without text, program or stack. *)

From Stdlib Require Import SpecFloat Ascii String.
From S2P Require Import Prelude Ids Stl Values Tuples Aggs Keys CommonTable RefTable Table2 Fdbuf Xdr Casts Oper Names Exprs Pel PelLexer PelSafe PelText PelGen PelCorrect Overlog Rules Elements Transforms.

Local Open Scope p2_scope.
Local Open Scope string_scope.

(** ** [expr2Pel] *)

Section expr2pel.
Context `{P : Platform}.

(** The operators of [pelMath] and [pelBool]. *)
Definition pel_math_op (o : OLMath.Operator) : res string :=
  match o with
  | OLMath.LSHIFT => Ok "<< " | OLMath.RSHIFT => Ok ">> " | OLMath.PLUS => Ok "+ " | OLMath.MINUS => Ok "- "
  | OLMath.TIMES => Ok "* " | OLMath.DIVIDE => Ok "/ " | OLMath.MODULUS => Ok "% " | OLMath.BIT_AND => Ok "& "
  | OLMath.BIT_OR => Ok "| " | OLMath.BIT_XOR => Ok "^ " | OLMath.BIT_NOT => Ok "~ " | OLMath.APPEND => Ok "||| "
  | OLMath.NOP => Fail Exited
  end.
(** [None]: [pelBool] answers "ERROR". *)
Definition pel_bool_op (o : OLBool.Operator) : option string :=
  match o with
  | OLBool.AND => Some "and " | OLBool.OR => Some "or " | OLBool.EQ => Some "== " | OLBool.NEQ => Some "== not "
  | OLBool.GT => Some "> " | OLBool.LT => Some "< " | OLBool.LTE => Some "<= " | OLBool.GTE => Some ">= "
  | _ => None
  end.
Definition pel_range_op (t : OLRange.Interval) : string :=
  match t with
  | OLRange.RANGEOO => "() " | OLRange.RANGEOC => "(] " | OLRange.RANGECO => "[) " | OLRange.RANGECC => "[] "
  end.

(** [pelFunction]: the functions with a fixed number of arguments - their name,
    the number, the order in which the arguments are written, and what follows
    them. *)
Definition pel_functions : list (string * nat * list nat * string) := [
  ("f_sha1", 1, [0], "sha1 "); ("f_match", 2, [1; 0], "match "); ("f_member", 2, [0; 1], "member ");
  ("f_concat", 2, [1; 0], "concat "); ("f_intersect", 2, [0; 1], "intersect ");
  ("f_msintersect", 2, [0; 1], "msintersect "); ("f_initList", 2, [0; 1], "initlist ");
  ("f_consList", 2, [0; 1], "conslist "); ("f_inList", 2, [0; 1], "inlist "); ("f_removeLast", 1, [0], "removeLast ");
  ("f_last", 1, [0], "last "); ("f_size", 1, [0], "size "); ("f_getVectorOffset", 2, [0; 1], " getvectoroffset ");
  ("f_setVectorOffset", 3, [0; 1; 2], "setvectoroffset "); ("f_vectorCompare", 2, [0; 1], "vectorcompare ");
  ("f_getMatrixOffset", 3, [0; 1; 21], " getmatrixoffset ");
  ("f_setMatrixOffset", 4, [0; 1; 2; 3], "setmatrixoffset "); ("f_matrixCompare", 2, [0; 1], "matrixcompare ");
  ("f_typeOf", 1, [0], "typeOf "); ("f_totalComp", 2, [0; 1], "totalComp "); ("f_initSet", 1, [0], "initSet ");
  ("f_mod", 1, [0], "mod ")]%nat.
(** Those that ignore their arguments, and those that take any number. *)
Definition pel_constants : list (string * string) := [("f_rand", "rand "); ("f_now", "now "); ("f_empty", "empty ")].
Definition pel_variadic : list string :=
  ["f_loadKeyFile"; "f_createLocSpec"; "f_createVersion"; "f_serialize"; "f_deserialize"; "f_isLocSpec"].

(** The texts of some of the arguments; [args_->at(i)] throws. *)
Fixpoint pick_texts (ts : list (res string)) (order : list nat) : res string :=
  match order with
  | [] => Ok ""
  | i :: order' =>
      let? t := of_option OutOfRange (ts !! i) in
      let? s := t in
      let? rest := pick_texts ts order' in Ok (s +:+ rest)
  end.

Definition drop2 (s : string) : string := match s with String _ (String _ s') => s' | _ => "" end.

(** [ts] are the texts of the arguments; [coin] that of the constant given to
    [f_coinFlip]. *)
Definition pelFunction (name : string) (ts : list (res string)) (coin : res string) : res string :=
  if name =? "f_coinFlip" then let? s := coin in Ok (s +:+ " coin ")
  else match List.find (fun x => fst x =? name) pel_constants with
  | Some (_, w) => Ok w
  | None =>
  if name =? "f_append" then
    if (length ts =? 2)%nat then let? s := pick_texts ts [1; 0]%nat in Ok (s +:+ "lappend ")
    else if (length ts =? 1)%nat then let? s := pick_texts ts [0]%nat in Ok (" null " +:+ s +:+ "lappend ")
    else Fail Exited
  else match List.find (fun x => fst (fst (fst x)) =? name) pel_functions with
  | Some (_, n, order, w) =>
      if (length ts =? n)%nat then let? s := pick_texts ts order in Ok (s +:+ w) else Fail Exited
  | None =>
      if existsb (String.eqb name) pel_variadic
      then let? s := pick_texts ts (seq 0 (length ts)) in Ok (s +:+ drop2 name +:+ " ")
      else Fail Exited
  end end.

(** [expr->arg(0)->v] as a double: the value of a literal, the name of
    anything else. *)
Definition coin_text (args : list Parse_Expr) : res string :=
  match args with
  | [] => Fail OutOfRange
  | Parse_Val (VDouble d) :: _ => Ok (toString (VDouble d))
  | _ => Fail Thrown
  end.

Definition field_ref (names : list string) (x : string) : res string :=
  let? p := of_option Exited (fieldPosition names x) in Ok ("$" +:+ dec_string (Z.of_nat p + 1) +:+ " ").

(** The elements of a vector and of a matrix are printed, not compiled. *)
Fixpoint vector_texts (i : nat) (es : list Parse_Expr) : res string :=
  match es with
  | [] => Ok ""
  | e :: es' =>
      let? s := Parse_toString e in
      let? rest := vector_texts (S i) es' in
      Ok (dec_string (Z.of_nat i) +:+ " " +:+ s +:+ " setvectoroffset " +:+ rest)
  end.
Fixpoint row_texts (i j : nat) (es : list Parse_Expr) : res string :=
  match es with
  | [] => Ok ""
  | e :: es' =>
      let? s := Parse_toString e in
      let? rest := row_texts i (S j) es' in
      Ok (dec_string (Z.of_nat j) +:+ " " +:+ dec_string (Z.of_nat i) +:+ " " +:+ s +:+ " setmatrixoffset " +:+ rest)
  end.
(** A row that is shorter than the first one throws. *)
Fixpoint matrix_texts (i cols : nat) (rows : list (list Parse_Expr)) : res string :=
  match rows with
  | [] => Ok ""
  | row :: rows' =>
      let? _ := check (cols <=? length row)%nat OutOfRange in
      let? s := row_texts i 0 (take cols row) in
      let? rest := matrix_texts (S i) cols rows' in Ok (s +:+ rest)
  end.

(** [expr2Pel], [pelMath], [pelBool], [pelRange]; a null operand is
    dereferenced. *)
Fixpoint expr2Pel (names : list string) (e : Parse_Expr) : res string :=
  match e with
  | Parse_Var x _ => field_ref names x
  | Parse_Val v =>
      Ok (match v with VStr s => quoted s | _ => toString v end +:+ " ")
  | Parse_Bool OLBool.RANGE l (Some (Parse_Range t lo hi)) =>
      let? sl := expr2Pel names l in
      let? s1 := expr2Pel names lo in
      let? s2 := expr2Pel names hi in
      Ok (sl +:+ s1 +:+ s2 +:+ pel_range_op t)
  | Parse_Bool OLBool.RANGE l _ => let? _ := expr2Pel names l in Fail UndefinedBehaviour
  | Parse_Bool OLBool.NOT l _ => let? sl := expr2Pel names l in Ok (sl +:+ "not ")
  | Parse_Bool o l r =>
      let? sl := expr2Pel names l in
      let? sr := match r with Some r => expr2Pel names r | None => Fail UndefinedBehaviour end in
      Ok (match pel_bool_op o with Some w => sl +:+ sr +:+ w | None => "ERROR" end)
  | Parse_Math o l r =>
      let? sl := expr2Pel names l in
      let? sr := match r with Some r => expr2Pel names r | None => Fail UndefinedBehaviour end in
      let? w := pel_math_op o in
      Ok (sl +:+ sr +:+ w)
  | Parse_Function f args => pelFunction f (expr2Pel names <$> args) (coin_text args)
  | Parse_Vector es =>
      let? s := vector_texts 0 es in Ok (dec_string (Z.of_nat (length es)) +:+ " initvec " +:+ s)
  | Parse_VecAtom x o =>
      let? p := field_ref names x in
      let? s := expr2Pel names o in Ok (" " +:+ p +:+ s +:+ " getvectoroffset ")
  | Parse_Matrix rows =>
      let? r0 := of_option OutOfRange (rows !! 0%nat) in
      let? s := matrix_texts 0 (length r0) rows in
      Ok (dec_string (Z.of_nat (length rows)) +:+ " " +:+ dec_string (Z.of_nat (length r0)) +:+ " initmat " +:+ s)
  | Parse_MatAtom x o1 o2 =>
      let? p := field_ref names x in
      let? s2 := expr2Pel names o2 in
      let? s1 := expr2Pel names o1 in Ok (" " +:+ p +:+ s2 +:+ s1 +:+ " getmatrixoffset ")
  | Parse_Agg _ _ _ | Parse_Range _ _ _ => Fail Exited
  end.

(** ** Selections and assignments *)

(** "$k pop " for the fields [ks]. *)
Definition pop_texts (ks : list nat) : string :=
  fold_right (fun k s => "$" +:+ dec_string (Z.of_nat k) +:+ " pop " +:+ s) "" ks.

(** [pelSelect]; the condition is a [Parse_Bool]. *)
Definition pelSelect (names : list string) (e : Parse_Expr) : res string :=
  let? s := expr2Pel names e in
  Ok (s +:+ "not ifstop " +:+ pop_texts (seq 0 (length names + 1))).

(** [pelAssign]: the text, and the names behind it. *)
Definition pelAssign (names : list string) (x : string) (e : Parse_Expr) : res (string * list string) :=
  let? s := expr2Pel names e in
  match fieldPosition names x with
  | Some p =>
      Ok (fold_right (fun k rest => (if (k =? p)%nat then s +:+ "pop " else "$" +:+ dec_string (Z.of_nat k) +:+ " pop ") +:+ rest)
            "" (seq 0 (length names + 1)), names)
  | None => Ok (pop_texts (seq 0 (length names + 1)) +:+ s +:+ "pop ", app names [x])
  end.
End expr2pel.

(** ** The reference evaluator *)

Definition math_op (o : OLMath.Operator) : option MathOp.Operator :=
  match o with
  | OLMath.LSHIFT => Some MathOp.LSHIFT | OLMath.RSHIFT => Some MathOp.RSHIFT | OLMath.PLUS => Some MathOp.PLUS
  | OLMath.MINUS => Some MathOp.MINUS | OLMath.TIMES => Some MathOp.TIMES | OLMath.DIVIDE => Some MathOp.DIVIDE
  | OLMath.MODULUS => Some MathOp.MODULUS | OLMath.BIT_AND => Some MathOp.BITAND | OLMath.BIT_OR => Some MathOp.BITOR
  | OLMath.BIT_XOR => Some MathOp.BITXOR | OLMath.APPEND => Some MathOp.APPEND | OLMath.BIT_NOT | OLMath.NOP => None
  end.
Definition bool_op (o : OLBool.Operator) : option BoolOp.Operator :=
  match o with
  | OLBool.AND => Some BoolOp.AND | OLBool.OR => Some BoolOp.OR | OLBool.EQ => Some BoolOp.EQ | OLBool.NEQ => Some BoolOp.NEQ
  | OLBool.GT => Some BoolOp.GT | OLBool.LT => Some BoolOp.LT | OLBool.LTE => Some BoolOp.LTE | OLBool.GTE => Some BoolOp.GTE
  | OLBool.NOT | OLBool.RANGE | OLBool.NOP => None
  end.
Definition range_op (t : OLRange.Interval) : RangeOp.Operator :=
  match t with
  | OLRange.RANGEOO => RangeOp.RANGEOO | OLRange.RANGEOC => RangeOp.RANGEOC
  | OLRange.RANGECO => RangeOp.RANGECO | OLRange.RANGECC => RangeOp.RANGECC
  end.

Section evaluate.
Context `{P : Platform} (look : string -> option value).

(** [None]: outside the fragment of constants, variables, binary arithmetic,
    comparisons, connectives and interval tests. *)
Fixpoint ol_eval (e : Parse_Expr) : option outcome :=
  match e with
  | Parse_Val v => Some (Val v)
  | Parse_Var x _ => Val <$> look x
  | Parse_Math o l (Some r) =>
      match math_op o, ol_eval l, ol_eval r with
      | Some o, Some x, Some y => Some (obind x (fun x => obind y (math_value o x)))
      | _, _, _ => None
      end
  | Parse_Bool OLBool.RANGE l (Some (Parse_Range t lo hi)) =>
      match ol_eval l, ol_eval lo, ol_eval hi with
      | Some x, Some y, Some z => Some (obind x (fun x => obind y (fun y => obind z (range_value (range_op t) x y))))
      | _, _, _ => None
      end
  | Parse_Bool OLBool.NOT l _ =>
      match ol_eval l with
      | Some x => Some (obind x (fun x => truth x (fun b => Val (bool_value (negb b)))))
      | None => None
      end
  | Parse_Bool o l (Some r) =>
      match bool_op o, ol_eval l, ol_eval r with
      | Some o, Some x, Some y => Some (obind x (fun x => obind y (bool_math o x)))
      | _, _, _ => None
      end
  | _ => None
  end.
End evaluate.

(** ** The instructions of an expression *)

Definition name_of {A} (r : res A) (d : A) : A := match r with Ok a => a | Fail _ => d end.

Lemma fieldPosition_lt ns x p : fieldPosition ns x = Some p -> (p < length ns)%nat.
Proof.
  revert p. induction ns as [|n ns IH]; intros p; cbn; [done|]. destruct (fieldNameEq n x); [intros [= <-]; lia|].
  destruct (fieldPosition ns x) as [q|]; [|done]. intros [= <-]. specialize (IH q eq_refl). cbn. lia.
Qed.

Section instructions.
Context `{P : Platform} (names : list string).

Fixpoint ol_code (e : Parse_Expr) : list instr :=
  match e with
  | Parse_Val v => [IConst v]
  | Parse_Var x _ =>
      match fieldPosition names x with Some p => [IField (Z.of_nat p + 1)] | None => [] end
  | Parse_Math o l (Some r) =>
      match math_op o with Some o => app (ol_code l) (app (ol_code r) (code_op (name_of (math_name o) ""))) | None => [] end
  | Parse_Bool OLBool.RANGE l (Some (Parse_Range t lo hi)) =>
      app (ol_code l) (app (ol_code lo) (app (ol_code hi) (code_op (range_name (range_op t)))))
  | Parse_Bool OLBool.NOT l _ => app (ol_code l) (code_op "not")
  | Parse_Bool o l (Some r) =>
      match bool_op o with Some o => app (ol_code l) (app (ol_code r) (code_op (name_of (bool_name o) ""))) | None => [] end
  | _ => []
  end.

(** The constants the text shows as they are read. *)
Fixpoint ol_plain (e : Parse_Expr) : Prop :=
  match e with
  | Parse_Val v => readable (IConst v)
  | Parse_Math _ l r | Parse_Bool _ l r => ol_plain l /\ match r with Some r => ol_plain r | None => True end
  | Parse_Range _ l r => ol_plain l /\ ol_plain r
  | _ => True
  end.

(** The value a name has in a tuple. *)
Definition look_in (data : list value) (x : string) : option value :=
  match fieldPosition names x with Some p => data !! S p | None => None end.

Lemma math_named o o' : math_op o = Some o' ->
  math_of (name_of (math_name o') "") = Some o' /\ pel_math_op o = Ok (name_of (math_name o') "" +:+ " ").
Proof. by destruct o; intros [= <-]. Qed.

Lemma bool_named o o' : bool_op o = Some o' ->
  bool_of (name_of (bool_name o') "") = Some o' /\ pel_bool_op o = Some (name_of (bool_name o') "" +:+ " ").
Proof. by destruct o; intros [= <-]. Qed.

Lemma range_named t : range_of (range_name (range_op t)) = Some (range_op t) /\
  pel_range_op t = range_name (range_op t) +:+ " ".
Proof. by destruct t. Qed.

Lemma quoted_const v : readable (IConst v) ->
  (match v with VStr s => quoted s | _ => toString v end +:+ " ") = program_text [IConst v].
Proof. by destruct v. Qed.

(** The three functions on a binary operator. *)
Lemma eval_bool look b b' l r : bool_op b = Some b' -> ol_eval look (Parse_Bool b l (Some r)) =
  match ol_eval look l, ol_eval look r with
  | Some x, Some y => Some (obind x (fun x => obind y (bool_math b' x))) | _, _ => None end.
Proof. by destruct b; intros [= <-]. Qed.

Lemma eval_bool_none look b l : bool_op b <> None -> ol_eval look (Parse_Bool b l None) = None.
Proof. by destruct b. Qed.

Lemma code_bool b b' l r : bool_op b = Some b' -> ol_code (Parse_Bool b l (Some r)) =
  app (ol_code l) (app (ol_code r) (code_op (name_of (bool_name b') ""))).
Proof. by destruct b; intros [= <-]. Qed.

Lemma text_bool b b' l r : bool_op b = Some b' -> expr2Pel names (Parse_Bool b l (Some r)) =
  let? sl := expr2Pel names l in let? sr := expr2Pel names r in
  Ok (sl +:+ sr +:+ name_of (bool_name b') "" +:+ " ").
Proof. by destruct b; intros [= <-]. Qed.

Hypothesis names_small : Z.of_nat (length names) < 65535.

(** The text [expr2Pel] writes is that of the instructions. *)
Lemma ol_text data e : forall o, ol_eval (look_in data) e = Some o -> ol_plain e ->
  expr2Pel names e = Ok (program_text (ol_code e)) /\ Forall readable (ol_code e).
Proof.
  revert e. fix IH 1. intros e o. destruct e as [v|x loc| |b l r|t l r|m l [r|]| | | | | ]; try done.
  - intros [= <-] Hp. cbn [ol_plain expr2Pel ol_code] in *. rewrite (quoted_const v Hp). split; [done|].
    by apply Forall_singleton.
  - intros H _. cbn [ol_eval expr2Pel ol_code] in *. unfold look_in in H. unfold field_ref.
    destruct (fieldPosition names x) as [p|] eqn:Ep; [|done].
    apply fieldPosition_lt in Ep. split; [done|]. apply Forall_singleton. cbn. lia.
  - intros H [Pl Pr]. destruct (bool_op b) as [b'|] eqn:Eb.
    + destruct r as [r|]; [|by rewrite eval_bool_none in H by (by rewrite Eb)].
      rewrite (eval_bool _ _ _ _ _ Eb) in H. rewrite (text_bool _ _ _ _ Eb), (code_bool _ _ _ _ Eb).
      destruct (ol_eval (look_in data) l) as [x|] eqn:El; [|done]. destruct (ol_eval (look_in data) r) as [y|] eqn:Er; [|done].
      destruct (IH l x El Pl) as [-> Rl], (IH r y Er Pr) as [-> Rr]. cbn [rbind].
      destruct (code_op_text (name_of (bool_name b') "")) as [Ew Rw]; [right; left; by rewrite (proj1 (bool_named _ _ Eb))|].
      by rewrite !program_text_app, Ew, !Forall_app.
    + destruct b; try done.
      * cbn [ol_eval expr2Pel ol_code] in *. destruct (ol_eval (look_in data) l) as [x|] eqn:El; [|done].
        destruct (IH l x El Pl) as [-> Rl]. destruct (code_op_text "not") as [Ew Rw]; [auto|]. cbn [rbind].
        by rewrite program_text_app, Ew, Forall_app.
      * destruct r as [[ | | | |t lo hi| | | | | | ]|]; try done. cbn [ol_eval expr2Pel ol_code ol_plain] in *.
        destruct Pr as [Plo Phi].
        destruct (ol_eval (look_in data) l) as [x|] eqn:El; [|done]. destruct (ol_eval (look_in data) lo) as [y|] eqn:Elo; [|done].
        destruct (ol_eval (look_in data) hi) as [z|] eqn:Ehi; [|done].
        destruct (IH l x El Pl) as [-> Rl], (IH lo y Elo Plo) as [-> Rlo], (IH hi z Ehi Phi) as [-> Rhi]. cbn [rbind].
        destruct (range_named t) as [Hr Ht]. rewrite Ht.
        destruct (code_op_text (range_name (range_op t))) as [Ew Rw]; [do 2 right; left; by rewrite Hr|].
        by rewrite !program_text_app, Ew, !Forall_app.
      * by destruct r.
  - cbn [ol_eval expr2Pel ol_code ol_plain]. destruct (math_op m) as [m'|] eqn:Em; [|done]. intros H [Pl Pr].
    destruct (ol_eval (look_in data) l) as [x|] eqn:El; [|done]. destruct (ol_eval (look_in data) r) as [y|] eqn:Er; [|done].
    destruct (IH l x El Pl) as [-> Rl], (IH r y Er Pr) as [-> Rr]. cbn [rbind].
    destruct (math_named m m' Em) as [Hw Ht]. rewrite Ht. cbn [rbind].
    destruct (code_op_text (name_of (math_name m') "")) as [Ew Rw]; [left; by rewrite Hw|].
    by rewrite !program_text_app, Ew, !Forall_app.
Qed.
End instructions.

(** ** Running the instructions *)

Section run.
Context `{P : Platform} `{X : Externals} (nodeid : value) (prg : Pel_Program) (data : list value) (names : list string).
Hypothesis names_small : Z.of_nat (length names) < 65535.

Definition ol_held (e : Parse_Expr) : own :=
  match e with Parse_Val _ | Parse_Var _ _ => Shared | _ => Fresh end.

(** They compute what the evaluator says. *)
Lemma ol_computes e : forall o n, ol_eval (look_in names data) e = Some o -> pooled prg n (constants (ol_code names e)) ->
  runs_to nodeid prg data (codes n (ol_code names e)) o (ol_held e).
Proof.
  revert e. fix IH 1. intros e o n. destruct e as [v|x loc| |b l r|t l r|m l [r|]| | | | | ]; try done.
  - intros [= <-] Hp. destruct (Hp 0%nat v eq_refl) as [Hv Hn]. rewrite Nat.add_0_r in Hv, Hn. by apply runs_const.
  - intros H _. cbn [ol_eval ol_code] in *. unfold look_in in H.
    destruct (fieldPosition names x) as [p|] eqn:Ep; [|done]. apply fieldPosition_lt in Ep.
    destruct (data !! S p) as [u|] eqn:Eu; [|done]. injection H as <-. cbn [codes].
    replace (Z.of_nat p + 1) with (Z.of_nat (S p)) by lia. apply runs_field; [done|lia].
  - intros H Hp. destruct (bool_op b) as [b'|] eqn:Eb.
    + destruct r as [r|]; [|by rewrite eval_bool_none in H by (by rewrite Eb)].
      rewrite (eval_bool _ _ _ _ _ Eb) in H. rewrite (code_bool _ _ _ _ _ Eb) in Hp |- *.
      destruct (ol_eval (look_in names data) l) as [x|] eqn:El; [|done].
      destruct (ol_eval (look_in names data) r) as [y|] eqn:Er; [|done]. injection H as <-. revert Hp.
      rewrite !constants_app, !codes_app. intros [Hl [Hr _]%pooled_app]%pooled_app. rewrite (proj1 (codes_op _ _)).
      eapply bool_steps; [apply (bool_named _ _ Eb)|by apply IH|by apply IH].
    + destruct b; try done.
      * cbn [ol_eval ol_code] in *. destruct (ol_eval (look_in names data) l) as [x|] eqn:El; [|done]. injection H as <-.
        revert Hp. rewrite constants_app, codes_app. intros [Hl _]%pooled_app. rewrite (proj1 (codes_op _ "not")).
        eapply runs_op1; [by apply IH|]. intros a. apply not_steps.
      * destruct r as [[ | | | |t lo hi| | | | | | ]|]; try done. cbn [ol_eval ol_code] in *.
        destruct (ol_eval (look_in names data) l) as [x|] eqn:El; [|done].
        destruct (ol_eval (look_in names data) lo) as [y|] eqn:Elo; [|done].
        destruct (ol_eval (look_in names data) hi) as [z|] eqn:Ehi; [|done]. injection H as <-. revert Hp.
        rewrite !constants_app, !codes_app. intros [Hl [Hlo [Hhi _]%pooled_app]%pooled_app]%pooled_app.
        destruct (range_named t) as [Hr _]. rewrite (proj1 (codes_op _ _)).
        rewrite (proj1 (range_steps nodeid prg data _ _ VNull VNull VNull Hr)).
        eapply runs_op3; [by apply IH|by apply IH|by apply IH|]. intros a b c. by apply range_steps.
      * by destruct r.
  - cbn [ol_eval ol_code]. destruct (math_op m) as [m'|] eqn:Em; [|done].
    destruct (ol_eval (look_in names data) l) as [x|] eqn:El; [|done].
    destruct (ol_eval (look_in names data) r) as [y|] eqn:Er; [|done]. intros [= <-].
    rewrite !constants_app, !codes_app. intros [Hl [Hr _]%pooled_app]%pooled_app. rewrite (proj1 (codes_op _ _)).
    destruct (math_named m m' Em) as [Hw _]. rewrite (proj1 (math_steps nodeid prg data _ _ VNull VNull Hw)).
    eapply runs_op2; [by apply IH|by apply IH|]. intros a b. by apply math_steps.
Qed.
End run.

(** ** Programs that build a tuple *)

(** What the planner writes are programs that compute one field after the other
    and pop each into the result. *)
Definition build (cs : list (list instr)) : list instr := flat_map (fun c => app c [IOp (op_index "pop")]) cs.

Definition field_piece (k : nat) : list instr := [IField (Z.of_nat k)].
Definition const_piece (v : value) : list instr := [IConst v].
(** [$i j field] *)
Definition nested_piece (i j : nat) : list instr :=
  [IField (Z.of_nat i); IConst (VInt64 (Z.of_nat j)); IOp (op_index "field")].
Definition swallow_piece : list instr := [IOp (op_index "swallow")].

Lemma build_cons c cs : build (c :: cs) = app c (IOp (op_index "pop") :: build cs).
Proof. unfold build. cbn [flat_map]. by rewrite <- app_assoc. Qed.

Lemma build_app cs ds : build (app cs ds) = app (build cs) (build ds).
Proof. unfold build. apply flat_map_app. Qed.

Lemma build_readable cs : Forall (fun c => Forall readable c) cs -> Forall readable (build cs).
Proof.
  induction 1 as [|c cs Hc _ IH]; [constructor|]. rewrite build_cons. apply Forall_app. split; [done|]. by constructor.
Qed.

Section pieces.
Context `{P : Platform} `{X : Externals} (nodeid : value).

(** [c] computes [o] from [data] in every program that has its constants. *)
Definition computes_to (data : list value) (c : list instr) (o : outcome) : Prop :=
  forall prg n, pooled prg n (constants c) -> exists w, runs_to nodeid prg data (codes n c) o w.

Lemma computes_field data k v : data !! k = Some v -> Z.of_nat k < 65536 -> computes_to data (field_piece k) (Val v).
Proof. intros Hv Hk prg n _. exists Shared. cbn [field_piece codes]. by apply runs_field. Qed.

Lemma computes_const data v : computes_to data (const_piece v) (Val v).
Proof.
  intros prg n Hp. destruct (Hp O v eq_refl) as [Hv Hn]. rewrite Nat.add_0_r in Hv, Hn. exists Shared. by apply runs_const.
Qed.

Lemma computes_swallow data : computes_to data swallow_piece (Val (VTuple data)).
Proof.
  intros prg n _. exists Shared. intros k m He. cbn [codes swallow_piece app continues].
  change (code_of n (IOp (op_index "swallow"))) with (code_of 0 (IOp (op_index "swallow"))).
  rewrite loop_step, (exec_named nodeid prg data _ "swallow" 0 T_SWALLOW) by (done || cbn; lia).
  cbn. by rewrite He.
Qed.

(** A field of a tuple in the tuple; a field it does not have throws. *)
Lemma computes_nested data i j fs : data !! i = Some (VTuple fs) -> Z.of_nat i < 65536 -> Z.of_nat j < 65536 ->
  computes_to data (nested_piece i j) (match fs !! j with Some v => Val v | None => Raise OutOfRange end).
Proof.
  intros Hi Hs Hj prg n Hp. destruct (Hp O _ eq_refl) as [Hv Hn]. rewrite Nat.add_0_r in Hv, Hn.
  exists Shared. intros k m He. cbn [nested_piece codes constants omap length app]. rewrite Nat.add_0_r.
  change (continues nodeid prg data (match fs !! j with Some v => Val v | None => Raise OutOfRange end) Shared k m
    (execute_loop nodeid prg data ([code_of n (IField (Z.of_nat i))] ++
       [code_of n (IConst (VInt64 (Z.of_nat j)))] ++ code_of (n + 1) (IOp (op_index "field")) :: k) m)).
  rewrite (runs_field nodeid prg data i _ Hi Hs _ m He).
  rewrite (runs_const nodeid prg data n _ Hv Hn _ (set_st _ m) He).
  rewrite loop_step. change (code_of (n + 1) (IOp (op_index "field"))) with (code_of 0 (IOp (op_index "field"))).
  rewrite (exec_named nodeid prg data _ "field" 2 T_FIELD) by (done || cbn; lia).
  cbn [op_fn]. unfold op_T_FIELD, pop_signed, pop, pop_slot, stackPush, bind, lift, ret. cbn.
  assert (E : u32 (Z.of_nat j) = Z.of_nat j) by (apply Z.mod_small; lia).
  rewrite E, Nat2Z.id. unfold field. destruct (fs !! j) as [v|]; cbn; [by rewrite He|by eexists].
Qed.

(** Building a tuple. *)
Lemma build_loop prg data cs vs : Forall2 (fun c v => computes_to data c (Val v)) cs vs ->
  forall n k m, pooled prg n (constants (build cs)) -> error m = PE_SUCCESS ->
  execute_loop nodeid prg data (app (codes n (build cs)) k) m = execute_loop nodeid prg data k (add_result vs m).
Proof.
  induction 1 as [|c v cs vs Hc _ IH]; intros n k m Hp He; [done|]. revert Hp. rewrite build_cons.
  change (IOp (op_index "pop") :: build cs) with (app [IOp (op_index "pop")] (build cs)).
  rewrite !constants_app, !codes_app, <- !app_assoc. intros [Hpc Hps]%pooled_app.
  destruct (Hc prg n Hpc) as [w Hw]. rewrite (Hw _ m He).
  change (codes (n + length (constants c)) [IOp (op_index "pop")]) with (codes 0 [IOp (op_index "pop")]).
  rewrite pop_loop by done. cbn [constants omap length app] in *. rewrite Nat.add_0_r.
  rewrite IH; [|done|by destruct m]. by rewrite add_result_app.
Qed.

Lemma add_result_some vs m : vs <> [] -> result m = None -> result (add_result vs m) = Some vs.
Proof. intros Hv Hr. destruct vs as [|v vs]; [done|]. cbn. by rewrite Hr. Qed.

Lemma add_result_error vs m : error (add_result vs m) = error m.
Proof. by destruct vs. Qed.

(** A [PelTransform] with such a program. *)
Lemma transform_builds data cs vs m : vs <> [] -> Forall2 (fun c v => computes_to data c (Val v)) cs vs ->
  Z.of_nat (length (constants (build cs))) <= 65536 ->
  exists m', PelTransform_simple_action nodeid (load (build cs)) data m = Ok (Some vs, m').
Proof.
  intros Hv HF Hn. unfold PelTransform_simple_action, execute. rewrite load_eq. cbn [ops].
  set (m0 := set_result None _). rewrite <- (app_nil_r (codes 0 (build cs))).
  rewrite (build_loop (mkProgram _ _) data cs vs HF 0 [] m0); [|by apply pooled_whole|done].
  cbn [execute_loop]. rewrite add_result_error. cbn [error m0]. unfold result_tuple.
  rewrite add_result_some by done. by eexists.
Qed.

(** When a piece throws or reports an error, so does the program. *)
Lemma transform_fails data cs vs c cs' o m : Forall2 (fun c v => computes_to data c (Val v)) cs vs ->
  computes_to data c o -> Z.of_nat (length (constants (build (app cs (c :: cs'))))) <= 65536 ->
  match o with
  | Val _ => True
  | Code e => e <> PE_SUCCESS -> exists m', PelTransform_simple_action nodeid (load (build (app cs (c :: cs')))) data m = Ok (None, m')
  | Raise f => PelTransform_simple_action nodeid (load (build (app cs (c :: cs')))) data m = Fail f
  end.
Proof.
  intros HF Hc Hn. unfold PelTransform_simple_action, execute. rewrite load_eq. cbn [ops].
  set (prg := mkProgram _ _). set (m0 := set_result None _).
  assert (Hp : pooled prg 0 (constants (build (app cs (c :: cs'))))) by (by apply pooled_whole).
  clearbody prg. revert Hp. rewrite build_app, build_cons, codes_app, !constants_app. intros [Hp1 Hp2]%pooled_app.
  apply pooled_app in Hp2 as [Hp2 _].
  rewrite (build_loop prg data cs vs HF 0 _ m0 Hp1) by done. rewrite codes_app.
  destruct (Hc prg _ Hp2) as [w Hw].
  specialize (Hw (codes (0 + length (constants (build cs)) + length (constants c)) (IOp (op_index "pop") :: build cs'))
    (add_result vs m0)). rewrite add_result_error in Hw. specialize (Hw eq_refl).
  destruct o as [v|e|f]; cbn [continues] in Hw; [done| |].
  - intros He. destruct Hw as [m' ->]. exists m'. by destruct e.
  - by destruct Hw as [m' ->].
Qed.
End pieces.

(** ** Reading the texts *)

Lemma string_app_inj (s t u : string) : s +:+ u = t +:+ u -> s = t.
Proof.
  intros E. apply (f_equal string_bytes) in E. rewrite !string_bytes_app in E. apply app_inv_tail in E.
  by rewrite <- (text_of_bytes s), E, text_of_bytes.
Qed.

Section texts.
Context `{P : Platform}.

(** The last mnemonic may end the text. *)
Lemma lex_trimmed is_ : Forall readable is_ -> vector_free (app is_ [IOp (op_index "pop")]) = true -> forall b p, exists b',
  lex b (app (string_bytes (program_text is_)) (string_bytes "pop")) p = lex b' (string_bytes "pop") (emit_all is_ p).
Proof.
  induction 1 as [|i is_ Hi Hr IH]; intros Hv b p; [by exists b|]. cbn [app vector_free] in Hv. bools.
  rewrite program_text_bytes, <- app_assoc. cbn [app].
  set (rest := app (string_bytes (program_text is_)) (string_bytes "pop")).
  assert (Hpop : string_bytes (program_text (app is_ [IOp (op_index "pop")])) = app rest [32]).
  { rewrite program_text_app, string_bytes_app. unfold rest. by rewrite <- app_assoc. }
  assert (Hn : 10 ∉ rest).
  { intros H10. assert (Hrp : Forall readable (app is_ [IOp (op_index "pop")])) by (apply Forall_app; split; [done|by repeat constructor]).
    pose proof (program_text_clean _ Hrp) as Hc. unfold clean in Hc. rewrite Hpop, Forall_app, Forall_forall in Hc.
    by destruct (proj1 Hc 10 H10). }
  destruct (reads_readable i rest Hi) as (r & Hl & Ha).
  { intros Ho. rewrite Ho in H. cbn [negb orb] in H.
    pose proof (program_text_char 62 (i :: app is_ [IOp (op_index "pop")])) as Hc.
    rewrite program_text_bytes, Hpop in Hc. intros Hin. apply Hc; [done|done|].
    rewrite elem_of_app, elem_of_cons, elem_of_app in *. tauto. }
  rewrite (lex_lexeme r _ _ b p (emit i p)) by done. by apply IH.
Qed.

Lemma compile_trimmed text is_ : Forall readable is_ -> vector_free (app is_ [IOp (op_index "pop")]) = true ->
  text +:+ " " = program_text (app is_ [IOp (op_index "pop")]) -> compile text = Ok (load (app is_ [IOp (op_index "pop")])).
Proof.
  intros Hr Hv Ht. rewrite program_text_app in Ht.
  change (program_text [IOp (op_index "pop")]) with ("pop" +:+ " ") in Ht. rewrite <- string_app_assoc in Ht.
  apply string_app_inj in Ht as ->. unfold compile, compile_text. rewrite c_string_id.
  - rewrite string_bytes_app. destruct (lex_trimmed is_ Hr Hv true (mkProgram [] [])) as [b' E].
    etransitivity; [exact E|].
    rewrite (lex_step b' _ _ RWord 3) by (by destruct b'; vm_compute).
    assert (Hcode : token_code (text_of (take 3 (string_bytes "pop"))) jump_table 0 = Some (Z.of_nat (op_index "pop")))
      by (vm_compute; reflexivity).
    unfold load, emit_all. rewrite fold_left_app. cbn [fold_left emit].
    generalize (fold_left (fun p i => emit i p) is_ (mkProgram [] [])). intros p. unfold act. rewrite Hcode. cbn [rbind].
    change (behind RWord 3 (string_bytes "pop")) with (@nil Z). by destruct (bool_decide _).
  - apply forallb_forall. intros c Hc%list_elem_of_In.
    assert (Hrp : Forall readable (app is_ [IOp (op_index "pop")])) by (apply Forall_app; split; [done|by repeat constructor]).
    pose proof (program_text_clean _ Hrp) as Hcl. unfold clean in Hcl.
    rewrite program_text_app, string_bytes_app, Forall_app, !Forall_forall in Hcl. destruct Hcl as [Hc1 Hc2].
    rewrite string_bytes_app, elem_of_app in Hc. destruct Hc as [Hc|Hc].
    + specialize (Hc1 c Hc). lia.
    + assert (Hc' : c ∈ string_bytes (program_text [IOp (op_index "pop")])).
      { change (program_text [IOp (op_index "pop")]) with ("pop" +:+ " "). rewrite string_bytes_app. apply elem_of_app. by left. }
      specialize (Hc2 c Hc'). lia.
Qed.
End texts.

(** ** The compiled conditions and assignments *)

Section closed.
Context `{P : Platform}.

Lemma vector_free_closed is_ : Forall (fun i => opens_vector i = false) is_ -> vector_free is_ = true.
Proof. induction 1 as [|i is_ Hi _ IH]; [done|]. cbn [vector_free]. by rewrite Hi. Qed.

Lemma opens_int z : opens_vector (IConst (VInt64 z)) = false.
Proof.
  unfold opens_vector. cbn [show]. change (toString (VInt64 z)) with (dec_string z).
  destruct (dec_string_text z) as (sg & c & ds & -> & Hs & Hd). apply bool_decide_false.
  apply Forall_cons in Hd as [Hc _]. destruct Hs as [->| ->]; cbn; intros [= E]; lia.
Qed.

Lemma opens_str s : opens_vector (IConst (VStr s)) = false.
Proof. done. Qed.

Lemma opens_field k : opens_vector (IField k) = false.
Proof. done. Qed.

Lemma build_closed cs : Forall (fun c => Forall (fun i => opens_vector i = false) c) cs ->
  Forall (fun i => opens_vector i = false) (build cs).
Proof.
  induction 1 as [|c cs Hc _ IH]; [constructor|]. rewrite build_cons. apply Forall_app. split; [done|].
  constructor; [done|exact IH].
Qed.

Lemma pop_texts_build ks : pop_texts ks = program_text (build (field_piece <$> ks)).
Proof.
  induction ks as [|k ks IH]; [done|]. cbn [fmap list_fmap]. rewrite build_cons.
  cbn [pop_texts fold_right field_piece app program_text show]. unfold pop_texts in IH. rewrite IH.
  change (mnemonic (op_index "pop")) with "pop". by rewrite !string_app_assoc.
Qed.

Lemma fields_readable ks : Forall (fun k => Z.of_nat k < 65536) ks -> Forall (fun c => Forall readable c) (field_piece <$> ks).
Proof. intros H. apply Forall_fmap, (Forall_impl _ _ _ H). intros k Hk. apply Forall_singleton. cbn. lia. Qed.

Lemma fields_constants ks : constants (build (field_piece <$> ks)) = [].
Proof. induction ks as [|k ks IH]; [done|]. cbn [fmap list_fmap]. rewrite build_cons. cbn. exact IH. Qed.
End closed.

Section conditions.
Context `{P : Platform} `{X : Externals} (nodeid : value).

(** What a selection makes of the outcome of its condition: a value counts as a
    number, an error code drops the tuple. *)
Definition verdict (o : outcome) : res bool :=
  match obind o (fun v => truth v (fun b => Val (bool_value b))) with
  | Val v => Ok (bool_decide (v = bool_value true))
  | Code _ => Ok false
  | Raise f => Fail f
  end.

Definition proper_outcome (o : outcome) : Prop := match o with Code e => e <> PE_SUCCESS | _ => True end.

Lemma proper_of {A} (inj : A -> value) r : proper_outcome (outcome_of inj r).
Proof. destruct r as [|[]]; done. Qed.

Lemma proper_truth v k : (forall b, proper_outcome (k b)) -> proper_outcome (truth v k).
Proof. intros H. unfold truth. destruct (Val_Int64_cast v); [apply H|apply proper_of]. Qed.

Lemma proper_bind o k : proper_outcome o -> (forall v, proper_outcome (k v)) -> proper_outcome (obind o k).
Proof. by destruct o; cbn. Qed.

Lemma proper_math o x y : proper_outcome (math_value o x y).
Proof.
  unfold math_value, divide_by. destruct o; try apply proper_of; repeat case_match; try done; try apply proper_of.
Qed.

Lemma proper_bool o x y : proper_outcome (bool_math o x y).
Proof.
  unfold bool_math. destruct o; try apply proper_of; repeat case_match; try done; try apply proper_of;
    repeat (apply proper_truth; intros ?); done.
Qed.

Lemma proper_range o x y z : proper_outcome (range_value o x y z).
Proof. unfold range_value. destruct o; apply proper_of. Qed.

Lemma proper_eval look e : forall o, ol_eval look e = Some o -> proper_outcome o.
Proof.
  revert e. fix IH 1. intros e o. destruct e as [v|x loc| |b l r|t l r|m l [r|]| | | | | ]; try done.
  - by intros [= <-].
  - cbn. destruct (look x); [|done]. by intros [= <-].
  - destruct (bool_op b) as [b'|] eqn:Eb.
    + destruct r as [r|]; [|by rewrite eval_bool_none by (by rewrite Eb)]. rewrite (eval_bool _ _ _ _ _ Eb).
      destruct (ol_eval look l) as [x|] eqn:El; [|done]. destruct (ol_eval look r) as [y|] eqn:Er; [|done]. intros [= <-].
      apply proper_bind; [by eapply IH|]. intros v. apply proper_bind; [by eapply IH|]. intros w. apply proper_bool.
    + destruct b; try done.
      * cbn [ol_eval]. destruct (ol_eval look l) as [x|] eqn:El; [|done]. intros [= <-].
        apply proper_bind; [by eapply IH|]. intros v. by apply proper_truth.
      * destruct r as [[ | | | |t lo hi| | | | | | ]|]; try done. cbn [ol_eval].
        destruct (ol_eval look l) as [x|] eqn:El; [|done]. destruct (ol_eval look lo) as [y|] eqn:Elo; [|done].
        destruct (ol_eval look hi) as [z|] eqn:Ehi; [|done]. intros [= <-].
        apply proper_bind; [by eapply IH|]. intros v. apply proper_bind; [by eapply IH|]. intros w.
        apply proper_bind; [by eapply IH|]. intros u. apply proper_range.
      * by destruct r.
  - cbn [ol_eval]. destruct (math_op m) as [m'|]; [|done].
    destruct (ol_eval look l) as [x|] eqn:El; [|done]. destruct (ol_eval look r) as [y|] eqn:Er; [|done]. intros [= <-].
    apply proper_bind; [by eapply IH|]. intros v. apply proper_bind; [by eapply IH|]. intros w. apply proper_math.
Qed.

(** An expression of the fragment, with its value in [data]. *)
Definition fits (names : list string) (data : list value) (e : Parse_Expr) (o : outcome) (before after : list instr) : Prop :=
  ol_eval (look_in names data) e = Some o /\ ol_plain e /\ vector_free (app before (app (ol_code names e) after)) = true
  /\ Z.of_nat (length (constants (ol_code names e))) <= 65536.

Lemma fits_computes names data e o before after : Z.of_nat (length names) < 65535 -> fits names data e o before after ->
  computes_to nodeid data (ol_code names e) o.
Proof. intros Hn (He & _) prg n Hp. exists (ol_held e). by apply ol_computes. Qed.

Definition field_pieces (n : nat) : list (list instr) := field_piece <$> seq 0 n.

Lemma field_pieces_all (data : list value) : Z.of_nat (length data) < 65536 ->
  Forall2 (fun c v => computes_to nodeid data c (Val v)) (field_pieces (length data)) data.
Proof.
  intros Hl. unfold field_pieces. apply Forall2_fmap_l, Forall2_same_length_lookup_2; [by rewrite length_seq|].
  intros i k v Hk Hv. apply lookup_seq in Hk as [-> Hi]. by apply computes_field; [|lia].
Qed.

Definition select_code (names : list string) (e : Parse_Expr) : list instr :=
  app (ol_code names e) (app [IOp (op_index "not"); IOp (op_index "ifstop")] (build (field_pieces (length names + 1)))).

Lemma ifstop_loop prg data b w k m : error m = PE_SUCCESS -> result m = None -> exists m',
  execute_loop nodeid prg data (code_of 0 (IOp (op_index "ifstop")) :: k) (set_st ((bool_value b, w) :: st m) m)
    = (if b then (Ok PE_SUCCESS, m') else execute_loop nodeid prg data k m) /\ result m' = None.
Proof.
  intros He Hr. rewrite loop_step, (exec_named nodeid prg data _ "ifstop" 1 IFSTOP) by (done || cbn; lia).
  destruct m as [s e r f i w0]. cbn [error result] in He, Hr. subst e r.
  destruct b; cbn -[code_of execute_loop]; [by eexists|by exists (mkVM s PE_SUCCESS None f i w0)].
Qed.

(** A condition of a rule is compiled correctly: [pelSelect] writes a text that is
    read as a program, and the element that runs it passes a tuple on unchanged
    when the condition, computed from the fields of the tuple under the names
    known so far, comes out true; it drops it when it is false or reports an
    error code, and throws exactly what the computation throws. *)
Theorem rule_selection_compiled (names : list string) (data : list value) (e : Parse_Expr) (o : outcome) :
  length data = S (length names) -> Z.of_nat (length names) < 65535 ->
  fits names data e o [] (app [IOp (op_index "not"); IOp (op_index "ifstop")] (build (field_pieces (length names + 1)))) ->
  exists text prg, pelSelect names e = Ok text /\ PelTransform_mk text = Ok prg /\ forall m,
    match verdict o with
    | Ok b => exists m', PelTransform_simple_action nodeid prg data m = Ok (if b then Some data else None, m')
    | Fail f => PelTransform_simple_action nodeid prg data m = Fail f
    end.
Proof.
  intros Hd Hn Hf. pose proof (fits_computes _ _ _ _ _ _ Hn Hf) as Hc. destruct Hf as (He & Hp & Hv & Hs).
  destruct (ol_text names Hn data e o He Hp) as [Ht Hr].
  exists (program_text (select_code names e)), (load (select_code names e)). split.
  { unfold pelSelect, select_code. rewrite Ht. cbn [rbind]. rewrite !program_text_app, pop_texts_build. done. }
  split.
  { apply compile_program_text; [|done]. unfold select_code. rewrite !Forall_app. split; [done|]. split; [by repeat constructor|].
    apply build_readable, fields_readable, Forall_seq. intros k Hk. lia. }
  intros m. unfold PelTransform_simple_action, execute. rewrite load_eq. cbn [ops].
  set (prg := mkProgram _ _). set (m0 := set_result None _).
  assert (Hpool : pooled prg 0 (constants (ol_code names e))).
  { apply pooled_whole; [|done]. unfold prg, select_code. cbn [const_pool]. rewrite !constants_app.
    unfold field_pieces. rewrite fields_constants. cbn. by rewrite app_nil_r. }
  destruct (Hc prg O Hpool) as [w Hw].
  assert (Hnot : runs_to nodeid prg data (app (codes 0 (ol_code names e)) [code_of 0 (IOp (op_index "not"))])
    (obind o (fun x => truth x (fun b => Val (bool_value (negb b))))) Fresh).
  { eapply runs_op1; [exact Hw|]. intros a. apply not_steps. }
  unfold select_code. rewrite codes_app. set (n1 := (0 + _)%nat).
  change (codes n1 (app [IOp (op_index "not"); IOp (op_index "ifstop")] (build (field_pieces (length names + 1)))))
    with (code_of 0 (IOp (op_index "not")) :: code_of 0 (IOp (op_index "ifstop")) :: codes (n1 + 0 + 0) (build (field_pieces (length names + 1)))).
  specialize (Hnot (code_of 0 (IOp (op_index "ifstop")) :: codes (n1 + 0 + 0) (build (field_pieces (length names + 1)))) m0 eq_refl).
  rewrite <- app_assoc in Hnot. cbn [app] in Hnot.
  assert (Hpr : proper_outcome o) by (by eapply proper_eval). unfold verdict.
  destruct o as [v|c|f]; cbn [obind continues] in Hnot |- *.
  - unfold truth in Hnot |- *. destruct (Val_Int64_cast v) as [z|f].
    + cbn [continues] in Hnot. rewrite Hnot.
      destruct (ifstop_loop prg data (negb (negb (z =? 0)%Z)) Fresh (codes (n1 + 0 + 0) (build (field_pieces (length names + 1)))) m0)
        as (m' & -> & Hm'); [done|done|]. destruct (z =? 0)%Z; cbn [negb].
      * exists m'. unfold result_tuple. by rewrite Hm', bool_decide_false.
      * rewrite <- (app_nil_r (codes (n1 + 0 + 0) _)). replace (length names + 1)%nat with (length data) by lia.
        rewrite (build_loop nodeid prg data (field_pieces (length data)) data); [|apply field_pieces_all; lia| |done].
        -- cbn [execute_loop]. rewrite add_result_error. cbn [error m0]. unfold result_tuple.
           rewrite add_result_some; [|by destruct data|done]. rewrite bool_decide_true by done. by eexists.
        -- unfold field_pieces. rewrite fields_constants. intros i u Hi. by rewrite lookup_nil in Hi.
    + assert (Hpo := proper_of VInt64 (Fail f)). destruct (outcome_of VInt64 (Fail f)) as [v'|c|f'] eqn:E; [by destruct f| |].
      * destruct Hnot as [m' ->]. exists m'. by destruct c.
      * by destruct Hnot as [m' ->].
  - destruct Hnot as [m' ->]. exists m'. by destruct c.
  - by destruct Hnot as [m' ->].
Qed.

(** An assignment of a rule to a new variable is compiled correctly: the element
    that runs the text [pelAssign] writes passes on the tuple with the value of
    the expression as its last field, under the names extended by the variable;
    on an error code it drops the tuple, and it throws what the computation
    throws. *)
Theorem rule_assignment_compiled (names : list string) (data : list value) (x : string) (e : Parse_Expr) (o : outcome) :
  length data = S (length names) -> Z.of_nat (length names) < 65535 -> fieldPosition names x = None ->
  fits names data e o (build (field_pieces (length names + 1))) [IOp (op_index "pop")] ->
  exists text prg, pelAssign names x e = Ok (text, app names [x]) /\ PelTransform_mk text = Ok prg /\ forall m,
    match o with
    | Val v => exists m', PelTransform_simple_action nodeid prg data m = Ok (Some (app data [v]), m')
    | Code _ => exists m', PelTransform_simple_action nodeid prg data m = Ok (None, m')
    | Raise f => PelTransform_simple_action nodeid prg data m = Fail f
    end.
Proof.
  intros Hd Hn Hx Hf. pose proof (fits_computes _ _ _ _ _ _ Hn Hf) as Hc. destruct Hf as (He & Hp & Hv & Hs).
  destruct (ol_text names Hn data e o He Hp) as [Ht Hr].
  set (cs := app (field_pieces (length names + 1)) [ol_code names e]).
  assert (Hcs : build cs = app (build (field_pieces (length names + 1))) (app (ol_code names e) [IOp (op_index "pop")])).
  { unfold cs. rewrite build_app, build_cons. done. }
  assert (Hcon : constants (build cs) = constants (ol_code names e)).
  { rewrite Hcs, !constants_app. unfold field_pieces. rewrite fields_constants. cbn. by rewrite app_nil_r. }
  assert (Hall : Forall2 (fun c v => computes_to nodeid data c (Val v)) (field_pieces (length names + 1)) data).
  { replace (length names + 1)%nat with (length data) by lia. apply field_pieces_all. lia. }
  exists (program_text (build cs)), (load (build cs)). split.
  { unfold pelAssign. rewrite Ht, Hx. cbn [rbind]. rewrite Hcs, !program_text_app, pop_texts_build. done. }
  split.
  { apply compile_program_text; [|by rewrite Hcs]. rewrite Hcs, !Forall_app. split; [|split; [done|by repeat constructor]].
    apply build_readable, fields_readable, Forall_forall. intros k Hk%elem_of_seq. lia. }
  intros m. assert (Hpr : proper_outcome o) by (by eapply proper_eval). destruct o as [v|c|f].
  - apply transform_builds; [by destruct data| |by rewrite Hcon]. apply Forall2_app; [done|]. by repeat constructor.
  - apply (transform_fails nodeid data _ _ _ [] (Code c) m Hall Hc); [fold cs; by rewrite Hcon|done].
  - apply (transform_fails nodeid data _ _ _ [] (Raise f) m Hall Hc). fold cs. by rewrite Hcon.
Qed.

(** An assignment to a variable that is known overwrites the field before that of
    the variable, because the name of the tuple is not counted: the variable
    keeps its value. *)
Theorem rule_reassignment_misplaced :
  pelAssign ["A"; "B"; "C"] "B" (Parse_Val (VInt64 9)) = Ok ("$0 pop 9 pop $2 pop $3 pop ", ["A"; "B"; "C"])
  /\ look_in ["A"; "B"; "C"] [VStr "t"; VInt64 9; VInt64 2; VInt64 3] "B" = Some (VInt64 2).
Proof. done. Qed.

(** Functions of the language whose text is no program: [f_getMatrixOffset] asks
    for its 22nd argument and throws, and the mnemonics written for [f_consList]
    and [f_inList] are not those of an operation. *)
Theorem rule_functions_broken (names : list string) (a b c : Parse_Expr) (sa sb sc : string) :
  expr2Pel names a = Ok sa -> expr2Pel names b = Ok sb -> expr2Pel names c = Ok sc ->
  expr2Pel names (Parse_Function "f_getMatrixOffset" [a; b; c]) = Fail OutOfRange
  /\ expr2Pel names (Parse_Function "f_consList" [a; b]) = Ok ((sa +:+ sb +:+ "") +:+ "conslist ")
  /\ token_code "conslist" jump_table 0 = None /\ token_code "inlist" jump_table 0 = None.
Proof. intros Ha Hb Hc. cbn [expr2Pel fmap list_fmap]. rewrite Ha, Hb, Hc. by vm_compute. Qed.
End conditions.

(** ** Examples *)

Section examples.
#[local] Existing Instance bare_platform.
#[local] Existing Instance still_externals.

Definition lt_xy : Parse_Expr := Parse_Bool OLBool.LT (Parse_Var "X" false) (Some (Parse_Var "Y" false)).

Lemma rule_selection_compiled_witness : exists text prg,
  pelSelect ["X"; "Y"] lt_xy = Ok text /\ PelTransform_mk text = Ok prg /\
  exists m', PelTransform_simple_action VNull prg [VStr "p"; VInt64 3; VInt64 5] example_vm
    = Ok (Some [VStr "p"; VInt64 3; VInt64 5], m').
Proof.
  destruct (rule_selection_compiled VNull ["X"; "Y"] [VStr "p"; VInt64 3; VInt64 5] lt_xy (Val (bool_value true)))
    as (text & prg & H1 & H2 & H3).
  - reflexivity.
  - cbn. lia.
  - split; [reflexivity|]. split; [done|]. split; [vm_compute; reflexivity|vm_compute; discriminate].
  - exists text, prg. split; [exact H1|]. split; [exact H2|]. exact (H3 example_vm).
Defined.

Definition double_y : Parse_Expr := Parse_Math OLMath.TIMES (Parse_Var "Y" false) (Some (Parse_Val (VInt64 2))).

Lemma rule_assignment_compiled_witness : exists text prg,
  pelAssign ["X"; "Y"] "Z" double_y = Ok (text, ["X"; "Y"; "Z"]) /\ PelTransform_mk text = Ok prg /\
  exists m', PelTransform_simple_action VNull prg [VStr "p"; VInt64 3; VInt64 5] example_vm
    = Ok (Some [VStr "p"; VInt64 3; VInt64 5; VInt64 10], m').
Proof.
  destruct (rule_assignment_compiled VNull ["X"; "Y"] [VStr "p"; VInt64 3; VInt64 5] "Z" double_y (Val (VInt64 10)))
    as (text & prg & H1 & H2 & H3).
  - reflexivity.
  - cbn. lia.
  - reflexivity.
  - split; [reflexivity|]. split; [repeat split; unfold readable, is_i64; lia|].
    split; [vm_compute; reflexivity|vm_compute; discriminate].
  - exists text, prg. split; [exact H1|]. split; [exact H2|]. exact (H3 example_vm).
Defined.
End examples.
