(* ===== verification/RulePlanner.v ===== *)
(** * Strands for event-condition-action rules (src/planner/rulePlanner.C,
      ruleStrand.C, planContext.h, planner.C)

    For each rule the planner makes a strand: a chain of elements that starts
    where the event arrives, probes the tables the rule names, applies its
    conditions and assignments, projects the head and does the action.  The
    names the elements get for the log are left out; an element is known by its
    class and the arguments that matter.  The listeners some elements put on
    tables belong to the elements (Elements.v, Joins.v).

    [run_chain] says what flows through such a chain: every element takes the
    tuples it is given in turn.  Its cases are those of the elements, which
    Joins.v, Elements.v and Transforms.v model. *)

From Stdlib Require Import SpecFloat Ascii String.
From S2P Require Import Prelude Ids Stl Values Tuples Aggs Keys CommonTable TableInv RefTable TableLookup Table2 Fdbuf Xdr Casts Oper Names Exprs Pel PelLexer PelSafe PelText PelGen PelCorrect Elements Joins AggWrap Transforms Overlog Rules Localize Eca RulePel.

Local Open Scope p2_scope.

(** ** Strands *)

Inductive elem_spec :=
  | EUpdate (table : string) | ERefresh (table : string) | ERemoved (table : string)
  | EPrint (output : string)
  | ETimedPullPush                                   (* [TimedPullPush(0, 0)] *)
  | ETimer (period : string) (count : Z)             (* [TimedPullPush(atof(period), count)] *)
  | EQueue (size : Z) | ESlot | EDiscard
  | EStaticSource (t : list value)
  | EAggregate (table : string) (handle : nat)
  | EPelTransform (text : string)
  | ELookup2 (table : string) (lookupKey indexKey : Key) (completion : option Z)
  | ENoNull
  | EInsert (table : string) | EDelete (table : string)
  | EStage (name : string).

Section planner.
Context `{P : Platform} {CB : Type}.

(** [PlanContext] with its [RuleStrand]: [pc_chain] is [_elementChain], and
    [pc_wrapped] the number of its elements that are inside the aggregation
    wrapper, once there is one. *)
Record PlanContext := mkPlanContext {
  pc_store : TableStore;
  pc_watches : list (string * string);
  pc_nodeID : string;
  pc_rule : ECA_Rule;
  pc_names : list string;
  pc_agg : option (Aggwrap CB);
  pc_chain : list elem_spec;
  pc_wrapped : option nat
}.

Definition with_store (ts : TableStore) (pc : PlanContext) : PlanContext :=
  mkPlanContext ts (pc_watches pc) (pc_nodeID pc) (pc_rule pc) (pc_names pc) (pc_agg pc) (pc_chain pc) (pc_wrapped pc).
Definition with_names (ns : list string) (pc : PlanContext) : PlanContext :=
  mkPlanContext (pc_store pc) (pc_watches pc) (pc_nodeID pc) (pc_rule pc) ns (pc_agg pc) (pc_chain pc) (pc_wrapped pc).
Definition with_agg (A : Aggwrap CB) (pc : PlanContext) : PlanContext :=
  mkPlanContext (pc_store pc) (pc_watches pc) (pc_nodeID pc) (pc_rule pc) (pc_names pc) (Some A) (pc_chain pc) (pc_wrapped pc).

Definition event_of (x : ECA_Rule) : res (Parse_Functor * PEvent.Event) := of_option UndefinedBehaviour (eca_event x).
Definition action_of (x : ECA_Rule) : res (Parse_Functor * PAction.Action) := of_option UndefinedBehaviour (eca_action x).

(** [PlanContext::PlanContext] *)
Definition PlanContext_mk (ts : TableStore) (watches : list (string * string)) (nodeID : string) (x : ECA_Rule)
    : res PlanContext :=
  let? (f, _) := event_of x in
  Ok (mkPlanContext ts watches nodeID x (FieldNamesTracker_mk (TFunctor f)) None [] None).

(** [addElementSpec], [RuleStrand::addElement]: the element is hooked up behind
    the last one. *)
Definition addElement (s : elem_spec) (pc : PlanContext) : PlanContext :=
  mkPlanContext (pc_store pc) (pc_watches pc) (pc_nodeID pc) (pc_rule pc) (pc_names pc) (pc_agg pc)
    (pc_chain pc ++ [s]) (pc_wrapped pc).

(** [RuleStrand::aggWrapperElement]: a [TimedPullPush] ends the inner part, the
    slot behind the wrapper starts the rest. *)
Definition aggWrapperElement (pc : PlanContext) : res PlanContext :=
  let? _ := check (negb (length (pc_chain pc) =? 0)%nat) Exited in
  let pc := addElement ETimedPullPush pc in
  Ok (mkPlanContext (pc_store pc) (pc_watches pc) (pc_nodeID pc) (pc_rule pc) (pc_names pc) (pc_agg pc)
        (pc_chain pc ++ [ESlot]) (Some (length (pc_chain pc)))).

(** [getEventElement], [getActionElement] *)
Definition getEventElement (pc : PlanContext) : res elem_spec := of_option OutOfRange (pc_chain pc !! O).
Definition getActionElement (pc : PlanContext) : res elem_spec := of_option OutOfRange (last (pc_chain pc)).

(** ** Tables *)

(** [TableStore::getTableByName] *)
Definition getTableByName (name : string) (ts : TableStore) : res CommonTable :=
  of_option Exited (ts_tables ts !! name).

Definition on_table (f : table -> table) (T : CommonTable) : CommonTable :=
  match T with ARefTable T => ARefTable (f T) | ATable2 T => ATable2 (Table2.on_base f T) end.
Definition base_of (T : CommonTable) : table := match T with ARefTable T => T | ATable2 T => Table2.t2_base T end.

Definition set_table (name : string) (T : CommonTable) (ts : TableStore) : TableStore :=
  mkStore (ts_infos ts) (<[name := T]> (ts_tables ts)) (ts_secondary ts).

(** The name under which an index is remembered. *)
Definition index_name (name : string) (key : Key) : string :=
  name +:+ ":" +:+ fold_right (fun k s => dec_string (Z.of_nat k) +:+ "_" +:+ s) "" key.

(** [createSecondaryIndex] of the planner *)
Definition plan_index (name : string) (key : Key) (ts : TableStore) : res TableStore :=
  let? T := getTableByName name ts in
  match checkSecondaryIndex (index_name (t_name (base_of T)) key) ts with
  | (true, ts) => Ok ts
  | (false, ts) => Ok (set_table name (on_table (createSecondaryIndex key) T) ts)
  end.

(** ** Events *)

(** [addPrint] *)
Definition addPrint (b functorName : string) (m : ascii) (pc : PlanContext) : PlanContext :=
  match List.find (fun w => (fst w =? functorName)%string) (pc_watches pc) with
  | None => pc
  | Some (_, mods) =>
      if modifier m mods
      then addElement (EPrint (b +:+ "!" +:+ functorName +:+ "!" +:+ eca_ruleID (pc_rule pc) +:+ "!" +:+ pc_nodeID pc)) pc
      else pc
  end.

(** [generateInsertEvent], [generateRefreshEvent], [generateDeleteEvent], which
    differ in the element that listens to the table. *)
Definition table_event (listener : string -> elem_spec) (what : string) (m : ascii) (pc : PlanContext) : res PlanContext :=
  let? (f, _) := event_of (pc_rule pc) in
  let pc := with_names (FieldNamesTracker_mk (TFunctor f)) pc in
  let? _ := getTableByName (fn f) (pc_store pc) in
  let pc := addPrint what (fn f) m (addElement (listener (fn f)) pc) in
  Ok (if (0 <? length (eca_probeTerms (pc_rule pc)))%nat then addElement ETimedPullPush pc else pc).
Definition generateInsertEvent : PlanContext -> res PlanContext := table_event EUpdate "InsertEvent" "i".
Definition generateRefreshEvent : PlanContext -> res PlanContext := table_event ERefresh "RefreshEvent" "r".
Definition generateDeleteEvent : PlanContext -> res PlanContext := table_event ERemoved "DeleteEvent" "d".

Definition QUEUESIZE : Z := 1000.

(** [generateReceiveEvent] *)
Definition generateReceiveEvent (pc : PlanContext) : res PlanContext :=
  let? (f, _) := event_of (pc_rule pc) in
  let pc := addPrint "RecvEvent" (fn f) "c" (with_names (FieldNamesTracker_mk (TFunctor f)) pc) in
  Ok (if (length (eca_probeTerms (pc_rule pc)) =? 0)%nat then addElement (EQueue QUEUESIZE) pc else pc).

(** [fieldPosition(...) + 1], which is 0 for a name that is not there. *)
Definition column (names : list string) (x : string) : nat :=
  match fieldPosition names x with Some p => S p | None => O end.

(** The loop of [generateAggEvent] over the head: the group-by columns and the
    names. *)
Fixpoint group_columns (names : list string) (aggField : option nat) (k : nat) (args : list Parse_Expr) : list nat * list string :=
  match args with
  | [] => ([], [])
  | a :: args' =>
      let '(cols, ns) := group_columns names aggField (S k) args' in
      match var_name a with
      | Some x => if bool_decide (aggField = Some k) then (cols, ns) else (column names x :: cols, x :: ns)
      | None => (cols, ns)
      end
  end.

(** The text of a projection: the name and some fields, without a blank at the
    end. *)
Definition project_text (name : string) (ks : list nat) : string :=
  quoted name +:+ " pop" +:+ fold_right (fun k s => " $" +:+ dec_string (Z.of_nat k) +:+ " pop" +:+ s) "" ks.

Definition agg_arg (f : failure) (e : Parse_Expr) : res (string * string) :=
  match e with Parse_Agg v oper _ => Ok (v, oper) | _ => Fail f end.

(** [generateAggEvent] *)
Definition generateAggEvent (pc : PlanContext) : res PlanContext :=
  let x := pc_rule pc in
  let? (f, _) := event_of x in
  let? (g, _) := action_of x in
  let names := FieldNamesTracker_mk (TFunctor f) in
  let pc := with_names names pc in
  let '(groupByFields, ns) := group_columns names (Functor_aggregate g) 0 (args_ g) in
  let? a := of_option OutOfRange (Functor_aggregate g) in
  let? e := of_option OutOfRange (args_ g !! a) in
  let? (aggVar, oper) := agg_arg UndefinedBehaviour e in
  let ns := ns ++ [aggVar] in
  let? _ := getTableByName (fn f) (pc_store pc) in
  let? ts := plan_index (fn f) groupByFields (pc_store pc) in
  let? T := getTableByName (fn f) ts in
  let? (h, base) := of_option Exited (aggregate groupByFields (column names aggVar) oper (base_of T)) in
  let pc := with_store (set_table (fn f) (on_table (fun _ => base) T) ts) pc in
  let text := project_text ("aggResult!" +:+ eca_ruleID x) (seq 0 (length ns)) in
  Ok (with_names ns (addElement (EPelTransform text) (addElement (EAggregate (fn f) h) pc))).

(** [generatePeriodicEvent] *)
Definition generatePeriodicEvent (pc : PlanContext) : res PlanContext :=
  let x := pc_rule pc in
  let? (f, _) := event_of x in
  let pc := addElement (EStaticSource [VStr ("periodic_" +:+ eca_ruleID x); VStr (pc_nodeID pc)]) pc in
  let? _ := check (3 <=? length (args_ f))%nat Exited in
  let? p := of_option OutOfRange (args_ f !! 2%nat) in
  let? period := Parse_toString p in
  let? count := match args_ f !! 3%nat with
    | Some c => let? s := Parse_toString c in Ok (atoi s)
    | None => Ok 0
    end in
  let pc := addElement (ETimer period count) (addElement (EPelTransform "$0 pop $1 pop rand pop") pc) in
  let pc := if (length (eca_probeTerms x) =? 0)%nat then addElement ESlot pc else pc in
  Ok (addPrint "PeriodicEvent" "periodic" "p" pc).

(** [generateEventElement] *)
Definition generateEventElement (pc : PlanContext) : res PlanContext :=
  let? (f, e) := event_of (pc_rule pc) in
  let? (g, _) := action_of (pc_rule pc) in
  match e with
  | PEvent.REFRESH => generateRefreshEvent pc
  | PEvent.INSERT =>
      if Functor_aggregate g is Some _ then generateAggEvent pc
      else if (fn f =? "periodic")%string then generatePeriodicEvent pc
      else generateInsertEvent pc
  | PEvent.DELETE => generateDeleteEvent pc
  | PEvent.RECV => generateReceiveEvent pc
  end.

(** ** Probes *)

(** The projection behind a lookup: all fields of the probing tuple, and those of
    the table's tuple that were not looked up. *)
Definition join_text (name : string) (numFieldsProbe : nat) (remaining : Key) : string :=
  quoted name +:+ " pop "
    +:+ fold_right (fun k s => "$0 " +:+ dec_string (Z.of_nat k + 1) +:+ " field pop " +:+ s) "" (seq 0 numFieldsProbe)
    +:+ fold_right (fun k s => "$1 " +:+ dec_string (Z.of_nat k) +:+ " field pop " +:+ s) "" remaining.

(** [generateProbeElements]; next to the context, the name of the joined
    tuples. *)
Definition generateProbeElements (inner : Parse_Functor) (probeName : string) (comp_cb : option Z) (pc : PlanContext)
    : res (string * PlanContext) :=
  let x := pc_rule pc in
  let? (f, _) := event_of x in
  let outer := pc_names pc in
  let innerNames := FieldNamesTracker_mk (TFunctor inner) in
  let '(outerLookupKey, innerIndexKey, remaining) := tracker_joinKeys innerNames outer 1 in
  let pc := addPrint "BeforeJoin" probeName "b" pc in
  let? _ := check (negb (length outerLookupKey =? 0)%nat) Exited in
  let? _ := getTableByName (fn inner) (pc_store pc) in
  let? ti := of_option UndefinedBehaviour (getTableInfo (fn inner) (pc_store pc)) in
  let? ts :=
    if bool_decide (primaryKeys ti = Z.of_nat <$> innerIndexKey) then Ok (pc_store pc)
    else plan_index (fn inner) innerIndexKey (pc_store pc) in
  let pc := with_names (mergeWith outer innerNames) (with_store ts pc) in
  let pc := addElement ENoNull (addElement (ELookup2 (fn inner) outerLookupKey innerIndexKey comp_cb) pc) in
  let result := "join" +:+ fn f +:+ fn inner +:+ eca_ruleID x in
  let pc := addPrint "AfterJoin" result "j" pc in
  Ok (result, addElement (EPelTransform (join_text result (length outer) remaining)) pc).

(** The loop of [generateMultipleProbeElements]. *)
Fixpoint probe_loop (ps : list Parse_Functor) (probeName : string) (pc : PlanContext) : res PlanContext :=
  match ps with
  | [] => Ok pc
  | p :: ps' =>
      let? (comp, pc) :=
        if eca_aggWrap (pc_rule pc) then
          let? A := of_option UndefinedBehaviour (pc_agg pc) in
          let? (j, A) := get_comp_cb A in
          Ok (Some j, with_agg A pc)
        else Ok (None, pc) in
      let? (name, pc) := generateProbeElements p probeName comp pc in
      probe_loop ps' name (if ps' is [] then pc else addElement ETimedPullPush pc)
  end.
Definition generateMultipleProbeElements (pc : PlanContext) : res PlanContext :=
  let? (f, _) := event_of (pc_rule pc) in
  probe_loop (eca_probeTerms (pc_rule pc)) (fn f) pc.

(** ** Conditions, assignments, head *)

(** The loop of [generateSelectionAssignmentElements]. *)
Fixpoint select_assign_loop (ts : list Parse_Term) (pc : PlanContext) : res PlanContext :=
  match ts with
  | [] => Ok pc
  | TSelect e :: ts' =>
      let? text := pelSelect (pc_names pc) e in
      select_assign_loop ts' (addElement (EPelTransform text) pc)
  | TAssign x e :: ts' =>
      let? (text, names) := pelAssign (pc_names pc) x e in
      select_assign_loop ts' (addElement (EPelTransform text) (with_names names pc))
  | _ :: ts' => select_assign_loop ts' pc
  end.
Definition generateSelectionAssignmentElements (pc : PlanContext) : res PlanContext :=
  select_assign_loop (eca_selectAssignTerms (pc_rule pc)) pc.

(** The loop of [generateProjectElements]: the columns and names of the head. *)
Fixpoint head_columns (names : list string) (args : list Parse_Expr) : res (list nat * list string) :=
  match args with
  | [] => Ok ([], [])
  | a :: args' =>
      match a with
      | Parse_Var x _ =>
          let? p := of_option Exited (fieldPosition names x) in
          let? (ks, ns) := head_columns names args' in Ok (S p :: ks, x :: ns)
      | Parse_Agg x _ _ =>
          let? (ks, ns) := head_columns names args' in
          Ok (if fieldPosition names x is Some p then (S p :: ks, x :: ns) else (ks, ns))
      | _ => head_columns names args'
      end
  end.

(** [generateProjectElements] *)
Definition generateProjectElements (pc : PlanContext) : res PlanContext :=
  let? (g, _) := action_of (pc_rule pc) in
  let? (ks, ns) := head_columns (pc_names pc) (args_ g) in
  let pc := addElement (EPelTransform (project_text (fn g) ks)) pc in
  Ok (with_names ns (addPrint "HeadProjection" (fn g) "h" pc)).

(** ** The wrapper of an aggregate *)

(** [initializeAggWrap]; the argument of an aggregate without a variable is the
    star. *)
Definition initializeAggWrap (seen : bool) (pc : PlanContext) : res PlanContext :=
  let x := pc_rule pc in
  if eca_aggWrap x then
    let? (g, _) := action_of x in
    let? a := of_option OutOfRange (Functor_aggregate g) in
    let? e := of_option OutOfRange (args_ g !! a) in
    let? (v, oper) := agg_arg Exited e in
    let? A := Aggwrap_mk seen oper (Z.of_nat a + 1) (v =? "*")%string (fn g) in
    Ok (with_agg A pc)
  else Ok pc.

(** The loop of [generateAggWrap]. *)
Fixpoint group_loop (eventNames : list string) (aggField : option nat) (k : nat) (args : list Parse_Expr) (A : Aggwrap CB)
    : res (Aggwrap CB) :=
  match args with
  | [] => Ok A
  | a :: args' =>
      if bool_decide (aggField = Some k) then group_loop eventNames aggField (S k) args' A
      else
        let? s := Parse_toString a in
        let? p := of_option Exited (fieldPosition eventNames s) in
        group_loop eventNames aggField (S k) args' (registerGroupbyField (Z.of_nat p + 1) A)
  end.

(** [generateAggWrap] *)
Definition generateAggWrap (pc : PlanContext) : res PlanContext :=
  let x := pc_rule pc in
  if eca_aggWrap x then
    let? (f, _) := event_of x in
    let? (g, _) := action_of x in
    let? pc := aggWrapperElement pc in
    let? A := of_option UndefinedBehaviour (pc_agg pc) in
    let? A := group_loop (FieldNamesTracker_mk (TFunctor f)) (Functor_aggregate g) 0 (args_ g) A in
    Ok (with_agg A pc)
  else Ok pc.

(** ** Actions *)

(** [generateAddAction], [generateDeleteAction], [generateDropAction] *)
Definition generateAddAction (pc : PlanContext) : res PlanContext :=
  let? (g, _) := action_of (pc_rule pc) in
  let pc := addPrint "AddAction" (fn g) "a" pc in
  let? _ := getTableByName (fn g) (pc_store pc) in
  Ok (addElement EDiscard (addElement (EInsert (fn g)) (addElement ETimedPullPush pc))).
Definition generateDeleteAction (pc : PlanContext) : res PlanContext :=
  let? (g, _) := action_of (pc_rule pc) in
  let pc := addPrint "DeleteAction" (fn g) "z" pc in
  let? _ := getTableByName (fn g) (pc_store pc) in
  Ok (addElement (EDelete (fn g)) (addElement ETimedPullPush pc)).
Definition generateDropAction (pc : PlanContext) : PlanContext := addElement EDiscard (addElement ETimedPullPush pc).

(** The loop of [generateSendAction] that looks for the location; the last
    argument found counts. *)
Fixpoint location_index (loc : string) (k : nat) (args : list Parse_Expr) (found : option nat) : option nat :=
  match args with
  | [] => found
  | a :: args' =>
      let here := match a with Parse_Var v _ | Parse_Agg v _ _ => fieldNameEq v loc | _ => false end in
      location_index loc (S k) args' (if here then Some (S k) else found)
  end.

(** [generateSendAction] *)
Definition generateSendAction (pc : PlanContext) : res PlanContext :=
  let? (g, _) := action_of (pc_rule pc) in
  let? k := of_option Exited (location_index (getlocspec g) 0 (args_ g) None) in
  let pc := addPrint "SendAction" (fn g) "s" pc in
  Ok (addElement (EPelTransform ("$" +:+ dec_string (Z.of_nat k) +:+ " pop swallow pop")) pc).

(** [generateActionElement] *)
Definition generateActionElement (pc : PlanContext) : res PlanContext :=
  let? (_, a) := action_of (pc_rule pc) in
  match a with
  | PAction.ADD => generateAddAction pc
  | PAction.DELETE => generateDeleteAction pc
  | PAction.SEND => generateSendAction pc
  | PAction.DROP => Ok (generateDropAction pc)
  end.

(** ** Rules *)

(** [compileECARule] *)
Definition compileECARule (seen : bool) (pc : PlanContext) : res PlanContext :=
  let? pc := initializeAggWrap seen pc in
  let? pc := generateEventElement pc in
  let? pc := generateMultipleProbeElements pc in
  let? pc := generateSelectionAssignmentElements pc in
  let? pc := generateProjectElements pc in
  let? pc := generateAggWrap pc in
  generateActionElement pc.

(** [Planner::generateRuleStrands]: the strands with their numbers, and the
    tables with the indices and aggregates the strands need.  [seen] is what
    is in the memory of a new wrapper. *)
Fixpoint generateRuleStrands (seen : bool) (watches : list (string * string)) (nodeID : string) (xs : list ECA_Rule)
    (count : Z) (ts : TableStore) : res (list (string * PlanContext) * Z * TableStore) :=
  match xs with
  | [] => Ok ([], count, ts)
  | x :: xs' =>
      let strandID := dec_string count +:+ "-" +:+ nodeID in
      let? pc := PlanContext_mk ts watches nodeID x in
      let? pc := compileECARule seen pc in
      let? (rest, count, ts) := generateRuleStrands seen watches nodeID xs' (count + 1) (pc_store pc) in
      Ok ((strandID, pc) :: rest, count, ts)
  end.

(** [Planner::generateStageStrand], with its [generateSendAction]: the tuples of
    the stage get a new name and are sent to the location in their first
    field. *)
Definition stage_print (watches : list (string * string)) (functorName strandID nodeID : string) : list elem_spec :=
  match List.find (fun w => (fst w =? functorName)%string) watches with
  | Some (_, mods) =>
      if modifier "s" mods then [EPrint ("SendAction!" +:+ functorName +:+ "!" +:+ strandID +:+ "!" +:+ nodeID)] else []
  | None => []
  end.
Definition generateStageStrand (watches : list (string * string)) (nodeID stageName outputTupleName strandID : string)
    : list elem_spec :=
  [ESlot; EStage stageName; EPelTransform ("swallow unbox drop " +:+ quoted outputTupleName +:+ " pop  popall")]
  ++ stage_print watches outputTupleName strandID nodeID
  ++ [EPelTransform "$1 pop swallow pop"].
End planner.
Arguments PlanContext : clear implicits.

(** ** What flows through a chain *)

Section flow.
Context `{P : Platform} `{X : Externals} (nodeid : value) (D : string -> list (list value)).

Definition as_tuple (vs : list value) : tuple := mkTuple vs true 0.

(** The tuples of a table that a lookup delivers. *)
Definition probe_matches (lookupKey indexKey : Key) (t : list value) (us : list (list value)) : list (list value) :=
  filter (fun u => answers lookupKey indexKey (as_tuple t) (as_tuple u)) us.

(** One tuple through one element, whose machine is [m]: [PelTransform],
    [Lookup2] on a table that holds [D table], [NoNull]; the actions end a
    strand, the rest hands on what it is given. *)
Definition elem_step (s : elem_spec) (t : list value) (m : vm) : res (list (list value) * vm) :=
  match s with
  | EPelTransform text =>
      let? prg := PelTransform_mk text in
      let? (o, m) := PelTransform_simple_action nodeid prg t m in Ok (option_list o, m)
  | ELookup2 name lookupKey indexKey _ =>
      Ok (pairs_with (as_tuple t) (as_tuple <$> probe_matches lookupKey indexKey t (D name)) ++ [[]], m)
  | ENoNull => Ok (if (0 <? length t)%nat then [t] else [], m)
  | EInsert _ | EDelete _ | EDiscard => Ok ([], m)
  | _ => Ok ([t], m)
  end.

Fixpoint feed (s : elem_spec) (ts : list (list value)) (m : vm) : res (list (list value) * vm) :=
  match ts with
  | [] => Ok ([], m)
  | t :: ts' =>
      let? (o, m) := elem_step s t m in
      let? (o', m) := feed s ts' m in
      Ok (o ++ o', m)
  end.

(** [machine i] is the machine of the [i]-th element. *)
Fixpoint run_chain (ss : list elem_spec) (machine : nat -> vm) (i : nat) (ts : list (list value)) : res (list (list value)) :=
  match ss with
  | [] => Ok ts
  | s :: ss' => let? (o, _) := feed s ts (machine i) in run_chain ss' machine (S i) o
  end.

(** Whatever is left in the machines, [ss] turns [ts] into [os]. *)
Definition flows (ss : list elem_spec) (ts os : list (list value)) : Prop :=
  forall machine i, run_chain ss machine i ts = Ok os.

Lemma run_chain_app a b machine i ts :
  run_chain (a ++ b) machine i ts = let? o := run_chain a machine i ts in run_chain b machine (i + length a) o.
Proof.
  revert i ts. induction a as [|s a IH]; intros i ts; cbn [app run_chain rbind length]; [by rewrite Nat.add_0_r|].
  destruct (feed s ts (machine i)) as [[o m]|]; [|done]. cbn [rbind]. rewrite IH.
  replace (i + S (length a))%nat with (S i + length a)%nat by lia. done.
Qed.

Lemma flows_app a b ts us os : flows a ts us -> flows b us os -> flows (a ++ b) ts os.
Proof. intros Ha Hb machine i. rewrite run_chain_app, Ha. apply Hb. Qed.

Lemma feed_each s g ts : Forall (fun t => forall m, exists m', elem_step s t m = Ok (g t, m')) ts ->
  forall m, exists m', feed s ts m = Ok (ts ≫= g, m').
Proof.
  induction 1 as [|t ts Ht _ IH]; intros m; [by eexists|]. cbn [feed]. destruct (Ht m) as [m1 ->]. cbn [rbind].
  destruct (IH m1) as [m2 ->]. by eexists.
Qed.

Lemma flows_one s g ts : Forall (fun t => forall m, exists m', elem_step s t m = Ok (g t, m')) ts -> flows [s] ts (ts ≫= g).
Proof. intros H machine i. cbn [run_chain]. destruct (feed_each s g ts H (machine i)) as [m ->]. done. Qed.

(** Elements that only hand on. *)
Definition passive (s : elem_spec) : Prop :=
  match s with EPelTransform _ | ELookup2 _ _ _ _ | ENoNull | EInsert _ | EDelete _ | EDiscard => False | _ => True end.

Lemma bind_singleton {A} (l : list A) : (l ≫= fun t => [t]) = l.
Proof. induction l as [|t l IH]; [done|]. cbn. by rewrite IH. Qed.

Lemma flows_passive ss ts : Forall passive ss -> flows ss ts ts.
Proof.
  induction 1 as [|s ss Hs _ IH]; [by intros ? ?|]. change (s :: ss) with ([s] ++ ss). eapply flows_app; [|exact IH].
  rewrite <- (bind_singleton ts) at 2. apply flows_one, Forall_forall. intros t _ m. exists m. by destruct s.
Qed.
End flow.
