(* ===== verification/Strands.v ===== *)
(** * What the strand of a rule computes

    The chain [compileECARule] puts in front of the action of a rule is run on
    an event and compared with the meaning of the rule (Rules.v, Eca.v): the
    tuples that reach the action are exactly those the rule derives from the
    event and the tables, provided that every lookup on the way finds something.
    Where one does not, the chain throws or lets a tuple through that is not
    derived. *)

From Stdlib Require Import SpecFloat Ascii String.
From S2P Require Import Prelude Ids Stl Values Tuples Aggs Keys CommonTable TableInv RefTable TableLookup Table2 Fdbuf Xdr Casts Oper Names Exprs Pel PelLexer PelSafe PelText PelGen PelCorrect Elements Joins AggWrap Transforms Overlog Rules Localize Eca RulePel RulePlanner.

Local Open Scope p2_scope.

(** ** Expressions *)

(** The meaning of expressions and conditions that [ol_eval] gives. *)
Section sem.
Context `{P : Platform}.

Definition ol_ev (σ : valuation) (e : Parse_Expr) : option value :=
  match e with
  | Parse_Var x _ => Some (σ x)
  | Parse_Val v => Some v
  | _ => match ol_eval (fun x => Some (σ x)) e with Some (Val v) => Some v | _ => None end
  end.

Definition ol_sel (σ : valuation) (e : Parse_Expr) : Prop :=
  match ol_eval (fun x => Some (σ x)) e with Some o => verdict o = Ok true | None => False end.

Lemma ol_eval_ext (look look' : string -> option value) e : (forall x, x ∈ expr_vars e -> look x = look' x) ->
  ol_eval look e = ol_eval look' e.
Proof.
  revert e. fix IH 1. intros e. destruct e as [v|x loc| |b l r|t l r|m l [r|]| | | | | ]; intros H; try done.
  - cbn. by rewrite H by (by left).
  - cbn [expr_vars] in H. assert (Hl : ol_eval look l = ol_eval look' l) by (apply IH; intros; apply H, elem_of_app; by left).
    destruct r as [r|]; [|destruct b; cbn [ol_eval]; rewrite ?Hl; done].
    destruct b; cbn [ol_eval]; rewrite ?Hl; try done;
      try (rewrite (IH r) by (intros; apply H, elem_of_app; by right); done).
    destruct r as [ | | | |t lo hi| | | | | | ]; try done. cbn [expr_vars] in H.
    by rewrite (IH lo), (IH hi) by (intros; apply H, elem_of_app; right; apply elem_of_app; auto).
  - cbn [expr_vars ol_eval] in *. destruct (math_op m); [|done].
    by rewrite (IH l), (IH r) by (intros; apply H, elem_of_app; auto).
Qed.

Definition ol_sem : ExprSem.
Proof.
  refine {| ev := ol_ev; sel := ol_sel |}; try done.
  - intros σ τ e H. unfold ol_ev. rewrite (ol_eval_ext _ (fun x => Some (τ x))) by (intros; f_equal; auto).
    destruct e; try done. cbn. f_equal. apply H. by left.
  - intros σ τ e H. unfold ol_sel. by rewrite (ol_eval_ext _ (fun x => Some (τ x))) by (intros; f_equal; auto).
Defined.

Lemma ol_ev_eval σ e : ol_ev σ e = match ol_eval (fun x => Some (σ x)) e with Some (Val v) => Some v | _ => None end.
Proof. by destruct e. Qed.
End sem.

(** ** Names and values *)

Abbreviation unmarked x := (is_at x = false).

Section names.

Lemma probe_matches_vars σ args us : Forall (fun e => is_var e = true) args -> args_match σ args us <-> us = σ <$> var_names args.
Proof.
  intros Hv. revert us. induction Hv as [|e args He Hv IH]; intros us; unfold args_match in *.
  - split; [by inversion 1|]. intros ->. constructor.
  - destruct e as [|x l| | | | | | | | | ]; try done. change (var_names (Parse_Var x l :: args)) with (x :: var_names args).
    cbn [fmap list_fmap]. split.
    + inversion 1 as [|? v ? vs Hx Hr]; subst. injection Hx as ->. f_equal. by apply IH.
    + intros ->. constructor; [done|]. by apply IH.
Qed.

(** A valuation that gives the values [vs] to the names, and [σ] to the rest. *)
Definition rebind (names : list string) (vs : list value) (σ : valuation) : valuation :=
  fun x => default (σ x) ((list_to_map (zip names vs) : gmap string value) !! x).

Lemma rebind_in names vs σ : NoDup names -> length vs = length names -> rebind names vs σ <$> names = vs.
Proof.
  intros Hn Hl. apply list_eq. intros i. rewrite list_lookup_fmap.
  destruct (names !! i) as [x|] eqn:Ex; cbn.
  - destruct (lookup_lt_is_Some_2 vs i) as [v Hv]; [rewrite Hl; by eapply lookup_lt_Some|]. rewrite Hv. f_equal.
    unfold rebind. rewrite (elem_of_list_to_map_1 _ x v); [done| |].
    + by rewrite fst_zip by lia.
    + apply list_elem_of_lookup. exists i. apply lookup_zip_with_Some. eauto.
  - symmetry. apply lookup_ge_None. rewrite Hl. by apply lookup_ge_None.
Qed.

Lemma rebind_out names vs σ x : x ∉ names -> rebind names vs σ x = σ x.
Proof.
  intros Hx. unfold rebind. rewrite not_elem_of_list_to_map_1; [done|]. intros Hin. apply Hx.
  apply list_elem_of_fmap in Hin as ([y v] & -> & Hin). by apply elem_of_zip_l in Hin.
Qed.

Lemma fmap_agree (σ τ : valuation) (l : list string) : (forall x, x ∈ l -> σ x = τ x) -> σ <$> l = τ <$> l.
Proof. intros H. apply list_fmap_ext. intros i x Hx. apply H. by eapply list_elem_of_lookup_2. Qed.

Lemma fieldPosition_at names x p : Forall (fun y => unmarked y) names -> unmarked x ->
  fieldPosition names x = Some p -> names !! p = Some x.
Proof.
  intros Hn Hx. revert p. induction Hn as [|y names Hy Hn IH]; intros p; cbn [fieldPosition]; [done|].
  destruct (fieldNameEq y x) eqn:E; [apply fieldNameEq_unmarked in E as ->; [|done..]; by intros [= <-]|].
  destruct (fieldPosition names x) as [q|]; [|done]. intros [= <-]. cbn. by apply IH.
Qed.

Lemma fieldPosition_in names x : Forall (fun y => unmarked y) names -> unmarked x -> x ∈ names ->
  exists p, fieldPosition names x = Some p /\ names !! p = Some x.
Proof.
  intros Hn Hx Hin. destruct (fieldPosition names x) as [p|] eqn:E.
  - exists p. split; [done|]. by eapply fieldPosition_at.
  - by apply fieldPosition_None in E.
Qed.

(** [mergeWith] appends what is new. *)
Lemma mergeWith_new names ns : Forall (fun y => unmarked y) names -> Forall (fun y => unmarked y) ns -> NoDup ns ->
  mergeWith names ns = names ++ filter (fun x => x ∉ names) ns.
Proof.
  intros Hn Hs Hd. revert names Hn. induction Hs as [|x ns Hx Hs IH]; intros names Hn; cbn [mergeWith].
  { by rewrite filter_nil, app_nil_r. }
  apply NoDup_cons in Hd as [Hno Hd]. rewrite filter_cons.
  pose proof (fieldPosition_None names x Hn Hx) as Hp. destruct (fieldPosition names x) as [p|].
  - rewrite decide_False; [by apply IH|]. intros Hno'. by apply Hp in Hno'.
  - rewrite decide_True by (by apply Hp). rewrite IH; [|done|apply Forall_app; by repeat constructor].
    rewrite <- app_assoc. cbn. do 2 f_equal. apply filter_agree, Forall_forall. intros y Hy.
    rewrite elem_of_app, list_elem_of_singleton. split; [tauto|]. intros H [?| ->]; tauto.
Qed.

(** What [joinKeys] finds: the lookup compares the values of the shared names,
    the remaining columns are those of the new ones. *)
Lemma joinKeys_spec (σ : valuation) (names : list string) (d : list value) (nm : value) ns :
  Forall (fun y => unmarked y) names -> Forall (fun y => unmarked y) ns -> d = nm :: (σ <$> names) ->
  forall k u ws L I R, drop k u = ws -> length ws = length ns -> tracker_joinKeys ns names k = (L, I, R) ->
  (answers L I (as_tuple d) (as_tuple u) <->
     Forall2 (fun x w => x ∈ names -> compareTo (σ x) w = 0) ns ws)
  /\ Forall2 (fun r v => u !! r = Some v) R (snd <$> filter (fun xw => fst xw ∉ names) (zip ns ws))
  /\ Forall (fun r => r < k + length ns)%nat R
  /\ (L = [] <-> forall x, x ∈ ns -> x ∉ names).
Proof.
  intros Hn Hs ->. induction Hs as [|x ns Hx Hs IH]; intros k u ws L I R Hu Hl; cbn [tracker_joinKeys].
  { intros [= <- <- <-]. destruct ws; [|done]. split_and!; [|constructor|constructor|].
    - split; intros; constructor.
    - split; [|done]. intros _ y Hy. by apply elem_of_nil in Hy. }
  destruct ws as [|w ws]; [done|]. destruct (tracker_joinKeys ns names (S k)) as [[L' I'] R'] eqn:E.
  assert (Hw : u !! k = Some w) by (rewrite <- (Nat.add_0_r k), <- lookup_drop, Hu; done).
  destruct (IH (S k) u ws L' I' R') as (H1 & H2 & H3 & H4); [by rewrite <- Nat.add_1_r, <- drop_drop, Hu|by injection Hl|done|].
  assert (H3' : Forall (fun r => r < k + length (x :: ns))%nat R').
  { apply (Forall_impl _ _ _ H3). intros r Hr. cbn. lia. }
  pose proof (fieldPosition_None names x Hn Hx) as Hp. destruct (fieldPosition names x) as [p|] eqn:Ep.
  - intros [= <- <- <-]. pose proof (fieldPosition_at names x p Hn Hx Ep) as Hat.
    assert (Hin : x ∈ names) by (by eapply list_elem_of_lookup_2).
    split_and!; [| |done|].
    + split.
      * inversion 1 as [|? ? ? ? Hh Hr]; subst. constructor; [|by apply H1]. intros _.
        destruct Hh as (v & w' & Hv & Hw' & Hc). change ((σ <$> names) !! p = Some v) in Hv. change (u !! k = Some w') in Hw'.
        rewrite list_lookup_fmap, Hat in Hv. cbn in Hv. congruence.
      * inversion 1 as [|? ? ? ? Hh Hr]; subst. constructor; [|by apply H1]. exists (σ x), w.
        change ((σ <$> names) !! p = Some (σ x) /\ u !! k = Some w /\ compareTo (σ x) w = 0). rewrite list_lookup_fmap, Hat. auto.
    + cbn [zip zip_with]. rewrite filter_cons_False by (cbn; tauto). done.
    + split; [done|]. intros Hno. by destruct (Hno x ltac:(by left)).
  - intros [= <- <- <-]. assert (Hno : x ∉ names) by (by apply Hp). split_and!.
    + rewrite H1. split; [intros; by constructor|by inversion 1].
    + cbn [zip zip_with]. rewrite filter_cons_True by done. by constructor.
    + constructor; [cbn; lia|done].
    + rewrite H4. split; intros H y Hy; [apply elem_of_cons in Hy as [->|Hy]; auto|apply H; by right].
Qed.
End names.

(** ** The text of a projection *)

Section texts.
Context `{P : Platform} `{X : Externals} (nodeid : value).

Definition join_pieces (jn : string) (n : nat) (R : Key) : list (list instr) :=
  const_piece (VStr jn) :: ((fun k => nested_piece 0 (S k)) <$> seq 0 n) ++ (nested_piece 1 <$> R).

Lemma nested_text i (g : nat -> string) (h : nat -> nat) ks : (forall k, g k = dec_string (Z.of_nat (h k))) ->
  fold_right (fun k s => "$" +:+ dec_string (Z.of_nat i) +:+ " " +:+ g k +:+ " field pop " +:+ s)%string ""%string ks
  = program_text (build ((fun k => nested_piece i (h k)) <$> ks)).
Proof.
  intros Hg. induction ks as [|k ks IH]; [done|]. cbn [fmap list_fmap fold_right]. rewrite IH, build_cons, Hg.
  cbn [nested_piece app program_text fold_right show].
  change (toString (VInt64 (Z.of_nat (h k)))) with (dec_string (Z.of_nat (h k))).
  change (mnemonic (op_index "pop")) with "pop"%string. change (mnemonic (op_index "field")) with "field"%string.
  by rewrite !string_app_assoc.
Qed.

Lemma join_text_pieces jn n R : join_text jn n R = program_text (build (join_pieces jn n R)).
Proof.
  unfold join_text, join_pieces. rewrite build_cons, build_app.
  change (IOp (op_index "pop") :: ?l) with (app [IOp (op_index "pop")] l). rewrite !program_text_app.
  change (program_text (const_piece (VStr jn))) with (quoted jn +:+ (" " +:+ "")).
  change (program_text [IOp (op_index "pop")]) with "pop "%string.
  rewrite <- (nested_text 1 (fun k => dec_string (Z.of_nat k)) id) by done.
  rewrite <- (nested_text 0 (fun k => dec_string (Z.of_nat k + 1)) S) by (intros; f_equal; lia).
  by rewrite !string_app_assoc.
Qed.

Lemma nested_readable i j : Z.of_nat i < 65536 -> Z.of_nat j < 65536 -> Forall readable (nested_piece i j).
Proof. intros Hi Hj. repeat constructor; cbn; unfold is_i64; lia. Qed.

Lemma nested_closed i j : Forall (fun x => opens_vector x = false) (nested_piece i j).
Proof. repeat constructor. apply opens_int. Qed.

Lemma nested_constants i (h : nat -> nat) ks : length (constants (build ((fun k => nested_piece i (h k)) <$> ks))) = length ks.
Proof.
  induction ks as [|k ks IH]; [done|]. cbn [fmap list_fmap]. rewrite build_cons, constants_app, length_app.
  change (constants (IOp (op_index "pop") :: build ((fun k => nested_piece i (h k)) <$> ks)))
    with (constants (build ((fun k => nested_piece i (h k)) <$> ks))). rewrite IH. done.
Qed.

Lemma join_compiles jn n R : plain_text jn = true -> Z.of_nat n < 65535 -> Forall (fun r => Z.of_nat r < 65536) R ->
  PelTransform_mk (join_text jn n R) = Ok (load (build (join_pieces jn n R))).
Proof.
  intros Hj Hn HR. unfold PelTransform_mk. rewrite join_text_pieces. apply compile_program_text.
  - apply build_readable. constructor; [by repeat constructor|]. apply Forall_app. split; apply Forall_fmap.
    + apply Forall_forall. intros k Hk%elem_of_seq. apply nested_readable; lia.
    + apply (Forall_impl _ _ _ HR). intros r Hr. by apply nested_readable.
  - apply vector_free_closed, build_closed. constructor; [by repeat constructor|].
    apply Forall_app. split; apply Forall_fmap, Forall_forall; intros; apply nested_closed.
Qed.

Lemma join_constants jn n R : length (constants (build (join_pieces jn n R))) = S (n + length R).
Proof.
  unfold join_pieces. rewrite build_cons, constants_app, length_app.
  change (constants (IOp (op_index "pop") :: ?l)) with (constants l).
  rewrite build_app, constants_app, length_app, nested_constants.
  rewrite (nested_constants 1 id). by rewrite length_seq.
Qed.

(** The projection on a pair of tuples. *)
Lemma join_projects jn (names : list value) (nm : value) (R : Key) (u rs : list value) m :
  Z.of_nat (length names) + Z.of_nat (length R) < 65535 -> Forall (fun r => Z.of_nat r < 65536) R ->
  Forall2 (fun r v => u !! r = Some v) R rs ->
  exists m', PelTransform_simple_action nodeid (load (build (join_pieces jn (length names) R)))
    [VTuple (nm :: names); VTuple u] m = Ok (Some (VStr jn :: names ++ rs), m').
Proof.
  intros Hn HR Hrs. apply transform_builds; [done| |rewrite join_constants; lia]. constructor; [apply computes_const|].
  apply Forall2_app.
  - apply Forall2_fmap_l, Forall2_same_length_lookup_2; [by rewrite length_seq|].
    intros i k v Hk Hv. apply lookup_seq in Hk as [-> Hi].
    pose proof (computes_nested nodeid [VTuple (nm :: names); VTuple u] 0 (S i) (nm :: names) eq_refl) as Hc.
    change ((nm :: names) !! S i) with (names !! i) in Hc. rewrite Hv in Hc. apply Hc; lia.
  - apply Forall2_fmap_l. rewrite Forall_forall in HR. apply Forall2_same_length_lookup_2; [by eapply Forall2_length|].
    intros i r v Hr Hv. pose proof (computes_nested nodeid [VTuple (nm :: names); VTuple u] 1 r u eq_refl) as Hc.
    destruct (Forall2_lookup_l _ _ _ _ _ Hrs Hr) as (v' & Hv' & Hu). assert (v' = v) as -> by congruence. rewrite Hu in Hc.
    apply Hc; [lia|]. by apply HR, list_elem_of_lookup_2 with i.
Qed.

(** A text that lacks the last blank. *)
Lemma compile_build text cs : cs <> [] -> Forall (fun c => Forall readable c) cs ->
  Forall (fun c => Forall (fun i => opens_vector i = false) c) cs ->
  (text +:+ " ")%string = program_text (build cs) -> PelTransform_mk text = Ok (load (build cs)).
Proof.
  intros Hne Hr Hc. destruct (exists_last Hne) as (cs' & c & ->).
  assert (E : build (cs' ++ [c]) = (build cs' ++ c) ++ [IOp (op_index "pop")]) by (rewrite build_app, build_cons, <- app_assoc; done).
  pose proof (build_readable _ Hr) as Hr'. pose proof (vector_free_closed _ (build_closed _ Hc)) as Hv.
  rewrite E in *. apply compile_trimmed; [|done]. by apply Forall_app in Hr' as [? _].
Qed.

Definition project_pieces (name : string) (ks : list nat) : list (list instr) :=
  const_piece (VStr name) :: (field_piece <$> ks).

Lemma spaced_fields ks :
  (fold_right (fun k s => " $" +:+ dec_string (Z.of_nat k) +:+ " pop" +:+ s) "" ks +:+ " " = " " +:+ pop_texts ks)%string.
Proof.
  induction ks as [|k ks IH]; [done|]. unfold pop_texts in *. cbn [fold_right]. by rewrite !string_app_assoc, IH.
Qed.

Lemma project_text_pieces name ks : (project_text name ks +:+ " ")%string = program_text (build (project_pieces name ks)).
Proof.
  unfold project_text, project_pieces. rewrite build_cons.
  change (IOp (op_index "pop") :: ?l) with (app [IOp (op_index "pop")] l). rewrite !program_text_app.
  change (program_text (const_piece (VStr name))) with (quoted name +:+ (" " +:+ "")).
  change (program_text [IOp (op_index "pop")]) with ("pop" +:+ " ")%string. rewrite <- pop_texts_build.
  rewrite !string_app_assoc, spaced_fields. done.
Qed.

Lemma project_compiles name ks : plain_text name = true -> Forall (fun k => Z.of_nat k < 65536) ks ->
  PelTransform_mk (project_text name ks) = Ok (load (build (project_pieces name ks))).
Proof.
  intros Hn Hk. apply compile_build; [done| | |apply project_text_pieces].
  - constructor; [by repeat constructor|]. by apply fields_readable.
  - constructor; [by repeat constructor|]. apply Forall_fmap, Forall_forall. intros k _. by repeat constructor.
Qed.

Lemma project_projects name (ks : list nat) (data vs : list value) m : Forall (fun k => Z.of_nat k < 65536) ks ->
  Forall2 (fun k v => data !! k = Some v) ks vs ->
  exists m', PelTransform_simple_action nodeid (load (build (project_pieces name ks))) data m = Ok (Some (VStr name :: vs), m').
Proof.
  intros Hk Hv. apply transform_builds; [done| |].
  - constructor; [apply computes_const|]. apply Forall2_fmap_l. rewrite Forall_forall in Hk.
    apply Forall2_same_length_lookup_2; [by eapply Forall2_length|]. intros i k v Hi Hv'.
    destruct (Forall2_lookup_l _ _ _ _ _ Hv Hi) as (v' & E & Hd). assert (v' = v) as -> by congruence.
    apply computes_field; [done|]. by apply Hk, list_elem_of_lookup_2 with i.
  - unfold project_pieces. rewrite build_cons, constants_app, length_app.
    change (constants (IOp (op_index "pop") :: ?l)) with (constants l). rewrite fields_constants. cbn. lia.
Qed.

(** The address of a tuple that is sent. *)
Lemma send_compiles k : Z.of_nat k < 65536 ->
  PelTransform_mk ("$" +:+ dec_string (Z.of_nat k) +:+ " pop swallow pop") = Ok (load (build [field_piece k; swallow_piece])).
Proof.
  intros Hk. apply compile_build; [done| | |].
  - repeat constructor; cbn; lia.
  - by repeat constructor.
  - unfold build. cbn [flat_map field_piece swallow_piece app program_text fold_right show].
    change (mnemonic (op_index "pop")) with "pop"%string. change (mnemonic (op_index "swallow")) with "swallow"%string.
    by rewrite !string_app_assoc.
Qed.

Lemma send_addresses k data v m : data !! k = Some v -> Z.of_nat k < 65536 ->
  exists m', PelTransform_simple_action nodeid (load (build [field_piece k; swallow_piece])) data m
    = Ok (Some [v; VTuple data], m').
Proof.
  intros Hv Hk. apply transform_builds; [done| |by vm_compute]. repeat constructor; [by apply computes_field|apply computes_swallow].
Qed.
End texts.

(** ** Step by step *)

Section steps.
Context `{P : Platform} `{X : Externals} (nodeid : value) (D : string -> list (list value)).
#[local] Existing Instance ol_sem.

(** The database the tables make up. *)
Definition db_of : db := fun n ws => (VStr n :: ws) ∈ D n.

(** A value that compares equal to itself and nothing else. *)
Definition exact (w : value) : Prop := forall v, compareTo v w = 0 <-> v = w.

(** The table of a predicate holds tuples of its name and arity, with values
    that are found by comparison. *)
Definition stored (f : Parse_Functor) : Prop :=
  Forall (fun u => exists ws, u = VStr (fn f) :: ws /\ length ws = length (args_ f) /\ Forall exact ws) (D (fn f)).

(** A predicate with different variables as arguments. *)
Record linear (f : Parse_Functor) : Prop := {
  lin_vars : Forall (fun e => is_var e = true) (args_ f);
  lin_nodup : NoDup (var_names (args_ f));
  lin_names : Forall (fun x => unmarked x) (var_names (args_ f))
}.

Lemma var_names_length args : Forall (fun e => is_var e = true) args -> length (var_names args) = length args.
Proof. induction 1 as [|e args He _ IH]; [done|]. destruct e; try done. cbn. by rewrite IH. Qed.

Lemma var_names_vars args x : Forall (fun e => is_var e = true) args -> x ∈ (args ≫= expr_vars) <-> x ∈ var_names args.
Proof.
  induction 1 as [|e args He _ IH]; [done|]. destruct e as [|y l| | | | | | | | | ]; try done.
  change (var_names (Parse_Var y l :: args)) with (y :: var_names args). cbn. by rewrite !elem_of_cons, IH.
Qed.

(** The tuples [outs] that have reached some point of the strand are, under the
    name [nm], the values of [names] for the valuations that match the event [us]
    and satisfy the terms [ts]. *)
Record holding (f : Parse_Functor) (us : list value) (ts : list Parse_Term) (nm : string) (names : list string)
    (outs : list (list value)) : Prop := {
  hd_outs : forall d, d ∈ outs <-> exists σ : valuation, args_match σ (args_ f) us
    /\ Forall (term_holds db_of σ) ts /\ d = VStr nm :: (σ <$> names);
  hd_names : Forall (fun x => unmarked x) names;
  hd_nodup : NoDup names;
  hd_event : forall x, x ∈ args_ f ≫= expr_vars -> x ∈ names;
  hd_terms : forall x, x ∈ ts ≫= term_vars -> x ∈ names
}.

(** The event itself. *)
Lemma holding_event f us : linear f -> length us = length (args_ f) ->
  holding f us [] (fn f) (var_names (args_ f)) [VStr (fn f) :: us].
Proof.
  intros [Hv Hd Hm] Hl. split; [|done|done| |].
  - intros d. rewrite list_elem_of_singleton. split.
    + intros ->. exists (rebind (var_names (args_ f)) us (fun _ => VNull)).
      rewrite (probe_matches_vars _ _ _ Hv), rebind_in by (done || by rewrite var_names_length). split_and!; done.
    + intros (σ & Hσ & _ & ->). by apply probe_matches_vars in Hσ as ->.
  - intros x. by rewrite var_names_vars.
  - intros x Hx. by apply elem_of_nil in Hx.
Qed.

(** The rows of a join. *)
Definition join_row (jn : string) (R : Key) (d u : list value) : list value :=
  VStr jn :: drop 1 d ++ omap (fun r => u !! r) R.

Lemma omap_lookups (u : list value) R rs : Forall2 (fun r v => u !! r = Some v) R rs -> omap (fun r => u !! r) R = rs.
Proof. induction 1 as [|r v R rs Hr _ IH]; [done|]. cbn. by rewrite Hr, IH. Qed.

Lemma pairs_kept d us : us <> [] ->
  ((pairs_with (as_tuple d) (as_tuple <$> us) ++ [[]]) ≫= (fun t => if (0 <? length t)%nat then [t] else []))
  = (fun u => [VTuple d; VTuple u]) <$> us.
Proof.
  intros Hne. rewrite bind_app.
  change ([[]] ≫= (fun t : list value => if (0 <? length t)%nat then [t] else [])) with (@nil (list value)).
  rewrite app_nil_r. unfold pairs_with. replace (match as_tuple <$> us with [] => [[]] | _ => fields <$> (as_tuple <$> us) end) with us.
  - clear Hne. induction us as [|u us IH]; [done|]. cbn [fmap list_fmap mbind list_bind]. rewrite IH. done.
  - destruct us; [done|]. clear. cbn. f_equal. by rewrite <- list_fmap_compose, list_fmap_id.
Qed.

(** A probe with its projection; every tuple finds a match. *)
Lemma probe_flows jn names L I R p comp ps outs (f : Parse_Functor) us ts nm :
  holding f us ts nm names outs -> linear p -> stored p ->
  tracker_joinKeys (var_names (args_ p)) names 1 = (L, I, R) -> plain_text jn = true ->
  Z.of_nat (length names) + Z.of_nat (length (args_ p)) < 65535 -> Forall passive ps ->
  Forall (fun d => probe_matches L I d (D (fn p)) <> []) outs ->
  exists outs', flows nodeid D ([ELookup2 (fn p) L I comp; ENoNull] ++ ps ++ [EPelTransform (join_text jn (length names) R)]) outs outs'
  /\ forall d', d' ∈ outs' <-> exists d u, d ∈ outs /\ u ∈ probe_matches L I d (D (fn p)) /\ d' = join_row jn R d u.
Proof.
  intros [Ho Hn Hd _ _] [Hv _ Hm] Hst HK Hj Hsz Hps Hne.
  set (PL := outs ≫= fun d => (fun u => [VTuple d; VTuple u]) <$> probe_matches L I d (D (fn p))).
  set (g3 := fun t : list value => match t with [VTuple d; VTuple u] => [join_row jn R d u] | _ => [] end).
  exists (PL ≫= g3). split.
  - eapply (flows_app nodeid D _ _ _ PL).
    + change [ELookup2 (fn p) L I comp; ENoNull] with ([ELookup2 (fn p) L I comp] ++ [ENoNull]). eapply flows_app.
      * apply (flows_one nodeid D _ (fun d => pairs_with (as_tuple d) (as_tuple <$> probe_matches L I d (D (fn p))) ++ [[]])).
        apply Forall_forall. intros t _ m. by exists m.
      * replace PL with ((outs ≫= (fun d => pairs_with (as_tuple d) (as_tuple <$> probe_matches L I d (D (fn p))) ++ [[]]))
          ≫= fun t => if (0 <? length t)%nat then [t] else []).
        -- apply flows_one, Forall_forall. intros t _ m. by exists m.
        -- unfold PL. clear -Hne. induction Hne as [|d outs Hd _ IH]; [done|]. cbn [mbind list_bind].
           by rewrite bind_app, pairs_kept, IH.
    + eapply flows_app; [by apply flows_passive|]. apply flows_one, Forall_forall. intros t Ht m.
      apply list_elem_of_bind in Ht as (d & Ht & Hdin). apply list_elem_of_fmap in Ht as (u & -> & Hu).
      apply Ho in Hdin as (σ & _ & _ & ->). unfold probe_matches in Hu. apply list_elem_of_filter in Hu as [_ Hu].
      unfold stored in Hst. rewrite Forall_forall in Hst. destruct (Hst u Hu) as (ws & -> & Hl & _).
      destruct (joinKeys_spec σ names _ (VStr nm) (var_names (args_ p)) Hn Hm eq_refl 1 (VStr (fn p) :: ws) ws L I R)
        as (_ & HR & Hlt & _); [done|by rewrite var_names_length|done|]. rewrite var_names_length in Hlt by done.
      cbn [elem_step]. rewrite (join_compiles jn); [|done|lia|].
      2:{ apply (Forall_impl _ _ _ Hlt). intros r Hr. lia. }
      cbn [rbind]. replace (length names) with (length (σ <$> names)) by apply length_fmap.
      assert (HRl : (length R <= length (args_ p))%nat).
      { apply Forall2_length in HR. rewrite length_fmap in HR. rewrite HR, <- (var_names_length (args_ p)) by done.
        etransitivity; [apply length_filter|]. rewrite length_zip_with. lia. }
      destruct (join_projects nodeid jn (σ <$> names) (VStr nm) R (VStr (fn p) :: ws) _ m
        ltac:(rewrite length_fmap; lia) ltac:(apply (Forall_impl _ _ _ Hlt); intros r Hr; lia) HR) as [m' ->].
      exists m'. cbn [rbind g3 option_list]. unfold join_row. cbn [drop]. by rewrite (omap_lookups _ _ _ HR).
  - intros d'. rewrite list_elem_of_bind. split.
    + intros (t & Hd' & Ht). apply list_elem_of_bind in Ht as (d & Ht & Hdin).
      apply list_elem_of_fmap in Ht as (u & -> & Hu). apply list_elem_of_singleton in Hd' as ->. eauto.
    + intros (d & u & Hdin & Hu & ->). exists [VTuple d; VTuple u]. split; [by apply list_elem_of_singleton|].
      apply list_elem_of_bind. exists d. split; [|done]. apply list_elem_of_fmap. eauto.
Qed.

Lemma Forall2_rebind (σ : valuation) (names ns : list string) ws : Forall exact ws ->
  Forall2 (fun x w => x ∈ names -> compareTo (σ x) w = 0) ns ws <-> Forall2 (fun x w => x ∈ names -> σ x = w) ns ws.
Proof.
  intros He. split; intros HF.
  - induction HF as [|x w ns ws Hx _ IH]; [constructor|]. inversion_clear He as [|? ? Hw He']. constructor; [|by apply IH].
    intros Hin. by apply Hw, Hx.
  - induction HF as [|x w ns ws Hx _ IH]; [constructor|]. inversion_clear He as [|? ? Hw He']. constructor; [|by apply IH].
    intros Hin. by apply Hw, Hx.
Qed.

(** The new names in the order of the predicate, and their values. *)
Lemma new_values (τ : valuation) (names ns : list string) :
  snd <$> filter (fun xw => fst xw ∉ names) (zip ns (τ <$> ns)) = τ <$> filter (fun x => x ∉ names) ns.
Proof.
  induction ns as [|x ns IH]; [done|]. cbn [fmap list_fmap zip zip_with]. rewrite !filter_cons. cbn [fst].
  destruct (decide (x ∉ names)); cbn [fmap list_fmap snd]; by rewrite IH.
Qed.

Lemma holding_probe jn names L I R p outs outs' (f : Parse_Functor) us ts nm :
  holding f us ts nm names outs -> linear p -> stored p ->
  tracker_joinKeys (var_names (args_ p)) names 1 = (L, I, R) ->
  (forall d', d' ∈ outs' <-> exists d u, d ∈ outs /\ u ∈ probe_matches L I d (D (fn p)) /\ d' = join_row jn R d u) ->
  holding f us (ts ++ [TFunctor p]) jn (mergeWith names (var_names (args_ p))) outs'.
Proof.
  intros [Ho Hn Hd He Ht] [Hv Hnd Hm] Hst HK Ho'. set (ns := var_names (args_ p)) in *.
  destruct (mergeWith_spec ns names Hn Hm) as [M1 M2].
  assert (Hnew : mergeWith names ns = names ++ filter (fun x => x ∉ names) ns) by (by apply mergeWith_new).
  split.
  - intros d'. rewrite Ho'. split.
    + intros (d & u & Hdin & Hu & ->). apply Ho in Hdin as (σ & Hσ & Hts & ->).
      apply list_elem_of_filter in Hu as [Ha Hu]. pose proof (proj1 (Forall_forall _ _) Hst u Hu) as (ws & -> & Hl & Hex).
      rewrite <- (var_names_length _ Hv) in Hl.
      destruct (joinKeys_spec σ names _ (VStr nm) ns Hn Hm eq_refl 1 (VStr (fn p) :: ws) ws L I R) as (HA & HR & _); [done|done|done|].
      apply HA, Forall2_rebind in Ha; [|done]. set (τ := rebind ns ws σ).
      assert (Hτ : τ <$> ns = ws) by (by apply rebind_in).
      assert (Hag : forall x, x ∈ names -> τ x = σ x).
      { intros x Hx. destruct (decide (x ∈ ns)) as [Hin|Hno]; [|by apply rebind_out].
        apply list_elem_of_lookup in Hin as [i Hi]. destruct (Forall2_lookup_l _ _ _ _ _ Ha Hi) as (w & Hw & Hxw).
        rewrite (Hxw Hx). rewrite <- Hτ, list_lookup_fmap, Hi in Hw. by injection Hw. }
      exists τ. split_and!.
      * apply (matches_ext σ τ); [|done]. intros x Hx. symmetry. by apply Hag, He.
      * apply Forall_app. split; [apply (holds_all_ext _ σ τ); [|done]; intros x Hx; symmetry; by apply Hag, Ht|].
        apply Forall_singleton. exists ws. split; [by apply probe_matches_vars|done].
      * unfold join_row. cbn [drop]. rewrite (omap_lookups _ _ _ HR), Hnew, fmap_app. f_equal. f_equal.
        -- rewrite drop_0. apply fmap_agree. intros x Hx. symmetry. by apply Hag.
        -- rewrite <- Hτ. by apply new_values.
    + intros (τ & Hτ & Hts & ->). apply Forall_app in Hts as [Hts Hp]. apply Forall_singleton in Hp as (ws & Hws & HD).
      apply probe_matches_vars in Hws as ->; [|done]. fold ns in HD. exists (VStr nm :: (τ <$> names)), (VStr (fn p) :: (τ <$> ns)).
      destruct (joinKeys_spec τ names _ (VStr nm) ns Hn Hm eq_refl 1 (VStr (fn p) :: (τ <$> ns)) (τ <$> ns) L I R)
        as (HA & HR & _); [done|by rewrite length_fmap|done|]. split_and!.
      * apply Ho. by exists τ.
      * apply list_elem_of_filter. split; [|done]. apply HA.
        destruct (proj1 (Forall_forall _ _) Hst _ HD) as (ws & [= <-] & _ & Hex). apply Forall2_rebind; [done|].
        by apply Forall2_fmap_r, Forall_Forall2_diag, Forall_forall.
      * unfold join_row. cbn [drop]. rewrite (omap_lookups _ _ _ HR), Hnew, fmap_app, new_values. done.
  - rewrite Hnew. apply Forall_app. split; [done|]. apply Forall_forall. intros x [_ Hx]%list_elem_of_filter.
    rewrite Forall_forall in Hm. by apply Hm.
  - by apply M2.
  - intros x Hx. apply M1. left. by apply He.
  - intros x Hx. apply M1. rewrite bind_app, elem_of_app in Hx. destruct Hx as [Hx|Hx]; [left; by apply Ht|right].
    cbn in Hx. rewrite app_nil_r in Hx. by apply (var_names_vars _ _ Hv).
Qed.

Lemma look_bound (σ : valuation) names nm x : Forall (fun x => unmarked x) names -> unmarked x -> x ∈ names ->
  look_in names (nm :: (σ <$> names)) x = Some (σ x).
Proof.
  intros Hn Hx Hin. unfold look_in. destruct (fieldPosition_in names x Hn Hx Hin) as (p & -> & Hp).
  change ((nm :: (σ <$> names)) !! S p) with ((σ <$> names) !! p). by rewrite list_lookup_fmap, Hp.
Qed.

Lemma eval_bound (σ : valuation) names nm e : Forall (fun x => unmarked x) names -> (forall x, x ∈ expr_vars e -> x ∈ names) ->
  ol_eval (look_in names (nm :: (σ <$> names))) e = ol_eval (fun x => Some (σ x)) e.
Proof.
  intros Hn He. apply ol_eval_ext. intros x Hx. apply look_bound; [done| |by apply He].
  rewrite Forall_forall in Hn. by apply Hn, He.
Qed.

(** What the text of an expression among [before] and [after] asks for. *)
Record head_writable (names : list string) (e : Parse_Expr) (before after : list instr) : Prop := {
  wr_vars : forall x, x ∈ expr_vars e -> x ∈ names;
  wr_plain : ol_plain e;
  wr_free : vector_free (before ++ ol_code names e ++ after) = true;
  wr_constants : Z.of_nat (length (constants (ol_code names e))) <= 65536
}.

Definition after_select (names : list string) : list instr :=
  [IOp (op_index "not"); IOp (op_index "ifstop")] ++ build (field_pieces (length names + 1)).

(** The computation stays in the fragment and throws nothing. *)
Definition select_calm (σ : valuation) (e : Parse_Expr) : Prop :=
  exists o b, ol_eval (fun x => Some (σ x)) e = Some o /\ verdict o = Ok b.
Definition assign_calm (σ : valuation) (e : Parse_Expr) : Prop :=
  exists o, ol_eval (fun x => Some (σ x)) e = Some o /\ forall f, o <> Raise f.

Lemma holding_select names e text outs (f : Parse_Functor) us ts nm : holding f us ts nm names outs ->
  Z.of_nat (length names) < 65535 -> head_writable names e [] (after_select names) -> pelSelect names e = Ok text ->
  (forall σ, args_match σ (args_ f) us -> Forall (term_holds db_of σ) ts -> select_calm σ e) ->
  exists outs', flows nodeid D [EPelTransform text] outs outs' /\ holding f us (ts ++ [TSelect e]) nm names outs'.
Proof.
  intros [Ho Hn Hd He Ht] Hsz [Hv Hp Hf Hc] Etext Hcalm.
  assert (Hrun : forall σ, args_match σ (args_ f) us -> Forall (term_holds db_of σ) ts -> exists o b text0 prg, ol_eval (fun x => Some (σ x)) e = Some o
    /\ verdict o = Ok b /\ pelSelect names e = Ok text0 /\ PelTransform_mk text0 = Ok prg
    /\ forall m, exists m', PelTransform_simple_action nodeid prg (VStr nm :: (σ <$> names)) m
         = Ok (if b then Some (VStr nm :: (σ <$> names)) else None, m')).
  { intros σ Hσ Hts. destruct (Hcalm σ Hσ Hts) as (o & b & Eo & Eb).
    destruct (rule_selection_compiled nodeid names (VStr nm :: (σ <$> names)) e o) as (text0 & prg & H1 & H2 & H3).
    - cbn. by rewrite length_fmap.
    - done.
    - split; [by rewrite eval_bound|]. done.
    - exists o, b, text0, prg. rewrite Eb in H3. done. }
  set (g := fun t => match ol_eval (look_in names t) e with
    | Some o => match verdict o with Ok true => [t] | _ => [] end | None => [] end).
  exists (outs ≫= g). split.
  - apply flows_one, Forall_forall. intros d Hdin m. apply Ho in Hdin as (σ & Hσ & Hts & ->).
    destruct (Hrun σ Hσ Hts) as (o & b & text' & prg & Eo & Eb & Et & Ep & Hact).
    assert (text' = text) as -> by congruence. cbn [elem_step]. rewrite Ep. cbn [rbind]. destruct (Hact m) as [m' ->]. exists m'. unfold g.
    rewrite eval_bound, Eo, Eb by done. by destruct b.
  - split; [|done|done|done|].
    + intros d. rewrite list_elem_of_bind. split.
      * intros (d' & Hg & Hdin). apply Ho in Hdin as (σ & Hσ & Hts & ->). unfold g in Hg. rewrite eval_bound in Hg by done.
        destruct (ol_eval (fun x => Some (σ x)) e) as [o|] eqn:Eo; [|by apply elem_of_nil in Hg].
        destruct (verdict o) as [[]|] eqn:Eb; [|by apply elem_of_nil in Hg..]. apply list_elem_of_singleton in Hg as ->.
        exists σ. split_and!; [done| |done]. apply Forall_app. split; [done|]. apply Forall_singleton.
        change (ol_sel σ e). unfold ol_sel. by rewrite Eo.
      * intros (σ & Hσ & Hts & ->). apply Forall_app in Hts as [Hts Hs]. rewrite Forall_singleton in Hs.
        change (ol_sel σ e) in Hs. unfold ol_sel in Hs. exists (VStr nm :: (σ <$> names)). split; [|apply Ho; by exists σ].
        unfold g. rewrite eval_bound by done. destruct (ol_eval (fun x => Some (σ x)) e) as [o|]; [|done].
        rewrite Hs. by apply list_elem_of_singleton.
    + intros x Hx. rewrite bind_app, elem_of_app in Hx. destruct Hx as [Hx|Hx]; [by apply Ht|]. cbn in Hx.
      rewrite app_nil_r in Hx. by apply Hv.
Qed.

Definition before_assign (names : list string) : list instr := build (field_pieces (length names + 1)).

Lemma holding_assign names x e text outs (f : Parse_Functor) us ts nm : holding f us ts nm names outs ->
  Z.of_nat (length names) < 65535 -> head_writable names e (before_assign names) [IOp (op_index "pop")] -> unmarked x -> x ∉ names ->
  pelAssign names x e = Ok (text, names ++ [x]) ->
  (forall σ, args_match σ (args_ f) us -> Forall (term_holds db_of σ) ts -> assign_calm σ e) ->
  exists outs', flows nodeid D [EPelTransform text] outs outs' /\ holding f us (ts ++ [TAssign x e]) nm (names ++ [x]) outs'.
Proof.
  intros [Ho Hn Hd He Ht] Hsz [Hv Hp Hf Hc] Hx Hno Etext Hcalm.
  assert (Hrun : forall σ, args_match σ (args_ f) us -> Forall (term_holds db_of σ) ts -> exists o text0 prg, ol_eval (fun x => Some (σ x)) e = Some o
    /\ pelAssign names x e = Ok (text0, names ++ [x]) /\ PelTransform_mk text0 = Ok prg
    /\ forall m, exists m', PelTransform_simple_action nodeid prg (VStr nm :: (σ <$> names)) m
         = Ok (match o with Val v => Some ((VStr nm :: (σ <$> names)) ++ [v]) | _ => None end, m')).
  { intros σ Hσ Hts. destruct (Hcalm σ Hσ Hts) as (o & Eo & Hnr).
    destruct (rule_assignment_compiled nodeid names (VStr nm :: (σ <$> names)) x e o) as (text0 & prg & H1 & H2 & H3).
    - cbn. by rewrite length_fmap.
    - done.
    - by apply fieldPosition_None.
    - split; [by rewrite eval_bound|]. done.
    - exists o, text0, prg. split_and!; [done|done|done|]. intros m. specialize (H3 m). destruct o; [done|done|]. by destruct (Hnr f0). }
  set (g := fun t => match ol_eval (look_in names t) e with Some (Val v) => [t ++ [v]] | _ => [] end).
  exists (outs ≫= g). split.
  - apply flows_one, Forall_forall. intros d Hdin m. apply Ho in Hdin as (σ & Hσ & Hts & ->).
    destruct (Hrun σ Hσ Hts) as (o & text' & prg & Eo & Et & Ep & Hact).
    assert (text' = text) as -> by congruence. cbn [elem_step]. rewrite Ep. cbn [rbind]. destruct (Hact m) as [m' ->]. exists m'. unfold g.
    rewrite eval_bound, Eo by done. by destruct o.
  - split.
    + intros d. rewrite list_elem_of_bind. split.
      * intros (d' & Hg & Hdin). apply Ho in Hdin as (σ & Hσ & Hts & ->). unfold g in Hg. rewrite eval_bound in Hg by done.
        destruct (ol_eval (fun x => Some (σ x)) e) as [[v| |]|] eqn:Eo; [|by apply elem_of_nil in Hg..].
        apply list_elem_of_singleton in Hg as ->. set (τ := rebind [x] [v] σ).
        assert (Hag : forall y, y ∈ names -> σ y = τ y).
        { intros y Hy. symmetry. apply rebind_out. rewrite list_elem_of_singleton. congruence. }
        assert (Hxv : τ x = v) by (unfold τ, rebind; cbn; by rewrite lookup_insert_eq).
        exists τ. split_and!.
        -- apply (matches_ext σ τ); [|done]. intros y Hy. by apply Hag, He.
        -- apply Forall_app. split; [apply (holds_all_ext _ σ τ); [|done]; intros y Hy; by apply Hag, Ht|].
           apply Forall_singleton. change (ol_ev τ e = Some (τ x)). rewrite ol_ev_eval, Hxv.
           rewrite (ol_eval_ext _ (fun x => Some (σ x))); [by rewrite Eo|]. intros y Hy. f_equal. symmetry. by apply Hag, Hv.
        -- rewrite fmap_app. cbn [app fmap list_fmap]. rewrite Hxv. do 2 f_equal. by apply fmap_agree.
      * intros (σ & Hσ & Hts & ->). apply Forall_app in Hts as [Hts Hs]. rewrite Forall_singleton in Hs.
        change (ol_ev σ e = Some (σ x)) in Hs. rewrite ol_ev_eval in Hs.
        exists (VStr nm :: (σ <$> names)). split; [|apply Ho; by exists σ].
        unfold g. rewrite eval_bound by done. destruct (ol_eval (fun x => Some (σ x)) e) as [[v| |]|]; try done. injection Hs as ->.
        apply list_elem_of_singleton. by rewrite fmap_app.
    + apply Forall_app. by repeat constructor.
    + apply NoDup_app. split_and!; [done| |by apply NoDup_singleton]. intros y Hy Hy'.
      apply list_elem_of_singleton in Hy' as ->. done.
    + intros y Hy. apply elem_of_app. left. by apply He.
    + intros y Hy. rewrite bind_app, elem_of_app in Hy. apply elem_of_app. destruct Hy as [Hy|Hy]; [left; by apply Ht|].
      cbn in Hy. rewrite app_nil_r in Hy. apply elem_of_cons in Hy as [->|Hy]; [right; by apply list_elem_of_singleton|left; by apply Hv].
Qed.

(** The head. *)
Lemma head_columns_ok names args : Forall (fun x => unmarked x) names -> Forall (fun e => is_var e = true) args ->
  (forall x, x ∈ var_names args -> x ∈ names) ->
  exists ks, head_columns names args = Ok (ks, var_names args)
  /\ Forall2 (fun k x => exists p, k = S p /\ names !! p = Some x) ks (var_names args).
Proof.
  intros Hn Hv. induction Hv as [|e args He Hv IH]; intros Hin; [by exists []|].
  destruct e as [|x l| | | | | | | | | ]; try done. change (var_names (Parse_Var x l :: args)) with (x :: var_names args) in *.
  assert (Hx : x ∈ names) by (apply Hin; by left). pose proof Hx as Hux. rewrite Forall_forall in Hn. apply Hn in Hux.
  destruct (fieldPosition_in names x) as (p & Ep & Hp); [by apply Forall_forall|done|done|].
  destruct IH as (ks & Ek & Hk); [intros y Hy; apply Hin; by right|]. exists (S p :: ks). cbn [head_columns].
  rewrite Ep, Ek. split; [done|]. constructor; [|done]. eauto.
Qed.

Lemma holding_project names gn args ks outs (f : Parse_Functor) us ts nm : holding f us ts nm names outs ->
  Z.of_nat (length names) < 65535 -> plain_text gn = true ->
  Forall2 (fun k x => exists p, k = S p /\ names !! p = Some x) ks (var_names args) ->
  exists outs', flows nodeid D [EPelTransform (project_text gn ks)] outs outs' /\ forall d', d' ∈ outs' <->
    exists σ : valuation, args_match σ (args_ f) us /\ Forall (term_holds db_of σ) ts /\ d' = VStr gn :: (σ <$> var_names args).
Proof.
  intros [Ho Hn Hd He Ht] Hsz Hg Hk.
  assert (Hks : Forall (fun k => Z.of_nat k < 65536) ks).
  { apply Forall_forall. intros k Hin. apply list_elem_of_lookup in Hin as [i Hi].
    destruct (Forall2_lookup_l _ _ _ _ _ Hk Hi) as (x & _ & p & -> & Hp). apply lookup_lt_Some in Hp. lia. }
  assert (Hrow : forall σ : valuation, Forall2 (fun k v => (VStr nm :: (σ <$> names)) !! k = Some v) ks (σ <$> var_names args)).
  { intros σ. apply Forall2_fmap_r. apply (Forall2_impl _ _ _ _ Hk). intros k x (p & -> & Hp).
    change ((σ <$> names) !! p = Some (σ x)). by rewrite list_lookup_fmap, Hp. }
  set (g := fun t : list value => [VStr gn :: omap (fun k => t !! k) ks]).
  exists (outs ≫= g). split.
  - apply flows_one, Forall_forall. intros d Hdin m. apply Ho in Hdin as (σ & _ & _ & ->). cbn [elem_step].
    rewrite project_compiles by done. cbn [rbind].
    destruct (project_projects nodeid gn ks _ _ m Hks (Hrow σ)) as [m' ->]. exists m'. unfold g.
    by rewrite (omap_lookups _ _ _ (Hrow σ)).
  - intros d'. rewrite list_elem_of_bind. split.
    + intros (d & Hg' & Hdin). apply Ho in Hdin as (σ & Hσ & Hts & ->). apply list_elem_of_singleton in Hg' as ->.
      exists σ. split_and!; [done|done|]. by rewrite (omap_lookups _ _ _ (Hrow σ)).
    + intros (σ & Hσ & Hts & ->). exists (VStr nm :: (σ <$> names)). split; [|apply Ho; by exists σ].
      apply list_elem_of_singleton. by rewrite (omap_lookups _ _ _ (Hrow σ)).
Qed.

(** ** The rules the planner is meant for *)

(** Each probed predicate is stored, has different variables, shares one with
    what is known. *)
Fixpoint joinable (names : list string) (ps : list Parse_Functor) : Prop :=
  match ps with
  | [] => True
  | p :: ps' => linear p /\ stored p /\ plain_text (fn p) = true
      /\ (exists x, x ∈ var_names (args_ p) /\ x ∈ names)
      /\ Z.of_nat (length names) + Z.of_nat (length (args_ p)) < 65535
      /\ joinable (mergeWith names (var_names (args_ p))) ps'
  end.

(** On the event [us] every lookup finds something. *)
Fixpoint found (f : Parse_Functor) (us : list value) (ts : list Parse_Term) (names : list string) (ps : list Parse_Functor) : Prop :=
  match ps with
  | [] => True
  | p :: ps' =>
      (forall σ : valuation, args_match σ (args_ f) us -> Forall (term_holds db_of σ) ts ->
         exists τ : valuation, (forall x, x ∈ names -> τ x = σ x) /\ term_holds db_of τ (TFunctor p))
      /\ found f us (ts ++ [TFunctor p]) (mergeWith names (var_names (args_ p))) ps'
  end.

(** The conditions and assignments are written over known names; a variable is
    assigned once. *)
Fixpoint assignable (names : list string) (ts : list Parse_Term) : Prop :=
  match ts with
  | [] => True
  | TSelect e :: ts' => head_writable names e [] (after_select names) /\ (forall σ : valuation, is_Some (ol_eval (fun x => Some (σ x)) e))
      /\ Z.of_nat (length names) < 65535 /\ assignable names ts'
  | TAssign x e :: ts' => head_writable names e (before_assign names) [IOp (op_index "pop")]
      /\ (forall σ : valuation, is_Some (ol_eval (fun x => Some (σ x)) e))
      /\ unmarked x /\ (x ∉ names) /\ Z.of_nat (length names) < 65535 /\ assignable (names ++ [x]) ts'
  | _ => False
  end.

(** No computation the rule gets to on the event [us] throws. *)
Definition calm (σ : valuation) (t : Parse_Term) : Prop :=
  match t with TSelect e => select_calm σ e | TAssign _ e => assign_calm σ e | _ => True end.
Fixpoint calm_terms (f : Parse_Functor) (us : list value) (ts qs : list Parse_Term) : Prop :=
  match qs with
  | [] => True
  | q :: qs' => (forall σ, args_match σ (args_ f) us -> Forall (term_holds db_of σ) ts -> calm σ q) /\ calm_terms f us (ts ++ [q]) qs'
  end.

Definition probe_names (names : list string) (ps : list Parse_Functor) : list string :=
  fold_left (fun ns p => mergeWith ns (var_names (args_ p))) ps names.
Definition term_names (names : list string) (ts : list Parse_Term) : list string :=
  fold_left (fun ns t => match t with TAssign x _ => ns ++ [x] | _ => ns end) ts names.

Lemma found_matches f us ts nm names outs p ps L I R : holding f us ts nm names outs -> linear p -> stored p ->
  tracker_joinKeys (var_names (args_ p)) names 1 = (L, I, R) -> found f us ts names (p :: ps) ->
  Forall (fun d => probe_matches L I d (D (fn p)) <> []) outs.
Proof.
  intros [Ho Hn Hd He Ht] [Hv Hnd Hm] Hst HK [Hf _]. apply Forall_forall. intros d Hdin.
  apply Ho in Hdin as (σ & Hσ & Hts & ->). destruct (Hf σ Hσ Hts) as (τ & Hag & ws & Hws & HD).
  apply probe_matches_vars in Hws as ->; [|done]. intros Hnil.
  assert (Hin : (VStr (fn p) :: (τ <$> var_names (args_ p))) ∈ probe_matches L I (VStr nm :: (σ <$> names)) (D (fn p))).
  { apply list_elem_of_filter. split; [|done].
    destruct (joinKeys_spec σ names _ (VStr nm) (var_names (args_ p)) Hn Hm eq_refl 1 (VStr (fn p) :: (τ <$> var_names (args_ p)))
      (τ <$> var_names (args_ p)) L I R) as (HA & _); [done|by rewrite length_fmap|done|]. apply HA.
    destruct (proj1 (Forall_forall _ _) Hst _ HD) as (ws & [= <-] & _ & Hex). apply Forall2_rebind; [done|].
    apply Forall2_fmap_r, Forall_Forall2_diag, Forall_forall. intros y _ Hy. by rewrite Hag. }
  rewrite Hnil in Hin. by apply elem_of_nil in Hin.
Qed.
End steps.

(** ** The plan *)

Section plan.
Context `{P : Platform} `{X : Externals} {CB : Type} (nodeid : value) (D : string -> list (list value)).
#[local] Existing Instance ol_sem.
Implicit Types pc : PlanContext CB.

Definition has_table (ts : TableStore) (n : string) : Prop := is_Some (ts_tables ts !! n) /\ is_Some (ts_infos ts !! n).

(** [pc'] is [pc] with [ss] appended to the chain, the names [names], and no
    table less. *)
Record extends pc (ss : list elem_spec) (names : list string) pc' : Prop := {
  ex_chain : pc_chain pc' = pc_chain pc ++ ss;
  ex_names : pc_names pc' = names;
  ex_rule : pc_rule pc' = pc_rule pc;
  ex_tables : forall n, has_table (pc_store pc) n -> has_table (pc_store pc') n
}.

Lemma extends_trans pc1 ss1 ns1 pc2 ss2 ns2 pc3 : extends pc1 ss1 ns1 pc2 -> extends pc2 ss2 ns2 pc3 ->
  extends pc1 (ss1 ++ ss2) ns2 pc3.
Proof. intros [H1 H2 H3 H4] [G1 G2 G3 G4]. split; [by rewrite G1, H1, app_assoc|done|congruence|auto]. Qed.

Lemma extends_refl pc : extends pc [] (pc_names pc) pc.
Proof. split; [by rewrite app_nil_r|done|done|done]. Qed.

Lemma extends_add s pc : extends pc [s] (pc_names pc) (addElement s pc).
Proof. by split. Qed.

Lemma extends_names ns pc : extends pc [] ns (with_names ns pc).
Proof. split; [cbn; by rewrite app_nil_r|done|done|done]. Qed.

Lemma extends_print b n m pc : exists ps, extends pc ps (pc_names pc) (addPrint b n m pc) /\ Forall passive ps.
Proof.
  unfold addPrint. destruct (List.find _ _) as [[? mods]|]; [|exists []; split; [apply extends_refl|constructor]].
  destruct (modifier m mods); [|exists []; split; [apply extends_refl|constructor]].
  eexists [_]. split; [apply extends_add|]. by repeat constructor.
Qed.

Lemma getTable_ok ts n : has_table ts n -> exists T ti, getTableByName n ts = Ok T /\ getTableInfo n ts = Some ti.
Proof. intros [[T HT] [ti Hi]]. exists T, ti. unfold getTableByName. by rewrite HT. Qed.

Lemma plan_index_ok ts n key : has_table ts n ->
  exists ts', plan_index n key ts = Ok ts' /\ forall n', has_table ts n' -> has_table ts' n'.
Proof.
  intros Hn. destruct (getTable_ok ts n Hn) as (T & ti & HT & _). unfold plan_index. rewrite HT. cbn [rbind].
  unfold checkSecondaryIndex. destruct (decide _) as [|]; [by eexists|]. eexists. split; [done|].
  intros n' [H1 H2]. split; [|done]. cbn. destruct (decide (n = n')) as [->|Hne]; [by rewrite lookup_insert_eq|by rewrite lookup_insert_ne].
Qed.

(** One probe. *)
Lemma probe_planned p nm pc f e : event_of (pc_rule pc) = Ok (f, e) -> has_table (pc_store pc) (fn p) ->
  Forall (fun x => unmarked x) (pc_names pc) -> linear p -> (exists x, x ∈ var_names (args_ p) /\ x ∈ pc_names pc) ->
  exists jn L I R pre ps pc', generateProbeElements p nm None pc = Ok (jn, pc')
  /\ jn = ("join" +:+ fn f +:+ fn p +:+ eca_ruleID (pc_rule pc))%string
  /\ tracker_joinKeys (var_names (args_ p)) (pc_names pc) 1 = (L, I, R) /\ Forall passive pre /\ Forall passive ps
  /\ extends pc (pre ++ [ELookup2 (fn p) L I None; ENoNull] ++ ps ++ [EPelTransform (join_text jn (length (pc_names pc)) R)])
       (mergeWith (pc_names pc) (var_names (args_ p))) pc'.
Proof.
  intros He Hp Hn [Hv Hnd Hm] (x & Hx & Hxn). unfold generateProbeElements. rewrite He. cbn [rbind].
  change (FieldNamesTracker_mk (TFunctor p)) with (var_names (args_ p)).
  destruct (tracker_joinKeys (var_names (args_ p)) (pc_names pc) 1) as [[L I] R] eqn:EK.
  destruct (joinKeys_spec (fun _ => VNull) (pc_names pc) _ VNull (var_names (args_ p)) Hn Hm eq_refl 1
    (VNull :: ((fun _ => VNull) <$> var_names (args_ p))) ((fun _ => VNull) <$> var_names (args_ p)) L I R) as (_ & _ & _ & HL);
    [done|by rewrite length_fmap|done|].
  assert (Hne : L <> []) by (intros ->; destruct HL as [HL _]; by apply (HL eq_refl x)).
  destruct (extends_print "BeforeJoin" nm "b" pc) as (pre & Hpre & Hpp). set (pc1 := addPrint _ _ _ pc) in *.
  assert (Hlen : negb (length L =? 0)%nat = true) by (by destruct L). rewrite Hlen. cbn [check rbind].
  destruct (getTable_ok (pc_store pc1) (fn p)) as (T & ti & -> & ->); [by apply (ex_tables _ _ _ _ Hpre)|]. cbn [rbind of_option].
  assert (Hts : exists ts, (if bool_decide (primaryKeys ti = Z.of_nat <$> I) then Ok (pc_store pc1)
      else plan_index (fn p) I (pc_store pc1)) = Ok ts /\ forall n, has_table (pc_store pc1) n -> has_table ts n).
  { case_bool_decide; [by eexists|]. apply plan_index_ok. by apply (ex_tables _ _ _ _ Hpre). }
  destruct Hts as (ts & -> & Hts). cbn [rbind]. set (jn := ("join" +:+ _)%string).
  set (pc2 := addElement ENoNull _).
  assert (E2 : extends pc1 [ELookup2 (fn p) L I None; ENoNull] (mergeWith (pc_names pc) (var_names (args_ p))) pc2).
  { split; [cbn; by rewrite <- app_assoc|done|done|done]. }
  destruct (extends_print "AfterJoin" jn "j" pc2) as (ps & Hps & Hpsp). set (pc3 := addPrint _ _ _ pc2) in *.
  exists jn, L, I, R, pre, ps. eexists. split; [done|]. split_and!; [done|done|done|done|].
  eapply extends_trans; [exact Hpre|]. eapply extends_trans; [exact E2|].
  rewrite (ex_names _ _ _ _ E2) in Hps. eapply extends_trans; [exact Hps|]. rewrite <- (ex_names _ _ _ _ Hps). apply extends_add.
Qed.

(** All probes. *)
Lemma probes_planned f e ps : forall nm pc, event_of (pc_rule pc) = Ok (f, e) -> eca_aggWrap (pc_rule pc) = false ->
  plain_text (fn f) = true -> plain_text (eca_ruleID (pc_rule pc)) = true ->
  Forall (fun p => has_table (pc_store pc) (fn p)) ps -> Forall (fun x => unmarked x) (pc_names pc) -> joinable D (pc_names pc) ps ->
  exists body pc', probe_loop ps nm pc = Ok pc' /\ extends pc body (probe_names (pc_names pc) ps) pc'
  /\ forall us ts nm' outs, holding D f us ts nm' (pc_names pc) outs -> found D f us ts (pc_names pc) ps ->
     exists outs' nm'', flows nodeid D body outs outs' /\ holding D f us (ts ++ (TFunctor <$> ps)) nm'' (probe_names (pc_names pc) ps) outs'.
Proof.
  induction ps as [|p ps IH]; intros nm pc He Ha Hfn Hid Ht Hn Hj; cbn [probe_loop].
  { exists [], pc. split; [done|]. split; [apply extends_refl|]. intros us ts nm' outs Hh _. exists outs, nm'.
    split; [by intros ? ?|]. by rewrite app_nil_r. }
  rewrite Ha. cbn [rbind]. destruct Hj as (Hlin & Hst & Hpl & Hsh & Hsz & Hj). inversion_clear Ht as [|? ? Htp Hts].
  destruct (probe_planned p nm pc f e He Htp Hn Hlin Hsh) as (jn & L & I & R & pre & qs & pc1 & -> & Ejn & EK & Hpre & Hqs & Hx).
  cbn [rbind].
  assert (Hx2 : exists tl, extends pc1 tl (pc_names pc1) (if ps is [] then pc1 else addElement ETimedPullPush pc1) /\ Forall passive tl).
  { destruct ps; [exists []; split; [apply extends_refl|constructor]|]. eexists [_]. split; [apply extends_add|]. by repeat constructor. }
  destruct Hx2 as (tl & Hx2 & Htl). set (pc2 := if ps is [] then pc1 else _) in *.
  pose proof (extends_trans _ _ _ _ _ _ _ Hx Hx2) as Hx3. rewrite (ex_names _ _ _ _ Hx) in Hx3.
  destruct (mergeWith_spec (var_names (args_ p)) (pc_names pc) Hn (lin_names _ Hlin)) as [M1 _].
  destruct (IH jn pc2) as (body & pc' & E' & Hx' & Hrun).
  - by rewrite (ex_rule _ _ _ _ Hx3).
  - by rewrite (ex_rule _ _ _ _ Hx3).
  - done.
  - by rewrite (ex_rule _ _ _ _ Hx3).
  - apply (Forall_impl _ _ _ Hts). intros q Hq. by apply (ex_tables _ _ _ _ Hx3).
  - rewrite (ex_names _ _ _ _ Hx3). apply Forall_forall. intros y Hy. apply M1 in Hy as [Hy|Hy].
    + rewrite Forall_forall in Hn. by apply Hn.
    + pose proof (lin_names _ Hlin) as Hm. rewrite Forall_forall in Hm. by apply Hm.
  - by rewrite (ex_names _ _ _ _ Hx3).
  - rewrite (ex_names _ _ _ _ Hx3) in Hx', Hrun. eexists _, pc'. split; [exact E'|]. split; [eapply extends_trans; [exact Hx3|exact Hx']|].
    intros us ts nm' outs Hh Hf.
    assert (Hjn : plain_text jn = true).
    { subst jn. unfold plain_text in *. rewrite !string_bytes_app, !forallb_app, Hfn, Hpl, Hid. done. }
    destruct (probe_flows nodeid D jn _ L I R p None qs outs f us ts nm' Hh Hlin Hst EK Hjn Hsz Hqs) as (outs1 & Hfl & Hm1).
    { by eapply found_matches. }
    pose proof (holding_probe D jn _ L I R p outs outs1 f us ts nm' Hh Hlin Hst EK Hm1) as Hh1. destruct Hf as [_ Hf].
    destruct (Hrun us _ jn outs1 Hh1 Hf) as (outs' & nm'' & Hfl' & Hh'). exists outs', nm''. split.
    + eapply flows_app; [|exact Hfl']. eapply flows_app; [|by apply flows_passive]. eapply flows_app; [by apply flows_passive|exact Hfl].
    + rewrite <- app_assoc in Hh'. exact Hh'.
Qed.

(** The text of a condition does not depend on the tuple. *)
Lemma select_written names e : Forall (fun x => unmarked x) names -> Z.of_nat (length names) < 65535 ->
  head_writable names e [] (after_select names) -> (forall σ : valuation, is_Some (ol_eval (fun x => Some (σ x)) e)) ->
  exists text, pelSelect names e = Ok text.
Proof.
  intros Hn Hsz [Hv Hp _ _] Ht. destruct (Ht (fun _ => VNull)) as [o Ho].
  destruct (ol_text names Hsz (VNull :: ((fun _ => VNull) <$> names)) e o) as [E _]; [by rewrite eval_bound|done|].
  unfold pelSelect. rewrite E. by eexists.
Qed.

Lemma assign_written names x e : Forall (fun x => unmarked x) names -> Z.of_nat (length names) < 65535 -> unmarked x -> x ∉ names ->
  head_writable names e (before_assign names) [IOp (op_index "pop")] -> (forall σ : valuation, is_Some (ol_eval (fun x => Some (σ x)) e)) ->
  exists text, pelAssign names x e = Ok (text, names ++ [x]).
Proof.
  intros Hn Hsz Hx Hno [Hv Hp _ _] Ht. destruct (Ht (fun _ => VNull)) as [o Ho].
  destruct (ol_text names Hsz (VNull :: ((fun _ => VNull) <$> names)) e o) as [E _]; [by rewrite eval_bound|done|].
  unfold pelAssign. rewrite E, (proj2 (fieldPosition_None names x Hn Hx) Hno). by eexists.
Qed.

(** All conditions and assignments. *)
Lemma terms_planned f qs : forall pc, Forall (fun x => unmarked x) (pc_names pc) -> assignable (pc_names pc) qs ->
  exists body pc', select_assign_loop qs pc = Ok pc' /\ extends pc body (term_names (pc_names pc) qs) pc'
  /\ forall us ts nm outs, holding D f us ts nm (pc_names pc) outs -> calm_terms D f us ts qs ->
     exists outs', flows nodeid D body outs outs' /\ holding D f us (ts ++ qs) nm (term_names (pc_names pc) qs) outs'.
Proof.
  induction qs as [|q qs IH]; intros pc Hn Ha; cbn [select_assign_loop].
  { exists [], pc. split; [done|]. split; [apply extends_refl|]. intros us ts nm outs Hh _. exists outs.
    split; [by intros ? ?|]. by rewrite app_nil_r. }
  destruct q as [|x e|e|]; try done.
  - destruct Ha as (Hw & Htot & Hx & Hno & Hsz & Ha).
    destruct (assign_written (pc_names pc) x e Hn Hsz Hx Hno Hw Htot) as [text Et]. rewrite Et. cbn [rbind].
    set (pc1 := addElement _ _).
    assert (Hx1 : extends pc [EPelTransform text] (pc_names pc ++ [x]) pc1) by (by split).
    destruct (IH pc1) as (body & pc' & E' & Hx' & Hrun).
    + rewrite (ex_names _ _ _ _ Hx1). apply Forall_app. by repeat constructor.
    + by rewrite (ex_names _ _ _ _ Hx1).
    + rewrite (ex_names _ _ _ _ Hx1) in Hx', Hrun. eexists _, pc'. split; [exact E'|].
      split; [eapply extends_trans; [exact Hx1|exact Hx']|]. intros us ts nm outs Hh [Hc Hcs].
      destruct (holding_assign nodeid D (pc_names pc) x e text outs f us ts nm Hh Hsz Hw Hx Hno Et Hc) as (outs1 & Hf1 & Hh1).
      destruct (Hrun us _ nm outs1 Hh1 Hcs) as (outs' & Hf' & Hh').
      exists outs'. split; [by eapply flows_app|]. by rewrite <- app_assoc in Hh'.
  - destruct Ha as (Hw & Htot & Hsz & Ha).
    destruct (select_written (pc_names pc) e Hn Hsz Hw Htot) as [text Et]. rewrite Et. cbn [rbind].
    set (pc1 := addElement _ _).
    assert (Hx1 : extends pc [EPelTransform text] (pc_names pc) pc1) by (by split).
    destruct (IH pc1) as (body & pc' & E' & Hx' & Hrun).
    + by rewrite (ex_names _ _ _ _ Hx1).
    + by rewrite (ex_names _ _ _ _ Hx1).
    + rewrite (ex_names _ _ _ _ Hx1) in Hx', Hrun. eexists _, pc'. split; [exact E'|].
      split; [eapply extends_trans; [exact Hx1|exact Hx']|]. intros us ts nm outs Hh [Hc Hcs].
      destruct (holding_select nodeid D (pc_names pc) e text outs f us ts nm Hh Hsz Hw Et Hc) as (outs1 & Hf1 & Hh1).
      destruct (Hrun us _ nm outs1 Hh1 Hcs) as (outs' & Hf' & Hh').
      exists outs'. split; [by eapply flows_app|]. by rewrite <- app_assoc in Hh'.
Qed.

Lemma joinable_unmarked names ps : Forall (fun x => unmarked x) names -> joinable D names ps ->
  Forall (fun x => unmarked x) (probe_names names ps).
Proof.
  revert names. induction ps as [|p ps IH]; intros names Hn Hj; [done|]. destruct Hj as ([_ _ Hm] & _ & _ & _ & _ & Hj).
  apply IH; [|done]. destruct (mergeWith_spec (var_names (args_ p)) names Hn Hm) as [M1 _].
  rewrite Forall_forall in *. intros x Hx. apply M1 in Hx as [Hx|Hx]; auto.
Qed.

Lemma assignable_unmarked names qs : Forall (fun x => unmarked x) names -> assignable names qs ->
  Forall (fun x => unmarked x) (term_names names qs).
Proof.
  revert names. induction qs as [|q qs IH]; intros names Hn Ha; [done|]. destruct q as [|x e|e|]; try done.
  - destruct Ha as (_ & _ & Hx & _ & _ & Ha). apply IH; [|done]. apply Forall_app. by repeat constructor.
  - destruct Ha as (_ & _ & _ & Ha). by apply IH.
Qed.

(** What the planner needs of a rule: its event and action, no aggregate, one
    occurrence of each variable in a predicate, joins over shared variables,
    conditions and assignments over known ones, a head of bound variables, and
    the tables. *)
Record plannable (ts : TableStore) (x : ECA_Rule) (f : Parse_Functor) (e : PEvent.Event) (g : Parse_Functor) (a : PAction.Action)
    : Prop := {
  pl_event : eca_event x = Some (f, e);
  pl_action : eca_action x = Some (g, a);
  pl_aggwrap : eca_aggWrap x = false;
  pl_aggregate : Functor_aggregate g = None;
  pl_periodic : fn f <> "periodic"%string;
  pl_linear : linear f;
  pl_texts : plain_text (fn f) = true /\ plain_text (fn g) = true /\ plain_text (eca_ruleID x) = true;
  pl_event_table : e <> PEvent.RECV -> has_table ts (fn f);
  pl_probe_tables : Forall (fun p => has_table ts (fn p)) (eca_probeTerms x);
  pl_probes : joinable D (var_names (args_ f)) (eca_probeTerms x);
  pl_terms : assignable (probe_names (var_names (args_ f)) (eca_probeTerms x)) (eca_selectAssignTerms x);
  pl_size : Z.of_nat (length (term_names (probe_names (var_names (args_ f)) (eca_probeTerms x)) (eca_selectAssignTerms x))) < 65535;
  pl_head : Forall (fun e => is_var e = true) (args_ g);
  pl_bound : forall y, y ∈ var_names (args_ g) ->
    y ∈ term_names (probe_names (var_names (args_ f)) (eca_probeTerms x)) (eca_selectAssignTerms x);
  pl_target : match a with
    | PAction.ADD | PAction.DELETE => has_table ts (fn g)
    | PAction.SEND => is_Some (location_index (getlocspec g) 0 (args_ g) None)
    | PAction.DROP => True
    end
}.

Lemma event_planned ts x f e g a pc : plannable ts x f e g a -> pc_rule pc = x -> pc_names pc = var_names (args_ f) -> pc_store pc = ts ->
  exists ev pc', generateEventElement pc = Ok pc' /\ extends pc ev (var_names (args_ f)) pc' /\ Forall passive ev.
Proof.
  intros [He Ha _ Hag Hper _ _ Hev _ _ _ _ _ _ _] Hr Hn Hs. unfold generateEventElement, event_of, action_of. rewrite Hr, He, Ha.
  cbn [of_option rbind].
  assert (Htab : forall mk what m, e <> PEvent.RECV -> (forall n, passive (mk n)) ->
    exists ev pc', table_event mk what m pc = Ok pc' /\ extends pc ev (var_names (args_ f)) pc' /\ Forall passive ev).
  { intros mk what m Hne Hmk. unfold table_event, event_of. rewrite Hr, He. cbn [of_option rbind]. cbn [pc_store with_names].
    rewrite Hs. destruct (getTable_ok ts (fn f) (Hev Hne)) as (T & ti & -> & _). cbn [rbind].
    set (pc1 := addElement (mk (fn f)) _).
    assert (H1 : extends pc [mk (fn f)] (var_names (args_ f)) pc1) by (by split).
    destruct (extends_print what (fn f) m pc1) as (ps & H2 & Hps). set (pc2 := addPrint _ _ _ pc1) in *.
    pose proof (extends_trans _ _ _ _ _ _ _ H1 H2) as H3. rewrite (ex_names _ _ _ _ H1) in H3.
    destruct (0 <? _)%nat.
    - eexists _, _. split; [done|]. split; [eapply extends_trans; [exact H3|]; rewrite <- (ex_names _ _ _ _ H3); apply extends_add|].
      apply Forall_app. split; [|by repeat constructor]. apply Forall_app. split; [|done]. constructor; [apply Hmk|constructor].
    - eexists _, _. split; [done|]. split; [exact H3|]. apply Forall_app. split; [|done]. constructor; [apply Hmk|constructor]. }
  destruct e.
  - rewrite Hag. destruct (String.eqb_spec (fn f) "periodic"); [done|]. by apply Htab.
  - by apply Htab.
  - unfold generateReceiveEvent, event_of. rewrite Hr, He. cbn [of_option rbind].
    set (pc1 := with_names _ pc). assert (H1 : extends pc [] (var_names (args_ f)) pc1) by (apply extends_names).
    destruct (extends_print "RecvEvent" (fn f) "c" pc1) as (ps & H2 & Hps). set (pc2 := addPrint _ _ _ pc1) in *.
    pose proof (extends_trans _ _ _ _ _ _ _ H1 H2) as H3. rewrite (ex_names _ _ _ _ H1) in H3. destruct (_ =? 0)%nat.
    + eexists _, _. split; [done|]. split; [eapply extends_trans; [exact H3|]; rewrite <- (ex_names _ _ _ _ H3); apply extends_add|].
      apply Forall_app. split; [done|]. by repeat constructor.
    + eexists _, _. split; [done|]. split; [exact H3|]. done.
  - by apply Htab.
Qed.

Lemma action_planned ts x f e g a pc : plannable ts x f e g a -> pc_rule pc = x -> (forall n, has_table ts n -> has_table (pc_store pc) n) ->
  exists act pc', generateActionElement pc = Ok pc' /\ pc_chain pc' = pc_chain pc ++ act.
Proof.
  intros Hp Hr Hs. unfold generateActionElement, action_of. rewrite Hr, (pl_action _ _ _ _ _ _ Hp). cbn [of_option rbind].
  pose proof (pl_target _ _ _ _ _ _ Hp) as Ht. destruct a.
  - unfold generateSendAction, action_of. rewrite Hr, (pl_action _ _ _ _ _ _ Hp). cbn [of_option rbind]. destruct Ht as [k ->]. cbn [of_option rbind].
    destruct (extends_print "SendAction" (fn g) "s" pc) as (ps & [E1 _ _ _] & _). eexists _, _. split; [done|]. cbn. rewrite E1. by rewrite <- app_assoc.
  - unfold generateAddAction, action_of. rewrite Hr, (pl_action _ _ _ _ _ _ Hp). cbn [of_option rbind].
    destruct (extends_print "AddAction" (fn g) "a" pc) as (ps & [E1 _ _ E4] & _).
    destruct (getTable_ok (pc_store (addPrint "AddAction" (fn g) "a" pc)) (fn g)) as (T & ti & -> & _); [by apply E4, Hs|].
    eexists _, _. split; [done|]. cbn. rewrite E1. by rewrite <- !app_assoc.
  - unfold generateDeleteAction, action_of. rewrite Hr, (pl_action _ _ _ _ _ _ Hp). cbn [of_option rbind].
    destruct (extends_print "DeleteAction" (fn g) "z" pc) as (ps & [E1 _ _ E4] & _).
    destruct (getTable_ok (pc_store (addPrint "DeleteAction" (fn g) "z" pc)) (fn g)) as (T & ti & -> & _); [by apply E4, Hs|].
    eexists _, _. split; [done|]. cbn. rewrite E1. by rewrite <- !app_assoc.
  - eexists _, _. split; [done|]. cbn. by rewrite <- app_assoc.
Qed.

(** The part of the strand between event and action. *)
Lemma body_planned ts x f e g a pc : plannable ts x f e g a -> pc_rule pc = x -> pc_names pc = var_names (args_ f) ->
  (forall n, has_table ts n -> has_table (pc_store pc) n) ->
  exists body pc1 pc2 pc', generateMultipleProbeElements pc = Ok pc1 /\ generateSelectionAssignmentElements pc1 = Ok pc2
  /\ generateProjectElements pc2 = Ok pc' /\ extends pc body (var_names (args_ g)) pc'
  /\ forall us, length us = length (args_ f) ->
     calm_terms D f us (TFunctor <$> eca_probeTerms x) (eca_selectAssignTerms x) ->
     found D f us [] (var_names (args_ f)) (eca_probeTerms x) ->
     exists outs, flows nodeid D body [VStr (fn f) :: us] outs
     /\ forall out, out ∈ outs <-> exists vs, out = VStr (fn g) :: vs /\ fires (db_of D) x e (fn f) us a (fn g) vs.
Proof.
  intros Hp Hr Hn Hs. pose proof (pl_linear _ _ _ _ _ _ Hp) as Hlin. destruct (pl_texts _ _ _ _ _ _ Hp) as (Hf & Hg & Hid).
  assert (Hev : event_of (pc_rule pc) = Ok (f, e)) by (unfold event_of; by rewrite Hr, (pl_event _ _ _ _ _ _ Hp)).
  assert (Hum : Forall (fun y => unmarked y) (pc_names pc)) by (rewrite Hn; by apply lin_names).
  unfold generateMultipleProbeElements. rewrite Hev. cbn [rbind].
  destruct (probes_planned f e (eca_probeTerms (pc_rule pc)) (fn f) pc Hev) as (b1 & pc1 & -> & X1 & R1); try done.
  { by rewrite Hr, (pl_aggwrap _ _ _ _ _ _ Hp). }
  { by rewrite Hr. }
  { rewrite Hr. apply (Forall_impl _ _ _ (pl_probe_tables _ _ _ _ _ _ Hp)). auto. }
  { rewrite Hr, Hn. by apply (pl_probes _ _ _ _ _ _ Hp). }
  rewrite Hr, Hn in X1, R1.
  assert (Hum1 : Forall (fun y => unmarked y) (pc_names pc1)).
  { rewrite (ex_names _ _ _ _ X1). apply joinable_unmarked; [by rewrite Hn in Hum|]. by apply (pl_probes _ _ _ _ _ _ Hp). }
  destruct (terms_planned f (eca_selectAssignTerms (pc_rule pc1)) pc1 Hum1) as (b2 & pc2 & E2 & X2 & R2).
  { rewrite (ex_rule _ _ _ _ X1), Hr, (ex_names _ _ _ _ X1). by apply (pl_terms _ _ _ _ _ _ Hp). }
  rewrite (ex_rule _ _ _ _ X1), Hr, (ex_names _ _ _ _ X1) in X2, R2.
  set (names := term_names (probe_names (var_names (args_ f)) (eca_probeTerms x)) (eca_selectAssignTerms x)) in *.
  assert (Hum2 : Forall (fun y => unmarked y) names).
  { apply assignable_unmarked; [by rewrite (ex_names _ _ _ _ X1) in Hum1|]. by apply (pl_terms _ _ _ _ _ _ Hp). }
  destruct (head_columns_ok names (args_ g) Hum2 (pl_head _ _ _ _ _ _ Hp) (pl_bound _ _ _ _ _ _ Hp)) as (ks & Ek & Hk).
  set (pc3 := addElement (EPelTransform (project_text (fn g) ks)) pc2).
  destruct (extends_print "HeadProjection" (fn g) "h" pc3) as (ps & X3 & Hps).
  exists (b1 ++ b2 ++ [EPelTransform (project_text (fn g) ks)] ++ ps), pc1, pc2.
  eexists. split; [done|]. split; [exact E2|]. split.
  { unfold generateProjectElements, action_of. rewrite (ex_rule _ _ _ _ X2), (ex_rule _ _ _ _ X1), Hr, (pl_action _ _ _ _ _ _ Hp).
    cbn [of_option rbind]. rewrite (ex_names _ _ _ _ X2). fold names. rewrite Ek. cbn [rbind]. reflexivity. }
  split.
  { eapply extends_trans; [exact X1|]. eapply extends_trans; [exact X2|]. eapply extends_trans; [apply extends_add|]. fold pc3.
    rewrite <- (app_nil_r ps). eapply extends_trans; [exact X3|]. apply extends_names. }
  intros us Hl Hcalm Hfound. pose proof (holding_event D f us Hlin Hl) as H0.
  destruct (R1 us [] (fn f) _ H0 Hfound) as (outs1 & nm1 & F1 & H1).
  destruct (R2 us _ nm1 outs1 H1 Hcalm) as (outs2 & F2 & H2).
  destruct (holding_project nodeid D names (fn g) (args_ g) ks outs2 f us _ nm1 H2 (pl_size _ _ _ _ _ _ Hp) Hg Hk) as (outs & F3 & H3).
  exists outs. split.
  - eapply flows_app; [exact F1|]. eapply flows_app; [exact F2|]. eapply flows_app; [exact F3|]. by apply flows_passive.
  - intros out. rewrite H3. cbn [app]. unfold fires. split.
    + intros (σ & Hσ & Hts & ->). apply Forall_app in Hts as [Hts1 Hts2]. eexists. split; [done|].
      exists σ, f, g. split_and!; [by apply (pl_event _ _ _ _ _ _ Hp)|by apply (pl_action _ _ _ _ _ _ Hp)|done|done|done|done|done|].
      apply probe_matches_vars; [by apply (pl_head _ _ _ _ _ _ Hp)|done].
    + intros (vs & -> & σ & f' & g' & E1' & E2' & _ & _ & Hσ & Hts1 & Hts2 & Hvs).
      rewrite (pl_event _ _ _ _ _ _ Hp) in E1'. rewrite (pl_action _ _ _ _ _ _ Hp) in E2'. simplify_eq.
      exists σ. split_and!; [done|by apply Forall_app|]. f_equal. apply probe_matches_vars; [by apply (pl_head _ _ _ _ _ _ Hp)|done].
Qed.

(** C25: The planner is correct for the rules it is meant for, where every lookup
    finds something: [compileECARule] makes a strand whose elements in front of
    the action - an event source, lookups with their projections, conditions,
    assignments, the head projection - turn the event tuple [us] into exactly
    the head tuples that the rule derives from it and the tables, each under the
    name of the head. *)
Theorem strand_correct (seen : bool) (ts : TableStore) (watches : list (string * string)) (nodeID : string) (x : ECA_Rule)
    (f : Parse_Functor) (e : PEvent.Event) (g : Parse_Functor) (a : PAction.Action) : plannable ts x f e g a ->
  exists pc0 pcb pc' ev body, PlanContext_mk (CB := CB) ts watches nodeID x = Ok pc0 /\ compileECARule seen pc0 = Ok pc'
  /\ generateActionElement pcb = Ok pc' /\ pc_chain pcb = ev ++ body /\ Forall passive ev
  /\ forall us, length us = length (args_ f) ->
     calm_terms D f us (TFunctor <$> eca_probeTerms x) (eca_selectAssignTerms x) ->
     found D f us [] (var_names (args_ f)) (eca_probeTerms x) ->
     exists outs, flows nodeid D body [VStr (fn f) :: us] outs
     /\ forall out, out ∈ outs <-> exists vs, out = VStr (fn g) :: vs /\ fires (db_of D) x e (fn f) us a (fn g) vs.
Proof.
  intros Hp. unfold PlanContext_mk, event_of. rewrite (pl_event _ _ _ _ _ _ Hp). cbn [of_option rbind].
  set (pc0 := mkPlanContext _ _ _ _ _ _ _ _).
  destruct (event_planned ts x f e g a pc0 Hp) as (ev & pc1 & E1 & X1 & Hev); [done|done|done|].
  destruct (body_planned ts x f e g a pc1 Hp) as (body & pc2 & pc3 & pc4 & E2 & E3 & E4 & X4 & Hrun).
  { by rewrite (ex_rule _ _ _ _ X1). }
  { by apply (ex_names _ _ _ _ X1). }
  { intros n Hn. by apply (ex_tables _ _ _ _ X1). }
  pose proof (extends_trans _ _ _ _ _ _ _ X1 X4) as XX.
  destruct (action_planned ts x f e g a pc4 Hp) as (act & pc' & E5 & _).
  { by rewrite (ex_rule _ _ _ _ XX). }
  { intros n Hn. by apply (ex_tables _ _ _ _ XX). }
  exists pc0, pc4, pc', ev, body. split; [done|]. unfold compileECARule, initializeAggWrap. cbv zeta.
  change (pc_rule pc0) with x. rewrite (pl_aggwrap _ _ _ _ _ _ Hp). cbn [rbind]. rewrite E1. cbn [rbind]. rewrite E2. cbn [rbind]. rewrite E3. cbn [rbind].
  rewrite E4. cbn [rbind]. unfold generateAggWrap. cbv zeta. rewrite (ex_rule _ _ _ _ XX). change (pc_rule pc0) with x.
  rewrite (pl_aggwrap _ _ _ _ _ _ Hp). cbn [rbind]. split_and!; [done|done|by apply (ex_chain _ _ _ _ XX)|done|exact Hrun].
Qed.

(** ** Lookups that find nothing *)

Lemma unmatched_throws jn (vs : list value) nm r R m : plain_text jn = true ->
  Z.of_nat (length vs) + Z.of_nat (S (length R)) < 65535 -> Forall (fun r => Z.of_nat r < 65536) (r :: R) ->
  PelTransform_simple_action nodeid (load (build (join_pieces jn (length vs) (r :: R)))) [VTuple (nm :: vs); VTuple []] m
    = Fail OutOfRange.
Proof.
  intros Hj Hsz HR. apply Forall_cons in HR as [Hr HR].
  assert (E : join_pieces jn (length vs) (r :: R) = (const_piece (VStr jn) :: ((fun k => nested_piece 0 (S k)) <$> seq 0 (length vs)))
    ++ nested_piece 1 r :: (nested_piece 1 <$> R)) by done.
  pose proof (join_constants jn (length vs) (r :: R)) as Hc. rewrite E in Hc |- *.
  apply (transform_fails nodeid [VTuple (nm :: vs); VTuple []] _ (VStr jn :: vs) _ _ (Raise OutOfRange)).
  - constructor; [apply computes_const|]. apply Forall2_fmap_l, Forall2_same_length_lookup_2; [by rewrite length_seq|].
    intros i k v Hk Hv. apply lookup_seq in Hk as [-> Hi].
    pose proof (computes_nested nodeid [VTuple (nm :: vs); VTuple []] 0 (S i) (nm :: vs) eq_refl) as Hn.
    change ((nm :: vs) !! S i) with (vs !! i) in Hn. rewrite Hv in Hn. apply Hn; lia.
  - apply (computes_nested nodeid [VTuple (nm :: vs); VTuple []] 1 r [] eq_refl); lia.
  - rewrite Hc. cbn [length]. lia.
Qed.

(** C29: A probe that finds nothing does not end quietly: the elements
    [generateProbeElements] makes hand the pair of the tuple and an empty tuple
    to the projection, which throws when the probed predicate has a variable
    that was not known, and otherwise passes on a joined tuple although the
    table holds no match. *)
Theorem unmatched_probe (p : Parse_Functor) (nm : string) (pc : PlanContext CB) (f : Parse_Functor) (e : PEvent.Event) :
  event_of (pc_rule pc) = Ok (f, e) -> has_table (pc_store pc) (fn p) -> Forall (fun x => unmarked x) (pc_names pc) -> linear p ->
  (exists x, x ∈ var_names (args_ p) /\ x ∈ pc_names pc) ->
  plain_text (fn f) = true -> plain_text (fn p) = true -> plain_text (eca_ruleID (pc_rule pc)) = true ->
  Z.of_nat (length (pc_names pc)) + Z.of_nat (length (args_ p)) < 65534 ->
  exists jn pc' ss L I R, generateProbeElements p nm None pc = Ok (jn, pc') /\ pc_chain pc' = pc_chain pc ++ ss
  /\ tracker_joinKeys (var_names (args_ p)) (pc_names pc) 1 = (L, I, R)
  /\ forall n (vs : list value), length vs = length (pc_names pc) -> probe_matches L I (n :: vs) (D (fn p)) = [] ->
     ((exists y, y ∈ var_names (args_ p) /\ y ∉ pc_names pc) -> forall machine i, run_chain nodeid D ss machine i [n :: vs] = Fail OutOfRange)
     /\ ((forall y, y ∈ var_names (args_ p) -> y ∈ pc_names pc) -> flows nodeid D ss [n :: vs] [VStr jn :: vs]).
Proof.
  intros He Hp Hn Hlin Hsh Hf Hpl Hid Hsz.
  destruct (probe_planned p nm pc f e He Hp Hn Hlin Hsh) as (jn & L & I & R & pre & qs & pc' & E & Ejn & EK & Hpre & Hqs & Hx).
  exists jn, pc'. eexists _, L, I, R. split; [exact E|]. split; [exact (ex_chain _ _ _ _ Hx)|]. split; [done|].
  assert (Hjn : plain_text jn = true).
  { subst jn. unfold plain_text in *. rewrite !string_bytes_app, !forallb_app, Hf, Hpl, Hid. done. }
  destruct Hlin as [Hv Hnd Hm]. pose proof (var_names_length _ Hv) as Hlen.
  intros n vs Hl Hnil. set (ns := var_names (args_ p)) in *.
  set (ws := (fun _ : string => VNull) <$> ns).
  destruct (joinKeys_spec (fun _ => VNull) (pc_names pc) _ n ns Hn Hm eq_refl 1 (n :: ws) ws L I R) as (_ & HR & Hlt & _);
    [done|unfold ws; by rewrite length_fmap|done|].
  assert (HRl : (length R <= length (args_ p))%nat).
  { apply Forall2_length in HR. rewrite length_fmap in HR. rewrite HR, <- Hlen.
    etransitivity; [apply length_filter|]. rewrite length_zip_with. lia. }
  assert (HRs : Forall (fun r => Z.of_nat r < 65536) R).
  { apply (Forall_impl _ _ _ Hlt). intros r Hr. rewrite Hlen in Hr. lia. }
  assert (Hnew : (exists y, y ∈ ns /\ y ∉ pc_names pc) <-> R <> []).
  { apply Forall2_length in HR. rewrite length_fmap in HR. split.
    - intros (y & Hy & Hno) ->. destruct (filter _ _) as [|[z w] l] eqn:Ef; [|done].
      apply list_elem_of_lookup in Hy as [k Hk].
      assert (Hin : (y, VNull) ∈ filter (fun xw : string * value => fst xw ∉ pc_names pc) (zip ns ws)).
      { apply list_elem_of_filter. split; [done|]. apply list_elem_of_lookup. exists k. apply lookup_zip_with_Some.
        exists y, VNull. split_and!; [done|done|]. unfold ws. by rewrite list_lookup_fmap, Hk. }
      rewrite Ef in Hin. by apply elem_of_nil in Hin.
    - intros Hne. destruct (filter _ _) as [|[z w] l] eqn:Ef; [by destruct R|].
      assert (Hin : (z, w) ∈ filter (fun xw : string * value => fst xw ∉ pc_names pc) (zip ns ws)) by (rewrite Ef; by left).
      apply list_elem_of_filter in Hin as [Hz Hin]. exists z. split; [by eapply elem_of_zip_l|done]. }
  assert (Hfront : flows nodeid D (pre ++ [ELookup2 (fn p) L I None; ENoNull] ++ qs) [n :: vs] [[VTuple (n :: vs); VTuple []]]).
  { eapply flows_app; [by apply flows_passive|]. eapply flows_app; [|by apply flows_passive].
    intros machine i. cbn [app run_chain feed elem_step rbind]. rewrite Hnil. done. }
  rewrite !app_assoc, <- (app_assoc pre). split.
  - intros Hy machine i. apply Hnew in Hy. destruct R as [|r R]; [done|]. rewrite run_chain_app, Hfront. cbn [rbind run_chain feed elem_step].
    rewrite (join_compiles jn) by (done || lia). cbn [rbind]. rewrite <- Hl.
    rewrite unmatched_throws; [done|done|cbn [length] in HRl |- *; lia|done].
  - intros Hall. eapply flows_app; [exact Hfront|].
    destruct R as [|r R]; [|destruct (proj2 Hnew) as (y & Hy & Hno); [done|]; by destruct Hno; apply Hall].
    apply (flows_one nodeid D _ (fun _ => [VStr jn :: vs])). apply Forall_singleton. intros m. cbn [elem_step].
    rewrite (join_compiles jn) by (done || lia). cbn [rbind]. rewrite <- Hl.
    destruct (join_projects nodeid jn vs n [] [] [] m) as [m' ->]; [cbn; lia|constructor|constructor|]. exists m'.
    cbn. by rewrite app_nil_r.
Qed.
End plan.

(** ** Examples *)

Lemma exact_int64 n : exact (VInt64 n).
Proof.
  intros v. destruct v as [|s|i| | | | | | | | | | ]; cbn; try (split; [intros ?; lia|by intros [=]]).
  unfold Val_Int64_compareTo. cbn. destruct (Z.ltb_spec i n), (Z.ltb_spec n i); split; intros E; try lia; try injection E; try lia.
  f_equal. lia.
Qed.

Section examples.
#[local] Existing Instance bare_platform.
#[local] Existing Instance still_externals.
#[local] Existing Instance ol_sem.

(** [out(X, Z, W) :- ping(X, Y), link(Y, Z), X < Z, W := Z * 2.] *)
Definition ping : Parse_Functor := mkFunctor "ping" [Parse_Var "X" true; Parse_Var "Y" false] "".
Definition link_pred : Parse_Functor := mkFunctor "link" [Parse_Var "Y" false; Parse_Var "Z" false] "".
Definition out_pred : Parse_Functor := mkFunctor "out" [Parse_Var "X" false; Parse_Var "Z" false; Parse_Var "W" false] "".
Definition x_lt_z : Parse_Expr := Parse_Bool OLBool.LT (Parse_Var "X" false) (Some (Parse_Var "Z" false)).
Definition z_twice : Parse_Expr := Parse_Math OLMath.TIMES (Parse_Var "Z" false) (Some (Parse_Val (VInt64 2))).
Definition ping_rule : ECA_Rule :=
  mkECA "r1" (Some (ping, PEvent.RECV)) (Some (out_pred, PAction.DROP)) [link_pred] [TSelect x_lt_z; TAssign "W" z_twice] false.

Definition link_store : TableStore :=
  mkStore {["link"%string := mkTableInfo "link" NO_EXPIRATION 0 [1]]} {["link"%string := ARefTable (RefTable.mk "link" [1%nat] 0)]} ∅.
Definition link_data (n : string) : list (list value) :=
  if (n =? "link")%string then [[VStr "link"; VInt64 2; VInt64 5]; [VStr "link"; VInt64 2; VInt64 0]; [VStr "link"; VInt64 7; VInt64 9]] else [].

Lemma linear_vars f : Forall (fun e => is_var e = true) (args_ f) -> NoDup (var_names (args_ f)) ->
  Forall (fun x => unmarked x) (var_names (args_ f)) -> linear f.
Proof. by split. Qed.

Lemma link_stored : stored link_data link_pred.
Proof.
  unfold stored. cbn. assert (H : forall a b, exists ws, [VStr "link"; VInt64 a; VInt64 b] = VStr "link" :: ws /\ length ws = 2%nat
    /\ Forall exact ws).
  { intros a b. exists [VInt64 a; VInt64 b]. split_and!; [done|done|]. repeat constructor; apply exact_int64. }
  repeat (apply Forall_cons; split; [apply H|]). constructor.
Qed.

Lemma link_linear : linear ping /\ linear link_pred.
Proof. split; (apply linear_vars; [by repeat constructor|vm_decide|by repeat constructor]). Qed.

Lemma ping_terms : assignable ["X"; "Y"; "Z"]%string (eca_selectAssignTerms ping_rule).
Proof.
  split_and!; [| |cbn; lia|]; [| |split_and!; [| |done|vm_decide|cbn; lia|done]].
  - split; [|done|by vm_compute|by vm_compute]. intros x Hx. change (x ∈ ["X"; "Z"]%string) in Hx. rewrite !elem_of_cons in *. tauto.
  - intros σ. by eexists.
  - split; [|repeat split; unfold readable, is_i64; lia|by vm_compute|by vm_compute]. intros x Hx.
    change (x ∈ ["Z"]%string) in Hx. rewrite !elem_of_cons in *. tauto.
  - intros σ. by eexists.
Qed.

Lemma ping_plannable : plannable link_data link_store ping_rule ping PEvent.RECV out_pred PAction.DROP.
Proof.
  split; try done.
  - apply link_linear.
  - constructor; [|constructor]. split; by eexists.
  - split_and!; [apply link_linear|apply link_stored|done|exists "Y"%string; split; vm_decide|cbn; lia|done].
  - apply ping_terms.
  - by repeat constructor.
  - intros y Hy. change (y ∈ ["X"; "Y"; "Z"; "W"]%string). change (y ∈ ["X"; "Z"; "W"]%string) in Hy.
    rewrite !elem_of_cons in *. tauto.
Qed.

(** Both links of 2 are found; the condition keeps one. *)
Definition ping_us : list value := [VInt64 1; VInt64 2].

Lemma ping_values (σ : valuation) : args_match σ (args_ ping) ping_us -> σ "X"%string = VInt64 1 /\ σ "Y"%string = VInt64 2.
Proof. intros H. apply probe_matches_vars in H; [|by repeat constructor]. by injection H. Qed.

Lemma ping_link (σ : valuation) : args_match σ (args_ ping) ping_us -> term_holds (db_of link_data) σ (TFunctor link_pred) ->
  σ "Z"%string = VInt64 5 \/ σ "Z"%string = VInt64 0.
Proof.
  intros Hσ (ws & Hws & HD). apply ping_values in Hσ as [_ Hy]. apply probe_matches_vars in Hws as ->; [|by repeat constructor].
  unfold db_of in HD. cbn in HD. rewrite Hy, !elem_of_cons, elem_of_nil in HD. intuition congruence.
Qed.

Lemma ping_calm : calm_terms link_data ping ping_us [TFunctor link_pred] (eca_selectAssignTerms ping_rule).
Proof.
  split; [|split; [|done]].
  - intros σ Hσ Hl. rewrite Forall_singleton in Hl. pose proof (ping_link σ Hσ Hl) as Hz. apply ping_values in Hσ as [Hx _].
    unfold calm, select_calm. cbn. rewrite Hx. destruct Hz as [->| ->]; eexists _, _; (split; [reflexivity|vm_compute; reflexivity]).
  - intros σ Hσ Hl. apply Forall_app in Hl as [Hl _]. rewrite Forall_singleton in Hl. pose proof (ping_link σ Hσ Hl) as Hz.
    unfold calm, assign_calm. cbn. destruct Hz as [->| ->]; eexists; (split; [reflexivity|]); intros f; vm_compute; done.
Qed.

Lemma ping_found : found link_data ping ping_us [] ["X"; "Y"]%string [link_pred].
Proof.
  split; [|done]. intros σ Hσ _. exists (rebind ["Z"]%string [VInt64 5] σ). split.
  - intros x Hx. apply rebind_out. rewrite !elem_of_cons, elem_of_nil in Hx. rewrite list_elem_of_singleton. intuition congruence.
  - exists [VInt64 2; VInt64 5]. apply ping_values in Hσ as [_ Hy]. split; [|unfold db_of; vm_decide].
    apply probe_matches_vars; [by repeat constructor|].
    change ([VInt64 2; VInt64 5] = [rebind ["Z"] [VInt64 5] σ "Y"; rebind ["Z"] [VInt64 5] σ "Z"]%string).
    rewrite (rebind_out _ _ _ "Y"), Hy by vm_decide. reflexivity.
Qed.

Definition ping_context : PlanContext nat := mkPlanContext link_store [] "n1" ping_rule ["X"; "Y"]%string None [] None.

Lemma ping_fires : fires (db_of link_data) ping_rule PEvent.RECV "ping" ping_us PAction.DROP "out" [VInt64 1; VInt64 5; VInt64 10].
Proof.
  exists (rebind ["X"; "Y"; "Z"; "W"]%string [VInt64 1; VInt64 2; VInt64 5; VInt64 10] (fun _ => VNull)), ping, out_pred.
  split_and!; [done|done|done|done|by repeat constructor| | |by repeat constructor].
  - apply Forall_singleton. exists [VInt64 2; VInt64 5]. split; [by repeat constructor|unfold db_of; vm_decide].
  - by repeat constructor.
Qed.

Lemma strand_correct_witness : exists pc' ev body outs,
  compileECARule false ping_context = Ok pc' /\ Forall passive ev
  /\ flows VNull link_data body [VStr "ping" :: ping_us] outs
  /\ [VStr "out"; VInt64 1; VInt64 5; VInt64 10] ∈ outs.
Proof.
  destruct (strand_correct (CB := nat) VNull link_data false link_store [] "n1" ping_rule ping PEvent.RECV out_pred PAction.DROP ping_plannable)
    as (pc0 & pcb & pc' & ev & body & H0 & H1 & H2 & H3 & H4 & H5).
  destruct (H5 ping_us eq_refl ping_calm ping_found) as (outs & Hf & Ho).
  injection H0 as <-. exists pc', ev, body, outs. split; [exact H1|]. split; [exact H4|]. split; [exact Hf|].
  apply Ho. exists [VInt64 1; VInt64 5; VInt64 10]. split; [reflexivity|exact ping_fires].
Defined.

(** Without a link the strand throws. *)
Lemma unmatched_probe_witness : exists jn pc' ss,
  generateProbeElements link_pred "ping" None ping_context = Ok (jn, pc') /\ pc_chain pc' = ss
  /\ forall machine i, run_chain VNull link_data ss machine i [[VStr "ping"; VInt64 1; VInt64 4]] = Fail OutOfRange.
Proof.
  destruct (unmatched_probe VNull link_data link_pred "ping" ping_context ping PEvent.RECV)
    as (jn & pc' & ss & L & I & R & H1 & H2 & H3 & H4).
  - reflexivity.
  - split; eexists; reflexivity.
  - repeat constructor.
  - apply link_linear.
  - exists "Y"%string. split; vm_decide.
  - reflexivity.
  - reflexivity.
  - reflexivity.
  - cbn. lia.
  - exists jn, pc', ss. split; [exact H1|]. split; [exact H2|].
    destruct (H4 (VStr "ping") [VInt64 1; VInt64 4]) as [H5 _].
    + reflexivity.
    + vm_compute in H3. injection H3 as <- <- <-. vm_compute. reflexivity.
    + apply H5. exists "Z"%string. split; vm_decide.
Defined.
End examples.
